(* ===== verification/_CoqProject ===== *)
-Q . S2P
Prelude.v
StdHeap.v
ScanInfo.v
Memory.v
MemFile.v
MemMan.v
MemManInv.v
MemManLaws.v
MemManThms.v
Double.v
Task.v
SchedulerBase.v
ChunkTasks.v
ChunkTasksQueue.v
ChunkTasksQueueInv.v
ChunkTasksHeap.v
ChunkTasksQueueThms.v
ScanScheduler.v
ScanSchedulerThms.v
GroupScheduler.v
ChunkDisk.v
QueriesAndChunks.v
QueriesAndChunksThms.v
EventThread.v
ThreadPool.v
BlendScheduler.v
BlendSchedulerInv.v
BlendSchedulerThms.v
WorkerInv.v
WorkerThms.v
WorkerRequest.v
WorkerProcessor.v
WorkerProcessorInv.v
WorkerProcessorThreads.v
WorkerProcessorThms.v
ChunkSpec.v
StdString.v
ChunkSelect.v
ChunkSelectThms.v
ResourceUnit.v
LocalInfile.v
ChunkResource.v
ChunkResourceThms.v
MergingHandler.v
Executive.v
ExecutiveInv.v
ExecutiveOwn.v
ExecutiveLocks.v
ExecutiveResults.v
ExecutiveSpawn.v
ExecutiveThms.v
CssPath.v
KvInterface.v
PropertyTree.v
KvInterfaceImplMem.v
KvMemThms.v
StdFloat.v
CssAccess.v
CssLogic.v
CssTables.v
CssAccessThms.v
CssNodesThms.v
SendChannel.v
QueryRunner.v
QueryRunnerInv.v
QueryRunnerThms.v
QueryRunnerCancel.v
ChunkInventory.v
WorkerCommands.v
SsiRequest.v
QueryIr.v
TableInfo.v
RelationGraph.v
RelationGraphVal.v
RelationGraphSem.v
RelationGraphInv.v
RelationGraphThms.v
RelationGraphDemo.v
QueryPlugins.v
QueryTemplate.v
