(* ===== verification/Prelude.v ===== *)
(** * Qserv: a verification development

    Qserv is a distributed SQL database for astronomical catalogues.  Its
    tables are cut into chunks that are spread over workers; a czar turns a
    user query into one task per chunk and sends the tasks to the workers.  A
    worker reads large tables in shared scans: tasks that need the same chunk
    run together while the files of the chunk are mapped and locked in memory.
    A replication system copies chunks between workers.

    ** What is modelled

    Paths are relative to [src/core/modules].

    The worker: when a task runs and what memory it holds.

    - [memman/]: the memory manager.  [Memory.v] ([Memory.h], [Memory.cc]: byte
      accounting, [stat], [mmap], [mlock]), [MemFile.v] ([MemFile]: the global
      cache of files with their reference counts), [MemMan.v] ([MemFileSet],
      [MemMan], [MemManReal], [MemManNone]).  The interface [MemMan] is a type
      class, what clients may rely on is the class [MemManLaws]
      ([MemManLaws.v]), with instances for both implementations.
    - [proto/ScanTableInfo]: [ScanInfo.v], the tables of a task and their order.
    - [wbase/Task]: [Task.v].  A task pointer is the constant part of the
      object with its address; the members that change are in a store, so all
      holders of the pointer see an update.  Module [Cancel]: [cancel] against
      [setTaskQueryRunner].
    - [wsched/]: [SchedulerBase.v], [ChunkTasks.v] and [ChunkTasksQueue.v] (the
      queue of a scan scheduler), [ScanScheduler.v], [GroupScheduler.v],
      [ChunkDisk.v] (the older queue), [BlendScheduler.v] (the scheduler that
      combines the others).
    - [wpublish/QueriesAndChunks]: [QueriesAndChunks.v], statistics of user
      queries, removal of dead ones, booting of slow tasks.  The schedulers are
      used through the class [TaskSchedulers]; [BlendScheduler.v] has its
      instance.
    - [util/EventThread] and [util/ThreadPool]: [EventThread.v] (the event loop
      and [leavePool] as steps that interleave), [ThreadPool.v] (the pool; its
      queue is the class [CommandQueue], of which the blend scheduler is an
      instance).
    - [wdb/ChunkResource] and [wdb/SQLBackend]: [ChunkResource.v], the tables of
      sub-chunks that are kept in memory while some task uses them.  The
      backend is the class [Backend]; [SQLBackend] and the fake backend of the
      tests are instances.  The database server is the class [SqlServer].
    - [wdb/QueryRunner], [mysql/MySqlConnection] and [util/MultiError]:
      [QueryRunner.v], what the function of a task does: connect, run the
      queries of the fragments, cut the rows into messages and send them, and
      how cancellation comes in between.  The database server is a script of
      answers.  [mysql/SchemaFactory], the types of columns, is there too.
    - [wbase/SendChannel], [xrdsvc/ChannelStream] and [StreamBuffer]:
      [SendChannel.v], the way of the messages into the response stream.
    - [wpublish/ChunkInventory] and [ResourceMonitor]: [ChunkInventory.v].  The
      commands that change the inventory, and [xrdsvc/SsiProvider] that
      announces it to the cluster: [WorkerCommands.v].
    - [xrdsvc/SsiRequest]: [SsiRequest.v], how a request is checked, counted,
      executed and finished.

    The czar: from a user query to the chunk queries and back to rows.

    - [query/]: [QueryIr.v], the trees of queries (value expressions, boolean
      terms, table references) with the operations that analysis uses.
    - [qana/TableInfo], [qana/TableInfoPool]: [TableInfo.v], the metadata of
      partitioned tables and which equalities between their columns say that
      rows are in the same chunk.
    - [qana/ColumnVertexMap], [qana/RelationGraph], what rewriting records in
      [qana/QueryMapping]: [RelationGraph.v], the analysis that decides whether
      a query can be evaluated chunk by chunk, and makes the templates of the
      chunk queries.  Vertices are objects of a heap.
    - [query/QueryTemplate], the methods that render a query, and
      [QueryMapping::apply]: [QueryTemplate.v], the text of chunk queries.
    - [qana/WherePlugin], [qana/MatchTablePlugin], [qana/AggregatePlugin] and
      [query/AggOp]: [QueryPlugins.v].
    - [qproc/ChunkSpec]: [ChunkSpec.v], lists of chunks and sub-chunks, their
      union and intersection, and cutting them into fragments.
    - [qproc/SecondaryIndex], [qproc/IndexMap], [css/EmptyChunks], the part of
      [qproc/QuerySession] that deals with chunks, and
      [UserQuerySelect::setupChunking]: [ChunkSelect.v].  The secondary index is
      the class [IndexBackend] with the MySQL and the fake implementation.
    - [global/ResourceUnit]: [ResourceUnit.v], the paths that name chunks and
      workers in requests.
    - [qdisp/]: [Executive.v] ([Executive], [JobQuery], [QueryRequest],
      [JobDescription], [JobStatus]): sending the jobs of a query, trying them
      again, cancelling and completing them, with all threads that take part
      at the granularity of critical sections.  The network library is what
      may happen next; its contract is part of the step relation.
    - [ccontrol/MergingHandler] and [proto/ProtoHeaderWrap]:
      [MergingHandler.v], the state machine that receives the messages of a
      worker.
    - [css/]: the common state system.  [KvInterface.v] has the interface of
      the key-value store as a class, and as a second class what it promises,
      on an abstract tree of values; [KvInterfaceImplMem.v] is the store in
      memory, [CssAccess.v] the access to databases, tables, chunks and nodes
      on any store.  [CssPath.v] has the keys, [PropertyTree.v] what is asked
      of the JSON library, with a library that has it.
    - [rproc/ProtoRowBuffer] and [mysql/LocalInfile]: [LocalInfile.v], the text
      of result rows and the virtual files through which MySQL loads it.
      [RowBuffer] is a class, with its laws in [RowBufferLaws].

    The replication system: the worker's queue of requests.

    - [replica/WorkerRequest] with the echo, SQL and find requests:
      [WorkerRequest.v], the state machine of a request.
    - [replica/WorkerProcessor] and [WorkerProcessorThread]:
      [WorkerProcessor.v], the queue, the threads and the calls of clients as
      steps that interleave.  What the processor relies on of [execute] is the
      class [ExecuteLaws].

    The standard library where the code depends on it: [StdHeap.v]
    ([std::push_heap], [std::pop_heap], [std::make_heap] as libstdc++ does them),
    [StdString.v] ([std::stoi], [std::to_string], character classes), [std_sort]
    below, [Double.v] (binary64 arithmetic), [StdFloat.v] ([std::stod], text of
    doubles, and that sums of non-negative doubles are monotonic).

    The parts work together as follows.  Analysis turns a query into templates
    ([where_applyLogical], [match_applyLogical], [RelationGraph_ctor], [rewrite],
    [aggregate_applyPhysical]), [mapping_apply] makes their text.  [setupChunking] gives the query its chunks;
    [buildChunkQuerySpec] makes the text for each, and a path made by
    [ResourceUnit] names the chunk in the request;
    the executive sends the requests and [MergingHandler] takes the results.  A task arrives at a worker in
    [bl_queCmd], which picks a sub-scheduler and queues it there.  A pool thread
    calls [bl_getCmd]: [bl_ready] shares out the threads and asks the
    sub-schedulers in order; a scan scheduler asks its chunk queue ([q_ready]),
    which obtains memory for the next task from the memory manager ([acquire],
    [mm_prepare]).  A task with sub-chunks holds a resource ([resource_acquire])
    while it runs; [runQuery] runs its queries and sends the messages that
    [MergingHandler] receives.  When the task ends, [bl_commandFinish] tells the scheduler,
    which releases the memory of the task, and the statistics.  [moveUserQuery]
    and [qc_examineAll] take tasks away from a scheduler; if the task runs, its
    thread leaves the pool ([leavePool]).  The rows that come back to the czar
    are loaded through [LocalInfile].

    ** Conventions

    A C++ function that may throw, fail an assertion or run into undefined
    behaviour is a function into [outcome]; where such a function is proved to
    return [Ret] none of these can happen.  Objects that are shared (files,
    tasks, statistics, schedulers, threads, requests) live in stores.  A method
    that holds its mutex throughout is one step; [EventThread.v],
    [Task.Cancel], [Executive.v] and the threads of [WorkerProcessor.v] go down to single
    accesses or critical sections.  Unsigned counters wrap at their width
    ([wrap32], [wrap64]); the [int] counters of the schedulers are unbounded
    integers.  The operating system is a parameter ([OsMem] in [Memory.v], with
    [OsMemLaws] for what [stat] and [mmap] promise and [OsStable] for constant
    file sizes); it may answer every call differently.  So are the geometry
    library ([Chunker]), SQL connections and files.  Logging, timing for
    statistics only and condition variables are left out; a waiting [getCmd] is
    a sequence of [_ready] calls before the last.  Loops that need fuel: the
    search of [ChunkTasksQueue::_ready] gets the number of chunks, and
    [queue_refines_spec] shows that this is enough in every reachable state;
    [buildFragment] gets one more than the number of sub-chunks, which
    [fragments_exact] shows to be enough; [ingest_loop] gets the length of its
    string; [validate] gets any number, and [validate_exact] shows that there is
    enough; [read_all] reads once per given size, and [infile_text_exact] says
    how many are enough.

    ** What is proved

    - [MemManThms.v] (with [MemManInv.v]): the memory manager never uses a deleted object, counts
      references exactly, keeps to its budget, accounts exactly for files of
      constant size, and leaks nothing; life cycle of handles; [prepare] and
      [lock].
    - [ChunkTasksQueueThms.v] (with [ChunkTasksQueueInv.v], [ChunkTasksHeap.v]):
      the chunk queue refines an abstract queue with at most one promised task,
      terminates, runs through the chunks in order, and offers slow scans first.
    - [ScanSchedulerThms.v] (with [ScanScheduler.v]): the memory of a running
      task stays locked, no handle leaks, counters are exact.
    - [GroupScheduler.v], [ChunkDisk.v]: order, bounds and grouping.
    - [QueriesAndChunksThms.v]: which statistics [removeDead] removes.
    - [EventThread.v], [ThreadPool.v]: [commandFinish] exactly once for every
      command, one release per thread, size of the pool.
    - [BlendSchedulerThms.v], [WorkerThms.v] (with [BlendSchedulerInv.v],
      [WorkerInv.v]): order of the schedulers, reserved threads, routing,
      results of [getCmd], moving a query loses no task.
    - [Task.v]: order of the tables of a task, no lost cancellation.
    - [ChunkResourceThms.v]: a table of a sub-chunk exists exactly while a
      resource has it; giving up a resource fails only with the backend.
    - [WorkerProcessorThms.v] (with [WorkerProcessorInv.v] and
      [WorkerProcessorThreads.v]): no request is lost or runs twice, one request
      per replica, priorities, errors, and that the processor stops.
    - [ChunkSpec.v], [ChunkSelectThms.v]: [normalize] and [intersect] against
      sets of sub-chunks, fragments, look-ups in the index, the chunks of a query.
    - [RelationGraphThms.v] (with [RelationGraphVal.v] for validation,
      [RelationGraphInv.v] for construction): evaluation of the templates on
      all chunks and sub-chunks, all workers together, selects the rows that the
      query selects on the whole catalog.  What that means is in
      [RelationGraphSem.v]: the class [Sky] (cells, distance) with [SkyLaws], the
      class [Catalog] (the rows of every table and what the workers store of
      them) with [CatalogLaws], and the truth of conditions ([sql_ok]).  For
      queries with inner joins, whose join conditions are not negated, are no
      inequalities of separations and have no negative bounds ([covered]).
      [near_trans] of [SkyLaws] adds distances with the rounding of
      [double].  [RelationGraphVal.v]: the search of [_validate] ends and
      accepts exactly the graphs that have a traversal.  [RelationGraphDemo.v]:
      a sky and a catalog that have the laws, and queries on them.
    - [QueryTemplate.v]: what a worker runs is the text of the user's query with
      the names of the tables of its chunk and sub-chunk.
    - [QueryPlugins.v]: aggregations computed in two phases have the value that
      they have on all rows (over exact numbers: sums of [DOUBLE] columns depend
      on the order); a query on a match table finds each row once; conditions are
      reduced without changing their truth ([getReduced_truth] of [QueryIr.v]).
    - [ResourceUnit.v]: paths are read back.
    - [LocalInfile.v]: a file is read completely whatever the sizes of the
      reads, and what [LOAD DATA] reads of it are the rows.
    - [ExecutiveThms.v] (with [ExecutiveInv.v], [ExecutiveOwn.v],
      [ExecutiveLocks.v], [ExecutiveResults.v], [ExecutiveSpawn.v]): in every
      interleaving no thread hits a bug, no job is forgotten, a job is sent at
      most six times, results are complete when a query succeeds, and threads do
      not wait for each other forever.
    - [MergingHandler.v]: the rows of a stream of messages are merged, each once
      and in order.
    - [QueryRunnerThms.v] (with [QueryRunnerInv.v]): a task
      sends the rows of all its queries, in messages that fit, the last one
      marked; put together with [MergingHandler], the czar merges exactly
      these rows.  [QueryRunnerCancel.v]: a task cancelled at any point has sent
      a part of that from the beginning on.
    - [WorkerCommands.v]: inventory, database and announcements agree after
      every command, the list of chunks is set exactly, chunks in use stay.
    - [SsiRequest.v]: requests in flight are counted.
    - [KvMemThms.v] (with [KvInterfaceImplMem.v]): the store in memory refines the
      abstract tree, its keys stay well-formed, and a dump restores it.
    - [CssAccessThms.v], [CssNodesThms.v] (with the program logic of [CssLogic.v],
      [CssTables.v]), on every store that keeps the promise of [KvInterface.v]: what
      is created is read back, what is dropped is gone, errors leave the store as
      it was, and a node in use is not deleted.  Doubles are stored with six
      decimals ([StdFloat.v]); the round trips say so.

    Some lemmas record behaviour that differs from what comments promise or the
    code means to do: [accounting_drift], [not_strict_weak],
    [slower_task_waits], [removed_query_still_counted],
    [late_task_not_counted], [stale_attempt_requeued],
    [cancelled_request_requeued], [find_request_fails],
    [disjoint_specs_select_all], [all_subchunks_lost], [intersect_overrun],
    [empty_chunks_failure_cached], [keys_fail_assertion],
    [worker_path_not_parsed], [trailing_backslash], [doubled_quote],
    [failed_load_not_repeated], [shared_table_dropped], [assignment_leaks],
    [late_request_status], [early_end_accepted], [small_overlap_lost],
    [table_without_db], [oversized_row_unreported],
    [broken_result_unreported], [refused_task_blocks], [refused_stream_blocks],
    [string_channel_stream], [unsigned_lost], [decimal_precision_off],
    [refused_request_uncounts], [failed_fetch_unpublishes],
    [invalid_database_announced], [failed_insert_forgets],
    [reduction_loses_not], [join_not_seen], [lookupOp_gaps],
    [child_match_duplicates], [unequal_separation_loses_rows],
    [negated_condition_loses_rows], [negative_separation_loops],
    [plain_factor_dropped], [empty_entry_erases].

    ** Not modelled

    Of the czar: parsing ([parser]), the text of the clauses after [WHERE], the other plugins of [qana]
    and the rest of [qproc], query control ([ccontrol], [czar], [proxy]), merging of
    results ([rproc/InfileMerger]), metadata ([qmeta]; of [css] the configuration
    and the store in MySQL).  Of
    the replication system: the controller with its jobs and services, and the
    requests that copy and delete files ([replica]), [qhttp].  SQL access
    (the rest of [mysql], [sql], [schema]), the configuration of the worker and
    the plugins that only forward calls (the rest of [wcontrol] and [xrdsvc],
    [xrdlog], [wmgr]).  These are input and output, generated code, or logic that has not
    been reached: the framing of messages ([proto/FrameBuffer],
    [replica/ProtocolBuffer]), [replica/ChunkLocker] and the controller side of
    the replication system.  Outer joins are in the model of [RelationGraph.v] but
    not in its theorems.

    ** This file

    Outcomes, proof automation, machine integers, sums over maps, ordered maps
    and sorting, for all other files. *)

From Stdlib Require Export ZArith Lia.
From stdpp Require Export base tactics gmap strings sorting numbers list.
Export list.

#[global] Open Scope Z_scope.

(** ** Outcomes: C++ exceptions, failed assertions and undefined behaviour *)

Module Outcome.

(** The ways in which a modelled C++ function may fail to return normally. *)
Inductive exn : Type :=
| BadException              (** [throw std::bad_exception()] *)
| BugException              (** [throw Bug(...)] *)
| AssertFailed              (** an [assert] that does not hold *)
| UndefinedBehaviour        (** e.g. dereferencing [end()] *)
| LogicError                (** [throw std::logic_error(...)] *)
| InvalidArgument           (** [throw std::invalid_argument(...)] *)
| OutOfRange                (** [throw std::out_of_range(...)] *)
| RuntimeError              (** [throw std::runtime_error(...)] or an error derived from it *)
| SqlError                  (** [throw] of an [sql::SqlErrorObject] *)
| ProgramExit               (** [exit(EXIT_FAILURE)], or an exception out of a destructor *)
| Blocked                   (** a wait that nothing ends *)
| OutOfFuel.                (** the loop bound of the model is too small *)

Inductive outcome (A : Type) : Type :=
| Ret (a : A)
| Raise (e : exn).
Arguments Ret {A} a.
Arguments Raise {A} e.

Definition bind {A B} (m : outcome A) (k : A -> outcome B) : outcome B :=
  match m with
  | Ret a => k a
  | Raise e => Raise e
  end.

Lemma bind_ret_inv {A B} (m : outcome A) (k : A -> outcome B) b :
  bind m k = Ret b -> exists a, m = Ret a /\ k a = Ret b.
Proof. destruct m; simpl; [eauto | discriminate]. Qed.

#[global] Instance exn_eq_dec : EqDecision exn.
Proof. solve_decision. Defined.
End Outcome.
Export Outcome.

Declare Scope outcome_scope.
Delimit Scope outcome_scope with outcome.
Notation "'let?' x := m 'in' k" :=
  (bind m (fun x => k)) (at level 10, x pattern, m at level 100, k at level 200) : outcome_scope.
#[global] Open Scope outcome_scope.

(** A loop whose body may fail. *)
Fixpoint foldM {S A} (f : S -> A -> outcome S) (s : S) (l : list A) : outcome S :=
  match l with
  | [] => Ret s
  | a :: l' => let? s' := f s a in foldM f s' l'
  end.

Lemma foldM_ind {S A} (P : S -> Prop) (f : S -> A -> outcome S) l :
  (forall s a s', a ∈ l -> P s -> f s a = Ret s' -> P s') ->
  forall s s', P s -> foldM f s l = Ret s' -> P s'.
Proof.
  induction l as [|a l IH]; simpl; intros Hf s s' Hs Hr; [congruence|].
  apply bind_ret_inv in Hr as (s1 & Hr1 & Hr).
  eapply IH; [|by eapply Hf; [left| |]|done]. intros. eapply Hf; [right| |]; eauto.
Qed.

(** ** Proof automation of the development *)

(** Case split on the innermost [match]/[if] of the goal or of a hypothesis. *)
Ltac case_goal :=
  match goal with
  | |- context [match ?x with _ => _ end] =>
      lazymatch x with
      | context [match _ with _ => _ end] => fail
      | _ => destruct x eqn:?
      end
  end.

Ltac case_hyp H :=
  match type of H with
  | context [match ?x with _ => _ end] =>
      lazymatch x with
      | context [match _ with _ => _ end] => fail
      | _ => destruct x eqn:?
      end
  end.

(** Peel the [let?]s of a hypothesis [H : bind m k = Ret _]. *)
Ltac unbind H :=
  let a := fresh "r" in
  let E := fresh "Hr" in
  apply bind_ret_inv in H; destruct H as (a & E & H).

Create HintDb qserv discriminated.

(** ** Machine integers *)

Definition two32 : Z := 4294967296.
Definition two64 : Z := 18446744073709551616.

(** Unsigned wrap-around of [uint32_t]/[std::atomic_uint] and [uint64_t]. *)
Definition wrap32 (z : Z) : Z := z mod two32.
Definition wrap64 (z : Z) : Z := z mod two64.

Lemma wrap64_small z : 0 <= z < two64 -> wrap64 z = z.
Proof. apply Z.mod_small. Qed.

Lemma wrap64_range z : 0 <= wrap64 z < two64.
Proof. apply Z.mod_pos_bound. reflexivity. Qed.

(** [errno] values, as on Linux. *)
Definition ENOENT : Z := 2.
Definition ENOMEM : Z := 12.
Definition EAGAIN : Z := 11.
Definition EFAULT : Z := 14.
Definition EXDEV : Z := 18.
Definition EINVAL : Z := 22.
Definition ESPIPE : Z := 29.

(** ** Sums over finite maps *)

Section msum.
Context {K : Type} `{Countable K} {A : Type}.
Implicit Types (f g : K -> A -> Z) (m : gmap K A).

Definition msum f m : Z := map_fold (fun k a acc => f k a + acc) 0 m.

Lemma msum_empty f : msum f ∅ = 0.
Proof. apply map_fold_empty. Qed.

Lemma msum_insert f m k a :
  m !! k = None -> msum f (<[k:=a]> m) = f k a + msum f m.
Proof.
  intros Hk. unfold msum. rewrite map_fold_insert_L; [done | | done].
  intros; lia.
Qed.

Lemma msum_lookup f m k a :
  m !! k = Some a -> msum f m = f k a + msum f (delete k m).
Proof.
  intros Hk. rewrite <- (insert_delete_id m k a) at 1 by done.
  apply msum_insert, lookup_delete_eq.
Qed.

Lemma msum_delete f m k a :
  m !! k = Some a -> msum f (delete k m) = msum f m - f k a.
Proof. intros Hk. rewrite (msum_lookup f m k a Hk). lia. Qed.

Lemma msum_update f m k a b :
  m !! k = Some a -> msum f (<[k:=b]> m) = msum f m - f k a + f k b.
Proof.
  intros Hk. rewrite <- insert_delete_eq, msum_insert by apply lookup_delete_eq.
  rewrite (msum_delete f m k a) by done. lia.
Qed.

Lemma msum_ext f g m :
  (forall k a, m !! k = Some a -> f k a = g k a) -> msum f m = msum g m.
Proof.
  induction m as [|k a m Hk IH] using map_ind; intros Hfg; [done|].
  rewrite !msum_insert by done. f_equal.
  - apply Hfg. apply lookup_insert_eq.
  - apply IH. intros j b Hj. apply Hfg. rewrite lookup_insert_ne; [done|]. congruence.
Qed.

Lemma msum_le f g m :
  (forall k a, m !! k = Some a -> f k a <= g k a) -> msum f m <= msum g m.
Proof.
  induction m as [|k a m Hk IH] using map_ind; intros Hfg; [done|].
  rewrite !msum_insert by done.
  assert (f k a <= g k a) by (apply Hfg, lookup_insert_eq).
  assert (msum f m <= msum g m); [|lia].
  apply IH. intros j b Hj. apply Hfg. rewrite lookup_insert_ne; [done|]. congruence.
Qed.

Lemma msum_zero m : msum (fun _ _ => 0) m = 0.
Proof.
  induction m as [|k a m Hk IH] using map_ind; [done|]. rewrite msum_insert by done. lia.
Qed.

Lemma msum_nonneg f m :
  (forall k a, m !! k = Some a -> 0 <= f k a) -> 0 <= msum f m.
Proof. intros Hf. rewrite <- (msum_zero m). by apply msum_le. Qed.

(** A summand never exceeds a sum of non-negative terms. *)
Lemma msum_member f m k a :
  (forall k a, m !! k = Some a -> 0 <= f k a) -> m !! k = Some a -> f k a <= msum f m.
Proof.
  intros Hf Hk. rewrite (msum_lookup f m k a Hk).
  assert (0 <= msum f (delete k m)); [|lia].
  apply msum_nonneg. intros j b Hj. apply lookup_delete_Some in Hj. naive_solver.
Qed.
End msum.

(** ** [std::map<int, _>] iterators

    A [gmap Z A] with the numeric order of its keys: [begin()], [++iter] and
    the cyclic advance used by the shared scan. *)

Section ordered_keys.
Context {A : Type}.
Implicit Types (m : gmap Z A) (k : Z).

(** The least of a list of keys above [lo], if any. *)
Definition least_above (lo : option Z) (l : list Z) : option Z :=
  foldr (fun k acc =>
    if (match lo with Some b => b <? k | None => true end)
    then match acc with Some j => Some (Z.min k j) | None => Some k end
    else acc) None l.

Definition keys m : list Z := (map_to_list m).*1.
(** [m.begin()] ([None] is [m.end()]). *)
Definition first_key m : option Z := least_above None (keys m).
(** [++iter] for an iterator at key [k]. *)
Definition next_key m k : option Z := least_above (Some k) (keys m).
(** [++iter; if (iter == m.end()) iter = m.begin();] *)
Definition cyc_next m k : option Z :=
  match next_key m k with Some j => Some j | None => first_key m end.

Lemma elem_of_keys m k : k ∈ keys m <-> is_Some (m !! k).
Proof.
  unfold keys. rewrite list_elem_of_fmap. split.
  - intros ([j a] & -> & Hj). apply elem_of_map_to_list in Hj. simpl. eauto.
  - intros [a Ha]. exists (k, a). split; [done|]. by apply elem_of_map_to_list.
Qed.

Definition above (lo : option Z) k : Prop :=
  match lo with Some b => b < k | None => True end.

Lemma above_bool lo k :
  (match lo with Some b => b <? k | None => true end) = true <-> above lo k.
Proof. destruct lo; simpl; [apply Z.ltb_lt | tauto]. Qed.

Lemma least_above_Some lo l k :
  least_above lo l = Some k ->
  k ∈ l /\ above lo k /\ forall j, j ∈ l -> above lo j -> k <= j.
Proof.
  revert k. induction l as [|x l IH]; intros k; simpl; [done|].
  destruct (match lo with Some b => b <? x | None => true end) eqn:Ex.
  - apply above_bool in Ex.
    destruct (least_above lo l) as [j|] eqn:Ej; intros [= <-].
    + destruct (IH j eq_refl) as (Hin & Hab & Hmin).
      split; [|split].
      * destruct (Z.min_spec x j) as [[_ ->]|[_ ->]]; set_solver.
      * destruct (Z.min_spec x j) as [[_ ->]|[_ ->]]; done.
      * intros i [->|Hi]%elem_of_cons Hlo; [lia|]. specialize (Hmin i Hi Hlo). lia.
    + split; [set_solver|]. split; [done|].
      intros i [->|Hi]%elem_of_cons Hlo; [lia|].
      exfalso. clear IH. revert Ej. clear -Hi Hlo. induction l as [|y l IH]; [set_solver|]. simpl.
      destruct (match lo with Some b => b <? y | None => true end) eqn:Ey.
      * by destruct (least_above lo l).
      * apply elem_of_cons in Hi as [->|Hi]; [|by apply IH].
        apply above_bool in Hlo. congruence.
  - intros Hl. destruct (IH k Hl) as (Hin & Hab & Hmin).
    split; [set_solver|]. split; [done|].
    intros i [->|Hi]%elem_of_cons Hlo; [|by apply Hmin].
    apply above_bool in Hlo. congruence.
Qed.

Lemma least_above_None lo l : least_above lo l = None -> forall j, j ∈ l -> ~ above lo j.
Proof.
  induction l as [|y l IH]; intros Hn j Hj Hlo; [set_solver|]. simpl in Hn.
  destruct (match lo with Some b => b <? y | None => true end) eqn:Ey.
  - by destruct (least_above lo l).
  - apply elem_of_cons in Hj as [->|Hj]; [|by eapply IH].
    apply above_bool in Hlo. congruence.
Qed.

Lemma first_key_spec m k :
  first_key m = Some k -> is_Some (m !! k) /\ forall j, is_Some (m !! j) -> k <= j.
Proof.
  intros Hf. apply least_above_Some in Hf as (Hin & _ & Hmin).
  split; [by apply elem_of_keys|]. intros j Hj. apply Hmin; [|done]. by apply elem_of_keys.
Qed.

Lemma first_key_None m : first_key m = None -> m = ∅.
Proof.
  intros Hf. apply map_eq. intros j. rewrite lookup_empty.
  destruct (m !! j) eqn:Ej; [|done]. exfalso.
  eapply (least_above_None None (keys m)); [exact Hf | apply elem_of_keys; eauto | done].
Qed.

Lemma next_key_spec m k k' :
  next_key m k = Some k' ->
  is_Some (m !! k') /\ k < k' /\ forall j, is_Some (m !! j) -> k < j -> k' <= j.
Proof.
  intros Hf. apply least_above_Some in Hf as (Hin & Hlt & Hmin).
  split; [by apply elem_of_keys|]. split; [done|].
  intros j Hj Hkj. apply Hmin; [|done]. by apply elem_of_keys.
Qed.

Lemma next_key_None m k : next_key m k = None -> forall j, is_Some (m !! j) -> j <= k.
Proof.
  intros Hf j Hj. destruct (Z.le_gt_cases j k); [done|]. exfalso.
  eapply (least_above_None (Some k) (keys m)); [exact Hf | by apply elem_of_keys | simpl; lia].
Qed.

(** The cyclic successor is a key, and no key lies strictly between. *)
Lemma cyc_next_spec m k k' :
  cyc_next m k = Some k' ->
  is_Some (m !! k') /\
  ((k < k' /\ forall j, is_Some (m !! j) -> k < j -> k' <= j) \/
   ((forall j, is_Some (m !! j) -> j <= k) /\ (forall j, is_Some (m !! j) -> k' <= j))).
Proof.
  unfold cyc_next. destruct (next_key m k) as [j|] eqn:En.
  - intros [= <-]. apply next_key_spec in En as (? & ? & ?). auto.
  - intros Hf. apply first_key_spec in Hf as (? & ?). split; [done|]. right.
    split; [by apply next_key_None | done].
Qed.

Lemma cyc_next_is_Some m k : m <> ∅ -> is_Some (cyc_next m k).
Proof.
  intros Hm. unfold cyc_next. destruct (next_key m k); [eauto|].
  destruct (first_key m) eqn:Ef; [eauto|]. by apply first_key_None in Ef.
Qed.

(** [after s i j]: starting a round at [s], [i] is visited before [j]. *)
Definition after (s i j : Z) : Prop :=
  (s <= i /\ (i < j \/ j < s)) \/ (i < s /\ i < j < s).

#[global] Instance after_dec s i j : Decision (after s i j).
Proof. unfold after. solve_decision. Defined.

Lemma after_first s j : j <> s -> after s s j.
Proof. unfold after. lia. Qed.

Lemma after_irrefl s i : ~ after s i i.
Proof. unfold after. lia. Qed.

Lemma after_trans s i j k : after s i j -> after s j k -> after s i k.
Proof. unfold after. lia. Qed.

Lemma after_total s i j : i <> j -> after s i j \/ after s j i.
Proof. unfold after. lia. Qed.

(** Advancing cyclically from [i] either completes the round or reaches the
    next key of the round. *)
Lemma cyc_next_round m s i j :
  is_Some (m !! s) -> is_Some (m !! i) -> cyc_next m i = Some j ->
  is_Some (m !! j) /\
  ((j = s /\ forall k, is_Some (m !! k) -> ~ after s i k) \/
   (j <> s /\ after s i j /\ forall k, is_Some (m !! k) -> after s i k -> k = j \/ after s j k)).
Proof.
  intros Hs Hi Hn. apply cyc_next_spec in Hn as [Hj Hcases]. split; [done|].
  unfold after. destruct (decide (j = s)) as [->|Hne]; [left|right]; (split; [done|]).
  - intros k Hk. destruct Hcases as [[Hlt Hmin]|[Hmax Hmin]].
    + destruct (Z.le_gt_cases k i); [lia|]. specialize (Hmin k Hk). lia.
    + pose proof (Hmax k Hk). pose proof (Hmin k Hk). lia.
  - pose proof Hcases as Hc. destruct Hcases as [[Hlt Hmin]|[Hmax Hmin]].
    + split.
      * destruct (Z.le_gt_cases s i); [lia|]. specialize (Hmin s Hs). lia.
      * intros k Hk Hak. destruct (Z.le_gt_cases k i); [lia|]. specialize (Hmin k Hk). lia.
    + pose proof (Hmax s Hs). pose proof (Hmin s Hs). pose proof (Hmin i Hi). split; [lia|].
      intros k Hk Hak. pose proof (Hmax k Hk). pose proof (Hmin k Hk). lia.
Qed.

(** The keys still to be visited in the round. *)
Definition to_visit m (s i : Z) : gset Z := filter (after s i) (dom m).

Lemma to_visit_next m s i j :
  is_Some (m !! j) -> after s i j -> (size (to_visit m s j) < size (to_visit m s i))%nat.
Proof.
  intros Hj Haf. apply subset_size. split.
  - intros k [Hk Hd]%elem_of_filter. apply elem_of_filter. split; [by eapply after_trans|done].
  - intros Hsub. apply (after_irrefl s j).
    assert (Hin : j ∈ to_visit m s i) by (apply elem_of_filter; split; [done|]; by apply elem_of_dom).
    apply Hsub in Hin. by apply elem_of_filter in Hin as [? _].
Qed.

Lemma to_visit_start m s : is_Some (m !! s) -> (size (to_visit m s s) < size m)%nat.
Proof.
  intros Hs. rewrite <- size_dom. apply subset_size. split.
  - by intros k [_ Hd]%elem_of_filter.
  - intros Hsub. apply (after_irrefl s s).
    assert (Hin : s ∈ dom m) by (by apply elem_of_dom).
    apply Hsub in Hin. by apply elem_of_filter in Hin as [? _].
Qed.
End ordered_keys.

(** [find] and [erase] of the first occurrence in a vector. *)
Fixpoint remove_first {A} `{EqDecision A} (x : A) (l : list A) : list A :=
  match l with
  | [] => []
  | y :: l' => if decide (y = x) then l' else y :: remove_first x l'
  end.

Lemma remove_first_Permutation {A} `{EqDecision A} (x : A) l : x ∈ l -> l ≡ₚ x :: remove_first x l.
Proof.
  induction l as [|y l IH]; simpl; [set_solver|]. intros Hx. case_decide as Hy; [by subst|].
  apply elem_of_cons in Hx as [->|Hx]; [done|]. rewrite (IH Hx) at 1. apply Permutation_swap.
Qed.

(** The elements of a [std::map<int, _>] in the order of iteration. *)
Definition key_le {A} (a b : Z * A) : Prop := a.1 <= b.1.
#[global] Instance key_le_dec {A} : RelDecision (key_le (A := A)).
Proof. intros x y. unfold key_le. apply _. Defined.

Definition in_order {A} (m : gmap Z A) : list (Z * A) := merge_sort key_le (map_to_list m).

Lemma in_order_Permutation {A} (m : gmap Z A) : in_order m ≡ₚ map_to_list m.
Proof. apply merge_sort_Permutation. Qed.

Lemma elem_of_in_order {A} (m : gmap Z A) k a : (k, a) ∈ in_order m <-> m !! k = Some a.
Proof. by rewrite in_order_Permutation, elem_of_map_to_list. Qed.

(** ** Strict weak orders and [std::sort]

    The comparators given to the standard algorithms; [std_sort] is the
    insertion sort that libstdc++ uses on short ranges (up to 16 elements),
    which is stable. *)

Class StrictWeak {A : Type} (comp : A -> A -> bool) : Prop := {
  sw_asym x y : comp x y = true -> comp y x = false;
  sw_ntrans x y z : comp x y = false -> comp y z = false -> comp x z = false;
}.

Section std_sort.
Context {A : Type} (lt : A -> A -> bool).
Implicit Types (l : list A) (x y : A).

Fixpoint sort_insert x l : list A :=
  match l with
  | [] => [x]
  | y :: l' => if lt x y then x :: y :: l' else y :: sort_insert x l'
  end.

Definition std_sort l : list A := foldl (fun acc x => sort_insert x acc) [] l.

Lemma sort_insert_Permutation x l : sort_insert x l ≡ₚ x :: l.
Proof.
  induction l as [|y l IH]; simpl; [done|]. destruct (lt x y); [done|].
  rewrite IH. constructor.
Qed.

Lemma foldl_insert_Permutation l acc :
  foldl (fun acc x => sort_insert x acc) acc l ≡ₚ acc ++ l.
Proof.
  revert acc. induction l as [|x l IH]; intros acc; simpl; [by rewrite app_nil_r|].
  rewrite IH, sort_insert_Permutation. by rewrite <- Permutation_middle.
Qed.

Lemma std_sort_Permutation l : std_sort l ≡ₚ l.
Proof. apply foldl_insert_Permutation. Qed.

(** [ordered l]: no later element is less than an earlier one. *)
Definition ordered l : Prop := StronglySorted (fun x y => lt y x = false) l.

Lemma sort_insert_ordered `{!StrictWeak lt} x l : ordered l -> ordered (sort_insert x l).
Proof.
  induction 1 as [|y l Hs IH Hy]; simpl; [repeat constructor|].
  destruct (lt x y) eqn:E; constructor; auto.
  - by constructor.
  - constructor; [by apply sw_asym|]. eapply Forall_impl; [exact Hy|].
    intros z Hz. eapply sw_ntrans; [exact Hz | by apply sw_asym].
  - rewrite sort_insert_Permutation. by constructor.
Qed.

Lemma std_sort_ordered `{!StrictWeak lt} l : ordered (std_sort l).
Proof.
  unfold std_sort. assert (H : ordered []) by constructor. revert H. generalize (@nil A).
  induction l as [|x l IH]; intros acc Hacc; simpl; [done|]. by apply IH, sort_insert_ordered.
Qed.
End std_sort.
