(* ===== verification/StdHeap.v ===== *)
(** * The heap algorithms of the C++ standard library

    [std::push_heap], [std::pop_heap] and [std::make_heap] over a vector, as
    libstdc++ implements them ([__push_heap] moves a hole up, [__adjust_heap]
    moves it down to a leaf and up again).  The task heaps of the schedulers
    ([SlowTableHeap] of ChunkTasksQueue.h, [MinHeap] of ChunkDisk.h) are built
    on them.

    Two groups of lemmas: the contents are permuted whatever the comparator
    does, and with a strict weak order the front is a maximum. *)

From S2P Require Import Prelude.

Section heap.
Context {A : Type} (comp : A -> A -> bool).
Implicit Types (l : list A) (x v : A).
Local Open Scope nat_scope.

Definition parent (i : nat) : nat := (i - 1) / 2.

(** [__push_heap(first, hole, top, value)]; [fuel] bounds [hole]. *)
Fixpoint sift_up (fuel : nat) l (hole top : nat) v : list A :=
  match fuel with
  | O => <[hole := v]> l
  | S fuel' =>
      if top <? hole then
        match l !! parent hole with
        | Some p =>
            if comp p v
            then sift_up fuel' (<[hole := p]> l) (parent hole) top v
            else <[hole := v]> l
        | None => <[hole := v]> l
        end
      else <[hole := v]> l
  end.

(** The loop of [__adjust_heap]: moves the hole down, always taking the
    larger child; returns the vector, the hole and [secondChild]. *)
Fixpoint sift_down (fuel : nat) l (hole second len : nat) : list A * nat * nat :=
  match fuel with
  | O => (l, hole, second)
  | S fuel' =>
      if second <? (len - 1) / 2 then
        match l !! (2 * (second + 1)), l !! (2 * (second + 1) - 1) with
        | Some x, Some y =>
            if comp x y
            then sift_down fuel' (<[hole := y]> l) (2 * (second + 1) - 1) (2 * (second + 1) - 1) len
            else sift_down fuel' (<[hole := x]> l) (2 * (second + 1)) (2 * (second + 1)) len
        | _, _ => (l, hole, second)
        end
      else (l, hole, second)
  end.

(** [__adjust_heap(first, hole, len, value)] *)
Definition adjust_heap l (hole len : nat) v : list A :=
  let '(l1, h1, s1) := sift_down len l hole hole len in
  let '(l2, h2) :=
    if Nat.even len && (2 <=? len) && (s1 =? (len - 2) / 2) then
      match l1 !! (2 * (s1 + 1) - 1) with
      | Some z => (<[h1 := z]> l1, 2 * (s1 + 1) - 1)
      | None => (l1, h1)
      end
    else (l1, h1) in
  sift_up h2 l2 h2 hole v.

(** [v.push_back(x); std::push_heap(v.begin(), v.end(), comp);] *)
Definition push_heap l x : list A := sift_up (length l) (l ++ [x]) (length l) 0 x.

(** [std::pop_heap(v.begin(), v.end(), comp); v.pop_back();] on a non-empty
    vector: the last element is re-inserted at the root of the others. *)
Definition pop_heap l : list A :=
  match last l with
  | None => l
  | Some v =>
      let l' := take (length l - 1) l in
      match l' with
      | [] => []
      | _ :: _ => adjust_heap l' 0 (length l') v
      end
  end.

(** [std::make_heap]: sifts every inner node, from the last one to the root. *)
Fixpoint make_heap_from (p : nat) l : list A :=
  let l' := match l !! p with
            | Some v => adjust_heap l p (length l) v
            | None => l
            end in
  match p with
  | O => l'
  | S p' => make_heap_from p' l'
  end.

Definition make_heap l : list A :=
  if length l <? 2 then l else make_heap_from ((length l - 2) / 2) l.

(** ** Lengths and contents *)

Lemma sift_up_length n l h t v : length (sift_up n l h t v) = length l.
Proof.
  revert l h. induction n as [|n IH]; intros l h; simpl; [by rewrite length_insert|].
  repeat case_match; rewrite ?IH, ?length_insert; done.
Qed.

Lemma sift_down_spec n l h s len l' h' s' :
  sift_down n l h s len = (l', h', s') ->
  length l' = length l /\ (h < length l -> h' < length l).
Proof.
  revert l h s. induction n as [|n IH]; intros l h s; cbn [sift_down]; [by intros [= <- <- <-]|].
  destruct (s <? (len - 1) / 2); [|by intros [= <- <- <-]].
  destruct (l !! (2 * (s + 1))) as [x|] eqn:Ex; [|by intros [= <- <- <-]].
  destruct (l !! (2 * (s + 1) - 1)) as [y|] eqn:Ey; [|by intros [= <- <- <-]].
  apply lookup_lt_Some in Ex, Ey.
  destruct (comp x y); intros Hd; apply IH in Hd as [Hl Hh]; rewrite length_insert in *; auto.
Qed.

(** Overwriting an entry exchanges the old value for the new one. *)
Lemma insert_Permutation l i u w : l !! i = Some u -> u :: <[i := w]> l ≡ₚ w :: l.
Proof.
  revert i. induction l as [|e l IH]; intros [|i] Hi; simplify_eq/=; [constructor|].
  rewrite Permutation_swap, (IH i Hi). constructor.
Qed.

(** Moving an element into the hole and the hole to its place keeps the contents. *)
Lemma move_hole_Permutation l i j z v :
  i < length l -> l !! j = Some z -> <[j := v]> (<[i := z]> l) ≡ₚ <[i := v]> l.
Proof.
  intros Hi Hz. destruct (decide (i = j)) as [->|Hne]; [by rewrite list_insert_insert_eq|].
  destruct (lookup_lt_is_Some_2 l i Hi) as [c Hc].
  rewrite list_insert_insert_ne by done. apply (Permutation_cons_inv (a := c)).
  rewrite !insert_Permutation by (rewrite ?list_lookup_insert_ne; done). done.
Qed.

Lemma sift_up_Permutation n l h t v :
  h < length l -> sift_up n l h t v ≡ₚ <[h := v]> l.
Proof.
  revert l h. induction n as [|n IH]; intros l h Hh; simpl; [done|].
  destruct (t <? h); [|done].
  destruct (l !! parent h) as [p|] eqn:Ep; [|done]. destruct (comp p v); [|done].
  rewrite IH by (rewrite length_insert; apply lookup_lt_Some in Ep; done).
  by apply move_hole_Permutation.
Qed.

Lemma sift_down_Permutation n l h s len l' h' s' v :
  sift_down n l h s len = (l', h', s') -> h < length l ->
  <[h' := v]> l' ≡ₚ <[h := v]> l.
Proof.
  revert l h s. induction n as [|n IH]; intros l h s; cbn [sift_down]; [by intros [= <- <- <-]|].
  destruct (s <? (len - 1) / 2); [|by intros [= <- <- <-]].
  destruct (l !! (2 * (s + 1))) as [x|] eqn:Ex; [|by intros [= <- <- <-]].
  destruct (l !! (2 * (s + 1) - 1)) as [y|] eqn:Ey; [|by intros [= <- <- <-]].
  pose proof (lookup_lt_Some _ _ _ Ex). pose proof (lookup_lt_Some _ _ _ Ey).
  destruct (comp x y); intros Hd Hh; rewrite (IH _ _ _ Hd) by (by rewrite length_insert);
    by apply move_hole_Permutation.
Qed.

Lemma adjust_heap_Permutation l h len v :
  h < length l -> adjust_heap l h len v ≡ₚ <[h := v]> l.
Proof.
  intros Hh. unfold adjust_heap.
  destruct (sift_down len l h h len) as [[l1 h1] s1] eqn:Ed.
  pose proof (sift_down_spec _ _ _ _ _ _ _ _ Ed) as [Hl Hlt].
  rewrite <- (sift_down_Permutation _ _ _ _ _ _ _ _ v Ed Hh).
  destruct (_ && _); [|apply sift_up_Permutation; lia].
  destruct (l1 !! _) as [z|] eqn:Ez; [|apply sift_up_Permutation; lia].
  rewrite sift_up_Permutation; [apply move_hole_Permutation; [lia|done]|].
  rewrite length_insert. by apply lookup_lt_Some in Ez.
Qed.

Lemma push_heap_Permutation l x : push_heap l x ≡ₚ x :: l.
Proof.
  unfold push_heap. rewrite sift_up_Permutation by (rewrite length_app; simpl; lia).
  rewrite list_insert_id; [by rewrite (comm app)|]. by apply list_lookup_middle.
Qed.

Lemma pop_heap_Permutation x l : x :: pop_heap (x :: l) ≡ₚ x :: l.
Proof.
  unfold pop_heap. destruct (last (x :: l)) as [v|] eqn:El; [|by apply last_None in El].
  apply last_Some in El as [k Hk]. rewrite Hk, length_app; simpl.
  replace (length k + 1 - 1) with (length k) by lia. rewrite take_app_length.
  destruct k as [|y k]; simplify_eq/=; [reflexivity|].
  rewrite adjust_heap_Permutation by (simpl; lia). simpl. by rewrite (comm app k).
Qed.

Lemma make_heap_Permutation l : make_heap l ≡ₚ l.
Proof.
  unfold make_heap. destruct (_ <? 2); [done|].
  generalize ((length l - 2) / 2). intros p. revert l.
  assert (Hstep : forall l n, match l !! n with
      | Some v => adjust_heap l n (length l) v | None => l end ≡ₚ l).
  { intros l n. destruct (l !! n) as [v|] eqn:Ev; [|done].
    rewrite adjust_heap_Permutation by (by apply lookup_lt_Some in Ev). by rewrite list_insert_id. }
  induction p as [|p IH]; intros l; simpl; [apply Hstep|]. by rewrite IH, Hstep.
Qed.

(** ** The heap order, for a strict weak order *)

(** No node of the part of the vector below position [t] is less than a child. *)
Definition heap_from (t : nat) l : Prop :=
  forall i x p, 0 < i -> t <= parent i ->
    l !! i = Some x -> l !! parent i = Some p -> comp p x = false.

Definition is_heap l : Prop := heap_from 0 l.

(** [under t h]: [t] is an ancestor of [h] (or [h] itself). *)
Inductive under (t : nat) : nat -> Prop :=
| under_refl : under t t
| under_child h : t < h -> under t (parent h) -> under t h.

Lemma under_ge t h : under t h -> t <= h.
Proof. induction 1; lia. Qed.

Lemma parent_lt i : 0 < i -> parent i < i.
Proof. intros. unfold parent. apply Nat.Div0.div_lt_upper_bound; lia. Qed.

Lemma parent_child i h : 0 < i -> parent i = h <-> i = 2 * h + 1 \/ i = 2 * h + 2.
Proof.
  intros Hi. unfold parent. split.
  - intros <-. pose proof (Nat.div_mod_eq (i - 1) 2).
    pose proof (Nat.mod_upper_bound (i - 1) 2). lia.
  - intros [-> | ->]; symmetry; [apply (Nat.div_unique _ _ _ 0) | apply (Nat.div_unique _ _ _ 1)]; lia.
Qed.

Lemma under_0 h : under 0 h.
Proof.
  induction (lt_wf h) as [h _ IH]. destruct h as [|h]; [constructor|].
  apply under_child; [lia|]. apply IH, parent_lt. lia.
Qed.

Section order.
Context `{!StrictWeak comp}.

(** Every pair that does not touch the hole is in order, and the parent
    of the hole is not less than the children of the hole. *)
Definition hole_ok t l h : Prop :=
  (forall i x p, 0 < i -> t <= parent i -> i <> h -> parent i <> h ->
     l !! i = Some x -> l !! parent i = Some p -> comp p x = false) /\
  (t < h -> forall i x p, 0 < i -> parent i = h ->
     l !! i = Some x -> l !! parent h = Some p -> comp p x = false).

(** Moving [z], a child of the hole at [c] that is not less than the other
    child, into the hole leaves a hole at [c]. *)
Lemma hole_down t l h c z :
  t <= h -> 0 < c -> parent c = h -> l !! c = Some z -> hole_ok t l h ->
  (forall i x, 0 < i -> i <> c -> parent i = h -> l !! i = Some x -> comp z x = false) ->
  hole_ok t (<[h := z]> l) c.
Proof.
  intros Hth Hc0 Hch Hz [H1 H2] Hsib. pose proof (parent_lt c Hc0) as Hlt.
  assert (Hhl : h < length l) by (apply lookup_lt_Some in Hz; lia).
  split.
  - intros i x p Hi Ht Hic Hpc Hx Hp. destruct (decide (i = h)) as [Heq|Hih]; [subst i|].
    + rewrite list_lookup_insert_eq in Hx by done. injection Hx as <-.
      pose proof (parent_lt h Hi). rewrite list_lookup_insert_ne in Hp by lia.
      eapply H2; [lia | exact Hc0 | done | done | done].
    + rewrite list_lookup_insert_ne in Hx by done.
      destruct (decide (parent i = h)) as [Hpi|Hpi].
      * rewrite Hpi, list_lookup_insert_eq in Hp by done. injection Hp as <-. by eapply Hsib.
      * rewrite list_lookup_insert_ne in Hp by done. by eapply (H1 i).
  - intros _ i x p Hi Hpi Hx Hp. pose proof (parent_lt i Hi).
    rewrite list_lookup_insert_ne in Hx by lia. rewrite Hch, list_lookup_insert_eq in Hp by done.
    injection Hp as <-. apply (H1 i); [done | lia | lia | lia | done | by rewrite Hpi].
Qed.

(** Filling the hole: [v] is ordered with the parent and the children. *)
Lemma hole_fill t l h v :
  hole_ok t l h -> h < length l ->
  (forall i x, 0 < i -> parent i = h -> l !! i = Some x -> comp v x = false) ->
  (t < h -> t <= parent h -> forall p, l !! parent h = Some p -> comp p v = false) ->
  heap_from t (<[h := v]> l).
Proof.
  intros [H1 H2] Hhl Hch Hpa i x p Hi Ht Hx Hp. pose proof (parent_lt i Hi).
  destruct (decide (i = h)) as [Heq|Hih]; [subst i|].
  - rewrite list_lookup_insert_eq in Hx by done. injection Hx as <-.
    rewrite list_lookup_insert_ne in Hp by lia. apply Hpa; [lia | done | done].
  - rewrite list_lookup_insert_ne in Hx by done. destruct (decide (parent i = h)) as [Hpi|Hpi].
    + rewrite Hpi, list_lookup_insert_eq in Hp by done. injection Hp as <-. by eapply Hch.
    + rewrite list_lookup_insert_ne in Hp by done. by eapply (H1 i).
Qed.

Lemma sift_up_heap n t l h v :
  h <= n -> under t h -> h < length l -> hole_ok t l h ->
  (forall i x, 0 < i -> parent i = h -> l !! i = Some x -> comp v x = false) ->
  heap_from t (sift_up n l h t v).
Proof.
  revert l h. induction n as [|n IH]; intros l h Hn Hu Hhl Hok Hch; simpl.
  { apply hole_fill; auto. lia. }
  destruct (Nat.ltb_spec t h) as [Hth|Hth]; [|apply hole_fill; auto; lia].
  destruct (l !! parent h) as [p|] eqn:Ep; [|apply hole_fill; auto; congruence].
  pose proof (parent_lt h ltac:(lia)) as Hlt.
  destruct (comp p v) eqn:Ec; [|apply hole_fill; auto; congruence].
  assert (Huh : under t (parent h)) by (inversion Hu; subst; [lia|done]).
  pose proof (under_ge _ _ Huh). destruct Hok as [H1 H2].
  apply IH; [lia | done | rewrite length_insert; lia | split | ].
  - intros i x q Hi Ht Hip Hpp Hx Hq. destruct (decide (i = h)) as [Heq|Hih]; [subst i; done|].
    rewrite list_lookup_insert_ne in Hx by done. destruct (decide (parent i = h)) as [Hpi|Hpi].
    + rewrite Hpi, list_lookup_insert_eq in Hq by done. injection Hq as <-. by eapply H2.
    + rewrite list_lookup_insert_ne in Hq by done. by eapply (H1 i).
  - intros Htp i x q Hi Hpi Hx Hq. pose proof (parent_lt (parent h) ltac:(lia)).
    rewrite list_lookup_insert_ne in Hq by lia.
    assert (Hqp : comp q p = false).
    { apply (H1 (parent h)); auto with lia.
      inversion Huh; subst; [lia|]. by eapply under_ge. }
    destruct (decide (i = h)) as [Heq|Hih]; [subst i|].
    + rewrite list_lookup_insert_eq in Hx by done. by injection Hx as <-.
    + rewrite list_lookup_insert_ne in Hx by done.
      apply (sw_ntrans q p x); [done|]. apply (H1 i); auto with lia; congruence.
  - intros i x Hi Hpi Hx. assert (Hvp : comp v p = false) by (by apply sw_asym).
    destruct (decide (i = h)) as [Heq|Hih]; [subst i|].
    + rewrite list_lookup_insert_eq in Hx by done. by injection Hx as <-.
    + rewrite list_lookup_insert_ne in Hx by done.
      apply (sw_ntrans v p x); [done|]. apply (H1 i); auto with lia; congruence.
Qed.

Lemma sift_down_heap n t l h len l' h' s' :
  sift_down n l h h len = (l', h', s') -> len = length l -> (len - 1) / 2 <= h + n ->
  under t h -> h < length l -> hole_ok t l h ->
  hole_ok t l' h' /\ under t h' /\ s' = h' /\ (len - 1) / 2 <= h'.
Proof.
  revert l h. induction n as [|n IH]; intros l h; cbn [sift_down].
  { intros [= <- <- <-] Hlen Hn Hu Hhl Hok. split_and!; auto; lia. }
  intros Hd Hlen Hn Hu Hhl Hok. pose proof (under_ge _ _ Hu).
  destruct (Nat.ltb_spec h ((len - 1) / 2)) as [Hlt|Hge]; [|by simplify_eq/=].
  pose proof (Nat.Div0.mul_div_le (len - 1) 2).
  destruct (lookup_lt_is_Some_2 l (2 * (h + 1)) ltac:(lia)) as [x Hx].
  destruct (lookup_lt_is_Some_2 l (2 * (h + 1) - 1) ltac:(lia)) as [y Hy].
  rewrite Hx, Hy in Hd.
  assert (Hpr : parent (2 * (h + 1)) = h) by (apply parent_child; lia).
  assert (Hpl : parent (2 * (h + 1) - 1) = h) by (apply parent_child; lia).
  assert (Hsib : forall i, 0 < i -> parent i = h -> i = 2 * (h + 1) \/ i = 2 * (h + 1) - 1).
  { intros i Hi Hp. apply parent_child in Hp; lia. }
  destruct (comp x y) eqn:Ec.
  - apply IH in Hd; try (rewrite length_insert; lia || done); [done | lia | |].
    + apply under_child; [lia | by rewrite Hpl].
    + eapply hole_down; eauto; [lia|]. intros i z Hi Hne Hp Hz.
      destruct (Hsib i Hi Hp) as [->| ->]; [|done]. simplify_eq/=. by apply sw_asym.
  - apply IH in Hd; try (rewrite length_insert; lia || done); [done | lia | |].
    + apply under_child; [lia | by rewrite Hpr].
    + eapply hole_down; eauto; [lia|]. intros i z Hi Hne Hp Hz.
      destruct (Hsib i Hi Hp) as [->| ->]; [done|]. by simplify_eq/=.
Qed.

Lemma adjust_heap_heap t l v :
  t < length l -> heap_from (S t) l -> heap_from t (adjust_heap l t (length l) v).
Proof.
  intros Ht Hh. unfold adjust_heap.
  destruct (sift_down (length l) l t t (length l)) as [[l1 h1] s1] eqn:Ed.
  pose proof (sift_down_spec _ _ _ _ _ _ _ _ Ed) as [Hl Hlt]. specialize (Hlt Ht).
  eapply (sift_down_heap _ t) in Ed as (Hok & Hu & -> & Hend); auto; [| |constructor|].
  2: { pose proof (Nat.Div0.div_le_upper_bound (length l - 1) 2 (length l)). lia. }
  2: { split; [|lia]. intros i x p Hi Hpi Hne Hpne. apply Hh; [done | lia]. }
  pose proof (under_ge _ _ Hu).
  pose proof (Nat.div_mod_eq (length l - 1) 2). pose proof (Nat.mod_upper_bound (length l - 1) 2).
  destruct (Nat.even (length l) && (2 <=? length l) && (h1 =? (length l - 2) / 2)) eqn:Eb.
  - apply andb_prop in Eb as [[Eev%Nat.even_spec E2%Nat.leb_le]%andb_prop Eh%Nat.eqb_eq].
    destruct Eev as [k Hk].
    assert (h1 = k - 1) as ->.
    { rewrite Eh. symmetry. apply (Nat.div_unique _ _ _ 0); lia. }
    destruct (lookup_lt_is_Some_2 l1 (2 * (k - 1 + 1) - 1) ltac:(lia)) as [z Hz]. rewrite Hz.
    assert (Hp : parent (2 * (k - 1 + 1) - 1) = k - 1) by (apply parent_child; lia).
    apply sift_up_heap; [done | | rewrite length_insert; lia | |].
    + apply under_child; [lia | by rewrite Hp].
    + eapply hole_down; eauto; [lia|]. intros i x Hi Hne Hpi Hx.
      apply parent_child in Hpi; [|done]. apply lookup_lt_Some in Hx. lia.
    + intros i x Hi Hpi Hx. apply parent_child in Hpi; [|done].
      apply lookup_lt_Some in Hx. rewrite length_insert in Hx. lia.
  - apply sift_up_heap; auto; [lia|].
    intros i x Hi Hpi Hx. exfalso. apply parent_child in Hpi; [|done].
    apply lookup_lt_Some in Hx. rewrite Hl in Hx.
    apply not_true_iff_false in Eb. apply Eb.
    assert (length l = 2 * (h1 + 1)) as -> by lia.
    rewrite !andb_true_iff. split_and!.
    + apply Nat.even_spec. by exists (h1 + 1).
    + apply Nat.leb_le. lia.
    + apply Nat.eqb_eq. apply (Nat.div_unique _ _ _ 0); lia.
Qed.

Lemma push_heap_heap l x : is_heap l -> is_heap (push_heap l x).
Proof.
  intros Hh. unfold push_heap. apply sift_up_heap; [done | apply under_0 | | |].
  - rewrite length_app. simpl. lia.
  - split.
    + intros i y p Hi _ Hne Hp Hy Hpy.
      apply lookup_app_Some in Hy as [Hy|[Hge Hy]];
        [|apply list_lookup_singleton_Some in Hy as [? _]; lia].
      apply lookup_app_Some in Hpy as [Hpy|[? _]]; [by eapply (Hh i); [|lia| |]|].
      pose proof (parent_lt i Hi). apply lookup_lt_Some in Hy. lia.
    + intros _ i y p Hi Hpi Hy _. pose proof (parent_lt i Hi).
      apply lookup_lt_Some in Hy. rewrite length_app in Hy. simpl in Hy. lia.
  - intros i y Hi Hpi Hy. pose proof (parent_lt i Hi).
    apply lookup_lt_Some in Hy. rewrite length_app in Hy. simpl in Hy. lia.
Qed.

Lemma heap_from_take t n l : heap_from t l -> heap_from t (take n l).
Proof.
  intros Hh i x p Hi Ht Hx Hp. apply lookup_take_Some in Hx as [Hx _].
  apply lookup_take_Some in Hp as [Hp _]. by eapply Hh.
Qed.

Lemma heap_from_S t l : heap_from t l -> heap_from (S t) l.
Proof. intros Hh i x p Hi Ht. apply Hh; lia. Qed.

Lemma pop_heap_heap l : is_heap l -> is_heap (pop_heap l).
Proof.
  intros Hh. unfold pop_heap. destruct (last l) as [v|]; [|done].
  destruct (take (length l - 1) l) as [|y k] eqn:Et; [by intros ?|].
  apply adjust_heap_heap; [simpl; lia|]. apply heap_from_S. rewrite <- Et. by apply heap_from_take.
Qed.

Lemma make_heap_heap l : is_heap (make_heap l).
Proof.
  unfold make_heap. destruct (Nat.ltb_spec (length l) 2) as [Hl|Hl].
  { intros i x p Hi _ Hx _. apply lookup_lt_Some in Hx. destruct l as [|? [|]]; simpl in *; lia. }
  assert (Hp : heap_from (S ((length l - 2) / 2)) l /\ (length l - 2) / 2 < length l).
  { pose proof (Nat.div_mod_eq (length l - 2) 2). pose proof (Nat.mod_upper_bound (length l - 2) 2).
    split; [|lia]. intros i x p Hi Hpi Hx _. apply lookup_lt_Some in Hx.
    pose proof (proj1 (parent_child i (parent i) Hi) eq_refl). lia. }
  revert Hp. generalize ((length l - 2) / 2). intros n. clear Hl. revert l.
  induction n as [|n IH]; intros l [Hh Hn]; simpl;
    destruct (lookup_lt_is_Some_2 l _ Hn) as [v Hv]; rewrite Hv.
  - by apply adjust_heap_heap.
  - apply IH. split; [by apply adjust_heap_heap|].
    rewrite (Permutation_length (adjust_heap_Permutation _ _ _ _ Hn)), length_insert. lia.
Qed.

(** The front of a heap is a maximum. *)
Lemma heap_front_max l x y : is_heap (x :: l) -> y ∈ x :: l -> comp x y = false \/ x = y.
Proof.
  intros Hh [i Hi]%list_elem_of_lookup. revert y Hi.
  induction (lt_wf i) as [i _ IH]. intros y Hi.
  destruct i as [|i]; simplify_eq/=; [by right|]. left.
  pose proof (parent_lt (S i) ltac:(lia)) as Hlt.
  destruct (lookup_lt_is_Some_2 (x :: l) (parent (S i))) as [p Hp].
  { pose proof (lookup_lt_Some (x :: l) (S i) _ Hi). lia. }
  assert (Hpy : comp p y = false) by (eapply (Hh (S i)); [lia | lia | exact Hi | exact Hp]).
  destruct (IH _ Hlt p Hp) as [Hxp| ->]; [|done]. by eapply sw_ntrans.
Qed.
End order.
End heap.

(** ** Comparators that agree on the elements *)

Section cong.
Context {A : Type} (comp comp' : A -> A -> bool) (P : A -> Prop).
Context (Hagree : forall x y, P x -> P y -> comp x y = comp' x y).
Implicit Types (l : list A) (x v : A).

Lemma sift_up_cong n l h t v :
  Forall P l -> P v -> sift_up comp n l h t v = sift_up comp' n l h t v.
Proof.
  revert l h. induction n as [|n IH]; intros l h Hl Hv; simpl; [done|].
  destruct (t <? h)%nat; [|done]. destruct (l !! parent h) as [p|] eqn:Ep; [|done].
  assert (Hp : P p) by (by eapply Forall_lookup_1).
  rewrite (Hagree p v) by done. destruct (comp' p v); [|done].
  apply IH; [by apply Forall_insert|done].
Qed.

Lemma sift_down_cong n l h s len :
  Forall P l -> sift_down comp n l h s len = sift_down comp' n l h s len /\
    Forall P (sift_down comp' n l h s len).1.1.
Proof.
  revert l h s. induction n as [|n IH]; intros l h s Hl; cbn [sift_down]; [done|].
  destruct (s <? (len - 1) / 2)%nat; [|done].
  destruct (l !! (2 * (s + 1))%nat) as [x|] eqn:Ex; [|done].
  destruct (l !! (2 * (s + 1) - 1)%nat) as [y|] eqn:Ey; [|done].
  assert (Hx : P x) by (by eapply Forall_lookup_1). assert (Hy : P y) by (by eapply Forall_lookup_1).
  rewrite (Hagree x y) by done. destruct (comp' x y); apply IH; by apply Forall_insert.
Qed.

Lemma adjust_heap_cong l h len v :
  Forall P l -> P v -> adjust_heap comp l h len v = adjust_heap comp' l h len v.
Proof.
  intros Hl Hv. unfold adjust_heap. destruct (sift_down_cong len l h h len Hl) as [-> Hd].
  destruct (sift_down comp' len l h h len) as [[l1 h1] s1]. simpl in Hd.
  destruct (_ && _ && _); [|by apply sift_up_cong].
  destruct (l1 !! _) as [z|] eqn:Ez; apply sift_up_cong; try done.
  apply Forall_insert; [done|]. exact (Forall_lookup_1 P l1 _ z Hd Ez).
Qed.

Lemma push_heap_cong l x : Forall P l -> P x -> push_heap comp l x = push_heap comp' l x.
Proof. intros Hl Hx. apply sift_up_cong; [|done]. apply Forall_app. auto. Qed.

Lemma pop_heap_cong l : Forall P l -> pop_heap comp l = pop_heap comp' l.
Proof.
  intros Hl. unfold pop_heap. destruct (last l) as [v|] eqn:Ev; [|done].
  pose proof (Forall_take P (length l - 1) l Hl) as Ht.
  destruct (take (length l - 1) l) as [|a r]; [done|].
  apply adjust_heap_cong; [done|]. rewrite last_lookup in Ev. exact (Forall_lookup_1 P l _ v Hl Ev).
Qed.

Lemma make_heap_from_cong p l : Forall P l -> make_heap_from comp p l = make_heap_from comp' p l.
Proof.
  revert l. induction p as [|p IH]; intros l Hl; simpl.
  - destruct (l !! 0%nat) as [v|] eqn:Ev; [|done].
    apply adjust_heap_cong; [done|by eapply Forall_lookup_1].
  - destruct (l !! S p) as [v|] eqn:Ev; [|by apply IH].
    rewrite adjust_heap_cong by (done || by eapply Forall_lookup_1).
    apply IH. rewrite adjust_heap_Permutation by (by apply lookup_lt_Some in Ev).
    apply Forall_insert; [done|by eapply Forall_lookup_1].
Qed.

Lemma make_heap_cong l : Forall P l -> make_heap comp l = make_heap comp' l.
Proof. intros Hl. unfold make_heap. destruct (_ <? _)%nat; [done|]. by apply make_heap_from_cong. Qed.

Lemma is_heap_cong l : Forall P l -> is_heap comp l <-> is_heap comp' l.
Proof.
  intros Hl. unfold is_heap, heap_from. split; intros Hh i; intros.
  - rewrite <- Hagree by (eapply Forall_lookup_1; eauto). eauto.
  - rewrite Hagree by (eapply Forall_lookup_1; eauto). eauto.
Qed.
End cong.
