(* ===== verification/ScanInfo.v ===== *)
(** * Shared-scan table information

    [proto/ScanTableInfo.h] and [proto/ScanTableInfo.cc]: the tables a task
    scans, their order (slowest first) and the comparison that groups similar
    scans together. *)

From S2P Require Import Prelude.

(** [struct ScanTableInfo] *)
Record ScanTableInfo := mkScanTableInfo {
  sti_db : string;
  sti_table : string;
  sti_lockInMemory : bool;
  sti_scanRating : Z;
}.

#[global] Instance ScanTableInfo_eq_dec : EqDecision ScanTableInfo.
Proof. solve_decision. Defined.

(** [enum Rating] *)
Module Rating.
Definition FASTEST : Z := 0.
Definition FAST : Z := 10.
Definition MEDIUM : Z := 20.
Definition SLOW : Z := 30.
Definition SLOWEST : Z := 100.
End Rating.

(** [struct ScanInfo] *)
Record ScanInfo := mkScanInfo {
  si_infoTables : list ScanTableInfo;
  si_scanRating : Z;
}.

(** The sign of [std::string::compare]. *)
Definition str_compare (a b : string) : Z :=
  match String.compare a b with Lt => -1 | Eq => 0 | Gt => 1 end.

(** [int ScanTableInfo::compare(ScanTableInfo const& rhs) const] *)
Definition compare (this rhs : ScanTableInfo) : Z :=
  if negb (sti_lockInMemory this) then
    (if sti_lockInMemory rhs then -1 else 0)
  else if negb (sti_lockInMemory rhs) then 1
  else if sti_scanRating this <? sti_scanRating rhs then -1
  else if sti_scanRating rhs <? sti_scanRating this then 1
  else
    let dbComp := str_compare (sti_db this) (sti_db rhs) in
    if dbComp <? 0 then -1
    else if 0 <? dbComp then 1
    else
      let tblComp := str_compare (sti_table this) (sti_table rhs) in
      if tblComp <? 0 then -1
      else if 0 <? tblComp then 1
      else 0.

(** The loop of [compareTables] over the two vectors in step. *)
Fixpoint compare_loop (ths rhs : list ScanTableInfo) : Z :=
  match ths, rhs with
  | x :: ths', y :: rhs' =>
      let tblComp := compare x y in
      if tblComp <? 0 then -1
      else if 0 <? tblComp then 1
      else compare_loop ths' rhs'
  | _, _ => 0
  end.

(** [int ScanInfo::compareTables(ScanInfo const& rhs)] *)
Definition compareTables (this rhs : ScanInfo) : Z :=
  match si_infoTables this, si_infoTables rhs with
  | [], [] => 0
  | [], _ :: _ => -1
  | _ :: _, [] => 1
  | ts, rs => compare_loop ts rs
  end.

(** The comparator of [sortTablesSlowestFirst]. *)
Definition slower (x y : ScanTableInfo) : bool := 0 <? compare x y.

(** [void ScanInfo::sortTablesSlowestFirst()] *)
Definition sortTablesSlowestFirst (this : ScanInfo) : ScanInfo :=
  mkScanInfo (std_sort slower (si_infoTables this)) (si_scanRating this).

(** ** The table order is a total preorder *)

Lemma str_compare_antisym a b : str_compare b a = - str_compare a b.
Proof. unfold str_compare. rewrite String.compare_antisym. by destruct (String.compare a b). Qed.

Lemma str_compare_eq a b : str_compare a b = 0 -> a = b.
Proof.
  unfold str_compare. destruct (String.compare a b) eqn:E; [|done|done].
  intros _. by apply String.compare_eq_iff.
Qed.

Lemma str_compare_refl a : str_compare a a = 0.
Proof.
  unfold str_compare. destruct (String.compare a a) eqn:E; [done| |];
    pose proof (String.compare_antisym a a) as H; rewrite E in H; discriminate.
Qed.

Lemma string_compare_trans a b c :
  String.compare a b = Lt -> String.compare b c = Lt -> String.compare a c = Lt.
Proof.
  revert b c. induction a as [|x a IH]; intros [|y b] [|z c]; simpl; try done.
  unfold Ascii.compare.
  destruct (N.compare_spec (Ascii.N_of_ascii x) (Ascii.N_of_ascii y)),
    (N.compare_spec (Ascii.N_of_ascii y) (Ascii.N_of_ascii z)),
    (N.compare_spec (Ascii.N_of_ascii x) (Ascii.N_of_ascii z)); try done; try lia.
  apply IH.
Qed.

Lemma str_compare_trans a b c :
  str_compare a b <= 0 -> str_compare b c <= 0 -> str_compare a c <= 0.
Proof.
  intros Hab Hbc.
  destruct (decide (str_compare a b = 0)) as [->%str_compare_eq|Hne]; [done|].
  destruct (decide (str_compare b c = 0)) as [<-%str_compare_eq|Hne']; [done|].
  unfold str_compare in *.
  destruct (String.compare a b) eqn:E1, (String.compare b c) eqn:E2; try lia.
  by rewrite (string_compare_trans a b c).
Qed.

Lemma compare_antisym x y : compare y x = - compare x y.
Proof.
  unfold compare. rewrite (str_compare_antisym (sti_db x)), (str_compare_antisym (sti_table x)).
  repeat case_goal; simpl in *; simplify_eq/=; lia.
Qed.

Lemma compare_trans x y z : compare x y <= 0 -> compare y z <= 0 -> compare x z <= 0.
Proof.
  pose proof (str_compare_trans (sti_db x) (sti_db y) (sti_db z)).
  pose proof (str_compare_trans (sti_db z) (sti_db y) (sti_db x)).
  pose proof (str_compare_trans (sti_db y) (sti_db z) (sti_db x)).
  pose proof (str_compare_trans (sti_db z) (sti_db x) (sti_db y)).
  pose proof (str_compare_trans (sti_table x) (sti_table y) (sti_table z)).
  pose proof (str_compare_antisym (sti_db x) (sti_db y)).
  pose proof (str_compare_antisym (sti_db y) (sti_db z)).
  pose proof (str_compare_antisym (sti_db x) (sti_db z)).
  unfold compare. repeat case_goal; simpl in *; simplify_eq/=; lia.
Qed.

#[global] Instance slower_strict_weak : StrictWeak slower.
Proof.
  split; unfold slower.
  - intros x y. rewrite (compare_antisym x y). lia.
  - intros x y z. rewrite !Z.ltb_ge. apply compare_trans.
Qed.

(** ** Comparison of two task's tables *)

Lemma compare_loop_antisym l k : compare_loop k l = - compare_loop l k.
Proof.
  revert k. induction l as [|x l IH]; intros [|y k]; simpl; try done.
  rewrite (compare_antisym x y). repeat case_goal; try lia. apply IH.
Qed.

Lemma compareTables_antisym a b : compareTables b a = - compareTables a b.
Proof.
  unfold compareTables. destruct (si_infoTables a), (si_infoTables b); try done.
  apply compare_loop_antisym.
Qed.

Lemma compare_loop_range l k : -1 <= compare_loop l k <= 1.
Proof.
  revert k. induction l as [|x l IH]; intros [|y k]; simpl; try lia.
  repeat case_goal; try lia. apply IH.
Qed.

(** Transitivity needs the middle list to be at least as long as the shorter
    of the outer ones. *)
Lemma compare_loop_trans l k j :
  (length l <= length k \/ length j <= length k)%nat ->
  compare_loop l k <= 0 -> compare_loop k j <= 0 -> compare_loop l j <= 0.
Proof.
  revert k j. induction l as [|x l IH]; intros [|y k] [|z j] Hlen; simpl in *; try lia.
  pose proof (compare_trans x y z). pose proof (compare_trans y z x). pose proof (compare_trans z x y).
  rewrite (compare_antisym x y), (compare_antisym y z), (compare_antisym x z) in *.
  repeat case_goal; intros; try lia. apply (IH k j); lia.
Qed.
