(* ===== verification/Memory.v ===== *)
(** * Physical memory accounting

    [memman/Memory.h], [memman/Memory.cc]: the [Memory] object counts the
    bytes that are reserved and locked against a fixed budget and wraps the
    system calls ([stat], [open]/[fstat], [mmap], [munmap], [mlock]).  The
    operating system is a parameter: a class of operations on an arbitrary
    state, which may answer differently at every call.

    Not modelled: the [double] timing statistics and the mutexes (every method
    is one atomic step). *)

From S2P Require Import Prelude.

(** The system calls the memory manager makes; [inl] carries [errno]. *)
Class OsMem (O : Type) := {
  os_stat : string -> O -> O * (Z + Z);
  os_open_fstat : string -> O -> O * (Z + Z);
  os_mmap : string -> Z -> O -> O * (Z + Z);
  os_munmap : Z -> Z -> O -> O;
  os_mlock : Z -> Z -> O -> O * option Z;
}.

(** What POSIX documents of them: a failing call sets a positive [errno], a
    file size is a 63-bit quantity, a mapping is not at [MAP_FAILED]. *)
Class OsMemLaws (O : Type) `{OsMem O} : Prop := {
  os_stat_errno p o o' e : os_stat p o = (o', inl e) -> 0 < e;
  os_fstat_errno p o o' e : os_open_fstat p o = (o', inl e) -> 0 < e;
  os_mmap_errno p n o o' e : os_mmap p n o = (o', inl e) -> 0 < e;
  os_mlock_errno a n o o' e : os_mlock a n o = (o', Some e) -> 0 < e;
  os_stat_size p o o' n : os_stat p o = (o', inr n) -> n < two64;
  os_fstat_size p o o' n : os_open_fstat p o = (o', inr n) -> n < two64;
  os_mmap_addr p n o o' a : os_mmap p n o = (o', inr a) -> 0 <= a;
}.

(** [MAP_FAILED] is [(void * ) -1]. *)
Definition MAP_FAILED : Z := -1.

(** ** class MemInfo *)

(** [union {void *_memAddr; int _errCode;}] and [_memSize]. *)
Record MemInfo := mkMemInfo {
  mi_union : Z;
  mi_memSize : Z;
}.

Definition MemInfo_ctor : MemInfo := mkMemInfo MAP_FAILED 0.
Definition errCode (i : MemInfo) : Z := if mi_memSize i =? 0 then mi_union i else 0.
Definition isValid (i : MemInfo) : bool := negb (mi_memSize i =? 0).
Definition setErrCode (e : Z) (i : MemInfo) : MemInfo := mkMemInfo e 0.
Definition mi_size (i : MemInfo) : Z := mi_memSize i.

(** ** class Memory *)

Record Memory := mkMemory {
  m_dbDir : string;
  m_maxBytes : Z;
  m_lokBytes : Z;
  m_rsvBytes : Z;
  m_numMapErrs : Z;
  m_numLokErrs : Z;
  m_flexNum : Z;
}.

Definition Memory_ctor (dbDir : string) (memSZ : Z) : Memory :=
  mkMemory dbDir memSZ 0 0 0 0 0.

Definition set_lokBytes (v : Z) (m : Memory) : Memory :=
  mkMemory (m_dbDir m) (m_maxBytes m) v (m_rsvBytes m) (m_numMapErrs m) (m_numLokErrs m) (m_flexNum m).
Definition set_rsvBytes (v : Z) (m : Memory) : Memory :=
  mkMemory (m_dbDir m) (m_maxBytes m) (m_lokBytes m) v (m_numMapErrs m) (m_numLokErrs m) (m_flexNum m).
Definition incr_numMapErrs (m : Memory) : Memory :=
  mkMemory (m_dbDir m) (m_maxBytes m) (m_lokBytes m) (m_rsvBytes m)
    (wrap32 (m_numMapErrs m + 1)) (m_numLokErrs m) (m_flexNum m).
Definition incr_numLokErrs (m : Memory) : Memory :=
  mkMemory (m_dbDir m) (m_maxBytes m) (m_lokBytes m) (m_rsvBytes m)
    (m_numMapErrs m) (wrap32 (m_numLokErrs m + 1)) (m_flexNum m).
Definition incr_flexNum (m : Memory) : Memory :=
  mkMemory (m_dbDir m) (m_maxBytes m) (m_lokBytes m) (m_rsvBytes m)
    (m_numMapErrs m) (m_numLokErrs m) (wrap32 (m_flexNum m + 1)).

(** [uint64_t bytesFree()] *)
Definition bytesFree (m : Memory) : Z :=
  if m_maxBytes m <=? m_rsvBytes m then 0 else m_maxBytes m - m_rsvBytes m.

(** [void memReserve(uint64_t memSZ)] *)
Definition memReserve (memSZ : Z) (m : Memory) : Memory :=
  set_rsvBytes (wrap64 (m_rsvBytes m + memSZ)) m.

(** [void memRestore(uint64_t memSZ)] *)
Definition memRestore (memSZ : Z) (m : Memory) : Memory :=
  if m_rsvBytes m <=? memSZ then set_rsvBytes 0 m
  else set_rsvBytes (m_rsvBytes m - memSZ) m.

(** [std::to_string(int)] *)
Definition to_string (n : Z) : string := pretty.pretty n.

(** [std::string Memory::filePath(dbTable, chunk, isIndex)] *)
Definition filePath (dbTable : string) (chunk : Z) (isIndex : bool) (m : Memory) : string :=
  (m_dbDir m +:+ "/" +:+ dbTable +:+ "_" +:+ to_string chunk +:+
    (if isIndex then ".MYI" else ".MYD"))%string.

(** [struct MemStats] and [MemStats statistics()] *)
Record MemStats := mkMemStats {
  ms_bytesMax : Z; ms_bytesReserved : Z; ms_bytesLocked : Z;
  ms_numMapErrors : Z; ms_numLokErrors : Z; ms_numFlexFiles : Z;
}.
Definition statistics (m : Memory) : MemStats :=
  mkMemStats (m_maxBytes m) (m_rsvBytes m) (m_lokBytes m)
    (m_numMapErrs m) (m_numLokErrs m) (m_flexNum m).

Section with_os.
Context {O : Type} `{OsMem O}.

(** [MemInfo Memory::fileInfo(std::string const& fPath)] *)
Definition fileInfo (fPath : string) (o : O) : O * MemInfo :=
  match os_stat fPath o with
  | (o', inl e) => (o', mkMemInfo e 0)
  | (o', inr st_size) =>
      if 0 <? st_size then (o', mkMemInfo MAP_FAILED st_size)
      else (o', mkMemInfo ESPIPE 0)
  end.

(** [int Memory::memLock(MemInfo& mInfo, bool isFlex)] *)
Definition memLock (mInfo : MemInfo) (isFlex : bool) (m : Memory) (o : O) : O * Memory * Z :=
  if negb (isValid mInfo) then (o, m, EFAULT)
  else match os_mlock (mi_union mInfo) (mi_memSize mInfo) o with
  | (o', None) =>
      let m' := set_lokBytes (wrap64 (m_lokBytes m + mi_memSize mInfo)) m in
      (o', (if isFlex then incr_flexNum m' else m'), 0)
  | (o', Some errno) =>
      (o', incr_numLokErrs m, (if errno =? EAGAIN then ENOMEM else errno))
  end.

(** [MemInfo Memory::mapFile(std::string const& fPath)] *)
Definition mapFile (fPath : string) (m : Memory) (o : O) : O * Memory * MemInfo :=
  match os_open_fstat fPath o with
  | (o1, inl errno) => (o1, m, setErrCode errno MemInfo_ctor)
  | (o1, inr st_size) =>
      if 0 <? st_size then
        match os_mmap fPath st_size o1 with
        | (o2, inl errno) => (o2, incr_numMapErrs m, setErrCode errno MemInfo_ctor)
        | (o2, inr addr) => (o2, m, mkMemInfo addr st_size)
        end
      else (o1, m, setErrCode ESPIPE MemInfo_ctor)
  end.

(** [void Memory::memRel(MemInfo& mInfo, bool islkd)] *)
Definition memRel (mInfo : MemInfo) (islkd : bool) (m : Memory) (o : O) : O * Memory * MemInfo :=
  if (0 <? mi_memSize mInfo) && negb (mi_union mInfo =? MAP_FAILED) then
    let o' := os_munmap (mi_union mInfo) (mi_memSize mInfo) o in
    let m' :=
      if islkd then
        (if mi_memSize mInfo <? m_lokBytes m
         then set_lokBytes (m_lokBytes m - mi_memSize mInfo) m
         else set_lokBytes 0 m)
      else m in
    (o', m', mkMemInfo MAP_FAILED 0)
  else (o, m, mInfo).
End with_os.
