(* ===== verification/MemFile.v ===== *)
(** * Memory files and their cache

    [memman/MemFile.h], [memman/MemFile.cc]: a [MemFile] is one database file
    that may be mapped, reserved and locked; the process-wide [fileCache]
    shares it between file sets by reference counting.

    Objects live in a store indexed by their address, so that the pointers
    kept by the file sets and by the cache alias as they do in the program.
    Several [Memory] objects may exist at the same time; a file belongs to
    one of them. *)

From S2P Require Import Prelude.
From S2P Require Import Memory.

(** The address of a [Memory] object / of a [MemFile] object. *)
Abbreviation MemAddr := nat (only parsing).
Abbreviation FileAddr := nat (only parsing).

(** ** class MemFile *)

Record MemFile := mkMemFile {
  mf_fPath : string;
  mf_memory : MemAddr;
  mf_memInfo : MemInfo;
  mf_refs : Z;
  mf_isMapped : bool;
  mf_isReserved : bool;
  mf_isLocked : bool;
  mf_isFlex : bool;
  mf_mlocking : bool;
}.

Definition MemFile_ctor (fPath : string) (mem : MemAddr) (mInfo : MemInfo) (isFlex : bool) : MemFile :=
  mkMemFile fPath mem mInfo 1 false false false isFlex false.

Definition set_refs (v : Z) (f : MemFile) : MemFile :=
  mkMemFile (mf_fPath f) (mf_memory f) (mf_memInfo f) v (mf_isMapped f) (mf_isReserved f)
    (mf_isLocked f) (mf_isFlex f) (mf_mlocking f).
Definition set_mapped (i : MemInfo) (f : MemFile) : MemFile :=
  mkMemFile (mf_fPath f) (mf_memory f) i (mf_refs f) true (mf_isReserved f)
    (mf_isLocked f) (mf_isFlex f) (mf_mlocking f).
Definition set_reserved (v : bool) (f : MemFile) : MemFile :=
  mkMemFile (mf_fPath f) (mf_memory f) (mf_memInfo f) (mf_refs f) (mf_isMapped f) v
    (mf_isLocked f) (mf_isFlex f) (mf_mlocking f).
Definition set_locked (f : MemFile) : MemFile :=
  mkMemFile (mf_fPath f) (mf_memory f) (mf_memInfo f) (mf_refs f) (mf_isMapped f) (mf_isReserved f)
    true (mf_isFlex f) (mf_mlocking f).
Definition set_mlocking (v : bool) (f : MemFile) : MemFile :=
  mkMemFile (mf_fPath f) (mf_memory f) (mf_memInfo f) (mf_refs f) (mf_isMapped f) (mf_isReserved f)
    (mf_isLocked f) (mf_isFlex f) v.

(** [struct MLResult] (without the lock time) and [struct MFResult]. *)
Record MLResult := mkMLResult { ml_bLocked : Z; ml_retc : Z }.
Record MFResult := mkMFResult { mfr_mfP : option FileAddr; mfr_retc : Z }.

(** ** The state shared by all memory managers of the process *)

Record MemState (O : Type) := mkMemState {
  g_os : O;
  g_mems : gmap nat Memory;          (** the [Memory] objects *)
  g_files : gmap nat MemFile;        (** the [MemFile] objects *)
  g_cache : gmap string nat;         (** [fileCache] *)
  g_next : nat;                      (** next address [new] returns *)
}.
Arguments mkMemState {O}.
Arguments g_os {O}. Arguments g_mems {O}. Arguments g_files {O}.
Arguments g_cache {O}. Arguments g_next {O}.

Section memfile.
Context {O : Type} `{OsMem O}.
Implicit Types (g : MemState O) (a : FileAddr).

Definition set_os (o : O) g : MemState O :=
  mkMemState o (g_mems g) (g_files g) (g_cache g) (g_next g).
Definition set_mem (k : MemAddr) (m : Memory) g : MemState O :=
  mkMemState (g_os g) (<[k := m]> (g_mems g)) (g_files g) (g_cache g) (g_next g).
Definition set_file (a : FileAddr) (f : MemFile) g : MemState O :=
  mkMemState (g_os g) (g_mems g) (<[a := f]> (g_files g)) (g_cache g) (g_next g).

(** [MemFile::MLResult MemFile::memLock()] *)
Definition MemFile_memLock (a : FileAddr) g : outcome (MemState O * MLResult) :=
  match g_files g !! a with
  | None => Raise UndefinedBehaviour
  | Some f =>
      match g_mems g !! mf_memory f with
      | None => Raise UndefinedBehaviour
      | Some m =>
          if mf_isLocked f then Ret (g, mkMLResult (mi_size (mf_memInfo f)) 0)
          else
            (* rc == 0: [_memory.memLock]; otherwise simulate ENOMEM *)
            let '(g1, rc) :=
              if mf_isMapped f then
                let '(o, m', rc) := memLock (mf_memInfo f) (mf_isFlex f) m (g_os g) in
                (set_os o (set_mem (mf_memory f) m' g), rc)
              else (g, ENOMEM) in
            if rc =? 0 then
              Ret (set_file a (set_locked (set_mlocking false f)) g1,
                   mkMLResult (mi_size (mf_memInfo f)) 0)
            else
              let g2 := set_file a (set_mlocking false f) g1 in
              if mf_isFlex f then Ret (g2, mkMLResult 0 0) else Ret (g2, mkMLResult 0 rc)
      end
  end.

(** [int MemFile::memMap()] *)
Definition MemFile_memMap (a : FileAddr) g : outcome (MemState O * Z) :=
  match g_files g !! a with
  | None => Raise UndefinedBehaviour
  | Some f =>
      match g_mems g !! mf_memory f with
      | None => Raise UndefinedBehaviour
      | Some m =>
          if mf_isMapped f then Ret (g, 0)
          else if mf_mlocking f then Ret (g, 0)
          else if negb (mf_isReserved f) && (bytesFree m <? mi_size (mf_memInfo f)) then
            Ret (g, if mf_isFlex f then 0 else ENOMEM)
          else
            let m1 := if mf_isReserved f then m else memReserve (mi_size (mf_memInfo f)) m in
            let f1 := set_reserved true f in
            let '(o, m2, mInfo) := mapFile (mf_fPath f) m1 (g_os g) in
            let g1 := set_os o (set_mem (mf_memory f) m2 g) in
            if isValid mInfo then Ret (set_file a (set_mapped mInfo f1) g1, 0)
            else if mf_isFlex f && (errCode mInfo =? ENOMEM) then Ret (set_file a f1 g1, 0)
            else
              Ret (set_file a (set_reserved false f1)
                     (set_mem (mf_memory f) (memRestore (mi_size (mf_memInfo f)) m2) g1),
                   errCode mInfo)
      end
  end.

(** [uint32_t MemFile::numFiles()] *)
Definition numFiles g : Z := wrap32 (Z.of_nat (size (g_cache g))).

(** [MFResult MemFile::obtain(fPath, mem, isFlex)] *)
Definition MemFile_obtain (fPath : string) (mem : MemAddr) (isFlex : bool) g
    : outcome (MemState O * MFResult) :=
  match g_cache g !! fPath with
  | Some a =>
      match g_files g !! a with
      | None => Raise UndefinedBehaviour
      | Some f =>
          if negb (mf_memory f =? mem)%nat then Ret (g, mkMFResult None EXDEV)
          else Ret (set_file a (set_refs (mf_refs f + 1) f) g, mkMFResult (Some a) 0)
      end
  | None =>
      let '(o, mInfo) := fileInfo fPath (g_os g) in
      let g1 := set_os o g in
      if negb (isValid mInfo) then Ret (g1, mkMFResult None (errCode mInfo))
      else
        let a := g_next g in
        Ret (mkMemState (g_os g1) (g_mems g1)
               (<[a := MemFile_ctor fPath mem mInfo isFlex]> (g_files g1))
               (<[fPath := a]> (g_cache g1)) (S a),
             mkMFResult (Some a) 0)
  end.

(** [void MemFile::release()] *)
Definition MemFile_release (a : FileAddr) g : outcome (MemState O) :=
  match g_files g !! a with
  | None => Raise UndefinedBehaviour
  | Some f =>
      let refs := mf_refs f - 1 in
      if 0 <? refs then Ret (set_file a (set_refs refs f) g)
      else
        match g_mems g !! mf_memory f with
        | None => Raise UndefinedBehaviour
        | Some m =>
            let fSize := mi_size (mf_memInfo f) in
            let '(o, m1) :=
              if mf_isMapped f then
                let '(o, m1, _) := memRel (mf_memInfo f) (mf_isLocked f) m (g_os g) in (o, m1)
              else (g_os g, m) in
            let m2 := if mf_isReserved f then memRestore fSize m1 else m1 in
            Ret (mkMemState o (<[mf_memory f := m2]> (g_mems g)) (delete a (g_files g))
                   (delete (mf_fPath f) (g_cache g)) (g_next g))
        end
  end.
End memfile.
