(* ===== verification/MemMan.v ===== *)
(** * The memory manager

    [memman/MemMan.h] (the abstract interface), [memman/MemFileSet.h/.cc],
    [memman/MemManReal.h/.cc] and [memman/MemManNone.h].  [MemManReal] keeps
    the file sets it handed out in the process-wide [hanCache], by handle.

    Every public method is one atomic step: the model does not interleave the
    inside of [lock()] with other calls (the source serialises them with
    [hanMutex] and the mutex of the file set).  Lock times are not modelled. *)

From S2P Require Import Prelude.
From S2P Require Import Memory.
From S2P Require Import MemFile.

(** ** MemMan.h *)

(** [enum class LockType] *)
Inductive LockType := NOLOCK | REQUIRED | FLEXIBLE | OPTIONAL.

#[global] Instance LockType_eq_dec : EqDecision LockType.
Proof. solve_decision. Defined.

(** [class TableInfo] *)
Record TableInfo := mkTableInfo {
  ti_tableName : string;
  ti_theData : LockType;
  ti_theIndex : LockType;
}.

(** [struct HandleType] *)
Module HandleType.
Definition INVALID : Z := 0.
Definition ISEMPTY : Z := 1.
End HandleType.

(** [struct Status] (without [secondsLock]) *)
Record Status := mkStatus { st_bytesLock : Z; st_numFiles : Z; st_chunk : Z }.
Definition Status_ctor : Status := mkStatus 0 0 (-1).

(** [struct Statistics] *)
Record Statistics := mkStatistics {
  s_bytesLockMax : Z; s_bytesLocked : Z; s_bytesReserved : Z;
  s_numMapErrors : Z; s_numLokErrors : Z; s_numFSets : Z; s_numFiles : Z;
  s_numReqdFiles : Z; s_numFlexFiles : Z; s_numFlexLock : Z; s_numLocks : Z; s_numErrors : Z;
}.

(** The virtual methods of [class MemMan] as operations on a state [M].
    [prepare] returns the handle and the value of [errno] it leaves. *)
Class MemMan (M : Type) := {
  mm_prepare : list TableInfo -> Z -> M -> outcome (M * (Z * Z));
  mm_lock : Z -> bool -> M -> outcome (M * Z);
  mm_unlock : Z -> M -> outcome (M * bool);
  mm_unlockAll : M -> outcome M;
}.

(** ** class MemFileSet *)

Record MemFileSet := mkMemFileSet {
  fs_memory : nat;
  fs_lockFiles : list nat;
  fs_flexFiles : list nat;
  fs_lockBytes : Z;
  fs_numFiles : Z;
  fs_chunk : Z;
}.

Definition MemFileSet_ctor (memory : nat) (chunk : Z) : MemFileSet :=
  mkMemFileSet memory [] [] 0 0 chunk.

Definition isOwner (memory : nat) (fs : MemFileSet) : bool := (memory =? fs_memory fs)%nat.

Definition add_lockBytes (n : Z) (fs : MemFileSet) : MemFileSet :=
  mkMemFileSet (fs_memory fs) (fs_lockFiles fs) (fs_flexFiles fs)
    (wrap64 (fs_lockBytes fs + n)) (fs_numFiles fs) (fs_chunk fs).

(** The pointers a file set holds, in the order the destructor visits them. *)
Definition fs_files (fs : MemFileSet) : list nat := fs_lockFiles fs ++ fs_flexFiles fs.

(** [MemMan::Status MemFileSet::status()] *)
Definition fs_status (fs : MemFileSet) : Status :=
  mkStatus (fs_lockBytes fs) (fs_numFiles fs) (fs_chunk fs).

Section fileset.
Context {O : Type} `{OsMem O}.
Implicit Types (g : MemState O).

(** [int MemFileSet::add(tabname, chunk, iFile, mustLK)] *)
Definition fs_add (tabname : string) (chunk : Z) (iFile mustLK : bool)
    (fs : MemFileSet) g : outcome (MemState O * MemFileSet * Z) :=
  match g_mems g !! fs_memory fs with
  | None => Raise UndefinedBehaviour
  | Some m =>
      let fPath := filePath tabname chunk iFile m in
      let? (g', r) := MemFile_obtain fPath (fs_memory fs) (negb mustLK) g in
      match mfr_mfP r with
      | None => Ret (g', fs, mfr_retc r)
      | Some a =>
          let numFiles := wrap32 (fs_numFiles fs + 1) in
          Ret (g',
               (if mustLK
                then mkMemFileSet (fs_memory fs) (fs_lockFiles fs ++ [a]) (fs_flexFiles fs)
                       (fs_lockBytes fs) numFiles (fs_chunk fs)
                else mkMemFileSet (fs_memory fs) (fs_lockFiles fs) (fs_flexFiles fs ++ [a])
                       (fs_lockBytes fs) numFiles (fs_chunk fs)),
               0)
      end
  end.

(** First loop of [lockAll]: the required files; stops at an error when [strict]. *)
Fixpoint lock_required (strict : bool) (files : list nat) (totLocked : Z) g
    : outcome (MemState O * Z * Z) :=
  match files with
  | [] => Ret (g, totLocked, 0)
  | a :: files' =>
      let? (g', r) := MemFile_memLock a g in
      let tot := wrap64 (totLocked + ml_bLocked r) in
      if negb (ml_retc r =? 0) && strict then Ret (g', tot, ml_retc r)
      else lock_required strict files' tot g'
  end.

(** Second loop of [lockAll]: the flexible files; errors are ignored. *)
Fixpoint lock_flexible (files : list nat) (totLocked : Z) g : outcome (MemState O * Z) :=
  match files with
  | [] => Ret (g, totLocked)
  | a :: files' =>
      let? (g', r) := MemFile_memLock a g in
      lock_flexible files' (wrap64 (totLocked + ml_bLocked r)) g'
  end.

(** [int MemFileSet::lockAll(bool strict)] *)
Definition fs_lockAll (strict : bool) (fs : MemFileSet) g
    : outcome (MemState O * MemFileSet * Z) :=
  let? (g1, tot, rc) := lock_required strict (fs_lockFiles fs) 0 g in
  if negb (rc =? 0) then Ret (g1, add_lockBytes tot fs, rc)
  else
    let? (g2, tot2) := lock_flexible (fs_flexFiles fs) tot g1 in
    Ret (g2, add_lockBytes tot2 fs, 0).

(** First loop of [mapAll]: stops at the first error. *)
Fixpoint map_required (files : list nat) g : outcome (MemState O * Z) :=
  match files with
  | [] => Ret (g, 0)
  | a :: files' =>
      let? (g', rc) := MemFile_memMap a g in
      if negb (rc =? 0) then Ret (g', rc) else map_required files' g'
  end.

(** Second loop of [mapAll]: [break]s at the first error, which is ignored. *)
Fixpoint map_flexible (files : list nat) g : outcome (MemState O) :=
  match files with
  | [] => Ret g
  | a :: files' =>
      let? (g', rc) := MemFile_memMap a g in
      if negb (rc =? 0) then Ret g' else map_flexible files' g'
  end.

(** [int MemFileSet::mapAll()] *)
Definition fs_mapAll (fs : MemFileSet) g : outcome (MemState O * Z) :=
  let? (g1, rc) := map_required (fs_lockFiles fs) g in
  if negb (rc =? 0) then Ret (g1, rc)
  else
    let? g2 := map_flexible (fs_flexFiles fs) g1 in
    Ret (g2, 0).

Fixpoint release_all (files : list nat) g : outcome (MemState O) :=
  match files with
  | [] => Ret g
  | a :: files' => let? g' := MemFile_release a g in release_all files' g'
  end.

(** [MemFileSet::~MemFileSet()] *)
Definition fs_destroy (fs : MemFileSet) g : outcome (MemState O) :=
  let? g1 := release_all (fs_lockFiles fs) g in
  release_all (fs_flexFiles fs) g1.
End fileset.

(** ** class MemManReal *)

Record MemManReal := mkMemManReal {
  r_memory : nat;         (** the address of [_memory] *)
  r_numErrors : Z;
  r_numLkerrs : Z;
  r_numLocks : Z;
  r_numReqdFiles : Z;
  r_numFlexFiles : Z;
}.

(** The process-wide state: the files and the handle cache. *)
Record MMState (O : Type) := mkMMState {
  h_mem : MemState O;
  h_hanCache : gmap Z MemFileSet;
  h_handleNum : Z;
}.
Arguments mkMMState {O}. Arguments h_mem {O}. Arguments h_hanCache {O}. Arguments h_handleNum {O}.

(** The manager and the process-wide state it works on. *)
Definition RealState (O : Type) : Type := MemManReal * MMState O.

Section real.
Context {O : Type} `{OsMem O}.
Implicit Types (r : MemManReal) (s : MMState O).

Definition set_h_mem (g : MemState O) s : MMState O :=
  mkMMState g (h_hanCache s) (h_handleNum s).
Definition set_hanCache (c : gmap Z MemFileSet) s : MMState O :=
  mkMMState (h_mem s) c (h_handleNum s).

(** [MemMan::Statistics MemManReal::getStatistics()] *)
Definition getStatistics r s : outcome Statistics :=
  match g_mems (h_mem s) !! r_memory r with
  | None => Raise UndefinedBehaviour
  | Some m =>
      let ms := statistics m in
      Ret (mkStatistics (ms_bytesMax ms) (ms_bytesLocked ms) (ms_bytesReserved ms)
             (ms_numMapErrors ms) (ms_numLokErrors ms)
             (wrap32 (Z.of_nat (size (h_hanCache s)))) (numFiles (h_mem s))
             (r_numReqdFiles r) (r_numFlexFiles r) (ms_numFlexFiles ms)
             (r_numLocks r) (r_numErrors r))
  end.

(** [MemMan::Status MemManReal::getStatus(Handle handle)] *)
Definition getStatus (handle : Z) r s : Status :=
  if negb (handle =? HandleType.INVALID) && negb (handle =? HandleType.ISEMPTY) then
    match h_hanCache s !! handle with
    | Some fs => if isOwner (r_memory r) fs then fs_status fs else Status_ctor
    | None => Status_ctor
    end
  else Status_ctor.

(** [bool MemManReal::unlock(Handle handle)] *)
Definition real_unlock (handle : Z) (rs : RealState O) : outcome (RealState O * bool) :=
  let '(r, s) := rs in
  if handle =? HandleType.ISEMPTY then Ret (r, s, true)
  else if handle =? HandleType.INVALID then Ret (r, s, false)
  else match h_hanCache s !! handle with
  | None => Ret (r, s, false)
  | Some fs =>
      if negb (isOwner (r_memory r) fs) then Ret (r, s, false)
      else
        let? g := fs_destroy fs (h_mem s) in
        Ret (r, mkMMState g (delete handle (h_hanCache s)) (h_handleNum s), true)
  end.

Definition incr_numLocks r : MemManReal :=
  mkMemManReal (r_memory r) (r_numErrors r) (r_numLkerrs r) (wrap32 (r_numLocks r + 1))
    (r_numReqdFiles r) (r_numFlexFiles r).
Definition incr_numLkerrs r : MemManReal :=
  mkMemManReal (r_memory r) (r_numErrors r) (wrap32 (r_numLkerrs r + 1)) (r_numLocks r)
    (r_numReqdFiles r) (r_numFlexFiles r).
Definition incr_numErrors r : MemManReal :=
  mkMemManReal (r_memory r) (wrap32 (r_numErrors r + 1)) (r_numLkerrs r) (r_numLocks r)
    (r_numReqdFiles r) (r_numFlexFiles r).
Definition add_numFiles (lockNum flexNum : Z) r : MemManReal :=
  mkMemManReal (r_memory r) (r_numErrors r) (r_numLkerrs r) (r_numLocks r)
    (wrap32 (r_numReqdFiles r + lockNum)) (wrap32 (r_numFlexFiles r + flexNum)).

(** [int MemManReal::lock(Handle handle, bool strict)] *)
Definition real_lock (handle : Z) (strict : bool) (rs : RealState O)
    : outcome (RealState O * Z) :=
  let '(r, s) := rs in
  if handle =? HandleType.ISEMPTY then Ret (r, s, 0)
  else if handle =? HandleType.INVALID then Ret (r, s, EINVAL)
  else match h_hanCache s !! handle with
  | None => Ret (r, s, ENOENT)
  | Some fs =>
      if negb (isOwner (r_memory r) fs) then Ret (r, s, ENOENT)
      else
        let r1 := incr_numLocks r in
        let? (g, fs', rc) := fs_lockAll strict fs (h_mem s) in
        let s1 := mkMMState g (<[handle := fs']> (h_hanCache s)) (h_handleNum s) in
        if negb (rc =? 0) then
          let r2 := incr_numLkerrs r1 in
          if strict then
            let? (rs', _) := real_unlock handle (r2, s1) in
            Ret (rs', rc)
          else Ret (r2, s1, rc)
        else Ret (r1, s1, rc)
  end.

(** Pass 1 of [prepare]: the number of required and of flexible files. *)
Fixpoint count_files (tables : list TableInfo) : Z * Z :=
  match tables with
  | [] => (0, 0)
  | tab :: tables' =>
      let '(lockNum, flexNum) := count_files tables' in
      let one (t u : LockType) : Z := if bool_decide (t = u) then 1 else 0 in
      (lockNum + one (ti_theData tab) REQUIRED + one (ti_theIndex tab) REQUIRED,
       flexNum + one (ti_theData tab) FLEXIBLE + one (ti_theIndex tab) FLEXIBLE)
  end.

(** One half of the body of the loop of pass 2: add the data or the index file. *)
Definition add_item (tableName : string) (chunk : Z) (iFile : bool) (t : LockType)
    (fs : MemFileSet) (g : MemState O) : outcome (MemState O * MemFileSet * Z) :=
  let mustLock := bool_decide (t = REQUIRED) in
  if mustLock || bool_decide (t = FLEXIBLE)
  then fs_add tableName chunk iFile mustLock fs g
  else Ret (g, fs, 0).

(** Pass 2 of [prepare]: add the files to the file set, [break] at an error. *)
Fixpoint add_tables (tables : list TableInfo) (chunk : Z) (fs : MemFileSet) (g : MemState O)
    : outcome (MemState O * MemFileSet * Z) :=
  match tables with
  | [] => Ret (g, fs, 0)
  | tab :: tables' =>
      let? (g1, fs1, rc1) := add_item (ti_tableName tab) chunk false (ti_theData tab) fs g in
      if negb (rc1 =? 0) then Ret (g1, fs1, rc1)
      else
        let? (g2, fs2, rc2) := add_item (ti_tableName tab) chunk true (ti_theIndex tab) fs1 g1 in
        if negb (rc2 =? 0) then Ret (g2, fs2, rc2)
        else add_tables tables' chunk fs2 g2
  end.

(** [MemMan::Handle MemManReal::prepare(tables, chunk)]: handle and [errno]. *)
Definition real_prepare (tables : list TableInfo) (chunk : Z) (rs : RealState O)
    : outcome (RealState O * (Z * Z)) :=
  let '(r, s) := rs in
  let '(lockNum, flexNum) := count_files tables in
  if (lockNum =? 0) && (flexNum =? 0) then Ret (r, s, (HandleType.ISEMPTY, 0))
  else
    let? (g1, fs, retc) := add_tables tables chunk (MemFileSet_ctor (r_memory r) chunk) (h_mem s) in
    let? (g2, retc2) := (if retc =? 0 then fs_mapAll fs g1 else Ret (g1, retc)) in
    if retc2 =? 0 then
      let handleNum := wrap64 (h_handleNum s + 1) in
      (* [insert] leaves an entry that is already there *)
      let hanCache := match h_hanCache s !! handleNum with
                      | Some _ => h_hanCache s
                      | None => <[handleNum := fs]> (h_hanCache s)
                      end in
      Ret (add_numFiles lockNum flexNum r, mkMMState g2 hanCache handleNum, (handleNum, 0))
    else
      let? g3 := fs_destroy fs g2 in
      Ret (incr_numErrors r, set_h_mem g3 s, (HandleType.INVALID, retc2)).

(** The loop of [unlockAll] over the handle cache. *)
Fixpoint unlock_owned (memory : nat) (l : list (Z * MemFileSet)) s : outcome (MMState O) :=
  match l with
  | [] => Ret s
  | (handle, fs) :: l' =>
      if isOwner memory fs then
        let? g := fs_destroy fs (h_mem s) in
        unlock_owned memory l' (mkMMState g (delete handle (h_hanCache s)) (h_handleNum s))
      else unlock_owned memory l' s
  end.

(** [void MemManReal::unlockAll()] *)
Definition real_unlockAll (rs : RealState O) : outcome (RealState O) :=
  let '(r, s) := rs in
  let? s' := unlock_owned (r_memory r) (map_to_list (h_hanCache s)) s in
  Ret (r, s').

#[export] Instance MemManReal_ops : MemMan (RealState O) := {
  mm_prepare := real_prepare;
  mm_lock := real_lock;
  mm_unlock := real_unlock;
  mm_unlockAll := real_unlockAll;
}.
End real.

#[global] Arguments real_unlock : simpl never.
#[global] Arguments real_lock : simpl never.
#[global] Arguments real_prepare : simpl never.

(** [MemManReal(dbPath, maxBytes)] as the first manager of the process:
    [_memory] is the object at address [k]. *)
Definition MemManReal_ctor (k : nat) : MemManReal := mkMemManReal k 0 0 0 0 0.

(** The state of a process whose only manager has just been created. *)
Definition initial_state {O} (o : O) (k : nat) (dbPath : string) (maxBytes : Z) : RealState O :=
  (MemManReal_ctor k,
   mkMMState (mkMemState o {[k := Memory_ctor dbPath maxBytes]} ∅ ∅ 0%nat) ∅ HandleType.ISEMPTY).

(** ** class MemManNone *)

(** [_alwaysLock]; the statistics it reports are constants. *)
Record MemManNone := mkMemManNone { n_alwaysLock : bool }.

Definition none_prepare (tables : list TableInfo) (chunk : Z) (n : MemManNone)
    : outcome (MemManNone * (Z * Z)) :=
  if n_alwaysLock n then Ret (n, (HandleType.ISEMPTY, 0))
  else if existsb (fun t => bool_decide (ti_theData t = REQUIRED)
                            || bool_decide (ti_theIndex t = REQUIRED)) tables
  then Ret (n, (HandleType.INVALID, ENOMEM))
  else Ret (n, (HandleType.ISEMPTY, 0)).

#[export] Instance MemManNone_ops : MemMan MemManNone := {
  mm_prepare := none_prepare;
  mm_lock _ _ n := Ret (n, 0);
  mm_unlock _ n := Ret (n, true);
  mm_unlockAll n := Ret n;
}.
