(* ===== verification/MemManInv.v ===== *)
(** * Invariants of the memory manager

    Reference counts, absence of dangling pointers, and the accounting of
    reserved and locked bytes, proved for every operation of [MemFile],
    [MemFileSet] and [MemManReal] and collected in the laws that the
    schedulers rely on ([MemManLaws]). *)

From S2P Require Import Prelude.
From S2P Require Import Memory.
From S2P Require Import MemFile.
From S2P Require Import MemMan.

(** ** Counting pointers *)

Fixpoint occ (a : nat) (l : list nat) : Z :=
  match l with
  | [] => 0
  | b :: l' => (if decide (a = b) then 1 else 0) + occ a l'
  end.

Lemma occ_app a l k : occ a (l ++ k) = occ a l + occ a k.
Proof. induction l as [|b l IH]; simpl; lia. Qed.

Lemma occ_nonneg a l : 0 <= occ a l.
Proof. induction l as [|b l IH]; simpl; [lia|]. case_decide; lia. Qed.

Lemma occ_pos a l : a ∈ l -> 0 < occ a l.
Proof.
  induction l as [|b l IH]; [set_solver|]. simpl. pose proof (occ_nonneg a l).
  intros [->|Ha]%elem_of_cons; [rewrite decide_True by done|case_decide; specialize (IH Ha)]; lia.
Qed.

Lemma occ_cons_eq a l : occ a (a :: l) = 1 + occ a l.
Proof. simpl. by rewrite decide_True. Qed.

(** ** What a well-formed file and memory look like *)

(** A locked file is mapped, a mapped file is reserved. *)
Record file_ok (f : MemFile) : Prop := {
  fo_locked : mf_isLocked f = true -> mf_isMapped f = true;
  fo_mapped : mf_isMapped f = true -> mf_isReserved f = true /\ 0 <= mi_union (mf_memInfo f);
  fo_size : 0 < mi_size (mf_memInfo f) < two64;
  fo_mlocking : mf_mlocking f = false;
}.

(** The budget is respected. *)
Definition mem_bound (m : Memory) : Prop :=
  0 <= m_rsvBytes m <= m_maxBytes m /\ m_maxBytes m < two64.

(** Bytes a file contributes to the reserved and to the locked total. *)
Definition rsv_of (f : MemFile) : Z := if mf_isReserved f then mi_size (mf_memInfo f) else 0.
Definition lok_of (f : MemFile) : Z := if mf_isLocked f then mi_size (mf_memInfo f) else 0.

Lemma rsv_of_nonneg f : file_ok f -> 0 <= rsv_of f.
Proof. intros [_ _ ? _]. unfold rsv_of. case_match; lia. Qed.

Lemma lok_of_bound f : file_ok f -> 0 <= lok_of f <= rsv_of f.
Proof.
  intros [Hl Hm ? _]. unfold rsv_of, lok_of. destruct (mf_isLocked f); [|case_match; lia].
  destruct Hm as [-> _]; [by apply Hl|]. lia.
Qed.

(** [same_id]: the fields that identify a file object. *)
Definition same_id (f f' : MemFile) : Prop :=
  mf_fPath f' = mf_fPath f /\ mf_memory f' = mf_memory f /\ mf_refs f' = mf_refs f.

(** The operating system always reports the same size for a file. *)
Class OsStable (O : Type) `{OsMem O} (sz : string -> Z) : Prop := {
  stable_stat p o o' n : os_stat p o = (o', inr n) -> n = sz p;
  stable_fstat p o o' n : os_open_fstat p o = (o', inr n) -> n = sz p;
}.

(** ** The invariant of the store of files *)

Section wf.
Context {O : Type}.
Implicit Types (g : MemState O) (refs : nat -> Z).

(** [refs a] is the number of pointers to the file at [a] that are held by
    file sets. *)
Record mem_wf refs g : Prop := {
  wf_cache p a : g_cache g !! p = Some a <-> exists f, g_files g !! a = Some f /\ mf_fPath f = p;
  wf_refs a : refs a = match g_files g !! a with Some f => mf_refs f | None => 0 end;
  wf_pos a f : g_files g !! a = Some f -> 0 < mf_refs f;
  wf_mem a f : g_files g !! a = Some f -> is_Some (g_mems g !! mf_memory f);
  wf_next a f : g_files g !! a = Some f -> (a < g_next g)%nat;
  wf_file a f : g_files g !! a = Some f -> file_ok f;
}.

#[export] Instance mem_wf_proper : Proper (pointwise_relation nat eq ==> eq ==> iff) mem_wf.
Proof.
  intros r r' Hr g ? <-. split; intros [Hc Hf Hp Hm Hn Ho]; split; auto;
    intros a; rewrite <- (Hf a); [symmetry|]; apply Hr.
Qed.

Definition mems_bound g : Prop := forall k m, g_mems g !! k = Some m -> mem_bound m.

(** Bytes reserved (locked) by the files of memory [k]. *)
Definition rsv_sum (k : nat) g : Z :=
  msum (fun _ f => if decide (mf_memory f = k) then rsv_of f else 0) (g_files g).
Definition lok_sum (k : nat) g : Z :=
  msum (fun _ f => if decide (mf_memory f = k) then lok_of f else 0) (g_files g).

(** The counters are exact. *)
Definition mems_exact g : Prop :=
  forall k m, g_mems g !! k = Some m -> m_rsvBytes m = rsv_sum k g /\ m_lokBytes m = lok_sum k g.

Definition sizes_ok (sz : string -> Z) g : Prop :=
  forall a f, g_files g !! a = Some f -> mi_size (mf_memInfo f) = sz (mf_fPath f).

(** A pointer that is held is valid. *)
Lemma wf_valid refs g a : mem_wf refs g -> refs a <> 0 -> is_Some (g_files g !! a).
Proof. intros Hwf Ha. pose proof (wf_refs _ _ Hwf a). destruct (g_files g !! a); [eauto|done]. Qed.

Lemma wf_lookup_mem refs g a :
  mem_wf refs g -> refs a <> 0 ->
  exists f m, g_files g !! a = Some f /\ g_mems g !! mf_memory f = Some m /\ file_ok f.
Proof.
  intros Hwf Ha. destruct (wf_valid _ _ _ Hwf Ha) as [f Hf].
  destruct (wf_mem _ _ Hwf a f Hf) as [m Hm]. exists f, m. split_and!; auto. by eapply wf_file.
Qed.

Lemma lok_sum_le_rsv k refs g : mem_wf refs g -> lok_sum k g <= rsv_sum k g.
Proof.
  intros Hwf. apply msum_le. intros a f Hf. case_decide; [|lia].
  apply lok_of_bound. by eapply wf_file.
Qed.
End wf.

(** ** Steps that change one file and its memory *)

(** The bookkeeping relation between the old and the new file and memory. *)
Record acct_step (stable : Prop) (f : MemFile) (m : Memory) (f' : MemFile) (m' : Memory) : Prop := {
  as_max : m_maxBytes m' = m_maxBytes m;
  as_dir : m_dbDir m' = m_dbDir m;
  as_bound : mem_bound m -> mem_bound m';
  as_size : stable -> mi_size (mf_memInfo f') = mi_size (mf_memInfo f);
  as_exact : stable -> mem_bound m -> rsv_of f <= m_rsvBytes m ->
    0 <= m_lokBytes m - lok_of f <= m_rsvBytes m - rsv_of f ->
    m_rsvBytes m' = m_rsvBytes m - rsv_of f + rsv_of f' /\
    m_lokBytes m' = m_lokBytes m - lok_of f + lok_of f';
}.

Section steps.
Context {O : Type} `{OsMem O}.
Implicit Types (g : MemState O) (refs : nat -> Z).

Record file_step (stable : Prop) (a : nat) (f : MemFile) (m : Memory) (f' : MemFile) (m' : Memory)
    g g' : Prop := {
  fst_file : g_files g !! a = Some f;
  fst_mem : g_mems g !! mf_memory f = Some m;
  fst_files : g_files g' = <[a := f']> (g_files g);
  fst_mems : g_mems g' = <[mf_memory f := m']> (g_mems g);
  fst_cache : g_cache g' = g_cache g;
  fst_next : g_next g' = g_next g;
  fst_id : same_id f f';
  fst_ok : file_ok f';
  fst_acct : acct_step stable f m f' m';
}.

Lemma file_step_wf st a f m f' m' g g' refs :
  file_step st a f m f' m' g g' -> mem_wf refs g -> mem_wf refs g'.
Proof.
  intros [Hf Hm Hfs Hms Hc Hn (Hp & Hme & Hr) Hok _] Hwf. split; rewrite ?Hfs, ?Hms, ?Hc, ?Hn.
  - intros p b. rewrite (wf_cache _ _ Hwf). destruct (decide (a = b)) as [<-|Hne].
    + rewrite lookup_insert_eq. split; intros (f0 & ? & ?); simplify_eq; eauto.
    + by rewrite lookup_insert_ne.
  - intros b. rewrite (wf_refs _ _ Hwf b). destruct (decide (a = b)) as [<-|Hne].
    + by rewrite lookup_insert_eq, Hf, Hr.
    + by rewrite lookup_insert_ne.
  - intros b f0 [(-> & <-)|(? & ?)]%lookup_insert_Some; [rewrite Hr|]; by eapply wf_pos.
  - intros b f0 [(-> & <-)|(? & Hb)]%lookup_insert_Some.
    + rewrite Hme, lookup_insert_eq. eauto.
    + apply lookup_insert_is_Some'. right. by eapply wf_mem.
  - intros b f0 [(-> & <-)|(? & ?)]%lookup_insert_Some; by eapply wf_next.
  - intros b f0 [(-> & <-)|(? & ?)]%lookup_insert_Some; [done|]. by eapply wf_file.
Qed.

Lemma file_step_bound st a f m f' m' g g' :
  file_step st a f m f' m' g g' -> mems_bound g -> mems_bound g'.
Proof.
  intros [_ Hm _ Hms _ _ _ _ Ha] Hb k n. rewrite Hms.
  intros [(<- & <-)|(? & ?)]%lookup_insert_Some; [apply (as_bound _ _ _ _ _ Ha)|]; by eapply Hb.
Qed.

Lemma file_step_sizes (st : Prop) sz a f m f' m' g g' :
  file_step st a f m f' m' g g' -> st -> sizes_ok sz g -> sizes_ok sz g'.
Proof.
  intros [Hf _ Hfs _ _ _ (Hp & _ & _) _ Ha] Hst Hs b f0. rewrite Hfs.
  intros [(-> & <-)|(? & ?)]%lookup_insert_Some; [|by eapply Hs].
  rewrite (as_size _ _ _ _ _ Ha Hst), Hp. by eapply Hs.
Qed.

(** A sum over the files of [k] after the step. *)
Lemma sum_step (c : MemFile -> Z) st a f m f' m' g g' k :
  file_step st a f m f' m' g g' ->
  msum (fun _ f => if decide (mf_memory f = k) then c f else 0) (g_files g') =
  msum (fun _ f => if decide (mf_memory f = k) then c f else 0) (g_files g)
    + (if decide (mf_memory f = k) then c f' - c f else 0).
Proof.
  intros [Hf _ -> _ _ _ (_ & Hme & _) _ _]. rewrite (msum_update _ _ _ f) by done.
  rewrite Hme. case_decide; lia.
Qed.

Lemma file_step_exact (st : Prop) a f m f' m' g g' refs :
  file_step st a f m f' m' g g' -> st -> mem_wf refs g -> mems_bound g ->
  mems_exact g -> mems_exact g'.
Proof.
  intros Hstep Hst Hwf Hb Hex k n. pose proof Hstep as [Hf Hm _ Hms _ _ _ _ Ha].
  unfold rsv_sum, lok_sum. rewrite !(sum_step _ _ _ _ _ _ _ _ _ _ Hstep).
  rewrite Hms. intros [(<- & <-)|(Hne & Hk)]%lookup_insert_Some.
  - destruct (Hex _ _ Hm) as [Hr Hl]. rewrite !decide_True by done.
    assert (Hfr : rsv_of f - lok_of f <= rsv_sum (mf_memory f) g - lok_sum (mf_memory f) g
                  /\ rsv_of f <= rsv_sum (mf_memory f) g /\ lok_of f <= lok_sum (mf_memory f) g).
    { unfold rsv_sum, lok_sum. rewrite !(msum_lookup _ (g_files g) a f Hf), !decide_True by done.
      set (d := delete a (g_files g)).
      assert (Hd : forall b f0, d !! b = Some f0 -> file_ok f0).
      { intros b f0 Hb'. apply lookup_delete_Some in Hb' as [_ Hb']. by eapply wf_file. }
      assert (0 <= msum (fun _ f0 => if decide (mf_memory f0 = mf_memory f) then lok_of f0 else 0) d
              <= msum (fun _ f0 => if decide (mf_memory f0 = mf_memory f) then rsv_of f0 else 0) d).
      { split; [apply msum_nonneg | apply msum_le]; intros b f0 Hb'; case_decide; try lia;
          apply lok_of_bound; eauto. }
      lia. }
    destruct (as_exact _ _ _ _ _ Ha Hst) as [Hr' Hl']; [by eapply Hb | lia | lia |].
    unfold rsv_sum, lok_sum in *. lia.
  - rewrite !decide_False by done. rewrite !Z.add_0_r. by apply Hex.
Qed.
End steps.

(** ** The invariant, and its preservation by the operations on one file *)

Section inv.
Context {O : Type} `{HO : OsMem O} `{HL : !OsMemLaws O} (sz : string -> Z).
Implicit Types (g : MemState O) (refs : nat -> Z).

Definition stable : Prop := OsStable O sz.

Record mem_inv refs g : Prop := {
  mi_wf : mem_wf refs g;
  mi_bound : mems_bound g;
  mi_exact : stable -> sizes_ok sz g /\ mems_exact g;
}.

#[export] Instance mem_inv_proper : Proper (pointwise_relation nat eq ==> eq ==> iff) mem_inv.
Proof. intros r r' Hr g ? <-. split; intros [Hw Hb He]; split; auto; by rewrite ?Hr, <- ?Hr in *. Qed.

(** The [Memory] objects persist, with their directory and budget. *)
Definition frame g g' : Prop :=
  forall k m, g_mems g !! k = Some m -> exists m', g_mems g' !! k = Some m'
    /\ m_maxBytes m' = m_maxBytes m /\ m_dbDir m' = m_dbDir m.

#[export] Instance frame_preorder : PreOrder frame.
Proof.
  split; [intros g k m Hm; eauto|]. intros g1 g2 g3 H12 H23 k m Hm.
  destruct (H12 k m Hm) as (m2 & Hm2 & E1 & E2).
  destruct (H23 k m2 Hm2) as (m3 & Hm3 & E3 & E4). exists m3. split_and!; congruence.
Qed.

(** The effect of an operation on one file: nothing, or one [file_step]. *)
Definition one_step a g g' : Prop :=
  g' = g \/ exists f m f' m', file_step stable a f m f' m' g g'.

Lemma one_step_inv a g g' refs :
  one_step a g g' -> mem_inv refs g -> mem_inv refs g' /\ frame g g'.
Proof.
  intros [->|(f & m & f' & m' & Hst)] [Hwf Hb He]; [split; [by split|reflexivity]|]. split; [split|].
  - by eapply file_step_wf.
  - by eapply file_step_bound.
  - intros Hs. destruct (He Hs) as [Hsz Hex].
    split; [by eapply file_step_sizes | by eapply file_step_exact].
  - intros k n Hk. pose proof Hst as [_ Hm _ Hms _ _ _ _ Ha]. rewrite Hms.
    destruct (decide (mf_memory f = k)) as [<-|Hne].
    + rewrite lookup_insert_eq. simplify_eq/=. exists m'. by destruct Ha.
    + rewrite lookup_insert_ne by done. eauto.
Qed.

Lemma memLock_spec mInfo isFlex m o o' m' rc :
  0 < mi_size mInfo -> memLock mInfo isFlex m o = (o', m', rc) ->
  m_maxBytes m' = m_maxBytes m /\ m_dbDir m' = m_dbDir m /\ m_rsvBytes m' = m_rsvBytes m /\
  m_lokBytes m' = (if rc =? 0 then wrap64 (m_lokBytes m + mi_size mInfo) else m_lokBytes m).
Proof.
  intros Hsz. unfold memLock, isValid, mi_size in *.
  destruct (Z.eqb_spec (mi_memSize mInfo) 0); [lia|]. simpl.
  destruct (os_mlock _ _ _) as [o1 [e|]] eqn:Elk; intros [= <- <- <-].
  - apply os_mlock_errno in Elk.
    rewrite (proj2 (Z.eqb_neq _ 0)) by (case_match; unfold ENOMEM; lia). done.
  - by destruct isFlex.
Qed.

(** Setting flags of a file without touching the sizes or the counters. *)
Lemma file_step_quiet a f m f' m' g o :
  g_files g !! a = Some f -> g_mems g !! mf_memory f = Some m ->
  same_id f f' -> file_ok f' -> mf_memInfo f' = mf_memInfo f ->
  rsv_of f' = rsv_of f -> lok_of f' = lok_of f ->
  m_maxBytes m' = m_maxBytes m -> m_dbDir m' = m_dbDir m ->
  m_rsvBytes m' = m_rsvBytes m -> m_lokBytes m' = m_lokBytes m ->
  file_step stable a f m f' m' g (set_file a f' (set_os o (set_mem (mf_memory f) m' g))).
Proof.
  intros Hf Hm Hid Hok Hi Hr Hl E1 E2 E3 E4. split; auto. split; auto.
  - unfold mem_bound. by rewrite E1, E3.
  - intros _. by rewrite Hi.
  - intros. lia.
Qed.

Lemma memLock_step a g refs :
  mem_wf refs g -> refs a <> 0 ->
  exists g' r, MemFile_memLock a g = Ret (g', r) /\ one_step a g g'.
Proof.
  intros Hwf Ha. destruct (wf_lookup_mem _ _ _ Hwf Ha) as (f & m & Hf & Hm & Hok).
  pose proof Hok as [_ Hmap Hsz Hml].
  unfold MemFile_memLock. rewrite Hf, Hm.
  destruct (mf_isLocked f) eqn:El; [eexists _, _; split; [done|by left]|].
  destruct (mf_isMapped f) eqn:Em.
  - destruct (memLock (mf_memInfo f) (mf_isFlex f) m (g_os g)) as [[o m'] rc] eqn:Emem.
    apply memLock_spec in Emem as (E1 & E2 & E3 & E4); [|lia].
    destruct Hmap as [Hres Haddr]; [done|]. destruct (rc =? 0).
    + eexists _, _. split; [done|]. right. exists f, m. eexists _, m'.
      split; try done. split; auto.
      * unfold mem_bound. by rewrite E1, E3.
      * intros _ [Hb1 Hb2] Hr Hl. unfold rsv_of, lok_of in *. simpl.
        rewrite El, Hres in *. rewrite E3, E4, wrap64_small by lia. lia.
    + assert (Hq : one_step a g (set_file a (set_mlocking false f) (set_os o (set_mem (mf_memory f) m' g)))).
      { right. exists f, m. eexists _, m'. apply file_step_quiet; auto; [done|]. split; simpl; auto. }
      destruct (mf_isFlex f); eauto.
  - simpl. assert (Hq : one_step a g (set_file a (set_mlocking false f) g)).
    { right. exists f, m, (set_mlocking false f), m.
      pose proof (file_step_quiet a f m (set_mlocking false f) m g (g_os g) Hf Hm) as Hst.
      destruct Hst; auto; [done| split; simpl; auto; congruence |].
      split; auto. simpl. by rewrite insert_id. }
    destruct (mf_isFlex f); eauto.
Qed.

Lemma memReserve_fits n m :
  0 < n < two64 -> n <= bytesFree m -> mem_bound m ->
  m_rsvBytes (memReserve n m) = m_rsvBytes m + n /\ m_rsvBytes m + n <= m_maxBytes m.
Proof.
  unfold bytesFree, memReserve, mem_bound. intros Hn Hf Hb. simpl.
  destruct (Z.leb_spec (m_maxBytes m) (m_rsvBytes m)); [lia|]. rewrite wrap64_small by lia. lia.
Qed.

Lemma memRestore_spec n m :
  m_maxBytes (memRestore n m) = m_maxBytes m /\ m_dbDir (memRestore n m) = m_dbDir m /\
  m_lokBytes (memRestore n m) = m_lokBytes m /\
  m_rsvBytes (memRestore n m) = Z.max 0 (m_rsvBytes m - n).
Proof. unfold memRestore. destruct (Z.leb_spec (m_rsvBytes m) n); simpl; repeat split; lia. Qed.

Lemma mapFile_spec p m o o' m' mInfo :
  mapFile p m o = (o', m', mInfo) ->
  (m_maxBytes m' = m_maxBytes m /\ m_dbDir m' = m_dbDir m /\
   m_rsvBytes m' = m_rsvBytes m /\ m_lokBytes m' = m_lokBytes m) /\
  (if isValid mInfo
   then 0 < mi_size mInfo < two64 /\ 0 <= mi_union mInfo /\ (stable -> mi_size mInfo = sz p)
   else 0 < errCode mInfo).
Proof.
  unfold mapFile. destruct (os_open_fstat p o) as [o1 [e|n]] eqn:Eo.
  { intros [= <- <- <-]. apply os_fstat_errno in Eo. done. }
  destruct (Z.ltb_spec 0 n); [|by intros [= <- <- <-]].
  destruct (os_mmap p n o1) as [o2 [e|addr]] eqn:Em; intros [= <- <- <-].
  - apply os_mmap_errno in Em. done.
  - apply os_mmap_addr in Em. unfold isValid, mi_size. simpl. rewrite (proj2 (Z.eqb_neq n 0)) by lia.
    simpl. split; [done|]. split_and!; [done|by apply os_fstat_size in Eo|done|].
    intros Hs. unfold stable in Hs. by eapply (stable_fstat (sz := sz)).
Qed.

(** The reservation made (or already held) by [memMap]. *)
Lemma reserve_step f m :
  mf_isReserved f = true \/ mi_size (mf_memInfo f) <= bytesFree m ->
  0 < mi_size (mf_memInfo f) < two64 -> mem_bound m ->
  let m1 := if mf_isReserved f then m else memReserve (mi_size (mf_memInfo f)) m in
  m_maxBytes m1 = m_maxBytes m /\ m_dbDir m1 = m_dbDir m /\ m_lokBytes m1 = m_lokBytes m /\
  m_rsvBytes m1 = m_rsvBytes m - rsv_of f + mi_size (mf_memInfo f) /\ mem_bound m1.
Proof.
  intros Hor Hsz Hb. unfold rsv_of. destruct (mf_isReserved f); simpl.
  - split_and!; try done. lia.
  - destruct Hor as [|Hfit]; [done|].
    destruct (memReserve_fits _ _ Hsz Hfit Hb) as [Hr Hle]. unfold mem_bound in *.
    split_and!; try done; simpl in *; lia.
Qed.

Lemma memMap_step a g refs :
  mem_inv refs g -> refs a <> 0 ->
  exists g' rc, MemFile_memMap a g = Ret (g', rc) /\ one_step a g g' /\ 0 <= rc.
Proof.
  intros [Hwf Hbd Hex] Ha. destruct (wf_lookup_mem _ _ _ Hwf Ha) as (f & m & Hf & Hm & Hok).
  pose proof (Hbd _ _ Hm) as Hb. pose proof Hok as [Hlk Hmap Hsz Hml].
  unfold MemFile_memMap. rewrite Hf, Hm, Hml.
  destruct (mf_isMapped f) eqn:Em; [eexists _, _; split; [done|by split; [left|]]|].
  assert (El : mf_isLocked f = false) by (destruct (mf_isLocked f); [by discriminate Hlk|done]).
  assert (El0 : lok_of f = 0) by (unfold lok_of; by rewrite El).
  destruct (negb _ && _) eqn:Efree.
  { eexists _, _. split; [done|]. split; [by left|]. case_match; unfold ENOMEM; lia. }
  assert (Hor : mf_isReserved f = true \/ mi_size (mf_memInfo f) <= bytesFree m).
  { destruct (mf_isReserved f); [by left|right]. by apply Z.ltb_ge in Efree. }
  destruct (reserve_step f m Hor Hsz Hb) as (F1 & F2 & F3 & F4 & F5).
  set (m1 := if mf_isReserved f then m else _) in *.
  destruct (mapFile (mf_fPath f) m1 (g_os g)) as [[o m2] mInfo] eqn:Emap.
  apply mapFile_spec in Emap as [(E1 & E2 & E3 & E4) Hvalid].
  assert (Hb2 : mem_bound m2) by (unfold mem_bound in *; by rewrite E1, E3).
  destruct (isValid mInfo).
  - destruct Hvalid as (Hsz' & Haddr & Hstab). eexists _, _. split; [done|]. split; [|done].
    right. exists f, m. eexists _, m2. split; try done; try by split.
    assert (Hsame : stable -> mi_size mInfo = mi_size (mf_memInfo f)).
    { intros Hs. rewrite (Hstab Hs). symmetry. by eapply (proj1 (Hex Hs)). }
    split; try done; try congruence.
    intros Hs _ Hr Hl. unfold rsv_of at 2, lok_of at 2. simpl. rewrite El, (Hsame Hs). lia.
  - destruct (mf_isFlex f && (errCode mInfo =? ENOMEM)).
    + eexists _, _. split; [done|]. split; [|done]. right. exists f, m. eexists _, m2.
      split; try done; try (split; simpl; first [done | congruence]). split; try done; try congruence.
      intros Hs _ Hr Hl. unfold rsv_of at 2, lok_of at 2. simpl. rewrite El. lia.
    + eexists _, _. split; [done|]. split; [|lia]. right. exists f, m. eexists _, (memRestore _ m2).
      destruct (memRestore_spec (mi_size (mf_memInfo f)) m2) as (R1 & R2 & R3 & R4).
      split; try done; try (by simpl; rewrite insert_insert_eq); try (split; simpl; first [done | congruence]).
      split; try done; try congruence.
      * unfold mem_bound in *. rewrite R1, R4. intros _. lia.
      * intros Hs _ Hr Hl. unfold rsv_of at 2, lok_of at 2. simpl. rewrite El, R3, R4.
        unfold mem_bound in *. lia.
Qed.

(** ** Taking and dropping references *)

Definition add_refs (l : list nat) refs : nat -> Z := fun b => refs b + occ b l.

Lemma sum_insert_ref (c : MemFile -> Z) a f n (files : gmap nat MemFile) k :
  files !! a = Some f -> c (set_refs n f) = c f ->
  msum (fun _ f => if decide (mf_memory f = k) then c f else 0) (<[a := set_refs n f]> files) =
  msum (fun _ f => if decide (mf_memory f = k) then c f else 0) files.
Proof. intros Hf Hc. rewrite (msum_update _ _ _ f) by done. simpl. rewrite Hc. lia. Qed.

(** Changing only the reference count of a file. *)
Lemma set_refs_inv a f n refs refs' g :
  mem_inv refs g -> g_files g !! a = Some f -> 0 < n -> refs' a = n ->
  (forall b, b <> a -> refs' b = refs b) -> mem_inv refs' (set_file a (set_refs n f) g).
Proof.
  intros [Hwf Hb Hex] Hf Hn Ha Hne. split; [split| |]; simpl.
  - intros p b. rewrite (wf_cache _ _ Hwf). destruct (decide (a = b)) as [<-|Hab].
    + rewrite lookup_insert_eq. split; intros (f0 & ? & ?); simplify_eq/=; eauto.
    + by rewrite lookup_insert_ne.
  - intros b. destruct (decide (a = b)) as [<-|Hab].
    + by rewrite lookup_insert_eq.
    + rewrite lookup_insert_ne, Hne by done. apply (wf_refs _ _ Hwf).
  - intros b f0 [(<- & <-)|(? & ?)]%lookup_insert_Some; [done|]. by eapply wf_pos.
  - intros b f0 [(<- & <-)|(? & ?)]%lookup_insert_Some; [by apply (wf_mem _ _ Hwf a f)|by eapply wf_mem].
  - intros b f0 [(<- & <-)|(? & ?)]%lookup_insert_Some; by eapply wf_next.
  - intros b f0 [(<- & <-)|(? & ?)]%lookup_insert_Some; [|by eapply wf_file].
    by destruct (wf_file _ _ Hwf a f Hf); split.
  - done.
  - intros Hs. destruct (Hex Hs) as [Hsz He]. split.
    + intros b f0 Hb'. simpl in Hb'. apply lookup_insert_Some in Hb' as [(<- & <-)|(? & ?)]; [by apply (Hsz a f)|by eapply Hsz].
    + intros k m Hm. unfold rsv_sum, lok_sum. simpl.
      rewrite !sum_insert_ref by done. by apply He.
Qed.

Lemma fileInfo_spec p o o' mInfo :
  fileInfo p o = (o', mInfo) ->
  if isValid mInfo then 0 < mi_size mInfo < two64 /\ (stable -> mi_size mInfo = sz p)
  else 0 < errCode mInfo.
Proof.
  unfold fileInfo. destruct (os_stat p o) as [o1 [e|n]] eqn:Es.
  - intros [= <- <-]. by apply os_stat_errno in Es.
  - destruct (Z.ltb_spec 0 n) as [Hn|]; intros [= <- <-]; [|done].
    unfold isValid, mi_size; simpl. rewrite (proj2 (Z.eqb_neq n 0)) by lia. simpl.
    split; [split; [done|by apply os_stat_size in Es]|].
    intros Hs. unfold stable in Hs. by eapply (stable_stat (sz := sz)).
Qed.

Lemma fresh_next refs g : mem_wf refs g -> g_files g !! g_next g = None.
Proof.
  intros Hwf. destruct (g_files g !! g_next g) as [f|] eqn:E; [|done].
  apply (wf_next _ _ Hwf) in E. lia.
Qed.

(** Entering a new file object in the cache. *)
Lemma new_file_inv p k mInfo isFlex refs g :
  mem_inv refs g -> is_Some (g_mems g !! k) -> g_cache g !! p = None ->
  0 < mi_size mInfo < two64 -> (stable -> mi_size mInfo = sz p) ->
  mem_inv (add_refs [g_next g] refs)
    (mkMemState (g_os g) (g_mems g) (<[g_next g := MemFile_ctor p k mInfo isFlex]> (g_files g))
       (<[p := g_next g]> (g_cache g)) (S (g_next g))).
Proof.
  intros [Hwf Hb Hex] Hk Hp Hsz Hst. pose proof (fresh_next _ _ Hwf) as Hfr.
  split; [split| |]; simpl.
  - intros q b. destruct (decide (g_next g = b)) as [<-|Hab].
    + rewrite lookup_insert_eq. split.
      * intros [(<- & _)|(Hne & Hq)]%lookup_insert_Some; [eauto|].
        apply (wf_cache _ _ Hwf) in Hq as (f & Hf & _). congruence.
      * intros (f & [= <-] & <-). apply lookup_insert_eq.
    + rewrite (lookup_insert_ne (g_files g)) by done. rewrite <- (wf_cache _ _ Hwf).
      destruct (decide (p = q)) as [<-|Hpq]; [|by rewrite lookup_insert_ne].
      rewrite lookup_insert_eq, Hp. split; congruence.
  - intros b. unfold add_refs; simpl. rewrite (wf_refs _ _ Hwf b).
    destruct (decide (g_next g = b)) as [<-|Hab].
    + by rewrite lookup_insert_eq, Hfr, decide_True.
    + rewrite lookup_insert_ne, decide_False by done. lia.
  - intros b f [(<- & <-)|(? & ?)]%lookup_insert_Some; [done|]. by eapply wf_pos.
  - intros b f [(<- & <-)|(? & ?)]%lookup_insert_Some; [done|]. by eapply wf_mem.
  - intros b f [(<- & <-)|(? & Hb')]%lookup_insert_Some; [lia|].
    apply (wf_next _ _ Hwf) in Hb'. lia.
  - intros b f [(<- & <-)|(? & ?)]%lookup_insert_Some; [by split|]. by eapply wf_file.
  - done.
  - intros Hs. destruct (Hex Hs) as [Hsz' He]. split.
    + intros b f Hb'. simpl in Hb'. apply lookup_insert_Some in Hb' as [(<- & <-)|(? & ?)]; [by apply Hst | by eapply Hsz'].
    + intros j m Hm. unfold rsv_sum, lok_sum; simpl. rewrite !msum_insert by done.
      change (rsv_of (MemFile_ctor p k mInfo isFlex)) with 0.
      change (lok_of (MemFile_ctor p k mInfo isFlex)) with 0.
      destruct (He j m Hm). unfold rsv_sum, lok_sum in *. case_decide; lia.
Qed.

Lemma obtain_step p k isFlex refs g :
  mem_inv refs g -> is_Some (g_mems g !! k) -> (forall b, 0 <= refs b) ->
  exists g' r, MemFile_obtain p k isFlex g = Ret (g', r) /\ frame g g' /\
    match mfr_mfP r with
    | Some a => mem_inv (add_refs [a] refs) g' /\ mfr_retc r = 0
    | None => mem_inv refs g' /\ 0 < mfr_retc r
    end.
Proof.
  intros Hinv Hk Hpos. pose proof Hinv as [Hwf Hb Hex]. unfold MemFile_obtain.
  destruct (g_cache g !! p) as [a|] eqn:Ec.
  - destruct (proj1 (wf_cache _ _ Hwf p a) Ec) as (f & Hf & _). rewrite Hf.
    destruct (negb _); [by eexists _, _|].
    eexists _, _. split; [done|]. split; [intros j m; eauto|]. simpl. split; [|done].
    assert (Hr : refs a = mf_refs f) by (rewrite (wf_refs _ _ Hwf a); by rewrite Hf).
    apply (set_refs_inv a f _ refs); try done.
    + pose proof (wf_pos _ _ Hwf a f Hf). lia.
    + unfold add_refs. rewrite occ_cons_eq. simpl. lia.
    + intros b Hb'. unfold add_refs. simpl. rewrite decide_False by done. lia.
  - destruct (fileInfo p (g_os g)) as [o mInfo] eqn:Ef. apply fileInfo_spec in Ef.
    assert (Hos : mem_inv refs (set_os o g)) by (split; [destruct Hwf; by split| |]; done).
    destruct (isValid mInfo); simpl.
    + destruct Ef as [Hsz Hst]. eexists _, _. split; [done|]. split; [intros j m; eauto|].
      simpl. split; [|done]. by apply (new_file_inv p k mInfo isFlex refs (set_os o g)).
    + eexists _, _. split; [done|]. split; [intros j m; eauto|]. done.
Qed.

(** What [release] does to the memory of the last reference. *)
Lemma memRel_spec mInfo islkd m o o' m' i' :
  0 < mi_size mInfo -> 0 <= mi_union mInfo ->
  memRel mInfo islkd m o = (o', m', i') ->
  m_maxBytes m' = m_maxBytes m /\ m_dbDir m' = m_dbDir m /\ m_rsvBytes m' = m_rsvBytes m /\
  m_lokBytes m' = (if islkd then Z.max 0 (m_lokBytes m - mi_size mInfo) else m_lokBytes m).
Proof.
  intros Hsz Ha. unfold memRel, mi_size in *. rewrite (proj2 (Z.ltb_lt 0 _)) by done.
  rewrite (proj2 (Z.eqb_neq (mi_union mInfo) MAP_FAILED)) by (unfold MAP_FAILED; lia). simpl.
  intros [= <- <- <-]. destruct islkd; [|done].
  destruct (Z.ltb_spec (mi_memSize mInfo) (m_lokBytes m)); simpl; repeat split; lia.
Qed.

(** Removing a file object, with the counters of its memory adjusted. *)
Lemma delete_file_inv a f m' o refs refs' g :
  mem_inv refs g -> g_files g !! a = Some f ->
  (forall b, refs' b = if decide (b = a) then 0 else refs b) ->
  (forall m, g_mems g !! mf_memory f = Some m ->
     m_maxBytes m' = m_maxBytes m /\ m_rsvBytes m' = Z.max 0 (m_rsvBytes m - rsv_of f) /\
     m_lokBytes m' = (if mf_isLocked f then Z.max 0 (m_lokBytes m - lok_of f) else m_lokBytes m)) ->
  mem_inv refs' (mkMemState o (<[mf_memory f := m']> (g_mems g)) (delete a (g_files g))
                   (delete (mf_fPath f) (g_cache g)) (g_next g)).
Proof.
  intros [Hwf Hbd Hex] Hf Hrefs Hm'.
  destruct (wf_mem _ _ Hwf a f Hf) as [m Hm]. destruct (Hm' m Hm) as (E1 & E2 & E3).
  pose proof (wf_file _ _ Hwf a f Hf) as Hok. pose proof (rsv_of_nonneg f Hok).
  split; [split| |]; simpl.
  - intros p b. rewrite lookup_delete_Some, (wf_cache _ _ Hwf). split.
    + intros (Hne & f0 & Hf0 & Hp). exists f0. split; [|done].
      rewrite lookup_delete_ne; [done|]. intros <-. congruence.
    + intros (f0 & [Hne Hf0]%lookup_delete_Some & <-). split; [|eauto].
      intros Hp. apply Hne. assert (Ha := proj2 (wf_cache _ _ Hwf (mf_fPath f) a) ltac:(eauto)).
      assert (Hb := proj2 (wf_cache _ _ Hwf (mf_fPath f0) b) ltac:(eauto)). congruence.
  - intros b. rewrite Hrefs. case_decide as Hb.
    + subst b. by rewrite lookup_delete_eq.
    + rewrite lookup_delete_ne by done. apply (wf_refs _ _ Hwf).
  - intros b f0 [? ?]%lookup_delete_Some. by eapply wf_pos.
  - intros b f0 [? ?]%lookup_delete_Some. apply lookup_insert_is_Some'. right. by eapply wf_mem.
  - intros b f0 [? ?]%lookup_delete_Some. by eapply wf_next.
  - intros b f0 [? ?]%lookup_delete_Some. by eapply wf_file.
  - intros k n Hk. simpl in Hk. apply lookup_insert_Some in Hk as [(<- & <-)|(? & ?)]; [|by eapply Hbd].
    pose proof (Hbd _ _ Hm). unfold mem_bound in *. rewrite E1, E2. lia.
  - intros Hs. destruct (Hex Hs) as [Hsz He]. split.
    + intros b f0 Hb. simpl in Hb. apply lookup_delete_Some in Hb as [? ?]. by eapply Hsz.
    + intros k n Hk. simpl in Hk. unfold rsv_sum, lok_sum; simpl.
      rewrite !(msum_delete _ _ a f) by done.
      assert (Hnn : rsv_of f <= rsv_sum (mf_memory f) g /\ lok_of f <= lok_sum (mf_memory f) g).
      { split; unfold rsv_sum, lok_sum.
        all: match goal with |- _ <= msum ?F _ =>
               pose proof (msum_member F (g_files g) a f) as Hle; simpl in Hle;
               rewrite decide_True in Hle by done; apply Hle; [|done] end.
        all: intros b f0 Hb; case_decide; [|lia];
             pose proof (wf_file _ _ Hwf b f0 Hb) as Hok0; pose proof (lok_of_bound _ Hok0); lia. }
      apply lookup_insert_Some in Hk as [(<- & <-)|(Hne & Hk)].
      * rewrite !decide_True by done. destruct (He _ _ Hm) as [H1 H2].
        unfold rsv_sum, lok_sum, lok_of in *. rewrite E2, E3. destruct (mf_isLocked f); lia.
      * rewrite !decide_False by done. rewrite !Z.sub_0_r. by apply He.
Qed.

Lemma release_step a refs g :
  mem_inv (add_refs [a] refs) g -> (forall b, 0 <= refs b) ->
  exists g', MemFile_release a g = Ret g' /\ frame g g' /\ mem_inv refs g'.
Proof.
  intros Hinv Hpos. pose proof Hinv as [Hwf Hb Hex].
  assert (Hra : add_refs [a] refs a = refs a + 1) by (unfold add_refs; rewrite occ_cons_eq; simpl; lia).
  assert (Hrb : forall b, b <> a -> add_refs [a] refs b = refs b).
  { intros b Hne. unfold add_refs. simpl. rewrite decide_False by done. lia. }
  destruct (wf_lookup_mem _ _ a Hwf) as (f & m & Hf & Hm & Hok); [specialize (Hpos a); lia|].
  assert (Hr : mf_refs f = refs a + 1).
  { rewrite <- Hra, (wf_refs _ _ Hwf a). by rewrite Hf. }
  unfold MemFile_release. rewrite Hf, Hm, Hr. destruct (Z.ltb_spec 0 (refs a + 1 - 1)) as [Hlt|Hge].
  - eexists. split; [done|]. split; [intros j n; eauto|].
    eapply set_refs_inv; [exact Hinv | exact Hf | lia | lia |]. intros b Hne. by rewrite Hrb.
  - destruct (if mf_isMapped f then _ else _) as [o m1] eqn:Erel.
    set (m2 := if mf_isReserved f then _ else _).
    assert (Hm2 : m_maxBytes m2 = m_maxBytes m /\ m_dbDir m2 = m_dbDir m /\
                  m_rsvBytes m2 = Z.max 0 (m_rsvBytes m - rsv_of f) /\
                  m_lokBytes m2 = (if mf_isLocked f then Z.max 0 (m_lokBytes m - lok_of f) else m_lokBytes m)).
    { assert (Hm1 : m_maxBytes m1 = m_maxBytes m /\ m_dbDir m1 = m_dbDir m /\ m_rsvBytes m1 = m_rsvBytes m /\
         m_lokBytes m1 = (if mf_isLocked f then Z.max 0 (m_lokBytes m - lok_of f) else m_lokBytes m)).
      { destruct Hok as [Hlk Hmp Hsz _]. unfold lok_of. destruct (mf_isMapped f).
        - destruct (memRel _ _ _ _) as [[o' m'] i'] eqn:Em. simplify_eq/=.
          apply memRel_spec in Em; [|lia|by apply Hmp]. by destruct (mf_isLocked f).
        - simplify_eq/=. destruct (mf_isLocked f); [by discriminate Hlk|done]. }
      destruct Hm1 as (E1 & E2 & E3 & E4). pose proof (Hb _ _ Hm). unfold mem_bound in *.
      unfold m2, rsv_of. destruct (mf_isReserved f).
      - destruct (memRestore_spec (mi_size (mf_memInfo f)) m1) as (R1 & R2 & R3 & R4).
        rewrite R1, R2, R3, R4, E1, E2, E3, E4. done.
      - rewrite E1, E2, E3, E4. split_and!; try done. lia. }
    destruct Hm2 as (E1 & E2 & E3 & E4).
    eexists. split; [done|]. split.
    + intros j n Hj. simpl. destruct (decide (mf_memory f = j)) as [<-|Hne].
      * rewrite lookup_insert_eq. simplify_eq/=. eauto.
      * rewrite lookup_insert_ne by done. eauto.
    + eapply delete_file_inv; [exact Hinv | exact Hf | | intros n Hn; simplify_eq/=; auto].
      intros b. case_decide as Hb'; [subst b; specialize (Hpos a); lia | by rewrite Hrb].
Qed.

(** ** File sets *)

Lemma lock_required_step strict files tot refs g :
  mem_inv refs g -> Forall (fun a => refs a <> 0) files ->
  exists g' t rc, lock_required strict files tot g = Ret (g', t, rc) /\ mem_inv refs g' /\ frame g g'.
Proof.
  revert tot g. induction files as [|a files IH]; intros tot g Hinv Hall; simpl.
  { eexists _, _, _. split; [done|]. split; [done|reflexivity]. }
  inversion Hall as [|? ? Ha Hall']; subst.
  destruct (memLock_step a g refs (mi_wf _ _ Hinv) Ha) as (g1 & r & -> & Hst). simpl.
  destruct (one_step_inv _ _ _ _ Hst Hinv) as [Hinv1 Hfr].
  destruct (_ && _); [eexists _, _, _; done|].
  destruct (IH (wrap64 (tot + ml_bLocked r)) g1 Hinv1 Hall') as (g2 & t & rc & -> & ? & ?).
  eexists _, _, _. split; [done|]. split; [done|]. by etrans.
Qed.

Lemma lock_flexible_step files tot refs g :
  mem_inv refs g -> Forall (fun a => refs a <> 0) files ->
  exists g' t, lock_flexible files tot g = Ret (g', t) /\ mem_inv refs g' /\ frame g g'.
Proof.
  revert tot g. induction files as [|a files IH]; intros tot g Hinv Hall; simpl.
  { eexists _, _. split; [done|]. split; [done|reflexivity]. }
  inversion Hall as [|? ? Ha Hall']; subst.
  destruct (memLock_step a g refs (mi_wf _ _ Hinv) Ha) as (g1 & r & -> & Hst). simpl.
  destruct (one_step_inv _ _ _ _ Hst Hinv) as [Hinv1 Hfr].
  destruct (IH (wrap64 (tot + ml_bLocked r)) g1 Hinv1 Hall') as (g2 & t & -> & ? & ?).
  eexists _, _. split; [done|]. split; [done|]. by etrans.
Qed.

Lemma lockAll_step strict fs refs g :
  mem_inv refs g -> Forall (fun a => refs a <> 0) (fs_files fs) ->
  exists g' fs' rc, fs_lockAll strict fs g = Ret (g', fs', rc) /\ mem_inv refs g' /\ frame g g' /\
    fs_files fs' = fs_files fs /\ fs_memory fs' = fs_memory fs.
Proof.
  intros Hinv [Hl Hf]%Forall_app. unfold fs_lockAll.
  destruct (lock_required_step strict _ 0 _ _ Hinv Hl) as (g1 & t & rc & -> & Hinv1 & Hfr). simpl.
  destruct (negb _); [eexists _, _, _; done|].
  destruct (lock_flexible_step _ t _ _ Hinv1 Hf) as (g2 & t2 & -> & Hinv2 & Hfr2). simpl.
  eexists _, _, _. split; [done|]. split; [done|]. split; [by etrans|done].
Qed.

Lemma map_required_step files refs g :
  mem_inv refs g -> Forall (fun a => refs a <> 0) files ->
  exists g' rc, map_required files g = Ret (g', rc) /\ mem_inv refs g' /\ frame g g' /\ 0 <= rc.
Proof.
  revert g. induction files as [|a files IH]; intros g Hinv Hall; simpl.
  { eexists _, _. split; [done|]. split; [done|]. split; [reflexivity|done]. }
  inversion Hall as [|? ? Ha Hall']; subst.
  destruct (memMap_step a g refs Hinv Ha) as (g1 & rc & -> & Hst & Hrc). simpl.
  destruct (one_step_inv _ _ _ _ Hst Hinv) as [Hinv1 Hfr].
  destruct (negb _); [eexists _, _; done|].
  destruct (IH g1 Hinv1 Hall') as (g2 & rc2 & -> & ? & ? & ?).
  eexists _, _. split; [done|]. split; [done|]. split; [by etrans|done].
Qed.

Lemma map_flexible_step files refs g :
  mem_inv refs g -> Forall (fun a => refs a <> 0) files ->
  exists g', map_flexible files g = Ret g' /\ mem_inv refs g' /\ frame g g'.
Proof.
  revert g. induction files as [|a files IH]; intros g Hinv Hall; simpl.
  { eexists. split; [done|]. split; [done|reflexivity]. }
  inversion Hall as [|? ? Ha Hall']; subst.
  destruct (memMap_step a g refs Hinv Ha) as (g1 & rc & -> & Hst & Hrc). simpl.
  destruct (one_step_inv _ _ _ _ Hst Hinv) as [Hinv1 Hfr].
  destruct (negb _); [by eexists|].
  destruct (IH g1 Hinv1 Hall') as (g2 & -> & ? & ?).
  eexists. split; [done|]. split; [done|]. by etrans.
Qed.

Lemma mapAll_step fs refs g :
  mem_inv refs g -> Forall (fun a => refs a <> 0) (fs_files fs) ->
  exists g' rc, fs_mapAll fs g = Ret (g', rc) /\ mem_inv refs g' /\ frame g g' /\ 0 <= rc.
Proof.
  intros Hinv [Hl Hf]%Forall_app. unfold fs_mapAll.
  destruct (map_required_step _ _ _ Hinv Hl) as (g1 & rc & -> & Hinv1 & Hfr & Hrc). simpl.
  destruct (negb _); [eexists _, _; done|].
  destruct (map_flexible_step _ _ _ Hinv1 Hf) as (g2 & -> & Hinv2 & Hfr2). simpl.
  eexists _, _. split; [done|]. split; [done|]. split; [by etrans|done].
Qed.

Lemma add_refs_nonneg l refs : (forall b, 0 <= refs b) -> forall b, 0 <= add_refs l refs b.
Proof. intros Hp b. unfold add_refs. pose proof (occ_nonneg b l). specialize (Hp b). lia. Qed.

Lemma release_all_step files refs g :
  mem_inv (add_refs files refs) g -> (forall b, 0 <= refs b) ->
  exists g', release_all files g = Ret g' /\ frame g g' /\ mem_inv refs g'.
Proof.
  revert g. induction files as [|a files IH]; intros g Hinv Hpos; simpl.
  { eexists. split; [done|]. split; [reflexivity|].
    eapply mem_inv_proper; [|done|exact Hinv]. intros b. unfold add_refs; simpl. lia. }
  destruct (release_step a (add_refs files refs) g) as (g1 & -> & Hfr & Hinv1).
  - eapply mem_inv_proper; [|done|exact Hinv]. intros b. unfold add_refs; simpl. lia.
  - by apply add_refs_nonneg.
  - simpl. destruct (IH g1 Hinv1 Hpos) as (g2 & -> & Hfr2 & Hinv2).
    eexists. split; [done|]. split; [by etrans|done].
Qed.

(** Deleting a file set drops exactly its references. *)
Lemma destroy_step fs refs g :
  mem_inv (add_refs (fs_files fs) refs) g -> (forall b, 0 <= refs b) ->
  exists g', fs_destroy fs g = Ret g' /\ frame g g' /\ mem_inv refs g'.
Proof.
  intros Hinv Hpos. unfold fs_destroy.
  destruct (release_all_step (fs_lockFiles fs) (add_refs (fs_flexFiles fs) refs) g) as (g1 & -> & Hf1 & Hi1).
  - eapply mem_inv_proper; [|done|exact Hinv]. intros b. unfold add_refs, fs_files.
    rewrite occ_app. lia.
  - by apply add_refs_nonneg.
  - simpl. destruct (release_all_step _ _ _ Hi1 Hpos) as (g2 & -> & Hf2 & Hi2).
    eexists. split; [done|]. split; [by etrans|done].
Qed.

(** The state of a file set under construction. *)
Definition building fs refs g : Prop :=
  mem_inv (add_refs (fs_files fs) refs) g /\ is_Some (g_mems g !! fs_memory fs).

Lemma frame_mem g g' k : frame g g' -> is_Some (g_mems g !! k) -> is_Some (g_mems g' !! k).
Proof. intros Hfr [m Hm]. destruct (Hfr k m Hm) as (m' & ? & _). eauto. Qed.

Lemma add_step tab chunk iFile mustLK fs refs g :
  building fs refs g -> (forall b, 0 <= refs b) ->
  exists g' fs' rc, fs_add tab chunk iFile mustLK fs g = Ret (g', fs', rc) /\
    building fs' refs g' /\ fs_memory fs' = fs_memory fs /\ frame g g' /\ 0 <= rc /\
    (rc = 0 -> length (fs_files fs') = S (length (fs_files fs))).
Proof.
  intros [Hinv Hmem] Hpos. unfold fs_add. destruct Hmem as [m Hm]. rewrite Hm.
  destruct (obtain_step (filePath tab chunk iFile m) (fs_memory fs) (negb mustLK) _ g Hinv)
    as (g1 & r & -> & Hfr & Hr); [eauto|by apply add_refs_nonneg|]. simpl.
  assert (Hmem1 : is_Some (g_mems g1 !! fs_memory fs)) by (eapply frame_mem; eauto).
  destruct (mfr_mfP r) as [a|].
  - destruct Hr as [Hinv1 _]. eexists _, _, _. split; [done|].
    destruct mustLK; (split; [split; [|done]|]); simpl;
      try (eapply mem_inv_proper; [|done|exact Hinv1]; intros b; unfold add_refs, fs_files; simpl;
           rewrite !occ_app; simpl; lia).
    all: split_and!; try done; intros _; unfold fs_files; simpl; rewrite !length_app; simpl; lia.
  - destruct Hr as [Hinv1 Hrc]. eexists _, _, _. split; [done|]. split; [done|].
    split_and!; try done; lia.
Qed.

Lemma add_item_step tab chunk iFile t fs refs g :
  building fs refs g -> (forall b, 0 <= refs b) ->
  exists g' fs' rc, add_item tab chunk iFile t fs g = Ret (g', fs', rc) /\
    building fs' refs g' /\ fs_memory fs' = fs_memory fs /\ frame g g' /\ 0 <= rc.
Proof.
  intros Hb Hpos. unfold add_item. destruct (_ || _).
  - edestruct (add_step tab chunk iFile (bool_decide (t = REQUIRED)) fs refs g Hb Hpos)
      as (g1 & fs1 & rc & -> & ? & ? & ? & ? & _). eexists _, _, _. eauto.
  - eexists _, _, _. split; [done|]. split; [done|]. split_and!; [done|reflexivity|done].
Qed.

Lemma add_tables_step tables chunk fs refs g :
  building fs refs g -> (forall b, 0 <= refs b) ->
  exists g' fs' rc, add_tables tables chunk fs g = Ret (g', fs', rc) /\
    building fs' refs g' /\ fs_memory fs' = fs_memory fs /\ frame g g' /\ 0 <= rc.
Proof.
  intros Hb Hpos. revert fs g Hb. induction tables as [|tab tables IH]; intros fs g Hb; simpl.
  { eexists _, _, _. split; [done|]. split; [done|]. split_and!; [done|reflexivity|done]. }
  destruct (add_item_step (ti_tableName tab) chunk false (ti_theData tab) fs refs g Hb Hpos)
    as (g1 & fs1 & rc1 & -> & Hb1 & Hm1 & Hf1 & Hrc1). simpl.
  destruct (negb _); [eexists _, _, _; by eauto|].
  destruct (add_item_step (ti_tableName tab) chunk true (ti_theIndex tab) fs1 refs g1 Hb1 Hpos)
    as (g2 & fs2 & rc2 & -> & Hb2 & Hm2 & Hf2 & Hrc2). simpl.
  destruct (negb _).
  { eexists _, _, _. split; [done|]. split; [done|]. split_and!; [congruence|by etrans|done]. }
  destruct (IH fs2 g2 Hb2) as (g3 & fs3 & rc3 & -> & Hb3 & Hm3 & Hf3 & Hrc3).
  eexists _, _, _. split; [done|]. split; [done|]. split_and!; [congruence| |done].
  etrans; [done|]. by etrans.
Qed.
End inv.
