(* ===== verification/MemManLaws.v ===== *)
(** * What the memory manager promises

    The contract of [class MemMan] that the schedulers are proved against
    ([MemManLaws]), its two implementations, and the theorems about
    [MemManReal] over all its reachable states. *)

From S2P Require Import Prelude.
From S2P Require Import Memory.
From S2P Require Import MemFile.
From S2P Require Import MemMan.
From S2P Require Import MemManInv.

(** ** The contract *)

(** [mm_live m] are the handles that were returned by [prepare] and not yet
    released, [mm_last m] bounds the handles that were ever returned;
    [mm_room m] says that the 64-bit handle counter can still be incremented. *)
Class MemManLaws (M : Type) `{MemMan M} := {
  mm_inv : M -> Prop;
  mm_room : M -> Prop;
  mm_live : M -> gset Z;
  mm_last : M -> Z;

  mm_live_range m h : mm_inv m -> h ∈ mm_live m -> 1 < h <= mm_last m;

  mm_prepare_ok ts chunk m : mm_inv m -> mm_room m ->
    exists m' h e, mm_prepare ts chunk m = Ret (m', (h, e)) /\ mm_inv m' /\
      ((h = HandleType.INVALID /\ 0 < e /\ mm_live m' = mm_live m /\ mm_last m' = mm_last m /\ mm_room m') \/
       (h = HandleType.ISEMPTY /\ mm_live m' = mm_live m /\ mm_last m' = mm_last m) \/
       ((1 < h) /\ mm_last m < h /\ mm_last m' = h /\ mm_live m' = {[h]} ∪ mm_live m));

  mm_unlock_ok h m : mm_inv m ->
    exists m' b, mm_unlock h m = Ret (m', b) /\ mm_inv m' /\
      mm_live m' = mm_live m ∖ {[h]} /\ (h ∈ mm_live m -> b = true) /\
      mm_last m' = mm_last m /\ (mm_room m -> mm_room m');

  mm_lock_ok h strict m : mm_inv m ->
    exists m' rc, mm_lock h strict m = Ret (m', rc) /\ mm_inv m' /\ mm_last m' = mm_last m /\
      (mm_live m' = mm_live m \/
       (strict = true /\ rc <> 0 /\ mm_live m' = mm_live m ∖ {[h]}));

  mm_unlockAll_ok m : mm_inv m ->
    exists m', mm_unlockAll m = Ret m' /\ mm_inv m' /\ mm_live m' = ∅;
}.

(** [MemManNone] never hands out a handle. *)
#[export] Program Instance MemManNone_laws : MemManLaws MemManNone := {
  mm_inv _ := True;
  mm_room _ := True;
  mm_live _ := ∅;
  mm_last _ := HandleType.ISEMPTY;
}.
Next Obligation. set_solver. Qed.
Next Obligation.
  intros ts chunk n _ _. simpl. unfold none_prepare. destruct (n_alwaysLock n).
  - eexists _, _, _. split; [done|]. split; [done|]. right. by left.
  - case_match; eexists _, _, _; (split; [done|]); (split; [done|]); [by left|right; by left].
Qed.
Next Obligation. intros. eexists _, _. split; [done|]. split; [done|]. set_solver. Qed.
Next Obligation. intros. eexists _, _. split; [done|]. auto. Qed.
Next Obligation. intros. eexists. split; [done|]. auto. Qed.

(** ** MemManReal *)

Section real.
Context {O : Type} `{HO : OsMem O} `{HL : !OsMemLaws O} (sz : string -> Z).
Implicit Types (r : MemManReal) (s : MMState O).

(** References to the file at [a] held by the file sets of the handle cache. *)
Definition held (c : gmap Z MemFileSet) (a : nat) : Z := msum (fun _ fs => occ a (fs_files fs)) c.

Lemma held_nonneg c a : 0 <= held c a.
Proof. apply msum_nonneg. intros. apply occ_nonneg. Qed.

Record real_inv (rs : RealState O) : Prop := {
  ri_mem : mem_inv sz (held (h_hanCache rs.2)) (h_mem rs.2);
  ri_memory : is_Some (g_mems (h_mem rs.2) !! r_memory rs.1);
  ri_handleNum : 1 <= h_handleNum rs.2 < two64;
  ri_handles h fs : h_hanCache rs.2 !! h = Some fs -> 1 < h <= h_handleNum rs.2;
}.

(** The last handle number that was given out. *)
Definition real_last (rs : RealState O) : Z := h_handleNum rs.2.

Definition real_room (rs : RealState O) : Prop := h_handleNum rs.2 + 1 < two64.

(** The handles this manager owns. *)
Definition real_live (rs : RealState O) : gset Z :=
  dom (filter (fun kv : Z * MemFileSet => fs_memory kv.2 = r_memory rs.1) (h_hanCache rs.2)).

Lemma elem_of_real_live r s h :
  h ∈ real_live (r, s) <-> exists fs, h_hanCache s !! h = Some fs /\ fs_memory fs = r_memory r.
Proof.
  unfold real_live. rewrite elem_of_dom. simpl. split.
  - intros [fs Hfs]. apply map_lookup_filter_Some in Hfs as [? ?]. eauto.
  - intros (fs & Hfs & Ho). exists fs. by apply map_lookup_filter_Some.
Qed.

Lemma isOwner_spec k fs : isOwner k fs = true <-> fs_memory fs = k.
Proof. unfold isOwner. rewrite Nat.eqb_eq. split; congruence. Qed.

Lemma held_delete c h fs b :
  c !! h = Some fs -> held c b = add_refs (fs_files fs) (held (delete h c)) b.
Proof. intros Hh. unfold held, add_refs. rewrite (msum_lookup _ c h fs Hh). lia. Qed.

Lemma held_insert c h fs b :
  c !! h = None -> held (<[h := fs]> c) b = add_refs (fs_files fs) (held c) b.
Proof. intros Hh. unfold held, add_refs. rewrite msum_insert by done. lia. Qed.

Lemma held_files c h fs :
  c !! h = Some fs -> Forall (fun a => held c a <> 0) (fs_files fs).
Proof.
  intros Hh. apply Forall_forall. intros a Ha. rewrite (held_delete c h fs a Hh). unfold add_refs.
  pose proof (held_nonneg (delete h c) a). apply occ_pos in Ha. lia.
Qed.

(** Removing a file set from the cache and deleting it. *)
Lemma drop_set r s h fs :
  real_inv (r, s) -> h_hanCache s !! h = Some fs ->
  exists g, fs_destroy fs (h_mem s) = Ret g /\
    real_inv (r, mkMMState g (delete h (h_hanCache s)) (h_handleNum s)).
Proof.
  intros [Hm Hk Hn Hh] Hfs. simpl in *.
  destruct (destroy_step sz fs (held (delete h (h_hanCache s))) (h_mem s)) as (g & -> & Hfr & Hinv).
  - eapply mem_inv_proper; [|done|exact Hm]. intros b. symmetry. by apply held_delete.
  - intros b. apply held_nonneg.
  - exists g. split; [done|]. split; simpl; auto; [by eapply frame_mem|].
    intros h' fs' [_ Hh']%lookup_delete_Some. eauto.
Qed.

Lemma real_live_delete r s g h :
  real_live (r, mkMMState g (delete h (h_hanCache s)) (h_handleNum s)) = real_live (r, s) ∖ {[h]}.
Proof.
  apply set_eq. intros h'. rewrite elem_of_difference, !elem_of_real_live. simpl.
  setoid_rewrite lookup_delete_Some. set_solver.
Qed.

Lemma real_unlock_ok h rs :
  real_inv rs -> exists rs' b, real_unlock h rs = Ret (rs', b) /\ real_inv rs' /\
    real_live rs' = real_live rs ∖ {[h]} /\ (h ∈ real_live rs -> b = true) /\
    real_last rs' = real_last rs /\ (real_room rs -> real_room rs').
Proof.
  intros Hinv. destruct rs as [r s]. unfold real_unlock.
  assert (Hnot : h ∉ real_live (r, s) -> exists rs' b, Ret (r, s, false) = Ret (rs', b) /\
      real_inv rs' /\ real_live rs' = real_live (r, s) ∖ {[h]} /\ (h ∈ real_live (r, s) -> b = true) /\
      real_last rs' = real_last (r, s) /\ (real_room (r, s) -> real_room rs')).
  { intros Hn. eexists _, _. split; [done|]. split; [done|]. split; [set_solver|done]. }
  assert (Hlow : h <= 1 -> h ∉ real_live (r, s)).
  { intros Hle (fs & Hfs & _)%elem_of_real_live. apply (ri_handles _ Hinv) in Hfs. lia. }
  destruct (Z.eqb_spec h HandleType.ISEMPTY) as [->|Hne1].
  { eexists _, _. split; [done|]. split; [done|]. split; [|done].
    specialize (Hlow ltac:(done)). set_solver. }
  destruct (Z.eqb_spec h HandleType.INVALID) as [->|Hne0]; [by apply Hnot, Hlow|].
  destruct (h_hanCache s !! h) as [fs|] eqn:Hfs.
  - destruct (isOwner (r_memory r) fs) eqn:Ho; simpl.
    + destruct (drop_set r s h fs Hinv Hfs) as (g & -> & Hinv'). simpl.
      eexists _, _. split; [done|]. split; [done|]. split; [apply real_live_delete|done].
    + apply Hnot. intros (fs' & Hfs' & Hown)%elem_of_real_live. simplify_eq/=.
      apply isOwner_spec in Hown. congruence.
  - apply Hnot. intros (fs' & Hfs' & _)%elem_of_real_live. congruence.
Qed.

Lemma real_lock_ok h strict rs :
  real_inv rs -> exists rs' rc, real_lock h strict rs = Ret (rs', rc) /\ real_inv rs' /\ real_last rs' = real_last rs /\
    (real_live rs' = real_live rs \/
     (strict = true /\ rc <> 0 /\ real_live rs' = real_live rs ∖ {[h]})).
Proof.
  intros Hinv. destruct rs as [r s]. unfold real_lock.
  destruct (h =? HandleType.ISEMPTY); [eexists _, _; split; [done|]; auto|].
  destruct (h =? HandleType.INVALID); [eexists _, _; split; [done|]; auto|].
  destruct (h_hanCache s !! h) as [fs|] eqn:Hfs; [|eexists _, _; split; [done|]; auto].
  destruct (isOwner (r_memory r) fs) eqn:Ho; simpl; [|eexists _, _; split; [done|]; auto].
  pose proof Hinv as [Hm Hk Hn Hh]. simpl in *.
  destruct (lockAll_step sz strict fs _ _ Hm (held_files _ _ _ Hfs)) as (g & fs' & rc & -> & Hm' & Hfr & Hff & Hfm).
  simpl. set (s1 := mkMMState g (<[h := fs']> (h_hanCache s)) (h_handleNum s)).
  assert (Hheld : forall b, held (<[h := fs']> (h_hanCache s)) b = held (h_hanCache s) b).
  { intros b. unfold held. rewrite (msum_update _ _ _ fs) by done. rewrite Hff. lia. }
  assert (Hinv1 : forall r', r_memory r' = r_memory r -> real_inv (r', s1)).
  { intros r' Er. split; simpl; auto.
    - eapply mem_inv_proper; [|done|exact Hm']. intros b. apply Hheld.
    - rewrite Er. by eapply frame_mem.
    - intros h' f0 [(<- & <-)|(? & ?)]%lookup_insert_Some; eauto. }
  assert (Hlive : forall r', r_memory r' = r_memory r -> real_live (r', s1) = real_live (r, s)).
  { intros r' Er. apply set_eq. intros h'. rewrite !elem_of_real_live. simpl. rewrite Er.
    setoid_rewrite lookup_insert_Some. split; [|destruct (decide (h = h')) as [<-|]].
    - intros (f0 & [(<- & <-)|(? & ?)] & ?); [exists fs; split; congruence | eauto].
    - intros (f0 & ? & ?). simplify_eq/=. exists fs'. split; [by left|congruence].
    - intros (f0 & ? & ?). eauto. }
  destruct (rc =? 0) eqn:Erc; simpl.
  - eexists _, _. split; [done|]. auto.
  - apply Z.eqb_neq in Erc. destruct strict; [|eexists _, _; split; [done|]; auto].
    destruct (real_unlock_ok h (incr_numLkerrs (incr_numLocks r), s1))
      as ([r2 s2] & b & -> & Hi2 & Hl2 & _ & Hlast & _); [by apply Hinv1|].
    simpl. eexists _, _. split; [done|]. split; [done|]. split; [by rewrite Hlast|].
    right. split; [done|]. split; [done|]. by rewrite Hl2, Hlive.
Qed.

(** A new file set enters the cache under a fresh handle. *)
Lemma real_prepare_ok ts chunk rs :
  real_inv rs -> real_room rs ->
  exists rs' h e, real_prepare ts chunk rs = Ret (rs', (h, e)) /\ real_inv rs' /\
    ((h = HandleType.INVALID /\ 0 < e /\ real_live rs' = real_live rs /\ real_last rs' = real_last rs /\
        real_room rs') \/
     (h = HandleType.ISEMPTY /\ real_live rs' = real_live rs /\ real_last rs' = real_last rs) \/
     ((1 < h) /\ real_last rs < h /\ real_last rs' = h /\ real_live rs' = {[h]} ∪ real_live rs)).
Proof.
  intros Hinv Hroom. destruct rs as [r s]. unfold real_prepare.
  destruct (count_files ts) as [lockNum flexNum].
  destruct (_ && _); [eexists _, _, _; split; [done|]; split; [done|]; right; by left|].
  pose proof Hinv as [Hm Hk Hn Hh]. unfold real_room in Hroom. simpl in *.
  destruct (add_tables_step sz ts chunk (MemFileSet_ctor (r_memory r) chunk) (held (h_hanCache s)) (h_mem s))
    as (g1 & fs & rc & -> & [Hb1 Hk1] & Hfm & Hfr1 & Hrc); [|apply held_nonneg|].
  { split; [|done]. eapply mem_inv_proper; [|done|exact Hm]. intros b. unfold add_refs; simpl. lia. }
  simpl in *.
  assert (Hmap : exists g2 rc2, (if rc =? 0 then fs_mapAll fs g1 else Ret (g1, rc)) = Ret (g2, rc2)
      /\ mem_inv sz (add_refs (fs_files fs) (held (h_hanCache s))) g2 /\ frame g1 g2 /\ 0 <= rc2).
  { destruct (rc =? 0); [|eexists _, _; split; [done|]; split; [done|]; split; [reflexivity|done]].
    apply mapAll_step; [done|]. apply Forall_forall. intros a Ha. unfold add_refs.
    pose proof (held_nonneg (h_hanCache s) a). apply occ_pos in Ha. lia. }
  destruct Hmap as (g2 & rc2 & -> & Hi2 & Hfr2 & Hrc2). simpl.
  assert (Hk2 : is_Some (g_mems g2 !! r_memory r)) by (eapply frame_mem; [exact Hfr2|]; by eapply frame_mem).
  destruct (Z.eqb_spec rc2 0) as [->|Hne].
  - rewrite wrap64_small by lia. set (h := h_handleNum s + 1).
    assert (Hfresh : h_hanCache s !! h = None).
    { destruct (h_hanCache s !! h) as [f|] eqn:E; [|done]. apply Hh in E. unfold h in E. lia. }
    rewrite Hfresh. eexists _, _, _. split; [done|]. split; [split; simpl; auto|].
    + eapply mem_inv_proper; [|done|exact Hi2]. intros b. by apply held_insert.
    + unfold h. lia.
    + intros h' f0 [(<- & <-)|(? & Hh')]%lookup_insert_Some; [unfold h; lia|]. apply Hh in Hh'. unfold h. lia.
    + right. right. unfold real_last. simpl. split; [unfold h; lia|]. split; [unfold h; lia|]. split; [done|].
      apply set_eq. intros h'. rewrite elem_of_union, elem_of_singleton, !elem_of_real_live. simpl.
      setoid_rewrite lookup_insert_Some. split.
      * intros (f0 & [(<- & <-)|(? & ?)] & ?); [by left|right; eauto].
      * intros [->|(f0 & Hf0 & ?)]; [exists fs; auto|].
        exists f0. split; [|done]. right. split; [|done]. intros <-. congruence.
  - destruct (destroy_step sz fs (held (h_hanCache s)) g2 Hi2) as (g3 & -> & Hfr3 & Hi3); [apply held_nonneg|].
    simpl. eexists _, _, _. split; [done|]. split; [split; simpl; auto; by eapply frame_mem|].
    left. split; [done|]. split; [lia|]. done.
Qed.

Lemma unlock_owned_ok r l s :
  NoDup l.*1 -> (forall h fs, (h, fs) ∈ l -> h_hanCache s !! h = Some fs) -> real_inv (r, s) ->
  exists s', unlock_owned (r_memory r) l s = Ret s' /\ real_inv (r, s') /\
    real_live (r, s') = real_live (r, s) ∖ list_to_set l.*1.
Proof.
  revert s. induction l as [|[h fs] l IH]; intros s Hnd Hl Hinv; simpl.
  { exists s. split; [done|]. split; [done|]. set_solver. }
  simpl in Hnd. apply NoDup_cons in Hnd as [Hh Hnd].
  assert (Hfs : h_hanCache s !! h = Some fs) by (apply Hl; left).
  destruct (isOwner (r_memory r) fs) eqn:Ho.
  - destruct (drop_set r s h fs Hinv Hfs) as (g & -> & Hinv1). simpl.
    destruct (IH (mkMMState g (delete h (h_hanCache s)) (h_handleNum s)) Hnd)
      as (s' & -> & Hinv' & Hlive); [|done|].
    + intros h' fs' Hin. simpl. rewrite lookup_delete_ne; [apply Hl; by right|].
      intros ->. apply Hh. apply list_elem_of_fmap. by exists (h', fs').
    + exists s'. split; [done|]. split; [done|]. rewrite Hlive, real_live_delete. set_solver.
  - destruct (IH s Hnd) as (s' & -> & Hinv' & Hlive); [|done|].
    + intros h' fs' Hin. apply Hl. by right.
    + exists s'. split; [done|]. split; [done|]. rewrite Hlive.
      assert (h ∉ real_live (r, s)); [|set_solver].
      intros (fs' & Hfs' & Hown)%elem_of_real_live. simplify_eq/=. apply isOwner_spec in Hown. congruence.
Qed.

Lemma real_unlockAll_ok rs :
  real_inv rs -> exists rs', real_unlockAll rs = Ret rs' /\ real_inv rs' /\ real_live rs' = ∅.
Proof.
  destruct rs as [r s]. intros Hinv. unfold real_unlockAll.
  destruct (unlock_owned_ok r (map_to_list (h_hanCache s)) s) as (s' & -> & Hinv' & Hlive);
    [apply NoDup_fst_map_to_list | by intros h fs Hin%elem_of_map_to_list | done |].
  simpl. eexists. split; [done|]. split; [done|]. rewrite Hlive.
  apply set_eq. intros h. rewrite elem_of_difference, elem_of_real_live, elem_of_list_to_set.
  split; [|set_solver]. intros [(fs & Hfs & _) Hn]. exfalso. apply Hn.
  apply list_elem_of_fmap. exists (h, fs). split; [done|]. by apply elem_of_map_to_list.
Qed.

(** [MemManReal] implements the contract. *)
Definition MemManReal_laws : MemManLaws (RealState O).
Proof.
  refine {| mm_inv := real_inv; mm_room := real_room; mm_live := real_live; mm_last := real_last |}.
  - intros [r s] h Hinv (fs & Hfs & _)%elem_of_real_live. apply (ri_handles _ Hinv) in Hfs. unfold real_last. simpl in *. lia.
  - apply real_prepare_ok.
  - apply real_unlock_ok.
  - apply real_lock_ok.
  - apply real_unlockAll_ok.
Defined.
End real.

(** ** All the managers of a process *)

Section process.
Context {O : Type} `{HO : OsMem O} `{HL : !OsMemLaws O}.
Implicit Types (r : MemManReal) (s : MMState O).

(** No manager yet: empty caches, [handleNum] at its initial value. *)
Definition empty_process (o : O) : MMState O :=
  mkMMState (mkMemState o ∅ ∅ ∅ 0%nat) ∅ HandleType.ISEMPTY.

Definition new_memory (k : nat) (m : Memory) s : MMState O :=
  set_h_mem (set_mem k m (h_mem s)) s.

(** One call of a method of one of the managers; [sys_new] is the
    constructor [MemManReal(dbPath, maxBytes)]. *)
Inductive sys_step : MMState O -> MMState O -> Prop :=
| sys_new k dbPath maxBytes s :
    g_mems (h_mem s) !! k = None -> 0 <= maxBytes < two64 ->
    sys_step s (new_memory k (Memory_ctor dbPath maxBytes) s)
| sys_prepare r ts chunk s r' s' h e :
    is_Some (g_mems (h_mem s) !! r_memory r) -> real_room (r, s) ->
    real_prepare ts chunk (r, s) = Ret (r', s', (h, e)) -> sys_step s s'
| sys_lock r h strict s r' s' rc :
    is_Some (g_mems (h_mem s) !! r_memory r) ->
    real_lock h strict (r, s) = Ret (r', s', rc) -> sys_step s s'
| sys_unlock r h s r' s' b :
    is_Some (g_mems (h_mem s) !! r_memory r) ->
    real_unlock h (r, s) = Ret (r', s', b) -> sys_step s s'
| sys_unlockAll r s r' s' :
    is_Some (g_mems (h_mem s) !! r_memory r) ->
    real_unlockAll (r, s) = Ret (r', s') -> sys_step s s'.

Definition reachable s : Prop := exists o, rtc sys_step (empty_process o) s.

Definition sys_inv (sz : string -> Z) s : Prop :=
  forall r, is_Some (g_mems (h_mem s) !! r_memory r) -> real_inv sz (r, s).

(** The part of [real_inv] that does not depend on the manager. *)
Record base_inv (sz : string -> Z) s : Prop := {
  bi_mem : mem_inv sz (held (h_hanCache s)) (h_mem s);
  bi_handleNum : 1 <= h_handleNum s < two64;
  bi_handles h fs : h_hanCache s !! h = Some fs -> 1 < h <= h_handleNum s;
}.

Lemma base_real sz r s :
  base_inv sz s -> is_Some (g_mems (h_mem s) !! r_memory r) -> real_inv sz (r, s).
Proof. intros [? ? ?] ?. by split. Qed.

Lemma real_base sz r s : real_inv sz (r, s) -> base_inv sz s.
Proof. intros [? ? ? ?]. by split. Qed.

Lemma new_memory_inv sz k dbPath maxBytes s :
  base_inv sz s -> g_mems (h_mem s) !! k = None -> 0 <= maxBytes < two64 ->
  base_inv sz (new_memory k (Memory_ctor dbPath maxBytes) s).
Proof.
  intros [[Hwf Hb Hex] Hn Hh] Hk Hmax. split; simpl; auto. split; simpl.
  - destruct Hwf as [Hc Hr Hp Hm Hnx Hf]. split; simpl; auto.
    intros a f Ha. apply lookup_insert_is_Some'. right. eauto.
  - intros j m Hj. simpl in Hj. apply lookup_insert_Some in Hj as [(<- & <-)|(? & ?)]; [|by eapply Hb].
    split; simpl; lia.
  - intros Hs. destruct (Hex Hs) as [Hsz He]. split; [done|].
    intros j m Hj. simpl in Hj. apply lookup_insert_Some in Hj as [(<- & <-)|(? & ?)]; [|by apply He].
    unfold rsv_sum, lok_sum; simpl.
    split; symmetry; (etrans; [|apply (msum_zero (g_files (h_mem s)))]); apply msum_ext; intros a f Ha;
      rewrite decide_False; try done; intros <-; destruct (wf_mem _ _ Hwf a f Ha) as [? ?]; congruence.
Qed.

Lemma base_inv_step sz s s' : sys_step s s' -> base_inv sz s -> base_inv sz s'.
Proof.
  intros Hstep Hinv. destruct Hstep as [k d n s Hk Hn|r ts c s r' s' h e Hr Hroom Heq|r h b s r' s' rc Hr Heq|r h s r' s' b Hr Heq|r s r' s' Hr Heq];
    [by apply new_memory_inv|..]; pose proof (base_real _ _ _ Hinv Hr) as Hri.
  - destruct (real_prepare_ok sz ts c _ Hri Hroom) as ([r1 s1] & h1 & e1 & Heq1 & Hri1 & _).
    rewrite Heq in Heq1. simplify_eq/=. by eapply real_base.
  - destruct (real_lock_ok sz h b _ Hri) as ([r1 s1] & rc1 & Heq1 & Hri1 & _).
    rewrite Heq in Heq1. simplify_eq/=. by eapply real_base.
  - destruct (real_unlock_ok sz h _ Hri) as ([r1 s1] & b1 & Heq1 & Hri1 & _).
    rewrite Heq in Heq1. simplify_eq/=. by eapply real_base.
  - destruct (real_unlockAll_ok sz _ Hri) as ([r1 s1] & Heq1 & Hri1 & _).
    rewrite Heq in Heq1. simplify_eq/=. by eapply real_base.
Qed.

Lemma reachable_inv sz s : reachable s -> base_inv sz s.
Proof.
  intros [o Hr]. revert Hr. apply rtc_ind_r.
  - split; simpl; [|unfold HandleType.ISEMPTY, two64; lia|intros h fs Hh; by rewrite lookup_empty in Hh].
    split; simpl; [split; simpl; try (intros a f Hf; by rewrite lookup_empty in Hf)| |].
    + intros p a. rewrite !lookup_empty. split; [done|]. by intros (f & Hf & _).
    + intros a. rewrite lookup_empty. apply msum_empty.
    + intros k m Hm. simpl in Hm. by rewrite lookup_empty in Hm.
    + intros _. split; intros k m Hm; simpl in Hm; by rewrite lookup_empty in Hm.
  - intros s1 s2 _ Hstep Hinv. by eapply base_inv_step.
Qed.
End process.
