(* ===== verification/MemManThms.v ===== *)
(** * Theorems about the memory manager

    Over all reachable states of a process with any number of [MemManReal]
    objects: the methods never dereference a dangling pointer, reference
    counts are exact, the memory budget is never exceeded, the counters agree
    with the files, and nothing stays behind when all handles are released. *)

From S2P Require Import Prelude.
From S2P Require Import Memory.
From S2P Require Import MemFile.
From S2P Require Import MemMan.
From S2P Require Import MemManInv.
From S2P Require Import MemManLaws.

(** ** A concrete operating system, for the witnesses

    Two files of 100 bytes; every [mmap] and [mlock] succeeds. *)

Module SimOs.
Definition size_of (p : string) : option Z :=
  if String.eqb p "/d/db/T_7.MYD" then Some 100
  else if String.eqb p "/d/db/T_8.MYD" then Some 100
  else None.

Definition answer (p : string) : Z + Z :=
  match size_of p with Some n => inr n | None => inl ENOENT end.

#[export] Instance ops : OsMem unit := {
  os_stat p o := (o, answer p);
  os_open_fstat p o := (o, answer p);
  os_mmap _ _ o := (o, inr 4096);
  os_munmap _ _ o := o;
  os_mlock _ _ o := (o, None);
}.

Lemma answer_errno p e : answer p = inl e -> 0 < e.
Proof. unfold answer. destruct (size_of p); [done|]. by intros [= <-]. Qed.

Lemma answer_size p n : answer p = inr n -> n = default 0 (size_of p) /\ n < two64.
Proof.
  unfold answer, size_of. destruct (String.eqb _ _); [by intros [= <-]|].
  destruct (String.eqb _ _); [by intros [= <-]|done].
Qed.

#[export] Instance laws : OsMemLaws unit.
Proof.
  split; simpl; try done.
  - intros p o o' e [= _ He]. by eapply answer_errno.
  - intros p o o' e [= _ He]. by eapply answer_errno.
  - intros p o o' n [= _ Hn]. by eapply answer_size.
  - intros p o o' n [= _ Hn]. by eapply answer_size.
  - by intros p n o o' a [= _ <-].
Qed.

#[export] Instance is_stable : OsStable unit (fun p => default 0 (size_of p)).
Proof. split; simpl; intros p o o' n [= _ Hn]; by eapply answer_size. Qed.

Definition required (t : string) : TableInfo := mkTableInfo t REQUIRED NOLOCK.

(** A manager with a budget of 150 bytes: one of the files fits, not both. *)
Definition manager : MemManReal := MemManReal_ctor 0.
Definition start : MMState unit := new_memory 0 (Memory_ctor "/d" 150) (empty_process tt).

(** The state after [prepare] of the table in chunk 7. *)
Definition prepared : MMState unit :=
  match real_prepare [required "db/T"] 7 (manager, start) with
  | Ret (_, s, _) => s
  | Raise _ => start
  end.

Definition manager' : MemManReal :=
  match real_prepare [required "db/T"] 7 (manager, start) with
  | Ret (r, _, _) => r
  | Raise _ => manager
  end.

Definition file_set : MemFileSet := default (MemFileSet_ctor 0 9) (h_hanCache prepared !! 2).

Lemma prepare_runs :
  real_prepare [required "db/T"] 7 (manager, start) = Ret (manager', prepared, (2, 0)).
Proof. vm_compute. reflexivity. Qed.

Lemma start_reachable : reachable start.
Proof.
  exists tt. apply rtc_once, sys_new; [done|]. unfold two64. lia.
Qed.

Lemma prepared_reachable : reachable prepared.
Proof.
  destruct start_reachable as [o Hr]. exists o. eapply rtc_r; [exact Hr|].
  eapply (sys_prepare manager [required "db/T"] 7); [by eexists|reflexivity|].
  vm_compute. reflexivity.
Qed.
End SimOs.

(** ** Safety and reference counts *)

Section theorems.
Context {O : Type} `{HO : OsMem O} `{HL : !OsMemLaws O}.
Implicit Types (r : MemManReal) (s : MMState O).


(** C5. The reference count of a file is the number of pointers to it in
    the file sets of the handle cache, it is positive, and the file is the
    one the file cache has for its path; conversely every pointer of a file
    set and of the file cache is to an existing file. *)
Theorem memman_refcount s :
  reachable s ->
  (forall a f, g_files (h_mem s) !! a = Some f ->
     mf_refs f = held (h_hanCache s) a /\ 0 < mf_refs f /\ g_cache (h_mem s) !! mf_fPath f = Some a) /\
  (forall h fs a, h_hanCache s !! h = Some fs -> a ∈ fs_files fs -> is_Some (g_files (h_mem s) !! a)) /\
  (forall p a, g_cache (h_mem s) !! p = Some a -> is_Some (g_files (h_mem s) !! a)).
Proof.
  intros Hr. destruct (reachable_inv (fun _ => 0) s Hr) as [[Hwf _ _] _ _]. split_and!.
  - intros a f Hf. pose proof (wf_refs _ _ Hwf a) as Hrf. rewrite Hf in Hrf.
    split; [done|]. split; [by eapply wf_pos|]. apply (wf_cache _ _ Hwf). eauto.
  - intros h fs a Hfs Ha. apply (wf_valid _ _ _ Hwf).
    by apply (proj1 (Forall_forall _ _) (held_files _ _ _ Hfs)).
  - intros p a Hp. apply (wf_cache _ _ Hwf) in Hp as (f & Hf & _). eauto.
Qed.

(** C6. The bytes reserved never exceed the budget of the memory object. *)
Theorem memman_budget s k m :
  reachable s -> g_mems (h_mem s) !! k = Some m ->
  0 <= m_rsvBytes m <= m_maxBytes m /\ bytesFree m = m_maxBytes m - m_rsvBytes m.
Proof.
  intros Hr Hm. destruct (reachable_inv (fun _ => 0) s Hr) as [[_ Hb _] _ _].
  destruct (Hb k m Hm) as [Hle _]. split; [done|]. unfold bytesFree.
  destruct (Z.leb_spec (m_maxBytes m) (m_rsvBytes m)); lia.
Qed.

(** C7. When the operating system reports a constant size for every file,
    the counters are exact: the reserved (locked) bytes of a memory object
    are the sum of the sizes of its reserved (locked) files, and no more is
    locked than is reserved. *)
Theorem memman_accounting sz s k m :
  OsStable O sz -> reachable s -> g_mems (h_mem s) !! k = Some m ->
  m_rsvBytes m = rsv_sum k (h_mem s) /\ m_lokBytes m = lok_sum k (h_mem s) /\
  m_lokBytes m <= m_rsvBytes m.
Proof.
  intros Hst Hr Hm. destruct (reachable_inv sz s Hr) as [[Hwf _ Hex] _ _].
  destruct (Hex Hst) as [_ He]. destruct (He k m Hm) as [-> ->].
  split; [done|]. split; [done|]. by eapply lok_sum_le_rsv.
Qed.

(** Nothing leaks: when no handle is left, no file object and no cache
    entry is left, and (with constant file sizes) no byte is reserved or
    locked. *)
Theorem memman_no_leak sz s :
  reachable s -> h_hanCache s = ∅ ->
  g_files (h_mem s) = ∅ /\ g_cache (h_mem s) = ∅ /\
  (OsStable O sz -> forall k m, g_mems (h_mem s) !! k = Some m -> m_rsvBytes m = 0 /\ m_lokBytes m = 0).
Proof.
  intros Hr Hempty. destruct (reachable_inv sz s Hr) as [[Hwf _ Hex] _ _].
  assert (Hfiles : g_files (h_mem s) = ∅).
  { apply map_eq. intros a. rewrite lookup_empty. destruct (g_files (h_mem s) !! a) as [f|] eqn:Hf; [|done].
    pose proof (wf_pos _ _ Hwf a f Hf). pose proof (wf_refs _ _ Hwf a) as Hrf.
    rewrite Hf, Hempty in Hrf. unfold held in Hrf. rewrite msum_empty in Hrf. lia. }
  split; [done|]. split.
  - apply map_eq. intros p. rewrite lookup_empty. destruct (g_cache (h_mem s) !! p) as [a|] eqn:Hp; [|done].
    apply (wf_cache _ _ Hwf) in Hp as (f & Hf & _). by rewrite Hfiles, lookup_empty in Hf.
  - intros Hst k m Hm. destruct (Hex Hst) as [_ He]. destruct (He k m Hm) as [-> ->].
    unfold rsv_sum, lok_sum. by rewrite Hfiles, !msum_empty.
Qed.

(** ** The life of a handle *)

(** What [prepare] leaves in the handle cache. *)
Lemma prepare_cache sz ts chunk r s r' s' h e :
  real_inv sz (r, s) -> real_room (r, s) -> real_prepare ts chunk (r, s) = Ret (r', s', (h, e)) ->
  r_memory r' = r_memory r /\
  ((h = HandleType.INVALID /\ h_hanCache s' = h_hanCache s) \/
   (h = HandleType.ISEMPTY /\ (r', s') = (r, s)) \/
   (1 < h /\ h_hanCache s !! h = None /\
    exists fs, h_hanCache s' = <[h := fs]> (h_hanCache s) /\ fs_memory fs = r_memory r)).
Proof.
  intros [Hm Hk Hn Hh] Hroom. unfold real_prepare, real_room in *. simpl in *.
  destruct (count_files ts) as [lockNum flexNum].
  destruct (_ && _); [intros [= <- <- <- <-]; auto|].
  destruct (add_tables_step sz ts chunk (MemFileSet_ctor (r_memory r) chunk) (held (h_hanCache s)) (h_mem s))
    as (g1 & fs & rc & -> & [Hb1 Hk1] & Hfm & _); [|apply held_nonneg|].
  { split; [|exact Hk]. eapply mem_inv_proper; [|done|exact Hm]. intros b. unfold add_refs; simpl. lia. }
  simpl. intros Heq. unbind Heq. destruct r0 as [g2 rc2].
  destruct (rc2 =? 0); [|unbind Heq; simplify_eq/=; auto].
  rewrite wrap64_small in Heq by lia.
  destruct (h_hanCache s !! (h_handleNum s + 1)) as [f|] eqn:E; [apply Hh in E; lia|].
  simplify_eq/=. split; [done|]. right. right. split; [lia|]. split; [done|]. eauto.
Qed.

(** The files that exist are those that are held. *)
Lemma files_of_held sz s s' :
  base_inv sz s -> base_inv sz s' -> h_hanCache s' = h_hanCache s ->
  dom (g_files (h_mem s')) = dom (g_files (h_mem s)).
Proof.
  intros [[Hwf _ _] _ _] [[Hwf' _ _] _ _] Hc. apply set_eq. intros a. rewrite !elem_of_dom.
  pose proof (wf_refs _ _ Hwf a) as H1. pose proof (wf_refs _ _ Hwf' a) as H2. rewrite Hc in H2.
  destruct (g_files (h_mem s) !! a) as [f|] eqn:E1, (g_files (h_mem s') !! a) as [f'|] eqn:E2;
    [by eauto| | |done].
  - apply (wf_pos _ _ Hwf) in E1. lia.
  - apply (wf_pos _ _ Hwf') in E2. lia.
Qed.

(** A handle returned by [prepare] is new; [unlock] of it succeeds and
    restores the handle cache and the set of cached files that were there
    before [prepare]; after that the handle is unknown: a second [unlock]
    fails and [lock] reports [ENOENT], both without any effect. *)
Theorem handle_lifecycle ts chunk r s r' s' h e :
  reachable s -> is_Some (g_mems (h_mem s) !! r_memory r) -> real_room (r, s) ->
  real_prepare ts chunk (r, s) = Ret (r', s', (h, e)) ->
  h <> HandleType.INVALID -> h <> HandleType.ISEMPTY ->
  h_hanCache s !! h = None /\
  exists r2 s2, real_unlock h (r', s') = Ret (r2, s2, true) /\
    h_hanCache s2 = h_hanCache s /\ dom (g_files (h_mem s2)) = dom (g_files (h_mem s)) /\
    real_unlock h (r2, s2) = Ret (r2, s2, false) /\
    (forall strict, real_lock h strict (r2, s2) = Ret (r2, s2, ENOENT)).
Proof.
  intros Hr Hk Hroom Heq Hn0 Hn1. set (sz := fun _ : string => 0).
  pose proof (base_real sz r s (reachable_inv _ s Hr) Hk) as Hinv.
  pose proof (prepare_cache _ _ _ _ _ _ _ _ _ Hinv Hroom Heq) as (Hmem & [[? _]|[[? _]|(Hh & Hnone & fs & Hc & Hfm)]]);
    [done|done|].
  destruct (real_prepare_ok sz ts chunk _ Hinv Hroom) as ([r1 s1] & h1 & e1 & Heq1 & Hinv1 & _).
  rewrite Heq in Heq1. simplify_eq/=. split; [done|].
  destruct (drop_set sz r1 s1 h1 fs Hinv1) as (g & Hd & Hinv2); [rewrite Hc; apply lookup_insert_eq|].
  assert (Hunl : real_unlock h1 (r1, s1) = Ret (r1, mkMMState g (delete h1 (h_hanCache s1)) (h_handleNum s1), true)).
  { unfold real_unlock. rewrite (proj2 (Z.eqb_neq h1 _)), (proj2 (Z.eqb_neq h1 _)) by done.
    rewrite Hc, lookup_insert_eq, <- Hc.
    replace (isOwner (r_memory r1) fs) with true by (symmetry; apply isOwner_spec; congruence).
    simpl. by rewrite Hd. }
  rewrite Hunl. eexists _, _. split; [done|].
  assert (Hc2 : delete h1 (h_hanCache s1) = h_hanCache s) by (rewrite Hc; by apply delete_insert_id).
  simpl. split; [done|]. split.
  - exact (files_of_held sz s _ (real_base _ _ _ Hinv) (real_base _ _ _ Hinv2) Hc2).
  - rewrite Hc2. unfold real_unlock, real_lock. simpl.
    rewrite (proj2 (Z.eqb_neq h1 _)), (proj2 (Z.eqb_neq h1 _)) by done. by rewrite Hnone.
Qed.

(** ** Required files *)

(** Files keep their kind and stay mapped. *)
Definition keeps (g g' : MemState O) : Prop :=
  forall a f, g_files g !! a = Some f -> exists f', g_files g' !! a = Some f' /\
    mf_isFlex f' = mf_isFlex f /\ (mf_isMapped f = true -> mf_isMapped f' = true).

#[local] Instance keeps_preorder : PreOrder keeps.
Proof.
  split; [intros g a f Hf; eauto|]. intros g1 g2 g3 H12 H23 a f Hf.
  destruct (H12 a f Hf) as (f2 & Hf2 & E2 & M2). destruct (H23 a f2 Hf2) as (f3 & Hf3 & E3 & M3).
  exists f3. split; [done|]. split; [congruence|auto].
Qed.

Lemma keeps_insert g g' a f f' :
  g_files g !! a = Some f -> g_files g' = <[a := f']> (g_files g) ->
  mf_isFlex f' = mf_isFlex f -> (mf_isMapped f = true -> mf_isMapped f' = true) -> keeps g g'.
Proof.
  intros Hf Hg E M b f0 Hb. rewrite Hg. destruct (decide (a = b)) as [<-|Hne].
  - rewrite lookup_insert_eq. simplify_eq/=. eauto.
  - rewrite lookup_insert_ne by done. eauto.
Qed.

Lemma memMap_keeps a g g' rc :
  MemFile_memMap a g = Ret (g', rc) ->
  keeps g g' /\
  (rc = 0 -> (forall f, g_files g !! a = Some f -> mf_mlocking f = false) ->
   exists f', g_files g' !! a = Some f' /\ (mf_isMapped f' = true \/ mf_isFlex f' = true)).
Proof.
  unfold MemFile_memMap. destruct (g_files g !! a) as [f|] eqn:Hf; [|done].
  destruct (g_mems g !! mf_memory f) as [m|] eqn:Hm; [|done].
  destruct (mf_isMapped f) eqn:Em; [intros [= <- <-]; split; [reflexivity|eauto]|].
  destruct (mf_mlocking f) eqn:El.
  { intros [= <- <-]. split; [reflexivity|]. intros _ Hl. by rewrite (Hl f) in El. }
  destruct (negb _ && _).
  { intros [= <- <-]. split; [reflexivity|]. destruct (mf_isFlex f) eqn:Ef; [eauto|]. by intros [=]. }
  destruct (mapFile _ _ _) as [[o m2] mInfo] eqn:Emap.
  apply (mapFile_spec (fun _ => 0)) in Emap as [_ Hv]. destruct (isValid mInfo).
  - intros [= <- <-]. split; [eapply keeps_insert; done|].
    intros _ _. eexists. simpl. rewrite lookup_insert_eq. split; [done|]. by left.
  - destruct (mf_isFlex f) eqn:Ef; simpl; [destruct (errCode mInfo =? ENOMEM)|]; intros [= <- <-].
    + split; [eapply keeps_insert; [done|done| |]; simpl; congruence|].
      intros _ _. eexists. simpl. rewrite lookup_insert_eq. split; [done|]. by right.
    + split; [eapply keeps_insert; [done|done| |]; simpl; congruence|]. lia.
    + split; [eapply keeps_insert; [done|done| |]; simpl; congruence|]. lia.
Qed.

(** A file set whose required files are mapped, unless they were first
    entered in the cache as flexible files. *)
Definition required_ok (files : list nat) (g : MemState O) : Prop :=
  forall a, a ∈ files -> exists f, g_files g !! a = Some f /\ (mf_isMapped f = true \/ mf_isFlex f = true).

Lemma required_ok_keeps files g g' : keeps g g' -> required_ok files g -> required_ok files g'.
Proof.
  intros Hk Hr a Ha. destruct (Hr a Ha) as (f & Hf & Hor).
  destruct (Hk a f Hf) as (f' & Hf' & E & M). exists f'. split; [done|].
  rewrite E. destruct Hor; auto.
Qed.

Lemma map_required_ok sz refs files g g' :
  mem_inv sz refs g -> Forall (fun a => refs a <> 0) files ->
  map_required files g = Ret (g', 0) -> keeps g g' /\ required_ok files g'.
Proof.
  revert g. induction files as [|a files IH]; intros g Hinv Hall; simpl.
  { intros [= <-]. split; [reflexivity|]. intros a. set_solver. }
  inversion Hall as [|? ? Ha Hall']; subst.
  destruct (memMap_step sz a g refs Hinv Ha) as (g1 & rc & Heq & Hst & Hrc). rewrite Heq. simpl.
  destruct (one_step_inv _ _ _ _ _ Hst Hinv) as [Hinv1 _].
  apply memMap_keeps in Heq as [Hk1 Hm1].
  destruct (Z.eqb_spec rc 0) as [->|Hne]; simpl; [|intros [= <- Hz]; congruence].
  intros Hmap. destruct (IH g1 Hinv1 Hall' Hmap) as [Hk2 Hr2]. split; [by etrans|].
  intros b [->|Hb]%elem_of_cons; [|by apply Hr2].
  destruct Hm1 as (f & Hf & Hor); [done| |].
  - intros f Hf. apply (fo_mlocking f). by eapply (wf_file _ _ (mi_wf _ _ _ Hinv)).
  - destruct (Hk2 a f Hf) as (f' & Hf' & E & M). exists f'. split; [done|].
    rewrite E. destruct Hor; auto.
Qed.

Lemma map_flexible_keeps files g g' : map_flexible files g = Ret g' -> keeps g g'.
Proof.
  revert g. induction files as [|a files IH]; intros g; simpl; [intros [= <-]; reflexivity|].
  intros Heq. unbind Heq. destruct r as [g1 rc]. apply memMap_keeps in Hr as [Hk _].
  destruct (negb _); [by simplify_eq/=|]. etrans; [exact Hk|by apply IH].
Qed.

Lemma obtain_none p k isFlex g g' x :
  MemFile_obtain p k isFlex g = Ret (g', x) -> mfr_mfP x = None -> mfr_retc x <> 0.
Proof.
  unfold MemFile_obtain. destruct (g_cache g !! p) as [a|].
  - destruct (g_files g !! a) as [f|]; [|done]. destruct (negb _); by intros [= <- <-].
  - destruct (fileInfo p (g_os g)) as [o mInfo] eqn:Ef. apply (fileInfo_spec (fun _ => 0)) in Ef.
    destruct (isValid mInfo); simpl; intros [= <- <-]; simpl; [done|]. intros _. lia.
Qed.

Lemma add_item_count tab chunk iFile t fs g g' fs' :
  add_item tab chunk iFile t fs g = Ret (g', fs', 0) ->
  Z.of_nat (length (fs_lockFiles fs')) =
    Z.of_nat (length (fs_lockFiles fs)) + (if bool_decide (t = REQUIRED) then 1 else 0) /\
  Z.of_nat (length (fs_flexFiles fs')) =
    Z.of_nat (length (fs_flexFiles fs)) + (if bool_decide (t = FLEXIBLE) then 1 else 0).
Proof.
  unfold add_item. destruct t; simpl; [intros [= <- <-]; lia| | |intros [= <- <-]; lia];
    unfold fs_add; (destruct (g_mems g !! fs_memory fs) as [m|]; [|done]); intros Heq; unbind Heq;
    destruct r as [g1 x]; pose proof (obtain_none _ _ _ _ _ _ Hr) as Hn;
    (destruct (mfr_mfP x) as [a|]; [|simplify_eq/=; specialize (Hn eq_refl); congruence]);
    simplify_eq/=; rewrite length_app; simpl; lia.
Qed.

Lemma add_tables_count ts chunk fs g g' fs' :
  add_tables ts chunk fs g = Ret (g', fs', 0) ->
  Z.of_nat (length (fs_lockFiles fs')) = Z.of_nat (length (fs_lockFiles fs)) + (count_files ts).1 /\
  Z.of_nat (length (fs_flexFiles fs')) = Z.of_nat (length (fs_flexFiles fs)) + (count_files ts).2.
Proof.
  revert fs g. induction ts as [|tab ts IH]; intros fs g; cbn [add_tables count_files].
  { intros [= <- <-]. simpl. lia. }
  intros Heq. unbind Heq. destruct r as [[g1 fs1] rc1].
  destruct (Z.eqb_spec rc1 0) as [->|Hne]; simpl in Heq; [|congruence].
  unbind Heq. destruct r as [[g2 fs2] rc2].
  destruct (Z.eqb_spec rc2 0) as [->|Hne]; simpl in Heq; [|congruence].
  apply add_item_count in Hr, Hr0. apply IH in Heq.
  destruct (count_files ts) as [n1 n2]. simpl in *. lia.
Qed.

(** A successful [prepare] with something to lock yields a file set
    with one file per requested item (a required and a flexible list of the
    lengths that pass 1 counted), in which every required file is mapped
    into memory that has been reserved for it, or is a file that was
    entered in the cache as flexible by an earlier request. *)
Theorem prepare_maps_required ts chunk r s r' s' h e :
  reachable s -> is_Some (g_mems (h_mem s) !! r_memory r) -> real_room (r, s) ->
  real_prepare ts chunk (r, s) = Ret (r', s', (h, e)) -> 1 < h ->
  exists fs, h_hanCache s' !! h = Some fs /\
    Z.of_nat (length (fs_lockFiles fs)) = (count_files ts).1 /\
    Z.of_nat (length (fs_flexFiles fs)) = (count_files ts).2 /\
    forall a, a ∈ fs_lockFiles fs -> exists f, g_files (h_mem s') !! a = Some f /\
      ((mf_isMapped f = true /\ mf_isReserved f = true) \/ mf_isFlex f = true).
Proof.
  intros Hrch Hk Hroom Hprep Hgt. set (sz := fun _ : string => 0).
  pose proof (base_real sz r s (reachable_inv _ s Hrch) Hk) as Hinv.
  destruct (real_prepare_ok sz ts chunk _ Hinv Hroom) as ([r1 s1] & h1 & e1 & Heq1 & Hinv1 & _).
  rewrite Hprep in Heq1. simplify_eq/=. revert Hprep.
  pose proof Hinv as [Hm Hk' Hn Hh]. unfold real_prepare, real_room in *. simpl in *.
  destruct (count_files ts) as [lockNum flexNum] eqn:Ecount.
  destruct (_ && _); [intros [= <- <- <- <-]; unfold HandleType.ISEMPTY in Hgt; lia|].
  destruct (add_tables_step sz ts chunk (MemFileSet_ctor (r_memory r) chunk) (held (h_hanCache s)) (h_mem s))
    as (g1 & fs & rc & Hadd & [Hb1 Hk1] & Hfm & _); [|apply held_nonneg|].
  { split; [|exact Hk]. eapply mem_inv_proper; [|done|exact Hm]. intros b. unfold add_refs; simpl. lia. }
  rewrite Hadd. simpl. intros Heq. unbind Heq. destruct r0 as [g2 rc2].
  destruct (Z.eqb_spec rc2 0) as [->|Hne];
    [|unbind Heq; simplify_eq/=; unfold HandleType.INVALID in Hgt; lia].
  destruct (Z.eqb_spec rc 0) as [->|Hne]; [|congruence].
  rewrite wrap64_small in Heq by lia.
  destruct (h_hanCache s !! (h_handleNum s + 1)) as [f|] eqn:E; [apply Hh in E; lia|].
  simplify_eq/=. exists fs. split; [apply lookup_insert_eq|].
  apply add_tables_count in Hadd as [Hc1 Hc2]. rewrite Ecount in Hc1, Hc2. simpl in *.
  split; [lia|]. split; [lia|].
  assert (Hall : Forall (fun a => add_refs (fs_files fs) (held (h_hanCache s)) a <> 0) (fs_files fs)).
  { apply Forall_forall. intros a Ha. unfold add_refs. pose proof (held_nonneg (h_hanCache s) a).
    apply occ_pos in Ha. lia. }
  apply Forall_app in Hall as [Hall _]. unfold fs_mapAll in Hr. unbind Hr. destruct r0 as [g3 rc3].
  destruct (Z.eqb_spec rc3 0) as [->|Hne]; simpl in Hr; [|congruence].
  unbind Hr. simplify_eq/=. destruct (map_required_ok sz _ _ _ _ Hb1 Hall Hr0) as [_ Hreq].
  apply map_flexible_keeps in Hr1. intros a Ha.
  destruct (required_ok_keeps _ _ _ Hr1 Hreq a Ha) as (f & Hf & Hor). exists f. split; [done|].
  destruct Hor as [Hmp|Hfl]; [left|by right]. split; [done|].
  pose proof (wf_file _ _ (mi_wf _ _ _ (ri_mem _ _ Hinv1)) a f Hf) as [_ Hmap _ _]. by apply Hmap.
Qed.

(** ** Locking *)

Lemma lock_required_lenient files tot g g' t rc :
  lock_required false files tot g = Ret (g', t, rc) -> rc = 0.
Proof.
  revert tot g. induction files as [|a files IH]; intros tot g; simpl; [by intros [= <- <- <-]|].
  intros Heq. unbind Heq. destruct r as [g1 x]. rewrite andb_false_r in Heq. by eapply IH.
Qed.

(** [lock] of a known handle: without [strict] it reports success
    whatever happens and keeps the handle; with [strict] the handle is
    deleted exactly when an error is reported. *)
Theorem lock_strictness h strict fs r s :
  reachable s -> is_Some (g_mems (h_mem s) !! r_memory r) ->
  h_hanCache s !! h = Some fs -> fs_memory fs = r_memory r ->
  exists r' s' rc, real_lock h strict (r, s) = Ret (r', s', rc) /\
    (strict = false -> rc = 0) /\ (is_Some (h_hanCache s' !! h) <-> rc = 0).
Proof.
  intros Hr Hk Hfs Hown. set (sz := fun _ : string => 0).
  pose proof (base_real sz r s (reachable_inv _ s Hr) Hk) as Hinv.
  pose proof Hinv as [Hm _ _ Hh]. simpl in Hm, Hh. pose proof (Hh _ _ Hfs) as Hrange.
  unfold real_lock. rewrite (proj2 (Z.eqb_neq h _)), (proj2 (Z.eqb_neq h _))
    by (unfold HandleType.ISEMPTY, HandleType.INVALID; lia).
  rewrite Hfs, (proj2 (isOwner_spec _ _) Hown). simpl.
  destruct (lockAll_step sz strict fs _ _ Hm (held_files _ _ _ Hfs)) as (g & fs' & rc & Heq & Hm' & Hfr & Hff & Hfm).
  simpl in Heq. rewrite Heq. simpl.
  assert (Hrc : strict = false -> rc = 0).
  { intros ->. unfold fs_lockAll in Heq. unbind Heq. destruct r0 as [[g1 t] rc1].
    apply lock_required_lenient in Hr0 as ->. simpl in Heq. unbind Heq. destruct r0. by simplify_eq/=. }
  destruct (Z.eqb_spec rc 0) as [->|Hne]; simpl.
  { eexists _, _, _. split; [done|]. split; [done|]. simpl. rewrite lookup_insert_eq. split; eauto. }
  destruct strict; [|by specialize (Hrc eq_refl)].
  set (s1 := mkMMState g (<[h := fs']> (h_hanCache s)) (h_handleNum s)).
  destruct (drop_set sz r s1 h fs') as (g' & Hd & _).
  - split; simpl; [|by eapply frame_mem|by destruct Hinv|].
    + eapply mem_inv_proper; [|done|exact Hm']. intros b. unfold held.
      rewrite (msum_update _ _ _ fs) by done. rewrite Hff. simpl. lia.
    + intros h' f0 [(<- & <-)|(? & ?)]%lookup_insert_Some; eauto.
  - apply lookup_insert_eq.
  - unfold real_unlock. rewrite (proj2 (Z.eqb_neq h _)), (proj2 (Z.eqb_neq h _))
      by (unfold HandleType.ISEMPTY, HandleType.INVALID; lia).
    simpl. rewrite lookup_insert_eq.
    replace (isOwner (r_memory r) fs') with true by (symmetry; apply isOwner_spec; congruence).
    simpl in Hd |- *. rewrite Hd. simpl. eexists _, _, _. split; [done|]. split; [done|].
    simpl. rewrite lookup_delete_eq. split; [by intros []|done].
Qed.
End theorems.

(** ** Witnesses *)

Section witnesses.
#[local] Existing Instances SimOs.ops SimOs.laws SimOs.is_stable.


Lemma memman_refcount_witness :
exists f, g_files (h_mem SimOs.prepared) !! 0%nat = Some f /\ mf_refs f = held (h_hanCache SimOs.prepared) 0.
Proof.
eexists. split; [vm_compute; reflexivity|].
apply (memman_refcount SimOs.prepared SimOs.prepared_reachable). vm_compute. reflexivity.
Defined.

Lemma memman_budget_witness :
exists m, g_mems (h_mem SimOs.prepared) !! 0%nat = Some m /\ m_rsvBytes m = 100 /\
  0 <= m_rsvBytes m <= m_maxBytes m.
Proof.
eexists. split; [vm_compute; reflexivity|]. split; [reflexivity|].
apply (memman_budget SimOs.prepared 0 _ SimOs.prepared_reachable). vm_compute. reflexivity.
Defined.

Lemma memman_accounting_witness :
exists m, g_mems (h_mem SimOs.prepared) !! 0%nat = Some m /\ m_rsvBytes m = rsv_sum 0 (h_mem SimOs.prepared).
Proof.
eexists. split; [vm_compute; reflexivity|].
apply (memman_accounting _ SimOs.prepared 0 _ SimOs.is_stable SimOs.prepared_reachable).
vm_compute. reflexivity.
Defined.

Lemma memman_no_leak_witness : g_files (h_mem SimOs.start) = ∅.
Proof.
apply (memman_no_leak (fun _ => 0) SimOs.start SimOs.start_reachable). reflexivity.
Defined.

Lemma handle_lifecycle_witness :
exists r2 s2, real_unlock 2 (SimOs.manager', SimOs.prepared) = Ret (r2, s2, true) /\ h_hanCache s2 = ∅.
Proof.
destruct (handle_lifecycle [SimOs.required "db/T"] 7 SimOs.manager SimOs.start SimOs.manager'
            SimOs.prepared 2 0 SimOs.start_reachable) as (_ & r2 & s2 & Hu & Hc & _);
  [by eexists|reflexivity|exact SimOs.prepare_runs|done|done|].
exists r2, s2. split; [exact Hu|exact Hc].
Defined.

Lemma prepare_maps_required_witness :
exists fs, h_hanCache SimOs.prepared !! 2 = Some fs /\ Z.of_nat (length (fs_lockFiles fs)) = 1.
Proof.
destruct (prepare_maps_required [SimOs.required "db/T"] 7 SimOs.manager SimOs.start SimOs.manager'
            SimOs.prepared 2 0 SimOs.start_reachable) as (fs & Hfs & Hlen & _);
  [by eexists|reflexivity|exact SimOs.prepare_runs|done|].
exists fs. split; [exact Hfs|exact Hlen].
Defined.

Lemma lock_strictness_witness :
exists r' s' rc, real_lock 2 false (SimOs.manager, SimOs.prepared) = Ret (r', s', rc) /\ rc = 0.
Proof.
destruct (lock_strictness 2 false SimOs.file_set SimOs.manager SimOs.prepared SimOs.prepared_reachable)
  as (r' & s' & rc & Heq & Hrc & _); [by eexists|reflexivity|reflexivity|].
exists r', s', rc. split; [exact Heq|by apply Hrc].
Defined.

End witnesses.

(** ** Files that grow between [stat] and [mmap]

    [memMap] reserves the size [stat] reported but remembers, and later gives
    back, the size [fstat] reported.  When files grow in between, the counter
    falls below the bytes that are in use. *)

Module GrowingOs.
#[export] Instance ops : OsMem unit := {
  os_stat _ o := (o, inr 10);
  os_open_fstat _ o := (o, inr 20);
  os_mmap _ _ o := (o, inr 4096);
  os_munmap _ _ o := o;
  os_mlock _ _ o := (o, None);
}.

Definition start : MMState unit := new_memory 0 (Memory_ctor "/d" 25) (empty_process tt).
Definition two_sets : outcome (RealState unit) :=
  let? (rs1, _) := real_prepare [SimOs.required "db/T"] 7 (SimOs.manager, start) in
  let? (rs2, _) := real_prepare [SimOs.required "db/T"] 8 rs1 in
  let? (rs3, _) := real_unlock 2 rs2 in
  Ret rs3.

(** One chunk file of 20 bytes is still mapped, yet no byte is reserved. *)
Lemma accounting_drift :
  exists r s m, two_sets = Ret (r, s) /\ g_mems (h_mem s) !! 0%nat = Some m /\
    m_rsvBytes m = 0 /\ rsv_sum 0 (h_mem s) = 20.
Proof. eexists _, _, _. split; [vm_compute; reflexivity|]. repeat split; reflexivity. Qed.
End GrowingOs.
