(* ===== verification/Double.v ===== *)
(** * [double]

    The C++ type [double] as IEEE 754 binary64, by the executable reference
    semantics of the standard library ([SpecFloat]); rounding is to nearest,
    ties to even. *)

From Stdlib Require Import ZArith SpecFloat.

Definition double : Type := spec_float.

Definition d_add : double -> double -> double := SFadd 53 1024.
Definition d_mul : double -> double -> double := SFmul 53 1024.
Definition d_div : double -> double -> double := SFdiv 53 1024.

(** [a < b]; false when one of them is a NaN. *)
Definition d_ltb (a b : double) : bool := SFltb a b.

(** Conversion from an integer; [d_of_Z 60000] is the literal [60000.0]. *)
Definition d_of_Z (z : Z) : double := binary_normalize 53 1024 z 0 false.

Definition d_zero : double := S754_zero false.
