(* ===== verification/Task.v ===== *)
(** * Tasks of the worker

    [wbase/Task.h] and [wbase/Task.cc].  A [Task::Ptr] is modelled by the
    members that never change after construction together with the address of
    the object; the members that change live in a store indexed by that
    address, so that every holder of the pointer sees an update.  Shared
    pointers keep tasks alive, hence a store lookup never dangles: an address
    that was not written yet has the member initialisers of the class.

    The store and the memory manager that all schedulers of a worker share
    form the [World] that the schedulers act on. *)

From S2P Require Import Prelude.
From S2P Require Import ScanInfo.
From S2P Require Import MemMan.

(** [proto::TaskMsg] (the fields of the protobuf message that are read). *)
Record TaskMsg := mkTaskMsg {
  tm_queryid : Z;
  tm_jobid : Z;
  tm_attemptcount : Z;
  tm_user : option string;
  tm_chunkid : option Z;
  tm_scantable : list ScanTableInfo;
  tm_scanpriority : Z;
  tm_scaninteractive : bool;
}.

(** [enum class State] *)
Inductive TaskState := CREATED | QUEUED | RUNNING | FINISHED.

#[global] Instance TaskState_eq_dec : EqDecision TaskState.
Proof. solve_decision. Defined.

(** [class Task]: the members fixed by the constructor. *)
Record Task := mkTask {
  t_ptr : nat;
  t_msg : TaskMsg;
  t_qId : Z;
  t_jId : Z;
  t_attemptCount : Z;
  t_user : string;
  t_scanInfo : ScanInfo;
  t_scanInteractive : bool;
}.

(** [class Task]: the members that change. *)
Record TaskVars := mkTaskVars {
  v_memHandle : Z;
  v_memMan : bool;                  (** [_memMan] is set *)
  v_taskScheduler : option nat;     (** the scheduler's identity *)
  v_taskQueryRunner : option nat;
  v_cancelled : bool;
  v_safeToMoveRunning : bool;
  v_onInteractive : bool;
  v_state : TaskState;
  v_queueTime : Z;                  (** clock values, in nanoseconds *)
  v_startTime : Z;
  v_finishTime : Z;
}.

Definition TaskVars_init : TaskVars :=
  mkTaskVars HandleType.INVALID false None None false false false CREATED 0 0 0.

(** [std::string const Task::defaultUser] *)
Definition defaultUser : string := "qsmaster".

(** [Task::Task(Task::TaskMsgPtr const& t, SendChannel::Ptr const& sc)] *)
Definition Task_ctor (this : nat) (t : TaskMsg) : Task :=
  {| t_ptr := this; t_msg := t;
     t_qId := tm_queryid t; t_jId := tm_jobid t; t_attemptCount := tm_attemptcount t;
     t_user := default defaultUser (tm_user t);
     t_scanInfo := sortTablesSlowestFirst (mkScanInfo (tm_scantable t) (tm_scanpriority t));
     t_scanInteractive := tm_scaninteractive t |}.

(** [int Task::getChunkId()] *)
Definition getChunkId (t : Task) : Z :=
  match tm_chunkid (t_msg t) with Some c => c | None => -1 end.

(** [bool idsMatch(QueryId qId, int jId)] *)
Definition idsMatch (t : Task) (qId jId : Z) : bool := (t_qId t =? qId) && (t_jId t =? jId).

(** [bool Task::ChunkEqual::operator()]: both tasks have a chunk, the same. *)
Definition ChunkEqual (x y : option Task) : bool :=
  match x, y with
  | Some x, Some y =>
      match tm_chunkid (t_msg x), tm_chunkid (t_msg y) with
      | Some a, Some b => a =? b
      | _, _ => false
      end
  | _, _ => false
  end.

(** [bool Task::ChunkIdGreater::operator()]; an absent chunk id reads as 0. *)
Definition ChunkIdGreater (x y : option Task) : bool :=
  match x, y with
  | Some x, Some y => default 0 (tm_chunkid (t_msg y)) <? default 0 (tm_chunkid (t_msg x))
  | _, _ => false
  end.

(** ** The store *)

Record World (M : Type) := mkWorld { w_mm : M; w_tasks : gmap nat TaskVars }.
Arguments mkWorld {M}.
Arguments w_mm {M}.
Arguments w_tasks {M}.

Section task.
Context {M : Type} `{HM : MemMan M}.
Implicit Types (w : World M) (t : Task).

Definition vars w t : TaskVars := default TaskVars_init (w_tasks w !! t_ptr t).
Definition set_vars t (v : TaskVars) w : World M :=
  mkWorld (w_mm w) (<[t_ptr t := v]> (w_tasks w)).
Definition set_mm (m : M) w : World M := mkWorld m (w_tasks w).

(** Getters and setters of Task.h *)
Definition getMemHandle w t : Z := v_memHandle (vars w t).
Definition hasMemHandle w t : bool := negb (getMemHandle w t =? HandleType.INVALID).
Definition setMemHandle t (h : Z) w : World M :=
  let v := vars w t in
  set_vars t (mkTaskVars h (v_memMan v) (v_taskScheduler v) (v_taskQueryRunner v) (v_cancelled v)
                (v_safeToMoveRunning v) (v_onInteractive v) (v_state v) (v_queueTime v)
                (v_startTime v) (v_finishTime v)) w.
Definition setMemMan t w : World M :=
  let v := vars w t in
  set_vars t (mkTaskVars (v_memHandle v) true (v_taskScheduler v) (v_taskQueryRunner v)
                (v_cancelled v) (v_safeToMoveRunning v) (v_onInteractive v) (v_state v)
                (v_queueTime v) (v_startTime v) (v_finishTime v)) w.
Definition setTaskScheduler t (s : nat) w : World M :=
  let v := vars w t in
  set_vars t (mkTaskVars (v_memHandle v) (v_memMan v) (Some s) (v_taskQueryRunner v)
                (v_cancelled v) (v_safeToMoveRunning v) (v_onInteractive v) (v_state v)
                (v_queueTime v) (v_startTime v) (v_finishTime v)) w.
Definition setOnInteractive t (b : bool) w : World M :=
  let v := vars w t in
  set_vars t (mkTaskVars (v_memHandle v) (v_memMan v) (v_taskScheduler v) (v_taskQueryRunner v)
                (v_cancelled v) (v_safeToMoveRunning v) b (v_state v)
                (v_queueTime v) (v_startTime v) (v_finishTime v)) w.

(** [bool Task::setTaskQueryRunner(TaskQueryRunner::Ptr const&)] *)
Definition setTaskQueryRunner t (r : nat) w : World M * bool :=
  let v := vars w t in
  (set_vars t (mkTaskVars (v_memHandle v) (v_memMan v) (v_taskScheduler v) (Some r)
                 (v_cancelled v) (v_safeToMoveRunning v) (v_onInteractive v) (v_state v)
                 (v_queueTime v) (v_startTime v) (v_finishTime v)) w, v_cancelled v).

(** [void Task::freeTaskQueryRunner(TaskQueryRunner *tqr)] *)
Definition freeTaskQueryRunner t (r : nat) w : World M :=
  let v := vars w t in
  if decide (v_taskQueryRunner v = Some r) then
    set_vars t (mkTaskVars (v_memHandle v) (v_memMan v) (v_taskScheduler v) None
                  (v_cancelled v) (v_safeToMoveRunning v) (v_onInteractive v) (v_state v)
                  (v_queueTime v) (v_startTime v) (v_finishTime v)) w
  else w.

(** [void Task::cancel()]; returns the query runner whose [cancel] is called
    and the scheduler whose [taskCancelled] is called, if any. *)
Definition cancel t w : World M * (option nat * option nat) :=
  let v := vars w t in
  if v_cancelled v then (w, (None, None))
  else
    (set_vars t (mkTaskVars (v_memHandle v) (v_memMan v) (v_taskScheduler v) (v_taskQueryRunner v)
                   true (v_safeToMoveRunning v) (v_onInteractive v) (v_state v)
                   (v_queueTime v) (v_startTime v) (v_finishTime v)) w,
     (v_taskQueryRunner v, v_taskScheduler v)).

Definition set_state t (st : TaskState) (q s f : Z) w : World M :=
  let v := vars w t in
  set_vars t (mkTaskVars (v_memHandle v) (v_memMan v) (v_taskScheduler v) (v_taskQueryRunner v)
                (v_cancelled v) (v_safeToMoveRunning v) (v_onInteractive v) st q s f) w.

(** [void Task::queued(now)] *)
Definition queued t (now : Z) w : World M :=
  set_state t QUEUED now (v_startTime (vars w t)) (v_finishTime (vars w t)) w.

(** [void Task::started(now)] *)
Definition started t (now : Z) w : World M :=
  set_state t RUNNING (v_queueTime (vars w t)) now (v_finishTime (vars w t)) w.

(** [std::chrono::duration_cast<std::chrono::milliseconds>], which truncates. *)
Definition to_millis (d : Z) : Z := d ÷ 1000000.

(** [std::chrono::milliseconds Task::finished(now)] *)
Definition finished t (now : Z) w : World M * Z :=
  let duration := to_millis (now - v_startTime (vars w t)) in
  (set_state t FINISHED (v_queueTime (vars w t)) (v_startTime (vars w t)) now w,
   if duration <? 1 then 1 else duration).

(** [std::chrono::milliseconds Task::getRunTime() const], at clock [now]. *)
Definition getRunTimeOf (v : TaskVars) (now : Z) : Z :=
  match v_state v with
  | FINISHED => to_millis (v_finishTime v - v_startTime v)
  | RUNNING => to_millis (now - v_startTime v)
  | _ => 0
  end.
Definition getRunTime t (now : Z) w : Z := getRunTimeOf (vars w t) now.

(** [void Task::waitForMemMan()] *)
Definition waitForMemMan t w : outcome (World M) :=
  let? w1 :=
    (if v_memMan (vars w t) then
       let? (m, rc) := mm_lock (getMemHandle w t) true (w_mm w) in Ret (set_mm m w)
     else Ret w) in
  let v := vars w1 t in
  Ret (set_vars t (mkTaskVars (v_memHandle v) (v_memMan v) (v_taskScheduler v) (v_taskQueryRunner v)
                     (v_cancelled v) true (v_onInteractive v) (v_state v)
                     (v_queueTime v) (v_startTime v) (v_finishTime v)) w1).

(** ** Lemmas on the store *)

Lemma vars_set_eq t v w : vars (set_vars t v w) t = v.
Proof. unfold vars, set_vars. simpl. by rewrite lookup_insert_eq. Qed.

Lemma vars_set_ne t t' v w : t_ptr t <> t_ptr t' -> vars (set_vars t v w) t' = vars w t'.
Proof. intros Hne. unfold vars, set_vars. simpl. by rewrite lookup_insert_ne. Qed.

Lemma vars_set_mm m w t : vars (set_mm m w) t = vars w t.
Proof. done. Qed.

(** Two pointers to the same object see the same members. *)
Lemma vars_alias w t t' : t_ptr t = t_ptr t' -> vars w t = vars w t'.
Proof. unfold vars. by intros ->. Qed.

Lemma getMemHandle_set t h w t' :
  getMemHandle (setMemHandle t h w) t' = if decide (t_ptr t = t_ptr t') then h else getMemHandle w t'.
Proof.
  unfold getMemHandle, setMemHandle. destruct (decide _) as [He|He].
  - rewrite (vars_alias _ t' t) by done. by rewrite vars_set_eq.
  - by rewrite vars_set_ne.
Qed.

Lemma hasMemHandle_spec w t : hasMemHandle w t = true <-> getMemHandle w t <> HandleType.INVALID.
Proof. unfold hasMemHandle. rewrite negb_true_iff, Z.eqb_neq. done. Qed.

(** A member update that keeps the handle keeps every task's handle. *)
Lemma getMemHandle_keep t v w t' :
  v_memHandle v = v_memHandle (vars w t) -> getMemHandle (set_vars t v w) t' = getMemHandle w t'.
Proof.
  intros Hv. unfold getMemHandle. destruct (decide (t_ptr t = t_ptr t')) as [He|He].
  - rewrite <- !(vars_alias _ t t') by done. by rewrite vars_set_eq.
  - by rewrite vars_set_ne.
Qed.
End task.

(** ** The tables of a task *)

(** A task keeps exactly the scan tables of its message, slowest first: no
    table is slower than one before it (so the statistics and the schedulers,
    which look at the first table, use the slowest one). *)
Theorem task_tables_slowest_first this msg :
  si_infoTables (t_scanInfo (Task_ctor this msg)) ≡ₚ tm_scantable msg /\
  (forall i j x y, (i < j)%nat -> si_infoTables (t_scanInfo (Task_ctor this msg)) !! i = Some x ->
     si_infoTables (t_scanInfo (Task_ctor this msg)) !! j = Some y -> compare y x <= 0).
Proof.
  simpl. split; [apply std_sort_Permutation|].
  pose proof (std_sort_ordered slower (tm_scantable msg)) as Ho. unfold ordered in Ho.
  induction Ho as [|z l Ho IH Hall]; intros i j x y Hij Hx Hy; [done|].
  destruct j as [|j]; [lia|]. simpl in Hy. destruct i as [|i]; simpl in Hx; [|eapply (IH i j); eauto; lia].
  injection Hx as <-. rewrite Forall_forall in Hall. apply list_elem_of_lookup_2 in Hy. specialize (Hall y Hy).
  unfold slower in Hall. by apply Z.ltb_ge in Hall.
Qed.

(** ** Cancellation

    [Task::cancel] and [Task::setTaskQueryRunner] run on different threads;
    every access of [_cancelled] and [_taskQueryRunner] is a step. *)
Module Cancel.
Inductive cpc := CExchange | CRead | CCall (r : option nat) | CDone.
Inductive spc := SWrite (r : nat) | SRead (r : nat) | SDone (r : nat) (already : bool).

(** The two members, the threads in [cancel], the thread in
    [setTaskQueryRunner], and the runners on which [cancel] was called. *)
Record state := mkState {
  c_cancelled : bool;
  c_runner : option nat;
  c_cancels : list cpc;
  c_set : spc;
  c_called : list nat;
}.

Definition cancel_step (p : cpc) (s : state) : cpc * state :=
  match p with
  | CExchange =>
      (if c_cancelled s then CDone else CRead,
       mkState true (c_runner s) (c_cancels s) (c_set s) (c_called s))
  | CRead => (CCall (c_runner s), s)
  | CCall r => (CDone, mkState (c_cancelled s) (c_runner s) (c_cancels s) (c_set s) (option_list r ++ c_called s))
  | CDone => (CDone, s)
  end.

Definition set_step (s : state) : state :=
  match c_set s with
  | SWrite r => mkState (c_cancelled s) (Some r) (c_cancels s) (SRead r) (c_called s)
  | SRead r => mkState (c_cancelled s) (c_runner s) (c_cancels s) (SDone r (c_cancelled s)) (c_called s)
  | SDone _ _ => s
  end.

Definition with_cancels (l : list cpc) (s : state) : state :=
  mkState (c_cancelled s) (c_runner s) l (c_set s) (c_called s).

Inductive step : state -> state -> Prop :=
| step_cancel l1 p l2 p' s s' :
    c_cancels s = l1 ++ p :: l2 -> cancel_step p s = (p', s') ->
    step s (with_cancels (l1 ++ p' :: l2) s')
| step_set s : step s (set_step s)
| step_call s : step s (with_cancels (CExchange :: c_cancels s) s).

Inductive reach (r : nat) : state -> Prop :=
| reach_init : reach r (mkState false None [] (SWrite r) [])
| reach_step s s' : reach r s -> step s s' -> reach r s'.

(** A [cancel] that won the exchange will still see the runner, or already
    called it, or finished before the runner was set. *)
Definition pending (r : nat) (s : state) : Prop :=
  exists p, p ∈ c_cancels s /\ (p = CRead \/ p = CCall (Some r)).

Definition inv (r : nat) (s : state) : Prop :=
  match c_set s with
  | SWrite r' => r' = r /\ c_runner s = None
  | SRead r' => r' = r /\ c_runner s = Some r
  | SDone r' b => r' = r /\ c_runner s = Some r /\
      (b = false -> c_cancelled s = true -> pending r s \/ r ∈ c_called s)
  end.

Lemma step_inv r s s' : step s s' -> inv r s -> inv r s'.
Proof.
  destruct 1 as [l1 p l2 p' s s' Hl Hs|s|s]; unfold inv.
  - intros Hi. assert (Hfix : c_set s' = c_set s /\ c_runner s' = c_runner s).
    { destruct p; simpl in Hs; by injection Hs as _ <-. }
    destruct Hfix as [Hset Hrun]. simpl. rewrite Hset, Hrun.
    destruct (c_set s) as [r'|r'|r' b] eqn:E; [done|done|]. destruct Hi as (-> & Hr & Hp).
    split; [done|]. split; [done|]. intros Hb Hc. unfold pending in *. simpl.
    destruct p; simpl in Hs; injection Hs as <- <-; simpl in *.
    + destruct (c_cancelled s) eqn:Ec.
      * destruct (Hp Hb eq_refl) as [(q & Hq & Hq')|Hq]; [|by right]. left. exists q. split; [|done].
        rewrite Hl in Hq. destruct Hq' as [->| ->]; set_solver.
      * left. exists CRead. split; [set_solver|by left].
    + left. exists (CCall (Some r)). rewrite Hr. split; [set_solver|by right].
    + destruct (Hp Hb Hc) as [(q & Hq & Hq')|Hq]; [|right; set_solver]. rewrite Hl in Hq.
      apply elem_of_app in Hq as [Hq|Hq]; [left; exists q; split; [set_solver|done]|].
      apply elem_of_cons in Hq as [->|Hq]; [|left; exists q; split; [set_solver|done]].
      destruct Hq' as [?|[= ->]]; [done|]. right. set_solver.
    + destruct (Hp Hb Hc) as [(q & Hq & Hq')|Hq]; [|by right]. left. exists q. by rewrite <- Hl.
  - unfold set_step. destruct (c_set s) as [r'|r'|r' b] eqn:E; simpl.
    + naive_solver.
    + intros [-> Hr]. split; [done|]. split; [done|]. intros Hb Hc. congruence.
    + by rewrite E.
  - simpl. destruct (c_set s) as [r'|r'|r' b]; [done|done|]. intros (-> & Hr & Hp). split; [done|]. split; [done|].
    intros Hb Hc. destruct (Hp Hb Hc) as [(q & Hq & Hq')|Hq]; [left|by right]. exists q. split; [set_solver|done].
Qed.

(** A run: [cancel] wins the exchange before the runner 5 is set, and reads
    it after [setTaskQueryRunner] returned. *)
Definition head_cancel (s : state) : state :=
  match c_cancels s with
  | p :: l => let '(p', s') := cancel_step p s in with_cancels (p' :: l) s'
  | [] => s
  end.

Lemma reach_head r s : reach r s -> reach r (head_cancel s).
Proof.
  intros Hr. unfold head_cancel. destruct (c_cancels s) as [|p l] eqn:E; [done|].
  destruct (cancel_step p s) as [p' s'] eqn:E'. eapply reach_step; [exact Hr|]. by apply (step_cancel [] p l).
Qed.

Definition run : state :=
  head_cancel (head_cancel (set_step (set_step (head_cancel
    (with_cancels [CExchange] (mkState false None [] (SWrite 5) [])))))).

Lemma run_reach : reach 5 run.
Proof.
  do 2 apply reach_head. do 2 (eapply reach_step; [|apply step_set]). apply reach_head.
  eapply reach_step; [apply reach_init|]. apply (step_call (mkState false None [] (SWrite 5) [])).
Qed.
End Cancel.

(** No cancellation is lost: once [setTaskQueryRunner] has returned and
    every call of [cancel] has ended, with at least one of them made, either
    [setTaskQueryRunner] returned that the task was already cancelled or
    [cancel] of the query runner was called. *)
Theorem cancel_not_lost r s r' already :
  Cancel.reach r s -> Cancel.c_set s = Cancel.SDone r' already -> Cancel.c_cancelled s = true ->
  Forall (fun p => p = Cancel.CDone) (Cancel.c_cancels s) ->
  already = true \/ r ∈ Cancel.c_called s.
Proof.
  intros Hr Hs Hc Hall.
  assert (Hi : Cancel.inv r s).
  { clear -Hr. induction Hr as [|s s' _ IH Hst]; [done|]. by eapply Cancel.step_inv. }
  unfold Cancel.inv in Hi. rewrite Hs in Hi. destruct Hi as (_ & _ & Hp). destruct already; [by left|right].
  destruct (Hp eq_refl Hc) as [(q & Hq & Hq')|?]; [|done]. rewrite Forall_forall in Hall.
  rewrite (Hall q Hq) in Hq'. naive_solver.
Qed.

Lemma cancel_not_lost_witness : Cancel.c_cancelled Cancel.run = true /\ (true = true \/ 5%nat ∈ Cancel.c_called Cancel.run).
Proof.
  split; [reflexivity|].
  apply (cancel_not_lost 5 Cancel.run 5 true Cancel.run_reach eq_refl eq_refl). by repeat constructor.
Defined.
