(* ===== verification/SchedulerBase.v ===== *)
(** * What the schedulers share

    [wsched/SchedulerBase.h] and [.cc]: thread limits, reserved threads,
    priorities, the number of queued tasks per user query and the number of
    running tasks per chunk. *)

From S2P Require Import Prelude.

(** [class SchedulerBase] *)
Record SchedulerBase := mkSchedulerBase {
  b_name : string;
  b_maxReserve : Z;
  b_maxReserveDefault : Z;
  b_maxThreads : Z;
  b_maxThreadsAdj : Z;
  b_priority : Z;
  b_priorityDefault : Z;
  b_inFlight : Z;
  b_userQueryCounts : gmap Z Z;
  b_chunkTasks : gmap Z Z;
  b_maxActiveChunks : Z;
  b_defaultPosition : Z;
}.

(** [static int getMaxPriority()] *)
Definition getMaxPriority : Z := 1000000000.

(** [SchedulerBase(name, maxThreads, maxReserve, maxActiveChunks, priority)],
    with [setMaxActiveChunks] applied. *)
Definition SchedulerBase_ctor (name : string) (maxThreads maxReserve maxActiveChunks priority : Z)
    : SchedulerBase :=
  mkSchedulerBase name maxReserve maxReserve maxThreads maxThreads priority priority 0 ∅ ∅
    (if maxActiveChunks <? 1 then 1 else maxActiveChunks) 10.

Implicit Types (b : SchedulerBase).

(** Member updates *)
Definition set_inFlight (n : Z) b : SchedulerBase :=
  mkSchedulerBase (b_name b) (b_maxReserve b) (b_maxReserveDefault b) (b_maxThreads b)
    (b_maxThreadsAdj b) (b_priority b) (b_priorityDefault b) n (b_userQueryCounts b)
    (b_chunkTasks b) (b_maxActiveChunks b) (b_defaultPosition b).
Definition set_userQueryCounts (c : gmap Z Z) b : SchedulerBase :=
  mkSchedulerBase (b_name b) (b_maxReserve b) (b_maxReserveDefault b) (b_maxThreads b)
    (b_maxThreadsAdj b) (b_priority b) (b_priorityDefault b) (b_inFlight b) c
    (b_chunkTasks b) (b_maxActiveChunks b) (b_defaultPosition b).
Definition set_chunkTasks (c : gmap Z Z) b : SchedulerBase :=
  mkSchedulerBase (b_name b) (b_maxReserve b) (b_maxReserveDefault b) (b_maxThreads b)
    (b_maxThreadsAdj b) (b_priority b) (b_priorityDefault b) (b_inFlight b)
    (b_userQueryCounts b) c (b_maxActiveChunks b) (b_defaultPosition b).

(** [void setPriority(int priority)] *)
Definition setPriority (p : Z) b : SchedulerBase :=
  mkSchedulerBase (b_name b) (b_maxReserve b) (b_maxReserveDefault b) (b_maxThreads b)
    (b_maxThreadsAdj b) p (b_priorityDefault b) (b_inFlight b) (b_userQueryCounts b)
    (b_chunkTasks b) (b_maxActiveChunks b) (b_defaultPosition b).

(** [void setPriorityDefault()] *)
Definition setPriorityDefault b : SchedulerBase := setPriority (b_priorityDefault b) b.

(** [void setMaxReserve(int maxReserve)] and [void restoreMaxReserve()] *)
Definition setMaxReserve (r : Z) b : SchedulerBase :=
  mkSchedulerBase (b_name b) r (b_maxReserveDefault b) (b_maxThreads b)
    (b_maxThreadsAdj b) (b_priority b) (b_priorityDefault b) (b_inFlight b) (b_userQueryCounts b)
    (b_chunkTasks b) (b_maxActiveChunks b) (b_defaultPosition b).
Definition restoreMaxReserve b : SchedulerBase := setMaxReserve (b_maxReserveDefault b) b.

(** [void setMaxActiveChunks(int maxActive)] *)
Definition setMaxActiveChunks (maxActive : Z) b : SchedulerBase :=
  mkSchedulerBase (b_name b) (b_maxReserve b) (b_maxReserveDefault b) (b_maxThreads b)
    (b_maxThreadsAdj b) (b_priority b) (b_priorityDefault b) (b_inFlight b) (b_userQueryCounts b)
    (b_chunkTasks b) (if maxActive <? 1 then 1 else maxActive) (b_defaultPosition b).

(** [void setDefaultPosition(int val)] *)
Definition setDefaultPosition (p : Z) b : SchedulerBase :=
  mkSchedulerBase (b_name b) (b_maxReserve b) (b_maxReserveDefault b) (b_maxThreads b)
    (b_maxThreadsAdj b) (b_priority b) (b_priorityDefault b) (b_inFlight b) (b_userQueryCounts b)
    (b_chunkTasks b) (b_maxActiveChunks b) p.

(** [virtual int desiredThreadReserve()] *)
Definition desiredThreadReserve b : Z := Z.min (b_inFlight b + 1) (b_maxReserve b).

(** [virtual int applyAvailableThreads(int availableThreads)] *)
Definition applyAvailableThreads (availableThreads : Z) b : SchedulerBase * Z :=
  (mkSchedulerBase (b_name b) (b_maxReserve b) (b_maxReserveDefault b) (b_maxThreads b)
     (availableThreads + desiredThreadReserve b) (b_priority b) (b_priorityDefault b)
     (b_inFlight b) (b_userQueryCounts b) (b_chunkTasks b) (b_maxActiveChunks b)
     (b_defaultPosition b),
   availableThreads - Z.max 0 (b_inFlight b - b_maxReserve b)).

(** [virtual int maxInFlight()] *)
Definition maxInFlight b : Z := Z.min (b_maxThreads b) (b_maxThreadsAdj b).

(** [++m[k]] on a [std::map<_, int>]. *)
Definition count_incr (k : Z) (c : gmap Z Z) : gmap Z Z := <[k := default 0 (c !! k) + 1]> c.

(** Decrement the entry of [k] if there is one and erase it at 0 or below. *)
Definition count_decr (k : Z) (c : gmap Z Z) : gmap Z Z :=
  match c !! k with
  | None => c
  | Some n => if n - 1 <=? 0 then delete k c else <[k := n - 1]> c
  end.

(** [int _incrCountForUserQuery(QueryId queryId)] *)
Definition incrCountForUserQuery (queryId : Z) b : SchedulerBase * Z :=
  (set_userQueryCounts (count_incr queryId (b_userQueryCounts b)) b,
   default 0 (b_userQueryCounts b !! queryId) + 1).

(** [int _decrCountForUserQuery(QueryId queryId)] *)
Definition decrCountForUserQuery (queryId : Z) b : SchedulerBase * Z :=
  (set_userQueryCounts (count_decr queryId (b_userQueryCounts b)) b,
   match b_userQueryCounts b !! queryId with Some n => n - 1 | None => 0 end).

(** [int getUserQueriesInQ()] *)
Definition getUserQueriesInQ b : Z := Z.of_nat (size (b_userQueryCounts b)).

(** [void _incrChunkTaskCount(int chunkId)] *)
Definition incrChunkTaskCount (chunkId : Z) b : SchedulerBase :=
  set_chunkTasks (count_incr chunkId (b_chunkTasks b)) b.

(** [void _decrChunkTaskCount(int chunkId)] *)
Definition decrChunkTaskCount (chunkId : Z) b : SchedulerBase :=
  set_chunkTasks (count_decr chunkId (b_chunkTasks b)) b.

(** [int getActiveChunkCount()] *)
Definition getActiveChunkCount b : Z := Z.of_nat (size (b_chunkTasks b)).

(** [bool chunkAlreadyActive(int chunkId)] *)
Definition chunkAlreadyActive (chunkId : Z) b : bool :=
  match b_chunkTasks b !! chunkId with Some _ => true | None => false end.

(** ** Counters count

    A counter map represents a multiset [l] of keys when it holds exactly the
    number of occurrences of every key that occurs. *)

Definition key_occ (k : Z) (l : list Z) : Z := Z.of_nat (length (filter (fun x => x = k) l)).

Definition counts (c : gmap Z Z) (l : list Z) : Prop :=
  forall k, c !! k = (if decide (0 < key_occ k l) then Some (key_occ k l) else None).

Lemma key_occ_cons k x l : key_occ k (x :: l) = (if decide (x = k) then 1 else 0) + key_occ k l.
Proof. unfold key_occ. rewrite filter_cons. destruct (decide (x = k)); simpl length; lia. Qed.

Lemma key_occ_nonneg k l : 0 <= key_occ k l.
Proof. unfold key_occ. lia. Qed.

#[export] Instance key_occ_Permutation k : Proper ((≡ₚ) ==> eq) (key_occ k).
Proof. intros l l' Hl. unfold key_occ. by rewrite Hl. Qed.

#[export] Instance counts_Permutation c : Proper ((≡ₚ) ==> iff) (counts c).
Proof.
  assert (H : forall l l', l ≡ₚ l' -> counts c l -> counts c l').
  { intros l l' Hl Hc k. by rewrite (Hc k), (key_occ_Permutation k l l' Hl). }
  intros l l' Hl. split; by apply H.
Qed.

Lemma counts_nil : counts ∅ [].
Proof. intros k. by rewrite lookup_empty. Qed.

Lemma counts_incr c k l : counts c l -> counts (count_incr k c) (k :: l).
Proof.
  intros Hc j. unfold count_incr. rewrite key_occ_cons. pose proof (key_occ_nonneg j l).
  destruct (decide (k = j)) as [<-|Hne].
  - rewrite lookup_insert_eq, (Hc k).
    rewrite (decide_True (P := 0 < 1 + key_occ k l)) by lia.
    destruct (decide (0 < key_occ k l)); simpl; f_equal; lia.
  - by rewrite lookup_insert_ne, (Hc j).
Qed.

Lemma counts_decr c k l : counts c (k :: l) -> counts (count_decr k c) l.
Proof.
  intros Hc j. unfold count_decr. pose proof (Hc k) as Hk. pose proof (Hc j) as Hj.
  rewrite key_occ_cons in Hk, Hj. rewrite (decide_True (P := k = k)) in Hk by done.
  pose proof (key_occ_nonneg k l). pose proof (key_occ_nonneg j l).
  rewrite decide_True in Hk by lia. rewrite Hk.
  destruct (Z.leb_spec (1 + key_occ k l - 1) 0); destruct (decide (k = j)) as [<-|Hne].
  - rewrite lookup_delete_eq. by rewrite decide_False by lia.
  - by rewrite lookup_delete_ne.
  - rewrite lookup_insert_eq, decide_True by lia. f_equal. lia.
  - by rewrite lookup_insert_ne.
Qed.

Lemma counts_lookup_Some c l k : counts c l -> is_Some (c !! k) <-> k ∈ l.
Proof.
  intros Hc. rewrite (Hc k). unfold key_occ.
  destruct (filter (fun x => x = k) l) as [|x r] eqn:E; simpl.
  - split; [by intros []|]. intros Hk. exfalso.
    assert (Hin : k ∈ filter (fun x => x = k) l) by (by apply list_elem_of_filter).
    rewrite E in Hin. set_solver.
  - split; [|by eauto]. intros _.
    assert (Hin : x ∈ filter (fun x => x = k) l) by (rewrite E; left).
    by apply list_elem_of_filter in Hin as [-> ?].
Qed.

(** The counter has one entry per distinct key. *)
Lemma counts_size c l : counts c l -> size c = length (remove_dups l).
Proof.
  intros Hc. rewrite <- size_dom. rewrite <- (size_list_to_set (C := gset Z) (remove_dups l)) by apply NoDup_remove_dups.
  f_equal. apply set_eq. intros k. rewrite elem_of_dom, elem_of_list_to_set, elem_of_remove_dups.
  by apply counts_lookup_Some.
Qed.
