(* ===== verification/ChunkTasks.v ===== *)
(** * The tasks of one chunk

    [class ChunkTasks] of [wsched/ChunkTasksQueue.h] and [.cc]: a heap of
    tasks that may run, the tasks that wait until the chunk becomes active
    again, the task that was granted memory and the tasks in flight. *)

From S2P Require Import Prelude.
From S2P Require Import StdHeap.
From S2P Require Import ScanInfo.
From S2P Require Import MemMan.
From S2P Require Import Task.

(** ** Asking the memory manager

    The requests that [ChunkTasks::ready] and [ChunkDisk::_ready] make. *)

Definition tblVect (useFlexibleLock : bool) (t : Task) : list TableInfo :=
  map (fun tbl => mkTableInfo (sti_db tbl +:+ "/" +:+ sti_table tbl)
                    (if useFlexibleLock then FLEXIBLE else REQUIRED) NOLOCK)
    (si_infoTables (t_scanInfo t)).

(** Prepare the tables of [t].  The result says whether the task now has a
    handle; [false] is the case [ENOMEM]. *)
Definition acquire {M} `{MemMan M} (useFlexibleLock : bool) (t : Task) (w : World M)
    : outcome (World M * bool) :=
  let? (m, (handle, errno)) := mm_prepare (tblVect useFlexibleLock t) (getChunkId t) (w_mm w) in
  let w1 := set_mm m w in
  if handle =? 0 then
    if errno =? ENOMEM then Ret (w1, false)
    else if errno =? ENOENT then Ret (setMemHandle t HandleType.ISEMPTY w1, true)
    else Raise BadException
  else Ret (setMemHandle t handle w1, true).

(** ** class ChunkTasks *)

(** [enum class ReadyState] *)
Inductive ReadyState := READY | NOT_READY | NO_RESOURCES.

(** [SlowTableHeap::compareFunc] *)
Definition compareFunc (x y : Task) : bool := compareTables (t_scanInfo x) (t_scanInfo y) <? 0.

Record ChunkTasks := mkChunkTasks {
  ct_chunkId : Z;
  ct_active : bool;
  ct_resourceStarved : bool;
  ct_readyTask : option Task;
  ct_activeTasks : list Task;       (** the vector of the heap *)
  ct_pendingTasks : list Task;
  ct_inFlightTasks : gset nat;
}.

Definition ChunkTasks_ctor (chunkId : Z) : ChunkTasks := mkChunkTasks chunkId false false None [] [] ∅.

Implicit Types (c : ChunkTasks) (t : Task).

Definition ct_set_tasks (act pend : list Task) c : ChunkTasks :=
  mkChunkTasks (ct_chunkId c) (ct_active c) (ct_resourceStarved c) (ct_readyTask c) act pend
    (ct_inFlightTasks c).

(** [SlowTableHeap::push], [SlowTableHeap::pop], [SlowTableHeap::top] *)
Definition heap_push t (l : list Task) : list Task := push_heap compareFunc l t.
Definition heap_pop (l : list Task) : list Task := pop_heap compareFunc l.
Definition heap_top (l : list Task) : option Task := head l.

(** [void queTask(wbase::Task::Ptr const& a)] *)
Definition ct_queTask (a : Task) c : ChunkTasks :=
  if ct_active c then ct_set_tasks (ct_activeTasks c) (ct_pendingTasks c ++ [a]) c
  else ct_set_tasks (heap_push a (ct_activeTasks c)) (ct_pendingTasks c) c.

(** [void movePendingToActive()] *)
Definition ct_movePendingToActive c : ChunkTasks :=
  ct_set_tasks (foldl (fun h t => heap_push t h) (ct_activeTasks c) (ct_pendingTasks c)) [] c.

(** [void setActive(bool active)] *)
Definition ct_setActive (active : bool) c : ChunkTasks :=
  let c' := if ct_active c && negb active then ct_movePendingToActive c else c in
  mkChunkTasks (ct_chunkId c') active (ct_resourceStarved c') (ct_readyTask c')
    (ct_activeTasks c') (ct_pendingTasks c') (ct_inFlightTasks c').

Definition isEmpty {A} (l : list A) : bool := match l with [] => true | _ => false end.

(** [bool empty() const] *)
Definition ct_empty c : bool := isEmpty (ct_activeTasks c) && isEmpty (ct_pendingTasks c).

(** [bool readyToAdvance()] *)
Definition ct_readyToAdvance c : bool :=
  isEmpty (ct_activeTasks c) && bool_decide (ct_inFlightTasks c = ∅).

(** [bool setResourceStarved(bool starved)] *)
Definition ct_setResourceStarved (starved : bool) c : ChunkTasks * bool :=
  (mkChunkTasks (ct_chunkId c) (ct_active c) starved (ct_readyTask c) (ct_activeTasks c)
     (ct_pendingTasks c) (ct_inFlightTasks c), ct_resourceStarved c).

(** [std::size_t size() const] *)
Definition ct_size c : Z := Z.of_nat (length (ct_activeTasks c) + length (ct_pendingTasks c)).

(** The end of [ready]: take the top off the heap. *)
Definition ct_promote t c : ChunkTasks :=
  mkChunkTasks (ct_chunkId c) (ct_active c) (ct_resourceStarved c) (Some t)
    (heap_pop (ct_activeTasks c)) (ct_pendingTasks c) (ct_inFlightTasks c).

(** [void taskComplete(wbase::Task::Ptr const& task)] *)
Definition ct_taskComplete t c : ChunkTasks :=
  mkChunkTasks (ct_chunkId c) (ct_active c) (ct_resourceStarved c) (ct_readyTask c)
    (ct_activeTasks c) (ct_pendingTasks c) (ct_inFlightTasks c ∖ {[t_ptr t]}).

(** [eraseFunc] of [removeTask]: the first task with the given ids. *)
Fixpoint eraseFunc (queryId jobId : Z) (vect : list Task) : option (Task * list Task) :=
  match vect with
  | [] => None
  | t :: rest =>
      if idsMatch t queryId jobId then Some (t, rest)
      else match eraseFunc queryId jobId rest with
           | Some (r, rest') => Some (r, t :: rest')
           | None => None
           end
  end.

(** [wbase::Task::Ptr removeTask(wbase::Task::Ptr const& task)] *)
Definition ct_removeTask (task : Task) c : ChunkTasks * option Task :=
  match eraseFunc (t_qId task) (t_jId task) (ct_activeTasks c) with
  | Some (r, rest) => (ct_set_tasks (make_heap compareFunc rest) (ct_pendingTasks c) c, Some r)
  | None =>
      match eraseFunc (t_qId task) (t_jId task) (ct_pendingTasks c) with
      | Some (r, rest) => (ct_set_tasks (ct_activeTasks c) rest c, Some r)
      | None => (c, None)
      end
  end.

Section chunk.
Context {M : Type} `{HM : MemMan M}.
Implicit Types (w : World M).

(** [ReadyState ready(bool useFlexibleLock)] *)
Definition ct_ready (useFlexibleLock : bool) c w : outcome (ChunkTasks * World M * ReadyState) :=
  match ct_readyTask c with
  | Some _ => Ret (c, w, READY)
  | None =>
      match heap_top (ct_activeTasks c) with
      | None => Ret (c, w, NOT_READY)
      | Some task =>
          if negb (hasMemHandle w task) then
            let? (w1, granted) := acquire useFlexibleLock task w in
            let c1 := (ct_setResourceStarved (negb granted) c).1 in
            if granted then Ret (ct_promote task c1, w1, READY) else Ret (c1, w1, NO_RESOURCES)
          else Ret (ct_promote task c, w, READY)
      end
  end.

(** [wbase::Task::Ptr getTask(bool useFlexibleLock)] *)
Definition ct_getTask (useFlexibleLock : bool) c w : outcome (ChunkTasks * World M * option Task) :=
  let? (c1, w1, st) := ct_ready useFlexibleLock c w in
  match st with
  | READY =>
      match ct_readyTask c1 with
      | None => Raise UndefinedBehaviour
      | Some task =>
          let fl := if getChunkId task =? ct_chunkId c1 then {[t_ptr task]} ∪ ct_inFlightTasks c1
                    else ct_inFlightTasks c1 in
          Ret (mkChunkTasks (ct_chunkId c1) (ct_active c1) (ct_resourceStarved c1) None
                 (ct_activeTasks c1) (ct_pendingTasks c1) fl, w1, Some task)
      end
  | _ => Ret (c1, w1, None)
  end.
End chunk.

(** ** The tasks a chunk holds *)

Definition ct_tasks c : list Task :=
  option_list (ct_readyTask c) ++ ct_activeTasks c ++ ct_pendingTasks c.

Lemma heap_push_Permutation t l : heap_push t l ≡ₚ t :: l.
Proof. apply push_heap_Permutation. Qed.

Lemma heap_pop_Permutation t l : heap_top l = Some t -> t :: heap_pop l ≡ₚ l.
Proof. destruct l as [|x l]; intros [= <-]. apply pop_heap_Permutation. Qed.

Lemma foldl_push_Permutation p l : foldl (fun h t => heap_push t h) l p ≡ₚ l ++ p.
Proof.
  revert l. induction p as [|t p IH]; intros l; simpl; [by rewrite app_nil_r|].
  rewrite IH, heap_push_Permutation. by rewrite <- Permutation_middle.
Qed.

Lemma eraseFunc_Some q j l t rest :
  eraseFunc q j l = Some (t, rest) -> l ≡ₚ t :: rest /\ t_qId t = q /\ t_jId t = j.
Proof.
  revert rest. induction l as [|x l IH]; intros rest; simpl; [done|].
  destruct (idsMatch x q j) eqn:E.
  - intros [= <- <-]. apply andb_true_iff in E as [?%Z.eqb_eq ?%Z.eqb_eq]. auto.
  - destruct (eraseFunc q j l) as [[r rest']|]; [|done]. intros [= <- <-].
    destruct (IH rest' eq_refl) as (Hp & ? & ?). split; [|done]. rewrite Hp. constructor.
Qed.

Lemma eraseFunc_None q j l : eraseFunc q j l = None <-> Forall (fun t => idsMatch t q j = false) l.
Proof.
  induction l as [|x l IH]; simpl; [by split|]. rewrite Forall_cons.
  destruct (idsMatch x q j); [naive_solver|].
  destruct (eraseFunc q j l) as [[]|]; naive_solver.
Qed.

Lemma ct_queTask_tasks t c : ct_tasks (ct_queTask t c) ≡ₚ t :: ct_tasks c.
Proof.
  unfold ct_tasks, ct_queTask. destruct (ct_active c); simpl.
  - rewrite (assoc_L (++)), (assoc_L (++)). rewrite Permutation_app_comm. simpl. by rewrite (assoc_L (++)).
  - rewrite heap_push_Permutation. simpl. by rewrite <- Permutation_middle.
Qed.

Lemma ct_movePending_tasks c : ct_tasks (ct_movePendingToActive c) ≡ₚ ct_tasks c.
Proof. unfold ct_tasks. simpl. by rewrite app_nil_r, foldl_push_Permutation. Qed.

Lemma ct_setActive_tasks b c : ct_tasks (ct_setActive b c) ≡ₚ ct_tasks c.
Proof.
  unfold ct_setActive. destruct (ct_active c && negb b); [|done].
  rewrite <- (ct_movePending_tasks c). done.
Qed.

Lemma ct_removeTask_tasks t c c' r :
  ct_removeTask t c = (c', r) -> ct_tasks c ≡ₚ option_list r ++ ct_tasks c'.
Proof.
  unfold ct_removeTask, ct_tasks. destruct (eraseFunc _ _ (ct_activeTasks c)) as [[x rest]|] eqn:E.
  - intros [= <- <-]. simpl. apply eraseFunc_Some in E as (-> & _). rewrite make_heap_Permutation. simpl.
    by rewrite <- Permutation_middle.
  - destruct (eraseFunc _ _ (ct_pendingTasks c)) as [[x rest]|] eqn:E'; intros [= <- <-]; simpl; [|done].
    apply eraseFunc_Some in E' as (-> & _). rewrite !(assoc_L (++)). by rewrite <- Permutation_middle.
Qed.

Lemma ct_taskComplete_tasks t c : ct_tasks (ct_taskComplete t c) = ct_tasks c.
Proof. done. Qed.

Lemma ct_promote_tasks t c :
  ct_readyTask c = None -> heap_top (ct_activeTasks c) = Some t -> ct_tasks (ct_promote t c) ≡ₚ ct_tasks c.
Proof.
  intros Hn Ht. unfold ct_tasks. rewrite Hn. simpl. by rewrite app_comm_cons, heap_pop_Permutation.
Qed.
