(* ===== verification/ChunkTasksQueue.v ===== *)
(** * The shared scan queue

    [class ChunkTasksQueue] of [wsched/ChunkTasksQueue.h] and [.cc]: the
    chunks that have tasks, in a [std::map] by chunk id, and the cyclic scan
    over them.  The iterator [_activeChunk] and the pointer [_readyChunk] are
    modelled by the key of the chunk they designate ([None] is [end()], resp.
    [nullptr]); dereferencing a key without a chunk is undefined behaviour.

    The queue asks the scheduler that owns it, if any, how many chunks are
    being queried; it does not change it. *)

From S2P Require Import Prelude.
From S2P Require Import StdHeap.
From S2P Require Import ScanInfo.
From S2P Require Import MemMan.
From S2P Require Import Task.
From S2P Require Import SchedulerBase.
From S2P Require Import ChunkTasks.

Record ChunkTasksQueue := mkChunkTasksQueue {
  q_chunkMap : gmap Z ChunkTasks;
  q_activeChunk : option Z;
  q_readyChunk : option Z;
  q_taskCount : Z;
  q_resourceStarved : bool;
}.

Definition ChunkTasksQueue_ctor : ChunkTasksQueue := mkChunkTasksQueue ∅ None None 0 false.

Implicit Types (q : ChunkTasksQueue) (c : ChunkTasks) (t : Task) (k : Z).

Definition q_set_chunk k c q : ChunkTasksQueue :=
  mkChunkTasksQueue (<[k := c]> (q_chunkMap q)) (q_activeChunk q) (q_readyChunk q) (q_taskCount q)
    (q_resourceStarved q).
Definition q_set_active (a : option Z) q : ChunkTasksQueue :=
  mkChunkTasksQueue (q_chunkMap q) a (q_readyChunk q) (q_taskCount q) (q_resourceStarved q).
Definition q_set_ready (r : option Z) q : ChunkTasksQueue :=
  mkChunkTasksQueue (q_chunkMap q) (q_activeChunk q) r (q_taskCount q) (q_resourceStarved q).
Definition q_set_count (n : Z) q : ChunkTasksQueue :=
  mkChunkTasksQueue (q_chunkMap q) (q_activeChunk q) (q_readyChunk q) n (q_resourceStarved q).
(** [_chunkMap.erase(iter)] *)
Definition q_erase k q : ChunkTasksQueue :=
  mkChunkTasksQueue (delete k (q_chunkMap q)) (q_activeChunk q) (q_readyChunk q) (q_taskCount q)
    (q_resourceStarved q).

(** [iter->second] *)
Definition deref k q : outcome ChunkTasks :=
  match q_chunkMap q !! k with Some c => Ret c | None => Raise UndefinedBehaviour end.

(** [void queueTask(wbase::Task::Ptr const& task)] *)
Definition q_queueTask (task : Task) q : ChunkTasksQueue :=
  let chunkId := getChunkId task in
  let c := default (ChunkTasks_ctor chunkId) (q_chunkMap q !! chunkId) in
  q_set_chunk chunkId (ct_queTask task c) (q_set_count (q_taskCount q + 1) q).

(** [bool _empty() const] *)
Definition q_empty q : bool := bool_decide (q_chunkMap q = ∅).

(** [std::size_t getSize() const] *)
Definition q_getSize q : Z := q_taskCount q.

(** [bool setResourceStarved(bool starved)] *)
Definition q_setResourceStarved (starved : bool) q : ChunkTasksQueue * bool :=
  (mkChunkTasksQueue (q_chunkMap q) (q_activeChunk q) (q_readyChunk q) (q_taskCount q) starved,
   q_resourceStarved q).

(** [bool nextTaskDifferentChunkId()] *)
Definition q_nextTaskDifferentChunkId q : outcome bool :=
  match q_activeChunk q with
  | None => Ret true
  | Some k => let? c := deref k q in Ret (ct_readyToAdvance c)
  end.

(** [int getActiveChunkId()] *)
Definition q_getActiveChunkId q : outcome Z :=
  match q_activeChunk q with
  | None => Ret (-1)
  | Some k => let? c := deref k q in Ret (ct_chunkId c)
  end.

(** [void taskComplete(wbase::Task::Ptr const& task)] *)
Definition q_taskComplete (task : Task) q : ChunkTasksQueue :=
  match q_chunkMap q !! getChunkId task with
  | Some c => q_set_chunk (getChunkId task) (ct_taskComplete task c) q
  | None => q
  end.

(** [wbase::Task::Ptr removeTask(wbase::Task::Ptr const& task)] *)
Definition q_removeTask (task : Task) q : ChunkTasksQueue * option Task :=
  match q_chunkMap q !! getChunkId task with
  | None => (q, None)
  | Some c =>
      let '(c', r) := ct_removeTask task c in
      let q' := q_set_chunk (getChunkId task) c' q in
      (match r with Some _ => q_set_count (q_taskCount q' - 1) q' | None => q' end, r)
  end.

(** ** [_ready] *)

(** The first part of [_ready]: start at the beginning of the map when there
    is no active chunk. *)
Definition start_active (first : Z) q : outcome (ChunkTasksQueue * Z) :=
  match q_activeChunk q with
  | Some k => Ret (q, k)
  | None =>
      let? c := deref first q in
      Ret (q_set_chunk first (ct_setActive true c) (q_set_active (Some first) q), first)
  end.

(** The part of [_ready] that advances the active chunk from [k]; the result
    is the new active chunk, [None] when the map became empty. *)
Definition advance k q : outcome (ChunkTasksQueue * option Z) :=
  let newActive := cyc_next (q_chunkMap q) k in
  let? c := deref k q in
  let c1 := ct_setActive false c in
  let q1 := q_set_chunk k c1 q in
  let '(q2, newActive2) :=
    if ct_empty c1 then
      (q_erase k q1, if decide (newActive = Some k) then None else newActive)
    else (q1, newActive) in
  let q3 := q_set_active newActive2 q2 in
  match newActive2 with
  | None => Ret (q3, None)
  | Some n =>
      let? cn := deref n q3 in
      Ret (q_set_chunk n (ct_setActive true (ct_movePendingToActive cn)) q3, Some n)
  end.

(** The test on the number of active chunks. *)
Definition limit_reached (scheduler : option SchedulerBase) newChunkId : bool :=
  match scheduler with
  | None => false
  | Some s => (b_maxActiveChunks s <=? getActiveChunkCount s) && negb (chunkAlreadyActive newChunkId s)
  end.

Section ready.
Context {M : Type} `{HM : MemMan M}.
Implicit Types (w : World M).

(** [iter->second->ready(useFlexibleLock)] *)
Definition chunk_ready (flex : bool) k q w : outcome (ChunkTasksQueue * World M * ReadyState) :=
  let? c := deref k q in
  let? (c', w', st) := ct_ready flex c w in
  Ret (q_set_chunk k c' q, w', st).

(** The [while] loop of [_ready] and what follows it: [start] is the active
    chunk, [iter] the chunk looked at last and [st] its state. *)
Fixpoint scan (fuel : nat) (flex : bool) (scheduler : option SchedulerBase) (start iter : Z)
    (st : ReadyState) q w : outcome (ChunkTasksQueue * World M * bool) :=
  match st with
  | READY => Ret (q_set_ready (Some iter) q, w, true)
  | NO_RESOURCES => Ret (q, w, false)
  | NOT_READY =>
      match fuel with
      | O => Raise OutOfFuel
      | S n =>
          match cyc_next (q_chunkMap q) iter with
          | None => Raise UndefinedBehaviour
          | Some iter' =>
              if decide (iter' = start) then Ret (q, w, false)
              else
                let? c := deref iter' q in
                if limit_reached scheduler (ct_chunkId c) then Ret (q, w, false)
                else
                  let? (q', w', st') := chunk_ready flex iter' q w in
                  scan n flex scheduler start iter' st' q' w'
          end
      end
  end.

(** [bool _ready(bool useFlexibleLock)] *)
Definition q_ready (flex : bool) (scheduler : option SchedulerBase) q w
    : outcome (ChunkTasksQueue * World M * bool) :=
  match q_readyChunk q with
  | Some _ => Ret (q, w, true)
  | None =>
      match first_key (q_chunkMap q) with
      | None => Ret (q, w, false)
      | Some first =>
          let? (q1, k) := start_active first q in
          let? (q2, w2, st) := chunk_ready flex k q1 w in
          match st with
          | READY => Ret (q_set_ready (Some k) q2, w2, true)
          | _ =>
              let? c := deref k q2 in
              let? (q3, k3) :=
                (if ct_readyToAdvance c then advance k q2 else Ret (q2, Some k)) in
              match k3 with
              | None => Ret (q3, w2, false)
              | Some n =>
                  let? (q4, w4, st4) := chunk_ready flex n q3 w2 in
                  scan (size (q_chunkMap q4)) flex scheduler n n st4 q4 w4
              end
          end
      end
  end.

(** [wbase::Task::Ptr getTask(bool useFlexibleLock)] *)
Definition q_getTask (flex : bool) (scheduler : option SchedulerBase) q w
    : outcome (ChunkTasksQueue * World M * option Task) :=
  let? (q1, w1, rdy) := q_ready flex scheduler q w in
  match q_readyChunk q1 with
  | None => Ret (q1, w1, None)
  | Some k =>
      let? c := deref k q1 in
      let? (c', w2, task) := ct_getTask flex c w1 in
      Ret (q_set_count (q_taskCount q1 - 1) (q_set_ready None (q_set_chunk k c' q1)), w2, task)
  end.
End ready.
