(* ===== verification/ChunkTasksQueueInv.v ===== *)
(** * The shared scan queue: invariant and behaviour of [_ready]

    Proved against the contract of the memory manager ([MemManLaws]), hence
    for [MemManReal] and [MemManNone]. *)

From S2P Require Import Prelude.
From S2P Require Import StdHeap.
From S2P Require Import ScanInfo.
From S2P Require Import MemMan.
From S2P Require Import MemManInv.
From S2P Require Import MemManLaws.
From S2P Require Import Task.
From S2P Require Import SchedulerBase.
From S2P Require Import ChunkTasks.
From S2P Require Import ChunkTasksQueue.

Implicit Types (q : ChunkTasksQueue) (c : ChunkTasks) (t : Task) (k : Z).

(** ** Effects on the world *)

Section grant.
Context {M : Type} `{HM : MemMan M} `{HL : !MemManLaws M}.
Implicit Types (w : World M).

(** The manager is in order and can number another handle. *)
Definition world_ok w : Prop := mm_inv (w_mm w) /\ mm_room (w_mm w).

(** [grant w w' o]: from [w] to [w'] the task [o], if any, got a handle that
    nobody had; nothing else changed for tasks and handles. *)
Definition grant w w' (o : option Task) : Prop :=
  mm_inv (w_mm w') /\
  match o with
  | None => w_tasks w' = w_tasks w /\ mm_live (w_mm w') = mm_live (w_mm w) /\
      mm_last (w_mm w') = mm_last (w_mm w)
  | Some t => exists h, hasMemHandle w t = false /\ w_tasks w' = w_tasks (setMemHandle t h w) /\
      ((h = HandleType.ISEMPTY /\ mm_live (w_mm w') = mm_live (w_mm w) /\
          mm_last (w_mm w') = mm_last (w_mm w)) \/
       (1 < h /\ mm_last (w_mm w) < h /\ mm_last (w_mm w') = h /\
          mm_live (w_mm w') = {[h]} ∪ mm_live (w_mm w)))
  end.

Lemma handle_cong w w' t : w_tasks w = w_tasks w' -> getMemHandle w t = getMemHandle w' t.
Proof. unfold getMemHandle, vars. by intros ->. Qed.

Lemma has_cong w w' t : w_tasks w = w_tasks w' -> hasMemHandle w t = hasMemHandle w' t.
Proof. intros Hw. unfold hasMemHandle. by rewrite (handle_cong w w'). Qed.

Lemma grant_refl w : mm_inv (w_mm w) -> grant w w None.
Proof. split; auto. Qed.

Lemma grant_trans w w1 w2 o : grant w w1 None -> grant w1 w2 o -> grant w w2 o.
Proof.
  intros (_ & Ht & Hl & Hla) (Hi & Ho). split; [done|]. destruct o as [t|].
  - destruct Ho as (h & Hh & Ht' & Hor). exists h. rewrite <- (has_cong w1 w) by done. split; [done|].
    split; [|by rewrite <- Hl, <- Hla]. rewrite Ht'. unfold setMemHandle, set_vars, vars. simpl. by rewrite Ht.
  - destruct Ho as (Ht' & Hl' & Hla'). repeat split; congruence.
Qed.

Lemma grant_has w w' t : grant w w' (Some t) -> hasMemHandle w' t = true.
Proof.
  intros (_ & h & _ & Ht & Hor). apply hasMemHandle_spec. rewrite (handle_cong _ _ t Ht).
  rewrite getMemHandle_set, decide_True by done. unfold HandleType.ISEMPTY, HandleType.INVALID in *. lia.
Qed.

Lemma acquire_spec flex t w :
  world_ok w -> hasMemHandle w t = false ->
  acquire flex t w = Raise BadException \/
  exists w' b, acquire flex t w = Ret (w', b) /\
    (if b then grant w w' (Some t) else grant w w' None /\ world_ok w').
Proof.
  intros [Hi Hr] Hn. unfold acquire.
  destruct (mm_prepare_ok (tblVect flex t) (getChunkId t) (w_mm w) Hi Hr) as (m & h & e & -> & Hi' & Hor).
  simpl. destruct (Z.eqb_spec h 0) as [->|Hne].
  - destruct Hor as [(_ & _ & Hl & Hla & Hr')|[(? & _)|(? & _)]]; [|done|lia].
    destruct (Z.eqb_spec e ENOMEM); [right; eexists _, _; split; [done|]; done|].
    destruct (Z.eqb_spec e ENOENT); [|by left].
    right. eexists _, _. split; [done|]. split; [done|]. eexists. split; [done|]. split; [done|]. by left.
  - right. eexists _, _. split; [done|]. split; [done|]. exists h. split; [done|]. split; [done|].
    destruct Hor as [(? & _)|[(? & ?)|(? & ? & ?)]]; [done|by left|by right].
Qed.

(** ** [ChunkTasks::ready] *)

(** What [ready] leaves alone. *)
Definition ct_frame c c' : Prop :=
  ct_chunkId c' = ct_chunkId c /\ ct_active c' = ct_active c /\
  ct_pendingTasks c' = ct_pendingTasks c /\ ct_inFlightTasks c' = ct_inFlightTasks c.

Definition ct_ready_post c w c' w' (st : ReadyState) : Prop :=
  match st with
  | READY => exists t, ct_readyTask c' = Some t /\ heap_top (ct_activeTasks c) = Some t /\
      hasMemHandle w' t = true /\ (w' = w \/ grant w w' (Some t))
  | NOT_READY => c' = c /\ w' = w /\ ct_activeTasks c = []
  | NO_RESOURCES => ct_readyTask c' = None /\ ct_activeTasks c' = ct_activeTasks c /\
      ct_activeTasks c <> [] /\ ct_resourceStarved c' = true /\ grant w w' None /\ world_ok w'
  end.

Lemma ct_ready_spec flex c w :
  world_ok w -> ct_readyTask c = None ->
  ct_ready flex c w = Raise BadException \/
  exists c' w' st, ct_ready flex c w = Ret (c', w', st) /\ ct_frame c c' /\ ct_tasks c' ≡ₚ ct_tasks c /\
    ct_ready_post c w c' w' st.
Proof.
  intros Hok Hn. unfold ct_ready. rewrite Hn.
  destruct (heap_top (ct_activeTasks c)) as [t|] eqn:Ht; simpl.
  2: { right. eexists _, _, _. split; [done|]. split; [done|]. split; [done|]. split; [done|].
       split; [done|]. by destruct (ct_activeTasks c). }
  destruct (hasMemHandle w t) eqn:Hh; simpl.
  { right. eexists _, _, _. split; [done|]. split; [done|]. split; [by apply ct_promote_tasks|].
    exists t. auto. }
  destruct (acquire_spec flex t w Hok Hh) as [->|(w' & b & -> & Hb)]; [by left|right]. simpl.
  destruct b; (eexists _, _, _; split; [done|]; split; [done|]; split).
  - rewrite ct_promote_tasks by done. done.
  - exists t. split; [done|]. split; [done|]. split; [by eapply grant_has|auto].
  - unfold ct_tasks. simpl. by rewrite Hn.
  - destruct Hb as [Hg Hok']. simpl. split; [done|]. split; [done|].
    split; [by destruct (ct_activeTasks c)|]. auto.
Qed.
End grant.

(** ** The tasks of a queue *)

(** What the chunks of a map hold, by [f]. *)
Section mcollect.
Context {K : Type} `{Countable K} {B A : Type} (f : B -> list A).
Implicit Types (m : gmap K B).

Definition mcollect m : list A := map_to_list m ≫= (fun p => f p.2).

Lemma mcollect_empty : mcollect ∅ = [].
Proof. unfold mcollect. by rewrite map_to_list_empty. Qed.

Lemma mcollect_insert m (k : K) (c : B) : m !! k = None -> mcollect (<[k := c]> m) ≡ₚ f c ++ mcollect m.
Proof. intros Hk. unfold mcollect. by rewrite map_to_list_insert by done. Qed.

Lemma mcollect_lookup m (k : K) (c : B) : m !! k = Some c -> mcollect m ≡ₚ f c ++ mcollect (delete k m).
Proof.
  intros Hk. rewrite <- (insert_delete_id m k c Hk) at 1.
  by rewrite mcollect_insert by apply lookup_delete_eq.
Qed.

Lemma elem_of_mcollect m x : x ∈ mcollect m <-> exists (k : K) (c : B), m !! k = Some c /\ x ∈ f c.
Proof.
  unfold mcollect. rewrite list_elem_of_bind. split.
  - intros ([k c] & Hx & Hin). apply elem_of_map_to_list in Hin. eauto.
  - intros (k & c & Hk & Hx). exists (k, c). split; [done|]. by apply elem_of_map_to_list.
Qed.

Lemma mcollect_nil m : (forall (k : K) (c : B), m !! k = Some c -> f c = []) -> mcollect m = [].
Proof.
  intros Hm. destruct (mcollect m) as [|x l] eqn:E; [done|exfalso].
  assert (Hx : x ∈ mcollect m) by (rewrite E; left).
  apply elem_of_mcollect in Hx as (k & c & Hk & Hin). rewrite (Hm k c Hk) in Hin. set_solver.
Qed.

Lemma mcollect_update m (k : K) (c : B) : mcollect (<[k := c]> m) ≡ₚ f c ++ mcollect (delete k m).
Proof. rewrite (mcollect_lookup _ k c) by apply lookup_insert_eq. by rewrite delete_insert_eq. Qed.
End mcollect.

Definition mtasks : gmap Z ChunkTasks -> list Task := mcollect ct_tasks.
Definition q_tasks q : list Task := mtasks (q_chunkMap q).

Lemma mtasks_empty : mtasks ∅ = [].
Proof. apply mcollect_empty. Qed.

Lemma mtasks_lookup m k c : m !! k = Some c -> mtasks m ≡ₚ ct_tasks c ++ mtasks (delete k m).
Proof. apply mcollect_lookup. Qed.

Lemma mtasks_update m k c : mtasks (<[k := c]> m) ≡ₚ ct_tasks c ++ mtasks (delete k m).
Proof. apply mcollect_update. Qed.

Lemma mtasks_same m k c c' :
  m !! k = Some c -> ct_tasks c' ≡ₚ ct_tasks c -> mtasks (<[k := c']> m) ≡ₚ mtasks m.
Proof. intros Hk Hc. rewrite mtasks_update, (mtasks_lookup m k c Hk). by rewrite Hc. Qed.

(** ** The invariant *)

Record chunk_ok (act rdy : option Z) k c : Prop := {
  ok_id : ct_chunkId c = k;
  ok_tasks : Forall (fun t => getChunkId t = k) (ct_tasks c);
  ok_active : ct_active c = bool_decide (act = Some k);
  ok_pending : ct_active c = false -> ct_pendingTasks c = [];
  ok_ready : is_Some (ct_readyTask c) <-> rdy = Some k;
}.

Record queue_inv q : Prop := {
  qi_chunks : map_Forall (chunk_ok (q_activeChunk q) (q_readyChunk q)) (q_chunkMap q);
  qi_active : forall k, q_activeChunk q = Some k -> is_Some (q_chunkMap q !! k);
  qi_ready : forall k, q_readyChunk q = Some k -> is_Some (q_chunkMap q !! k);
  qi_count : q_taskCount q = Z.of_nat (length (q_tasks q));
}.

Lemma deref_Some k q c : q_chunkMap q !! k = Some c -> deref k q = Ret c.
Proof. unfold deref. by intros ->. Qed.

(** Replacing the chunk [k] by one that is in order and holds the same tasks. *)
Lemma queue_inv_set_chunk k c c' q :
  queue_inv q -> q_chunkMap q !! k = Some c -> ct_tasks c' ≡ₚ ct_tasks c ->
  chunk_ok (q_activeChunk q) (q_readyChunk q) k c' -> queue_inv (q_set_chunk k c' q).
Proof.
  intros [Hc Ha Hr Hn] Hk Ht Hok. split; simpl.
  - by apply map_Forall_insert_2.
  - intros j Hj. apply lookup_insert_is_Some'. auto.
  - intros j Hj. apply lookup_insert_is_Some'. auto.
  - rewrite Hn. unfold q_tasks. simpl. by rewrite (mtasks_same _ _ _ _ Hk Ht).
Qed.

Lemma q_set_chunk_id k c q : q_chunkMap q !! k = Some c -> q_set_chunk k c q = q.
Proof. intros Hk. unfold q_set_chunk. rewrite insert_id by done. by destruct q. Qed.

(** ** The operations that do not ask the memory manager *)

Lemma chunk_ok_cong act rdy k c c' :
  chunk_ok act rdy k c -> ct_chunkId c' = ct_chunkId c -> ct_active c' = ct_active c ->
  ct_readyTask c' = ct_readyTask c -> Forall (fun t => getChunkId t = k) (ct_tasks c') ->
  (ct_active c = false -> ct_pendingTasks c' = []) -> chunk_ok act rdy k c'.
Proof. intros [] ? Ha Hr ? ?. split; rewrite ?Ha, ?Hr; auto. congruence. Qed.

Lemma queue_inv_ctor : queue_inv ChunkTasksQueue_ctor.
Proof. split; simpl; [apply map_Forall_empty|done|done|]. reflexivity. Qed.

Lemma queueTask_tasks t q : q_tasks (q_queueTask t q) ≡ₚ t :: q_tasks q.
Proof.
  unfold q_tasks, q_queueTask. simpl. rewrite mtasks_update, ct_queTask_tasks.
  destruct (q_chunkMap q !! getChunkId t) as [c|] eqn:E; simpl.
  - by rewrite (mtasks_lookup _ _ _ E).
  - by rewrite delete_id.
Qed.

Lemma queueTask_inv t q : queue_inv q -> queue_inv (q_queueTask t q).
Proof.
  intros [Hc Ha Hr Hn]. split.
  - simpl. apply map_Forall_insert_2; [|done].
    assert (Hok : chunk_ok (q_activeChunk q) (q_readyChunk q) (getChunkId t)
                    (default (ChunkTasks_ctor (getChunkId t)) (q_chunkMap q !! getChunkId t))).
    { destruct (q_chunkMap q !! getChunkId t) as [c|] eqn:E; simpl; [by apply Hc|].
      split; simpl; auto.
      - symmetry. apply bool_decide_eq_false. intros Hk. apply Ha in Hk. rewrite E in Hk. by destruct Hk.
      - split; [by intros []|]. intros Hk. apply Hr in Hk. rewrite E in Hk. by destruct Hk. }
    revert Hok. generalize (default (ChunkTasks_ctor (getChunkId t)) (q_chunkMap q !! getChunkId t)).
    intros c Hok. eapply chunk_ok_cong; [exact Hok| | | | |];
      try (unfold ct_queTask; destruct (ct_active c) eqn:?; done).
    + rewrite ct_queTask_tasks. constructor; [done|]. apply Hok.
    + unfold ct_queTask. intros Hact. rewrite Hact. simpl. by apply Hok.
  - intros k Hk. simpl. apply lookup_insert_is_Some'. right. by apply Ha.
  - intros k Hk. simpl. apply lookup_insert_is_Some'. right. by apply Hr.
  - rewrite queueTask_tasks. simpl. rewrite Hn. lia.
Qed.

Lemma taskComplete_tasks t q : q_tasks (q_taskComplete t q) ≡ₚ q_tasks q.
Proof.
  unfold q_tasks, q_taskComplete. destruct (q_chunkMap q !! getChunkId t) as [c|] eqn:E; [|done].
  by apply (mtasks_same _ _ c).
Qed.

Lemma taskComplete_inv t q : queue_inv q -> queue_inv (q_taskComplete t q).
Proof.
  intros Hq. unfold q_taskComplete. destruct (q_chunkMap q !! getChunkId t) as [c|] eqn:E; [|done].
  apply (queue_inv_set_chunk _ c); [done..|]. pose proof (qi_chunks _ Hq _ _ E) as Hok.
  eapply chunk_ok_cong; [exact Hok|done|done|done| |]; apply Hok.
Qed.

Lemma removeTask_tasks t q q' r : q_removeTask t q = (q', r) -> q_tasks q ≡ₚ option_list r ++ q_tasks q'.
Proof.
  unfold q_removeTask, q_tasks. destruct (q_chunkMap q !! getChunkId t) as [c|] eqn:E; [|by intros [= <- <-]].
  destruct (ct_removeTask t c) as [c' r'] eqn:Er. intros [= <- <-].
  apply ct_removeTask_tasks in Er. rewrite (mtasks_lookup _ _ _ E), Er, <- (assoc_L (++)).
  destruct r'; simpl; by rewrite mtasks_update.
Qed.

Lemma ct_removeTask_frame t c c' r :
  ct_removeTask t c = (c', r) -> ct_chunkId c' = ct_chunkId c /\ ct_active c' = ct_active c /\
    ct_readyTask c' = ct_readyTask c /\ (ct_pendingTasks c = [] -> ct_pendingTasks c' = []).
Proof.
  unfold ct_removeTask. destruct (eraseFunc _ _ (ct_activeTasks c)) as [[]|]; [by intros [= <- <-]|].
  destruct (eraseFunc _ _ (ct_pendingTasks c)) as [[]|] eqn:E; intros [= <- <-]; [|done].
  repeat split; try done. simpl. intros Hp. by rewrite Hp in E.
Qed.

Lemma removeTask_inv t q q' r : queue_inv q -> q_removeTask t q = (q', r) -> queue_inv q'.
Proof.
  intros Hq Heq. pose proof (removeTask_tasks _ _ _ _ Heq) as Hperm. unfold q_removeTask in Heq.
  destruct (q_chunkMap q !! getChunkId t) as [c|] eqn:E; [|by injection Heq as <- <-].
  destruct (ct_removeTask t c) as [c' r'] eqn:Er. injection Heq as <- <-.
  pose proof (qi_chunks _ Hq _ _ E) as Hok. pose proof Hq as [Hc Ha Hr Hn].
  assert (Hok' : chunk_ok (q_activeChunk q) (q_readyChunk q) (getChunkId t) c').
  { pose proof (ct_removeTask_frame _ _ _ _ Er) as (? & ? & ? & Hp).
    eapply chunk_ok_cong; [exact Hok|done|done|done| |intros ?; by apply Hp, Hok].
    pose proof (ok_tasks _ _ _ _ Hok) as Hf. rewrite (ct_removeTask_tasks _ _ _ _ Er) in Hf.
    by apply Forall_app in Hf as [_ ?]. }
  apply Permutation_length in Hperm. rewrite length_app in Hperm.
  destruct r' as [x|]; (split; simpl;
    [by apply map_Forall_insert_2
    |intros j Hj; apply lookup_insert_is_Some'; auto|intros j Hj; apply lookup_insert_is_Some'; auto|]).
  all: simpl in Hperm; unfold q_tasks in *; simpl in *; lia.
Qed.

(** ** The parts of [_ready] *)

Definition active_tasks q k : list Task :=
  match q_chunkMap q !! k with Some c => ct_activeTasks c | None => [] end.
Definition pending_tasks q k : list Task :=
  match q_chunkMap q !! k with Some c => ct_pendingTasks c | None => [] end.

(** [q'] has the same chunks, tasks, active chunk and pending tasks. *)
Record same_tasks q q' : Prop := {
  sm_dom : dom (q_chunkMap q') = dom (q_chunkMap q);
  sm_tasks : q_tasks q' ≡ₚ q_tasks q;
  sm_active : q_activeChunk q' = q_activeChunk q;
  sm_pending : forall k, pending_tasks q' k = pending_tasks q k;
}.

#[export] Instance same_tasks_preorder : PreOrder same_tasks.
Proof.
  split.
  - intros q. by split.
  - intros q1 q2 q3 [? H1 ? ?] [? H2 ? ?]. split; [congruence|by rewrite H2|congruence|congruence].
Qed.

Section parts.
Context {M : Type} `{HM : MemMan M} `{HL : !MemManLaws M}.
Implicit Types (w : World M).

Definition chunk_ready_post k q w q' w' (st : ReadyState) : Prop :=
  match st with
  | READY => queue_inv (q_set_ready (Some k) q') /\
      exists c t, q_chunkMap q' !! k = Some c /\ ct_readyTask c = Some t /\
        heap_top (active_tasks q k) = Some t /\ hasMemHandle w' t = true /\
        (w' = w \/ grant w w' (Some t))
  | NOT_READY => q' = q /\ w' = w /\ active_tasks q k = []
  | NO_RESOURCES => queue_inv q' /\ grant w w' None /\ world_ok w' /\
      exists c, q_chunkMap q' !! k = Some c /\ ct_resourceStarved c = true /\ ct_activeTasks c <> [] /\
        active_tasks q k = ct_activeTasks c
  end.

Lemma chunk_ready_spec flex k q w :
  world_ok w -> queue_inv q -> q_readyChunk q = None -> is_Some (q_chunkMap q !! k) ->
  chunk_ready flex k q w = Raise BadException \/
  exists q' w' st, chunk_ready flex k q w = Ret (q', w', st) /\ same_tasks q q' /\
    q_readyChunk q' = None /\ (forall j, j <> k -> q_chunkMap q' !! j = q_chunkMap q !! j) /\
    chunk_ready_post k q w q' w' st.
Proof.
  intros Hw Hq Hrdy [c Hk]. pose proof (qi_chunks _ Hq _ _ Hk) as Hok.
  unfold chunk_ready. rewrite (deref_Some _ _ _ Hk). simpl.
  assert (Hn : ct_readyTask c = None).
  { destruct (ct_readyTask c) eqn:E; [|done]. destruct Hok as [_ _ _ _ [Hr _]].
    rewrite E in Hr. rewrite Hr in Hrdy by eauto. done. }
  destruct (ct_ready_spec flex c w Hw Hn) as [->|(c' & w' & st & -> & (Hi & Ha & Hp & Hf) & Ht & Hpost)];
    [by left|right]. simpl.
  eexists _, _, _. split; [done|]. split; [|split; [done|split; [intros j Hj; simpl; by rewrite lookup_insert_ne|]]].
  { split; simpl; [by rewrite dom_insert_lookup_L by (rewrite Hk; eauto)|by apply (mtasks_same _ _ c)|done|].
    intros j. unfold pending_tasks. simpl. destruct (decide (k = j)) as [<-|Hne];
      [by rewrite lookup_insert_eq, Hk, Hp|by rewrite lookup_insert_ne]. }
  unfold chunk_ready_post, active_tasks. rewrite Hk.
  assert (Hforall : Forall (fun t => getChunkId t = k) (ct_tasks c')) by (rewrite Ht; apply Hok).
  destruct st.
  - destruct Hpost as (t & Hrt & Htop & Hh & Hg). split.
    + destruct Hq as [Hc Hact _ Hcnt]. split; simpl.
      * intros j cj [(<- & <-)|(Hne & Hj)]%lookup_insert_Some.
        -- split; rewrite ?Hi, ?Ha, ?Hp, ?Hrt; try apply Hok; auto. by split.
        -- destruct (Hc j cj Hj) as [Hjid Hjt Hja Hjp Hjr]. split; auto.
           rewrite Hrdy in Hjr. rewrite Hjr. split; [done|]. intros [= ->]. done.
      * intros j Hj. apply lookup_insert_is_Some'. auto.
      * intros j [= <-]. apply lookup_insert_is_Some'. auto.
      * rewrite Hcnt. unfold q_tasks. simpl. by rewrite (mtasks_same _ _ c).
    + exists c', t. simpl. rewrite lookup_insert_eq. auto.
  - destruct Hpost as (-> & -> & Hnil). by rewrite q_set_chunk_id.
  - destruct Hpost as (Hrt & Hat & Hne & Hst & Hg & Hw'). split.
    + apply (queue_inv_set_chunk _ c); auto. eapply chunk_ok_cong; eauto; [congruence|].
      rewrite Hp. apply Hok.
    + split; [done|]. split; [done|]. exists c'. simpl. rewrite lookup_insert_eq, Hat. auto.
Qed.
End parts.

(** Making the first chunk active *)

Lemma start_active_spec first q :
  queue_inv q -> first_key (q_chunkMap q) = Some first ->
  exists q' k, start_active first q = Ret (q', k) /\ queue_inv q' /\ q_readyChunk q' = q_readyChunk q /\
    dom (q_chunkMap q') = dom (q_chunkMap q) /\ q_tasks q' ≡ₚ q_tasks q /\ q_activeChunk q' = Some k /\
    (forall j, active_tasks q' j = active_tasks q j).
Proof.
  intros Hq Hf. unfold start_active. destruct (q_activeChunk q) as [k|] eqn:Ha.
  { eexists _, _. split; [done|]. auto 10. }
  apply first_key_spec in Hf as [[c Hc] _]. rewrite (deref_Some _ _ _ Hc). simpl.
  pose proof (qi_chunks _ Hq _ _ Hc) as Hok. pose proof (ok_active _ _ _ _ Hok) as Hact.
  rewrite Ha in Hact. rewrite bool_decide_eq_false_2 in Hact by done.
  assert (Hset : ct_setActive true c = mkChunkTasks (ct_chunkId c) true (ct_resourceStarved c)
            (ct_readyTask c) (ct_activeTasks c) (ct_pendingTasks c) (ct_inFlightTasks c)).
  { unfold ct_setActive. by rewrite Hact. }
  assert (Htk : mtasks (<[first := ct_setActive true c]> (q_chunkMap q)) ≡ₚ mtasks (q_chunkMap q)).
  { apply (mtasks_same _ _ c); [done|]. apply ct_setActive_tasks. }
  rewrite Hset in *. eexists _, _. split; [done|]. split; [|split; [done|split; [|split; [done|split; [done|]]]]].
  - split; simpl.
    + intros j cj [(<- & <-)|(Hne & Hj)]%lookup_insert_Some.
      * destruct Hok. split; simpl; auto. by rewrite bool_decide_eq_true_2.
      * destruct (qi_chunks _ Hq _ _ Hj) as [? ? Hja ? ?]. split; auto.
        rewrite Hja, Ha. by rewrite !bool_decide_eq_false_2 by congruence.
    + intros j [= <-]. apply lookup_insert_is_Some'. auto.
    + intros j Hj. apply lookup_insert_is_Some'. right. by apply (qi_ready _ Hq).
    + rewrite (qi_count _ Hq). unfold q_tasks. simpl. by rewrite Htk.
  - simpl. by rewrite dom_insert_lookup_L by (rewrite Hc; eauto).
  - intros j. unfold active_tasks. simpl. destruct (decide (first = j)) as [<-|Hne].
    + by rewrite lookup_insert_eq, Hc.
    + by rewrite lookup_insert_ne.
Qed.

(** Advancing the active chunk: the old one becomes inactive, is erased when
    nothing is left in it, and the next chunk becomes active. *)

Lemma deactivate_inv k c q :
  queue_inv q -> q_activeChunk q = Some k -> q_chunkMap q !! k = Some c ->
  queue_inv (q_set_active None (q_set_chunk k (ct_setActive false c) q)).
Proof.
  intros Hq Ha Hk. pose proof (qi_chunks _ Hq _ _ Hk) as Hok.
  pose proof (ct_setActive_tasks false c) as Ht. split; simpl.
  - intros j cj [(<- & <-)|(Hne & Hj)]%lookup_insert_Some.
    + pose proof Hok as [Hid Hts Hact Hp Hr]. rewrite Ha, bool_decide_eq_true_2 in Hact by done.
      split; [|by rewrite Ht| | |]; unfold ct_setActive; rewrite Hact; simpl; auto.
    + destruct (qi_chunks _ Hq _ _ Hj) as [? ? Hja ? ?]. split; auto.
      rewrite Hja, Ha. by rewrite !bool_decide_eq_false_2 by congruence.
  - done.
  - intros j Hj. apply lookup_insert_is_Some'. right. by apply (qi_ready _ Hq).
  - rewrite (qi_count _ Hq). unfold q_tasks. simpl. by rewrite (mtasks_same _ _ c).
Qed.

Lemma erase_inv k c q :
  queue_inv q -> q_activeChunk q = None -> q_readyChunk q = None ->
  q_chunkMap q !! k = Some c -> ct_tasks c = [] ->
  queue_inv (q_erase k q) /\ q_tasks (q_erase k q) ≡ₚ q_tasks q.
Proof.
  intros Hq Ha Hr Hk Hc.
  assert (Ht : q_tasks (q_erase k q) ≡ₚ q_tasks q).
  { unfold q_tasks. simpl. by rewrite (mtasks_lookup _ _ _ Hk), Hc. }
  split; [|done]. split; simpl.
  - apply map_Forall_delete. apply Hq.
  - rewrite Ha. done.
  - rewrite Hr. done.
  - by rewrite Ht, (qi_count _ Hq).
Qed.

Lemma activate_inv n c q :
  queue_inv q -> q_activeChunk q = None -> q_chunkMap q !! n = Some c ->
  queue_inv (q_set_chunk n (ct_setActive true (ct_movePendingToActive c)) (q_set_active (Some n) q)).
Proof.
  intros Hq Ha Hn. pose proof (qi_chunks _ Hq _ _ Hn) as Hok.
  assert (Ht : ct_tasks (ct_setActive true (ct_movePendingToActive c)) ≡ₚ ct_tasks c).
  { by rewrite ct_setActive_tasks, ct_movePending_tasks. }
  split; simpl.
  - intros j cj [(<- & <-)|(Hne & Hj)]%lookup_insert_Some.
    + pose proof Hok as [Hid Hts Hact Hp Hr]. rewrite Ha, bool_decide_eq_false_2 in Hact by done.
      split; [|by rewrite Ht| | |]; unfold ct_setActive; simpl; rewrite ?Hact; simpl; auto.
      by rewrite bool_decide_eq_true_2.
    + destruct (qi_chunks _ Hq _ _ Hj) as [? ? Hja ? ?]. split; auto.
      rewrite Hja, Ha. by rewrite !bool_decide_eq_false_2 by congruence.
  - intros j [= <-]. apply lookup_insert_is_Some'. auto.
  - intros j Hj. apply lookup_insert_is_Some'. right. by apply (qi_ready _ Hq).
  - rewrite (qi_count _ Hq). unfold q_tasks. simpl. by rewrite (mtasks_same _ _ c).
Qed.

Definition advance_post k q q' (o : option Z) : Prop :=
  match o with
  | None => q_tasks q = [] /\ q_chunkMap q' = ∅
  | Some n => cyc_next (q_chunkMap q) k = Some n /\
      exists c, q_chunkMap q' !! n = Some c /\ ct_pendingTasks c = []
  end.

Lemma ct_empty_tasks c : ct_readyTask c = None -> ct_empty c = true -> ct_tasks c = [].
Proof.
  unfold ct_empty, ct_tasks. intros ->. destruct (ct_activeTasks c), (ct_pendingTasks c); done.
Qed.

(** Making [n] active from a queue without active chunk. *)
Lemma activate_step k n q q1 :
  queue_inv q1 -> q_activeChunk q1 = None -> q_readyChunk q1 = None -> q_tasks q1 ≡ₚ q_tasks q ->
  cyc_next (q_chunkMap q) k = Some n -> is_Some (q_chunkMap q1 !! n) ->
  exists q', (let? cn := deref n (q_set_active (Some n) q1) in
              Ret (q_set_chunk n (ct_setActive true (ct_movePendingToActive cn)) (q_set_active (Some n) q1), Some n))
             = Ret (q', Some n) /\
    queue_inv q' /\ q_readyChunk q' = None /\ q_tasks q' ≡ₚ q_tasks q /\ q_activeChunk q' = Some n /\
    advance_post k q q' (Some n).
Proof.
  intros Hq Ha Hr Ht Hn [c Hc]. rewrite (deref_Some n _ c) by done. simpl. eexists. split; [done|].
  split; [by apply activate_inv|]. split; [done|]. split; [|split; [done|]].
  - rewrite <- Ht. unfold q_tasks. simpl. apply (mtasks_same _ _ c); [done|].
    by rewrite ct_setActive_tasks, ct_movePending_tasks.
  - split; [done|]. simpl. eexists. rewrite lookup_insert_eq. split; [done|].
    unfold ct_setActive. simpl. by rewrite andb_false_r.
Qed.

Lemma advance_spec k c q :
  queue_inv q -> q_readyChunk q = None -> q_activeChunk q = Some k -> q_chunkMap q !! k = Some c ->
  exists q' o, advance k q = Ret (q', o) /\ queue_inv q' /\ q_readyChunk q' = None /\
    q_tasks q' ≡ₚ q_tasks q /\ q_activeChunk q' = o /\ advance_post k q q' o.
Proof.
  intros Hq Hr Ha Hk. unfold advance. rewrite (deref_Some _ _ _ Hk). simpl.
  set (c1 := ct_setActive false c). set (q1 := q_set_active None (q_set_chunk k c1 q)).
  assert (Hi1 : queue_inv q1) by (by apply deactivate_inv).
  assert (Ht1 : q_tasks q1 ≡ₚ q_tasks q).
  { apply (mtasks_same _ _ c); [done|]. apply ct_setActive_tasks. }
  assert (Hrt : ct_readyTask c1 = None).
  { pose proof (qi_chunks _ Hi1 k c1) as Hok. unfold q1 in Hok. simpl in Hok. rewrite lookup_insert_eq in Hok.
    destruct (Hok eq_refl) as [_ _ _ _ Hrd]. destruct (ct_readyTask c1); [|done].
    simpl in Hrd. rewrite Hr in Hrd. discriminate (proj1 Hrd ltac:(eauto)). }
  destruct (cyc_next_is_Some (q_chunkMap q) k) as [n Hn]; [intros E; by rewrite E in Hk|].
  pose proof Hn as Hn'. apply cyc_next_spec in Hn' as [Hsome Hcyc]. rewrite Hn.
  destruct (ct_empty c1) eqn:Hemp.
  - assert (Hk1 : q_chunkMap q1 !! k = Some c1) by apply lookup_insert_eq.
    destruct (erase_inv k c1 q1 Hi1 eq_refl Hr Hk1) as [Hi2 Ht2]; [by apply ct_empty_tasks|].
    destruct (decide (Some n = Some k)) as [[= ->]|Hne].
    + eexists _, _. split; [done|]. split; [exact Hi2|]. split; [done|]. split; [by rewrite <- Ht1|].
      split; [done|].
      assert (Hemp' : delete k (<[k := c1]> (q_chunkMap q)) = ∅).
      { apply map_eq. intros j. rewrite lookup_empty, delete_insert_eq.
        destruct (decide (k = j)) as [<-|Hj]; [by rewrite lookup_delete_eq|].
        rewrite lookup_delete_ne by done. destruct (q_chunkMap q !! j) eqn:E; [|done].
        destruct Hcyc as [[? _]|[Hmax Hmin]]; [lia|].
        pose proof (Hmax j ltac:(eauto)). pose proof (Hmin j ltac:(eauto)). lia. }
      split; [|exact Hemp']. apply Permutation_nil. rewrite <- Ht1, <- Ht2. unfold q_tasks. simpl.
      rewrite Hemp'. by rewrite mtasks_empty.
    + destruct (activate_step k n q (q_erase k q1)) as (q' & Heq & Hrest); auto.
      * by rewrite Ht2.
      * simpl. rewrite lookup_delete_ne, lookup_insert_ne by congruence. done.
      * eexists _, _. split; [exact Heq|done].
  - destruct (activate_step k n q q1) as (q' & Heq & Hrest); auto.
    + simpl. apply lookup_insert_is_Some'. auto.
    + eexists _, _. split; [exact Heq|done].
Qed.

(** ** The scan *)

(** Why [_ready] says no, with the active chunk [n]: there is no task; the
    first chunk of the round with tasks to run does not get its memory; the
    next chunk may not be started; or all that is left waits behind the tasks
    in flight on the active chunk. *)
Inductive why_not (sched : option SchedulerBase) q : Prop :=
| not_any : q_tasks q = [] -> why_not sched q
| not_starved n k c :
    q_activeChunk q = Some n -> q_chunkMap q !! k = Some c -> ct_resourceStarved c = true ->
    ct_activeTasks c <> [] -> (forall j, after n j k -> active_tasks q j = []) -> why_not sched q
| not_limited n k :
    q_activeChunk q = Some n -> k <> n -> limit_reached sched k = true ->
    (forall j, after n j k -> active_tasks q j = []) -> why_not sched q
| not_drained n c :
    q_activeChunk q = Some n -> q_chunkMap q !! n = Some c -> (forall j, active_tasks q j = []) ->
    (ct_pendingTasks c = [] \/ ct_inFlightTasks c <> ∅) -> why_not sched q.

Section scan.
Context {M : Type} `{HM : MemMan M} `{HL : !MemManLaws M}.
Implicit Types (w : World M).

Definition ready_at w0 q w k : Prop :=
  queue_inv (q_set_ready (Some k) q) /\
  exists c t, q_chunkMap q !! k = Some c /\ ct_readyTask c = Some t /\ hasMemHandle w t = true /\
    (grant w0 w None \/ grant w0 w (Some t)).

Definition scan_pre w0 q w k (st : ReadyState) : Prop :=
  match st with
  | READY => ready_at w0 q w k
  | NOT_READY => queue_inv q /\ grant w0 w None /\ world_ok w /\ active_tasks q k = []
  | NO_RESOURCES => queue_inv q /\ grant w0 w None /\ world_ok w /\
      exists c, q_chunkMap q !! k = Some c /\ ct_resourceStarved c = true /\ ct_activeTasks c <> []
  end.

Definition ready_post sched w0 q w (b : bool) : Prop :=
  if b then exists n k, q_activeChunk q = Some n /\ q_readyChunk q = Some k /\ ready_at w0 q w k /\
              (forall j, after n j k -> active_tasks q j = [])
  else q_readyChunk q = None /\ queue_inv q /\ grant w0 w None /\ world_ok w /\ why_not sched q.

Lemma scan_pre_intro w0 k q w q' w' st :
  queue_inv q -> world_ok w -> grant w0 w None -> chunk_ready_post k q w q' w' st -> scan_pre w0 q' w' k st.
Proof.
  intros Hq Hw Hg. destruct st; simpl.
  - intros (Hi & c & t & ? & ? & _ & ? & Hor). split; [done|]. exists c, t. split; [done|].
    split; [done|]. split; [done|]. destruct Hor as [->|Hor]; [by left|right].
    by eapply grant_trans.
  - by intros (-> & -> & ?).
  - intros (Hi & Hg' & Hw' & c & ? & ? & ? & ?). split; [done|]. split; [by eapply grant_trans|]. eauto.
Qed.

(** The chunks before [k] in the round have nothing to run. *)
Definition passed q n k : Prop := forall j, after n j k -> active_tasks q j = [].

Lemma passed_round q n i :
  is_Some (q_chunkMap q !! n) -> is_Some (q_chunkMap q !! i) ->
  passed q n i -> active_tasks q i = [] -> cyc_next (q_chunkMap q) i = Some n ->
  forall j, active_tasks q j = [].
Proof.
  intros Hn Hi Hp Hnil Hc j. destruct (q_chunkMap q !! j) as [c|] eqn:E.
  2: { unfold active_tasks. by rewrite E. }
  destruct (cyc_next_round _ n i n Hn Hi Hc) as [_ [(_ & Hno)|(? & _)]]; [|done].
  destruct (decide (i = j)) as [<-|Hne]; [done|].
  destruct (after_total n i j Hne) as [Haf|Haf]; [|by apply Hp].
  by destruct (Hno j ltac:(eauto)).
Qed.

Lemma passed_next q n i i' :
  is_Some (q_chunkMap q !! n) -> is_Some (q_chunkMap q !! i) ->
  passed q n i -> active_tasks q i = [] -> cyc_next (q_chunkMap q) i = Some i' -> i' <> n ->
  passed q n i'.
Proof.
  intros Hn Hi Hp Hnil Hc Hne j Haf. destruct (q_chunkMap q !! j) as [c|] eqn:E.
  2: { unfold active_tasks. by rewrite E. }
  destruct (cyc_next_round _ n i i' Hn Hi Hc) as [_ [(? & _)|(_ & _ & Hrest)]]; [done|].
  destruct (decide (i = j)) as [<-|Hij]; [done|].
  destruct (after_total n i j Hij) as [Haf'|Haf']; [|by apply Hp].
  destruct (Hrest j ltac:(eauto) Haf') as [->|Haf''].
  - by apply after_irrefl in Haf.
  - exfalso. apply (after_irrefl n j). by eapply after_trans.
Qed.

Lemma active_tasks_frame q q' k j :
  (forall i, i <> k -> q_chunkMap q' !! i = q_chunkMap q !! i) -> j <> k -> active_tasks q' j = active_tasks q j.
Proof. intros Hf Hj. unfold active_tasks. by rewrite Hf. Qed.

(** Nothing waits on the active chunk, or tasks are in flight there. *)
Definition held_up q n : Prop :=
  exists c, q_chunkMap q !! n = Some c /\ (ct_pendingTasks c = [] \/ ct_inFlightTasks c <> ∅).

Lemma scan_spec sched flex n w0 fuel iter st q w :
  (size (to_visit (q_chunkMap q) n iter) < fuel)%nat ->
  q_readyChunk q = None -> q_activeChunk q = Some n -> is_Some (q_chunkMap q !! iter) ->
  (st = NOT_READY -> held_up q n) -> passed q n iter -> scan_pre w0 q w iter st ->
  scan fuel flex sched n iter st q w = Raise BadException \/
  exists q' w' b, scan fuel flex sched n iter st q w = Ret (q', w', b) /\ same_tasks q q' /\
    ready_post sched w0 q' w' b.
Proof.
  revert iter st q w. induction fuel as [|fuel IH]; [lia|]. intros iter st q w Hfuel Hr Ha Hit Hup Hp Hpre.
  destruct st; simpl.
  - right. eexists _, _, _. split; [done|]. split; [done|]. exists n, iter. split; [done|]. split; [done|]. split; [exact Hpre|exact Hp].
  - specialize (Hup eq_refl). destruct Hpre as (Hq & Hg & Hw & Hnil). pose proof (qi_active _ Hq _ Ha) as Hn.
    destruct (cyc_next_is_Some (q_chunkMap q) iter) as [i' Hc].
    { intros E. rewrite E in Hit. by destruct Hit. }
    rewrite Hc. destruct (decide (i' = n)) as [->|Hne].
    { right. eexists _, _, _. split; [done|]. split; [done|]. do 4 (split; [done|]).
      destruct Hup as (c & Hcn & Hor). eapply not_drained; eauto. eapply (passed_round q n iter); eauto. }
    destruct (cyc_next_round _ n iter i' Hn Hit Hc) as [[c Hci] [(? & _)|(_ & Haf & _)]]; [done|].
    rewrite (deref_Some _ _ _ Hci). simpl. rewrite (ok_id _ _ _ _ (qi_chunks _ Hq _ _ Hci)).
    pose proof (passed_next q n iter i' Hn Hit Hp Hnil Hc Hne) as Hp'.
    destruct (limit_reached sched i') eqn:Hlim.
    { right. eexists _, _, _. split; [done|]. split; [done|]. do 4 (split; [done|]).
      by eapply not_limited. }
    destruct (chunk_ready_spec flex i' q w Hw Hq Hr ltac:(eauto))
      as [->|(q' & w' & st' & -> & Hsm & Hr' & Hf & Hpost)]; [by left|]. simpl.
    pose proof (sm_dom _ _ Hsm) as Hd. pose proof (sm_active _ _ Hsm) as Ha'.
    assert (Hd' : forall j, is_Some (q_chunkMap q' !! j) <-> is_Some (q_chunkMap q !! j)).
    { intros j. by rewrite <- !elem_of_dom, Hd. }
    edestruct (IH i' st' q' w') as [Heq|(q2 & w2 & b & Heq & Hsm2 & Hpost2)].
    + unfold to_visit in *. rewrite Hd. pose proof (to_visit_next (q_chunkMap q) n iter i' ltac:(eauto) Haf) as Hlt.
      unfold to_visit in Hlt. lia.
    + done.
    + congruence.
    + apply Hd'. eauto.
    + intros _. destruct Hup as (cn & Hcn & Hor). exists cn. by rewrite Hf.
    + intros j Hj. rewrite (active_tasks_frame q q' i'); [by apply Hp'|done|].
      intros ->. by apply after_irrefl in Hj.
    + by eapply scan_pre_intro.
    + left. exact Heq.
    + right. eexists _, _, _. split; [exact Heq|]. split; [by transitivity q'|done].
  - destruct Hpre as (Hq & Hg & Hw & c & Hc & Hst & Hne).
    right. eexists _, _, _. split; [done|]. split; [done|]. do 4 (split; [done|]). by eapply not_starved.
Qed.
End scan.

Lemma after_start s j : ~ after s j s.
Proof. unfold after. lia. Qed.

Section ready_spec.
Context {M : Type} `{HM : MemMan M} `{HL : !MemManLaws M}.
Implicit Types (w : World M).

(** The second half of [_ready], from the active chunk [n]. *)
Lemma round_spec flex sched n w0 q w :
  queue_inv q -> world_ok w -> grant w0 w None -> q_readyChunk q = None -> q_activeChunk q = Some n ->
  (active_tasks q n = [] -> held_up q n) ->
  let r := (let? (q4, w4, st4) := chunk_ready flex n q w in
            scan (size (q_chunkMap q4)) flex sched n n st4 q4 w4) in
  r = Raise BadException \/
  exists q' w' b, r = Ret (q', w', b) /\ same_tasks q q' /\ ready_post sched w0 q' w' b.
Proof.
  intros Hq Hw Hg Hr Ha Hup. pose proof (qi_active _ Hq _ Ha) as Hn. simpl.
  destruct (chunk_ready_spec flex n q w Hw Hq Hr Hn)
    as [->|(q' & w' & st & -> & Hsm & Hr' & Hf & Hpost)]; [by left|]. simpl.
  pose proof (sm_dom _ _ Hsm) as Hd. pose proof (sm_active _ _ Hsm) as Ha'.
  assert (Hn' : is_Some (q_chunkMap q' !! n)) by (by rewrite <- elem_of_dom, Hd, elem_of_dom).
  destruct (scan_spec sched flex n w0 (size (q_chunkMap q')) n st q' w')
    as [Heq|(q2 & w2 & b & Heq & Hsm2 & Hpost2)]; auto.
  - by apply to_visit_start.
  - congruence.
  - intros ->. destruct Hpost as (-> & _ & ?). auto.
  - intros j Hj. by apply after_start in Hj.
  - by eapply scan_pre_intro.
  - right. eexists _, _, _. split; [exact Heq|]. split; [by transitivity q'|done].
Qed.

Lemma held_up_or_advance k q c :
  q_chunkMap q !! k = Some c -> ct_readyToAdvance c = false -> active_tasks q k = [] -> held_up q k.
Proof.
  intros Hk Hadv Hnil. exists c. split; [done|]. right. unfold active_tasks in Hnil. rewrite Hk in Hnil.
  unfold ct_readyToAdvance in Hadv. rewrite Hnil in Hadv. simpl in Hadv. by apply bool_decide_eq_false in Hadv.
Qed.

(** What becomes of the active chunk [k]. *)
Definition active_rule q q' : Prop :=
  forall k c, q_activeChunk q = Some k -> q_chunkMap q !! k = Some c ->
    if ct_readyToAdvance c
    then q_activeChunk q' = cyc_next (q_chunkMap q) k \/ (q_activeChunk q' = None /\ q_tasks q = [])
    else q_activeChunk q' = Some k /\ pending_tasks q' k = pending_tasks q k.

Lemma start_active_id first q k q1 k1 :
  q_activeChunk q = Some k -> start_active first q = Ret (q1, k1) -> q1 = q /\ k1 = k.
Proof. unfold start_active. intros ->. by intros [= <- <-]. Qed.

Lemma rule_keep q q1 k q' :
  (forall k', q_activeChunk q = Some k' -> q1 = q /\ k = k') -> q_activeChunk q1 = Some k ->
  same_tasks q1 q' -> (forall c, q_chunkMap q1 !! k = Some c -> ct_readyToAdvance c = false) ->
  active_rule q q'.
Proof.
  intros Hid Ha Hsm Hno k' c Hk Hc. destruct (Hid k' Hk) as [-> ->]. rewrite (Hno c Hc).
  rewrite (sm_active _ _ Hsm), (sm_pending _ _ Hsm). done.
Qed.

Lemma rule_advance q q1 k q' :
  (forall k', q_activeChunk q = Some k' -> q1 = q /\ k = k') ->
  (q_activeChunk q' = cyc_next (q_chunkMap q1) k \/ (q_activeChunk q' = None /\ q_tasks q1 = [])) ->
  (forall c, q_chunkMap q1 !! k = Some c -> ct_readyToAdvance c = true) -> active_rule q q'.
Proof.
  intros Hid Hor Hyes k' c Hk Hc. destruct (Hid k' Hk) as [-> ->]. by rewrite (Hyes c Hc).
Qed.

Lemma readyToAdvance_busy c : ct_activeTasks c <> [] -> ct_readyToAdvance c = false.
Proof. unfold ct_readyToAdvance. by destruct (ct_activeTasks c). Qed.

(** The chunk [k] stays active: the rest of [_ready] is a round from it. *)
Lemma stay_spec flex sched q q1 k c q2 w w2 :
  (forall k', q_activeChunk q = Some k' -> q1 = q /\ k = k') -> q_tasks q1 ≡ₚ q_tasks q ->
  q_activeChunk q1 = Some k -> same_tasks q1 q2 ->
  queue_inv q2 -> world_ok w2 -> grant w w2 None -> q_readyChunk q2 = None ->
  q_chunkMap q2 !! k = Some c -> ct_readyToAdvance c = false ->
  (forall c, q_chunkMap q1 !! k = Some c -> ct_readyToAdvance c = false) ->
  let r := (let? (q4, w4, st4) := chunk_ready flex k q2 w2 in
            scan (size (q_chunkMap q4)) flex sched k k st4 q4 w4) in
  r = Raise BadException \/
  exists q' w' b, r = Ret (q', w', b) /\ q_tasks q' ≡ₚ q_tasks q /\ active_rule q q' /\
    ready_post sched w q' w' b.
Proof.
  intros Hid Ht1 Ha1 Hsm Hq2 Hw2 Hg2 Hr2 Hc Hadv Hadv1. simpl.
  destruct (round_spec flex sched k w q2 w2) as [Heq|(q' & w' & b & Heq & Hsm' & Hp')]; auto.
  - rewrite (sm_active _ _ Hsm). done.
  - intros Hnil. by eapply held_up_or_advance.
  - right. eexists _, _, _. split; [exact Heq|].
    assert (Hsm2 : same_tasks q1 q') by (by transitivity q2).
    split; [by rewrite (sm_tasks _ _ Hsm2)|]. split; [|done]. by eapply rule_keep.
Qed.

Lemma q_ready_spec flex sched q w :
  world_ok w -> queue_inv q -> q_readyChunk q = None ->
  q_ready flex sched q w = Raise BadException \/
  exists q' w' b, q_ready flex sched q w = Ret (q', w', b) /\ q_tasks q' ≡ₚ q_tasks q /\
    active_rule q q' /\ ready_post sched w q' w' b.
Proof.
  intros Hw Hq Hr. pose proof (grant_refl w (proj1 Hw)) as Hg. unfold q_ready. rewrite Hr.
  destruct (first_key (q_chunkMap q)) as [first|] eqn:Hfk.
  2: { apply first_key_None in Hfk. right. eexists _, _, _. split; [done|]. split; [done|].
       split; [intros k c _ Hc; by rewrite Hfk in Hc|]. do 4 (split; [done|]). apply not_any.
       unfold q_tasks. by rewrite Hfk, mtasks_empty. }
  destruct (start_active_spec first q Hq Hfk) as (q1 & k & Hst1 & Hq1 & Hr1 & Hd1 & Ht1 & Ha1 & _).
  assert (Hid : forall k', q_activeChunk q = Some k' -> q1 = q /\ k = k').
  { intros k' Hk'. by eapply start_active_id. }
  rewrite Hst1. rewrite Hr in Hr1. simpl. pose proof (qi_active _ Hq1 _ Ha1) as Hk1.
  destruct (chunk_ready_spec flex k q1 w Hw Hq1 Hr1 Hk1)
    as [->|(q2 & w2 & st & -> & Hsm & Hr2 & _ & Hpost)]; [by left|]. simpl.
  destruct Hk1 as [c1 Hc1].
  pose proof (scan_pre_intro w k q1 w q2 w2 st Hq1 Hw Hg Hpost) as Hpre. destruct st.
  - right. eexists _, _, _. split; [done|]. split; [by rewrite <- Ht1, <- (sm_tasks _ _ Hsm)|].
    split; [|exists k, k; split; [simpl; by rewrite (sm_active _ _ Hsm)|]; split; [done|];
             split; [exact Hpre|]; intros j Hj; by apply after_start in Hj].
    eapply (rule_keep q q1 k); [done|done|by destruct Hsm|].
    intros c Hc. apply readyToAdvance_busy. destruct Hpost as (_ & c0 & t & _ & _ & Htop & _).
    unfold active_tasks in Htop. rewrite Hc in Htop. by destruct (ct_activeTasks c).
  - destruct Hpost as (-> & -> & Hnil). rewrite (deref_Some _ _ _ Hc1). simpl.
    destruct (ct_readyToAdvance c1) eqn:Hadv; simpl.
    2: { eapply stay_spec; eauto. intros c Hc. congruence. }
    destruct (advance_spec k c1 q1 Hq1 Hr1 Ha1 Hc1) as (q3 & o & -> & Hq3 & Hr3 & Ht3 & Ha3 & Hp3); simpl.
    destruct o as [n|].
    + destruct Hp3 as (Hn & cn & Hcn & Hpn).
      destruct (round_spec flex sched n w q3 w) as [Heq|(q' & w' & b & Heq & Hq' & Hp')]; auto.
      { intros _. exists cn. auto. }
      right. eexists _, _, _. split; [exact Heq|]. split; [by rewrite (sm_tasks _ _ Hq'), Ht3|]. split; [|done].
      eapply rule_advance; [done| |intros c Hc; congruence]. left. by rewrite (sm_active _ _ Hq'), Ha3.
    + destruct Hp3 as [Hnil3 _]. right. eexists _, _, _. split; [done|]. split; [by rewrite Ht3|].
      split; [eapply rule_advance; [done|by right|intros c Hc; congruence]|]. do 4 (split; [done|]).
      apply not_any, Permutation_nil. by rewrite Ht3, Hnil3.
  - destruct Hpost as (Hq2 & Hg2 & Hw2 & c & Hc & _ & Hne & Hat). rewrite (deref_Some _ _ _ Hc). simpl.
    rewrite (readyToAdvance_busy c Hne). simpl. eapply stay_spec; eauto using readyToAdvance_busy.
    intros c' Hc'. apply readyToAdvance_busy. unfold active_tasks in Hat. rewrite Hc' in Hat. congruence.
Qed.
End ready_spec.

(** ** [getTask] *)

Section getTask.
Context {M : Type} `{HM : MemMan M} `{HL : !MemManLaws M}.
Implicit Types (w : World M).

(** Taking the ready task out of its chunk. *)
Lemma take_ready flex q w k c t :
  queue_inv q -> q_readyChunk q = Some k -> q_chunkMap q !! k = Some c -> ct_readyTask c = Some t ->
  exists q', (let? c0 := deref k q in
              let? (c', w2, task) := ct_getTask flex c0 w in
              Ret (q_set_count (q_taskCount q - 1) (q_set_ready None (q_set_chunk k c' q)), w2, task))
             = Ret (q', w, Some t) /\
    queue_inv q' /\ q_readyChunk q' = None /\ q_activeChunk q' = q_activeChunk q /\
    q_tasks q ≡ₚ t :: q_tasks q' /\
    (exists c', q_chunkMap q' !! getChunkId t = Some c' /\ ct_inFlightTasks c' = {[t_ptr t]} ∪ ct_inFlightTasks c).
Proof.
  intros Hq Hr Hk Ht. pose proof (qi_chunks _ Hq _ _ Hk) as Hok.
  assert (Hid : getChunkId t = ct_chunkId c).
  { rewrite (ok_id _ _ _ _ Hok). pose proof (ok_tasks _ _ _ _ Hok) as Hf. unfold ct_tasks in Hf.
    rewrite Ht in Hf. simpl in Hf. by apply Forall_cons in Hf as [? _]. }
  rewrite (deref_Some _ _ _ Hk). unfold ct_getTask, ct_ready. simpl. rewrite Ht. simpl. rewrite Ht.
  rewrite Hid, Z.eqb_refl. simpl.
  set (c' := mkChunkTasks (ct_chunkId c) (ct_active c) (ct_resourceStarved c) None (ct_activeTasks c)
               (ct_pendingTasks c) ({[t_ptr t]} ∪ ct_inFlightTasks c)).
  assert (Hct : ct_tasks c = t :: ct_tasks c') by (unfold ct_tasks; by rewrite Ht).
  assert (Hperm : mtasks (q_chunkMap q) ≡ₚ t :: mtasks (<[k := c']> (q_chunkMap q))).
  { by rewrite mtasks_update, (mtasks_lookup _ _ _ Hk), Hct. }
  eexists. split; [done|]. split; [|split; [done|split; [done|split; [exact Hperm|]]]].
  - split; simpl.
    + intros j cj [(<- & <-)|(Hne & Hj)]%lookup_insert_Some.
      * destruct Hok as [Hi Hf Ha Hp _]. split; simpl; auto; [|split; [by intros []|done]].
        rewrite Hct in Hf. by apply Forall_cons in Hf as [_ ?].
      * destruct (qi_chunks _ Hq _ _ Hj) as [? ? ? ? Hjr]. split; auto.
        rewrite Hjr, Hr. split; [|done]. intros [= ->]. done.
    + intros j Hj. apply lookup_insert_is_Some'. right. by apply (qi_active _ Hq).
    + done.
    + rewrite (qi_count _ Hq). unfold q_tasks. rewrite Hperm. simpl. lia.
  - rewrite <- Hid. replace (getChunkId t) with k by (rewrite Hid; symmetry; apply Hok).
    simpl. rewrite lookup_insert_eq. eauto.
Qed.

(** What is known of a queue whose chunk [k] has the ready task. *)
Lemma ready_task_Some q k :
  queue_inv q -> q_readyChunk q = Some k ->
  exists c t, q_chunkMap q !! k = Some c /\ ct_readyTask c = Some t.
Proof.
  intros Hq Hr. destruct (qi_ready _ Hq _ Hr) as [c Hc].
  destruct (proj2 (ok_ready _ _ _ _ (qi_chunks _ Hq _ _ Hc)) Hr) as [t Ht]. eauto.
Qed.

(** The task that is promised to run next. *)
Definition ready_task q : option Task :=
  match q_readyChunk q with
  | Some k => match q_chunkMap q !! k with Some c => ct_readyTask c | None => None end
  | None => None
  end.

Definition getTask_post sched q w q' w' (o : option Task) : Prop :=
  match o with
  | Some t => t_ptr t ∈ (match q_chunkMap q' !! getChunkId t with
                         | Some c => ct_inFlightTasks c | None => ∅ end) /\
      ((ready_task q = Some t /\ w' = w) \/
       (ready_task q = None /\ hasMemHandle w' t = true /\ (grant w w' None \/ grant w w' (Some t))))
  | None => ready_task q = None /\ grant w w' None /\ world_ok w' /\ why_not sched q'
  end.

Lemma q_getTask_spec flex sched q w :
  world_ok w -> queue_inv q ->
  q_getTask flex sched q w = Raise BadException \/
  exists q' w' o, q_getTask flex sched q w = Ret (q', w', o) /\ queue_inv q' /\
    q_readyChunk q' = None /\ q_tasks q ≡ₚ option_list o ++ q_tasks q' /\ getTask_post sched q w q' w' o.
Proof.
  intros Hw Hq. unfold q_getTask. destruct (q_readyChunk q) as [k|] eqn:Hr.
  - unfold q_ready. rewrite Hr. simpl. rewrite Hr.
    destruct (ready_task_Some q k Hq Hr) as (c & t & Hc & Ht).
    destruct (take_ready flex q w k c t Hq Hr Hc Ht) as (q' & -> & Hq' & Hr' & _ & Hp & c' & Hc' & Hfl).
    right. eexists _, _, _. split; [done|]. do 3 (split; [done|]). split.
    + rewrite Hc', Hfl. set_solver.
    + left. unfold ready_task. by rewrite Hr, Hc.
  - assert (Hrt : ready_task q = None) by (unfold ready_task; by rewrite Hr).
    destruct (q_ready_spec flex sched q w Hw Hq Hr) as [->|(q1 & w1 & b & -> & Ht1 & _ & Hpost)]; [by left|right].
    simpl. destruct b; simpl in Hpost.
    + destruct Hpost as (n & k & Hn & Hk & [Hi (c & t & Hc & Ht & Hh & Hg)] & _). rewrite Hk.
      assert (Hi' : queue_inv q1) by (destruct q1; simpl in Hk; by rewrite Hk).
      destruct (take_ready flex q1 w1 k c t Hi' Hk Hc Ht) as (q' & -> & Hq' & Hr' & _ & Hp & c' & Hc' & Hfl).
      eexists _, _, _. split; [done|]. split; [done|]. split; [done|]. split; [by rewrite <- Ht1|].
      split; [rewrite Hc', Hfl; set_solver|]. right. auto.
    + destruct Hpost as (Hr1 & Hq1 & Hg & Hw1 & Hy). rewrite Hr1.
      eexists _, _, _. split; [done|]. do 3 (split; [done|]). done.
Qed.
End getTask.
