(* ===== verification/ChunkTasksHeap.v ===== *)
(** * The order of the tasks of a chunk

    [SlowTableHeap] keeps the slowest scan at the front as long as the tasks
    of the chunk scan the same number of tables; [compareTables] is not a
    strict weak order otherwise, and the heap does not keep its promise. *)

From S2P Require Import Prelude.
From S2P Require Import StdHeap.
From S2P Require Import ScanInfo.
From S2P Require Import MemMan.
From S2P Require Import MemManInv.
From S2P Require Import MemManLaws.
From S2P Require Import Task.
From S2P Require Import SchedulerBase.
From S2P Require Import ChunkTasks.
From S2P Require Import ChunkTasksQueue.

Implicit Types (q : ChunkTasksQueue) (c : ChunkTasks) (t : Task) (k : Z).

Definition num_tables t : nat := length (si_infoTables (t_scanInfo t)).

(** A strict weak order that agrees with [compareFunc] on tasks with the same
    number of tables. *)
Definition compareFunc' (x y : Task) : bool :=
  if (num_tables x =? num_tables y)%nat then compareFunc x y else (num_tables x <? num_tables y)%nat.

Lemma compareTables_trans x y z :
  num_tables x = num_tables y -> num_tables y = num_tables z ->
  0 <= compareTables (t_scanInfo x) (t_scanInfo y) -> 0 <= compareTables (t_scanInfo y) (t_scanInfo z) ->
  0 <= compareTables (t_scanInfo x) (t_scanInfo z).
Proof.
  unfold num_tables. intros H1 H2.
  rewrite (compareTables_antisym (t_scanInfo y) (t_scanInfo x)).
  rewrite (compareTables_antisym (t_scanInfo z) (t_scanInfo y)).
  rewrite (compareTables_antisym (t_scanInfo z) (t_scanInfo x)). revert H1 H2. unfold compareTables.
  destruct (si_infoTables (t_scanInfo x)) as [|a l], (si_infoTables (t_scanInfo y)) as [|b l'],
    (si_infoTables (t_scanInfo z)) as [|d l'']; try done. intros H1 H2 Hxy Hyz.
  pose proof (compare_loop_trans (d :: l'') (b :: l') (a :: l)). lia.
Qed.

#[export] Instance compareFunc'_strict_weak : StrictWeak compareFunc'.
Proof.
  split; unfold compareFunc', compareFunc.
  - intros x y. rewrite (Nat.eqb_sym (num_tables y)). destruct (Nat.eqb_spec (num_tables x) (num_tables y)).
    + rewrite Z.ltb_lt, Z.ltb_ge, (compareTables_antisym (t_scanInfo x) (t_scanInfo y)). lia.
    + rewrite Nat.ltb_lt, Nat.ltb_ge. lia.
  - intros x y z. destruct (Nat.eqb_spec (num_tables x) (num_tables y)) as [E|],
      (Nat.eqb_spec (num_tables y) (num_tables z)) as [E'|], (Nat.eqb_spec (num_tables x) (num_tables z));
      rewrite ?Z.ltb_ge, ?Nat.ltb_ge; try lia. by apply compareTables_trans.
Qed.

(** The heap of the chunk is a heap, and all its tasks scan [n] tables. *)
Definition heap_ok (n : nat) c : Prop :=
  Forall (fun t => num_tables t = n) (ct_tasks c) /\ is_heap compareFunc (ct_activeTasks c).

Section uniform.
Context (n : nat).

Let uniform (l : list Task) : Prop := Forall (fun t => num_tables t = n) l.

Lemma compareFunc_agree x y : num_tables x = n -> num_tables y = n -> compareFunc x y = compareFunc' x y.
Proof. intros Hx Hy. unfold compareFunc'. by rewrite Hx, Hy, Nat.eqb_refl. Qed.

Lemma heap_push_heap t l : uniform l -> num_tables t = n -> is_heap compareFunc l -> is_heap compareFunc (heap_push t l).
Proof.
  intros Hl Ht Hh. unfold heap_push.
  rewrite (push_heap_cong compareFunc compareFunc' _ compareFunc_agree) by done.
  apply (is_heap_cong compareFunc compareFunc' _ compareFunc_agree).
  - rewrite push_heap_Permutation. by constructor.
  - apply push_heap_heap; [apply _|]. by apply (is_heap_cong _ _ _ compareFunc_agree).
Qed.

Lemma heap_pop_heap l : uniform l -> is_heap compareFunc l -> is_heap compareFunc (heap_pop l).
Proof.
  intros Hl Hh. unfold heap_pop. rewrite (pop_heap_cong compareFunc compareFunc' _ compareFunc_agree) by done.
  apply (is_heap_cong compareFunc compareFunc' _ compareFunc_agree).
  - destruct l as [|x l]; [constructor|]. pose proof (pop_heap_Permutation compareFunc' x l) as Hp.
    unfold uniform in Hl. rewrite <- Hp in Hl. by apply Forall_cons in Hl as [_ ?].
  - apply pop_heap_heap; [apply _|]. by apply (is_heap_cong _ _ _ compareFunc_agree).
Qed.

Lemma make_heap_is_heap l : uniform l -> is_heap compareFunc (make_heap compareFunc l).
Proof.
  intros Hl. rewrite (make_heap_cong compareFunc compareFunc' _ compareFunc_agree) by done.
  apply (is_heap_cong compareFunc compareFunc' _ compareFunc_agree).
  - by rewrite make_heap_Permutation.
  - apply make_heap_heap. apply _.
Qed.

Lemma heap_top_slowest t l :
  uniform l -> is_heap compareFunc l -> heap_top l = Some t ->
  forall t', t' ∈ l -> 0 <= compareTables (t_scanInfo t) (t_scanInfo t').
Proof.
  destruct l as [|x l]; intros Hl Hh; [done|]. intros [= <-] t' Ht'.
  apply (is_heap_cong compareFunc compareFunc' _ compareFunc_agree) in Hh; [|done].
  unfold uniform in Hl. rewrite Forall_forall in Hl.
  destruct (heap_front_max compareFunc' l x t' Hh Ht') as [Hc| <-].
  - rewrite <- compareFunc_agree in Hc by (apply Hl; (done || by left)).
    by apply Z.ltb_ge in Hc.
  - pose proof (compareTables_antisym (t_scanInfo x) (t_scanInfo x)). lia.
Qed.

Lemma foldl_push_heap p l :
  uniform l -> uniform p -> is_heap compareFunc l -> is_heap compareFunc (foldl (fun h t => heap_push t h) l p).
Proof.
  revert l. induction p as [|t p IH]; intros l Hl Hp Hh; simpl; [done|].
  apply Forall_cons in Hp as [Ht Hp]. apply IH; [|done|by apply heap_push_heap].
  unfold uniform. rewrite heap_push_Permutation. by constructor.
Qed.

Lemma heap_ok_parts c : heap_ok n c -> uniform (ct_activeTasks c) /\ uniform (ct_pendingTasks c).
Proof. intros [Hf _]. unfold ct_tasks in Hf. by apply Forall_app in Hf as [_ [? ?]%Forall_app]. Qed.

Lemma heap_ok_ctor k : heap_ok n (ChunkTasks_ctor k).
Proof. split; [constructor|]. intros i x p _ _ Hx. done. Qed.

Lemma heap_ok_queTask t c : num_tables t = n -> heap_ok n c -> heap_ok n (ct_queTask t c).
Proof.
  intros Ht Hc. split; [rewrite ct_queTask_tasks; constructor; [done|apply Hc]|].
  unfold ct_queTask. destruct (ct_active c); simpl; [apply Hc|].
  apply heap_push_heap; [by apply heap_ok_parts|done|apply Hc].
Qed.

Lemma heap_ok_movePending c : heap_ok n c -> heap_ok n (ct_movePendingToActive c).
Proof.
  intros Hc. split; [rewrite ct_movePending_tasks; apply Hc|]. simpl.
  apply foldl_push_heap; [by apply heap_ok_parts|by apply heap_ok_parts|apply Hc].
Qed.

Lemma heap_ok_setActive b c : heap_ok n c -> heap_ok n (ct_setActive b c).
Proof.
  intros Hc. split; [rewrite ct_setActive_tasks; apply Hc|].
  unfold ct_setActive. destruct (ct_active c && negb b); simpl; [|apply Hc].
  by apply heap_ok_movePending.
Qed.

Lemma heap_ok_removeTask t c c' r : heap_ok n c -> ct_removeTask t c = (c', r) -> heap_ok n c'.
Proof.
  intros Hc Hr. split.
  - destruct Hc as [Hf _]. rewrite (ct_removeTask_tasks _ _ _ _ Hr) in Hf. by apply Forall_app in Hf as [_ ?].
  - unfold ct_removeTask in Hr. destruct (eraseFunc _ _ (ct_activeTasks c)) as [[x rest]|] eqn:E; simplify_eq/=.
    + apply make_heap_is_heap. apply eraseFunc_Some in E as [Hp _].
      destruct (heap_ok_parts c Hc) as [Ha _]. unfold uniform in Ha. rewrite Hp in Ha.
      by apply Forall_cons in Ha as [_ ?].
    + destruct (eraseFunc _ _ (ct_pendingTasks c)) as [[]|]; simplify_eq/=; apply Hc.
Qed.

Lemma heap_ok_taskComplete t c : heap_ok n c -> heap_ok n (ct_taskComplete t c).
Proof. done. Qed.

Lemma heap_ok_promote t c :
  heap_ok n c -> ct_readyTask c = None -> heap_top (ct_activeTasks c) = Some t -> heap_ok n (ct_promote t c).
Proof.
  intros Hc Hn Ht. split; [rewrite ct_promote_tasks by done; apply Hc|]. simpl.
  apply heap_pop_heap; [by apply heap_ok_parts|apply Hc].
Qed.
End uniform.

#[export] Hint Resolve heap_ok_ctor heap_ok_queTask heap_ok_movePending heap_ok_setActive
  heap_ok_removeTask heap_ok_taskComplete heap_ok_promote : qserv.

(** ** All the chunks of a queue *)

Section all_ok.
Context {M : Type} `{HM : MemMan M} (n : nat).
Implicit Types (w : World M).

Definition all_ok q : Prop := map_Forall (fun _ c => heap_ok n c) (q_chunkMap q).

Lemma all_ok_set k c q : all_ok q -> heap_ok n c -> all_ok (q_set_chunk k c q).
Proof. intros Hq Hc. by apply map_Forall_insert_2. Qed.

Lemma all_ok_deref k c q : all_ok q -> deref k q = Ret c -> heap_ok n c.
Proof.
  unfold deref. intros Hq. destruct (q_chunkMap q !! k) eqn:E; [|done]. intros [= <-]. by eapply Hq.
Qed.

Lemma ct_ready_heap_ok flex c w c' w' st : heap_ok n c -> ct_ready flex c w = Ret (c', w', st) -> heap_ok n c'.
Proof.
  intros Hc. unfold ct_ready. destruct (ct_readyTask c) eqn:Hn; [by intros [= <- _ _]|].
  destruct (heap_top (ct_activeTasks c)) as [t|] eqn:Ht; [|by intros [= <- _ _]].
  destruct (negb _).
  - intros Heq. unbind Heq. destruct r as [w1 [|]]; simplify_eq/=; [|done].
    by apply (heap_ok_promote n t (mkChunkTasks _ _ _ _ _ _ _)).
  - intros [= <- _ _]. auto with qserv.
Qed.
#[local] Hint Resolve all_ok_set all_ok_deref ct_ready_heap_ok : qserv.

Lemma chunk_ready_all_ok flex k q w q' w' st :
  all_ok q -> chunk_ready flex k q w = Ret (q', w', st) -> all_ok q'.
Proof.
  unfold chunk_ready. intros Hq Heq. unbind Heq. unbind Heq. destruct r0 as [[c' w1] st1]. simplify_eq/=.
  eauto with qserv.
Qed.

Lemma advance_all_ok k q q' o : all_ok q -> advance k q = Ret (q', o) -> all_ok q'.
Proof.
  unfold advance. intros Hq Heq. unbind Heq.
  assert (Hq1 : all_ok (q_set_chunk k (ct_setActive false r) q)) by eauto with qserv.
  assert (Hfin : forall q1 a, all_ok q1 ->
    match a with
    | None => Ret (q_set_active a q1, None)
    | Some m => let? cn := deref m (q_set_active a q1) in
        Ret (q_set_chunk m (ct_setActive true (ct_movePendingToActive cn)) (q_set_active a q1), Some m)
    end = Ret (q', o) -> all_ok q').
  { intros q1 [m|] Hq1'; [|by intros [= <- _]]. intros E. unbind E. simplify_eq/=.
    change (all_ok (q_set_active (Some m) q1)) in Hq1'. eauto with qserv. }
  destruct (ct_empty (ct_setActive false r)); eapply Hfin; [|exact Heq|exact Hq1|exact Heq].
  by apply map_Forall_delete.
Qed.
#[local] Hint Resolve chunk_ready_all_ok advance_all_ok : qserv.

Lemma scan_all_ok fuel flex sched start iter st q w q' w' b :
  all_ok q -> scan fuel flex sched start iter st q w = Ret (q', w', b) -> all_ok q'.
Proof.
  revert iter st q w. induction fuel as [|fuel IH]; intros iter st q w Hq; destruct st; simpl;
    try (by intros [= <- _ _]).
  destruct (cyc_next _ iter) as [i|]; [|done]. destruct (decide (i = start)); [by intros [= <- _ _]|].
  intros Heq. unbind Heq. destruct (limit_reached _ _); [by injection Heq as <- _ _|].
  unbind Heq. destruct r0 as [[q1 w1] st1]. eapply IH; [|exact Heq]. eauto with qserv.
Qed.

Lemma q_ready_all_ok flex sched q w q' w' b :
  all_ok q -> q_ready flex sched q w = Ret (q', w', b) -> all_ok q'.
Proof.
  intros Hq. unfold q_ready. destruct (q_readyChunk q); [by intros [= <- _ _]|].
  destruct (first_key _) as [f|]; [|by intros [= <- _ _]].
  intros Heq. unbind Heq. destruct r as [q1 k].
  assert (Hq1 : all_ok q1).
  { unfold start_active in Hr. destruct (q_activeChunk q); [by injection Hr as <- _|].
    unbind Hr. simplify_eq/=. eauto with qserv. }
  unbind Heq. destruct r as [[q2 w2] st]. assert (Hq2 : all_ok q2) by eauto with qserv.
  destruct st; [by injection Heq as <- _ _| |]; unbind Heq; unbind Heq; destruct r0 as [q3 [k3|]].
  all: assert (Hq3 : all_ok q3) by
    (destruct (ct_readyToAdvance r); [eauto with qserv|by injection Hr2 as <- _]).
  all: try (by injection Heq as <- _ _).
  all: unbind Heq; destruct r0 as [[q4 w4] st4]; eapply scan_all_ok; [|exact Heq]; eauto with qserv.
Qed.

Lemma q_getTask_all_ok flex sched q w q' w' o :
  all_ok q -> q_getTask flex sched q w = Ret (q', w', o) -> all_ok q'.
Proof.
  unfold q_getTask. intros Hq Heq. unbind Heq. destruct r as [[q1 w1] b].
  assert (Hq1 : all_ok q1) by (by eapply q_ready_all_ok).
  destruct (q_readyChunk q1) as [k|]; [|by injection Heq as <- _ _].
  unbind Heq. unbind Heq. destruct r0 as [[c' w2] task]. simplify_eq/=.
  apply (all_ok_set k c' q1); [done|]. unfold ct_getTask in Hr1. unbind Hr1. destruct r0 as [[c1 w3] st].
  assert (Hc1 : heap_ok n c1) by eauto with qserv.
  destruct st; [|by injection Hr1 as <- _ _..].
  destruct (ct_readyTask c1) as [t|] eqn:Et; [|done]. injection Hr1 as <- _ _.
  destruct Hc1 as [Hf Hh]. split; [|done]. unfold ct_tasks in *. rewrite Et in Hf. simpl in *.
  by apply Forall_cons in Hf as [_ ?].
Qed.
End all_ok.

(** ** Different numbers of tables *)

Module Mixed.
Definition table (name : string) (rating : Z) : ScanTableInfo := mkScanTableInfo "db" name true rating.
Definition task (p : nat) (l : list ScanTableInfo) : Task :=
  Task_ctor p (mkTaskMsg 1 (Z.of_nat p) 0 None (Some 7) l 10 false).

Definition x : Task := task 0 [table "Obj" 10; table "A" 5].
Definition y : Task := task 1 [table "Obj" 10].
Definition z : Task := task 2 [table "Obj" 10; table "A" 9].

(** [x] and [y] compare equal, so do [y] and [z], yet [z] is slower than [x]. *)
Lemma not_strict_weak : ~ StrictWeak compareFunc.
Proof.
  intros [_ Hn]. specialize (Hn x y z eq_refl eq_refl). vm_compute in Hn. discriminate.
Qed.

Definition c : ChunkTasks := foldl (fun c t => ct_queTask t c) (ChunkTasks_ctor 7) [x; y; x; z].

(** The heap offers [x] first although [z] is slower. *)
Lemma slower_task_waits :
  heap_top (ct_activeTasks c) = Some x /\ z ∈ ct_activeTasks c /\
  compareTables (t_scanInfo x) (t_scanInfo z) = -1.
Proof.
  split; [vm_compute; reflexivity|]. split; [|vm_compute; reflexivity].
  apply list_elem_of_lookup. exists 3%nat. vm_compute. reflexivity.
Qed.
End Mixed.
