(* ===== verification/ChunkTasksQueueThms.v ===== *)
(** * Theorems about the shared scan queue

    The queue refines a small abstract machine (tasks that wait, and at most
    one task that is promised to run next), its operations never fail but for
    the exception the code throws on file system errors, and the scan visits
    the chunks in the order the class documents. *)

From S2P Require Import Prelude.
From S2P Require Import StdHeap.
From S2P Require Import ScanInfo.
From S2P Require Import MemMan.
From S2P Require Import MemManInv.
From S2P Require Import MemManLaws.
From S2P Require Import Task.
From S2P Require Import SchedulerBase.
From S2P Require Import ChunkTasks.
From S2P Require Import ChunkTasksQueue.
From S2P Require Import ChunkTasksQueueInv.
From S2P Require Import ChunkTasksHeap.

Implicit Types (q : ChunkTasksQueue) (c : ChunkTasks) (t : Task) (k : Z).

(** ** The abstract machine *)

Inductive qop :=
| OpQueue (t : Task)
| OpReady (flex : bool)
| OpGet (flex : bool)
| OpComplete (t : Task)
| OpRemove (t : Task).

Inductive qres := RUnit | RBool (b : bool) | RTask (o : option Task).

(** Waiting tasks (in no particular order) and the promised task. *)
Record spec_state := mkSpec { sp_wait : list Task; sp_next : option Task }.

(** [t] has the identity [removeTask] looks for. *)
Definition same_job (t x : Task) : Prop :=
  getChunkId x = getChunkId t /\ t_qId x = t_qId t /\ t_jId x = t_jId t.

Inductive spec_step : qop -> spec_state -> qres -> spec_state -> Prop :=
| sp_queue t w w' n : w' ≡ₚ t :: w -> spec_step (OpQueue t) (mkSpec w n) RUnit (mkSpec w' n)
| sp_ready_again flex w w' t : w' ≡ₚ w ->
    spec_step (OpReady flex) (mkSpec w (Some t)) (RBool true) (mkSpec w' (Some t))
| sp_ready_yes flex w w' t : w ≡ₚ t :: w' ->
    spec_step (OpReady flex) (mkSpec w None) (RBool true) (mkSpec w' (Some t))
| sp_ready_no flex w w' : w' ≡ₚ w ->
    spec_step (OpReady flex) (mkSpec w None) (RBool false) (mkSpec w' None)
| sp_get_next flex w w' t : w' ≡ₚ w ->
    spec_step (OpGet flex) (mkSpec w (Some t)) (RTask (Some t)) (mkSpec w' None)
| sp_get_wait flex w w' t : w ≡ₚ t :: w' ->
    spec_step (OpGet flex) (mkSpec w None) (RTask (Some t)) (mkSpec w' None)
| sp_get_none flex w w' : w' ≡ₚ w ->
    spec_step (OpGet flex) (mkSpec w None) (RTask None) (mkSpec w' None)
| sp_complete t w w' n : w' ≡ₚ w -> spec_step (OpComplete t) (mkSpec w n) RUnit (mkSpec w' n)
| sp_remove t x w w' n : w ≡ₚ x :: w' -> same_job t x ->
    spec_step (OpRemove t) (mkSpec w n) (RTask (Some x)) (mkSpec w' n)
| sp_remove_none t w w' n : w' ≡ₚ w -> Forall (fun x => ~ same_job t x) w ->
    spec_step (OpRemove t) (mkSpec w n) (RTask None) (mkSpec w' n).

(** ** The abstraction function *)

Definition waiting q : list Task := mcollect (fun c => ct_activeTasks c ++ ct_pendingTasks c) (q_chunkMap q).
Definition abs q : spec_state := mkSpec (waiting q) (ready_task q).

Lemma mcollect_app {A} (f g : ChunkTasks -> list A) (m : gmap Z ChunkTasks) :
  mcollect (fun c => f c ++ g c) m ≡ₚ mcollect f m ++ mcollect g m.
Proof.
  unfold mcollect. induction (map_to_list m) as [|[k c] l IH]; simpl; [done|].
  rewrite IH, <- !(assoc_L (++)). apply Permutation_app_head. rewrite !(assoc_L (++)).
  apply Permutation_app_tail, Permutation_app_comm.
Qed.

Lemma q_tasks_split q : queue_inv q -> q_tasks q ≡ₚ option_list (ready_task q) ++ waiting q.
Proof.
  intros Hq. unfold q_tasks, mtasks, ct_tasks. rewrite mcollect_app. apply Permutation_app_tail.
  assert (Hnone : forall k c, q_chunkMap q !! k = Some c -> q_readyChunk q <> Some k ->
            option_list (ct_readyTask c) = []).
  { intros k c Hk Hne. pose proof (ok_ready _ _ _ _ (qi_chunks _ Hq _ _ Hk)) as Hr.
    destruct (ct_readyTask c); [|done]. destruct Hne. apply Hr. eauto. }
  unfold ready_task. destruct (q_readyChunk q) as [k|] eqn:Hr.
  - destruct (qi_ready _ Hq k Hr) as [c Hc]. rewrite Hc, (mcollect_lookup _ _ _ _ Hc).
    rewrite (mcollect_nil _ (delete k _)); [by rewrite app_nil_r|].
    intros j cj [? ?]%lookup_delete_Some. apply (Hnone j); [done|]. congruence.
  - rewrite mcollect_nil; [done|]. intros j cj Hj. by apply (Hnone j).
Qed.

(** From facts on all tasks to facts on the waiting ones. *)
Lemma waiting_cancel q q' l :
  queue_inv q -> queue_inv q' -> ready_task q' = ready_task q ->
  q_tasks q' ≡ₚ l ++ q_tasks q -> waiting q' ≡ₚ l ++ waiting q.
Proof.
  intros Hq Hq' Hr. rewrite !q_tasks_split, Hr by done. intros Hp.
  apply (Permutation_app_inv_l (option_list (ready_task q))). rewrite Hp.
  rewrite !(assoc_L (++)). apply Permutation_app_tail, Permutation_app_comm.
Qed.

(** ** Executing operations *)

Section exec.
Context {M : Type} `{HM : MemMan M} `{HL : !MemManLaws M}.
Implicit Types (w : World M) (sched : option SchedulerBase).

Definition q_exec sched (op : qop) q w : outcome (ChunkTasksQueue * World M * qres) :=
  match op with
  | OpQueue t => Ret (q_queueTask t q, w, RUnit)
  | OpReady flex => let? (q', w', b) := q_ready flex sched q w in Ret (q', w', RBool b)
  | OpGet flex => let? (q', w', o) := q_getTask flex sched q w in Ret (q', w', RTask o)
  | OpComplete t => Ret (q_taskComplete t q, w, RUnit)
  | OpRemove t => let '(q', o) := q_removeTask t q in Ret (q', w, RTask o)
  end.

(** Reachable queues.  Between two operations the rest of the worker may
    change the world in any way that keeps the memory manager in order; the
    counts of the owning scheduler may be any. *)
Inductive q_reach : ChunkTasksQueue -> Prop :=
| q_reach_init : q_reach ChunkTasksQueue_ctor
| q_reach_step sched op q w q' w' r :
    q_reach q -> world_ok w -> q_exec sched op q w = Ret (q', w', r) -> q_reach q'.

Lemma q_exec_inv sched op q w q' w' r :
  queue_inv q -> world_ok w -> q_exec sched op q w = Ret (q', w', r) -> queue_inv q'.
Proof.
  intros Hq Hw. destruct op; simpl.
  - intros [= <- _ _]. by apply queueTask_inv.
  - intros Heq. unbind Heq. destruct r0 as [[q1 w1] b]. simplify_eq/=.
    destruct (q_readyChunk q) as [k|] eqn:Hk.
    { unfold q_ready in Hr. rewrite Hk in Hr. by injection Hr as <- _ _. }
    destruct (q_ready_spec flex sched q w Hw Hq Hk) as [E|(q2 & w2 & b2 & E & _ & _ & Hpost)]; [congruence|].
    rewrite E in Hr. simplify_eq. destruct b; [|apply Hpost].
    destruct Hpost as (n & k & _ & Hk' & [Hi _] & _). destruct q'; simpl in Hk'. by rewrite Hk'.
  - intros Heq. unbind Heq. destruct r0 as [[q1 w1] o]. simplify_eq/=.
    destruct (q_getTask_spec flex sched q w Hw Hq) as [E|(q2 & w2 & o2 & E & Hi & _)]; congruence.
  - intros [= <- _ _]. by apply taskComplete_inv.
  - destruct (q_removeTask t q) as [q1 o] eqn:E. intros [= <- _ _]. by eapply removeTask_inv.
Qed.

Lemma q_reach_inv q : q_reach q -> queue_inv q.
Proof. induction 1; [apply queue_inv_ctor|]. by eapply q_exec_inv. Qed.

Lemma ready_task_at q k c t :
  q_readyChunk q = Some k -> q_chunkMap q !! k = Some c -> ct_readyTask c = Some t -> ready_task q = Some t.
Proof. unfold ready_task. by intros -> ->. Qed.

Lemma ready_task_None q : queue_inv q -> ready_task q = None -> q_readyChunk q = None.
Proof.
  intros Hq Hn. destruct (q_readyChunk q) as [k|] eqn:Hk; [|done].
  destruct (ready_task_Some q k Hq Hk) as (c & t & Hc & Ht).
  rewrite (ready_task_at q k c t Hk Hc Ht) in Hn. done.
Qed.

Lemma ready_task_no_chunk q : q_readyChunk q = None -> ready_task q = None.
Proof. unfold ready_task. by intros ->. Qed.

(** A change of one chunk that keeps its ready task. *)
Lemma ready_task_set_chunk k c c' q :
  q_chunkMap q !! k = Some c -> ct_readyTask c' = ct_readyTask c ->
  ready_task (q_set_chunk k c' q) = ready_task q.
Proof.
  intros Hk Hr. unfold ready_task. simpl. destruct (q_readyChunk q) as [j|]; [|done].
  destruct (decide (k = j)) as [<-|Hne]; [by rewrite lookup_insert_eq, Hk, Hr|by rewrite lookup_insert_ne].
Qed.

Lemma ready_task_queue t q : queue_inv q -> ready_task (q_queueTask t q) = ready_task q.
Proof.
  intros Hq. unfold ready_task, q_queueTask. simpl. destruct (q_readyChunk q) as [j|] eqn:Hj; [|done].
  destruct (decide (getChunkId t = j)) as [<-|Hne]; [|by rewrite lookup_insert_ne].
  rewrite lookup_insert_eq. destruct (qi_ready _ Hq _ Hj) as [c Hc]. rewrite Hc. simpl.
  unfold ct_queTask. by destruct (ct_active c).
Qed.

Lemma ready_task_remove t q q' o : q_removeTask t q = (q', o) -> ready_task q' = ready_task q.
Proof.
  unfold q_removeTask. destruct (q_chunkMap q !! getChunkId t) as [c|] eqn:E; [|by intros [= <- <-]].
  destruct (ct_removeTask t c) as [c' r] eqn:Er. apply ct_removeTask_frame in Er as (_ & _ & Hr & _).
  intros [= <- <-]. pose proof (ready_task_set_chunk _ c c' q E Hr) as H. by destruct r.
Qed.

Lemma removeTask_job t q q' x :
  queue_inv q -> q_removeTask t q = (q', Some x) -> same_job t x.
Proof.
  intros Hq Heq. pose proof (removeTask_tasks _ _ _ _ Heq) as Hp. unfold q_removeTask in Heq.
  destruct (q_chunkMap q !! getChunkId t) as [c|] eqn:E; [|done].
  destruct (ct_removeTask t c) as [c' r] eqn:Er. destruct r; simplify_eq.
  pose proof (ok_tasks _ _ _ _ (qi_chunks _ Hq _ _ E)) as Hf. pose proof (ct_removeTask_tasks _ _ _ _ Er) as Hc.
  rewrite Hc in Hf. simpl in Hf. apply Forall_cons in Hf as [Hf _]. split; [done|].
  unfold ct_removeTask in Er.
  destruct (eraseFunc _ _ (ct_activeTasks c)) as [[y l]|] eqn:E1; simplify_eq; [by apply eraseFunc_Some in E1 as (_ & ?)|].
  destruct (eraseFunc _ _ (ct_pendingTasks c)) as [[y l]|] eqn:E2; simplify_eq. by apply eraseFunc_Some in E2 as (_ & ?).
Qed.

Lemma removeTask_missing t q q' :
  queue_inv q -> q_removeTask t q = (q', None) -> Forall (fun x => ~ same_job t x) (waiting q).
Proof.
  intros Hq Heq. apply Forall_forall. intros x Hx (Hch & Hqi & Hji).
  apply elem_of_mcollect in Hx as (k & c & Hk & Hin).
  pose proof (ok_tasks _ _ _ _ (qi_chunks _ Hq _ _ Hk)) as Hf. rewrite Forall_forall in Hf.
  assert (Hk' : getChunkId t = k).
  { rewrite <- Hch. apply Hf. unfold ct_tasks. set_solver. }
  unfold q_removeTask in Heq. rewrite Hk', Hk in Heq. destruct (ct_removeTask t c) as [c' r] eqn:Er.
  destruct r; simplify_eq. unfold ct_removeTask in Er.
  destruct (eraseFunc _ _ (ct_activeTasks c)) as [[]|] eqn:E1; simplify_eq.
  destruct (eraseFunc _ _ (ct_pendingTasks c)) as [[]|] eqn:E2; simplify_eq.
  apply eraseFunc_None in E1, E2. rewrite Forall_forall in E1, E2.
  assert (Hm : idsMatch x (t_qId t) (t_jId t) = true) by (unfold idsMatch; by rewrite Hqi, Hji, !Z.eqb_refl).
  apply elem_of_app in Hin as [Hin|Hin]; [rewrite (E1 _ Hin) in Hm|rewrite (E2 _ Hin) in Hm]; done.
Qed.
End exec.

(** ** The theorems *)

Section theorems.
Context {M : Type} `{HM : MemMan M} `{HL : !MemManLaws M}.
Implicit Types (w : World M) (sched : option SchedulerBase).

Lemma spec_step_ready flex sched q w :
  queue_inv q -> world_ok w ->
  q_exec sched (OpReady flex) q w = Raise BadException \/
  exists q' w' r, q_exec sched (OpReady flex) q w = Ret (q', w', r) /\
    spec_step (OpReady flex) (abs q) r (abs q').
Proof.
  intros Hq Hw. simpl. destruct (q_readyChunk q) as [k|] eqn:Hk.
  - right. unfold q_ready. rewrite Hk. eexists _, _, _. split; [done|]. unfold abs.
    destruct (ready_task_Some q k Hq Hk) as (c & t & Hc & Ht).
    rewrite (ready_task_at q k c t Hk Hc Ht). by constructor.
  - pose proof (ready_task_no_chunk q Hk) as Hn.
    destruct (q_ready_spec flex sched q w Hw Hq Hk) as [->|(q' & w' & b & E & Ht & _ & Hpost)]; [by left|].
    right. assert (Hq' : queue_inv q').
    { apply (q_exec_inv sched (OpReady flex) q w q' w' (RBool b)); [done|done|]. simpl. by rewrite E. }
    rewrite E. eexists _, _, _. split; [done|]. unfold abs. rewrite Hn.
    apply Permutation_sym in Ht. rewrite !q_tasks_split, Hn in Ht by done. simpl in Ht. destruct b.
    + destruct Hpost as (n & k & _ & Hk' & [_ (c & t & Hc & Hct & _)] & _).
      rewrite (ready_task_at q' k c t Hk' Hc Hct) in *. by constructor.
    + destruct Hpost as (Hk' & _). rewrite (ready_task_no_chunk q' Hk') in *. by constructor.
Qed.

Lemma spec_step_get flex sched q w :
  queue_inv q -> world_ok w ->
  q_exec sched (OpGet flex) q w = Raise BadException \/
  exists q' w' r, q_exec sched (OpGet flex) q w = Ret (q', w', r) /\
    spec_step (OpGet flex) (abs q) r (abs q').
Proof.
  intros Hq Hw. simpl.
  destruct (q_getTask_spec flex sched q w Hw Hq) as [->|(q' & w' & o & -> & Hq' & Hk' & Ht & Hpost)]; [by left|].
  right. eexists _, _, _. split; [done|]. unfold abs. rewrite (ready_task_no_chunk q' Hk').
  rewrite !q_tasks_split, (ready_task_no_chunk q' Hk') in Ht by done. simpl in Ht. destruct o as [t|].
  - destruct Hpost as (_ & [[Hr _]|[Hr _]]); rewrite Hr in *; simpl in Ht; constructor.
    + symmetry. by apply (Permutation_app_inv_l [t]).
    + done.
  - destruct Hpost as (Hr & _). rewrite Hr in *. by constructor.
Qed.

(** C20. Refinement: from every reachable state each operation of
    [ChunkTasksQueue] either throws [std::bad_exception] or returns and
    simulates a step of the abstract machine, in which tasks wait, at most
    one is promised, and no task is lost, duplicated or invented.  In
    particular the search loop of [_ready] terminates. *)
Theorem queue_refines_spec sched op q w :
  q_reach q -> world_ok w ->
  q_exec sched op q w = Raise BadException \/
  exists q' w' r, q_exec sched op q w = Ret (q', w', r) /\ spec_step op (abs q) r (abs q').
Proof.
  intros Hq%q_reach_inv Hw. destruct op as [t|flex|flex|t|t].
  - right. eexists _, _, _. split; [done|]. unfold abs. rewrite (ready_task_queue t q Hq). constructor.
    apply (waiting_cancel q (q_queueTask t q) [t]); auto using queueTask_inv, ready_task_queue.
    by rewrite queueTask_tasks.
  - by apply spec_step_ready.
  - by apply spec_step_get.
  - right. eexists _, _, _. split; [done|].
    assert (Hr : ready_task (q_taskComplete t q) = ready_task q).
    { unfold q_taskComplete. destruct (q_chunkMap q !! getChunkId t) as [c|] eqn:E; [|done].
      by apply (ready_task_set_chunk _ c). }
    unfold abs. rewrite Hr. constructor.
    apply (waiting_cancel q (q_taskComplete t q) []); auto using taskComplete_inv.
    by rewrite taskComplete_tasks.
  - right. simpl. destruct (q_removeTask t q) as [q' o] eqn:E. eexists _, _, _. split; [done|].
    pose proof (removeTask_inv _ _ _ _ Hq E) as Hq'. pose proof (ready_task_remove _ _ _ _ E) as Hr.
    pose proof (waiting_cancel q' q (option_list o) Hq' Hq ltac:(done) (removeTask_tasks _ _ _ _ E)) as Hw'.
    unfold abs. rewrite Hr. destruct o as [x|]; simpl in Hw'.
    + constructor; [done|]. exact (removeTask_job t q q' x Hq E).
    + constructor; [by symmetry|]. exact (removeTask_missing t q q' Hq E).
Qed.

(** [getSize] is the number of tasks in the queue, the promised one included. *)
Theorem queue_size_exact q :
  q_reach q -> q_getSize q = Z.of_nat (length (waiting q) + length (option_list (ready_task q))).
Proof.
  intros Hq%q_reach_inv. unfold q_getSize. rewrite (qi_count _ Hq), (q_tasks_split q Hq), length_app. lia.
Qed.

(** When [ready] says no there is a reason: nothing waits; the first
    chunk of the round that has tasks to run is denied memory (it is never
    skipped); the scheduler may not start another chunk; or everything left
    waits behind tasks in flight on the active chunk. *)
Theorem not_ready_reason flex sched q w q' w' :
  q_reach q -> world_ok w -> q_ready flex sched q w = Ret (q', w', false) -> why_not sched q'.
Proof.
  intros Hq%q_reach_inv Hw Heq. destruct (q_readyChunk q) as [k|] eqn:Hk.
  { unfold q_ready in Heq. by rewrite Hk in Heq. }
  destruct (q_ready_spec flex sched q w Hw Hq Hk) as [E|(q1 & w1 & b & E & _ & _ & Hpost)]; [congruence|].
  rewrite Heq in E. simplify_eq. apply Hpost.
Qed.

(** The task that [ready] promises has a memory handle, and comes from
    the first chunk, in ascending cyclic order from the active chunk, that
    has tasks to run. *)
Theorem ready_scan_order flex sched q w q' w' :
  q_reach q -> world_ok w -> ready_task q = None -> q_ready flex sched q w = Ret (q', w', true) ->
  exists n t, q_activeChunk q' = Some n /\ ready_task q' = Some t /\ hasMemHandle w' t = true /\
    forall j, after n j (getChunkId t) -> active_tasks q' j = [].
Proof.
  intros Hq%q_reach_inv Hw Hn Heq. pose proof (ready_task_None q Hq Hn) as Hk.
  destruct (q_ready_spec flex sched q w Hw Hq Hk) as [E|(q1 & w1 & b & E & _ & _ & Hpost)]; [congruence|].
  rewrite Heq in E. simplify_eq. destruct Hpost as (n & k & Hact & Hk' & [Hi (c & t & Hc & Ht & Hh & _)] & Haf).
  exists n, t. split; [done|]. split; [by eapply ready_task_at|]. split; [done|].
  replace (getChunkId t) with k; [done|].
  pose proof (ok_tasks _ _ _ _ (qi_chunks _ Hi k c Hc)) as Hf. unfold ct_tasks in Hf. rewrite Ht in Hf.
  simpl in Hf. by apply Forall_cons in Hf as [? _].
Qed.

(** The active chunk stays active, with its pending tasks untouched,
    while it has tasks to run or in flight; then the scan moves to the next
    chunk id, wrapping around. *)
Theorem active_chunk_advances flex sched q w q' w' b k c :
  q_reach q -> world_ok w -> ready_task q = None -> q_ready flex sched q w = Ret (q', w', b) ->
  q_activeChunk q = Some k -> q_chunkMap q !! k = Some c ->
  if ct_readyToAdvance c
  then q_activeChunk q' = cyc_next (q_chunkMap q) k \/ (q_activeChunk q' = None /\ q_tasks q = [])
  else q_activeChunk q' = Some k /\ pending_tasks q' k = pending_tasks q k.
Proof.
  intros Hq%q_reach_inv Hw Hn Heq. pose proof (ready_task_None q Hq Hn) as Hk.
  destruct (q_ready_spec flex sched q w Hw Hq Hk) as [E|(q1 & w1 & b1 & E & _ & Hrule & _)]; [congruence|].
  rewrite Heq in E. simplify_eq. apply Hrule.
Qed.

(** Reachable queues in which every task scans [n] tables. *)
Inductive q_reach_n (n : nat) : ChunkTasksQueue -> Prop :=
| q_reach_n_init : q_reach_n n ChunkTasksQueue_ctor
| q_reach_n_step sched op q w q' w' r :
    q_reach_n n q -> (forall t, op = OpQueue t -> num_tables t = n) ->
    q_exec sched op q w = Ret (q', w', r) -> q_reach_n n q'.

Lemma q_reach_n_ok n q : q_reach_n n q -> all_ok n q.
Proof.
  induction 1 as [|sched op q w q' w' r _ Hq Hop Heq]; [apply map_Forall_empty|].
  destruct op as [t|flex|flex|t|t]; simpl in Heq.
  - simplify_eq. apply (all_ok_set n _ _ (q_set_count _ q)); [done|].
    apply heap_ok_queTask; [by apply Hop|].
    destruct (q_chunkMap q !! getChunkId t) as [c|] eqn:E; simpl; [by eapply Hq|apply heap_ok_ctor].
  - unbind Heq. destruct r0 as [[q1 w1] b]. simplify_eq/=. by eapply q_ready_all_ok.
  - unbind Heq. destruct r0 as [[q1 w1] b]. simplify_eq/=. by eapply q_getTask_all_ok.
  - simplify_eq. unfold q_taskComplete. destruct (q_chunkMap q !! getChunkId t) as [c|] eqn:E; [|done].
    apply all_ok_set; [done|]. by apply (Hq _ _ E).
  - unfold q_removeTask in Heq. destruct (q_chunkMap q !! getChunkId t) as [c|] eqn:E; [|by simplify_eq].
    destruct (ct_removeTask t c) as [c' o] eqn:Er.
    assert (Hok : all_ok n (q_set_chunk (getChunkId t) c' q)).
    { apply all_ok_set; [done|]. eapply heap_ok_removeTask; [|exact Er]. by apply (Hq _ _ E). }
    by destruct o; simplify_eq.
Qed.

(** Slowest scan first: when the queued tasks all scan the same number
    of tables, the task that a chunk offers is at least as slow, by
    [compareTables], as every other task of the chunk that may run. *)
Theorem slowest_first n q k c flex w c' w' :
  q_reach_n n q -> q_chunkMap q !! k = Some c -> ct_readyTask c = None ->
  ct_ready flex c w = Ret (c', w', READY) ->
  exists t, ct_readyTask c' = Some t /\
    forall t', t' ∈ ct_activeTasks c' -> 0 <= compareTables (t_scanInfo t) (t_scanInfo t').
Proof.
  intros Hq%q_reach_n_ok Hc Hn Heq. pose proof (Hq k c Hc) as Hok. unfold ct_ready in Heq. rewrite Hn in Heq.
  destruct (heap_top (ct_activeTasks c)) as [t|] eqn:Ht; [|done]. exists t.
  assert (Hc' : ct_readyTask c' = Some t /\ ct_activeTasks c' = heap_pop (ct_activeTasks c)).
  { destruct (negb _); [|by injection Heq as <- _].
    unbind Heq. destruct r as [w1 [|]]; [by injection Heq as <- _|done]. }
  destruct Hc' as [Hr Ha]. split; [done|]. intros t' Ht'.
  apply (heap_top_slowest n t (ct_activeTasks c)); [by apply heap_ok_parts|apply Hok|done|].
  rewrite <- (heap_pop_Permutation t _ Ht), <- Ha. by right.
Qed.
End theorems.

(** ** Witnesses

    A queue with two tasks on chunk 5 and one on chunk 3, over a manager that
    grants everything and one that denies every required lock. *)

Module QSim.
Definition task (p : nat) (chunk : Z) (rating : Z) : Task :=
  Task_ctor p (mkTaskMsg 1 (Z.of_nat p) 0 None (Some chunk) [mkScanTableInfo "db" "Obj" true rating] 10 false).

Definition a : Task := task 0 5 10.
Definition b : Task := task 1 5 30.
Definition d : Task := task 2 3 10.

Definition grants : World MemManNone := mkWorld (mkMemManNone true) ∅.
Definition denies : World MemManNone := mkWorld (mkMemManNone false) ∅.

Definition three : ChunkTasksQueue := q_queueTask d (q_queueTask b (q_queueTask a ChunkTasksQueue_ctor)).

Lemma world_ok_any (w : World MemManNone) : world_ok w.
Proof. done. Qed.

Lemma reach_queue t (q : ChunkTasksQueue) : q_reach (M := MemManNone) q -> q_reach (M := MemManNone) (q_queueTask t q).
Proof. intros Hq. by apply (q_reach_step None (OpQueue t) q grants (q_queueTask t q) grants RUnit). Qed.

Lemma three_reach : q_reach (M := MemManNone) three.
Proof. repeat apply reach_queue. constructor. Qed.

(** After the task of chunk 3 was taken. *)
Definition taken : ChunkTasksQueue :=
  match q_getTask false None three grants with Ret (q, _, _) => q | Raise _ => three end.
Definition taken_world : World MemManNone :=
  match q_getTask false None three grants with Ret (_, w, _) => w | Raise _ => grants end.

Lemma taken_reach : q_reach (M := MemManNone) taken.
Proof.
  apply (q_reach_step None (OpGet false) three grants taken taken_world (RTask (Some d)) three_reach);
    [done|]. vm_compute. reflexivity.
Qed.

Lemma reach_n_queue t (q : ChunkTasksQueue) :
  num_tables t = 1%nat -> q_reach_n (M := MemManNone) 1 q -> q_reach_n (M := MemManNone) 1 (q_queueTask t q).
Proof.
  intros Ht Hq. apply (q_reach_n_step 1 None (OpQueue t) q grants (q_queueTask t q) grants RUnit); [done| |done].
  by intros t' [= <-].
Qed.

Lemma three_reach_n : q_reach_n (M := MemManNone) 1 three.
Proof. repeat (apply reach_n_queue; [reflexivity|]). constructor. Qed.
End QSim.

Lemma queue_refines_spec_witness :
  exists q' w' r, q_exec None (OpGet false) QSim.three QSim.grants = Ret (q', w', r) /\
    spec_step (OpGet false) (abs QSim.three) r (abs q').
Proof.
  destruct (queue_refines_spec None (OpGet false) QSim.three QSim.grants QSim.three_reach (QSim.world_ok_any _))
    as [H|H]; [vm_compute in H; discriminate|exact H].
Defined.

Lemma queue_size_exact_witness :
  q_getSize QSim.three = 3 /\ (length (waiting QSim.three) + length (option_list (ready_task QSim.three)))%nat = 3%nat.
Proof.
  split; [reflexivity|]. apply Nat2Z.inj. rewrite <- (queue_size_exact QSim.three QSim.three_reach). reflexivity.
Defined.

Lemma not_ready_reason_witness :
  exists q' w', q_ready false None QSim.three QSim.denies = Ret (q', w', false) /\ why_not None q'.
Proof.
  destruct (q_ready false None QSim.three QSim.denies) as [[[q' w'] b]|e] eqn:E;
    [|vm_compute in E; discriminate].
  assert (b = false) as -> by (vm_compute in E; congruence).
  exists q', w'. split; [reflexivity|]. exact (not_ready_reason false None _ _ q' w' QSim.three_reach (QSim.world_ok_any _) E).
Defined.

Lemma ready_scan_order_witness :
  exists q' w' n t, q_ready false None QSim.three QSim.grants = Ret (q', w', true) /\
    q_activeChunk q' = Some n /\ ready_task q' = Some t /\ hasMemHandle w' t = true.
Proof.
  destruct (q_ready false None QSim.three QSim.grants) as [[[q' w'] b]|e] eqn:E;
    [|vm_compute in E; discriminate].
  assert (b = true) as -> by (vm_compute in E; congruence).
  destruct (ready_scan_order false None _ _ q' w' QSim.three_reach (QSim.world_ok_any _) eq_refl E) as (n & t & Hn & Ht & Hh & _).
  exists q', w', n, t. auto.
Defined.

Lemma active_chunk_advances_witness :
  exists q' w' b c, q_ready false None QSim.taken QSim.taken_world = Ret (q', w', b) /\
    q_chunkMap QSim.taken !! 3 = Some c /\ ct_readyToAdvance c = false /\ q_activeChunk q' = Some 3.
Proof.
  destruct (q_ready false None QSim.taken QSim.taken_world) as [[[q' w'] b]|e] eqn:E;
    [|vm_compute in E; discriminate].
  destruct (q_chunkMap QSim.taken !! 3) as [c|] eqn:Ec; [|vm_compute in Ec; discriminate].
  exists q', w', b, c. split; [reflexivity|]. split; [reflexivity|].
  assert (Ha : ct_readyToAdvance c = false) by (vm_compute in Ec; injection Ec as <-; reflexivity).
  split; [exact Ha|].
  pose proof (active_chunk_advances false None _ _ q' w' b 3 c QSim.taken_reach (QSim.world_ok_any _) eq_refl E eq_refl Ec) as H.
  rewrite Ha in H. apply H.
Defined.

Lemma slowest_first_witness :
  exists c c' w' t, q_chunkMap QSim.three !! 5 = Some c /\
    ct_ready false c QSim.grants = Ret (c', w', READY) /\ ct_readyTask c' = Some t /\
    forall t', t' ∈ ct_activeTasks c' -> 0 <= compareTables (t_scanInfo t) (t_scanInfo t').
Proof.
  destruct (q_chunkMap QSim.three !! 5) as [c|] eqn:Ec; [|vm_compute in Ec; discriminate].
  destruct (ct_ready false c QSim.grants) as [[[c' w'] st]|e] eqn:E.
  2: { vm_compute in Ec; injection Ec as <-; vm_compute in E; discriminate. }
  assert (Hst : st = READY) by (vm_compute in Ec; injection Ec as <-; vm_compute in E; congruence).
  assert (Hn : ct_readyTask c = None) by (vm_compute in Ec; injection Ec as <-; reflexivity).
  rewrite Hst in E.
  destruct (slowest_first 1 QSim.three 5 c false QSim.grants c' w' QSim.three_reach_n Ec Hn E) as (t & Ht & Hall).
  exists c, c', w', t. auto.
Defined.
