(* ===== verification/ScanScheduler.v ===== *)
(** * The scan scheduler

    [wsched/ScanScheduler.h] and [.cc].  Every method that takes
    [CommandQueue::_mx] is one atomic step.  [getCmd(true)] waits on the
    condition variable until [_ready()] holds: it is a sequence of [_ready]
    steps that return false followed by a [getCmd(false)] that succeeds.
    [_infoChanged] and the statistics only steer logging. *)

From S2P Require Import Prelude.
From S2P Require Import MemMan.
From S2P Require Import MemManInv.
From S2P Require Import MemManLaws.
From S2P Require Import Double.
From S2P Require Import Task.
From S2P Require Import SchedulerBase.
From S2P Require Import ChunkTasks.
From S2P Require Import ChunkTasksQueue.
From S2P Require Import ChunkTasksQueueInv.
From S2P Require Import ChunkTasksQueueThms.

(** [class ScanScheduler] *)
Record ScanScheduler := mkScanScheduler {
  ss_base : SchedulerBase;
  ss_taskQueue : ChunkTasksQueue;
  ss_memManHandleToUnlock : Z;
  ss_minRating : Z;
  ss_maxRating : Z;
  ss_maxTimeMinutes : double;
}.

(** [ScanScheduler(name, maxThreads, maxReserve, priority, maxActiveChunks,
    memMan, minRating, maxRating, maxTimeMinutes)] *)
Definition ScanScheduler_ctor (name : string) (maxThreads maxReserve priority maxActiveChunks
    minRating maxRating : Z) (maxTimeMinutes : double) : outcome ScanScheduler :=
  if minRating <=? maxRating then
    Ret (mkScanScheduler (SchedulerBase_ctor name maxThreads maxReserve maxActiveChunks priority)
           ChunkTasksQueue_ctor HandleType.INVALID minRating maxRating maxTimeMinutes)
  else Raise AssertFailed.

Implicit Types (s : ScanScheduler) (t : Task).

Definition ss_set_base (b : SchedulerBase) s : ScanScheduler :=
  mkScanScheduler b (ss_taskQueue s) (ss_memManHandleToUnlock s) (ss_minRating s) (ss_maxRating s)
    (ss_maxTimeMinutes s).
Definition ss_set_queue (q : ChunkTasksQueue) s : ScanScheduler :=
  mkScanScheduler (ss_base s) q (ss_memManHandleToUnlock s) (ss_minRating s) (ss_maxRating s)
    (ss_maxTimeMinutes s).
Definition ss_set_handle (h : Z) s : ScanScheduler :=
  mkScanScheduler (ss_base s) (ss_taskQueue s) h (ss_minRating s) (ss_maxRating s)
    (ss_maxTimeMinutes s).

(** [bool isRatingInRange(int rating)] *)
Definition isRatingInRange (rating : Z) s : bool := (ss_minRating s <=? rating) && (rating <=? ss_maxRating s).

(** [std::size_t getSize() const] *)
Definition ss_getSize s : Z := q_getSize (ss_taskQueue s).

Section scan_scheduler.
Context {M : Type} `{HM : MemMan M}.
Implicit Types (w : World M).

(** Unlock the deferred handle, if there is one. *)
Definition unlock_deferred s w : outcome (ScanScheduler * World M) :=
  if ss_memManHandleToUnlock s =? HandleType.INVALID then Ret (s, w)
  else
    let? (m, _) := mm_unlock (ss_memManHandleToUnlock s) (w_mm w) in
    Ret (ss_set_handle HandleType.INVALID s, set_mm m w).

(** [void commandFinish(util::Command::Ptr const& cmd)] *)
Definition ss_commandFinish (t : Task) s w : outcome (ScanScheduler * World M) :=
  let s1 := ss_set_queue (q_taskComplete t (ss_taskQueue s)) s in
  let s2 := ss_set_base (set_inFlight (b_inFlight (ss_base s1) - 1) (ss_base s1)) s1 in
  let? (s3, w3) := unlock_deferred s2 w in
  let? (s4, w4) :=
    (if negb (q_empty (ss_taskQueue s3)) then Ret (ss_set_handle (getMemHandle w3 t) s3, w3)
     else
       let? (m, _) := mm_unlock (getMemHandle w3 t) (w_mm w3) in
       Ret (s3, set_mm m w3)) in
  Ret (ss_set_base (decrChunkTaskCount (getChunkId t) (ss_base s4)) s4, w4).

(** [_taskQueue->ready(useFlexibleLock)] *)
Definition queue_ready (useFlexibleLock : bool) s w : outcome (ScanScheduler * World M * bool) :=
  let? (q, w1, rdy) := q_ready useFlexibleLock (Some (ss_base s)) (ss_taskQueue s) w in
  Ret (ss_set_queue q s, w1, rdy).

(** [bool _ready()] *)
Definition ss_ready s w : outcome (ScanScheduler * World M * bool) :=
  if maxInFlight (ss_base s) <=? b_inFlight (ss_base s) then Ret (s, w, false)
  else
    let useFlexibleLock := b_inFlight (ss_base s) <? 1 in
    let? (s1, w1, rdy) := queue_ready useFlexibleLock s w in
    if ss_memManHandleToUnlock s1 =? HandleType.INVALID then Ret (s1, w1, rdy)
    else
      let? (s2, w2) := unlock_deferred s1 w1 in
      if rdy then Ret (s2, w2, true) else queue_ready useFlexibleLock s2 w2.

(** [util::Command::Ptr getCmd(bool wait)] with [wait = false] *)
Definition ss_getCmd s w : outcome (ScanScheduler * World M * option Task) :=
  let? (s1, w1, rdy) := ss_ready s w in
  if negb rdy then Ret (s1, w1, None)
  else
    let useFlexibleLock := b_inFlight (ss_base s1) <? 1 in
    let? (q, w2, task) := q_getTask useFlexibleLock (Some (ss_base s1)) (ss_taskQueue s1) w1 in
    let s2 := ss_set_queue q s1 in
    match task with
    | None => Ret (s2, w2, None)
    | Some t =>
        let b1 := set_inFlight (b_inFlight (ss_base s2) + 1) (ss_base s2) in
        let b2 := (decrCountForUserQuery (t_qId t) b1).1 in
        Ret (ss_set_base (incrChunkTaskCount (getChunkId t) b2) s2, w2, Some t)
    end.

(** [void queCmd(util::Command::Ptr const& cmd)] *)
Definition ss_queCmd (t : Task) s w : ScanScheduler * World M :=
  let b := (incrCountForUserQuery (t_qId t) (ss_base s)).1 in
  (ss_set_queue (q_queueTask t (ss_taskQueue s)) (ss_set_base b s), setMemMan t w).

(** [bool removeTask(wbase::Task::Ptr const& task, bool removeRunning)]; the
    second result says that the running task is asked to leave the pool. *)
Definition ss_removeTask (task : Task) (removeRunning : bool) s w : ScanScheduler * bool * bool :=
  let '(q, rmTask) := q_removeTask task (ss_taskQueue s) in
  let s1 := ss_set_queue q s in
  match rmTask with
  | Some _ => (s1, true, false)
  | None =>
      if negb removeRunning then (s1, false, false)
      else if negb (v_safeToMoveRunning (vars w task)) then (s1, false, false)
      else (s1, false, true)
  end.
End scan_scheduler.

(** ** Memory handles of a scan scheduler

    Who owns the handles that the memory manager granted to the tasks of one
    scan scheduler: a running task, the promised task, or the deferred handle
    [_memManHandleToUnlock].  Proved against the contract of the manager. *)

Implicit Types (q : ChunkTasksQueue) (run : list Task) (d : Z) (failed : gset nat) (ours : gset Z).

Section resources.
Context {M : Type} `{HM : MemMan M} `{HL : !MemManLaws M}.
Implicit Types (w : World M).

(** The tasks that were granted a handle: running or promised. *)
Definition holders q run : list Task := run ++ option_list (ready_task q).

(** Their handles and the deferred one; [INVALID] and [ISEMPTY] do not count. *)
Definition handles q d run w : list Z :=
  filter (fun h => 1 < h) (d :: (getMemHandle w <$> holders q run)).

(** [run] are the tasks handed out and not finished, [failed] those whose
    [lock] failed (which releases the handle), [ours] all handles ever
    granted to tasks of this scheduler, [d] the deferred handle. *)
Record res_inv q d run failed ours w : Prop := {
  rv_queue : queue_inv q;
  rv_mm : mm_inv (w_mm w);
  rv_ptrs : NoDup (t_ptr <$> run ++ q_tasks q);
  rv_wait : Forall (fun t => getMemHandle w t = HandleType.INVALID) (waiting q);
  rv_hold : Forall (fun t => getMemHandle w t <> HandleType.INVALID) (holders q run);
  rv_nodup : NoDup (handles q d run w);
  rv_safe : Forall (fun t => 1 < getMemHandle w t -> t_ptr t ∉ failed -> getMemHandle w t ∈ mm_live (w_mm w))
              (holders q run);
  rv_sub : forall h, h ∈ handles q d run w -> h ∈ ours;
  rv_leak : forall h, h ∈ ours -> h ∈ mm_live (w_mm w) -> h ∈ handles q d run w;
  rv_last : forall h, h ∈ ours -> h <= mm_last (w_mm w);
}.

Lemma elem_of_handles q d run w h :
  h ∈ handles q d run w <-> 1 < h /\ (h = d \/ exists t, t ∈ holders q run /\ h = getMemHandle w t).
Proof.
  unfold handles. rewrite list_elem_of_filter, elem_of_cons, list_elem_of_fmap. naive_solver.
Qed.

Lemma holders_in q run t : queue_inv q -> t ∈ holders q run -> t ∈ run ++ q_tasks q.
Proof.
  intros Hq. unfold holders. rewrite !elem_of_app, (q_tasks_split q Hq), elem_of_app. tauto.
Qed.

Lemma waiting_in q run t : queue_inv q -> t ∈ waiting q -> t ∈ run ++ q_tasks q.
Proof. intros Hq. rewrite elem_of_app, (q_tasks_split q Hq), elem_of_app. tauto. Qed.

Lemma handles_cong q q' d run w w' :
  ready_task q' = ready_task q -> (forall t, t ∈ holders q run -> getMemHandle w' t = getMemHandle w t) ->
  handles q' d run w' = handles q d run w.
Proof.
  intros Hr Hh. unfold handles, holders in *. rewrite Hr. do 2 f_equal.
  apply list_fmap_ext. intros i t Hi. apply Hh. by eapply list_elem_of_lookup_2.
Qed.

(** What other parts of the worker may do between two steps. *)
Definition rely q run ours w w' : Prop :=
  mm_inv (w_mm w') /\ mm_last (w_mm w) <= mm_last (w_mm w') /\
  (forall t, t ∈ run ++ q_tasks q -> getMemHandle w' t = getMemHandle w t) /\
  (forall h, h ∈ ours -> h ∈ mm_live (w_mm w') <-> h ∈ mm_live (w_mm w)).

Lemma res_world q q' d run failed ours w w' :
  res_inv q d run failed ours w -> queue_inv q' -> q_tasks q' ≡ₚ q_tasks q -> ready_task q' = ready_task q ->
  rely q run ours w w' -> res_inv q' d run failed ours w'.
Proof.
  intros [Hq Hm Hp Hw Hh Hn Hs Hsub Hl Hla] Hq' Ht Hr (Hm' & Hlast & Heq & Hlive).
  assert (Hwait : waiting q' ≡ₚ waiting q) by (by apply (waiting_cancel q q' [] Hq Hq' Hr)).
  assert (Hhold : holders q' run = holders q run) by (unfold holders; by rewrite Hr).
  assert (Heqh : forall t, t ∈ holders q run -> getMemHandle w' t = getMemHandle w t).
  { intros t Hin. apply Heq. by apply holders_in. }
  assert (Hhs : handles q' d run w' = handles q d run w) by (by apply handles_cong).
  rewrite Forall_forall in Hw, Hh, Hs. split; rewrite ?Hhs; auto.
  - by rewrite Ht.
  - rewrite Hwait. apply Forall_forall. intros t Hin. rewrite Heq by (by apply waiting_in). by apply Hw.
  - rewrite Hhold. apply Forall_forall. intros t Hin. rewrite Heqh by done. by apply Hh.
  - rewrite Hhold. apply Forall_forall. intros t Hin. rewrite Heqh by done. intros Hgt Hf.
    apply Hlive; [|by apply Hs]. apply Hsub, elem_of_handles. eauto.
  - intros h Ho Hin. apply Hl; [done|]. by apply Hlive.
  - intros h Ho. specialize (Hla h Ho). lia.
Qed.

Lemma rely_refl q run ours w : mm_inv (w_mm w) -> rely q run ours w w.
Proof. unfold rely. intros. repeat split; auto; lia. Qed.

(** The order of the running tasks does not matter. *)
Lemma res_perm q d run run' failed ours w :
  run ≡ₚ run' -> res_inv q d run failed ours w -> res_inv q d run' failed ours w.
Proof.
  intros Hp [Hq Hm Hpt Hw Hh Hn Hs Hsub Hl Hla].
  assert (Hho : holders q run ≡ₚ holders q run') by (unfold holders; by rewrite Hp).
  assert (Hhs : handles q d run w ≡ₚ handles q d run' w) by (unfold handles; by rewrite Hho).
  split; auto.
  - by rewrite <- Hp.
  - by rewrite <- Hho.
  - by rewrite <- Hhs.
  - by rewrite <- Hho.
  - intros h. rewrite <- Hhs. auto.
  - intros h. rewrite <- Hhs. auto.
Qed.

(** ** Granting *)

Lemma grant_other w w' t t' :
  grant w w' (Some t) -> t_ptr t <> t_ptr t' -> getMemHandle w' t' = getMemHandle w t'.
Proof.
  intros (_ & h & _ & Ht & _) Hne. rewrite (handle_cong _ _ t' Ht), getMemHandle_set.
  by rewrite decide_False.
Qed.

(** What a grant does: the handle is empty, or it is new and live. *)
Lemma grant_handle w w' t :
  grant w w' (Some t) ->
  (getMemHandle w' t = HandleType.ISEMPTY \/ 1 < getMemHandle w' t) /\
  mm_last (w_mm w) <= mm_last (w_mm w') /\
  (1 < getMemHandle w' t -> mm_last (w_mm w) < getMemHandle w' t <= mm_last (w_mm w')) /\
  (forall x, x ∈ mm_live (w_mm w') <->
     x ∈ mm_live (w_mm w) \/ (1 < getMemHandle w' t /\ x = getMemHandle w' t)).
Proof.
  intros (_ & h & _ & Hts & Hor).
  assert (Hht : getMemHandle w' t = h).
  { rewrite (handle_cong _ _ t Hts), getMemHandle_set. by rewrite decide_True. }
  rewrite Hht. unfold HandleType.ISEMPTY in *. split; [lia|]. split; [lia|]. split; [lia|].
  intros x. destruct Hor as [(-> & -> & _)|(? & _ & _ & ->)].
  - split; [auto|]. intros [?|[? _]]; [done|lia].
  - rewrite elem_of_union, elem_of_singleton. naive_solver.
Qed.

Lemma nodup_ptr_ne (l1 l2 : list Task) t t' :
  NoDup (t_ptr <$> l1) -> l1 ≡ₚ t :: l2 -> t' ∈ l2 -> t_ptr t <> t_ptr t'.
Proof.
  intros Hn Hp Hin Heq. rewrite Hp in Hn. simpl in Hn. apply NoDup_cons in Hn as [Hn _]. apply Hn.
  rewrite Heq. by apply list_elem_of_fmap_2.
Qed.

Lemma res_denied q q' d run failed ours w w' :
  res_inv q d run failed ours w -> queue_inv q' -> q_tasks q' ≡ₚ q_tasks q -> ready_task q' = ready_task q ->
  grant w w' None -> res_inv q' d run failed (ours ∪ (mm_live (w_mm w') ∖ mm_live (w_mm w))) w'.
Proof.
  intros Hres Hq' Ht Hr (Hm & Hts & Hl & Hla). rewrite Hl.
  replace (ours ∪ _) with ours by set_solver. apply (res_world q q' _ _ _ _ w); auto.
  split; [done|]. split; [lia|]. split; [|by rewrite Hl]. intros t _. by apply handle_cong.
Qed.

Lemma res_grant q q' d run failed ours w w' t :
  res_inv q d run failed ours w -> queue_inv q' -> q_tasks q' ≡ₚ q_tasks q ->
  ready_task q = None -> ready_task q' = Some t -> grant w w' (Some t) ->
  res_inv q' d run failed (ours ∪ (mm_live (w_mm w') ∖ mm_live (w_mm w))) w'.
Proof.
  intros [Hq Hm Hp Hw Hh Hn Hs Hsub Hl Hla] Hq' Ht Hr Hr' Hg.
  assert (Hwait : waiting q ≡ₚ t :: waiting q').
  { rewrite (q_tasks_split q Hq), (q_tasks_split q' Hq'), Hr, Hr' in Ht. by symmetry. }
  assert (Hsplit : run ++ q_tasks q ≡ₚ t :: (run ++ waiting q')).
  { rewrite (q_tasks_split q Hq), Hr, Hwait. simpl. by rewrite <- Permutation_middle. }
  assert (Hoth : forall t', t' ∈ run ++ waiting q' -> getMemHandle w' t' = getMemHandle w t').
  { intros t' Hin. eapply grant_other; [exact Hg|]. by eapply nodup_ptr_ne. }
  pose proof (proj1 Hg) as Hm'. destruct (grant_handle w w' t Hg) as (Hor & Hlast1 & Hlast2 & Hlive).
  remember (getMemHandle w' t) as h eqn:Hht. symmetry in Hht.
  assert (Hhs : handles q' d run w' ≡ₚ filter (fun h => 1 < h) [h] ++ handles q d run w).
  { unfold handles, holders. rewrite Hr, Hr'. simpl. rewrite app_nil_r, fmap_app. simpl. rewrite Hht.
    assert (Hrun : getMemHandle w' <$> run = getMemHandle w <$> run).
    { apply list_fmap_ext. intros i t' Hi. apply Hoth, elem_of_app. left. by eapply list_elem_of_lookup_2. }
    rewrite Hrun, <- filter_app. by rewrite <- Permutation_cons_append, Permutation_swap. }
  assert (Hlt : forall x, x ∈ mm_live (w_mm w) -> x <= mm_last (w_mm w)) by (intros x Hx; by apply (mm_live_range _ x Hm)).
  assert (Hold : forall x, x ∈ handles q d run w -> x <= mm_last (w_mm w)) by (intros x Hx; by apply Hla, Hsub).
  assert (Hin' : forall x, x ∈ handles q' d run w' <-> (1 < h /\ x = h) \/ x ∈ handles q d run w).
  { intros x. rewrite Hhs, elem_of_app, list_elem_of_filter, list_elem_of_singleton. naive_solver. }
  assert (Hhold : forall t', t' ∈ holders q' run -> t' = t \/ (t' ∈ holders q run /\ getMemHandle w' t' = getMemHandle w t')).
  { intros t'. unfold holders. rewrite Hr, Hr'. simpl. rewrite app_nil_r, elem_of_app, list_elem_of_singleton.
    intros [Hin|Hin]; [|by left]. right. split; [done|]. apply Hoth. set_solver. }
  rewrite Forall_forall in Hw, Hh, Hs. split; auto.
  - rewrite Ht. done.
  - apply Forall_forall. intros t' Hin. rewrite Hoth by set_solver. apply Hw. rewrite Hwait. by right.
  - apply Forall_forall. intros t' [->|[Hin ->]]%Hhold; [|by apply Hh].
    rewrite Hht. unfold HandleType.ISEMPTY, HandleType.INVALID in *. lia.
  - rewrite Hhs. destruct (decide (1 < h)) as [Hgt|].
    + rewrite filter_cons_True by done. simpl. apply NoDup_cons. split; [|done].
      intros Hin. apply Hold in Hin. lia.
    + by rewrite filter_cons_False.
  - apply Forall_forall. intros t' [->|[Hin ->]]%Hhold Hgt Hf; apply Hlive.
    + right. by rewrite Hht in *.
    + left. by apply Hs.
  - intros x [(Hgt & ->)|Hx]%Hin'; [|set_solver]. apply elem_of_union. right. apply elem_of_difference.
    split; [apply Hlive; auto|]. intros Hx%Hlt. lia.
  - intros x Ho Hx. apply Hin'. apply Hlive in Hx as [Hx|Hx]; [|by left]. right. apply Hl; [|done]. set_solver.
  - intros x [Ho|Ho]%elem_of_union; [specialize (Hla x Ho); lia|].
    apply elem_of_difference in Ho as [Ho _]. apply Hlive in Ho as [Ho|[? ->]]; [apply Hlt in Ho; lia|lia].
Qed.

(** ** The queue operations *)

Lemma waiting_not_ready q t :
  queue_inv q -> ready_task q = Some t -> forall q0, queue_inv q0 -> q_tasks q ≡ₚ q_tasks q0 ->
  ready_task q0 = None -> t ∈ waiting q0.
Proof.
  intros Hq Hr q0 Hq0 Ht Hr0. rewrite (q_tasks_split q Hq), (q_tasks_split q0 Hq0), Hr, Hr0 in Ht. simpl in Ht.
  rewrite <- Ht. by left.
Qed.

(** Handles are only added, with new numbers. *)
Definition grows w w' : Prop :=
  mm_live (w_mm w) ⊆ mm_live (w_mm w') /\ mm_last (w_mm w) <= mm_last (w_mm w') /\
  forall h, h ∈ mm_live (w_mm w') -> h ∈ mm_live (w_mm w) \/ mm_last (w_mm w) < h.

Lemma grant_grows w w' o : grant w w' o -> grows w w'.
Proof.
  unfold grows. intros (_ & Ho). destruct o as [t|].
  - destruct Ho as (h & _ & _ & [(_ & -> & ->)|(? & ? & -> & ->)]); [split; [done|]; split; [lia|auto]|].
    split; [set_solver|]. split; [lia|]. intros x. rewrite elem_of_union, elem_of_singleton. naive_solver.
  - destruct Ho as (_ & -> & ->). split; [done|]. split; [lia|auto].
Qed.

Lemma res_ready flex sched q d run failed ours w :
  res_inv q d run failed ours w -> world_ok w ->
  q_ready flex sched q w = Raise BadException \/
  exists q' w' b, q_ready flex sched q w = Ret (q', w', b) /\
    res_inv q' d run failed (ours ∪ (mm_live (w_mm w') ∖ mm_live (w_mm w))) w' /\
    q_tasks q' ≡ₚ q_tasks q /\ (b = true <-> is_Some (ready_task q')) /\ (b = false -> world_ok w') /\
    grows w w'.
Proof.
  intros Hres Hw. pose proof (rv_queue _ _ _ _ _ _ Hres) as Hq. destruct (q_readyChunk q) as [k|] eqn:Hk.
  { unfold q_ready. rewrite Hk. right. eexists _, _, _. split; [done|].
    replace (ours ∪ _) with ours by set_solver. destruct (ready_task_Some q k Hq Hk) as (c & t & Hc & Ht).
    rewrite (ready_task_at q k c t Hk Hc Ht). split; [done|]. split; [done|]. split; [split; eauto|].
    split; [done|]. by apply (grant_grows w w None), grant_refl, Hw. }
  pose proof (ready_task_no_chunk q Hk) as Hr.
  destruct (q_ready_spec flex sched q w Hw Hq Hk) as [->|(q' & w' & b & Heq & Ht & _ & Hpost)]; [by left|].
  right. assert (Hq' : queue_inv q').
  { apply (q_exec_inv sched (OpReady flex) q w q' w' (RBool b)); [done|done|]. simpl. by rewrite Heq. }
  eexists _, _, _. split; [exact Heq|]. destruct b; simpl in Hpost.
  - destruct Hpost as (n & k & _ & Hk' & [_ (c & t & Hc & Hct & Hh & Hg)] & _).
    pose proof (ready_task_at q' k c t Hk' Hc Hct) as Hr'. rewrite Hr'.
    assert (grows w w') by (destruct Hg as [Hg|Hg]; by eapply grant_grows).
    split; [|split; [done|split; [split; eauto|done]]]. destruct Hg as [Hg|Hg]; [|by eapply res_grant].
    exfalso. pose proof (rv_wait _ _ _ _ _ _ Hres) as Hwt. rewrite Forall_forall in Hwt.
    apply hasMemHandle_spec in Hh. apply Hh. destruct Hg as (_ & Hts & _). rewrite (handle_cong _ _ t Hts).
    apply Hwt. by apply (waiting_not_ready q' t).
  - destruct Hpost as (Hk' & _ & Hg & Hw' & _). pose proof (ready_task_no_chunk q' Hk') as Hr'. rewrite Hr'.
    split; [apply (res_denied q); auto; congruence|]. split; [done|].
    split; [split; [done|by intros []]|]. split; [done|]. by eapply grant_grows.
Qed.

(** Taking the promised task. *)
Lemma res_get flex sched q d run failed ours w t :
  res_inv q d run failed ours w -> ready_task q = Some t ->
  exists q', q_getTask flex sched q w = Ret (q', w, Some t) /\ res_inv q' d (t :: run) failed ours w /\
    q_tasks q ≡ₚ t :: q_tasks q'.
Proof.
  intros Hres Hr. pose proof Hres as [Hq Hm Hp Hwt Hh Hn Hs Hsub Hl Hla].
  destruct (q_readyChunk q) as [k|] eqn:Hk.
  2: { rewrite ready_task_no_chunk in Hr by done. done. }
  destruct (ready_task_Some q k Hq Hk) as (c & t' & Hc & Ht).
  rewrite (ready_task_at q k c t' Hk Hc Ht) in Hr. injection Hr as ->.
  destruct (take_ready flex q w k c t Hq Hk Hc Ht) as (q' & Heq & Hq' & Hk' & _ & Hperm & _).
  exists q'. unfold q_getTask, q_ready. rewrite Hk. simpl. rewrite Hk. split; [exact Heq|].
  split; [|done]. pose proof (ready_task_no_chunk q' Hk') as Hr'.
  pose proof (ready_task_at q k c t Hk Hc Ht) as Hr.
  assert (Hho : holders q' (t :: run) ≡ₚ holders q run).
  { unfold holders. rewrite Hr, Hr'. simpl. by rewrite app_nil_r, Permutation_app_comm. }
  assert (Hhs : handles q' d (t :: run) w ≡ₚ handles q d run w) by (unfold handles; by rewrite Hho).
  split; auto; rewrite ?Hho; auto.
  - rewrite Hperm in Hp. simpl. by rewrite <- Permutation_middle in Hp.
  - rewrite (q_tasks_split q Hq), (q_tasks_split q' Hq'), Hr, Hr' in Hperm. simpl in Hperm.
    apply (Permutation_cons_inv (a := t)) in Hperm. by rewrite <- Hperm.
  - by rewrite Hhs.
  - intros h. rewrite Hhs. auto.
  - intros h. rewrite Hhs. auto.
Qed.

Lemma res_complete q d run failed ours w t :
  res_inv q d run failed ours w -> res_inv (q_taskComplete t q) d run failed ours w.
Proof.
  intros Hres. apply (res_world q _ _ _ _ _ w); auto.
  - apply taskComplete_inv, Hres.
  - apply taskComplete_tasks.
  - unfold q_taskComplete. destruct (q_chunkMap q !! getChunkId t) as [c|] eqn:E; [|done].
    by apply (ready_task_set_chunk _ c).
  - apply rely_refl, Hres.
Qed.

(** A new task: no handle, and not already in the hands of the scheduler. *)
Lemma res_queue q d run failed ours w t w' :
  res_inv q d run failed ours w -> getMemHandle w t = HandleType.INVALID ->
  t_ptr t ∉ (t_ptr <$> run ++ q_tasks q) -> (forall t', getMemHandle w' t' = getMemHandle w t') -> w_mm w' = w_mm w ->
  res_inv (q_queueTask t q) d run failed ours w'.
Proof.
  intros Hres Hnone Hnew Heq Hmm. pose proof Hres as [Hq Hm Hp Hwt Hh Hn Hs Hsub Hl Hla].
  pose proof (queueTask_inv t q Hq) as Hq'. pose proof (ready_task_queue t q Hq) as Hr.
  assert (Hw : waiting (q_queueTask t q) ≡ₚ t :: waiting q).
  { apply (waiting_cancel q (q_queueTask t q) [t]); auto. by rewrite queueTask_tasks. }
  assert (Hhs : handles (q_queueTask t q) d run w' = handles q d run w) by (by apply handles_cong).
  assert (Hho : holders (q_queueTask t q) run = holders q run) by (unfold holders; by rewrite Hr).
  rewrite Forall_forall in Hwt, Hh, Hs. split; rewrite ?Hhs, ?Hmm, ?Hho; auto.
  - rewrite queueTask_tasks, <- Permutation_middle. simpl. by apply NoDup_cons.
  - rewrite Hw. apply Forall_forall. intros x [->|Hx]%elem_of_cons; rewrite Heq; auto.
  - apply Forall_forall. intros x Hx. rewrite Heq. auto.
  - apply Forall_forall. intros x Hx. rewrite Heq. auto.
Qed.

Lemma res_remove q q' d run failed ours w t o :
  res_inv q d run failed ours w -> q_removeTask t q = (q', o) -> res_inv q' d run failed ours w.
Proof.
  intros Hres Heq. pose proof Hres as [Hq Hm Hp Hwt Hh Hn Hs Hsub Hl Hla].
  pose proof (removeTask_inv _ _ _ _ Hq Heq) as Hq'. pose proof (ready_task_remove _ _ _ _ Heq) as Hr.
  pose proof (removeTask_tasks _ _ _ _ Heq) as Ht.
  pose proof (waiting_cancel q' q (option_list o) Hq' Hq ltac:(done) Ht) as Hw.
  assert (Hho : holders q' run = holders q run) by (unfold holders; by rewrite Hr).
  assert (Hhs : handles q' d run w = handles q d run w) by (unfold handles; by rewrite Hho).
  split; rewrite ?Hhs, ?Hho; auto.
  - rewrite Ht, (assoc_L (++)), (Permutation_app_comm run), <- (assoc_L (++)), fmap_app in Hp.
    by apply NoDup_app in Hp as (_ & _ & ?).
  - rewrite Hw in Hwt. by apply Forall_app in Hwt as [_ ?].
Qed.

(** ** Releasing *)

(** The handle [h] leaves: it was deferred, or its task has finished. *)
Lemma res_unlock q d d' run run' failed ours w m' h b :
  res_inv q d run failed ours w -> mm_unlock h (w_mm w) = Ret (m', b) ->
  holders q run' ⊆ holders q run -> t_ptr <$> run' ++ q_tasks q `sublist_of` t_ptr <$> run ++ q_tasks q ->
  handles q d run w ≡ₚ filter (fun x => 1 < x) [h] ++ handles q d' run' w ->
  res_inv q d' run' failed ours (set_mm m' w) /\ (mm_room (w_mm w) -> mm_room m').
Proof.
  intros [Hq Hm Hp Hwt Hh Hn Hs Hsub Hl Hla] Hu Hho Hpt Hhs.
  destruct (mm_unlock_ok h (w_mm w) Hm) as (m1 & b1 & Hu1 & Hm1 & Hlive & _ & Hlast & Hroom).
  rewrite Hu in Hu1. injection Hu1 as <- <-. split; [|done]. rewrite Hhs in Hn.
  apply NoDup_app in Hn as (_ & Hdis & Hn').
  assert (Hin : forall x, x ∈ handles q d run w <-> (1 < h /\ x = h) \/ x ∈ handles q d' run' w).
  { intros x. rewrite Hhs, elem_of_app, list_elem_of_filter, list_elem_of_singleton. naive_solver. }
  assert (Hne : forall x, x ∈ handles q d' run' w -> x <> h).
  { intros x Hx ->. apply (Hdis h); [|done]. apply list_elem_of_filter. split; [|by left].
    by apply list_elem_of_filter in Hx as [? _]. }
  rewrite Forall_forall in Hh, Hs. split; simpl; auto.
  - by eapply sublist_NoDup.
  - apply Forall_forall. intros t Ht. apply Hh. by apply Hho.
  - apply Forall_forall. intros t Ht Hgt Hf. change (getMemHandle (set_mm m' w) t) with (getMemHandle w t) in *.
    rewrite Hlive. apply elem_of_difference. split; [apply Hs; auto|]. rewrite elem_of_singleton. apply Hne.
    apply elem_of_handles. eauto.
  - intros x Hx. apply Hsub, Hin. by right.
  - intros x Ho. rewrite Hlive, elem_of_difference, elem_of_singleton. intros [Hx Hxh].
    pose proof (Hl x Ho Hx) as Hxx. apply Hin in Hxx as [[_ ->]|?]; done.
  - intros x Ho. rewrite Hlast. auto.
Qed.

Lemma handles_deferred q d run w :
  handles q d run w = filter (fun x => 1 < x) [d] ++ handles q HandleType.INVALID run w.
Proof.
  unfold handles. rewrite <- filter_app. simpl. rewrite !filter_cons.
  rewrite (decide_False (P := 1 < HandleType.INVALID)) by done. done.
Qed.

(** Unlocking the deferred handle. *)
Lemma res_unlock_deferred q d run failed ours w m' b :
  res_inv q d run failed ours w -> mm_unlock d (w_mm w) = Ret (m', b) ->
  res_inv q HandleType.INVALID run failed ours (set_mm m' w) /\ (mm_room (w_mm w) -> mm_room m').
Proof.
  intros Hres Hu. eapply res_unlock; [exact Hres|exact Hu|done|done|]. by rewrite <- handles_deferred.
Qed.

Lemma handles_run q d t run w :
  handles q d (t :: run) w ≡ₚ filter (fun x => 1 < x) [getMemHandle w t] ++ handles q d run w.
Proof. unfold handles, holders. rewrite <- filter_app. simpl. by rewrite Permutation_swap. Qed.

Lemma res_finish_unlock q d t run failed ours w m' b :
  res_inv q d (t :: run) failed ours w -> mm_unlock (getMemHandle w t) (w_mm w) = Ret (m', b) ->
  res_inv q d run failed ours (set_mm m' w) /\ (mm_room (w_mm w) -> mm_room m').
Proof.
  intros Hres Hu. eapply res_unlock; [exact Hres|exact Hu| | |apply handles_run].
  - unfold holders. simpl. set_solver.
  - simpl. by apply sublist_cons.
Qed.

Lemma res_finish_defer q t run failed ours w :
  res_inv q HandleType.INVALID (t :: run) failed ours w -> res_inv q (getMemHandle w t) run failed ours w.
Proof.
  intros [Hq Hm Hp Hwt Hh Hn Hs Hsub Hl Hla].
  unfold holders in *. simpl in *. apply Forall_cons in Hh as [_ Hh]. apply Forall_cons in Hs as [_ Hs].
  apply NoDup_cons in Hp as [_ Hp]. split; auto.
Qed.

(** [waitForMemMan] of a running task. *)
Definition failed_after t failed w : gset nat :=
  if decide (getMemHandle w t ∈ mm_live (w_mm w)) then failed else {[t_ptr t]} ∪ failed.

Lemma handle_unique q d run w t t' :
  NoDup (handles q d run w) -> NoDup (t_ptr <$> run) -> t ∈ run -> t' ∈ holders q run ->
  1 < getMemHandle w t -> getMemHandle w t = getMemHandle w t' -> t_ptr t' = t_ptr t.
Proof.
  intros Hn Hp Ht Ht' Hgt Heq. apply elem_of_Permutation in Ht as [run' Hrun].
  assert (Hhs : handles q d run w ≡ₚ handles q d (t :: run') w) by (unfold handles, holders; by rewrite Hrun).
  rewrite Hhs, handles_run in Hn. rewrite filter_cons_True in Hn by done. simpl in Hn.
  apply NoDup_cons in Hn as [Hn _]. unfold holders in Ht'. rewrite Hrun in Ht'. simpl in Ht'.
  apply elem_of_cons in Ht' as [->|Ht']; [done|]. exfalso. apply Hn. apply elem_of_handles.
  split; [done|]. right. exists t'. auto.
Qed.

Lemma res_wait q d run failed ours w w' t :
  res_inv q d run failed ours w -> t ∈ run -> waitForMemMan t w = Ret w' ->
  res_inv q d run (failed_after t failed w') ours w'.
Proof.
  intros [Hq Hm Hp Hwt Hh Hn Hs Hsub Hl Hla] Ht Hw.
  assert (Hw' : (forall x, getMemHandle w' x = getMemHandle w x) /\ mm_inv (w_mm w') /\
            mm_last (w_mm w') = mm_last (w_mm w) /\
            (mm_live (w_mm w') = mm_live (w_mm w) \/
             mm_live (w_mm w') = mm_live (w_mm w) ∖ {[getMemHandle w t]})).
  { unfold waitForMemMan in Hw. unbind Hw. injection Hw as <-.
    assert (Hr' : (forall x, getMemHandle r x = getMemHandle w x) /\ mm_inv (w_mm r) /\
              mm_last (w_mm r) = mm_last (w_mm w) /\
              (mm_live (w_mm r) = mm_live (w_mm w) \/
               mm_live (w_mm r) = mm_live (w_mm w) ∖ {[getMemHandle w t]})).
    { destruct (v_memMan (vars w t)); [|injection Hr as <-; auto].
      destruct (mm_lock_ok (getMemHandle w t) true (w_mm w) Hm) as (m' & rc & E & Hm' & Hla' & Hor).
      rewrite E in Hr. simpl in Hr. injection Hr as <-. simpl. naive_solver. }
    destruct Hr' as (H1 & H2). split; [|exact H2]. intros x. rewrite getMemHandle_keep by done. apply H1. }
  destruct Hw' as (Heq & Hm' & Hlast & Hor).
  assert (Hhs : handles q d run w' = handles q d run w) by (by apply handles_cong).
  assert (Hsubl : mm_live (w_mm w') ⊆ mm_live (w_mm w)) by (destruct Hor as [->| ->]; set_solver).
  rewrite Forall_forall in Hwt, Hh, Hs. split; rewrite ?Hhs; auto.
  - apply Forall_forall. intros x Hx. rewrite Heq. auto.
  - apply Forall_forall. intros x Hx. rewrite Heq. auto.
  - apply Forall_forall. intros x Hx. rewrite Heq. intros Hgt Hf.
    assert (Hxl : getMemHandle w x ∈ mm_live (w_mm w)).
    { apply Hs; auto. unfold failed_after in Hf. destruct (decide _); [done|set_solver]. }
    destruct Hor as [->|Hor]; [done|]. rewrite Hor. apply elem_of_difference. split; [done|].
    rewrite elem_of_singleton. intros E. unfold failed_after in Hf. rewrite decide_False in Hf.
    + apply Hf. rewrite (handle_unique q d run w t x); auto; [set_solver| |lia].
      rewrite fmap_app in Hp. by apply NoDup_app in Hp as (? & _).
    + rewrite Heq, Hor. set_solver.
  - intros h Ho. rewrite Hlast. auto.
Qed.

(** Two successive steps of which the second is after an unlock of [d]. *)
Lemma ours_compose ours w0 w1 w3 d :
  mm_inv (w_mm w0) -> mm_inv (w_mm w1) -> grows w0 w1 -> (1 < d -> d <= mm_last (w_mm w0)) ->
  mm_live (w_mm w1) ∖ {[d]} ⊆ mm_live (w_mm w3) ->
  (forall h, h ∈ mm_live (w_mm w3) -> h ∈ mm_live (w_mm w1) ∖ {[d]} \/ mm_last (w_mm w1) < h) ->
  ours ∪ (mm_live (w_mm w1) ∖ mm_live (w_mm w0)) ∪ (mm_live (w_mm w3) ∖ (mm_live (w_mm w1) ∖ {[d]})) =
  ours ∪ (mm_live (w_mm w3) ∖ mm_live (w_mm w0)).
Proof.
  intros Hm0 Hm1 (Hs1 & Hl1 & Hn1) Hd Hs3 Hn3. apply set_eq. intros x.
  rewrite !elem_of_union, !elem_of_difference, elem_of_singleton.
  pose proof (Hs3 x) as Hx3. pose proof (Hn3 x) as Hy3. rewrite elem_of_difference, elem_of_singleton in Hx3, Hy3.
  pose proof (mm_live_range (w_mm w0) x Hm0) as Hr0. pose proof (mm_live_range (w_mm w1) x Hm1) as Hr1.
  destruct (decide (x ∈ mm_live (w_mm w0))), (decide (x ∈ mm_live (w_mm w1))),
    (decide (x ∈ mm_live (w_mm w3))), (decide (x = d)); pose proof (Hn1 x); intuition (subst; try lia; auto).
Qed.
End resources.
