(* ===== verification/ScanSchedulerThms.v ===== *)
(** * Theorems about the scan scheduler

    The scheduler as a transition system: its methods, the tasks that run, and
    what the rest of the worker may do in between. *)

From S2P Require Import Prelude.
From S2P Require Import MemMan.
From S2P Require Import MemManInv.
From S2P Require Import MemManLaws.
From S2P Require Import Task.
From S2P Require Import SchedulerBase.
From S2P Require Import ChunkTasks.
From S2P Require Import ChunkTasksQueue.
From S2P Require Import ChunkTasksQueueInv.
From S2P Require Import ChunkTasksQueueThms.
From S2P Require Import ScanScheduler.
From S2P Require Import MemManThms.
From S2P Require Import ScanInfo.
From S2P Require Import Memory.
From S2P Require Import Double.

Implicit Types (s : ScanScheduler) (t : Task) (run : list Task).

Section system.
Context {M : Type} `{HM : MemMan M} `{HL : !MemManLaws M}.
Implicit Types (w : World M).

(** The scheduler with the tasks it handed out and that have not finished,
    those of them whose [lock] failed, and the handles granted so far. *)
Record Sys := mkSys { y_s : ScanScheduler; y_run : list Task; y_failed : gset nat; y_ours : gset Z }.
Implicit Types (y : Sys).

Definition y_queue y : ChunkTasksQueue := ss_taskQueue (y_s y).
Definition y_deferred y : Z := ss_memManHandleToUnlock (y_s y).
Definition y_res y : World M -> Prop := res_inv (y_queue y) (y_deferred y) (y_run y) (y_failed y) (y_ours y).

Record sys_ok y w : Prop := {
  so_res : y_res y w;
  so_fly : b_inFlight (ss_base (y_s y)) = Z.of_nat (length (y_run y));
  so_chunks : counts (b_chunkTasks (ss_base (y_s y))) (getChunkId <$> y_run y);
}.

(** New handles become ours. *)
Definition more_ours y w w' : gset Z := y_ours y ∪ (mm_live (w_mm w') ∖ mm_live (w_mm w)).

Inductive scan_step y w : Sys -> World M -> Prop :=
| st_que t s' w' :
    getMemHandle w t = HandleType.INVALID -> t_ptr t ∉ (t_ptr <$> y_run y ++ q_tasks (y_queue y)) ->
    ss_queCmd t (y_s y) w = (s', w') -> scan_step y w (mkSys s' (y_run y) (y_failed y) (y_ours y)) w'
| st_ready s' w' b :
    mm_room (w_mm w) -> ss_ready (y_s y) w = Ret (s', w', b) ->
    scan_step y w (mkSys s' (y_run y) (y_failed y) (more_ours y w w')) w'
| st_get s' w' o :
    mm_room (w_mm w) -> ss_getCmd (y_s y) w = Ret (s', w', o) ->
    scan_step y w (mkSys s' (option_list o ++ y_run y) (y_failed y) (more_ours y w w')) w'
| st_wait t w' :
    t ∈ y_run y -> waitForMemMan t w = Ret w' ->
    scan_step y w (mkSys (y_s y) (y_run y) (failed_after t (y_failed y) w') (y_ours y)) w'
| st_finish t run' s' w' :
    y_run y ≡ₚ t :: run' -> ss_commandFinish t (y_s y) w = Ret (s', w') ->
    scan_step y w (mkSys s' run' (y_failed y) (y_ours y)) w'
| st_remove t running s' b l :
    ss_removeTask t running (y_s y) w = (s', b, l) ->
    scan_step y w (mkSys s' (y_run y) (y_failed y) (y_ours y)) w
| st_threads n :
    scan_step y w (mkSys (ss_set_base (applyAvailableThreads n (ss_base (y_s y))).1 (y_s y))
                     (y_run y) (y_failed y) (y_ours y)) w
| st_env w' : rely (y_queue y) (y_run y) (y_ours y) w w' -> scan_step y w y w'.

Definition sys_init s : Sys := mkSys s [] ∅ ∅.

(** States reached by a scheduler that starts without tasks. *)
Inductive scan_reach : Sys -> World M -> Prop :=
| reach_init name maxThreads maxReserve priority maxActive lo hi maxTime s w :
    ScanScheduler_ctor name maxThreads maxReserve priority maxActive lo hi maxTime = Ret s ->
    mm_inv (w_mm w) -> scan_reach (sys_init s) w
| reach_step y w y' w' : scan_reach y w -> scan_step y w y' w' -> scan_reach y' w'.

(** ** The methods, one by one *)

Lemma queue_ready_ok flex y w :
  sys_ok y w -> world_ok w ->
  queue_ready flex (y_s y) w = Raise BadException \/
  exists s' w' b, queue_ready flex (y_s y) w = Ret (s', w', b) /\
    sys_ok (mkSys s' (y_run y) (y_failed y) (more_ours y w w')) w' /\
    ss_base s' = ss_base (y_s y) /\ ss_memManHandleToUnlock s' = y_deferred y /\
    q_tasks (ss_taskQueue s') ≡ₚ q_tasks (y_queue y) /\
    (b = true <-> is_Some (ready_task (ss_taskQueue s'))) /\ (b = false -> world_ok w') /\ grows w w'.
Proof.
  intros [Hres Hfly Hch] Hw. unfold queue_ready.
  destruct (res_ready flex (Some (ss_base (y_s y))) _ _ _ _ _ w Hres Hw)
    as [E|(q' & w' & b & E & Hres' & Ht & Hb & Hw' & Hg)]; unfold y_queue in E; rewrite E; [by left|right]. simpl.
  eexists _, _, _. split; [done|]. split; [by split|]. auto 10.
Qed.

Lemma unlock_deferred_res s run failed ours w :
  res_inv (ss_taskQueue s) (ss_memManHandleToUnlock s) run failed ours w ->
  exists w', unlock_deferred s w = Ret (ss_set_handle HandleType.INVALID s, w') /\
    res_inv (ss_taskQueue s) HandleType.INVALID run failed ours w' /\ w_tasks w' = w_tasks w /\
    mm_live (w_mm w') = mm_live (w_mm w) ∖ {[ss_memManHandleToUnlock s]} /\
    mm_last (w_mm w') = mm_last (w_mm w) /\ (mm_room (w_mm w) -> mm_room (w_mm w')).
Proof.
  intros Hres. unfold unlock_deferred. pose proof (rv_mm _ _ _ _ _ _ Hres) as Hm.
  destruct (Z.eqb_spec (ss_memManHandleToUnlock s) HandleType.INVALID) as [E|E].
  - exists w. rewrite E in *. split; [destruct s; simpl in *; by rewrite E|]. do 2 (split; [done|]). split; [|done].
    apply set_eq. intros x. rewrite elem_of_difference, elem_of_singleton.
    split; [|tauto]. intros Hx. split; [done|]. intros ->.
    apply (mm_live_range _ _ Hm) in Hx. unfold HandleType.INVALID in Hx. lia.
  - destruct (mm_unlock_ok (ss_memManHandleToUnlock s) (w_mm w) Hm) as (m' & b & Hu & _ & Hl & _ & Hla & Hroom).
    rewrite Hu. simpl. eexists. split; [done|]. split; [|auto 10].
    by destruct (res_unlock_deferred _ _ _ _ _ w m' b Hres Hu) as [? _].
Qed.

Lemma unlock_deferred_ok y w :
  sys_ok y w ->
  exists s' w', unlock_deferred (y_s y) w = Ret (s', w') /\
    sys_ok (mkSys s' (y_run y) (y_failed y) (y_ours y)) w' /\
    ss_base s' = ss_base (y_s y) /\ ss_taskQueue s' = y_queue y /\
    mm_live (w_mm w') = mm_live (w_mm w) ∖ {[y_deferred y]} /\ mm_last (w_mm w') = mm_last (w_mm w) /\
    (mm_room (w_mm w) -> mm_room (w_mm w')).
Proof.
  intros [Hres Hfly Hch]. destruct (unlock_deferred_res _ _ _ _ _ Hres) as (w' & -> & Hres' & _ & Hrest).
  eexists _, _. split; [done|]. split; [by split|]. auto.
Qed.

Lemma ss_ready_ok y w :
  sys_ok y w -> mm_room (w_mm w) ->
  ss_ready (y_s y) w = Raise BadException \/
  exists s' w' b, ss_ready (y_s y) w = Ret (s', w', b) /\
    sys_ok (mkSys s' (y_run y) (y_failed y) (more_ours y w w')) w' /\ ss_base s' = ss_base (y_s y) /\
    q_tasks (ss_taskQueue s') ≡ₚ q_tasks (y_queue y) /\
    (b = true -> is_Some (ready_task (ss_taskQueue s')) /\
       b_inFlight (ss_base (y_s y)) < maxInFlight (ss_base (y_s y))).
Proof.
  intros Hok Hroom. assert (Hw : world_ok w) by (split; [apply (so_res _ _ Hok)|done]). unfold ss_ready.
  destruct (Z.leb_spec (maxInFlight (ss_base (y_s y))) (b_inFlight (ss_base (y_s y)))) as [|Hlt].
  { right. eexists _, _, _. split; [done|]. unfold more_ours. replace (y_ours y ∪ _) with (y_ours y) by set_solver.
    split; [by destruct y|]. done. }
  set (flex := b_inFlight (ss_base (y_s y)) <? 1).
  destruct (queue_ready_ok flex y w Hok Hw)
    as [->|(s1 & w1 & b & -> & Hok1 & Hb1 & Hd1 & Ht1 & Hr1 & Hw1 & Hg1)]; [by left|]. simpl.
  destruct (Z.eqb_spec (ss_memManHandleToUnlock s1) HandleType.INVALID) as [E|E].
  { right. eexists _, _, _. split; [done|]. split; [done|]. split; [done|]. split; [done|].
    intros ->. split; [by apply Hr1|done]. }
  destruct (unlock_deferred_ok _ w1 Hok1) as (s2 & w2 & Hu & Hok2 & Hb2 & Hq2 & Hl2 & Hla2 & Hroom2).
  simpl in *. rewrite Hu. simpl. unfold y_deferred in Hl2. simpl in Hl2. rewrite Hd1 in Hl2.
  assert (Hinv : mm_inv (w_mm w1)) by apply (so_res _ _ Hok1).
  assert (Hd : 1 < y_deferred y -> y_deferred y <= mm_last (w_mm w)).
  { intros Hgt. destruct (so_res _ _ Hok). apply rv_last, rv_sub, elem_of_handles. auto. }
  assert (Hinv0 : mm_inv (w_mm w)) by apply Hw.
  destruct b.
  - right. eexists _, _, _. split; [done|]. split; [|split; [congruence|split; [by rewrite Hq2|]]].
    2: { intros _. rewrite Hq2. split; [by apply Hr1|done]. }
    assert (Ho : more_ours y w w2 = more_ours y w w1).
    { pose proof (ours_compose (y_ours y) w w1 w2 (y_deferred y) Hinv0 Hinv Hg1 Hd) as Hc.
      rewrite Hl2 in Hc. unfold more_ours. rewrite Hl2, <- Hc; [set_solver|done|auto]. }
    by rewrite Ho.
  - destruct (queue_ready_ok flex _ w2 Hok2) as [Heq|(s3 & w3 & b & Heq & Hok3 & Hb3 & Hd3 & Ht3 & Hr3 & Hw3 & Hg3)].
    { split; [apply (so_res _ _ Hok2)|]. apply Hroom2. by apply Hw1. }
    { left. exact Heq. }
    right. simpl in *. rewrite Heq. eexists _, _, _. split; [done|].
    split; [|split; [congruence|split; [by rewrite Ht3; unfold y_queue; simpl; rewrite Hq2|]]].
    2: { intros ->. split; [by apply Hr3|done]. }
    assert (Ho : more_ours y w w3 = more_ours (mkSys s2 (y_run y) (y_failed y) (more_ours y w w1)) w2 w3).
    { destruct Hg3 as (Hs3 & Hl3 & Hn3). unfold more_ours. simpl. rewrite Hl2 in *. rewrite Hla2 in Hn3.
      symmetry. by apply ours_compose. }
    by rewrite Ho.
Qed.

Definition getCmd_post y s' (o : option Task) : Prop :=
  match o with
  | None => ss_base s' = ss_base (y_s y) /\ q_tasks (ss_taskQueue s') ≡ₚ q_tasks (y_queue y)
  | Some t => q_tasks (y_queue y) ≡ₚ t :: q_tasks (ss_taskQueue s') /\
      b_inFlight (ss_base (y_s y)) < maxInFlight (ss_base (y_s y)) /\
      b_userQueryCounts (ss_base s') = count_decr (t_qId t) (b_userQueryCounts (ss_base (y_s y))) /\
      maxInFlight (ss_base s') = maxInFlight (ss_base (y_s y))
  end.

Lemma ss_getCmd_ok y w :
  sys_ok y w -> mm_room (w_mm w) ->
  ss_getCmd (y_s y) w = Raise BadException \/
  exists s' w' o, ss_getCmd (y_s y) w = Ret (s', w', o) /\
    sys_ok (mkSys s' (option_list o ++ y_run y) (y_failed y) (more_ours y w w')) w' /\ getCmd_post y s' o /\
    (forall t, o = Some t -> hasMemHandle w' t = true).
Proof.
  intros Hok Hroom. unfold ss_getCmd.
  destruct (ss_ready_ok y w Hok Hroom) as [->|(s1 & w1 & b & -> & Hok1 & Hb1 & Ht1 & Hr1)]; [by left|right]. simpl.
  destruct b; simpl; [|eexists _, _, _; split; [done|]; split; [done|]; split; [by split|done]].
  destruct (Hr1 eq_refl) as [[t Ht] Hlt].
  destruct Hok1 as [Hres Hfly Hch]. unfold y_res, y_queue, y_deferred in *. simpl in *.
  destruct (res_get (b_inFlight (ss_base s1) <? 1) (Some (ss_base s1)) _ _ _ _ _ w1 t Hres Ht)
    as (q' & -> & Hres' & Hperm). simpl.
  eexists _, _, _. split; [done|]. split; [split; simpl; [exact Hres'| |]|].
  - rewrite Hfly. lia.
  - apply counts_incr. done.
  - simpl. rewrite Hb1. split; [split; [by rewrite <- Ht1|done]|].
    intros t' [= <-]. pose proof (rv_hold _ _ _ _ _ _ Hres') as Hh. apply Forall_cons in Hh as [Hh _].
    by apply hasMemHandle_spec.
Qed.

Lemma ss_commandFinish_ok y w t run' :
  sys_ok y w -> y_run y ≡ₚ t :: run' ->
  exists s' w', ss_commandFinish t (y_s y) w = Ret (s', w') /\
    sys_ok (mkSys s' run' (y_failed y) (y_ours y)) w' /\
    b_userQueryCounts (ss_base s') = b_userQueryCounts (ss_base (y_s y)) /\
    q_tasks (ss_taskQueue s') ≡ₚ q_tasks (y_queue y).
Proof.
  intros [Hres Hfly Hch] Hrun.
  set (s2 := ss_set_base (set_inFlight (b_inFlight (ss_base (y_s y)) - 1) (ss_base (y_s y)))
               (ss_set_queue (q_taskComplete t (y_queue y)) (y_s y))).
  assert (Hres2 : res_inv (ss_taskQueue s2) (ss_memManHandleToUnlock s2) (t :: run') (y_failed y) (y_ours y) w).
  { apply (res_perm _ _ (y_run y)); [done|]. by apply res_complete. }
  destruct (unlock_deferred_res s2 _ _ _ _ Hres2) as (w3 & Hu & Hres3 & _).
  unfold ss_commandFinish. unfold s2, y_queue in Hu. simpl in Hu |- *. rewrite Hu. simpl.
  assert (Hcounts : counts (count_decr (getChunkId t) (b_chunkTasks (ss_base (y_s y)))) (getChunkId <$> run')).
  { apply counts_decr. by rewrite Hrun in Hch. }
  assert (Hlen : b_inFlight (ss_base (y_s y)) - 1 = Z.of_nat (length run')).
  { rewrite Hfly, Hrun. simpl. lia. }
  destruct (q_empty _); simpl.
  - destruct (mm_unlock_ok (getMemHandle w3 t) (w_mm w3) (rv_mm _ _ _ _ _ _ Hres3)) as (m' & b & Hu' & _).
    rewrite Hu'. simpl. eexists _, _. split; [done|]. split; [split; simpl; auto|].
    + by destruct (res_finish_unlock _ _ _ _ _ _ w3 m' b Hres3 Hu') as [? _].
    + split; [done|]. apply taskComplete_tasks.
  - eexists _, _. split; [done|]. split; [split; simpl; auto|].
    + by apply res_finish_defer.
    + split; [done|]. apply taskComplete_tasks.
Qed.

Lemma scan_step_ok y w y' w' : sys_ok y w -> scan_step y w y' w' -> sys_ok y' w'.
Proof.
  intros Hok Hst. pose proof Hok as [Hres Hfly Hch]. destruct Hst.
  - unfold ss_queCmd in H1. injection H1 as <- <-. split; simpl; [|done|done].
    eapply res_queue; eauto. intros t'. by apply getMemHandle_keep.
  - destruct (ss_ready_ok y w Hok H) as [E|(s1 & w1 & b1 & E & Hok1 & _)]; congruence.
  - destruct (ss_getCmd_ok y w Hok H) as [E|(s1 & w1 & o1 & E & Hok1 & _)]; congruence.
  - split; simpl; [|done|done]. by eapply res_wait.
  - destruct (ss_commandFinish_ok y w t run' Hok H) as (s1 & w1 & E & Hok1 & _). congruence.
  - unfold ss_removeTask in H. destruct (q_removeTask t (ss_taskQueue (y_s y))) as [q' o] eqn:E.
    assert (Hq : sys_ok (mkSys (ss_set_queue q' (y_s y)) (y_run y) (y_failed y) (y_ours y)) w).
    { split; simpl; [|done|done]. by eapply res_remove. }
    by repeat case_match; simplify_eq.
  - by split.
  - split; [|done|done]. destruct Hres. eapply res_world; eauto. by split.
Qed.

Lemma scan_reach_ok y w : scan_reach y w -> sys_ok y w.
Proof.
  induction 1 as [name mt mr pr ma lo hi mx s w Hs Hm|y w y' w' _ IH Hst]; [|by eapply scan_step_ok].
  unfold ScanScheduler_ctor in Hs. destruct (lo <=? hi); [|done]. injection Hs as <-.
  split; simpl; [|done|apply counts_nil]. split; simpl; auto using queue_inv_ctor; try (by constructor).
  - set_solver.
  - set_solver.
  - set_solver.
Qed.

(** ** The theorems *)


(** C34. No handle is leaked: a live handle that was granted to a task of
    the scheduler belongs to a running task, to the promised task, or is the
    deferred handle. *)
Theorem scan_no_handle_leak y w h :
  scan_reach y w -> h ∈ y_ours y -> h ∈ mm_live (w_mm w) ->
  h = y_deferred y \/ exists t, t ∈ holders (y_queue y) (y_run y) /\ h = getMemHandle w t.
Proof.
  intros Hr%scan_reach_ok Ho Hl. pose proof (rv_leak _ _ _ _ _ _ (so_res _ _ Hr) h Ho Hl) as Hin.
  by apply elem_of_handles in Hin as [_ ?].
Qed.

(** The methods of the scheduler return, or throw [std::bad_exception]
    from [_ready] and [getCmd]; [getCmd] hands out a task with a memory
    handle, one that was queued, and only below the limit on tasks in flight. *)
Theorem scan_methods_total y w :
  scan_reach y w ->
  (mm_room (w_mm w) -> ss_ready (y_s y) w = Raise BadException \/ exists r, ss_ready (y_s y) w = Ret r) /\
  (mm_room (w_mm w) -> ss_getCmd (y_s y) w = Raise BadException \/
     exists s' w' o, ss_getCmd (y_s y) w = Ret (s', w', o) /\
       forall t, o = Some t -> hasMemHandle w' t = true /\
         q_tasks (y_queue y) ≡ₚ t :: q_tasks (ss_taskQueue s') /\
         Z.of_nat (length (y_run y)) < maxInFlight (ss_base (y_s y))) /\
  (forall t, t ∈ y_run y -> exists r, ss_commandFinish t (y_s y) w = Ret r).
Proof.
  intros Hok%scan_reach_ok. split; [|split].
  - intros Hroom. destruct (ss_ready_ok y w Hok Hroom) as [->|(s' & w' & b & -> & _)]; eauto.
  - intros Hroom. destruct (ss_getCmd_ok y w Hok Hroom) as [->|(s' & w' & o & -> & _ & Hpost & Hh)]; [by left|right].
    eexists _, _, _. split; [done|]. intros t ->. split; [by apply Hh|]. destruct Hpost as (? & ? & _).
    rewrite <- (so_fly _ _ Hok). done.
  - intros t [run' Hrun]%elem_of_Permutation.
    destruct (ss_commandFinish_ok y w t run' Hok Hrun) as (s' & w' & -> & _). eauto.
Qed.

(** The counters are exact: [getInFlight] is the number of running
    tasks, [getActiveChunkCount] the number of different chunks they work
    on, and [chunkAlreadyActive] says whether one of them works on a chunk. *)
Theorem scan_counts_exact y w :
  scan_reach y w ->
  b_inFlight (ss_base (y_s y)) = Z.of_nat (length (y_run y)) /\
  getActiveChunkCount (ss_base (y_s y)) = Z.of_nat (length (remove_dups (getChunkId <$> y_run y))) /\
  forall k, chunkAlreadyActive k (ss_base (y_s y)) = true <-> k ∈ (getChunkId <$> y_run y).
Proof.
  intros Hok%scan_reach_ok. pose proof (so_chunks _ _ Hok) as Hc. split; [apply (so_fly _ _ Hok)|]. split.
  - unfold getActiveChunkCount. by rewrite (counts_size _ _ Hc).
  - intros k. unfold chunkAlreadyActive. rewrite <- (counts_lookup_Some _ _ k Hc).
    destruct (b_chunkTasks (ss_base (y_s y)) !! k); split; eauto; [done|by intros []].
Qed.

(** [removeTask] took a waiting task out of the queue. *)
Definition removed y y' : Prop :=
  y_run y' = y_run y /\ exists t, q_tasks (y_queue y) ≡ₚ t :: q_tasks (y_queue y').

(** Histories in which no task is removed from the queue. *)
Inductive scan_reach_nr : Sys -> World M -> Prop :=
| reach_nr_init s w : scan_reach (sys_init s) w -> b_userQueryCounts (ss_base s) = ∅ ->
    q_tasks (ss_taskQueue s) = [] -> scan_reach_nr (sys_init s) w
| reach_nr_step y w y' w' : scan_reach_nr y w -> scan_step y w y' w' -> ~ removed y y' -> scan_reach_nr y' w'.

Lemma reach_nr_reach y w : scan_reach_nr y w -> scan_reach y w.
Proof. induction 1; [done|]. by eapply reach_step. Qed.

Lemma uq_step y w y' w' :
  sys_ok y w -> scan_step y w y' w' -> ~ removed y y' ->
  counts (b_userQueryCounts (ss_base (y_s y))) (t_qId <$> q_tasks (y_queue y)) ->
  counts (b_userQueryCounts (ss_base (y_s y'))) (t_qId <$> q_tasks (y_queue y')).
Proof.
  intros Hok Hst Hno Hc. destruct Hst; auto.
  - unfold ss_queCmd in H1. injection H1 as <- <-. unfold y_queue. simpl. rewrite queueTask_tasks. by apply counts_incr.
  - destruct (ss_ready_ok y w Hok H) as [E|(s1 & w1 & b1 & E & _ & Hb & Ht & _)]; [congruence|].
    rewrite H0 in E. simplify_eq. unfold y_queue at 1. simpl. by rewrite Hb, Ht.
  - destruct (ss_getCmd_ok y w Hok H) as [E|(s1 & w1 & o1 & E & _ & Hpost & _)]; [congruence|].
    rewrite H0 in E. simplify_eq. destruct o1 as [t|]; simpl in Hpost.
    + destruct Hpost as (Ht & _ & Hu & _). rewrite Ht in Hc. unfold y_queue. simpl. rewrite Hu. by apply counts_decr.
    + destruct Hpost as (Hb & Ht). unfold y_queue at 1. simpl. by rewrite Hb, Ht.
  - destruct (ss_commandFinish_ok y w t run' Hok H) as (s1 & w1 & E & _ & Hu & Ht).
    rewrite H0 in E. simplify_eq. unfold y_queue at 1. simpl. by rewrite Hu, Ht.
  - unfold ss_removeTask in H. destruct (q_removeTask t (ss_taskQueue (y_s y))) as [q' o] eqn:E.
    pose proof (removeTask_tasks _ _ _ _ E) as Ht. destruct o as [x|].
    + injection H as <- <- <-. destruct Hno. split; [done|]. exists x. done.
    + assert (Hs : s' = ss_set_queue q' (y_s y)) by (by repeat case_match; simplify_eq).
      subst s'. unfold y_queue in *. simpl in *. by rewrite <- Ht.
Qed.

(** [getUserQueriesInQ] is the number of different user queries among
    the queued tasks, as long as no task is removed from the queue. *)
Theorem scan_user_queries_exact y w :
  scan_reach_nr y w ->
  getUserQueriesInQ (ss_base (y_s y)) = Z.of_nat (length (remove_dups (t_qId <$> q_tasks (y_queue y)))).
Proof.
  intros Hr. unfold getUserQueriesInQ. erewrite counts_size; [done|].
  induction Hr as [s w _ Hu Ht|y w y' w' Hr IH Hst Hno].
  - unfold y_queue. simpl. rewrite Hu, Ht. apply counts_nil.
  - eapply uq_step; eauto. by apply scan_reach_ok, reach_nr_reach.
Qed.
End system.

(** ** Witnesses

    One task on chunk 7 over the real manager and the simulated file system:
    it is queued, handed out (with the handle 2) and finished. *)

Module ScanSim.
#[export] Existing Instances SimOs.ops SimOs.laws.
Definition sz (p : string) : Z := default 0 (SimOs.size_of p).
#[export] Instance laws : MemManLaws (RealState unit) := MemManReal_laws sz.

Definition task : Task :=
  Task_ctor 0 (mkTaskMsg 1 1 0 None (Some 7) [mkScanTableInfo "db" "T" true 10] 10 false).
Definition sched : ScanScheduler :=
  mkScanScheduler (SchedulerBase_ctor "scan" 4 2 4 1) ChunkTasksQueue_ctor HandleType.INVALID 0 100 (d_of_Z 60).

Definition w0 : World (RealState unit) := mkWorld (SimOs.manager, SimOs.start) ∅.
Definition y0 : Sys := sys_init sched.

Definition w1 : World (RealState unit) := (ss_queCmd task sched w0).2.
Definition y1 : Sys := mkSys (ss_queCmd task sched w0).1 [] ∅ ∅.

Definition s2 : ScanScheduler :=
  match ss_getCmd (y_s y1) w1 with Ret (s, _, _) => s | Raise _ => sched end.
Definition w2 : World (RealState unit) :=
  match ss_getCmd (y_s y1) w1 with Ret (_, w, _) => w | Raise _ => w1 end.
Definition y2 : Sys := mkSys s2 [task] ∅ (more_ours y1 w1 w2).

Lemma reach0 : scan_reach y0 w0.
Proof.
  apply (reach_init "scan" 4 2 1 4 0 100 (d_of_Z 60)); [reflexivity|].
  apply (base_real sz _ _ (reachable_inv _ _ SimOs.start_reachable)). by eexists.
Qed.

Lemma reach1 : scan_reach y1 w1.
Proof.
  apply (reach_step y0 w0); [exact reach0|]. apply (st_que y0 w0 task); [reflexivity| |reflexivity].
  vm_compute. intros H. inversion H.
Qed.

Lemma get_runs : ss_getCmd (y_s y1) w1 = Ret (s2, w2, Some task).
Proof. vm_compute. reflexivity. Qed.

Lemma reach2 : scan_reach y2 w2.
Proof. apply (reach_step y1 w1); [exact reach1|]. apply (st_get y1 w1 s2 w2 (Some task)); [reflexivity|exact get_runs]. Qed.

Lemma live2 : 2 ∈ mm_live (w_mm w2).
Proof. apply elem_of_real_live. eexists. split; vm_compute; reflexivity. Qed.

Lemma live1 : 2 ∉ mm_live (w_mm w1).
Proof. intros (fs & H & _)%elem_of_real_live. vm_compute in H. discriminate. Qed.

(** A query whose only task was removed from the queue is still counted. *)
Lemma removed_query_still_counted :
  let s' := (ss_removeTask task false (y_s y1) w1).1.1 in
  q_getSize (ss_taskQueue s') = 0 /\ getUserQueriesInQ (ss_base s') = 1.
Proof. vm_compute. auto. Qed.
End ScanSim.

Section witnesses.
Import ScanSim.


Lemma scan_no_handle_leak_witness :
2 ∈ y_ours y2 /\ (2 = y_deferred y2 \/ exists t, t ∈ holders (y_queue y2) (y_run y2) /\ 2 = getMemHandle w2 t).
Proof.
assert (Ho : 2 ∈ y_ours y2).
{ unfold y2, more_ours. simpl. apply elem_of_union. right. apply elem_of_difference.
  split; [exact live2|exact live1]. }
split; [exact Ho|]. exact (scan_no_handle_leak y2 w2 2 reach2 Ho live2).
Defined.

Lemma scan_methods_total_witness : exists r, ss_commandFinish task (y_s y2) w2 = Ret r.
Proof. apply (scan_methods_total y2 w2 reach2). by left. Defined.

Lemma scan_counts_exact_witness :
b_inFlight (ss_base (y_s y2)) = 1 /\ getActiveChunkCount (ss_base (y_s y2)) = 1.
Proof.
destruct (scan_counts_exact y2 w2 reach2) as (H1 & H2 & _). split; [exact H1|]. rewrite H2. reflexivity.
Defined.

Lemma scan_user_queries_exact_witness : getUserQueriesInQ (ss_base (y_s y1)) = 1.
Proof.
rewrite (scan_user_queries_exact y1 w1); [vm_compute; reflexivity|].
apply (reach_nr_step y0 w0).
- apply reach_nr_init; [exact reach0|reflexivity|reflexivity].
- apply (st_que y0 w0 task); [reflexivity| |reflexivity]. vm_compute. intros H. inversion H.
- intros (_ & t & H). apply Permutation_length in H. vm_compute in H. discriminate.
Defined.
End witnesses.
