(* ===== verification/GroupScheduler.v ===== *)
(** * The group scheduler

    [wsched/GroupScheduler.h] and [.cc]: interactive tasks in the order of
    their arrival, except that tasks for the same chunk are grouped. *)

From S2P Require Import Prelude.
From S2P Require Import ScanInfo.
From S2P Require Import MemMan.
From S2P Require Import Task.
From S2P Require Import SchedulerBase.

Implicit Types (t : Task).

(** [class GroupQueue] *)
Record GroupQueue := mkGroupQueue {
  gq_hasChunkId : bool;
  gq_chunkId : Z;
  gq_maxAccepted : Z;
  gq_accepted : Z;
  gq_tasks : list Task;
}.

(** [bool GroupQueue::queTask(wbase::Task::Ptr const& task)]; an absent chunk
    id of the message reads as 0. *)
Definition gq_queTask t (g : GroupQueue) : GroupQueue * bool :=
  let hasChunkId := match tm_chunkid (t_msg t) with Some _ => true | None => false end in
  if negb (Bool.eqb hasChunkId (gq_hasChunkId g)) then (g, false)
  else
    let chunkId := default 0 (tm_chunkid (t_msg t)) in
    if hasChunkId && negb (chunkId =? gq_chunkId g) then (g, false)
    else if gq_accepted g <? gq_maxAccepted g then
      (mkGroupQueue (gq_hasChunkId g) (gq_chunkId g) (gq_maxAccepted g) (gq_accepted g + 1)
         (gq_tasks g ++ [t]), true)
    else (g, false).

(** [GroupQueue::GroupQueue(int maxAccepted, wbase::Task::Ptr const& task)],
    compiled with assertions. *)
Definition GroupQueue_ctor (maxAccepted : Z) t : outcome GroupQueue :=
  let hasChunkId := match tm_chunkid (t_msg t) with Some _ => true | None => false end in
  let chunkId := match tm_chunkid (t_msg t) with Some c => c | None => 0 end in
  let '(g, accepted) := gq_queTask t (mkGroupQueue hasChunkId chunkId maxAccepted 0 []) in
  if accepted then Ret g else Raise AssertFailed.

(** [wbase::Task::Ptr GroupQueue::getTask()] *)
Definition gq_getTask (g : GroupQueue) : outcome (GroupQueue * Task) :=
  match gq_tasks g with
  | [] => Raise UndefinedBehaviour
  | t :: rest =>
      Ret (mkGroupQueue (gq_hasChunkId g) (gq_chunkId g) (gq_maxAccepted g) (gq_accepted g) rest, t)
  end.

(** [wbase::Task::Ptr GroupQueue::peekTask()] *)
Definition gq_peekTask (g : GroupQueue) : outcome Task :=
  match gq_tasks g with [] => Raise UndefinedBehaviour | t :: _ => Ret t end.

(** [bool isEmpty()] *)
Definition gq_isEmpty (g : GroupQueue) : bool := match gq_tasks g with [] => true | _ => false end.

(** [class GroupScheduler] *)
Record GroupScheduler := mkGroupScheduler {
  gs_base : SchedulerBase;
  gs_queue : list GroupQueue;
  gs_maxGroupSize : Z;
}.

(** [GroupScheduler(name, maxThreads, maxReserve, maxGroupSize, priority)] *)
Definition GroupScheduler_ctor (name : string) (maxThreads maxReserve maxGroupSize priority : Z)
    : GroupScheduler :=
  mkGroupScheduler (SchedulerBase_ctor name maxThreads maxReserve 0 priority) [] maxGroupSize.

Implicit Types (s : GroupScheduler) (g : GroupQueue).

(** The search of [queCmd] for a group that accepts the task. *)
Fixpoint offer t (l : list GroupQueue) : list GroupQueue * bool :=
  match l with
  | [] => ([], false)
  | g :: l' =>
      let '(g', queued) := gq_queTask t g in
      if queued then (g' :: l', true)
      else let '(l'', queued') := offer t l' in (g' :: l'', queued')
  end.

(** [void GroupScheduler::queCmd(util::Command::Ptr const& cmd)] *)
Definition gs_queCmd t s : outcome GroupScheduler :=
  let '(l, queued) := offer t (gs_queue s) in
  let? l' :=
    (if queued then Ret l
     else let? g := GroupQueue_ctor (gs_maxGroupSize s) t in Ret (l ++ [g])) in
  Ret (mkGroupScheduler (incrCountForUserQuery (t_qId t) (gs_base s)).1 l' (gs_maxGroupSize s)).

(** [bool GroupScheduler::_ready()] *)
Definition gs_ready s : bool :=
  match gs_queue s with [] => false | _ => b_inFlight (gs_base s) <? maxInFlight (gs_base s) end.

(** [util::Command::Ptr GroupScheduler::getCmd(bool wait)] with [wait = false];
    with [wait = true] the thread sleeps until [_ready()] holds, which does
    not change the state. *)
Definition gs_getCmd s : outcome (GroupScheduler * option Task) :=
  if negb (gs_ready s) then Ret (s, None)
  else
    match gs_queue s with
    | [] => Raise UndefinedBehaviour
    | g :: rest =>
        let? (g', task) := gq_getTask g in
        let l := if gq_isEmpty g' then rest else g' :: rest in
        let b1 := set_inFlight (b_inFlight (gs_base s) + 1) (gs_base s) in
        let b2 := (decrCountForUserQuery (t_qId task) b1).1 in
        Ret (mkGroupScheduler (incrChunkTaskCount (getChunkId task) b2) l (gs_maxGroupSize s), Some task)
    end.

(** [void GroupScheduler::commandFinish(util::Command::Ptr const& cmd)] *)
Definition gs_commandFinish t s : GroupScheduler :=
  let b := set_inFlight (b_inFlight (gs_base s) - 1) (gs_base s) in
  mkGroupScheduler (decrChunkTaskCount (getChunkId t) b) (gs_queue s) (gs_maxGroupSize s).

(** [bool GroupScheduler::empty()] *)
Definition gs_empty s : bool := match gs_queue s with [] => true | _ => false end.

(** [std::size_t GroupScheduler::getSize() const]: groups, not tasks. *)
Definition gs_getSize s : Z := Z.of_nat (length (gs_queue s)).

(** ** Invariant *)

(** The chunk of a task and of a group; no chunk counts as one. *)
Definition t_key t : option Z := tm_chunkid (t_msg t).
Definition g_key g : option Z := if gq_hasChunkId g then Some (gq_chunkId g) else None.

Record group_ok (m : Z) g : Prop := {
  go_max : gq_maxAccepted g = m;
  go_bound : Z.of_nat (length (gq_tasks g)) <= gq_accepted g <= m;
  go_some : gq_tasks g <> [];
  go_key : Forall (fun t => t_key t = g_key g) (gq_tasks g);
}.

(** Of the groups of one chunk only the last may accept more tasks. *)
Definition full g : Prop := gq_accepted g = gq_maxAccepted g.

Fixpoint fill_ok (l : list GroupQueue) : Prop :=
  match l with
  | [] => True
  | g :: l' => (full g \/ Forall (fun g' => g_key g' <> g_key g) l') /\ fill_ok l'
  end.

Record group_inv s : Prop := {
  gi_groups : Forall (group_ok (gs_maxGroupSize s)) (gs_queue s);
  gi_fill : fill_ok (gs_queue s);
  gi_size : 1 <= gs_maxGroupSize s;
}.

Definition gs_tasks s : list Task := gs_queue s ≫= gq_tasks.

Lemma queTask_cases t g :
  (t_key t = g_key g /\ gq_accepted g < gq_maxAccepted g /\
   gq_queTask t g = (mkGroupQueue (gq_hasChunkId g) (gq_chunkId g) (gq_maxAccepted g) (gq_accepted g + 1)
                       (gq_tasks g ++ [t]), true)) \/
  ((t_key t <> g_key g \/ gq_maxAccepted g <= gq_accepted g) /\ gq_queTask t g = (g, false)).
Proof.
  unfold gq_queTask, t_key, g_key. destruct (tm_chunkid (t_msg t)) as [c|], (gq_hasChunkId g); simpl.
  - destruct (Z.eqb_spec c (gq_chunkId g)) as [->|]; simpl; [|right; split; [left; congruence|done]].
    destruct (Z.ltb_spec (gq_accepted g) (gq_maxAccepted g)); [left|right]; auto.
  - right. split; [by left|done].
  - right. split; [by left|done].
  - destruct (Z.ltb_spec (gq_accepted g) (gq_maxAccepted g)); [left|right]; auto.
Qed.

(** The groups of other chunks hold no task of chunk [k]. *)
Lemma filter_other_groups m l k :
  Forall (group_ok m) l -> Forall (fun g => g_key g <> k) l ->
  filter (fun x => t_key x = k) (l ≫= gq_tasks) = [].
Proof.
  induction l as [|g l IH]; intros Hf Ho; [done|]. rewrite bind_cons.
  apply Forall_cons in Ho as [Hne Ho]. apply Forall_cons in Hf as [Hg Hf].
  rewrite filter_app, IH, app_nil_r by done. destruct Hg as [_ _ _ Hkey].
  induction Hkey as [|x r Hx _ IHr]; [done|]. rewrite filter_cons_False by congruence. done.
Qed.

(** [offer] appends the task behind all queued tasks of its chunk. *)
Lemma offer_spec m t l l' b :
  Forall (group_ok m) l -> fill_ok l -> offer t l = (l', b) ->
  Forall (group_ok m) l' /\ g_key <$> l' = g_key <$> l /\ fill_ok l' /\
  (if b then l' ≫= gq_tasks ≡ₚ t :: (l ≫= gq_tasks) /\
             (forall k, filter (fun x => t_key x = k) (l' ≫= gq_tasks) =
                        filter (fun x => t_key x = k) ((l ≫= gq_tasks) ++ [t]))
   else l' = l /\ Forall (fun g => t_key t = g_key g -> full g) l).
Proof.
  revert l' b. induction l as [|g l IH]; intros l' b Hf Hfill; simpl; [intros [= <- <-]; auto|].
  apply Forall_cons in Hf as [Hg Hf]. destruct Hfill as [Hfull Hfill].
  destruct (queTask_cases t g) as [(Hk & Hlt & ->)|(Hor & ->)].
  - intros [= <- <-]. simpl.
    assert (Hothers : Forall (fun g' => g_key g' <> g_key g) l).
    { destruct Hfull as [Hfl|]; [|done]. unfold full in Hfl. lia. }
    split; [constructor; [|done]|split; [done|split; [split; [|done]|split]]].
    + destruct Hg as [Hm Hb Hs Hkey]. split; simpl; auto.
      * rewrite length_app. simpl. lia.
      * by destruct (gq_tasks g).
      * apply Forall_app. split; [done|]. by constructor.
    + by right.
    + rewrite <- (assoc_L (++)). simpl. by rewrite <- Permutation_middle.
    + intros k. rewrite !filter_app. rewrite <- !(assoc_L (++)). f_equal.
      destruct (decide (t_key t = k)) as [<-|Hne].
      * rewrite filter_cons_True by done. simpl.
        rewrite (filter_other_groups m l) by (done || by rewrite Hk). done.
      * rewrite filter_cons_False by done. simpl. by rewrite app_nil_r.
  - destruct (offer t l) as [l1 b1] eqn:E. intros [= <- <-].
    destruct (IH l1 b1 Hf Hfill eq_refl) as (Hf1 & Hkeys & Hfill1 & Hres). simpl.
    split; [by constructor|]. split; [by f_equal|]. split.
    { split; [|done]. destruct Hfull as [|Hot]; [by left|right].
      assert (Hks : Forall (fun k => k <> g_key g) (g_key <$> l1)) by (rewrite Hkeys; by apply Forall_fmap).
      rewrite Forall_fmap in Hks. exact Hks. }
    destruct b1.
    + destruct Hres as [Hp Hq]. split; [rewrite Hp; by rewrite <- Permutation_middle|].
      intros k. rewrite !filter_app, Hq, !filter_app. by rewrite (assoc_L (++)).
    + destruct Hres as [-> Hres]. split; [done|]. constructor; [|done]. intros Hk.
      destruct Hor as [?|Hge]; [done|]. destruct Hg as [Hm Hb _ _]. unfold full. lia.
Qed.

(** ** The operations *)

Lemma fill_ok_snoc l g :
  fill_ok l -> Forall (fun g' => g_key g = g_key g' -> full g') l -> fill_ok (l ++ [g]).
Proof.
  induction l as [|h l IH]; simpl; [by repeat constructor|]. intros [Hh Hf] [Hfull Ho]%Forall_cons.
  split; [|by apply IH]. destruct Hh as [Hh|Hh]; [by left|].
  destruct (decide (g_key g = g_key h)) as [Hk|Hk]; [left; auto|right].
  apply Forall_app. split; [done|]. by constructor.
Qed.

Definition fifo s s' t : Prop :=
  forall k, filter (fun x => t_key x = k) (gs_tasks s') = filter (fun x => t_key x = k) (gs_tasks s ++ [t]).

Lemma gs_queCmd_spec t s :
  group_inv s -> exists s', gs_queCmd t s = Ret s' /\ group_inv s' /\
    gs_tasks s' ≡ₚ t :: gs_tasks s /\ fifo s s' t /\ gs_maxGroupSize s' = gs_maxGroupSize s /\
    gs_base s' = (incrCountForUserQuery (t_qId t) (gs_base s)).1.
Proof.
  intros [Hf Hfill Hm]. unfold gs_queCmd. destruct (offer t (gs_queue s)) as [l b] eqn:E.
  destruct (offer_spec _ _ _ _ _ Hf Hfill E) as (Hf1 & _ & Hfill1 & Hres). destruct b; simpl.
  - destruct Hres as [Hp Hk]. eexists. split; [done|]. split; [by split|]. auto.
  - destruct Hres as [-> Hfull]. unfold GroupQueue_ctor.
    set (g0 := mkGroupQueue _ _ _ 0 []).
    assert (Hg0 : t_key t = g_key g0).
    { unfold t_key, g_key, g0. simpl. by destruct (tm_chunkid (t_msg t)). }
    destruct (queTask_cases t g0) as [(_ & _ & ->)|([?|Hge] & _)]; [|done|simpl in Hge; lia].
    set (g := mkGroupQueue (gq_hasChunkId g0) (gq_chunkId g0) (gs_maxGroupSize s) 1 [t]).
    exists (mkGroupScheduler (incrCountForUserQuery (t_qId t) (gs_base s)).1 (gs_queue s ++ [g]) (gs_maxGroupSize s)).
    split; [done|].
    assert (Hg : group_ok (gs_maxGroupSize s) g).
    { split; simpl; [done|lia|done|]. by repeat constructor. }
    assert (Htasks : gs_tasks (mkGroupScheduler (incrCountForUserQuery (t_qId t) (gs_base s)).1
                      (gs_queue s ++ [g]) (gs_maxGroupSize s)) = gs_tasks s ++ [t]).
    { unfold gs_tasks. simpl. rewrite bind_app. done. }
    split; [split; simpl; auto|split; [|split; [|done]]].
    + apply Forall_app. split; [done|]. by constructor.
    + apply fill_ok_snoc; [done|]. eapply Forall_impl; [exact Hfull|]. intros g' Hg' Heq. apply Hg'.
      rewrite Hg0. done.
    + rewrite Htasks. by rewrite Permutation_app_comm.
    + intros k. by rewrite Htasks.
Qed.

Lemma gs_getCmd_spec s :
  group_inv s -> exists s' o, gs_getCmd s = Ret (s', o) /\ group_inv s' /\
    gs_tasks s = option_list o ++ gs_tasks s' /\
    (o = None <-> gs_queue s = [] \/ maxInFlight (gs_base s) <= b_inFlight (gs_base s)).
Proof.
  intros [Hf Hfill Hm]. unfold gs_getCmd, gs_ready. destruct (gs_queue s) as [|g l] eqn:Eq; simpl.
  { eexists _, _. split; [done|]. split; [split; rewrite ?Eq; auto|]. split; [done|].
       split; auto. }
  destruct (Z.ltb_spec (b_inFlight (gs_base s)) (maxInFlight (gs_base s))); simpl.
  2: { eexists _, _. split; [done|]. split; [split; rewrite ?Eq; auto|]. split; [done|].
       split; auto. }
  apply Forall_cons in Hf as [Hg Hf]. destruct Hfill as [Hfull Hfill].
  unfold gq_getTask. destruct (gq_tasks g) as [|t rest] eqn:Et; [by destruct (go_some _ _ Hg)|]. simpl.
  eexists _, _. split; [done|].
  assert (Htasks : gs_tasks s = t :: rest ++ (l ≫= gq_tasks)) by (unfold gs_tasks; rewrite Eq, bind_cons, Et; done).
  split; [|split; [|split; [done|intros [?|?]; [done|lia]]]].
  - split; simpl; [| |done]; (destruct rest as [|t' rest]; simpl; [done|]).
    + constructor; [|done]. destruct Hg as [H1 H2 H3 H4]. rewrite Et in *. split; simpl in *; auto; [lia|].
      by apply Forall_cons in H4 as [_ ?].
    + split; [|done]. destruct Hfull as [?|?]; [by left|by right].
  - rewrite Htasks. unfold gs_tasks. simpl. by destruct rest.
Qed.

(** ** The theorems *)

Inductive group_reach : GroupScheduler -> Prop :=
| gr_init name maxThreads maxReserve maxGroupSize priority :
    1 <= maxGroupSize -> group_reach (GroupScheduler_ctor name maxThreads maxReserve maxGroupSize priority)
| gr_que t s s' : group_reach s -> gs_queCmd t s = Ret s' -> group_reach s'
| gr_get s s' o : group_reach s -> gs_getCmd s = Ret (s', o) -> group_reach s'
| gr_finish t s : group_reach s -> group_reach (gs_commandFinish t s)
| gr_threads n s : group_reach s ->
    group_reach (mkGroupScheduler (applyAvailableThreads n (gs_base s)).1 (gs_queue s) (gs_maxGroupSize s)).

Lemma group_reach_inv s : group_reach s -> group_inv s.
Proof.
  induction 1 as [| t s s' _ IH Heq | s s' o _ IH Heq | t s _ IH | n s _ IH].
  - split; simpl; auto.
  - destruct (gs_queCmd_spec t s IH) as (s1 & E & Hi & _). congruence.
  - destruct (gs_getCmd_spec s IH) as (s1 & o1 & E & Hi & _). congruence.
  - by destruct IH.
  - by destruct IH.
Qed.

(** [queCmd] of the group scheduler never trips its assertion (for a
    positive group size), adds exactly the task, and keeps the order of
    arrival among the tasks of each chunk. *)
Theorem group_queue_fifo t s :
  group_reach s ->
  exists s', gs_queCmd t s = Ret s' /\ gs_tasks s' ≡ₚ t :: gs_tasks s /\
    forall k, filter (fun x => t_key x = k) (gs_tasks s') = filter (fun x => t_key x = k) (gs_tasks s ++ [t]).
Proof.
  intros Hs%group_reach_inv. destruct (gs_queCmd_spec t s Hs) as (s' & Heq & _ & Hp & Hk & _).
  exists s'. auto.
Qed.

(** [getCmd] never reads an empty group: it hands out the first task of
    the first group, or nothing exactly when the queue is empty or the limit
    on tasks in flight is reached. *)
Theorem group_get_first s :
  group_reach s ->
  exists s' o, gs_getCmd s = Ret (s', o) /\ gs_tasks s = option_list o ++ gs_tasks s' /\
    (o = None <-> gs_queue s = [] \/ maxInFlight (gs_base s) <= b_inFlight (gs_base s)).
Proof.
  intros Hs%group_reach_inv. destruct (gs_getCmd_spec s Hs) as (s' & o & Heq & _ & Hp & Ho). eauto.
Qed.

(** Grouping is bounded: every group serves one chunk and accepts at most
    [maxGroupSize] tasks over its life; only the last group of a chunk takes more. *)
Theorem group_bound s g :
  group_reach s -> g ∈ gs_queue s ->
  gq_accepted g <= gs_maxGroupSize s /\ gq_tasks g <> [] /\ Forall (fun t => t_key t = g_key g) (gq_tasks g) /\
  fill_ok (gs_queue s).
Proof.
  intros Hs%group_reach_inv Hg. pose proof (gi_groups _ Hs) as Hf. rewrite Forall_forall in Hf.
  destruct (Hf g Hg) as [? ? ? ?]. destruct Hs. split; [lia|]. auto.
Qed.

Module GroupSim.
Definition task (p : nat) (chunk : option Z) : Task :=
  Task_ctor p (mkTaskMsg 1 (Z.of_nat p) 0 None chunk [] 10 true).
Definition start : GroupScheduler := GroupScheduler_ctor "group" 3 2 2 1.
Definition one : GroupScheduler :=
  match gs_queCmd (task 0 (Some 4)) start with Ret s => s | Raise _ => start end.

Lemma start_reach : group_reach start.
Proof. by apply gr_init. Qed.

Lemma one_reach : group_reach one.
Proof. by apply (gr_que (task 0 (Some 4)) start); [exact start_reach|]. Qed.
End GroupSim.

Lemma group_queue_fifo_witness : exists s', gs_queCmd (GroupSim.task 1 None) GroupSim.one = Ret s' /\ length (gs_tasks s') = 2%nat.
Proof.
  destruct (group_queue_fifo (GroupSim.task 1 None) GroupSim.one GroupSim.one_reach) as (s' & Heq & Hp & _).
  exists s'. split; [exact Heq|]. rewrite Hp. reflexivity.
Defined.

Lemma group_get_first_witness : exists s' o, gs_getCmd GroupSim.one = Ret (s', o) /\ o <> None.
Proof.
  destruct (group_get_first GroupSim.one GroupSim.one_reach) as (s' & o & Heq & _ & Ho).
  exists s', o. split; [exact Heq|]. rewrite Ho. intros [H|H]; [discriminate|]. vm_compute in H. by apply H.
Defined.

Lemma group_bound_witness : exists g, g ∈ gs_queue GroupSim.one /\ gq_accepted g <= 2.
Proof.
  eexists. split; [by left|]. apply (group_bound GroupSim.one _ GroupSim.one_reach). by left.
Defined.
