(* ===== verification/ChunkDisk.v ===== *)
(** * ChunkDisk

    [wsched/ChunkDisk.h] and [.cc]: the older task collection, two heaps
    ordered by chunk id and then by the speed of the scan.  It implements the
    same interface as [ChunkTasksQueue]. *)

From S2P Require Import Prelude.
From S2P Require Import StdHeap.
From S2P Require Import ScanInfo.
From S2P Require Import MemMan.
From S2P Require Import MemManInv.
From S2P Require Import MemManLaws.
From S2P Require Import Task.
From S2P Require Import ChunkTasks.
From S2P Require Import ChunkTasksHeap.
From S2P Require Import ChunkTasksQueueInv.

Implicit Types (t : Task) (l : list Task).

(** [MinHeap::compareFunc] *)
Definition cd_compareFunc (x y : Task) : bool :=
  if getChunkId y <? getChunkId x then true
  else if getChunkId x <? getChunkId y then false
  else compareTables (t_scanInfo x) (t_scanInfo y) <? 0.

(** [MinHeap::push], [MinHeap::pop], [MinHeap::top], [MinHeap::heapify] *)
Definition min_push t l : list Task := push_heap cd_compareFunc l t.
Definition min_pop l : list Task := pop_heap cd_compareFunc l.
Definition min_top l : option Task := head l.
Definition min_heapify l : list Task := make_heap cd_compareFunc l.

(** [class ChunkDisk] *)
Record ChunkDisk := mkChunkDisk {
  cd_activeTasks : list Task;
  cd_pendingTasks : list Task;
  cd_lastChunk : Z;
  cd_resourceStarved : bool;
}.

Definition ChunkDisk_ctor : ChunkDisk := mkChunkDisk [] [] (-100) false.

Implicit Types (c : ChunkDisk).

(** [void queueTask(wbase::Task::Ptr const& a)] *)
Definition cd_queueTask t c : ChunkDisk :=
  if getChunkId t <=? cd_lastChunk c
  then mkChunkDisk (cd_activeTasks c) (min_push t (cd_pendingTasks c)) (cd_lastChunk c) (cd_resourceStarved c)
  else mkChunkDisk (min_push t (cd_activeTasks c)) (cd_pendingTasks c) (cd_lastChunk c) (cd_resourceStarved c).

(** [bool nextTaskDifferentChunkId()] *)
Definition cd_nextTaskDifferentChunkId c : bool :=
  match min_top (cd_activeTasks c) with
  | None => true
  | Some t => negb (getChunkId t =? cd_lastChunk c)
  end.

(** [bool setResourceStarved(bool starved)]: has the value changed? *)
Definition cd_setResourceStarved (starved : bool) c : ChunkDisk * bool :=
  if Bool.eqb starved (cd_resourceStarved c) then (c, false)
  else (mkChunkDisk (cd_activeTasks c) (cd_pendingTasks c) (cd_lastChunk c) starved, true).

(** [bool _empty() const] and [std::size_t getSize() const] *)
Definition cd_empty c : bool := isEmpty (cd_activeTasks c) && isEmpty (cd_pendingTasks c).
Definition cd_getSize c : Z := Z.of_nat (length (cd_activeTasks c) + length (cd_pendingTasks c)).

(** The swap at the start of [_ready]. *)
Definition cd_swap c : ChunkDisk :=
  if isEmpty (cd_activeTasks c) && negb (isEmpty (cd_pendingTasks c))
  then mkChunkDisk (cd_pendingTasks c) (cd_activeTasks c) (cd_lastChunk c) (cd_resourceStarved c)
  else c.

Section disk.
Context {M : Type} `{HM : MemMan M}.
Implicit Types (w : World M).

(** [bool _ready(bool useFlexibleLock)] *)
Definition cd_ready (useFlexibleLock : bool) c w : outcome (ChunkDisk * World M * bool) :=
  let c1 := cd_swap c in
  match min_top (cd_activeTasks c1) with
  | None => Ret (c1, w, false)
  | Some task =>
      if negb (hasMemHandle w task) then
        let? (w1, granted) := acquire useFlexibleLock task w in
        let c2 := (cd_setResourceStarved (negb granted) c1).1 in
        if granted
        then Ret (mkChunkDisk (cd_activeTasks c2) (cd_pendingTasks c2) (getChunkId task)
                    (cd_resourceStarved c2), w1, true)
        else Ret (c2, w1, false)
      else Ret (c1, w, true)
  end.

(** [wbase::Task::Ptr getTask(bool useFlexibleLock)] *)
Definition cd_getTask (useFlexibleLock : bool) c w : outcome (ChunkDisk * World M * option Task) :=
  let? (c1, w1, rdy) := cd_ready useFlexibleLock c w in
  if negb rdy then Ret (c1, w1, None)
  else
    match min_top (cd_activeTasks c1) with
    | None => Raise UndefinedBehaviour
    | Some task =>
        Ret (mkChunkDisk (min_pop (cd_activeTasks c1)) (cd_pendingTasks c1) (cd_lastChunk c1)
               (cd_resourceStarved c1), w1, Some task)
    end.
End disk.

(** ** Heaps of tasks with the same number of tables *)

Definition cd_compareFunc' (x y : Task) : bool :=
  if getChunkId y <? getChunkId x then true
  else if getChunkId x <? getChunkId y then false
  else compareFunc' x y.

#[export] Instance cd_compareFunc'_strict_weak : StrictWeak cd_compareFunc'.
Proof.
  split; unfold cd_compareFunc'.
  - intros x y. destruct (Z.ltb_spec (getChunkId y) (getChunkId x)), (Z.ltb_spec (getChunkId x) (getChunkId y));
      try lia; try done. apply sw_asym.
  - intros x y z. destruct (Z.ltb_spec (getChunkId y) (getChunkId x)), (Z.ltb_spec (getChunkId x) (getChunkId y)),
      (Z.ltb_spec (getChunkId z) (getChunkId y)), (Z.ltb_spec (getChunkId y) (getChunkId z)),
      (Z.ltb_spec (getChunkId z) (getChunkId x)), (Z.ltb_spec (getChunkId x) (getChunkId z));
      try lia; try done. apply sw_ntrans.
Qed.

Section uniform.
Context (n : nat).

Lemma cd_agree x y : num_tables x = n -> num_tables y = n -> cd_compareFunc x y = cd_compareFunc' x y.
Proof.
  intros Hx Hy. unfold cd_compareFunc, cd_compareFunc'.
  fold (compareFunc x y). by rewrite (compareFunc_agree n x y Hx Hy).
Qed.

(** A heap of tasks that scan [n] tables. *)
Definition disk_heap l : Prop := Forall (fun t => num_tables t = n) l /\ is_heap cd_compareFunc l.

Lemma disk_heap_nil : disk_heap [].
Proof. split; [constructor|]. intros i x p _ _ Hx. done. Qed.

Lemma disk_heap_push t l : num_tables t = n -> disk_heap l -> disk_heap (min_push t l).
Proof.
  intros Ht [Hl Hh]. unfold min_push. assert (Hf : Forall (fun t => num_tables t = n) (push_heap cd_compareFunc l t)).
  { rewrite push_heap_Permutation. by constructor. }
  split; [done|]. apply (is_heap_cong _ _ _ cd_agree); [done|].
  rewrite (push_heap_cong _ _ _ cd_agree) by done. apply push_heap_heap; [apply _|].
  by apply (is_heap_cong _ _ _ cd_agree).
Qed.

Lemma disk_heap_pop l : disk_heap l -> disk_heap (min_pop l).
Proof.
  intros [Hl Hh]. unfold min_pop.
  assert (Hf : Forall (fun t => num_tables t = n) (pop_heap cd_compareFunc l)).
  { destruct l as [|x l]; [constructor|]. rewrite <- (pop_heap_Permutation cd_compareFunc x l) in Hl.
    by apply Forall_cons in Hl as [_ ?]. }
  split; [done|]. apply (is_heap_cong _ _ _ cd_agree); [done|].
  rewrite (pop_heap_cong _ _ _ cd_agree) by done. apply pop_heap_heap; [apply _|].
  by apply (is_heap_cong _ _ _ cd_agree).
Qed.

Lemma disk_heap_top t l :
  disk_heap l -> min_top l = Some t -> forall t', t' ∈ l -> getChunkId t <= getChunkId t'.
Proof.
  destruct l as [|x l]; intros [Hl Hh]; [done|]. intros [= <-] t' Ht'.
  apply (is_heap_cong _ _ _ cd_agree) in Hh; [|done].
  destruct (heap_front_max cd_compareFunc' l x t' Hh Ht') as [Hc| <-]; [|lia].
  unfold cd_compareFunc' in Hc. destruct (Z.ltb_spec (getChunkId t') (getChunkId x)); [done|lia].
Qed.
End uniform.

(** ** Invariant and theorems *)

Definition cd_tasks c : list Task := cd_activeTasks c ++ cd_pendingTasks c.

Definition disk_ok (n : nat) c : Prop := disk_heap n (cd_activeTasks c) /\ disk_heap n (cd_pendingTasks c).

Lemma cd_queueTask_tasks t c : cd_tasks (cd_queueTask t c) ≡ₚ t :: cd_tasks c.
Proof.
  unfold cd_tasks, cd_queueTask. case_match; simpl; unfold min_push; rewrite push_heap_Permutation; [|done].
  by rewrite <- Permutation_middle.
Qed.

Lemma cd_swap_tasks c : cd_tasks (cd_swap c) ≡ₚ cd_tasks c.
Proof. unfold cd_tasks, cd_swap. case_match; simpl; [by rewrite Permutation_app_comm|done]. Qed.

Section disk_theorems.
Context {M : Type} `{HM : MemMan M} `{HL : !MemManLaws M}.
Implicit Types (w : World M).

Lemma cd_ready_spec flex c w :
  world_ok w ->
  cd_ready flex c w = Raise BadException \/
  exists c' w' b, cd_ready flex c w = Ret (c', w', b) /\ mm_inv (w_mm w') /\
    cd_activeTasks c' = cd_activeTasks (cd_swap c) /\ cd_pendingTasks c' = cd_pendingTasks (cd_swap c) /\
    (b = true -> exists t, min_top (cd_activeTasks c') = Some t /\ hasMemHandle w' t = true) /\
    (b = false -> cd_tasks c = [] \/ cd_resourceStarved c' = true).
Proof.
  intros Hw. unfold cd_ready. destruct (min_top (cd_activeTasks (cd_swap c))) as [t|] eqn:Ht.
  2: { right. eexists _, _, _. split; [done|]. split; [apply Hw|]. do 2 (split; [done|]). split; [done|].
       intros _. left. revert Ht. unfold cd_tasks, cd_swap.
       destruct (cd_activeTasks c) as [|a l] eqn:Ea; simpl; [|by rewrite Ea].
       destruct (cd_pendingTasks c) eqn:Ep; simpl; [done|]. done. }
  destruct (hasMemHandle w t) eqn:Hh; simpl.
  { right. eexists _, _, _. split; [done|]. split; [apply Hw|]. do 2 (split; [done|]). split; [by eauto|done]. }
  destruct (acquire_spec flex t w Hw Hh) as [->|(w' & b & -> & Hb)]; [by left|right]. simpl.
  assert (Hfr : forall s0, cd_activeTasks (cd_setResourceStarved s0 (cd_swap c)).1 = cd_activeTasks (cd_swap c) /\
            cd_pendingTasks (cd_setResourceStarved s0 (cd_swap c)).1 = cd_pendingTasks (cd_swap c) /\
            cd_resourceStarved (cd_setResourceStarved s0 (cd_swap c)).1 = s0).
  { intros s0. unfold cd_setResourceStarved. destruct (Bool.eqb s0 _) eqn:E; [|done].
    apply Bool.eqb_prop in E. by rewrite E. }
  destruct (Hfr (negb b)) as (Ha & Hp & Hs). destruct b; simpl in *; (eexists _, _, _; split; [done|]); simpl.
  - split; [apply Hb|]. rewrite Ha, Hp. do 2 (split; [done|]). split; [|done].
    intros _. exists t. split; [done|]. by eapply grant_has.
  - destruct Hb as [_ [Hi _]]. split; [done|]. do 2 (split; [done|]). split; [done|]. auto.
Qed.

Inductive disk_reach (n : nat) : ChunkDisk -> Prop :=
| dr_init : disk_reach n ChunkDisk_ctor
| dr_queue t c : disk_reach n c -> num_tables t = n -> disk_reach n (cd_queueTask t c)
| dr_ready flex c w c' w' b : disk_reach n c -> world_ok w -> cd_ready flex c w = Ret (c', w', b) -> disk_reach n c'
| dr_get flex c w c' w' o : disk_reach n c -> world_ok w -> cd_getTask flex c w = Ret (c', w', o) -> disk_reach n c'.

Lemma disk_ok_swap n c : disk_ok n c -> disk_ok n (cd_swap c).
Proof. intros [Ha Hp]. unfold cd_swap. by case_match. Qed.

Lemma disk_reach_ok n c : disk_reach n c -> disk_ok n c.
Proof.
  induction 1 as [|t c _ [Ha Hp] Ht|flex c w c' w' b _ IH Hw Heq|flex c w c' w' o _ IH Hw Heq].
  - split; apply disk_heap_nil.
  - unfold cd_queueTask. case_match; split; simpl; auto using disk_heap_push.
  - destruct (cd_ready_spec flex c w Hw) as [E|(c1 & w1 & b1 & E & _ & Ea & Ep & _)]; [congruence|].
    rewrite Heq in E. simplify_eq. destruct (disk_ok_swap n c IH) as [? ?]. split; congruence.
  - unfold cd_getTask in Heq. unbind Heq. destruct r as [[c1 w1] b1].
    destruct (cd_ready_spec flex c w Hw) as [E|(c2 & w2 & b2 & E & _ & Ea & Ep & _)]; [congruence|].
    rewrite Hr in E. simplify_eq. destruct (disk_ok_swap n c IH) as [Ha Hp].
    assert (Hok : disk_ok n c2) by (split; congruence). destruct Hok as [Hoa Hop].
    destruct b2; simpl in Heq; [|by injection Heq as <- _ _].
    destruct (min_top (cd_activeTasks c2)); [|done]. injection Heq as <- _ _.
    split; simpl; [by apply disk_heap_pop|done].
Qed.

(** [ChunkDisk::getTask] returns or throws [std::bad_exception]; it
    hands out a queued task that has a memory handle and, among tasks that
    scan the same number of tables, one with the lowest chunk id of the
    current sweep; it gives nothing only when it is empty or starved. *)
Theorem disk_get_lowest_chunk n flex c w :
  disk_reach n c -> world_ok w ->
  cd_getTask flex c w = Raise BadException \/
  exists c' w' o, cd_getTask flex c w = Ret (c', w', o) /\ cd_tasks c ≡ₚ option_list o ++ cd_tasks c' /\
    match o with
    | Some t => hasMemHandle w' t = true /\ forall t', t' ∈ cd_activeTasks c' -> getChunkId t <= getChunkId t'
    | None => cd_tasks c = [] \/ cd_resourceStarved c' = true
    end.
Proof.
  intros Hok%disk_reach_ok%disk_ok_swap Hw. unfold cd_getTask.
  destruct (cd_ready_spec flex c w Hw) as [->|(c1 & w1 & b & -> & _ & Ea & Ep & Hb & Hnb)]; [by left|right]. simpl.
  assert (Ht : cd_tasks c1 ≡ₚ cd_tasks c).
  { rewrite <- (cd_swap_tasks c). unfold cd_tasks. by rewrite Ea, Ep. }
  destruct b; simpl.
  - destruct (Hb eq_refl) as (t & Htop & Hh). rewrite Htop. eexists _, _, _. split; [done|].
    assert (Hperm : t :: min_pop (cd_activeTasks c1) ≡ₚ cd_activeTasks c1).
    { destruct (cd_activeTasks c1) as [|x l]; [done|]. injection Htop as ->. apply pop_heap_Permutation. }
    split; [rewrite <- Ht; unfold cd_tasks; simpl; by rewrite app_comm_cons, Hperm|]. split; [done|].
    simpl. intros t' Ht'. destruct Hok as [Ha _]. rewrite <- Ea in Ha.
    apply (disk_heap_top n t _ Ha Htop). rewrite <- Hperm. by right.
  - eexists _, _, _. split; [done|]. split; [by rewrite Ht|]. auto.
Qed.
End disk_theorems.

Lemma disk_get_lowest_chunk_witness :
  let w := mkWorld (mkMemManNone true) ∅ in
  let t := Mixed.task 0 [Mixed.table "Obj" 10] in
  exists c' w', cd_getTask false (cd_queueTask t ChunkDisk_ctor) w = Ret (c', w', Some t) /\ hasMemHandle w' t = true.
Proof.
  intros w t.
  assert (Hr : disk_reach (M := MemManNone) 1 (cd_queueTask t ChunkDisk_ctor)).
  { apply dr_queue; [apply dr_init|reflexivity]. }
  assert (Hw : world_ok w) by (split; exact I).
  destruct (disk_get_lowest_chunk 1 false _ w Hr Hw) as [H|(c' & w' & o & H & _ & Ho)];
    [vm_compute in H; discriminate|].
  assert (E : o = Some t) by (vm_compute in H; injection H as _ _ <-; reflexivity). rewrite E in H, Ho.
  exists c', w'. split; [exact H|apply Ho].
Defined.
