(* ===== verification/QueriesAndChunks.v ===== *)
(** * Statistics of user queries and chunks

    [wpublish/QueriesAndChunks.h] and [.cc].  [QueryStatistics] objects are
    shared between [_queryStats], [_deadQueries] and [_newlyDeadQueries]; they
    live in a store and the maps hold their addresses.  Every method is one
    atomic step at a given clock value.  The removal and examination threads
    are callers of [removeDead] and [examineAll].

    The schedulers are used through an interface, [TaskSchedulers]. *)

From S2P Require Import Prelude.
From S2P Require Import Double.
From S2P Require Import ScanInfo.
From S2P Require Import MemMan.
From S2P Require Import Task.

(** [class QueryStatistics] *)
Record QueryStatistics := mkQueryStatistics {
  qs_queryId : Z;
  qs_touched : Z;
  qs_size : Z;
  qs_tasksCompleted : Z;
  qs_tasksRunning : Z;
  qs_tasksBooted : Z;
  qs_queryBooted : bool;
  qs_totalTimeMinutes : double;
  qs_taskMap : gmap Z Task;
}.

Definition QueryStatistics_ctor (queryId now : Z) : QueryStatistics :=
  mkQueryStatistics queryId now 0 0 0 0 false d_zero ∅.

Implicit Types (s : QueryStatistics) (t : Task).

(** [void QueryStatistics::addTask(task)]; [insert] keeps an existing entry. *)
Definition qs_addTask t s : QueryStatistics :=
  mkQueryStatistics (qs_queryId s) (qs_touched s) (qs_size s) (qs_tasksCompleted s) (qs_tasksRunning s)
    (qs_tasksBooted s) (qs_queryBooted s) (qs_totalTimeMinutes s)
    (match qs_taskMap s !! t_jId t with Some _ => qs_taskMap s | None => <[t_jId t := t]> (qs_taskMap s) end).

(** [bool QueryStatistics::_isMostlyDead() const] *)
Definition isMostlyDead s : bool := qs_size s <=? qs_tasksCompleted s.

(** [bool QueryStatistics::isDead(deadTime, now)]; the clock counts nanoseconds. *)
Definition isDead (deadTime now : Z) s : bool :=
  isMostlyDead s && (deadTime * 1000000000 <? now - qs_touched s).

(** [ChunkTableStats::Data] *)
Record ChunkTableData := mkChunkTableData {
  ctd_tasksCompleted : Z;
  ctd_tasksBooted : Z;
  ctd_avgCompletionTime : double;
}.
Definition ChunkTableData_ctor : ChunkTableData := mkChunkTableData 0 0 d_zero.

(** [static std::string makeTableName(db, table)] *)
Definition makeTableName (db table : string) : string := db +:+ ":" +:+ table.

(** [void ChunkTableStats::addTaskFinished(double minutes)] *)
Definition addTaskFinished (minutes : double) (d : ChunkTableData) : ChunkTableData :=
  let n := wrap64 (ctd_tasksCompleted d + 1) in
  mkChunkTableData n (ctd_tasksBooted d)
    (if 1 <? n then
       d_div (d_add (d_mul (ctd_avgCompletionTime d) (d_of_Z 49)) (d_mul minutes (d_of_Z 1)))
         (d_add (d_of_Z 49) (d_of_Z 1))
     else minutes).

(** [ChunkTableStats::Ptr ChunkStatistics::add(scanTableName, minutes)] on [_tableStats]. *)
Definition cs_add (scanTableName : string) (minutes : double) (c : gmap string ChunkTableData)
    : gmap string ChunkTableData :=
  <[scanTableName := addTaskFinished minutes (default ChunkTableData_ctor (c !! scanTableName))]> c.

(** [ChunkTableStats::Ptr ChunkStatistics::getStats(scanTableName) const] *)
Definition cs_getStats (scanTableName : string) (c : gmap string ChunkTableData) : option ChunkTableData :=
  c !! scanTableName.

(** [class QueriesAndChunks]; [qc_objs] is the store of statistics objects. *)
Record QueriesAndChunks := mkQueriesAndChunks {
  qc_objs : gmap nat QueryStatistics;
  qc_new : nat;
  qc_queryStats : gmap Z nat;
  qc_chunkStats : gmap Z (gmap string ChunkTableData);
  qc_deadQueries : gmap Z nat;
  qc_newlyDeadQueries : gmap Z nat;
  qc_deadAfter : Z;                 (** seconds *)
  qc_requiredTasksCompleted : Z;
}.

Implicit Types (qc : QueriesAndChunks).

(** [QueriesAndChunks(deadAfter, examineAfter, maxTasksBooted)] *)
Definition QueriesAndChunks_ctor (deadAfter : Z) : QueriesAndChunks :=
  mkQueriesAndChunks ∅ 0 ∅ ∅ ∅ ∅ deadAfter 50.

(** [void setRequiredTasksCompleted(unsigned int value)] *)
Definition setRequiredTasksCompleted (value : Z) qc : QueriesAndChunks :=
  mkQueriesAndChunks (qc_objs qc) (qc_new qc) (qc_queryStats qc) (qc_chunkStats qc) (qc_deadQueries qc)
    (qc_newlyDeadQueries qc) (qc_deadAfter qc) value.

Definition qc_set_obj (a : nat) s qc : QueriesAndChunks :=
  mkQueriesAndChunks (<[a := s]> (qc_objs qc)) (qc_new qc) (qc_queryStats qc) (qc_chunkStats qc)
    (qc_deadQueries qc) (qc_newlyDeadQueries qc) (qc_deadAfter qc) (qc_requiredTasksCompleted qc).
Definition qc_set_dead (dead newly : gmap Z nat) qc : QueriesAndChunks :=
  mkQueriesAndChunks (qc_objs qc) (qc_new qc) (qc_queryStats qc) (qc_chunkStats qc) dead newly
    (qc_deadAfter qc) (qc_requiredTasksCompleted qc).
Definition qc_set_queryStats (m : gmap Z nat) qc : QueriesAndChunks :=
  mkQueriesAndChunks (qc_objs qc) (qc_new qc) m (qc_chunkStats qc) (qc_deadQueries qc)
    (qc_newlyDeadQueries qc) (qc_deadAfter qc) (qc_requiredTasksCompleted qc).
Definition qc_set_chunkStats (m : gmap Z (gmap string ChunkTableData)) qc : QueriesAndChunks :=
  mkQueriesAndChunks (qc_objs qc) (qc_new qc) (qc_queryStats qc) m (qc_deadQueries qc)
    (qc_newlyDeadQueries qc) (qc_deadAfter qc) (qc_requiredTasksCompleted qc).

(** [QueryStatistics::Ptr getStats(QueryId const& qId) const]: the address
    and the object, [None] for [nullptr]. *)
Definition qc_getStats (qId : Z) qc : option (nat * QueryStatistics) :=
  match qc_queryStats qc !! qId with
  | Some a => match qc_objs qc !! a with Some s => Some (a, s) | None => None end
  | None => None
  end.

(** [void addTask(task)] at clock [now]: creates the statistics if needed. *)
Definition qc_addTask t (now : Z) qc : QueriesAndChunks :=
  match qc_queryStats qc !! t_qId t with
  | Some a =>
      match qc_objs qc !! a with
      | Some s => qc_set_obj a (qs_addTask t s) qc
      | None => qc
      end
  | None =>
      let a := qc_new qc in
      let s := qs_addTask t (QueryStatistics_ctor (t_qId t) now) in
      mkQueriesAndChunks (<[a := s]> (qc_objs qc)) (S a) (<[t_qId t := a]> (qc_queryStats qc))
        (qc_chunkStats qc) (qc_deadQueries qc) (qc_newlyDeadQueries qc) (qc_deadAfter qc)
        (qc_requiredTasksCompleted qc)
  end.

(** Update of the counters of a statistics object. *)
Definition qs_count (now dSize dRunning dCompleted : Z) (minutes : double) s : QueryStatistics :=
  mkQueryStatistics (qs_queryId s) now (qs_size s + dSize) (qs_tasksCompleted s + dCompleted)
    (qs_tasksRunning s + dRunning) (qs_tasksBooted s) (qs_queryBooted s)
    (if dCompleted =? 0 then qs_totalTimeMinutes s else d_add (qs_totalTimeMinutes s) minutes) (qs_taskMap s).

Section tasks.
Context {M : Type}.
Implicit Types (w : World M).

(** [void queuedTask(task)] *)
Definition qc_queuedTask t (now : Z) qc w : QueriesAndChunks * World M :=
  (match qc_getStats (t_qId t) qc with
   | Some (a, s) => qc_set_obj a (qs_count now 1 0 0 d_zero s) qc
   | None => qc
   end, queued t now w).

(** [void startedTask(task)] *)
Definition qc_startedTask t (now : Z) qc w : QueriesAndChunks * World M :=
  (match qc_getStats (t_qId t) qc with
   | Some (a, s) => qc_set_obj a (qs_count now 0 1 0 d_zero s) qc
   | None => qc
   end, started t now w).

(** [void _finishedTaskForChunk(task, minutes)] *)
Definition qc_finishedTaskForChunk t (minutes : double) qc : QueriesAndChunks :=
  let chunk := default ∅ (qc_chunkStats qc !! getChunkId t) in
  let tblName := match si_infoTables (t_scanInfo t) with
                 | sti :: _ => makeTableName (sti_db sti) (sti_table sti)
                 | [] => EmptyString
                 end in
  qc_set_chunkStats (<[getChunkId t := cs_add tblName minutes chunk]> (qc_chunkStats qc)) qc.

(** [void finishedTask(task)] *)
Definition qc_finishedTask t (now : Z) qc w : QueriesAndChunks * World M :=
  let '(w1, millis) := finished t now w in
  let taskDuration := d_div (d_of_Z millis) (d_of_Z 60000) in
  let qc1 :=
    match qc_getStats (t_qId t) qc with
    | Some (a, s) =>
        let s' := qs_count now 0 (-1) 1 taskDuration s in
        let qc' := qc_set_obj a s' qc in
        if isMostlyDead s'
        then qc_set_dead (qc_deadQueries qc') (<[t_qId t := a]> (qc_newlyDeadQueries qc')) qc'
        else qc'
    | None => qc
    end in
  (qc_finishedTaskForChunk t taskDuration qc1, w1).
End tasks.

(** The object at an address of the dead lists is dead. *)
Definition obj_dead (now : Z) qc (a : nat) : bool :=
  match qc_objs qc !! a with Some s => isDead (qc_deadAfter qc) now s | None => false end.

(** [void removeDead(QueryStatistics::Ptr const& queryStats)] *)
Definition qc_removeDeadOne (a : nat) qc : QueriesAndChunks :=
  match qc_objs qc !! a with
  | Some s => qc_set_queryStats (delete (qs_queryId s) (qc_queryStats qc)) qc
  | None => qc
  end.

(** [void removeDead()] at clock [now] *)
Definition qc_removeDead (now : Z) qc : QueriesAndChunks :=
  let dead := qc_newlyDeadQueries qc ∪ qc_deadQueries qc in
  let dList := filter (fun p => obj_dead now qc p.2 = true) (in_order dead) in
  let qc1 := qc_set_dead (filter (fun p => obj_dead now qc p.2 = false) dead) ∅ qc in
  foldl (fun q p => qc_removeDeadOne p.2 q) qc1 dList.

(** ** Moving and booting tasks *)

(** [struct ChunkTimePercent] and [struct ScanTableSums] *)
Record ChunkTimePercent := mkChunkTimePercent { cp_shardTime : double; cp_percent : double; cp_valid : bool }.
Record ScanTableSums := mkScanTableSums { st_totalTime : double; st_chunkPercentages : gmap Z ChunkTimePercent }.
Definition ScanTableSums_ctor : ScanTableSums := mkScanTableSums d_zero ∅.

(** The inner loop of [_calcScanTableSums] for one table of the chunk. *)
Definition add_table_sum (required chunkId : Z) (tblName : string) (data : ChunkTableData)
    (sums : gmap string ScanTableSums) : gmap string ScanTableSums :=
  if String.eqb tblName EmptyString then sums
  else
    let st := default ScanTableSums_ctor (sums !! tblName) in
    let ctp := mkChunkTimePercent (ctd_avgCompletionTime data) d_zero (required <=? ctd_tasksCompleted data) in
    <[tblName := mkScanTableSums (d_add (st_totalTime st) (ctd_avgCompletionTime data))
                   (<[chunkId := ctp]> (st_chunkPercentages st))]> sums.

(** [ScanTableSumsMap _calcScanTableSums()] *)
Definition calcScanTableSums qc : gmap string ScanTableSums :=
  let sums := foldl (fun acc c => map_fold (add_table_sum (qc_requiredTasksCompleted qc) c.1) acc c.2)
                ∅ (in_order (qc_chunkStats qc)) in
  (fun st => mkScanTableSums (st_totalTime st)
     ((fun ctp => mkChunkTimePercent (cp_shardTime ctp) (d_div (cp_shardTime ctp) (st_totalTime st)) (cp_valid ctp))
        <$> st_chunkPercentages st)) <$> sums.

(** ** The schedulers

    What is asked of the schedulers of a worker with state [St]: the members
    of the tasks, the statistics themselves (the schedulers update them when a
    running task leaves its thread pool), [removeTask] of the scheduler with a
    given identity at a given clock value, and [getMaxTimeMinutes], which only
    scan schedulers have. *)
Class TaskSchedulers (St : Type) := {
  ts_vars : St -> Task -> TaskVars;
  ts_queries : St -> QueriesAndChunks;
  ts_set_queries : QueriesAndChunks -> St -> St;
  ts_removeTask : nat -> Task -> bool -> Z -> St -> outcome (St * bool);
  ts_maxTimeMinutes : nat -> St -> option double;
}.

Section scheds.
Context {St : Type} `{HT : TaskSchedulers St}.
Implicit Types (st : St).

(** [taskSched != nullptr && (taskSched == sched || sched == nullptr)] *)
Definition on_sched (sched : option nat) t st : option nat :=
  match v_taskScheduler (ts_vars st t) with
  | Some ts => if match sched with None => true | Some x => (ts =? x)%nat end then Some ts else None
  | None => None
  end.

(** The lambda [moveTasks] of [removeQueryFrom]: the tasks removed and the
    tasks that stay in [taskList]. *)
Fixpoint moveTasks (sched : option nat) (moveRunning : bool) (now : Z) (taskList : list Task) st
    : outcome (St * list Task * list Task) :=
  match taskList with
  | [] => Ret (st, [], [])
  | t :: rest =>
      match on_sched sched t st with
      | Some ts =>
          let? (st1, removed) := ts_removeTask ts t moveRunning now st in
          let? (st2, rem, notRem) := moveTasks sched moveRunning now rest st1 in
          Ret (if removed : bool then (st2, t :: rem, notRem) else (st2, rem, t :: notRem))
      | None => moveTasks sched moveRunning now rest st
      end
  end.

(** [std::vector<Task::Ptr> removeQueryFrom(QueryId const& qId, sched)] *)
Definition qc_removeQueryFrom (qId : Z) (sched : option nat) (now : Z) st : outcome (St * list Task) :=
  match qc_getStats qId (ts_queries st) with
  | None => Ret (st, [])
  | Some (_, s) =>
      let taskList := (in_order (qs_taskMap s)).*2 in
      let? (st1, removed1, notRemoved) := moveTasks sched false now taskList st in
      let? (st2, removed2, _) := moveTasks sched true now notRemoved st1 in
      Ret (st2, removed1 ++ removed2)
  end.

(** [uq->_tasksBooted += 1] *)
Definition qs_boot s : QueryStatistics :=
  mkQueryStatistics (qs_queryId s) (qs_touched s) (qs_size s) (qs_tasksCompleted s) (qs_tasksRunning s)
    (qs_tasksBooted s + 1) (qs_queryBooted s) (qs_totalTimeMinutes s) (qs_taskMap s).

(** [void _bootTask(uq, task, sched)]; what follows in the source only logs
    (moving the whole query to the snail scan is under [if (false && ...)]). *)
Definition qc_bootTask (uq : nat) t (sched : nat) (now : Z) st : outcome St :=
  let? (st1, _) := ts_removeTask sched t true now st in
  let qc := ts_queries st1 in
  Ret (match qc_objs qc !! uq with
       | Some s => ts_set_queries (qc_set_obj uq (qs_boot s) qc) st1
       | None => st1
       end).

(** The scheduler of [t], if it is a scan scheduler, with its time limit. *)
Definition scan_sched t st : option (nat * double) :=
  match v_taskScheduler (ts_vars st t) with
  | None => None
  | Some sched => match ts_maxTimeMinutes sched st with Some m => Some (sched, m) | None => None end
  end.

(** The run time of a task in milliseconds, at clock [now]. *)
Definition run_millis t (now : Z) st : Z := getRunTimeOf (ts_vars st t) now.

(** The part of the time of a full scan that [chunkId] takes on the table
    [slowestTable], if it is known. *)
Definition find_percent (sums : gmap string ScanTableSums) (slowestTable : string) (chunkId : Z)
    : option ChunkTimePercent :=
  match sums !! slowestTable with
  | None => None
  | Some tblSums => st_chunkPercentages tblSums !! chunkId
  end.

(** The body of the loop of [examineAll] on the running tasks of [uq]. *)
Definition examine_task (sums : gmap string ScanTableSums) (uq : nat) (now : Z) st t : outcome St :=
  match scan_sched t st with
  | None => Ret st
  | Some (sched, schedMaxTime) =>
      match si_infoTables (t_scanInfo t) with
      | [] => Ret st
      | b :: _ =>
          match find_percent sums (sti_db b +:+ ":" +:+ sti_table b) (getChunkId t) with
          | None => Ret st
          | Some ctp =>
              let maxTimeChunk := d_mul (cp_percent ctp) schedMaxTime in
              let runTimeMinutes := d_div (d_of_Z (run_millis t now st)) (d_of_Z 60000) in
              if d_ltb maxTimeChunk runTimeMinutes && cp_valid ctp
              then qc_bootTask uq t sched now st
              else Ret st
          end
      end
  end.

(** The running tasks of [uq] that are on scan schedulers. *)
Definition is_running_scan st t : bool :=
  bool_decide (v_state (ts_vars st t) = RUNNING) &&
  match scan_sched t st with Some _ => true | None => false end.

Definition examine_query (sums : gmap string ScanTableSums) (now : Z) st (uq : nat) : outcome St :=
  match qc_objs (ts_queries st) !! uq with
  | None => Ret st
  | Some s =>
      foldM (examine_task sums uq now) st
        (filter (fun t => is_running_scan st t = true) (in_order (qs_taskMap s)).*2)
  end.

(** [void examineAll()] *)
Definition qc_examineAll (now : Z) st : outcome St :=
  let sums := calcScanTableSums (ts_queries st) in
  foldM (examine_query sums now) st (in_order (qc_queryStats (ts_queries st))).*2.
End scheds.
