(* ===== verification/QueriesAndChunksThms.v ===== *)
(** * Correctness of the query statistics

    The methods of [QueriesAndChunks] that change the statistics, in any
    order, and what [removeDead] then removes. *)

From S2P Require Import Prelude.
From S2P Require Import Double.
From S2P Require Import ScanInfo.
From S2P Require Import MemMan.
From S2P Require Import Task.
From S2P Require Import QueriesAndChunks.

Implicit Types (s : QueryStatistics) (t : Task) (qc : QueriesAndChunks).

(** ** Well-formed statistics *)

Record qc_inv qc : Prop := {
  qi_stats q a : qc_queryStats qc !! q = Some a -> exists s, qc_objs qc !! a = Some s /\ qs_queryId s = q;
  qi_fresh a : is_Some (qc_objs qc !! a) -> (a < qc_new qc)%nat;
  qi_dead q a : qc_deadQueries qc !! q = Some a \/ qc_newlyDeadQueries qc !! q = Some a ->
    qc_queryStats qc !! q = Some a /\ exists s, qc_objs qc !! a = Some s /\ 0 < qs_tasksCompleted s;
  qi_done q a s : qc_queryStats qc !! q = Some a -> qc_objs qc !! a = Some s ->
    isMostlyDead s = true -> 0 < qs_tasksCompleted s ->
    is_Some (qc_deadQueries qc !! q) \/ is_Some (qc_newlyDeadQueries qc !! q);
  qi_nonneg a s : qc_objs qc !! a = Some s -> 0 <= qs_tasksCompleted s;
}.

Lemma qc_inv_ctor d : qc_inv (QueriesAndChunks_ctor d).
Proof.
  split; simpl; intros *.
  - by rewrite lookup_empty.
  - rewrite lookup_empty. by intros [].
  - by intros [H|H]; rewrite lookup_empty in H.
  - by rewrite lookup_empty.
  - by rewrite lookup_empty.
Qed.

(** Two queries never share a statistics object. *)
Lemma qc_inv_inj qc q q' a :
  qc_inv qc -> qc_queryStats qc !! q = Some a -> qc_queryStats qc !! q' = Some a -> q = q'.
Proof.
  intros Hi Hq Hq'. destruct (qi_stats _ Hi _ _ Hq) as (s & Hs & <-).
  destruct (qi_stats _ Hi _ _ Hq') as (s' & Hs' & <-). congruence.
Qed.

(** An update of one object that lets no query finish keeps the invariant. *)
Lemma qc_inv_set_obj qc a s s' :
  qc_inv qc -> qc_objs qc !! a = Some s ->
  qs_queryId s' = qs_queryId s -> qs_tasksCompleted s' = qs_tasksCompleted s -> qs_size s <= qs_size s' ->
  qc_inv (qc_set_obj a s' qc).
Proof.
  intros Hi Ha Hq Hc Hz. split; simpl; intros *.
  - intros H. destruct (qi_stats _ Hi _ _ H) as (s0 & Hs0 & <-).
    destruct (decide (a = a0)) as [<-|]; [|rewrite lookup_insert_ne by done; eauto].
    rewrite lookup_insert_eq. exists s'. split; [done|]. congruence.
  - intros H. apply (qi_fresh _ Hi). destruct (decide (a = a0)) as [<-|]; [by eexists|].
    by rewrite lookup_insert_ne in H.
  - intros H. destruct (qi_dead _ Hi _ _ H) as (Hq0 & s0 & Hs0 & Hc0). split; [done|].
    destruct (decide (a = a0)) as [<-|]; [|rewrite lookup_insert_ne by done; eauto].
    rewrite lookup_insert_eq. exists s'. split; [done|]. rewrite Hc. congruence.
  - intros H H0 Hm Hpos. destruct (decide (a = a0)) as [<-|].
    + rewrite lookup_insert_eq in H0. injection H0 as <-.
      apply (qi_done _ Hi _ _ _ H Ha); [|lia]. unfold isMostlyDead in *. lia.
    + rewrite lookup_insert_ne in H0 by done. by eapply (qi_done _ Hi).
  - intros H. destruct (decide (a = a0)) as [<-|].
    + rewrite lookup_insert_eq in H. injection H as <-. rewrite Hc. by eapply (qi_nonneg _ Hi).
    + rewrite lookup_insert_ne in H by done. by eapply (qi_nonneg _ Hi).
Qed.

Lemma qc_getStats_Some q qc a s :
  qc_getStats q qc = Some (a, s) <-> qc_queryStats qc !! q = Some a /\ qc_objs qc !! a = Some s.
Proof.
  unfold qc_getStats. destruct (qc_queryStats qc !! q) as [a'|]; [|naive_solver].
  destruct (qc_objs qc !! a') eqn:E; naive_solver.
Qed.

(** ** Every method keeps the invariant *)

Lemma qc_inv_addTask t now qc : qc_inv qc -> qc_inv (qc_addTask t now qc).
Proof.
  intros Hi. unfold qc_addTask. destruct (qc_queryStats qc !! t_qId t) as [a|] eqn:Hq.
  - destruct (qc_objs qc !! a) as [s|] eqn:Ha; [|done]. by apply (qc_inv_set_obj _ _ s).
  - assert (Hnew : qc_objs qc !! qc_new qc = None).
    { apply eq_None_not_Some. intros H%(qi_fresh _ Hi). lia. }
    split; simpl; intros *.
    + intros H. destruct (decide (t_qId t = q)) as [<-|].
      * rewrite lookup_insert_eq in H. injection H as <-. rewrite lookup_insert_eq. by eexists.
      * rewrite lookup_insert_ne in H by done. destruct (qi_stats _ Hi _ _ H) as (s & Hs & <-).
        exists s. rewrite lookup_insert_ne by congruence. done.
    + intros H. destruct (decide (qc_new qc = a)) as [<-|]; [lia|].
      rewrite lookup_insert_ne in H by done. apply (qi_fresh _ Hi) in H. lia.
    + intros H. destruct (qi_dead _ Hi _ _ H) as (H1 & s & Hs & ?).
      split; [by rewrite lookup_insert_ne by congruence|].
      exists s. by rewrite lookup_insert_ne by congruence.
    + intros H Ha Hm Hpos. destruct (decide (qc_new qc = a)) as [<-|].
      * rewrite lookup_insert_eq in Ha. injection Ha as <-. simpl in Hpos. lia.
      * rewrite lookup_insert_ne in Ha by done. destruct (decide (t_qId t = q)) as [<-|].
        { rewrite lookup_insert_eq in H. congruence. }
        rewrite lookup_insert_ne in H by done. by eapply (qi_done _ Hi).
    + intros Ha. destruct (decide (qc_new qc = a)) as [<-|].
      * rewrite lookup_insert_eq in Ha. injection Ha as <-. simpl. lia.
      * rewrite lookup_insert_ne in Ha by done. by eapply (qi_nonneg _ Hi).
Qed.

Lemma qc_inv_count t now dSize dRunning qc :
  0 <= dSize -> qc_inv qc ->
  qc_inv (match qc_getStats (t_qId t) qc with
          | Some (a, s) => qc_set_obj a (qs_count now dSize dRunning 0 d_zero s) qc
          | None => qc
          end).
Proof.
  intros Hd Hi. destruct (qc_getStats _ _) as [[a s]|] eqn:Hg; [|done].
  apply qc_getStats_Some in Hg as [? ?]. apply (qc_inv_set_obj _ _ s); simpl; [done..|lia|lia].
Qed.

Lemma qc_inv_chunkStats m qc : qc_inv qc -> qc_inv (qc_set_chunkStats m qc).
Proof. intros []. by split. Qed.

(** The statistics after a task of the query of [s] finished. *)
Definition stats_finished t now minutes a s qc : QueriesAndChunks :=
  let s' := qs_count now 0 (-1) 1 minutes s in
  let qc' := qc_set_obj a s' qc in
  if isMostlyDead s'
  then qc_set_dead (qc_deadQueries qc') (<[t_qId t := a]> (qc_newlyDeadQueries qc')) qc'
  else qc'.

Lemma qc_inv_finished t now minutes a s qc :
  qc_getStats (t_qId t) qc = Some (a, s) -> qc_inv qc -> qc_inv (stats_finished t now minutes a s qc).
Proof.
  intros [Hq Ha]%qc_getStats_Some Hi. pose proof (qi_nonneg _ Hi _ _ Ha) as Hnn.
  unfold stats_finished. set (s' := qs_count _ _ _ _ _ s).
  assert (Hobj : forall b r, qc_objs (qc_set_obj a s' qc) !! b = Some r ->
            b = a /\ r = s' \/ b <> a /\ qc_objs qc !! b = Some r).
  { simpl. intros b r H. destruct (decide (a = b)) as [<-|].
    - rewrite lookup_insert_eq in H. left. naive_solver.
    - rewrite lookup_insert_ne in H by done. right. naive_solver. }
  assert (Hfwd : forall b r, qc_objs qc !! b = Some r -> exists r', qc_objs (qc_set_obj a s' qc) !! b = Some r' /\
            qs_queryId r' = qs_queryId r /\ qs_tasksCompleted r <= qs_tasksCompleted r').
  { simpl. intros b r H. destruct (decide (a = b)) as [<-|].
    - rewrite lookup_insert_eq. exists s'. split; [done|]. assert (r = s) as -> by congruence. simpl. split; [done|lia].
    - rewrite lookup_insert_ne by done. exists r. split; [done|]. split; [done|lia]. }
  assert (Hin : qc_inv (qc_set_dead (qc_deadQueries qc)
            (if isMostlyDead s' then <[t_qId t := a]> (qc_newlyDeadQueries qc) else qc_newlyDeadQueries qc)
            (qc_set_obj a s' qc))).
  2:{ destruct (isMostlyDead s'); [done|]. destruct Hin; by split. }
  split; cbn [qc_set_dead qc_queryStats qc_deadQueries qc_newlyDeadQueries qc_objs qc_new]; intros *.
  - intros H. destruct (qi_stats _ Hi _ _ H) as (r & Hr & <-). destruct (Hfwd _ _ Hr) as (r' & ? & ? & ?). eauto.
  - intros [r Hr]. apply (qi_fresh _ Hi). apply Hobj in Hr as [[-> _]|[_ Hr]]; eauto.
  - intros H. assert (Hold : q = t_qId t /\ a0 = a \/
        (qc_deadQueries qc !! q = Some a0 \/ qc_newlyDeadQueries qc !! q = Some a0)).
    { destruct H as [H|H]; [by right; left|]. destruct (isMostlyDead s'); [|by right; right].
      destruct (decide (t_qId t = q)) as [<-|]; [rewrite lookup_insert_eq in H; left; naive_solver|].
      rewrite lookup_insert_ne in H by done. by right; right. }
    destruct Hold as [[-> ->]|Hold].
    + split; [done|]. exists s'. split; [by simpl; rewrite lookup_insert_eq|]. simpl. lia.
    + destruct (qi_dead _ Hi _ _ Hold) as (? & r & Hr & ?). split; [done|].
      destruct (Hfwd _ _ Hr) as (r' & ? & ? & ?). exists r'. split; [done|lia].
  - intros H Hr Hm Hpos. apply Hobj in Hr as [[-> ->]|[Hne Hr]].
    + assert (q = t_qId t) as -> by (by eapply qc_inv_inj). right. rewrite Hm, lookup_insert_eq. by eexists.
    + destruct (qi_done _ Hi _ _ _ H Hr Hm Hpos) as [|Hn]; [by left|right].
      destruct (isMostlyDead s'); [|done]. destruct (decide (t_qId t = q)) as [<-|]; [rewrite lookup_insert_eq; by eexists|].
      by rewrite lookup_insert_ne.
  - intros Hr. apply Hobj in Hr as [[-> ->]|[_ Hr]]; [simpl; lia|]. by eapply (qi_nonneg _ Hi).
Qed.

Lemma qc_inv_boot uq s qc : qc_inv qc -> qc_objs qc !! uq = Some s -> qc_inv (qc_set_obj uq (qs_boot s) qc).
Proof. intros Hi Hs. by apply (qc_inv_set_obj _ _ s). Qed.

(** ** [removeDead] *)

(** The removal loop only touches [_queryStats]. *)
Lemma removeDead_fold l qc :
  let qc' := foldl (fun q (p : Z * nat) => qc_removeDeadOne p.2 q) qc l in
  qc_objs qc' = qc_objs qc /\ qc_new qc' = qc_new qc /\ qc_deadQueries qc' = qc_deadQueries qc /\
  qc_newlyDeadQueries qc' = qc_newlyDeadQueries qc /\ qc_deadAfter qc' = qc_deadAfter qc.
Proof.
  revert qc. induction l as [|p l IH]; simpl; intros qc; [done|].
  destruct (IH (qc_removeDeadOne p.2 qc)) as (-> & -> & -> & -> & ->).
  unfold qc_removeDeadOne. by destruct (qc_objs qc !! p.2).
Qed.

(** It erases exactly the queries of the listed objects. *)
Lemma removeDead_fold_lookup l qc q :
  (forall p, p ∈ l -> exists s, qc_objs qc !! p.2 = Some s /\ qs_queryId s = p.1) ->
  qc_queryStats (foldl (fun q (p : Z * nat) => qc_removeDeadOne p.2 q) qc l) !! q =
    if decide (q ∈ l.*1) then None else qc_queryStats qc !! q.
Proof.
  revert qc. induction l as [|[k a] l IH]; simpl; intros qc Hl.
  - done.
  - destruct (Hl (k, a)) as (s & Hs & Hk); [left|]. simpl in Hs, Hk.
    rewrite IH.
    + unfold qc_removeDeadOne. rewrite Hs, Hk. simpl.
      destruct (decide (q ∈ l.*1)) as [Hin|Hin].
      * by rewrite decide_True by (by right).
      * destruct (decide (k = q)) as [->|Hne].
        -- rewrite lookup_delete_eq. by rewrite decide_True by left.
        -- rewrite lookup_delete_ne by done. rewrite decide_False; [done|].
           intros [?|?]%elem_of_cons; [by subst|done].
    + intros p Hp. unfold qc_removeDeadOne. rewrite Hs. simpl. apply Hl. by right.
Qed.

(** The address under which a query is listed as possibly dead. *)
Lemma dead_union_lookup qc q a :
  qc_inv qc ->
  (qc_newlyDeadQueries qc ∪ qc_deadQueries qc) !! q = Some a <->
  qc_deadQueries qc !! q = Some a \/ qc_newlyDeadQueries qc !! q = Some a.
Proof.
  intros Hi. rewrite lookup_union_Some_raw. split.
  - intros [?|[_ ?]]; auto.
  - intros [H|H]; [|by left]. destruct (qc_newlyDeadQueries qc !! q) as [b|] eqn:E; [left|by right].
    pose proof (proj1 (qi_dead _ Hi _ _ (or_introl H))).
    pose proof (proj1 (qi_dead _ Hi _ _ (or_intror E))). congruence.
Qed.

(** The statistics of a query after [removeDead]. *)
Lemma removeDead_lookup now qc q a s :
  qc_inv qc -> qc_queryStats qc !! q = Some a -> qc_objs qc !! a = Some s ->
  qc_queryStats (qc_removeDead now qc) !! q =
    if (0 <? qs_tasksCompleted s) && isDead (qc_deadAfter qc) now s then None else Some a.
Proof.
  intros Hi Hq Ha. unfold qc_removeDead. rewrite removeDead_fold_lookup; simpl.
  2:{ intros [k b] [_ Hin%elem_of_in_order]%list_elem_of_filter. simpl.
      apply (dead_union_lookup _ _ _ Hi), (qi_dead _ Hi) in Hin as [Hk _]. by apply (qi_stats _ Hi). }
  rewrite Hq. set (L := filter _ _).
  assert (Hiff : q ∈ L.*1 <-> ((0 <? qs_tasksCompleted s) && isDead (qc_deadAfter qc) now s) = true).
  { rewrite list_elem_of_fmap, andb_true_iff, Z.ltb_lt. split.
    - intros ([k b] & -> & [Hd Hin%elem_of_in_order]%list_elem_of_filter). simpl in *.
      apply (dead_union_lookup _ _ _ Hi), (qi_dead _ Hi) in Hin as (Hk & s' & Hs' & Hpos).
      assert (b = a) as -> by congruence. unfold obj_dead in Hd. rewrite Ha in Hd, Hs'.
      injection Hs' as <-. done.
    - intros [Hpos Hd]. exists (q, a). split; [done|]. apply list_elem_of_filter. simpl.
      split; [by unfold obj_dead; rewrite Ha|]. apply elem_of_in_order, (dead_union_lookup _ _ _ Hi).
      assert (Hm : isMostlyDead s = true) by (unfold isDead in Hd; by apply andb_true_iff in Hd as [? _]).
      destruct (qi_done _ Hi _ _ _ Hq Ha Hm Hpos) as [[b Hb]|[b Hb]].
      + pose proof (proj1 (qi_dead _ Hi _ _ (or_introl Hb))). assert (b = a) as -> by congruence. by left.
      + pose proof (proj1 (qi_dead _ Hi _ _ (or_intror Hb))). assert (b = a) as -> by congruence. by right. }
  destruct (decide (q ∈ L.*1)) as [Hin|Hin], (_ && _); try done; exfalso; naive_solver.
Qed.

(** A query that is gone stays gone. *)
Lemma removeDead_absent now qc q :
  qc_inv qc -> qc_queryStats qc !! q = None -> qc_queryStats (qc_removeDead now qc) !! q = None.
Proof.
  intros Hi Hq. unfold qc_removeDead. rewrite removeDead_fold_lookup; simpl.
  - rewrite Hq. by destruct (decide _).
  - intros [k b] [_ Hin%elem_of_in_order]%list_elem_of_filter. simpl.
    apply (dead_union_lookup _ _ _ Hi), (qi_dead _ Hi) in Hin as [Hk _]. by apply (qi_stats _ Hi).
Qed.

Lemma qc_inv_removeDead now qc : qc_inv qc -> qc_inv (qc_removeDead now qc).
Proof.
  intros Hi.
  assert (Hsub : forall q a, qc_queryStats (qc_removeDead now qc) !! q = Some a -> qc_queryStats qc !! q = Some a).
  { intros q a H. destruct (qc_queryStats qc !! q) as [b|] eqn:E.
    - destruct (qi_stats _ Hi _ _ E) as (s & Hs & _).
      rewrite (removeDead_lookup now _ _ _ _ Hi E Hs) in H. by case_match.
    - by rewrite removeDead_absent in H. }
  pose proof (removeDead_lookup now qc) as Hlk.
  unfold qc_removeDead in *. set (qc1 := qc_set_dead _ _ _) in *. set (L := filter _ (in_order _)) in *.
  destruct (removeDead_fold L qc1) as (Ho & Hn & Hd & Hnd & _).
  split; rewrite ?Ho, ?Hn, ?Hd, ?Hnd; subst qc1; cbn [qc_set_dead qc_objs qc_new qc_deadQueries qc_newlyDeadQueries].
  - intros q a H. by apply (qi_stats _ Hi), Hsub.
  - apply (qi_fresh _ Hi).
  - intros q a [[Hin Hnd']%map_lookup_filter_Some|H]; [|by rewrite lookup_empty in H].
    apply (dead_union_lookup _ _ _ Hi), (qi_dead _ Hi) in Hin as (Hq & s & Hs & Hpos).
    split; [|by eauto]. rewrite (Hlk _ _ _ Hi Hq Hs). simpl in Hnd'. unfold obj_dead in Hnd'. rewrite Hs in Hnd'.
    by rewrite Hnd', andb_false_r.
  - intros q a s H Hs Hm Hpos. pose proof (Hsub _ _ H) as Hq. rewrite (Hlk _ _ _ Hi Hq Hs) in H.
    left. exists a. apply map_lookup_filter_Some. split.
    + apply (dead_union_lookup _ _ _ Hi).
      destruct (qi_done _ Hi _ _ _ Hq Hs Hm Hpos) as [[b Hb]|[b Hb]].
      * pose proof (proj1 (qi_dead _ Hi _ _ (or_introl Hb))). assert (b = a) as -> by congruence. by left.
      * pose proof (proj1 (qi_dead _ Hi _ _ (or_intror Hb))). assert (b = a) as -> by congruence. by right.
    + simpl. unfold obj_dead. rewrite Hs. apply Z.ltb_lt in Hpos. rewrite Hpos in H. simpl in H. by case_match.
  - apply (qi_nonneg _ Hi).
Qed.

(** ** The system

    The methods that change the statistics, each at its own clock value, in
    any order and for any tasks. *)
Section system.
Context {M : Type}.
Implicit Types (w : World M).

Inductive qc_step : QueriesAndChunks * World M -> QueriesAndChunks * World M -> Prop :=
| step_addTask t now qc w : qc_step (qc, w) (qc_addTask t now qc, w)
| step_queuedTask t now qc w : qc_step (qc, w) (qc_queuedTask t now qc w)
| step_startedTask t now qc w : qc_step (qc, w) (qc_startedTask t now qc w)
| step_finishedTask t now qc w : qc_step (qc, w) (qc_finishedTask t now qc w)
| step_removeDead now qc w : qc_step (qc, w) (qc_removeDead now qc, w)
| step_boot uq s qc w : qc_objs qc !! uq = Some s -> qc_step (qc, w) (qc_set_obj uq (qs_boot s) qc, w).

Inductive qc_reachable (deadAfter : Z) : QueriesAndChunks * World M -> Prop :=
| qcr_init w : qc_reachable deadAfter (QueriesAndChunks_ctor deadAfter, w)
| qcr_step x y : qc_reachable deadAfter x -> qc_step x y -> qc_reachable deadAfter y.

Lemma finishedTask_eq t now qc w :
  let minutes := d_div (d_of_Z (finished t now w).2) (d_of_Z 60000) in
  (qc_finishedTask t now qc w).1 =
  qc_finishedTaskForChunk t minutes
    (match qc_getStats (t_qId t) qc with
     | Some (a, s) => stats_finished t now minutes a s qc
     | None => qc
     end).
Proof. unfold qc_finishedTask. by destruct (finished t now w). Qed.

Lemma qc_step_inv x y : qc_step x y -> qc_inv x.1 -> qc_inv y.1.
Proof.
  destruct 1; cbn [fst]; intros Hi.
  - by apply qc_inv_addTask.
  - by apply qc_inv_count.
  - by apply qc_inv_count.
  - rewrite finishedTask_eq. apply qc_inv_chunkStats.
    destruct (qc_getStats _ _) as [[a s]|] eqn:Hg; [|done]. by apply qc_inv_finished.
  - by apply qc_inv_removeDead.
  - by apply qc_inv_boot.
Qed.

Lemma qc_step_deadAfter x y : qc_step x y -> qc_deadAfter y.1 = qc_deadAfter x.1.
Proof.
  destruct 1; cbn [fst]; try done.
  - unfold qc_addTask. by repeat case_match.
  - unfold qc_queuedTask. simpl. by repeat case_match.
  - unfold qc_startedTask. simpl. by repeat case_match.
  - rewrite finishedTask_eq. unfold stats_finished. simpl. by repeat case_match.
  - unfold qc_removeDead. apply (removeDead_fold _ (qc_set_dead _ _ qc)).
Qed.

Lemma qc_reachable_inv d x : qc_reachable d x -> qc_inv x.1 /\ qc_deadAfter x.1 = d.
Proof.
  induction 1 as [w|x y _ [IH1 IH2] Hs]; [split; [apply qc_inv_ctor|done]|].
  split; [by eapply qc_step_inv|]. by rewrite (qc_step_deadAfter _ _ Hs).
Qed.

(** *** Incomplete tasks *)

(** The number of tasks of query [q] in a list. *)
Definition tasks_of (q : Z) (l : list Task) : Z := Z.of_nat (length (filter (fun t => t_qId t = q) l)).

Lemma tasks_of_cons q t l : tasks_of q (t :: l) = (if decide (t_qId t = q) then 1 else 0) + tasks_of q l.
Proof. unfold tasks_of. rewrite filter_cons. destruct (decide (t_qId t = q)); simpl length; lia. Qed.

Lemma tasks_of_nonneg q l : 0 <= tasks_of q l.
Proof. unfold tasks_of. lia. Qed.

#[local] Instance tasks_of_Permutation q : Proper ((≡ₚ) ==> eq) (tasks_of q).
Proof. intros l l' Hl. unfold tasks_of. by rewrite Hl. Qed.

Lemma getStats_set_obj qc q0 a s' q :
  qc_inv qc -> qc_queryStats qc !! q0 = Some a ->
  qc_getStats q (qc_set_obj a s' qc) = if decide (q = q0) then Some (a, s') else qc_getStats q qc.
Proof.
  intros Hi Hq0. unfold qc_getStats. simpl. destruct (decide (q = q0)) as [->|Hne].
  - by rewrite Hq0, lookup_insert_eq.
  - destruct (qc_queryStats qc !! q) as [b|] eqn:Hb; [|done].
    rewrite lookup_insert_ne; [done|]. intros <-. apply Hne. by eapply qc_inv_inj.
Qed.

(** The statistics count the queued tasks of [l] that are incomplete. *)
Definition open_ok qc (l : list Task) : Prop :=
  forall q, match qc_getStats q qc with
            | Some (_, s) => qs_size s - qs_tasksCompleted s = tasks_of q l
            | None => tasks_of q l = 0
            end.

Lemma open_ok_set_obj qc l l' q0 a s s' d :
  qc_inv qc -> qc_getStats q0 qc = Some (a, s) -> open_ok qc l ->
  (forall q, tasks_of q l' = (if decide (q = q0) then d else 0) + tasks_of q l) ->
  qs_size s' - qs_tasksCompleted s' = d + (qs_size s - qs_tasksCompleted s) ->
  open_ok (qc_set_obj a s' qc) l'.
Proof.
  intros Hi Hg Ho Hl Hs q. pose proof (proj1 (qc_getStats_Some _ _ _ _) Hg) as [Hq _].
  rewrite (getStats_set_obj _ q0) by done. specialize (Ho q). rewrite Hl.
  destruct (decide (q = q0)) as [->|]; [rewrite Hg in Ho; lia|]. by rewrite Z.add_0_l.
Qed.

(** A scheduled run of the methods: a task is added and queued by
    [Foreman::processTask] (with no [removeDead] of its query between the
    two), then it may start, and it finishes once. *)
Inductive open_step : QueriesAndChunks * World M * list Task -> QueriesAndChunks * World M * list Task -> Prop :=
| os_submit t now now' qc w l :
    open_step (qc, w, l) (qc_queuedTask t now' (qc_addTask t now qc) w, t :: l)
| os_start t now qc w l : t ∈ l -> open_step (qc, w, l) (qc_startedTask t now qc w, l)
| os_finish t now qc w l l' : l ≡ₚ t :: l' -> open_step (qc, w, l) (qc_finishedTask t now qc w, l')
| os_removeDead now qc w l : open_step (qc, w, l) (qc_removeDead now qc, w, l)
| os_boot uq s qc w l : qc_objs qc !! uq = Some s -> open_step (qc, w, l) (qc_set_obj uq (qs_boot s) qc, w, l).

Inductive open_reachable (deadAfter : Z) : QueriesAndChunks * World M * list Task -> Prop :=
| or_init w : open_reachable deadAfter (QueriesAndChunks_ctor deadAfter, w, [])
| or_step x y : open_reachable deadAfter x -> open_step x y -> open_reachable deadAfter y.

Lemma addTask_open t now qc l :
  qc_inv qc -> open_ok qc l ->
  open_ok (qc_addTask t now qc) l /\ exists a s, qc_getStats (t_qId t) (qc_addTask t now qc) = Some (a, s).
Proof.
  intros Hi Ho. unfold qc_addTask. destruct (qc_queryStats qc !! t_qId t) as [a|] eqn:Hq.
  - destruct (qi_stats _ Hi _ _ Hq) as (s & Hs & _). rewrite Hs.
    assert (Hg : qc_getStats (t_qId t) qc = Some (a, s)) by (by apply qc_getStats_Some).
    split.
    + eapply (open_ok_set_obj _ _ _ _ _ _ _ 0); [done..| |simpl; lia]. intros q. by destruct (decide _).
    + exists a, (qs_addTask t s). rewrite (getStats_set_obj _ (t_qId t)) by done. by rewrite decide_True.
  - split.
    + intros q. specialize (Ho q). unfold qc_getStats in *. simpl.
      destruct (decide (t_qId t = q)) as [<-|].
      * rewrite lookup_insert_eq, lookup_insert_eq. rewrite Hq in Ho. simpl. lia.
      * rewrite lookup_insert_ne by done. destruct (qc_queryStats qc !! q) as [b|] eqn:Hb; [|done].
        destruct (qi_stats _ Hi _ _ Hb) as (s & Hs & _). rewrite Hs in Ho.
        rewrite lookup_insert_ne; [by rewrite Hs|]. intros Hn.
        pose proof (qi_fresh _ Hi b (ex_intro _ _ Hs)). lia.
    + exists (qc_new qc). eexists. unfold qc_getStats. simpl. by rewrite !lookup_insert_eq.
Qed.

Lemma finished_open t now minutes a s qc l l' :
  qc_inv qc -> open_ok qc l -> l ≡ₚ t :: l' -> qc_getStats (t_qId t) qc = Some (a, s) ->
  open_ok (stats_finished t now minutes a s qc) l'.
Proof.
  intros Hi Ho Hl Hg. set (s' := qs_count now 0 (-1) 1 minutes s).
  assert (Hs : open_ok (qc_set_obj a s' qc) l').
  { apply (open_ok_set_obj _ l _ (t_qId t) _ s _ (-1)); [done..| |simpl; lia].
    intros q. rewrite Hl, tasks_of_cons. destruct (decide (q = t_qId t)) as [->|];
      [rewrite decide_True by done; lia|rewrite decide_False by done; lia]. }
  unfold stats_finished. fold s'. by destruct (isMostlyDead s').
Qed.

Lemma removeDead_open now qc l : qc_inv qc -> open_ok qc l -> open_ok (qc_removeDead now qc) l.
Proof.
  intros Hi Ho q. specialize (Ho q).
  assert (Hob : qc_objs (qc_removeDead now qc) = qc_objs qc).
  { unfold qc_removeDead. apply (removeDead_fold _ (qc_set_dead _ _ qc)). }
  unfold qc_getStats in *. rewrite Hob. destruct (qc_queryStats qc !! q) as [a|] eqn:Hq.
  - destruct (qi_stats _ Hi _ _ Hq) as (s & Hs & _). rewrite Hs in Ho.
    rewrite (removeDead_lookup now _ _ _ _ Hi Hq Hs). destruct (_ && _) eqn:E; [|by rewrite Hs].
    apply andb_true_iff in E as [_ [E _]%andb_true_iff]. unfold isMostlyDead in E.
    pose proof (tasks_of_nonneg q l). lia.
  - by rewrite removeDead_absent.
Qed.

Lemma open_step_inv x y :
  open_step x y -> qc_inv x.1.1 /\ open_ok x.1.1 x.2 -> qc_inv y.1.1 /\ open_ok y.1.1 y.2.
Proof.
  destruct 1 as [t now now' qc w l|t now qc w l Hin|t now qc w l l' Hl|now qc w l|uq s qc w l Hs];
    cbn [fst snd]; intros [Hi Ho].
  - destruct (addTask_open t now qc l Hi Ho) as (Ho' & a & s & Hg). pose proof (qc_inv_addTask t now qc Hi) as Hi'.
    split; [by apply qc_inv_count|]. unfold qc_queuedTask. simpl. rewrite Hg.
    apply (open_ok_set_obj _ l _ (t_qId t) _ s _ 1); [done..| |simpl; lia].
    intros q. rewrite tasks_of_cons. destruct (decide (q = t_qId t)) as [->|];
      [by rewrite decide_True|by rewrite decide_False].
  - split; [by apply qc_inv_count|]. unfold qc_startedTask. simpl.
    destruct (qc_getStats (t_qId t) qc) as [[a s]|] eqn:Hg; [|done].
    apply (open_ok_set_obj _ l _ (t_qId t) _ s _ 0); [done..| |simpl; lia]. intros q. by destruct (decide _).
  - rewrite finishedTask_eq. set (minutes := d_div _ _).
    destruct (qc_getStats (t_qId t) qc) as [[a s]|] eqn:Hg.
    + split; [apply qc_inv_chunkStats; by apply qc_inv_finished|].
      pose proof (finished_open t now minutes a s qc l l' Hi Ho Hl Hg) as H. intros q. exact (H q).
    + exfalso. specialize (Ho (t_qId t)). rewrite Hg, Hl, tasks_of_cons, decide_True in Ho by done.
      pose proof (tasks_of_nonneg (t_qId t) l'). lia.
  - split; [by apply qc_inv_removeDead|]. by apply removeDead_open.
  - split; [by apply qc_inv_boot|]. intros q. specialize (Ho q). unfold qc_getStats in *. simpl.
    destruct (qc_queryStats qc !! q) as [b|] eqn:Hb; [|done].
    destruct (decide (uq = b)) as [<-|]; [|by rewrite lookup_insert_ne].
    rewrite lookup_insert_eq. by rewrite Hs in Ho.
Qed.

Lemma open_reachable_inv d x : open_reachable d x -> qc_inv x.1.1 /\ open_ok x.1.1 x.2.
Proof.
  induction 1 as [w|x y _ IH Hs]; [|by eapply open_step_inv].
  split; [apply qc_inv_ctor|]. intros q. unfold qc_getStats. simpl. by rewrite lookup_empty.
Qed.

(** Whatever happened before, [removeDead] at clock [now] erases the
    statistics of a user query exactly when a task of the query has
    completed, no queued task of it is incomplete and the query was not
    touched for more than [_deadAfter] seconds; all other statistics stay
    (so no finished query is kept forever, and none is dropped early). *)
Theorem removeDead_exact d qc w now q a s :
  qc_reachable d (qc, w) ->
  qc_getStats q qc = Some (a, s) ->
  (qc_getStats q (qc_removeDead now qc) = None <->
     0 < qs_tasksCompleted s /\ qs_size s <= qs_tasksCompleted s /\ d * 1000000000 < now - qs_touched s) /\
  (qc_getStats q (qc_removeDead now qc) <> None -> qc_getStats q (qc_removeDead now qc) = Some (a, s)).
Proof.
  intros Hr [Hq Ha]%qc_getStats_Some. apply qc_reachable_inv in Hr as [Hi Hd]. simpl in Hi, Hd.
  pose proof (removeDead_lookup now _ _ _ _ Hi Hq Ha) as Hl. rewrite Hd in Hl.
  assert (Ho : qc_objs (qc_removeDead now qc) = qc_objs qc).
  { unfold qc_removeDead. apply (removeDead_fold _ (qc_set_dead _ _ qc)). }
  unfold qc_getStats. rewrite Hl, Ho. unfold isDead, isMostlyDead.
  destruct (Z.ltb_spec 0 (qs_tasksCompleted s)), (Z.leb_spec (qs_size s) (qs_tasksCompleted s)),
    (Z.ltb_spec (d * 1000000000) (now - qs_touched s)); simpl; rewrite ?Ha;
    (split; [|done]); split; first [done|lia|naive_solver lia|idtac].
Qed.

(** The counters of a user query are exact: as long as one of its tasks
    is queued or running the query has statistics, in which [_size] minus
    [_tasksCompleted] is the number of its incomplete tasks, and no
    [removeDead], at whatever clock value, erases them. *)
Theorem stats_while_incomplete d qc w l t now :
  open_reachable d (qc, w, l) -> t ∈ l ->
  exists a s, qc_getStats (t_qId t) qc = Some (a, s) /\
    qs_size s - qs_tasksCompleted s = tasks_of (t_qId t) l /\
    qc_getStats (t_qId t) (qc_removeDead now qc) = Some (a, s).
Proof.
  intros [Hi Ho]%open_reachable_inv [l' Hl]%elem_of_Permutation. simpl in Hi, Ho.
  specialize (Ho (t_qId t)).
  assert (Hpos : 0 < tasks_of (t_qId t) l).
  { rewrite Hl, tasks_of_cons, decide_True by done. pose proof (tasks_of_nonneg (t_qId t) l'). lia. }
  destruct (qc_getStats (t_qId t) qc) as [[a s]|] eqn:Hg; [|lia].
  exists a, s. split; [done|]. split; [done|]. apply qc_getStats_Some in Hg as [Hq Ha].
  apply qc_getStats_Some. rewrite (removeDead_lookup now _ _ _ _ Hi Hq Ha).
  assert (Hob : qc_objs (qc_removeDead now qc) = qc_objs qc).
  { unfold qc_removeDead. apply (removeDead_fold _ (qc_set_dead _ _ qc)). }
  rewrite Hob. split; [|done]. unfold isDead, isMostlyDead.
  destruct (Z.leb_spec (qs_size s) (qs_tasksCompleted s)); [lia|]. by rewrite andb_false_r.
Qed.
End system.

(** ** Concrete runs *)

Module QcSim.
Definition msg (q j : Z) : TaskMsg := mkTaskMsg q j 0 None (Some 7) [] 0 false.
Definition t1 : Task := Task_ctor 1 (msg 9 1).
Definition t2 : Task := Task_ctor 2 (msg 9 2).
Definition w0 : World unit := mkWorld tt ∅.
Definition second : Z := 1000000000.

(** One task of query 9 is submitted at 0 and finishes at 10 s. *)
Definition q1 := qc_queuedTask t1 0 (qc_addTask t1 0 (QueriesAndChunks_ctor 300)) w0.
Definition q2 := qc_finishedTask t1 (10 * second) q1.1 q1.2.

Lemma q1_reachable : open_reachable 300 (q1, [t1]).
Proof. eapply or_step; [apply (or_init _ w0)|]. apply os_submit. Qed.

Lemma q2_reachable : qc_reachable 300 q2.
Proof.
  eapply qcr_step; [eapply qcr_step; [eapply qcr_step; [apply (qcr_init _ w0)|]|]|].
  - apply (step_addTask t1 0).
  - apply (step_queuedTask t1 0).
  - apply (step_finishedTask t1 (10 * second) q1.1 q1.2).
Qed.

(** A second task of the query is added after 311 s, and the removal thread
    runs before [queuedTask]: [addTask] does not touch the statistics, so
    they are erased and the queued task is in no statistics. *)
Definition late := qc_queuedTask t2 (311 * second)
                     (qc_removeDead (311 * second) (qc_addTask t2 (311 * second) q2.1)) q2.2.

Lemma late_task_not_counted :
  qc_getStats 9 late.1 = None /\ v_state (vars late.2 t2) = QUEUED.
Proof. by vm_compute. Qed.
End QcSim.

Lemma removeDead_exact_witness :
  exists a s, qc_getStats 9 QcSim.q2.1 = Some (a, s) /\
    qc_getStats 9 (qc_removeDead (311 * QcSim.second) QcSim.q2.1) = None /\
    qc_getStats 9 (qc_removeDead (309 * QcSim.second) QcSim.q2.1) = Some (a, s).
Proof.
  destruct (qc_getStats 9 QcSim.q2.1) as [[a s]|] eqn:E; [|by vm_compute in E].
  exists a, s. split; [done|].
  assert (Hr : qc_reachable 300 (QcSim.q2.1, QcSim.q2.2)) by apply QcSim.q2_reachable.
  split.
  - apply (removeDead_exact 300 _ _ (311 * QcSim.second) 9 a s Hr E).
    vm_compute in E. injection E as _ <-. vm_compute. done.
  - apply (removeDead_exact 300 _ _ (309 * QcSim.second) 9 a s Hr E). by vm_compute.
Defined.

Lemma stats_while_incomplete_witness :
  exists a s, qc_getStats 9 QcSim.q1.1 = Some (a, s) /\ qs_size s - qs_tasksCompleted s = 1 /\
    qc_getStats 9 (qc_removeDead (1000 * QcSim.second) QcSim.q1.1) = Some (a, s).
Proof.
  apply (stats_while_incomplete 300 QcSim.q1.1 QcSim.q1.2 [QcSim.t1] QcSim.t1 (1000 * QcSim.second)).
  - apply QcSim.q1_reachable.
  - by left.
Defined.
