(* ===== verification/EventThread.v ===== *)
(** * Event threads

    [util/EventThread.h] and [.cc], [PoolEventThread] and [CommandThreadPool]
    of [util/ThreadPool.h] and [.cc].  An event thread takes commands from a
    queue and runs them; other threads may make it leave its pool while it
    runs a command ([leavePool]).  The atomic members are the shared state;
    every access of one of them is a step, and the thread and any number of
    callers of [leavePool] interleave freely.  Commands are identified by
    their address. *)

From S2P Require Import Prelude.

(** The atomic members of [class EventThread] and [class PoolEventThread]. *)
Record EventThread := mkEventThread {
  et_loop : bool;
  et_commandFinishCalled : bool;
  et_currentCommand : option nat;
  et_finishupOnce : bool;
}.

(** The member initialisers. *)
Definition EventThread_ctor : EventThread := mkEventThread true false None false.

Implicit Types (e : EventThread) (c : nat).

Definition set_loop (b : bool) e : EventThread :=
  mkEventThread b (et_commandFinishCalled e) (et_currentCommand e) (et_finishupOnce e).
Definition set_finishCalled (b : bool) e : EventThread :=
  mkEventThread (et_loop e) b (et_currentCommand e) (et_finishupOnce e).
Definition set_current (c : option nat) e : EventThread :=
  mkEventThread (et_loop e) (et_commandFinishCalled e) c (et_finishupOnce e).

(** [_commandFinishCalled.exchange(true) == false], the guard of
    [callCommandFinish]. *)
Definition finish_exchange e : EventThread * bool :=
  (set_finishCalled true e, negb (et_commandFinishCalled e)).

(** [_finishupOnce.exchange(true) == false], the guard of [finishup]. *)
Definition finishup_exchange e : EventThread * bool :=
  (mkEventThread (et_loop e) (et_commandFinishCalled e) (et_currentCommand e) true, negb (et_finishupOnce e)).

(** Calls on the command queue and on the thread pool. *)
Inductive event :=
| EGet (c : option nat)      (** [_q->getCmd()] *)
| EStart (c : nat)           (** [_q->commandStart(cmd)] *)
| EAction (c : nat)          (** [cmd->runAction(this)] *)
| EFinish (c : nat)          (** [_q->commandFinish(cmd)] *)
| ERelease.                  (** [_threadPool->release(this)] *)

(** ** [void EventThread::handleCmds()] *)

Inductive pc :=
| PLoop                      (** before [while(_loop)] *)
| PGet                       (** before [_q->getCmd()] *)
| PReset (c : option nat)    (** before [_commandFinishCalled = false] *)
| PCurrent (c : option nat)  (** before [_currentCommand = _cmd.get()] *)
| PStart (c : nat)           (** before [_q->commandStart(_cmd)] *)
| PSpecial (c : nat)         (** before [specialActions(_cmd)] *)
| PAction (c : nat)          (** before [_cmd->runAction(this)] *)
| PExchange (c : nat)        (** before the exchange in [callCommandFinish] *)
| PFinish (c : nat)          (** before [_q->commandFinish(cmd)] *)
| PNull                      (** before [_currentCommand = nullptr] *)
| PFinishup                  (** before the exchange in [finishup] *)
| PRelease                   (** before [_threadPool->release(this)] *)
| PDone.

(** One step of the thread; [got] is the result of [getCmd] and [halts] says
    that the action is the one queued by [queEnd], which clears [_loop]. *)
Definition thread_step (got : option nat) (halts : bool) (p : pc) e : pc * EventThread * list event :=
  match p with
  | PLoop => (if et_loop e then PGet else PFinishup, e, [])
  | PGet => (PReset got, e, [EGet got])
  | PReset c => (PCurrent c, set_finishCalled false e, [])
  | PCurrent c => (match c with Some c => PStart c | None => PNull end, set_current c e, [])
  | PStart c => (PSpecial c, e, [EStart c])
  | PSpecial c => (PAction c, e, [])
  | PAction c => (PExchange c, if halts then set_loop false e else e, [EAction c])
  | PExchange c => let '(e', first) := finish_exchange e in (if first then PFinish c else PNull, e', [])
  | PFinish c => (PNull, e, [EFinish c])
  | PNull => (PLoop, set_current None e, [])
  | PFinishup => let '(e', first) := finishup_exchange e in (if first then PRelease else PDone, e', [])
  | PRelease => (PDone, e, [ERelease])
  | PDone => (PDone, e, [])
  end.

(** ** [bool PoolEventThread::leavePool(Command::Ptr const& cmd)] *)

Inductive lpc :=
| LLoop (c : nat)            (** before [_loop = false] *)
| LCheck (c : nat)           (** before [cmd.get() != getCurrentCommand()] *)
| LExchange (c : nat)        (** before the exchange in [callCommandFinish] *)
| LFinish (c : nat)          (** before [_q->commandFinish(cmd)] *)
| LFinishup                  (** before the exchange in [finishup] *)
| LRelease                   (** before [_threadPool->release(this)] *)
| LDone (left : bool).       (** returned [left] *)

Definition leave_step (l : lpc) e : lpc * EventThread * list event :=
  match l with
  | LLoop c => (LCheck c, set_loop false e, [])
  | LCheck c => (if decide (et_currentCommand e = Some c) then LExchange c else LDone false, e, [])
  | LExchange c => let '(e', first) := finish_exchange e in (if first then LFinish c else LFinishup, e', [])
  | LFinish c => (LFinishup, e, [EFinish c])
  | LFinishup => let '(e', first) := finishup_exchange e in (if first then LRelease else LDone true, e', [])
  | LRelease => (LDone true, e, [ERelease])
  | LDone b => (LDone b, e, [])
  end.

(** ** The system: the thread, the callers of [leavePool] and the calls made *)

Record sys := mkSys { s_pc : pc; s_et : EventThread; s_leavers : list lpc; s_log : list event }.

Definition sys_init : sys := mkSys PLoop EventThread_ctor [] [].

(** A new caller of [leavePool(cmd)] may appear at any time, for any command. *)
Inductive sys_step : sys -> sys -> Prop :=
| ss_thread got halts p e ls log p' e' ev :
    thread_step got halts p e = (p', e', ev) ->
    sys_step (mkSys p e ls log) (mkSys p' e' ls (log ++ ev))
| ss_leave ls1 l ls2 p e log l' e' ev :
    leave_step l e = (l', e', ev) ->
    sys_step (mkSys p e (ls1 ++ l :: ls2) log) (mkSys p e' (ls1 ++ l' :: ls2) (log ++ ev))
| ss_call c p e ls log : sys_step (mkSys p e ls log) (mkSys p e (LLoop c :: ls) log).

Inductive sys_reachable : sys -> Prop :=
| sr_init : sys_reachable sys_init
| sr_step x y : sys_reachable x -> sys_step x y -> sys_reachable y.

(** ** Counting *)

Definition b2z (b : bool) : Z := if b then 1 else 0.
Definition one_if (P : Prop) `{Decision P} : Z := if decide P then 1 else 0.

Fixpoint zsum {A} (f : A -> Z) (l : list A) : Z := match l with [] => 0 | x :: l' => f x + zsum f l' end.

Lemma zsum_app {A} (f : A -> Z) l l' : zsum f (l ++ l') = zsum f l + zsum f l'.
Proof. induction l; simpl; lia. Qed.

Lemma zsum_nonneg {A} (f : A -> Z) l : (forall x, 0 <= f x) -> 0 <= zsum f l.
Proof. intros Hf. induction l as [|x l IH]; simpl; [lia|]. specialize (Hf x). lia. Qed.

Definition gets c (log : list event) : Z :=
  zsum (fun ev => match ev with EGet (Some d) => one_if (d = c) | _ => 0 end) log.
Definition finishes c (log : list event) : Z :=
  zsum (fun ev => match ev with EFinish d => one_if (d = c) | _ => 0 end) log.
Definition releases (log : list event) : Z :=
  zsum (fun ev => match ev with ERelease => 1 | _ => 0 end) log.

(** The command of the current iteration whose [commandFinish] was neither
    called nor claimed. *)
Definition unclaimed c (p : pc) e : Z :=
  match p with
  | PReset (Some d) | PCurrent (Some d) => one_if (d = c)
  | PStart d | PSpecial d | PAction d | PExchange d =>
      if et_commandFinishCalled e then 0 else one_if (d = c)
  | _ => 0
  end.

(** Threads that won the exchange and are about to call [commandFinish]. *)
Definition claimed c (p : pc) (ls : list lpc) : Z :=
  match p with PFinish d => one_if (d = c) | _ => 0 end +
  zsum (fun l => match l with LFinish d => one_if (d = c) | _ => 0 end) ls.

Definition releasing (p : pc) (ls : list lpc) : Z :=
  match p with PRelease => 1 | _ => 0 end + zsum (fun l => match l with LRelease => 1 | _ => 0 end) ls.

(** ** The invariant *)

(** The command whose iteration is under way, as [_currentCommand] shows it. *)
Definition current_ok (p : pc) e : Prop :=
  match p with
  | PStart c | PSpecial c | PAction c | PExchange c | PFinish c => et_currentCommand e = Some c
  | PNull => True
  | _ => et_currentCommand e = None
  end.

(** Past the exchange of the iteration. *)
Definition past (p : pc) : Prop :=
  match p with PFinish _ | PNull | PLoop | PFinishup | PRelease | PDone => True | _ => False end.

(** The flag between its reset and the exchange. *)
Definition flag_ok (p : pc) e : Prop :=
  match p with
  | PCurrent _ => et_commandFinishCalled e = false
  | PNull | PFinish _ => et_currentCommand e = None \/ et_commandFinishCalled e = true
  | _ => True
  end.

(** A caller of [leavePool] that saw its command: the loop has been told to
    end, and either the command still runs or its exchange is done. *)
Definition leaver_ok (p : pc) e (l : lpc) : Prop :=
  match l with
  | LCheck _ => et_loop e = false
  | LExchange c =>
      et_loop e = false /\
      (match p with PStart d | PSpecial d | PAction d | PExchange d => d = c | _ => False end \/
       past p /\ (et_commandFinishCalled e = true))
  | _ => True
  end.

Record sys_inv (x : sys) : Prop := {
  si_current : current_ok (s_pc x) (s_et x);
  si_leavers : Forall (leaver_ok (s_pc x) (s_et x)) (s_leavers x);
  si_flag : flag_ok (s_pc x) (s_et x);
  si_finish c : gets c (s_log x) =
    finishes c (s_log x) + unclaimed c (s_pc x) (s_et x) + claimed c (s_pc x) (s_leavers x);
  si_done : match s_pc x with PRelease | PDone => et_finishupOnce (s_et x) = true | _ => True end;
  si_release : b2z (et_finishupOnce (s_et x)) = releases (s_log x) + releasing (s_pc x) (s_leavers x);
}.

(** *** Steps of the thread *)

Lemma log_app_gets c log ev : gets c (log ++ ev) = gets c log + gets c ev.
Proof. apply zsum_app. Qed.
Lemma log_app_finishes c log ev : finishes c (log ++ ev) = finishes c log + finishes c ev.
Proof. apply zsum_app. Qed.
Lemma log_app_releases log ev : releases (log ++ ev) = releases log + releases ev.
Proof. apply zsum_app. Qed.

(** What a step of the thread does to the counts. *)
Lemma thread_step_counts got halts p e p' e' ev ls :
  thread_step got halts p e = (p', e', ev) -> flag_ok p e ->
  (forall c, gets c ev + unclaimed c p e + claimed c p ls =
             finishes c ev + unclaimed c p' e' + claimed c p' ls) /\
  b2z (et_finishupOnce e') - b2z (et_finishupOnce e) = releases ev + releasing p' ls - releasing p ls.
Proof.
  intros H Hf. destruct p as [| |[]|[]| | | | | | | | |]; simpl in H, Hf; injection H as <- <- <-;
    unfold claimed, unclaimed, releasing, gets, finishes, releases; simpl.
  all: try (split; intros; lia).
  - destruct (et_loop e); split; intros; lia.
  - rewrite Hf. split; intros; lia.
  - destruct halts; simpl; destruct (et_commandFinishCalled e); split; intros; lia.
  - destruct (et_commandFinishCalled e); split; intros; simpl; lia.
  - destruct (et_finishupOnce e); split; intros; simpl; lia.
Qed.

Lemma thread_step_leavers got halts p e p' e' ev l :
  thread_step got halts p e = (p', e', ev) -> leaver_ok p e l -> leaver_ok p' e' l.
Proof.
  intros H. destruct l; simpl; try done.
  - intros Hl. destruct p as [| |[]|[]| | | | | | | | |]; simpl in H; injection H as <- <- <-; simpl; try done.
    by destruct halts.
  - intros [Hl Hp]. destruct p as [| |[]|[]| | | | | | | | |]; simpl in H; injection H as <- <- <-; simpl in *;
      try naive_solver; try (rewrite Hl; simpl; naive_solver).
    + destruct halts; naive_solver.
    + destruct (et_commandFinishCalled e); simpl; naive_solver.
    + destruct (et_finishupOnce e); simpl; naive_solver.
Qed.

Lemma thread_step_current got halts p e p' e' ev :
  thread_step got halts p e = (p', e', ev) -> current_ok p e ->
  flag_ok p e -> current_ok p' e' /\ flag_ok p' e'.
Proof.
  intros H Hc Hn. destruct p as [| |[]|[]| | | | | | | | |]; simpl in H; injection H as <- <- <-; simpl in *; try naive_solver.
  - destruct (et_loop e); simpl; naive_solver.
  - destruct halts; simpl; naive_solver.
  - destruct (et_commandFinishCalled e); simpl; naive_solver.
  - destruct (et_finishupOnce e); simpl; naive_solver.
Qed.

(** *** Steps of a caller of [leavePool] *)

Lemma zsum_mid {A} (f : A -> Z) l1 x l2 : zsum f (l1 ++ x :: l2) = f x + zsum f (l1 ++ l2).
Proof. rewrite !zsum_app. simpl. lia. Qed.

Lemma leave_step_counts l e l' e' ev p ls1 ls2 :
  leave_step l e = (l', e', ev) -> leaver_ok p e l -> current_ok p e ->
  (forall c, gets c ev + unclaimed c p e + claimed c p (ls1 ++ l :: ls2) =
             finishes c ev + unclaimed c p e' + claimed c p (ls1 ++ l' :: ls2)) /\
  b2z (et_finishupOnce e') - b2z (et_finishupOnce e) =
    releases ev + releasing p (ls1 ++ l' :: ls2) - releasing p (ls1 ++ l :: ls2).
Proof.
  intros H Hl Hc. unfold claimed, releasing. setoid_rewrite zsum_mid.
  destruct l; simpl in H; injection H as <- <- <-; simpl in *; unfold gets, finishes, releases; simpl.
  - split; [|lia]. intros d. destruct p as [| |[]|[]| | | | | | | | |]; simpl; lia.
  - case_decide; split; intros; lia.
  - destruct Hl as [Hloop Hp]. destruct (et_commandFinishCalled e) eqn:E; simpl; (split; [|lia]); intros d.
    + destruct p as [| |[]|[]| | | | | | | | |]; simpl in *; rewrite ?E; lia.
    + destruct Hp as [Hp|[Hp ?]]; [|congruence].
      destruct p as [| |[]|[]| | | | | | | | |]; simpl in *; try done; subst; rewrite ?E; lia.
  - split; intros; lia.
  - destruct (et_finishupOnce e); split; intros; simpl;
      destruct p as [| |[]|[]| | | | | | | | |]; simpl; lia.
  - split; intros; lia.
  - split; intros; lia.
Qed.

Lemma leave_step_leavers l e l' e' ev p k :
  leave_step l e = (l', e', ev) -> leaver_ok p e k -> leaver_ok p e' k.
Proof.
  intros H. destruct k; simpl; try done; destruct l; simpl in H; injection H as <- <- <-; simpl; try done; naive_solver.
Qed.

Lemma leave_step_self l e l' e' ev p :
  leave_step l e = (l', e', ev) -> leaver_ok p e l -> current_ok p e ->
  flag_ok p e ->
  leaver_ok p e' l'.
Proof.
  intros H Hl Hc Hn. destruct l; simpl in H; injection H as <- <- <-; simpl in *; try done.
  - case_decide as Hd; [|done]. simpl. split; [done|].
    destruct p as [| |[]|[]| | | | | | | | |]; simpl in *; try naive_solver congruence.
  - by destruct (negb _).
  - by destruct (negb _).
Qed.

Lemma leave_step_current l e l' e' ev p :
  leave_step l e = (l', e', ev) -> current_ok p e ->
  flag_ok p e -> leaver_ok p e l -> current_ok p e' /\ flag_ok p e'.
Proof.
  intros H Hc Hn Hl. destruct l; simpl in H; injection H as <- <- <-; simpl in *; try done.
  - destruct p; simpl in *; naive_solver.
Qed.

Lemma step_done_thread got halts p e p' e' ev :
  thread_step got halts p e = (p', e', ev) ->
  match p with PRelease | PDone => et_finishupOnce e = true | _ => True end ->
  match p' with PRelease | PDone => et_finishupOnce e' = true | _ => True end.
Proof.
  intros H Hd. destruct p as [| |[]|[]| | | | | | | | |]; simpl in H; injection H as <- <- <-; simpl in *; try done.
  - by destruct (et_loop e).
  - by destruct (negb _).
  - by destruct (negb _).
Qed.

Lemma leave_step_once l e l' e' ev :
  leave_step l e = (l', e', ev) -> et_finishupOnce e = true -> et_finishupOnce e' = true.
Proof. intros H Hd. by destruct l; simpl in H; injection H as <- <- <-. Qed.

Lemma sys_inv_init : sys_inv sys_init.
Proof. split; simpl; try done; try constructor. Qed.

Lemma sys_inv_step x y : sys_step x y -> sys_inv x -> sys_inv y.
Proof.
  destruct 1 as [got halts p e ls log p' e' ev Hs|ls1 l ls2 p e log l' e' ev Hs|c p e ls log];
    intros [Hc Hl Hf Hfin Hd Hr]; simpl in *.
  - destruct (thread_step_counts _ _ _ _ _ _ _ ls Hs Hf) as [Hn1 Hn2].
    destruct (thread_step_current _ _ _ _ _ _ _ Hs Hc Hf) as [Hc' Hf'].
    split; simpl; [done| |done| |by eapply step_done_thread|].
    + eapply Forall_impl; [done|]. intros k. by eapply thread_step_leavers.
    + intros c. rewrite log_app_gets, log_app_finishes. specialize (Hfin c). specialize (Hn1 c). lia.
    + rewrite log_app_releases. lia.
  - assert (Hlk : leaver_ok p e l) by (rewrite Forall_forall in Hl; apply Hl; set_solver).
    destruct (leave_step_counts _ _ _ _ _ p ls1 ls2 Hs Hlk Hc) as [Hn1 Hn2].
    destruct (leave_step_current _ _ _ _ _ p Hs Hc Hf Hlk) as [Hc' Hf'].
    split; simpl; [done| |done| | |].
    + apply Forall_app in Hl as [Hl1 Hl2]. apply Forall_cons in Hl2 as [_ Hl2].
      apply Forall_app. split; [|apply Forall_cons; split].
      * eapply Forall_impl; [exact Hl1|]. intros k. by eapply leave_step_leavers.
      * by eapply leave_step_self.
      * eapply Forall_impl; [exact Hl2|]. intros k. by eapply leave_step_leavers.
    + intros c. rewrite log_app_gets, log_app_finishes. specialize (Hfin c). specialize (Hn1 c). lia.
    + pose proof (leave_step_once _ _ _ _ _ Hs). destruct p; auto.
    + rewrite log_app_releases. lia.
  - split; simpl; try done. apply Forall_cons. done.
Qed.

Lemma sys_reachable_inv x : sys_reachable x -> sys_inv x.
Proof. induction 1; [apply sys_inv_init|by eapply sys_inv_step]. Qed.

(** ** Theorems *)

(** The thread is between two commands, or has ended, and no caller of
    [leavePool] is about to call [commandFinish]. *)
Definition between (x : sys) : bool :=
  match s_pc x with PLoop | PGet | PNull | PFinishup | PRelease | PDone => true | _ => false end &&
  forallb (fun l => match l with LFinish _ => false | _ => true end) (s_leavers x).

(** However the event thread and the callers of [leavePool] interleave,
    [commandFinish] is never called more often for a command than [getCmd]
    returned it, and between commands it was called exactly as often: every
    command taken from the queue is finished exactly once, by the thread or by
    a caller of [leavePool]. *)
Theorem commandFinish_exactly_once x c :
  sys_reachable x ->
  finishes c (s_log x) <= gets c (s_log x) /\
  (between x = true -> finishes c (s_log x) = gets c (s_log x)).
Proof.
  intros Hr%sys_reachable_inv. pose proof (si_finish _ Hr c) as H. destruct x as [p e ls log]; simpl in *.
  assert (Hone : forall d, 0 <= one_if (d = c)) by (intros d; unfold one_if; case_decide; lia).
  split.
  - assert (0 <= unclaimed c p e).
    { destruct p as [| |[]|[]| | | | | | | | |]; simpl; try lia; try apply Hone;
        destruct (et_commandFinishCalled e); auto; lia. }
    assert (0 <= claimed c p ls).
    { unfold claimed. apply Z.add_nonneg_nonneg; [destruct p; auto; lia|].
      apply zsum_nonneg. intros []; auto; lia. }
    lia.
  - unfold between. simpl. intros [Hp Hls]%andb_true_iff.
    assert (Hz : zsum (fun l => match l with LFinish d => one_if (d = c) | _ => 0 end) ls = 0).
    { clear -Hls. induction ls as [|[] ls IH]; simpl in *; try done; auto. }
    unfold claimed in H. rewrite Hz in H. destruct p; simpl in *; try done; lia.
Qed.

(** A thread is released from its pool at most once, whoever asks for
    it, and once its loop has ended and nobody is about to release it, it has
    been released. *)
Theorem released_exactly_once x :
  sys_reachable x ->
  releases (s_log x) <= 1 /\
  (s_pc x = PDone -> forallb (fun l => match l with LRelease => false | _ => true end) (s_leavers x) = true ->
   releases (s_log x) = 1).
Proof.
  intros Hr%sys_reachable_inv. pose proof (si_release _ Hr) as H. pose proof (si_done _ Hr) as Hd.
  destruct x as [p e ls log]; simpl in *.
  assert (0 <= releasing p ls).
  { unfold releasing. apply Z.add_nonneg_nonneg; [destruct p; lia|]. apply zsum_nonneg. intros []; lia. }
  split; [destruct (et_finishupOnce e); simpl in H; lia|].
  intros -> Hls. rewrite Hd in H. unfold releasing in H. simpl in H.
  assert (zsum (fun l => match l with LRelease => 1 | _ => 0 end) ls = 0).
  { clear -Hls. induction ls as [|[] ls IH]; simpl in *; try done; auto. }
  lia.
Qed.

(** ** A run in which a caller of [leavePool] finishes the command *)

Module LeaveSim.
(** The thread takes command 7 and runs it; another thread makes it leave
    the pool before it reaches its own exchange. *)
Definition thread (n : nat) (x : sys) : sys :=
  Nat.iter n (fun x => let '(p, e, ev) := thread_step (Some 7%nat) false (s_pc x) (s_et x) in
                       mkSys p e (s_leavers x) (s_log x ++ ev)) x.
Definition leaver (x : sys) : sys :=
  match s_leavers x with
  | l :: ls => let '(l', e, ev) := leave_step l (s_et x) in mkSys (s_pc x) e (l' :: ls) (s_log x ++ ev)
  | [] => x
  end.
Definition call (x : sys) : sys := mkSys (s_pc x) (s_et x) (LLoop 7 :: s_leavers x) (s_log x).

Definition running := call (thread 6 sys_init).
Definition run := thread 5 (Nat.iter 6 leaver running).

Lemma thread_reachable n x : sys_reachable x -> sys_reachable (thread n x).
Proof.
  intros Hx. induction n as [|n IH]; [done|]. unfold thread in *. simpl. set (y := Nat.iter n _ x) in *.
  destruct (thread_step _ _ _ _) as [[p e] ev] eqn:E. destruct y as [q f ls log]. simpl in *.
  eapply sr_step; [exact IH|]. by eapply ss_thread.
Qed.

Lemma leaver_reachable n x : sys_reachable x -> sys_reachable (Nat.iter n leaver x).
Proof.
  intros Hx. induction n as [|n IH]; [done|]. simpl. set (y := Nat.iter n leaver x) in *.
  unfold leaver. destruct y as [q f [|l ls] log]; [done|]. simpl.
  destruct (leave_step l f) as [[l' e] ev] eqn:E. eapply sr_step; [exact IH|].
  by apply (ss_leave [] l ls).
Qed.

Lemma run_reachable : sys_reachable run.
Proof.
  apply thread_reachable, leaver_reachable. eapply sr_step; [apply (thread_reachable 6), sr_init|].
  apply ss_call.
Qed.
End LeaveSim.

Lemma commandFinish_exactly_once_witness :
  gets 7 (s_log LeaveSim.run) = 1 /\ between LeaveSim.run = true /\ finishes 7 (s_log LeaveSim.run) = 1.
Proof.
  split; [by vm_compute|]. split; [by vm_compute|].
  rewrite (proj2 (commandFinish_exactly_once LeaveSim.run 7 LeaveSim.run_reachable)); by vm_compute.
Defined.

Lemma released_exactly_once_witness :
  s_pc LeaveSim.run = PDone /\ releases (s_log LeaveSim.run) = 1.
Proof.
  split; [by vm_compute|].
  apply (proj2 (released_exactly_once LeaveSim.run LeaveSim.run_reachable)); by vm_compute.
Defined.
