(* ===== verification/ThreadPool.v ===== *)
(** * The thread pool

    [util/ThreadPool.h] and [.cc]: a pool of event threads that share one
    command queue.  The queue is used through an interface, [CommandQueue].
    The methods take [_poolMutex], so each is one step; [waitForResize] and
    [shutdownJoin] only wait. *)

From S2P Require Import Prelude.
From S2P Require Import EventThread.

(** What a pool asks of its queue of commands of type [C]: [commandFinish], at
    a given clock value, and [queCmd] with the command made by [queEnd], whose
    action ends the thread that runs it.  A command is identified by its
    address. *)
Class CommandQueue (C Q : Type) := {
  cq_addr : C -> nat;
  cq_commandFinish : C -> Z -> Q -> outcome Q;
  cq_queEnd : Q -> Q;
}.

(** [class ThreadPool]: [tp_threads] is the store of the thread objects and
    [tp_poolEventThread] the member [_poolEventThread] of every command. *)
Record ThreadPool := mkThreadPool {
  tp_pool : list nat;
  tp_targetThrdCount : nat;
  tp_joinerThread : list nat;
  tp_shutdown : bool;
  tp_threads : gmap nat EventThread;
  tp_new : nat;
  tp_poolEventThread : gmap nat nat;
}.

Implicit Types (tp : ThreadPool).

Definition tp_set_thread (thrd : nat) (e : EventThread) tp : ThreadPool :=
  mkThreadPool (tp_pool tp) (tp_targetThrdCount tp) (tp_joinerThread tp) (tp_shutdown tp)
    (<[thrd := e]> (tp_threads tp)) (tp_new tp) (tp_poolEventThread tp).

(** One turn of the growing loop of [_resize]: [newPoolEventThread] and [run]. *)
Definition tp_addThread tp : ThreadPool :=
  mkThreadPool (tp_pool tp ++ [tp_new tp]) (tp_targetThrdCount tp) (tp_joinerThread tp) (tp_shutdown tp)
    (<[tp_new tp := EventThread_ctor]> (tp_threads tp)) (S (tp_new tp)) (tp_poolEventThread tp).

(** [while (target > _pool.size())]: the number of turns is the difference. *)
Definition tp_grow tp : ThreadPool := Nat.iter (tp_targetThrdCount tp - length (tp_pool tp)) tp_addThread tp.

(** [PoolEventThread::Ptr CommandThreadPool::getAndNullPoolEventThread()] *)
Definition getAndNullPoolEventThread (cmd : nat) tp : ThreadPool * option nat :=
  (mkThreadPool (tp_pool tp) (tp_targetThrdCount tp) (tp_joinerThread tp) (tp_shutdown tp)
     (tp_threads tp) (tp_new tp) (delete cmd (tp_poolEventThread tp)), tp_poolEventThread tp !! cmd).

(** [void PoolEventThread::specialActions(Command::Ptr const& cmd)] for a
    [CommandThreadPool]. *)
Definition specialActions (thrd cmd : nat) tp : ThreadPool :=
  mkThreadPool (tp_pool tp) (tp_targetThrdCount tp) (tp_joinerThread tp) (tp_shutdown tp)
    (tp_threads tp) (tp_new tp) (<[cmd := thrd]> (tp_poolEventThread tp)).

Section pool.
Context {C Q : Type} `{HQ : CommandQueue C Q}.
Implicit Types (q : Q) (cmd : C) (thrd : nat).

(** [void ThreadPool::_resize()] *)
Definition tp_resize_ tp q : ThreadPool * Q :=
  let tp1 := tp_grow tp in
  (tp1, if (tp_targetThrdCount tp1 <? length (tp_pool tp1))%nat then cq_queEnd q else q).

(** [void ThreadPool::resize(unsigned int targetThrdCount)] *)
Definition tp_resize (targetThrdCount : nat) tp q : ThreadPool * Q :=
  let target := if tp_shutdown tp then 0%nat else targetThrdCount in
  tp_resize_ (mkThreadPool (tp_pool tp) target (tp_joinerThread tp) (tp_shutdown tp)
                (tp_threads tp) (tp_new tp) (tp_poolEventThread tp)) q.

(** [static ThreadPool::Ptr newThreadPool(thrdCount, q, joiner)] *)
Definition newThreadPool (thrdCount : nat) q : ThreadPool * Q :=
  tp_resize_ (mkThreadPool [] thrdCount [] false ∅ 0 ∅) q.

(** [void ThreadPool::shutdownPool()], up to its waiting. *)
Definition shutdownPool tp q : ThreadPool * Q :=
  tp_resize 0 (mkThreadPool (tp_pool tp) (tp_targetThrdCount tp) (tp_joinerThread tp) true
                 (tp_threads tp) (tp_new tp) (tp_poolEventThread tp)) q.

(** [bool ThreadPool::release(PoolEventThread *thrd)] *)
Definition tp_release thrd tp q : ThreadPool * Q * bool :=
  if decide (thrd ∈ tp_pool tp) then
    let tp1 := mkThreadPool (remove_first thrd (tp_pool tp)) (tp_targetThrdCount tp)
                 (tp_joinerThread tp ++ [thrd]) (tp_shutdown tp) (tp_threads tp) (tp_new tp)
                 (tp_poolEventThread tp) in
    (tp_resize_ tp1 q, true)
  else (tp, q, false).

(** [void PoolEventThread::finishup()] *)
Definition tp_finishup thrd tp q : ThreadPool * Q :=
  match tp_threads tp !! thrd with
  | None => (tp, q)
  | Some e =>
      let '(e', first) := finishup_exchange e in
      let tp1 := tp_set_thread thrd e' tp in
      if first then (tp_release thrd tp1 q).1 else (tp1, q)
  end.

(** [bool PoolEventThread::leavePool(Command::Ptr const& cmd)], with no step
    of the thread in between. *)
Definition leavePool thrd cmd (now : Z) tp q : outcome (ThreadPool * Q * bool) :=
  match tp_threads tp !! thrd with
  | None => Raise UndefinedBehaviour
  | Some e =>
      let e1 := set_loop false e in
      if decide (et_currentCommand e1 = Some (cq_addr cmd)) then
        let '(e2, first) := finish_exchange e1 in
        let tp2 := tp_set_thread thrd e2 tp in
        let? q2 := (if first then cq_commandFinish cmd now q else Ret q) in
        Ret (tp_finishup thrd tp2 q2, true)
      else Ret (tp_set_thread thrd e1 tp, q, false)
  end.

(** ** The size of the pool *)

Record pool_inv tp : Prop := {
  po_nodup : NoDup (tp_pool tp ++ tp_joinerThread tp);
  po_fresh thrd : thrd ∈ tp_pool tp ++ tp_joinerThread tp -> (thrd < tp_new tp)%nat;
  po_stored thrd : is_Some (tp_threads tp !! thrd) <-> (thrd < tp_new tp)%nat;
  po_target : (tp_targetThrdCount tp <= length (tp_pool tp))%nat;
}.

(** The invariant without the bound on the size. *)
Definition pool_pre tp : Prop :=
  NoDup (tp_pool tp ++ tp_joinerThread tp) /\
  (forall thrd, thrd ∈ tp_pool tp ++ tp_joinerThread tp -> (thrd < tp_new tp)%nat) /\
  (forall thrd, is_Some (tp_threads tp !! thrd) <-> (thrd < tp_new tp)%nat).

Lemma addThread_pre tp : pool_pre tp -> pool_pre (tp_addThread tp).
Proof.
  intros (Hn & Hf & Hs). unfold pool_pre, tp_addThread. simpl.
  rewrite <- app_assoc. simpl. split; [|split].
  - rewrite <- Permutation_middle. apply NoDup_cons. split; [|done]. intros H%Hf. lia.
  - intros thrd. rewrite <- Permutation_middle, elem_of_cons. intros [->|H%Hf]; lia.
  - intros thrd. destruct (decide (tp_new tp = thrd)) as [<-|].
    + rewrite lookup_insert_eq. split; [lia|by eexists].
    + rewrite lookup_insert_ne, Hs by done. lia.
Qed.

(** What growing changes. *)
Record grown (n : nat) tp tp' : Prop := {
  gr_target : tp_targetThrdCount tp' = tp_targetThrdCount tp;
  gr_joiner : tp_joinerThread tp' = tp_joinerThread tp;
  gr_shutdown : tp_shutdown tp' = tp_shutdown tp;
  gr_pool : exists l, tp_pool tp' = tp_pool tp ++ l /\ length l = n;
}.

Lemma iter_addThread n tp :
  pool_pre tp -> pool_pre (Nat.iter n tp_addThread tp) /\ grown n tp (Nat.iter n tp_addThread tp).
Proof.
  intros Hp. induction n as [|n [IH1 [? ? ? (l & Hl & Hn)]]].
  - split; [done|]. split; try done. exists []. by rewrite app_nil_r.
  - simpl. split; [by apply addThread_pre|]. split; try done.
    exists (l ++ [tp_new (Nat.iter n tp_addThread tp)]). split.
    + simpl. by rewrite Hl, <- app_assoc.
    + rewrite length_app. simpl. lia.
Qed.

Lemma resize_inv tp q :
  pool_pre tp ->
  pool_inv (tp_resize_ tp q).1 /\
  length (tp_pool (tp_resize_ tp q).1) = Nat.max (tp_targetThrdCount tp) (length (tp_pool tp)) /\
  tp_targetThrdCount (tp_resize_ tp q).1 = tp_targetThrdCount tp /\
  tp_joinerThread (tp_resize_ tp q).1 = tp_joinerThread tp /\
  (exists l, tp_pool (tp_resize_ tp q).1 = tp_pool tp ++ l) /\
  (tp_resize_ tp q).2 = if (tp_targetThrdCount tp <? length (tp_pool tp))%nat then cq_queEnd q else q.
Proof.
  intros Hp. unfold tp_resize_, tp_grow.
  destruct (iter_addThread (tp_targetThrdCount tp - length (tp_pool tp)) tp Hp) as [(H1 & H2 & H3) [Ht Hj Hs (l & Hl & Hn)]].
  set (tp1 := Nat.iter _ _ _) in *. simpl.
  assert (Hlen : length (tp_pool tp1) = Nat.max (tp_targetThrdCount tp) (length (tp_pool tp))).
  { rewrite Hl, length_app. lia. }
  split; [split; [done..|lia]|]. split; [done|]. split; [done|]. split; [done|]. split; [by exists l|].
  rewrite Ht, Hlen. destruct (Nat.ltb_spec (tp_targetThrdCount tp) (length (tp_pool tp))),
    (Nat.ltb_spec (tp_targetThrdCount tp) (Nat.max (tp_targetThrdCount tp) (length (tp_pool tp)))); try done; lia.
Qed.

Lemma set_thread_inv thrd e tp : is_Some (tp_threads tp !! thrd) -> pool_inv tp -> pool_inv (tp_set_thread thrd e tp).
Proof.
  intros Hin [H1 H2 H3 H4]. split; simpl; [done..| |done]. intros thrd'.
  destruct (decide (thrd = thrd')) as [<-|]; [|by rewrite lookup_insert_ne].
  rewrite lookup_insert_eq. apply H3 in Hin. split; [done|by eexists].
Qed.

(** [release] of a thread of the pool keeps the pool well formed (no
    thread twice, none both in the pool and handed to the joiner): the
    thread goes to the joiner, the other threads stay, and the size becomes
    one less but never below the target, a replacement being created when
    needed; while the pool is too large exactly one more thread is told to
    end. *)
Theorem release_keeps_target thrd tp q :
  pool_inv tp -> thrd ∈ tp_pool tp ->
  exists tp' q', tp_release thrd tp q = (tp', q', true) /\ pool_inv tp' /\
    thrd ∉ tp_pool tp' /\ tp_joinerThread tp' = tp_joinerThread tp ++ [thrd] /\
    (forall x, x ∈ tp_pool tp -> x <> thrd -> x ∈ tp_pool tp') /\
    length (tp_pool tp') = Nat.max (tp_targetThrdCount tp) (length (tp_pool tp) - 1) /\
    q' = (if (tp_targetThrdCount tp <? length (tp_pool tp) - 1)%nat then cq_queEnd q else q).
Proof.
  intros [H1 H2 H3 H4] Hin. unfold tp_release. rewrite decide_True by done.
  set (tp1 := mkThreadPool _ _ _ _ _ _ _). pose proof (remove_first_Permutation _ _ Hin) as Hperm.
  assert (Hl : length (tp_pool tp1) = (length (tp_pool tp) - 1)%nat) by (rewrite Hperm; simpl; lia).
  assert (Hall : tp_pool tp1 ++ tp_joinerThread tp1 ≡ₚ tp_pool tp ++ tp_joinerThread tp).
  { simpl. rewrite Hperm at 2. rewrite Permutation_app_comm, (Permutation_app_comm _ (tp_joinerThread tp)).
    rewrite <- app_assoc. done. }
  assert (Hpre : pool_pre tp1).
  { split; [by rewrite Hall|]. split; [|done]. intros x. rewrite Hall. apply H2. }
  destruct (resize_inv tp1 q Hpre) as (Hi & Hlen & _ & Hj & (l & Hpl) & Hq).
  destruct (tp_resize_ tp1 q) as [tp' q'] eqn:E. simpl in *. exists tp', q'. split; [done|]. split; [done|].
  split; [|split; [done|split; [|split; [by rewrite Hlen, Hl|by rewrite Hq, Hl]]]].
  - pose proof (po_nodup _ Hi) as Hn. rewrite Hj in Hn. apply NoDup_app in Hn as (_ & Hn & _).
    intros Hx. apply (Hn thrd Hx). set_solver.
  - intros x Hx Hne. rewrite Hpl. apply elem_of_app. left. rewrite Hperm in Hx. set_solver.
Qed.
End pool.

(** A pool of three threads with target three, on a queue that counts the
    [queEnd] commands. *)
#[local] Instance end_counter : CommandQueue nat nat := {
  cq_addr := id; cq_commandFinish _ _ q := Ret q; cq_queEnd := S;
}.

Definition pool3 : ThreadPool := (newThreadPool (C := nat) 3 0%nat).1.

Lemma pool3_inv : pool_inv pool3.
Proof.
  apply (resize_inv (C := nat) (mkThreadPool [] 3 [] false ∅ 0 ∅) 0%nat).
  split; [by constructor|]. split; [set_solver|]. intros thrd. simpl. rewrite lookup_empty. split; [by intros []|lia].
Qed.

Lemma release_keeps_target_witness :
  exists tp' q', tp_release (C := nat) 1 pool3 0%nat = (tp', q', true) /\ pool_inv tp' /\
    length (tp_pool tp') = 3%nat /\ q' = 0%nat.
Proof.
  destruct (release_keeps_target (C := nat) 1 pool3 0%nat pool3_inv) as (tp' & q' & H1 & H2 & _ & _ & _ & H3 & H4).
  - apply (bool_decide_unpack _). by vm_compute.
  - exists tp', q'. done.
Defined.
