(* ===== verification/BlendScheduler.v ===== *)
(** * The blend scheduler

    [wsched/BlendScheduler.h] and [.cc]: routes tasks to the group scheduler
    and the scan schedulers, shares the threads of the pool among them and
    hands out their tasks.  Schedulers are shared objects: they live in a
    store and are identified by their key ([SchedulerBase::Ptr] equality).
    [_infoChanged] only steers logging, [notify] only wakes threads up. *)

From S2P Require Import Prelude.
From S2P Require Import Double.
From S2P Require Import ScanInfo.
From S2P Require Import MemMan.
From S2P Require Import Task.
From S2P Require Import SchedulerBase.
From S2P Require Import ChunkTasksQueue.
From S2P Require Import ScanScheduler.
From S2P Require Import GroupScheduler.
From S2P Require Import QueriesAndChunks.
From S2P Require Import EventThread.
From S2P Require Import ThreadPool.

Implicit Types (t : Task).

(** A sub-scheduler, by its dynamic type. *)
Inductive SubScheduler :=
| SGroup (g : GroupScheduler)
| SScan (s : ScanScheduler).

(** Commands: tasks, and control commands for the pool such as the one of
    [queEnd], which are no tasks. *)
Inductive Cmd :=
| CTask (t : Task)
| CCtrl (c : nat).

(** [class BlendScheduler] (with [ControlCommandQueue] as a list). *)
Record BlendScheduler := mkBlendScheduler {
  bl_ctrlCmdQueue : list nat;
  bl_schedMaxThreads : Z;
  bl_group : nat;
  bl_scanSnail : nat;
  bl_schedulers : list nat;
  bl_subs : gmap nat SubScheduler;
  bl_prioritizeByInFlight : bool;
  bl_readySched : option nat;
}.

Implicit Types (b : BlendScheduler) (x : SubScheduler) (k : nat).

(** ** Virtual methods of the sub-schedulers *)

Definition sub_base x : SchedulerBase := match x with SGroup g => gs_base g | SScan s => ss_base s end.

Definition sub_set_base (base : SchedulerBase) x : SubScheduler :=
  match x with
  | SGroup g => SGroup (mkGroupScheduler base (gs_queue g) (gs_maxGroupSize g))
  | SScan s => SScan (ss_set_base base s)
  end.

Definition sub_getSize x : Z := match x with SGroup g => gs_getSize g | SScan s => ss_getSize s end.

Section sub.
Context {M : Type} `{HM : MemMan M}.
Implicit Types (w : World M).

Definition sub_queCmd t x w : outcome (SubScheduler * World M) :=
  match x with
  | SGroup g => let? g' := gs_queCmd t g in Ret (SGroup g', w)
  | SScan s => let '(s', w') := ss_queCmd t s w in Ret (SScan s', w')
  end.

(** [getCmd(false)] *)
Definition sub_getCmd x w : outcome (SubScheduler * World M * option Task) :=
  match x with
  | SGroup g => let? (g', o) := gs_getCmd g in Ret (SGroup g', w, o)
  | SScan s => let? (s', w', o) := ss_getCmd s w in Ret (SScan s', w', o)
  end.

Definition sub_ready x w : outcome (SubScheduler * World M * bool) :=
  match x with
  | SGroup g => Ret (SGroup g, w, gs_ready g)
  | SScan s => let? (s', w', rdy) := ss_ready s w in Ret (SScan s', w', rdy)
  end.

Definition sub_commandFinish t x w : outcome (SubScheduler * World M) :=
  match x with
  | SGroup g => Ret (SGroup (gs_commandFinish t g), w)
  | SScan s => let? (s', w') := ss_commandFinish t s w in Ret (SScan s', w')
  end.

(** [removeTask]: [SchedulerBase] removes nothing; the last result asks for
    the running task to leave the pool. *)
Definition sub_removeTask t (removeRunning : bool) x w : SubScheduler * bool * bool :=
  match x with
  | SGroup g => (SGroup g, false, false)
  | SScan s => let '(s', inQueue, leave) := ss_removeTask t removeRunning s w in (SScan s', inQueue, leave)
  end.
End sub.

(** ** Updates *)

Definition bl_set_sub k x b : BlendScheduler :=
  mkBlendScheduler (bl_ctrlCmdQueue b) (bl_schedMaxThreads b) (bl_group b) (bl_scanSnail b) (bl_schedulers b)
    (<[k := x]> (bl_subs b)) (bl_prioritizeByInFlight b) (bl_readySched b).
Definition bl_set_ctrl (q : list nat) b : BlendScheduler :=
  mkBlendScheduler q (bl_schedMaxThreads b) (bl_group b) (bl_scanSnail b) (bl_schedulers b)
    (bl_subs b) (bl_prioritizeByInFlight b) (bl_readySched b).
Definition bl_set_ready (r : option nat) b : BlendScheduler :=
  mkBlendScheduler (bl_ctrlCmdQueue b) (bl_schedMaxThreads b) (bl_group b) (bl_scanSnail b) (bl_schedulers b)
    (bl_subs b) (bl_prioritizeByInFlight b) r.
Definition bl_set_schedulers (l : list nat) b : BlendScheduler :=
  mkBlendScheduler (bl_ctrlCmdQueue b) (bl_schedMaxThreads b) (bl_group b) (bl_scanSnail b) l
    (bl_subs b) (bl_prioritizeByInFlight b) (bl_readySched b).

(** [void setPrioritizeByInFlight(bool val)] *)
Definition setPrioritizeByInFlight (v : bool) b : BlendScheduler :=
  mkBlendScheduler (bl_ctrlCmdQueue b) (bl_schedMaxThreads b) (bl_group b) (bl_scanSnail b) (bl_schedulers b)
    (bl_subs b) v (bl_readySched b).

(** The members of [SchedulerBase] of the scheduler [k]. *)
Definition base_of b k : SchedulerBase :=
  match bl_subs b !! k with Some x => sub_base x | None => SchedulerBase_ctor EmptyString 0 0 0 0 end.

(** ** The order of the schedulers *)

(** The lambda [lessThan] of [_sortScanSchedulers]. *)
Definition lessThan b (x y : nat) : bool :=
  if decide (x = bl_group b) then true
  else if decide (y = bl_group b) then false
  else if decide (x = bl_scanSnail b) then false
  else if decide (y = bl_scanSnail b) then true
  else
    let byPosition := b_defaultPosition (base_of b x) <? b_defaultPosition (base_of b y) in
    if bl_prioritizeByInFlight b then
      let aInFlight := b_inFlight (base_of b x) - b_priority (base_of b x) in
      let bInFlight := b_inFlight (base_of b y) - b_priority (base_of b y) in
      if aInFlight <? bInFlight then true
      else if bInFlight <? aInFlight then false
      else byPosition
    else byPosition.

(** [void _sortScanSchedulers()] *)
Definition sortScanSchedulers b : BlendScheduler := bl_set_schedulers (std_sort (lessThan b) (bl_schedulers b)) b.

(** The loop of the constructor: [setDefaultPosition(position++)]. *)
Fixpoint set_positions (position : Z) (l : list nat) (m : gmap nat SubScheduler) : gmap nat SubScheduler :=
  match l with
  | [] => m
  | k :: l' =>
      set_positions (position + 1) l'
        (match m !! k with
         | Some x => <[k := sub_set_base (setDefaultPosition position (sub_base x)) x]> m
         | None => m
         end)
  end.

(** [BlendScheduler(name, queries, schedMaxThreads, group, snail, scanSchedulers)]
    with the objects of the schedulers in [subs]. *)
Definition BlendScheduler_ctor (schedMaxThreads : Z) (group snail : nat) (scans : list nat)
    (subs : gmap nat SubScheduler) : BlendScheduler :=
  let l := group :: scans ++ [snail] in
  sortScanSchedulers (mkBlendScheduler [] schedMaxThreads group snail l (set_positions 0 l subs) false None).

(** [int _getAdjustedMaxThreads(int oldAdjMax, int inFlight)] *)
Definition getAdjustedMaxThreads (oldAdjMax inFlight : Z) : Z :=
  let newAdjMax := oldAdjMax - Z.max (inFlight - 1) 0 in
  if newAdjMax <? 1 then 1 else newAdjMax.

(** [int calcAvailableTheads()] *)
Definition calcAvailableTheads b : Z :=
  bl_schedMaxThreads b - foldl (fun reserve k => reserve + desiredThreadReserve (base_of b k)) 0 (bl_schedulers b).

(** [std::size_t getSize() const] *)
Definition bl_getSize b : Z :=
  foldl (fun sz k => sz + match bl_subs b !! k with Some x => sub_getSize x | None => 0 end) 0 (bl_schedulers b).

(** [int getInFlight() const] *)
Definition bl_getInFlight b : Z :=
  foldl (fun n k => n + b_inFlight (base_of b k)) 0 (bl_schedulers b).

(** [bool isScanSnail(SchedulerBase::Ptr const& scan)] *)
Definition isScanSnail k b : bool := (k =? bl_scanSnail b)%nat.

(** [ControlCommandQueue::queCmd], [getCmd] and [ready] *)
Definition ctrl_queCmd (c : nat) (q : list nat) : list nat := q ++ [c].
Definition ctrl_getCmd (q : list nat) : list nat * option nat :=
  match q with [] => ([], None) | c :: q' => (q', Some c) end.
Definition ctrl_ready (q : list nat) : bool := match q with [] => false | _ => true end.

(** ** Operations

    The scheduler, the statistics of the queries and the shared world. *)
Record BlendState (M : Type) := mkBlendState {
  bs_blend : BlendScheduler;
  bs_queries : QueriesAndChunks;
  bs_world : World M;
}.
Arguments mkBlendState {M}.
Arguments bs_blend {M}.
Arguments bs_queries {M}.
Arguments bs_world {M}.

Section blend.
Context {M : Type} `{HM : MemMan M}.
Implicit Types (w : World M) (st : BlendState M).

Definition bs_set_blend b st : BlendState M := mkBlendState b (bs_queries st) (bs_world st).

(** The scheduler [k] and the world after a call of a method of [k]. *)
Definition bs_set_sub k x w st : BlendState M :=
  mkBlendState (bl_set_sub k x (bs_blend st)) (bs_queries st) w.

(** [scan->isRatingInRange(scanPriority)], false for other schedulers. *)
Definition rating_match b (scanPriority : Z) k : bool :=
  match bl_subs b !! k with Some (SScan s) => isRatingInRange scanPriority s | _ => false end.

(** [queryStats && queryStats->getQueryBooted()] *)
Definition query_booted t st : bool :=
  match qc_getStats (t_qId t) (bs_queries st) with Some (_, s) => qs_queryBooted s | None => false end.

(** The choice of a scheduler in [queCmd]. *)
Definition no_scan t : bool := match si_infoTables (t_scanInfo t) with [] => true | _ => t_scanInteractive t end.

Definition choose t st : nat :=
  let b := bs_blend st in
  if no_scan t then bl_group b
  else
    let s := find (rating_match b (si_scanRating (t_scanInfo t))) (bl_schedulers b) in
    if query_booted t st then bl_scanSnail b
    else match s with Some k => k | None => bl_scanSnail b end.

(** [void queCmd(util::Command::Ptr const& cmd)] at clock [now].  A [Task] has a
    message (its constructor reads it), so the check for a null [msg] passes. *)
Definition bl_queCmd (cmd : Cmd) (now : Z) st : outcome (BlendState M) :=
  match cmd with
  | CCtrl c => Ret (bs_set_blend (bl_set_ctrl (ctrl_queCmd c (bl_ctrlCmdQueue (bs_blend st))) (bs_blend st)) st)
  | CTask t =>
      let s := choose t st in
      let w := setTaskScheduler t s (setOnInteractive t (no_scan t) (bs_world st)) in
      match bl_subs (bs_blend st) !! s with
      | None => Raise UndefinedBehaviour
      | Some x =>
          let? (x', w') := sub_queCmd t x w in
          let '(qc, w'') := qc_queuedTask t now (bs_queries st) w' in
          Ret (mkBlendState (bl_set_sub s x' (bs_blend st)) qc w'')
      end
  end.

(** [void commandStart(cmd)]; the sub-schedulers only log. *)
Definition bl_commandStart t (now : Z) st : BlendState M :=
  let '(qc, w) := qc_startedTask t now (bs_queries st) (bs_world st) in mkBlendState (bs_blend st) qc w.

(** [void commandFinish(cmd)] for a task. *)
Definition bl_commandFinish t (now : Z) st : outcome (BlendState M) :=
  let? st1 :=
    match v_taskScheduler (vars (bs_world st) t) with
    | None => Ret st
    | Some k =>
        match bl_subs (bs_blend st) !! k with
        | None => Ret st
        | Some x => let? (x', w') := sub_commandFinish t x (bs_world st) in Ret (bs_set_sub k x' w' st)
        end
    end in
  let '(qc, w) := qc_finishedTask t now (bs_queries st1) (bs_world st1) in
  Ret (mkBlendState (bs_blend st1) qc w).

(** The loop of [_ready] on the schedulers, up to the first ready one. *)
Fixpoint ready_loop (availableThreads : Z) (l : list nat) st : outcome (BlendState M * option nat) :=
  match l with
  | [] => Ret (st, None)
  | k :: l' =>
      match bl_subs (bs_blend st) !! k with
      | None => Raise UndefinedBehaviour
      | Some x =>
          let '(base, avail) := applyAvailableThreads availableThreads (sub_base x) in
          let? (x', w', rdy) := sub_ready (sub_set_base base x) (bs_world st) in
          let st1 := bs_set_sub k x' w' st in
          if rdy : bool then Ret (st1, Some k) else ready_loop avail l' st1
      end
  end.

(** [bool _ready()] *)
Definition bl_ready st : outcome (BlendState M * bool) :=
  let b := bs_blend st in
  match bl_readySched b with
  | Some _ => Ret (st, true)
  | None =>
      let? (st1, sched) := ready_loop (calcAvailableTheads b) (bl_schedulers b) st in
      match sched with
      | Some k => Ret (bs_set_blend (bl_set_ready (Some k) (bs_blend st1)) st1, true)
      | None => Ret (st1, ctrl_ready (bl_ctrlCmdQueue (bs_blend st1)))
      end
  end.

(** The part of [getCmd] that asks the ready scheduler. *)
Definition get_from_ready st : outcome (BlendState M * option Task) :=
  match bl_readySched (bs_blend st) with
  | None => Ret (st, None)
  | Some k =>
      match bl_subs (bs_blend st) !! k with
      | None => Raise UndefinedBehaviour
      | Some x =>
          let? (x', w', o) := sub_getCmd x (bs_world st) in
          let st1 := bs_set_sub k x' w' st in
          Ret (bs_set_blend (sortScanSchedulers (bl_set_ready None (bs_blend st1))) st1, o)
      end
  end.

(** [util::Command::Ptr getCmd(bool wait)] with [wait = false]; with [true]
    the calls of [_ready] that return false come before it. *)
Definition bl_getCmd st : outcome (BlendState M * option Cmd) :=
  let? (st1, rdy) := bl_ready st in
  let? (st2, o) := (if rdy : bool then get_from_ready st1 else Ret (st1, None)) in
  match o with
  | Some t => Ret (st2, Some (CTask t))
  | None =>
      let '(q, c) := ctrl_getCmd (bl_ctrlCmdQueue (bs_blend st2)) in
      Ret (bs_set_blend (bl_set_ctrl q (bs_blend st2)) st2, CCtrl <$> c)
  end.

(** The command that [queEnd] puts on the queue. *)
Definition msgEnd : nat := 0.

(** The blend scheduler as the queue of the thread pool. *)
#[export] Instance blend_queue : CommandQueue Task (BlendState M) := {
  cq_addr := t_ptr;
  cq_commandFinish t now st := bl_commandFinish t now st;
  cq_queEnd st :=
    bs_set_blend (bl_set_ctrl (ctrl_queCmd msgEnd (bl_ctrlCmdQueue (bs_blend st))) (bs_blend st)) st;
}.
End blend.

(** ** The worker: the pool of threads and the blend scheduler *)
Section worker.
Context {M : Type} `{HM : MemMan M}.

Definition Worker : Type := ThreadPool * BlendState M.
Implicit Types (wk : Worker).

(** [removeTask] of the scheduler [k]; a running task that may be moved
    leaves the pool (the end of [ScanScheduler::removeTask]). *)
Definition wk_removeTask (k : nat) t (removeRunning : bool) (now : Z) wk : outcome (Worker * bool) :=
  let '(tp, st) := wk in
  match bl_subs (bs_blend st) !! k with
  | None => Raise UndefinedBehaviour
  | Some x =>
      let '(x', inQueue, leave) := sub_removeTask t removeRunning x (bs_world st) in
      let st1 := bs_set_sub k x' (bs_world st) st in
      if leave : bool then
        let '(tp1, poolThread) := getAndNullPoolEventThread (t_ptr t) tp in
        match poolThread with
        | Some thrd => let? (tp2, st2, _) := leavePool thrd t now tp1 st1 in Ret (tp2, st2, inQueue)
        | None => Ret (tp1, st1, inQueue)
        end
      else Ret (tp, st1, inQueue)
  end.

(** [getMaxTimeMinutes] of the scheduler [k] if it is a scan scheduler. *)
Definition wk_maxTimeMinutes (k : nat) wk : option double :=
  match bl_subs (bs_blend wk.2) !! k with Some (SScan s) => Some (ss_maxTimeMinutes s) | _ => None end.

#[export] Instance worker_scheds : TaskSchedulers Worker := {
  ts_vars wk t := vars (bs_world wk.2) t;
  ts_queries wk := bs_queries wk.2;
  ts_set_queries qc wk := (wk.1, mkBlendState (bs_blend wk.2) qc (bs_world wk.2));
  ts_removeTask := wk_removeTask;
  ts_maxTimeMinutes := wk_maxTimeMinutes;
}.

(** The loop of [moveUserQuery] on the removed tasks. *)
Definition move_task (destination : nat) wk t : outcome Worker :=
  let '(tp, st) := wk in
  let w := setTaskScheduler t destination (bs_world st) in
  match bl_subs (bs_blend st) !! destination with
  | None => Raise UndefinedBehaviour
  | Some x => let? (x', w') := sub_queCmd t x w in Ret (tp, bs_set_sub destination x' w' st)
  end.

(** [int moveUserQuery(qId, source, destination)] *)
Definition moveUserQuery (qId : Z) (source destination : option nat) (now : Z) wk : outcome (Worker * Z) :=
  match destination with
  | None => Ret (wk, 0)
  | Some d =>
      let? (wk1, taskList) := qc_removeQueryFrom qId source now wk in
      let? wk2 := foldM (move_task d) wk1 taskList in
      Ret (wk2, Z.of_nat (length taskList))
  end.

(** [int moveUserQueryToSnail(qId, source)] *)
Definition moveUserQueryToSnail (qId : Z) (source : option nat) (now : Z) wk : outcome (Worker * Z) :=
  let snail := bl_scanSnail (bs_blend wk.2) in
  if decide (source = Some snail) then Ret (wk, 0)
  else moveUserQuery qId source (Some snail) now wk.
End worker.
