(* ===== verification/BlendSchedulerInv.v ===== *)
(** * Invariants of the blend scheduler

    What the methods of the sub-schedulers do to their queued tasks, the
    invariant of the blend scheduler, and that its methods keep it. *)

From S2P Require Import Prelude.
From S2P Require Import Double.
From S2P Require Import ScanInfo.
From S2P Require Import MemMan.
From S2P Require Import MemManInv.
From S2P Require Import MemManLaws.
From S2P Require Import Task.
From S2P Require Import SchedulerBase.
From S2P Require Import ChunkTasks.
From S2P Require Import ChunkTasksQueue.
From S2P Require Import ChunkTasksQueueInv.
From S2P Require Import ChunkTasksQueueThms.
From S2P Require Import ScanScheduler.
From S2P Require Import GroupScheduler.
From S2P Require Import QueriesAndChunks.
From S2P Require Import EventThread.
From S2P Require Import ThreadPool.
From S2P Require Import BlendScheduler.

Implicit Types (t : Task) (s : ScanScheduler) (g : GroupScheduler) (x : SubScheduler) (k : nat).

(** ** Scan schedulers *)

Section scan.
Context {M : Type} `{HM : MemMan M} `{HL : !MemManLaws M}.
Implicit Types (w : World M).

(** The tasks are on the same schedulers. *)

Definition same_scheds w w' : Prop := forall t, v_taskScheduler (vars w' t) = v_taskScheduler (vars w t).

Lemma same_scheds_tasks w w' : w_tasks w' = w_tasks w -> same_scheds w w'.
Proof. intros H t. unfold vars. by rewrite H. Qed.

Lemma same_scheds_set t v w : v_taskScheduler v = v_taskScheduler (vars w t) -> same_scheds w (set_vars t v w).
Proof.
  intros Hv t'. destruct (decide (t_ptr t = t_ptr t')) as [He|He].
  - rewrite <- !(vars_alias _ t t') by done. by rewrite vars_set_eq.
  - by rewrite vars_set_ne.
Qed.

Lemma same_scheds_trans w1 w2 w3 : same_scheds w1 w2 -> same_scheds w2 w3 -> same_scheds w1 w3.
Proof. intros H1 H2 t. by rewrite H2. Qed.

Lemma grant_scheds w w' o : grant w w' o -> same_scheds w w'.
Proof.
  intros [_ Ho]. destruct o as [t|].
  - destruct Ho as (h & _ & Ht & _). eapply same_scheds_trans; [|by apply same_scheds_tasks].
    by apply (same_scheds_set t).
  - destruct Ho as (Ht & _). by apply same_scheds_tasks.
Qed.

Lemma q_ready_tasks flex sched q w q' w' b :
  world_ok w -> queue_inv q -> q_ready flex sched q w = Ret (q', w', b) ->
  queue_inv q' /\ q_tasks q' ≡ₚ q_tasks q /\ mm_inv (w_mm w') /\ same_scheds w w' /\
  (if b then is_Some (ready_task q') else world_ok w').
Proof.
  intros Hw Hq Heq.
  assert (Hq' : queue_inv q').
  { apply (q_exec_inv sched (OpReady flex) q w q' w' (RBool b)); [done|done|]. simpl. by rewrite Heq. }
  split; [done|]. destruct (q_readyChunk q) as [k|] eqn:Hk.
  - unfold q_ready in Heq. rewrite Hk in Heq. injection Heq as <- <- <-.
    destruct (ready_task_Some q k Hq Hk) as (c & t & Hc & Ht).
    rewrite (ready_task_at q k c t Hk Hc Ht). split; [done|]. split; [apply Hw|]. split; [done|eauto].
  - destruct (q_ready_spec flex sched q w Hw Hq Hk) as [E|(q1 & w1 & b1 & E & Ht & _ & Hpost)]; [congruence|].
    rewrite Heq in E. injection E as <- <- <-. split; [done|]. destruct b; simpl in Hpost.
    + destruct Hpost as (n & k & _ & Hk' & [_ (c & t & Hc & Hct & _ & Hg)] & _).
      rewrite (ready_task_at q' k c t Hk' Hc Hct). split; [by destruct Hg as [[? _]|[? _]]|].
      split; [destruct Hg as [Hg|Hg]; by eapply grant_scheds|eauto].
    + destruct Hpost as (_ & _ & Hg & Hw' & _). split; [apply Hw'|]. split; [by eapply grant_scheds|done].
Qed.

Lemma unlock_deferred_total s w :
  mm_inv (w_mm w) ->
  exists w', unlock_deferred s w = Ret (ss_set_handle HandleType.INVALID s, w') /\ mm_inv (w_mm w') /\
    (mm_room (w_mm w) -> mm_room (w_mm w')) /\ w_tasks w' = w_tasks w.
Proof.
  intros Hm. unfold unlock_deferred. destruct (Z.eqb_spec (ss_memManHandleToUnlock s) HandleType.INVALID) as [E|E].
  - exists w. split; [|done]. destruct s; simpl in *. by rewrite E.
  - destruct (mm_unlock_ok (ss_memManHandleToUnlock s) (w_mm w) Hm) as (m' & b & -> & Hm' & _ & _ & _ & Hr).
    simpl. eexists. split; [done|]. done.
Qed.

(** [_ready()] has promised a task that may run. *)
Definition has_ready s : Prop :=
  is_Some (ready_task (ss_taskQueue s)) /\ b_inFlight (ss_base s) < maxInFlight (ss_base s).

(** What stays the same in a scan scheduler. *)
Definition same_limits s s' : Prop :=
  ss_minRating s' = ss_minRating s /\ ss_maxRating s' = ss_maxRating s /\ ss_maxTimeMinutes s' = ss_maxTimeMinutes s.

Lemma queue_ready_tasks flex s w s' w' b :
  world_ok w -> queue_inv (ss_taskQueue s) -> queue_ready flex s w = Ret (s', w', b) ->
  queue_inv (ss_taskQueue s') /\ q_tasks (ss_taskQueue s') ≡ₚ q_tasks (ss_taskQueue s) /\ ss_base s' = ss_base s /\
  mm_inv (w_mm w') /\ same_limits s s' /\ ss_memManHandleToUnlock s' = ss_memManHandleToUnlock s /\
  same_scheds w w' /\
  (if b then is_Some (ready_task (ss_taskQueue s')) else world_ok w').
Proof.
  intros Hw Hq Heq. unfold queue_ready in Heq. unbind Heq. destruct r as [[q1 w1] b1]. injection Heq as <- <- <-.
  destruct (q_ready_tasks _ _ _ _ _ _ _ Hw Hq Hr) as (Hq1 & Ht & Hm & Hss & Hb).
  split; [done|]. split; [done|]. split; [done|]. split; [done|]. split; [by split|]. done.
Qed.

Lemma ss_ready_tasks s w s' w' b :
  world_ok w -> queue_inv (ss_taskQueue s) -> ss_ready s w = Ret (s', w', b) ->
  queue_inv (ss_taskQueue s') /\ q_tasks (ss_taskQueue s') ≡ₚ q_tasks (ss_taskQueue s) /\ ss_base s' = ss_base s /\
  mm_inv (w_mm w') /\ same_limits s s' /\ same_scheds w w' /\ (if b then has_ready s' else world_ok w').
Proof.
  intros Hw Hq. unfold ss_ready, has_ready.
  destruct (Z.leb_spec (maxInFlight (ss_base s)) (b_inFlight (ss_base s))) as [|Hlt].
  { intros [= <- <- <-]. do 3 (split; [done|]). split; [apply Hw|]. by split. }
  intros Heq. unbind Heq. destruct r as [[s1 w1] b1].
  destruct (queue_ready_tasks _ _ _ _ _ _ Hw Hq Hr) as (Hq1 & Ht1 & Hb1 & Hm1 & Hl1 & _ & Hss1 & Hb).
  destruct (Z.eqb_spec (ss_memManHandleToUnlock s1) HandleType.INVALID) as [E|E].
  { injection Heq as <- <- <-. do 6 (split; [done|]). destruct b1; [|done]. by rewrite Hb1. }
  destruct (unlock_deferred_total s1 w1 Hm1) as (w2 & E2 & Hm2 & Hroom & Hts2). rewrite E2 in Heq.
  assert (Hss2 : same_scheds w w2) by (eapply same_scheds_trans; [exact Hss1|by apply same_scheds_tasks]). simpl in Heq.
  destruct b1.
  - injection Heq as <- <- <-. simpl. do 6 (split; [done|]). by rewrite Hb1.
  - assert (Hw2 : world_ok w2) by (split; [done|]; apply Hroom, Hb).
    destruct (queue_ready_tasks _ (ss_set_handle _ s1) _ _ _ _ Hw2 Hq1 Heq) as (Hq3 & Ht3 & Hb3 & Hm3 & Hl3 & _ & Hss3 & Hb').
    split; [done|]. split; [rewrite Ht3; done|]. split; [rewrite Hb3; done|]. split; [done|].
    split; [|split; [by eapply same_scheds_trans|destruct b; [rewrite Hb3; simpl; by rewrite Hb1|done]]].
    destruct Hl1 as (? & ? & ?), Hl3 as (? & ? & ?). unfold same_limits. simpl in *. split; [congruence|]. split; congruence.
Qed.

(** A promised task is handed out, whatever the memory manager does. *)
Lemma ss_getCmd_ready s w :
  mm_inv (w_mm w) -> queue_inv (ss_taskQueue s) -> has_ready s ->
  exists s' w' t, ss_getCmd s w = Ret (s', w', Some t) /\ queue_inv (ss_taskQueue s') /\
    q_tasks (ss_taskQueue s) ≡ₚ t :: q_tasks (ss_taskQueue s') /\ mm_inv (w_mm w') /\ same_limits s s' /\
    b_inFlight (ss_base s') = b_inFlight (ss_base s) + 1 /\ w_tasks w' = w_tasks w.
Proof.
  intros Hm Hq [[t Ht] Hlt]. unfold ss_getCmd, ss_ready, queue_ready, q_ready.
  destruct (Z.leb_spec (maxInFlight (ss_base s)) (b_inFlight (ss_base s))) as [|_]; [lia|].
  destruct (q_readyChunk (ss_taskQueue s)) as [k|] eqn:Hk; [|by rewrite ready_task_no_chunk in Ht].
  destruct (ready_task_Some _ k Hq Hk) as (c & t' & Hc & Hct).
  rewrite (ready_task_at _ k c t' Hk Hc Hct) in Ht. injection Ht as ->. simpl.
  assert (Hget : forall w1 s1, ss_taskQueue s1 = ss_taskQueue s -> ss_base s1 = ss_base s -> same_limits s s1 ->
    mm_inv (w_mm w1) -> w_tasks w1 = w_tasks w -> exists s' w', (let? (s2, w2, rdy) := Ret (s1, w1, true) in
       if negb rdy then Ret (s2, w2, None)
       else let useFlexibleLock := b_inFlight (ss_base s2) <? 1 in
         let? (q, w2, task) := q_getTask useFlexibleLock (Some (ss_base s2)) (ss_taskQueue s2) w2 in
         let s2 := ss_set_queue q s2 in
         match task with
         | None => Ret (s2, w2, None)
         | Some t =>
             let b1 := set_inFlight (b_inFlight (ss_base s2) + 1) (ss_base s2) in
             let b2 := (decrCountForUserQuery (t_qId t) b1).1 in
             Ret (ss_set_base (incrChunkTaskCount (getChunkId t) b2) s2, w2, Some t)
         end) = Ret (s', w', Some t) /\ queue_inv (ss_taskQueue s') /\
    q_tasks (ss_taskQueue s) ≡ₚ t :: q_tasks (ss_taskQueue s') /\ mm_inv (w_mm w') /\ same_limits s s' /\
    b_inFlight (ss_base s') = b_inFlight (ss_base s) + 1 /\ w_tasks w' = w_tasks w).
  { intros w1 s1 Hq1 Hb1 Hl1 Hm1 Hts1. simpl. unfold q_getTask, q_ready. rewrite Hq1, Hk. simpl. rewrite Hk.
    destruct (take_ready (b_inFlight (ss_base s1) <? 1) _ w1 k c t Hq Hk Hc Hct) as (q' & -> & Hq' & _ & _ & Hp & _).
    simpl. eexists _, _. split; [done|]. simpl. rewrite Hb1. auto 12. }
  destruct (Z.eqb_spec (ss_memManHandleToUnlock s) HandleType.INVALID) as [E|E].
  - destruct (Hget w (ss_set_queue (ss_taskQueue s) s)) as (s' & w' & H); [done|done|by split|done|done|].
    exists s', w', t. exact H.
  - destruct (unlock_deferred_total (ss_set_queue (ss_taskQueue s) s) w Hm) as (w2 & E2 & Hm2 & _ & Hts2). rewrite E2. simpl.
    destruct (Hget w2 (ss_set_handle HandleType.INVALID (ss_set_queue (ss_taskQueue s) s))) as (s' & w' & H);
      [done|done|by split|done|done|].
    exists s', w', t. exact H.
Qed.

Lemma ready_task_complete t q : ready_task (q_taskComplete t q) = ready_task q.
Proof.
  unfold q_taskComplete. destruct (q_chunkMap q !! getChunkId t) as [c|] eqn:E; [|done].
  by apply (ready_task_set_chunk _ c).
Qed.

Lemma ss_commandFinish_tasks t s w :
  mm_inv (w_mm w) -> queue_inv (ss_taskQueue s) ->
  exists s' w', ss_commandFinish t s w = Ret (s', w') /\ queue_inv (ss_taskQueue s') /\
    q_tasks (ss_taskQueue s') ≡ₚ q_tasks (ss_taskQueue s) /\ mm_inv (w_mm w') /\ w_tasks w' = w_tasks w /\
    same_limits s s' /\
    ready_task (ss_taskQueue s') = ready_task (ss_taskQueue s) /\
    b_inFlight (ss_base s') = b_inFlight (ss_base s) - 1 /\ maxInFlight (ss_base s') = maxInFlight (ss_base s).
Proof.
  intros Hm Hq. unfold ss_commandFinish.
  set (s2 := ss_set_base _ (ss_set_queue _ s)).
  destruct (unlock_deferred_total s2 w Hm) as (w3 & -> & Hm3 & _ & Hw3). simpl.
  assert (Hrest : queue_inv (q_taskComplete t (ss_taskQueue s)) /\
            q_tasks (q_taskComplete t (ss_taskQueue s)) ≡ₚ q_tasks (ss_taskQueue s)).
  { split; [by apply taskComplete_inv|apply taskComplete_tasks]. }
  destruct (q_empty _); simpl.
  - destruct (mm_unlock_ok (getMemHandle w3 t) (w_mm w3) Hm3) as (m' & b & -> & Hm' & _). simpl.
    eexists _, _. split; [done|]. simpl. rewrite ready_task_complete. destruct Hrest.
    do 7 (split; [first [done|by split]|]). done.
  - eexists _, _. split; [done|]. simpl. rewrite ready_task_complete. destruct Hrest.
    do 7 (split; [first [done|by split]|]). done.
Qed.
End scan.

(** ** Sub-schedulers *)

Definition sub_inv x : Prop := match x with SGroup g => group_inv g | SScan s => queue_inv (ss_taskQueue s) end.

(** The queued tasks of a sub-scheduler. *)
Definition sub_tasks x : list Task := match x with SGroup g => gs_tasks g | SScan s => q_tasks (ss_taskQueue s) end.

(** [getCmd(false)] will return a task. *)
Definition sub_has_ready x : Prop := match x with SGroup g => gs_ready g = true | SScan s => has_ready s end.

(** The same scheduler, with the same rating range and time limit. *)
Definition same_kind x x' : Prop :=
  match x, x' with SGroup _, SGroup _ => True | SScan s, SScan s' => same_limits s s' | _, _ => False end.

#[export] Instance same_kind_refl : Reflexive same_kind.
Proof. intros []; simpl; [done|by split]. Qed.

#[export] Instance same_kind_trans : Transitive same_kind.
Proof.
  intros [] [] []; simpl; try done. intros (? & ? & ?) (? & ? & ?). split; [congruence|]. split; congruence.
Qed.

(** The members of [SchedulerBase] that decide about threads. *)
Definition same_threads (a b : SchedulerBase) : Prop :=
  b_inFlight b = b_inFlight a /\ b_maxReserve b = b_maxReserve a.

Section sub.
Context {M : Type} `{HM : MemMan M} `{HL : !MemManLaws M}.
Implicit Types (w : World M).

Lemma sub_set_base_same base x :
  sub_inv x -> sub_inv (sub_set_base base x) /\ sub_tasks (sub_set_base base x) = sub_tasks x /\
  same_kind x (sub_set_base base x) /\ sub_base (sub_set_base base x) = base.
Proof. destruct x as [g|s]; simpl; intros H; (split; [|split; [done|by split]]); [by destruct H|done]. Qed.

Lemma sub_queCmd_spec t x w :
  sub_inv x -> exists x' w', sub_queCmd t x w = Ret (x', w') /\ sub_inv x' /\ sub_tasks x' ≡ₚ t :: sub_tasks x /\
    w_mm w' = w_mm w /\ same_kind x x' /\ (sub_has_ready x -> sub_has_ready x') /\
    v_taskScheduler (vars w' t) = v_taskScheduler (vars w t) /\
    (forall t', t_ptr t' <> t_ptr t -> vars w' t' = vars w t').
Proof.
  destruct x as [g|s]; simpl; intros Hi.
  - destruct (gs_queCmd_spec t g Hi) as (g' & -> & Hi' & Hp & _ & _ & Hb). simpl.
    eexists _, _. split; [done|]. do 4 (split; [done|]). split; [|done]. simpl. unfold gs_ready. rewrite Hb. simpl.
    intros Hr. assert (Hin : t ∈ gs_tasks g') by (rewrite Hp; by left).
    unfold gs_tasks in Hin. destruct (gs_queue g'); [set_solver|]. by destruct (gs_queue g).
  - eexists _, _. split; [done|]. simpl. split; [by apply queueTask_inv|]. split; [apply queueTask_tasks|].
    split; [done|]. split; [by split|]. split; [|split].
    + unfold has_ready. simpl. by rewrite ready_task_queue.
    + unfold setMemMan. by rewrite vars_set_eq.
    + intros t' Hne. unfold setMemMan. by rewrite vars_set_ne.
Qed.

Lemma sub_getCmd_ready x w :
  mm_inv (w_mm w) -> sub_inv x -> sub_has_ready x ->
  exists x' w' t, sub_getCmd x w = Ret (x', w', Some t) /\ sub_inv x' /\ sub_tasks x ≡ₚ t :: sub_tasks x' /\
    mm_inv (w_mm w') /\ same_kind x x' /\ w_tasks w' = w_tasks w.
Proof.
  destruct x as [g|s]; simpl; intros Hm Hi Hr.
  - destruct (gs_getCmd_spec g Hi) as (g' & o & -> & Hi' & Hp & Ho). simpl. destruct o as [t|].
    + eexists _, _, _. split; [done|]. simpl. split; [done|]. split; [by rewrite Hp|done].
    + exfalso. destruct (proj1 Ho eq_refl) as [E|E]; unfold gs_ready in Hr.
      * by rewrite E in Hr.
      * destruct (gs_queue g); [done|]. apply Z.ltb_lt in Hr. lia.
  - destruct (ss_getCmd_ready s w Hm Hi Hr) as (s' & w' & t & -> & Hi' & Hp & Hm' & Hl & _ & Hts). simpl.
    eexists _, _, _. split; [done|]. done.
Qed.

Lemma sub_ready_tasks x w x' w' b :
  world_ok w -> sub_inv x -> sub_ready x w = Ret (x', w', b) ->
  sub_inv x' /\ sub_tasks x' ≡ₚ sub_tasks x /\ sub_base x' = sub_base x /\ mm_inv (w_mm w') /\ same_kind x x' /\
  same_scheds w w' /\
  (if b then sub_has_ready x' /\ b_inFlight (sub_base x) < maxInFlight (sub_base x) else world_ok w').
Proof.
  intros Hw. destruct x as [g|s]; simpl; intros Hi Heq.
  - injection Heq as <- <- <-. do 3 (split; [done|]). split; [apply Hw|]. split; [done|]. split; [done|].
    destruct (gs_ready g) eqn:E; [|done]. split; [done|]. unfold gs_ready in E.
    destruct (gs_queue g); [done|]. by apply Z.ltb_lt in E.
  - unbind Heq. destruct r as [[s1 w1] b1]. injection Heq as <- <- <-.
    destruct (ss_ready_tasks _ _ _ _ _ Hw Hi Hr) as (? & ? & Hb & ? & ? & ? & Hrdy). simpl.
    do 6 (split; [done|]). destruct b1; [|done]. split; [done|]. rewrite <- Hb. apply Hrdy.
Qed.

Lemma sub_commandFinish_spec t x w :
  mm_inv (w_mm w) -> sub_inv x ->
  exists x' w', sub_commandFinish t x w = Ret (x', w') /\ sub_inv x' /\ sub_tasks x' ≡ₚ sub_tasks x /\
    mm_inv (w_mm w') /\ w_tasks w' = w_tasks w /\ same_kind x x' /\ (sub_has_ready x -> sub_has_ready x').
Proof.
  intros Hm. destruct x as [g|s]; simpl; intros Hi.
  - eexists _, _. split; [done|]. simpl. split; [by destruct Hi|]. do 4 (split; [done|]).
    unfold gs_ready, maxInFlight. simpl. destruct (gs_queue g); [done|]. rewrite !Z.ltb_lt. lia.
  - destruct (ss_commandFinish_tasks t s w Hm Hi) as (s' & w' & -> & ? & ? & ? & ? & ? & Hr & Hf & Hx). simpl.
    eexists _, _. split; [done|]. do 5 (split; [done|]). simpl. unfold has_ready. rewrite Hr, Hf, Hx.
    intros [? ?]. split; [done|lia].
Qed.

(** The identity by which a task is found again. *)
Definition ids t : Z * Z := (t_qId t, t_jId t).

Lemma ct_removeTask_ids t c c' r : ct_removeTask t c = (c', Some r) -> ids r = ids t.
Proof.
  unfold ct_removeTask, ids. destruct (eraseFunc _ _ (ct_activeTasks c)) as [[y rest]|] eqn:E.
  - intros [= _ <-]. apply eraseFunc_Some in E as (_ & -> & ->). done.
  - destruct (eraseFunc _ _ (ct_pendingTasks c)) as [[y rest]|] eqn:E'; intros [= _ <-].
    apply eraseFunc_Some in E' as (_ & -> & ->). done.
Qed.

Lemma q_removeTask_ids t q q' r : q_removeTask t q = (q', Some r) -> ids r = ids t.
Proof.
  unfold q_removeTask. destruct (q_chunkMap q !! getChunkId t) as [c|]; [|done].
  destruct (ct_removeTask t c) as [c' [y|]] eqn:E; intros [= _ <-]. by eapply ct_removeTask_ids.
Qed.

Lemma sub_removeTask_spec t running x w x' inQueue leave :
  sub_inv x -> sub_removeTask t running x w = (x', inQueue, leave) ->
  sub_inv x' /\ ids <$> sub_tasks x ≡ₚ (if inQueue then [ids t] else []) ++ (ids <$> sub_tasks x') /\
  same_kind x x' /\ (sub_has_ready x -> sub_has_ready x') /\ (leave = true -> running = true /\ inQueue = false).
Proof.
  destruct x as [g|s]; simpl; intros Hi.
  - intros [= <- <- <-]. do 4 (split; [done|]). done.
  - unfold ss_removeTask. destruct (q_removeTask t (ss_taskQueue s)) as [q' o] eqn:E.
    pose proof (removeTask_inv _ _ _ _ Hi E) as Hi'. pose proof (removeTask_tasks _ _ _ _ E) as Ht.
    pose proof (ready_task_remove _ _ _ _ E) as Hr.
    assert (Hrdy : has_ready s -> has_ready (ss_set_queue q' s)) by (unfold has_ready; simpl; by rewrite Hr).
    assert (Hl : same_limits s (ss_set_queue q' s)) by done.
    assert (Hids : ids <$> q_tasks (ss_taskQueue s) ≡ₚ (match o with Some _ => [ids t] | None => [] end) ++ (ids <$> q_tasks q')).
    { rewrite Ht. destruct o as [r|]; simpl; [|done]. by rewrite (q_removeTask_ids _ _ _ _ E). }
    destruct o as [r|]; [intros [= <- <- <-]; simpl; do 4 (split; [done|]); done|].
    destruct running; simpl; [|intros [= <- <- <-]; simpl; do 4 (split; [done|]); done].
    destruct (v_safeToMoveRunning _); simpl; intros [= <- <- <-]; simpl; do 4 (split; [done|]); done.
Qed.
End sub.

(** ** The blend scheduler *)

Implicit Types (b : BlendScheduler).

Record blend_inv b : Prop := {
  bi_group : exists g, bl_subs b !! bl_group b = Some (SGroup g);
  bi_snail : exists s, bl_subs b !! bl_scanSnail b = Some (SScan s);
  bi_subs : map_Forall (fun _ x => sub_inv x) (bl_subs b);
  bi_nodup : NoDup (bl_schedulers b);
  bi_dom k : k ∈ bl_schedulers b <-> is_Some (bl_subs b !! k);
  bi_ready k : bl_readySched b = Some k -> exists x, bl_subs b !! k = Some x /\ sub_has_ready x;
}.

(** All queued tasks. *)
Definition queued_tasks b : list Task := mcollect sub_tasks (bl_subs b).

(** The other members, and the identity of the schedulers, are the same. *)
Record same_frame b b' : Prop := {
  sf_ctrl : bl_ctrlCmdQueue b' = bl_ctrlCmdQueue b;
  sf_max : bl_schedMaxThreads b' = bl_schedMaxThreads b;
  sf_group : bl_group b' = bl_group b;
  sf_snail : bl_scanSnail b' = bl_scanSnail b;
  sf_scheds : bl_schedulers b' = bl_schedulers b;
  sf_prio : bl_prioritizeByInFlight b' = bl_prioritizeByInFlight b;
  sf_ready : bl_readySched b' = bl_readySched b;
}.

#[export] Instance same_frame_refl : Reflexive same_frame.
Proof. by split. Qed.
#[export] Instance same_frame_trans : Transitive same_frame.
Proof. intros b1 b2 b3 [] []. split; congruence. Qed.

Lemma set_sub_frame k x b : same_frame b (bl_set_sub k x b).
Proof. by split. Qed.

(** Replacing one sub-scheduler. *)
Lemma set_sub_inv k x x' b :
  blend_inv b -> bl_subs b !! k = Some x -> sub_inv x' -> same_kind x x' ->
  (bl_readySched b = Some k -> sub_has_ready x -> sub_has_ready x') ->
  blend_inv (bl_set_sub k x' b).
Proof.
  intros [[g Hg] [s Hs] Hi Hn Hd Hr] Hk Hi' Hkind Hrdy. split; simpl; [| | |done| |].
  - destruct (decide (k = bl_group b)) as [->|]; [|by rewrite lookup_insert_ne; eauto].
    rewrite lookup_insert_eq. rewrite Hk in Hg. injection Hg as ->. destruct x'; [by eexists|done].
  - destruct (decide (k = bl_scanSnail b)) as [->|]; [|by rewrite lookup_insert_ne; eauto].
    rewrite lookup_insert_eq. rewrite Hk in Hs. injection Hs as ->. destruct x'; [done|by eexists].
  - by apply map_Forall_insert_2.
  - intros j. rewrite Hd, lookup_insert_is_Some'. split; [auto|]. intros [<-|?]; eauto.
  - intros j Hj. destruct (Hr j Hj) as (y & Hy & Hyr). destruct (decide (k = j)) as [<-|].
    + rewrite lookup_insert_eq. exists x'. split; [done|]. apply Hrdy; [done|]. congruence.
    + rewrite lookup_insert_ne by done. eauto.
Qed.

Lemma set_sub_queued k x x' b :
  bl_subs b !! k = Some x ->
  queued_tasks b ≡ₚ sub_tasks x ++ mcollect sub_tasks (delete k (bl_subs b)) /\
  queued_tasks (bl_set_sub k x' b) ≡ₚ sub_tasks x' ++ mcollect sub_tasks (delete k (bl_subs b)).
Proof. intros Hk. split; [by apply mcollect_lookup|]. apply mcollect_update. Qed.

(** A change that keeps the queued tasks of the sub-scheduler. *)
Lemma set_sub_queued_same k x x' b :
  bl_subs b !! k = Some x -> sub_tasks x' ≡ₚ sub_tasks x -> queued_tasks (bl_set_sub k x' b) ≡ₚ queued_tasks b.
Proof. intros Hk Ht. destruct (set_sub_queued k x x' b Hk) as [-> ->]. by rewrite Ht. Qed.

Lemma blend_inv_ctrl q b : blend_inv b -> blend_inv (bl_set_ctrl q b).
Proof. intros []. by split. Qed.

Lemma blend_inv_ready r b :
  blend_inv b -> (forall k, r = Some k -> exists x, bl_subs b !! k = Some x /\ sub_has_ready x) ->
  blend_inv (bl_set_ready r b).
Proof. intros [] H. by split. Qed.

Lemma blend_inv_sort b : blend_inv b -> blend_inv (sortScanSchedulers b).
Proof.
  intros [Hg Hs Hi Hn Hd Hr]. split; simpl; [done..| | |done].
  - by rewrite std_sort_Permutation.
  - intros k. by rewrite std_sort_Permutation.
Qed.

Section ops.
Context {M : Type} `{HM : MemMan M} `{HL : !MemManLaws M}.
Implicit Types (w : World M) (st : BlendState M).

Definition state_inv st : Prop := blend_inv (bs_blend st) /\ mm_inv (w_mm (bs_world st)).
Definition all_queued st : list Task := queued_tasks (bs_blend st).

(** *** [_ready] *)

Lemma ready_loop_spec avail l st st' o :
  blend_inv (bs_blend st) -> world_ok (bs_world st) -> bl_readySched (bs_blend st) = None ->
  ready_loop avail l st = Ret (st', o) ->
  blend_inv (bs_blend st') /\ mm_inv (w_mm (bs_world st')) /\ all_queued st' ≡ₚ all_queued st /\
  same_frame (bs_blend st) (bs_blend st') /\ bs_queries st' = bs_queries st /\
  same_scheds (bs_world st) (bs_world st') /\
  match o with
  | Some k => exists x, bl_subs (bs_blend st') !! k = Some x /\ sub_has_ready x
  | None => world_ok (bs_world st')
  end.
Proof.
  revert avail st. induction l as [|k l IH]; simpl; intros avail st Hb Hw Hrn Heq.
  { injection Heq as <- <-. split; [done|]. split; [apply Hw|]. done. }
  destruct (bl_subs (bs_blend st) !! k) as [x|] eqn:Hk; [|done]. unbind Heq. destruct r as [[x' w'] rdy].
  pose proof (bi_subs _ Hb _ _ Hk) as Hx. simpl in Hx.
  match type of Hr with sub_ready (sub_set_base ?base _) _ = _ =>
    destruct (sub_set_base_same base x Hx) as (Hx1 & Ht1 & Hk1 & Hb1) end.
  destruct (sub_ready_tasks _ _ _ _ _ Hw Hx1 Hr) as (Hx' & Ht' & Hb' & Hm' & Hk' & Hss & Hrdy).
  assert (Hinv : blend_inv (bs_blend (bs_set_sub k x' w' st))).
  { apply (set_sub_inv k x); [done|done|done|by etransitivity|]. by rewrite Hrn. }
  assert (Hqu : all_queued (bs_set_sub k x' w' st) ≡ₚ all_queued st).
  { apply (set_sub_queued_same k x); [done|]. by rewrite Ht', Ht1. }
  destruct rdy.
  - injection Heq as <- <-. split; [done|]. split; [done|]. split; [done|]. split; [apply set_sub_frame|]. split; [done|]. split; [done|].
    exists x'. simpl. rewrite lookup_insert_eq. split; [done|]. apply Hrdy.
  - destruct (IH _ _ Hinv Hrdy Hrn Heq) as (? & ? & Hq & Hf & Hqs & Hss' & ?). split; [done|]. split; [done|].
    split; [by rewrite Hq|]. split; [etransitivity; [apply set_sub_frame|exact Hf]|]. split; [done|].
    split; [by eapply same_scheds_trans|done].
Qed.

Lemma bl_ready_spec st st' rdy :
  state_inv st -> mm_room (w_mm (bs_world st)) -> bl_ready st = Ret (st', rdy) ->
  state_inv st' /\ all_queued st' ≡ₚ all_queued st /\ bl_ctrlCmdQueue (bs_blend st') = bl_ctrlCmdQueue (bs_blend st) /\
  bs_queries st' = bs_queries st /\ bl_group (bs_blend st') = bl_group (bs_blend st) /\
  bl_scanSnail (bs_blend st') = bl_scanSnail (bs_blend st) /\
  bl_schedulers (bs_blend st') = bl_schedulers (bs_blend st) /\
  same_scheds (bs_world st) (bs_world st') /\
  (rdy = true <-> is_Some (bl_readySched (bs_blend st')) \/ bl_ctrlCmdQueue (bs_blend st) <> []).
Proof.
  intros [Hb Hm] Hroom. unfold bl_ready. destruct (bl_readySched (bs_blend st)) as [k|] eqn:Hk.
  { intros [= <- <-]. rewrite Hk. split; [by split|]. do 7 (split; [done|]). split; eauto. }
  intros Heq. unbind Heq. destruct r as [st1 o].
  destruct (ready_loop_spec _ _ _ _ _ Hb (conj Hm Hroom) Hk Hr) as (Hb1 & Hm1 & Hq1 & Hf & Hqs & Hss & Ho). destruct Hf.
  destruct o as [k|]; injection Heq as <- <-; simpl.
  - split; [split; [|done]; apply blend_inv_ready; [done|]; by intros j [= <-]|].
    split; [exact Hq1|]. do 6 (split; [done|]). split; eauto.
  - split; [by split|]. do 7 (split; [done|]). rewrite sf_ready0, Hk, sf_ctrl0.
    destruct (bl_ctrlCmdQueue (bs_blend st)); simpl.
    + split; [done|]. intros [[? ?]|?]; done.
    + split; [|done]. by right.
Qed.

(** *** [getCmd] *)

Lemma get_from_ready_spec st k :
  state_inv st -> bl_readySched (bs_blend st) = Some k ->
  exists st' t, get_from_ready st = Ret (st', Some t) /\ state_inv st' /\ all_queued st ≡ₚ t :: all_queued st' /\
    bl_ctrlCmdQueue (bs_blend st') = bl_ctrlCmdQueue (bs_blend st) /\ bs_queries st' = bs_queries st /\
    bl_readySched (bs_blend st') = None /\ bl_schedulers (bs_blend st') ≡ₚ bl_schedulers (bs_blend st) /\
    same_scheds (bs_world st) (bs_world st').
Proof.
  intros [Hb Hm] Hk. unfold get_from_ready. rewrite Hk. destruct (bi_ready _ Hb k Hk) as (x & Hx & Hrdy).
  rewrite Hx. pose proof (bi_subs _ Hb _ _ Hx) as Hi. simpl in Hi.
  destruct (sub_getCmd_ready x _ Hm Hi Hrdy) as (x' & w' & t & -> & Hi' & Ht & Hm' & Hkind & Hts). simpl.
  eexists _, t. split; [done|]. split; [split; [|done]|].
  - apply blend_inv_sort.
    assert (Hbn : blend_inv (bl_set_ready None (bs_blend st))) by (by apply blend_inv_ready).
    apply (set_sub_inv k x x' _ Hbn Hx Hi' Hkind). done.
  - split; [|split; [done|split; [done|split; [done|split;
      [apply std_sort_Permutation|by apply same_scheds_tasks]]]]].
    destruct (set_sub_queued k x x' _ Hx) as [-> Hn].
    change (sub_tasks x ++ mcollect sub_tasks (delete k (bl_subs (bs_blend st)))
            ≡ₚ t :: queued_tasks (bl_set_sub k x' (bs_blend st))).
    rewrite Hn, Ht. done.
Qed.

(** The possible results of [getCmd]. *)
Definition getCmd_result st st1 st' (o : option Cmd) : Prop :=
  match bl_readySched (bs_blend st1) with
  | Some _ => exists t, o = Some (CTask t) /\ all_queued st ≡ₚ t :: all_queued st' /\
      bl_ctrlCmdQueue (bs_blend st') = bl_ctrlCmdQueue (bs_blend st)
  | None => all_queued st' ≡ₚ all_queued st /\
      match bl_ctrlCmdQueue (bs_blend st) with
      | [] => o = None /\ bl_ctrlCmdQueue (bs_blend st') = []
      | c :: q => o = Some (CCtrl c) /\ bl_ctrlCmdQueue (bs_blend st') = q
      end
  end.

Lemma bl_getCmd_spec st st1 rdy :
  state_inv st -> mm_room (w_mm (bs_world st)) -> bl_ready st = Ret (st1, rdy) ->
  exists st' o, bl_getCmd st = Ret (st', o) /\ state_inv st' /\ getCmd_result st st1 st' o /\
    bl_schedulers (bs_blend st') ≡ₚ bl_schedulers (bs_blend st) /\ same_scheds (bs_world st) (bs_world st').
Proof.
  intros Hi Hroom Hr. destruct (bl_ready_spec st st1 rdy Hi Hroom Hr) as (Hi1 & Hq1 & Hc1 & _ & _ & _ & Hl1 & Hs1 & Hrdy).
  unfold bl_getCmd, getCmd_result. rewrite Hr. simpl.
  destruct (bl_readySched (bs_blend st1)) as [k|] eqn:Hk.
  - destruct rdy; [|exfalso; assert (false = true) by (apply Hrdy; left; eauto); done].
    destruct (get_from_ready_spec st1 k Hi1 Hk) as (st2 & t & -> & Hi2 & Hq2 & Hc2 & _ & _ & Hl2 & Hs2). simpl.
    eexists _, _. split; [done|]. split; [done|]. split.
    + exists t. split; [done|]. split; [by rewrite <- Hq1|congruence].
    + split; [by rewrite Hl2, Hl1|by eapply same_scheds_trans].
  - assert (Hg : (if rdy then get_from_ready st1 else Ret (st1, None)) = Ret (st1, None)).
    { destruct rdy; [|done]. unfold get_from_ready. by rewrite Hk. }
    rewrite Hg. simpl. rewrite Hc1. destruct (bl_ctrlCmdQueue (bs_blend st)) as [|c q]; simpl.
    + eexists _, _. split; [done|]. split; [split; [by apply blend_inv_ctrl, Hi1|apply Hi1]|].
      split; [done|]. split; [by rewrite <- Hl1|exact Hs1].
    + eexists _, _. split; [done|]. split; [split; [by apply blend_inv_ctrl, Hi1|apply Hi1]|].
      split; [done|]. split; [by rewrite <- Hl1|exact Hs1].
Qed.

(** *** [queCmd] *)

Lemma choose_known t st : blend_inv (bs_blend st) -> is_Some (bl_subs (bs_blend st) !! choose t st).
Proof.
  intros [[g Hg] [s Hs] _ _ Hd _]. unfold choose. destruct (no_scan t); [eauto|].
  destruct (query_booted t st); [eauto|].
  destruct (find _ (bl_schedulers (bs_blend st))) as [k|] eqn:E; [|eauto].
  apply find_some in E as [Hin _]. apply Hd. by apply list_elem_of_In.
Qed.

Lemma bl_queCmd_spec t now st :
  state_inv st ->
  exists st' x x', bl_queCmd (CTask t) now st = Ret st' /\ state_inv st' /\
    bl_subs (bs_blend st) !! choose t st = Some x /\ bs_blend st' = bl_set_sub (choose t st) x' (bs_blend st) /\
    sub_tasks x' ≡ₚ t :: sub_tasks x /\ all_queued st' ≡ₚ t :: all_queued st /\
    v_taskScheduler (vars (bs_world st') t) = Some (choose t st) /\
    (forall t', t_ptr t' <> t_ptr t -> v_taskScheduler (vars (bs_world st') t') = v_taskScheduler (vars (bs_world st) t')).
Proof.
  intros [Hb Hm]. destruct (choose_known t st Hb) as [x Hx]. simpl. rewrite Hx.
  pose proof (bi_subs _ Hb _ _ Hx) as Hi. simpl in Hi. set (w := setTaskScheduler _ _ _).
  destruct (sub_queCmd_spec t x w Hi) as (x' & w' & -> & Hi' & Ht & Hm' & Hkind & Hrdy & Hv & Hoth). simpl.
  eexists _, x, x'. split; [done|]. split; [split; [by apply (set_sub_inv _ x)|simpl; by rewrite Hm']|].
  split; [done|]. split; [done|]. split; [done|]. split.
  - change (queued_tasks (bl_set_sub (choose t st) x' (bs_blend st)) ≡ₚ t :: queued_tasks (bs_blend st)).
    destruct (set_sub_queued _ x x' _ Hx) as [-> ->]. by rewrite Ht.
  - unfold queued, set_state. split.
    + simpl. rewrite vars_set_eq. simpl. rewrite Hv. unfold w, setTaskScheduler. by rewrite vars_set_eq.
    + intros t' Hne. simpl. rewrite vars_set_ne by done. rewrite Hoth by done.
      unfold w, setTaskScheduler, setOnInteractive. by rewrite !vars_set_ne.
Qed.

(** *** [commandFinish] *)

Lemma bl_commandFinish_spec t now st :
  state_inv st ->
  exists st', bl_commandFinish t now st = Ret st' /\ state_inv st' /\ all_queued st' ≡ₚ all_queued st /\
    bl_ctrlCmdQueue (bs_blend st') = bl_ctrlCmdQueue (bs_blend st) /\
    dom (bl_subs (bs_blend st')) = dom (bl_subs (bs_blend st)) /\ same_scheds (bs_world st) (bs_world st').
Proof.
  intros [Hb Hm]. unfold bl_commandFinish.
  assert (Hfin : forall st1, state_inv st1 ->
    exists st', (let '(qc, w) := qc_finishedTask t now (bs_queries st1) (bs_world st1) in
                 Ret (mkBlendState (bs_blend st1) qc w)) = Ret st' /\ state_inv st' /\ bs_blend st' = bs_blend st1 /\
      same_scheds (bs_world st1) (bs_world st')).
  { intros st1 [Hb1 Hm1]. unfold qc_finishedTask, finished. eexists. split; [done|]. split; [by split|]. split; [done|].
    simpl. by apply same_scheds_set. }
  assert (Hskip : exists st', (let '(qc, w) := qc_finishedTask t now (bs_queries st) (bs_world st) in
                 Ret (mkBlendState (bs_blend st) qc w)) = Ret st' /\ state_inv st' /\ all_queued st' ≡ₚ all_queued st /\
    bl_ctrlCmdQueue (bs_blend st') = bl_ctrlCmdQueue (bs_blend st) /\
    dom (bl_subs (bs_blend st')) = dom (bl_subs (bs_blend st)) /\ same_scheds (bs_world st) (bs_world st')).
  { destruct (Hfin st (conj Hb Hm)) as (st' & -> & Hi' & He & Hs). exists st'. unfold all_queued. rewrite He. done. }
  destruct (v_taskScheduler _) as [k|]; [|exact Hskip].
  destruct (bl_subs (bs_blend st) !! k) as [x|] eqn:Hx; [|exact Hskip].
  pose proof (bi_subs _ Hb _ _ Hx) as Hi. simpl in Hi.
  destruct (sub_commandFinish_spec t x _ Hm Hi) as (x' & w' & -> & Hi' & Ht & Hm' & Hw' & Hkind & Hrdy).
  cbn [bind]. destruct (Hfin (bs_set_sub k x' w' st)) as (st' & -> & His & He & Hs).
  { split; [|done]. by apply (set_sub_inv k x). }
  exists st'. split; [done|]. split; [done|]. unfold all_queued. rewrite He. simpl.
  split; [by apply (set_sub_queued_same k x)|]. split; [done|]. split.
  - rewrite dom_insert_L. apply elem_of_dom_2 in Hx. set_solver.
  - eapply same_scheds_trans; [|exact Hs]. by apply same_scheds_tasks.
Qed.
End ops.
