(* ===== verification/BlendSchedulerThms.v ===== *)
(** * Theorems about the blend scheduler *)

From S2P Require Import Prelude.
From S2P Require Import Double.
From S2P Require Import ScanInfo.
From S2P Require Import Memory.
From S2P Require Import MemMan.
From S2P Require Import MemManInv.
From S2P Require Import MemManLaws.
From S2P Require Import Task.
From S2P Require Import SchedulerBase.
From S2P Require Import ChunkTasks.
From S2P Require Import ChunkTasksQueue.
From S2P Require Import ChunkTasksQueueInv.
From S2P Require Import ScanScheduler.
From S2P Require Import GroupScheduler.
From S2P Require Import QueriesAndChunks.
From S2P Require Import EventThread.
From S2P Require Import ThreadPool.
From S2P Require Import BlendScheduler.
From S2P Require Import BlendSchedulerInv.

Implicit Types (t : Task) (b : BlendScheduler) (k : nat).

(** ** The order of the schedulers *)

(** [lessThan] with the comparison of the group scheduler with itself
    repaired; it agrees with [lessThan] on different schedulers. *)
Definition order b (x y : nat) : bool := if decide (x = y) then false else lessThan b x y.

Lemma order_lessThan b x y : x <> y -> order b x y = lessThan b x y.
Proof. intros H. unfold order. by rewrite decide_False. Qed.

#[local] Instance order_strict b : StrictWeak (order b).
Proof.
  split; unfold order, lessThan; intros;
    repeat (case_decide; subst; try done);
    destruct (bl_prioritizeByInFlight b); repeat case_match; rewrite ?Z.ltb_lt, ?Z.ltb_ge in *; try done; lia.
Qed.

Section sort_ext.
Context {A : Type} (f g : A -> A -> bool).

Lemma sort_insert_ext x l : (forall y, y ∈ l -> f x y = g x y) -> sort_insert f x l = sort_insert g x l.
Proof.
  induction l as [|y l IH]; simpl; intros H; [done|]. rewrite (H y) by left.
  destruct (g x y); [done|]. f_equal. apply IH. intros z Hz. apply H. by right.
Qed.

(** Comparators that agree on different elements sort alike. *)
Lemma std_sort_ext l : NoDup l -> (forall x y, x <> y -> f x y = g x y) -> std_sort f l = std_sort g l.
Proof.
  intros Hn H. unfold std_sort.
  assert (Hgen : forall acc, NoDup (acc ++ l) ->
            foldl (fun acc x => sort_insert f x acc) acc l = foldl (fun acc x => sort_insert g x acc) acc l).
  { clear Hn. induction l as [|x l IH]; simpl; intros acc Hn; [done|].
    rewrite (sort_insert_ext x acc).
    - apply IH. rewrite sort_insert_Permutation. simpl. by rewrite <- Permutation_middle in Hn.
    - intros y Hy. apply H. intros ->. apply NoDup_app in Hn as (_ & Hd & _). apply (Hd y Hy). by left. }
  by apply Hgen.
Qed.
End sort_ext.

(** The first and the last element of a sorted list. *)
Lemma sorted_ends (lt : nat -> nat -> bool) (l : list nat) (g s : nat) :
  NoDup l -> g ∈ l -> s ∈ l -> g <> s -> StronglySorted (fun x y => lt y x = false) l ->
  (forall y, y <> g -> lt g y = true) -> (forall x, x <> s -> lt x s = true) ->
  exists mid, l = g :: mid ++ [s].
Proof.
  intros Hn Hg Hs Hne Hsort Hmin Hmax. destruct l as [|x l]; [set_solver|].
  apply StronglySorted_inv in Hsort as [Hsort Hall]. rewrite Forall_forall in Hall.
  assert (x = g) as ->.
  { destruct (decide (x = g)); [done|]. apply elem_of_cons in Hg as [?|Hg]; [done|].
    specialize (Hall g Hg). by rewrite Hmin in Hall. }
  apply elem_of_cons in Hs as [?|Hs]; [congruence|].
  apply NoDup_cons in Hn as [_ Hn]. clear -Hn Hs Hsort Hmax.
  assert (Hl : exists mid, l = mid ++ [s]).
  { induction l as [|y l IH]; [set_solver|]. apply StronglySorted_inv in Hsort as [Hsort Hall].
    rewrite Forall_forall in Hall. apply NoDup_cons in Hn as [Hy Hn].
    destruct l as [|z l].
    - exists []. apply elem_of_cons in Hs as [->|?]; [done|set_solver].
    - apply elem_of_cons in Hs as [->|Hs].
      + exfalso. specialize (Hall z ltac:(left)). rewrite Hmax in Hall; [done|]. intros ->. apply Hy. left.
      + destruct (IH Hs Hn Hsort) as [mid Hm]. exists (y :: mid). by rewrite Hm. }
  destruct Hl as [mid ->]. by exists mid.
Qed.

(** Sorting the schedulers is a permutation that puts the group scheduler
    first and the snail scheduler last, with the others in the order of
    [lessThan] (no scheduler before one that is less), even though
    [lessThan] is true for the group scheduler against itself. *)
Theorem schedulers_sorted b :
  NoDup (bl_schedulers b) -> bl_group b ∈ bl_schedulers b -> bl_scanSnail b ∈ bl_schedulers b ->
  bl_group b <> bl_scanSnail b ->
  bl_schedulers (sortScanSchedulers b) ≡ₚ bl_schedulers b /\
  exists mid, bl_schedulers (sortScanSchedulers b) = bl_group b :: mid ++ [bl_scanSnail b] /\
    forall mid1 x mid2 y mid3, mid = mid1 ++ x :: mid2 ++ y :: mid3 -> lessThan b y x = false.
Proof.
  intros Hn Hg Hs Hne. simpl. split; [apply std_sort_Permutation|].
  rewrite (std_sort_ext _ (order b)) by (auto; intros; symmetry; by apply order_lessThan).
  pose proof (std_sort_Permutation (order b) (bl_schedulers b)) as Hp.
  pose proof (std_sort_ordered (order b) (bl_schedulers b)) as Ho. unfold ordered in Ho.
  assert (Hns : NoDup (std_sort (order b) (bl_schedulers b))) by (by rewrite Hp).
  destruct (sorted_ends (order b) (std_sort (order b) (bl_schedulers b)) (bl_group b) (bl_scanSnail b)) as [mid Hmid].
  { done. } { by rewrite Hp. } { by rewrite Hp. } { done. } { done. }
  { intros y Hy. rewrite order_lessThan by done. unfold lessThan. by rewrite decide_True. }
  { intros x Hx. rewrite order_lessThan by done. unfold lessThan. repeat case_decide; congruence. }
  exists mid. split; [done|]. intros m1 x m2 y m3 ->. rewrite Hmid in Ho, Hns.
  assert (Hxy : x <> y).
  { intros ->. apply NoDup_cons in Hns as [_ Hns]. apply NoDup_app in Hns as (Hns & _).
    apply NoDup_app in Hns as (_ & _ & Hns). apply NoDup_cons in Hns as [Hns _]. apply Hns. set_solver. }
  rewrite <- order_lessThan by done. apply StronglySorted_inv in Ho as [Ho _].
  assert (Hsub : StronglySorted (fun x y => order b y x = false) (x :: (m2 ++ y :: m3) ++ [bl_scanSnail b])).
  { clear -Ho. rewrite <- app_assoc in Ho. induction m1 as [|z m1 IH]; [exact Ho|]. simpl in Ho.
    apply StronglySorted_inv in Ho as [Ho _]. auto. }
  apply StronglySorted_inv in Hsub as [_ Hall]. rewrite Forall_forall in Hall. apply Hall. set_solver.
Qed.

(** ** Sharing the threads *)

(** Threads that a scheduler uses beyond its reserve. *)
Definition extra (base : SchedulerBase) : Z := Z.max 0 (b_inFlight base - b_maxReserve base).

Section threads.
Context {M : Type} `{HM : MemMan M}.
Implicit Types (w : World M) (st : BlendState M).

Lemma queue_ready_base flex s w s' w' r : queue_ready flex s w = Ret (s', w', r) -> ss_base s' = ss_base s.
Proof. unfold queue_ready. intros H. unbind H. destruct r0 as [[q1 w1] b1]. by injection H as <- _ _. Qed.

Lemma unlock_deferred_base s w s' w' : unlock_deferred s w = Ret (s', w') -> ss_base s' = ss_base s.
Proof.
  unfold unlock_deferred. destruct (_ =? _); [by intros [= <- _]|]. intros H. unbind H.
  destruct r as [m rc]. by injection H as <- _.
Qed.

(** A ready sub-scheduler is below its limit. *)
Lemma sub_ready_limit x w x' w' :
  sub_ready x w = Ret (x', w', true) -> b_inFlight (sub_base x) < maxInFlight (sub_base x).
Proof.
  destruct x as [g|s]; simpl.
  - intros [= _ _ H]. unfold gs_ready in H. destruct (gs_queue g); [done|]. by apply Z.ltb_lt in H.
  - intros H. unbind H. destruct r as [[s1 w1] b1]. injection H as _ _ ->. unfold ss_ready in Hr.
    destruct (Z.leb_spec (maxInFlight (ss_base s)) (b_inFlight (ss_base s))); [by injection Hr|done].
Qed.

Lemma base_of_set_ne k j x w st :
  j <> k -> base_of (bs_blend (bs_set_sub k x w st)) j = base_of (bs_blend st) j.
Proof. intros Hne. unfold base_of. simpl. by rewrite lookup_insert_ne. Qed.

Lemma zsum_ext {A} (f g : A -> Z) l : (forall x, x ∈ l -> f x = g x) -> zsum f l = zsum g l.
Proof.
  induction l as [|x l IH]; simpl; intros H; [done|]. rewrite (H x) by left. rewrite IH; [done|].
  intros y Hy. apply H. by right.
Qed.

(** The ready scheduler is below what the schedulers before it left. *)
Lemma ready_loop_threads l avail st st' k :
  NoDup l -> ready_loop avail l st = Ret (st', Some k) ->
  exists l1 l2, l = l1 ++ k :: l2 /\
    b_inFlight (base_of (bs_blend st) k) <
      avail - zsum (fun j => extra (base_of (bs_blend st) j)) l1 +
      desiredThreadReserve (base_of (bs_blend st) k).
Proof.
  revert avail st. induction l as [|j l IH]; simpl; intros avail st Hn Heq; [done|].
  apply NoDup_cons in Hn as [Hj Hn]. destruct (bl_subs (bs_blend st) !! j) as [x|] eqn:Hx; [|done].
  assert (Hbase : base_of (bs_blend st) j = sub_base x) by (unfold base_of; by rewrite Hx).
  unbind Heq. destruct r as [[x' w'] rdy]. destruct rdy.
  - injection Heq as _ <-. exists [], l. split; [done|]. simpl. rewrite Hbase.
    apply sub_ready_limit in Hr. destruct x as [g|s]; unfold maxInFlight, desiredThreadReserve in *; simpl in *; lia.
  - destruct (IH _ _ Hn Heq) as (l1 & l2 & Hl & Hlt). exists (j :: l1), l2. split; [by rewrite Hl|].
    assert (k <> j) by (intros ->; apply Hj; rewrite Hl; set_solver).
    rewrite base_of_set_ne in Hlt by done. simpl. rewrite Hbase.
    rewrite (zsum_ext _ (fun i => extra (base_of (bs_blend st) i))) in Hlt.
    + unfold extra at 1. lia.
    + intros i Hi. rewrite base_of_set_ne; [done|]. intros ->. apply Hj. rewrite Hl. set_solver.
Qed.

Lemma foldl_zsum {A} (f : A -> Z) l z : foldl (fun acc x => acc + f x) z l = z + zsum f l.
Proof. revert z. induction l as [|x l IH]; simpl; intros z; [lia|]. rewrite IH. lia. Qed.

Lemma zsum_le {A} (f g : A -> Z) l : (forall x, f x <= g x) -> zsum f l <= zsum g l.
Proof. intros H. induction l as [|x l IH]; simpl; [lia|]. specialize (H x). lia. Qed.

Lemma zsum_plus {A} (f g : A -> Z) l : zsum (fun x => f x + g x) l = zsum f l + zsum g l.
Proof. induction l as [|x l IH]; simpl; lia. Qed.

(** Threads are reserved for the slower schedulers: when [_ready] picks
    the scheduler [k], the tasks in flight of [k] and of the schedulers
    before it, plus the threads reserved by the schedulers after it, are
    fewer than [_schedMaxThreads].  So a scheduler never starts a task on a
    thread that a scheduler after it has in reserve (one more than it uses,
    up to its maximum). *)
Theorem reserve_respected st st' k :
  NoDup (bl_schedulers (bs_blend st)) -> bl_readySched (bs_blend st) = None ->
  bl_ready st = Ret (st', true) -> bl_readySched (bs_blend st') = Some k ->
  exists l1 l2, bl_schedulers (bs_blend st) = l1 ++ k :: l2 /\
    zsum (fun j => b_inFlight (base_of (bs_blend st) j)) (l1 ++ [k]) +
    zsum (fun j => desiredThreadReserve (base_of (bs_blend st) j)) l2 < bl_schedMaxThreads (bs_blend st).
Proof.
  intros Hn Hnone Hr Hk. unfold bl_ready in Hr. rewrite Hnone in Hr. unbind Hr. destruct r as [st1 o].
  assert (Hnr : forall l a s1 s2 o1, ready_loop a l s1 = Ret (s2, o1) ->
            bl_readySched (bs_blend s2) = bl_readySched (bs_blend s1)).
  { clear. intros l. induction l as [|j l IH]; simpl; intros a s1 s2 o1 H; [by injection H as <- _|].
    destruct (bl_subs (bs_blend s1) !! j); [|done]. unbind H. destruct r as [[x' w'] []].
    - by injection H as <- _.
    - by apply IH in H. }
  destruct o as [j|].
  2: { injection Hr as <- _. apply Hnr in Hr0. congruence. }
  injection Hr as <-. simpl in Hk. injection Hk as ->.
  destruct (ready_loop_threads _ _ _ _ _ Hn Hr0) as (l1 & l2 & Hl & Hlt). exists l1, l2. split; [done|].
  unfold calcAvailableTheads in Hlt. rewrite foldl_zsum, Hl, !zsum_app in Hlt. simpl in Hlt.
  rewrite zsum_app. simpl.
  assert (Hle : zsum (fun j => b_inFlight (base_of (bs_blend st) j)) l1 <=
            zsum (fun j => desiredThreadReserve (base_of (bs_blend st) j)) l1 +
            zsum (fun j => extra (base_of (bs_blend st) j)) l1).
  { rewrite <- zsum_plus. apply zsum_le. intros j. unfold desiredThreadReserve, extra. lia. }
  lia.
Qed.
End threads.

(** ** A small configuration *)

Module BlendSim.
Definition task : Task := Task_ctor 1 (mkTaskMsg 9 1 0 None (Some 7) [] 5 false).
Definition scan (pr : Z) : SubScheduler :=
  SScan (mkScanScheduler (SchedulerBase_ctor "scan" 4 2 2 pr) ChunkTasksQueue_ctor HandleType.INVALID 0 10 (d_of_Z 60)).

(** The snail scheduler is 1, the group scheduler 2; 3 and 0 scan. *)
Definition subs : gmap nat SubScheduler :=
  <[2%nat := SGroup (GroupScheduler_ctor "group" 4 1 3 9)]>
    (<[1%nat := scan 0]> (<[0%nat := scan 2]> (<[3%nat := scan 3]> ∅))).
Definition b0 : BlendScheduler := BlendScheduler_ctor 6 2 1 [3%nat; 0%nat] subs.

Definition w0 : World MemManNone := mkWorld (mkMemManNone true) ∅.
Definition st0 : BlendState MemManNone := mkBlendState b0 (QueriesAndChunks_ctor 300) w0.
Definition st1 : BlendState MemManNone :=
  match bl_queCmd (CTask task) 0 st0 with Ret st => st | Raise _ => st0 end.
Definition st2 : BlendState MemManNone :=
  match bl_ready st1 with Ret (st, _) => st | Raise _ => st0 end.
End BlendSim.

Lemma schedulers_sorted_witness :
  exists mid, bl_schedulers (sortScanSchedulers BlendSim.b0) = 2%nat :: mid ++ [1%nat].
Proof.
  destruct (schedulers_sorted BlendSim.b0) as (_ & mid & Hm & _).
  - apply (bool_decide_unpack _). by vm_compute.
  - apply (bool_decide_unpack _). by vm_compute.
  - apply (bool_decide_unpack _). by vm_compute.
  - by vm_compute.
  - exists mid. exact Hm.
Defined.

Lemma reserve_respected_witness :
  exists l1 l2, bl_schedulers (bs_blend BlendSim.st1) = l1 ++ 2%nat :: l2 /\
    zsum (fun j => b_inFlight (base_of (bs_blend BlendSim.st1) j)) (l1 ++ [2%nat]) +
    zsum (fun j => desiredThreadReserve (base_of (bs_blend BlendSim.st1) j)) l2 < 6.
Proof.
  apply (reserve_respected BlendSim.st1 BlendSim.st2 2).
  - apply (bool_decide_unpack _). by vm_compute.
  - by vm_compute.
  - by vm_compute.
  - by vm_compute.
Defined.
