(* ===== verification/WorkerInv.v ===== *)
(** * The worker: threads, blend scheduler and statistics together

    Removing tasks from the schedulers, moving user queries and booting slow
    tasks involve all of them: a running task that is removed leaves the
    thread pool, whose queue, the blend scheduler, is told that the task is
    finished. *)

From S2P Require Import Prelude.
From S2P Require Import Double.
From S2P Require Import ScanInfo.
From S2P Require Import MemMan.
From S2P Require Import MemManInv.
From S2P Require Import MemManLaws.
From S2P Require Import Task.
From S2P Require Import SchedulerBase.
From S2P Require Import ChunkTasks.
From S2P Require Import ChunkTasksQueue.
From S2P Require Import ChunkTasksQueueInv.
From S2P Require Import ScanScheduler.
From S2P Require Import GroupScheduler.
From S2P Require Import QueriesAndChunks.
From S2P Require Import EventThread.
From S2P Require Import ThreadPool.
From S2P Require Import BlendScheduler.
From S2P Require Import BlendSchedulerInv.

Implicit Types (t : Task) (tp : ThreadPool) (k : nat).

Section worker.
Context {M : Type} `{HM : MemMan M} `{HL : !MemManLaws M}.
Implicit Types (st : BlendState M) (wk : Worker (M := M)).

(** The schedulers, the schedulers of tasks and the queued tasks stay. *)
Record keeps st st' : Prop := {
  kp_inv : state_inv st';
  kp_queued : all_queued st' ≡ₚ all_queued st;
  kp_dom : dom (bl_subs (bs_blend st')) = dom (bl_subs (bs_blend st));
  kp_scheds : same_scheds (bs_world st) (bs_world st');
}.

Lemma keeps_refl st : state_inv st -> keeps st st.
Proof. by split. Qed.

Lemma keeps_trans st1 st2 st3 : keeps st1 st2 -> keeps st2 st3 -> keeps st1 st3.
Proof.
  intros [] []. split; [done| |congruence|by eapply same_scheds_trans]. by rewrite kp_queued1.
Qed.

Lemma queEnd_keeps st : state_inv st -> keeps st (cq_queEnd (C := Task) st).
Proof. intros [Hb Hm]. split; [split; [by apply blend_inv_ctrl|done]|done|done|done]. Qed.

(** The pool: threads are never destroyed while a command refers to them. *)
Record pool_keeps tp tp' : Prop := {
  pk_cmds : tp_poolEventThread tp' = tp_poolEventThread tp;
  pk_threads thrd : is_Some (tp_threads tp !! thrd) -> is_Some (tp_threads tp' !! thrd);
}.

Lemma pool_keeps_refl tp : pool_keeps tp tp.
Proof. by split. Qed.

Lemma pool_keeps_trans tp1 tp2 tp3 : pool_keeps tp1 tp2 -> pool_keeps tp2 tp3 -> pool_keeps tp1 tp3.
Proof. intros [] []. split; [congruence|auto]. Qed.

Lemma set_thread_keeps thrd e tp : pool_keeps tp (tp_set_thread thrd e tp).
Proof. split; [done|]. intros x Hx. simpl. apply lookup_insert_is_Some'. by right. Qed.

#[local] Hint Resolve keeps_refl keeps_trans queEnd_keeps pool_keeps_refl pool_keeps_trans set_thread_keeps : qserv.

Lemma grow_keeps n tp : pool_keeps tp (Nat.iter n tp_addThread tp).
Proof.
  induction n as [|n IH]; [auto with qserv|]. eapply pool_keeps_trans; [exact IH|]. simpl.
  split; [done|]. intros x Hx. simpl. apply lookup_insert_is_Some'. by right.
Qed.

#[local] Hint Resolve grow_keeps : qserv.

Lemma resize_keeps tp st :
  state_inv st ->
  pool_keeps tp (tp_resize_ (C := Task) tp st).1 /\ keeps st (tp_resize_ (C := Task) tp st).2.
Proof.
  intros Hi. unfold tp_resize_, tp_grow. simpl. split; [auto with qserv|].
  destruct (_ <? _)%nat; auto with qserv.
Qed.

Lemma release_keeps thrd tp st :
  state_inv st ->
  pool_keeps tp (tp_release (C := Task) thrd tp st).1.1 /\ keeps st (tp_release (C := Task) thrd tp st).1.2.
Proof.
  intros Hi. unfold tp_release. case_decide; [|cbn [fst snd]; auto with qserv].
  cbn [fst snd]. set (tp1 := mkThreadPool _ _ _ _ _ _ _).
  destruct (resize_keeps tp1 st Hi) as [Hp Hk]. destruct (tp_resize_ tp1 st). simpl in *. split; [|done].
  eapply pool_keeps_trans; [|exact Hp]. by split.
Qed.

Lemma finishup_keeps thrd tp st :
  state_inv st ->
  pool_keeps tp (tp_finishup (C := Task) thrd tp st).1 /\ keeps st (tp_finishup (C := Task) thrd tp st).2.
Proof.
  intros Hi. unfold tp_finishup. destruct (tp_threads tp !! thrd) as [e|];
    [|cbn [fst snd]; auto with qserv].
  unfold finishup_exchange. set (e' := mkEventThread _ _ _ true). destruct (negb _).
  - destruct (release_keeps thrd (tp_set_thread thrd e' tp) st Hi) as [Hp Hk]. split; [|exact Hk].
    eapply pool_keeps_trans; [|exact Hp]. auto with qserv.
  - cbn [fst snd]. auto with qserv.
Qed.

Lemma leavePool_keeps thrd t now tp st :
  state_inv st -> is_Some (tp_threads tp !! thrd) ->
  exists tp' st' r, leavePool thrd t now tp st = Ret (tp', st', r) /\ pool_keeps tp tp' /\ keeps st st'.
Proof.
  intros Hi [e He]. unfold leavePool. rewrite He. case_decide as Hd.
  2: { eexists _, _, _. auto with qserv. }
  simpl finish_exchange. cbv beta iota.
  assert (Hq : exists st1, (if negb (et_commandFinishCalled (set_loop false e)) then cq_commandFinish t now st else Ret st)
                 = Ret st1 /\ keeps st st1).
  { destruct (negb _); [|exists st; auto with qserv].
    destruct (bl_commandFinish_spec t now st Hi) as (st1 & Heq & ? & ? & _ & ? & ?). exists st1. split; [exact Heq|].
    by split. }
  destruct Hq as (st1 & Hq & Hk). unfold finish_exchange. cbn [fst snd]. rewrite Hq. simpl.
  match goal with |- context [tp_finishup thrd ?tp2 st1] =>
    destruct (finishup_keeps thrd tp2 st1 (kp_inv _ _ Hk)) as [Hp2 Hk2];
    destruct (tp_finishup thrd tp2 st1) as [tp3 st3] end.
  simpl in *. eexists _, _, _. eauto with qserv.
Qed.

(** ** The invariant of the worker *)

Record worker_inv wk : Prop := {
  wi_state : state_inv wk.2;
  wi_scheds t k : v_taskScheduler (vars (bs_world wk.2) t) = Some k -> k ∈ dom (bl_subs (bs_blend wk.2));
  wi_threads c thrd : tp_poolEventThread wk.1 !! c = Some thrd -> is_Some (tp_threads wk.1 !! thrd);
}.

Lemma worker_inv_keeps tp tp' st st' :
  worker_inv (tp, st) -> pool_keeps tp tp' -> keeps st st' -> worker_inv (tp', st').
Proof.
  intros [Hs Hsc Ht] [Hc Hth] [Hi _ Hd Hss]. split; simpl in *; [done| |].
  - intros t k. rewrite Hss, Hd. apply Hsc.
  - intros c thrd. rewrite Hc. intros H. apply Hth. by eapply Ht.
Qed.

(** [removeTask] of a scheduler. *)
Lemma wk_removeTask_spec k t running now wk :
  worker_inv wk -> k ∈ dom (bl_subs (bs_blend wk.2)) ->
  exists wk' inQueue, wk_removeTask k t running now wk = Ret (wk', inQueue) /\ worker_inv wk' /\
    ids <$> all_queued wk.2 ≡ₚ (if inQueue then [ids t] else []) ++ (ids <$> all_queued wk'.2) /\
    dom (bl_subs (bs_blend wk'.2)) = dom (bl_subs (bs_blend wk.2)) /\
    same_scheds (bs_world wk.2) (bs_world wk'.2).
Proof.
  destruct wk as [tp st]. intros Hw [x Hx]%elem_of_dom. simpl in Hx. unfold wk_removeTask. rewrite Hx.
  pose proof Hw as [[Hb Hm] Hsc Hth]. simpl in Hb, Hm, Hsc, Hth.
  destruct (sub_removeTask t running x (bs_world st)) as [[x' inQueue] leave] eqn:E.
  pose proof (bi_subs _ Hb _ _ Hx) as Hi. simpl in Hi.
  destruct (sub_removeTask_spec _ _ _ _ _ _ _ Hi E) as (Hi' & Hids & Hkind & Hrdy & Hleave).
  set (st1 := bs_set_sub k x' (bs_world st) st).
  assert (Hi1 : state_inv st1) by (split; [by apply (set_sub_inv k x)|done]).
  assert (Hd1 : dom (bl_subs (bs_blend st1)) = dom (bl_subs (bs_blend st))).
  { simpl. rewrite dom_insert_L. apply elem_of_dom_2 in Hx. set_solver. }
  assert (Hq1 : ids <$> all_queued st ≡ₚ (if inQueue then [ids t] else []) ++ (ids <$> all_queued st1)).
  { unfold all_queued. destruct (set_sub_queued k x x' _ Hx) as [H1 H2]. simpl.
    rewrite H1, H2, !fmap_app, Hids, app_assoc. done. }
  assert (Hw1 : worker_inv (tp, st1)).
  { split; simpl; [done| |done]. intros t' j Hj. rewrite dom_insert_L. apply elem_of_union. right. by eapply Hsc. }
  destruct leave.
  2: { eexists _, _. split; [done|]. split; [exact Hw1|]. split; [exact Hq1|]. split; [exact Hd1|done]. }
  destruct (Hleave eq_refl) as [_ ->]. unfold getAndNullPoolEventThread.
  set (tp1 := mkThreadPool _ _ _ _ _ _ _).
  assert (Hw2 : worker_inv (tp1, st1)).
  { destruct Hw1 as [? ? Ht1]. split; simpl in *; [done|done|]. intros c thrd [_ H]%lookup_delete_Some. by eapply Ht1. }
  destruct (tp_poolEventThread tp !! t_ptr t) as [thrd|] eqn:Hthrd.
  - destruct (leavePool_keeps thrd t now tp1 st1 Hi1 (Hth _ _ Hthrd)) as (tp2 & st2 & r & -> & Hp & Hk). simpl.
    eexists _, _. split; [done|]. split; [by eapply worker_inv_keeps|]. simpl.
    destruct Hk as [? Hkq Hkd Hks]. split; [by rewrite Hkq|]. split; [by rewrite Hkd|exact Hks].
  - eexists _, _. split; [done|]. split; [exact Hw2|]. split; [exact Hq1|]. split; [exact Hd1|done].
Qed.

(** ** Moving the tasks of a query *)

(** What the removal of the tasks [rem] from [wk] does. *)
Record removes wk wk' (rem : list Task) : Prop := {
  rm_inv : worker_inv wk';
  rm_queued : ids <$> all_queued wk.2 ≡ₚ (ids <$> rem) ++ (ids <$> all_queued wk'.2);
  rm_dom : dom (bl_subs (bs_blend wk'.2)) = dom (bl_subs (bs_blend wk.2));
  rm_scheds : same_scheds (bs_world wk.2) (bs_world wk'.2);
}.

Lemma removes_trans wk1 wk2 wk3 l1 l2 : removes wk1 wk2 l1 -> removes wk2 wk3 l2 -> removes wk1 wk3 (l1 ++ l2).
Proof.
  intros [] []. split; [done| |congruence|by eapply same_scheds_trans].
  by rewrite rm_queued0, rm_queued1, fmap_app, app_assoc.
Qed.

Lemma on_sched_same sched t wk wk' :
  same_scheds (bs_world wk.2) (bs_world wk'.2) -> on_sched sched t wk' = on_sched sched t wk.
Proof. intros H. unfold on_sched. simpl. by rewrite H. Qed.

Lemma moveTasks_spec sched running now l wk :
  worker_inv wk ->
  exists wk' rem notRem, moveTasks sched running now l wk = Ret (wk', rem, notRem) /\ removes wk wk' rem /\
    (forall t, t ∈ rem \/ t ∈ notRem -> t ∈ l /\ is_Some (on_sched sched t wk)).
Proof.
  revert wk. induction l as [|t l IH]; simpl; intros wk Hw.
  { eexists _, _, _. split; [done|]. split; [by split|]. set_solver. }
  destruct (on_sched sched t wk) as [k|] eqn:Hon.
  2: { destruct (IH wk Hw) as (wk' & rem & nr & Heq & Hrm & Hin). exists wk', rem, nr. split; [exact Heq|]. split; [done|].
       intros t' Ht'. destruct (Hin t' Ht') as [? ?]. split; [by right|done]. }
  assert (Hk : k ∈ dom (bl_subs (bs_blend wk.2))).
  { apply (wi_scheds _ Hw t). unfold on_sched in Hon. simpl in Hon.
    destruct (v_taskScheduler _) as [ts|]; [|done]. destruct sched as [y|]; [|congruence].
    destruct (ts =? y)%nat; congruence. }
  destruct (wk_removeTask_spec k t running now wk Hw Hk) as (wk1 & inQ & -> & Hw1 & Hq1 & Hd1 & Hs1). simpl.
  destruct (IH wk1 Hw1) as (wk2 & rem & nr & -> & Hrm & Hin). simpl.
  assert (Hrm1 : removes wk wk1 (if inQ then [t] else [])) by (destruct inQ; by split).
  pose proof (removes_trans _ _ _ _ _ Hrm1 Hrm) as Hrm2.
  assert (Hin' : forall t', t' ∈ rem \/ t' ∈ nr -> t' ∈ t :: l /\ is_Some (on_sched sched t' wk)).
  { intros t' Ht'. destruct (Hin t' Ht') as [? Ho]. rewrite (on_sched_same _ _ wk) in Ho by done. split; [by right|done]. }
  destruct inQ; eexists _, _, _; (split; [done|]); (split; [exact Hrm2|]); intros t'.
  - intros [[->|?]%elem_of_cons|?]; [split; [left|by eexists]|auto|auto].
  - intros [?|[->|?]%elem_of_cons]; [auto|split; [left|by eexists]|auto].
Qed.

(** A task of the statistics of query [q]. *)
Definition of_query (q : Z) wk t : Prop :=
  exists a s j, qc_getStats q (bs_queries wk.2) = Some (a, s) /\ qs_taskMap s !! j = Some t.

Lemma removeQueryFrom_spec q source now wk :
  worker_inv wk ->
  exists wk' rem, qc_removeQueryFrom q source now wk = Ret (wk', rem) /\ removes wk wk' rem /\
    (forall t, t ∈ rem -> of_query q wk t /\ is_Some (on_sched source t wk)).
Proof.
  intros Hw. unfold qc_removeQueryFrom. simpl.
  destruct (qc_getStats q (bs_queries wk.2)) as [[a s]|] eqn:Hg.
  2: { eexists _, _. split; [done|]. split; [by split|]. set_solver. }
  destruct (moveTasks_spec source false now (in_order (qs_taskMap s)).*2 wk Hw) as (wk1 & rem1 & nr1 & -> & Hrm1 & Hin1).
  simpl. destruct (moveTasks_spec source true now nr1 wk1 (rm_inv _ _ _ Hrm1)) as (wk2 & rem2 & nr2 & -> & Hrm2 & Hin2).
  simpl. eexists _, _. split; [done|]. split; [by eapply removes_trans|].
  assert (Hl : forall t, t ∈ (in_order (qs_taskMap s)).*2 -> of_query q wk t).
  { intros t ([j t'] & -> & Hj)%list_elem_of_fmap. apply elem_of_in_order in Hj. by exists a, s, j. }
  intros t [Ht|Ht]%elem_of_app.
  - destruct (Hin1 t (or_introl Ht)) as [? ?]. auto.
  - destruct (Hin2 t (or_introl Ht)) as [Hn _]. destruct (Hin1 t (or_intror Hn)) as [? ?]. auto.
Qed.

Lemma move_task_spec d wk t :
  worker_inv wk -> d ∈ dom (bl_subs (bs_blend wk.2)) ->
  exists wk', move_task d wk t = Ret wk' /\ worker_inv wk' /\ all_queued wk'.2 ≡ₚ t :: all_queued wk.2 /\
    dom (bl_subs (bs_blend wk'.2)) = dom (bl_subs (bs_blend wk.2)) /\
    v_taskScheduler (vars (bs_world wk'.2) t) = Some d /\
    (forall t', t_ptr t' <> t_ptr t ->
       v_taskScheduler (vars (bs_world wk'.2) t') = v_taskScheduler (vars (bs_world wk.2) t')).
Proof.
  destruct wk as [tp st]. intros Hw [x Hx]%elem_of_dom. simpl in Hx. unfold move_task. rewrite Hx.
  pose proof Hw as [[Hb Hm] Hsc Hth]. simpl in Hb, Hm, Hsc, Hth. pose proof (bi_subs _ Hb _ _ Hx) as Hi. simpl in Hi.
  set (w := setTaskScheduler _ _ _).
  destruct (sub_queCmd_spec t x w Hi) as (x' & w' & -> & Hi' & Ht & Hm' & Hkind & Hrdy & Hv & Hoth). simpl.
  assert (Hvt : v_taskScheduler (vars w' t) = Some d).
  { rewrite Hv. unfold w, setTaskScheduler. by rewrite vars_set_eq. }
  assert (Hvo : forall t', t_ptr t' <> t_ptr t -> v_taskScheduler (vars w' t') = v_taskScheduler (vars (bs_world st) t')).
  { intros t' Hne. rewrite Hoth by done. unfold w, setTaskScheduler. by rewrite vars_set_ne. }
  assert (Hd : d ∈ dom (bl_subs (bs_blend st))) by (by apply elem_of_dom_2 in Hx).
  eexists. split; [done|]. simpl. split; [|split; [|split; [|done]]].
  - split; simpl; [split; [by apply (set_sub_inv d x)|simpl; by rewrite Hm']| |done].
    intros t' k Hk. rewrite dom_insert_L. destruct (decide (t_ptr t' = t_ptr t)) as [He|He].
    + rewrite (vars_alias _ t' t He) in Hk. assert (k = d) as -> by congruence. set_solver.
    + rewrite Hvo in Hk by done. apply Hsc in Hk. set_solver.
  - unfold all_queued. simpl. destruct (set_sub_queued d x x' _ Hx) as [-> ->]. by rewrite Ht.
  - rewrite dom_insert_L. set_solver.
Qed.

Lemma move_tasks_spec d l wk :
  worker_inv wk -> d ∈ dom (bl_subs (bs_blend wk.2)) ->
  exists wk', foldM (move_task d) wk l = Ret wk' /\ worker_inv wk' /\ all_queued wk'.2 ≡ₚ l ++ all_queued wk.2 /\
    (forall t, t ∈ l -> v_taskScheduler (vars (bs_world wk'.2) t) = Some d) /\
    (forall t, t_ptr t ∉ (t_ptr <$> l) ->
       v_taskScheduler (vars (bs_world wk'.2) t) = v_taskScheduler (vars (bs_world wk.2) t)).
Proof.
  revert wk. induction l as [|t l IH]; simpl; intros wk Hw Hd.
  { eexists. split; [done|]. split; [done|]. split; [done|]. split; [set_solver|done]. }
  destruct (move_task_spec d wk t Hw Hd) as (wk1 & -> & Hw1 & Hq1 & Hd1 & Ht1 & Ho1). simpl.
  destruct (IH wk1 Hw1) as (wk2 & -> & Hw2 & Hq2 & Ht2 & Ho2); [by rewrite Hd1|].
  eexists. split; [done|]. split; [done|]. split; [by rewrite Hq2, Hq1, Permutation_middle|]. split.
  - intros t' [->|Ht']%elem_of_cons; [|by apply Ht2].
    destruct (decide (t_ptr t ∈ (t_ptr <$> l))) as [(t' & He & Hin)%list_elem_of_fmap|Hn].
    + rewrite (vars_alias _ t t' He). by apply Ht2.
    + by rewrite Ho2.
  - intros t' [Hne Hnin]%not_elem_of_cons. rewrite Ho2 by done. by apply Ho1.
Qed.

(** ** Booting slow tasks *)

Lemma foldM_total {S A} (P : S -> Prop) (f : S -> A -> outcome S) l :
  (forall s a, P s -> exists s', f s a = Ret s' /\ P s') -> forall s, P s -> exists s', foldM f s l = Ret s' /\ P s'.
Proof.
  intros Hf. induction l as [|a l IH]; simpl; intros s Hs; [eauto|].
  destruct (Hf s a Hs) as (s1 & -> & Hs1). simpl. by apply IH.
Qed.

Lemma bootTask_spec uq t k now wk :
  worker_inv wk -> k ∈ dom (bl_subs (bs_blend wk.2)) ->
  exists wk', qc_bootTask uq t k now wk = Ret wk' /\ worker_inv wk'.
Proof.
  intros Hw Hk. unfold qc_bootTask. simpl.
  destruct (wk_removeTask_spec k t true now wk Hw Hk) as (wk1 & inQ & -> & Hw1 & _). simpl. eexists. split; [done|].
  destruct (qc_objs _ !! uq) as [s|]; [|done]. destruct Hw1 as [[? ?] ? ?]. by split.
Qed.

Lemma examine_task_spec sums uq now wk t :
  worker_inv wk -> exists wk', examine_task sums uq now wk t = Ret wk' /\ worker_inv wk'.
Proof.
  intros Hw. unfold examine_task. destruct (scan_sched t wk) as [[k m]|] eqn:E; [|eauto].
  assert (Hk : k ∈ dom (bl_subs (bs_blend wk.2))).
  { apply (wi_scheds _ Hw t). unfold scan_sched in E. simpl in E.
    destruct (v_taskScheduler _) as [j|]; [|done]. destruct (wk_maxTimeMinutes j wk); congruence. }
  destruct (si_infoTables _); [eauto|]. destruct (find_percent _ _ _); [|eauto].
  destruct (_ && _); [|eauto]. by apply bootTask_spec.
Qed.

Lemma examineAll_spec now wk : worker_inv wk -> exists wk', qc_examineAll now wk = Ret wk' /\ worker_inv wk'.
Proof.
  intros Hw. unfold qc_examineAll. apply (foldM_total worker_inv); [|done]. intros wk1 uq Hw1.
  unfold examine_query. destruct (qc_objs _ !! uq); [|eauto].
  apply (foldM_total worker_inv); [|done]. intros. by apply examine_task_spec.
Qed.
End worker.
