(* ===== verification/WorkerThms.v ===== *)
(** * Theorems about the worker

    The blend scheduler with its sub-schedulers, the statistics of the queries
    and the thread pool as one transition system. *)

From S2P Require Import Prelude.
From S2P Require Import Double.
From S2P Require Import ScanInfo.
From S2P Require Import Memory.
From S2P Require Import MemMan.
From S2P Require Import MemManInv.
From S2P Require Import MemManLaws.
From S2P Require Import Task.
From S2P Require Import SchedulerBase.
From S2P Require Import ChunkTasks.
From S2P Require Import ChunkTasksQueue.
From S2P Require Import ChunkTasksQueueInv.
From S2P Require Import ChunkTasksQueueThms.
From S2P Require Import ScanScheduler.
From S2P Require Import GroupScheduler.
From S2P Require Import QueriesAndChunks.
From S2P Require Import EventThread.
From S2P Require Import ThreadPool.
From S2P Require Import BlendScheduler.
From S2P Require Import BlendSchedulerInv.
From S2P Require Import WorkerInv.

Implicit Types (t : Task) (tp : ThreadPool) (k : nat).

Section system.
Context {M : Type} `{HM : MemMan M} `{HL : !MemManLaws M}.
Implicit Types (st : BlendState M) (wk : Worker (M := M)).

(** The methods of the worker; the memory manager can number another handle
    when the schedulers ask for resources.  [wt_pool] and [wt_env] are what
    threads, other statistics calls and running tasks do. *)
Inductive worker_step : Worker -> Worker -> Prop :=
| wt_queCmd cmd now tp st st' : bl_queCmd cmd now st = Ret st' -> worker_step (tp, st) (tp, st')
| wt_start t now tp st : worker_step (tp, st) (tp, bl_commandStart t now st)
| wt_finish t now tp st st' : bl_commandFinish t now st = Ret st' -> worker_step (tp, st) (tp, st')
| wt_ready tp st st' rdy :
    mm_room (w_mm (bs_world st)) -> bl_ready st = Ret (st', rdy) -> worker_step (tp, st) (tp, st')
| wt_getCmd tp st st' o :
    mm_room (w_mm (bs_world st)) -> bl_getCmd st = Ret (st', o) -> worker_step (tp, st) (tp, st')
| wt_special thrd cmd tp st :
    is_Some (tp_threads tp !! thrd) -> worker_step (tp, st) (specialActions thrd cmd tp, st)
| wt_resize n tp st : worker_step (tp, st) (tp_resize (C := Task) n tp st)
| wt_finishup thrd tp st : worker_step (tp, st) (tp_finishup (C := Task) thrd tp st)
| wt_move q source destination now wk wk' n :
    moveUserQuery q source destination now wk = Ret (wk', n) -> worker_step wk wk'
| wt_examine now wk wk' : qc_examineAll now wk = Ret wk' -> worker_step wk wk'
| wt_pool tp tp' st : pool_keeps tp tp' -> worker_step (tp, st) (tp', st)
| wt_env qc w' tp st :
    mm_inv (w_mm w') -> same_scheds (bs_world st) w' ->
    worker_step (tp, st) (tp, mkBlendState (bs_blend st) qc w').

(** A sub-scheduler without tasks. *)
Definition idle (x : SubScheduler) : Prop :=
  match x with
  | SGroup g => gs_queue g = [] /\ 1 <= gs_maxGroupSize g
  | SScan s => ss_taskQueue s = ChunkTasksQueue_ctor
  end.

(** The objects given to the constructor. *)
Record good_config (group snail : nat) (scans : list nat) (subs : gmap nat SubScheduler) : Prop := {
  gc_group : exists g, subs !! group = Some (SGroup g);
  gc_snail : exists s, subs !! snail = Some (SScan s);
  gc_nodup : NoDup (group :: scans ++ [snail]);
  gc_dom k : k ∈ group :: scans ++ [snail] <-> is_Some (subs !! k);
  gc_idle : map_Forall (fun _ x => idle x) subs;
}.

Inductive worker_reach : Worker -> Prop :=
| wr_init maxThreads group snail scans subs tp qc (w : World M) :
    good_config group snail scans subs -> mm_inv (w_mm w) ->
    (forall t, v_taskScheduler (vars w t) = None) -> tp_poolEventThread tp = ∅ ->
    worker_reach (tp, mkBlendState (BlendScheduler_ctor maxThreads group snail scans subs) qc w)
| wr_step wk wk' : worker_reach wk -> worker_step wk wk' -> worker_reach wk'.

(** *** The constructor *)

Lemma set_positions_lookup pos l subs k :
  (set_positions pos l subs !! k = None /\ subs !! k = None) \/
  exists x p, subs !! k = Some x /\
    (set_positions pos l subs !! k = Some x \/
     set_positions pos l subs !! k = Some (sub_set_base p x)).
Proof.
  revert pos subs. induction l as [|j l IH]; simpl; intros pos subs.
  - destruct (subs !! k) as [x|]; [right; exists x, (sub_base x); auto|by left].
  - destruct (subs !! j) as [y|] eqn:Hj; [|apply IH].
    destruct (IH (pos + 1) (<[j := sub_set_base (setDefaultPosition pos (sub_base y)) y]> subs))
      as [[H1 H2]|(x & p & H1 & H2)].
    + left. split; [done|]. apply lookup_insert_None in H2. naive_solver.
    + right. destruct (decide (j = k)) as [<-|Hne].
      * rewrite lookup_insert_eq in H1. injection H1 as <-. exists y. destruct H2 as [H2|H2].
        -- exists (setDefaultPosition pos (sub_base y)). split; [done|]. by right.
        -- exists p. split; [done|]. right. rewrite H2. by destruct y.
      * rewrite lookup_insert_ne in H1 by done. exists x, p. auto.
Qed.

Lemma idle_inv x : idle x -> sub_inv x /\ forall p, sub_inv (sub_set_base p x).
Proof.
  destruct x as [g|s]; simpl.
  - intros [Hq Hm].
    assert (H : forall p, group_inv (mkGroupScheduler p (gs_queue g) (gs_maxGroupSize g))).
    { intros p. split; simpl; rewrite ?Hq; [constructor|done|done]. }
    split; [|exact H]. specialize (H (gs_base g)). by destruct g.
  - intros ->. split; intros; apply queue_inv_ctor.
Qed.

Lemma ctor_inv maxThreads group snail scans subs :
  good_config group snail scans subs -> blend_inv (BlendScheduler_ctor maxThreads group snail scans subs).
Proof.
  intros [[g Hg] [s Hs] Hn Hd Hi]. apply blend_inv_sort. set (l := group :: scans ++ [snail]) in *.
  assert (Hlk : forall k x, subs !! k = Some x -> exists x', set_positions 0 l subs !! k = Some x' /\
            sub_inv x' /\ same_kind x x').
  { intros k x Hx. destruct (idle_inv x (Hi _ _ Hx)) as [Hx1 Hx2].
    destruct (set_positions_lookup 0 l subs k) as [[_ ?]|(y & p & Hy & H)]; [congruence|].
    assert (y = x) as -> by congruence. destruct H as [->| ->]; eexists; (split; [done|]); (split; [auto|]); [done|].
    by apply sub_set_base_same. }
  split; cbn [bl_group bl_scanSnail bl_subs bl_schedulers bl_readySched].
  - destruct (Hlk _ _ Hg) as ([g'|s'] & -> & _ & Hk); [by eexists|done].
  - destruct (Hlk _ _ Hs) as ([g'|s'] & -> & _ & Hk); [done|by eexists].
  - intros k x Hx. destruct (set_positions_lookup 0 l subs k) as [[? _]|(y & p & Hy & _)]; [congruence|].
    destruct (Hlk _ _ Hy) as (x' & Hx' & ? & _). congruence.
  - done.
  - intros k. rewrite Hd. split.
    + intros [x Hx]. destruct (Hlk _ _ Hx) as (x' & -> & _). eauto.
    + intros [x Hx]. destruct (set_positions_lookup 0 l subs k) as [[? _]|(y & p & -> & _)]; [congruence|eauto].
  - done.
Qed.

(** *** Every step keeps the invariant *)

Lemma worker_inv_same tp st st' :
  worker_inv (tp, st) -> state_inv st' -> dom (bl_subs (bs_blend st')) = dom (bl_subs (bs_blend st)) ->
  same_scheds (bs_world st) (bs_world st') -> worker_inv (tp, st').
Proof. intros [Hs Hsc Ht] Hi Hd Hss. split; simpl in *; [done| |done]. intros t k. rewrite Hss, Hd. apply Hsc. Qed.

Lemma dom_subs st : state_inv st -> dom (bl_subs (bs_blend st)) = list_to_set (bl_schedulers (bs_blend st)).
Proof. intros [[_ _ _ _ Hd _] _]. apply set_eq. intros k. by rewrite elem_of_dom, elem_of_list_to_set, Hd. Qed.

Lemma dom_perm st st' :
  state_inv st -> state_inv st' -> bl_schedulers (bs_blend st') ≡ₚ bl_schedulers (bs_blend st) ->
  dom (bl_subs (bs_blend st')) = dom (bl_subs (bs_blend st)).
Proof. intros Hi Hi' Hp. rewrite !dom_subs by done. apply set_eq. intros k. by rewrite !elem_of_list_to_set, Hp. Qed.

Lemma queCmd_worker cmd now tp st st' :
  worker_inv (tp, st) -> bl_queCmd cmd now st = Ret st' -> worker_inv (tp, st').
Proof.
  intros Hw Heq. pose proof Hw as [Hi Hsc Hth]. destruct cmd as [t|c].
  - destruct (bl_queCmd_spec t now st Hi) as (st1 & x & x' & E & Hi1 & Hx & Hb & _ & _ & Ht & Ho).
    rewrite Heq in E. injection E as <-. split; [done| |done]. simpl in *. rewrite Hb. simpl. rewrite dom_insert_L.
    intros t' k Hk. destruct (decide (t_ptr t' = t_ptr t)) as [He|He].
    + rewrite (vars_alias _ t' t He), Ht in Hk. injection Hk as <-. set_solver.
    + rewrite Ho in Hk by done. apply Hsc in Hk. set_solver.
  - injection Heq as <-. destruct Hi as [Hb Hm]. split; [split; [by apply blend_inv_ctrl|done]|done|done].
Qed.

Lemma move_worker q source destination now wk :
  worker_inv wk -> (forall d, destination = Some d -> d ∈ bl_schedulers (bs_blend wk.2)) ->
  exists wk' moved, moveUserQuery q source destination now wk = Ret (wk', Z.of_nat (length moved)) /\ worker_inv wk' /\
    ids <$> all_queued wk'.2 ≡ₚ ids <$> all_queued wk.2 /\
    (forall t, t ∈ moved -> of_query q wk t /\ is_Some (on_sched source t wk) /\
       v_taskScheduler (vars (bs_world wk'.2) t) = destination) /\
    (forall t, t_ptr t ∉ (t_ptr <$> moved) ->
       v_taskScheduler (vars (bs_world wk'.2) t) = v_taskScheduler (vars (bs_world wk.2) t)).
Proof.
  intros Hw Hd. unfold moveUserQuery. destruct destination as [d|].
  2: { exists wk, []. split; [done|]. split; [done|]. split; [done|]. split; [set_solver|done]. }
  destruct (removeQueryFrom_spec q source now wk Hw) as (wk1 & rem & -> & [Hw1 Hq1 Hd1 Hs1] & Hrem). simpl.
  destruct (move_tasks_spec d rem wk1 Hw1) as (wk2 & -> & Hw2 & Hq2 & Ht2 & Ho2).
  { rewrite Hd1, dom_subs, elem_of_list_to_set by apply Hw. by apply Hd. }
  simpl. eexists _, rem. split; [done|]. split; [done|]. split; [by rewrite Hq2, fmap_app, <- Hq1|]. split.
  - intros t Ht. destruct (Hrem t Ht) as [? ?]. split; [done|]. split; [done|]. by apply Ht2.
  - intros t Ht. rewrite Ho2 by done. apply Hs1.
Qed.

Lemma move_unknown q source d now wk wk' n :
  worker_inv wk -> moveUserQuery q source (Some d) now wk = Ret (wk', n) -> worker_inv wk'.
Proof.
  intros Hw. unfold moveUserQuery.
  destruct (removeQueryFrom_spec q source now wk Hw) as (wk1 & rem & -> & [Hw1 _ _ _] & _). simpl.
  intros Heq. unbind Heq. injection Heq as <- _. eapply foldM_ind; [|exact Hw1|exact Hr].
  intros w1 t w2 _ Hw3 Hm. destruct (decide (d ∈ dom (bl_subs (bs_blend w1.2)))) as [Hd|Hd].
  - destruct (move_task_spec d w1 t Hw3 Hd) as (w4 & E & ? & _). congruence.
  - destruct w1 as [tp1 st1]. unfold move_task in Hm. simpl in Hd. apply not_elem_of_dom in Hd. by rewrite Hd in Hm.
Qed.

Lemma worker_step_inv wk wk' : worker_step wk wk' -> worker_inv wk -> worker_inv wk'.
Proof.
  intros Hs Hw. destruct Hs.
  - by eapply queCmd_worker.
  - pose proof Hw as [[Hb Hm] _ _]. unfold bl_commandStart, qc_startedTask, started.
    apply (worker_inv_same tp st); [done|by split|done|]. by apply (same_scheds_set t).
  - destruct (bl_commandFinish_spec t now st (wi_state _ Hw)) as (st1 & E & Hi & _ & _ & Hd & Hss).
    rewrite H in E. injection E as <-. by apply (worker_inv_same tp st).
  - destruct (bl_ready_spec st st' rdy (wi_state _ Hw) H H0) as (Hi & _ & _ & _ & _ & _ & Hl & Hss & _).
    apply (worker_inv_same tp st); [done|done| |done]. apply dom_perm; [apply Hw|done|by rewrite Hl].
  - pose proof H0 as Hg. unfold bl_getCmd in Hg. unbind Hg. destruct r as [st1 rdy].
    destruct (bl_getCmd_spec st st1 rdy (wi_state _ Hw) H Hr) as (st2 & o2 & E & Hi & _ & Hp & Hss).
    rewrite H0 in E. injection E as <- <-. apply (worker_inv_same tp st); [done|done| |done].
    apply dom_perm; [apply Hw|done|done].
  - destruct Hw as [Hi Hsc Hth]. split; [done|done|]. simpl. intros c th Hc.
    destruct (decide (cmd = c)) as [<-|Hne].
    + rewrite lookup_insert_eq in Hc. by injection Hc as <-.
    + rewrite lookup_insert_ne in Hc by done. by eapply Hth.
  - unfold tp_resize. set (tp1 := mkThreadPool _ _ _ _ _ _ _).
    destruct (resize_keeps tp1 st (wi_state _ Hw)) as [Hp Hk]. destruct (tp_resize_ tp1 st). simpl in *.
    eapply worker_inv_keeps; [|exact Hp|exact Hk]. by destruct Hw.
  - destruct (finishup_keeps thrd tp st (wi_state _ Hw)) as [Hp Hk]. destruct (tp_finishup thrd tp st). simpl in *.
    by eapply worker_inv_keeps.
  - destruct destination as [d|]; [by eapply move_unknown|]. by injection H as <- _.
  - destruct (examineAll_spec now wk Hw) as (w2 & E & ?). congruence.
  - eapply worker_inv_keeps; [exact Hw|done|apply keeps_refl, Hw].
  - destruct Hw as [[Hb Hm] Hsc Hth]. split; simpl in *; [by split| |done]. intros t k. rewrite H0. apply Hsc.
Qed.

Lemma worker_reach_inv wk : worker_reach wk -> worker_inv wk.
Proof.
  induction 1 as [mt g sn scs subs tp qc w Hc Hm Ht Hp|wk wk' _ IH Hs]; [|by eapply worker_step_inv].
  split; simpl; [split; [by apply ctor_inv|done]| |].
  - intros t k. by rewrite Ht.
  - intros c th. by rewrite Hp.
Qed.

(** *** [_ready] returns *)

Lemma queue_ready_total flex s (w : World M) :
  world_ok w -> queue_inv (ss_taskQueue s) ->
  queue_ready flex s w = Raise BadException \/ exists r, queue_ready flex s w = Ret r.
Proof.
  intros Hw Hq. unfold queue_ready. destruct (q_readyChunk (ss_taskQueue s)) as [k|] eqn:Hk.
  - right. unfold q_ready. rewrite Hk. simpl. eauto.
  - destruct (q_ready_spec flex (Some (ss_base s)) _ w Hw Hq Hk) as [->|(q' & w' & b & -> & _)]; [by left|right]. simpl. eauto.
Qed.

Lemma ss_ready_total s (w : World M) :
  world_ok w -> queue_inv (ss_taskQueue s) -> ss_ready s w = Raise BadException \/ exists r, ss_ready s w = Ret r.
Proof.
  intros Hw Hq. unfold ss_ready. destruct (_ <=? _); [eauto|].
  destruct (queue_ready_total (b_inFlight (ss_base s) <? 1) s w Hw Hq) as [E|([[s1 w1] b1] & E)]; rewrite E; simpl; [by left|].
  destruct (queue_ready_tasks _ _ _ _ _ _ Hw Hq E) as (Hq1 & _ & _ & Hm1 & _ & _ & _ & Hb).
  destruct (_ =? _); [eauto|]. destruct (unlock_deferred_total s1 w1 Hm1) as (w2 & -> & Hm2 & Hroom & _). simpl.
  destruct b1; [eauto|]. apply queue_ready_total; [|done]. split; [done|]. apply Hroom, Hb.
Qed.

Lemma ready_loop_total avail l st :
  blend_inv (bs_blend st) -> world_ok (bs_world st) -> bl_readySched (bs_blend st) = None ->
  (forall k, k ∈ l -> is_Some (bl_subs (bs_blend st) !! k)) ->
  ready_loop avail l st = Raise BadException \/ exists r, ready_loop avail l st = Ret r.
Proof.
  revert avail st. induction l as [|k l IH]; simpl; intros avail st Hb Hw Hrn Hl; [eauto|].
  destruct (Hl k ltac:(left)) as [x Hk]. rewrite Hk. pose proof (bi_subs _ Hb _ _ Hk) as Hx. simpl in Hx.
  set (base := mkSchedulerBase _ _ _ _ _ _ _ _ _ _ _ _).
  destruct (sub_set_base_same base x Hx) as (Hx1 & _ & Hk1 & _).
  assert (Ht : sub_ready (sub_set_base base x) (bs_world st) = Raise BadException \/
               exists r, sub_ready (sub_set_base base x) (bs_world st) = Ret r).
  { destruct x as [g|s]; simpl; [eauto|].
    destruct (ss_ready_total (ss_set_base base s) (bs_world st) Hw Hx1) as [->|([[s1 w1] b1] & ->)]; [by left|right].
    simpl. eauto. }
  destruct Ht as [->|([[x' w'] rdy] & E)]; [by left|]. rewrite E. simpl. destruct rdy; [eauto|].
  destruct (sub_ready_tasks _ _ _ _ _ Hw Hx1 E) as (Hx' & _ & _ & _ & Hk' & _ & Hrdy).
  apply IH; [|done|done|].
  - apply (set_sub_inv k x); [done|done|done|by etransitivity|]. by rewrite Hrn.
  - intros j Hj. simpl. apply lookup_insert_is_Some'. right. apply Hl. by right.
Qed.

Lemma bl_ready_total st :
  state_inv st -> mm_room (w_mm (bs_world st)) ->
  bl_ready st = Raise BadException \/ exists st' rdy, bl_ready st = Ret (st', rdy).
Proof.
  intros [Hb Hm] Hroom. unfold bl_ready. destruct (bl_readySched (bs_blend st)) eqn:Hrn; [eauto|].
  destruct (ready_loop_total (calcAvailableTheads (bs_blend st)) (bl_schedulers (bs_blend st)) st Hb (conj Hm Hroom) Hrn)
    as [->|([st1 o] & ->)]; [|by left|].
  - intros k. apply (bi_dom _ Hb).
  - right. simpl. destruct o; eauto.
Qed.

(** *** The theorems *)

(** The scheduler on which [queCmd] puts a task. *)
Definition routed t st (s : nat) : Prop :=
  let b := bs_blend st in
  let matches := rating_match b (si_scanRating (t_scanInfo t)) in
  if decide (si_infoTables (t_scanInfo t) = [] \/ t_scanInteractive t = true) then s = bl_group b
  else if query_booted t st then s = bl_scanSnail b
  else (exists l1 l2, bl_schedulers b = l1 ++ s :: l2 /\ matches s = true /\ Forall (fun j => matches j = false) l1) \/
       (Forall (fun j => matches j = false) (bl_schedulers b) /\ s = bl_scanSnail b).

Lemma find_first {A} (f : A -> bool) l :
  match find f l with
  | Some x => exists l1 l2, l = l1 ++ x :: l2 /\ f x = true /\ Forall (fun j => f j = false) l1
  | None => Forall (fun j => f j = false) l
  end.
Proof.
  induction l as [|y l IH]; simpl; [done|]. destruct (f y) eqn:E.
  - exists [], l. by split.
  - destruct (find f l) as [x|].
    + destruct IH as (l1 & l2 & -> & Hx & Hl1). exists (y :: l1), l2. split; [done|]. split; [done|]. by constructor.
    + by constructor.
Qed.

Lemma choose_routed t st : routed t st (choose t st).
Proof.
  unfold routed, choose, no_scan. destruct (si_infoTables (t_scanInfo t)) as [|i l].
  - by rewrite decide_True by auto.
  - destruct (t_scanInteractive t); [by rewrite decide_True by auto|].
    rewrite decide_False by (intros [?|?]; done). destruct (query_booted t st); [done|].
    pose proof (find_first (rating_match (bs_blend st) (si_scanRating (t_scanInfo t))) (bl_schedulers (bs_blend st))) as H.
    destruct (find _ _); [by left|by right].
Qed.

(** [queCmd] always queues a task: on the group scheduler if it has no
    scan tables or is interactive; otherwise on the snail scheduler if its
    query was booted, else on the first scheduler whose range contains the
    scan rating, else on the snail scheduler.  The task is told its
    scheduler, is added to the queue of that scheduler and to no other. *)
Theorem queCmd_routes t now tp st :
  worker_reach (tp, st) ->
  exists st' s x x', bl_queCmd (CTask t) now st = Ret st' /\ routed t st s /\
    v_taskScheduler (vars (bs_world st') t) = Some s /\
    bl_subs (bs_blend st) !! s = Some x /\ bl_subs (bs_blend st') = <[s := x']> (bl_subs (bs_blend st)) /\
    sub_tasks x' ≡ₚ t :: sub_tasks x.
Proof.
  intros Hw%worker_reach_inv.
  destruct (bl_queCmd_spec t now st (wi_state _ Hw)) as (st1 & x & x' & E & _ & Hx & Hb & Ht & _ & Hv & _).
  exists st1, (choose t st), x, x'. split; [exact E|]. split; [apply choose_routed|]. split; [done|]. split; [done|].
  by rewrite Hb.
Qed.

(** [getCmd] returns or throws [std::bad_exception] from [_ready].  When
    [_ready] found a scheduler with a ready task it returns a task, which
    leaves the queues and nothing else does; only when no scheduler is ready
    it takes the oldest control command, if there is one. *)
Theorem getCmd_result_exact tp st :
  worker_reach (tp, st) -> mm_room (w_mm (bs_world st)) ->
  bl_getCmd st = Raise BadException \/
  exists st1 rdy st' o, bl_ready st = Ret (st1, rdy) /\ bl_getCmd st = Ret (st', o) /\ getCmd_result st st1 st' o.
Proof.
  intros Hw%worker_reach_inv Hroom. destruct (bl_ready_total st (wi_state _ Hw) Hroom) as [E|(st1 & rdy & E)].
  - left. unfold bl_getCmd. by rewrite E.
  - right. destruct (bl_getCmd_spec st st1 rdy (wi_state _ Hw) Hroom E) as (st' & o & ? & _ & ? & _).
    exists st1, rdy, st', o. done.
Qed.

(** Moving a user query to another scheduler loses and duplicates no
    queued task: the queries and jobs of all queued tasks are the same
    before and after.  The moved tasks belonged to the query and were on the
    source scheduler (any, if none is given), their number is returned, they
    are told their new scheduler, and other tasks stay where they were. *)
Theorem moveUserQuery_conserves q source d now wk :
  worker_reach wk -> d ∈ bl_schedulers (bs_blend wk.2) ->
  exists wk' moved, moveUserQuery q source (Some d) now wk = Ret (wk', Z.of_nat (length moved)) /\
    ids <$> all_queued wk'.2 ≡ₚ ids <$> all_queued wk.2 /\
    (forall t, t ∈ moved -> of_query q wk t /\ is_Some (on_sched source t wk) /\
       v_taskScheduler (vars (bs_world wk'.2) t) = Some d) /\
    (forall t, t_ptr t ∉ (t_ptr <$> moved) ->
       v_taskScheduler (vars (bs_world wk'.2) t) = v_taskScheduler (vars (bs_world wk.2) t)).
Proof.
  intros Hw%worker_reach_inv Hd.
  destruct (move_worker q source (Some d) now wk Hw) as (wk' & moved & ? & _ & ? & ? & ?); [by intros ? [= <-]|].
  exists wk', moved. done.
Qed.

End system.

(** ** A concrete worker *)

Module WorkerSim.
(** Without memory management; scheduler 0 is the group scheduler, 1 scans
    for ratings up to 10, 2 is the snail scheduler. *)
Definition scan (name : string) (lo hi pr : Z) : ScanScheduler :=
  mkScanScheduler (SchedulerBase_ctor name 4 1 2 pr) ChunkTasksQueue_ctor HandleType.INVALID lo hi (d_of_Z 60).

Definition subs : gmap nat SubScheduler :=
  <[0%nat := SGroup (GroupScheduler_ctor "group" 4 1 3 9)]>
    (<[1%nat := SScan (scan "scan" 0 10 2)]> (<[2%nat := SScan (scan "snail" 100 200 1)]> ∅)).

Definition table : ScanTableInfo := mkScanTableInfo "db" "Object" true 5.
Definition msg (q j attempt : Z) (tables : list ScanTableInfo) : TaskMsg :=
  mkTaskMsg q j attempt None (Some 7) tables 5 false.
Definition t1 : Task := Task_ctor 1 (msg 9 1 0 [table]).
Definition t2 : Task := Task_ctor 2 (msg 9 1 1 [table]).

Definition w0 : World MemManNone := mkWorld (mkMemManNone true) ∅.
Definition tp0 : ThreadPool := mkThreadPool [] 0 [] false ∅ 0 ∅.
Definition st0 : BlendState MemManNone :=
  mkBlendState (BlendScheduler_ctor 6 0 2 [1%nat] subs) (QueriesAndChunks_ctor 300) w0.

Lemma config : good_config 0 2 [1%nat] subs.
Proof.
  split.
  - eexists. reflexivity.
  - eexists. reflexivity.
  - apply (bool_decide_unpack _). by vm_compute.
  - intros k. unfold subs. destruct k as [|[|[|k]]].
    1-3: split; [intros _; by eexists|intros _; set_solver].
    rewrite !lookup_insert_ne, lookup_empty by done. split; [set_solver|by intros []].
  - apply map_Forall_insert_2; [by split|]. apply map_Forall_insert_2; [done|].
    apply map_Forall_insert_2; [done|]. apply map_Forall_empty.
Qed.

Lemma worker_reach0 : worker_reach (tp0, st0).
Proof. apply wr_init; [exact config|done|done|done]. Qed.

(** [Foreman::processTask] of task 1: its statistics, then [queCmd]. *)
Definition st1 : BlendState MemManNone :=
  mkBlendState (bs_blend st0) (qc_addTask t1 0 (bs_queries st0)) (bs_world st0).
Definition run (o : outcome (BlendState MemManNone)) : BlendState MemManNone :=
  match o with Ret st => st | Raise _ => st0 end.
Definition st2 := run (bl_queCmd (CTask t1) 0 st1).

Lemma worker_reach1 : worker_reach (tp0, st1).
Proof. eapply wr_step; [exact worker_reach0|]. by apply wt_env. Qed.

Lemma worker_reach2 : worker_reach (tp0, st2).
Proof. eapply wr_step; [exact worker_reach1|]. apply (wt_queCmd (CTask t1) 0). by vm_compute. Qed.

(** Task 1 runs and finishes; its job is sent again as task 2 (a new
    attempt), and then the query is moved to the snail scheduler. *)
Definition st3 := run (let? (st, _) := bl_getCmd st2 in bl_commandFinish t1 1000 st).
Definition st4 := run (bl_queCmd (CTask t2) 2000
  (mkBlendState (bs_blend st3) (qc_addTask t2 2000 (bs_queries st3)) (bs_world st3))).
Definition st5 := match moveUserQuery 9 None (Some 2%nat) 3000 (tp0, st4) with Ret (wk, _) => wk.2 | Raise _ => st0 end.

(** [QueryStatistics::addTask] keeps the first attempt, so the second one is
    taken off the queue and the first, already finished, is queued again. *)
Lemma stale_attempt_requeued :
  t_ptr <$> all_queued st4 = [2%nat] /\ t_ptr <$> all_queued st5 = [1%nat] /\
  v_state (vars (bs_world st5) t1) = FINISHED.
Proof. by vm_compute. Qed.
End WorkerSim.

Lemma queCmd_routes_witness :
  exists st' s x x', bl_queCmd (CTask WorkerSim.t1) 0 WorkerSim.st1 = Ret st' /\ routed WorkerSim.t1 WorkerSim.st1 s /\
    v_taskScheduler (vars (bs_world st') WorkerSim.t1) = Some s /\
    bl_subs (bs_blend WorkerSim.st1) !! s = Some x /\
    bl_subs (bs_blend st') = <[s := x']> (bl_subs (bs_blend WorkerSim.st1)) /\
    sub_tasks x' ≡ₚ WorkerSim.t1 :: sub_tasks x.
Proof. exact (queCmd_routes WorkerSim.t1 0 WorkerSim.tp0 WorkerSim.st1 WorkerSim.worker_reach1). Defined.

Lemma getCmd_result_exact_witness :
  exists st1 rdy st' o, bl_ready WorkerSim.st2 = Ret (st1, rdy) /\ bl_getCmd WorkerSim.st2 = Ret (st', o) /\
    getCmd_result WorkerSim.st2 st1 st' o.
Proof.
  destruct (getCmd_result_exact WorkerSim.tp0 WorkerSim.st2 WorkerSim.worker_reach2 I) as [E|H]; [by vm_compute in E|exact H].
Defined.

Lemma moveUserQuery_conserves_witness :
  exists wk' (moved : list Task), moveUserQuery 9 (Some 1%nat) (Some 2%nat) 10 (WorkerSim.tp0, WorkerSim.st2) =
      Ret (wk', Z.of_nat (length moved)) /\ length moved = 1%nat /\
    ids <$> all_queued wk'.2 ≡ₚ [(9, 1)].
Proof.
  destruct (moveUserQuery_conserves 9 (Some 1%nat) 2 10 (WorkerSim.tp0, WorkerSim.st2) WorkerSim.worker_reach2)
    as (wk' & moved & Heq & Hp & _).
  - apply (bool_decide_unpack _). by vm_compute.
  - exists wk', moved. split; [exact Heq|]. split; [|exact Hp].
    assert (Hn : match moveUserQuery 9 (Some 1%nat) (Some 2%nat) 10 (WorkerSim.tp0, WorkerSim.st2) with
                 | Ret (_, n) => n | Raise _ => 0 end = 1) by (by vm_compute).
    rewrite Heq in Hn. lia.
Defined.

