(* ===== verification/WorkerRequest.v ===== *)
(** * Requests of a replication worker

    [replica/WorkerRequest.h] and [.cc]: the state of a request that a worker
    of the replication system processes, and its transitions.  The subclasses
    are the ones that the factory of the test technology makes
    ([WorkerRequestFactoryTest]) and the two that all technologies share
    ([WorkerEchoRequest], [WorkerSqlRequest]).  What a method reads from its
    environment (the clock, the length of a random wait, the answer of the
    database) is an argument.

    Not modelled: the messages that [setInfo] fills in and the file operations
    of the POSIX and FS classes. *)

From S2P Require Import Prelude.

(** [enum CompletionStatus] *)
Inductive CompletionStatus :=
| STATUS_NONE
| STATUS_IN_PROGRESS
| STATUS_IS_CANCELLING
| STATUS_CANCELLED
| STATUS_SUCCEEDED
| STATUS_FAILED.

#[export] Instance CompletionStatus_eq_dec : EqDecision CompletionStatus.
Proof. solve_decision. Defined.

(** [enum ExtendedCompletionStatus] of [replica/Common.h], the values that the
    modelled code uses. *)
Inductive ExtendedCompletionStatus :=
| EXT_STATUS_NONE
| EXT_STATUS_INVALID_PARAM
| EXT_STATUS_INVALID_ID
| EXT_STATUS_DUPLICATE
| EXT_STATUS_MYSQL_ERROR
| EXT_STATUS_LARGE_RESULT.

(** The dynamic type of a request, with the parameters of its constructor. *)
Inductive RequestKind :=
| KReplication (database : string) (chunk : Z) (sourceWorker : string)
| KDelete (database : string) (chunk : Z)
| KFind (database : string) (chunk : Z) (computeCheckSum : bool)
| KFindAll (database : string)
| KEcho (data : string) (delay : Z)
| KSql (query user password : string) (maxRows : Z).

#[export] Instance RequestKind_eq_dec : EqDecision RequestKind.
Proof. solve_decision. Defined.

(** [class WorkerPerformance] *)
Record WorkerPerformance := mkWorkerPerformance {
  receive_time : Z;
  start_time : Z;
  finish_time : Z;
}.

(** [class WorkerRequest]; [wr_delayLeft] is the member of [WorkerEchoRequest]. *)
Record WorkerRequest := mkWorkerRequest {
  wr_id : string;
  wr_kind : RequestKind;
  wr_priority : Z;
  wr_status : CompletionStatus;
  wr_extendedStatus : ExtendedCompletionStatus;
  wr_performance : WorkerPerformance;
  wr_durationMillisec : Z;
  wr_delayLeft : Z;
}.

Implicit Types (r : WorkerRequest).

(** The constructors, at clock [now]. *)
Definition WorkerRequest_ctor (id : string) (kind : RequestKind) (priority now : Z) : WorkerRequest :=
  mkWorkerRequest id kind priority STATUS_NONE EXT_STATUS_NONE (mkWorkerPerformance now 0 0) 0
    (match kind with KEcho _ delay => delay | _ => 0 end).

(** [uint64_t WorkerPerformance::setUpdateStart()] and [setUpdateFinish()] *)
Definition setUpdateStart (now : Z) (p : WorkerPerformance) : WorkerPerformance :=
  mkWorkerPerformance (receive_time p) now (finish_time p).
Definition setUpdateFinish (now : Z) (p : WorkerPerformance) : WorkerPerformance :=
  mkWorkerPerformance (receive_time p) (start_time p) now.

(** The [switch] of [setStatus] on the times. *)
Definition update_performance (now : Z) (status : CompletionStatus) (p : WorkerPerformance) : WorkerPerformance :=
  match status with
  | STATUS_NONE => mkWorkerPerformance (receive_time p) 0 0
  | STATUS_IN_PROGRESS =>
      let p1 := setUpdateStart now p in mkWorkerPerformance (receive_time p1) (start_time p1) 0
  | STATUS_IS_CANCELLING => p
  | STATUS_CANCELLED =>
      setUpdateFinish now (if start_time p =? 0 then setUpdateStart now p else p)
  | STATUS_SUCCEEDED | STATUS_FAILED => setUpdateFinish now p
  end.

(** [void setStatus(lock, status, extendedStatus)] *)
Definition setStatus (now : Z) (status : CompletionStatus) (ext : ExtendedCompletionStatus) r : WorkerRequest :=
  mkWorkerRequest (wr_id r) (wr_kind r) (wr_priority r) status ext
    (update_performance now status (wr_performance r)) (wr_durationMillisec r) (wr_delayLeft r).

(** [void start()] *)
Definition wr_start (now : Z) r : outcome WorkerRequest :=
  match wr_status r with
  | STATUS_NONE => Ret (setStatus now STATUS_IN_PROGRESS EXT_STATUS_NONE r)
  | _ => Raise LogicError
  end.

(** [void cancel()] *)
Definition wr_cancel (now : Z) r : WorkerRequest :=
  match wr_status r with
  | STATUS_NONE | STATUS_CANCELLED => setStatus now STATUS_CANCELLED EXT_STATUS_NONE r
  | STATUS_IN_PROGRESS | STATUS_IS_CANCELLING => setStatus now STATUS_IS_CANCELLING EXT_STATUS_NONE r
  | STATUS_SUCCEEDED | STATUS_FAILED => r
  end.

(** [void stop()] *)
Definition wr_stop (now : Z) r : WorkerRequest := setStatus now STATUS_NONE EXT_STATUS_NONE r.

(** The result of [execute] and [rollback], which change the request also when
    they throw [WorkerRequestCancelled]. *)
Inductive run_result (A : Type) :=
| RReturn (a : A) (r : WorkerRequest)
| RCancelled (r : WorkerRequest)
| RRaise (e : exn).
Arguments RReturn {A}.
Arguments RCancelled {A}.
Arguments RRaise {A}.

(** [void rollback()] *)
Definition wr_rollback (now : Z) r : run_result unit :=
  match wr_status r with
  | STATUS_NONE | STATUS_IN_PROGRESS => RReturn tt (setStatus now STATUS_NONE EXT_STATUS_NONE r)
  | STATUS_IS_CANCELLING => RCancelled (setStatus now STATUS_CANCELLED EXT_STATUS_NONE r)
  | _ => RRaise LogicError
  end.

(** ** [execute] *)

(** What happens around a call of [execute]: the clock, the milliseconds of the
    random wait, the answer of the success generator, and what the database
    does ([None] for success, else the class of the exception). *)
Inductive SqlFailure := MySqlError | NoSuchWorker | TooManyRows | OtherException.
Record ExecInput := mkExecInput {
  ei_now : Z;
  ei_wait : Z;
  ei_success : bool;
  ei_sql : option SqlFailure;
}.

Definition maxDurationMillisec : Z := 10000.

Definition add_duration (ms : Z) r : WorkerRequest :=
  mkWorkerRequest (wr_id r) (wr_kind r) (wr_priority r) (wr_status r) (wr_extendedStatus r) (wr_performance r)
    (wrap32 (wr_durationMillisec r + ms)) (wr_delayLeft r).

(** The [switch] on the status at the start of [execute]. *)
Definition check_status (now : Z) (body : WorkerRequest -> run_result bool) r : run_result bool :=
  match wr_status r with
  | STATUS_IN_PROGRESS => body r
  | STATUS_IS_CANCELLING => RCancelled (setStatus now STATUS_CANCELLED EXT_STATUS_NONE r)
  | _ => RRaise LogicError
  end.

(** [bool WorkerRequest::execute()] *)
Definition WorkerRequest_execute (i : ExecInput) r : run_result bool :=
  check_status (ei_now i) (fun r =>
    let r1 := add_duration (ei_wait i) r in
    if wr_durationMillisec r1 <? maxDurationMillisec then RReturn false r1
    else RReturn true (setStatus (ei_now i) (if ei_success i then STATUS_SUCCEEDED else STATUS_FAILED)
                         EXT_STATUS_NONE r1)) r.

(** [bool WorkerEchoRequest::execute()] *)
Definition WorkerEchoRequest_execute (i : ExecInput) r : run_result bool :=
  check_status (ei_now i) (fun r =>
    let left := wr_delayLeft r - (if ei_wait i <? wr_delayLeft r then ei_wait i else wr_delayLeft r) in
    let r1 := mkWorkerRequest (wr_id r) (wr_kind r) (wr_priority r) (wr_status r) (wr_extendedStatus r)
                (wr_performance r) (wr_durationMillisec r) left in
    if left =? 0 then RReturn true (setStatus (ei_now i) STATUS_SUCCEEDED EXT_STATUS_NONE r1)
    else RReturn false r1) r.

(** [bool WorkerSqlRequest::execute()] *)
Definition WorkerSqlRequest_execute (i : ExecInput) r : run_result bool :=
  check_status (ei_now i) (fun r =>
    RReturn true
      (match ei_sql i with
       | None => setStatus (ei_now i) STATUS_SUCCEEDED EXT_STATUS_NONE r
       | Some MySqlError => setStatus (ei_now i) STATUS_FAILED EXT_STATUS_MYSQL_ERROR r
       | Some NoSuchWorker => setStatus (ei_now i) STATUS_FAILED EXT_STATUS_INVALID_PARAM r
       | Some TooManyRows => setStatus (ei_now i) STATUS_FAILED EXT_STATUS_LARGE_RESULT r
       | Some OtherException => setStatus (ei_now i) STATUS_FAILED EXT_STATUS_NONE r
       end)) r.

(** [bool WorkerFindRequest::execute()]: it takes the lock [_mtx] and calls
    [WorkerRequest::execute], whose [util::Lock] asserts that the caller does
    not hold the lock. *)
Definition WorkerFindRequest_execute (i : ExecInput) r : run_result bool := RRaise AssertFailed.

(** The classes of the test technology. *)
Definition execute_test (i : ExecInput) r : run_result bool :=
  match wr_kind r with
  | KReplication _ _ _ | KDelete _ _ | KFindAll _ => WorkerRequest_execute i r
  | KFind _ _ _ => WorkerFindRequest_execute i r
  | KEcho _ _ => WorkerEchoRequest_execute i r
  | KSql _ _ _ _ => WorkerSqlRequest_execute i r
  end.

(** ** What the processor relies on

    The contract of [execute] in [WorkerRequest.h]: called while the request is
    in progress or is being cancelled, it returns [false] and leaves the status,
    or returns [true] with a completed request, or throws
    [WorkerRequestCancelled] with a cancelled one.  [runs] selects the classes
    of requests for which an implementation keeps it. *)

Definition running (s : CompletionStatus) : Prop := s = STATUS_IN_PROGRESS \/ s = STATUS_IS_CANCELLING.
Definition completed (s : CompletionStatus) : Prop :=
  s = STATUS_CANCELLED \/ s = STATUS_SUCCEEDED \/ s = STATUS_FAILED.

(** The members of a request that never change. *)
Definition same_request r r' : Prop :=
  wr_id r' = wr_id r /\ wr_kind r' = wr_kind r /\ wr_priority r' = wr_priority r.

Class ExecuteLaws (execute : ExecInput -> WorkerRequest -> run_result bool) (runs : RequestKind -> Prop) : Prop := {
  execute_law i r :
    runs (wr_kind r) -> running (wr_status r) ->
    match execute i r with
    | RReturn false r' => same_request r r' /\ wr_status r' = wr_status r
    | RReturn true r' => same_request r r' /\ completed (wr_status r')
    | RCancelled r' => same_request r r' /\ completed (wr_status r')
    | RRaise _ => False
    end;
}.

(** All classes of the test technology but [WorkerFindRequest]. *)
Definition not_find (k : RequestKind) : Prop := match k with KFind _ _ _ => False | _ => True end.

Lemma check_status_law now body r :
  (forall r, wr_status r = STATUS_IN_PROGRESS ->
     match body r with
     | RReturn false r' => same_request r r' /\ wr_status r' = wr_status r
     | RReturn true r' => same_request r r' /\ completed (wr_status r')
     | _ => False
     end) ->
  running (wr_status r) ->
  match check_status now body r with
  | RReturn false r' => same_request r r' /\ wr_status r' = wr_status r
  | RReturn true r' | RCancelled r' => same_request r r' /\ completed (wr_status r')
  | RRaise _ => False
  end.
Proof.
  intros Hb [Hs|Hs]; unfold check_status; rewrite Hs.
  - specialize (Hb r Hs). destruct (body r) as [[|] r'| |]; [done| |done..]. by rewrite <- Hs.
  - split; [done|by left].
Qed.

#[export] Instance execute_test_laws : ExecuteLaws execute_test not_find.
Proof.
  split. intros i r Hk Hs. unfold execute_test.
  destruct (wr_kind r) eqn:Ek; try done; apply check_status_law; try done; intros r' _; simpl.
  1,2,3: destruct (_ <? _); [done|]; split; [done|]; right; destruct (ei_success i); auto.
  - destruct (_ =? 0); [|done]. split; [done|]. right; by left.
  - destruct (ei_sql i) as [[]|]; (split; [done|]); unfold completed; simpl; auto.
Qed.

(** A find request of the test technology cannot run. *)
Lemma find_request_fails i r db c b : wr_kind r = KFind db c b -> execute_test i r = RRaise AssertFailed.
Proof. intros Hk. unfold execute_test. by rewrite Hk. Qed.
