(* ===== verification/WorkerProcessor.v ===== *)
(** * The request processor of a replication worker

    [replica/WorkerProcessor.h] and [.cc], [replica/WorkerProcessorThread.cc].
    The processor keeps requests in three collections (new, in progress,
    finished) and has a fixed set of threads that take requests and execute
    them.  Requests are shared objects: they live in a store and the collections
    and the threads hold their addresses.

    Methods that hold [_mtx] throughout are one step.  A thread is a program
    counter over the accesses of its loop, so that the methods and the other
    threads interleave with it.  [WorkerProcessorThread::run] starts a new
    operating system thread each time; the list of these only grows.

    Not modelled: the messages besides their status fields, logging. *)

From S2P Require Import Prelude.
From S2P Require Import StdHeap.
From S2P Require Import WorkerRequest.

(** [enum State] *)
Inductive ProcessorState := STATE_IS_RUNNING | STATE_IS_STOPPING | STATE_IS_STOPPED.

#[export] Instance ProcessorState_eq_dec : EqDecision ProcessorState.
Proof. solve_decision. Defined.

(** [class WorkerProcessorThread]; [isRunning()] is [_thread != nullptr]. *)
Record WorkerProcessorThread := mkThread { th_stop : bool; th_running : bool }.

(** [class WorkerProcessor], with the store of the requests. *)
Record WorkerProcessor := mkProcessor {
  wp_state : ProcessorState;
  wp_threads : list WorkerProcessorThread;
  wp_newRequests : list nat;
  wp_inProgressRequests : list nat;
  wp_finishedRequests : list nat;
  wp_requests : gmap nat WorkerRequest;
  wp_next : nat;
}.

Implicit Types (p : WorkerProcessor) (a : nat) (r : WorkerRequest).

Definition WorkerProcessor_ctor : WorkerProcessor := mkProcessor STATE_IS_STOPPED [] [] [] [] ∅ 0.

Definition wp_set_state s p : WorkerProcessor :=
  mkProcessor s (wp_threads p) (wp_newRequests p) (wp_inProgressRequests p) (wp_finishedRequests p)
    (wp_requests p) (wp_next p).
Definition wp_set_threads l p : WorkerProcessor :=
  mkProcessor (wp_state p) l (wp_newRequests p) (wp_inProgressRequests p) (wp_finishedRequests p)
    (wp_requests p) (wp_next p).
Definition wp_set_queues n i f p : WorkerProcessor :=
  mkProcessor (wp_state p) (wp_threads p) n i f (wp_requests p) (wp_next p).
Definition wp_set_request a r p : WorkerProcessor :=
  mkProcessor (wp_state p) (wp_threads p) (wp_newRequests p) (wp_inProgressRequests p) (wp_finishedRequests p)
    (<[a := r]> (wp_requests p)) (wp_next p).

(** ** The priority queue *)

Definition prio p a : Z := match wp_requests p !! a with Some r => wr_priority r | None => 0 end.
Definition req_id p a : string := match wp_requests p !! a with Some r => wr_id r | None => EmptyString end.

(** [struct WorkerRequestCompare] *)
Definition WorkerRequestCompare p (lhs rhs : nat) : bool := prio p lhs <? prio p rhs.

(** [_newRequests.push], [top] and [pop] *)
Definition pq_push a p : list nat := push_heap (WorkerRequestCompare p) (wp_newRequests p) a.
Definition pq_top p : option nat := head (wp_newRequests p).
Definition pq_pop p : list nat := pop_heap (WorkerRequestCompare p) (wp_newRequests p).

(** [bool PriorityQueueType::remove(std::string const& id)] on the container *)
Fixpoint erase_id p (id : string) (l : list nat) : option (list nat) :=
  match l with
  | [] => None
  | a :: l' => if decide (req_id p a = id) then Some l' else (cons a) <$> erase_id p id l'
  end.
Definition pq_remove (id : string) p : list nat * bool :=
  match erase_id p id (wp_newRequests p) with
  | Some l => (make_heap (WorkerRequestCompare p) l, true)
  | None => (wp_newRequests p, false)
  end.

(** ** Responses *)

(** [enum ProtocolStatus] and [ProtocolStatusExt] of [replica/protocol.proto] *)
Inductive ProtocolStatus := SUCCESS | QUEUED | IN_PROGRESS | IS_CANCELLING | BAD | FAILED | CANCELLED.

(** The status fields of a response. *)
Record Response := mkResponse {
  rs_status : ProtocolStatus;
  rs_ext : ExtendedCompletionStatus;
  rs_duplicate : option string;
}.

(** [static ProtocolStatus translate(WorkerRequest::CompletionStatus status)] *)
Definition translate (s : CompletionStatus) : ProtocolStatus :=
  match s with
  | STATUS_NONE => QUEUED
  | STATUS_IN_PROGRESS => IN_PROGRESS
  | STATUS_IS_CANCELLING => IS_CANCELLING
  | STATUS_CANCELLED => CANCELLED
  | STATUS_SUCCEEDED => SUCCESS
  | STATUS_FAILED => FAILED
  end.

(** [static void setDefaultResponse(response, status, extendedStatus)] *)
Definition defaultResponse (s : ProtocolStatus) (e : ExtendedCompletionStatus) : Response := mkResponse s e None.

(** ** Enqueueing *)

(** The replica that a request creates or deletes. *)
Definition replica_of (k : RequestKind) : option (string * Z) :=
  match k with
  | KReplication db c _ | KDelete db c => Some (db, c)
  | _ => None
  end.

(** The test of [ifDuplicateRequest] *)
Definition is_duplicate p (k : RequestKind) a : bool :=
  match wp_requests p !! a, replica_of k with
  | Some r, Some x => bool_decide (replica_of (wr_kind r) = Some x)
  | _, _ => false
  end.

Section processor.

(** [createXRequest] of the factory validates the parameters against the
    configuration and throws [std::invalid_argument] if that fails. *)
Context (valid : RequestKind -> bool).
Context (execute : ExecInput -> WorkerRequest -> run_result bool).

(** The [try] block shared by all the enqueue methods, at clock [now]. *)
Definition enqueue_new (id : string) (k : RequestKind) (priority now : Z) p : WorkerProcessor * Response :=
  if valid k then
    let a := wp_next p in
    let p1 := mkProcessor (wp_state p) (wp_threads p) (wp_newRequests p) (wp_inProgressRequests p)
                (wp_finishedRequests p) (<[a := WorkerRequest_ctor id k priority now]> (wp_requests p)) (S a) in
    (wp_set_queues (pq_push a p1) (wp_inProgressRequests p1) (wp_finishedRequests p1) p1,
     defaultResponse QUEUED EXT_STATUS_NONE)
  else (p, defaultResponse BAD EXT_STATUS_INVALID_PARAM).

(** The first duplicate of [k] in [_newRequests] and then [_inProgressRequests]. *)
Definition find_duplicate (k : RequestKind) p : option nat :=
  find (is_duplicate p k) (wp_newRequests p ++ wp_inProgressRequests p).

(** [enqueueForReplication] and [enqueueForDeletion] *)
Definition enqueue_replica (id : string) (k : RequestKind) (priority now : Z) p : WorkerProcessor * Response :=
  match find_duplicate k p with
  | Some a => (p, mkResponse BAD EXT_STATUS_DUPLICATE (Some (req_id p a)))
  | None => enqueue_new id k priority now p
  end.
Definition enqueueForReplication id (priority : Z) database chunk worker now p :=
  enqueue_replica id (KReplication database chunk worker) priority now p.
Definition enqueueForDeletion id (priority : Z) database chunk now p :=
  enqueue_replica id (KDelete database chunk) priority now p.

(** [enqueueForFind], [enqueueForFindAll], [enqueueForSql] *)
Definition enqueueForFind id (priority : Z) database chunk compute_cs now p :=
  enqueue_new id (KFind database chunk compute_cs) priority now p.
Definition enqueueForFindAll id (priority : Z) database now p :=
  enqueue_new id (KFindAll database) priority now p.
Definition enqueueForSql id (priority : Z) query user password max_rows now p :=
  enqueue_new id (KSql query user password max_rows) priority now p.

(** [enqueueForEcho] *)
Definition enqueueForEcho id (priority : Z) data delay now p : WorkerProcessor * Response :=
  if delay =? 0 then (p, defaultResponse SUCCESS EXT_STATUS_NONE)
  else enqueue_new id (KEcho data delay) priority now p.

(** The method for a kind of request. *)
Definition enqueue (id : string) (k : RequestKind) (priority now : Z) p : WorkerProcessor * Response :=
  match k with
  | KReplication db c w => enqueueForReplication id priority db c w now p
  | KDelete db c => enqueueForDeletion id priority db c now p
  | KFind db c cs => enqueueForFind id priority db c cs now p
  | KFindAll db => enqueueForFindAll id priority db now p
  | KEcho data delay => enqueueForEcho id priority data delay now p
  | KSql q u pw n => enqueueForSql id priority q u pw n now p
  end.

(** ** Cancelling and status *)

Definition find_id p (id : string) (l : list nat) : option nat := find (fun a => bool_decide (req_id p a = id)) l.

(** [WorkerRequest::Ptr _dequeueOrCancelImpl(lock, id)] *)
Definition dequeueOrCancelImpl (id : string) (now : Z) p : outcome (WorkerProcessor * option nat) :=
  match find_id p id (wp_newRequests p) with
  | Some a =>
      match wp_requests p !! a with
      | None => Raise UndefinedBehaviour
      | Some r =>
          let r' := wr_cancel now r in
          let p1 := wp_set_request a r' p in
          if decide (wr_status r' = STATUS_CANCELLED) then
            Ret (wp_set_queues (pq_remove id p1).1 (wp_inProgressRequests p1) (wp_finishedRequests p1 ++ [a]) p1,
                 Some a)
          else Raise LogicError
      end
  | None =>
      match find_id p id (wp_inProgressRequests p) with
      | Some a =>
          match wp_requests p !! a with
          | None => Raise UndefinedBehaviour
          | Some r =>
              let r' := wr_cancel now r in
              match wr_status r' with
              | STATUS_CANCELLED | STATUS_IS_CANCELLING | STATUS_SUCCEEDED | STATUS_FAILED =>
                  Ret (wp_set_request a r' p, Some a)
              | _ => Raise LogicError
              end
          end
      | None =>
          match find_id p id (wp_finishedRequests p) with
          | Some a =>
              match wp_requests p !! a with
              | None => Raise UndefinedBehaviour
              | Some r =>
                  match wr_status r with
                  | STATUS_CANCELLED | STATUS_SUCCEEDED | STATUS_FAILED => Ret (p, Some a)
                  | _ => Raise LogicError
                  end
              end
          | None => Ret (p, None)
          end
      end
  end.

(** The request found by its identifier in [l] if its status is allowed there. *)
Definition check_in p (id : string) (l : list nat) (allowed : CompletionStatus -> bool) : option (outcome nat) :=
  match find_id p id l with
  | None => None
  | Some a =>
      Some (match wp_requests p !! a with
            | None => Raise UndefinedBehaviour
            | Some r => if allowed (wr_status r) then Ret a else Raise LogicError
            end)
  end.

(** [WorkerRequest::Ptr _checkStatusImpl(lock, id)] *)
Definition checkStatusImpl (id : string) p : outcome (option nat) :=
  match check_in p id (wp_newRequests p) (fun s => match s with STATUS_NONE => true | _ => false end) with
  | Some o => let? a := o in Ret (Some a)
  | None =>
      match check_in p id (wp_inProgressRequests p) (fun s => match s with STATUS_NONE => false | _ => true end) with
      | Some o => let? a := o in Ret (Some a)
      | None =>
          match check_in p id (wp_finishedRequests p)
                  (fun s => match s with
                            | STATUS_CANCELLED | STATUS_SUCCEEDED | STATUS_FAILED => true
                            | _ => false
                            end) with
          | Some o => let? a := o in Ret (Some a)
          | None => Ret None
          end
      end
  end.

(** The type of the response message must be the one of the request's class,
    else [_setInfo] throws and the default response stays. *)
Definition same_class (k k' : RequestKind) : bool :=
  match k, k' with
  | KReplication _ _ _, KReplication _ _ _ | KDelete _ _, KDelete _ _ | KFind _ _ _, KFind _ _ _
  | KFindAll _, KFindAll _ | KEcho _ _, KEcho _ _ | KSql _ _ _ _, KSql _ _ _ _ => true
  | _, _ => false
  end.
Definition status_response p (k : RequestKind) (o : option nat) : Response :=
  match o with
  | None => defaultResponse BAD EXT_STATUS_INVALID_ID
  | Some a =>
      match wp_requests p !! a with
      | Some r =>
          if same_class k (wr_kind r) then mkResponse (translate (wr_status r)) (wr_extendedStatus r) None
          else defaultResponse BAD EXT_STATUS_INVALID_ID
      | None => defaultResponse BAD EXT_STATUS_INVALID_ID
      end
  end.

(** [void dequeueOrCancel(request, response)] and [checkStatus(request, response)],
    for a response of the class of [k]. *)
Definition dequeueOrCancel (id : string) (k : RequestKind) (now : Z) p : outcome (WorkerProcessor * Response) :=
  let? (p', o) := dequeueOrCancelImpl id now p in Ret (p', status_response p' k o).
Definition checkStatus (id : string) (k : RequestKind) p : outcome Response :=
  let? o := checkStatusImpl id p in Ret (status_response p k o).

(** [void drain()] *)
Definition drain (now : Z) p : outcome WorkerProcessor :=
  let ids := map (req_id p) (wp_newRequests p ++ wp_inProgressRequests p) in
  foldM (fun p id => let? (p', _) := dequeueOrCancelImpl id now p in Ret p') p ids.

(** ** Threads *)

(** [void WorkerProcessorThread::run()]: whether a new thread is started. *)
Definition thread_run (t : WorkerProcessorThread) : WorkerProcessorThread * bool :=
  if th_running t then (t, false) else (mkThread (th_stop t) true, true).

(** [void WorkerProcessorThread::stop()] *)
Definition thread_stop (t : WorkerProcessorThread) : WorkerProcessorThread :=
  if th_running t then mkThread true true else t.

(** Whether [run] starts a new thread for the object [i]. *)
Definition starts (ts : list WorkerProcessorThread) (i : nat) : bool :=
  match ts !! i with Some t => (thread_run t).2 | None => false end.

(** [void run()]: the indices of the threads that are started. *)
Definition wp_run (numThreads : nat) p : outcome (WorkerProcessor * list nat) :=
  match wp_state p with
  | STATE_IS_STOPPED =>
      match numThreads with
      | O => Raise OutOfRange
      | _ =>
          let ts := match wp_threads p with [] => replicate numThreads (mkThread false false) | l => l end in
          let started := filter (fun i => starts ts i = true) (seq 0 (length ts)) in
          Ret (wp_set_state STATE_IS_RUNNING (wp_set_threads (map (fun t => (thread_run t).1) ts) p), started)
      end
  | _ => Ret (p, [])
  end.

(** [void stop()] *)
Definition wp_stop p : WorkerProcessor :=
  match wp_state p with
  | STATE_IS_RUNNING => wp_set_state STATE_IS_STOPPING (wp_set_threads (map thread_stop (wp_threads p)) p)
  | _ => p
  end.

(** The block of [_fetchNextForProcessing] that holds the lock. *)
Definition fetch_locked (now : Z) p : outcome (WorkerProcessor * option nat) :=
  match pq_top p with
  | None => Ret (p, None)
  | Some a =>
      match wp_requests p !! a with
      | None => Raise UndefinedBehaviour
      | Some r =>
          let p1 := wp_set_queues (pq_pop p) (wp_inProgressRequests p) (wp_finishedRequests p) p in
          let? r' := wr_start now r in
          let p2 := wp_set_request a r' p1 in
          Ret (wp_set_queues (wp_newRequests p2) (wp_inProgressRequests p2 ++ [a]) (wp_finishedRequests p2) p2, Some a)
      end
  end.

(** [_inProgressRequests.remove_if(...)] *)
Definition remove_in_progress (id : string) p : list nat :=
  filter (fun a => req_id p a <> id) (wp_inProgressRequests p).

(** [void _processingRefused(request)] *)
Definition processingRefused a (now : Z) p : WorkerProcessor :=
  match wp_requests p !! a with
  | None => p
  | Some r =>
      let p1 := wp_set_request a (wr_stop now r) p in
      let p2 := wp_set_queues (wp_newRequests p1) (remove_in_progress (wr_id r) p1) (wp_finishedRequests p1) p1 in
      wp_set_queues (pq_push a p2) (wp_inProgressRequests p2) (wp_finishedRequests p2) p2
  end.

(** [void _processingFinished(request)] *)
Definition processingFinished a p : WorkerProcessor :=
  wp_set_queues (wp_newRequests p) (remove_in_progress (req_id p a) p) (wp_finishedRequests p ++ [a]) p.

(** [void _processorThreadStopped(processorThread)] *)
Definition processorThreadStopped p : WorkerProcessor :=
  match wp_state p with
  | STATE_IS_STOPPING => if existsb th_running (wp_threads p) then p else wp_set_state STATE_IS_STOPPED p
  | _ => p
  end.

(** Where a started thread is in the lambda of [WorkerProcessorThread::run]. *)
Inductive PC :=
| PLoop                         (** [while (not self->_stop)] *)
| PFetch (elapsed : Z)          (** in the loop of [_fetchNextForProcessing] *)
| PGot (o : option nat)         (** [if (self->_stop)] after the fetch *)
| PExec (a : nat)               (** [request->execute()] *)
| PCheck (a : nat)              (** [if (self->_stop)] after [execute] *)
| PRollback (a : nat)           (** [request->rollback()] *)
| PRefuse (a : nat)             (** [_processingRefused(request)] *)
| PFinish (a : nat)             (** [_processingFinished(request)] *)
| PStop                         (** [_stopped()]: [_stop = false] *)
| PReset                        (** [_thread.reset(nullptr)] *)
| PReport                       (** [_processorThreadStopped(...)] *)
| PDone
| PCrash (e : exn).             (** an exception left the thread function *)

Definition timeoutMilliseconds : Z := 1000.

Definition stop_flag (i : nat) p : bool := match wp_threads p !! i with Some t => th_stop t | None => false end.
Definition upd_thread (i : nat) (f : WorkerProcessorThread -> WorkerProcessorThread) p : WorkerProcessor :=
  wp_set_threads (alter f i (wp_threads p)) p.

(** One step of the started thread with the object [i]. *)
Definition thread_step (i : nat) (inp : ExecInput) (pc : PC) p : WorkerProcessor * PC :=
  let now := ei_now inp in
  match pc with
  | PLoop => (p, if stop_flag i p then PStop else PFetch 0)
  | PFetch elapsed =>
      if elapsed <? timeoutMilliseconds then
        match fetch_locked now p with
        | Raise e => (p, PCrash e)
        | Ret (p', Some a) => (p', PGot (Some a))
        | Ret (p', None) => (p', PFetch (elapsed + ei_wait inp))
        end
      else (p, PGot None)
  | PGot o =>
      (p, match o with
          | Some a => if stop_flag i p then PRefuse a else PExec a
          | None => PLoop
          end)
  | PExec a =>
      match wp_requests p !! a with
      | None => (p, PCrash UndefinedBehaviour)
      | Some r =>
          match execute inp r with
          | RReturn finished r' => (wp_set_request a r' p, if finished : bool then PFinish a else PCheck a)
          | RCancelled r' => (wp_set_request a r' p, PFinish a)
          | RRaise e => (p, PCrash e)
          end
      end
  | PCheck a => (p, if stop_flag i p then PRollback a else PExec a)
  | PRollback a =>
      match wp_requests p !! a with
      | None => (p, PCrash UndefinedBehaviour)
      | Some r =>
          match wr_rollback now r with
          | RReturn _ r' => (wp_set_request a r' p, PRefuse a)
          | RCancelled r' => (wp_set_request a r' p, PFinish a)
          | RRaise e => (p, PCrash e)
          end
      end
  | PRefuse a => (processingRefused a now p, PLoop)
  | PFinish a => (processingFinished a p, PLoop)
  | PStop => (upd_thread i (fun t => mkThread false (th_running t)) p, PReset)
  | PReset => (upd_thread i (fun t => mkThread (th_stop t) false) p, PReport)
  | PReport => (processorThreadStopped p, PDone)
  | PDone => (p, PDone)
  | PCrash e => (p, PCrash e)
  end.

(** ** The worker service: the processor and its started threads *)

Record Service := mkService { sv_proc : WorkerProcessor; sv_threads : list (nat * PC) }.

Implicit Types (s : Service).

Definition Service_ctor : Service := mkService WorkerProcessor_ctor [].

(** What can happen: a call of a method by the server, or a step of the
    started thread [k]. *)
Inductive Event :=
| ERun (numThreads : nat)
| EStop
| EDrain (now : Z)
| EEnqueue (id : string) (k : RequestKind) (priority now : Z)
| ECancel (id : string) (k : RequestKind) (now : Z)
| EStatus (id : string) (k : RequestKind)
| EThread (k : nat) (inp : ExecInput).

(** What the caller of a method sees. *)
Inductive Reply :=
| RNothing
| RResponse (r : Response)
| RThrow (e : exn).

Definition service_step (ev : Event) s : Service * Reply :=
  let p := sv_proc s in
  match ev with
  | ERun n =>
      match wp_run n p with
      | Ret (p', started) => (mkService p' (sv_threads s ++ map (fun i => (i, PLoop)) started), RNothing)
      | Raise e => (s, RThrow e)
      end
  | EStop => (mkService (wp_stop p) (sv_threads s), RNothing)
  | EDrain now =>
      match drain now p with
      | Ret p' => (mkService p' (sv_threads s), RNothing)
      | Raise e => (s, RThrow e)
      end
  | EEnqueue id k priority now =>
      let '(p', resp) := enqueue id k priority now p in (mkService p' (sv_threads s), RResponse resp)
  | ECancel id k now =>
      match dequeueOrCancel id k now p with
      | Ret (p', resp) => (mkService p' (sv_threads s), RResponse resp)
      | Raise e => (s, RThrow e)
      end
  | EStatus id k =>
      match checkStatus id k p with
      | Ret resp => (s, RResponse resp)
      | Raise e => (s, RThrow e)
      end
  | EThread k inp =>
      match sv_threads s !! k with
      | Some (i, pc) =>
          let '(p', pc') := thread_step i inp pc p in
          (mkService p' (<[k := (i, pc')]> (sv_threads s)), RNothing)
      | None => (s, RNothing)
      end
  end.

(** Clients choose a new identifier for every request
    ([Generators::uniqueId]). *)
Definition id_used (id : string) p : Prop := exists a r, wp_requests p !! a = Some r /\ wr_id r = id.
Definition event_ok (runs : RequestKind -> Prop) (ev : Event) s : Prop :=
  match ev with
  | EEnqueue id k _ _ => ~ id_used id (sv_proc s) /\ runs k
  | EThread _ inp => 0 <= ei_wait inp
  | _ => True
  end.

Inductive service_reach (runs : RequestKind -> Prop) : Service -> Prop :=
| reach_ctor : service_reach runs Service_ctor
| reach_event ev s : service_reach runs s -> event_ok runs ev s -> service_reach runs (service_step ev s).1.
End processor.
