(* ===== verification/WorkerProcessorInv.v ===== *)
(** * Invariants of the request processor

    [req_inv] says where requests are and in what status, [thread_inv] relates
    the state of the processor to its threads.  Every event preserves both. *)

From S2P Require Import Prelude.
From S2P Require Import StdHeap.
From S2P Require Import WorkerRequest.
From S2P Require Import WorkerProcessor.

Implicit Types (p : WorkerProcessor) (a : nat) (r : WorkerRequest) (ths : list (nat * PC)).

(** ** Requests *)

(** The request that a thread holds. *)
Definition holds (pc : PC) : option nat :=
  match pc with
  | PGot o => o
  | PExec a | PCheck a | PRollback a | PRefuse a | PFinish a => Some a
  | _ => None
  end.
Definition held ths : list nat := omap (fun x => holds x.2) ths.

Definition status_of p a : option CompletionStatus := wr_status <$> wp_requests p !! a.
Definition all_requests p : list nat := wp_newRequests p ++ wp_inProgressRequests p ++ wp_finishedRequests p.
Definition replica p a : option (string * Z) :=
  match wp_requests p !! a with Some r => replica_of (wr_kind r) | None => None end.

Definition status_in p (P : CompletionStatus -> Prop) a : Prop :=
  match status_of p a with Some s => P s | None => False end.

(** The status of a request agrees with the position of the thread that holds it. *)
Definition pc_ok p (pc : PC) : Prop :=
  match pc with
  | PGot (Some a) | PExec a | PCheck a | PRollback a => status_in p running a
  | PRefuse a => is_Some (wp_requests p !! a)
  | PFinish a => status_in p completed a
  | PCrash _ => False
  | _ => True
  end.

Record req_inv (runs : RequestKind -> Prop) p ths : Prop := {
  ri_nodup : NoDup (all_requests p);
  ri_dom a : a ∈ all_requests p <-> is_Some (wp_requests p !! a);
  ri_next a : is_Some (wp_requests p !! a) -> (a < wp_next p)%nat;
  ri_ids a b ra rb : wp_requests p !! a = Some ra -> wp_requests p !! b = Some rb -> wr_id ra = wr_id rb -> a = b;
  ri_kinds a r : wp_requests p !! a = Some r -> runs (wr_kind r);
  ri_new : Forall (status_in p (fun s => s = STATUS_NONE)) (wp_newRequests p);
  ri_finished : Forall (status_in p completed) (wp_finishedRequests p);
  ri_held : held ths ≡ₚ wp_inProgressRequests p;
  ri_pcs : Forall (fun x => pc_ok p x.2) ths;
  ri_heap : is_heap (WorkerRequestCompare p) (wp_newRequests p);
  ri_replicas : NoDup (omap (replica p) (wp_newRequests p ++ wp_inProgressRequests p));
}.

#[export] Instance WorkerRequestCompare_sw p : StrictWeak (WorkerRequestCompare p).
Proof. unfold WorkerRequestCompare. split; intros *; rewrite ?Z.ltb_lt, ?Z.ltb_ge; lia. Qed.

(** Two stores with the same requests up to status. *)
Definition same_store p p' : Prop :=
  forall a, match wp_requests p !! a, wp_requests p' !! a with
            | Some r, Some r' => same_request r r'
            | None, None => True
            | _, _ => False
            end.

Lemma same_store_eq p p' : wp_requests p' = wp_requests p -> same_store p p'.
Proof. intros Hr a. rewrite Hr. by destruct (wp_requests p !! a). Qed.

Lemma same_store_set p a r r' :
  wp_requests p !! a = Some r -> same_request r r' -> same_store p (wp_set_request a r' p).
Proof.
  intros Ha Hs b. simpl. destruct (decide (a = b)) as [<-|Hne]; [by rewrite Ha, lookup_insert_eq|].
  rewrite lookup_insert_ne by done. by destruct (wp_requests p !! b).
Qed.

Section same.
Context (p p' : WorkerProcessor) (Hsame : same_store p p').

Lemma same_is_Some a : is_Some (wp_requests p' !! a) <-> is_Some (wp_requests p !! a).
Proof. specialize (Hsame a). by destruct (wp_requests p !! a), (wp_requests p' !! a). Qed.

Lemma same_Some a r' : wp_requests p' !! a = Some r' -> exists r, wp_requests p !! a = Some r /\ same_request r r'.
Proof. intros Ha. specialize (Hsame a). rewrite Ha in Hsame. destruct (wp_requests p !! a); [eauto|done]. Qed.

Lemma same_prio a : prio p' a = prio p a.
Proof.
  unfold prio. specialize (Hsame a). destruct (wp_requests p !! a), (wp_requests p' !! a); try done. apply Hsame.
Qed.

Lemma same_id a : req_id p' a = req_id p a.
Proof.
  unfold req_id. specialize (Hsame a). destruct (wp_requests p !! a), (wp_requests p' !! a); try done. apply Hsame.
Qed.

Lemma same_replica a : replica p' a = replica p a.
Proof.
  unfold replica. specialize (Hsame a). destruct (wp_requests p !! a), (wp_requests p' !! a); try done.
  by destruct Hsame as (_ & -> & _).
Qed.

Lemma same_compare a b : WorkerRequestCompare p' a b = WorkerRequestCompare p a b.
Proof. unfold WorkerRequestCompare. by rewrite !same_prio. Qed.

Lemma same_heap l : is_heap (WorkerRequestCompare p) l -> is_heap (WorkerRequestCompare p') l.
Proof.
  apply (is_heap_cong (WorkerRequestCompare p) (WorkerRequestCompare p') (fun _ => True)).
  - intros. by rewrite same_compare.
  - by apply Forall_true.
Qed.

Lemma same_remove l id : erase_id p' id l = erase_id p id l.
Proof. induction l as [|a l IH]; simpl; [done|]. by rewrite same_id, IH. Qed.
End same.

(** Moving requests between the collections and changing their status. *)
Lemma req_inv_move runs p p' ths ths' rest :
  req_inv runs p ths -> wp_next p' = wp_next p -> same_store p p' ->
  all_requests p' ≡ₚ all_requests p ->
  wp_newRequests p ++ wp_inProgressRequests p ≡ₚ (wp_newRequests p' ++ wp_inProgressRequests p') ++ rest ->
  Forall (status_in p' (fun s => s = STATUS_NONE)) (wp_newRequests p') ->
  Forall (status_in p' completed) (wp_finishedRequests p') ->
  held ths' ≡ₚ wp_inProgressRequests p' -> Forall (fun x => pc_ok p' x.2) ths' ->
  is_heap (WorkerRequestCompare p') (wp_newRequests p') ->
  req_inv runs p' ths'.
Proof.
  intros Hi Hnext Hs Hall Hact Hnew Hfin Hheld Hpcs Hheap. split; auto.
  - rewrite Hall. apply Hi.
  - intros a. rewrite Hall, same_is_Some by done. apply Hi.
  - intros a. rewrite Hnext, same_is_Some by done. apply Hi.
  - intros a b ra rb Ha Hb He. destruct (same_Some p p' Hs a ra Ha) as (ra0 & Ha0 & Hra & _).
    destruct (same_Some p p' Hs b rb Hb) as (rb0 & Hb0 & Hrb & _). eapply (ri_ids _ _ _ Hi); eauto. congruence.
  - intros a r' Ha. destruct (same_Some p p' Hs a r' Ha) as (r & Ha0 & _ & -> & _). by eapply (ri_kinds _ _ _ Hi).
  - pose proof (ri_replicas _ _ _ Hi) as Hr. rewrite Hact, omap_app in Hr. apply NoDup_app in Hr as [Hr _].
    erewrite list_omap_ext; [exact Hr|]. apply Forall2_same_length_lookup_2; [done|].
    intros i x y Hx Hy. simplify_eq. by apply same_replica.
Qed.

(** ** The threads that hold requests *)

Lemma thread_held_insert ths k i pc pc' :
  ths !! k = Some (i, pc) ->
  held (<[k := (i, pc')]> ths) ++ option_list (holds pc) ≡ₚ held ths ++ option_list (holds pc').
Proof.
  revert k. induction ths as [|x ths IH]; intros [|k] Hk; simplify_eq/=.
  - destruct (holds pc), (holds pc'); simpl; rewrite ?app_nil_r, <- ?Permutation_cons_append; try done.
    apply Permutation_swap.
  - destruct (holds x.2); simpl; [constructor|]; by apply IH.
Qed.

Lemma held_elem ths k i pc a : ths !! k = Some (i, pc) -> holds pc = Some a -> a ∈ held ths.
Proof. intros Hk Ha. unfold held. apply list_elem_of_omap. exists (i, pc). split; [by eapply list_elem_of_lookup_2|done]. Qed.

(** Two threads never hold the same request. *)
Lemma held_unique ths k k' i i' pc pc' a :
  NoDup (held ths) -> ths !! k = Some (i, pc) -> ths !! k' = Some (i', pc') ->
  holds pc = Some a -> holds pc' = Some a -> k = k'.
Proof.
  revert k k'. induction ths as [|x ths IH]; intros [|k] [|k'] Hn Hk Hk' Ha Ha'; simplify_eq/=; [done| | |].
  - rewrite Ha in Hn. apply NoDup_cons in Hn as [[] _]. by eapply held_elem.
  - rewrite Ha' in Hn. apply NoDup_cons in Hn as [[] _]. by eapply held_elem.
  - f_equal. eapply IH; eauto. destruct (holds x.2); [by apply NoDup_cons in Hn as [_ Hn]|done].
Qed.

Lemma status_in_set_ne p a b r P : a <> b -> status_in (wp_set_request a r p) P b <-> status_in p P b.
Proof. intros Hne. unfold status_in, status_of. simpl. by rewrite lookup_insert_ne. Qed.

Lemma status_in_set_eq p a r P : status_in (wp_set_request a r p) P a <-> P (wr_status r).
Proof. unfold status_in, status_of. simpl. by rewrite lookup_insert_eq. Qed.

Lemma status_in_elim p P a : status_in p P a -> exists r, wp_requests p !! a = Some r /\ P (wr_status r).
Proof. unfold status_in, status_of. destruct (wp_requests p !! a) as [r|]; [eauto|done]. Qed.

Lemma status_in_intro p (P : CompletionStatus -> Prop) a r :
  wp_requests p !! a = Some r -> P (wr_status r) -> status_in p P a.
Proof. unfold status_in, status_of. by intros ->. Qed.

Lemma pc_ok_other p a r pc : holds pc <> Some a -> pc_ok p pc -> pc_ok (wp_set_request a r p) pc.
Proof.
  intros Hh. destruct pc as [| |[]| | | | | | | | | |]; simpl in *; try done;
    try (intros; apply status_in_set_ne; [congruence|done]).
  intros. rewrite lookup_insert_ne by congruence. done.
Qed.

(** The other threads when thread [k] updates the request it holds. *)
Lemma pcs_update p ths k i pc pc' a r :
  NoDup (held ths) -> ths !! k = Some (i, pc) -> holds pc = Some a ->
  Forall (fun x => pc_ok p x.2) ths -> pc_ok (wp_set_request a r p) pc' ->
  Forall (fun x => pc_ok (wp_set_request a r p) x.2) (<[k := (i, pc')]> ths).
Proof.
  intros Hn Hk Ha Hall Hok. apply Forall_lookup. intros j [i' x] Hj. simpl.
  destruct (decide (k = j)) as [<-|Hne].
  - rewrite list_lookup_insert_eq in Hj by (by eapply lookup_lt_Some). by simplify_eq.
  - rewrite list_lookup_insert_ne in Hj by done. apply pc_ok_other; [|by eapply (Forall_lookup_1 _ _ _ _ Hall Hj)].
    intros Hx. apply Hne. eapply (held_unique ths); eauto.
Qed.

(** The other threads when thread [k] changes only its position. *)
Lemma pcs_step p p' ths k i pc' :
  wp_requests p' = wp_requests p -> Forall (fun x => pc_ok p x.2) ths -> pc_ok p' pc' ->
  Forall (fun x => pc_ok p' x.2) (<[k := (i, pc')]> ths).
Proof.
  intros Hr Hall Hok. apply Forall_insert; [|done]. eapply Forall_impl; [exact Hall|]. intros [i' x]. simpl.
  destruct x as [| |[]| | | | | | | | | |]; simpl; unfold status_in, status_of; by rewrite ?Hr.
Qed.

Section inv.
Context (runs : RequestKind -> Prop).
Implicit Types (now : Z).

Lemma inv_nodup_held p ths : req_inv runs p ths -> NoDup (held ths).
Proof.
  intros Hi. rewrite (ri_held _ _ _ Hi). pose proof (ri_nodup _ _ _ Hi) as Hn. unfold all_requests in Hn.
  by apply NoDup_app in Hn as (_ & _ & [Hn _]%NoDup_app).
Qed.

Lemma inv_ids p ths a b :
  req_inv runs p ths -> is_Some (wp_requests p !! a) -> is_Some (wp_requests p !! b) -> req_id p a = req_id p b -> a = b.
Proof. intros Hi [ra Ha] [rb Hb]. unfold req_id. rewrite Ha, Hb. by apply (ri_ids _ _ _ Hi). Qed.

Lemma in_all p a :
  a ∈ all_requests p <->
  (a ∈ wp_newRequests p) \/ (a ∈ wp_inProgressRequests p) \/ (a ∈ wp_finishedRequests p).
Proof. unfold all_requests. by rewrite !elem_of_app. Qed.

(** A request that a thread holds is in progress and nowhere else. *)
Lemma held_in_progress p ths k i pc a :
  req_inv runs p ths -> ths !! k = Some (i, pc) -> holds pc = Some a ->
  a ∈ wp_inProgressRequests p /\ a ∉ wp_newRequests p /\ a ∉ wp_finishedRequests p.
Proof.
  intros Hi Hk Ha. pose proof (held_elem _ _ _ _ _ Hk Ha) as Hin. rewrite (ri_held _ _ _ Hi) in Hin.
  pose proof (ri_nodup _ _ _ Hi) as (_ & Hd & (_ & Hd' & _)%NoDup_app)%NoDup_app. split; [done|].
  split; [intros Hx; apply (Hd a Hx); set_solver|by apply Hd'].
Qed.

(** Thread [k] changes the status of the request it holds. *)
Lemma held_update p ths k i pc pc' a r r' :
  req_inv runs p ths -> ths !! k = Some (i, pc) -> holds pc = Some a -> holds pc' = Some a ->
  wp_requests p !! a = Some r -> same_request r r' -> pc_ok (wp_set_request a r' p) pc' ->
  req_inv runs (wp_set_request a r' p) (<[k := (i, pc')]> ths).
Proof.
  intros Hi Hk Ha Ha' Hr Hs Hok. destruct (held_in_progress _ _ _ _ _ _ Hi Hk Ha) as (Hin & Hnn & Hnf).
  eapply (req_inv_move runs p _ ths _ []); auto.
  - by eapply same_store_set.
  - by rewrite app_nil_r.
  - apply Forall_forall. intros b Hb. apply status_in_set_ne; [set_solver|].
    pose proof (ri_new _ _ _ Hi) as Hf. rewrite Forall_forall in Hf. by apply Hf.
  - apply Forall_forall. intros b Hb. apply status_in_set_ne; [set_solver|].
    pose proof (ri_finished _ _ _ Hi) as Hf. rewrite Forall_forall in Hf. by apply Hf.
  - pose proof (thread_held_insert ths k i pc pc' Hk) as Hp. rewrite Ha, Ha' in Hp. apply Permutation_app_inv_r in Hp.
    by rewrite Hp, (ri_held _ _ _ Hi).
  - eapply pcs_update; eauto; [by eapply inv_nodup_held|apply Hi].
  - eapply same_heap; [by eapply same_store_set|apply Hi].
Qed.

(** Thread [k] changes only its position. *)
Lemma pc_update p p' ths k i pc pc' :
  req_inv runs p ths -> ths !! k = Some (i, pc) -> holds pc' = holds pc -> pc_ok p' pc' ->
  wp_requests p' = wp_requests p -> wp_next p' = wp_next p ->
  wp_newRequests p' = wp_newRequests p -> wp_inProgressRequests p' = wp_inProgressRequests p ->
  wp_finishedRequests p' = wp_finishedRequests p -> req_inv runs p' (<[k := (i, pc')]> ths).
Proof.
  intros Hi Hk Hh Hok Hr Hx Hn Hip Hf.
  assert (Hs : same_store p p') by (by apply same_store_eq).
  assert (Hst : forall P l, Forall (status_in p P) l -> Forall (status_in p' P) l).
  { intros P l Hl. eapply Forall_impl; [exact Hl|]. intros b. unfold status_in, status_of. by rewrite Hr. }
  eapply (req_inv_move runs p _ ths _ []); auto.
  - unfold all_requests. by rewrite Hn, Hip, Hf.
  - by rewrite app_nil_r, Hn, Hip.
  - rewrite Hn. apply Hst, Hi.
  - rewrite Hf. apply Hst, Hi.
  - pose proof (thread_held_insert ths k i pc pc' Hk) as Hp. rewrite Hh in Hp. apply Permutation_app_inv_r in Hp.
    by rewrite Hp, Hip, (ri_held _ _ _ Hi).
  - eapply pcs_step; [done|apply Hi|done].
  - rewrite Hn. eapply same_heap; [exact Hs|apply Hi].
Qed.

(** ** Fetching *)

Lemma new_status p ths a : req_inv runs p ths -> a ∈ wp_newRequests p -> status_in p (fun s => s = STATUS_NONE) a.
Proof. intros Hi Ha. pose proof (ri_new _ _ _ Hi) as Hf. rewrite Forall_forall in Hf. by apply Hf. Qed.

Lemma fetch_inv p ths k i e now :
  req_inv runs p ths -> ths !! k = Some (i, PFetch e) ->
  (wp_newRequests p = [] /\ fetch_locked now p = Ret (p, None)) \/
  exists p' a, fetch_locked now p = Ret (p', Some a) /\ req_inv runs p' (<[k := (i, PGot (Some a))]> ths) /\
    a :: wp_newRequests p' ≡ₚ wp_newRequests p /\ wp_threads p' = wp_threads p /\ wp_state p' = wp_state p.
Proof.
  intros Hi Hk. unfold fetch_locked, pq_top. destruct (wp_newRequests p) as [|a l] eqn:Hl; [by left|]. right. simpl.
  destruct (status_in_elim _ _ _ (new_status p ths a Hi ltac:(rewrite Hl; by left))) as (r & Hr & Hst).
  rewrite Hr. unfold wr_start. rewrite Hst. simpl. set (r' := setStatus now STATUS_IN_PROGRESS EXT_STATUS_NONE r).
  eexists _, a. split; [done|].
  assert (Hperm : a :: pq_pop p ≡ₚ wp_newRequests p) by (unfold pq_pop; rewrite Hl; apply pop_heap_Permutation).
  assert (Hn : NoDup (a :: pq_pop p)).
  { rewrite Hperm. pose proof (ri_nodup _ _ _ Hi) as Hn. by apply NoDup_app in Hn as [? _]. }
  pose proof (ri_nodup _ _ _ Hi) as Hnd. split; [|rewrite <- Hl; done].
  eapply (req_inv_move runs p _ ths _ []); auto; simpl.
  - apply (same_store_set p a r r'); done.
  - unfold all_requests. simpl. rewrite <- Hperm. solve_Permutation.
  - rewrite <- Hperm. solve_Permutation.
  - apply NoDup_cons in Hn as [Hna _]. apply Forall_forall. intros b Hb. apply (status_in_set_ne p a b r'); [set_solver|].
    apply (new_status p ths); [done|]. rewrite <- Hperm. by right.
  - apply Forall_forall. intros b Hb. apply (status_in_set_ne p a b r').
    + intros ->. apply NoDup_app in Hnd as (_ & Hd & _). apply (Hd b); [rewrite Hl; by left|set_solver].
    + pose proof (ri_finished _ _ _ Hi) as Hf. rewrite Forall_forall in Hf. by apply Hf.
  - pose proof (thread_held_insert ths k i (PFetch e) (PGot (Some a)) Hk) as Hp. simpl in Hp. rewrite app_nil_r in Hp.
    by rewrite Hp, (ri_held _ _ _ Hi).
  - apply Forall_insert; [|apply (status_in_set_eq p a r'); by left]. apply Forall_lookup. intros j [i' x] Hj. simpl.
    apply (pc_ok_other p a r'); [|by apply (Forall_lookup_1 _ _ _ _ (ri_pcs _ _ _ Hi) Hj)].
    intros Hx. destruct (held_in_progress _ _ _ _ _ _ Hi Hj Hx) as (_ & Hx' & _). apply Hx'. rewrite Hl. by left.
  - apply (same_heap p (wp_set_request a r' p)); [by eapply same_store_set|]. unfold pq_pop.
    apply pop_heap_heap; [apply _|]. apply Hi.
Qed.

(** ** Refusing and finishing *)

Lemma filter_id p l a :
  NoDup l -> a ∈ l -> (forall b, b ∈ l -> req_id p b = req_id p a -> b = a) ->
  l ≡ₚ a :: filter (fun b => req_id p b <> req_id p a) l.
Proof.
  intros Hn Ha Hu. apply NoDup_Permutation; [done| |].
  - constructor; [|by apply NoDup_filter]. rewrite list_elem_of_filter. by intros [].
  - intros b. rewrite elem_of_cons, list_elem_of_filter. destruct (decide (b = a)) as [->|Hne]; [tauto|].
    split; [|naive_solver]. intros Hb. right. split; [|done]. intros He. apply Hne. by apply Hu.
Qed.

Lemma remove_in_progress_spec p ths a :
  req_inv runs p ths -> a ∈ wp_inProgressRequests p ->
  wp_inProgressRequests p ≡ₚ a :: remove_in_progress (req_id p a) p.
Proof.
  intros Hi Ha. pose proof (ri_nodup _ _ _ Hi) as (_ & _ & (Hn & _ & _)%NoDup_app)%NoDup_app.
  apply filter_id; [done|done|]. intros b Hb. eapply inv_ids; [exact Hi| |]; apply (ri_dom _ _ _ Hi), in_all; auto.
Qed.

Lemma finish_inv p ths k i a :
  req_inv runs p ths -> ths !! k = Some (i, PFinish a) ->
  req_inv runs (processingFinished a p) (<[k := (i, PLoop)]> ths).
Proof.
  intros Hi Hk. destruct (held_in_progress _ _ _ _ _ _ Hi Hk eq_refl) as (Hin & _ & _).
  pose proof (remove_in_progress_spec p ths a Hi Hin) as Hp.
  eapply (req_inv_move runs p _ ths _ [a]); auto; simpl.
  - by apply same_store_eq.
  - unfold all_requests. simpl. rewrite Hp. solve_Permutation.
  - rewrite Hp. solve_Permutation.
  - apply Hi.
  - apply Forall_app. split; [apply Hi|]. constructor; [|done]. apply (Forall_lookup_1 _ _ _ _ (ri_pcs _ _ _ Hi) Hk).
  - pose proof (thread_held_insert ths k i (PFinish a) PLoop Hk) as Hh. simpl in Hh.
    rewrite app_nil_r, (ri_held _ _ _ Hi), <- Permutation_cons_append, Hp in Hh. by apply Permutation_cons_inv in Hh.
  - eapply (pcs_step p); [done|apply Hi|done].
  - apply Hi.
Qed.

Lemma refuse_inv p ths k i a now :
  req_inv runs p ths -> ths !! k = Some (i, PRefuse a) ->
  req_inv runs (processingRefused a now p) (<[k := (i, PLoop)]> ths).
Proof.
  intros Hi Hk. destruct (held_in_progress _ _ _ _ _ _ Hi Hk eq_refl) as (Hin & Hnn & Hnf).
  destruct (Forall_lookup_1 _ _ _ _ (ri_pcs _ _ _ Hi) Hk) as [r Hr]. simpl in Hr.
  unfold processingRefused. rewrite Hr. set (r' := wr_stop now r). set (p1 := wp_set_request a r' p).
  assert (Hs : same_store p p1) by (by apply (same_store_set p a r r')).
  assert (Hp : wp_inProgressRequests p ≡ₚ a :: remove_in_progress (wr_id r) p1).
  { assert (Hid : wr_id r = req_id p a) by (unfold req_id; by rewrite Hr). rewrite Hid.
    rewrite (remove_in_progress_spec p ths a Hi Hin). constructor. apply Permutation_refl', list_filter_iff.
    intros b. by rewrite (same_id p p1). }
  set (p2 := wp_set_queues (wp_newRequests p1) _ _ p1).
  assert (Hpush : pq_push a p2 ≡ₚ a :: wp_newRequests p) by (apply push_heap_Permutation).
  eapply (req_inv_move runs p _ ths _ []); auto.
  - unfold all_requests. cbn [wp_newRequests wp_inProgressRequests wp_finishedRequests wp_set_queues].
    rewrite Hpush. simpl. rewrite Hp. solve_Permutation.
  - cbn [wp_newRequests wp_inProgressRequests wp_set_queues]. rewrite Hpush. simpl. rewrite Hp. solve_Permutation.
  - apply Forall_forall. intros b Hb. cbn [wp_newRequests wp_set_queues] in Hb. rewrite Hpush in Hb.
    apply elem_of_cons in Hb as [->|Hb]; [by apply (status_in_set_eq p a r')|]. apply (status_in_set_ne p a b r'); [set_solver|]. by eapply new_status.
  - apply Forall_forall. intros b Hb. apply (status_in_set_ne p a b r'); [set_solver|].
    pose proof (ri_finished _ _ _ Hi) as Hf. rewrite Forall_forall in Hf. by apply Hf.
  - pose proof (thread_held_insert ths k i (PRefuse a) PLoop Hk) as Hh. simpl in Hh.
    rewrite app_nil_r, (ri_held _ _ _ Hi), <- Permutation_cons_append, Hp in Hh. by apply Permutation_cons_inv in Hh.
  - eapply (pcs_update p); [by eapply inv_nodup_held|done..|apply Hi|done].
  - apply push_heap_heap; [apply _|]. apply (same_heap p p2); [exact Hs|apply Hi].
Qed.

(** ** Cancelling *)

Lemma wr_cancel_same now r : same_request r (wr_cancel now r).
Proof. unfold wr_cancel. by destruct (wr_status r). Qed.

Lemma wr_cancel_running now r : running (wr_status r) -> running (wr_status (wr_cancel now r)).
Proof. unfold wr_cancel. intros [-> | ->]; by right. Qed.

Lemma wr_cancel_completed now r : completed (wr_status r) -> completed (wr_status (wr_cancel now r)).
Proof. unfold wr_cancel. intros [-> |[Hs|Hs]]; [by left|rewrite Hs, Hs; unfold completed; auto..]. Qed.

Lemma pc_ok_cancel p a r now pc :
  wp_requests p !! a = Some r -> pc_ok p pc -> pc_ok (wp_set_request a (wr_cancel now r) p) pc.
Proof.
  intros Hr Hok. destruct (decide (holds pc = Some a)) as [Hh|Hh]; [|by apply pc_ok_other].
  destruct pc as [| |[]| | | | | | | | | |]; simplify_eq/=;
    try (apply status_in_elim in Hok as (r' & Hr' & Hst); simplify_eq; apply status_in_set_eq;
         by (apply wr_cancel_running || apply wr_cancel_completed)).
  by rewrite lookup_insert_eq.
Qed.

Lemma find_id_Some p id l a : find_id p id l = Some a -> a ∈ l /\ req_id p a = id.
Proof.
  unfold find_id. intros [Hin Hb]%find_some. apply bool_decide_eq_true in Hb. split; [by apply list_elem_of_In|done].
Qed.

Lemma find_id_None p id l : find_id p id l = None -> forall a, a ∈ l -> req_id p a <> id.
Proof.
  unfold find_id. intros Hn a Ha He. pose proof (find_none _ _ Hn a ltac:(by apply list_elem_of_In)) as Hb.
  by apply bool_decide_eq_false in Hb.
Qed.

Lemma erase_find p id l a :
  find_id p id l = Some a -> exists l', erase_id p id l = Some l' /\ l ≡ₚ a :: l'.
Proof.
  unfold find_id. induction l as [|b l IH]; simpl; [done|]. destruct (decide (req_id p b = id)) as [He|He].
  - rewrite bool_decide_eq_true_2 by done. intros [= ->]. eauto.
  - rewrite bool_decide_eq_false_2 by done. intros (l' & -> & Hp)%IH. eexists. split; [done|].
    rewrite Hp. apply Permutation_swap.
Qed.

Lemma finished_status p ths a : req_inv runs p ths -> a ∈ wp_finishedRequests p -> status_in p completed a.
Proof. intros Hi Ha. pose proof (ri_finished _ _ _ Hi) as Hf. rewrite Forall_forall in Hf. by apply Hf. Qed.

(** A queued request that is cancelled is finished at once. *)
Lemma cancel_new_inv p ths id a r now :
  req_inv runs p ths -> find_id p id (wp_newRequests p) = Some a -> wp_requests p !! a = Some r ->
  let p1 := wp_set_request a (wr_cancel now r) p in
  req_inv runs (wp_set_queues (pq_remove id p1).1 (wp_inProgressRequests p1) (wp_finishedRequests p1 ++ [a]) p1) ths.
Proof.
  intros Hi Hf Hr p1. destruct (find_id_Some _ _ _ _ Hf) as [Ha Hid].
  assert (Hs : same_store p p1) by (eapply same_store_set, wr_cancel_same; done).
  destruct (status_in_elim _ _ _ (new_status p ths a Hi Ha)) as (r' & Hr' & Hst). simplify_eq.
  destruct (erase_find _ _ _ _ Hf) as (l & He & Hp).
  assert (Hrm : (pq_remove (req_id p a) p1).1 ≡ₚ l).
  { unfold pq_remove. simpl wp_newRequests. rewrite (same_remove p p1 Hs), He. apply make_heap_Permutation. }
  pose proof (ri_nodup _ _ _ Hi) as Hn. unfold all_requests in Hn. rewrite Hp in Hn. simpl in Hn.
  apply NoDup_cons in Hn as [Hna _].
  eapply (req_inv_move runs p _ ths ths [a]); auto.
  - unfold all_requests. cbn [wp_newRequests wp_inProgressRequests wp_finishedRequests wp_set_queues].
    rewrite Hrm, Hp. simpl. solve_Permutation.
  - cbn [wp_newRequests wp_inProgressRequests wp_set_queues]. rewrite Hrm, Hp. simpl. solve_Permutation.
  - apply Forall_forall. intros b Hb. cbn [wp_newRequests wp_set_queues] in Hb. rewrite Hrm in Hb.
    apply (status_in_set_ne p a b); [set_solver|]. eapply new_status; [done|]. rewrite Hp. by right.
  - apply Forall_app. split.
    + apply Forall_forall. intros b Hb. apply (status_in_set_ne p a b); [set_solver|]. by eapply finished_status.
    + constructor; [|done]. apply (status_in_set_eq p a). unfold wr_cancel. rewrite Hst. by left.
  - apply Hi.
  - eapply Forall_impl; [apply Hi|]. intros [i x] Hx. by apply pc_ok_cancel.
  - cbn [wp_newRequests wp_set_queues]. unfold pq_remove. simpl wp_newRequests.
    rewrite (same_remove p p1 Hs), He. apply make_heap_heap, _.
Qed.

Lemma cancel_progress_inv p ths a r now :
  req_inv runs p ths -> a ∈ wp_inProgressRequests p -> wp_requests p !! a = Some r ->
  req_inv runs (wp_set_request a (wr_cancel now r) p) ths.
Proof.
  intros Hi Ha Hr. pose proof (ri_nodup _ _ _ Hi) as (_ & Hd & (_ & Hd' & _)%NoDup_app)%NoDup_app.
  eapply (req_inv_move runs p _ ths ths []); auto.
  - eapply same_store_set, wr_cancel_same; done.
  - by rewrite app_nil_r.
  - apply Forall_forall. intros b Hb. apply (status_in_set_ne p a b); [|by eapply new_status].
    intros ->. apply (Hd b Hb). set_solver.
  - apply Forall_forall. intros b Hb. apply (status_in_set_ne p a b); [|by eapply finished_status].
    intros ->. by apply (Hd' b).
  - apply Hi.
  - eapply Forall_impl; [apply Hi|]. intros [i x] Hx. by apply pc_ok_cancel.
  - eapply same_heap; [eapply same_store_set, wr_cancel_same; done|apply Hi].
Qed.

Lemma find_is_Some p ths id l a :
  req_inv runs p ths -> find_id p id l = Some a -> (forall b, b ∈ l -> b ∈ all_requests p) ->
  a ∈ l /\ req_id p a = id /\ exists r, wp_requests p !! a = Some r.
Proof.
  intros Hi Hf Hl. destruct (find_id_Some _ _ _ _ Hf) as [Ha Hid]. split; [done|]. split; [done|].
  by apply (ri_dom _ _ _ Hi), Hl.
Qed.

(** [_dequeueOrCancelImpl] returns, and the request it returns is cancelled,
    about to be cancelled or completed. *)
Lemma cancel_inv p ths id now :
  req_inv runs p ths ->
  exists p' o, dequeueOrCancelImpl id now p = Ret (p', o) /\ req_inv runs p' ths /\
    same_store p p' /\ wp_threads p' = wp_threads p /\ wp_state p' = wp_state p /\
    match o with
    | Some a => req_id p a = id /\ status_in p' (fun s => s = STATUS_IS_CANCELLING \/ completed s) a
    | None => ~ id_used id p
    end.
Proof.
  intros Hi. unfold dequeueOrCancelImpl. destruct (find_id p id (wp_newRequests p)) as [a|] eqn:H1.
  { destruct (find_is_Some p ths id _ a Hi H1) as (Ha & Hid & r & Hr); [intros b; rewrite in_all; auto|].
    rewrite Hr. destruct (status_in_elim _ _ _ (new_status p ths a Hi Ha)) as (r' & Hr' & Hst). simplify_eq.
    assert (Hc : wr_status (wr_cancel now r) = STATUS_CANCELLED) by (unfold wr_cancel; by rewrite Hst).
    rewrite decide_True by done. eexists _, _. split; [done|]. split; [by apply cancel_new_inv|].
    split; [apply (same_store_set p a r); [done|apply wr_cancel_same]|]. split; [done|]. split; [done|]. split; [done|].
    apply (status_in_set_eq p a). right. left. done. }
  destruct (find_id p id (wp_inProgressRequests p)) as [a|] eqn:H2.
  { destruct (find_is_Some p ths id _ a Hi H2) as (Ha & Hid & r & Hr); [intros b; rewrite in_all; auto|].
    rewrite Hr. set (r' := wr_cancel now r).
    assert (Hc : wr_status r' = STATUS_IS_CANCELLING \/ completed (wr_status r')).
    { unfold r', wr_cancel, completed. destruct (wr_status r) eqn:Es; simpl; rewrite ?Es; auto. }
    assert (Heq : match wr_status r' with
                  | STATUS_CANCELLED | STATUS_IS_CANCELLING | STATUS_SUCCEEDED | STATUS_FAILED =>
                      Ret (wp_set_request a r' p, Some a)
                  | _ => Raise LogicError
                  end = Ret (wp_set_request a r' p, Some a)).
    { destruct Hc as [-> |[-> |[-> | ->]]]; done. }
    rewrite Heq. eexists _, _. split; [done|]. split; [by apply cancel_progress_inv|].
    split; [apply (same_store_set p a r); [done|apply wr_cancel_same]|]. split; [done|]. split; [done|]. split; [done|].
    by apply (status_in_set_eq p a). }
  destruct (find_id p id (wp_finishedRequests p)) as [a|] eqn:H3.
  { destruct (find_is_Some p ths id _ a Hi H3) as (Ha & Hid & r & Hr); [intros b; rewrite in_all; auto|].
    rewrite Hr. destruct (status_in_elim _ _ _ (finished_status p ths a Hi Ha)) as (r' & Hr' & Hst). simplify_eq.
    assert (Hc : status_in p (fun s => s = STATUS_IS_CANCELLING \/ completed s) a)
      by (eapply status_in_intro; [done|by right]).
    assert (Hss : same_store p p) by (by apply same_store_eq).
    destruct Hst as [-> |[-> | ->]]; eexists _, _; eauto 10. }
  eexists _, _. split; [done|]. split; [done|]. split; [by apply same_store_eq|]. split; [done|]. split; [done|].
  intros (a & r & Hr & Hid). assert (Ha : a ∈ all_requests p) by (apply (ri_dom _ _ _ Hi); eauto).
  assert (Hid' : req_id p a = id) by (unfold req_id; by rewrite Hr).
  apply in_all in Ha as [Ha|[Ha|Ha]].
  - by apply (find_id_None _ _ _ H1 a).
  - by apply (find_id_None _ _ _ H2 a).
  - by apply (find_id_None _ _ _ H3 a).
Qed.

Lemma drain_inv p ths now :
  req_inv runs p ths ->
  exists p', drain now p = Ret p' /\ req_inv runs p' ths /\ wp_threads p' = wp_threads p /\ wp_state p' = wp_state p.
Proof.
  unfold drain. generalize (map (req_id p) (wp_newRequests p ++ wp_inProgressRequests p)) as l. intros l. revert p.
  induction l as [|id l IH]; intros p Hi; simpl; [eauto|].
  destruct (cancel_inv p ths id now Hi) as (p1 & o & -> & Hi1 & _ & Ht1 & Hs1 & _). simpl.
  destruct (IH p1 Hi1) as (p2 & -> & Hi2 & Ht2 & Hs2). exists p2. split; [done|]. split; [done|]. split; congruence.
Qed.

(** ** Enqueueing *)

Lemma pc_ok_grow p p' pc :
  (forall a r, wp_requests p !! a = Some r -> wp_requests p' !! a = Some r) -> pc_ok p pc -> pc_ok p' pc.
Proof.
  intros Hg. destruct pc as [| |[]| | | | | | | | | |]; simpl; try done;
    try (intros (r & Hr & Hst)%status_in_elim; eapply status_in_intro; eauto).
  intros [r Hr]. eauto.
Qed.

Lemma heap_grow p p' l :
  (forall a r, wp_requests p !! a = Some r -> wp_requests p' !! a = Some r) ->
  Forall (fun a => is_Some (wp_requests p !! a)) l ->
  is_heap (WorkerRequestCompare p) l -> is_heap (WorkerRequestCompare p') l.
Proof.
  intros Hg Hl. apply (is_heap_cong _ _ (fun a => is_Some (wp_requests p !! a))); [|done].
  intros x y [rx Hx] [ry Hy]. unfold WorkerRequestCompare, prio. by rewrite Hx, Hy, (Hg _ _ Hx), (Hg _ _ Hy).
Qed.

Lemma replicas_grow p p' l :
  (forall a r, wp_requests p !! a = Some r -> wp_requests p' !! a = Some r) ->
  Forall (fun a => is_Some (wp_requests p !! a)) l -> omap (replica p') l = omap (replica p) l.
Proof.
  intros Hg Hl. apply list_omap_ext, Forall2_same_length_lookup_2; [done|]. intros i x y Hx Hy. simplify_eq.
  destruct (Forall_lookup_1 _ _ _ _ Hl Hx) as [rx Hrx]. unfold replica. by rewrite Hrx, (Hg _ _ Hrx).
Qed.

Lemma enqueue_new_inv valid p ths id k priority now :
  req_inv runs p ths -> ~ id_used id p -> runs k ->
  (forall a, a ∈ wp_newRequests p ++ wp_inProgressRequests p -> replica_of k <> None -> replica p a <> replica_of k) ->
  req_inv runs (enqueue_new valid id k priority now p).1 ths.
Proof.
  intros Hi Hid Hk Hrep. unfold enqueue_new. destruct (valid k); [|done]. cbn [fst].
  set (a := wp_next p). set (r := WorkerRequest_ctor id k priority now).
  set (p1 := mkProcessor _ _ _ _ _ _ _).
  assert (Hfresh : wp_requests p !! a = None).
  { apply eq_None_not_Some. intros Hx%(ri_next _ _ _ Hi). unfold a in Hx. lia. }
  assert (Hg : forall b rb, wp_requests p !! b = Some rb -> wp_requests p1 !! b = Some rb).
  { intros b rb Hb. simpl. rewrite lookup_insert_ne; [done|]. intros ->. congruence. }
  assert (Hst : forall P l, Forall (status_in p P) l -> Forall (status_in p1 P) l).
  { intros P l Hl. eapply Forall_impl; [exact Hl|]. intros b (rb & Hb & Hs)%status_in_elim. eapply status_in_intro; eauto. }
  assert (Hpush : pq_push a p1 ≡ₚ a :: wp_newRequests p) by apply push_heap_Permutation.
  assert (Hall : all_requests (wp_set_queues (pq_push a p1) (wp_inProgressRequests p1) (wp_finishedRequests p1) p1)
                 ≡ₚ a :: all_requests p).
  { unfold all_requests. cbn [wp_newRequests wp_inProgressRequests wp_finishedRequests wp_set_queues].
    rewrite Hpush. simpl. solve_Permutation. }
  assert (Hna : a ∉ all_requests p) by (rewrite (ri_dom _ _ _ Hi), Hfresh; by intros []).
  split.
  - rewrite Hall. constructor; [done|apply Hi].
  - intros b. rewrite Hall, elem_of_cons, (ri_dom _ _ _ Hi b). simpl. rewrite lookup_insert_is_Some.
    destruct (decide (b = a)) as [->|]; naive_solver.
  - intros b. simpl. rewrite lookup_insert_is_Some. intros [<-|[_ Hb%(ri_next _ _ _ Hi)]]; unfold a; lia.
  - intros b c rb rc. simpl. rewrite !lookup_insert_Some. intros [[<- <-]|[_ Hb]] [[<- <-]|[_ Hc]] He; [done| | |].
    + destruct Hid. exists c, rc. split; [done|]. by rewrite <- He.
    + destruct Hid. exists b, rb. split; [done|]. by rewrite He.
    + eapply (ri_ids _ _ _ Hi); eauto.
  - intros b rb. simpl. rewrite lookup_insert_Some. intros [[<- <-]|[_ Hb]]; [done|]. by eapply (ri_kinds _ _ _ Hi).
  - apply Forall_forall. intros b Hb. cbn [wp_newRequests wp_set_queues] in Hb. rewrite Hpush in Hb.
    apply elem_of_cons in Hb as [->|Hb].
    + apply (status_in_intro p1 _ a r); [apply lookup_insert_eq|done].
    + pose proof (Hst _ _ (ri_new _ _ _ Hi)) as Hf. rewrite Forall_forall in Hf. by apply Hf.
  - apply Hst, Hi.
  - apply Hi.
  - eapply Forall_impl; [apply Hi|]. intros [i x] Hx. by eapply (pc_ok_grow p p1).
  - apply push_heap_heap; [apply _|]. eapply (heap_grow p p1); [done| |apply Hi].
    apply Forall_forall. intros b Hb. apply (ri_dom _ _ _ Hi), in_all. auto.
  - cbn [wp_newRequests wp_inProgressRequests wp_set_queues].
    change (replica (wp_set_queues (pq_push a p1) (wp_inProgressRequests p1) (wp_finishedRequests p1) p1))
      with (replica p1). rewrite Hpush. simpl.
    assert (Ha : replica p1 a = replica_of k) by (unfold replica; simpl; by rewrite lookup_insert_eq).
    rewrite Ha, (replicas_grow p p1); [|done|].
    + destruct (replica_of k) as [x|] eqn:Ek; [|apply Hi].
      constructor; [|apply Hi]. intros (b & Hb & Hbx)%list_elem_of_omap. by apply (Hrep b Hb).
    + apply Forall_forall. intros b Hb. apply (ri_dom _ _ _ Hi), in_all. set_solver.
Qed.

Lemma enqueue_inv valid p ths id k priority now :
  req_inv runs p ths -> ~ id_used id p -> runs k -> req_inv runs (enqueue valid id k priority now p).1 ths.
Proof.
  intros Hi Hid Hk.
  assert (Hrepl : req_inv runs (enqueue_replica valid id k priority now p).1 ths).
  { unfold enqueue_replica. destruct (find_duplicate k p) as [d|] eqn:Hd; [done|].
    apply enqueue_new_inv; [done..|]. intros a Ha Hx He.
    pose proof (find_none _ _ Hd a ltac:(by apply list_elem_of_In)) as Hb. unfold is_duplicate, replica in *.
    destruct (wp_requests p !! a) as [r|] eqn:Hr; [|congruence]. destruct (replica_of k) as [x|]; [|done].
    by apply bool_decide_eq_false in Hb. }
  destruct k; simpl; try exact Hrepl; try (apply enqueue_new_inv; done).
  unfold enqueueForEcho. destruct (_ =? 0); [done|]. by apply enqueue_new_inv.
Qed.
End inv.
