(* ===== verification/WorkerProcessorThreads.v ===== *)
(** * The threads of the request processor

    The second invariant of the service: which threads run in which state of
    the processor, and how the stop flags and the started threads agree. *)

From S2P Require Import Prelude.
From S2P Require Import StdHeap.
From S2P Require Import WorkerRequest.
From S2P Require Import WorkerProcessor.
From S2P Require Import WorkerProcessorInv.

Implicit Types (p : WorkerProcessor) (a : nat) (r : WorkerRequest) (ths : list (nat * PC)) (pc : PC).

(** A started thread whose object still says that it runs. *)
Definition live pc : bool := match pc with PReport | PDone => false | _ => true end.

(** A started thread in its loop. *)
Definition looping pc : bool := match pc with PStop | PReset | PReport | PDone => false | _ => true end.

Record thread_inv p ths : Prop := {
  ti_bound k i pc : ths !! k = Some (i, pc) -> is_Some (wp_threads p !! i);
  ti_uniq k k' i pc pc' :
    ths !! k = Some (i, pc) -> ths !! k' = Some (i, pc') -> live pc = true -> live pc' = true -> k = k';
  ti_run i t :
    wp_threads p !! i = Some t ->
    th_running t = true <-> exists k pc, ths !! k = Some (i, pc) /\ live pc = true;
  ti_idle i t : wp_threads p !! i = Some t -> th_running t = false -> th_stop t = false;
  ti_reset k i : ths !! k = Some (i, PReset) -> stop_flag i p = false;
  ti_running :
    wp_state p = STATE_IS_RUNNING ->
    wp_threads p <> [] /\
    (forall i t, wp_threads p !! i = Some t -> th_running t = true /\ th_stop t = false) /\
    (forall k i pc, ths !! k = Some (i, pc) -> live pc = true -> looping pc = true);
  ti_stopping :
    wp_state p = STATE_IS_STOPPING ->
    (forall k i pc, ths !! k = Some (i, pc) -> looping pc = true \/ pc = PStop -> stop_flag i p = true) /\
    (exists k i pc, ths !! k = Some (i, pc) /\ pc <> PDone);
  ti_stopped :
    wp_state p = STATE_IS_STOPPED -> forall i t, wp_threads p !! i = Some t -> th_running t = false;
}.

Lemma insert_lookup ths k x j y :
  is_Some (ths !! k) -> <[k := x]> ths !! j = Some y -> (j = k /\ y = x) \/ (j <> k /\ ths !! j = Some y).
Proof.
  intros Hk%lookup_lt_is_Some_1 Hj. destruct (decide (j = k)) as [->|Hne].
  - rewrite list_lookup_insert_eq in Hj by done. left. by simplify_eq.
  - rewrite list_lookup_insert_ne in Hj by done. by right.
Qed.

(** The state of the processor when a thread runs with its stop flag set. *)
Lemma live_not_stopped p ths k i pc :
  thread_inv p ths -> ths !! k = Some (i, pc) -> live pc = true -> wp_state p <> STATE_IS_STOPPED.
Proof.
  intros Hi Hk Hl Hs. destruct (ti_bound _ _ Hi _ _ _ Hk) as [t Ht].
  assert (Hr : th_running t = true) by (apply (ti_run _ _ Hi i t Ht); eauto).
  by rewrite (ti_stopped _ _ Hi Hs i t Ht) in Hr.
Qed.

Lemma stop_flag_stopping p ths k i pc :
  thread_inv p ths -> ths !! k = Some (i, pc) -> live pc = true -> stop_flag i p = true ->
  wp_state p = STATE_IS_STOPPING.
Proof.
  intros Hi Hk Hl Hf. destruct (wp_state p) eqn:Hs; [|done|].
  - destruct (ti_bound _ _ Hi _ _ _ Hk) as [t Ht]. destruct (ti_running _ _ Hi Hs) as (_ & Hall & _).
    destruct (Hall i t Ht) as [_ Hst]. unfold stop_flag in Hf. rewrite Ht in Hf. congruence.
  - by destruct (live_not_stopped _ _ _ _ _ Hi Hk Hl).
Qed.

Lemma not_looping_stopping p ths k i pc :
  thread_inv p ths -> ths !! k = Some (i, pc) -> live pc = true -> looping pc = false ->
  wp_state p = STATE_IS_STOPPING.
Proof.
  intros Hi Hk Hl Hn. destruct (wp_state p) eqn:Hs; [|done|].
  - destruct (ti_running _ _ Hi Hs) as (_ & _ & Hall). by rewrite (Hall _ _ _ Hk Hl) in Hn.
  - by destruct (live_not_stopped _ _ _ _ _ Hi Hk Hl).
Qed.

(** A thread moves and neither the threads nor the state change. *)
Lemma thread_inv_move p p' ths k i pc pc' :
  thread_inv p ths -> ths !! k = Some (i, pc) -> wp_threads p' = wp_threads p -> wp_state p' = wp_state p ->
  looping pc = true -> (looping pc' = true \/ (pc' = PStop /\ stop_flag i p = true)) ->
  thread_inv p' (<[k := (i, pc')]> ths).
Proof.
  intros Hi Hk Ht Hs Hl Hl'.
  assert (Hlive : live pc = true) by (by destruct pc).
  assert (Hlive' : live pc' = true) by (destruct Hl' as [Hl'|[-> _]]; [by destruct pc'|done]).
  assert (Hin : forall j x pcx, <[k := (i, pc')]> ths !! j = Some (x, pcx) ->
    exists pcy, ths !! j = Some (x, pcy) /\ live pcy = live pcx /\ (j <> k -> pcy = pcx) /\ (j = k -> pcx = pc')).
  { intros j x pcx Hj. destruct (insert_lookup _ _ _ _ _ (mk_is_Some _ _ Hk) Hj) as [[-> [= -> ->]]|[Hne Hj']].
    - exists pc. split; [done|]. split; [congruence|]. split; [done|done].
    - exists pcx. split; [done|]. split; [done|]. split; [done|]. intros ->. by destruct Hne. }
  split; rewrite ?Ht, ?Hs.
  - intros j x pcx (pcy & Hj & _)%Hin. by eapply (ti_bound _ _ Hi).
  - intros j j' x pcx pcx' (pcy & Hj & He & _)%Hin (pcy' & Hj' & He' & _)%Hin Hx Hx'.
    eapply (ti_uniq _ _ Hi); eauto; congruence.
  - intros x t Hx. rewrite (ti_run _ _ Hi x t Hx). split.
    + intros (j & pcx & Hj & Hlx). destruct (decide (j = k)) as [->|Hne].
      * simplify_eq. exists k, pc'. split; [|done]. apply list_lookup_insert_eq. by eapply lookup_lt_Some.
      * exists j, pcx. by rewrite list_lookup_insert_ne.
    + intros (j & pcx & (pcy & Hj & He & _)%Hin & Hlx). exists j, pcy. split; [done|congruence].
  - apply (ti_idle _ _ Hi).
  - intros j x Hj. unfold stop_flag. rewrite Ht. destruct (Hin _ _ _ Hj) as (pcy & Hj' & _ & Hne & Heq).
    destruct (decide (j = k)) as [->|Hjk]; [|rewrite (Hne Hjk) in Hj'; by apply (ti_reset _ _ Hi j)].
    specialize (Heq eq_refl) as <-. by destruct Hl' as [|[]].
  - intros Hst. destruct (ti_running _ _ Hi Hst) as (Hne & Hall & Hloop). split; [done|]. split; [done|].
    intros j x pcx Hj Hlx. destruct (Hin _ _ _ Hj) as (pcy & Hj' & He & Hjk & Heq).
    destruct (decide (j = k)) as [->|Hjk']; [|rewrite (Hjk Hjk') in Hj'; by eapply Hloop].
    rewrite (Heq eq_refl). destruct Hl' as [|[-> Hf]]; [done|].
    rewrite (stop_flag_stopping _ _ _ _ _ Hi Hk Hlive Hf) in Hst. done.
  - intros Hst. destruct (ti_stopping _ _ Hi Hst) as (Hall & _). split.
    + intros j x pcx Hj Hor. unfold stop_flag. rewrite Ht. destruct (Hin _ _ _ Hj) as (pcy & Hj' & He & Hjk & Heq).
      destruct (decide (j = k)) as [->|Hjk']; [|rewrite (Hjk Hjk') in Hj'; by eapply Hall].
      eapply Hall; [exact Hj'|]. simplify_eq. by left.
    + exists k, i, pc'. split; [apply list_lookup_insert_eq; by eapply lookup_lt_Some|]. by intros ->.
  - apply (ti_stopped _ _ Hi).
Qed.

Lemma thread_inv_frame p p' ths :
  thread_inv p ths -> wp_threads p' = wp_threads p -> wp_state p' = wp_state p -> thread_inv p' ths.
Proof. intros [] Ht Hs. split; unfold stop_flag in *; rewrite ?Ht, ?Hs; auto. Qed.

Lemma alter_lookup (f : WorkerProcessorThread -> WorkerProcessorThread) (i j : nat) (l : list WorkerProcessorThread) t :
  alter f i l !! j = Some t -> exists u, l !! j = Some u /\ t = (if decide (i = j) then f u else u).
Proof.
  destruct (decide (i = j)) as [<-|Hne].
  - rewrite list_lookup_alter_eq. destruct (l !! i) as [u|]; [|done]. intros [= <-]. eauto.
  - rewrite list_lookup_alter_ne by done. eauto.
Qed.

Lemma alter_is_Some (f : WorkerProcessorThread -> WorkerProcessorThread) (i j : nat) (l : list WorkerProcessorThread) :
  is_Some (l !! j) -> is_Some (alter f i l !! j).
Proof.
  intros [t Ht]. destruct (decide (i = j)) as [<-|]; [rewrite list_lookup_alter_eq, Ht; eauto|].
  rewrite list_lookup_alter_ne, Ht by done. eauto.
Qed.

Lemma insert_cases ths k i pc pc' j x pcx :
  ths !! k = Some (i, pc) -> <[k := (i, pc')]> ths !! j = Some (x, pcx) ->
  (j = k /\ x = i /\ pcx = pc') \/ (j <> k /\ ths !! j = Some (x, pcx)).
Proof. intros Hk [[-> [= -> ->]]|[]]%(insert_lookup _ _ _ _ _ (mk_is_Some _ _ Hk)); auto. Qed.

(** [_stop = false] at the end of the loop. *)
Lemma thread_inv_PStop p ths k i :
  thread_inv p ths -> ths !! k = Some (i, PStop) ->
  thread_inv (upd_thread i (fun t => mkThread false (th_running t)) p) (<[k := (i, PReset)]> ths).
Proof.
  intros Hi Hk. pose proof (not_looping_stopping _ _ _ _ _ Hi Hk eq_refl eq_refl) as Hst.
  pose proof (fun j x pcx => insert_cases ths k i _ PReset j x pcx Hk) as Hin.
  split; simpl; rewrite ?Hst; try done.
  - intros j x pcx Hj.
    apply alter_is_Some. destruct (Hin _ _ _ Hj) as [(-> & -> & ->)|[_ Hj']]; by eapply (ti_bound _ _ Hi).
  - intros j j' x pcx pcx' Hj Hj' Hl Hl'.
    assert (Hx : forall j pcx, <[k := (i, PReset)]> ths !! j = Some (x, pcx) -> live pcx = true ->
              exists pcy, ths !! j = Some (x, pcy) /\ live pcy = true).
    { intros m pcm [(-> & -> & ->)|[_ Hm]]%Hin Hlm; eauto. }
    destruct (Hx _ _ Hj Hl) as (y & Hy & Hly), (Hx _ _ Hj' Hl') as (z & Hz & Hlz). eapply (ti_uniq _ _ Hi); eauto.
  - intros x t (u & Hu & Ht)%alter_lookup.
    assert (Hr : th_running t = th_running u) by (rewrite Ht; by destruct (decide _)). rewrite Hr, (ti_run _ _ Hi x u Hu).
    split; intros (j & pcx & Hj & Hl).
    + destruct (decide (j = k)) as [->|Hne].
      * simplify_eq. exists k, PReset. split; [|done]. apply list_lookup_insert_eq. by eapply lookup_lt_Some.
      * exists j, pcx. by rewrite list_lookup_insert_ne.
    + destruct (Hin _ _ _ Hj) as [(-> & -> & ->)|[_ Hj']]; eauto.
  - intros x t (u & Hu & Ht)%alter_lookup Hr. destruct (decide (i = x)); subst t; [done|]. by eapply (ti_idle _ _ Hi).
  - intros j x Hj. unfold stop_flag. simpl. destruct (decide (i = x)) as [<-|Hne].
    + rewrite list_lookup_alter_eq. by destruct (wp_threads p !! i).
    + rewrite list_lookup_alter_ne by done. destruct (Hin _ _ _ Hj) as [(_ & -> & _)|[_ Hj']]; [done|].
      by apply (ti_reset _ _ Hi j).
  - destruct (ti_stopping _ _ Hi Hst) as (Hall & _). intros _. split.
    + intros j x pcx Hj Hor. destruct (Hin _ _ _ Hj) as [(-> & -> & ->)|[Hne Hj']]; [by destruct Hor|].
      unfold stop_flag. simpl. rewrite list_lookup_alter_ne; [by eapply Hall|]. intros <-. apply Hne.
      eapply (ti_uniq _ _ Hi); [exact Hj'|exact Hk| |done]. destruct Hor as [Hor| ->]; [by destruct pcx|done].
    + exists k, i, PReset. split; [apply list_lookup_insert_eq; by eapply lookup_lt_Some|done].
Qed.

(** [_thread.reset(nullptr)] *)
Lemma thread_inv_PReset p ths k i :
  thread_inv p ths -> ths !! k = Some (i, PReset) ->
  thread_inv (upd_thread i (fun t => mkThread (th_stop t) false) p) (<[k := (i, PReport)]> ths).
Proof.
  intros Hi Hk. pose proof (not_looping_stopping _ _ _ _ _ Hi Hk eq_refl eq_refl) as Hst.
  pose proof (fun j x pcx => insert_cases ths k i _ PReport j x pcx Hk) as Hin.
  assert (Hflag : forall x, stop_flag x (upd_thread i (fun t => mkThread (th_stop t) false) p) = stop_flag x p).
  { intros x. unfold stop_flag. simpl. destruct (decide (i = x)) as [<-|Hne].
    - rewrite list_lookup_alter_eq. by destruct (wp_threads p !! i).
    - by rewrite list_lookup_alter_ne. }
  split; simpl; rewrite ?Hst; try done.
  - intros j x pcx Hj.
    apply alter_is_Some. destruct (Hin _ _ _ Hj) as [(-> & -> & ->)|[_ Hj']]; by eapply (ti_bound _ _ Hi).
  - intros j j' x pcx pcx' Hj Hj' Hl Hl'.
    destruct (Hin _ _ _ Hj) as [(_ & _ & ->)|[_ Hj1]]; [done|].
    destruct (Hin _ _ _ Hj') as [(_ & _ & ->)|[_ Hj1']]; [done|]. eapply (ti_uniq _ _ Hi); eauto.
  - intros x t (u & Hu & Ht)%alter_lookup. destruct (decide (i = x)) as [<-|Hne]; subst t; simpl.
    + split; [done|]. intros (j & pcx & Hj & Hl). destruct (Hin _ _ _ Hj) as [(_ & _ & ->)|[Hjk Hj']]; [done|].
      destruct Hjk. by eapply (ti_uniq _ _ Hi).
    + rewrite (ti_run _ _ Hi x u Hu). split; intros (j & pcx & Hj & Hl); exists j, pcx.
      * rewrite list_lookup_insert_ne; [done|]. intros <-. by simplify_eq.
      * by destruct (Hin _ _ _ Hj) as [(_ & -> & _)|[_ Hj']].
  - intros x t (u & Hu & Ht)%alter_lookup Hr. destruct (decide (i = x)) as [<-|Hne]; subst t; simpl.
    + pose proof (ti_reset _ _ Hi k i Hk) as Hf. unfold stop_flag in Hf. by rewrite Hu in Hf.
    + by eapply (ti_idle _ _ Hi).
  - intros j x Hj. rewrite Hflag. destruct (Hin _ _ _ Hj) as [(_ & _ & Hx)|[_ Hj']]; [done|].
    by apply (ti_reset _ _ Hi j).
  - destruct (ti_stopping _ _ Hi Hst) as (Hall & _). intros _. split.
    + intros j x pcx Hj Hor. rewrite Hflag. destruct (Hin _ _ _ Hj) as [(-> & -> & ->)|[Hne Hj']]; [by destruct Hor|].
      by eapply Hall.
    + exists k, i, PReport. split; [apply list_lookup_insert_eq; by eapply lookup_lt_Some|done].
Qed.

(** [_processorThreadStopped] *)
Lemma thread_inv_PReport p ths k i :
  thread_inv p ths -> ths !! k = Some (i, PReport) ->
  thread_inv (processorThreadStopped p) (<[k := (i, PDone)]> ths).
Proof.
  intros Hi Hk.
  pose proof (fun j x pcx => insert_cases ths k i _ PDone j x pcx Hk) as Hin.
  assert (Ht : wp_threads (processorThreadStopped p) = wp_threads p).
  { unfold processorThreadStopped. destruct (wp_state p); [done| |done]. by destruct (existsb _ _). }
  split; unfold stop_flag; rewrite ?Ht.
  - intros j x pcx [(-> & -> & ->)|[_ Hj]]%Hin; by eapply (ti_bound _ _ Hi).
  - intros j j' x pcx pcx' [(_ & _ & ->)|[_ Hj]]%Hin [(_ & _ & ->)|[_ Hj']]%Hin Hl Hl'; try done.
    eapply (ti_uniq _ _ Hi); eauto.
  - intros x t Hx. rewrite (ti_run _ _ Hi x t Hx). split; intros (j & pcx & Hj & Hl); exists j, pcx.
    + rewrite list_lookup_insert_ne; [done|]. intros <-. by simplify_eq.
    + by destruct (Hin _ _ _ Hj) as [(_ & _ & ->)|[_ Hj']].
  - apply (ti_idle _ _ Hi).
  - intros j x [(_ & _ & Hx)|[_ Hj]]%Hin; [done|]. by apply (ti_reset _ _ Hi j).
  - intros Hs. assert (Hst : wp_state p = STATE_IS_RUNNING).
    { unfold processorThreadStopped in Hs. destruct (wp_state p) eqn:E; [done| |congruence].
      destruct (existsb _ _); simpl in Hs; congruence. }
    destruct (ti_running _ _ Hi Hst) as (Hne & Hall & Hloop). split; [done|]. split; [done|].
    intros j x pcx [(_ & _ & ->)|[_ Hj]]%Hin Hl; [done|]. by eapply Hloop.
  - intros Hs. assert (Hst : wp_state p = STATE_IS_STOPPING /\ existsb th_running (wp_threads p) = true).
    { unfold processorThreadStopped in Hs. destruct (wp_state p) eqn:E; [congruence| |congruence].
      destruct (existsb _ _) eqn:Ex; [done|]. done. }
    destruct Hst as [Hst Hex]. destruct (ti_stopping _ _ Hi Hst) as (Hall & _). split.
    + intros j x pcx [(_ & _ & ->)|[_ Hj]]%Hin Hor; [by destruct Hor|]. by eapply Hall.
    + apply existsb_exists in Hex as (t & Htin & Hr). apply list_elem_of_In, list_elem_of_lookup in Htin as [x Hx].
      apply (ti_run _ _ Hi x t Hx) in Hr as (j & pcx & Hj & Hl). exists j, x, pcx.
      split; [|by intros ->]. rewrite list_lookup_insert_ne; [done|]. intros <-. by simplify_eq.
  - intros Hs x t Hx. unfold processorThreadStopped in Hs. destruct (wp_state p) eqn:E; [congruence| |].
    + destruct (existsb th_running (wp_threads p)) eqn:Ex; [congruence|].
      destruct (th_running t) eqn:Hr; [|done]. assert (existsb th_running (wp_threads p) = true); [|congruence].
      apply existsb_exists. exists t. split; [|done]. apply list_elem_of_In. by eapply list_elem_of_lookup_2.
    + by eapply (ti_stopped _ _ Hi).
Qed.

(** [stop()] *)
Lemma thread_inv_stop p ths : thread_inv p ths -> thread_inv (wp_stop p) ths.
Proof.
  intros Hi. unfold wp_stop. destruct (wp_state p) eqn:Hs; [|done|done].
  destruct (ti_running _ _ Hi Hs) as (Hne & Hall & Hloop).
  assert (Hl : forall i t, map thread_stop (wp_threads p) !! i = Some t ->
    exists u, wp_threads p !! i = Some u /\ t = mkThread true true /\ th_running u = true).
  { intros i t (u & -> & Hu)%list_lookup_fmap_Some. destruct (Hall i u Hu) as [Hr _].
    exists u. unfold thread_stop. by rewrite Hr. }
  assert (Hf : forall k i pc, ths !! k = Some (i, pc) -> stop_flag i (wp_set_threads (map thread_stop (wp_threads p)) p) = true).
  { intros k i pc Hk. destruct (ti_bound _ _ Hi _ _ _ Hk) as [u Hu]. unfold stop_flag. simpl.
    rewrite list_lookup_fmap, Hu. simpl. unfold thread_stop. by destruct (Hall i u Hu) as [-> _]. }
  split; simpl; try done.
  - intros k i pc Hk. destruct (ti_bound _ _ Hi _ _ _ Hk) as [u Hu]. rewrite list_lookup_fmap, Hu. by eexists.
  - apply (ti_uniq _ _ Hi).
  - intros i t (u & Hu & -> & Hr)%Hl. simpl. rewrite <- (ti_run _ _ Hi i u Hu). by rewrite Hr.
  - intros i t (u & Hu & -> & Hr)%Hl. done.
  - intros k i Hk. specialize (Hloop _ _ _ Hk eq_refl). done.
  - intros _. split; [intros k i pc Hk _; by eapply Hf|].
    destruct (wp_threads p) as [|t l] eqn:El; [done|]. destruct (Hall 0%nat t eq_refl) as [Hr _].
    apply (ti_run _ _ Hi 0%nat t) in Hr as (k & pc & Hk & Hlv); [|by rewrite El]. exists k, 0%nat, pc.
    split; [done|by intros ->].
Qed.

(** [run()] *)
Lemma filter_all {A} (P : A -> Prop) `{forall x, Decision (P x)} (l : list A) : Forall P l -> filter P l = l.
Proof.
  induction 1 as [|x l Hx _ IH]; [done|]. rewrite filter_cons. by rewrite decide_True, IH by done.
Qed.

Lemma seq_all_started (l : list WorkerProcessorThread) :
  (forall i t, l !! i = Some t -> th_running t = false) ->
  filter (fun i => starts l i = true) (seq 0 (length l)) = seq 0 (length l).
Proof.
  intros Hl. apply filter_all, Forall_forall. intros i [_ Hi]%elem_of_seq. simpl in Hi.
  destruct (lookup_lt_is_Some_2 l i Hi) as [t Ht]. unfold starts. rewrite Ht. unfold thread_run. by rewrite (Hl i t Ht).
Qed.

Lemma lookup_started (n j i : nat) pc :
  map (fun i => (i, PLoop)) (seq 0 n) !! j = Some (i, pc) <-> i = j /\ pc = PLoop /\ (j < n)%nat.
Proof.
  split.
  - intros (x & Hx & Hj)%list_lookup_fmap_Some. apply lookup_seq in Hj as [-> Hj]. by simplify_eq.
  - intros (-> & -> & Hj). rewrite list_lookup_fmap, lookup_seq_lt by done. done.
Qed.

Lemma thread_inv_run n p ths :
  thread_inv p ths ->
  match wp_run n p with
  | Ret (p', started) => thread_inv p' (ths ++ map (fun i => (i, PLoop)) started)
  | Raise e => e = OutOfRange /\ n = 0%nat
  end.
Proof.
  intros Hi. unfold wp_run. destruct (wp_state p) eqn:Hs; [rewrite app_nil_r; done..|]. destruct n as [|n]; [done|].
  set (ts := match wp_threads p with [] => _ | l => l end).
  pose proof (ti_stopped _ _ Hi Hs) as Hoff.
  assert (Hts : forall i t, ts !! i = Some t -> th_running t = false /\ th_stop t = false).
  { intros i t Ht. unfold ts in Ht. destruct (wp_threads p) eqn:El.
    - apply lookup_replicate in Ht as [-> _]. done.
    - rewrite <- El in *. split; [by eapply Hoff|]. eapply (ti_idle _ _ Hi); [exact Ht|]. by eapply Hoff. }
  assert (Hold : forall i, is_Some (wp_threads p !! i) -> is_Some (ts !! i)).
  { intros i. unfold ts. destruct (wp_threads p) eqn:El; [by intros []|]. done. }
  assert (Hdead : forall k i pc, ths !! k = Some (i, pc) -> live pc = false).
  { intros k i pc Hk. destruct (live pc) eqn:Hl; [|done]. destruct (ti_bound _ _ Hi _ _ _ Hk) as [t Ht].
    assert (Hr : th_running t = true) by (apply (ti_run _ _ Hi i t Ht); eauto). by rewrite (Hoff i t Ht) in Hr. }
  assert (Hne : ts <> []) by (unfold ts; by destruct (wp_threads p)).
  rewrite seq_all_started by (intros i t Ht; by apply (Hts i t)). clearbody ts.
  assert (Hnew : forall i t, map (fun t => (thread_run t).1) ts !! i = Some t -> t = mkThread false true /\ (i < length ts)%nat).
  { intros i t (u & -> & Hu)%list_lookup_fmap_Some. destruct (Hts i u Hu) as [Hr Hst]. unfold thread_run.
    rewrite Hr, Hst. split; [done|]. by eapply lookup_lt_Some. }
  assert (Hin : forall k i pc, (ths ++ map (fun i => (i, PLoop)) (seq 0 (length ts))) !! k = Some (i, pc) ->
    (ths !! k = Some (i, pc) /\ live pc = false) \/ (k = (length ths + i)%nat /\ pc = PLoop /\ (i < length ts)%nat)).
  { intros k i pc [Hk|[Hge Hk]]%lookup_app_Some; [eauto|]. right. apply lookup_started in Hk as (-> & -> & Hlt).
    split; [lia|done]. }
  assert (Hlook : forall i, (i < length ts)%nat ->
    (ths ++ map (fun i => (i, PLoop)) (seq 0 (length ts))) !! (length ths + i)%nat = Some (i, PLoop)).
  { intros i Hlt. rewrite lookup_app_r by lia. apply lookup_started. split; [lia|]. split; [done|lia]. }
  split; simpl; try done.
  - intros k i pc [[Hk _]|(_ & _ & Hlt)]%Hin.
    + destruct (Hold i (ti_bound _ _ Hi _ _ _ Hk)) as [t Ht]. rewrite list_lookup_fmap, Ht. by eexists.
    + destruct (lookup_lt_is_Some_2 ts i Hlt) as [t Ht]. rewrite list_lookup_fmap, Ht. by eexists.
  - intros k k' i pc pc' [[_ Hk]|(-> & _)]%Hin [[_ Hk']|(-> & _)]%Hin Hl Hl'; congruence.
  - intros i t [-> Hlt]%Hnew. simpl. split; [|done]. intros _. exists (length ths + i)%nat, PLoop. split; [by apply Hlook|done].
  - by intros i t [-> _]%Hnew.
  - intros k i [[_ Hl]|(_ & ? & _)]%Hin; done.
  - intros _. split; [by intros Hx%fmap_nil_inv|]. split; [by intros i t [-> _]%Hnew|].
    intros k i pc [[_ Hl]|(_ & -> & _)]%Hin Hl'; [congruence|done].
Qed.
