(* ===== verification/WorkerProcessorThms.v ===== *)
(** * Theorems on the request processor

    Every event keeps the invariants of [WorkerProcessorInv.v] and
    [WorkerProcessorThreads.v], whatever the order in which the server, the
    clients and the threads of the processor take their steps.  From these
    follow where a request is, who executes it, and that the processor
    stops. *)

From S2P Require Import Prelude.
From S2P Require Import StdHeap.
From S2P Require Import WorkerRequest.
From S2P Require Import WorkerProcessor.
From S2P Require Import WorkerProcessorInv.
From S2P Require Import WorkerProcessorThreads.

Implicit Types (p : WorkerProcessor) (a : nat) (r : WorkerRequest) (ths : list (nat * PC)) (pc : PC) (s : Service).

Definition service_inv (runs : RequestKind -> Prop) s : Prop :=
  req_inv runs (sv_proc s) (sv_threads s) /\ thread_inv (sv_proc s) (sv_threads s).

Lemma service_ctor_inv runs : service_inv runs Service_ctor.
Proof.
  split; split; simpl; try done.
  all: try (intros; by destruct k).
  all: try (by constructor).
  - intros a. rewrite lookup_empty. split; [by intros ?%elem_of_nil|by intros []].
  - intros a. rewrite lookup_empty. by intros [].
Qed.

Lemma NoDup_omap_inj {A B} (f : A -> option B) (l : list A) x y b :
  NoDup (omap f l) -> x ∈ l -> y ∈ l -> f x = Some b -> f y = Some b -> x = y.
Proof.
  induction l as [|z l IH]; simpl; [set_solver|]. intros Hn Hx Hy Hfx Hfy.
  assert (Hin : forall w, w ∈ l -> f w = Some b -> b ∈ omap f l) by (intros w Hw Hf; apply list_elem_of_omap; eauto).
  apply elem_of_cons in Hx, Hy. destruct Hx as [->|Hx], Hy as [->|Hy]; [done| | |].
  - rewrite Hfx in Hn. apply NoDup_cons in Hn as [[] _]. by eapply Hin.
  - rewrite Hfy in Hn. apply NoDup_cons in Hn as [[] _]. by eapply Hin.
  - apply IH; try done. destruct (f z); [by apply NoDup_cons in Hn as [_ ?]|done].
Qed.

Section steps.
Context (valid : RequestKind -> bool) (execute : ExecInput -> WorkerRequest -> run_result bool).
Context (runs : RequestKind -> Prop) `{!ExecuteLaws execute runs}.

Abbreviation tstep := (thread_step execute).

(** The thread keeps its request, whose status changes. *)
Lemma held_step p ths k i pc pc' a r r' :
  req_inv runs p ths -> thread_inv p ths -> ths !! k = Some (i, pc) -> holds pc = Some a -> holds pc' = Some a ->
  wp_requests p !! a = Some r -> same_request r r' -> pc_ok (wp_set_request a r' p) pc' ->
  service_inv runs (mkService (wp_set_request a r' p) (<[k := (i, pc')]> ths)).
Proof.
  intros Hr Ht Hk Ha Ha' Hl Hs Hok. split; simpl; [by eapply held_update|].
  eapply thread_inv_move; eauto; [by destruct pc|left; by destruct pc'].
Qed.

(** The thread only changes its position. *)
Lemma position_step p ths k i pc pc' :
  req_inv runs p ths -> thread_inv p ths -> ths !! k = Some (i, pc) -> holds pc' = holds pc -> pc_ok p pc' ->
  looping pc = true -> (looping pc' = true \/ (pc' = PStop /\ stop_flag i p = true)) ->
  service_inv runs (mkService p (<[k := (i, pc')]> ths)).
Proof. intros. split; simpl; [by eapply pc_update|by eapply thread_inv_move]. Qed.

Lemma execute_step p ths k i a inp :
  req_inv runs p ths -> thread_inv p ths -> ths !! k = Some (i, PExec a) ->
  let '(p', pc') := tstep i inp (PExec a) p in service_inv runs (mkService p' (<[k := (i, pc')]> ths)).
Proof.
  intros Hr Ht Hk. destruct (status_in_elim _ _ _ (Forall_lookup_1 _ _ _ _ (ri_pcs _ _ _ Hr) Hk)) as (r & Hl & Hst).
  simpl in *. rewrite Hl. pose proof (execute_law inp r (ri_kinds _ _ _ Hr a r Hl) Hst) as Hlaw.
  destruct (execute inp r) as [[|] r'|r'|e]; [..|done]; destruct Hlaw as [Hs Hs'];
    eapply held_step; eauto; simpl; apply status_in_set_eq; [done|by rewrite Hs'|done].
Qed.

Lemma rollback_step p ths k i a inp :
  req_inv runs p ths -> thread_inv p ths -> ths !! k = Some (i, PRollback a) ->
  let '(p', pc') := tstep i inp (PRollback a) p in service_inv runs (mkService p' (<[k := (i, pc')]> ths)).
Proof.
  intros Hr Ht Hk. destruct (status_in_elim _ _ _ (Forall_lookup_1 _ _ _ _ (ri_pcs _ _ _ Hr) Hk)) as (r & Hl & Hst).
  simpl in *. rewrite Hl. unfold wr_rollback. destruct Hst as [Hst|Hst]; rewrite Hst; eapply held_step; eauto; try done; simpl.
  - by rewrite lookup_insert_eq.
  - apply status_in_set_eq. by left.
Qed.

Lemma fetch_step p ths k i e inp :
  req_inv runs p ths -> thread_inv p ths -> ths !! k = Some (i, PFetch e) ->
  let '(p', pc') := tstep i inp (PFetch e) p in service_inv runs (mkService p' (<[k := (i, pc')]> ths)).
Proof.
  intros Hr Ht Hk. simpl. destruct (_ <? _); [|eapply position_step; eauto; try done; by left].
  destruct (fetch_inv runs p ths k i e (ei_now inp) Hr Hk) as [[_ ->]|(p' & a & -> & Hi & _ & Hth & Hst)].
  - eapply position_step; eauto; try done; first [by left|by right].
  - split; [done|]. eapply thread_inv_move; eauto; try done; by left.
Qed.

Lemma thread_step_inv p ths k i pc inp :
  req_inv runs p ths -> thread_inv p ths -> ths !! k = Some (i, pc) ->
  let '(p', pc') := tstep i inp pc p in service_inv runs (mkService p' (<[k := (i, pc')]> ths)).
Proof.
  intros Hr Ht Hk. pose proof (Forall_lookup_1 _ _ _ _ (ri_pcs _ _ _ Hr) Hk) as Hok. simpl in Hok.
  destruct pc as [|e|[a|]|a|a|a|a|a| | | | |e];
    [ | by apply fetch_step | | | by apply execute_step | | by apply rollback_step | | | | | | | done ]; simpl.
  - destruct (stop_flag i p) eqn:Hf; eapply position_step; eauto; try done; first [by left|by right].
  - destruct (stop_flag i p) eqn:Hf; eapply position_step; eauto; try done; try (by left). simpl.
    destruct (status_in_elim _ _ _ Hok) as (r & Hl & _). by exists r.
  - eapply position_step; eauto; try done; first [by left|by right].
  - destruct (stop_flag i p) eqn:Hf; eapply position_step; eauto; try done; first [by left|by right].
  - split; [by eapply refuse_inv|]. eapply thread_inv_move; eauto; try done; try (by left);
      unfold processingRefused; by destruct (wp_requests p !! a).
  - split; [by eapply finish_inv|]. eapply thread_inv_move; eauto; try done; by left.
  - split; [by eapply pc_update|by apply thread_inv_PStop].
  - split; [by eapply pc_update|by apply thread_inv_PReset].
  - split; [|by apply thread_inv_PReport]. unfold processorThreadStopped.
    eapply pc_update; eauto; simpl; destruct (wp_state p); try done; by destruct (existsb _ _).
  - rewrite list_insert_id by done. by split.
Qed.

(** [run()] starts threads that hold no request. *)
Lemma run_inv n p ths :
  req_inv runs p ths ->
  match wp_run n p with
  | Ret (p', started) => req_inv runs p' (ths ++ map (fun i => (i, PLoop)) started)
  | Raise _ => True
  end.
Proof.
  intros Hi. unfold wp_run. destruct (wp_state p); [rewrite app_nil_r; done..|]. destruct n as [|n]; [done|].
  set (started := filter _ _). clearbody started. eapply (req_inv_move runs p _ ths _ []); simpl; eauto; try apply Hi.
  - by apply same_store_eq.
  - by rewrite app_nil_r.
  - unfold held. rewrite omap_app. assert (Hn : omap (fun x => holds x.2) (map (fun i => (i, PLoop)) started) = []).
    { by induction started. }
    rewrite Hn, app_nil_r. apply Hi.
  - apply Forall_app. split; [apply Hi|]. by induction started; constructor.
Qed.

Lemma enqueue_frame id k pr now p :
  wp_threads (enqueue valid id k pr now p).1 = wp_threads p /\ wp_state (enqueue valid id k pr now p).1 = wp_state p.
Proof.
  unfold enqueue, enqueueForReplication, enqueueForDeletion, enqueueForFind, enqueueForFindAll, enqueueForEcho,
    enqueueForSql, enqueue_replica, enqueue_new. destruct k; repeat case_match; done.
Qed.

Abbreviation sstep := (service_step valid execute).

Lemma service_step_inv ev s : service_inv runs s -> event_ok runs ev s -> service_inv runs (sstep ev s).1.
Proof.
  intros [Hr Ht] Hok. destruct s as [p ths]. simpl in *. destruct ev as [n| |now|id k pr now|id k now|id k|k inp]; simpl in *.
  - pose proof (run_inv n p ths Hr) as Hr'. pose proof (thread_inv_run n p ths Ht) as Ht'.
    destruct (wp_run n p) as [[p' started]|e]; by split.
  - split; [|by apply thread_inv_stop]. unfold wp_stop. simpl. destruct (wp_state p); [|done..].
    eapply (req_inv_move runs p _ ths _ []); simpl; eauto; try apply Hr; [by apply same_store_eq|].
    by rewrite app_nil_r.
  - destruct (drain_inv runs p ths now Hr) as (p' & -> & Hr' & Hth & Hst). split; [done|]. by eapply thread_inv_frame.
  - destruct Hok as [Hid Hk]. pose proof (enqueue_inv runs valid p ths id k pr now Hr Hid Hk) as Hr'.
    pose proof (enqueue_frame id k pr now p) as Hth.
    destruct (enqueue valid id k pr now p) as [p' resp]. split; [done|]. by eapply thread_inv_frame; [|apply Hth..].
  - unfold dequeueOrCancel. destruct (cancel_inv runs p ths id now Hr) as (p' & o & -> & Hr' & _ & Hth & Hst & _).
    simpl. split; [done|]. by eapply thread_inv_frame.
  - by destruct (checkStatus id k p).
  - destruct (ths !! k) as [[i pc]|] eqn:Hk; [|by split]. pose proof (thread_step_inv p ths k i pc inp Hr Ht Hk) as H.
    by destruct (tstep i inp pc p).
Qed.

Lemma reach_inv s : service_reach valid execute runs s -> service_inv runs s.
Proof. induction 1; [apply service_ctor_inv|by apply service_step_inv]. Qed.

(** ** Sequences of events *)

Fixpoint run_events (evs : list Event) s : Service :=
  match evs with [] => s | ev :: evs' => run_events evs' (sstep ev s).1 end.
Fixpoint events_ok (evs : list Event) s : Prop :=
  match evs with [] => True | ev :: evs' => event_ok runs ev s /\ events_ok evs' (sstep ev s).1 end.

Lemma run_events_reach evs s :
  service_reach valid execute runs s -> events_ok evs s -> service_reach valid execute runs (run_events evs s).
Proof. revert s. induction evs as [|ev evs IH]; intros s Hs; simpl; [done|]. intros [Hok Hoks]. by apply IH; [constructor|]. Qed.

(** ** Stopping *)

(** An upper bound of the steps that a thread takes once its stop flag is set. *)
Definition pc_weight pc : nat :=
  match pc with
  | PDone => 0
  | PReport => 1
  | PReset => 2
  | PStop => 3
  | PLoop => 4
  | PRefuse _ | PFinish _ => 5
  | PRollback _ => 6
  | PCheck _ => 7
  | PExec _ => 8
  | PGot _ => 9
  | PFetch e => 10 + Z.to_nat (timeoutMilliseconds - e)
  | PCrash _ => 0
  end.
Definition steps_left s : nat := sum_list ((fun x => pc_weight x.2) <$> sv_threads s).

(** A step of a thread that has not ended; a wait for requests takes time. *)
Definition progresses (ev : Event) s : bool :=
  match ev with
  | EThread k inp =>
      match sv_threads s !! k with
      | Some (_, PDone) | None => false
      | Some _ => 0 <? ei_wait inp
      end
  | _ => false
  end.
Fixpoint progress_count (evs : list Event) s : nat :=
  match evs with
  | [] => 0
  | ev :: evs' => (if progresses ev s then 1 else 0) + progress_count evs' (sstep ev s).1
  end.

Lemma sum_list_insert (l : list nat) k x y :
  l !! k = Some x -> (sum_list (<[k := y]> l) + x = sum_list l + y)%nat.
Proof.
  revert k. induction l as [|z l IH]; intros [|k] Hk; simplify_eq/=; [lia|]. specialize (IH k Hk). lia.
Qed.

Lemma stop_flag_set p ths k i pc :
  thread_inv p ths -> wp_state p = STATE_IS_STOPPING -> ths !! k = Some (i, pc) -> looping pc = true ->
  stop_flag i p = true.
Proof. intros Ht Hs Hk Hl. destruct (ti_stopping _ _ Ht Hs) as (H & _). eapply H; eauto. Qed.

Lemma thread_step_weight p ths k i pc inp :
  req_inv runs p ths -> thread_inv p ths -> wp_state p = STATE_IS_STOPPING -> ths !! k = Some (i, pc) ->
  0 <= ei_wait inp ->
  let '(p', pc') := tstep i inp pc p in
  wp_state p' <> STATE_IS_RUNNING /\
  (pc_weight pc' + (if match pc with PDone => false | _ => (0 <? ei_wait inp)%Z end then 1 else 0) <= pc_weight pc)%nat.
Proof.
  intros Hr Ht Hs Hk Hw. pose proof (Forall_lookup_1 _ _ _ _ (ri_pcs _ _ _ Hr) Hk) as Hok. simpl in Hok.
  pose proof (stop_flag_set p ths k i pc Ht Hs Hk) as Hf.
  assert (Hns : wp_state p <> STATE_IS_RUNNING) by congruence.
  destruct pc as [|e|[a|]|a|a|a|a|a| | | | |e]; simpl; try done; rewrite ?Hf by done; simpl;
    try (split; [done|]; by destruct (0 <? ei_wait inp); simpl; lia).
  - destruct (Z.ltb_spec e timeoutMilliseconds); [|split; [done|]; destruct (0 <? ei_wait inp); simpl; lia].
    destruct (fetch_inv runs p ths k i e (ei_now inp) Hr Hk) as [[_ ->]|(p' & a & -> & _ & _ & _ & ->)]; (split; [done|]); simpl.
    + unfold timeoutMilliseconds in *. destruct (Z.ltb_spec 0 (ei_wait inp)); lia.
    + destruct (0 <? ei_wait inp); lia.
  - destruct (status_in_elim _ _ _ Hok) as (r & Hl & Hst). rewrite Hl.
    pose proof (execute_law inp r (ri_kinds _ _ _ Hr a r Hl) Hst) as Hlaw.
    destruct (execute inp r) as [[|] r'|r'|e]; [..|done]; (split; [done|]); simpl; destruct (0 <? ei_wait inp); lia.
  - destruct (status_in_elim _ _ _ Hok) as (r & Hl & Hst). rewrite Hl. unfold wr_rollback.
    destruct Hst as [-> | ->]; (split; [done|]); simpl; destruct (0 <? ei_wait inp); lia.
  - unfold processingRefused. destruct (wp_requests p !! a); (split; [done|]); destruct (0 <? ei_wait inp); simpl; lia.
  - unfold processorThreadStopped. rewrite Hs. split; [by destruct (existsb _ _)|]. destruct (0 <? ei_wait inp); lia.
Qed.

Lemma stopping_step ev s :
  service_inv runs s -> event_ok runs ev s -> wp_state (sv_proc s) = STATE_IS_STOPPING ->
  wp_state (sv_proc (sstep ev s).1) <> STATE_IS_RUNNING /\
  (steps_left (sstep ev s).1 + (if progresses ev s then 1 else 0) <= steps_left s)%nat.
Proof.
  intros [Hr Ht] Hok Hs. destruct s as [p ths]. simpl in *. destruct ev as [n| |now|id k pr now|id k now|id k|k inp]; simpl in *.
  - unfold wp_run. rewrite Hs. simpl. rewrite Hs. split; [done|]. rewrite app_nil_r. lia.
  - unfold wp_stop. rewrite Hs. split; [by rewrite Hs|lia].
  - destruct (drain_inv runs p ths now Hr) as (p' & -> & _ & _ & Hst). simpl. rewrite Hst, Hs. split; [done|]. unfold steps_left. simpl. lia.
  - destruct (enqueue_frame id k pr now p) as [_ Hst].
    destruct (enqueue valid id k pr now p) as [p' resp]. simpl in *. rewrite Hst, Hs. split; [done|]. unfold steps_left. simpl. lia.
  - unfold dequeueOrCancel. destruct (cancel_inv runs p ths id now Hr) as (p' & o & -> & _ & _ & _ & Hst & _).
    simpl. rewrite Hst, Hs. split; [done|]. unfold steps_left. simpl. lia.
  - destruct (checkStatus id k p); simpl; rewrite Hs; (split; [done|lia]).
  - destruct (ths !! k) as [[i pc]|] eqn:Hk; simpl; [|rewrite Hs; split; [done|lia]].
    pose proof (thread_step_weight p ths k i pc inp Hr Ht Hs Hk Hok) as H.
    destruct (tstep i inp pc p) as [p' pc']. simpl in *. destruct H as [H1 H2]. split; [done|]. unfold steps_left. simpl.
    pose proof (sum_list_insert ((fun x => pc_weight x.2) <$> ths) k (pc_weight pc) (pc_weight pc')) as Hsum.
    rewrite list_lookup_fmap, Hk in Hsum. specialize (Hsum eq_refl). rewrite list_fmap_insert. simpl. destruct pc; lia.
Qed.

(** While the processor is stopping some thread can take a step. *)
Lemma can_progress s :
  service_inv runs s -> wp_state (sv_proc s) = STATE_IS_STOPPING ->
  (exists k inp, progresses (EThread k inp) s = true) /\ (0 < steps_left s)%nat.
Proof.
  intros [Hr Ht] Hs. destruct (ti_stopping _ _ Ht Hs) as (_ & k & i & pc & Hk & Hpc).
  pose proof (Forall_lookup_1 _ _ _ _ (ri_pcs _ _ _ Hr) Hk) as Hok. simpl in Hok. split.
  - exists k, (mkExecInput 0 1 true None). simpl. rewrite Hk. by destruct pc.
  - pose proof (sum_list_insert ((fun x => pc_weight x.2) <$> sv_threads s) k (pc_weight pc) 0) as Hsum.
    rewrite list_lookup_fmap, Hk in Hsum. specialize (Hsum eq_refl). unfold steps_left.
    destruct pc; simpl in *; try done; lia.
Qed.

Lemma events_stop evs s :
  service_inv runs s -> wp_state (sv_proc s) = STATE_IS_STOPPING -> events_ok evs s ->
  (exists evs1 evs2, evs = evs1 ++ evs2 /\ service_inv runs (run_events evs1 s) /\
     wp_state (sv_proc (run_events evs1 s)) = STATE_IS_STOPPED) \/
  ((progress_count evs s < steps_left s)%nat /\ service_inv runs (run_events evs s) /\
   wp_state (sv_proc (run_events evs s)) = STATE_IS_STOPPING).
Proof.
  revert s. induction evs as [|ev evs IH]; intros s Hi Hs; simpl.
  - intros _. right. split; [by apply can_progress|done].
  - intros [Hok Hoks]. pose proof (service_step_inv ev s Hi Hok) as Hi'.
    destruct (stopping_step ev s Hi Hok Hs) as [Hst Hw]. destruct (wp_state (sv_proc (sstep ev s).1)) eqn:Hs'; [done| |].
    + destruct (IH _ Hi' Hs' Hoks) as [(evs1 & evs2 & -> & H)|[Hc H]]; [left; by exists (ev :: evs1), evs2|].
      right. split; [lia|done].
    + left. by exists [ev], evs.
Qed.

(** A stopped processor executes nothing. *)
Lemma stopped_idle s :
  service_inv runs s -> wp_state (sv_proc s) = STATE_IS_STOPPED ->
  wp_inProgressRequests (sv_proc s) = [] /\ Forall (fun x => live x.2 = false) (sv_threads s).
Proof.
  intros [Hr Ht] Hs.
  assert (Hl : Forall (fun x => live x.2 = false) (sv_threads s)).
  { apply Forall_lookup. intros k [i pc] Hk. simpl. destruct (live pc) eqn:Hl; [|done].
    by destruct (live_not_stopped _ _ _ _ _ Ht Hk Hl). }
  split; [|done]. apply Permutation_nil_r. rewrite <- (ri_held _ _ _ Hr). unfold held. clear Hr Ht Hs.
  induction Hl as [|[i pc] l Hx _ IH]; [done|]. destruct pc; simplify_eq/=; apply IH.
Qed.

End steps.

(** ** Fetching *)

Lemma fetch_locked_spec now p p' a :
  fetch_locked now p = Ret (p', Some a) ->
  head (wp_newRequests p) = Some a /\ a :: wp_newRequests p' ≡ₚ wp_newRequests p /\
  wp_inProgressRequests p' = wp_inProgressRequests p ++ [a] /\ status_of p' a = Some STATUS_IN_PROGRESS.
Proof.
  unfold fetch_locked, pq_top. destruct (wp_newRequests p) as [|b l] eqn:Hl; simpl; [done|].
  destruct (wp_requests p !! b) as [r|]; [|done]. unfold wr_start. destruct (wr_status r); try done. simpl.
  intros [= <- <-]. split; [done|]. simpl. split; [|split; [done|]].
  - unfold pq_pop. rewrite Hl. apply pop_heap_Permutation.
  - unfold status_of. simpl. by rewrite lookup_insert_eq.
Qed.

(** ** Status checks *)

Lemma check_in_cases p id l allowed :
  check_in p id l allowed = None \/
  exists a, a ∈ l /\ req_id p a = id /\
    ((exists r, wp_requests p !! a = Some r /\ allowed (wr_status r) = true /\ check_in p id l allowed = Some (Ret a)) \/
     (exists r, wp_requests p !! a = Some r /\ allowed (wr_status r) = false /\
        check_in p id l allowed = Some (Raise LogicError)) \/
     wp_requests p !! a = None).
Proof.
  unfold check_in. destruct (find_id p id l) as [a|] eqn:Hf; [|by left]. right.
  destruct (find_id_Some _ _ _ _ Hf) as [Ha Hid]. exists a. split; [done|]. split; [done|].
  destruct (wp_requests p !! a) as [r|]; [|by auto]. destruct (allowed (wr_status r)) eqn:E; eauto 8.
Qed.

(** A status check fails only for a request that was rolled back and is still
    in progress. *)
Lemma check_status_throws runs p ths id k e :
  req_inv runs p ths -> checkStatus id k p = Raise e ->
  exists j i a, e = LogicError /\ ths !! j = Some (i, PRefuse a) /\ req_id p a = id.
Proof.
  intros Hr. unfold checkStatus, checkStatusImpl.
  assert (Hdom : forall a, a ∈ all_requests p -> wp_requests p !! a <> None).
  { intros a Ha Hn. apply (ri_dom _ _ _ Hr) in Ha. rewrite Hn in Ha. by destruct Ha. }
  destruct (check_in_cases p id (wp_newRequests p) (fun st => match st with STATUS_NONE => true | _ => false end))
    as [-> |(a & Ha & Hid & [(r & Hl & Hal & ->)|[(r & Hl & Hal & ->)|Hn]])]; [|done| |].
  2: { destruct (status_in_elim _ _ _ (new_status _ _ _ a Hr Ha)) as (r' & Hl' & Hs). simplify_eq. by rewrite Hs in Hal. }
  2: { destruct (Hdom a); [apply in_all; auto|done]. }
  destruct (check_in_cases p id (wp_inProgressRequests p) (fun st => match st with STATUS_NONE => false | _ => true end))
    as [-> |(a & Ha & Hid & [(r & Hl & Hal & ->)|[(r & Hl & Hal & ->)|Hn]])]; [|done| |].
  - destruct (check_in_cases p id (wp_finishedRequests p)
      (fun st => match st with STATUS_CANCELLED | STATUS_SUCCEEDED | STATUS_FAILED => true | _ => false end))
      as [-> |(a & Ha & Hid & [(r & Hl & Hal & ->)|[(r & Hl & Hal & ->)|Hn]])]; [done|done| |].
    + destruct (status_in_elim _ _ _ (finished_status _ _ _ a Hr Ha)) as (r' & Hl' & Hs). simplify_eq.
      by destruct Hs as [Hs|[Hs|Hs]]; rewrite Hs in Hal.
    + destruct (Hdom a); [apply in_all; auto|done].
  - simpl. intros [= <-]. rewrite <- (ri_held _ _ _ Hr) in Ha. apply list_elem_of_omap in Ha as ([i pc] & Hin & Hh).
    apply list_elem_of_lookup in Hin as [j Hj]. exists j, i, a. split; [done|]. split; [|done].
    pose proof (Forall_lookup_1 _ _ _ _ (ri_pcs _ _ _ Hr) Hj) as Hok. rewrite Hj. do 2 f_equal.
    destruct (wr_status r) eqn:Hst; try done.
    destruct pc as [| |[]| | | | | | | | | |]; simplify_eq/=; try done;
      destruct (status_in_elim _ _ _ Hok) as (r' & Hl' & Hs); simplify_eq; rewrite Hst in Hs;
      unfold running, completed in Hs; naive_solver.
  - destruct (Hdom a); [apply in_all; auto|done].
Qed.

(** ** The theorems *)

Section theorems.
Context (valid : RequestKind -> bool) (execute : ExecInput -> WorkerRequest -> run_result bool).
Context (runs : RequestKind -> Prop) `{!ExecuteLaws execute runs}.

(** C29. In every reachable state each accepted request is in exactly one of the
    three collections and its status fits: queued requests have not started,
    finished ones are completed, and the requests in progress are exactly the
    ones that the threads hold, each held by one thread. *)
Theorem processor_conserves s :
  service_reach valid execute runs s ->
  let p := sv_proc s in
  NoDup (wp_newRequests p ++ wp_inProgressRequests p ++ wp_finishedRequests p) /\
  (forall a, a ∈ wp_newRequests p ++ wp_inProgressRequests p ++ wp_finishedRequests p <->
             is_Some (wp_requests p !! a)) /\
  (forall a r, a ∈ wp_newRequests p -> wp_requests p !! a = Some r -> wr_status r = STATUS_NONE) /\
  (forall a r, a ∈ wp_finishedRequests p -> wp_requests p !! a = Some r -> completed (wr_status r)) /\
  held (sv_threads s) ≡ₚ wp_inProgressRequests p.
Proof.
  intros [Hr _]%reach_inv; [|done]. simpl. split; [apply Hr|]. split; [apply Hr|]. split; [|split; [|apply Hr]]; intros a r Ha Hl.
  - destruct (status_in_elim _ _ _ (new_status _ _ _ a Hr Ha)) as (r' & Hl' & Hs). by simplify_eq.
  - destruct (status_in_elim _ _ _ (finished_status _ _ _ a Hr Ha)) as (r' & Hl' & Hs). by simplify_eq.
Qed.


(** The methods of the processor do not fail and no exception ends a
    thread: the only calls that throw are [run] with zero threads and a status
    check of a request that a stopping thread is about to put back. *)
Theorem processor_errors s ev e :
  service_reach valid execute runs s ->
  Forall (fun x => forall e, x.2 <> PCrash e) (sv_threads s) /\
  ((service_step valid execute ev s).2 = RThrow e ->
   (ev = ERun 0 /\ e = OutOfRange) \/
   (exists id k j i a, ev = EStatus id k /\ e = LogicError /\
      sv_threads s !! j = Some (i, PRefuse a) /\ req_id (sv_proc s) a = id)).
Proof.
  intros [Hr Ht]%reach_inv; [|done]. split.
  { eapply Forall_impl; [apply (ri_pcs _ _ _ Hr)|]. intros [i pc] Hok e' Hpc. simpl in *. by subst pc. }
  destruct s as [p ths]. destruct ev as [n| |now|id k pr now|id k now|id k|k inp]; simpl in *; try done.
  - unfold wp_run. destruct (wp_state p); [done..|]. destruct n; [|done]. intros [= <-]. by left.
  - by destruct (drain_inv runs p ths now Hr) as (p' & -> & _).
  - by destruct (enqueue valid id k pr now p).
  - unfold dequeueOrCancel. by destruct (cancel_inv runs p ths id now Hr) as (p' & o & -> & _).
  - intros He. right. destruct (check_status_throws runs p ths id k e Hr) as (j & i & a & ? & ? & ?).
    { by destruct (checkStatus id k p); simplify_eq/=. }
    by exists id, k, j, i, a.
  - destruct (ths !! k) as [[i pc]|]; [|done]. by destruct (thread_step execute i inp pc p).
Qed.

(** A thread that takes a request takes one of the highest priority, starts
    it, and moves it from the queue to the requests in progress. *)
Theorem processor_fetch_priority s k i e inp s' a :
  service_reach valid execute runs s -> sv_threads s !! k = Some (i, PFetch e) ->
  s' = (service_step valid execute (EThread k inp) s).1 -> sv_threads s' !! k = Some (i, PGot (Some a)) ->
  a ∈ wp_newRequests (sv_proc s) /\
  (forall b, b ∈ wp_newRequests (sv_proc s) -> prio (sv_proc s) b <= prio (sv_proc s) a) /\
  a :: wp_newRequests (sv_proc s') ≡ₚ wp_newRequests (sv_proc s) /\
  wp_inProgressRequests (sv_proc s') = wp_inProgressRequests (sv_proc s) ++ [a] /\
  status_of (sv_proc s') a = Some STATUS_IN_PROGRESS.
Proof.
  intros [Hr Ht]%reach_inv Hk -> Ha; [|done]. destruct s as [p ths]. simpl in *. rewrite Hk in *. simpl in *.
  assert (Hlt : (k < length ths)%nat) by (by eapply lookup_lt_Some).
  destruct (e <? timeoutMilliseconds); [|simpl in Ha; rewrite list_lookup_insert_eq in Ha by done; by simplify_eq].
  destruct (fetch_locked (ei_now inp) p) as [[p' o]|x] eqn:Hf; simpl in *; [|rewrite list_lookup_insert_eq in Ha by done; by simplify_eq].
  destruct o as [b|]; simpl in *; rewrite list_lookup_insert_eq in Ha by done; simplify_eq.
  destruct (fetch_locked_spec _ _ _ _ Hf) as (Hhead & Hp & Hin & Hst).
  split; [by rewrite <- Hp; left|]. split; [|done]. intros b Hb.
  pose proof (ri_heap _ _ _ Hr) as Hh. destruct (wp_newRequests p) as [|x l] eqn:Hl; [done|]. simplify_eq/=.
  destruct (heap_front_max _ _ _ _ Hh Hb) as [Hc|<-]; [|lia]. by apply Z.ltb_ge in Hc.
Qed.

(** C31. A processor that was told to stop stops.  After any events, either it was
    stopped at some point, with no thread running and no request in progress; or
    its threads have taken fewer than [steps_left] steps since then, and some
    thread can take a further one. *)
Theorem processor_stops s evs :
  service_reach valid execute runs s -> wp_state (sv_proc s) = STATE_IS_STOPPING ->
  events_ok valid execute runs evs s ->
  (exists evs1 evs2, evs = evs1 ++ evs2 /\
     let s' := run_events valid execute evs1 s in
     wp_state (sv_proc s') = STATE_IS_STOPPED /\ wp_inProgressRequests (sv_proc s') = [] /\
     Forall (fun x => live x.2 = false) (sv_threads s')) \/
  ((progress_count valid execute evs s < steps_left s)%nat /\
   exists k inp, progresses (EThread k inp) (run_events valid execute evs s) = true).
Proof.
  intros Hi%reach_inv Hs Hok; [|done].
  destruct (events_stop valid execute runs evs s Hi Hs Hok) as [(evs1 & evs2 & -> & Hi' & Hs')|(Hc & Hi' & Hs')].
  - left. exists evs1, evs2. split; [done|]. split; [done|]. by eapply stopped_idle.
  - right. split; [done|]. by eapply can_progress.
Qed.
End theorems.

(** ** Concrete runs *)

(** [event_ok] for the test technology as a test. *)
Definition event_okb (ev : Event) s : bool :=
  match ev with
  | EEnqueue id k _ _ =>
      forallb (fun x => negb (bool_decide (wr_id x.2 = id))) (map_to_list (wp_requests (sv_proc s))) &&
      match k with KFind _ _ _ => false | _ => true end
  | EThread _ inp => 0 <=? ei_wait inp
  | _ => true
  end.
Fixpoint events_okb (evs : list Event) s : bool :=
  match evs with
  | [] => true
  | ev :: evs' => event_okb ev s && events_okb evs' (service_step (fun _ => true) execute_test ev s).1
  end.

Lemma events_okb_spec evs s : events_okb evs s = true -> events_ok (fun _ => true) execute_test not_find evs s.
Proof.
  revert s. induction evs as [|ev evs IH]; intros s; simpl; [done|]. intros [Hok Hoks]%andb_true_iff.
  split; [|by apply IH]. destruct ev; simpl in *; try done; [|by apply Z.leb_le].
  apply andb_true_iff in Hok as [Hid Hk]. split; [|by destruct k]. intros (a & r & Ha & Hr).
  rewrite forallb_forall in Hid. apply elem_of_map_to_list, list_elem_of_In in Ha. specialize (Hid _ Ha).
  apply negb_true_iff, bool_decide_eq_false in Hid. done.
Qed.

Abbreviation demo evs := (run_events (fun _ => true) execute_test evs Service_ctor).

Lemma demo_reach evs : events_okb evs Service_ctor = true -> service_reach (fun _ => true) execute_test not_find (demo evs).
Proof. intros H. apply run_events_reach; [constructor|by apply events_okb_spec]. Qed.

Definition tick (k : nat) : Event := EThread k (mkExecInput 20 5 true None).

(** Two requests are queued and the only thread is about to look for one. *)
Definition demo_fetch : list Event :=
  [ERun 1; EEnqueue "r1" (KDelete "db" 5) 1 10; EEnqueue "r2" (KDelete "db" 6) 3 11; tick 0].

(** The thread has taken a request, then the processor is told to stop. *)
Definition demo_stopping : list Event := demo_fetch ++ [tick 0; tick 0; tick 0; EStop].

Lemma processor_conserves_witness :
  held (sv_threads (demo demo_stopping)) ≡ₚ wp_inProgressRequests (sv_proc (demo demo_stopping)) /\
  wp_inProgressRequests (sv_proc (demo demo_stopping)) = [1%nat].
Proof.
  split; [|reflexivity].
  apply (processor_conserves (fun _ => true) execute_test not_find (demo demo_stopping)), demo_reach; reflexivity.
Defined.


Lemma processor_errors_witness :
  exists id k j i a, EStatus "r2" (KDelete "" 0) = EStatus id k /\ LogicError = LogicError /\
    sv_threads (demo (demo_stopping ++ [tick 0; tick 0])) !! j = Some (i, PRefuse a) /\
    req_id (sv_proc (demo (demo_stopping ++ [tick 0; tick 0]))) a = id.
Proof.
  destruct (processor_errors (fun _ => true) execute_test not_find (demo (demo_stopping ++ [tick 0; tick 0]))
    (EStatus "r2" (KDelete "" 0)) LogicError) as [_ H]; [apply demo_reach; reflexivity|].
  destruct H as [[H _]|H]; [reflexivity|discriminate H|exact H].
Defined.

Lemma processor_fetch_priority_witness :
  prio (sv_proc (demo demo_fetch)) 0 <= prio (sv_proc (demo demo_fetch)) 1.
Proof.
  eapply (processor_fetch_priority (fun _ => true) execute_test not_find (demo demo_fetch) 0 0 0
    (mkExecInput 20 5 true None) _ 1); [apply demo_reach; reflexivity|reflexivity..|vm_compute; set_solver].
Defined.

Lemma processor_stops_witness :
  exists n, wp_state (sv_proc (run_events (fun _ => true) execute_test (repeat (tick 0) n) (demo demo_stopping))) = STATE_IS_STOPPED.
Proof.
  destruct (processor_stops (fun _ => true) execute_test not_find (demo demo_stopping) (repeat (tick 0) 7))
    as [H|[_ (k & inp & H)]].
  - apply demo_reach; reflexivity.
  - reflexivity.
  - apply events_okb_spec. reflexivity.
  - exists 7%nat. reflexivity.
  - exists 7%nat. reflexivity.
Defined.

(** A request that the processor reported as being cancelled goes back to the
    queue and will be executed: [_processingRefused] resets any status. *)
Example cancelled_request_requeued :
  let s := demo (demo_fetch ++ [tick 0; EStop; tick 0]) in
  let '(s1, reply) := service_step (fun _ => true) execute_test (ECancel "r2" (KDelete "" 0) 30) s in
  let s2 := (service_step (fun _ => true) execute_test (tick 0) s1).1 in
  reply = RResponse (mkResponse IS_CANCELLING EXT_STATUS_NONE None) /\
  status_of (sv_proc s2) 1 = Some STATUS_NONE /\ head (wp_newRequests (sv_proc s2)) = Some 1%nat.
Proof. vm_compute. done. Qed.
