(* ===== verification/ChunkSpec.v ===== *)
(** * Chunks and sub-chunks of a query

    [qproc/ChunkSpec.h] and [qproc/ChunkSpec.cc]: which chunks, and which
    sub-chunks of them, a query needs.  The czar combines such vectors
    ([normalize], [intersectSorted]) and cuts long lists of sub-chunks into
    fragments.  The algorithms of the standard library that the code uses are
    written as it documents them.

    An iterator of a vector is the list that is left from there; the position
    of a fragmenter is an index.  Not modelled: [operator<<] and [makeFake]. *)

From S2P Require Import Prelude.

(** ** [std::merge], [std::unique], [std::set_intersection], [std::mismatch] *)

Implicit Types (l : list Z) (x y : Z).

Fixpoint std_merge l1 : list Z -> list Z :=
  match l1 with
  | [] => fun l2 => l2
  | x :: l1' =>
      fix merge_x l2 :=
        match l2 with
        | [] => l1
        | y :: l2' => if y <? x then y :: merge_x l2' else x :: std_merge l1' l2
        end
  end.

Fixpoint std_unique l : list Z :=
  match l with
  | [] => []
  | x :: l' => match l' with
               | [] => [x]
               | y :: _ => if x =? y then std_unique l' else x :: std_unique l'
               end
  end.

Fixpoint std_set_intersection l1 : list Z -> list Z :=
  match l1 with
  | [] => fun _ => []
  | x :: l1' =>
      fix inter_x l2 :=
        match l2 with
        | [] => []
        | y :: l2' =>
            if x <? y then std_set_intersection l1' l2
            else if y <? x then inter_x l2'
            else x :: std_set_intersection l1' l2'
        end
  end.

Fixpoint std_mismatch l1 l2 : list Z * list Z :=
  match l1, l2 with
  | x :: l1', y :: l2' => if x =? y then std_mismatch l1' l2' else (l1, l2)
  | _, _ => (l1, l2)
  end.

(** ** [struct ChunkSpec] *)

Record ChunkSpec := mkChunkSpec { cs_chunkId : Z; cs_subChunks : list Z }.

Implicit Types (c d : ChunkSpec) (v w : list ChunkSpec).

#[export] Instance ChunkSpec_eq_dec : EqDecision ChunkSpec.
Proof. solve_decision. Defined.

Definition CHUNKID_INVALID : Z := -1.
Definition GOOD_SUBCHUNK_COUNT : nat := 20.

(** [bool shouldSplit() const] *)
Definition shouldSplit c : bool := (GOOD_SUBCHUNK_COUNT <? length (cs_subChunks c))%nat.

(** [void normalize()] *)
Definition cs_normalize c : ChunkSpec := mkChunkSpec (cs_chunkId c) (std_unique (std_sort Z.ltb (cs_subChunks c))).

(** [void restrict(ChunkSpec const& rhs)] *)
Definition cs_restrict c d : outcome ChunkSpec :=
  if cs_chunkId c =? cs_chunkId d
  then Ret (mkChunkSpec (cs_chunkId c) (std_set_intersection (cs_subChunks c) (cs_subChunks d)))
  else Raise BugException.

(** [ChunkSpec intersect(ChunkSpec const& cs) const] *)
Definition cs_intersect c d : outcome ChunkSpec := cs_restrict (cs_normalize c) (cs_normalize d).

(** [void mergeUnion(ChunkSpec const& rhs)] *)
Definition cs_mergeUnion c d : outcome ChunkSpec :=
  if cs_chunkId c =? cs_chunkId d
  then Ret (mkChunkSpec (cs_chunkId c) (std_unique (std_merge (cs_subChunks c) (cs_subChunks d))))
  else Raise BugException.

(** [bool operator<(ChunkSpec const& rhs) const] *)
Definition cs_lt c d : bool :=
  if cs_chunkId c <? cs_chunkId d then true
  else if cs_chunkId d <? cs_chunkId c then false
  else if negb (length (cs_subChunks c) =? length (cs_subChunks d))%nat
       then (length (cs_subChunks c) <? length (cs_subChunks d))%nat
  else match std_mismatch (cs_subChunks c) (cs_subChunks d) with
       | ([], r) => negb (bool_decide (r = []))
       | (_, []) => false
       | (x :: _, y :: _) => x <? y
       end.

(** ** Vectors of chunk specs *)

(** The loops of [normalize(ChunkSpecVector& specs)] after the sort: [c] is
    [*i], already normalized, and the list what follows [j]. *)
Fixpoint normalize_from c v : outcome (list ChunkSpec) :=
  match v with
  | [] => Ret [c]
  | d :: v' =>
      if cs_chunkId c =? cs_chunkId d then
        let? c' := cs_mergeUnion c (cs_normalize d) in normalize_from c' v'
      else
        let? out := normalize_from (cs_normalize d) v' in Ret (c :: out)
  end.

(** [void normalize(ChunkSpecVector& specs)] *)
Definition normalize v : outcome (list ChunkSpec) :=
  match std_sort cs_lt v with
  | [] => Ret []
  | c :: v' => normalize_from (cs_normalize c) v'
  end.

(** [while(ai->chunkId < di->chunkId) ++ai;]: there is no test for the end. *)
Fixpoint advance (chunkId : Z) (a : list ChunkSpec) : outcome (list ChunkSpec) :=
  match a with
  | [] => Raise UndefinedBehaviour
  | ai :: a' => if cs_chunkId ai <? chunkId then advance chunkId a' else Ret a
  end.

(** The loop of [intersectSorted]. *)
Fixpoint intersect_loop (dest a tmp : list ChunkSpec) : outcome (list ChunkSpec) :=
  match dest with
  | [] => Ret tmp
  | di :: dest' =>
      match a with
      | [] => Ret tmp
      | _ =>
          let? a' := advance (cs_chunkId di) a in
          match a' with
          | [] => Raise UndefinedBehaviour
          | ai :: _ =>
              if cs_chunkId ai =? cs_chunkId di then
                let? cs := cs_restrict di ai in
                intersect_loop dest' a'
                  (if negb (cs_chunkId di =? CHUNKID_INVALID) then tmp ++ [cs] else tmp)
              else intersect_loop dest' a' tmp
          end
      end
  end.

(** [void intersectSorted(ChunkSpecVector& dest, ChunkSpecVector const& a)] *)
Definition intersectSorted (dest a : list ChunkSpec) : outcome (list ChunkSpec) := intersect_loop dest a [].

(** [ChunkSpecVector intersect(ChunkSpecVector const& a, ChunkSpecVector const& b)] *)
Definition intersect v w : outcome (list ChunkSpec) :=
  let? asort := normalize v in
  let? bsort := normalize w in
  intersectSorted asort bsort.

(** ** [class ChunkSpecFragmenter] *)

Record ChunkSpecFragmenter := mkFragmenter { fr_original : ChunkSpec; fr_pos : nat }.

Definition ChunkSpecFragmenter_ctor c : ChunkSpecFragmenter := mkFragmenter c 0.

(** [ChunkSpec get() const]; past the end [resize] throws [std::length_error]. *)
Definition fr_get (f : ChunkSpecFragmenter) : outcome ChunkSpec :=
  let subs := cs_subChunks (fr_original f) in
  let posEnd := Nat.min (fr_pos f + GOOD_SUBCHUNK_COUNT) (length subs) in
  if (posEnd <? fr_pos f)%nat then Raise LogicError
  else Ret (mkChunkSpec (cs_chunkId (fr_original f)) (take (posEnd - fr_pos f) (drop (fr_pos f) subs))).

(** [void next()] and [bool isDone()] *)
Definition fr_next (f : ChunkSpecFragmenter) : ChunkSpecFragmenter :=
  mkFragmenter (fr_original f) (fr_pos f + GOOD_SUBCHUNK_COUNT).
Definition fr_isDone (f : ChunkSpecFragmenter) : bool := (length (cs_subChunks (fr_original f)) <=? fr_pos f)%nat.

(** ** [class ChunkSpecSingle] *)

Record ChunkSpecSingle := mkSingle { ss_chunkId : Z; ss_subChunkId : Z }.

(** [static Vector makeVector(ChunkSpec const& spec)] *)
Definition makeVector c : outcome (list ChunkSpecSingle) :=
  match cs_subChunks c with
  | [] => Raise BugException
  | l => Ret (map (mkSingle (cs_chunkId c)) l)
  end.

(** ** Theorems on chunk specs

    A vector of chunk specs stands for a finite map from chunks to sets of
    sub-chunks ([contents]).  [normalize] computes the one vector that is sorted
    and without repetitions for the same map, [intersectSorted] the
    intersection. *)


(** ** Sorted lists *)

Abbreviation increasing := (StronglySorted Z.lt).
Abbreviation nondecreasing := (StronglySorted Z.le).

Lemma increasing_ext l1 l2 : increasing l1 -> increasing l2 -> (forall x, x ∈ l1 <-> x ∈ l2) -> l1 = l2.
Proof.
  intros H1. revert l2. induction H1 as [|x l1 Hs IH Hx]; intros l2 H2 He.
  - destruct l2 as [|y l2]; [done|]. exfalso. specialize (He y). set_solver.
  - destruct H2 as [|y l2 Hs2 Hy]; [exfalso; specialize (He x); set_solver|].
    rewrite Forall_forall in Hx, Hy.
    assert (x = y) as ->.
    { destruct (Z.lt_trichotomy x y) as [Hlt|[?|Hlt]]; [|done|].
      - assert (Hin : x ∈ y :: l2) by (apply He; by left). apply elem_of_cons in Hin as [->|Hin]; [done|].
        specialize (Hy x Hin). lia.
      - assert (Hin : y ∈ x :: l1) by (apply He; by left). apply elem_of_cons in Hin as [->|Hin]; [done|].
        specialize (Hx y Hin). lia. }
    f_equal. apply IH; [done|]. intros z. specialize (He z). rewrite !elem_of_cons in He.
    split; intros Hz.
    + destruct (proj1 He (or_intror Hz)) as [->|?]; [|done]. specialize (Hx y Hz). lia.
    + destruct (proj2 He (or_intror Hz)) as [->|?]; [|done]. specialize (Hy y Hz). lia.
Qed.

#[export] Instance ltb_StrictWeak : StrictWeak Z.ltb.
Proof. split; intros *; rewrite ?Z.ltb_lt, ?Z.ltb_ge; lia. Qed.

Lemma sort_nondecreasing l : nondecreasing (std_sort Z.ltb l).
Proof.
  pose proof (std_sort_ordered Z.ltb l) as H. unfold ordered in H.
  induction H as [|x l' _ IH Hx]; constructor; [done|]. eapply Forall_impl; [exact Hx|]. intros y Hy. by apply Z.ltb_ge.
Qed.

Lemma elem_of_unique l x : x ∈ std_unique l <-> x ∈ l.
Proof.
  induction l as [|y l IH]; [done|]. destruct l as [|z l]; [done|].
  change (std_unique (y :: z :: l)) with (if y =? z then std_unique (z :: l) else y :: std_unique (z :: l)).
  destruct (Z.eqb_spec y z) as [->|Hne]; [rewrite IH; set_solver|]. rewrite !(elem_of_cons _ x y), IH. done.
Qed.

Lemma unique_increasing l : nondecreasing l -> increasing (std_unique l).
Proof.
  induction 1 as [|x l Hs IH Hx]; [constructor|]. destruct l as [|y l]; [repeat constructor|].
  change (std_unique (x :: y :: l)) with (if x =? y then std_unique (y :: l) else x :: std_unique (y :: l)).
  destruct (Z.eqb_spec x y) as [->|Hne]; [done|]. constructor; [done|].
  apply Forall_forall. intros z Hz. rewrite elem_of_unique in Hz. apply Forall_cons in Hx as [Hxy _].
  apply StronglySorted_inv in Hs as [_ Hy]. rewrite Forall_forall in Hy.
  apply elem_of_cons in Hz as [->|Hz]; [lia|]. specialize (Hy z Hz). lia.
Qed.

Lemma merge_cons x l1 y l2 :
  std_merge (x :: l1) (y :: l2) = if y <? x then y :: std_merge (x :: l1) l2 else x :: std_merge l1 (y :: l2).
Proof. done. Qed.

Lemma merge_Permutation l1 l2 : std_merge l1 l2 ≡ₚ l1 ++ l2.
Proof.
  revert l2. induction l1 as [|x l1 IH1]; [done|]. induction l2 as [|y l2 IH2]; [simpl; by rewrite app_nil_r|].
  rewrite merge_cons. destruct (y <? x); [rewrite IH2|rewrite IH1; done]. solve_Permutation.
Qed.

Lemma merge_nondecreasing l1 l2 : nondecreasing l1 -> nondecreasing l2 -> nondecreasing (std_merge l1 l2).
Proof.
  intros H1. revert l2. induction H1 as [|x l1 Hs IH Hx]; [done|]. intros l2 H2.
  induction H2 as [|y l2 Hs2 IH2 Hy]; [by constructor|]. rewrite merge_cons.
  rewrite Forall_forall in Hx, Hy.
  destruct (Z.ltb_spec y x) as [Hlt|Hge]; constructor; auto.
  - apply Forall_forall. intros z Hz. rewrite merge_Permutation, elem_of_app, elem_of_cons in Hz.
    destruct Hz as [[->|Hz]|Hz]; [lia|specialize (Hx z Hz); lia|by apply Hy].
  - apply IH. constructor; [done|by apply Forall_forall].
  - apply Forall_forall. intros z Hz. rewrite merge_Permutation, elem_of_app, elem_of_cons in Hz.
    destruct Hz as [Hz|[->|Hz]]; [by apply Hx|lia|specialize (Hy z Hz); lia].
Qed.

Lemma increasing_nondecreasing l : increasing l -> nondecreasing l.
Proof. induction 1 as [|x l _ IH Hx]; constructor; [done|]. eapply Forall_impl; [exact Hx|]. intros; simpl in *; lia. Qed.

Lemma inter_cons x l1 y l2 :
  std_set_intersection (x :: l1) (y :: l2) =
  if x <? y then std_set_intersection l1 (y :: l2)
  else if y <? x then std_set_intersection (x :: l1) l2 else x :: std_set_intersection l1 l2.
Proof. done. Qed.

Lemma inter_spec l1 l2 :
  increasing l1 -> increasing l2 ->
  increasing (std_set_intersection l1 l2) /\ forall x, x ∈ std_set_intersection l1 l2 <-> x ∈ l1 /\ x ∈ l2.
Proof.
  intros H1. revert l2. induction H1 as [|x l1 Hs IH Hx]; intros l2 H2.
  { split; [constructor|]. intros z. simpl. set_solver. }
  induction H2 as [|y l2 Hs2 IH2 Hy]; [split; [constructor|]; intros z; simpl; set_solver|]. rewrite inter_cons.
  rewrite Forall_forall in Hx, Hy.
  destruct (Z.ltb_spec x y) as [Hxy|Hxy]; [|destruct (Z.ltb_spec y x) as [Hyx|Hyx]].
  - destruct (IH (y :: l2)) as [Hi He]; [constructor; [done|by apply Forall_forall]|]. split; [done|].
    intros z. rewrite He, !elem_of_cons. split; [tauto|]. intros [[->|Hz] [->|Hz2]]; auto; [lia|]. specialize (Hy x Hz2). lia.
  - destruct IH2 as [Hi He]. split; [done|]. intros z. rewrite He, !elem_of_cons.
    split; [tauto|]. intros [[->|Hz] [->|Hz2]]; auto; [lia|]. specialize (Hx y Hz). lia.
  - assert (x = y) as -> by lia. destruct (IH l2 Hs2) as [Hi He]. split.
    + constructor; [done|]. apply Forall_forall. intros z [Hz _]%He. by apply Hx.
    + intros z. rewrite !elem_of_cons, He. split; [tauto|]. intros [[->|Hz] [Hz2|Hz2]]; subst; auto.
Qed.

(** ** The order of chunk specs *)

Definition mism_lt l1 l2 : bool :=
  match std_mismatch l1 l2 with
  | ([], r) => negb (bool_decide (r = []))
  | (_, []) => false
  | (x :: _, y :: _) => x <? y
  end.

Lemma mism_lt_cons x l1 y l2 : mism_lt (x :: l1) (y :: l2) = if x =? y then mism_lt l1 l2 else x <? y.
Proof. unfold mism_lt. simpl. by destruct (x =? y). Qed.

Lemma mism_lt_asym l1 l2 : length l1 = length l2 -> mism_lt l1 l2 = true -> mism_lt l2 l1 = false.
Proof.
  revert l2. induction l1 as [|x l1 IH]; intros [|y l2] Hl; try done. injection Hl as Hl. rewrite !mism_lt_cons.
  rewrite (Z.eqb_sym y x). destruct (x =? y); [by apply IH|]. rewrite Z.ltb_lt, Z.ltb_ge. lia.
Qed.

Lemma mism_lt_ntrans l1 l2 l3 :
  length l1 = length l2 -> length l2 = length l3 ->
  mism_lt l1 l2 = false -> mism_lt l2 l3 = false -> mism_lt l1 l3 = false.
Proof.
  revert l2 l3. induction l1 as [|x l1 IH]; intros [|y l2] [|z l3] Hl1 Hl2; try done.
  injection Hl1 as Hl1. injection Hl2 as Hl2. rewrite !mism_lt_cons.
  destruct (Z.eqb_spec x y), (Z.eqb_spec y z), (Z.eqb_spec x z); subst; try lia; rewrite ?Z.ltb_ge; try lia. by apply IH.
Qed.

#[export] Instance cs_lt_StrictWeak : StrictWeak cs_lt.
Proof.
  split.
  - intros c d. unfold cs_lt. fold (mism_lt (cs_subChunks c) (cs_subChunks d)).
    fold (mism_lt (cs_subChunks d) (cs_subChunks c)). rewrite (Nat.eqb_sym (length (cs_subChunks d))).
    destruct (Z.ltb_spec (cs_chunkId c) (cs_chunkId d)), (Z.ltb_spec (cs_chunkId d) (cs_chunkId c)); try done; try lia.
    destruct (Nat.eqb_spec (length (cs_subChunks c)) (length (cs_subChunks d))); simpl; [by apply mism_lt_asym|].
    rewrite Nat.ltb_lt, Nat.ltb_ge. lia.
  - intros c d e. unfold cs_lt. fold (mism_lt (cs_subChunks c) (cs_subChunks d)).
    fold (mism_lt (cs_subChunks d) (cs_subChunks e)). fold (mism_lt (cs_subChunks c) (cs_subChunks e)).
    destruct (Z.ltb_spec (cs_chunkId c) (cs_chunkId d)), (Z.ltb_spec (cs_chunkId d) (cs_chunkId c)); try done; try lia;
    destruct (Z.ltb_spec (cs_chunkId d) (cs_chunkId e)), (Z.ltb_spec (cs_chunkId e) (cs_chunkId d)); try done; try lia;
    destruct (Z.ltb_spec (cs_chunkId c) (cs_chunkId e)), (Z.ltb_spec (cs_chunkId e) (cs_chunkId c)); try done; try lia.
    destruct (Nat.eqb_spec (length (cs_subChunks c)) (length (cs_subChunks d))),
      (Nat.eqb_spec (length (cs_subChunks d)) (length (cs_subChunks e))),
      (Nat.eqb_spec (length (cs_subChunks c)) (length (cs_subChunks e))); simpl; rewrite ?Nat.ltb_ge; try lia.
    by apply mism_lt_ntrans.
Qed.

Lemma sort_specs_ordered v : StronglySorted (fun c d => cs_chunkId c <= cs_chunkId d) (std_sort cs_lt v).
Proof.
  pose proof (std_sort_ordered cs_lt v) as H. unfold ordered in H.
  induction H as [|c l' _ IH Hx]; constructor; [done|]. eapply Forall_impl; [exact Hx|]. intros d. simpl.
  unfold cs_lt. destruct (Z.ltb_spec (cs_chunkId d) (cs_chunkId c)); [done|lia].
Qed.

(** ** Contents *)

(** The sub-chunks that a vector lists for each chunk. *)
Definition add_spec c (m : gmap Z (gset Z)) : gmap Z (gset Z) :=
  <[cs_chunkId c := list_to_set (cs_subChunks c) ∪ default ∅ (m !! cs_chunkId c)]> m.
Definition contents v : gmap Z (gset Z) := foldr add_spec ∅ v.

Definition normal_spec c : Prop := increasing (cs_subChunks c).
Definition normal v : Prop :=
  StronglySorted (fun c d => cs_chunkId c < cs_chunkId d) v /\ Forall normal_spec v.

Lemma add_spec_comm c d m : add_spec c (add_spec d m) = add_spec d (add_spec c m).
Proof.
  unfold add_spec. destruct (decide (cs_chunkId c = cs_chunkId d)) as [->|Hne].
  - rewrite !lookup_insert_eq, !insert_insert_eq. simpl. f_equal. set_solver.
  - rewrite !lookup_insert_ne by done. by rewrite insert_insert_ne.
Qed.

Lemma contents_Permutation v w : v ≡ₚ w -> contents v = contents w.
Proof. induction 1; simpl; [done|by f_equal|apply add_spec_comm|congruence]. Qed.

Lemma contents_step c v : contents (c :: v) = add_spec c (contents v).
Proof. done. Qed.

Lemma contents_app v w : contents (v ++ w) = foldr add_spec (contents w) v.
Proof. apply foldr_app. Qed.

Lemma contents_dom v k : is_Some (contents v !! k) <-> exists c, c ∈ v /\ cs_chunkId c = k.
Proof.
  induction v as [|c v IH]; simpl.
  - rewrite lookup_empty. split; [by intros []|by intros (c & ?%elem_of_nil & _)].
  - unfold add_spec. destruct (decide (cs_chunkId c = k)) as [<-|Hne].
    + rewrite lookup_insert_eq. split; [|eauto]. intros _. exists c. split; [by left|done].
    + rewrite lookup_insert_ne by done. rewrite IH. split; intros (d & Hd & He); exists d; split; try done.
      * by right.
      * by apply elem_of_cons in Hd as [->|].
Qed.

Lemma normalize_spec_normal c : normal_spec (cs_normalize c).
Proof. apply unique_increasing, sort_nondecreasing. Qed.

Lemma normalize_spec_set c : list_to_set (C := gset Z) (cs_subChunks (cs_normalize c)) = list_to_set (cs_subChunks c).
Proof. apply set_eq. intros x. simpl. rewrite !elem_of_list_to_set, elem_of_unique, std_sort_Permutation. done. Qed.

(** ** [normalize] *)

Lemma normal_cons c v :
  normal (c :: v) <-> normal_spec c /\ Forall (fun d => cs_chunkId c < cs_chunkId d) v /\ normal v.
Proof.
  unfold normal. split.
  - intros [[Hs Hc]%StronglySorted_inv [Hn Hv]%Forall_cons]. done.
  - intros (Hn & Hc & Hs & Hv). split; by constructor.
Qed.

Lemma contents_fresh c v : Forall (fun d => cs_chunkId c < cs_chunkId d) v -> contents v !! cs_chunkId c = None.
Proof.
  intros Hv. destruct (contents v !! cs_chunkId c) eqn:E; [|done].
  destruct (proj1 (contents_dom v (cs_chunkId c)) (mk_is_Some _ _ E)) as (d & Hd & He).
  rewrite Forall_forall in Hv. specialize (Hv d Hd). lia.
Qed.

Lemma contents_cons c v :
  normal (c :: v) -> contents (c :: v) = <[cs_chunkId c := list_to_set (cs_subChunks c)]> (contents v).
Proof.
  intros (_ & Hc & _)%normal_cons. simpl. unfold add_spec. rewrite contents_fresh by done. simpl. by rewrite union_empty_r_L.
Qed.

Lemma mergeUnion_spec c d :
  normal_spec c -> normal_spec d -> cs_chunkId c = cs_chunkId d ->
  exists c', cs_mergeUnion c d = Ret c' /\ normal_spec c' /\ cs_chunkId c' = cs_chunkId c /\
    forall m, add_spec c' m = add_spec c (add_spec d m).
Proof.
  intros Hc Hd He. unfold cs_mergeUnion. rewrite (proj2 (Z.eqb_eq _ _) He). eexists. split; [done|].
  split; [apply unique_increasing, merge_nondecreasing; by apply increasing_nondecreasing|]. split; [done|].
  intros m. unfold add_spec. simpl. rewrite <- He, lookup_insert_eq, insert_insert_eq. simpl. f_equal.
  apply set_eq. intros x. rewrite !elem_of_union, !elem_of_list_to_set, elem_of_unique, merge_Permutation, elem_of_app. tauto.
Qed.

Lemma add_normalize c m : add_spec (cs_normalize c) m = add_spec c m.
Proof. unfold add_spec. by rewrite normalize_spec_set. Qed.

Lemma normalize_from_spec c v :
  normal_spec c -> StronglySorted (fun c d => cs_chunkId c <= cs_chunkId d) (c :: v) ->
  exists out, normalize_from c v = Ret out /\ normal out /\ contents out = contents (c :: v) /\
    Forall (fun d => cs_chunkId c <= cs_chunkId d) out.
Proof.
  revert c. induction v as [|d v IH]; intros c Hn Hs; simpl.
  - exists [c]. split; [done|]. split; [|split; [done|]; by repeat constructor]. split; by repeat constructor.
  - apply StronglySorted_inv in Hs as [Hs Hc]. apply Forall_cons in Hc as [Hcd Hc].
    apply StronglySorted_inv in Hs as [Hs Hd]. destruct (Z.eqb_spec (cs_chunkId c) (cs_chunkId d)) as [He|Hne].
    + destruct (mergeUnion_spec c (cs_normalize d) Hn (normalize_spec_normal d) He) as (c' & -> & Hn' & Hid & Hadd). simpl.
      destruct (IH c') as (out & -> & Ho & Hcont & Hle); [done|constructor; [done|by rewrite Hid]|]. rewrite Hid in Hle.
      exists out. split; [done|]. split; [done|]. split; [|done]. rewrite Hcont. simpl. by rewrite Hadd, add_normalize.
    + destruct (IH (cs_normalize d)) as (out & -> & Ho & Hcont & Hle); [apply normalize_spec_normal|by constructor|].
      simpl in *. exists (c :: out). split; [done|].
      split; [|split]; [apply normal_cons; split; [done|]; split; [|done]| |].
      * eapply Forall_impl; [exact Hle|]. intros e. simpl. lia.
      * simpl. by rewrite Hcont, add_normalize.
      * constructor; [lia|]. eapply Forall_impl; [exact Hle|]. intros e. simpl. lia.
Qed.

Lemma normalize_normal v : exists out, normalize v = Ret out /\ normal out /\ contents out = contents v.
Proof.
  unfold normalize. rewrite <- (contents_Permutation _ _ (std_sort_Permutation cs_lt v)).
  pose proof (sort_specs_ordered v) as Hs. destruct (std_sort cs_lt v) as [|c l].
  - exists []. split; [done|]. split; [split; constructor|done].
  - destruct (normalize_from_spec (cs_normalize c) l) as (out & -> & Ho & Hcont & _).
    + apply normalize_spec_normal.
    + apply StronglySorted_inv in Hs as [Hs Hc]. by constructor.
    + exists out. split; [done|]. split; [done|]. rewrite Hcont. simpl. by rewrite add_normalize.
Qed.

(** ** The reference vector of a map *)

Definition canonical (m : gmap Z (gset Z)) : list ChunkSpec :=
  (fun e => mkChunkSpec e.1 (merge_sort Z.le (elements e.2))) <$> in_order m.

Lemma normal_unique v w : normal v -> normal w -> contents v = contents w -> v = w.
Proof.
  revert w. induction v as [|c v IH]; intros [|d w] Hv Hw He; [done| | |].
  - exfalso. assert (H : is_Some (contents (d :: w) !! cs_chunkId d)) by (apply contents_dom; exists d; split; [by left|done]).
    rewrite <- He in H. simpl in H. rewrite lookup_empty in H. by destruct H.
  - exfalso. assert (H : is_Some (contents (c :: v) !! cs_chunkId c)) by (apply contents_dom; exists c; split; [by left|done]).
    rewrite He in H. simpl in H. rewrite lookup_empty in H. by destruct H.
  - assert (Hle : forall c v d w, normal (d :: w) -> contents (c :: v) = contents (d :: w) -> cs_chunkId d <= cs_chunkId c).
    { clear. intros c v d w (_ & Hd & _)%normal_cons He.
      assert (H : is_Some (contents (c :: v) !! cs_chunkId c)) by (apply contents_dom; exists c; split; [by left|done]).
      rewrite He in H. apply contents_dom in H as (e & Hin & <-). rewrite Forall_forall in Hd.
      apply elem_of_cons in Hin as [->|Hin]; [lia|]. specialize (Hd e Hin). lia. }
    assert (Hid : cs_chunkId c = cs_chunkId d) by (apply Z.le_antisymm; eapply Hle; eauto).
    pose proof He as He'. rewrite !contents_cons in He' by done. rewrite Hid in He'.
    apply normal_cons in Hv as (Hc & Hcv & Hv), Hw as (Hd & Hdw & Hw).
    f_equal.
    + assert (Hset : list_to_set (C := gset Z) (cs_subChunks c) = list_to_set (cs_subChunks d)).
      { apply (f_equal (fun m : gmap Z (gset Z) => m !! cs_chunkId d)) in He'. rewrite !lookup_insert_eq in He'. by simplify_eq. }
      destruct c as [ci cl], d as [di dl]. simpl in *. f_equal; [done|]. apply increasing_ext; [done..|]. intros x.
      rewrite <- !(elem_of_list_to_set (C := gset Z)). by rewrite Hset.
    + apply IH; [done..|]. apply (f_equal (delete (cs_chunkId d))) in He'.
      rewrite !delete_insert_eq in He'. rewrite !delete_id in He'; [done|by apply contents_fresh|].
      rewrite <- Hid. by apply contents_fresh.
Qed.

Lemma elements_sorted (X : gset Z) : increasing (merge_sort Z.le (elements X)).
Proof.
  assert (Hs : nondecreasing (merge_sort Z.le (elements X))) by (apply (StronglySorted_merge_sort Z.le)).
  assert (Hn : NoDup (merge_sort Z.le (elements X))) by (rewrite merge_sort_Permutation; apply NoDup_elements).
  induction Hs as [|x l _ IH Hx]; [constructor|]. apply NoDup_cons in Hn as [Hnin Hn]. constructor; [by apply IH|].
  rewrite Forall_forall in Hx. apply Forall_forall. intros y Hy. specialize (Hx y Hy).
  assert (x <> y) by (intros <-; done). lia.
Qed.

Lemma elements_set (X : gset Z) : list_to_set (merge_sort Z.le (elements X)) = X.
Proof. apply set_eq. intros x. by rewrite elem_of_list_to_set, merge_sort_Permutation, elem_of_elements. Qed.

Lemma in_order_sorted {A} (m : gmap Z A) : StronglySorted (fun e f => e.1 < f.1) (in_order m).
Proof.
  assert (Hs : StronglySorted key_le (in_order m)).
  { assert (Transitive (key_le (A := A))) by (intros e f g; unfold key_le; lia).
    assert (Total (key_le (A := A))) by (intros e f; unfold key_le; lia). apply (StronglySorted_merge_sort key_le). }
  assert (Hn : NoDup (in_order m).*1).
  { rewrite in_order_Permutation. apply NoDup_fst_map_to_list. }
  induction Hs as [|e l _ IH He]; [constructor|]. apply NoDup_cons in Hn as [Hnin Hn]. constructor; [by apply IH|].
  rewrite Forall_forall in He. apply Forall_forall. intros y Hy. specialize (He y Hy). unfold key_le in He.
  assert (e.1 <> y.1); [|lia]. intros Heq. apply Hnin. rewrite Heq. by apply list_elem_of_fmap_2.
Qed.

Lemma canonical_normal m : normal (canonical m).
Proof.
  unfold canonical, normal. split.
  - pose proof (in_order_sorted m) as Hs. induction Hs as [|e l _ IH He]; simpl; constructor; [done|].
    apply Forall_fmap. done.
  - apply Forall_fmap, Forall_true. intros e. apply elements_sorted.
Qed.

Lemma contents_list (l : list (Z * gset Z)) :
  NoDup l.*1 -> contents ((fun e => mkChunkSpec e.1 (merge_sort Z.le (elements e.2))) <$> l) = list_to_map l.
Proof.
  induction l as [|[k X] l IH]; [done|]. intros [Hk Hn]%NoDup_cons. rewrite fmap_cons, contents_step, IH by done.
  unfold add_spec. simpl. rewrite elements_set. apply not_elem_of_list_to_map_1 in Hk. simpl in Hk. rewrite Hk. simpl. by rewrite union_empty_r_L.
Qed.

Lemma contents_canonical m : contents (canonical m) = m.
Proof.
  unfold canonical. rewrite contents_list.
  - rewrite <- (list_to_map_to_list m) at 2. apply list_to_map_proper; [|apply in_order_Permutation].
    rewrite in_order_Permutation. apply NoDup_fst_map_to_list.
  - rewrite in_order_Permutation. apply NoDup_fst_map_to_list.
Qed.

Lemma normal_canonical v : normal v -> v = canonical (contents v).
Proof. intros Hv. apply normal_unique; [done|apply canonical_normal|by rewrite contents_canonical]. Qed.

(** ** [intersectSorted] *)

(** The sub-chunks that two maps have in common, for the chunks of both. *)
Definition common (m1 m2 : gmap Z (gset Z)) : gmap Z (gset Z) :=
  delete CHUNKID_INVALID (intersection_with (fun X Y => Some (X ∩ Y)) m1 m2).

Lemma common_lookup m1 m2 k :
  common m1 m2 !! k =
  if decide (k = CHUNKID_INVALID) then None
  else match m1 !! k, m2 !! k with Some X, Some Y => Some (X ∩ Y) | _, _ => None end.
Proof.
  unfold common. destruct (decide (k = CHUNKID_INVALID)) as [->|Hne]; [apply lookup_delete_eq|].
  rewrite lookup_delete_ne by done. rewrite lookup_intersection_with. by destruct (m1 !! k), (m2 !! k).
Qed.

(** Some chunk of [dest] lies after all the chunks of [a]. *)
Definition overruns (dest a : list ChunkSpec) : Prop :=
  a <> [] /\ Exists (fun d => Forall (fun c => cs_chunkId c < cs_chunkId d) a) dest.

#[export] Instance overruns_dec dest a : Decision (overruns dest a).
Proof. unfold overruns. apply _. Defined.

Lemma cs_advance_spec k a :
  normal a ->
  (Forall (fun c => cs_chunkId c < k) a /\ advance k a = Raise UndefinedBehaviour) \/
  exists pre ai a', a = pre ++ ai :: a' /\ advance k a = Ret (ai :: a') /\ normal (ai :: a') /\
    Forall (fun c => cs_chunkId c < k) pre /\ k <= cs_chunkId ai.
Proof.
  induction a as [|c a IH]; intros Hn; simpl; [left; split; [constructor|done]|].
  destruct (Z.ltb_spec (cs_chunkId c) k) as [Hlt|Hge].
  - destruct (IH (proj2 (proj2 (proj1 (normal_cons c a) Hn)))) as [[Hall ->]|(pre & ai & a' & -> & -> & Hn' & Hpre & Hk)].
    + left. split; [by constructor|done].
    + right. exists (c :: pre), ai, a'. split; [done|]. split; [done|]. split; [done|]. split; [by constructor|done].
  - right. exists [], c, a. split; [done|]. split; [done|]. split; [done|]. split; [constructor|done].
Qed.

(** Chunks before the first one that matters have no influence. *)
Lemma contents_suffix pre a k :
  Forall (fun c => cs_chunkId c < k) pre -> contents (pre ++ a) !! k = contents a !! k.
Proof.
  induction 1 as [|c pre Hc _ IH]; [done|]. simpl. unfold add_spec. by rewrite lookup_insert_ne by lia.
Qed.

Lemma restrict_spec c d :
  normal_spec c -> normal_spec d -> cs_chunkId c = cs_chunkId d ->
  exists e, cs_restrict c d = Ret e /\ cs_chunkId e = cs_chunkId c /\ normal_spec e /\
    list_to_set (C := gset Z) (cs_subChunks e) = list_to_set (cs_subChunks c) ∩ list_to_set (cs_subChunks d).
Proof.
  intros Hc Hd He. unfold cs_restrict. rewrite (proj2 (Z.eqb_eq _ _) He). eexists. split; [done|]. split; [done|].
  destruct (inter_spec _ _ Hc Hd) as [Hi Hin]. split; [done|]. apply set_eq. intros x. simpl.
  by rewrite elem_of_intersection, !elem_of_list_to_set.
Qed.

Lemma overruns_tail d dest pre ai a' :
  normal (d :: dest) -> Forall (fun c => cs_chunkId c < cs_chunkId d) pre -> cs_chunkId d <= cs_chunkId ai ->
  overruns (d :: dest) (pre ++ ai :: a') <-> overruns dest (ai :: a').
Proof.
  intros (_ & Hd & _)%normal_cons Hpre Hai. unfold overruns. rewrite Exists_cons, !Exists_exists.
  rewrite Forall_forall in Hd. split.
  - intros [_ [Hall|(e & He & Hall)]]; (split; [done|]).
    + apply Forall_app in Hall as [_ [Hx _]%Forall_cons]. lia.
    + exists e. split; [done|]. by apply Forall_app in Hall as [_ ?].
  - intros [_ (e & He & Hall)]. split; [by destruct pre|]. right. exists e. split; [done|]. apply Forall_app. split; [|done].
    eapply Forall_impl; [exact Hpre|]. intros c. specialize (Hd e He). simpl. lia.
Qed.

Lemma contents_below d v k : normal (d :: v) -> k < cs_chunkId d -> contents (d :: v) !! k = None.
Proof.
  intros (_ & Hd & _)%normal_cons Hk. destruct (contents (d :: v) !! k) eqn:E; [|done].
  destruct (proj1 (contents_dom (d :: v) k) (mk_is_Some _ _ E)) as (e & Hin & <-). rewrite Forall_forall in Hd.
  apply elem_of_cons in Hin as [->|Hin]; [lia|]. specialize (Hd e Hin). lia.
Qed.

Lemma contents_other d v k : k <> cs_chunkId d -> contents (d :: v) !! k = contents v !! k.
Proof. intros Hk. rewrite contents_step. unfold add_spec. by rewrite lookup_insert_ne. Qed.

(** One step of the loop in terms of the contents. *)
Lemma common_step d dest pre ai a' k :
  normal (d :: dest) -> normal (ai :: a') -> Forall (fun c => cs_chunkId c < cs_chunkId d) pre ->
  cs_chunkId d <= cs_chunkId ai ->
  common (contents (d :: dest)) (contents (pre ++ ai :: a')) !! k =
  if decide (k = cs_chunkId d) then
    if decide (k = CHUNKID_INVALID \/ cs_chunkId ai <> cs_chunkId d) then None
    else Some (list_to_set (cs_subChunks d) ∩ list_to_set (cs_subChunks ai))
  else common (contents dest) (contents (ai :: a')) !! k.
Proof.
  intros Hd Ha Hpre Hai. rewrite !common_lookup. destruct (decide (k = cs_chunkId d)) as [->|Hk].
  - rewrite contents_suffix by done. rewrite (contents_cons d dest) by done. rewrite lookup_insert_eq.
    destruct (decide (cs_chunkId ai = cs_chunkId d)) as [He|Hne].
    + rewrite <- He, contents_cons, lookup_insert_eq by done. by repeat case_decide; naive_solver.
    + rewrite contents_below by (done || lia). repeat case_decide; naive_solver.
  - rewrite contents_other by done. destruct (decide (k = CHUNKID_INVALID)); [done|].
    destruct (contents dest !! k) as [X|] eqn:E; [|done].
    assert (Hlt : cs_chunkId d < k).
    { destruct (proj1 (contents_dom dest k) (mk_is_Some _ _ E)) as (e & Hin & <-).
      apply normal_cons in Hd as (_ & Hd & _). rewrite Forall_forall in Hd. by apply Hd. }
    rewrite contents_suffix; [done|]. eapply Forall_impl; [exact Hpre|]. intros c. simpl. lia.
Qed.

(** What the loop has to compute. *)
Definition loop_result (dest a res : list ChunkSpec) : Prop :=
  normal res /\ (forall e, e ∈ res -> exists d, d ∈ dest /\ cs_chunkId e = cs_chunkId d) /\
  forall k, contents res !! k = common (contents dest) (contents a) !! k.

Lemma loop_result_nil dest a : dest = [] \/ a = [] -> loop_result dest a [].
Proof.
  intros H. split; [split; constructor|]. split; [set_solver|]. intros k. rewrite common_lookup. simpl. rewrite lookup_empty.
  case_decide; [done|]. destruct H as [->| ->]; simpl; rewrite ?lookup_empty; [done|]. by destruct (contents dest !! k).
Qed.

Lemma loop_result_skip d dest pre ai a' res :
  normal (d :: dest) -> normal (ai :: a') -> Forall (fun c => cs_chunkId c < cs_chunkId d) pre ->
  cs_chunkId d <= cs_chunkId ai -> cs_chunkId ai <> cs_chunkId d \/ cs_chunkId d = CHUNKID_INVALID ->
  loop_result dest (ai :: a') res -> loop_result (d :: dest) (pre ++ ai :: a') res.
Proof.
  intros Hd Ha Hpre Hai Hor (Hn & Hin & Hc). split; [done|]. split.
  - intros e He. destruct (Hin e He) as (x & Hx & ?). exists x. split; [by right|done].
  - intros k. rewrite common_step by done. destruct (decide (k = cs_chunkId d)) as [->|]; [|done].
    rewrite decide_True by tauto. destruct (contents res !! cs_chunkId d) eqn:E; [|done]. exfalso.
    destruct (proj1 (contents_dom res _) (mk_is_Some _ _ E)) as (e & He & Hid). destruct (Hin e He) as (x & Hx & Hx').
    apply normal_cons in Hd as (_ & Hd & _). rewrite Forall_forall in Hd. specialize (Hd x Hx). lia.
Qed.

Lemma loop_result_take d dest pre ai a' e res :
  normal (d :: dest) -> normal (ai :: a') -> Forall (fun c => cs_chunkId c < cs_chunkId d) pre ->
  cs_chunkId ai = cs_chunkId d -> cs_chunkId d <> CHUNKID_INVALID -> cs_restrict d ai = Ret e ->
  loop_result dest (ai :: a') res -> loop_result (d :: dest) (pre ++ ai :: a') (e :: res).
Proof.
  intros Hd Ha Hpre Hai Hinv Hres (Hn & Hin & Hc).
  pose proof Hd as (Hnd & Hdd & _)%normal_cons. pose proof Ha as (Hna & _ & _)%normal_cons.
  destruct (restrict_spec d ai Hnd Hna (eq_sym Hai)) as (e' & He' & Hid & Hne & Hset).
  rewrite Hres in He'. injection He' as <-.
  assert (Hnorm : normal (e :: res)).
  { apply normal_cons. split; [done|]. split; [|done]. apply Forall_forall. intros x Hx.
    destruct (Hin x Hx) as (y & Hy & ->). rewrite Forall_forall in Hdd. rewrite Hid. by apply Hdd. }
  split; [done|]. split.
  - intros x [->|Hx]%elem_of_cons; [exists d; split; [by left|done]|]. destruct (Hin x Hx) as (y & Hy & ?). exists y. split; [by right|done].
  - intros k. rewrite common_step by (done || lia). rewrite contents_cons by done. rewrite Hid.
    destruct (decide (k = cs_chunkId d)) as [->|Hk].
    + rewrite lookup_insert_eq, decide_False by naive_solver. by rewrite Hset.
    + rewrite lookup_insert_ne by done. apply Hc.
Qed.

Lemma intersect_loop_spec dest a tmp :
  normal dest -> normal a ->
  if decide (overruns dest a) then intersect_loop dest a tmp = Raise UndefinedBehaviour
  else exists res, intersect_loop dest a tmp = Ret (tmp ++ res) /\ loop_result dest a res.
Proof.
  revert a tmp. induction dest as [|d dest IH]; intros a tmp Hd Ha.
  { rewrite decide_False by (intros [_ H]; by apply Exists_nil in H). exists []. simpl. rewrite app_nil_r.
    split; [done|]. apply loop_result_nil. by left. }
  destruct (decide (a = [])) as [->|Hne].
  { rewrite decide_False by (by intros [? _]). exists []. simpl. rewrite app_nil_r.
    split; [done|]. apply loop_result_nil. by right. }
  assert (Hloop : intersect_loop (d :: dest) a tmp =
    (let? a' := advance (cs_chunkId d) a in
     match a' with
     | [] => Raise UndefinedBehaviour
     | ai :: _ =>
         if cs_chunkId ai =? cs_chunkId d then
           let? cs := cs_restrict d ai in
           intersect_loop dest a' (if negb (cs_chunkId d =? CHUNKID_INVALID) then tmp ++ [cs] else tmp)
         else intersect_loop dest a' tmp
     end)) by (by destruct a).
  rewrite Hloop. clear Hloop.
  destruct (cs_advance_spec (cs_chunkId d) a Ha) as [[Hall ->]|(pre & ai & a' & -> & -> & Hn & Hpre & Hai)].
  { rewrite decide_True; [done|]. split; [done|]. by constructor. }
  rewrite (decide_ext _ _ _ _ (overruns_tail d dest pre ai a' Hd Hpre Hai)). simpl.
  pose proof Hd as (Hnd & _ & Hdest)%normal_cons. pose proof Hn as (Hnai & _ & _)%normal_cons.
  assert (Hstep : forall tmp' post, (forall res, loop_result dest (ai :: a') res ->
      loop_result (d :: dest) (pre ++ ai :: a') (post ++ res)) -> tmp' = tmp ++ post ->
    if decide (overruns dest (ai :: a')) then intersect_loop dest (ai :: a') tmp' = Raise UndefinedBehaviour
    else exists res, intersect_loop dest (ai :: a') tmp' = Ret (tmp ++ res) /\ loop_result (d :: dest) (pre ++ ai :: a') res).
  { intros tmp' post Hpost ->. specialize (IH (ai :: a') (tmp ++ post) Hdest Hn). case_decide; [done|].
    destruct IH as (res & -> & Hr). exists (post ++ res). rewrite app_assoc. auto. }
  destruct (Z.eqb_spec (cs_chunkId ai) (cs_chunkId d)) as [He|Hneq].
  - destruct (restrict_spec d ai Hnd Hnai (eq_sym He)) as (e & Hres & _). rewrite Hres. simpl.
    destruct (Z.eqb_spec (cs_chunkId d) CHUNKID_INVALID) as [Hi|Hi]; simpl.
    + apply (Hstep tmp []); [|by rewrite app_nil_r]. intros res. apply loop_result_skip; auto.
    + apply (Hstep (tmp ++ [e]) [e]); [|done]. intros res. by apply loop_result_take.
  - apply (Hstep tmp []); [|by rewrite app_nil_r]. intros res. apply loop_result_skip; auto.
Qed.

Lemma intersectSorted_spec dest a :
  normal dest -> normal a ->
  intersectSorted dest a =
  if decide (overruns dest a) then Raise UndefinedBehaviour else Ret (canonical (common (contents dest) (contents a))).
Proof.
  intros Hd Ha. pose proof (intersect_loop_spec dest a [] Hd Ha) as H. unfold intersectSorted. case_decide; [done|].
  destruct H as (res & -> & Hn & _ & Hc). simpl. f_equal. rewrite (normal_canonical res Hn). f_equal. by apply map_eq.
Qed.

(** Some chunk of [m1] lies after all the chunks of [m2], which has some. *)
Definition map_overruns (m1 m2 : gmap Z (gset Z)) : Prop :=
  m2 <> ∅ /\ exists k, is_Some (m1 !! k) /\ forall j, is_Some (m2 !! j) -> j < k.

Lemma overruns_contents dest a : overruns dest a <-> map_overruns (contents dest) (contents a).
Proof.
  unfold overruns, map_overruns. rewrite Exists_exists.
  assert (Hnil : a <> [] <-> contents a <> ∅).
  { destruct a as [|c a]; [done|]. split; [|done]. intros _. rewrite contents_step. apply insert_non_empty. }
  rewrite Hnil. split; intros [Hne H]; (split; [done|]).
  - destruct H as (d & Hd & Hall). exists (cs_chunkId d). rewrite Forall_forall in Hall. split; [apply contents_dom; eauto|].
    intros j (c & Hc & <-)%contents_dom. by apply Hall.
  - destruct H as (k & (d & Hd & <-)%contents_dom & Hall). exists d. split; [done|]. apply Forall_forall. intros c Hc.
    apply Hall, contents_dom. eauto.
Qed.

(** ** Theorems *)

(** C36. [normalize] computes the canonical vector of the sub-chunks that its
    argument lists: one entry per chunk, in order, with the union of the
    sub-chunks in order and without repetition.  It never throws. *)
Theorem normalize_exact v : normalize v = Ret (canonical (contents v)).
Proof. destruct (normalize_normal v) as (out & -> & Hn & <-). f_equal. by apply normal_canonical. Qed.

(** [intersect] computes the canonical vector of the sub-chunks that both
    arguments list, except that it runs past the end of the second vector
    exactly when the first one has a chunk after all of its chunks. *)
Theorem intersect_exact v w :
  (map_overruns (contents v) (contents w) /\ intersect v w = Raise UndefinedBehaviour) \/
  (~ map_overruns (contents v) (contents w) /\ intersect v w = Ret (canonical (common (contents v) (contents w)))).
Proof.
  unfold intersect. destruct (normalize_normal v) as (v' & -> & Hv & Hcv), (normalize_normal w) as (w' & -> & Hw & Hcw). simpl.
  rewrite intersectSorted_spec by done. rewrite <- Hcv, <- Hcw, <- overruns_contents. case_decide; auto.
Qed.
