(* ===== verification/StdString.v ===== *)
(** * Strings and numbers of the standard library

    [std::to_string] and [operator<<] on integers, [std::stoi], the character
    classes of the C locale, and lemmas on appending. *)

From Stdlib Require Import Ascii String.
From S2P Require Import Prelude.

Implicit Types (s t : string) (a : ascii) (z n : Z).

Local Open Scope string_scope.
Local Open Scope Z_scope.

(** ** Characters *)

Definition code a : Z := Z.of_N (N_of_ascii a).

(** [isdigit], [isalpha], [isalnum], [isspace] *)
Definition isdigit a : bool := (48 <=? code a) && (code a <=? 57).
Definition isalpha a : bool :=
  ((65 <=? code a) && (code a <=? 90)) || ((97 <=? code a) && (code a <=? 122)).
Definition isalnum a : bool := isdigit a || isalpha a.
Definition isspace a : bool := (code a =? 32) || ((9 <=? code a) && (code a <=? 13)).

Definition digit_value a : Z := code a - 48.
Definition digit_char z : ascii := ascii_of_N (Z.to_N (48 + z)).

Lemma code_digit_char z : 0 <= z <= 9 -> code (digit_char z) = 48 + z.
Proof. intros Hz. unfold code, digit_char. rewrite N_ascii_embedding; lia. Qed.

Lemma isdigit_digit_char z : 0 <= z <= 9 -> isdigit (digit_char z) = true.
Proof. intros Hz. unfold isdigit. rewrite code_digit_char by done. apply andb_true_iff. split; apply Z.leb_le; lia. Qed.

Lemma digit_value_char z : 0 <= z <= 9 -> digit_value (digit_char z) = z.
Proof. intros Hz. unfold digit_value. rewrite code_digit_char by done. lia. Qed.

(** ** Printing *)

(** The decimal digits of a number that is not negative. *)
Fixpoint show_digits (fuel : nat) n : string :=
  match fuel with
  | O => ""
  | S fuel' => if n <? 10 then String (digit_char n) ""
               else show_digits fuel' (n / 10) ++ String (digit_char (n mod 10)) ""
  end.
Definition show_nat n : string := show_digits (S (Z.to_nat (Z.log2 n))) n.

(** [std::to_string] *)
Definition to_string z : string := if z <? 0 then String "-" (show_nat (- z)) else show_nat z.

(** ** Reading *)

(** The value of the longest prefix of digits, and the rest. *)
Fixpoint read_digits (acc : Z) s : Z * string :=
  match s with
  | "" => (acc, "")
  | String a s' => if isdigit a then read_digits (10 * acc + digit_value a) s' else (acc, s)
  end.

Fixpoint skip_space s : string :=
  match s with
  | String a s' => if isspace a then skip_space s' else s
  | "" => ""
  end.

Definition starts_digit s : bool := match s with String a _ => isdigit a | "" => false end.

Definition INT_MIN : Z := -2147483648.
Definition INT_MAX : Z := 2147483647.

(** An optional sign. *)
Definition read_sign s : bool * string :=
  match s with
  | String a s' => if Ascii.eqb a "-" then (true, s') else if Ascii.eqb a "+" then (false, s') else (false, s)
  | "" => (false, "")
  end.

(** [std::stoi] with base 10: leading space, a sign, digits; what follows the
    digits is ignored. *)
Definition stoi s : outcome Z :=
  let '(neg, body) := read_sign (skip_space s) in
  if starts_digit body then
    let v := (read_digits 0 body).1 in
    let v := if neg then - v else v in
    if (INT_MIN <=? v) && (v <=? INT_MAX) then Ret v else Raise OutOfRange
  else Raise InvalidArgument.

(** ** Round trips *)

Lemma append_cons a s t : String a s ++ t = String a (s ++ t).
Proof. done. Qed.

Lemma append_assoc s t u : (s ++ t) ++ u = s ++ t ++ u.
Proof. induction s as [|a s IH]; [done|]. by rewrite !append_cons, IH. Qed.

Lemma append_nil_r s : s ++ "" = s.
Proof. induction s as [|a s IH]; [done|]. by rewrite append_cons, IH. Qed.

Lemma append_inv_head s t u : s ++ t = s ++ u -> t = u.
Proof. induction s as [|a s IH]; [done|]. rewrite !append_cons. intros [= H]. by apply IH. Qed.

Fixpoint all_chars (P : ascii -> bool) s : bool :=
  match s with "" => true | String a s' => P a && all_chars P s' end.

Lemma all_chars_app P s t : all_chars P (s ++ t) = all_chars P s && all_chars P t.
Proof. induction s as [|a s IH]; [done|]. rewrite append_cons. simpl. by rewrite IH, andb_assoc. Qed.

Lemma read_digits_app acc s t : all_chars isdigit s = true -> read_digits acc (s ++ t) = read_digits (read_digits acc s).1 t.
Proof.
  revert acc. induction s as [|a s IH]; intros acc; [done|]. rewrite append_cons. simpl.
  intros [Ha Hs]%andb_true_iff. rewrite Ha. by apply IH.
Qed.

Lemma show_digits_isdigit fuel n : 0 <= n -> all_chars isdigit (show_digits fuel n) = true.
Proof.
  revert n. induction fuel as [|fuel IH]; intros n Hn; simpl; [done|]. destruct (Z.ltb_spec n 10).
  - simpl. by rewrite isdigit_digit_char by lia.
  - rewrite all_chars_app, IH by (apply Z.div_pos; lia). simpl.
    rewrite isdigit_digit_char; [done|]. pose proof (Z.mod_pos_bound n 10). lia.
Qed.

Lemma show_digits_read fuel n :
  0 <= n -> n < 2 ^ Z.of_nat fuel -> (read_digits 0 (show_digits fuel n)).1 = n.
Proof.
  revert n. induction fuel as [|fuel IH]; intros n Hn Hlt; simpl; [simpl in Hlt; lia|].
  destruct (Z.ltb_spec n 10) as [H10|H10].
  - simpl. rewrite isdigit_digit_char, digit_value_char by lia. simpl. lia.
  - rewrite read_digits_app by (apply show_digits_isdigit, Z.div_pos; lia). rewrite IH.
    + simpl. pose proof (Z.mod_pos_bound n 10 ltac:(lia)). rewrite isdigit_digit_char, digit_value_char by lia. simpl.
      pose proof (Z.div_mod n 10 ltac:(lia)). lia.
    + apply Z.div_pos; lia.
    + rewrite Nat2Z.inj_succ, Z.pow_succ_r in Hlt by lia.
      apply Z.div_lt_upper_bound; [lia|]. pose proof (Z.pow_pos_nonneg 2 (Z.of_nat fuel)). lia.
Qed.

Lemma show_nat_read n : 0 <= n -> (read_digits 0 (show_nat n)).1 = n.
Proof.
  intros Hn. apply show_digits_read; [done|]. destruct (decide (n = 0)) as [->|Hne]; [done|].
  pose proof (Z.log2_spec n ltac:(lia)) as [_ H]. rewrite Nat2Z.inj_succ, Z2Nat.id by apply Z.log2_nonneg. done.
Qed.

Lemma show_nat_digits n : 0 <= n -> all_chars isdigit (show_nat n) = true.
Proof. apply show_digits_isdigit. Qed.

Lemma show_nat_start n : 0 <= n -> starts_digit (show_nat n) = true.
Proof.
  intros Hn. pose proof (show_nat_digits n Hn) as H. unfold show_nat in *.
  assert (Hne : show_digits (S (Z.to_nat (Z.log2 n))) n <> "").
  { simpl. destruct (n <? 10); [done|]. by destruct (show_digits _ (n `div` 10)). }
  destruct (show_digits _ n) as [|a s]; [done|]. simpl in *. by apply andb_true_iff in H as [? _].
Qed.

Lemma digit_not_space a : isdigit a = true -> isspace a = false /\ Ascii.eqb a "-" = false /\ Ascii.eqb a "+" = false.
Proof.
  unfold isdigit, isspace. intros [H1%Z.leb_le H2%Z.leb_le]%andb_true_iff. split; [|split].
  - apply orb_false_iff. split; [apply Z.eqb_neq; lia|]. apply andb_false_iff. right. apply Z.leb_gt. lia.
  - apply Ascii.eqb_neq. intros ->. vm_compute in H1. done.
  - apply Ascii.eqb_neq. intros ->. vm_compute in H1. done.
Qed.

Lemma all_chars_impl (P Q : ascii -> bool) s :
  (forall a, P a = true -> Q a = true) -> all_chars P s = true -> all_chars Q s = true.
Proof.
  intros H. induction s as [|a s IH]; simpl; [done|]. intros [Ha Hs]%andb_true_iff. by rewrite (H a Ha), IH.
Qed.

(** The characters of a printed number. *)
Lemma to_string_chars z : all_chars (fun a => isdigit a || Ascii.eqb a "-") (to_string z) = true.
Proof.
  unfold to_string. destruct (Z.ltb_spec z 0); simpl; (eapply all_chars_impl; [|apply show_nat_digits; lia]);
    intros a Ha; simpl; by rewrite Ha.
Qed.

Lemma to_string_neg z : z < 0 -> to_string z = String "-" (show_nat (- z)).
Proof. intros Hz. unfold to_string. by rewrite (proj2 (Z.ltb_lt _ _) Hz). Qed.

Lemma to_string_pos z : 0 <= z -> to_string z = show_nat z.
Proof. intros Hz. unfold to_string. by rewrite (proj2 (Z.ltb_ge _ _) Hz). Qed.

(** Sign and digits of a printed number. *)
Lemma read_to_string z :
  let '(neg, body) := read_sign (skip_space (to_string z)) in
  starts_digit body = true /\ (if neg then - (read_digits 0 body).1 else (read_digits 0 body).1) = z.
Proof.
  destruct (Z.lt_ge_cases z 0) as [Hneg|Hpos].
  - rewrite to_string_neg by done. simpl. rewrite show_nat_start, show_nat_read by lia. split; [done|lia].
  - rewrite to_string_pos by done. pose proof (show_nat_start z Hpos) as Hs. pose proof (show_nat_read z Hpos) as Hr.
    destruct (show_nat z) as [|a s]; [done|]. simpl in Hs.
    destruct (digit_not_space a Hs) as (H1 & H2 & H3). unfold skip_space. rewrite H1. unfold read_sign. rewrite H2, H3. done.
Qed.

Lemma to_string_inj z z' : to_string z = to_string z' -> z = z'.
Proof.
  intros He. pose proof (read_to_string z) as H. pose proof (read_to_string z') as H'. rewrite He in H.
  destruct (read_sign _) as [neg body]. destruct H as [_ <-], H' as [_ <-]. done.
Qed.

Lemma stoi_to_string z : INT_MIN <= z <= INT_MAX -> stoi (to_string z) = Ret z.
Proof.
  intros Hz. unfold stoi. pose proof (read_to_string z) as H. destruct (read_sign _) as [neg body].
  destruct H as [-> H]. cbv zeta. rewrite H.
  by rewrite (proj2 (Z.leb_le _ _) (proj1 Hz)), (proj2 (Z.leb_le _ _) (proj2 Hz)).
Qed.

Lemma to_string_nonempty z : to_string z <> "".
Proof.
  destruct (Z.lt_ge_cases z 0); [by rewrite to_string_neg|]. rewrite to_string_pos by done.
  intros He. pose proof (show_nat_start z) as Hs. rewrite He in Hs. by specialize (Hs ltac:(done)).
Qed.

(** ** Order *)

(** [operator<] of strings *)
Definition str_lt (x y : string) : bool := match String.compare x y with Lt => true | _ => false end.

Lemma str_lt_trans x y (z : string) : str_lt x y = true -> str_lt y z = true -> str_lt x z = true.
Proof.
  revert y z. induction x as [|a x IH]; intros [|b y] [|c z]; unfold str_lt; simpl; try done. unfold Ascii.compare.
  destruct (N.compare_spec (N_of_ascii a) (N_of_ascii b)), (N.compare_spec (N_of_ascii b) (N_of_ascii c)),
    (N.compare_spec (N_of_ascii a) (N_of_ascii c)); try done; try lia. apply IH.
Qed.

Lemma str_lt_irrefl x : str_lt x x = false.
Proof. unfold str_lt. pose proof (String.compare_antisym x x). by destruct (String.compare x x). Qed.

Lemma str_lt_total x y : str_lt x y = false -> str_lt y x = false -> x = y.
Proof.
  unfold str_lt. rewrite (String.compare_antisym y x). destruct (String.compare x y) eqn:E; simpl; try done.
  intros _ _. by apply String.compare_eq_iff.
Qed.
