(* ===== verification/ChunkSelect.v ===== *)
(** * Selecting the chunks of a query

    How the czar finds the chunks a user query needs and turns each into queries
    for a worker: [qproc/SecondaryIndex.cc], [qproc/IndexMap.cc],
    [css/EmptyChunks.cc], the chunk handling of [qproc/QuerySession.cc] and
    [UserQuerySelect::setupChunking] of [ccontrol/UserQuerySelect.cc].

    Parameters: the rows that the index database returns for a query, the
    geometry library [lsst::sphgeom] with the adapters to it ([Chunker]), the
    files with the empty chunks, the text that [QueryMapping::apply] makes of a
    template.  Not modelled: the analysis of the statement, logging. *)

From Stdlib Require Import Ascii String.
From S2P Require Import Prelude.
From S2P Require Import StdString.
From S2P Require Import ChunkSpec.

Local Open Scope string_scope.
Local Open Scope Z_scope.

(** ** [class Constraint] of [query/Constraint.h] *)

Record Constraint := mkConstraint { ct_name : string; ct_params : list string }.

(** ** [global/stringUtil.h] *)

(** [bool isNameSafe(c)] *)
Definition isNameSafe (c : ascii) : bool := isalnum c || Ascii.eqb c "_".

(** [std::string sanitizeName(std::string const& name)] *)
Fixpoint sanitizeName (name : string) : string :=
  match name with
  | "" => ""
  | String c name' => if isNameSafe c then String c (sanitizeName name') else sanitizeName name'
  end.

(** ** The secondary index *)

Definition CHUNK_COLUMN : string := "chunkId".
Definition SUB_CHUNK_COLUMN : string := "subChunkId".
Definition SEC_INDEX_DB : string := "qservMeta".

(** [enum QueryType] *)
Inductive QueryType := IN | NOT_IN | BETWEEN | NOT_BETWEEN.

(** [_buildIndexTableName(db, table)] *)
Definition buildIndexTableName (db table : string) : string :=
  SEC_INDEX_DB ++ "." ++ sanitizeName db ++ "__" ++ sanitizeName table.

(** The loop that joins the values with commas. *)
Fixpoint join_values (vals : list string) : string :=
  match vals with
  | [] => ""
  | [v] => v
  | v :: vals' => v ++ ", " ++ join_values vals'
  end.

(** [_buildLookupQuery(params, query_type)]; fewer than three parameters are
    read past the end of the vector. *)
Definition buildLookupQuery (params : list string) (query_type : QueryType) : outcome string :=
  match params with
  | db :: table :: key_column :: rest =>
      let sql := "SELECT " ++ CHUNK_COLUMN ++ ", " ++ SUB_CHUNK_COLUMN ++ " FROM " ++ buildIndexTableName db table
                   ++ " WHERE " ++ key_column in
      match query_type with
      | IN => Ret (sql ++ " IN" ++ "(" ++ join_values rest ++ ")")
      | NOT_IN => Ret (sql ++ " NOT IN" ++ "(" ++ join_values rest ++ ")")
      | BETWEEN =>
          match rest with [par3; par4] => Ret (sql ++ " BETWEEN " ++ par3 ++ " AND " ++ par4) | _ => Raise BugException end
      | NOT_BETWEEN =>
          match rest with [par3; par4] => Ret (sql ++ " NOT BETWEEN " ++ par3 ++ " AND " ++ par4) | _ => Raise BugException end
      end
  | _ => Raise UndefinedBehaviour
  end.

(** The kind of index query of a constraint. *)
Definition index_type (name : string) : option QueryType :=
  if String.eqb name "sIndex" then Some IN
  else if String.eqb name "sIndexNotIn" then Some NOT_IN
  else if String.eqb name "sIndexBetween" then Some BETWEEN
  else if String.eqb name "sIndexNotBetween" then Some NOT_BETWEEN
  else None.

(** The two numbers of a row. *)
Definition read_row (row : list string) : outcome (Z * Z) :=
  match row with
  | c :: s :: _ => let? chunkId := stoi c in let? subChunkId := stoi s in Ret (chunkId, subChunkId)
  | _ => Raise UndefinedBehaviour
  end.

(** [tmp[chunkId].push_back(subChunkId)] *)
Definition add_row (tmp : gmap Z (list Z)) (x : Z * Z) : gmap Z (list Z) :=
  <[x.1 := app (default [] (tmp !! x.1)) [x.2]]> tmp.

(** [SecondaryIndex::Backend]: [lookup] gives [None] for a
    [SecondaryIndex::NoIndexConstraint]. *)
Class IndexBackend (B : Type) := { ib_lookup : B -> list Constraint -> outcome (option (list ChunkSpec)) }.

(** [class MySqlBackend] on a connection. *)
Record MySqlBackend := mkMySqlBackend { mb_getQueryIter : string -> outcome (list (list string)) }.

(** [void _sqlLookup(output, params, query_type)] *)
Definition sqlLookup (b : MySqlBackend) (output : list ChunkSpec) (params : list string) (t : QueryType) :
    outcome (list ChunkSpec) :=
  let? sql := buildLookupQuery params t in
  let? rows := mb_getQueryIter b sql in
  let? tmp := foldM (fun tmp row => let? x := read_row row in Ret (add_row tmp x)) ∅ rows in
  Ret (app output (map (fun x => mkChunkSpec x.1 x.2) (in_order tmp))).

(** The loop of [lookup] over the constraints. *)
Definition index_loop (b : MySqlBackend) (acc : list ChunkSpec * bool) (c : Constraint) :
    outcome (list ChunkSpec * bool) :=
  match index_type (ct_name c) with
  | Some t => let? output := sqlLookup b acc.1 (ct_params c) t in Ret (output, true)
  | None => Ret acc
  end.

#[export] Instance MySqlBackend_index : IndexBackend MySqlBackend := {
  ib_lookup b cv :=
    let? (output, hasIndex) := foldM (index_loop b) ([], false) cv in
    if hasIndex : bool then let? out := normalize output in Ret (Some out) else Ret None;
}.

(** [class FakeBackend]; it never throws [NoIndexConstraint]. *)
Record FakeBackend := mkFakeBackend { }.

#[export] Instance FakeBackend_index : IndexBackend FakeBackend := {
  ib_lookup _ cv :=
    Ret (Some (if existsb (fun c => String.eqb (ct_name c) "sIndex" || String.eqb (ct_name c) "sIndexBetween") cv
               then map (fun i => mkChunkSpec i [1; 2; 3]) [100; 101; 102] else []));
}.

(** ** [class IndexMap] *)

(** The shapes that [FuncMap] knows. *)
Inductive Shape := Box | Circle | Ellipse | ConvexPolygon.

Definition shape_of (name : string) : option Shape :=
  if String.eqb name "box" || String.eqb name "qserv_areaspec_box" then Some Box
  else if String.eqb name "circle" || String.eqb name "qserv_areaspec_circle" then Some Circle
  else if String.eqb name "ellipse" || String.eqb name "qserv_areaspec_ellipse" then Some Ellipse
  else if String.eqb name "poly" || String.eqb name "qserv_areaspec_poly" then Some ConvexPolygon
  else None.

(** What is used of [lsst::sphgeom]: making a region of the parameters of a
    constraint, the sub-chunks that meet a region, all chunks. *)
Record Chunker (Region : Type) := mkChunker {
  ck_make : Shape -> list string -> outcome Region;
  ck_getSubChunksIntersecting : Region -> outcome (list (Z * list Z));
  ck_getAllChunks : list Z;
  ck_getAllSubChunks : Z -> list Z;
}.
Arguments mkChunker {Region}.
Arguments ck_make {Region}.
Arguments ck_getSubChunksIntersecting {Region}.
Arguments ck_getAllChunks {Region}.
Arguments ck_getAllSubChunks {Region}.

Section index_map.
Context {Region : Type} (ck : Chunker Region) {B : Type} `{IndexBackend B} (si : B).

(** [std::shared_ptr<Region> getRegion(Constraint const& c)] *)
Definition getRegion (c : Constraint) : outcome (option Region) :=
  match shape_of (ct_name c) with
  | Some s => let? r := ck_make ck s (ct_params c) in Ret (Some r)
  | None => Ret None
  end.

(** [SubChunksVector getIntersect(RegionPtrVector const& rv)]; [None] is [NoRegion]. *)
Definition getIntersect (rv : list (option Region)) : outcome (option (list (Z * list Z))) :=
  let? (scv, hasRegion) :=
    foldM (fun acc o =>
      match o with
      | Some r => let? area := ck_getSubChunksIntersecting ck r in Ret (app acc.1 area, true)
      | None => Ret acc
      end) ([], false) rv in
  Ret (if hasRegion : bool then Some scv else None).

(** The handlers around [getIntersect]: both make a [QueryProcessingError]. *)
Definition as_processing_error {A} (o : outcome A) : outcome A :=
  match o with
  | Raise InvalidArgument => Raise RuntimeError
  | _ => o
  end.

(** [ChunkSpec convertSgSubChunks(SubChunks const& sc)] *)
Definition convertSgSubChunks (sc : Z * list Z) : ChunkSpec := mkChunkSpec sc.1 sc.2.

(** [ChunkSpecVector getAllChunks()] *)
Definition getAllChunks : list ChunkSpec := map (fun i => mkChunkSpec i (ck_getAllSubChunks ck i)) (ck_getAllChunks ck).

Definition mapM_outcome {X Y} (f : X -> outcome Y) (l : list X) : outcome (list Y) :=
  foldM (fun acc x => let? y := f x in Ret (app acc [y])) [] l.

(** [ChunkSpecVector getChunks(query::ConstraintVector const& cv)] *)
Definition getChunks (cv : list Constraint) : outcome (list ChunkSpec) :=
  let? index := ib_lookup si cv in
  let? rv := mapM_outcome getRegion cv in
  let? scv := as_processing_error (getIntersect rv) in
  match index, scv with
  | Some indexSpecs, Some scv =>
      let? indexSpecs := normalize indexSpecs in
      let? regionSpecs := normalize (map convertSgSubChunks scv) in
      intersectSorted indexSpecs regionSpecs
  | Some indexSpecs, None => Ret indexSpecs
  | None, Some scv => Ret (map convertSgSubChunks scv)
  | None, None => Ret getAllChunks
  end.
End index_map.

(** ** [class EmptyChunks] *)

Record EmptyChunks := mkEmptyChunks {
  ec_path : string;
  ec_fallbackFile : string;
  ec_sets : gmap string (gset Z);
}.

Definition ec_set_sets (m : gmap string (gset Z)) (ec : EmptyChunks) : EmptyChunks :=
  mkEmptyChunks (ec_path ec) (ec_fallbackFile ec) m.

(** [makeFilename(db)] *)
Definition makeFilename (db : string) : string := "empty_" ++ sanitizeName db ++ ".txt".

Section empty_chunks.
(** The numbers in a file that can be opened. *)
Context (files : string -> option (list Z)).

(** [populate(path, fallbackFile, s, db)] *)
Definition populate (path fallbackFile db : string) : outcome (gset Z) :=
  match files (path ++ "/" ++ makeFilename db) with
  | Some l => Ret (list_to_set l)
  | None => match files fallbackFile with Some l => Ret (list_to_set l) | None => Raise RuntimeError end
  end.

(** [getEmpty(db)]: the new set is in the cache before it is populated. *)
Definition getEmpty (db : string) (ec : EmptyChunks) : EmptyChunks * outcome (gset Z) :=
  match ec_sets ec !! db with
  | Some s => (ec, Ret s)
  | None =>
      match populate (ec_path ec) (ec_fallbackFile ec) db with
      | Ret s => (ec_set_sets (<[db := s]> (ec_sets ec)) ec, Ret s)
      | Raise e => (ec_set_sets (<[db := ∅]> (ec_sets ec)) ec, Raise e)
      end
  end.

(** [isEmpty(db, chunk)] *)
Definition isEmpty (db : string) (chunk : Z) (ec : EmptyChunks) : EmptyChunks * outcome bool :=
  let '(ec', o) := getEmpty db ec in (ec', let? s := o in Ret (bool_decide (chunk ∈ s))).
End empty_chunks.

(** [clearCache(db)] *)
Definition clearCache (db : string) (ec : EmptyChunks) : EmptyChunks :=
  if String.eqb db "" then ec_set_sets ∅ ec else ec_set_sets (delete db (ec_sets ec)) ec.

(** ** [class QuerySession]: the chunks of a query *)

(** What is used of [QueryMapping]. *)
Record QueryMapping := mkQueryMapping { qm_hasChunks : bool; qm_subChunkTables : list string }.

Record QuerySession := mkQuerySession {
  qs_dominantDb : string;
  qs_queryMapping : option QueryMapping;
  qs_constraints : option (list Constraint);
  qs_hasStmtParallel : bool;
  qs_chunkCount : Z;
  qs_chunks : list ChunkSpec;
  qs_scanInteractive : bool;
  qs_isDummy : bool;
}.

Implicit Types (q : QuerySession).

Definition DUMMY_CHUNK : Z := 1234567890.
Definition interactiveChunkLimit : Z := 10.

(** [QueryContext::hasChunks()] and [hasSubChunks()] *)
Definition hasChunks q : bool := match qs_queryMapping q with Some m => qm_hasChunks m | None => false end.
Definition hasSubChunks q : bool :=
  match qs_queryMapping q with Some m => negb (bool_decide (qm_subChunkTables m = [])) | None => false end.

Definition qs_set_chunks (n : Z) (l : list ChunkSpec) (scan dummy : bool) q : QuerySession :=
  mkQuerySession (qs_dominantDb q) (qs_queryMapping q) (qs_constraints q) (qs_hasStmtParallel q) n l scan dummy.

(** [void addChunk(ChunkSpec const& cs)] *)
Definition addChunk (cs : ChunkSpec) q : QuerySession :=
  qs_set_chunks (qs_chunkCount q + 1) (app (qs_chunks q) [cs]) (qs_scanInteractive q) (qs_isDummy q) q.

(** [void setScanInteractive()] *)
Definition setScanInteractive q : QuerySession :=
  if interactiveChunkLimit <? qs_chunkCount q then qs_set_chunks (qs_chunkCount q) (qs_chunks q) false (qs_isDummy q) q
  else q.

(** [void setDummy()] *)
Definition setDummy q : QuerySession :=
  qs_set_chunks 1 [mkChunkSpec DUMMY_CHUNK [1]] (qs_scanInteractive q) true q.

(** [void finalize()], what it does to the chunks. *)
Definition finalize q : QuerySession := if bool_decide (qs_chunks q = []) then setDummy q else q.

(** [class ChunkQuerySpec] *)
Inductive ChunkQuerySpec := mkChunkQuerySpec {
  cq_db : string;
  cq_chunkId : Z;
  cq_scanInteractive : bool;
  cq_subChunkTables : list string;
  cq_subChunkIds : list Z;
  cq_queries : list string;
  cq_nextFragment : option ChunkQuerySpec;
}.

Section queries.
Context {Template : Type} (apply : ChunkSpec -> Template -> string).

(** [_buildChunkQueries(queryTemplates, chunkSpec)] *)
Definition buildChunkQueries q (ts : list Template) (c : ChunkSpec) : outcome (list string) :=
  if negb (qs_hasStmtParallel q) then Raise BugException
  else match qs_queryMapping q with
       | None => Raise BugException
       | Some _ => Ret (map (apply c) ts)
       end.

(** [_buildFragment(queryTemplates, f)] *)
Fixpoint buildFragment (fuel : nat) q (ts : list Template) (f : ChunkSpecFragmenter) : outcome (option ChunkQuerySpec) :=
  match fuel with
  | O => Raise OutOfFuel
  | S fuel' =>
      if fr_isDone f then Ret None
      else
        let? s := fr_get f in
        let? queries := buildChunkQueries q ts s in
        let? next := buildFragment fuel' q ts (fr_next f) in
        Ret (Some (mkChunkQuerySpec "" 0 false [] (cs_subChunks s) queries next))
  end.

(** [buildChunkQuerySpec(queryTemplates, chunkSpec)] *)
Definition buildChunkQuerySpec q (ts : list Template) (c : ChunkSpec) : outcome ChunkQuerySpec :=
  match qs_queryMapping q with
  | None => Raise UndefinedBehaviour
  | Some m =>
      let spec ids queries next :=
        mkChunkQuerySpec (qs_dominantDb q) (cs_chunkId c) (qs_scanInteractive q) (qm_subChunkTables m) ids queries next in
      if negb (hasSubChunks q) then
        let? queries := buildChunkQueries q ts c in Ret (spec [] queries None)
      else if shouldSplit c then
        let frag := ChunkSpecFragmenter_ctor c in
        let? s := fr_get frag in
        let? queries := buildChunkQueries q ts s in
        let? next := buildFragment (S (length (cs_subChunks c))) q ts (fr_next frag) in
        Ret (spec (cs_subChunks s) queries next)
      else
        let? queries := buildChunkQueries q ts c in Ret (spec (cs_subChunks c) queries None)
  end.
End queries.

(** ** [void UserQuerySelect::setupChunking()] *)

Section setup.
Context {Region : Type} (ck : Chunker Region) {B : Type} `{IndexBackend B} (si : B).
Context (files : string -> option (list Z)) (containsDb : string -> bool).

Definition setupChunking (ec : EmptyChunks) q : EmptyChunks * outcome QuerySession :=
  let db := qs_dominantDb q in
  if String.eqb db "" || negb (containsDb db) then (ec, Raise RuntimeError)
  else
    match getEmpty files db ec with
    | (ec1, Raise e) => (ec1, Raise e)
    | (ec1, Ret _) =>
        match getEmpty files db ec1 with
        | (ec2, Raise e) => (ec2, Raise e)
        | (ec2, Ret eSet) =>
            (ec2,
             let? q1 :=
               if hasChunks q then
                 let? csv := match qs_constraints q with
                             | Some cv => getChunks ck si cv
                             | None => Ret (getAllChunks ck)
                             end in
                 Ret (foldl (fun q c => if decide (cs_chunkId c ∈ eSet) then q else addChunk c q) q csv)
               else Ret q in
             Ret (setScanInteractive q1))
        end
    end.
End setup.
