(* ===== verification/ChunkSelectThms.v ===== *)
(** * Theorems on the selection of chunks

    The secondary index gives the union of its rows, index and region
    constraints are combined by intersection, empty chunks are left out, and the
    fragments of a chunk query list its sub-chunks exactly once. *)

From Stdlib Require Import Ascii String.
From S2P Require Import Prelude.
From S2P Require Import StdString.
From S2P Require Import ChunkSpec.
From S2P Require Import ChunkSelect.

Local Open Scope Z_scope.

(** ** Fragments *)

(** The fragments of a chunk query, in order. *)
Fixpoint chain (s : ChunkQuerySpec) : list ChunkQuerySpec :=
  s :: match cq_nextFragment s with Some n => chain n | None => [] end.
Definition chain_opt (o : option ChunkQuerySpec) : list ChunkQuerySpec :=
  match o with Some s => chain s | None => [] end.

Lemma chain_eq s : chain s = s :: chain_opt (cq_nextFragment s).
Proof. by destruct s as [? ? ? ? ? ? [n|]]. Qed.

Section fragments.
Context {Template : Type} (apply : ChunkSpec -> Template -> string) (q : QuerySession) (ts : list Template).
Context (m : QueryMapping) (Hm : qs_queryMapping q = Some m) (Hp : qs_hasStmtParallel q = true).

(** What each fragment of the chunk [id] has to satisfy. *)
Definition fragment_ok (id : Z) (s : ChunkQuerySpec) : Prop :=
  (0 < length (cq_subChunkIds s) <= GOOD_SUBCHUNK_COUNT)%nat /\
  cq_queries s = map (apply (mkChunkSpec id (cq_subChunkIds s))) ts.

Lemma buildChunkQueries_ok c : buildChunkQueries apply q ts c = Ret (map (apply c) ts).
Proof. unfold buildChunkQueries. by rewrite Hp, Hm. Qed.

Lemma fr_get_ok c pos :
  (pos < length (cs_subChunks c))%nat ->
  fr_get (mkFragmenter c pos) = Ret (mkChunkSpec (cs_chunkId c) (take GOOD_SUBCHUNK_COUNT (drop pos (cs_subChunks c)))).
Proof.
  intros Hpos. unfold fr_get. simpl. unfold GOOD_SUBCHUNK_COUNT. destruct (Nat.ltb_spec (Nat.min (pos + 20) (length (cs_subChunks c))) pos); [lia|].
  do 2 f_equal. destruct (Nat.le_gt_cases (pos + 20) (length (cs_subChunks c))).
  - by replace (Nat.min (pos + 20) (length (cs_subChunks c)) - pos)%nat with 20%nat by lia.
  - rewrite !take_ge; [done|rewrite length_drop; lia..].
Qed.

Lemma buildFragment_spec fuel c pos :
  (length (cs_subChunks c) - pos < fuel)%nat ->
  exists o, buildFragment apply fuel q ts (mkFragmenter c pos) = Ret o /\
    concat (map cq_subChunkIds (chain_opt o)) = drop pos (cs_subChunks c) /\
    Forall (fragment_ok (cs_chunkId c)) (chain_opt o).
Proof.
  revert pos. induction fuel as [|fuel IH]; intros pos Hlt; [lia|]. cbn [buildFragment]. unfold fr_isDone. cbn [fr_original fr_pos].
  destruct (Nat.leb_spec (length (cs_subChunks c)) pos) as [Hle|Hgt].
  - exists None. split; [done|]. simpl. by rewrite drop_ge by done.
  - rewrite fr_get_ok by done. cbn [bind]. rewrite buildChunkQueries_ok. cbn [bind]. unfold fr_next. cbn [fr_original fr_pos].
    destruct (IH (pos + GOOD_SUBCHUNK_COUNT)%nat) as (o & -> & Hc & Hf); [unfold GOOD_SUBCHUNK_COUNT; lia|]. cbn [bind].
    eexists. split; [done|]. cbn [chain_opt]. rewrite chain_eq. cbn [cq_nextFragment map concat cq_subChunkIds cs_subChunks].
    split.
    + rewrite Hc, <- drop_drop. apply take_drop.
    + constructor; [|done]. split; [|done]. cbn [cq_subChunkIds cs_subChunks].
      rewrite length_take, length_drop. unfold GOOD_SUBCHUNK_COUNT. lia.
Qed.
End fragments.

(** C37. [buildChunkQuerySpec] terminates with a chain of fragments: together they
    list the sub-chunks of the chunk once each and in order, each has between one
    and twenty, and each has the query texts for exactly its own sub-chunks. *)
Theorem fragments_exact {Template} (apply : ChunkSpec -> Template -> string) q ts m c :
  qs_queryMapping q = Some m -> qs_hasStmtParallel q = true -> hasSubChunks q = true -> cs_subChunks c <> [] ->
  exists s, buildChunkQuerySpec apply q ts c = Ret s /\
    concat (map cq_subChunkIds (chain s)) = cs_subChunks c /\
    Forall (fun f => (0 < length (cq_subChunkIds f) <= GOOD_SUBCHUNK_COUNT)%nat /\
                     cq_queries f = map (apply (mkChunkSpec (cs_chunkId c) (cq_subChunkIds f))) ts) (chain s) /\
    cq_db s = qs_dominantDb q /\ cq_chunkId s = cs_chunkId c.
Proof.
  intros Hm Hp Hs Hne. unfold buildChunkQuerySpec. rewrite Hm, Hs. cbn [negb].
  assert (Hpos : (0 < length (cs_subChunks c))%nat) by (destruct (cs_subChunks c); [done|simpl; lia]).
  unfold shouldSplit. destruct (Nat.ltb_spec GOOD_SUBCHUNK_COUNT (length (cs_subChunks c))) as [Hlt|Hge].
  - unfold ChunkSpecFragmenter_ctor. rewrite fr_get_ok by lia. cbn [bind].
    rewrite (buildChunkQueries_ok apply q ts m Hm Hp). cbn [bind].
    destruct (buildFragment_spec apply q ts m Hm Hp (S (length (cs_subChunks c))) c GOOD_SUBCHUNK_COUNT)
      as (o & Ho & Hc & Hf); [lia|].
    unfold fr_next. cbn [fr_original fr_pos Nat.add]. rewrite Ho. cbn [bind]. eexists. split; [done|].
    rewrite chain_eq. cbn [cq_nextFragment map concat cq_subChunkIds cs_subChunks]. split; [rewrite Hc; apply take_drop|].
    split; [|done]. constructor; [|exact Hf]. split; [|done]. cbn [cq_subChunkIds cs_subChunks].
    rewrite length_take, length_drop. unfold GOOD_SUBCHUNK_COUNT in *. lia.
  - rewrite (buildChunkQueries_ok apply q ts m Hm Hp). cbn [bind]. eexists. split; [done|].
    rewrite chain_eq. cbn [cq_nextFragment map concat cq_subChunkIds chain_opt]. rewrite app_nil_r. split; [done|].
    split; [|done]. constructor; [|constructor]. split; [cbn; lia|]. cbn. by destruct c.
Qed.

(** ** The secondary index *)

Lemma contents_app_ext (v v' w w' : list ChunkSpec) :
  contents v = contents v' -> contents w = contents w' -> contents (v ++ w) = contents (v' ++ w').
Proof.
  intros Hv Hw. rewrite contents_app, Hw, <- contents_app.
  rewrite (contents_Permutation (v ++ w') (w' ++ v)), (contents_Permutation (v' ++ w') (w' ++ v')) by solve_Permutation.
  by rewrite !contents_app, Hv.
Qed.

(** A row of the index table as a chunk spec. *)
Definition row_spec (x : Z * Z) : ChunkSpec := mkChunkSpec x.1 [x.2].

(** The rows that the index queries of the constraints return. *)
Definition add_index_rows (b : MySqlBackend) (acc : list (Z * Z)) (c : Constraint) : outcome (list (Z * Z)) :=
  match index_type (ct_name c) with
  | Some t =>
      let? sql := buildLookupQuery (ct_params c) t in
      let? rows := mb_getQueryIter b sql in
      let? xs := mapM_outcome read_row rows in
      Ret (acc ++ xs)
  | None => Ret acc
  end.
Definition index_rows (b : MySqlBackend) (cv : list Constraint) : outcome (list (Z * Z)) := foldM (add_index_rows b) [] cv.
Definition has_index (cv : list Constraint) : bool :=
  existsb (fun c => match index_type (ct_name c) with Some _ => true | None => false end) cv.

Lemma contents_pairs (l : list (Z * list Z)) :
  NoDup l.*1 -> contents (map (fun x => mkChunkSpec x.1 x.2) l) = list_to_set <$> (list_to_map l : gmap Z (list Z)).
Proof.
  induction l as [|[k X] l IH]; simpl; [by rewrite fmap_empty|]. intros [Hk Hn]%NoDup_cons. rewrite IH by done.
  apply not_elem_of_list_to_map_1 in Hk. simpl in Hk. unfold add_spec. simpl. rewrite lookup_fmap, Hk. simpl.
  by rewrite union_empty_r_L, fmap_insert.
Qed.

Lemma contents_in_order (m : gmap Z (list Z)) :
  contents (map (fun x => mkChunkSpec x.1 x.2) (in_order m)) = list_to_set <$> m.
Proof.
  assert (Hn : NoDup (in_order m).*1) by (rewrite in_order_Permutation; apply NoDup_fst_map_to_list).
  rewrite contents_pairs by done. f_equal. rewrite <- (list_to_map_to_list m) at 2.
  apply list_to_map_proper; [done|apply in_order_Permutation].
Qed.

Lemma contents_rows xs : contents (map row_spec xs) = list_to_set <$> foldl add_row ∅ xs.
Proof.
  induction xs as [|x xs IH] using rev_ind; [symmetry; apply fmap_empty|].
  rewrite map_app, foldl_app. simpl.
  rewrite (contents_Permutation _ (row_spec x :: map row_spec xs)) by (simpl; solve_Permutation).
  rewrite contents_step, IH. set (tmp := foldl add_row ∅ xs). unfold add_row. rewrite fmap_insert. unfold add_spec. simpl.
  rewrite lookup_fmap. f_equal. destruct (tmp !! x.1); simpl; rewrite ?list_to_set_app_L; set_solver.
Qed.

Lemma mapM_snoc {X Y} (f : X -> outcome Y) (l : list X) (acc : list Y) :
  foldM (fun acc x => let? y := f x in Ret (app acc [y])) acc l = (let? ys := mapM_outcome f l in Ret (acc ++ ys)).
Proof.
  unfold mapM_outcome. revert acc. induction l as [|x l IH]; intros acc; simpl; [by rewrite app_nil_r|].
  destruct (f x) as [y|e]; simpl; [|done]. rewrite (IH (acc ++ [y])), (IH [y]).
  destruct (foldM _ [] l); simpl; [|done]. by rewrite <- app_assoc.
Qed.

Lemma read_rows rows tmp :
  foldM (fun tmp row => let? x := read_row row in Ret (add_row tmp x)) tmp rows =
  (let? xs := mapM_outcome read_row rows in Ret (foldl add_row tmp xs)).
Proof.
  revert tmp. induction rows as [|row rows IH]; intros tmp; simpl; [done|]. unfold mapM_outcome. simpl.
  destruct (read_row row) as [x|e]; simpl; [|done]. rewrite IH, mapM_snoc. by destruct (mapM_outcome read_row rows).
Qed.

Lemma sqlLookup_spec b output params t :
  match (let? sql := buildLookupQuery params t in
         let? rows := mb_getQueryIter b sql in mapM_outcome read_row rows) with
  | Ret xs => exists out, sqlLookup b output params t = Ret out /\ contents out = contents (output ++ map row_spec xs)
  | Raise e => sqlLookup b output params t = Raise e
  end.
Proof.
  unfold sqlLookup. destruct (buildLookupQuery params t) as [sql|]; simpl; [|done].
  destruct (mb_getQueryIter b sql) as [rows|]; simpl; [|done]. rewrite read_rows.
  destruct (mapM_outcome read_row rows) as [xs|]; simpl; [|done]. eexists. split; [done|].
  apply contents_app_ext; [done|]. by rewrite contents_in_order, contents_rows.
Qed.

Lemma index_loop_spec b cv output rows flag :
  contents output = contents (map row_spec rows) ->
  match foldM (add_index_rows b) rows cv with
  | Ret rows' => exists out, foldM (index_loop b) (output, flag) cv = Ret (out, flag || has_index cv) /\
                   contents out = contents (map row_spec rows')
  | Raise e => foldM (index_loop b) (output, flag) cv = Raise e
  end.
Proof.
  revert output rows flag. induction cv as [|c cv IH]; intros output rows flag Hc; simpl.
  - exists output. by rewrite orb_false_r.
  - change (index_loop b (output, flag) c) with
      (match index_type (ct_name c) with
       | Some t => let? output := sqlLookup b output (ct_params c) t in Ret (output, true)
       | None => Ret (output, flag)
       end).
    unfold add_index_rows at 1. destruct (index_type (ct_name c)) as [t|]; simpl; [|by apply IH].
    pose proof (sqlLookup_spec b output (ct_params c) t) as Hs.
    destruct (buildLookupQuery (ct_params c) t) as [sql|]; simpl in *; [|by rewrite Hs].
    destruct (mb_getQueryIter b sql) as [rs|]; simpl in *; [|by rewrite Hs].
    destruct (mapM_outcome read_row rs) as [xs|]; simpl in *; [|by rewrite Hs].
    destruct Hs as (out & -> & Hout). simpl. rewrite orb_true_r. apply (IH out (rows ++ xs) true).
    rewrite Hout, map_app. by apply contents_app_ext.
Qed.

(** A look-up in the secondary index gives, as a canonical vector, the chunks
    and sub-chunks of all the rows that its index queries return (constraints are
    combined with OR); without an index constraint it reports so, and an error
    of a query is passed on. *)
Theorem index_lookup_exact (b : MySqlBackend) (cv : list Constraint) :
  ib_lookup b cv =
  (let? rows := index_rows b cv in
   Ret (if has_index cv then Some (canonical (contents (map row_spec rows))) else None)).
Proof.
  simpl. pose proof (index_loop_spec b cv [] [] false eq_refl) as H. unfold index_rows.
  destruct (foldM _ [] cv) as [rows|e]; simpl in *; [|by rewrite H]. destruct H as (out & -> & Hc). simpl.
  destruct (has_index cv); [|done]. destruct (normalize_normal out) as (o & -> & Hn & Hco). simpl.
  do 2 f_equal. rewrite <- Hc, <- Hco. by apply normal_canonical.
Qed.

(** ** Setting up the chunks of a query *)

Lemma add_chunks (eSet : gset Z) csv q :
  foldl (fun q c => if decide (cs_chunkId c ∈ eSet) then q else addChunk c q) q csv =
  let l := filter (fun c => cs_chunkId c ∉ eSet) csv in
  qs_set_chunks (qs_chunkCount q + Z.of_nat (length l)) (qs_chunks q ++ l) (qs_scanInteractive q) (qs_isDummy q) q.
Proof.
  revert q. induction csv as [|c csv IH]; intros q; simpl.
  - rewrite app_nil_r, Z.add_0_r. by destruct q.
  - rewrite filter_cons. rewrite IH. destruct (decide (cs_chunkId c ∈ eSet)).
    + by rewrite decide_False by (intros H; by apply H).
    + rewrite decide_True by done. simpl. unfold qs_set_chunks, addChunk. simpl. rewrite <- app_assoc. simpl. f_equal. lia.
Qed.

Lemma getEmpty_again files db ec ec' s : getEmpty files db ec = (ec', Ret s) -> getEmpty files db ec' = (ec', Ret s).
Proof.
  unfold getEmpty. destruct (ec_sets ec !! db) as [t|] eqn:E; [intros [= <- <-]; by rewrite E|].
  destruct (populate _ _ _ _); [|done]. intros [= <- <-]. simpl. by rewrite lookup_insert_eq.
Qed.

Section setup.
Context {Region : Type} (ck : Chunker Region) {B : Type} `{IndexBackend B} (si : B).

(** What the index and the regions of a query select. *)
Definition selection (idx : option (list ChunkSpec)) (scv : option (list (Z * list Z))) : list ChunkSpec :=
  match idx, scv with
  | Some i, Some r => canonical (common (contents i) (contents (map convertSgSubChunks r)))
  | Some i, None => i
  | None, Some r => map convertSgSubChunks r
  | None, None => getAllChunks ck
  end.

Definition selection_defined (idx : option (list ChunkSpec)) (scv : option (list (Z * list Z))) : Prop :=
  match idx, scv with
  | Some i, Some r => ~ map_overruns (contents i) (contents (map convertSgSubChunks r))
  | _, _ => True
  end.

Lemma getChunks_selection cv idx rv scv :
  ib_lookup si cv = Ret idx -> mapM_outcome (getRegion ck) cv = Ret rv -> getIntersect ck rv = Ret scv ->
  selection_defined idx scv -> getChunks ck si cv = Ret (selection idx scv).
Proof.
  intros Hi Hr Hs Hd. unfold getChunks. rewrite Hi. simpl. rewrite Hr. simpl. rewrite Hs. simpl.
  destruct idx as [i|], scv as [r|]; try done. simpl in Hd.
  destruct (normalize_normal i) as (i' & -> & Hni & Hci). simpl.
  destruct (normalize_normal (map convertSgSubChunks r)) as (r' & -> & Hnr & Hcr). simpl.
  rewrite intersectSorted_spec by done. rewrite decide_False; [by rewrite Hci, Hcr|].
  by rewrite overruns_contents, Hci, Hcr.
Qed.

End setup.

(** ** Concrete queries *)

(** A chunker of three chunks with four sub-chunks each, whose regions are lists
    of chunks. *)
Definition demo_chunker : Chunker (list Z) :=
  mkChunker (fun _ params => Ret (map (fun _ => 7) params))
    (fun r => Ret (map (fun c => (c, [2; 1; 3])) r ++ [(9, [4])])) [5; 7; 9] (fun _ => [1; 2; 3; 4]).

Definition demo_backend : MySqlBackend :=
  mkMySqlBackend (fun _ => Ret [["7"; "3"]; ["5"; "1"]; ["7"; "4"]; ["9"; "4"]]%string).

Definition demo_constraints : list Constraint :=
  [mkConstraint "sIndex" ["LSST"; "Object"; "objectId"; "11"]; mkConstraint "circle" ["1.0"]]%string.

Definition demo_session : QuerySession :=
  mkQuerySession "LSST" (Some (mkQueryMapping true ["Object"]))%string (Some demo_constraints) true 0 [] true false.

Definition demo_empty : EmptyChunks := mkEmptyChunks "." "emptyChunks.txt" ∅.

Example demo_setup :
  match setupChunking demo_chunker demo_backend (fun _ => Some [9]) (fun _ => true) demo_empty demo_session with
  | (_, Ret q) => qs_chunks q = [mkChunkSpec 7 [3]] /\ qs_scanInteractive q = true
  | _ => False
  end.
Proof. vm_compute. done. Qed.


Lemma fragments_exact_witness :
  exists s, buildChunkQuerySpec (fun c (_ : unit) => to_string (Z.of_nat (length (cs_subChunks c)))) demo_session [tt]
      (mkChunkSpec 7 (map Z.of_nat (seq 0 45))) = Ret s /\
    concat (map cq_subChunkIds (chain s)) = map Z.of_nat (seq 0 45).
Proof.
  destruct (fragments_exact (fun c (_ : unit) => to_string (Z.of_nat (length (cs_subChunks c)))) demo_session [tt]
    (mkQueryMapping true ["Object"%string]) (mkChunkSpec 7 (map Z.of_nat (seq 0 45)))) as (s & H1 & H2 & _);
    try reflexivity; [discriminate|]. exists s. split; [exact H1|exact H2].
Defined.

(** ** Where the code departs from its documentation *)

(** Chunk specs that share no sub-chunk give one without sub-chunks, which
    stands for all of them; [intersect] is documented to make it invalid. *)
Example disjoint_specs_select_all : cs_intersect (mkChunkSpec 5 [1]) (mkChunkSpec 5 [2]) = Ret (mkChunkSpec 5 []).
Proof. reflexivity. Qed.

(** A spec for all sub-chunks loses them when it is merged. *)
Example all_subchunks_lost : normalize [mkChunkSpec 5 []; mkChunkSpec 5 [1]] = Ret [mkChunkSpec 5 [1]].
Proof. reflexivity. Qed.

(** An index entry after all the chunks of the region: the loop of
    [intersectSorted] reads past the end. *)
Example intersect_overrun : intersect [mkChunkSpec 9 [1]] [mkChunkSpec 5 [1]] = Raise UndefinedBehaviour.
Proof. reflexivity. Qed.

(** After a failure to read the files [getEmpty] answers with an empty set. *)
Lemma empty_chunks_failure_cached files db ec ec' e :
  getEmpty files db ec = (ec', Raise e) -> getEmpty files db ec' = (ec', Ret ∅).
Proof.
  unfold getEmpty. destruct (ec_sets ec !! db); [done|]. destruct (populate _ _ _ _); [done|]. intros [= <- <-]. simpl.
  by rewrite lookup_insert_eq.
Qed.
