(* ===== verification/ResourceUnit.v ===== *)
(** * Resource paths

    [global/ResourceUnit.h] and [.cc]: the paths under which the czar asks
    workers for resources, e.g. [/chk/db/1234] for a chunk.  The tokenizer is
    the rest of the string from its cursor.

    Not modelled: the methods that are declared without a definition
    ([setAsResult], [addKey]). *)

From Stdlib Require Import Ascii String.
From S2P Require Import Prelude.
From S2P Require Import StdString.

Local Open Scope string_scope.
Local Open Scope Z_scope.

Implicit Types (s : string) (c : ascii).

(** ** [class ResourceUnit::Tokenizer] *)

Record Tokenizer := mkTokenizer { tk_rest : string; tk_sep : ascii }.

Implicit Types (t : Tokenizer).

(** The part before the first separator, and what follows it. *)
Fixpoint split_at c s : string * option string :=
  match s with
  | "" => ("", None)
  | String a s' =>
      if Ascii.eqb a c then ("", Some s')
      else let '(x, o) := split_at c s' in (String a x, o)
  end.

(** [std::string token()] and [bool done()] *)
Definition token t : string := (split_at (tk_sep t) (tk_rest t)).1.
Definition tk_done t : bool := match (split_at (tk_sep t) (tk_rest t)).2 with None => true | Some _ => false end.

(** [void next()] *)
Definition tk_next t : outcome Tokenizer :=
  match (split_at (tk_sep t) (tk_rest t)).2 with
  | None => Raise AssertFailed
  | Some r => Ret (mkTokenizer r (tk_sep t))
  end.

(** [csm >> num] on an [int]: 0 without digits, the nearest value on overflow. *)
Definition extract_int s : Z :=
  let '(neg, body) := read_sign (skip_space s) in
  let v := (read_digits 0 body).1 in
  Z.max INT_MIN (Z.min INT_MAX (if neg : bool then - v else v)).

(** [int tokenAsInt()] *)
Definition tokenAsInt t : Z := extract_int (token t).

(** ** [class ResourceUnit] *)

Inductive UnitType := GARBAGE | DBCHUNK | CQUERY | UNKNOWN | RESULT | WORKER.

Record ResourceUnit := mkResourceUnit {
  ru_unitType : UnitType;
  ru_db : string;
  ru_chunk : Z;
  ru_hashName : string;
  ru_vars : gmap string string;
}.

Implicit Types (r : ResourceUnit).

Definition ResourceUnit_default : ResourceUnit := mkResourceUnit GARBAGE "" (-1) "" ∅.

Definition ru_set_type u r : ResourceUnit := mkResourceUnit u (ru_db r) (ru_chunk r) (ru_hashName r) (ru_vars r).
Definition ru_set_db db r : ResourceUnit := mkResourceUnit (ru_unitType r) db (ru_chunk r) (ru_hashName r) (ru_vars r).
Definition ru_set_chunk n r : ResourceUnit := mkResourceUnit (ru_unitType r) (ru_db r) n (ru_hashName r) (ru_vars r).
Definition ru_set_hashName h r : ResourceUnit := mkResourceUnit (ru_unitType r) (ru_db r) (ru_chunk r) h (ru_vars r).
Definition ru_set_vars m r : ResourceUnit := mkResourceUnit (ru_unitType r) (ru_db r) (ru_chunk r) (ru_hashName r) m.

(** [static std::string prefix(UnitType const& r)] *)
Definition prefix (u : UnitType) : string :=
  match u with
  | DBCHUNK => "chk"
  | CQUERY => "q"
  | UNKNOWN => "UNKNOWN"
  | RESULT => "result"
  | WORKER => "worker"
  | GARBAGE => "GARBAGE"
  end.

(** [std::string path() const] *)
Definition path r : string :=
  let ss := "/" ++ prefix (ru_unitType r) in
  match ru_unitType r with
  | GARBAGE => "/GARBAGE"
  | DBCHUNK | CQUERY =>
      ss ++ "/" ++ ru_db r ++ (if ru_chunk r =? -1 then "" else "/" ++ to_string (ru_chunk r))
  | UNKNOWN => ss ++ "/" ++ "UNKNOWN_RESOURCE_UNIT"
  | RESULT | WORKER => ss ++ ru_hashName r
  end.

(** [std::string var(std::string const& key) const] *)
Definition var (key : string) r : string := default "" (ru_vars r !! key).

(** [makePath(chunk, db)] and [makeWorkerPath(id)] *)
Definition makePath (chunk : Z) (db : string) : string := "/" ++ prefix DBCHUNK ++ "/" ++ db ++ "/" ++ to_string chunk.
Definition makeWorkerPath (id : string) : string := "/" ++ prefix WORKER ++ "/" ++ id.

(** [setAsDbChunk(db, chunk)] and [setAsCquery(db, chunk)] *)
Definition setAsDbChunk (db : string) (chunk : Z) r : ResourceUnit := ru_set_chunk chunk (ru_set_db db (ru_set_type DBCHUNK r)).
Definition setAsCquery (db : string) (chunk : Z) r : ResourceUnit := ru_set_chunk chunk (ru_set_db db (ru_set_type CQUERY r)).

(** [void _ingestKeyStr(std::string const& keyStr)] *)
Definition ingestKeyStr (keyStr : string) r : ResourceUnit :=
  match split_at "=" keyStr with
  | (k, None) => ru_set_vars (<[keyStr := ""]> (ru_vars r)) r
  | (k, Some v) => ru_set_vars (<[k := v]> (ru_vars r)) r
  end.

(** The loop of [_ingestLeafAndKeys]: [defn] is not assigned in it. *)
Fixpoint ingest_loop (fuel : nat) (defn : string) t r : outcome ResourceUnit :=
  match fuel with
  | O => Raise OutOfFuel
  | S fuel' =>
      if String.eqb defn "" then Ret r
      else let r' := ingestKeyStr defn r in
           let? t' := tk_next t in ingest_loop fuel' defn t' r'
  end.

(** [void _ingestLeafAndKeys(std::string const& leafPlusKeys)] *)
Definition ingestLeafAndKeys (leafPlusKeys : string) r : outcome ResourceUnit :=
  let r1 := ru_set_vars ∅ r in
  match (split_at "?" leafPlusKeys).2 with
  | None => Ret r1
  | Some keys =>
      let t := mkTokenizer keys "&" in
      ingest_loop (S (S (String.length keys))) (token t) t r1
  end.

(** The two branches of [_setFromPath] for a database and a chunk, after the type. *)
Definition set_db_chunk t r : outcome ResourceUnit :=
  if tk_done t then Ret (ru_set_type GARBAGE r)
  else
    let? t := tk_next t in
    let r := ru_set_db (token t) r in
    if String.eqb (ru_db r) "" then Ret (ru_set_type GARBAGE r)
    else if tk_done t then Ret (ru_set_type GARBAGE r)
    else
      let? t := tk_next t in
      if String.eqb (token t) "" then Ret (ru_set_type GARBAGE r)
      else ingestLeafAndKeys (token t) (ru_set_chunk (tokenAsInt t) r).

(** The two branches for a name. *)
Definition set_hashName t r : outcome ResourceUnit :=
  if tk_done t then Ret (ru_set_type GARBAGE r)
  else
    let? t := tk_next t in
    let r := ru_set_hashName (token t) r in
    if String.eqb (ru_hashName r) "" then Ret (ru_set_type GARBAGE r) else Ret r.

(** [void _setFromPath(std::string const& path)] *)
Definition setFromPath (p : string) r : outcome ResourceUnit :=
  let t := mkTokenizer p "/" in
  if negb (String.eqb (token t) "") then Ret (ru_set_type UNKNOWN r)
  else if tk_done t then Ret (ru_set_type GARBAGE r)
  else
    let? t := tk_next t in
    let rTypeString := token t in
    if String.eqb rTypeString (prefix DBCHUNK) then set_db_chunk t (ru_set_type DBCHUNK r)
    else if String.eqb rTypeString (prefix CQUERY) then set_db_chunk t (ru_set_type CQUERY r)
    else if String.eqb rTypeString (prefix RESULT) then set_hashName t (ru_set_type RESULT r)
    else if String.eqb rTypeString (prefix WORKER) then set_hashName t (ru_set_type WORKER r)
    else Ret (ru_set_type GARBAGE r).

(** [ResourceUnit(std::string const& path)] *)
Definition ResourceUnit_ctor (p : string) : outcome ResourceUnit := setFromPath p ResourceUnit_default.

(** ** Lemmas *)

Definition no_char c s : bool := all_chars (fun a => negb (Ascii.eqb a c)) s.

Lemma split_at_none c s : no_char c s = true -> split_at c s = (s, None).
Proof.
  unfold no_char. induction s as [|a s IH]; simpl; [done|]. intros [Ha Hs]%andb_true_iff.
  apply negb_true_iff in Ha. by rewrite Ha, IH.
Qed.

Lemma split_at_app c s s' : no_char c s = true -> split_at c (s ++ String c s') = (s, Some s').
Proof.
  unfold no_char. induction s as [|a s IH]; simpl; [intros _|intros [Ha Hs]%andb_true_iff].
  - by rewrite Ascii.eqb_refl.
  - rewrite ?append_cons. simpl. apply negb_true_iff in Ha. by rewrite Ha, IH.
Qed.

Lemma split_at_length c s x s' : split_at c s = (x, Some s') -> (String.length s' < String.length s)%nat.
Proof.
  revert x. induction s as [|a s IH]; intros x; simpl; [done|]. destruct (Ascii.eqb a c); [intros [= <- <-]; lia|].
  destruct (split_at c s) as [y [u|]]; [|done]. intros [= <- <-]. specialize (IH y eq_refl). lia.
Qed.

Lemma extract_to_string z : INT_MIN <= z <= INT_MAX -> extract_int (to_string z) = z.
Proof.
  intros Hz. unfold extract_int. pose proof (read_to_string z) as H. destruct (read_sign _) as [neg body].
  destruct H as [_ H]. rewrite H. lia.
Qed.

(** Separators do not occur in printed numbers. *)
Lemma to_string_no_char c z : isdigit c = false -> Ascii.eqb c "-" = false -> no_char c (to_string z) = true.
Proof.
  intros Hd Hm. eapply all_chars_impl; [|apply to_string_chars]. intros a Ha. apply negb_true_iff, Ascii.eqb_neq.
  intros ->. by rewrite Hd, Hm in Ha.
Qed.

Lemma ingest_leaf_number z r : ingestLeafAndKeys (to_string z) r = Ret (ru_set_vars ∅ r).
Proof. unfold ingestLeafAndKeys. by rewrite split_at_none by (by apply to_string_no_char). Qed.

(** Reading the tail [/db/chunk] of a path. *)
Lemma set_db_chunk_tail p db z r :
  no_char "/" p = true -> no_char "/" db = true -> db <> "" -> INT_MIN <= z <= INT_MAX ->
  set_db_chunk (mkTokenizer (p ++ "/" ++ db ++ "/" ++ to_string z) "/") r =
  Ret (ru_set_vars ∅ (ru_set_chunk z (ru_set_db db r))).
Proof.
  intros Hp Hdb Hne Hz. unfold set_db_chunk, tk_done, tk_next. cbn [tk_sep tk_rest].
  change ("/" ++ db ++ "/" ++ to_string z) with (String "/" (db ++ String "/" (to_string z))).
  rewrite (split_at_app "/" p) by done. cbn [snd bind]. unfold token. cbn [tk_sep tk_rest].
  rewrite (split_at_app "/" db) by done. cbn [fst snd ru_db ru_set_db bind tk_sep tk_rest].
  rewrite (proj2 (String.eqb_neq db "") Hne). cbn [tk_sep tk_rest].
  rewrite split_at_none by (by apply to_string_no_char). cbn [fst].
  rewrite (proj2 (String.eqb_neq _ "") (to_string_nonempty z)). unfold tokenAsInt, token. cbn [tk_sep tk_rest].
  rewrite split_at_none by (by apply to_string_no_char). cbn [fst]. by rewrite extract_to_string, ingest_leaf_number by done.
Qed.

(** The constructor on [/p/...] for the prefix of a type. *)
Lemma ctor_prefix p rest : no_char "/" p = true ->
  ResourceUnit_ctor ("/" ++ p ++ "/" ++ rest) =
  let t := mkTokenizer (p ++ "/" ++ rest) "/" in
  let r := ResourceUnit_default in
  if String.eqb p (prefix DBCHUNK) then set_db_chunk t (ru_set_type DBCHUNK r)
  else if String.eqb p (prefix CQUERY) then set_db_chunk t (ru_set_type CQUERY r)
  else if String.eqb p (prefix RESULT) then set_hashName t (ru_set_type RESULT r)
  else if String.eqb p (prefix WORKER) then set_hashName t (ru_set_type WORKER r)
  else Ret (ru_set_type GARBAGE r).
Proof.
  intros Hp. unfold ResourceUnit_ctor, setFromPath.
  change ("/" ++ p ++ "/" ++ rest) with (String "/" (p ++ String "/" rest)).
  change ("/" ++ rest) with (String "/" rest). unfold tk_next, tk_done, token at 1. cbn [tk_sep tk_rest split_at Ascii.eqb Bool.eqb fst snd String.eqb negb bind].
  unfold token. cbn [tk_sep tk_rest]. by rewrite (split_at_app "/" p) by done.
Qed.

Lemma set_hashName_tail p h r :
  no_char "/" p = true -> no_char "/" h = true -> h <> "" ->
  set_hashName (mkTokenizer (p ++ "/" ++ h) "/") r = Ret (ru_set_hashName h r).
Proof.
  intros Hp Hh Hne. unfold set_hashName, tk_done, tk_next. cbn [tk_sep tk_rest].
  change ("/" ++ h) with (String "/" h). rewrite (split_at_app "/" p) by done. cbn [snd bind].
  unfold token. cbn [tk_sep tk_rest]. rewrite split_at_none by done. cbn [fst ru_hashName ru_set_hashName].
  by rewrite (proj2 (String.eqb_neq h "") Hne).
Qed.

(** ** Theorems *)

(** Paths of chunk resources are read back as what they were made of: for
    [path()] of a chunk or chunk query, and for [makePath] and
    [makeWorkerPath]. *)
Theorem resource_path_roundtrip r db chunk id :
  no_char "/" db = true -> db <> "" -> INT_MIN <= chunk <= INT_MAX -> chunk <> -1 ->
  no_char "/" id = true -> id <> "" ->
  ResourceUnit_ctor (path (setAsDbChunk db chunk r)) = Ret (mkResourceUnit DBCHUNK db chunk "" ∅) /\
  ResourceUnit_ctor (path (setAsCquery db chunk r)) = Ret (mkResourceUnit CQUERY db chunk "" ∅) /\
  ResourceUnit_ctor (makePath chunk db) = Ret (mkResourceUnit DBCHUNK db chunk "" ∅) /\
  ResourceUnit_ctor (makeWorkerPath id) = Ret (mkResourceUnit WORKER "" (-1) id ∅).
Proof.
  intros Hdb Hne Hz Hm Hid Hidne. unfold path, makePath, makeWorkerPath. cbn [ru_unitType ru_db ru_chunk setAsDbChunk setAsCquery ru_set_chunk ru_set_db ru_set_type].
  rewrite (proj2 (Z.eqb_neq chunk (-1)) Hm), !append_assoc. split; [|split; [|split]].
  - rewrite ctor_prefix by done. cbn -[set_db_chunk]. by rewrite (set_db_chunk_tail "chk") by done.
  - rewrite ctor_prefix by done. cbn -[set_db_chunk]. by rewrite (set_db_chunk_tail "q") by done.
  - rewrite ctor_prefix by done. cbn -[set_db_chunk]. by rewrite (set_db_chunk_tail "chk") by done.
  - rewrite ctor_prefix by done. cbn -[set_hashName]. by rewrite (set_hashName_tail "worker") by done.
Qed.

Lemma resource_path_roundtrip_witness :
  ResourceUnit_ctor (path (setAsDbChunk "LSST" 6630 ResourceUnit_default)) = Ret (mkResourceUnit DBCHUNK "LSST" 6630 "" ∅) /\
  path (setAsDbChunk "LSST" 6630 ResourceUnit_default) = "/chk/LSST/6630".
Proof.
  split; [|reflexivity].
  apply (resource_path_roundtrip ResourceUnit_default "LSST" 6630 "worker-1"); [reflexivity|discriminate| |lia|reflexivity|discriminate].
  unfold INT_MIN, INT_MAX. lia.
Defined.

(** ** Where the code departs from its documentation *)

Lemma ingest_loop_asserts fuel defn t r :
  defn <> "" -> (String.length (tk_rest t) < fuel)%nat -> ingest_loop fuel defn t r = Raise AssertFailed.
Proof.
  intros Hd. revert t r. induction fuel as [|fuel IH]; intros t r Hf; [lia|]. cbn [ingest_loop].
  rewrite (proj2 (String.eqb_neq defn "") Hd). unfold tk_next.
  destruct (split_at (tk_sep t) (tk_rest t)) as [x [s|]] eqn:E; cbn [snd bind]; [|done].
  apply IH. cbn [tk_rest]. apply split_at_length in E. lia.
Qed.

(** A path with a key never gives a resource: the loop does not read the next
    key and runs into the assertion of [next]. *)
Lemma keys_fail_assertion leaf k r keys :
  (split_at "?" leaf).2 = Some keys -> (split_at "&" keys).1 = k -> k <> "" ->
  ingestLeafAndKeys leaf r = Raise AssertFailed.
Proof.
  intros Hs Hk Hne. unfold ingestLeafAndKeys. rewrite Hs. apply ingest_loop_asserts; [by unfold token; simpl; rewrite Hk|].
  simpl. lia.
Qed.

(** [path()] of a worker resource has no separator before the name, so that it
    is not the path of a worker resource. *)
Example worker_path_not_parsed :
  let r := mkResourceUnit WORKER "" (-1) "w1" ∅ in
  path r = "/workerw1" /\ ResourceUnit_ctor (path r) = Ret ResourceUnit_default.
Proof. done. Qed.
