(* ===== verification/LocalInfile.v ===== *)
(** * Loading result rows into the database of the czar

    The rows of a result message reach the result table through
    [LOAD DATA LOCAL INFILE]: [rproc/ProtoRowBuffer.h] and [.cc] write them as
    text, [mysql/LocalInfile.cc] hands the text to the MySQL client in pieces of
    the size that it asks for, through the interface [RowBuffer] of
    [mysql/RowBuffer.h].

    A buffer is the list of its bytes, the pointer into the buffer of a
    [LocalInfile] the list of the bytes left.  A row bundle of the protocol is
    the list of its columns, a column for which [isnull] holds being [None].
    Not modelled: the schema of the buffer, [dump], and [ResRowBuffer]. *)

From Stdlib Require Import Ascii String.
From S2P Require Import Prelude.
From S2P Require Import StdString.

Local Open Scope Z_scope.

Implicit Types (n : nat).

Abbreviation bytes := (list ascii).

(** ** [class RowBuffer] *)

(** [unsigned fetch(char* buffer, unsigned bufLen)]: the bytes that are copied. *)
Class RowBuffer (B : Type) := { fetch : nat -> B -> bytes * B }.

(** The contract in [mysql/RowBuffer.h] and [mysql/LocalInfile.h]: a buffer has a
    sequence of bytes to give out, in pieces that fit, and an empty piece means
    the end. *)
Class RowBufferLaws (B : Type) `{RowBuffer B} (ok : B -> Prop) (pending : B -> bytes) : Prop := {
  fetch_law n b :
    ok b ->
    let '(out, b') := fetch n b in
    ok b' /\ pending b = out ++ pending b' /\ (length out <= n)%nat /\
    ((0 < n)%nat -> out = [] -> pending b = []);
}.

(** ** [class ProtoRowBuffer] *)

Definition NUL : ascii := ascii_of_nat 0.
Definition BS : ascii := ascii_of_nat 8.
Definition TAB : ascii := ascii_of_nat 9.
Definition LF : ascii := ascii_of_nat 10.
Definition CR : ascii := ascii_of_nat 13.
Definition SUB : ascii := ascii_of_nat 26.
Definition BACKSLASH : ascii := ascii_of_nat 92.
Definition QUOTE : ascii := ascii_of_nat 39.

(** [escapeString(destBegin, srcBegin, srcEnd)] *)
Fixpoint escapeString (src : bytes) : bytes :=
  match src with
  | [] => []
  | c :: src' =>
      (if Ascii.eqb c NUL then [BACKSLASH; "0"%char]
       else if Ascii.eqb c BS then [BACKSLASH; "b"%char]
       else if Ascii.eqb c LF then [BACKSLASH; "n"%char]
       else if Ascii.eqb c CR then [BACKSLASH; "r"%char]
       else if Ascii.eqb c TAB then [BACKSLASH; "t"%char]
       else if Ascii.eqb c SUB then [BACKSLASH; "Z"%char]
       else if Ascii.eqb c BACKSLASH then
         match src' with
         | [] => [c]
         | d :: _ => if Ascii.eqb d "N" then [c] else [BACKSLASH; BACKSLASH]
         end
       else [c]) ++ escapeString src'
  end.

(** [copyColumn(dest, rawColumn)] *)
Definition copyColumn (dest rawColumn : bytes) : bytes := dest ++ QUOTE :: escapeString rawColumn ++ [QUOTE].

Definition RowBundle := list (option bytes).

(** The members that change, and the ones set by the constructor. *)
Record ProtoRowBuffer := mkProtoRowBuffer {
  pb_result : list RowBundle;
  pb_jobIdStr : bytes;
  pb_rowIdx : nat;
  pb_currentRow : bytes;
}.

Implicit Types (b : ProtoRowBuffer).

Definition pb_rowTotal b : nat := length (pb_result b).
Definition colSep : bytes := [TAB].
Definition rowSep : bytes := [LF].
Definition nullToken : bytes := [BACKSLASH; "N"%char].

(** [_copyRowBundle(dest, rb)] *)
Definition copyRowBundle (jobIdStr dest : bytes) (rb : RowBundle) : bytes :=
  foldl (fun dest col =>
    match col with
    | Some c => copyColumn (dest ++ colSep) c
    | None => (dest ++ colSep) ++ nullToken
    end) (dest ++ jobIdStr) rb.

(** [ProtoRowBuffer(res, jobId, ...)], with [_initCurrentRow()] *)
Definition ProtoRowBuffer_ctor (res : list RowBundle) (jobId : Z) : ProtoRowBuffer :=
  let jobIdStr := QUOTE :: list_ascii_of_string (to_string jobId) ++ [QUOTE] in
  mkProtoRowBuffer res jobIdStr 0
    (match res with [] => [] | rb :: _ => copyRowBundle jobIdStr [] rb end).

(** [void _readNextRow()] *)
Definition readNextRow b : ProtoRowBuffer :=
  let idx := S (pb_rowIdx b) in
  match pb_result b !! idx with
  | None => mkProtoRowBuffer (pb_result b) (pb_jobIdStr b) idx (pb_currentRow b)
  | Some rb => mkProtoRowBuffer (pb_result b) (pb_jobIdStr b) idx (copyRowBundle (pb_jobIdStr b) ([] ++ rowSep) rb)
  end.

Definition pb_set_currentRow (l : bytes) b : ProtoRowBuffer := mkProtoRowBuffer (pb_result b) (pb_jobIdStr b) (pb_rowIdx b) l.

(** [unsigned fetch(char* buffer, unsigned bufLen)] *)
#[export] Instance ProtoRowBuffer_buffer : RowBuffer ProtoRowBuffer := {
  fetch n b :=
    let row := pb_currentRow b in
    let '(out, b1) :=
      if (n <=? length row)%nat then (take n row, pb_set_currentRow (drop n row) b)
      else (row, pb_set_currentRow [] b) in
    (out, if (length (pb_currentRow b1) =? 0)%nat && (pb_rowIdx b1 <? pb_rowTotal b1)%nat then readNextRow b1 else b1);
}.

(** ** [class LocalInfile] *)

Record LocalInfile (B : Type) := mkLocalInfile { li_leftover : bytes; li_rowBuffer : B }.
Arguments mkLocalInfile {B}.
Arguments li_leftover {B}.
Arguments li_rowBuffer {B}.

Definition infileBufferSize : nat := Z.to_nat (1024 * 1024).

Section infile.
Context {B : Type} `{RowBuffer B}.

Definition LocalInfile_ctor (b : B) : LocalInfile B := mkLocalInfile [] b.

(** [int read(char* buf, unsigned int bufLen)] *)
Definition infile_read (bufLen : nat) (li : LocalInfile B) : bytes * LocalInfile B :=
  let copySize := Nat.min bufLen (length (li_leftover li)) in
  let out := take copySize (li_leftover li) in
  let leftover := drop copySize (li_leftover li) in
  let bufLen := (bufLen - copySize)%nat in
  if (0 <? bufLen)%nat then
    let '(got, b') := fetch infileBufferSize (li_rowBuffer li) in
    match got with
    | [] => (out, mkLocalInfile leftover b')
    | _ =>
        let copySize := if (bufLen <? length got)%nat then bufLen else length got in
        (out ++ take copySize got, mkLocalInfile (drop copySize got) b')
    end
  else (out, mkLocalInfile leftover (li_rowBuffer li)).

(** What the MySQL client does with [local_infile_read]: it reads with buffers of
    sizes of its choice until it gets no bytes. *)
Fixpoint read_all (sizes : list nat) (li : LocalInfile B) : option bytes :=
  match sizes with
  | [] => None
  | n :: sizes' =>
      let '(out, li') := infile_read n li in
      match out with
      | [] => Some []
      | _ => (app out) <$> read_all sizes' li'
      end
  end.
End infile.

(** ** [class LocalInfile::Mgr] *)

(** [_map], with the counter of [_nextFilename]. *)
Record Mgr (B : Type) := mkMgr { mg_map : gmap string B; mg_sequence : Z }.
Arguments mkMgr {B}.
Arguments mg_map {B}.
Arguments mg_sequence {B}.

Section mgr.
Context {B : Type}.
Implicit Types (m : Mgr B) (rb : B).

(** [bool _set(s, rb)] *)
Definition mg_set (s : string) rb m : Mgr B * bool :=
  match mg_map m !! s with
  | Some _ => (m, false)
  | None => (mkMgr (<[s := rb]> (mg_map m)) (mg_sequence m), true)
  end.

(** [std::string _nextFilename()] *)
Definition nextFilename m : Mgr B * string :=
  let seq := wrap64 (mg_sequence m + 1) in
  (mkMgr (mg_map m) seq, String.append "virtualinfile_" (to_string seq)).

(** [std::string insertBuffer(rb)] *)
Definition insertBuffer rb m : Mgr B * string :=
  let '(m1, f) := nextFilename m in ((mg_set f rb m1).1, f).

(** [void setBuffer(s, rb)] *)
Definition setBuffer (s : string) rb m : outcome (Mgr B) :=
  let '(m1, newElem) := mg_set s rb m in if newElem : bool then Ret m1 else Raise RuntimeError.

(** [RowBuffer::Ptr get(s)] *)
Definition mg_get (s : string) m : option B := mg_map m !! s.

(** [local_infile_init] *)
Definition local_infile_init (filename : string) m : outcome (LocalInfile B) :=
  match mg_get filename m with
  | None => Raise AssertFailed
  | Some rb => Ret (LocalInfile_ctor rb)
  end.
End mgr.

(** ** Theorems on loading result rows

    Whatever the sizes of the pieces that the MySQL client asks for, it receives
    exactly the text of the rows; the text of a column can be read back. *)


(** ** [LocalInfile] against the interface *)

Section infile.
Context {B : Type} `{RowBuffer B} (ok : B -> Prop) (pending : B -> bytes) `{!RowBufferLaws B ok pending}.
Implicit Types (li : LocalInfile B).

(** What a reader still has to get. *)
Definition content li : bytes := li_leftover li ++ pending (li_rowBuffer li).

Lemma read_law n li :
  ok (li_rowBuffer li) ->
  let '(out, li') := infile_read n li in
  ok (li_rowBuffer li') /\ content li = out ++ content li' /\ (length out <= n)%nat /\
  ((0 < n)%nat -> out = [] -> content li = []).
Proof.
  intros Hok. unfold infile_read, content. destruct li as [l b]. simpl in *.
  set (k := Nat.min n (length l)). assert (Hk : length (take k l) = k) by (rewrite length_take; lia).
  destruct (Nat.ltb_spec 0 (n - k)) as [Hlt|Hge].
  - assert (Hkl : k = length l) by lia. rewrite Hkl, take_ge, drop_ge by lia.
    pose proof (fetch_law infileBufferSize b Hok) as Hf. destruct (fetch infileBufferSize b) as [got b'].
    destruct Hf as (Hok' & Hp & _ & Hend). destruct got as [|c got]; simpl.
    + split; [done|]. rewrite Hp. split; [done|]. split; [lia|]. intros _ ->. rewrite <- Hp. simpl. apply Hend; [|done].
      unfold infileBufferSize. lia.
    + set (got' := c :: got) in *. set (m := if (_ <? _)%nat then _ else _).
      assert (Hm : (0 < m <= n - length l)%nat).
      { unfold m. simpl. destruct (Nat.ltb_spec (n - length l) (S (length got))); lia. }
      split; [done|]. rewrite Hp. split; [|split].
      * rewrite <- (take_drop m got') at 1. by rewrite <- !app_assoc.
      * rewrite length_app, length_take. lia.
      * intros _ Hnil. apply app_nil in Hnil as [_ Hnil]. destruct m as [|m]; [lia|]. done.
  - assert (k = n) as -> by lia. split; [done|]. split; [|split; [lia|]].
    + simpl. by rewrite app_assoc, take_drop.
    + intros Hn Hnil. rewrite Hnil in Hk. simpl in Hk. lia.
Qed.

(** Reading until the end gives everything, after at most one read per byte and
    one more. *)
Lemma read_all_exact sizes li :
  ok (li_rowBuffer li) -> Forall (fun n => (0 < n)%nat) sizes -> (length (content li) < length sizes)%nat ->
  read_all sizes li = Some (content li).
Proof.
  revert li. induction sizes as [|n sizes IH]; intros li Hok Hpos Hlen; [simpl in Hlen; lia|].
  apply Forall_cons in Hpos as [Hn Hpos]. simpl. pose proof (read_law n li Hok) as Hr.
  destruct (infile_read n li) as [out li']. destruct Hr as (Hok' & Hc & _ & Hend).
  destruct out as [|c out]; [by rewrite (Hend Hn eq_refl)|].
  rewrite IH; [simpl; by rewrite Hc|done|done|]. rewrite Hc in Hlen. simpl in Hlen. rewrite length_app in Hlen. lia.
Qed.
End infile.

(** ** [ProtoRowBuffer] implements the interface *)

(** The text of a column, a row and all rows. *)
Definition column_text (col : option bytes) : bytes :=
  match col with Some c => QUOTE :: escapeString c ++ [QUOTE] | None => nullToken end.
Definition row_text (jobIdStr : bytes) (rb : RowBundle) : bytes :=
  jobIdStr ++ concat (map (fun col => colSep ++ column_text col) rb).

Lemma copyRowBundle_text jobIdStr dest rb : copyRowBundle jobIdStr dest rb = dest ++ row_text jobIdStr rb.
Proof.
  unfold copyRowBundle, row_text. rewrite app_assoc. generalize (dest ++ jobIdStr) as d.
  induction rb as [|col rb IH]; intros d; simpl; [by rewrite app_nil_r|]. rewrite IH.
  destruct col; unfold copyColumn, colSep, nullToken; rewrite <- !app_assoc; simpl; by rewrite <- ?app_assoc.
Qed.

Definition pb_ok (b : ProtoRowBuffer) : Prop :=
  pb_jobIdStr b <> [] /\ (pb_currentRow b = [] -> (pb_rowTotal b <= pb_rowIdx b)%nat \/ pb_result b = []).
Definition pb_pending (b : ProtoRowBuffer) : bytes :=
  pb_currentRow b ++ concat (map (fun rb => rowSep ++ row_text (pb_jobIdStr b) rb) (drop (S (pb_rowIdx b)) (pb_result b))).

Lemma readNextRow_law b :
  pb_jobIdStr b <> [] -> pb_currentRow b = [] -> pb_ok (readNextRow b) /\ pb_pending (readNextRow b) = pb_pending b.
Proof.
  intros Hj Hrow. unfold readNextRow, pb_ok, pb_pending, pb_rowTotal. destruct (pb_result b !! S (pb_rowIdx b)) as [rb|] eqn:E; simpl.
  - rewrite copyRowBundle_text, Hrow. split; [done|]. rewrite (drop_S _ _ _ E). done.
  - apply lookup_ge_None in E. split; [auto|]. rewrite !drop_ge by lia. done.
Qed.

#[export] Instance ProtoRowBuffer_laws : RowBufferLaws ProtoRowBuffer pb_ok pb_pending.
Proof.
  split. intros n b [Hj Hok]. simpl.
  set (b0 := if (n <=? _)%nat then _ else _).
  assert (H0 : pb_jobIdStr b0.2 = pb_jobIdStr b /\ pb_result b0.2 = pb_result b /\ pb_rowIdx b0.2 = pb_rowIdx b /\
    pb_currentRow b = b0.1 ++ pb_currentRow b0.2 /\ (length b0.1 <= n)%nat /\ ((0 < n)%nat -> b0.1 = [] -> pb_currentRow b = [])).
  { unfold b0. destruct (Nat.leb_spec n (length (pb_currentRow b))); simpl; repeat (split; [done|]).
    - split; [by rewrite take_drop|]. split; [rewrite length_take; lia|]. intros Hn Hnil.
      apply (f_equal length) in Hnil. rewrite length_take in Hnil. simpl in Hnil. lia.
    - split; [by rewrite app_nil_r|]. split; [lia|done]. }
  destruct b0 as [out b1]. simpl in H0. destruct H0 as (Hj1 & Hr1 & Hi1 & Hc1 & Hlen & Hend).
  assert (Hp : pb_pending b = out ++ pb_pending b1).
  { unfold pb_pending. by rewrite Hj1, Hr1, Hi1, Hc1, <- app_assoc. }
  assert (Hempty : (0 < n)%nat -> out = [] -> pb_pending b = []).
  { intros Hn Ho. pose proof (Hend Hn Ho) as Hnil. unfold pb_pending. rewrite Hnil. simpl.
    destruct (Hok Hnil) as [Hge| ->]; [|done]. unfold pb_rowTotal in Hge. by rewrite drop_ge by lia. }
  destruct (pb_currentRow b1) as [|c row] eqn:Erow; simpl.
  - destruct (Nat.ltb_spec (pb_rowIdx b1) (pb_rowTotal b1)) as [Hlt|Hge].
    + destruct (readNextRow_law b1) as [Hok1 Hp1]; [by rewrite Hj1|done|]. split; [done|]. rewrite Hp1. done.
    + split; [|done]. split; [by rewrite Hj1|auto].
  - split; [|done]. split; [by rewrite Hj1|]. rewrite Erow. done.
Qed.

(** The text of a result: the rows, separated by newlines. *)
Definition file_text (res : list RowBundle) (jobId : Z) : bytes :=
  let jobIdStr := QUOTE :: list_ascii_of_string (to_string jobId) ++ [QUOTE] in
  match res with
  | [] => []
  | rb :: rest => row_text jobIdStr rb ++ concat (map (fun rb => rowSep ++ row_text jobIdStr rb) rest)
  end.

Lemma ctor_pending res jobId :
  pb_ok (ProtoRowBuffer_ctor res jobId) /\ pb_pending (ProtoRowBuffer_ctor res jobId) = file_text res jobId.
Proof.
  unfold pb_ok, pb_pending, file_text. destruct res as [|rb rest]; simpl; [split; [|done]; split; [done|auto]|].
  rewrite copyRowBundle_text. simpl. split; [done|]. by rewrite drop_0.
Qed.

(** ** The manager of virtual files *)

(** The names in use are the ones handed out so far. *)
Definition mgr_ok {B} (m : Mgr B) : Prop :=
  0 <= mg_sequence m < two64 - 1 /\
  forall s, is_Some (mg_map m !! s) -> exists k, 0 < k <= mg_sequence m /\ s = String.append "virtualinfile_" (to_string k).

Lemma insertBuffer_ok {B} (rb : B) m :
  mgr_ok m -> let '(m', f) := insertBuffer rb m in
  local_infile_init f m' = Ret (LocalInfile_ctor rb) /\
  (forall s rb', mg_map m !! s = Some rb' -> mg_map m' !! s = Some rb').
Proof.
  intros [Hseq Hmap]. unfold insertBuffer, nextFilename. rewrite wrap64_small by lia.
  set (f := String.append _ _). unfold mg_set, local_infile_init, mg_get. simpl.
  assert (Hf : mg_map m !! f = None).
  { destruct (mg_map m !! f) eqn:E; [|done]. destruct (Hmap f (mk_is_Some _ _ E)) as (k & Hk & He). unfold f in He.
    apply append_inv_head, to_string_inj in He. lia. }
  rewrite Hf. simpl. rewrite lookup_insert_eq. split; [done|]. intros s rb' Hs. rewrite lookup_insert_ne; [done|]. congruence.
Qed.

(** ** Reading the text back *)

(** How [LOAD DATA ... FIELDS ENCLOSED BY '\''] reads a file (MySQL reference
    manual): what a character stands for after a backslash, *)
Definition unescape_char (d : ascii) : ascii :=
  if Ascii.eqb d "0" then NUL else if Ascii.eqb d "b" then BS else if Ascii.eqb d "n" then LF
  else if Ascii.eqb d "r" then CR else if Ascii.eqb d "t" then TAB else if Ascii.eqb d "Z" then SUB else d.

(** whether a field ends here, *)
Definition at_end (l : bytes) : bool :=
  match l with [] => true | d :: _ => Ascii.eqb d TAB || Ascii.eqb d LF end.

Definition add_char (c : ascii) (x : bytes * bytes) : bytes * bytes := (c :: x.1, x.2).

(** the rest of a field after its opening quote: a doubled quote is a quote, and a
    quote ends the field only at the end of the field, *)
Fixpoint read_quoted (l : bytes) : bytes * bytes :=
  match l with
  | [] => ([], [])
  | c :: l' =>
      if Ascii.eqb c BACKSLASH then
        match l' with [] => ([c], []) | d :: l'' => add_char (unescape_char d) (read_quoted l'') end
      else if Ascii.eqb c QUOTE then
        if at_end l' then ([], l')
        else match l' with
             | [] => ([], [])
             | d :: l'' => if Ascii.eqb d QUOTE then add_char QUOTE (read_quoted l'') else add_char QUOTE (read_quoted l')
             end
      else add_char c (read_quoted l')
  end.

(** a field without quotes, *)
Fixpoint read_plain (l : bytes) : bytes * bytes :=
  match l with
  | [] => ([], [])
  | c :: l' =>
      if at_end l then ([], l)
      else if Ascii.eqb c BACKSLASH then
        match l' with [] => ([c], []) | d :: l'' => add_char (unescape_char d) (read_plain l'') end
      else add_char c (read_plain l')
  end.

(** a field, where a bare [\N] is [NULL], *)
Definition read_field (l : bytes) : option bytes * bytes :=
  match l with
  | c :: l' =>
      if Ascii.eqb c QUOTE then let '(v, r) := read_quoted l' in (Some v, r)
      else if bool_decide (take 2 l = nullToken) && at_end (drop 2 l) then (None, drop 2 l)
      else let '(v, r) := read_plain l in (Some v, r)
  | [] => (Some [], [])
  end.

Definition add_field (f : option bytes) (rows : list RowBundle) : list RowBundle :=
  match rows with row :: rows' => (f :: row) :: rows' | [] => [[f]] end.

(** and the rows of a file, of which each field is at least one step. *)
Fixpoint read_rows (fuel : nat) (l : bytes) : list RowBundle :=
  match fuel with
  | O => []
  | S fuel =>
      let '(f, r) := read_field l in
      match r with
      | [] => [[f]]
      | d :: r' => if Ascii.eqb d TAB then add_field f (read_rows fuel r')
                   else [f] :: (match r' with [] => [] | _ => read_rows fuel r' end)
      end
  end.

Definition load_data (l : bytes) : list RowBundle := match l with [] => [] | _ => read_rows (length l) l end.

(** No backslash at the end or before an [N], no quote at the end or before
    another quote: the code leaves these alone. *)
Fixpoint loadable (l : bytes) : bool :=
  match l with
  | [] => true
  | c :: l' =>
      (if Ascii.eqb c BACKSLASH then match l' with [] => false | d :: _ => negb (Ascii.eqb d "N") end
       else if Ascii.eqb c QUOTE then match l' with [] => false | d :: _ => negb (Ascii.eqb d QUOTE) end
       else true) && loadable l'
  end.

Definition row_loadable (rb : RowBundle) : bool := forallb (fun col => match col with Some c => loadable c | None => true end) rb.

Ltac ascii_case c x := destruct (Ascii.eqb_spec c x) as [?|?]; [subst c|].
Ltac ascii_cases c := ascii_case c NUL; [|ascii_case c BS; [|ascii_case c LF; [|ascii_case c CR; [|ascii_case c TAB; [|ascii_case c SUB]]]]].

(** What [escapeString] writes for a character. *)
Lemma escape_head d l :
  d <> QUOTE -> exists x t, escapeString (d :: l) = x :: t /\ x <> QUOTE /\ x <> TAB /\ x <> LF.
Proof.
  intros Hq. cbn [escapeString]. ascii_cases d; try (by eexists _, _).
  destruct (Ascii.eqb_spec d BACKSLASH) as [->|]; [|by eexists _, _].
  destruct l as [|e l]; [by eexists _, _|]. destruct (Ascii.eqb e "N"); by eexists _, _.
Qed.

Lemma read_quoted_escape l rest :
  loadable l = true -> at_end rest = true -> read_quoted (escapeString l ++ QUOTE :: rest) = (l, rest).
Proof.
  intros Hl Hr. induction l as [|c l IH]; [cbn; by rewrite Hr|].
  cbn [loadable] in Hl. apply andb_true_iff in Hl as [Hc Hl]. specialize (IH Hl). cbn [escapeString].
  ascii_cases c; try (cbn; by rewrite IH).
  destruct (Ascii.eqb_spec c BACKSLASH) as [->|Hb].
  - destruct l as [|d l]; [done|]. apply negb_true_iff in Hc. rewrite Hc.
    change (add_char BACKSLASH (read_quoted (escapeString (d :: l) ++ QUOTE :: rest)) = (BACKSLASH :: d :: l, rest)). by rewrite IH.
  - cbn [app read_quoted]. rewrite (proj2 (Ascii.eqb_neq c BACKSLASH) Hb).
    destruct (Ascii.eqb_spec c QUOTE) as [->|Hq]; [|by rewrite IH].
    destruct l as [|d l]; [done|]. apply negb_true_iff, Ascii.eqb_neq in Hc.
    destruct (escape_head d l Hc) as (x & t & Hx & Hxq & Hxt & Hxl). rewrite Hx in *. cbn [app at_end].
    rewrite (proj2 (Ascii.eqb_neq x TAB) Hxt), (proj2 (Ascii.eqb_neq x LF) Hxl), (proj2 (Ascii.eqb_neq x QUOTE) Hxq).
    cbn [orb]. cbn [app] in IH. by rewrite IH.
Qed.

Lemma read_field_column col rest :
  match col with Some c => loadable c | None => true end = true -> at_end rest = true ->
  read_field (column_text col ++ rest) = (col, rest).
Proof.
  intros Hc Hr. destruct col as [c|]; cbn [column_text].
  - cbn [app read_field]. rewrite <- app_assoc. cbn [app]. by rewrite read_quoted_escape.
  - change (nullToken ++ rest) with (BACKSLASH :: "N"%char :: rest). cbn [read_field].
    rewrite bool_decide_eq_true_2 by done. change (drop 2 _) with rest. by rewrite Hr.
Qed.

(** The job id is a loadable column that needs no escapes. *)
Lemma plain_text l :
  forallb (fun a => isdigit a || Ascii.eqb a "-") l = true -> escapeString l = l /\ loadable l = true.
Proof.
  induction l as [|c l IH]; [done|]. cbn [forallb]. intros [Hc Hl]%andb_true_iff. destruct (IH Hl) as [He Hd].
  assert (Hne : forall x, isdigit x || Ascii.eqb x "-" = false -> c <> x) by (intros x Hx ->; congruence).
  cbn [escapeString loadable]. rewrite He, Hd.
  repeat match goal with |- context [Ascii.eqb c ?x] => rewrite (proj2 (Ascii.eqb_neq c x) (Hne x eq_refl)) end. done.
Qed.

Definition jobId_text (jobId : Z) : bytes := list_ascii_of_string (to_string jobId).

Lemma jobId_plain jobId : escapeString (jobId_text jobId) = jobId_text jobId /\ loadable (jobId_text jobId) = true.
Proof.
  apply plain_text. unfold jobId_text. pose proof (to_string_chars jobId) as H. induction (to_string jobId) as [|a s IH]; [done|].
  cbn in *. apply andb_true_iff in H as [-> H]. by rewrite IH.
Qed.

Lemma row_text_columns jobId rb :
  row_text (QUOTE :: jobId_text jobId ++ [QUOTE]) rb =
  column_text (Some (jobId_text jobId)) ++ concat (map (fun col => TAB :: column_text col) rb).
Proof. unfold row_text. cbn [column_text]. by rewrite (proj1 (jobId_plain jobId)). Qed.

(** A row, up to its end: [rest] is nothing or the next rows. *)
Lemma read_rows_row col rb rest fuel :
  match col with Some c => loadable c | None => true end = true -> row_loadable rb = true ->
  match rest with [] => true | d :: r => Ascii.eqb d LF && negb (bool_decide (r = [])) end = true ->
  read_rows (S (length rb) + fuel) (column_text col ++ concat (map (fun col => TAB :: column_text col) rb) ++ rest) =
  (col :: rb) :: (match rest with [] => [] | _ :: r => read_rows fuel r end).
Proof.
  revert col. induction rb as [|col' rb IH]; intros col Hc Hrb Hrest.
  - cbn [length map concat app Nat.add read_rows]. destruct rest as [|d r].
    + by rewrite read_field_column.
    + apply andb_true_iff in Hrest as [Hd%Ascii.eqb_eq Hr]. subst d.
      rewrite read_field_column by done. cbn. destruct r; [done|]. done.
  - cbn [row_loadable forallb] in Hrb. apply andb_true_iff in Hrb as [Hc' Hrb].
    change (S (length (col' :: rb)) + fuel)%nat with (S (S (length rb) + fuel)). cbn [map concat app].
    rewrite <- app_assoc. unfold read_rows at 1. fold read_rows. rewrite read_field_column by done.
    cbn [Ascii.eqb TAB]. change (Ascii.eqb TAB TAB) with true. cbn iota. by rewrite IH.
Qed.

(** How many fields a file has. *)
Definition fields (res : list RowBundle) : nat := list_sum (map (fun rb => S (length rb)) res).

Lemma fields_cons rb res : fields (rb :: res) = (S (length rb) + fields res)%nat.
Proof. done. Qed.

Lemma read_rows_file jobId rest rb fuel :
  row_loadable rb = true -> forallb row_loadable rest = true -> (fields (rb :: rest) <= fuel)%nat ->
  read_rows fuel (file_text (rb :: rest) jobId) = map (fun rb => Some (jobId_text jobId) :: rb) (rb :: rest).
Proof.
  destruct (jobId_plain jobId) as [_ Hj]. revert rb fuel.
  induction rest as [|rb' rest IH]; intros rb fuel Hrb Hrest Hfuel; unfold file_text; fold (jobId_text jobId); cbn zeta;
    rewrite row_text_columns, <- app_assoc; rewrite fields_cons in Hfuel.
  - replace fuel with (S (length rb) + (fuel - S (length rb)))%nat by lia. by rewrite read_rows_row.
  - apply andb_true_iff in Hrest as [Hrb' Hrest].
    replace fuel with (S (length rb) + (fuel - S (length rb)))%nat by lia. rewrite read_rows_row by done.
    cbn [map]. f_equal. refine (IH rb' _ Hrb' Hrest _). lia.
Qed.

Lemma row_text_steps jobIdStr rb : jobIdStr <> [] -> (S (length rb) <= length (row_text jobIdStr rb))%nat.
Proof.
  intros Hj. unfold row_text. rewrite length_app. assert (0 < length jobIdStr)%nat by (destruct jobIdStr; [done|simpl; lia]).
  assert (length rb <= length (concat (map (fun col => colSep ++ column_text col) rb)))%nat; [|lia].
  induction rb as [|col rb IH]; [done|]. cbn [map concat]. rewrite !length_app. change (length colSep) with 1%nat. cbn [length]. lia.
Qed.

Lemma file_text_steps jobId res : (fields res <= length (file_text res jobId))%nat.
Proof.
  destruct res as [|rb rest]; [done|]. unfold file_text. cbn zeta. set (j := QUOTE :: _).
  assert (Hj : j <> []) by done. rewrite length_app, fields_cons. pose proof (row_text_steps j rb Hj).
  enough (fields rest <= length (concat (map (fun rb => rowSep ++ row_text j rb) rest)))%nat by lia.
  clear H. induction rest as [|rb' rest IH]; [done|]. cbn [map concat]. rewrite !length_app, fields_cons.
  pose proof (row_text_steps j rb' Hj). lia.
Qed.

(** ** Theorems *)

(** A result that is registered as a virtual file is read back completely:
    whatever positive sizes the client asks for, it receives the text of all rows
    and then the end of the file, after at most one read per byte and one more. *)
Theorem infile_text_exact (res : list RowBundle) (jobId : Z) (m : Mgr ProtoRowBuffer) (sizes : list nat) :
  mgr_ok m -> Forall (fun n => (0 < n)%nat) sizes -> (length (file_text res jobId) < length sizes)%nat ->
  let '(m', f) := insertBuffer (ProtoRowBuffer_ctor res jobId) m in
  exists li, local_infile_init f m' = Ret li /\ read_all sizes li = Some (file_text res jobId).
Proof.
  intros Hm Hpos Hlen. pose proof (insertBuffer_ok (ProtoRowBuffer_ctor res jobId) m Hm) as H.
  destruct (insertBuffer _ m) as [m' f]. destruct H as [Hi _]. eexists. split; [exact Hi|].
  destruct (ctor_pending res jobId) as [Hok Hp].
  assert (Hc : content pb_pending (LocalInfile_ctor (ProtoRowBuffer_ctor res jobId)) = file_text res jobId) by exact Hp.
  rewrite <- Hc. apply (read_all_exact pb_ok pb_pending); [done|done|]. by rewrite Hc.
Qed.


Definition demo_rows : list RowBundle := [[Some ["a"%char; TAB]; None]; [Some []]].

Lemma infile_text_exact_witness :
  exists li, local_infile_init "virtualinfile_1" (insertBuffer (ProtoRowBuffer_ctor demo_rows 7) (mkMgr ∅ 0)).1 = Ret li /\
    read_all (repeat 3%nat 30) li = Some (file_text demo_rows 7).
Proof.
  pose proof (infile_text_exact demo_rows 7 (mkMgr ∅ 0) (repeat 3%nat 30)) as H.
  apply H; [|by repeat constructor|vm_compute; lia].
  split; [vm_compute; split; [discriminate|reflexivity]|]. intros s Hs. exfalso. vm_compute in Hs. by destruct Hs.
Defined.


(** The closing quote of a column that ends with a backslash is escaped, so the
    next column becomes a part of it; a doubled quote becomes a single one. *)
Example trailing_backslash :
  load_data (file_text [[Some [BACKSLASH]; Some ["a"%char]]] 7) = [[Some ["7"%char]; Some [QUOTE; TAB; QUOTE; "a"%char]]].
Proof. vm_compute. reflexivity. Qed.

Example doubled_quote : load_data (file_text [[Some [QUOTE; QUOTE; "a"%char]]] 7) = [[Some ["7"%char]; Some [QUOTE; "a"%char]]].
Proof. vm_compute. reflexivity. Qed.
