(* ===== verification/ChunkResource.v ===== *)
(** * Sub-chunk tables of a worker

    [wdb/ChunkResource.h] and [.cc], [wdb/SQLBackend.h] and [.cc].  Queries that
    join a table with its neighbourhood use temporary tables per sub-chunk.  The
    manager counts the users of each such table, has the backend create it for
    the first and drop it after the last.

    Every method holds its mutex throughout and is one function; methods that
    may throw after changing their object return the changed object with the
    outcome.  The order in which [flush] visits the tables is the one of
    [map_to_list].  The SQL server is a parameter ([SqlServer]).  Not modelled:
    the SQL text of the scripts, taking and giving up the lock on the tables at
    start and end of the program, logging. *)

From Stdlib Require Import Ascii String.
From S2P Require Import Prelude.
From S2P Require Import StdString.

Local Open Scope Z_scope.

(** [struct DbTable] of [global/DbTable.h]: database and table. *)
Definition DbTable : Type := string * string.

(** [struct ScTable]: chunk, table, sub-chunk. *)
Definition ScTable : Type := Z * DbTable * Z.

Implicit Types (t : DbTable) (v : list ScTable) (sc : list Z).

(** ** [class SQLBackend] *)

(** [bool load(v, err)], [void discard(v)] and [void memLockRequireOwnership()] *)
Class Backend (K : Type) := {
  be_load : list ScTable -> K -> K * outcome bool;
  be_discard : list ScTable -> K -> K * outcome unit;
  be_memLockRequireOwnership : K -> outcome unit;
}.

(** [enum LockStatus] *)
Inductive LockStatus := UNLOCKED | LOCKED_OTHER | LOCKED_OURS.

(** The server: running the script that creates or drops the tables of a
    sub-chunk, with whether it succeeds, and the owner of the lock. *)
Class SqlServer (S : Type) := {
  sv_create : ScTable -> S -> S * bool;
  sv_drop : ScTable -> S -> S * bool;
  sv_memLockStatus : S -> LockStatus;
}.

Record SQLBackend (S : Type) := mkSQLBackend { sb_server : S }.
Arguments mkSQLBackend {S}.
Arguments sb_server {S}.

Section sql_backend.
Context {S : Type} `{SqlServer S}.
Implicit Types (k : SQLBackend S).

Definition memLockRequireOwnership k : outcome unit :=
  match sv_memLockStatus (sb_server k) with LOCKED_OURS => Ret tt | _ => Raise ProgramExit end.

(** [_discard(begin, end)] *)
Fixpoint discard_loop v k : SQLBackend S * outcome unit :=
  match v with
  | [] => (k, Ret tt)
  | x :: v' =>
      let '(s, ok) := sv_drop x (sb_server k) in
      if ok : bool then discard_loop v' (mkSQLBackend s) else (mkSQLBackend s, Raise SqlError)
  end.
Definition sb_discard v k : SQLBackend S * outcome unit :=
  match memLockRequireOwnership k with
  | Raise e => (k, Raise e)
  | Ret _ => discard_loop v k
  end.

(** The loop of [load]; [done] are the tables created so far. *)
Fixpoint load_loop (done v : list ScTable) k : SQLBackend S * outcome bool :=
  match v with
  | [] => (k, Ret true)
  | x :: v' =>
      let '(s, ok) := sv_create x (sb_server k) in
      if ok : bool then load_loop (done ++ [x]) v' (mkSQLBackend s)
      else match sb_discard done (mkSQLBackend s) with
           | (k', Ret _) => (k', Ret false)
           | (k', Raise e) => (k', Raise e)
           end
  end.
Definition sb_load v k : SQLBackend S * outcome bool :=
  match memLockRequireOwnership k with
  | Raise e => (k, Raise e)
  | Ret _ => load_loop [] v k
  end.

#[export] Instance SQLBackend_backend : Backend (SQLBackend S) := {
  be_load := sb_load;
  be_discard := sb_discard;
  be_memLockRequireOwnership := memLockRequireOwnership;
}.
End sql_backend.

(** [class FakeBackend] *)
Record FakeSqlBackend := mkFakeSqlBackend { fakeSet : gset string }.

(** [makeFakeKey(sctbl)] *)
Definition makeFakeKey (x : ScTable) : string :=
  let '(chunkId, t, subChunkId) := x in
  (t.1 +:+ ":" +:+ to_string chunkId +:+ ":" +:+ t.2 +:+ ":" +:+ to_string subChunkId)%string.

#[export] Instance FakeSqlBackend_backend : Backend FakeSqlBackend := {
  be_load v k := (mkFakeSqlBackend (fakeSet k ∪ list_to_set (map makeFakeKey v)), Ret true);
  be_discard v k := (mkFakeSqlBackend (fakeSet k ∖ list_to_set (map makeFakeKey v)), Ret tt);
  be_memLockRequireOwnership _ := Ret tt;
}.

(** ** [class ChunkEntry] *)

Abbreviation SubChunkMap := (gmap Z Z).
Abbreviation TableMap := (gmap DbTable SubChunkMap).

Implicit Types (tm : TableMap) (scm : SubChunkMap).

Record ChunkEntry := mkChunkEntry { ce_chunkId : Z; ce_refCount : Z; ce_tableMap : TableMap }.

Implicit Types (ce : ChunkEntry).

Definition ChunkEntry_ctor (chunkId : Z) : ChunkEntry := mkChunkEntry chunkId 0 ∅.

(** [_tableMap[dbTbl]] *)
Definition sub_map t tm : SubChunkMap := default ∅ (tm !! t).

(** The body of the loop of [acquire] over the sub-chunks. *)
Definition acquire_one (chunkId : Z) t (x : TableMap * list ScTable) (s : Z) : TableMap * list ScTable :=
  let scm := sub_map t x.1 in
  let '(last, needed) := match scm !! s with
                         | None => (0, x.2 ++ [(chunkId, t, s)])
                         | Some n => (n, x.2)
                         end in
  (<[t := <[s := last + 1]> scm]> x.1, needed).

(** The loops of [acquire]. *)
Definition acquire_table (chunkId : Z) sc (x : TableMap * list ScTable) t : TableMap * list ScTable :=
  foldl (acquire_one chunkId t) (<[t := sub_map t x.1]> x.1, x.2) sc.
Definition acquire_tables (chunkId : Z) (ts : list DbTable) sc tm : TableMap * list ScTable :=
  foldl (acquire_table chunkId sc) (tm, []) ts.

(** [void _release(ScTableVector const& needed)] *)
Definition release_needed (needed : list ScTable) tm : TableMap :=
  foldl (fun tm x => let '(_, t, s) := x in
    let scm := sub_map t tm in <[t := <[s := default 0 (scm !! s) - 1]> scm]> tm) tm needed.

(** The loops of [release], with whether [Bug] is not thrown. *)
Fixpoint release_subs t sc tm : TableMap * bool :=
  match sc with
  | [] => (tm, true)
  | s :: sc' =>
      let scm := sub_map t tm in
      match scm !! s with
      | None => (tm, false)
      | Some n => release_subs t sc' (<[t := <[s := n - 1]> scm]> tm)
      end
  end.
Fixpoint release_tables (ts : list DbTable) sc tm : TableMap * bool :=
  match ts with
  | [] => (tm, true)
  | t :: ts' =>
      let '(tm', ok) := release_subs t sc (<[t := sub_map t tm]> tm) in
      if ok : bool then release_tables ts' sc tm' else (tm', false)
  end.

(** The sub-chunks of a table that nobody uses. *)
Definition unused scm : list Z := (filter (fun x => x.2 = 0) (map_to_list scm)).*1.

(** The loops of [flush]: the table map, and what can be discarded. *)
Fixpoint flush_tables (chunkId : Z) (l : list (DbTable * SubChunkMap)) tm : TableMap * outcome (list ScTable) :=
  match l with
  | [] => (tm, Ret [])
  | (t, scm) :: l' =>
      if existsb (fun x => x.2 <? 0) (map_to_list scm) then (tm, Raise BugException)
      else
        let '(tm', o) := flush_tables chunkId l' (<[t := foldr delete scm (unused scm)]> tm) in
        (tm', let? d := o in Ret (map (fun s => (chunkId, t, s)) (unused scm) ++ d))
  end.

Section entry.
Context {K : Type} `{Backend K}.
Implicit Types (k : K).

(** [void flush(db, backend)] *)
Definition ce_flush ce k : ChunkEntry * K * outcome unit :=
  match be_memLockRequireOwnership k with
  | Raise e => (ce, k, Raise e)
  | Ret _ =>
      let '(tm, o) := flush_tables (ce_chunkId ce) (map_to_list (ce_tableMap ce)) (ce_tableMap ce) in
      let ce' := mkChunkEntry (ce_chunkId ce) (ce_refCount ce) tm in
      match o with
      | Raise e => (ce', k, Raise e)
      | Ret [] => (ce', k, Ret tt)
      | Ret d => let '(k', r) := be_discard d k in (ce', k', r)
      end
  end.

(** [void acquire(db, dbTableSet, sc, backend)] *)
Definition ce_acquire (ts : list DbTable) sc ce k : ChunkEntry * K * outcome unit :=
  match be_memLockRequireOwnership k with
  | Raise e => (ce, k, Raise e)
  | Ret _ =>
      let '(tm, needed) := acquire_tables (ce_chunkId ce) ts sc (ce_tableMap ce) in
      let ce' tm := mkChunkEntry (ce_chunkId ce) (ce_refCount ce + 1) tm in
      match needed with
      | [] => (ce' tm, k, Ret tt)
      | _ =>
          match be_load needed k with
          | (k', Ret true) => (ce' tm, k', Ret tt)
          | (k', Ret false) => (ce' (release_needed needed tm), k', Raise SqlError)
          | (k', Raise e) => (ce' tm, k', Raise e)
          end
      end
  end.

(** [void release(db, dbTableSet, sc, backend)] *)
Definition ce_release (ts : list DbTable) sc ce k : ChunkEntry * K * outcome unit :=
  match be_memLockRequireOwnership k with
  | Raise e => (ce, k, Raise e)
  | Ret _ =>
      let '(tm, ok) := release_tables ts sc (ce_tableMap ce) in
      if ok : bool then ce_flush (mkChunkEntry (ce_chunkId ce) (ce_refCount ce - 1) tm) k
      else (mkChunkEntry (ce_chunkId ce) (ce_refCount ce) tm, k, Raise BugException)
  end.
End entry.

(** ** [class ChunkResourceMgr] *)

(** [class ChunkResource::Info]; [in_tables] is a set. *)
Record Info := mkInfo {
  in_db : string;
  in_chunkId : Z;
  in_tables : list DbTable;
  in_subChunkIds : list Z;
}.

Record ChunkResourceMgr (K : Type) := mkChunkResourceMgr {
  cm_dbMap : gmap string (gmap Z ChunkEntry);
  cm_backend : K;
}.
Arguments mkChunkResourceMgr {K}.
Arguments cm_dbMap {K}.
Arguments cm_backend {K}.

Section mgr.
Context {K : Type} `{Backend K}.
Implicit Types (m : ChunkResourceMgr K) (i : Info).

Definition newMgr (k : K) : ChunkResourceMgr K := mkChunkResourceMgr ∅ k.

(** [_getMap(db)] and [_getChunkEntry(m, chunkId)] *)
Definition getMap (db : string) m : gmap Z ChunkEntry := default ∅ (cm_dbMap m !! db).
Definition getChunkEntry (db : string) (chunkId : Z) m : ChunkEntry :=
  default (ChunkEntry_ctor chunkId) (getMap db m !! chunkId).
Definition setChunkEntry (db : string) (chunkId : Z) ce k m : ChunkResourceMgr K :=
  mkChunkResourceMgr (<[db := <[chunkId := ce]> (getMap db m)]> (cm_dbMap m)) k.

(** [void acquireUnit(ChunkResource::Info const& i)] *)
Definition acquireUnit i m : ChunkResourceMgr K * outcome unit :=
  let '(ce, k, r) := ce_acquire (in_tables i) (in_subChunkIds i) (getChunkEntry (in_db i) (in_chunkId i) m) (cm_backend m) in
  (setChunkEntry (in_db i) (in_chunkId i) ce k m, r).

(** [void release(ChunkResource::Info const& i)] *)
Definition cm_release i m : ChunkResourceMgr K * outcome unit :=
  let '(ce, k, r) := ce_release (in_tables i) (in_subChunkIds i) (getChunkEntry (in_db i) (in_chunkId i) m) (cm_backend m) in
  (setChunkEntry (in_db i) (in_chunkId i) ce k m, r).

(** [int getRefCount(db, chunkId)] *)
Definition getRefCount (db : string) (chunkId : Z) m : Z :=
  match getMap db m !! chunkId with None => 0 | Some ce => ce_refCount ce end.

(** ** [class ChunkResource] *)

(** The manager with the resources that are alive. *)
Record Resources := mkResources { rs_mgr : ChunkResourceMgr K; rs_live : list Info }.

Implicit Types (w : Resources).

(** [acquire(db, chunkId, tables)] and [acquire(db, chunkId, tables, subChunks)]:
    the constructor of a resource. *)
Definition resource_acquire (db : string) (chunkId : Z) (ts : list DbTable) sc w : Resources * outcome unit :=
  let i := mkInfo db chunkId ts sc in
  let '(m, r) := acquireUnit i (rs_mgr w) in
  (mkResources m (match r with Ret _ => rs_live w ++ [i] | Raise _ => rs_live w end), r).

(** [ChunkResource(ChunkResource const& cr)] *)
Definition resource_copy (n : nat) w : Resources * outcome unit :=
  match rs_live w !! n with
  | None => (w, Raise UndefinedBehaviour)
  | Some i =>
      let '(m, r) := acquireUnit i (rs_mgr w) in
      (mkResources m (match r with Ret _ => rs_live w ++ [i] | Raise _ => rs_live w end), r)
  end.

(** [~ChunkResource()] *)
Definition resource_destroy (n : nat) w : Resources * outcome unit :=
  match rs_live w !! n with
  | None => (w, Raise UndefinedBehaviour)
  | Some i => let '(m, r) := cm_release i (rs_mgr w) in (mkResources m (delete n (rs_live w)), r)
  end.

(** [operator=]: the resource of the left hand side is not released. *)
Definition resource_assign (n n' : nat) w : Resources * outcome unit :=
  match rs_live w !! n, rs_live w !! n' with
  | Some _, Some i =>
      let '(m, r) := acquireUnit i (rs_mgr w) in (mkResources m (<[n := i]> (rs_live w)), r)
  | _, _ => (w, Raise UndefinedBehaviour)
  end.
End mgr.
Arguments Resources : clear implicits.
