(* ===== verification/ChunkResourceThms.v ===== *)
(** * Theorems on sub-chunk tables

    The counts of the manager are exact, so the tables of a resource exist as
    long as the resource is alive, and none is left when no resource is. *)

From Stdlib Require Import Ascii String.
From S2P Require Import Prelude.
From S2P Require Import StdString.
From S2P Require Import ChunkResource.

Local Open Scope Z_scope.

Implicit Types (t : DbTable) (s : Z) (sc : list Z) (tm : TableMap) (scm : SubChunkMap) (ts : list DbTable) (i : Info).

(** ** What managers rely on *)

Class BackendLaws (K : Type) `{Backend K} (tables : K -> gset ScTable) : Prop := {
  load_law v k k' : be_load v k = (k', Ret true) -> tables k' = tables k ∪ list_to_set v;
  discard_law v k k' : be_discard v k = (k', Ret tt) -> tables k' = tables k ∖ list_to_set v;
}.

(** A server that keeps the tables that it was told to create. *)
Class SqlServerLaws (S : Type) `{SqlServer S} (tables : S -> gset ScTable) : Prop := {
  create_law x v v' : sv_create x v = (v', true) -> tables v' = tables v ∪ {[x]};
  drop_law x v v' : sv_drop x v = (v', true) -> tables v' = tables v ∖ {[x]};
}.

Section sql_backend.
Context {S : Type} `{SqlServer S} (tables : S -> gset ScTable) `{!SqlServerLaws S tables}.

Lemma discard_loop_law v (k k' : SQLBackend S) :
  discard_loop v k = (k', Ret tt) -> tables (sb_server k') = tables (sb_server k) ∖ list_to_set v.
Proof.
  revert k. induction v as [|x v IH]; intros k; simpl; [intros [= <-]; set_solver|].
  destruct (sv_drop x (sb_server k)) as [s [|]] eqn:E; [|done]. intros ->%IH. simpl. rewrite (drop_law _ _ _ E). set_solver.
Qed.

Lemma load_loop_law done v (k k' : SQLBackend S) :
  load_loop done v k = (k', Ret true) -> tables (sb_server k') = tables (sb_server k) ∪ list_to_set v.
Proof.
  revert done k. induction v as [|x v IH]; intros done k; simpl; [intros [= <-]; set_solver|].
  destruct (sv_create x (sb_server k)) as [s [|]] eqn:E.
  - intros ->%IH. simpl. rewrite (create_law _ _ _ E). set_solver.
  - destruct (sb_discard done _) as [k1 [|]]; done.
Qed.

#[export] Instance SQLBackend_laws : BackendLaws (SQLBackend S) (fun k => tables (sb_server k)).
Proof.
  split; intros v k k'; simpl; unfold sb_load, sb_discard; destruct (memLockRequireOwnership k); try done.
  - apply load_loop_law.
  - apply discard_loop_law.
Qed.
End sql_backend.

(** ** Counts in a table map *)

Definition get tm t s : option Z := sub_map t tm !! s.

Lemma get_insert tm t scm t' s : get (<[t := scm]> tm) t' s = if decide (t = t') then scm !! s else get tm t' s.
Proof. unfold get, sub_map. case_decide as E; [subst; by rewrite lookup_insert_eq|by rewrite lookup_insert_ne]. Qed.

Lemma get_touch tm t t' s : get (<[t := sub_map t tm]> tm) t' s = get tm t' s.
Proof. rewrite get_insert. case_decide as E; [by subst|done]. Qed.

Lemma get_set tm t s n t' s' :
  get (<[t := <[s := n]> (sub_map t tm)]> tm) t' s' = if decide ((t, s) = (t', s')) then Some n else get tm t' s'.
Proof.
  rewrite get_insert. destruct (decide (t = t')) as [<-|Ht].
  - destruct (decide (s = s')) as [<-|Hs]; [rewrite lookup_insert_eq, decide_True by done; done|].
    rewrite lookup_insert_ne, decide_False by (done || congruence). done.
  - by rewrite decide_False by congruence.
Qed.

(** How often a list has an element. *)
Fixpoint occurs s sc : Z := match sc with [] => 0 | x :: sc' => (if decide (x = s) then 1 else 0) + occurs s sc' end.

Lemma occurs_nonneg s sc : 0 <= occurs s sc.
Proof. induction sc as [|x sc IH]; simpl; [lia|]. case_decide; lia. Qed.

Lemma occurs_pos s sc : 0 < occurs s sc <-> s ∈ sc.
Proof.
  induction sc as [|x sc IH]; simpl; [split; [lia|by intros ?%elem_of_nil]|]. rewrite elem_of_cons. pose proof (occurs_nonneg s sc).
  case_decide as E; [split; [auto|lia]|]. rewrite <- IH. split; [right; lia|intros [->|]; [done|lia]].
Qed.

(** ** [acquire] *)

(** The count of a pair after [n] more uses; without uses nothing is created. *)
Definition bump (n : Z) (o : option Z) : option Z := if n =? 0 then o else Some (default 0 o + n).

Lemma bump_add n m o : 0 <= n -> 0 <= m -> bump n (bump m o) = bump (n + m) o.
Proof.
  intros Hn Hm. unfold bump. destruct (Z.eqb_spec n 0), (Z.eqb_spec m 0), (Z.eqb_spec (n + m) 0); simpl; subst; try lia; try done; f_equal; lia.
Qed.

Lemma acquire_subs_spec chunkId t sc tm nd :
  let '(tm', nd') := foldl (acquire_one chunkId t) (tm, nd) sc in
  (forall t' s, get tm' t' s = if decide (t = t') then bump (occurs s sc) (get tm t' s) else get tm t' s) /\
  (forall x, x ∈ nd' <-> x ∈ nd \/ exists s, x = (chunkId, t, s) /\ s ∈ sc /\ get tm t s = None).
Proof.
  revert tm nd. induction sc as [|s0 sc IH]; intros tm nd; simpl.
  { split; [intros; by case_decide|]. intros x. set_solver. }
  unfold acquire_one at 2. simpl. fold (get tm t s0).
  set (p := match get tm t s0 with None => _ | Some n => _ end).
  assert (Hp : p.1 = default 0 (get tm t s0) /\
    forall x, x ∈ p.2 <-> x ∈ nd \/ (x = (chunkId, t, s0) /\ get tm t s0 = None)).
  { unfold p. destruct (get tm t s0); simpl; (split; [done|]); intros x; [naive_solver|]. rewrite elem_of_app, list_elem_of_singleton. naive_solver. }
  destruct p as [last nd1]. simpl in Hp. destruct Hp as [-> Hnd].
  set (tm1 := <[t := _]> tm). specialize (IH tm1 nd1). destruct (foldl _ (tm1, nd1) sc) as [tm' nd'].
  assert (Hget : forall t' s, get tm1 t' s = if decide (t = t') then bump (if decide (s0 = s) then 1 else 0) (get tm t' s) else get tm t' s).
  { intros t' s. unfold tm1. rewrite get_set. destruct (decide (t = t')) as [<-|Ht]; [|by rewrite decide_False by congruence].
    destruct (decide (s0 = s)) as [<-|Hs]; [by rewrite decide_True|by rewrite decide_False by congruence]. }
  destruct IH as [IH1 IH2]. split.
  - intros t' s. rewrite IH1, Hget. case_decide; [|done]. rewrite bump_add; [f_equal; lia|apply occurs_nonneg|by case_decide].
  - intros x. rewrite IH2, Hnd. setoid_rewrite Hget. split.
    + intros [[Hx|[-> Hn]]|(s & -> & Hs & Hn)]; [auto| |].
      * right. exists s0. split; [done|]. split; [by left|done].
      * right. exists s. split; [done|]. split; [by right|]. rewrite decide_True in Hn by done. unfold bump in Hn.
        by destruct (decide (s0 = s)).
    + intros [Hx|(s & -> & [->|Hs]%elem_of_cons & Hn)]; [auto|eauto|]. destruct (decide (s0 = s)) as [<-|Hne]; [eauto|].
      right. exists s. split; [done|]. split; [done|]. by rewrite decide_True, decide_False.
Qed.

Lemma acquire_tables_gen chunkId ts sc tm nd :
  NoDup ts ->
  let '(tm', nd') := foldl (acquire_table chunkId sc) (tm, nd) ts in
  (forall t s, get tm' t s = if decide (t ∈ ts) then bump (occurs s sc) (get tm t s) else get tm t s) /\
  (forall x, x ∈ nd' <-> x ∈ nd \/ exists t s, x = (chunkId, t, s) /\ t ∈ ts /\ s ∈ sc /\ get tm t s = None).
Proof.
  revert tm nd. induction ts as [|t0 ts IH]; intros tm nd Hn; cbn [foldl].
  { split; [intros t s; case_decide as E; [by apply elem_of_nil in E|done]|]. intros x. set_solver. }
  apply NoDup_cons in Hn as [Hnin Hn]. unfold acquire_table at 2. simpl.
  pose proof (acquire_subs_spec chunkId t0 sc (<[t0 := sub_map t0 tm]> tm) nd) as Hs.
  destruct (foldl (acquire_one chunkId t0) _ sc) as [tm1 nd1]. destruct Hs as [H1 H2].
  specialize (IH tm1 nd1 Hn). destruct (foldl _ (tm1, nd1) ts) as [tm' nd']. destruct IH as [IH1 IH2]. split.
  - intros t s. rewrite IH1, H1, get_touch. destruct (decide (t0 = t)) as [<-|Hne].
    + rewrite decide_False by done. by rewrite decide_True by set_solver.
    + destruct (decide (t ∈ ts)); [by rewrite decide_True by set_solver|by rewrite decide_False by set_solver].
  - intros x. rewrite IH2, H2. setoid_rewrite H1. setoid_rewrite get_touch. split.
    + intros [[Hx|(s & -> & Hs & Hg)]|(t & s & -> & Ht & Hs & Hg)]; [auto| |].
      * right. exists t0, s. split; [done|]. split; [by left|done].
      * right. exists t, s. split; [done|]. split; [by right|]. rewrite decide_False, get_touch in Hg by (intros <-; done). done.
    + intros [Hx|(t & s & -> & [->|Ht]%elem_of_cons & Hs & Hg)]; [auto|left; right; eauto|]. right. exists t, s.
      repeat (split; [done|]). by rewrite decide_False, ?get_touch by (intros <-; done).
Qed.

Lemma acquire_tables_spec chunkId ts sc tm :
  NoDup ts ->
  let '(tm', nd) := acquire_tables chunkId ts sc tm in
  (forall t s, get tm' t s = if decide (t ∈ ts) then bump (occurs s sc) (get tm t s) else get tm t s) /\
  (forall x, x ∈ nd <-> exists t s, x = (chunkId, t, s) /\ t ∈ ts /\ s ∈ sc /\ get tm t s = None).
Proof.
  intros Hn. pose proof (acquire_tables_gen chunkId ts sc tm [] Hn) as H. unfold acquire_tables.
  destruct (foldl _ _ ts) as [tm' nd]. destruct H as [H1 H2]. split; [done|]. intros x. rewrite H2. set_solver.
Qed.

(** ** [release] *)

Lemma release_subs_spec t sc tm :
  (forall s, s ∈ sc -> is_Some (get tm t s)) ->
  exists tm', release_subs t sc tm = (tm', true) /\
    forall t' s, get tm' t' s = if decide (t = t') then (fun n => n - occurs s sc) <$> get tm t' s else get tm t' s.
Proof.
  revert tm. induction sc as [|s0 sc IH]; intros tm Hall; simpl.
  - exists tm. split; [done|]. intros t' s. case_decide; [|done]. destruct (get tm t' s); simpl; [f_equal; lia|done].
  - destruct (Hall s0 ltac:(by left)) as [n Hn]. unfold get in Hn. rewrite Hn.
    set (tm1 := <[t := _]> tm).
    assert (Hget : forall t' s, get tm1 t' s = if decide ((t, s0) = (t', s)) then Some (n - 1) else get tm t' s)
      by (intros; apply get_set).
    destruct (IH tm1) as (tm' & -> & H1).
    { intros s Hs. rewrite Hget. case_decide; [eauto|]. apply Hall. by right. }
    exists tm'. split; [done|]. intros t' s. rewrite H1, !Hget. destruct (decide (t = t')) as [<-|Ht].
    + destruct (decide (s0 = s)) as [<-|Hs]; [|by rewrite decide_False by congruence].
      rewrite decide_True by done. unfold get. rewrite Hn. simpl. f_equal. lia.
    + by rewrite decide_False by congruence.
Qed.

Lemma release_tables_spec ts sc tm :
  NoDup ts -> (forall t s, t ∈ ts -> s ∈ sc -> is_Some (get tm t s)) ->
  exists tm', release_tables ts sc tm = (tm', true) /\
    forall t s, get tm' t s = if decide (t ∈ ts) then (fun n => n - occurs s sc) <$> get tm t s else get tm t s.
Proof.
  revert tm. induction ts as [|t0 ts IH]; intros tm Hn Hall; cbn [release_tables].
  { exists tm. split; [done|]. intros t s. case_decide as E; [by apply elem_of_nil in E|done]. }
  apply NoDup_cons in Hn as [Hnin Hn].
  destruct (release_subs_spec t0 sc (<[t0 := sub_map t0 tm]> tm)) as (tm1 & -> & H1).
  { intros s Hs. rewrite get_touch. apply Hall; [by left|done]. }
  assert (H1' : forall t s, get tm1 t s = if decide (t0 = t) then (fun n => n - occurs s sc) <$> get tm t s else get tm t s)
    by (intros t s; by rewrite H1, !get_touch).
  clear H1. rename H1' into H1. destruct (IH tm1 Hn) as (tm' & -> & H2).
  { intros t s Ht Hs. rewrite H1, decide_False by (intros <-; done). apply Hall; [by right|done]. }
  exists tm'. split; [done|]. intros t s. rewrite H2, H1. destruct (decide (t0 = t)) as [<-|Hne].
  - rewrite decide_False by done. by rewrite decide_True by set_solver.
  - destruct (decide (t ∈ ts)); [by rewrite decide_True by set_solver|by rewrite decide_False by set_solver].
Qed.

(** ** [flush] *)

Definition prune (o : option Z) : option Z := match o with Some 0 => None | _ => o end.

Lemma lookup_foldr_delete (l : list Z) scm s : foldr delete scm l !! s = if decide (s ∈ l) then None else scm !! s.
Proof.
  induction l as [|x l IH]; cbn [foldr]; [case_decide as E; [by apply elem_of_nil in E|done]|].
  destruct (decide (x = s)) as [->|Hne].
  - by rewrite lookup_delete_eq, decide_True by by left.
  - rewrite lookup_delete_ne, IH by done. destruct (decide (s ∈ l)); [by rewrite decide_True by by right|].
    by rewrite decide_False by set_solver.
Qed.

Lemma elem_of_unused scm s : s ∈ unused scm <-> scm !! s = Some 0.
Proof.
  unfold unused. rewrite list_elem_of_fmap. split.
  - intros ([s' n] & -> & [Hn Hin]%list_elem_of_filter). simpl in *. subst n. by apply elem_of_map_to_list.
  - intros Hs. exists (s, 0). split; [done|]. apply list_elem_of_filter. split; [done|]. by apply elem_of_map_to_list.
Qed.

Lemma prune_unused scm s : foldr delete scm (unused scm) !! s = prune (scm !! s).
Proof.
  rewrite lookup_foldr_delete. case_decide as E; [apply elem_of_unused in E; by rewrite E|].
  rewrite elem_of_unused in E. unfold prune. destruct (scm !! s) as [[]|]; [congruence|done..].
Qed.

Lemma flush_tables_gen chunkId (l : list (DbTable * SubChunkMap)) tm :
  NoDup l.*1 -> (forall t scm, (t, scm) ∈ l -> tm !! t = Some scm) ->
  (forall t s n, get tm t s = Some n -> 0 <= n) ->
  exists tm' d, flush_tables chunkId l tm = (tm', Ret d) /\
    (forall t s, get tm' t s = if decide (t ∈ l.*1) then prune (get tm t s) else get tm t s) /\
    (forall x, x ∈ d <-> exists t s, x = (chunkId, t, s) /\ t ∈ l.*1 /\ get tm t s = Some 0).
Proof.
  revert tm. induction l as [|[t0 scm] l IH]; intros tm Hn Hl Hpos; cbn [flush_tables].
  { exists tm, []. split; [done|]. split; [intros t s; case_decide as E; [by apply elem_of_nil in E|done]|]. intros x. set_solver. }
  apply NoDup_cons in Hn as [Hnin Hn]. pose proof (Hl t0 scm ltac:(by left)) as Ht0.
  assert (Hg0 : forall s, get tm t0 s = scm !! s) by (intros s; unfold get, sub_map; by rewrite Ht0).
  destruct (existsb _ _) eqn:E.
  { apply existsb_exists in E as ([s n] & Hin & Hneg). apply list_elem_of_In, elem_of_map_to_list in Hin. simpl in Hneg.
    specialize (Hpos t0 s n). rewrite Hg0, Hin in Hpos. specialize (Hpos eq_refl). apply Z.ltb_lt in Hneg. lia. }
  set (tm1 := <[t0 := _]> tm).
  assert (Hg1 : forall t s, get tm1 t s = if decide (t0 = t) then prune (get tm t s) else get tm t s).
  { intros t s. unfold tm1. rewrite get_insert. case_decide as Et; [|done]. subst t. by rewrite prune_unused, Hg0. }
  destruct (IH tm1 Hn) as (tm' & d & -> & H1 & H2).
  { intros t scm' Hin. unfold tm1. rewrite lookup_insert_ne; [apply Hl; by right|]. intros <-. apply Hnin.
    by apply (list_elem_of_fmap_2 fst _ (t0, scm')). }
  { intros t s n. rewrite Hg1. case_decide; [|apply Hpos]. unfold prune. destruct (get tm t s) as [[]|] eqn:Eg; try done;
    intros [= <-]; by eapply Hpos. }
  exists tm', (map (fun s => (chunkId, t0, s)) (unused scm) ++ d). split; [done|]. cbn [fmap list_fmap fst]. split.
  - intros t s. rewrite H1, Hg1. destruct (decide (t0 = t)) as [<-|Hne].
    + rewrite decide_False by done. by rewrite decide_True by set_solver.
    + destruct (decide (t ∈ l.*1)); [by rewrite decide_True by set_solver|by rewrite decide_False by set_solver].
  - intros x. rewrite elem_of_app, H2. setoid_rewrite Hg1. split.
    + intros [(s & Hx & Hs)%list_elem_of_In%in_map_iff|(t & s & -> & Ht & Hg)].
      * apply list_elem_of_In, elem_of_unused in Hs. exists t0, s. rewrite Hg0. split; [done|]. split; [by left|done].
      * exists t, s. rewrite decide_False in Hg by (intros <-; done). split; [done|]. split; [by right|done].
    + intros (t & s & -> & [->|Ht]%elem_of_cons & Hg).
      * left. apply list_elem_of_In, in_map_iff. exists s. split; [done|]. apply list_elem_of_In, elem_of_unused. by rewrite <- Hg0.
      * right. exists t, s. split; [done|]. split; [done|]. by rewrite decide_False by (intros <-; done).
Qed.

Lemma flush_tables_spec chunkId tm :
  (forall t s n, get tm t s = Some n -> 0 <= n) ->
  exists tm' d, flush_tables chunkId (map_to_list tm) tm = (tm', Ret d) /\
    (forall t s, get tm' t s = prune (get tm t s)) /\
    (forall x, x ∈ d <-> exists t s, x = (chunkId, t, s) /\ get tm t s = Some 0).
Proof.
  intros Hpos. destruct (flush_tables_gen chunkId (map_to_list tm) tm) as (tm' & d & Hf & H1 & H2).
  - apply NoDup_fst_map_to_list.
  - intros t scm. apply elem_of_map_to_list.
  - done.
  - assert (Hin : forall t s n, get tm t s = Some n -> t ∈ (map_to_list tm).*1).
    { intros t s n Hg. unfold get, sub_map in Hg. destruct (tm !! t) as [scm|] eqn:E; [|by simpl in Hg].
      apply (list_elem_of_fmap_2 fst _ (t, scm)). by apply elem_of_map_to_list. }
    exists tm', d. split; [done|]. split.
    + intros t s. rewrite H1. case_decide as E; [done|]. destruct (get tm t s) eqn:Eg; [|done]. destruct E. by eapply Hin.
    + intros x. rewrite H2. split; intros (t & s & -> & H); [naive_solver|]. exists t, s. split; [done|]. split; [by eapply Hin|done].
Qed.

(** ** The uses of a table by the live resources *)

Definition uses_of i (db : string) (c : Z) t s : Z :=
  if decide (in_db i = db /\ in_chunkId i = c /\ t ∈ in_tables i) then occurs s (in_subChunkIds i) else 0.
Fixpoint uses (live : list Info) (db : string) (c : Z) t s : Z :=
  match live with [] => 0 | i :: live' => uses_of i db c t s + uses live' db c t s end.

(** The resources of a chunk. *)
Fixpoint users (live : list Info) (db : string) (c : Z) : Z :=
  match live with
  | [] => 0
  | i :: live' => (if decide (in_db i = db /\ in_chunkId i = c) then 1 else 0) + users live' db c
  end.

Lemma uses_of_nonneg i db c t s : 0 <= uses_of i db c t s.
Proof. unfold uses_of. case_decide; [apply occurs_nonneg|lia]. Qed.

Lemma uses_nonneg live db c t s : 0 <= uses live db c t s.
Proof. induction live as [|i live IH]; simpl; [lia|]. pose proof (uses_of_nonneg i db c t s). lia. Qed.

Lemma uses_app live live' db c t s : uses (live ++ live') db c t s = uses live db c t s + uses live' db c t s.
Proof. induction live as [|i live IH]; simpl; [done|]. lia. Qed.

Lemma uses_delete live n i db c t s :
  live !! n = Some i -> uses live db c t s = uses (delete n live) db c t s + uses_of i db c t s.
Proof. revert n. induction live as [|j live IH]; intros [|n] Hn; simplify_eq/=; [lia|]. rewrite (IH n Hn). lia. Qed.

Lemma users_app live live' db c : users (live ++ live') db c = users live db c + users live' db c.
Proof. induction live as [|i live IH]; simpl; [done|]. lia. Qed.

Lemma users_delete live n i db c :
  live !! n = Some i ->
  users live db c = users (delete n live) db c + (if decide (in_db i = db /\ in_chunkId i = c) then 1 else 0).
Proof. revert n. induction live as [|j live IH]; intros [|n] Hn; simplify_eq/=; [lia|]. rewrite (IH n Hn). lia. Qed.

Lemma users_filter live db c :
  users live db c = Z.of_nat (length (filter (fun i => in_db i = db /\ in_chunkId i = c) live)).
Proof. induction live as [|i live IH]; [done|]. cbn [users]. rewrite filter_cons, IH. case_decide; simpl; lia. Qed.

Lemma bump_prune u k : 0 <= k <= u -> prune ((fun n => n - k) <$> bump u None) = bump (u - k) None.
Proof.
  intros Hk. unfold bump. destruct (Z.eqb_spec u 0) as [->|Hu]; cbn.
  - by destruct (Z.eqb_spec (0 - k) 0); [|lia].
  - rewrite !Z.add_0_l. destruct (Z.eqb_spec (u - k) 0) as [->|]; [done|]. by destruct (u - k).
Qed.

(** [flush] after each count [u] was reduced by [k]. *)
Lemma flush_after chunkId tm (u k : DbTable -> Z -> Z) :
  (forall t s, 0 <= k t s <= u t s) -> (forall t s, get tm t s = (fun x => x - k t s) <$> bump (u t s) None) ->
  exists tm' d, flush_tables chunkId (map_to_list tm) tm = (tm', Ret d) /\
    (forall t s, get tm' t s = bump (u t s - k t s) None) /\
    (forall x, x ∈ d <-> exists t s, x = (chunkId, t, s) /\ 0 < u t s /\ u t s = k t s).
Proof.
  intros Hk Hget.
  assert (Hzero : forall t s n, get tm t s = Some n <-> 0 < u t s /\ n = u t s - k t s).
  { intros t s n. rewrite Hget. specialize (Hk t s). unfold bump. destruct (Z.eqb_spec (u t s) 0); cbn.
    - split; [done|lia].
    - rewrite Z.add_0_l. split; [intros [= <-]; lia|]. intros [_ ->]. done. }
  destruct (flush_tables_spec chunkId tm) as (tm' & d & Hf & H1 & H2).
  { intros t s n Hg. apply Hzero in Hg as [_ ->]. specialize (Hk t s). lia. }
  exists tm', d. split; [done|]. split.
  - intros t s. rewrite H1, Hget. apply bump_prune, Hk.
  - intros x. rewrite H2. setoid_rewrite Hzero. split; intros (t & s & -> & ? & ?); exists t, s; repeat (split; [done|]); lia.
Qed.

(** The tables of a resource belong to its database, and are a set. *)
Definition info_ok i : Prop := NoDup (in_tables i) /\ Forall (fun t => t.1 = in_db i) (in_tables i).

Section mgr.
Context {K : Type} `{Backend K} (tables : K -> gset ScTable) `{!BackendLaws K tables}.
Implicit Types (m : ChunkResourceMgr K) (w : Resources K).

Definition entry_get m db c t s : option Z := get (ce_tableMap (getChunkEntry db c m)) t s.

Record mgr_inv m (live : list Info) : Prop := {
  mi_ok : Forall info_ok live;
  mi_chunk db c : ce_chunkId (getChunkEntry db c m) = c;
  mi_count db c t s : entry_get m db c t s = bump (uses live db c t s) None;
  mi_refs db c : ce_refCount (getChunkEntry db c m) = users live db c;
  mi_tables c t s : (c, t, s) ∈ tables (cm_backend m) <-> 0 < uses live t.1 c t s;
}.

Lemma getChunkEntry_set db c ce k m db' c' :
  getChunkEntry db' c' (setChunkEntry db c ce k m) =
  if decide (db = db' /\ c = c') then ce else getChunkEntry db' c' m.
Proof.
  unfold getChunkEntry, setChunkEntry, getMap. simpl. destruct (decide (db = db')) as [<-|Hne].
  - rewrite lookup_insert_eq. simpl. destruct (decide (c = c')) as [<-|Hc].
    + rewrite lookup_insert_eq. simpl. by rewrite decide_True.
    + rewrite lookup_insert_ne by done. by rewrite decide_False by naive_solver.
  - rewrite lookup_insert_ne by done. by rewrite decide_False by naive_solver.
Qed.

Lemma uses_of_info i t s : info_ok i -> uses_of i t.1 (in_chunkId i) t s = if decide (t ∈ in_tables i) then occurs s (in_subChunkIds i) else 0.
Proof.
  intros [_ Hdb]. unfold uses_of. rewrite Forall_forall in Hdb. destruct (decide (t ∈ in_tables i)) as [Ht|Ht].
  - rewrite decide_True; [done|]. split; [symmetry; by apply Hdb|done].
  - by rewrite decide_False by naive_solver.
Qed.

(** The counts and tables after [acquire] has run on the entry of [i]. *)
Lemma acquire_inv m live i :
  mgr_inv m live -> info_ok i ->
  match acquireUnit i m with
  | (m', Ret _) => mgr_inv m' (live ++ [i])
  | (_, Raise e) =>
      be_memLockRequireOwnership (cm_backend m) = Raise e \/
      exists v, (be_load v (cm_backend m)).2 = Raise e \/ ((be_load v (cm_backend m)).2 = Ret false /\ e = SqlError)
  end.
Proof.
  intros Hi Hok. unfold acquireUnit, ce_acquire. rewrite (mi_chunk _ _ Hi).
  destruct (be_memLockRequireOwnership (cm_backend m)) as [[]|e] eqn:El; [|by left].
  pose proof (acquire_tables_spec (in_chunkId i) (in_tables i) (in_subChunkIds i)
    (ce_tableMap (getChunkEntry (in_db i) (in_chunkId i) m)) (proj1 Hok)) as Ha.
  destruct (acquire_tables _ _ _ _) as [tm nd]. destruct Ha as [Hget Hnd].
  assert (Hmain : forall k', tables k' = tables (cm_backend m) ∪ list_to_set nd ->
    mgr_inv (setChunkEntry (in_db i) (in_chunkId i)
      (mkChunkEntry (in_chunkId i) (ce_refCount (getChunkEntry (in_db i) (in_chunkId i) m) + 1) tm) k' m) (live ++ [i])).
  { intros k' Hk. split.
    - apply Forall_app. split; [apply Hi|by constructor].
    - intros db c. rewrite getChunkEntry_set. case_decide as E; [by destruct E|]. apply Hi.
    - intros db c t s. unfold entry_get. rewrite getChunkEntry_set, uses_app. cbn [uses]. rewrite Z.add_0_r. unfold uses_of.
      pose proof (mi_count _ _ Hi db c t s) as Hc. unfold entry_get in Hc. case_decide as E.
      + destruct E as [<- <-]. cbn [ce_tableMap]. rewrite Hget, Hc. destruct (decide (t ∈ in_tables i)).
        * rewrite decide_True by done. rewrite bump_add by (apply occurs_nonneg || apply uses_nonneg). f_equal. lia.
        * rewrite decide_False by naive_solver. f_equal. lia.
      + rewrite decide_False by naive_solver. rewrite Hc. f_equal. lia.
    - intros db c. rewrite getChunkEntry_set, users_app. cbn [users]. case_decide as E; cbn [ce_refCount].
      + destruct E as [<- <-]. rewrite (mi_refs _ _ Hi). lia.
      + rewrite (mi_refs _ _ Hi). lia.
    - intros c t s. cbn [cm_backend setChunkEntry]. rewrite Hk, elem_of_union, elem_of_list_to_set, Hnd, (mi_tables _ _ Hi), uses_app.
      cbn [uses]. rewrite Z.add_0_r. pose proof (uses_nonneg live t.1 c t s). pose proof (uses_of_nonneg i t.1 c t s).
      destruct (decide (0 < uses live t.1 c t s)) as [|Hz]; [split; [lia|auto]|]. split; [intros [|(t' & s' & [= -> <- <-] & Ht & Hs & _)]; [lia|]|].
      + rewrite uses_of_info, decide_True by done. apply occurs_pos in Hs. lia.
      + intros Hpos. right. exists t, s. assert (Hc : in_chunkId i = c /\ in_db i = t.1).
        { unfold uses_of in Hpos. case_decide; [naive_solver|lia]. }
        destruct Hc as [<- Hdb]. split; [done|]. rewrite uses_of_info in Hpos by done. case_decide; [|lia]. split; [done|].
        split; [apply occurs_pos; lia|]. fold (entry_get m (in_db i) (in_chunkId i) t s). rewrite (mi_count _ _ Hi), Hdb.
        unfold bump. by rewrite (proj2 (Z.eqb_eq _ 0)) by lia. }
  destruct nd as [|x nd]; [apply Hmain; simpl; set_solver|].
  destruct (be_load (x :: nd) (cm_backend m)) as [k' [[]|e]] eqn:Eload.
  - apply Hmain. by apply load_law.
  - right. exists (x :: nd). right. by rewrite Eload.
  - right. exists (x :: nd). left. by rewrite Eload.
Qed.

Lemma uses_foreign live db c t s : Forall info_ok live -> db <> t.1 -> uses live db c t s = 0.
Proof.
  induction 1 as [|i live [_ Hdb] _ IH]; intros Hne; simpl; [done|]. rewrite IH by done. unfold uses_of. case_decide as E; [|done].
  destruct E as (<- & _ & Ht). rewrite Forall_forall in Hdb. by rewrite (Hdb t Ht) in Hne.
Qed.

(** The manager after the entry of [i] and the backend were updated. *)
Lemma release_mgr_inv m live n i tm d k' :
  mgr_inv m live -> live !! n = Some i -> info_ok i -> tables k' = tables (cm_backend m) ∖ list_to_set d ->
  (forall t s, get tm t s = bump (uses (delete n live) (in_db i) (in_chunkId i) t s) None) ->
  (forall x, x ∈ d <-> exists t s, x = (in_chunkId i, t, s) /\ 0 < uses live (in_db i) (in_chunkId i) t s /\
     uses (delete n live) (in_db i) (in_chunkId i) t s = 0) ->
  mgr_inv (setChunkEntry (in_db i) (in_chunkId i)
    (mkChunkEntry (in_chunkId i) (ce_refCount (getChunkEntry (in_db i) (in_chunkId i) m) - 1) tm) k' m) (delete n live).
Proof.
  intros Hi Hn Hok Hk' Hget Hd. split.
  - apply Forall_delete, Hi.
  - intros db c. rewrite getChunkEntry_set. case_decide as E; [by destruct E|]. apply Hi.
  - intros db c t s. unfold entry_get. rewrite getChunkEntry_set. case_decide as E.
    + destruct E as [<- <-]. apply Hget.
    + fold (entry_get m db c t s). rewrite (mi_count _ _ Hi), (uses_delete live n i) by done. unfold uses_of.
      rewrite decide_False by naive_solver. f_equal. lia.
  - intros db c. rewrite getChunkEntry_set. pose proof (users_delete live n i db c Hn) as Hu. case_decide as E; cbn [ce_refCount].
    + destruct E as [<- <-]. rewrite (mi_refs _ _ Hi). lia.
    + rewrite (mi_refs _ _ Hi). lia.
  - intros c t s. cbn [cm_backend setChunkEntry]. rewrite Hk', elem_of_difference, elem_of_list_to_set, Hd, (mi_tables _ _ Hi).
    pose proof (uses_delete live n i t.1 c t s Hn) as Hu. pose proof (uses_nonneg (delete n live) t.1 c t s).
    pose proof (uses_of_nonneg i t.1 c t s). split.
    + intros [Hpos Hnd]. destruct (decide (uses_of i t.1 c t s = 0)); [lia|].
      assert (Hc : in_chunkId i = c /\ in_db i = t.1) by (unfold uses_of in *; case_decide; [naive_solver|lia]).
      destruct Hc as [<- Hdb]. destruct (decide (uses (delete n live) t.1 (in_chunkId i) t s = 0)); [|lia].
      destruct Hnd. exists t, s. by rewrite Hdb.
    + intros Hpos. split; [lia|]. intros (t' & s' & [= -> <- <-] & Hpos' & Hz).
      destruct (decide (in_db i = t.1)) as [Hdb|Hne]; [rewrite Hdb in Hz; lia|].
      rewrite (uses_foreign live) in Hpos' by (done || apply Hi). lia.
Qed.

(** The same for [release]. *)
Lemma release_inv m live n i :
  mgr_inv m live -> live !! n = Some i ->
  match cm_release i m with
  | (m', Ret _) => mgr_inv m' (delete n live)
  | (_, Raise e) =>
      be_memLockRequireOwnership (cm_backend m) = Raise e \/ exists v, (be_discard v (cm_backend m)).2 = Raise e
  end.
Proof.
  intros Hi Hn. pose proof (Forall_lookup_1 _ _ _ _ (mi_ok _ _ Hi) Hn) as Hok.
  unfold cm_release, ce_release, ce_flush. rewrite (mi_chunk _ _ Hi).
  destruct (be_memLockRequireOwnership (cm_backend m)) as [[]|e] eqn:El; [|by left].
  set (ce := getChunkEntry (in_db i) (in_chunkId i) m).
  assert (Hce : forall t s, get (ce_tableMap ce) t s = bump (uses live (in_db i) (in_chunkId i) t s) None)
    by (intros t s; apply (mi_count _ _ Hi)).
  assert (Huses : forall t s, uses live (in_db i) (in_chunkId i) t s =
    uses (delete n live) (in_db i) (in_chunkId i) t s + (if decide (t ∈ in_tables i) then occurs s (in_subChunkIds i) else 0)).
  { intros t s. rewrite (uses_delete live n i) by done. unfold uses_of. f_equal.
    destruct (decide (t ∈ in_tables i)); [by rewrite decide_True|by rewrite decide_False by naive_solver]. }
  set (k := fun t s => if decide (t ∈ in_tables i) then occurs s (in_subChunkIds i) else 0).
  assert (Hk : forall t s, 0 <= k t s <= uses live (in_db i) (in_chunkId i) t s).
  { intros t s. rewrite Huses. fold (k t s). pose proof (uses_nonneg (delete n live) (in_db i) (in_chunkId i) t s).
    split; [|lia]. unfold k. case_decide; [apply occurs_nonneg|lia]. }
  destruct (release_tables_spec (in_tables i) (in_subChunkIds i) (ce_tableMap ce) (proj1 Hok)) as (tm & -> & Htm).
  { intros t s Ht Hs. rewrite Hce. specialize (Hk t s). unfold k in Hk. rewrite decide_True in Hk by done.
    apply occurs_pos in Hs. unfold bump. rewrite (proj2 (Z.eqb_neq _ 0)) by lia. eauto. }
  destruct (flush_after (in_chunkId i) tm (uses live (in_db i) (in_chunkId i)) k) as (tm' & d & Hf & Hg & Hd); [done| |].
  { intros t s. rewrite Htm, Hce. unfold k. case_decide; [done|]. destruct (bump _ _); [simpl; f_equal; lia|done]. }
  cbn [ce_chunkId ce_tableMap ce_refCount]. rewrite Hf.
  assert (Hmain : forall k', tables k' = tables (cm_backend m) ∖ list_to_set d ->
    mgr_inv (setChunkEntry (in_db i) (in_chunkId i) (mkChunkEntry (in_chunkId i) (ce_refCount ce - 1) tm') k' m) (delete n live)).
  { intros k' Hk'. apply release_mgr_inv with (d := d) (tm := tm'); try done.
    - intros t s. rewrite Hg. f_equal. specialize (Huses t s). fold (k t s) in Huses. lia.
    - intros x. rewrite Hd. split; intros (t & s & -> & Hu & He); exists t, s; (split; [done|]).
      + split; [done|]. specialize (Huses t s). fold (k t s) in Huses. lia.
      + split; [done|]. specialize (Huses t s). fold (k t s) in Huses. lia. }
  destruct d as [|x d]; [apply Hmain; simpl; set_solver|].
  destruct (be_discard (x :: d) (cm_backend m)) as [k' [[]|e]] eqn:Edis.
  - apply Hmain. by apply discard_law.
  - right. exists (x :: d). by rewrite Edis.
Qed.

(** ** Reachable states *)

(** The resources of a program whose calls return. *)
Inductive res_reach (k0 : K) : Resources K -> Prop :=
| rr_init : res_reach k0 (mkResources (newMgr k0) [])
| rr_acquire db c ts sc w w' :
    res_reach k0 w -> info_ok (mkInfo db c ts sc) -> resource_acquire db c ts sc w = (w', Ret tt) -> res_reach k0 w'
| rr_copy n w w' : res_reach k0 w -> resource_copy n w = (w', Ret tt) -> res_reach k0 w'
| rr_destroy n w w' : res_reach k0 w -> resource_destroy n w = (w', Ret tt) -> res_reach k0 w'.

Lemma reach_mgr_inv k0 w : tables k0 = ∅ -> res_reach k0 w -> mgr_inv (rs_mgr w) (rs_live w).
Proof.
  intros Hk. induction 1 as [|db c ts sc w w' _ IH Hok Hr|n w w' _ IH Hr|n w w' _ IH Hr].
  - split; simpl; [constructor|done| |done|intros; rewrite Hk; split; [set_solver|lia]].
    intros db c t s. unfold entry_get, getChunkEntry, getMap. simpl. by rewrite lookup_empty.
  - unfold resource_acquire in Hr. pose proof (acquire_inv _ _ _ IH Hok) as Ha.
    destruct (acquireUnit _ _) as [m [[]|e]]; by simplify_eq.
  - unfold resource_copy in Hr. destruct (rs_live w !! n) as [i|] eqn:Hn; [|done].
    pose proof (acquire_inv _ _ _ IH (Forall_lookup_1 _ _ _ _ (mi_ok _ _ IH) Hn)) as Ha.
    destruct (acquireUnit _ _) as [m [[]|e]]; by simplify_eq.
  - unfold resource_destroy in Hr. destruct (rs_live w !! n) as [i|] eqn:Hn; [|done].
    pose proof (release_inv _ _ _ _ IH Hn) as Ha. destruct (cm_release _ _) as [m [[]|e]]; by simplify_eq.
Qed.

Lemma uses_pos live c t s :
  Forall info_ok live ->
  0 < uses live t.1 c t s <-> exists i, i ∈ live /\ in_chunkId i = c /\ t ∈ in_tables i /\ s ∈ in_subChunkIds i.
Proof.
  induction 1 as [|i live Hok Hall IH]; simpl; [split; [lia|by intros (i & ?%elem_of_nil & _)]|].
  pose proof (uses_nonneg live t.1 c t s). pose proof (uses_of_nonneg i t.1 c t s).
  assert (Hi : 0 < uses_of i t.1 c t s <-> in_chunkId i = c /\ t ∈ in_tables i /\ s ∈ in_subChunkIds i).
  { destruct (decide (in_chunkId i = c)) as [<-|Hc].
    - rewrite uses_of_info by done. destruct (decide (t ∈ in_tables i)); [rewrite occurs_pos; naive_solver|]. split; [lia|naive_solver].
    - unfold uses_of. rewrite decide_False by naive_solver. split; [lia|naive_solver]. }
  split.
  - intros Hpos. destruct (decide (0 < uses_of i t.1 c t s)) as [Hp|Hp].
    + exists i. split; [by left|]. by apply Hi.
    + destruct (proj1 IH) as (j & Hj & ?); [lia|]. exists j. split; [by right|done].
  - intros (j & [->|Hj]%elem_of_cons & Hjj); [apply Hi in Hjj; lia|].
    assert (0 < uses live t.1 c t s); [|lia]. apply IH. eauto.
Qed.


(** Giving up a resource fails only if the backend fails: the checks of
    [release] and [flush] for resources that were not acquired and for negative
    counts never fire. *)
Theorem resource_destroy_errors k0 w n i e :
  tables k0 = ∅ -> res_reach k0 w -> rs_live w !! n = Some i -> (resource_destroy n w).2 = Raise e ->
  be_memLockRequireOwnership (cm_backend (rs_mgr w)) = Raise e \/
  exists v, (be_discard v (cm_backend (rs_mgr w))).2 = Raise e.
Proof.
  intros Hk Hi%reach_mgr_inv Hn He; [|done]. pose proof (release_inv _ _ _ _ Hi Hn) as Hr. unfold resource_destroy in He.
  rewrite Hn in He. destruct (cm_release i (rs_mgr w)) as [m [[]|e']]; simpl in He; [done|]. by injection He as ->.
Qed.
End mgr.

(** ** A concrete run *)

(** A server that does what it is told, or cannot drop tables. *)
Record DemoServer := mkDemoServer { demo_tables : gset ScTable; demo_drops : bool }.
#[export] Instance DemoServer_server : SqlServer DemoServer := {
  sv_create x v := (mkDemoServer (demo_tables v ∪ {[x]}) (demo_drops v), true);
  sv_drop x v := if demo_drops v then (mkDemoServer (demo_tables v ∖ {[x]}) true, true) else (v, false);
  sv_memLockStatus _ := LOCKED_OURS;
}.
#[export] Instance DemoServer_laws : SqlServerLaws DemoServer demo_tables.
Proof. split; intros x v v'; simpl; [intros [= <-]; done|]. destruct (demo_drops v); [intros [= <-]|]; done. Qed.

Definition demo_backend (drops : bool) : SQLBackend DemoServer := mkSQLBackend (mkDemoServer ∅ drops).
Definition demo_object : DbTable := ("LSST", "Object")%string.

(** Two resources that share the sub-chunk 2; the first is given up. *)
Definition demo_first (drops : bool) : Resources (SQLBackend DemoServer) :=
  (resource_acquire "LSST" 5 [demo_object] [1; 2] (mkResources (newMgr (demo_backend drops)) [])).1.
Definition demo_two : Resources (SQLBackend DemoServer) := (resource_acquire "LSST" 5 [demo_object] [2; 3] (demo_first true)).1.
Definition demo_one : Resources (SQLBackend DemoServer) := (resource_destroy 0 demo_two).1.

Lemma demo_info_ok sc : info_ok (mkInfo "LSST" 5 [demo_object] sc).
Proof. split; [apply NoDup_singleton|by repeat constructor]. Qed.

Lemma demo_first_reach drops : res_reach (demo_backend drops) (demo_first drops).
Proof.
  apply (rr_acquire _ "LSST" 5 [demo_object] [1; 2] (mkResources (newMgr (demo_backend drops)) []));
    [apply rr_init|apply demo_info_ok|by destruct drops].
Qed.

Lemma demo_one_reach : res_reach (demo_backend true) demo_one.
Proof.
  apply (rr_destroy _ 0 demo_two); [|reflexivity].
  apply (rr_acquire _ "LSST" 5 [demo_object] [2; 3] (demo_first true)); [apply demo_first_reach|apply demo_info_ok|reflexivity].
Qed.

Abbreviation backend_tables := (fun k : SQLBackend DemoServer => demo_tables (sb_server k)).


Lemma resource_destroy_errors_witness :
  be_memLockRequireOwnership (cm_backend (rs_mgr (demo_first false))) = Raise SqlError \/
  exists v, (be_discard v (cm_backend (rs_mgr (demo_first false)))).2 = Raise SqlError.
Proof.
  eapply (resource_destroy_errors backend_tables (demo_backend false) (demo_first false) 0);
    [reflexivity|apply demo_first_reach|reflexivity|reflexivity].
Defined.

(** ** Where the code departs from its documentation *)

(** After a failed load the sub-chunk has an entry with count 0, so that the next
    resource does not load it; the reference count stays increased. *)
Record BrokenServer := mkBrokenServer { broken_tables : gset ScTable; broken_works : bool }.
#[export] Instance BrokenServer_server : SqlServer BrokenServer := {
  sv_create x v := if broken_works v then (mkBrokenServer (broken_tables v ∪ {[x]}) true, true)
                   else (mkBrokenServer (broken_tables v) true, false);
  sv_drop x v := (mkBrokenServer (broken_tables v ∖ {[x]}) (broken_works v), true);
  sv_memLockStatus _ := LOCKED_OURS;
}.

Example failed_load_not_repeated :
  let w0 : Resources (SQLBackend BrokenServer) := mkResources (newMgr (mkSQLBackend (mkBrokenServer ∅ false))) [] in
  let '(w1, r1) := resource_acquire "LSST" 5 [demo_object] [1] w0 in
  let '(w2, r2) := resource_acquire "LSST" 5 [demo_object] [1] w1 in
  r1 = Raise SqlError /\ r2 = Ret tt /\ length (rs_live w2) = 1%nat /\
  broken_tables (sb_server (cm_backend (rs_mgr w2))) = ∅ /\ getRefCount "LSST" 5 (rs_mgr w2) = 2.
Proof. vm_compute. done. Qed.

(** Resources of two databases that use the same table do not know of each
    other: giving up one drops the table of the other. *)
Example shared_table_dropped :
  let w0 : Resources (SQLBackend DemoServer) := mkResources (newMgr (demo_backend true)) [] in
  let w1 := (resource_acquire "LSST" 5 [demo_object] [1] w0).1 in
  let w2 := (resource_acquire "User" 5 [demo_object] [1] w1).1 in
  let w3 := (resource_destroy 1 w2).1 in
  length (rs_live w3) = 1%nat /\ demo_tables (sb_server (cm_backend (rs_mgr w3))) = ∅.
Proof. vm_compute. done. Qed.

(** Assigning a resource does not give up the one that it replaces. *)
Example assignment_leaks :
  let w := (resource_assign 0 1 demo_two).1 in
  let w' := (resource_destroy 0 (resource_destroy 0 w).1).1 in
  rs_live w' = [] /\ getRefCount "LSST" 5 (rs_mgr w') = 1.
Proof. vm_compute. done. Qed.
