(* ===== verification/MergingHandler.v ===== *)
(** * Receiving the result of a job

    [qdisp/ResponseHandler.h], the interface through which the dispatch of
    queries hands over what arrives from a worker, and its implementation
    [ccontrol/MergingHandler.h] and [.cc], with the header of a message,
    [proto/ProtoHeaderWrap.cc].  A worker sends a sequence of messages, each a
    header of 256 bytes and a result of the size that the header announces; a
    result says whether another one follows.

    Protocol buffers, MD5 and [rproc/InfileMerger] are parameters.  The buffer
    is the list of its bytes.  Error texts, the name of the worker and the count
    of all bytes held are left out; an announced size is not negative. *)

From Stdlib Require Import Ascii String.
From S2P Require Import Prelude.
From S2P Require Import StdString.

Local Open Scope Z_scope.

Implicit Types (n : nat).

Abbreviation bytes := (list ascii).

(** ** [class ResponseHandler] *)

(** What [flush] returns, with the values of [last] and [largeResult] it leaves. *)
Record FlushResult := mkFlush { fl_ok : bool; fl_last : bool; fl_large : bool }.

(** [rh_fill] is the memory write of the network library into [nextBuffer()]. *)
Class ResponseHandler (H : Type) := {
  rh_reset : H -> H * bool;
  rh_nextBuffer : H -> H;
  rh_fill : bytes -> H -> H;
  rh_flush : Z -> bool -> H -> H * FlushResult;
  rh_errorFlush : Z -> H -> H;
  rh_getError : H -> Z;
  rh_prepScrubResults : Z -> Z -> H -> H;
}.

(** What the dispatch of queries relies on: a new handler can be reset, and once
    it has said that its result is complete, it stays so until it is reset. *)
Class ResponseHandlerLaws (H : Type) `{ResponseHandler H} (fresh done : H -> Prop) : Prop := {
  reset_fresh h : fresh h -> (rh_reset h).2 = true;
  flush_done z h h' b : rh_flush z false h = (h', mkFlush true true b) -> done h';
  done_flush z b h : done h -> done (rh_flush z b h).1;
  done_nextBuffer h : done h -> done (rh_nextBuffer h);
  done_fill l h : done h -> done (rh_fill l h);
  done_errorFlush z h : done h -> done (rh_errorFlush z h);
}.

(** ** [class ProtoHeaderWrap] *)

Definition PROTO_HEADER_SIZE : nat := 256.

(** [std::string wrap(std::string& protoHeaderString)]: the length is cut to a
    byte. *)
Definition wrap (protoHeaderString : bytes) : bytes :=
  let msgBuf := ascii_of_nat (length protoHeaderString mod 256) :: protoHeaderString in
  msgBuf ++ replicate (PROTO_HEADER_SIZE - length msgBuf) "0"%char.

Record ProtoHeader := mkProtoHeader { ph_size : Z; ph_md5 : string; ph_largeresult : bool }.

Section merging.
Context (parseHeader : bytes -> option ProtoHeader).

(** [bool unwrap(response, buffer)]: the header, if it can be read; the buffer is
    large enough for every length. *)
Definition unwrap (buffer : bytes) : option ProtoHeader :=
  match buffer with
  | [] => None
  | headerSize :: rest => parseHeader (take (nat_of_ascii headerSize) rest)
  end.

(** ** [class MergingHandler] *)

Inductive MsgState :=
| INVALID | HEADER_SIZE_WAIT | RESULT_WAIT | RESULT_EXTRA | RESULT_RECV | HEADER_ERR | RESULT_ERR.

Definition MSG_RESULT_MD5 : Z := 1420.
Definition MSG_RESULT_DECODE : Z := 1430.
Definition MSG_RESULT_ERROR : Z := 1470.

(** A result message: what the handler looks at, and the rest. *)
Context {Rows : Type}.
Record Result := mkResult { rm_continues : bool; rm_largeresult : bool; rm_rows : Rows }.

(** [mh_header] is the header in [_response], [mh_merged] what the merger has
    taken, [mh_scrubbed] the attempts that it was told to discard. *)
Record MergingHandler := mkMergingHandler {
  mh_state : MsgState;
  mh_targetSize : nat;
  mh_buf : bytes;
  mh_error : Z;
  mh_header : option ProtoHeader;
  mh_flushed : bool;
  mh_merged : list Result;
  mh_scrubbed : list (Z * Z);
}.

Implicit Types (h : MergingHandler).

Definition mh_set st ts buf e hd h : MergingHandler :=
  mkMergingHandler st ts buf e hd (mh_flushed h) (mh_merged h) (mh_scrubbed h).

(** [void _setError(code, msg)] and [errorFlush(msg, code)] *)
Definition mh_setError code h : MergingHandler :=
  mh_set (mh_state h) (mh_targetSize h) (mh_buf h) code (mh_header h) h.
Definition mh_setState st h : MergingHandler :=
  mh_set st (mh_targetSize h) (mh_buf h) (mh_error h) (mh_header h) h.

(** [void _initState()] *)
Definition mh_initState h : MergingHandler :=
  mh_set HEADER_SIZE_WAIT PROTO_HEADER_SIZE (mh_buf h) 0 (mh_header h) h.

Definition MergingHandler_ctor : MergingHandler :=
  mh_initState (mkMergingHandler INVALID 0 [] 0 None false [] []).

(** [bool reset()]; nothing sets [_flushed]. *)
Definition mh_reset h : MergingHandler * bool :=
  if mh_flushed h then (h, false) else (mh_initState h, true).

(** [MergeBuffer::resizeToTargetSize()] and [zero()] followed by [setTargetSize] *)
Definition mh_nextBuffer h : MergingHandler :=
  let sz := mh_targetSize h in
  mh_set (mh_state h) sz (take sz (mh_buf h ++ replicate (sz - length (mh_buf h)) "000"%char)) (mh_error h) (mh_header h) h.
Definition mh_fill data h : MergingHandler :=
  mh_set (mh_state h) (mh_targetSize h) (data ++ drop (length data) (mh_buf h)) (mh_error h) (mh_header h) h.

Context (getMd5 : bytes -> string) (parseResult : bytes -> option Result).
Context (merge_ok : list Result -> Result -> bool).

(** [bool _merge()] of the result [m] *)
Definition mh_merge (m : Result) h : outcome (MergingHandler * bool) :=
  if mh_flushed h then Raise BugException
  else if merge_ok (mh_merged h) m then
    Ret (mkMergingHandler (mh_state h) (mh_targetSize h) (mh_buf h) (mh_error h) None
           (mh_flushed h) (mh_merged h ++ [m]) (mh_scrubbed h), true)
  else Ret (mh_setState RESULT_ERR (mh_setError MSG_RESULT_ERROR (mh_set (mh_state h) (mh_targetSize h) (mh_buf h) (mh_error h) None h)), false).

(** The case of [RESULT_WAIT]: [_verifyResult()], [_setResult()], [_merge()]. *)
Definition mh_result last h : MergingHandler * FlushResult :=
  let fail code := (mh_setState RESULT_ERR (mh_setError code h), mkFlush false last false) in
  match mh_header h with
  | None => fail MSG_RESULT_MD5
  | Some hd =>
      if negb (String.eqb (ph_md5 hd) (getMd5 (mh_buf h))) then fail MSG_RESULT_MD5
      else
        match parseResult (mh_buf h) with
        | None => fail MSG_RESULT_DECODE
        | Some m =>
            let '(st, ts, last') :=
              if rm_continues m then (RESULT_EXTRA, PROTO_HEADER_SIZE, last) else (RESULT_RECV, 0%nat, true) in
            match mh_merge m (mh_set st ts [] (mh_error h) (mh_header h) h) with
            | Ret (h', ok) => (h', mkFlush ok last' (rm_largeresult m))
            | Raise _ => (h, mkFlush false last false) (* [_flushed] is never set *)
            end
        end
  end.

(** The cases of [HEADER_SIZE_WAIT] and [RESULT_EXTRA] *)
Definition mh_takeHeader last h : MergingHandler * FlushResult :=
  match unwrap (mh_buf h) with
  | None => (mh_setState HEADER_ERR (mh_setError MSG_RESULT_DECODE h), mkFlush false last false)
  | Some hd =>
      (mh_set RESULT_WAIT (Z.to_nat (ph_size hd)) [] (mh_error h) (Some hd) h, mkFlush true last (ph_largeresult hd))
  end.

(** [bool flush(int bLen, bool& last, bool& largeResult)]; a length that is not
    the size of the buffer is only logged. *)
Definition mh_flush (bLen : Z) last h : MergingHandler * FlushResult :=
  match mh_state h with
  | HEADER_SIZE_WAIT => mh_takeHeader last h
  | RESULT_WAIT => mh_result last h
  | RESULT_EXTRA => mh_takeHeader last h
  | RESULT_RECV | HEADER_ERR | RESULT_ERR | INVALID =>
      (mh_setError MSG_RESULT_ERROR h, mkFlush false last false)
  end.

(** [void prepScrubResults(int jobId, int attemptCount)] *)
Definition mh_prepScrubResults (jobId attempt : Z) h : MergingHandler :=
  mkMergingHandler (mh_state h) (mh_targetSize h) (mh_buf h) (mh_error h) (mh_header h)
    (mh_flushed h) (mh_merged h) (mh_scrubbed h ++ [(jobId, attempt)]).

#[export] Instance MergingHandler_handler : ResponseHandler MergingHandler := {
  rh_reset := mh_reset;
  rh_nextBuffer := mh_nextBuffer;
  rh_fill := mh_fill;
  rh_flush := mh_flush;
  rh_errorFlush := mh_setError;
  rh_getError := mh_error;
  rh_prepScrubResults := mh_prepScrubResults;
}.

(** ** Theorems *)

(** The handler keeps the contract of the interface. *)
#[export] Instance MergingHandler_laws :
  ResponseHandlerLaws MergingHandler (fun h => mh_flushed h = false) (fun h => mh_state h = RESULT_RECV).
Proof.
  split; simpl.
  - intros h Hh. unfold mh_reset. by rewrite Hh.
  - intros z h h' b. unfold mh_flush. destruct (mh_state h); try done; try (unfold mh_takeHeader; by destruct (unwrap _)).
    unfold mh_result. destruct (mh_header h) as [hd|]; [|done]. destruct (negb _); [done|].
    destruct (parseResult _) as [m|]; [|done]. unfold mh_merge, mh_set. destruct (rm_continues m), (mh_flushed h); simpl; try done;
      destruct (merge_ok (mh_merged h) m); simpl; intros [= <- ?]; done.
  - intros z b h Hh. unfold mh_flush. by rewrite Hh.
  - done.
  - done.
  - done.
Qed.

(** What a worker sends for a result, in the two pieces that are asked for. *)
Context (serHeader : ProtoHeader -> bytes) (serResult : Result -> bytes).

Definition header_of (m : Result) : ProtoHeader :=
  mkProtoHeader (Z.of_nat (length (serResult m))) (getMd5 (serResult m)) (rm_largeresult m).
Definition pieces (m : Result) : list bytes := [wrap (serHeader (header_of m)); serResult m].

(** Receiving pieces as the dispatch does: ask for a buffer, get it filled, flush;
    stop when the handler says so. *)
Fixpoint receive (ps : list bytes) h : option MergingHandler :=
  match ps with
  | [] => None
  | p :: ps' =>
      let h1 := mh_nextBuffer h in
      if (length (mh_buf h1) =? length p)%nat then
        let '(h2, r) := mh_flush (Z.of_nat (length p)) false (mh_fill p h1) in
        if fl_ok r then
          if fl_last r then match ps' with [] => Some h2 | _ => None end else receive ps' h2
        else None
      else None
  end.

Lemma nextBuffer_length h : length (mh_buf (mh_nextBuffer h)) = mh_targetSize h.
Proof. simpl. rewrite length_take, length_app, length_replicate. lia. Qed.

Lemma fill_exact p h : length p = length (mh_buf h) -> mh_buf (mh_fill p h) = p.
Proof. simpl. intros ->. by rewrite drop_ge, app_nil_r by lia. Qed.

Lemma wrap_length l : (length l <= 255)%nat -> length (wrap l) = PROTO_HEADER_SIZE.
Proof. intros Hl. unfold wrap, PROTO_HEADER_SIZE. rewrite length_app, length_replicate. simpl. lia. Qed.

Lemma unwrap_wrap l : (length l <= 255)%nat -> unwrap (wrap l) = parseHeader l.
Proof.
  intros Hl. unfold wrap. cbn [app unwrap]. rewrite Nat.mod_small, nat_ascii_embedding by lia.
  by rewrite take_app_length.
Qed.

(** The protocol can carry the message. *)
Definition transmits (m : Result) : Prop :=
  parseHeader (serHeader (header_of m)) = Some (header_of m) /\ (length (serHeader (header_of m)) <= 255)%nat /\
  parseResult (serResult m) = Some m.

Hypothesis merges : forall l m, merge_ok l m = true.

(** The handler waits for a header. *)
Definition expects_header h : Prop :=
  (mh_state h = HEADER_SIZE_WAIT \/ mh_state h = RESULT_EXTRA) /\ mh_targetSize h = PROTO_HEADER_SIZE /\
  mh_flushed h = false.

Lemma receive_message m ps h :
  transmits m -> expects_header h ->
  exists h', receive (pieces m ++ ps) h =
      (if rm_continues m then receive ps h' else match ps with [] => Some h' | _ => None end) /\
    mh_merged h' = mh_merged h ++ [m] /\
    (if rm_continues m then expects_header h' else mh_state h' = RESULT_RECV).
Proof.
  intros (parse_header & header_small & parse_result) (Hst & Hts & Hfl). unfold pieces. cbn [app receive].
  rewrite nextBuffer_length, Hts, wrap_length, Nat.eqb_refl by done.
  set (h1 := mh_fill _ (mh_nextBuffer h)).
  assert (Hb1 : mh_buf h1 = wrap (serHeader (header_of m))).
  { apply fill_exact. by rewrite nextBuffer_length, Hts, wrap_length. }
  assert (Hf : mh_flush (Z.of_nat PROTO_HEADER_SIZE) false h1 = mh_takeHeader false h1) by (unfold mh_flush; simpl; by destruct Hst as [-> | ->]).
  rewrite Hf. unfold mh_takeHeader. rewrite Hb1, unwrap_wrap, parse_header by done. cbn [fl_ok fl_last].
  set (h2 := mh_set _ _ _ _ _ _). cbn [receive].
  assert (Hts2 : mh_targetSize h2 = length (serResult m)) by (simpl; lia).
  rewrite nextBuffer_length, Hts2, Nat.eqb_refl. set (h3 := mh_fill _ (mh_nextBuffer h2)).
  assert (Hb3 : mh_buf h3 = serResult m) by (apply fill_exact; by rewrite nextBuffer_length, Hts2).
  unfold mh_flush. change (mh_state h3) with RESULT_WAIT. cbn iota. unfold mh_result.
  change (mh_header h3) with (Some (header_of m)). cbn iota. rewrite Hb3. cbn [ph_md5 header_of].
  rewrite String.eqb_refl, parse_result. cbn [negb]. unfold mh_merge.
  destruct (rm_continues m) eqn:Hc; cbn iota; change (mh_flushed (mh_set _ _ _ _ _ h3)) with (mh_flushed h);
    rewrite Hfl, merges; cbn [fl_ok fl_last]; eexists; (split; [done|]); (split; [done|]); [|done].
  split; [by right|]. done.
Qed.

Lemma receive_stream ms m h :
  Forall transmits (ms ++ [m]) -> Forall (fun m => rm_continues m = true) ms -> rm_continues m = false ->
  expects_header h ->
  exists h', receive (concat (map pieces (ms ++ [m]))) h = Some h' /\
    mh_merged h' = mh_merged h ++ ms ++ [m] /\ mh_state h' = RESULT_RECV.
Proof.
  intros Ht Hms Hm. revert h. induction Hms as [|m' ms Hm' _ IH]; intros h Hh; apply Forall_cons in Ht as [Ht1 Ht2].
  - cbn [app map concat]. destruct (receive_message m [] h Ht1 Hh) as (h' & Hr & Hg & Hs). rewrite Hm in *.
    exists h'. by rewrite Hr, Hg.
  - cbn [app map concat]. destruct (receive_message m' (concat (map pieces (ms ++ [m]))) h Ht1 Hh) as (h' & Hr & Hg & Hs).
    rewrite Hm' in *. destruct (IH Ht2 h' Hs) as (h2 & Hr2 & Hg2 & Hs2). exists h2. rewrite Hr, Hr2. split; [done|].
    split; [|done]. by rewrite Hg2, Hg, <- app_assoc.
Qed.

Lemma ctor_expects_header : expects_header MergingHandler_ctor.
Proof. split; [by left|done]. Qed.

(** C13. A result that a worker sends in any number of messages is merged completely
    and in order: every piece has the size that was asked for, every message is
    accepted, and the end is recognised at the last one and not before. *)
Theorem stream_merged ms m :
  Forall transmits (ms ++ [m]) -> Forall (fun m => rm_continues m = true) ms -> rm_continues m = false ->
  exists h, receive (concat (map pieces (ms ++ [m]))) MergingHandler_ctor = Some h /\
    mh_merged h = ms ++ [m] /\ mh_state h = RESULT_RECV.
Proof. intros Ht Hms Hm. exact (receive_stream ms m _ Ht Hms Hm ctor_expects_header). Qed.
End merging.

(** A stream that ends after a header is taken for a complete result: [flush] is
    content and leaves [last] as the network library set it. *)
Example early_end_accepted :
  let h := MergingHandler_ctor (Rows := unit) in
  let parse := fun _ => Some (mkProtoHeader 10 EmptyString false) in
  let '(h', r) := mh_flush parse (fun _ => EmptyString) (fun _ => None) (fun _ _ => true) 256 true (mh_nextBuffer h) in
  fl_ok r = true /\ fl_last r = true /\ mh_merged h' = [] /\ mh_targetSize h' = 10%nat.
Proof. vm_compute. done. Qed.

(** A stream of two messages, with a protocol of one byte per header. *)
Definition demo_parse (l : bytes) : option (Result (Rows := nat)) :=
  match l with
  | ["c"%char] => Some (mkResult true false 1%nat)
  | ["e"%char] => Some (mkResult false false 2%nat)
  | _ => None
  end.

Lemma stream_merged_witness :
  exists h, receive (fun _ => Some (mkProtoHeader 1 EmptyString false)) (fun _ => EmptyString) demo_parse (fun _ _ => true)
      [wrap []; ["c"%char]; wrap []; ["e"%char]] MergingHandler_ctor = Some h /\
    mh_merged h = [mkResult true false 1%nat; mkResult false false 2%nat] /\ mh_state h = RESULT_RECV.
Proof.
  apply (stream_merged (fun _ => Some (mkProtoHeader 1 EmptyString false)) (fun _ => EmptyString) demo_parse (fun _ _ => true)
    (fun _ => []) (fun m => if rm_continues m then ["c"%char] else ["e"%char]) (fun _ _ => eq_refl)
    [mkResult true false 1%nat] (mkResult false false 2%nat)).
  - repeat constructor.
  - repeat constructor.
  - reflexivity.
Defined.
