(* ===== verification/Executive.v ===== *)
(** * Dispatching the jobs of a user query

    [qdisp/Executive.h] and [.cc], [JobQuery], [JobDescription], [JobStatus] and
    [QueryRequest].  An executive sends one job per chunk to the workers through
    the network library (XrdSsi), retries jobs that fail, and cancels the whole
    query when one fails for good.

    Many threads work on an executive: those that add jobs, the callbacks of the
    network library, the threads of the pool that fetch results, and whoever
    cancels.  A thread is a stack of frames; a frame is what is left to do of a
    call, from one critical section or atomic access to the next.  A step runs
    the frame on top of one thread, so all interleavings at this granularity are
    covered.  The continuation of a call whose result matters is part of its
    frames: [FRunJob j (Some r)] is [runJob] called by [_errorFinish] of request
    [r], [FErrorFinish r c (Some j)] is [_errorFinish] called by [cancel] of job
    [j].  [FRetry j r] is [_errorFinish] where it gets the request of the job, for
    which it takes the mutex of the job, before it runs it again.

    Jobs are found by their id in [_jobMap]; [_incompleteJobs] is the set of ids
    of the jobs in it.  Requests and commands for data are in stores.  The mutex
    of a job is held by a thread whose stack has one of the frames in
    [holds_lock], and only it is modelled; all other mutexes protect a single
    step.

    Left out: when objects are destroyed, logging, the statistics sent to
    [qmeta], the list of start commands, error texts. *)

From Stdlib Require Import Ascii String.
From S2P Require Import Prelude.
From S2P Require Import ScanInfo.
From S2P Require Import MergingHandler.

Local Open Scope Z_scope.

Implicit Types (j : Z) (r c : nat).

(** ** [class JobStatus] *)

Inductive JobState :=
| UNKNOWN | REQUEST | RESPONSE_READY | RESPONSE_ERROR | RESPONSE_DATA | RESPONSE_DATA_NACK
| RESPONSE_DONE | RESULT_ERROR | MERGE_ERROR | CANCEL | COMPLETE.

#[export] Instance JobState_eq_dec : EqDecision JobState.
Proof. solve_decision. Defined.

Record JobInfo := mkJobInfo { ji_state : JobState; ji_code : Z }.

(** ** [class JobQuery] with its [JobDescription] *)

Record JobQuery (H : Type) := mkJobQuery {
  jq_handler : H;
  jq_interactive : bool;
  jq_rating : Z;
  jq_attemptCount : Z;
  jq_payloads : gmap Z string;
  jq_status : JobInfo;
  jq_queryRequest : option nat;
  jq_inSsi : bool;
  jq_cancelled : bool;
}.
Arguments mkJobQuery {H}.
Arguments jq_handler {H}.
Arguments jq_interactive {H}.
Arguments jq_rating {H}.
Arguments jq_attemptCount {H}.
Arguments jq_payloads {H}.
Arguments jq_status {H}.
Arguments jq_queryRequest {H}.
Arguments jq_inSsi {H}.
Arguments jq_cancelled {H}.

Definition JobQuery_ctor {H} (h : H) (interactive : bool) (rating : Z) : JobQuery H :=
  mkJobQuery h interactive rating (-1) ∅ (mkJobInfo UNKNOWN 0) None false false.

Definition maxAttempts : Z := 5.
Definition MAX_JOB_ATTEMPTS : Z := 100.

(** ** [class QueryRequest] *)

Inductive FinishStatus := ACTIVE | FINISHED | ERROR.

#[export] Instance FinishStatus_eq_dec : EqDecision FinishStatus.
Proof. solve_decision. Defined.

(** [qr_job] is the id of the job; [qr_hasJob] whether [_jobQuery] is still set.
    [qr_responded] and [qr_pending] belong to the network library: whether it
    has called [ProcessResponse], and whether it owes data. *)
Record QueryRequest := mkRequest {
  qr_job : Z;
  qr_hasJob : bool;
  qr_retried : bool;
  qr_calledMarkComplete : bool;
  qr_finishStatus : FinishStatus;
  qr_cancelled : bool;
  qr_finishedCalled : bool;
  qr_largeResult : bool;
  qr_ask : option nat;
  qr_responded : bool;
  qr_pending : bool;
}.

Definition QueryRequest_ctor j : QueryRequest :=
  mkRequest j true false false ACTIVE false false false None false false.

(** [class AskForResponseDataCmd] *)
Inductive AskState := STARTED0 | DATAREADY1 | DONE2.
Record AskForResponseDataCmd := mkAsk { ak_request : nat; ak_state : AskState; ak_blen : Z; ak_last : bool }.

(** ** [class Executive] *)

Record Executive (H : Type) := mkExecutive {
  ex_cancelled : bool;
  ex_jobMap : gmap Z (JobQuery H);
  ex_incompleteJobs : gset Z;
  ex_requestCount : Z;
  ex_empty : bool;
  ex_totalJobs : Z;
  ex_multiError : list Z;
  ex_requests : list QueryRequest;
  ex_asks : list AskForResponseDataCmd;
  ex_pool : list (nat * nat * Z);
}.
Arguments mkExecutive {H}.
Arguments ex_cancelled {H}.
Arguments ex_jobMap {H}.
Arguments ex_incompleteJobs {H}.
Arguments ex_requestCount {H}.
Arguments ex_empty {H}.
Arguments ex_totalJobs {H}.
Arguments ex_multiError {H}.
Arguments ex_requests {H}.
Arguments ex_asks {H}.
Arguments ex_pool {H}.

Definition Executive_ctor {H} : Executive H := mkExecutive false ∅ ∅ 0 true 1 [] [] [] [].

(** What the network library answers to a request ([XrdSsiErrInfo],
    [XrdSsiRespInfo]). *)
Inductive SsiResponse :=
| SsiFailed | SsiNone | SsiMock | SsiData | SsiError (code : Z) | SsiFile | SsiStream | SsiOther.

(** ** Frames *)

Inductive Frame (H : Type) :=
| FAdd (j : Z) (h : H) (interactive : bool) (rating : Z)
| FAdded (j : Z)
| FRunJob (j : Z) (k : option nat)
| FRunLocked (j : Z) (k : option nat)
| FStartQuery (j : Z) (k : option nat)
| FStarted (j : Z) (k : option nat)
| FCritical (j : Z) (k : option nat)
| FRunFail (j : Z) (k : option nat)
| FProcessResponse (r : nat) (i : SsiResponse)
| FResponseActive (r : nat) (i : SsiResponse)
| FResponse (r : nat) (i : SsiResponse)
| FImportStream (r : nat)
| FImportError (r : nat) (code : Z)
| FAskAction (c r : nat)
| FAskWait (c r : nat)
| FResponseData (r : nat) (blen : Z) (last : bool) (code : Z) (data : bytes)
| FDataCancelled (r : nat) (blen : Z) (last : bool) (code : Z)
| FData (r : nat) (blen : Z) (last : bool) (code : Z)
| FProcessData (r : nat) (blen : Z) (last : bool)
| FFlush (r : nat) (blen : Z) (last : bool)
| FReqCancel (r : nat) (k : option Z)
| FErrorFinish (r : nat) (shouldCancel : bool) (k : option Z)
| FErrorFinish2 (r : nat) (shouldCancel : bool)
| FFinish (r : nat)
| FFinish2 (r : nat)
| FCallMark (r : nat) (success : bool)
| FCleanup (r : nat)
| FMark (j : Z) (success : bool)
| FMarkStatus (j : Z) (err : Z)
| FMarkError (j : Z) (err : Z)
| FUnTrack (j : Z)
| FSquash
| FSquash2
| FJobCancel (j : Z)
| FJobCancel2 (j : Z)
| FJobCancel3 (j : Z)
| FJobCancel4 (j : Z)
| FCrash (e : exn)
| FRetry (j : Z) (r : nat).
Arguments FAdd {H}.
Arguments FAdded {H}.
Arguments FRunJob {H}.
Arguments FRunLocked {H}.
Arguments FStartQuery {H}.
Arguments FStarted {H}.
Arguments FCritical {H}.
Arguments FRunFail {H}.
Arguments FProcessResponse {H}.
Arguments FResponseActive {H}.
Arguments FResponse {H}.
Arguments FImportStream {H}.
Arguments FImportError {H}.
Arguments FAskAction {H}.
Arguments FAskWait {H}.
Arguments FResponseData {H}.
Arguments FDataCancelled {H}.
Arguments FData {H}.
Arguments FProcessData {H}.
Arguments FFlush {H}.
Arguments FReqCancel {H}.
Arguments FErrorFinish {H}.
Arguments FErrorFinish2 {H}.
Arguments FFinish {H}.
Arguments FFinish2 {H}.
Arguments FCallMark {H}.
Arguments FCleanup {H}.
Arguments FMark {H}.
Arguments FMarkStatus {H}.
Arguments FMarkError {H}.
Arguments FUnTrack {H}.
Arguments FSquash {H}.
Arguments FSquash2 {H}.
Arguments FJobCancel {H}.
Arguments FJobCancel2 {H}.
Arguments FJobCancel3 {H}.
Arguments FJobCancel4 {H}.
Arguments FCrash {H}.
Arguments FRetry {H}.

(** ** Updates of the objects *)

Definition jq_set_handler {H} (h : H) (q : JobQuery H) : JobQuery H :=
  mkJobQuery h (jq_interactive q) (jq_rating q) (jq_attemptCount q) (jq_payloads q) (jq_status q) (jq_queryRequest q) (jq_inSsi q) (jq_cancelled q).
Definition jq_set_attempt {H} (h : H) (n : Z) (p : gmap Z string) (q : JobQuery H) : JobQuery H :=
  mkJobQuery h (jq_interactive q) (jq_rating q) n p (jq_status q) (jq_queryRequest q) (jq_inSsi q) (jq_cancelled q).
Definition jq_set_request {H} (o : option nat) (q : JobQuery H) : JobQuery H :=
  mkJobQuery (jq_handler q) (jq_interactive q) (jq_rating q) (jq_attemptCount q) (jq_payloads q) (jq_status q) o (jq_inSsi q) (jq_cancelled q).
Definition jq_set_inSsi {H} (b : bool) (q : JobQuery H) : JobQuery H :=
  mkJobQuery (jq_handler q) (jq_interactive q) (jq_rating q) (jq_attemptCount q) (jq_payloads q) (jq_status q) (jq_queryRequest q) b (jq_cancelled q).
Definition jq_set_cancelled {H} (b : bool) (q : JobQuery H) : JobQuery H :=
  mkJobQuery (jq_handler q) (jq_interactive q) (jq_rating q) (jq_attemptCount q) (jq_payloads q) (jq_status q) (jq_queryRequest q) (jq_inSsi q) b.

(** [void updateInfo(idMsg, s, code, desc)] *)
Definition updateInfo {H} (st : JobState) (code : Z) (q : JobQuery H) : JobQuery H :=
  mkJobQuery (jq_handler q) (jq_interactive q) (jq_rating q) (jq_attemptCount q) (jq_payloads q) (mkJobInfo st code) (jq_queryRequest q) (jq_inSsi q) (jq_cancelled q).

(** Called, has a job, and finish status of a request; the rest is set one by one. *)
Definition qr_set_finish (st : FinishStatus) (q : QueryRequest) : QueryRequest :=
  mkRequest (qr_job q) (qr_hasJob q) (qr_retried q) (qr_calledMarkComplete q) st (qr_cancelled q) (qr_finishedCalled q) (qr_largeResult q) (qr_ask q) (qr_responded q) (qr_pending q).
Definition qr_set_finishedCalled (retried : bool) (q : QueryRequest) : QueryRequest :=
  mkRequest (qr_job q) (qr_hasJob q) retried (qr_calledMarkComplete q) (qr_finishStatus q) (qr_cancelled q) true (qr_largeResult q) (qr_ask q) (qr_responded q) (qr_pending q).
Definition qr_set_called (q : QueryRequest) : QueryRequest :=
  mkRequest (qr_job q) (qr_hasJob q) (qr_retried q) true (qr_finishStatus q) (qr_cancelled q) (qr_finishedCalled q) (qr_largeResult q) (qr_ask q) (qr_responded q) (qr_pending q).
Definition qr_set_cancelled (q : QueryRequest) : QueryRequest :=
  mkRequest (qr_job q) (qr_hasJob q) true (qr_calledMarkComplete q) (qr_finishStatus q) true (qr_finishedCalled q) (qr_largeResult q) (qr_ask q) (qr_responded q) (qr_pending q).
Definition qr_drop_job (q : QueryRequest) : QueryRequest :=
  mkRequest (qr_job q) false (qr_retried q) (qr_calledMarkComplete q) (qr_finishStatus q) (qr_cancelled q) (qr_finishedCalled q) (qr_largeResult q) (qr_ask q) (qr_responded q) (qr_pending q).
Definition qr_set_data (retried large : bool) (ask : option nat) (q : QueryRequest) : QueryRequest :=
  mkRequest (qr_job q) (qr_hasJob q) retried (qr_calledMarkComplete q) (qr_finishStatus q) (qr_cancelled q) (qr_finishedCalled q) large ask (qr_responded q) (qr_pending q).
Definition qr_set_ssi (responded pending : bool) (q : QueryRequest) : QueryRequest :=
  mkRequest (qr_job q) (qr_hasJob q) (qr_retried q) (qr_calledMarkComplete q) (qr_finishStatus q) (qr_cancelled q) (qr_finishedCalled q) (qr_largeResult q) (qr_ask q) responded pending.

Definition ak_notify (st : AskState) (blen : Z) (last : bool) (a : AskForResponseDataCmd) : AskForResponseDataCmd :=
  mkAsk (ak_request a) st blen last.

Section dispatch.
Context {H : Type} `{ResponseHandler H}.
(** [TaskMsgFactory::serializeMsg] of a job and an attempt, and whether protocol
    buffers accept it. *)
Context (serializeMsg : Z -> Z -> string) (acceptable : string -> bool).

Implicit Types (s : Executive H) (f : Frame H) (h : H) (k : option nat).

Definition ex_set_jobs (m : gmap Z (JobQuery H)) s : Executive H :=
  mkExecutive (ex_cancelled s) m (ex_incompleteJobs s) (ex_requestCount s) (ex_empty s) (ex_totalJobs s) (ex_multiError s) (ex_requests s) (ex_asks s) (ex_pool s).
Definition ex_set_requests (l : list QueryRequest) s : Executive H :=
  mkExecutive (ex_cancelled s) (ex_jobMap s) (ex_incompleteJobs s) (ex_requestCount s) (ex_empty s) (ex_totalJobs s) (ex_multiError s) l (ex_asks s) (ex_pool s).
Definition ex_set_asks (l : list AskForResponseDataCmd) (p : list (nat * nat * Z)) s : Executive H :=
  mkExecutive (ex_cancelled s) (ex_jobMap s) (ex_incompleteJobs s) (ex_requestCount s) (ex_empty s) (ex_totalJobs s) (ex_multiError s) (ex_requests s) l p.
Definition ex_set_incomplete (x : gset Z) s : Executive H :=
  mkExecutive (ex_cancelled s) (ex_jobMap s) x (ex_requestCount s) (ex_empty s) (ex_totalJobs s) (ex_multiError s) (ex_requests s) (ex_asks s) (ex_pool s).
Definition ex_set_cancelled (b : bool) s : Executive H :=
  mkExecutive b (ex_jobMap s) (ex_incompleteJobs s) (ex_requestCount s) (ex_empty s) (ex_totalJobs s) (ex_multiError s) (ex_requests s) (ex_asks s) (ex_pool s).
Definition ex_set_counts (n : Z) (b : bool) (t : Z) (l : list Z) s : Executive H :=
  mkExecutive (ex_cancelled s) (ex_jobMap s) (ex_incompleteJobs s) n b t l (ex_requests s) (ex_asks s) (ex_pool s).

Definition upd_job j (g : JobQuery H -> JobQuery H) s : Executive H := ex_set_jobs (alter g j (ex_jobMap s)) s.
Definition upd_req r (g : QueryRequest -> QueryRequest) s : Executive H := ex_set_requests (alter g r (ex_requests s)) s.

Definition req_job r s : Z := match ex_requests s !! r with Some q => qr_job q | None => 0 end.
Definition is_active r s : bool :=
  match ex_requests s !! r with Some q => bool_decide (qr_finishStatus q = ACTIVE) | None => false end.
Definition has_job r s : bool := match ex_requests s !! r with Some q => qr_hasJob q | None => false end.

(** What [f] does to the handler of job [j]. *)
Definition upd_handler j (g : H -> H) s : Executive H := upd_job j (fun q => jq_set_handler (g (jq_handler q)) q) s.

(** ** [Executive] *)

(** [_addJobToMap] and [_track], under the mutex of [_cancelled]: whether the job
    was added. *)
Definition addJob j h (interactive : bool) (rating : Z) s : Executive H * bool :=
  if ex_cancelled s then (s, false)
  else
    match ex_jobMap s !! j with
    | Some _ => (ex_set_counts (ex_requestCount s) (ex_empty s) (Z.of_nat (size (ex_jobMap s))) (ex_multiError s) s, false)
    | None =>
        let m := <[j := JobQuery_ctor h interactive rating]> (ex_jobMap s) in
        let s1 := ex_set_counts (ex_requestCount s) (ex_empty s) (Z.of_nat (size m)) (ex_multiError s) (ex_set_jobs m s) in
        if decide (j ∈ ex_incompleteJobs s) then (s1, false)
        else (ex_set_incomplete ({[j]} ∪ ex_incompleteJobs s) s1, true)
    end.

(** The jobs that [squash] cancels, in the order of the map. *)
Definition jobsToCancel s : list Z := (map_to_list (ex_jobMap s)).*1.

(** [bool join()] once [_waitAllUntilEmpty] has returned *)
Definition ex_join s : Executive H * bool :=
  let success (q : JobQuery H) := match ji_state (jq_status q) with RESPONSE_DONE | COMPLETE => true | _ => false end in
  let sCount := Z.of_nat (length (filter (fun x => success x.2 = true) (map_to_list (ex_jobMap s)))) in
  let empty := sCount =? ex_requestCount s in
  (ex_set_counts (ex_requestCount s) empty (ex_totalJobs s) (ex_multiError s) s, empty).

(** ** [JobDescription] *)

(** [incrAttemptCountScrubResults()] with [buildPayload()], and [verifyPayload()]:
    whether the job can be sent. *)
Definition incrAttempt j (q : JobQuery H) : JobQuery H * bool :=
  let n := jq_attemptCount q in
  let h := if 0 <=? n then rh_prepScrubResults j n (jq_handler q) else jq_handler q in
  let n' := n + 1 in
  if MAX_JOB_ATTEMPTS <? n' then (jq_set_attempt h n' (jq_payloads q) q, false)
  else
    let p := serializeMsg j n' in
    (jq_set_attempt h n' (<[n' := p]> (jq_payloads q)) q, acceptable p).

(** [GetRequest(int& requestLength)]: what is sent to the worker *)
Definition GetRequest r s : string :=
  match ex_requests s !! r with
  | Some q =>
      if bool_decide (qr_finishStatus q = ACTIVE) && qr_hasJob q then
        match ex_jobMap s !! qr_job q with
        | Some jq => default EmptyString (jq_payloads jq !! jq_attemptCount jq)
        | None => EmptyString
        end
      else EmptyString
  | None => EmptyString
  end.

(** ** [QueryRequest] *)

(** [bool isQueryCancelled()] *)
Definition isQueryCancelled r s : bool :=
  match ex_requests s !! r with
  | Some q => if qr_hasJob q then ex_cancelled s else qr_cancelled q
  | None => false
  end.

(** The queue that [_queueAskForResponse] picks *)
Definition askPriority (interactive : bool) (rating : Z) (large : bool) : Z :=
  if interactive then 0
  else if rating <=? Rating.FAST then if large then 5 else 2
  else if rating <=? Rating.MEDIUM then if large then 6 else 3
  else if rating <=? Rating.SLOW then if large then 7 else 4
  else 7.

(** A new command for data, queued in the pool *)
Definition newAsk r s : Executive H :=
  let c := length (ex_asks s) in
  match ex_requests s !! r with
  | Some q =>
      let prio := match ex_jobMap s !! qr_job q with
                  | Some jq => askPriority (jq_interactive jq) (jq_rating jq) (qr_largeResult q)
                  | None => 7
                  end in
      upd_req r (fun q => qr_set_data (qr_retried q) (qr_largeResult q) (Some c) q)
        (ex_set_asks (ex_asks s ++ [mkAsk r STARTED0 (-1) true]) (ex_pool s ++ [(c, r, prio)]) s)
  | None => s
  end.

(** [notifyFailed()] and [notifyDataSuccess(blen, last)] of the command of a request *)
Definition notify c (st : AskState) (blen : Z) (last : bool) s : Executive H :=
  ex_set_asks (alter (ak_notify st blen last) c (ex_asks s)) (ex_pool s) s.
Definition notify_failed c s : Executive H :=
  ex_set_asks (alter (fun a => ak_notify DONE2 (ak_blen a) (ak_last a) a) c (ex_asks s)) (ex_pool s) s.

(** What happens after [runJob] returns [false] or [true], and after [cancel] of a
    request returns [false]. *)
Definition run_failed k : list (Frame H) := match k with Some r => [FCallMark r false] | None => [] end.
Definition run_started k : list (Frame H) := match k with Some r => [FCleanup r] | None => [] end.
Definition not_cancelled (k : option Z) : list (Frame H) := match k with Some j => [FJobCancel3 j] | None => [] end.

(** [runJob] under the mutex of the job; [FCritical] is [criticalErr], which calls
    [squash]. *)
Definition runLocked j k s : Executive H * list (Frame H) :=
  match ex_jobMap s !! j with
  | None => (s, [FCrash UndefinedBehaviour])
  | Some q =>
      if jq_attemptCount q <? maxAttempts then
        let '(q', ok) := incrAttempt j q in
        if ok : bool then (upd_job j (fun _ => jq_set_inSsi true q') s, [FStartQuery j k])
        else (upd_job j (fun _ => q') s, [FCritical j k])
      else (s, [FCritical j k])
  end.

(** [startQuery] under the mutex of [_cancelled], and the end of [runJob] if it fails *)
Definition startQuery j k s : Executive H * list (Frame H) :=
  if ex_cancelled s then (upd_job j (jq_set_inSsi false) s, run_failed k)
  else
    let r := length (ex_requests s) in
    (upd_job j (jq_set_request (Some r)) (ex_set_requests (ex_requests s ++ [QueryRequest_ctor j]) s), [FStarted j k]).

(** [ProcessResponse] after its tests *)
Definition response r (i : SsiResponse) s : Executive H * list (Frame H) :=
  let j := req_job r s in
  match i with
  | SsiFailed => (upd_job j (updateInfo RESPONSE_ERROR 0) (upd_handler j (rh_errorFlush (-1)) s), [FErrorFinish r false None])
  | SsiMock => (upd_job j (updateInfo COMPLETE 0) s, [FFinish r])
  | SsiError code => (upd_job j (updateInfo RESPONSE_ERROR code) s, [FImportError r code])
  | SsiStream => (upd_job j (updateInfo RESPONSE_READY 0) s, [FImportStream r])
  | SsiNone | SsiData | SsiFile | SsiOther => (s, [FImportError r (-1)])
  end.

(** [ProcessResponseData] after its tests *)
Definition responseData r (blen : Z) (last : bool) (code : Z) s : Executive H * list (Frame H) :=
  let j := req_job r s in
  match ex_requests s !! r with
  | Some (mkRequest _ _ _ _ _ _ _ _ (Some c) _ _) =>
      if blen <? 0 then
        (notify_failed c (upd_handler j (rh_errorFlush code) (upd_job j (updateInfo RESPONSE_DATA_NACK code) s)),
         [FErrorFinish r false None])
      else (notify c DATAREADY1 blen last (upd_job j (updateInfo RESPONSE_DATA 0) s), [])
  | _ => (s, [FCrash UndefinedBehaviour])
  end.

(** [_processData] after its test *)
Definition flush r (blen : Z) (last : bool) s : Executive H * list (Frame H) :=
  let j := req_job r s in
  match ex_requests s !! r, ex_jobMap s !! j with
  | Some q, Some jq =>
      let '(h', res) := rh_flush blen last (jq_handler jq) in
      let s1 := upd_req r (qr_set_data (qr_retried q) (qr_largeResult q || fl_large res) None) (upd_job j (jq_set_handler h') s) in
      if fl_ok res then
        if fl_last res then (upd_job j (updateInfo COMPLETE 0) s1, [FFinish r]) else (newAsk r s1, [])
      else
        (upd_req r (fun q => qr_set_data true (qr_largeResult q) (qr_ask q) q)
           (upd_job j (updateInfo MERGE_ERROR (rh_getError h')) s1), [FErrorFinish r true None])
  | _, _ => (s, [FCrash UndefinedBehaviour])
  end.

(** [markCompleted(jobId, success)] up to the errors *)
Definition mark j (success : bool) s : Executive H * list (Frame H) :=
  if success then (s, [FUnTrack j])
  else if decide (j ∈ ex_incompleteJobs s) then
    match ex_jobMap s !! j with
    | Some q => (s, [FMarkStatus j (rh_getError (jq_handler q))])
    | None => (s, [FCrash UndefinedBehaviour])
    end
  else if ex_cancelled s then (s, []) else (s, [FCrash BugException]).

(** [runJob] up to its mutex *)
Definition runJob j k s : Executive H * list (Frame H) :=
  match ex_jobMap s !! j with
  | None => (s, [FCrash UndefinedBehaviour])
  | Some q =>
      let '(h', handlerReset) := rh_reset (jq_handler q) in
      (upd_job j (jq_set_handler h') s,
       if negb (ex_cancelled s) && handlerReset then [FRunLocked j k] else run_failed k)
  end.

(** [_importStream] *)
Definition importStream r s : Executive H * list (Frame H) :=
  match ex_requests s !! r with
  | Some q => (newAsk r (match qr_ask q with Some c => notify_failed c s | None => s end), [])
  | None => (s, [FCrash UndefinedBehaviour])
  end.

(** [_importError] *)
Definition importError r (code : Z) s : Executive H * list (Frame H) :=
  if is_active r s && has_job r s then (upd_handler (req_job r s) (rh_errorFlush code) s, [FErrorFinish r false None])
  else (s, []).

(** [action] of the command [c]: asking for data, and after the wait *)
Definition askAction c r s : Executive H * list (Frame H) :=
  if isQueryCancelled r s then (s, [FErrorFinish r true None])
  else (upd_req r (fun q => qr_set_ssi (qr_responded q) true q) (upd_handler (req_job r s) rh_nextBuffer s), [FAskWait c r]).
Definition askWait c r s : Executive H * list (Frame H) :=
  match ex_asks s !! c with
  | Some (mkAsk _ DATAREADY1 blen last) => (s, [FProcessData r blen last])
  | Some (mkAsk _ DONE2 _ _) => (s, [FErrorFinish r false None])
  | _ => (s, [FAskWait c r])
  end.

(** [ProcessResponseData] up to its test for cancellation; the network library
    has written the data into the buffer. *)
Definition processResponseData r (blen : Z) (last : bool) (code : Z) (data : bytes) s : Executive H * list (Frame H) :=
  let s1 := upd_handler (req_job r s) (rh_fill data) s in
  match ex_requests s !! r with
  | Some q =>
      match qr_ask q with
      | None => (s1, [])
      | Some _ => (s1, if is_active r s && has_job r s then [FDataCancelled r blen last code] else [FErrorFinish r false None])
      end
  | None => (s1, [])
  end.

(** [QueryRequest::cancel] *)
Definition reqCancel r (k : option Z) s : Executive H * list (Frame H) :=
  match ex_requests s !! r with
  | None => (s, [FCrash UndefinedBehaviour])
  | Some q =>
      if qr_cancelled q then (s, not_cancelled k)
      else (upd_req r qr_set_cancelled (if is_active r s then upd_job (qr_job q) (updateInfo CANCEL 0) s else s),
            [FErrorFinish r true k])
  end.

(** [_errorFinish] under its mutex, and after [Finished] *)
Definition errorFinish r (shouldCancel : bool) (k : option Z) s : Executive H * list (Frame H) :=
  match ex_requests s !! r with
  | None => (s, [FCrash UndefinedBehaviour])
  | Some q =>
      if is_active r s && has_job r s then (upd_req r (qr_set_finish ERROR) s, [FErrorFinish2 r shouldCancel])
      else (s, not_cancelled k)
  end.
Definition errorFinish2 r (shouldCancel : bool) s : Executive H * list (Frame H) :=
  match ex_requests s !! r with
  | None => (s, [FCrash UndefinedBehaviour])
  | Some q =>
      (upd_req r (qr_set_finishedCalled true) s,
       if negb (qr_retried q) && negb shouldCancel then [FRetry (qr_job q) r] else [FCallMark r false])
  end.

(** [_finish] under its mutex *)
Definition finish r s : Executive H * list (Frame H) :=
  if is_active r s then (upd_req r (qr_set_finish FINISHED) s, [FFinish2 r]) else (s, []).

(** [_callMarkComplete] *)
Definition callMarkComplete r (success : bool) s : Executive H * list (Frame H) :=
  match ex_requests s !! r with
  | None => (s, [FCrash UndefinedBehaviour])
  | Some q =>
      if qr_calledMarkComplete q then (s, [FCleanup r])
      else (upd_req r qr_set_called s, if has_job r s then [FMark (qr_job q) success; FCleanup r] else [FCleanup r])
  end.

(** [cleanup] *)
Definition cleanup r s : Executive H * list (Frame H) := (if is_active r s then s else upd_req r qr_drop_job s, []).

(** [squash] *)
Definition squash s : Executive H * list (Frame H) :=
  if ex_cancelled s then (s, []) else (ex_set_cancelled true s, [FSquash2]).

(** [JobQuery::cancel]: the flag, and under the mutex of the job *)
Definition jobCancel j s : Executive H * list (Frame H) :=
  match ex_jobMap s !! j with
  | None => (s, [FCrash UndefinedBehaviour])
  | Some q => if jq_cancelled q then (s, []) else (upd_job j (jq_set_cancelled true) s, [FJobCancel2 j])
  end.
Definition jobCancelLocked j s : Executive H * list (Frame H) :=
  match ex_jobMap s !! j with
  | None => (s, [FCrash UndefinedBehaviour])
  | Some q =>
      if jq_inSsi q then
        match jq_queryRequest q with
        | Some r => (s, [FReqCancel r (Some j); FJobCancel4 j])
        | None => (s, [FCrash UndefinedBehaviour])
        end
      else (s, [FJobCancel3 j; FJobCancel4 j])
  end.

(** ** Steps *)

(** One step of the frame [f]: the new state, and the frames in its place. *)
Definition frame_step f s : Executive H * list (Frame H) :=
  match f with
  | FAdd j h interactive rating =>
      let '(s', added) := addJob j h interactive rating s in (s', if added : bool then [FAdded j] else [])
  | FAdded j => (ex_set_counts (ex_requestCount s + 1) false (ex_totalJobs s) (ex_multiError s) s, [FRunJob j None])
  | FRunJob j k => runJob j k s
  | FRunLocked j k => runLocked j k s
  | FStartQuery j k => startQuery j k s
  | FStarted j k => (upd_job j (updateInfo REQUEST 0) s, run_started k)
  | FCritical j k =>
      if ex_cancelled s then (s, [FRunFail j k]) else (ex_set_cancelled true s, [FSquash2; FRunFail j k])
  | FRunFail j k => (s, run_failed k)
  | FProcessResponse r i => (s, if isQueryCancelled r s then [FReqCancel r None] else [FResponseActive r i])
  | FResponseActive r i => (s, if is_active r s then [FResponse r i] else [])
  | FResponse r i => response r i s
  | FImportStream r => importStream r s
  | FImportError r code => importError r code s
  | FAskAction c r => askAction c r s
  | FAskWait c r => askWait c r s
  | FResponseData r blen last code data => processResponseData r blen last code data s
  | FDataCancelled r blen last code => (s, if ex_cancelled s then [FErrorFinish r true None] else [FData r blen last code])
  | FData r blen last code => responseData r blen last code s
  | FProcessData r blen last => (s, if ex_cancelled s then [FErrorFinish r true None] else [FFlush r blen last])
  | FFlush r blen last => flush r blen last s
  | FReqCancel r k => reqCancel r k s
  | FErrorFinish r sc k => errorFinish r sc k s
  | FErrorFinish2 r sc => errorFinish2 r sc s
  | FFinish r => finish r s
  | FFinish2 r => (upd_req r (fun q => qr_set_finishedCalled (qr_retried q) q) s, [FCallMark r true])
  | FCallMark r success => callMarkComplete r success s
  | FCleanup r => cleanup r s
  | FMark j success => mark j success s
  | FMarkStatus j err => (upd_job j (updateInfo RESULT_ERROR err) s, [FMarkError j err])
  | FMarkError j err =>
      (ex_set_counts (ex_requestCount s) (ex_empty s) (ex_totalJobs s) (ex_multiError s ++ [err]) s, [FUnTrack j; FSquash])
  | FUnTrack j => (ex_set_incomplete (ex_incompleteJobs s ∖ {[j]}) s, [])
  | FSquash => squash s
  | FSquash2 => (s, map FJobCancel (jobsToCancel s))
  | FJobCancel j => jobCancel j s
  | FJobCancel2 j => jobCancelLocked j s
  | FJobCancel3 j => (upd_handler j (rh_errorFlush (-1)) s, [FMark j false])
  | FJobCancel4 j => (s, [])
  | FCrash e => (s, [FCrash e])
  | FRetry j r => (s, [FRunJob j (Some r)])
  end.

(** ** Threads *)

(** The frames whose thread holds the mutex of a job *)
Definition holds_lock f : option Z :=
  match f with
  | FStartQuery j _ | FStarted j _ | FCritical j _ | FRunFail j _ | FJobCancel4 j => Some j
  | _ => None
  end.
(** The frames that have to take it *)
Definition takes_lock f : option Z :=
  match f with
  | FRunLocked j _ | FJobCancel2 j | FRetry j _ => Some j
  | _ => None
  end.

Definition held_by j (st : list (Frame H)) : bool := existsb (fun f => bool_decide (holds_lock f = Some j)) st.

Definition locked_by_other (t : nat) j (ths : list (list (Frame H))) : bool :=
  existsb (fun x => negb (bool_decide (x.1 = t)) && held_by j x.2) (imap pair ths).

(** Whether thread [t] with frame [f] on top has to wait: for a mutex that another
    thread holds, or for data. *)
Definition waits (t : nat) f (ths : list (list (Frame H))) s : bool :=
  match takes_lock f with
  | Some j => locked_by_other t j ths
  | None => match f with
            | FAskWait c _ => match ex_asks s !! c with Some (mkAsk _ STARTED0 _ _) => true | _ => false end
            | FCrash _ => true
            | _ => false
            end
  end.

Record Dispatch := mkDispatch { dp_exec : Executive H; dp_threads : list (list (Frame H)) }.

Definition Dispatch_ctor : Dispatch := mkDispatch Executive_ctor [].

(** What can happen: a job is added, the query is cancelled, the network library
    answers a request or delivers data, the pool starts a command, a thread
    takes a step. *)
Inductive DispatchEvent :=
| DAdd (j : Z) (h : H) (interactive : bool) (rating : Z)
| DSquash
| DResponse (r : nat) (i : SsiResponse)
| DData (r : nat) (blen : Z) (last : bool) (code : Z) (data : bytes)
| DPool (n : nat)
| DStep (t : nat).

Definition spawn (st : list (Frame H)) (s : Executive H) (d : Dispatch) : Dispatch :=
  mkDispatch s (dp_threads d ++ [st]).

Definition dispatch_step (ev : DispatchEvent) (d : Dispatch) : Dispatch :=
  let s := dp_exec d in
  match ev with
  | DAdd j h interactive rating => spawn [FAdd j h interactive rating] s d
  | DSquash => spawn [FSquash] s d
  | DResponse r i =>
      match ex_requests s !! r with
      | Some q => if qr_responded q then d
                  else spawn [FProcessResponse r i] (upd_req r (fun q => qr_set_ssi true (qr_pending q) q) s) d
      | None => d
      end
  | DData r blen last code data =>
      match ex_requests s !! r with
      | Some q => if qr_pending q then
                    spawn [FResponseData r blen last code data] (upd_req r (fun q => qr_set_ssi (qr_responded q) false q) s) d
                  else d
      | None => d
      end
  | DPool n =>
      match ex_pool s !! n with
      | Some (c, r, _) => spawn [FAskAction c r] (ex_set_asks (ex_asks s) (delete n (ex_pool s)) s) d
      | None => d
      end
  | DStep t =>
      match dp_threads d !! t with
      | Some (f :: st) =>
          if waits t f (dp_threads d) s then d
          else let '(s', fs) := frame_step f s in mkDispatch s' (<[t := fs ++ st]> (dp_threads d))
      | _ => d
      end
  end.
End dispatch.
