(* ===== verification/ExecutiveInv.v ===== *)
(** * The dispatch of jobs: well-formed states and counting

    Which objects frames refer to, how the state evolves, the shape of stacks, and
    sums of weights over all frames of all threads, with which the invariants
    of the following files are stated. *)

From S2P Require Import Prelude.
From S2P Require Import MergingHandler.
From S2P Require Import Executive.

Local Open Scope Z_scope.

(** ** Sums of weights *)

Fixpoint lsum {A} (w : A -> nat) (l : list A) : nat :=
  match l with [] => 0%nat | x :: l' => (w x + lsum w l')%nat end.

Section sums.
Context {A : Type}.
Implicit Types (w : A -> nat) (l : list A).

Lemma lsum_app w l l' : lsum w (l ++ l') = (lsum w l + lsum w l')%nat.
Proof. induction l as [|x l IH]; simpl; [done|]. rewrite IH. lia. Qed.

Lemma lsum_insert w l i x y : l !! i = Some x -> (lsum w (<[i := y]> l) + w x = lsum w l + w y)%nat.
Proof.
  revert i. induction l as [|z l IH]; intros i; [done|]. destruct i as [|i]; simpl; [intros [= ->]; lia|].
  intros Hi. specialize (IH i Hi). lia.
Qed.

Lemma lsum_alter w l i x g : l !! i = Some x -> (lsum w (alter g i l) + w x = lsum w l + w (g x))%nat.
Proof.
  revert i. induction l as [|z l IH]; intros i; [done|]. destruct i as [|i]; [simpl; intros [= ->]; lia|].
  change (alter g (S i) (z :: l)) with (z :: alter g i l). cbn [lsum lookup list_lookup]. intros Hi.
  specialize (IH i Hi). lia.
Qed.

Lemma alter_alter (g g' : A -> A) i l : alter g i (alter g' i l) = alter (fun x => g (g' x)) i l.
Proof.
  revert i. induction l as [|z l IH]; intros i; [done|]. destruct i as [|i]; [done|]. exact (f_equal (cons z) (IH i)).
Qed.

Lemma lsum_ge w l x : x ∈ l -> (w x <= lsum w l)%nat.
Proof. induction 1; simpl; lia. Qed.

Lemma lsum_pos w l : (0 < lsum w l)%nat -> exists x, x ∈ l /\ (0 < w x)%nat.
Proof.
  induction l as [|x l IH]; simpl; [lia|]. intros Hl. destruct (w x) eqn:E.
  - destruct IH as (y & Hy & Hw); [lia|]. exists y. split; [by right|done].
  - exists x. split; [by left|lia].
Qed.

Lemma lsum_ext w w' l : Forall (fun x => w x = w' x) l -> lsum w l = lsum w' l.
Proof. induction 1; simpl; congruence. Qed.

Lemma lsum_zero w l : Forall (fun x => w x = 0%nat) l -> lsum w l = 0%nat.
Proof. induction 1; simpl; lia. Qed.
End sums.

Definition b2n (b : bool) : nat := if b then 1%nat else 0%nat.

Section wf.
Context {H : Type} `{ResponseHandler H}.
Context (serializeMsg : Z -> Z -> string) (acceptable : string -> bool).
Implicit Types (s : Executive H) (f : Frame H) (j : Z) (r c : nat) (ths : list (list (Frame H))).

Abbreviation frame_step := (frame_step serializeMsg acceptable).

(** The sum of a weight over all frames *)
Definition total (w : Frame H -> nat) ths : nat := lsum (lsum w) ths.

Lemma total_step w ths t f st fs :
  ths !! t = Some (f :: st) -> (total w (<[t := fs ++ st]> ths) + w f = total w ths + lsum w fs)%nat.
Proof.
  intros Ht. pose proof (lsum_insert (lsum w) ths t (f :: st) (fs ++ st) Ht) as Hs. simpl in Hs.
  rewrite lsum_app in Hs. unfold total. lia.
Qed.

Lemma total_spawn w ths st : total w (ths ++ [st]) = (total w ths + lsum w st)%nat.
Proof. unfold total. rewrite lsum_app. simpl. lia. Qed.

Lemma total_ge w ths t f st : ths !! t = Some st -> f ∈ st -> (w f <= total w ths)%nat.
Proof.
  intros Ht Hf. etrans; [by apply lsum_ge|]. apply (lsum_ge (lsum w)). by eapply list_elem_of_lookup_2.
Qed.

Lemma total_pos w ths : (0 < total w ths)%nat -> exists t st f, ths !! t = Some st /\ f ∈ st /\ (0 < w f)%nat.
Proof.
  intros (st & Hst & Hw)%lsum_pos. apply lsum_pos in Hw as (f & Hf & Hw).
  apply list_elem_of_lookup_1 in Hst as (t & Ht). eauto 10.
Qed.

Lemma total_ext (w w' : Frame H -> nat) ths : Forall (Forall (fun f => w f = w' f)) ths -> total w ths = total w' ths.
Proof. intros Ha. apply lsum_ext. eapply Forall_impl; [exact Ha|]. intros st Hst. by apply lsum_ext. Qed.

Lemma total_zero (w : Frame H -> nat) ths : Forall (Forall (fun f => w f = 0%nat)) ths -> total w ths = 0%nat.
Proof. intros Ha. apply lsum_zero. eapply Forall_impl; [exact Ha|]. intros st Hst. by apply lsum_zero. Qed.

Lemma total_mono (w w' : Frame H -> nat) ths : (forall f, (w f <= w' f)%nat) -> (total w ths <= total w' ths)%nat.
Proof.
  intros Hw. assert (Hl : forall st, (lsum w st <= lsum w' st)%nat).
  { intros st. induction st as [|f st IH]; simpl; [done|]. pose proof (Hw f). lia. }
  unfold total. induction ths as [|st ths IH]; simpl; [done|]. pose proof (Hl st). lia.
Qed.

Lemma total_add (w w' : Frame H -> nat) ths : total (fun f => w f + w' f)%nat ths = (total w ths + total w' ths)%nat.
Proof.
  assert (Hl : forall st, lsum (fun f => w f + w' f)%nat st = (lsum w st + lsum w' st)%nat).
  { intros st. induction st as [|f st IH]; simpl; [done|]. rewrite IH. lia. }
  unfold total. induction ths as [|st ths IH]; simpl; [done|]. rewrite IH, Hl. lia.
Qed.

Lemma total_elem w ths : Forall (Forall (fun f => w f <= total w ths)%nat) ths.
Proof.
  apply Forall_lookup. intros t st Ht. apply Forall_forall. intros f Hf. by eapply total_ge.
Qed.

(** ** Objects that frames refer to *)

Definition knows s j : Prop := is_Some (ex_jobMap s !! j).
Definition job_is s r j : Prop := exists q, ex_requests s !! r = Some q /\ qr_job q = j.
Definition has_req s r : Prop := is_Some (ex_requests s !! r).

Definition frame_wf s f : Prop :=
  match f with
  | FAdd _ _ _ _ | FSquash | FCrash _ => True
  | FRunJob j k | FRunLocked j k | FStartQuery j k | FStarted j k | FCritical j k =>
      knows s j /\ match k with Some r => job_is s r j | None => True end
  | FRunFail j k => ex_cancelled s = true /\ knows s j /\ match k with Some r => job_is s r j | None => True end
  | FAdded j | FMark j _ | FMarkStatus j _ | FMarkError j _ | FUnTrack j => knows s j
  | FRetry j r => knows s j /\ job_is s r j
  | FSquash2 => ex_cancelled s = true
  | FJobCancel j | FJobCancel2 j | FJobCancel3 j | FJobCancel4 j => knows s j /\ ex_cancelled s = true
  | FReqCancel r k => has_req s r /\ match k with Some j => job_is s r j /\ ex_cancelled s = true | None => True end
  | FErrorFinish r sc k =>
      has_req s r /\ match k with Some j => job_is s r j /\ ex_cancelled s = true /\ sc = true | None => True end
  | FProcessResponse r _ | FResponseActive r _ | FResponse r _ | FImportStream r | FImportError r _
  | FAskAction _ r | FAskWait _ r | FResponseData r _ _ _ _ | FDataCancelled r _ _ _ | FData r _ _ _
  | FProcessData r _ _ | FFlush r _ _ | FErrorFinish2 r _ | FFinish r | FFinish2 r | FCallMark r _ | FCleanup r => has_req s r
  end.

Record state_wf s : Prop := {
  sw_requests r q : ex_requests s !! r = Some q -> knows s (qr_job q);
  sw_incomplete j : j ∈ ex_incompleteJobs s -> knows s j;
  sw_current j q r : ex_jobMap s !! j = Some q -> jq_queryRequest q = Some r -> job_is s r j;
  sw_asks r q c : ex_requests s !! r = Some q -> qr_ask q = Some c ->
    exists a, ex_asks s !! c = Some a /\ ak_request a = r;
  sw_pool c r p : (c, r, p) ∈ ex_pool s -> has_req s r;
}.

(** ** How the state evolves *)

Record evolves s s' : Prop := {
  ev_cancelled : ex_cancelled s = true -> ex_cancelled s' = true;
  ev_jobs j : knows s j -> knows s' j;
  ev_requests r j : job_is s r j -> job_is s' r j;
}.

Lemma job_is_has s r : has_req s r <-> exists j, job_is s r j.
Proof. split; [intros (q & Hq); by exists (qr_job q), q|intros (j & q & Hq & _); by exists q]. Qed.

Lemma evolves_has s s' r : evolves s s' -> has_req s r -> has_req s' r.
Proof. intros He (j & Hj)%job_is_has. apply job_is_has. exists j. by apply He. Qed.

#[export] Instance evolves_refl : Reflexive evolves.
Proof. by split. Qed.
#[export] Instance evolves_trans : Transitive evolves.
Proof. intros s1 s2 s3 H1 H2. split; intros; apply H2, H1; done. Qed.

Lemma frame_wf_evolves s s' f : evolves s s' -> frame_wf s f -> frame_wf s' f.
Proof using Type.
  clear serializeMsg acceptable.
  intros He. pose proof (evolves_has s s') as Hh. destruct He as [Hc Hj Hr].
  destruct f as [ | |? [] |? []|? []|? []|? []|? []| | | | | | | | | | | | |? []|? ? []| | | | | | | | | | | | | | | | |];
    simpl; try done; intuition eauto using Build_evolves.
Qed.

Lemma evolves_upd_job s j g : evolves s (upd_job j g s).
Proof.
  split; [done| |done]. intros j'. unfold knows. simpl. rewrite lookup_alter_is_Some. done.
Qed.

Lemma evolves_upd_req s r g : (forall q, qr_job (g q) = qr_job q) -> evolves s (upd_req r g s).
Proof.
  intros Hg. split; [done|done|]. intros r' j (q & Hq & Hj). unfold job_is. simpl. rewrite list_lookup_alter.
  case_decide; [subst r'|by exists q]. rewrite Hq. exists (g q). by rewrite Hg.
Qed.

Lemma evolves_asks s l p : evolves s (ex_set_asks l p s).
Proof. by split. Qed.

Lemma evolves_new_request s q : evolves s (ex_set_requests (ex_requests s ++ [q]) s).
Proof.
  split; [done|done|]. intros r j (q' & Hq & Hj). exists q'. split; [|done]. simpl. by apply lookup_app_l_Some.
Qed.

(** ** Updates keep states well-formed *)

Lemma upd_job_wf s j (g : JobQuery H -> JobQuery H) :
  state_wf s -> (forall q r, jq_queryRequest (g q) = Some r -> jq_queryRequest q = Some r \/ job_is s r j) ->
  state_wf (upd_job j g s).
Proof.
  intros [Hr Hi Hc Ha Hp] Hg. pose proof (evolves_upd_job s j g) as He. split; simpl.
  - intros r q Hq. by eapply He, Hr.
  - intros j' Hj. by apply He, Hi.
  - intros j' q r Hq Hcur. change (job_is s r j'). destruct (decide (j = j')) as [<-|Hne].
    + rewrite lookup_alter_eq in Hq. destruct (ex_jobMap s !! j) as [q'|] eqn:E; [|done]. simplify_eq/=.
      destruct (Hg _ _ Hcur) as [Hcur'|?]; [by eapply Hc|done].
    + rewrite lookup_alter_ne in Hq by done. by eapply Hc.
  - done.
  - done.
Qed.

Lemma upd_req_wf s r g :
  state_wf s -> (forall q, qr_job (g q) = qr_job q) ->
  (forall q c, ex_requests s !! r = Some q -> qr_ask (g q) = Some c ->
     qr_ask q = Some c \/ exists a, ex_asks s !! c = Some a /\ ak_request a = r) ->
  state_wf (upd_req r g s).
Proof.
  intros [Hr Hi Hc Ha Hp] Hg Hask. pose proof (evolves_upd_req s r g Hg) as He. split; simpl.
  - intros r' q. rewrite list_lookup_alter. case_decide; [|apply Hr]. destruct (ex_requests s !! r) as [q'|] eqn:E; [|done].
    intros [= <-]. rewrite Hg. by eapply Hr.
  - done.
  - intros j q r' Hq Hcur. eapply He, Hc; done.
  - intros r' q c. rewrite list_lookup_alter. case_decide as Hd; [|apply Ha]. subst r'. destruct (ex_requests s !! r) as [q'|] eqn:E; [|done].
    intros [= <-] Hq. destruct (Hask q' c eq_refl Hq) as [Hq'|?]; [by eapply Ha|done].
  - intros c r' p Hin. eapply evolves_has, Hp; done.
Qed.

Lemma notify_wf s c g : (forall a, ak_request (g a) = ak_request a) -> state_wf s -> state_wf (ex_set_asks (alter g c (ex_asks s)) (ex_pool s) s).
Proof.
  intros Hg [Hr Hi Hc Ha Hp]. split; simpl; try done. intros r q c' Hq Hask. destruct (Ha r q c' Hq Hask) as (a & Hl & Hreq).
  rewrite list_lookup_alter. case_decide; [subst c'|by exists a]. rewrite Hl. exists (g a). by rewrite Hg.
Qed.

Lemma newAsk_wf s r : state_wf s -> state_wf (newAsk r s) /\ evolves s (newAsk r s).
Proof.
  intros Hs. unfold newAsk. destruct (ex_requests s !! r) as [q|] eqn:E; [|done].
  set (s1 := ex_set_asks _ _ s).
  assert (H1 : state_wf s1).
  { destruct Hs as [Hr Hi Hc Ha Hp]. split; simpl; try done.
    - intros r' q' c' Hq Hask. destruct (Ha r' q' c' Hq Hask) as (a & Hl & Hreq). exists a. split; [|done]. by apply lookup_app_l_Some.
    - intros c' r' p [Hin|Hin%list_elem_of_singleton]%elem_of_app; [by eapply Hp|]. simplify_eq. by exists q. }
  split; [|transitivity s1; [by split|by apply evolves_upd_req]].
  apply upd_req_wf; [done|done|]. intros q' c' Hq [= <-]. right. exists (mkAsk r STARTED0 (-1) true). split; [|done].
  simpl. by rewrite lookup_app_r, Nat.sub_diag by lia.
Qed.

Lemma addJob_wf s j h i n :
  state_wf s -> let '(s', added) := addJob j h i n s in state_wf s' /\ evolves s s' /\ (added = true -> knows s' j).
Proof.
  intros Hs. unfold addJob. destruct (ex_cancelled s) eqn:Ec; [done|]. destruct (ex_jobMap s !! j) as [q|] eqn:E; [by destruct Hs|].
  set (m := <[j := _]> (ex_jobMap s)).
  assert (Hk : forall j', knows s j' -> is_Some (m !! j')).
  { intros j' Hj. unfold m. destruct (decide (j = j')) as [<-|]; [by rewrite lookup_insert_eq|by rewrite lookup_insert_ne]. }
  assert (Hm : forall j' q r, m !! j' = Some q -> jq_queryRequest q = Some r -> job_is s r j').
  { intros j' q r Hq Hcur. unfold m in Hq. destruct (decide (j = j')) as [<-|].
    - rewrite lookup_insert_eq in Hq. by simplify_eq.
    - rewrite lookup_insert_ne in Hq by done. by eapply (sw_current s). }
  assert (He : evolves s (ex_set_jobs m s)) by (split; [done|exact Hk|done]).
  assert (H1 : state_wf (ex_set_jobs m s)).
  { destruct Hs as [Hr Hi Hc Ha Hp]. split; [intros r q Hq; by eapply Hk, Hr|intros j' Hj; by apply Hk, Hi|exact Hm|exact Ha|exact Hp]. }
  assert (Hj : is_Some (m !! j)) by (unfold m; by rewrite lookup_insert_eq).
  case_decide; (split; [|by destruct He]); destruct H1 as [Hr Hi Hc Ha Hp]; [done|].
  split; [exact Hr| |exact Hc|exact Ha|exact Hp]. intros j' Hin. simpl in Hin. apply elem_of_union in Hin as [->%elem_of_singleton|Hj']; [exact Hj|by apply Hi].
Qed.

Lemma req_job_is s r : has_req s r -> job_is s r (req_job r s).
Proof. intros (q & Hq). exists q. unfold req_job. by rewrite Hq. Qed.

Lemma upd_handler_wf s j g : state_wf s -> state_wf (upd_handler j g s).
Proof. intros Hs. apply upd_job_wf; [done|]. auto. Qed.

(** The result of a step of a well-formed frame *)
Definition step_wf s (x : Executive H * list (Frame H)) : Prop :=
  evolves s x.1 /\ state_wf x.1 /\ Forall (frame_wf x.1) x.2.

Lemma step_wf_intro s s' fs : evolves s s' -> state_wf s' -> Forall (frame_wf s') fs -> step_wf s (s', fs).
Proof. done. Qed.

Lemma step_wf_same s fs : state_wf s -> Forall (frame_wf s) fs -> step_wf s (s, fs).
Proof. done. Qed.

Lemma step_wf_job s j g fs :
  state_wf s -> (forall q, jq_queryRequest (g q) = jq_queryRequest q) -> Forall (frame_wf s) fs -> step_wf s (upd_job j g s, fs).
Proof.
  intros Hs Hg Hfs. apply step_wf_intro; [apply evolves_upd_job|apply upd_job_wf; [done|]|].
  - intros q r. rewrite Hg. auto.
  - eapply Forall_impl; [exact Hfs|]. intros f. apply frame_wf_evolves, evolves_upd_job.
Qed.

Lemma step_wf_req s r g fs :
  state_wf s -> (forall q, qr_job (g q) = qr_job q) -> (forall q, qr_ask (g q) = qr_ask q \/ qr_ask (g q) = None) ->
  Forall (frame_wf s) fs -> step_wf s (upd_req r g s, fs).
Proof.
  intros Hs Hg Ha Hfs. apply step_wf_intro; [by apply evolves_upd_req|apply upd_req_wf; [done|done|]|].
  - intros q c _ Hc. destruct (Ha q) as [He|He]; rewrite He in Hc; [auto|done].
  - eapply Forall_impl; [exact Hfs|]. intros f. by apply frame_wf_evolves, evolves_upd_req.
Qed.

Lemma step_wf_trans s s1 x : step_wf s (s1, []) -> step_wf s1 x -> step_wf s x.
Proof. intros (He & _ & _) (He1 & Hs & Hf). split; [by etrans|done]. Qed.

Lemma run_failed_wf s j k : match k with Some r => job_is s r j | None => True end -> Forall (frame_wf s) (run_failed k).
Proof. destruct k as [r|]; [|by constructor]. intros Hk. constructor; [|constructor]. apply job_is_has. eauto. Qed.

Lemma run_started_wf s j k : match k with Some r => job_is s r j | None => True end -> Forall (frame_wf s) (run_started k).
Proof. destruct k as [r|]; [|by constructor]. intros Hk. constructor; [|constructor]. apply job_is_has. eauto. Qed.

Lemma not_cancelled_wf s r k :
  state_wf s -> match k with Some j => job_is s r j /\ ex_cancelled s = true | None => True end -> Forall (frame_wf s) (not_cancelled k).
Proof.
  intros Hs. destruct k as [j|]; [|by constructor]. intros [(q & Hq & <-) Hc]. constructor; [|constructor].
  split; [by eapply sw_requests|done].
Qed.

Lemma runLocked_wf s j k :
  state_wf s -> frame_wf s (FRunLocked j k) -> step_wf s (runLocked serializeMsg acceptable j k s).
Proof.
  intros Hs [Hj Hk]. unfold runLocked. destruct (ex_jobMap s !! j) as [q|] eqn:E; [|by apply step_wf_same; [|repeat constructor]].
  assert (Hfs : Forall (frame_wf s) [FCritical j k]) by (repeat constructor; done).
  destruct (jq_attemptCount q <? maxAttempts); [|by apply step_wf_same].
  destruct (incrAttempt serializeMsg acceptable j q) as [q' ok] eqn:Ei.
  assert (Hq : jq_queryRequest q' = jq_queryRequest q).
  { unfold incrAttempt in Ei. destruct (MAX_JOB_ATTEMPTS <? _); by simplify_eq. }
  assert (Hw : forall q2, jq_queryRequest q2 = jq_queryRequest q' -> state_wf (upd_job j (fun _ => q2) s)).
  { intros q2 Hq2. apply upd_job_wf; [done|]. intros q3 r Hr. right. rewrite Hq2, Hq in Hr. by eapply sw_current. }
  destruct ok; apply step_wf_intro; [apply evolves_upd_job|by apply Hw| |apply evolves_upd_job|by apply Hw|].
  - constructor; [|constructor]. eapply frame_wf_evolves; [apply evolves_upd_job|]. done.
  - eapply Forall_impl; [exact Hfs|]. intros f. apply frame_wf_evolves, evolves_upd_job.
Qed.

Lemma startQuery_wf s j k : state_wf s -> frame_wf s (FStartQuery j k) -> step_wf s (startQuery j k s).
Proof.
  intros Hs [Hj Hk]. unfold startQuery. destruct (ex_cancelled s).
  - apply step_wf_job; [done|done|]. by eapply run_failed_wf.
  - set (q0 := QueryRequest_ctor j). set (s1 := ex_set_requests _ s).
    pose proof (evolves_new_request s q0) as He. fold s1 in He.
    assert (Hnew : job_is s1 (length (ex_requests s)) j).
    { exists q0. split; [|done]. simpl. by rewrite lookup_app_r, Nat.sub_diag by lia. }
    assert (H1 : state_wf s1).
    { destruct Hs as [Hr Hi Hc Ha Hp]. split; try done.
      - intros r q [Hq|[_ Hq]]%lookup_app_Some; [by eapply Hr|]. apply list_lookup_singleton_Some in Hq as [_ <-]. done.
      - intros j' q r Hq Hcur. by eapply He, Hc.
      - intros r q c [Hq|[_ Hq]]%lookup_app_Some Hask; [by eapply Ha|]. apply list_lookup_singleton_Some in Hq as [_ <-]. done.
      - intros c r p Hin. eapply evolves_has, Hp; done. }
    apply step_wf_intro; [etrans; [exact He|apply evolves_upd_job]| |].
    + apply upd_job_wf; [done|]. intros q r [= <-]. by right.
    + constructor; [|constructor]. eapply frame_wf_evolves; [etrans; [exact He|apply evolves_upd_job]|]. done.
Qed.

Lemma response_wf s r i : state_wf s -> has_req s r -> step_wf s (response r i s).
Proof.
  intros Hs Hr. destruct i; simpl.
  1: apply step_wf_trans with (s1 := upd_handler (req_job r s) (rh_errorFlush (-1)) s); [by apply step_wf_job|].
  1: apply step_wf_job; [by apply upd_handler_wf|done|repeat constructor; eapply evolves_has; [apply evolves_upd_job|done]].
  all: first [apply step_wf_job; [done|done|]|apply step_wf_same; [done|]]; repeat constructor; done.
Qed.

Lemma responseData_wf s r blen last code : state_wf s -> has_req s r -> step_wf s (responseData r blen last code s).
Proof.
  intros Hs Hr. unfold responseData. destruct (ex_requests s !! r) as [[? ? ? ? ? ? ? ? [c|] ? ?]|];
    [|by apply step_wf_same; [|repeat constructor]..].
  destruct (blen <? 0).
  - set (s1 := upd_handler _ _ _).
    assert (He : evolves s s1) by (etrans; [apply evolves_upd_job|apply evolves_upd_job]).
    apply step_wf_intro; [etrans; [exact He|apply evolves_asks]| |].
    + apply notify_wf; [done|]. apply upd_handler_wf, upd_job_wf; [done|]. auto.
    + repeat constructor. by apply (evolves_has s s1).
  - apply step_wf_intro; [etrans; [apply evolves_upd_job|apply evolves_asks]| |constructor].
    apply notify_wf; [done|]. apply upd_job_wf; [done|]. auto.
Qed.

Lemma flush_wf s r blen last : state_wf s -> has_req s r -> step_wf s (flush r blen last s).
Proof.
  intros Hs Hr. unfold flush. destruct (ex_requests s !! r) as [q|]; [|by apply step_wf_same; [|repeat constructor]].
  destruct (ex_jobMap s !! req_job r s) as [jq|] eqn:E; [|by apply step_wf_same; [|repeat constructor]].
  destruct (rh_flush blen last (jq_handler jq)) as [h' res]. set (s1 := upd_req r _ _).
  assert (H1 : state_wf s1).
  { apply upd_req_wf; [by apply upd_job_wf; auto|done|]. intros q' c _ Hc. done. }
  assert (He : evolves s s1) by (etrans; [apply evolves_upd_job|by apply evolves_upd_req]).
  apply step_wf_trans with (s1 := s1); [by apply step_wf_intro|].
  assert (Hr1 : has_req s1 r) by (by eapply evolves_has).
  destruct (fl_ok res); [destruct (fl_last res)|].
  - apply step_wf_job; [done|done|]. by repeat constructor.
  - destruct (newAsk_wf s1 r H1). by apply step_wf_intro.
  - set (s2 := upd_job _ _ s1). apply step_wf_trans with (s1 := s2); [by apply step_wf_job|].
    apply step_wf_req; [apply upd_job_wf; auto|done|auto|].
    repeat constructor. eapply evolves_has; [apply evolves_upd_job|done].
Qed.

Lemma mark_wf s j b : state_wf s -> knows s j -> step_wf s (mark j b s).
Proof.
  intros Hs Hj. unfold mark. destruct b; [|case_decide; [destruct (ex_jobMap s !! j)|destruct (ex_cancelled s)]];
    (apply step_wf_same; [done|]); by repeat constructor.
Qed.

Lemma frame_step_wf s f : state_wf s -> frame_wf s f -> step_wf s (frame_step f s).
Proof.
  intros Hs Hf. destruct f; simpl in Hf |- *;
    unfold runJob, importStream, importError, askAction, askWait, processResponseData, reqCancel, errorFinish, errorFinish2, finish, callMarkComplete, cleanup, squash, jobCancel, jobCancelLocked.
  - pose proof (addJob_wf s j h interactive rating Hs) as Ha. destruct (addJob _ _ _ _ s) as [s' added]. destruct Ha as (? & ? & Hk).
    apply step_wf_intro; [done..|]. destruct added; [|constructor]. by repeat constructor; apply Hk.
  - apply step_wf_intro; [by split|by destruct Hs|]. by repeat constructor.
  - destruct Hf as [Hj Hk]. destruct (ex_jobMap s !! j) as [q|]; [|by apply step_wf_same; [|repeat constructor]].
    destruct (rh_reset (jq_handler q)) as [h' b]. apply step_wf_job; [done|done|].
    destruct (negb _ && b); [by repeat constructor|by eapply run_failed_wf].
  - by apply runLocked_wf.
  - by apply startQuery_wf.
  - apply step_wf_job; [done|done|]. by eapply run_started_wf, Hf.
  - destruct Hf as [Hj Hk]. destruct (ex_cancelled s) eqn:E; [apply step_wf_same; [done|]; by repeat constructor|].
    apply step_wf_intro; [by split|by destruct Hs|]. by repeat constructor.
  - apply step_wf_same; [done|]. by eapply run_failed_wf, Hf.
  - apply step_wf_same; [done|]. destruct (isQueryCancelled r s); by repeat constructor.
  - apply step_wf_same; [done|]. destruct (is_active r s); by repeat constructor.
  - by apply response_wf.
  - destruct (ex_requests s !! r) as [q|]; [|by apply step_wf_same; [|repeat constructor]].
    set (s1 := match qr_ask q with Some c => notify_failed c s | None => s end).
    assert (H1 : state_wf s1 /\ evolves s s1).
    { unfold s1. destruct (qr_ask q); [|done]. split; [by apply notify_wf|apply evolves_asks]. }
    destruct H1 as [H1 He1]. destruct (newAsk_wf s1 r H1). apply step_wf_intro; [by etrans|done|constructor].
  - destruct (is_active r s && has_job r s); [|by apply step_wf_same]. apply step_wf_job; [done|done|]. by repeat constructor.
  - destruct (isQueryCancelled r s); [apply step_wf_same; [done|]; by repeat constructor|].
    eapply step_wf_trans with (s1 := upd_handler (req_job r s) rh_nextBuffer s); [by apply step_wf_job|].
    apply step_wf_req; [by apply upd_handler_wf|done|auto|]. repeat constructor. eapply evolves_has; [apply evolves_upd_job|done].
  - destruct (ex_asks s !! c) as [[? [] ? ?]|]; (apply step_wf_same; [done|]); by repeat constructor.
  - set (s1 := upd_handler _ _ s). assert (He : evolves s s1) by apply evolves_upd_job.
    destruct (ex_requests s !! r) as [q|]; [destruct (qr_ask q); [|]|];
      (apply step_wf_job; [done|done|]); try constructor.
    destruct (is_active r s && has_job r s); by repeat constructor.
  - apply step_wf_same; [done|]. destruct (ex_cancelled s); by repeat constructor.
  - by apply responseData_wf.
  - apply step_wf_same; [done|]. destruct (ex_cancelled s); by repeat constructor.
  - by apply flush_wf.
  - destruct Hf as [Hr Hk]. destruct (ex_requests s !! r) as [q|] eqn:E; [|by apply step_wf_same; [|repeat constructor]].
    destruct (qr_cancelled q); [apply step_wf_same; [done|]; by eapply not_cancelled_wf|].
    set (s1 := if is_active r s then _ else s).
    assert (H1 : step_wf s (s1, [])) by (unfold s1; destruct (is_active r s); [by apply step_wf_job|by apply step_wf_same]).
    eapply step_wf_trans; [exact H1|]. destruct H1 as (He & H1 & _). apply step_wf_req; [done|done|auto|].
    constructor; [|constructor]. eapply frame_wf_evolves; [exact He|]. simpl. split; [done|]. destruct k as [j|]; [|done]. by destruct Hk as (? & ?).
  - destruct Hf as [Hr Hk]. destruct (ex_requests s !! r) as [q|] eqn:E; [|by apply step_wf_same; [|repeat constructor]].
    destruct (is_active r s && has_job r s).
    + apply step_wf_req; [done|done|auto|]. by repeat constructor.
    + apply step_wf_same; [done|]. eapply (not_cancelled_wf s r); [done|]. destruct k as [j|]; [|done]. by destruct Hk as (? & ? & ?).
  - destruct (ex_requests s !! r) as [q|] eqn:E; [|by apply step_wf_same; [|repeat constructor]].
    apply step_wf_req; [done|done|auto|]. destruct (negb _ && _); [|by repeat constructor].
    repeat constructor; simpl; [by eapply sw_requests|by exists q].
  - destruct (is_active r s); [|by apply step_wf_same]. apply step_wf_req; [done|done|auto|]. by repeat constructor.
  - apply step_wf_req; [done|done|auto|]. by repeat constructor.
  - destruct (ex_requests s !! r) as [q|] eqn:E; [|by apply step_wf_same; [|repeat constructor]].
    destruct (qr_calledMarkComplete q); [apply step_wf_same; [done|]; by repeat constructor|].
    apply step_wf_req; [done|done|auto|]. destruct (has_job r s); [|by repeat constructor].
    repeat constructor; [by eapply sw_requests|done].
  - destruct (is_active r s); [by apply step_wf_same|]. apply step_wf_req; [done|done|auto|constructor].
  - by apply mark_wf.
  - apply step_wf_job; [done|done|]. by repeat constructor.
  - apply step_wf_intro; [by split|by destruct Hs|]. by repeat constructor.
  - apply step_wf_intro; [by split| |constructor]. destruct Hs as [Hr Hi Hc Ha Hp]. split; try done.
    intros j' Hj. simpl in Hj. apply elem_of_difference in Hj as [Hj _]. by apply Hi.
  - destruct (ex_cancelled s) eqn:E; [by apply step_wf_same|]. apply step_wf_intro; [by split|by destruct Hs|]. by repeat constructor.
  - apply step_wf_same; [done|]. unfold jobsToCancel. apply Forall_map, Forall_fmap, Forall_forall.
    intros [j q] Hjq%elem_of_map_to_list. split; [by exists q|done].
  - destruct (ex_jobMap s !! j) as [q|]; [|by apply step_wf_same; [|repeat constructor]].
    destruct (jq_cancelled q); [by apply step_wf_same|]. apply step_wf_job; [done|done|]. by repeat constructor; apply Hf.
  - destruct Hf as [Hj Hc]. destruct (ex_jobMap s !! j) as [q|] eqn:E; [|by apply step_wf_same; [|repeat constructor]].
    destruct (jq_inSsi q); [destruct (jq_queryRequest q) as [r|] eqn:Er|]; (apply step_wf_same; [done|]); [|by repeat constructor..].
    pose proof (sw_current s Hs j q r E Er) as Hr. repeat constructor; try done. by eapply job_is_has; eauto.
  - apply step_wf_job; [done|done|]. by repeat constructor; apply Hf.
  - by apply step_wf_same.
  - apply step_wf_same; [done|]. by repeat constructor.
  - apply step_wf_same; [done|]. by repeat constructor; apply Hf.
Qed.
(** A step of the thread [t] with [f] on top of [st] *)
Definition stepped t f st ths s s' ths' : Prop :=
  ths !! t = Some (f :: st) /\ exists fs, frame_step f s = (s', fs) /\ ths' = <[t := fs ++ st]> ths.

Lemma total_absent w s ths :
  (forall f, frame_wf s f -> w f = 0%nat) -> Forall (Forall (frame_wf s)) ths -> total w ths = 0%nat.
Proof.
  intros Hw Ha. apply total_zero. eapply Forall_impl; [exact Ha|]. intros st Hst. eapply Forall_impl; [exact Hst|]. done.
Qed.

Lemma lsum_JobCancel (w : Frame H -> nat) (l : list Z) : (forall j, w (FJobCancel j) = 0%nat) -> lsum w (map FJobCancel l) = 0%nat.
Proof. intros Hw. induction l as [|j l IH]; simpl; [done|]. by rewrite Hw, IH. Qed.

(** The other frames after a step *)
Lemma Forall_rest (P : Frame H -> Prop) ths t f st :
  ths !! t = Some (f :: st) -> Forall (Forall P) ths -> P f /\ Forall (Forall P) (<[t := st]> ths).
Proof.
  intros Ht Ha. pose proof (proj1 (Forall_lookup _ _) Ha t _ Ht) as [Hf Hst]%Forall_cons. split; [done|]. by apply Forall_insert.
Qed.

Lemma Forall_step (P : Frame H -> Prop) ths t st fs :
  Forall (Forall P) (<[t := st]> ths) -> (t < length ths)%nat -> Forall P fs -> Forall (Forall P) (<[t := fs ++ st]> ths).
Proof.
  intros Ha Ht Hfs. rewrite <- (list_insert_insert_eq ths t (fs ++ st) st). apply Forall_insert; [done|].
  apply Forall_app. split; [done|]. apply (proj1 (Forall_lookup _ _) Ha t). by apply list_lookup_insert_eq.
Qed.

(** What holds of all frames is kept if it holds of the new ones and is stable for the others. *)
Lemma frames_step (P P' : Frame H -> Prop) ths t f st fs :
  Forall (Forall P) ths -> ths !! t = Some (f :: st) -> Forall P' fs ->
  (forall g, P g -> (forall w, (w g <= total w (<[t := st]> ths))%nat) -> P' g) -> Forall (Forall P') (<[t := fs ++ st]> ths).
Proof.
  intros Ha Ht Hfs Hk. apply Forall_step; [|by eapply lookup_lt_Some|exact Hfs].
  pose proof (Forall_rest P ths t f st Ht Ha) as [_ Hr].
  apply Forall_lookup. intros t' l Hl. apply Forall_forall. intros g Hg.
  apply Hk; [exact (proj1 (Forall_forall _ _) (proj1 (Forall_lookup _ _) Hr t' l Hl) g Hg)|]. intros w. by eapply total_ge.
Qed.

Lemma total_rest w ths t f st : ths !! t = Some (f :: st) -> total w ths = (w f + total w (<[t := st]> ths))%nat.
Proof. intros Ht. pose proof (total_step w ths t f st [] Ht) as Hs. simpl in Hs. lia. Qed.
End wf.

Ltac unfold_handlers Hs :=
  unfold runJob, importStream, importError, askAction, askWait,
    processResponseData, reqCancel, errorFinish, errorFinish2, finish, callMarkComplete, cleanup, squash, jobCancel, jobCancelLocked,
    addJob, runLocked, startQuery, response, responseData, flush, mark, run_failed, run_started, not_cancelled in Hs.

(** Case analysis of a step: all branches of the handlers, without those in which
    an object that the frame refers to does not exist. *)
Ltac wf_branch Hf :=
  try match goal with
  | Hn : ex_jobMap ?s !! ?j = None |- _ =>
      exfalso; simpl in Hf; assert (knows s j) as [? ?] by (first [exact Hf|apply Hf]); congruence
  | Hn : ex_requests ?s !! ?r = None |- _ =>
      exfalso; simpl in Hf; assert (has_req s r) as [? ?] by (first [exact Hf|apply Hf]); congruence
  end.

Ltac step_cases f Hs Hf :=
  destruct f as [ | |? [] |? []|? []|? []|? []|? []| | | | | | | | | | | | |? []|? ? []| | | | | | | | | | | | | | | | |];
  simpl in Hs; unfold_handlers Hs; unfold newAsk, incrAttempt, is_active, has_job in Hs;
  repeat case_match; wf_branch Hf; simplify_eq/=.

Ltac lookup_cases :=
  repeat match goal with
  | Hq : alter _ _ _ !! _ = Some _ |- _ => rewrite list_lookup_alter in Hq
  | Hq : (if decide ?P then _ else _) = Some _ |- _ => destruct (decide P); subst
  | Hq : _ <$> ?o = Some _ |- _ => destruct o eqn:?; simplify_eq/=
  | Hq : (_ ++ [_]) !! _ = Some _ |- _ => apply lookup_app_Some in Hq as [Hq|[? Hq]]
  | Hq : [_] !! _ = Some _ |- _ => apply list_lookup_singleton_Some in Hq as [? Hq]; subst
  | Hq : _ && _ = true |- _ => apply andb_true_iff in Hq as [? ?]
  | H1 : ?x = Some ?a, H2 : ?x = Some ?b |- _ => tryif constr_eq a b then fail else (rewrite H1 in H2; simplify_eq/=)
  end.

Ltac eqb_cases :=
  repeat match goal with
  | Hq : context [b2n (?a =? ?b)%nat] |- _ => destruct (Nat.eqb_spec a b); subst; simpl in *
  | Hq : context [(?a =? ?b)%Z] |- _ => destruct (Z.eqb_spec a b); subst; simpl in *
  end; rewrite ?andb_false_r, ?andb_true_r in *.

(** The effect of an update of a request on the sum of [w] over all requests *)
Ltac sum_cases w :=
  rewrite ?alter_alter in *;
  try match goal with
  | Hq : ?l !! ?r = Some ?q |- context [lsum w (alter ?g ?r ?l)] =>
      let Hsum := fresh "Hsum" in let x := fresh "x" in
      pose proof (lsum_alter w l r q g Hq) as Hsum; set (x := lsum w (alter g r l)) in *; clearbody x
  end;
  try match goal with
  | |- context [lsum w (?l ++ [?q])] => rewrite (lsum_app w l [q]) in *; cbn [lsum] in *
  end;
  repeat match goal with
  | Hq : context [lsum w ?l] |- _ => let y := fresh "y" in set (y := lsum w l) in *; clearbody y
  end.

Ltac has_request Hf :=
  repeat lazymatch type of Hf with _ /\ _ => let Hf' := fresh "Hf" in destruct Hf as [Hf' Hf]; revert Hf' end; intros;
  try match goal with Hr : has_req _ _ |- _ => let q := fresh "q" in let Hreq := fresh "Hreq" in pose proof Hr as [q Hreq] end;
  try match goal with Hr : job_is _ _ _ |- _ => let q := fresh "q" in let Hreq := fresh "Hreq" in pose proof Hr as (q & Hreq & ?) end.

Ltac job_cases :=
  repeat match goal with
  | Hq : alter _ _ _ !! _ = Some _ |- _ => rewrite lookup_alter in Hq
  | Hq : <[_ := _]> _ !! _ = Some _ |- _ => apply lookup_insert_Some in Hq as [[? ?]|[? ?]]; subst
  | Hq : (if decide ?P then _ else _) = Some _ |- _ => destruct (decide P); subst
  | Hq : _ <$> ?o = Some _ |- _ => destruct o eqn:?; simplify_eq/=
  | H1 : ?x = Some ?a, H2 : ?x = Some ?b |- _ => tryif constr_eq a b then fail else (rewrite H1 in H2; simplify_eq/=)
  end.

