(* ===== verification/ExecutiveOwn.v ===== *)
(** * The dispatch of jobs: who is responsible for what

    Invariants of all reachable states as sums over the frames of all threads:
    every request is finished by exactly one call, every job that is not
    complete has exactly one owner until the query is cancelled, and someone who
    will report it afterwards. *)

From S2P Require Import Prelude.
From S2P Require Import MergingHandler.
From S2P Require Import Executive.
From S2P Require Import ExecutiveInv.

Local Open Scope Z_scope.

Section own.
Context {H : Type} `{ResponseHandler H}.
Context (serializeMsg : Z -> Z -> string) (acceptable : string -> bool).
Implicit Types (s : Executive H) (f : Frame H) (j : Z) (r c : nat) (ths : list (list (Frame H))).

Abbreviation frame_step := (frame_step serializeMsg acceptable).
Abbreviation stepped := (stepped serializeMsg acceptable).

(** ** The phases of a request *)

Definition activeb (q : QueryRequest) : bool := bool_decide (qr_finishStatus q = ACTIVE).

(** The frames that finish request [r] *)
Definition wF r f : nat :=
  match f with
  | FErrorFinish2 r' _ | FFinish2 r' | FCallMark r' _
  | FRunJob _ (Some r') | FRunLocked _ (Some r') | FStartQuery _ (Some r')
  | FCritical _ (Some r') | FRunFail _ (Some r') | FRetry _ r' => b2n (r =? r')%nat
  | _ => 0%nat
  end.
(** The frames that only have to clean it up *)
Definition wC r f : nat :=
  match f with
  | FStarted _ (Some r') | FCleanup r' => b2n (r =? r')%nat
  | _ => 0%nat
  end.

(** A request is active, being finished, about to be cleaned up, or done. *)
Definition phase_inv s ths : Prop :=
  forall r q, ex_requests s !! r = Some q ->
    (b2n (activeb q) + total (wF r) ths + total (wC r) ths + b2n (negb (qr_hasJob q)) = 1)%nat /\
    (qr_calledMarkComplete q = true -> activeb q = false /\ total (wF r) ths = 0%nat).

Lemma wF_absent s r f : ~ has_req s r -> frame_wf s f -> wF r f = 0%nat.
Proof.
  intros Hr. assert (Hn : forall r', has_req s r' -> (r =? r')%nat = false).
  { intros r' Hr'. apply Nat.eqb_neq. by intros ->. }
  destruct f as [ | |? [] |? []|? []|? []|? []|? []| | | | | | | | | | | | | | | | | | | | | | | | | | | | | | |];
    simpl; try done; intros Hf; rewrite Hn; try done; apply job_is_has; eexists; apply Hf.
Qed.

Lemma wC_absent s r f : ~ has_req s r -> frame_wf s f -> wC r f = 0%nat.
Proof.
  intros Hr. assert (Hn : forall r', has_req s r' -> (r =? r')%nat = false).
  { intros r' Hr'. apply Nat.eqb_neq. by intros ->. }
  destruct f as [ | |? [] |? []|? []|? []|? []|? []| | | | | | | | | | | | | | | | | | | | | | | | | | | | | | |];
    simpl; try done; intros Hf; rewrite Hn; try done; apply job_is_has; eexists; apply Hf.
Qed.

Lemma no_frames s r ths :
  Forall (Forall (frame_wf s)) ths -> ~ has_req s r -> total (wF r) ths = 0%nat /\ total (wC r) ths = 0%nat.
Proof.
  intros Ha Hr. split; (eapply total_absent; [|exact Ha]); intros f Hf; [by eapply wF_absent|by eapply wC_absent].
Qed.

Lemma phase_step t f st ths s s' ths' :
  Forall (Forall (frame_wf s)) ths -> frame_wf s f -> phase_inv s ths -> stepped t f st ths s s' ths' -> phase_inv s' ths'.
Proof.
  intros Hwf Hf Hi (Ht & fs & Hs & ->) r0 q0 Hq0.
  pose proof (total_step (wF r0) ths t f st fs Ht) as HF. pose proof (total_step (wC r0) ths t f st fs Ht) as HC.
  step_cases f Hs Hf; rewrite ?lsum_JobCancel in HF, HC by done; lookup_cases.
  all: try match goal with Hq : ex_requests _ !! ?x = Some ?q |- context [total (wF ?x)] => destruct (Hi x q Hq) as [Hi1 Hi2] end.
  all: unfold activeb in *; simplify_eq/=; eqb_cases; lookup_cases.
  all: try (split; [lia|]; intros Hcalled; destruct (Hi2 Hcalled); split; [done|lia]).
  all: repeat match goal with
    | Hq : ?x = Some _, Hm : context [match ?x with _ => _ end] |- _ => rewrite Hq in Hm; simpl in Hm
    end.
  all: repeat match goal with
    | Hb : bool_decide (qr_finishStatus _ = _) = _ |- _ => rewrite Hb in *; simpl in *
    end.
  all: try (split; [lia|]; intros Hcalled; try (destruct (Hi2 Hcalled)); split; [done|lia]).
  all: try match goal with
    | _ : (length (ex_requests ?s) <= ?r)%nat |- context [total (wF ?r)] =>
        assert (Hn : ~ has_req s r) by (unfold has_req; rewrite lookup_ge_None_2 by done; by intros []);
        destruct (no_frames s r ths Hwf Hn) as [HF0 HC0]; (split; [lia|done])
    end.
  all: try (destruct (bool_decide _); simpl in *; try lia; (split; [lia|]); intros Hcalled; try (destruct (Hi2 Hcalled)); (split; [done|lia])).
Qed.

(** ** The owner of a job *)

(** The frames that run job [j], finish its request, or report it *)
Definition ownw s j f : nat :=
  match f with
  | FAdded j' | FRunJob j' _ | FRunLocked j' _ | FStartQuery j' _ | FCritical j' _
  | FMark j' _ | FMarkStatus j' _ | FMarkError j' _ | FUnTrack j' | FRetry j' _ => b2n (j =? j')
  | FErrorFinish2 r _ | FFinish2 r | FCallMark r _ => b2n (j =? req_job r s)
  | _ => 0%nat
  end.

Definition act j (q : QueryRequest) : nat := b2n (activeb q && (j =? qr_job q)).
Definition actives j s : nat := lsum (act j) (ex_requests s).

(** Until the query is cancelled, a job that is not complete is owned once. *)
Definition own_inv s ths : Prop :=
  ex_cancelled s = false ->
  forall j, (total (ownw s j) ths + actives j s = b2n (bool_decide (j ∈ ex_incompleteJobs s)))%nat.

Lemma req_job_evolves s s' r : evolves s s' -> has_req s r -> req_job r s' = req_job r s.
Proof.
  intros He (j & Hj)%job_is_has. pose proof (ev_requests s s' He r j Hj) as (q' & Hq' & Hj').
  destruct Hj as (q & Hq & Hj). unfold req_job. rewrite Hq, Hq'. congruence.
Qed.

Lemma ownw_evolves s s' j f : evolves s s' -> frame_wf s f -> ownw s' j f = ownw s j f.
Proof.
  intros He Hf. destruct f; simpl in *; try done; by rewrite (req_job_evolves s s') by done.
Qed.

Lemma total_evolves (w : Executive H -> Frame H -> nat) s s' ths :
  (forall f, frame_wf s f -> w s' f = w s f) -> Forall (Forall (frame_wf s)) ths -> total (w s') ths = total (w s) ths.
Proof.
  intros Hw Ha. apply total_ext. eapply Forall_impl; [exact Ha|]. intros st Hst. eapply Forall_impl; [exact Hst|]. done.
Qed.

Lemma req_job_upd s r r' g : (forall q, qr_job (g q) = qr_job q) -> req_job r' (upd_req r g s) = req_job r' s.
Proof.
  intros Hg. unfold req_job. simpl. rewrite list_lookup_alter. case_decide; [subst|done].
  destruct (ex_requests s !! r'); simpl; [apply Hg|done].
Qed.

Lemma req_job_job s r j g : req_job r (upd_job j g s) = req_job r s.
Proof. done. Qed.

Lemma req_job_lookup s r q : ex_requests s !! r = Some q -> req_job r s = qr_job q.
Proof. unfold req_job. by intros ->. Qed.

(** The handler of a new job can be reset. *)
Definition resets s f : Prop :=
  forall j q, f = FRunJob j None -> ex_jobMap s !! j = Some q -> ex_cancelled s = false -> (rh_reset (jq_handler q)).2 = true.

Lemma own_step t f st ths s s' ths' :
  state_wf s -> Forall (Forall (frame_wf s)) ths -> frame_wf s f -> resets s f -> phase_inv s ths -> own_inv s ths ->
  stepped t f st ths s s' ths' -> own_inv s' ths'.
Proof.
  intros Hsw Hwf Hf Hres Hph Hi (Ht & fs & Hs & ->) Hcan j0.
  pose proof (frame_step_wf serializeMsg acceptable s f Hsw Hf) as (Hev & _ & _). rewrite Hs in Hev. simpl in Hev.
  assert (Hc : ex_cancelled s = false) by (destruct (ex_cancelled s) eqn:E; [by rewrite (ev_cancelled s s' Hev E) in Hcan|done]).
  specialize (Hi Hc j0). pose proof (total_step (ownw s' j0) ths t f st fs Ht) as HO.
  rewrite (total_evolves (fun s => ownw s j0) s s' ths), (ownw_evolves s s') in HO by (done || (intros; by apply ownw_evolves)).
  unfold actives in *. set (T := total (ownw s' j0) _) in *. clearbody T. set (T0 := total (ownw s j0) _) in *. clearbody T0.
  step_cases f Hs Hf; rewrite ?lsum_JobCancel in HO by done; simpl in Hf; has_request Hf; rewrite ?req_job_job, ?req_job_upd in HO by done.
  all: try match goal with Hq : ex_requests _ !! ?r = Some ?q |- _ => rewrite ?(req_job_lookup _ r q Hq) in HO end.
  all: sum_cases (act j0); unfold act, activeb in *; simpl in *; lookup_cases; eqb_cases.
  all: repeat match goal with
    | Hb : bool_decide (qr_finishStatus _ = _) = _ |- _ => rewrite Hb in *; simpl in *
    end.
  all: try lia.
  all: try (by repeat case_bool_decide; simpl in *; set_unfold; naive_solver lia).
  all: try (repeat case_bool_decide; simpl in *; try lia; exfalso; set_solver).
  all: try (exfalso; match goal with
    | Hr : rh_reset _ = (_, ?b), Hb : ex_cancelled _ = false |- _ =>
        pose proof (Hres _ _ eq_refl ltac:(eassumption) Hb) as Hr'; rewrite Hr in Hr'; simpl in Hr'; simplify_eq/=; by rewrite Hb in *
    end).
  all: try (exfalso; match goal with
    | Hq : ex_requests _ !! ?r = Some ?q, Ht : _ !! _ = Some (FCallMark ?r ?b :: _) |- _ =>
        destruct (Hph r q Hq) as [Hp1 Hp2]; pose proof (total_ge (wF r) _ _ (FCallMark r b) _ Ht ltac:(left)) as Hge;
        simpl in Hge; rewrite Nat.eqb_refl in Hge; simpl in Hge;
        first [destruct Hp2; [done|lia]|destruct (qr_hasJob q); simpl in *; [done|lia]]
    end).
  all: try congruence.
Qed.

(** ** The phases of cancellation *)

Definition wSquash f : nat := match f with FSquash2 => 1%nat | _ => 0%nat end.
Definition wJobCancel j f : nat := match f with FJobCancel j' => b2n (j =? j') | _ => 0%nat end.

(** Every job is cancelled once: the query is not cancelled, about to collect its
    jobs, about to cancel the job, or has done so. *)
Definition squash_inv s ths : Prop :=
  (b2n (negb (ex_cancelled s)) + total wSquash ths <= 1)%nat /\
  forall j q, ex_jobMap s !! j = Some q ->
    (b2n (negb (ex_cancelled s)) + total wSquash ths + total (wJobCancel j) ths + b2n (jq_cancelled q) = 1)%nat.

Lemma jobsToCancel_count s j q : ex_jobMap s !! j = Some q -> lsum (wJobCancel j) (map FJobCancel (jobsToCancel s)) = 1%nat.
Proof.
  intros Hj. unfold jobsToCancel. pose proof (NoDup_fst_map_to_list (ex_jobMap s)) as Hnd.
  assert (Hin : j ∈ (map_to_list (ex_jobMap s)).*1) by (apply list_elem_of_fmap; exists (j, q); split; [done|by apply elem_of_map_to_list]).
  revert Hnd Hin. generalize ((map_to_list (ex_jobMap s)).*1) as l. intros l Hnd Hin.
  assert (Hz : forall l, j ∉ l -> lsum (wJobCancel j) (map (FJobCancel (H := H)) l) = 0%nat).
  { intros l0 Hl. apply lsum_zero, Forall_map, Forall_forall. intros j' Hj'. simpl. destruct (Z.eqb_spec j j'); [subst; done|done]. }
  induction Hnd as [|j' l Hn Hnd IH]; [by apply not_elem_of_nil in Hin|]. simpl. destruct (Z.eqb_spec j j') as [<-|Hne].
  - by rewrite Hz.
  - apply elem_of_cons in Hin as [->|Hin]; [done|]. by rewrite IH.
Qed.

Lemma wJobCancel_absent s j ths :
  Forall (Forall (frame_wf s)) ths -> ex_jobMap s !! j = None -> total (wJobCancel j) ths = 0%nat.
Proof.
  intros Ha Hn. eapply total_absent; [|exact Ha]. intros f Hf. destruct f; simpl in *; try done. destruct Hf as [[q Hq] _].
  destruct (Z.eqb_spec j j0); [by subst; congruence|done].
Qed.

Lemma squash_step t f st ths s s' ths' :
  Forall (Forall (frame_wf s)) ths -> frame_wf s f -> squash_inv s ths -> stepped t f st ths s s' ths' -> squash_inv s' ths'.
Proof.
  intros Hwf Hf [Hi1 Hi2] (Ht & fs & Hs & ->). pose proof (total_step wSquash ths t f st fs Ht) as HS. split.
  - set (T := total wSquash (<[t := fs ++ st]> ths)) in *. clearbody T.
    step_cases f Hs Hf; rewrite ?lsum_JobCancel in HS by done; simpl in *; try lia.
    all: repeat match goal with Hc : ex_cancelled _ = _ |- _ => rewrite Hc in *; simpl in * end; try lia.
  - intros j0 q0 Hq0. pose proof (total_step (wJobCancel j0) ths t f st fs Ht) as HJ.
    set (T := total wSquash (<[t := fs ++ st]> ths)) in *. clearbody T. set (T2 := total (wJobCancel j0) (<[t := fs ++ st]> ths)) in *. clearbody T2.
    step_cases f Hs Hf; simpl in *.
    all: rewrite ?lsum_JobCancel in HS by done.
    all: job_cases; rewrite ?(jobsToCancel_count _ _ _ Hq0) in HJ.
    all: try match goal with Hq : ex_jobMap _ !! ?x = Some ?q, Hi : forall j q, _ |- context [b2n (jq_cancelled ?q)] => pose proof (Hi x q Hq) end.
    all: eqb_cases; job_cases; try lia.
    all: repeat match goal with Hc : ex_cancelled _ = _ |- _ => rewrite Hc in *; simpl in * end; try lia.
    all: try match goal with Hn : ex_jobMap ?s !! ?j = None |- _ => pose proof (wJobCancel_absent s j ths Hwf Hn); lia end.
    all: try match goal with Hq : ex_jobMap _ !! ?x = Some ?q, Hi : forall j q, _ |- _ => pose proof (Hi x q Hq) end.
    all: repeat match goal with Hc : jq_cancelled _ = _ |- _ => rewrite Hc in *; simpl in * end; lia.
Qed.

(** ** Who reports a job of a cancelled query *)

Definition covw s j f : nat :=
  match f with
  | FRunJob j' (Some _) | FRunLocked j' (Some _) | FStartQuery j' (Some _) | FCritical j' (Some _) | FRunFail j' (Some _)
  | FMark j' _ | FMarkStatus j' _ | FMarkError j' _ | FUnTrack j' | FRetry j' _
  | FJobCancel j' | FJobCancel2 j' | FJobCancel3 j' | FReqCancel _ (Some j') | FErrorFinish _ _ (Some j') => b2n (j =? j')
  | FErrorFinish2 r _ | FFinish2 r | FCallMark r _ => b2n (j =? req_job r s)
  | FSquash2 => 1%nat
  | _ => 0%nat
  end.

Definition cover_inv s ths : Prop :=
  ex_cancelled s = true -> forall j, j ∈ ex_incompleteJobs s -> (1 <= total (covw s j) ths + actives j s)%nat.

Lemma covw_evolves s s' j f : evolves s s' -> frame_wf s f -> covw s' j f = covw s j f.
Proof.
  intros He Hf. destruct f; simpl in *; try done; by rewrite (req_job_evolves s s') by done.
Qed.

Lemma covw_jobs s s' j q : ex_jobMap s !! j = Some q -> lsum (covw s' j) (map FJobCancel (jobsToCancel s)) = 1%nat.
Proof.
  intros Hj. rewrite <- (jobsToCancel_count s j q Hj). generalize (jobsToCancel s) as l. intros l.
  induction l as [|j' l IH]; simpl; [done|]. by rewrite IH.
Qed.

(** A job that was handed to the network library has a request. *)
Definition linked s f : Prop :=
  forall j q, f = FJobCancel2 j -> ex_jobMap s !! j = Some q -> jq_inSsi q = true -> is_Some (jq_queryRequest q).

Lemma cover_step t f st ths s s' ths' :
  state_wf s -> Forall (Forall (frame_wf s)) ths -> frame_wf s f -> linked s f -> phase_inv s ths -> squash_inv s ths -> cover_inv s ths ->
  stepped t f st ths s s' ths' -> cover_inv s' ths'.
Proof.
  intros Hsw Hwf Hf Hl Hph [_ Hsq] Hi (Ht & fs & Hs & ->) Hcan j0 Hj0.
  pose proof (frame_step_wf serializeMsg acceptable s f Hsw Hf) as (Hev & _ & _). rewrite Hs in Hev. simpl in Hev.
  specialize (fun Hc => Hi Hc j0). pose proof (total_step (covw s' j0) ths t f st fs Ht) as HO.
  rewrite (total_evolves (fun s => covw s j0) s s' ths), (covw_evolves s s') in HO by (done || (intros; by apply covw_evolves)).
  pose proof (fun r b => total_ge (wF r) ths t (FCallMark r b) (f :: st) Ht) as Hge.
  pose proof (total_ge (wJobCancel j0) ths t f (f :: st) Ht ltac:(left)) as Hgj.
  pose proof (total_ge (covw s j0) ths t f (f :: st) Ht ltac:(left)) as Hg0.
  unfold actives in *. set (T := total (covw s' j0) _) in *. clearbody T. set (T0 := total (covw s j0) _) in *. clearbody T0.
  step_cases f Hs Hf; simpl in Hf; has_request Hf; rewrite ?req_job_job, ?req_job_upd in HO by done; rewrite ?req_job_job, ?req_job_upd in Hg0 by done.
  all: try match goal with Hq : ex_requests _ !! ?r = Some ?q |- _ => rewrite ?(req_job_lookup _ r q Hq) in HO; rewrite ?(req_job_lookup _ r q Hq) in Hg0 end.
  all: sum_cases (act j0); unfold act, activeb in *; simpl in *; lookup_cases.
  all: repeat match goal with Hc : ex_cancelled _ = _ |- _ => rewrite Hc in *; simpl in * end; try done.
  all: try lia.
  all: try (specialize (Hi eq_refl)); try (specialize (Hi Hcan)); try (specialize (Hi Hj0)).
  all: eqb_cases.
  all: repeat match goal with
    | Hb : bool_decide (qr_finishStatus _ = _) = _ |- _ => rewrite Hb in *; simpl in *
    end.
  all: try lia.
  all: simpl in *; try lia.
  all: try (specialize (Hge _ _ ltac:(left)); rewrite Nat.eqb_refl in Hge; simpl in Hge; exfalso; match goal with
    | Hq : ex_requests _ !! ?r = Some ?q |- _ => destruct (Hph r q Hq) as [Hp1 Hp2];
        first [destruct Hp2; [done|lia]|destruct (qr_hasJob q); simpl in *; [done|lia]]
    end).
  all: try (exfalso; set_solver).
  all: try (rewrite (elem_of_difference (C := gset Z)) in Hj0; destruct Hj0 as [Hj0 ?]; specialize (Hi Hj0)).
  all: try match goal with Hj : _ ∈ ex_incompleteJobs _ |- _ => destruct (sw_incomplete _ Hsw _ Hj) as [jq Hjq] end.
  all: rewrite ?(covw_jobs _ _ _ _ ltac:(eassumption)) in HO.
  all: try lia.
  all: try (exfalso; match goal with Hq : ex_jobMap _ !! ?x = Some ?q, Hc : jq_cancelled ?q = true |- _ =>
    pose proof (Hsq x q Hq); rewrite Hc in *; simpl in *; lia end).
  all: exfalso; match goal with H1 : ex_jobMap _ !! _ = Some _, H2 : jq_inSsi _ = true |- _ =>
    destruct (Hl _ _ eq_refl H1 H2); congruence end.
Qed.
End own.

(** ** The dispatch of jobs: fetching results

    For every request there is at most one thread at a time that fetches its
    results, and data is delivered only to a thread that waits for it: the
    command that [ProcessResponseData] notifies exists. *)

Section ask.
Context {H : Type} `{ResponseHandler H}.
Context (serializeMsg : Z -> Z -> string) (acceptable : string -> bool).
Implicit Types (s : Executive H) (f : Frame H) (j : Z) (r c : nat) (ths : list (list (Frame H))).

Abbreviation frame_step := (frame_step serializeMsg acceptable).
Abbreviation stepped := (stepped serializeMsg acceptable).

(** The frames that fetch the results of request [r] *)
Definition wTok r f : nat :=
  match f with
  | FProcessResponse r' _ | FResponseActive r' _ | FResponse r' _ | FImportStream r' | FAskAction _ r' | FAskWait _ r'
  | FProcessData r' _ _ | FFlush r' _ _ => b2n (r =? r')%nat
  | _ => 0%nat
  end.
Definition wPool r (x : nat * nat * Z) : nat := b2n (r =? x.1.2)%nat.

Definition tok_inv s ths : Prop :=
  forall r q, ex_requests s !! r = Some q ->
    (b2n (negb (qr_responded q)) + total (wTok r) ths + lsum (wPool r) (ex_pool s) <= 1)%nat.

Lemma wTok_absent s r f : ~ has_req s r -> frame_wf s f -> wTok r f = 0%nat.
Proof.
  intros Hr. destruct f; simpl; try done; intros Hf; destruct (Nat.eqb_spec r r0); subst; done.
Qed.

Lemma wPool_absent s r : state_wf s -> ~ has_req s r -> lsum (wPool r) (ex_pool s) = 0%nat.
Proof.
  intros Hs Hr. apply lsum_zero, Forall_forall. intros [[c r'] p] Hin. unfold wPool. simpl.
  destruct (Nat.eqb_spec r r') as [<-|]; [|done]. by destruct Hr; eapply sw_pool.
Qed.

Lemma tok_step t f st ths s s' ths' :
  state_wf s -> Forall (Forall (frame_wf s)) ths -> frame_wf s f -> tok_inv s ths -> stepped t f st ths s s' ths' -> tok_inv s' ths'.
Proof.
  intros Hsw Hwf Hf Hi (Ht & fs & Hs & ->) r0 q0 Hq0.
  pose proof (total_step (wTok r0) ths t f st fs Ht) as HT.
  set (T := total (wTok r0) (<[t := _]> _)) in *. clearbody T.
  assert (Hno : ~ has_req s r0 -> total (wTok r0) ths = 0%nat /\ lsum (wPool r0) (ex_pool s) = 0%nat).
  { intros Hr. split; [|by apply wPool_absent]. eapply total_absent; [|exact Hwf]. intros g Hg. by eapply wTok_absent. }
  step_cases f Hs Hf; rewrite ?lsum_JobCancel in HT by done; lookup_cases.
  all: try match goal with Hq : ex_requests _ !! ?x = Some ?q |- _ => pose proof (Hi x q Hq) end.
  all: rewrite ?lsum_app; simpl in *; unfold wPool in *; simpl in *; eqb_cases; lookup_cases; try lia.
  all: destruct Hno; [unfold has_req; rewrite lookup_ge_None_2 by done; by intros []|lia].
Qed.

(** ** Commands *)

(** The command [c] is the current one of request [r], in state [x]. *)
Definition ask_in s r c x : Prop :=
  exists q a, ex_requests s !! r = Some q /\ qr_ask q = Some c /\ ex_asks s !! c = Some a /\ ak_state a = x.

Definition asked s f : Prop :=
  match f with
  | FAskAction c r => ask_in s r c STARTED0
  | FAskWait c r => exists x, ask_in s r c x
  | _ => True
  end.

(** The frames that deliver data to request [r] *)
Definition wDat r f : nat :=
  match f with
  | FResponseData r' _ _ _ _ | FDataCancelled r' _ _ _ | FData r' _ _ _ => b2n (r =? r')%nat
  | _ => 0%nat
  end.
Definition started s c : bool := match ex_asks s !! c with Some (mkAsk _ STARTED0 _ _) => true | _ => false end.
Definition wWait s r f : nat :=
  match f with
  | FAskWait c r' => b2n ((r =? r')%nat && started s c)
  | _ => 0%nat
  end.
Definition is_data r f : bool := match f with FData r' _ _ _ => (r =? r')%nat | _ => false end.

Record ask_inv s ths : Prop := {
  ai_tok : tok_inv s ths;
  ai_asked : Forall (Forall (asked s)) ths;
  ai_pool c r p : (c, r, p) ∈ ex_pool s -> ask_in s r c STARTED0;
  ai_data r q : ex_requests s !! r = Some q -> (b2n (qr_pending q) + total (wDat r) ths <= total (wWait s r) ths)%nat;
}.

Lemma ask_in_req s r r' g c x : (r' <> r \/ forall q, qr_ask (g q) = qr_ask q) -> ask_in s r c x -> ask_in (upd_req r' g s) r c x.
Proof.
  intros Hg (q & a & Hq & Hc & Ha & Hx). unfold ask_in. simpl. rewrite list_lookup_alter. case_decide; [subst r'|by exists q, a].
  rewrite Hq. destruct Hg as [?|Hg]; [done|]. exists (g q), a. by rewrite Hg.
Qed.

Lemma ask_in_notify s r r' q' g c c' x :
  state_wf s -> r' <> r -> ex_requests s !! r' = Some q' -> qr_ask q' = Some c' ->
  ask_in s r c x -> ask_in (ex_set_asks (alter g c' (ex_asks s)) (ex_pool s) s) r c x.
Proof.
  intros Hs Hne Hq' Hc' (q & a & Hq & Hc & Ha & Hx). exists q, a. split_and!; try done. simpl.
  rewrite list_lookup_alter. case_decide; [subst c'|done]. exfalso.
  destruct (sw_asks s Hs r' q' c Hq' Hc') as (a1 & H1 & H2). destruct (sw_asks s Hs r q c Hq Hc) as (a2 & H3 & H4). congruence.
Qed.

Lemma ask_in_app s r la l p c x : ex_asks s = la -> ask_in s r c x -> ask_in (ex_set_asks (la ++ l) p s) r c x.
Proof. intros <- (q & a & ? & ? & Ha & Hx). exists q, a. split_and!; try done. by apply lookup_app_l_Some. Qed.

Lemma ask_in_request s r c x q0 : ask_in s r c x -> ask_in (ex_set_requests (ex_requests s ++ [q0]) s) r c x.
Proof. intros (q & a & ? & ? & Ha & Hx). exists q, a. split_and!; try done. by apply lookup_app_l_Some. Qed.

(** Only the thread that fetches the results of a request, and the delivery of
    data, change its command. *)
Lemma ask_keeps f s s' fs r c x :
  state_wf s -> frame_wf s f -> frame_step f s = (s', fs) -> wTok r f = 0%nat -> is_data r f = false ->
  ask_in s r c x -> ask_in s' r c x.
Proof.
  intros Hsw Hf Hs Ht Hd Hi.
  step_cases f Hs Hf; try exact Hi.
  all: try (assert (Hne : r0 <> r) by (destruct (Nat.eqb_spec r r0); done)).
  all: repeat first [exact Hi | apply ask_in_req; [by (by left) || right|] | (apply ask_in_app; [done|]) | apply ask_in_request
    | eapply (ask_in_notify s); [done|done|eassumption|simpl; done|]].
Qed.

Lemma ask_in_new s r : has_req s r -> ask_in (newAsk r s) r (length (ex_asks s)) STARTED0.
Proof.
  intros [q Hq]. unfold newAsk. rewrite Hq. eexists _, _. simpl. rewrite list_lookup_alter_eq, Hq. simpl.
  by rewrite lookup_app_r, Nat.sub_diag by lia.
Qed.

(** The data that is under way, and whether the network library owes some *)
Lemma dat_step f s s' fs r q' :
  frame_wf s f -> frame_step f s = (s', fs) -> ex_requests s' !! r = Some q' -> (forall c, f <> FAskAction c r) ->
  (lsum (wDat r) fs <= wDat r f)%nat /\
  match ex_requests s !! r with Some q => qr_pending q' = qr_pending q | None => qr_pending q' = false end.
Proof.
  intros Hf Hs Hq' Hne.
  step_cases f Hs Hf; rewrite ?lsum_JobCancel by done; lookup_cases; eqb_cases.
  all: try (split; [lia|]); simplify_eq/=; repeat match goal with Hq : ex_requests _ !! _ = _ |- _ => rewrite Hq end; try done.
  all: try (exfalso; by eapply Hne).
  all: match goal with Hq : ex_requests _ !! _ = Some _ |- _ => apply lookup_lt_Some in Hq; lia end.
Qed.

Lemma wWait_le s r f : (wWait s r f <= wTok r f)%nat.
Proof. destruct f; simpl; try lia. destruct (r =? r0)%nat, (started s c); simpl; lia. Qed.

Lemma ask_in_started s r c x : ask_in s r c x -> started s c = match x with STARTED0 => true | _ => false end.
Proof. intros (q & [? ? ? ?] & _ & _ & Ha & <-). unfold started. rewrite Ha. done. Qed.

Section step.
Context (t : nat) f (st : list (Frame H)) ths s s' (fs : list (Frame H)).
Hypothesis (Hsw : state_wf s) (Hwf : Forall (Forall (frame_wf s)) ths) (Hf : frame_wf s f) (Hi : ask_inv s ths).
Hypothesis (Ht : ths !! t = Some (f :: st)) (Hs : frame_step f s = (s', fs)).

Let rest := <[t := st]> ths.

Lemma tok_rest r : has_req s r -> (wTok r f + total (wTok r) rest + lsum (wPool r) (ex_pool s) <= 1)%nat.
Proof. intros [q Hq]. pose proof (ai_tok s ths Hi r q Hq) as Htok. rewrite (total_rest _ ths t f st Ht) in Htok. unfold rest. lia. Qed.

(** While data is delivered, the only thread that fetches results waits. *)
Lemma data_rest r : is_data r f = true -> has_req s r -> (1 <= total (wWait s r) rest)%nat.
Proof.
  intros Hd [q Hq]. pose proof (ai_data s ths Hi r q Hq) as Hdat. rewrite !(total_rest _ ths t f st Ht) in Hdat.
  unfold rest. destruct f; simpl in *; try done. rewrite Hd in Hdat. simpl in Hdat. lia.
Qed.

Lemma asked_rest : Forall (Forall (asked s)) rest.
Proof. by eapply Forall_rest, ai_asked. Qed.

Lemma wWait_rest r : wTok r f = 0%nat -> is_data r f = false -> total (wWait s' r) rest = total (wWait s r) rest.
Proof.
  intros H1 H2. apply total_ext. eapply Forall_impl; [exact asked_rest|]. intros l Hl. eapply Forall_impl; [exact Hl|].
  intros g Hg. destruct g; simpl in *; try done. destruct (Nat.eqb_spec r r0); [subst r0|done]. destruct Hg as [x Hx].
  erewrite (ask_in_started s), (ask_in_started s'); [done|eapply (ask_keeps f s)|]; done.
Qed.

(** No other thread fetches the results of a request whose command changes. *)
Lemma asked_keeps r c x g :
  ask_in s r c x -> (wTok r g + lsum (wPool r) (ex_pool s) >= 1)%nat -> (wTok r g <= total (wTok r) rest)%nat ->
  wTok r f = 0%nat /\ (is_data r f = false -> ask_in s' r c x).
Proof.
  intros Ha Hg Hle. assert (Hr : has_req s r) by (destruct Ha as (q & ? & Hq & _); by exists q).
  pose proof (tok_rest r Hr). assert (Hw : wTok r f = 0%nat) by lia. split; [done|]. intros Hd. by eapply (ask_keeps f s).
Qed.

Definition wAct r f : nat := match f with FAskAction _ r' => b2n (r =? r')%nat | _ => 0%nat end.

(** Data is not delivered while the command is queued or about to start. *)
Lemma not_data r : has_req s r -> (1 <= total (wAct r) rest + lsum (wPool r) (ex_pool s))%nat -> is_data r f = false.
Proof.
  intros Hr Hw. destruct (is_data r f) eqn:Hd; [|done]. exfalso. pose proof (data_rest r Hd Hr). pose proof (tok_rest r Hr).
  assert (total (wWait s r) rest + total (wAct r) rest <= total (wTok r) rest)%nat; [|lia].
  rewrite <- total_add. apply total_mono. intros g. pose proof (wWait_le s r g). destruct g; simpl in *; lia.
Qed.

Lemma data_keeps r c x : is_data r f = true -> ask_in s r c x -> exists x, ask_in s' r c x.
Proof.
  intros Hd Ha. destruct f; simpl in Hd; try done. apply Nat.eqb_eq in Hd as <-. simpl in Hs. unfold responseData in Hs.
  destruct Ha as (q & a & Hq & Hc & Ha & Hx). rewrite Hq in Hs. destruct q as [? ? ? ? ? ? ? ? ask ? ?]. simpl in Hc. subst ask.
  destruct (blen <? 0); injection Hs as <- <-; eexists _, _, _; (split; [exact Hq|]); (split; [done|]); simpl;
    rewrite list_lookup_alter_eq, Ha; done.
Qed.

Lemma asked_new : Forall (asked s') fs.
Proof.
  pose proof (Forall_rest _ ths t f st Ht (ai_asked s ths Hi)) as [Ha _].
  clear Hi. destruct f; simpl in Hs; unfold_handlers Hs;
    repeat case_match; simplify_eq/=; repeat constructor; simpl; try done.
  - exists STARTED0. apply ask_in_req; [right; done|]. exact Ha.
  - apply Forall_map, Forall_forall. done.
Qed.

Lemma asked_step : Forall (Forall (asked s')) (<[t := fs ++ st]> ths).
Proof.
  apply Forall_step; [|by eapply lookup_lt_Some|exact asked_new]. fold rest.
  apply Forall_lookup. intros t' l Hl. apply Forall_forall. intros g Hg.
  pose proof (proj1 (Forall_forall _ _) (proj1 (Forall_lookup _ _) asked_rest t' l Hl) g Hg) as Ha.
  assert (Hle : forall w, (w g <= total w rest)%nat) by (intros w; by eapply total_ge).
  destruct g as [ | | | | | | | | | | | | |c r|c r| | | | | | | | | | | | | | | | | | | | | | | |]; try done; simpl in Ha |- *.
  - assert (Hr : has_req s r) by (destruct Ha as (q & ? & Hq & _); by exists q).
    eapply (asked_keeps r c _ (FAskAction c r)); [done|simpl; rewrite Nat.eqb_refl; simpl; lia|apply Hle|].
    apply not_data; [done|]. specialize (Hle (wAct r)). simpl in Hle. rewrite Nat.eqb_refl in Hle. simpl in Hle. lia.
  - destruct Ha as [x Ha]. destruct (is_data r f) eqn:Hd; [by eapply data_keeps|]. exists x.
    eapply (asked_keeps r c _ (FAskWait c r)); [done|simpl; rewrite Nat.eqb_refl; simpl; lia|apply Hle|done].
Qed.

(** A new command is queued by the thread that fetches the results. *)
Lemma pool_new c r p : (c, r, p) ∈ ex_pool s' -> (c, r, p) ∈ ex_pool s \/ ask_in s' r c STARTED0.
Proof.
  assert (Hnew : forall s1 r', ex_pool s1 = ex_pool s -> (c, r, p) ∈ ex_pool (newAsk r' s1) ->
    (c, r, p) ∈ ex_pool s \/ ask_in (newAsk r' s1) r c STARTED0).
  { intros s1 r' He. destruct (ex_requests s1 !! r') as [q|] eqn:E; [|unfold newAsk; rewrite E, He; by left].
    pose proof (ask_in_new s1 r' ltac:(by exists q)) as Hn. unfold newAsk in Hn |- *. rewrite E in Hn |- *. simpl. rewrite He.
    intros [Hin|Hin%list_elem_of_singleton]%elem_of_app; [by left|]. injection Hin as -> -> ->. by right. }
  clear Hi Ht rest. destruct f; simpl in Hs; unfold_handlers Hs;
    repeat case_match; simplify_eq/=; try (by left); by apply Hnew.
Qed.

Lemma pool_step c r p : (c, r, p) ∈ ex_pool s' -> ask_in s' r c STARTED0.
Proof.
  intros [Hin|?]%pool_new; [|done]. pose proof (ai_pool s ths Hi c r p Hin) as Ha.
  assert (Hr : has_req s r) by (destruct Ha as (q & ? & Hq & _); by exists q).
  assert (Hp : (1 <= lsum (wPool r) (ex_pool s))%nat).
  { pose proof (lsum_ge (wPool r) _ _ Hin) as Hle. unfold wPool in Hle at 1. simpl in Hle. by rewrite Nat.eqb_refl in Hle. }
  eapply (asked_keeps r c _ (FSquash)); [done|simpl; lia|simpl; lia|]. apply not_data; [done|lia].
Qed.

Lemma wait_rest s0 r : has_req s r -> (1 <= wTok r f)%nat -> total (wWait s0 r) rest = 0%nat.
Proof.
  intros Hr Hw. pose proof (tok_rest r Hr). pose proof (total_mono (wWait s0 r) (wTok r) rest (wWait_le s0 r)). lia.
Qed.

Lemma data_step r q : ex_requests s' !! r = Some q ->
  (b2n (qr_pending q) + total (wDat r) (<[t := fs ++ st]> ths) <= total (wWait s' r) (<[t := fs ++ st]> ths))%nat.
Proof.
  intros Hq. pose proof (total_step (wDat r) ths t f st fs Ht) as HD. pose proof (total_step (wWait s' r) ths t f st fs Ht) as HW.
  pose proof (ai_data s ths Hi r) as Hdat. rewrite (total_rest (wDat r) ths t f st Ht) in HD, Hdat.
  rewrite (total_rest (wWait s' r) ths t f st Ht) in HW. rewrite (total_rest (wWait s r) ths t f st Ht) in Hdat. fold rest in HD, HW, Hdat.
  destruct (ex_requests s !! r) as [q0|] eqn:Hq0.
  2:{ pose proof (dat_step f s s' fs r q Hf Hs Hq) as Hd. rewrite Hq0 in Hd.
      assert (Hz : forall g, frame_wf s g -> wDat r g = 0%nat).
      { intros g Hg. destruct g; simpl in *; try done; destruct (Nat.eqb_spec r r0); subst; try done; destruct Hg; congruence. }
      destruct Hd as [Hd1 ->]; [intros c ->; simpl in Hf; destruct Hf; congruence|].
      assert (total (wDat r) rest = 0%nat); [|rewrite (Hz f Hf) in *; simpl; lia].
      eapply total_absent; [exact Hz|]. by eapply Forall_rest. }
  specialize (Hdat q0 eq_refl). assert (Hr : has_req s r) by by exists q0.
  destruct (is_data r f) eqn:Hd.
  { pose proof (data_rest r Hd Hr). pose proof (tok_rest r Hr). pose proof (total_mono _ _ rest (wWait_le s r)).
    destruct (dat_step f s s' fs r q Hf Hs Hq) as [_ Hp]; [by intros c ->|]. rewrite Hq0 in Hp. rewrite Hp.
    assert (lsum (wDat r) fs = 0%nat /\ wDat r f = 1%nat /\ wWait s r f = 0%nat); [|lia].
    clear Hdat HD HW Hi Ht. destruct f; simpl in Hd, Hs; try done. simpl. rewrite Hd. unfold responseData in Hs.
    repeat case_match; by simplify_eq. }
  destruct (decide (wTok r f = 0%nat)) as [Hw|Hw].
  { destruct (dat_step f s s' fs r q Hf Hs Hq) as [Hle Hp].
    { intros c ->. simpl in Hw. by rewrite Nat.eqb_refl in Hw. }
    rewrite Hq0 in Hp. rewrite Hp. rewrite wWait_rest in HW by done. pose proof (wWait_le s r f). pose proof (wWait_le s' r f). lia. }
  pose proof (wait_rest s r Hr ltac:(lia)) as Hz. pose proof (wait_rest s' r Hr ltac:(lia)) as Hz'.
  rewrite Hz in Hdat. rewrite Hz' in HW.
  assert (Hgoal : (b2n (qr_pending q) + lsum (wDat r) fs + wWait s r f <=
                   lsum (wWait s' r) fs + b2n (qr_pending q0) + wDat r f)%nat); [|lia].
  assert (Hfz : wWait s r f = 0%nat \/ exists c, f = FAskWait c r).
  { destruct f; simpl; auto. destruct (Nat.eqb_spec r r0); subst; eauto. }
  pose proof (Forall_rest _ ths t f st Ht (ai_asked s ths Hi)) as [Ha _].
  assert (Hact : (exists c, f = FAskAction c r) \/ forall c, f <> FAskAction c r).
  { destruct f; try by right. destruct (decide (r = r0)); [subst; eauto|]. right. congruence. }
  destruct Hact as [[c Hc]|Hn].
  - clear Hdat HD HW Hfz. rewrite Hc in Ha, Hs |- *. simpl in Hs, Ha. unfold askAction in Hs. destruct (isQueryCancelled r s); simplify_eq/=; [lia|].
    rewrite Nat.eqb_refl. erewrite ask_in_started by (apply ask_in_req; [by right|exact Ha]). simpl. destruct (qr_pending q); simpl; lia.
  - destruct (dat_step f s s' fs r q Hf Hs Hq Hn) as [Hle Hp]. rewrite Hq0 in Hp. rewrite Hp.
    destruct Hfz as [Hfz|[c Hc]]; [lia|]. rewrite Hc in Hs |- *. simpl in Hs |- *. unfold askWait in Hs. rewrite Nat.eqb_refl.
    unfold started. destruct (ex_asks s !! c) as [[? [] ? ?]|] eqn:E; simplify_eq/=; try lia.
    rewrite Nat.eqb_refl. unfold started. rewrite E. simpl. lia.
Qed.

Lemma ask_step_inv : ask_inv s' (<[t := fs ++ st]> ths).
Proof.
  split; [eapply (tok_step t f st); [done..|apply (ai_tok s ths Hi)|]|exact asked_step|exact pool_step|exact data_step].
  split; [done|]. by exists fs.
Qed.
End step.

Lemma ask_step t f st ths s s' ths' :
  state_wf s -> Forall (Forall (frame_wf s)) ths -> frame_wf s f -> ask_inv s ths -> stepped t f st ths s s' ths' -> ask_inv s' ths'.
Proof. intros Hsw Hwf Hf Hi (Ht & fs & Hs & ->). by eapply ask_step_inv. Qed.

(** The command exists when data arrives. *)
Lemma data_has_ask t r blen last code st ths s :
  ask_inv s ths -> frame_wf s (FData r blen last code) -> ths !! t = Some (FData r blen last code :: st) ->
  exists q c, ex_requests s !! r = Some q /\ qr_ask q = Some c.
Proof.
  intros Hi Hf Ht. pose proof (data_rest t _ st ths s _ _ Hf Hi Ht (surjective_pairing _) r (Nat.eqb_refl r) Hf) as (t' & l & g & Hl & Hg & Hw)%total_pos.
  pose proof (proj1 (Forall_forall _ _) (proj1 (Forall_lookup _ _) (asked_rest _ _ _ _ _ Hi Ht) t' l Hl) g Hg) as Ha.
  destruct g; simpl in Hw; try lia. destruct (Nat.eqb_spec r r0); [subst|simpl in Hw; lia]. destruct Ha as (x & q & a & Hq & Hc & _). eauto.
Qed.
End ask.
