(* ===== verification/ExecutiveLocks.v ===== *)
(** * The dispatch of jobs: stacks and the mutexes of jobs

    The shape of the stacks of threads: what can be pending below a call, that
    only one thread ever cancels the jobs of a query, and that a thread that
    holds the mutex of a job below its current call never waits for data.  From
    these, [cancel] finds the request of a job it believes to be at the network
    library, and no set of threads waits for each other's mutexes. *)

From S2P Require Import Prelude.
From S2P Require Import MergingHandler.
From S2P Require Import Executive.
From S2P Require Import ExecutiveInv.
From S2P Require Import ExecutiveOwn.

Local Open Scope Z_scope.

Section locks.
Context {H : Type} `{ResponseHandler H}.
Context (serializeMsg : Z -> Z -> string) (acceptable : string -> bool).
Implicit Types (s : Executive H) (f : Frame H) (j : Z) (r c : nat) (ths : list (list (Frame H))) (st : list (Frame H)).

Abbreviation frame_step := (frame_step serializeMsg acceptable).
Abbreviation stepped := (stepped serializeMsg acceptable).

(** ** Requests of jobs at the network library *)

Definition wStart j f : nat := match f with FStartQuery j' _ => b2n (j =? j') | _ => 0%nat end.

Definition link_inv s ths : Prop :=
  forall j q, ex_jobMap s !! j = Some q -> jq_inSsi q = true -> jq_queryRequest q = None -> (1 <= total (wStart j) ths)%nat.

Lemma link_step t f st ths s s' ths' :
  frame_wf s f -> link_inv s ths -> stepped t f st ths s s' ths' -> link_inv s' ths'.
Proof.
  intros Hf Hi (Ht & fs & Hs & ->) j0 q0 Hq0 Hssi Hnone. pose proof (total_step (wStart j0) ths t f st fs Ht) as HS.
  set (T := total (wStart j0) (<[t := _]> _)) in *. clearbody T.
  step_cases f Hs Hf; rewrite ?lsum_JobCancel in HS by done; job_cases; simpl in *.
  all: repeat match goal with Hq : ex_jobMap _ !! ?x = Some ?q |- _ => let H := fresh in pose proof (Hi x q Hq) as H; revert Hq end; intros; simpl in *; eqb_cases; job_cases; try done; try (by intuition lia).
Qed.

(** ** Stacks *)

(** What can be pending below another frame *)
Definition pending f : bool :=
  match f with FRunFail _ _ | FCleanup _ | FSquash | FJobCancel _ | FJobCancel4 _ => true | _ => false end.

(** Frames that can run while a mutex is held further down *)
Definition calm f : bool :=
  match f with
  | FRunFail _ _ | FCleanup _ | FSquash | FSquash2 | FJobCancel _ | FJobCancel2 _ | FJobCancel3 _ | FJobCancel4 _
  | FReqCancel _ (Some _) | FErrorFinish _ true (Some _) | FErrorFinish2 _ true | FCallMark _ false
  | FMark _ false | FMarkStatus _ _ | FMarkError _ _ | FUnTrack _ => true
  | _ => false
  end.

(** The frames that ask for it: holders of a mutex, and jobs still to cancel *)
Definition calming f : bool :=
  match f with FJobCancel _ => true | _ => match holds_lock f with Some _ => true | None => false end end.

(** The frames of the thread that cancels all jobs *)
Definition squashes f : bool :=
  match f with
  | FSquash2 | FJobCancel _ | FJobCancel2 _ | FJobCancel3 _ | FJobCancel4 _ | FReqCancel _ (Some _) | FErrorFinish _ _ (Some _) => true
  | _ => false
  end.

Definition stack_ok st : Prop :=
  match st with
  | f :: st' => forallb pending st' = true /\ (existsb calming st' = true -> calm f = true)
  | [] => True
  end.

Definition crashes f : bool := match f with FCrash _ => true | _ => false end.

(** The part of a stack that a step pushes *)
Definition pushed f fs : Prop :=
  match fs with
  | g :: fs' => forallb pending fs' = true /\ (existsb calming fs' = true -> calm g = true) /\ (calm f = true -> calm g = true)
  | [] => True
  end.

Lemma cancels_pushed l : pushed FSquash2 (map FJobCancel l).
Proof.
  assert (Hp : forall l', forallb pending (map FJobCancel l') = true) by (intros l'; induction l'; simpl; auto).
  destruct l as [|j l]; [done|]. simpl. by rewrite Hp.
Qed.

Lemma step_pushes f s s' fs :
  frame_wf s f -> frame_step f s = (s', fs) -> existsb crashes fs = false -> pushed f fs.
Proof.
  intros Hf Hs Hcr. step_cases f Hs Hf; try apply cancels_pushed; repeat split; simpl; try done.
  all: repeat match goal with
    | b : bool |- _ => destruct b
    | Hb : _ && _ = true |- _ => apply andb_true_iff in Hb as [? ?]
    end; done.
Qed.

Lemma pending_calm f : pending f = true -> calm f = true.
Proof. by destruct f. Qed.

Lemma stack_step f st fs : stack_ok (f :: st) -> pushed f fs -> stack_ok (fs ++ st).
Proof.
  intros [Hp Hc] Hfs. destruct fs as [|g fs']; simpl.
  - destruct st as [|g st']; [done|]. simpl in Hp. apply andb_true_iff in Hp as [Hp Hp']. split; [done|]. intros _. by apply pending_calm.
  - destruct Hfs as (H1 & H2 & H3). rewrite forallb_app, H1, Hp. split; [done|]. rewrite existsb_app. intros [?|?]%orb_true_iff; auto.
Qed.

(** ** The thread that cancels the jobs *)

Definition squashing st : nat := b2n (existsb squashes st).

Definition squasher_inv s ths : Prop := (lsum squashing ths <= b2n (ex_cancelled s))%nat.

Lemma squashes_kept f s s' fs :
  frame_wf s f -> frame_step f s = (s', fs) -> existsb squashes fs = true ->
  squashes f = true \/ (ex_cancelled s = false /\ ex_cancelled s' = true).
Proof. intros Hf Hs Hsq. step_cases f Hs Hf; auto. Qed.

Lemma squasher_step t f st ths s s' ths' :
  state_wf s -> frame_wf s f -> squasher_inv s ths -> stepped t f st ths s s' ths' -> squasher_inv s' ths'.
Proof.
  intros Hsw Hf Hi (Ht & fs & Hs & ->). unfold squasher_inv in *.
  pose proof (lsum_insert squashing ths t (f :: st) (fs ++ st) Ht) as Hsum. unfold squashing in Hsum at 2 4. simpl in Hsum.
  rewrite existsb_app in Hsum.
  pose proof (frame_step_wf serializeMsg acceptable s f Hsw Hf) as (Hev & _ & _). rewrite Hs in Hev. simpl in Hev.
  assert (Hm : (b2n (ex_cancelled s) <= b2n (ex_cancelled s'))%nat).
  { destruct (ex_cancelled s) eqn:E; [rewrite (ev_cancelled s s' Hev E)|simpl]; simpl; lia. }
  destruct (existsb squashes fs) eqn:E.
  - destruct (squashes_kept f s s' fs Hf Hs E) as [Hq|[Hc Hc']]; [rewrite Hq in Hsum; simpl in Hsum; lia|].
    rewrite Hc in Hi. rewrite Hc'. simpl in *. destruct (squashes f || existsb squashes st); simpl in Hsum; lia.
  - simpl in Hsum. destruct (squashes f), (existsb squashes st); simpl in Hsum; lia.
Qed.

Lemma squashing_unique s ths t t' st st' :
  squasher_inv s ths -> ths !! t = Some st -> ths !! t' = Some st' -> existsb squashes st = true -> existsb squashes st' = true -> t = t'.
Proof.
  intros Hi Ht Ht' Hst Hst'. destruct (decide (t = t')) as [|Hne]; [done|exfalso]. unfold squasher_inv in Hi.
  pose proof (lsum_insert squashing ths t st [] Ht) as Hsum.
  assert (Hle : (squashing st' <= lsum squashing (<[t := []]> ths))%nat).
  { apply lsum_ge. eapply list_elem_of_lookup_2. by rewrite list_lookup_insert_ne. }
  unfold squashing in Hsum at 2 4. unfold squashing in Hle at 1. rewrite Hst in Hsum. rewrite Hst' in Hle. simpl in *.
  destruct (ex_cancelled s); simpl in Hi; lia.
Qed.

(** ** Mutexes *)

Lemma locked_intro t t' j ths st : ths !! t' = Some st -> t' <> t -> held_by j st = true -> locked_by_other t j ths = true.
Proof.
  intros Ht Hne Hh. unfold locked_by_other. apply existsb_exists. exists (t', st). split.
  - apply list_elem_of_In, list_elem_of_lookup. exists t'. by rewrite list_lookup_imap, Ht.
  - simpl. rewrite bool_decide_false by done. done.
Qed.

Lemma locked_elim t j ths : locked_by_other t j ths = true ->
  exists t' st, ths !! t' = Some st /\ t' <> t /\ held_by j st = true.
Proof.
  unfold locked_by_other. intros ([t' st] & Hin & Hb)%existsb_exists. apply list_elem_of_In, list_elem_of_lookup in Hin as (i & Hi).
  rewrite list_lookup_imap in Hi. destruct (ths !! i) as [st'|] eqn:E; [|done]. simplify_eq/=.
  apply andb_true_iff in Hb as [Hne Hh]. exists t', st. split_and!; [done| |done]. intros ->. by rewrite bool_decide_true in Hne.
Qed.

Lemma held_by_elem j st : held_by j st = true <-> exists f, f ∈ st /\ holds_lock f = Some j.
Proof.
  unfold held_by. rewrite existsb_exists. setoid_rewrite <- list_elem_of_In. split; intros (f & Hf & Hl); exists f; (split; [done|]).
  - by apply bool_decide_eq_true in Hl.
  - by apply bool_decide_eq_true.
Qed.

(** [cancel] of a job runs once no other thread starts it. *)
Lemma linked_intro t f st ths s :
  Forall stack_ok ths -> link_inv s ths -> ths !! t = Some (f :: st) -> waits t f ths s = false -> linked s f.
Proof.
  intros Hok Hl Ht Hw j q -> Hq Hssi. destruct (jq_queryRequest q) as [r|] eqn:E; [by exists r|exfalso].
  pose proof (Hl j q Hq Hssi E) as (t' & st' & g & Ht' & Hg & Hwg)%total_pos.
  assert (Hhold : holds_lock g = Some j) by (destruct g; simpl in *; try lia; destruct (Z.eqb_spec j j0); [by subst|simpl in Hwg; lia]).
  destruct (decide (t' = t)) as [->|Hne].
  - assert (st' = FJobCancel2 j :: st) as -> by congruence.
    apply elem_of_cons in Hg as [->|Hg]; [done|]. pose proof (proj1 (Forall_lookup _ _) Hok t _ Ht) as [Hp _].
    rewrite forallb_forall in Hp. specialize (Hp g ltac:(by apply list_elem_of_In)). destruct g; simpl in *; try done; lia.
  - unfold waits in Hw. cbn [takes_lock] in Hw. rewrite (locked_intro t t' j ths st') in Hw; [done..|]. apply held_by_elem. eauto.
Qed.
(** A thread that waits while it holds a mutex is cancelling a job. *)
Lemma waiting_holder f st j ths s t :
  stack_ok (f :: st) -> held_by j (f :: st) = true -> waits t f ths s = true -> crashes f = false ->
  (exists j', f = FJobCancel2 j' /\ locked_by_other t j' ths = true) /\ existsb squashes (f :: st) = true.
Proof.
  intros [Hp Hc] (g & Hg & Hl)%held_by_elem Hw Hcr.
  apply elem_of_cons in Hg as [->|Hg]; [exfalso; unfold waits in Hw; destruct f; simpl in *; congruence|].
  assert (Hcalm : calm f = true).
  { apply Hc, existsb_exists. exists g. split; [by apply list_elem_of_In|]. unfold calming. rewrite Hl. by destruct g. }
  destruct f; simpl in *; try done. split; [by eexists|done].
Qed.

(** When no thread can run, every thread waits for data. *)
Lemma no_deadlock s ths :
  Forall stack_ok ths -> squasher_inv s ths -> Forall (Forall (fun f => crashes f = false)) ths ->
  (forall t f st, ths !! t = Some (f :: st) -> waits t f ths s = true) ->
  forall t f st, ths !! t = Some (f :: st) -> takes_lock f = None.
Proof.
  intros Hok Hsq Hcr Hall t f st Ht. destruct (takes_lock f) as [j|] eqn:E; [exfalso|done].
  assert (Hnext : forall t f st j, ths !! t = Some (f :: st) -> locked_by_other t j ths = true ->
    exists t' j' st', ths !! t' = Some (FJobCancel2 j' :: st') /\ t' <> t /\ locked_by_other t' j' ths = true).
  { clear t f st Ht j E. intros t f st j Ht (t' & st' & Ht' & Hne & Hh)%locked_elim. destruct st' as [|f' st']; [done|].
    pose proof (proj1 (Forall_lookup _ _) Hok t' _ Ht') as Hok'. pose proof (Hall t' f' st' Ht') as Hw.
    pose proof (proj1 (Forall_lookup _ _) Hcr t' _ Ht') as [Hcr' _]%Forall_cons.
    destruct (waiting_holder f' st' j ths s t' Hok' Hh Hw Hcr') as [(j' & -> & Hlock) _]. eauto 10. }
  assert (Hl : locked_by_other t j ths = true) by (pose proof (Hall t f st Ht) as Hw; unfold waits in Hw; by rewrite E in Hw).
  destruct (Hnext t f st j Ht Hl) as (t1 & j1 & st1 & Ht1 & _ & Hl1).
  destruct (Hnext t1 _ st1 j1 Ht1 Hl1) as (t2 & j2 & st2 & Ht2 & Hne & Hl2).
  apply Hne. by eapply squashing_unique.
Qed.
End locks.

(** ** The dispatch of jobs: attempts and results

    How often a job is sent, that its handler is as new when it is first run, and
    that a job is only taken off the list of incomplete jobs of a query that goes
    on when its results are complete. *)

Section jobs.
Context {H : Type} `{ResponseHandler H}.
Context (serializeMsg : Z -> Z -> string) (acceptable : string -> bool).
Implicit Types (s : Executive H) (f : Frame H) (j : Z) (r c : nat) (ths : list (list (Frame H))) (st : list (Frame H)).

Abbreviation frame_step := (frame_step serializeMsg acceptable).
Abbreviation stepped := (stepped serializeMsg acceptable).

(** ** Requests of a job *)

Definition of_job j (q : QueryRequest) : nat := b2n (j =? qr_job q).
Definition reqs j s : nat := lsum (of_job j) (ex_requests s).

Lemma reqs_pos s j r : job_is s r j -> (1 <= reqs j s)%nat.
Proof.
  intros (q & Hq & Hj). pose proof (lsum_ge (of_job j) (ex_requests s) q ltac:(by eapply list_elem_of_lookup_2)) as Hle.
  unfold of_job in Hle at 1. rewrite Hj, Z.eqb_refl in Hle. exact Hle.
Qed.

Lemma reqs_absent s j : state_wf s -> ex_jobMap s !! j = None -> reqs j s = 0%nat.
Proof.
  intros Hs Hn. apply lsum_zero, Forall_lookup. intros r q Hq. unfold of_job. destruct (Z.eqb_spec j (qr_job q)) as [->|]; [|done].
  destruct (sw_requests s Hs r q Hq). congruence.
Qed.

Lemma reqs_upd s j r g : (forall q, qr_job (g q) = qr_job q) -> lsum (of_job j) (alter g r (ex_requests s)) = reqs j s.
Proof.
  intros Hg. destruct (ex_requests s !! r) as [q|] eqn:E.
  - pose proof (lsum_alter (of_job j) (ex_requests s) r q g E) as Hs. unfold of_job in Hs at 2 4. rewrite Hg in Hs. unfold reqs. lia.
  - unfold reqs. f_equal. apply list_eq. intros i. rewrite list_lookup_alter. case_decide; [subst|done]. by rewrite E.
Qed.

Lemma reqs_step f s s' fs j :
  frame_wf s f -> frame_step f s = (s', fs) ->
  reqs j s' = reqs j s \/ exists k, f = FStartQuery j k /\ ex_cancelled s = false /\ reqs j s' = S (reqs j s).
Proof.
  intros Hf Hs. step_cases f Hs Hf; try (by left); unfold reqs; simpl; rewrite ?alter_alter, ?reqs_upd, ?lsum_app by done; auto.
  all: unfold of_job at 2; simpl; destruct (Z.eqb_spec j j0); [right; subst|left; simpl; lia].
  all: eexists; split_and!; [done..|]; unfold of_job at 2; simpl; rewrite Z.eqb_refl; simpl; lia.
Qed.

(** ** Attempts *)

(** A job is sent at most once per attempt, and six times at most. *)
Definition attempt_inv s ths : Prop :=
  forall j q, ex_jobMap s !! j = Some q ->
    -1 <= jq_attemptCount q <= maxAttempts /\ Z.of_nat (reqs j s + total (wStart j) ths) <= jq_attemptCount q + 1.

Lemma wStart_absent s j ths : Forall (Forall (frame_wf s)) ths -> ex_jobMap s !! j = None -> total (wStart j) ths = 0%nat.
Proof.
  intros Ha Hn. eapply total_absent; [|exact Ha]. intros f Hf. destruct f; simpl in *; try done. destruct Hf as [[q Hq] _].
  destruct (Z.eqb_spec j j0); [subst; congruence|done].
Qed.

Lemma attempt_step t f st ths s s' ths' :
  state_wf s -> Forall (Forall (frame_wf s)) ths -> frame_wf s f -> attempt_inv s ths -> stepped t f st ths s s' ths' -> attempt_inv s' ths'.
Proof.
  intros Hsw Hwf Hf Hi (Ht & fs & Hs & ->) j0 q0 Hq0. pose proof (total_step (wStart j0) ths t f st fs Ht) as HS.
  set (T := total (wStart j0) (<[t := _]> _)) in *. clearbody T.
  pose proof (reqs_step f s s' fs j0 Hf Hs) as Hreq. set (R := reqs j0 s') in *. clearbody R.
  pose proof (fun Hn => conj (reqs_absent s j0 Hsw Hn) (wStart_absent s j0 ths Hwf Hn)) as Hnew.
  assert (Hmax : maxAttempts = 5) by done. assert (HMAX : MAX_JOB_ATTEMPTS = 100) by done.
  step_cases f Hs Hf; rewrite ?lsum_JobCancel in HS by done; job_cases.
  all: try match goal with Hn : ex_jobMap _ !! _ = None |- _ => destruct (Hnew Hn) end.
  all: repeat match goal with Hq : ex_jobMap _ !! ?x = Some ?q |- _ => let Hi' := fresh in pose proof (Hi x q Hq) as [? Hi']; revert Hq Hi' end; intros.
  all: simpl in *; eqb_cases; destruct Hreq as [Hreq|(k & Hk & Hc & Hreq)]; simplify_eq/=; try (split; lia).
Qed.

(** ** New jobs *)

(** The first call of [runJob] for job [j] *)
Definition wYoung j f : nat :=
  match f with
  | FAdded j' | FRunJob j' None | FRunLocked j' None | FStartQuery j' None | FCritical j' None => b2n (j =? j')
  | _ => 0%nat
  end.

Definition young_inv s ths : Prop :=
  ex_cancelled s = false -> forall j, (1 <= total (wYoung j) ths)%nat -> reqs j s = 0%nat.

Lemma wYoung_le s j f : (wYoung j f <= ownw s j f)%nat.
Proof. destruct f as [ | |? [] |? []|? []| |? []| | | | | | | | | | | | | | | | | | | | | | | | | | | | | | | |]; simpl; lia. Qed.

(** A job of a query that is not cancelled has one owner. *)
Lemma own_once s ths t f st j :
  own_inv s ths -> ex_cancelled s = false -> ths !! t = Some (f :: st) ->
  (ownw s j f + total (ownw s j) (<[t := st]> ths) + actives j s <= 1)%nat.
Proof.
  intros Hi Hc Ht. specialize (Hi Hc j). rewrite (total_rest _ ths t f st Ht) in Hi. destruct (bool_decide _); simpl in Hi; lia.
Qed.

Lemma not_cancelled_before f s s' fs :
  state_wf s -> frame_wf s f -> frame_step f s = (s', fs) -> ex_cancelled s' = false -> ex_cancelled s = false.
Proof.
  intros Hsw Hf Hs Hc. pose proof (frame_step_wf serializeMsg acceptable s f Hsw Hf) as (Hev & _ & _). rewrite Hs in Hev. simpl in Hev.
  destruct (ex_cancelled s) eqn:E; [|done]. by rewrite (ev_cancelled s s' Hev E) in Hc.
Qed.

Lemma young_pushed f s s' fs j :
  frame_wf s f -> frame_step f s = (s', fs) ->
  (lsum (wYoung j) fs <= wYoung j f)%nat \/ ex_jobMap s !! j = None.
Proof.
  intros Hf Hs. step_cases f Hs Hf; rewrite ?lsum_JobCancel by done; try (left; simpl; lia).
  destruct (decide (j = j0)) as [->|Hne]; [by right|]. left. simpl. destruct (Z.eqb_spec j j0); [done|simpl; lia].
Qed.

Lemma young_step t f st ths s s' ths' :
  state_wf s -> frame_wf s f -> own_inv s ths -> young_inv s ths -> stepped t f st ths s s' ths' -> young_inv s' ths'.
Proof.
  intros Hsw Hf Hown Hi (Ht & fs & Hs & ->) Hc j Hy. pose proof (not_cancelled_before f s s' fs Hsw Hf Hs Hc) as Hc0.
  pose proof (total_step (wYoung j) ths t f st fs Ht) as HY.
  destruct (young_pushed f s s' fs j Hf Hs) as [Hle|Hn].
  - assert (Hz : reqs j s = 0%nat) by (apply (Hi Hc0); lia).
    destruct (reqs_step f s s' fs j Hf Hs) as [->|(k & -> & _)]; [done|exfalso].
    pose proof (own_once s ths t _ st j Hown Hc0 Ht) as Honce. simpl in Honce. rewrite Z.eqb_refl in Honce. simpl in Honce.
    pose proof (total_mono (wYoung j) (ownw s j) (<[t := st]> ths) (wYoung_le s j)).
    rewrite (total_rest _ ths t _ st Ht) in HY. simpl in Hs. unfold startQuery in Hs. rewrite Hc0 in Hs. simplify_eq/=. lia.
  - destruct (reqs_step f s s' fs j Hf Hs) as [->|(k & -> & _)]; [by apply reqs_absent|].
    simpl in Hf. destruct Hf as [[q Hq] _]. congruence.
Qed.

(** Frames that use the handler of job [j] *)
Definition touches s j f : bool :=
  match f with
  | FRunJob j' _ | FRunLocked j' _ | FJobCancel3 j' => j =? j'
  | FResponse r _ | FImportError r _ | FAskAction _ r | FResponseData r _ _ _ _ | FData r _ _ _ | FFlush r _ _ => j =? req_job r s
  | _ => false
  end.

Lemma handler_keeps f s s' fs j q q' :
  frame_wf s f -> frame_step f s = (s', fs) -> touches s j f = false -> ex_jobMap s !! j = Some q -> ex_jobMap s' !! j = Some q' ->
  jq_handler q' = jq_handler q.
Proof.
  intros Hf Hs Ht Hq Hq'. step_cases f Hs Hf; job_cases; try done.
  all: first [congruence|exfalso; by apply Z.eqb_neq in Ht].
Qed.

Context {fresh done : H -> Prop} `{!ResponseHandlerLaws H fresh done}.

Definition fresh_frame s f : Prop :=
  match f with
  | FAdd _ h _ _ => fresh h
  | FAdded j | FRunJob j None => ex_cancelled s = false -> forall q, ex_jobMap s !! j = Some q -> fresh (jq_handler q)
  | _ => True
  end.

Lemma resets_intro s f : fresh_frame s f -> resets s f.
Proof. intros Hf j q -> Hq Hc. by apply reset_fresh, Hf. Qed.

Lemma touches_owner s f j :
  frame_wf s f -> ex_cancelled s = false -> touches s j f = true -> (1 <= ownw s j f + reqs j s)%nat.
Proof.
  assert (Hr : forall r, has_req s r -> (j =? req_job r s) = true -> (1 <= 0 + reqs j s)%nat).
  { intros r Hr ->%Z.eqb_eq. by eapply reqs_pos, req_job_is. }
  intros Hf Hc Ht. destruct f; simpl in *; try discriminate; try (by eapply Hr); try (rewrite Ht; simpl; lia).
  destruct Hf; congruence.
Qed.

Lemma young_untouched s ths t f st g j :
  state_wf s -> frame_wf s f -> own_inv s ths -> young_inv s ths -> ex_cancelled s = false -> ths !! t = Some (f :: st) ->
  wYoung j g = 1%nat -> (forall w, (w g <= total w (<[t := st]> ths))%nat) -> touches s j f = false.
Proof.
  intros Hsw Hf Hown Hy Hc Ht Hg Hle. destruct (touches s j f) eqn:E; [exfalso|reflexivity].
  pose proof (own_once s ths t f st j Hown Hc Ht). pose proof (Hle (ownw s j)). pose proof (wYoung_le s j g).
  assert (reqs j s = 0%nat). { apply (Hy Hc). rewrite (total_rest _ ths t f st Ht). specialize (Hle (wYoung j)). lia. }
  pose proof (touches_owner s f j Hf Hc E). lia.
Qed.

Lemma fresh_pushed f s s' fs : frame_wf s f -> fresh_frame s f -> frame_step f s = (s', fs) -> Forall (fresh_frame s') fs.
Proof.
  intros Hf Hfr Hs. step_cases f Hs Hf; try (apply Forall_map, Forall_forall; by intros); repeat constructor; simpl in *; try (by auto).
  intros _ q Hq. rewrite lookup_insert_eq in Hq. by injection Hq as <-.
Qed.

Lemma fresh_kept t f st ths s s' fs g :
  state_wf s -> frame_wf s f -> own_inv s ths -> young_inv s ths -> ths !! t = Some (f :: st) -> frame_step f s = (s', fs) ->
  frame_wf s g -> fresh_frame s g -> (forall w, (w g <= total w (<[t := st]> ths))%nat) -> fresh_frame s' g.
Proof.
  intros Hsw Hf Hown Hy Ht Hs Hg Hfr Hle.
  assert (Hk : forall j, knows s j -> wYoung j g = 1%nat ->
    (ex_cancelled s = false -> forall q, ex_jobMap s !! j = Some q -> fresh (jq_handler q)) ->
    ex_cancelled s' = false -> forall q, ex_jobMap s' !! j = Some q -> fresh (jq_handler q)).
  { intros j [q0 Hq0] Hw Hfresh Hc q Hq. pose proof (not_cancelled_before f s s' fs Hsw Hf Hs Hc) as Hc0.
    rewrite (handler_keeps f s s' fs j q0 q); [by apply Hfresh|try assumption..].
    by eapply young_untouched. }
  destruct g as [ | |? [] | | | | | | | | | | | | | | | | | | | | | | | | | | | | | | | | | | | |]; try exact Hfr.
  - refine (Hk _ Hg _ Hfr). simpl. by rewrite Z.eqb_refl.
  - refine (Hk _ (proj1 Hg) _ Hfr). simpl. by rewrite Z.eqb_refl.
Qed.

Lemma fresh_step t f st ths s s' ths' :
  state_wf s -> Forall (Forall (frame_wf s)) ths -> own_inv s ths -> young_inv s ths -> Forall (Forall (fresh_frame s)) ths ->
  stepped t f st ths s s' ths' -> Forall (Forall (fresh_frame s')) ths'.
Proof.
  intros Hsw Hwf Hown Hy Hi (Ht & fs & Hs & ->).
  pose proof (Forall_rest _ ths t f st Ht Hwf) as [Hf _]. pose proof (Forall_rest _ ths t f st Ht Hi) as [Hfr _].
  apply (frames_step (fun g => frame_wf s g /\ fresh_frame s g) _ ths t f).
  - apply Forall_lookup. intros t' l Hl. apply Forall_and. split; [exact (proj1 (Forall_lookup _ _) Hwf t' l Hl)|exact (proj1 (Forall_lookup _ _) Hi t' l Hl)].
  - exact Ht.
  - by eapply fresh_pushed.
  - intros g [Hg Hgf] Hle. by eapply (fresh_kept t f st ths s).
Qed.
End jobs.
