(* ===== verification/ExecutiveResults.v ===== *)
(** * The dispatch of jobs: complete results

    A job is reported as successful only when its handler has all results, apart
    from requests that are excused: the network library called the end of their
    stream, or answered for a mock worker. *)

From S2P Require Import Prelude.
From S2P Require Import MergingHandler.
From S2P Require Import Executive.
From S2P Require Import ExecutiveInv.
From S2P Require Import ExecutiveOwn.
From S2P Require Import ExecutiveLocks.

Local Open Scope Z_scope.

Section results.
Context {H : Type} `{ResponseHandler H}.
Context (serializeMsg : Z -> Z -> string) (acceptable : string -> bool).
Context {fresh done : H -> Prop} `{!ResponseHandlerLaws H fresh done}.
Context (excused : nat -> Prop).
Implicit Types (s : Executive H) (f : Frame H) (j : Z) (r c : nat) (ths : list (list (Frame H))) (st : list (Frame H)).

Abbreviation frame_step := (frame_step serializeMsg acceptable).
Abbreviation stepped := (stepped serializeMsg acceptable).

Definition complete s j : Prop :=
  (forall q, ex_jobMap s !! j = Some q -> done (jq_handler q)) \/ exists r, job_is s r j /\ excused r.

(** [runJob] of job [j] *)
Definition runs j f : bool := match f with FRunJob j' _ | FRunLocked j' _ => j =? j' | _ => false end.

Lemma done_keeps f s s' fs j q q' :
  frame_wf s f -> frame_step f s = (s', fs) -> runs j f = false -> ex_jobMap s !! j = Some q -> ex_jobMap s' !! j = Some q' ->
  done (jq_handler q) -> done (jq_handler q').
Proof.
  intros Hf Hs Ht Hq Hq' Hd. destruct (touches s j f) eqn:E; [|by rewrite (handler_keeps serializeMsg acceptable f s s' fs j q q')].
  step_cases f Hs Hf; job_cases; simpl in *; try discriminate; try exact Hd; try congruence.
  all: first [by apply done_errorFlush|by apply done_nextBuffer|by apply done_fill|idtac].
  all: match goal with Hr : rh_flush ?z ?b _ = (?h, _) |- _ => pose proof (done_flush z b _ Hd) as Hd'; rewrite Hr in Hd'; exact Hd' end.
Qed.

Lemma complete_keeps f s s' fs j :
  state_wf s -> frame_wf s f -> frame_step f s = (s', fs) -> runs j f = false -> knows s j -> complete s j -> complete s' j.
Proof.
  intros Hsw Hf Hs Hr [q0 Hq0] [Hd|(r & Hj & He)]; [left|right].
  - intros q Hq. eapply (done_keeps f s s' fs j q0 q); try eassumption. by apply Hd.
  - exists r. split; [|exact He]. pose proof (frame_step_wf serializeMsg acceptable s f Hsw Hf) as (Hev & _ & _).
    rewrite Hs in Hev. by apply Hev.
Qed.

(** The query goes on: it is not cancelled, and no thread is about to cancel it. *)
Definition wCancels f : nat := match f with FSquash => 1%nat | _ => 0%nat end.
Definition goes_on s ths : Prop := ex_cancelled s = false /\ total wCancels ths = 0%nat.

Lemma goes_on_back t f st ths s s' ths' :
  state_wf s -> frame_wf s f -> stepped t f st ths s s' ths' -> goes_on s' ths' -> goes_on s ths.
Proof.
  intros Hsw Hf (Ht & fs & Hs & ->) [Hc Hz]. pose proof (not_cancelled_before serializeMsg acceptable f s s' fs Hsw Hf Hs Hc) as Hc0.
  split; [exact Hc0|]. pose proof (total_step wCancels ths t f st fs Ht) as HT. rewrite Hz in HT.
  destruct f; simpl in HT; try lia. simpl in Hs. unfold squash in Hs. rewrite Hc0 in Hs. simplify_eq/=.
Qed.

Definition result_frame (on : Prop) s f : Prop :=
  match f with
  | FProcessResponse r SsiMock | FResponseActive r SsiMock | FResponse r SsiMock
  | FResponseData r _ true _ _ | FDataCancelled r _ true _ | FData r _ true _ | FProcessData r _ true | FFlush r _ true => excused r
  | FFinish r => on -> is_active r s = true -> complete s (req_job r s)
  | FFinish2 r | FCallMark r true => on -> complete s (req_job r s)
  | FMark j true | FUnTrack j => on -> complete s j
  | _ => True
  end.

Record result_inv s ths : Prop := {
  ri_frames : Forall (Forall (result_frame (goes_on s ths) s)) ths;
  ri_asks c a : ex_asks s !! c = Some a -> ak_state a = DATAREADY1 -> ak_last a = true -> excused (ak_request a);
  ri_done : goes_on s ths -> forall j, knows s j -> j ∉ ex_incompleteJobs s -> complete s j;
}.

Lemma active_back f s s' fs r :
  frame_wf s f -> frame_step f s = (s', fs) -> has_req s r -> is_active r s' = true -> is_active r s = true.
Proof.
  intros Hf Hs [q Hq]. unfold is_active. rewrite Hq. destruct (ex_requests s' !! r) as [q'|] eqn:Hq'; [|discriminate].
  intros Ha. step_cases f Hs Hf; lookup_cases; try done.
  all: match goal with Hq : ex_requests _ !! _ = Some _, Hl : (length _ <= _)%nat |- _ => apply lookup_lt_Some in Hq; lia end.
Qed.

(** The answers of the network library that are excused reach [ak_last]. *)
Lemma asks_step on f s s' fs :
  state_wf s -> frame_wf s f -> result_frame on s f ->
  (forall c a, ex_asks s !! c = Some a -> ak_state a = DATAREADY1 -> ak_last a = true -> excused (ak_request a)) ->
  frame_step f s = (s', fs) ->
  forall c a, ex_asks s' !! c = Some a -> ak_state a = DATAREADY1 -> ak_last a = true -> excused (ak_request a).
Proof.
  intros Hsw Hf Hfr Hi Hs c a Ha Hst Hl. pose proof (sw_asks s Hsw) as Hasks.
  step_cases f Hs Hf; lookup_cases; try done; try (by eapply Hi).
  match goal with Hq : ex_requests _ !! _ = Some _ |- _ => destruct (Hasks _ _ _ Hq eq_refl) as (a1 & Ha1 & <-) end. congruence.
Qed.

Lemma knows_req_job s r : state_wf s -> has_req s r -> knows s (req_job r s).
Proof. intros Hs Hr. destruct (req_job_is s r Hr) as (q & Hq & <-). by eapply sw_requests. Qed.

(** ** The new frames *)

Lemma pushed_cancels t f st ths s s' fs : stepped t f st ths s s' (<[t := fs ++ st]> ths) -> (lsum wCancels fs <= total wCancels (<[t := fs ++ st]> ths))%nat.
Proof. intros (Ht & _). pose proof (total_step wCancels ths t f st fs Ht) as HT. rewrite (total_rest _ ths t f st Ht) in HT. lia. Qed.

Lemma result_pushed f s s' fs (on on' : Prop) :
  state_wf s -> frame_wf s f -> asked s f ->
  (forall c a, ex_asks s !! c = Some a -> ak_state a = DATAREADY1 -> ak_last a = true -> excused (ak_request a)) ->
  result_frame on s f -> (on' -> on /\ lsum wCancels fs = 0%nat) -> frame_step f s = (s', fs) -> Forall (result_frame on' s') fs.
Proof.
  intros Hsw Hf Ha Hasks Hfr Hon Hs.
  assert (Hk : forall j, runs j f = false -> knows s j -> complete s j -> complete s' j) by (intros; by eapply complete_keeps).
  pose proof (req_job_evolves s s') as Hreq.
  pose proof (frame_step_wf serializeMsg acceptable s f Hsw Hf) as (Hev & _ & _). rewrite Hs in Hev. simpl in Hev. specialize (fun r => Hreq r Hev).
  destruct f as [ | |? [] |? []|? []|? []|? []|? []|? []|? []|? []| | | | | ? ? [] | ? ? [] | ? ? []| ? ? []| ? ? []|? []|? ? []| | | |? []| |? []| | | | | | | | | | |];
  simpl in Hs; unfold_handlers Hs;
  repeat case_match; wf_branch Hf; simplify_eq/=; try (apply Forall_map, Forall_forall; by intros); repeat apply Forall_cons_2; try apply Forall_nil_2; simpl in *; try exact I; try exact Hfr; try intros Hon'; try destruct (Hon Hon') as [Hon1 ?]; try done.
  - intros _. right. exists r. split; [by apply req_job_is|exact Hfr].
  - destruct ak_last; [|exact I]. destruct Ha as (x & q & a & Hq & Hc & Hask & Hx).
    destruct (sw_asks _ Hsw r q c Hq Hc) as (a' & Ha' & Hr').
    match goal with Ha1 : ex_asks _ !! c = Some (mkAsk ?r0 _ _ _) |- _ => pose proof (Hasks c _ Ha1 eq_refl eq_refl) as He; simpl in He end.
    replace r with ak_request; [exact He|]. match goal with Ha1 : ex_asks _ !! c = Some (mkAsk _ _ _ _) |- _ => rewrite Ha1 in Ha' end.
    by injection Ha' as <-.
  - intros _. right. exists r. split; [apply req_job_is; eapply evolves_has; [exact Hev|exact Hf]|exact Hfr].
  - intros _. left. rewrite Hreq by exact Hf. intros q' Hq'. simpl in Hq'. rewrite !lookup_alter_eq in Hq'.
    match goal with Hj : ex_jobMap _ !! _ = Some _ |- _ => rewrite Hj in Hq' end. injection Hq' as <-. simpl.
    match goal with Hr : rh_flush _ false _ = (_, ?res) |- _ => destruct res as [b1 b2 b3]; simpl in *; subst; by eapply flush_done end.
  - rewrite Hreq by exact Hf. apply Hk; [done|by apply knows_req_job|by apply Hfr].
  - rewrite Hreq by exact Hf. apply Hk; [done|by apply knows_req_job|by apply Hfr].
  - rewrite <- (req_job_lookup s r q) by assumption. apply Hk; [done|by apply knows_req_job|by apply Hfr].
  - by apply Hfr.
Qed.

(** ** The other frames *)

Lemma active_counts s r : is_active r s = true -> (1 <= actives (req_job r s) s)%nat.
Proof.
  unfold is_active, req_job. destruct (ex_requests s !! r) as [q|] eqn:E; [|done]. intros Ha.
  pose proof (lsum_ge (act (qr_job q)) (ex_requests s) q ltac:(by eapply list_elem_of_lookup_2)) as Hle.
  unfold act in Hle at 1. unfold activeb in Hle. by rewrite Ha, Z.eqb_refl in Hle.
Qed.

Lemma runs_owner s j f : runs j f = true -> ownw s j f = 1%nat.
Proof. destruct f; simpl; try done; by intros ->. Qed.

Lemma complete_kept t f st ths s s' fs j :
  state_wf s -> frame_wf s f -> own_inv s ths -> ex_cancelled s = false -> ths !! t = Some (f :: st) -> frame_step f s = (s', fs) ->
  (1 <= total (ownw s j) (<[t := st]> ths) + actives j s)%nat -> knows s j -> complete s j -> complete s' j.
Proof.
  intros Hsw Hf Hown Hc Ht Hs Ho Hk Hco. eapply (complete_keeps f s); try eassumption.
  destruct (runs j f) eqn:E; [exfalso|done]. pose proof (own_once s ths t f st j Hown Hc Ht). rewrite (runs_owner s j f E) in *. lia.
Qed.

Lemma result_kept t f st ths s s' fs g (on on' : Prop) :
  state_wf s -> frame_wf s f -> own_inv s ths -> ths !! t = Some (f :: st) -> frame_step f s = (s', fs) ->
  (on' -> on /\ ex_cancelled s = false) -> frame_wf s g -> result_frame on s g ->
  (forall w, (w g <= total w (<[t := st]> ths))%nat) -> result_frame on' s' g.
Proof.
  intros Hsw Hf Hown Ht Hs Hon Hg Hgf Hle.
  assert (Hk : forall j, (1 <= ownw s j g + actives j s)%nat -> knows s j -> ex_cancelled s = false -> complete s j -> complete s' j).
  { intros j Ho Hkn Hc. specialize (Hle (ownw s j)). eapply (complete_kept t f st ths s); try eassumption. lia. }
  assert (Hr : forall r, has_req s r -> req_job r s' = req_job r s).
  { intros r. apply req_job_evolves. pose proof (frame_step_wf serializeMsg acceptable s f Hsw Hf) as (Hev & _ & _). by rewrite Hs in Hev. }
  destruct g as [ | | | | | | | |? []|? []|? []| | | | |? ? []|? ? []|? ? []|? ? []|? ? []| | | | | |? []| |? []| | | | | | | | | | |];
    try exact Hgf; simpl in *; intros Hon'; destruct (Hon Hon') as [Hon1 Hc]; rewrite ?Hr by done.
  1: intros Ha; pose proof (active_back f s s' fs _ Hf Hs Hg Ha) as Ha0; pose proof (active_counts s _ Ha0).
  all: apply Hk; try (by apply knows_req_job); try done; rewrite ?Z.eqb_refl; simpl; try lia; by apply Hgf.
Qed.

(** ** The step *)

Lemma untracked_step f s s' fs j :
  frame_wf s f -> frame_step f s = (s', fs) -> knows s' j -> j ∉ ex_incompleteJobs s' ->
  knows s j /\ (j ∉ ex_incompleteJobs s \/ f = FUnTrack j).
Proof.
  intros Hf Hs [q Hq] Hj. step_cases f Hs Hf; job_cases; try (split; [eapply mk_is_Some; eassumption|by left]); try (exfalso; apply Hj; apply elem_of_union_l, elem_of_singleton; reflexivity); try (exfalso; apply Hj; assumption).
  - split; [by exists q|]. left. set_solver.
  - split; [by exists q|]. destruct (decide (j = j0)) as [->|Hne]; [by right|left; set_solver].
Qed.

Lemma result_step t f st ths s s' ths' :
  state_wf s -> Forall (Forall (frame_wf s)) ths -> own_inv s ths -> ask_inv s ths -> result_inv s ths ->
  stepped t f st ths s s' ths' -> result_inv s' ths'.
Proof.
  intros Hsw Hwf Hown Hask Hi Hst. destruct Hst as (Ht & fs & Hs & ->).
  pose proof (Forall_rest _ ths t f st Ht Hwf) as [Hf _]. pose proof (Forall_rest _ ths t f st Ht (ri_frames s ths Hi)) as [Hfr _].
  pose proof (Forall_rest _ ths t f st Ht (ai_asked s ths Hask)) as [Ha _].
  assert (Hst : stepped t f st ths s s' (<[t := fs ++ st]> ths)) by (split; [exact Ht|by exists fs]).
  pose proof (goes_on_back t f st ths s s' _ Hsw Hf Hst) as Hon. pose proof (pushed_cancels t f st ths s s' fs Hst) as Hcan.
  split.
  - apply (frames_step (fun g => frame_wf s g /\ result_frame (goes_on s ths) s g) _ ths t f).
    + apply Forall_lookup. intros t' l Hl. apply Forall_and.
      split; [exact (proj1 (Forall_lookup _ _) Hwf t' l Hl)|exact (proj1 (Forall_lookup _ _) (ri_frames s ths Hi) t' l Hl)].
    + exact Ht.
    + eapply result_pushed; try eassumption; [apply (ri_asks s ths Hi)|]. intros Hon'. split; [by apply Hon|]. destruct Hon'. lia.
    + intros g [Hg Hgf] Hle. eapply (result_kept t f st ths s); try eassumption. intros Hon'. split; [|apply Hon]; auto.
  - eapply (asks_step (goes_on s ths) f s); try eassumption. apply (ri_asks s ths Hi).
  - intros Hon' j Hk Hj.
    destruct (untracked_step f s s' fs j Hf Hs Hk Hj) as [Hk0 [Hj0| ->]].
    + eapply (complete_keeps f s); try eassumption; [|by apply (ri_done s ths Hi); [apply Hon|..]].
      destruct (runs j f) eqn:E; [exfalso|reflexivity]. destruct (Hon Hon') as [Hc _]. specialize (Hown Hc j).
      rewrite bool_decide_false, (total_rest _ ths t f st Ht), (runs_owner s j f E) in Hown by exact Hj0. simpl in Hown. lia.
    + eapply (complete_keeps (FUnTrack j) s); try eassumption; [reflexivity|]. apply Hfr. by apply Hon.
Qed.
End results.

(** ** The dispatch of jobs: requests that are not finished

    A request that is not finished is being worked on: the network library owes
    its response or data, the pool has a command for it, or a thread is at it. *)

Section live.
Context {H : Type} `{ResponseHandler H}.
Context (serializeMsg : Z -> Z -> string) (acceptable : string -> bool).
Implicit Types (s : Executive H) (f : Frame H) (j : Z) (r c : nat) (ths : list (list (Frame H))) (st : list (Frame H)).

Abbreviation frame_step := (frame_step serializeMsg acceptable).
Abbreviation stepped := (stepped serializeMsg acceptable).

(** The frames that are about to finish request [r], and those that work on it *)
Definition wEF r f : nat :=
  match f with FErrorFinish r' _ _ | FFinish r' | FImportError r' _ => b2n (r =? r')%nat | _ => 0%nat end.
Definition wLive r f : nat :=
  match f with
  | FReqCancel r' _ => b2n (r =? r')%nat
  | _ => (wTok r f + wEF r f)%nat
  end.

Record live_inv s ths : Prop := {
  li_live r q : ex_requests s !! r = Some q -> activeb q = true ->
    (1 <= b2n (negb (qr_responded q)) + lsum (wPool r) (ex_pool s) + total (wLive r) ths)%nat;
  li_cancelled r q : ex_requests s !! r = Some q -> activeb q = true -> qr_cancelled q = true -> (1 <= total (wEF r) ths)%nat;
  li_wait r q : ex_requests s !! r = Some q -> activeb q = true ->
    (total (wWait s r) ths <= b2n (qr_pending q) + total (wDat r) ths + total (wEF r) ths)%nat;
}.

Lemma wEF_live r f : (wEF r f <= wLive r f)%nat.
Proof. destruct f; simpl; lia. Qed.

(** A request that is not finished has its job. *)
Lemma active_job s ths r q : phase_inv s ths -> ex_requests s !! r = Some q -> activeb q = true -> qr_hasJob q = true.
Proof. intros Hp Hq Ha. destruct (Hp r q Hq) as [H1 _]. rewrite Ha in H1. destruct (qr_hasJob q); simpl in H1; [done|lia]. Qed.

Ltac live_cases Hp :=
  try match goal with
  | Hq : ex_requests ?s !! ?r = Some ?q, Hb : bool_decide (qr_finishStatus ?q = ACTIVE) = true |- _ => pose proof (active_job s _ r q Hp Hq Hb)
  end;
  try match goal with Hb : _ && _ = false |- _ => apply andb_false_iff in Hb as [?|?]; [congruence|congruence] end.

Lemma cancelled_step t f st ths s s' ths' r q :
  frame_wf s f -> phase_inv s ths -> live_inv s ths -> stepped t f st ths s s' ths' ->
  ex_requests s' !! r = Some q -> activeb q = true -> qr_cancelled q = true -> (1 <= total (wEF r) ths')%nat.
Proof.
  intros Hf Hp Hi (Ht & fs & Hs & ->) Hq Ha Hc. pose proof (total_step (wEF r) ths t f st fs Ht) as HE.
  set (T := total (wEF r) (<[t := _]> _)) in *. clearbody T.
  unfold activeb in *.
  step_cases f Hs Hf; rewrite ?lsum_JobCancel in HE by done; lookup_cases; simpl in *.
  all: try match goal with
    | Hq : ex_requests _ !! ?r = Some ?q0, Hb : bool_decide (qr_finishStatus ?q0 = ACTIVE) = true, Hc : qr_cancelled ?q0 = true |- _ =>
        pose proof (li_cancelled _ ths Hi r q0 Hq Hb Hc)
    end.
  all: eqb_cases; lookup_cases; live_cases Hp; try lia; try congruence.
Qed.

Lemma live_step t f st ths s s' ths' r q :
  state_wf s -> frame_wf s f -> phase_inv s ths -> live_inv s ths -> stepped t f st ths s s' ths' ->
  ex_requests s' !! r = Some q -> activeb q = true ->
  (1 <= b2n (negb (qr_responded q)) + lsum (wPool r) (ex_pool s') + total (wLive r) ths')%nat.
Proof.
  intros Hsw Hf Hp Hi (Ht & fs & Hs & ->) Hq Ha. pose proof (total_step (wLive r) ths t f st fs Ht) as HE.
  rewrite (total_rest _ ths t f st Ht) in HE.
  pose proof (total_mono (wEF r) (wLive r) (<[t := st]> ths) (wEF_live r)) as Hmono.
  pose proof (total_rest (wEF r) ths t f st Ht) as HEF. pose proof (total_rest (wLive r) ths t f st Ht) as HL.
  set (T := total (wLive r) (<[t := fs ++ st]> _)) in *. clearbody T.
  set (T1 := total (wLive r) (<[t := st]> _)) in *. clearbody T1. set (T2 := total (wEF r) (<[t := st]> _)) in *. clearbody T2.
  unfold activeb in *. 
  step_cases f Hs Hf; rewrite ?lsum_JobCancel in HE by done; lookup_cases; simpl in *.
  all: try match goal with
    | Hq : ex_requests _ !! ?r = Some ?q0, Hb : bool_decide (qr_finishStatus ?q0 = ACTIVE) = true |- _ =>
        pose proof (li_live _ ths Hi r q0 Hq Hb)
    end.
  all: rewrite ?lsum_app; simpl; unfold wPool in *; simpl in *; eqb_cases; lookup_cases; live_cases Hp; try lia; try congruence.
  all: try (exfalso; match goal with Hn : alter _ _ ?l !! ?x = None, Hq : ?l !! ?x = Some _ |- _ => rewrite list_lookup_alter_eq, Hq in Hn; discriminate end).
  all: try match goal with
    | Hq : ex_requests _ !! ?r = Some ?q0, Hb : bool_decide (qr_finishStatus ?q0 = ACTIVE) = true, Hc : qr_cancelled ?q0 = true |- _ =>
        pose proof (li_cancelled _ ths Hi r q0 Hq Hb Hc); lia
    end.
  destruct (knows_req_job _ _ Hsw Hf). congruence.
Qed.

(** ** Waiting for data *)

Lemma data_kept f s s' fs ths r q q' :
  frame_wf s f -> phase_inv s ths -> frame_step f s = (s', fs) -> ex_requests s !! r = Some q -> ex_requests s' !! r = Some q' -> activeb q' = true ->
  wTok r f = 0%nat -> is_data r f = false ->
  (wDat r f + wEF r f <= lsum (wDat r) fs + lsum (wEF r) fs)%nat \/ qr_ask q = None.
Proof.
  intros Hf Hp Hs Hq Hq' Ha Ht Hd. unfold activeb in *.
  step_cases f Hs Hf; rewrite ?lsum_JobCancel by done; lookup_cases; eqb_cases; lookup_cases; live_cases Hp; auto; try (left; lia); try discriminate; try congruence.
  all: destruct (Nat.eqb_spec r r0); [subst|left; simpl; lia]; lookup_cases; live_cases Hp; auto; try congruence.
Qed.

Section wait.
Context (t : nat) f st ths s s' (fs : list (Frame H)).
Hypothesis (Hsw : state_wf s) (Hwf : Forall (Forall (frame_wf s)) ths) (Hf : frame_wf s f).
Hypothesis (Hp : phase_inv s ths) (Hask : ask_inv s ths) (Hi : live_inv s ths).
Hypothesis (Ht : ths !! t = Some (f :: st)) (Hs : frame_step f s = (s', fs)).

Let rest := <[t := st]> ths.

(** A thread that waits for the data of a request waits for its current command. *)
Lemma wait_none r s0 : (forall c x, ask_in s r c x -> started s0 c = false) -> total (wWait s0 r) rest = 0%nat.
Proof.
  intros Hn. apply total_zero. pose proof (asked_rest t f st ths s Hask Ht) as Ha. eapply Forall_impl; [exact Ha|]. intros l Hl.
  eapply Forall_impl; [exact Hl|]. intros g Hg. destruct g; simpl in *; try done. destruct (Nat.eqb_spec r r0) as [<-|]; [|done].
  destruct Hg as [x Hx]. by rewrite (Hn c x).
Qed.

Lemma notified r : is_data r f = true -> total (wWait s' r) rest = 0%nat /\ lsum (wWait s' r) fs = 0%nat.
Proof.
  intros Hd. assert (Hnot : exists q c blen last code, f = FData r blen last code /\ ex_requests s !! r = Some q /\ qr_ask q = Some c).
  { clear Hs. destruct f; simpl in Hd; try done. apply Nat.eqb_eq in Hd as <-.
    destruct (data_has_ask serializeMsg acceptable t r _ _ _ st ths s Hask Hf Ht) as (q & c & Hq & Hc). by repeat eexists. }
  destruct Hnot as (q & c & blen & last & code & Hfr & Hq & Hc). rewrite Hfr in Hs. simpl in Hs. unfold responseData in Hs. rewrite Hq in Hs.
  destruct q as [? ? ? ? ? ? ? ? ask ? ?]. simpl in Hc. subst ask.
  assert (Hst : forall c' x, ask_in s r c' x -> started s' c' = false).
  { intros c' x (q & a & Hq' & Hc' & Ha & _). rewrite Hq in Hq'. injection Hq' as <-. injection Hc' as <-.
    unfold started. destruct (blen <? 0); injection Hs as <- <-; simpl; by rewrite list_lookup_alter_eq, Ha. }
  split; [by apply wait_none|]. destruct (blen <? 0); by injection Hs as <- <-.
Qed.

(** Only the thread that fetches results starts to wait: it has asked for data. *)
Lemma wait_pushed r : (lsum (wWait s' r) fs <= wTok r f)%nat /\
  forall q, ex_requests s' !! r = Some q -> (lsum (wWait s' r) fs <= b2n (qr_pending q))%nat \/ (s' = s /\ fs = [f]).
Proof.
  clear Hp Hask Hi Ht Hsw. assert (Hz : forall b : bool, (b2n b <= 1)%nat) by (intros []; simpl; lia).
  step_cases f Hs Hf; rewrite ?lsum_JobCancel by done; simpl; (split; [try lia|intros ? Hq; try (left; lia)]); try (by right).
  all: destruct (Nat.eqb_spec r r0) as [<-|Hne]; simpl; try (match goal with |- context [b2n (started ?s ?c)] => pose proof (Hz (started s c)) end); try lia; try (left; simpl; lia).
  left. simpl in Hq. rewrite list_lookup_alter_eq in Hq. destruct (ex_requests s !! r); [|discriminate]. injection Hq as <-. simpl. lia.
Qed.

Lemma wait_step r q : ex_requests s' !! r = Some q -> activeb q = true ->
  (total (wWait s' r) (<[t := fs ++ st]> ths) <=
   b2n (qr_pending q) + total (wDat r) (<[t := fs ++ st]> ths) + total (wEF r) (<[t := fs ++ st]> ths))%nat.
Proof.
  intros Hq Ha. destruct (wait_pushed r) as [Hle Hpush]. destruct (Hpush q Hq) as [Hpend|[-> ->]].
  2:{ rewrite list_insert_id by exact Ht. by apply (li_wait s ths Hi). }
  pose proof (total_step (wWait s' r) ths t f st fs Ht) as HW. rewrite (total_rest _ ths t f st Ht) in HW. fold rest in HW.
  destruct (is_data r f) eqn:Hd; [destruct (notified r Hd); lia|].
  destruct (ex_requests s !! r) as [q0|] eqn:Hq0.
  2:{ rewrite (wait_none r s') in HW; [lia|]. intros c x (q' & ? & Hq' & _). congruence. }
  destruct (decide (wTok r f = 0%nat)) as [Hw|Hw].
  2:{ pose proof (wait_rest t f st ths s Hask Ht s' r ltac:(by exists q0) ltac:(lia)) as Hz. fold rest in Hz. lia. }
  pose proof (wWait_rest serializeMsg acceptable t f st ths s s' fs Hsw Hf Hask Ht Hs r Hw Hd) as Hr. fold rest in Hr.
  pose proof (total_step (wDat r) ths t f st fs Ht) as HD. pose proof (total_step (wEF r) ths t f st fs Ht) as HE.
  rewrite (total_rest (wDat r) ths t f st Ht) in HD. rewrite (total_rest (wEF r) ths t f st Ht) in HE. fold rest in HD, HE.
  assert (Ha0 : activeb q0 = true).
  { pose proof (active_back serializeMsg acceptable f s s' fs r Hf Hs ltac:(by exists q0)) as Hb. unfold is_active in Hb.
    rewrite Hq, Hq0 in Hb. by apply Hb. }
  destruct (data_kept f s s' fs ths r q0 q Hf Hp Hs Hq0 Hq Ha Hw Hd) as [Hdk|Hn].
  - pose proof (li_wait s ths Hi r q0 Hq0 Ha0) as Hli. rewrite !(total_rest (wDat r) ths t f st Ht) in Hli.
    rewrite (total_rest (wEF r) ths t f st Ht), (total_rest (wWait s r) ths t f st Ht) in Hli. fold rest in Hli.
    destruct (dat_step serializeMsg acceptable f s s' fs r q Hf Hs Hq) as [_ Hpe]; [intros c ->; simpl in Hw; by rewrite Nat.eqb_refl in Hw|].
    rewrite Hq0 in Hpe. rewrite Hpe. lia.
  - rewrite (wait_none r s') in HW; [lia|]. intros c x (q' & ? & Hq' & Hc & _). congruence.
Qed.
End wait.

Lemma live_step_inv t f st ths s s' ths' :
  state_wf s -> Forall (Forall (frame_wf s)) ths -> frame_wf s f -> phase_inv s ths -> ask_inv s ths -> live_inv s ths ->
  stepped t f st ths s s' ths' -> live_inv s' ths'.
Proof.
  intros Hsw Hwf Hf Hp Ha Hi Hst. split.
  - intros r q. by eapply (live_step t f st ths s).
  - intros r q. by eapply (cancelled_step t f st ths s).
  - destruct Hst as (Ht & fs & Hs & ->). intros r q. by eapply wait_step.
Qed.
End live.
