(* ===== verification/ExecutiveSpawn.v ===== *)
(** * The dispatch of jobs: events from outside

    All invariants together, and that they are kept when a job is added, the
    query is cancelled, the network library calls back or the pool starts a
    command. *)

From S2P Require Import Prelude.
From S2P Require Import MergingHandler.
From S2P Require Import Executive.
From S2P Require Import ExecutiveInv.
From S2P Require Import ExecutiveOwn.
From S2P Require Import ExecutiveLocks.
From S2P Require Import ExecutiveResults.

Local Open Scope Z_scope.

Section spawn.
Context {H : Type} `{ResponseHandler H}.
Context {fresh done : H -> Prop}.
Context (excused : nat -> Prop).
Implicit Types (s : Executive H) (f : Frame H) (j : Z) (r c : nat) (ths : list (list (Frame H))) (st : list (Frame H)).

(** ** All invariants *)

Record core_inv s ths : Prop := {
  ci_state : state_wf s;
  ci_frames : Forall (Forall (frame_wf s)) ths;
  ci_phase : phase_inv s ths;
  ci_own : own_inv s ths;
  ci_squash : squash_inv s ths;
  ci_cover : cover_inv s ths;
  ci_link : link_inv s ths;
  ci_stacks : Forall stack_ok ths;
  ci_squasher : squasher_inv s ths;
  ci_attempt : attempt_inv s ths;
  ci_young : young_inv s ths;
  ci_fresh : Forall (Forall (fresh_frame (fresh := fresh) s)) ths;
  ci_alive : Forall (Forall (fun f => crashes f = false)) ths;
}.

(** ** What outside events change *)

Definition core (q : QueryRequest) : QueryRequest := qr_set_ssi false false q.

Record same s s' : Prop := {
  sm_cancelled : ex_cancelled s' = ex_cancelled s;
  sm_jobs : ex_jobMap s' = ex_jobMap s;
  sm_incomplete : ex_incompleteJobs s' = ex_incompleteJobs s;
  sm_asks : ex_asks s' = ex_asks s;
  sm_requests : core <$> ex_requests s' = core <$> ex_requests s;
}.

Lemma same_lookup s s' r q' :
  same s s' -> ex_requests s' !! r = Some q' -> exists q, ex_requests s !! r = Some q /\ core q' = core q.
Proof.
  intros Hs Hq. pose proof (f_equal (lookup r) (sm_requests s s' Hs)) as He. rewrite !list_lookup_fmap, Hq in He.
  destruct (ex_requests s !! r) as [q|]; [|discriminate He]. exists q. split; [reflexivity|]. exact (inj Some _ _ He).
Qed.

Lemma same_sym s s' : same s s' -> same s' s.
Proof. by intros []. Qed.

Lemma same_upd_req s r g : (forall q, core (g q) = core q) -> same s (upd_req r g s).
Proof.
  intros Hg. split; [reflexivity..|]. simpl. apply list_eq. intros i. rewrite !list_lookup_fmap, list_lookup_alter.
  case_decide; [subst|reflexivity]. destruct (ex_requests s !! i); [exact (f_equal Some (Hg _))|reflexivity].
Qed.

Lemma same_evolves s s' : same s s' -> evolves s s'.
Proof.
  intros Hs. split.
  - rewrite (sm_cancelled s s' Hs). exact id.
  - intros j. unfold knows. by rewrite (sm_jobs s s' Hs).
  - intros r j (q & Hq & <-). destruct (same_lookup s' s r q (same_sym _ _ Hs) Hq) as (q' & Hq' & He). exists q'. split; [exact Hq'|].
    by injection He.
Qed.

Lemma core_lsum (w : QueryRequest -> nat) s s' :
  same s s' -> (forall q, w (core q) = w q) -> lsum w (ex_requests s') = lsum w (ex_requests s).
Proof.
  intros Hs Hw. assert (Hl : forall l, lsum w (core <$> l) = lsum w l).
  { intros l. induction l as [|q l IH]; [reflexivity|]. rewrite fmap_cons. cbn [lsum]. by rewrite Hw, IH. }
  rewrite <- (Hl (ex_requests s')), <- (Hl (ex_requests s)). by rewrite (sm_requests s s' Hs).
Qed.

Lemma same_req_job s s' r : same s s' -> req_job r s' = req_job r s.
Proof.
  intros Hs. unfold req_job. destruct (ex_requests s' !! r) as [q'|] eqn:E.
  - destruct (same_lookup s s' r q' Hs E) as (q & -> & He). by injection He.
  - destruct (ex_requests s !! r) as [q|] eqn:E'; [|reflexivity].
    destruct (same_lookup s' s r q (same_sym _ _ Hs) E') as (q' & Hq' & _). congruence.
Qed.

(** The first frames of threads *)
Definition outer f : bool :=
  match f with FAdd _ _ _ _ | FSquash | FProcessResponse _ _ | FResponseData _ _ _ _ _ | FAskAction _ _ => true | _ => false end.

Lemma total_outer (w w' : Frame H -> nat) ths f :
  (forall g, w' g = w g) -> w f = 0%nat -> total w' (ths ++ [[f]]) = total w ths.
Proof.
  intros He Hf. rewrite total_spawn. simpl. rewrite He, Hf.
  rewrite (total_ext w' w); [lia|]. apply Forall_forall. intros l _. apply Forall_forall. intros g _. apply He.
Qed.

Lemma Forall_spawn (P P' : Frame H -> Prop) ths f :
  Forall (Forall P) ths -> (forall g, P g -> P' g) -> P' f -> Forall (Forall P') (ths ++ [[f]]).
Proof.
  intros Ha Hi Hf. apply Forall_app. split.
  - eapply Forall_impl; [exact Ha|]. intros l Hl. by eapply Forall_impl.
  - by repeat constructor.
Qed.

Lemma core_spawn s s' ths f :
  same s s' -> state_wf s' -> outer f = true -> frame_wf s' f -> fresh_frame (fresh := fresh) s' f ->
  core_inv s ths -> core_inv s' (ths ++ [[f]]).
Proof.
  intros Hs Hsw Ho Hf Hfr Hi. pose proof (same_evolves s s' Hs) as Hev. destruct Hi.
  assert (Hz : forall w : Frame H -> nat, (forall g, outer g = true -> w g = 0%nat) -> total w (ths ++ [[f]]) = total w ths).
  { intros w Hw. apply total_outer; [reflexivity|]. by apply Hw. }
  assert (Hjob : forall r, req_job r s' = req_job r s) by (intros r; by apply same_req_job).
  assert (Hact : forall j, actives j s' = actives j s) by (intros j; by apply core_lsum).
  assert (Hreqs : forall j, reqs j s' = reqs j s) by (intros j; by apply core_lsum).
  assert (Hw : forall j, total (ownw s' j) (ths ++ [[f]]) = total (ownw s j) ths).
  { intros j. apply total_outer; [|by destruct f]. intros []; simpl; rewrite ?Hjob; reflexivity. }
  assert (Hcov : forall j, total (covw s' j) (ths ++ [[f]]) = total (covw s j) ths).
  { intros j. apply total_outer; [|by destruct f]. intros g. destruct g; simpl; rewrite ?Hjob; reflexivity. }
  pose proof (sm_cancelled s s' Hs) as Hc. pose proof (sm_jobs s s' Hs) as Hj. pose proof (sm_incomplete s s' Hs) as Hinc.
  split.
  - exact Hsw.
  - eapply Forall_spawn; [exact ci_frames0| |exact Hf]. intros g. by apply frame_wf_evolves.
  - intros r q' Hq'. destruct (same_lookup s s' r q' Hs Hq') as (q & Hq & He). destruct (ci_phase0 r q Hq) as [H1 H2].
    rewrite !Hz by (intros []; done). unfold activeb in *. injection He as _ -> _ -> -> _ _ _ _. by split.
  - unfold own_inv. rewrite Hc, Hinc. intros Hcan j. rewrite Hw, Hact. by apply ci_own0.
  - unfold squash_inv. rewrite Hc, Hj. setoid_rewrite Hz; [exact ci_squash0|intros []; done..].
  - unfold cover_inv. rewrite Hc, Hinc. intros Hcan j Hin. rewrite Hcov, Hact. by apply ci_cover0.
  - unfold link_inv. rewrite Hj. intros j q. rewrite Hz by (intros []; done). apply ci_link0.
  - apply Forall_app. split; [exact ci_stacks0|]. by repeat constructor.
  - unfold squasher_inv. rewrite lsum_app, Hc. assert (lsum squashing [[f]] = 0%nat) as -> by (by destruct f). unfold squasher_inv in *. lia.
  - unfold attempt_inv. rewrite Hj. intros j q. rewrite Hreqs, Hz by (intros []; done). apply ci_attempt0.
  - unfold young_inv. rewrite Hc. intros Hcan j. rewrite Hreqs, Hz by (intros []; done). by apply ci_young0.
  - eapply Forall_spawn; [exact ci_fresh0| |exact Hfr]. intros [ | |? [] | | | | | | | | | | | | | | | | | | | | | | | | | | | | | | | | | | | |]; simpl; rewrite ?Hc, ?Hj; done.
  - eapply Forall_spawn; [exact ci_alive0|auto|]. by destruct f.
Qed.
(** ** Fetching results *)

Lemma ask_in_same s s' r c x : same s s' -> ask_in s r c x -> ask_in s' r c x.
Proof.
  intros Hs (q & a & Hq & Hc & Ha & Hx). destruct (same_lookup s' s r q (same_sym _ _ Hs) Hq) as (q' & Hq' & He).
  exists q', a. rewrite (sm_asks s s' Hs). injection He as _ _ _ _ _ _ _ _ He. rewrite <- He. auto.
Qed.

Lemma wWait_same s s' r ths : same s s' -> total (wWait s' r) ths = total (wWait s r) ths.
Proof.
  intros Hs. apply total_ext, Forall_forall. intros l _. apply Forall_forall. intros [] _; simpl; try reflexivity.
  unfold started. by rewrite (sm_asks s s' Hs).
Qed.

Lemma asked_same s s' g : same s s' -> asked s g -> asked s' g.
Proof. intros Hs. destruct g; simpl; try done; [by apply ask_in_same|intros [x Hx]; exists x; by eapply ask_in_same]. Qed.

Definition balanced s s' f : Prop :=
  forall r q q', ex_requests s !! r = Some q -> ex_requests s' !! r = Some q' ->
    (b2n (negb (qr_responded q')) + wTok r f + lsum (wPool r) (ex_pool s') = b2n (negb (qr_responded q)) + lsum (wPool r) (ex_pool s))%nat /\
    (b2n (qr_pending q') + wDat r f = b2n (qr_pending q))%nat.

(** A new thread: the flags of its request, and the pool, make up for its frame. *)
Lemma ask_spawn s s' ths f :
  same s s' -> outer f = true -> asked s f ->
  (forall x, x ∈ ex_pool s' -> x ∈ ex_pool s) ->
  balanced s s' f ->
  ask_inv s ths -> ask_inv s' (ths ++ [[f]]).
Proof.
  intros Hs Ho Ha Hp Hfl [Htok Hasked Hpool Hdat]. split.
  - intros r q' Hq'. destruct (same_lookup s s' r q' Hs Hq') as (q & Hq & _). destruct (Hfl r q q' Hq Hq') as [Hle _].
    rewrite total_spawn. simpl. pose proof (Htok r q Hq). lia.
  - eapply Forall_spawn; [exact Hasked| |]; [intros g|]; by apply (asked_same s s').
  - intros c r p Hin. by eapply (ask_in_same s), Hpool, Hp.
  - intros r q' Hq'. destruct (same_lookup s s' r q' Hs Hq') as (q & Hq & _). destruct (Hfl r q q' Hq Hq') as [_ Hle].
    rewrite !total_spawn, (wWait_same s s') by exact Hs. simpl. pose proof (Hdat r q Hq). lia.
Qed.

Lemma live_spawn s s' ths f : same s s' -> outer f = true -> balanced s s' f -> live_inv s ths -> live_inv s' (ths ++ [[f]]).
Proof.
  intros Hs Ho Hfl [Hlive Hcan Hwait].
  assert (Hact : forall q q', core q' = core q -> activeb q' = activeb q /\ qr_cancelled q' = qr_cancelled q).
  { intros q q' He. unfold activeb. by injection He as _ _ _ _ -> -> _ _ _. }
  assert (Hle : forall r, (wTok r f <= wLive r f)%nat) by (intros r; destruct f; simpl; lia).
  split; intros r q' Hq' Ha; destruct (same_lookup s s' r q' Hs Hq') as (q & Hq & He); destruct (Hact q q' He) as [Hb Hc];
    rewrite Hb in Ha; destruct (Hfl r q q' Hq Hq') as [H1 H2]; rewrite ?total_spawn; simpl.
  - pose proof (Hlive r q Hq Ha). specialize (Hle r). lia.
  - rewrite Hc. intros Hca. pose proof (Hcan r q Hq Ha Hca). lia.
  - pose proof (Hwait r q Hq Ha). rewrite (wWait_same s s') by exact Hs. assert (wWait s' r f = 0%nat) by (by destruct f). lia.
Qed.

(** ** Results *)

Abbreviation complete := (complete (done := done) excused).
Abbreviation result_frame := (result_frame (done := done) excused).
Abbreviation result_inv := (result_inv (done := done) excused).

Lemma complete_same s s' j : same s s' -> complete s j -> complete s' j.
Proof.
  intros Hs [Hd|(r & Hj & He)]; [left; by rewrite (sm_jobs s s' Hs)|right]. exists r. split; [|exact He]. by apply (same_evolves s s' Hs).
Qed.

Lemma is_active_same s s' r : same s s' -> is_active r s' = true -> is_active r s = true.
Proof.
  intros Hs. unfold is_active. destruct (ex_requests s' !! r) as [q'|] eqn:E; [|discriminate].
  destruct (same_lookup s s' r q' Hs E) as (q & -> & He). injection He as _ _ _ _ He _ _ _ _. by rewrite He.
Qed.

Lemma result_spawn s s' ths f :
  same s s' -> outer f = true -> result_frame (goes_on s' (ths ++ [[f]])) s' f -> result_inv s ths -> result_inv s' (ths ++ [[f]]).
Proof.
  intros Hs Ho Hf [Hfr Hasks Hdone].
  assert (Hon : goes_on s' (ths ++ [[f]]) -> goes_on s ths).
  { intros [Hc Hz]. rewrite total_spawn in Hz. rewrite (sm_cancelled s s' Hs) in Hc. split; [exact Hc|lia]. }
  split.
  - eapply Forall_spawn; [exact Hfr| |exact Hf].
    intros [ | | | | | | | |? []|? []|? []| | | | |? ? []|? ? []|? ? []|? ? []|? ? []| | | | | |? []| |? []| | | | | | | | | | |];
      try (exact id); simpl; rewrite ?(same_req_job s s') by exact Hs; intros Hg Hon'; try intros Ha; (eapply complete_same; [exact Hs|]);
      apply Hg; try (by apply Hon); by eapply is_active_same.
  - intros c a Ha. rewrite (sm_asks s s' Hs) in Ha. by apply (Hasks c).
  - intros Hon' j Hk Hj. rewrite (sm_incomplete s s' Hs) in Hj. eapply complete_same; [exact Hs|]. apply Hdone; [by apply Hon| |exact Hj].
    unfold knows in *. by rewrite (sm_jobs s s' Hs) in Hk.
Qed.
End spawn.
