(* ===== verification/ExecutiveThms.v ===== *)
(** * The dispatch of jobs: theorems

    All interleavings of the threads of an executive, with any behaviour of the
    network library: no thread hits a bug, no job is forgotten, a job is sent
    six times at most, results are complete when the query succeeds, and threads
    do not wait for each other forever. *)

From Stdlib Require Import Ascii String.
From S2P Require Import Prelude.
From S2P Require Import ScanInfo.
From S2P Require Import MergingHandler.
From S2P Require Import Executive.
From S2P Require Import ExecutiveInv.
From S2P Require Import ExecutiveOwn.
From S2P Require Import ExecutiveLocks.
From S2P Require Import ExecutiveResults.
From S2P Require Import ExecutiveSpawn.

Local Open Scope Z_scope.

Section dispatch.
Context {H : Type} `{ResponseHandler H}.
Context (serializeMsg : Z -> Z -> string) (acceptable : string -> bool).
Implicit Types (s : Executive H) (f : Frame H) (j : Z) (r c : nat) (ths : list (list (Frame H))) (d : Dispatch (H := H)).

Abbreviation dispatch_step := (dispatch_step serializeMsg acceptable).
Abbreviation frame_step := (frame_step serializeMsg acceptable).

(** A history of an executive *)
Definition dispatch_run (evs : list (DispatchEvent (H := H))) : Dispatch (H := H) := foldl (fun d ev => dispatch_step ev d) Dispatch_ctor evs.

(** The network library ends the stream of request [r], or answers for a mock. *)
Definition ends r (ev : DispatchEvent (H := H)) : bool :=
  match ev with
  | DResponse r' SsiMock => (r =? r')%nat
  | DData r' _ true _ _ => (r =? r')%nat
  | _ => false
  end.

Section inv.
Context {fresh done : H -> Prop} `{!ResponseHandlerLaws H fresh done}.
Context (excused : nat -> Prop).

Definition valid (ev : DispatchEvent (H := H)) : Prop :=
  match ev with DAdd _ h _ _ => fresh h | _ => True end /\ forall r, ends r ev = true -> excused r.

Definition dispatch_inv d : Prop :=
  core_inv (fresh := fresh) (dp_exec d) (dp_threads d) /\ ask_inv (dp_exec d) (dp_threads d) /\
  live_inv (dp_exec d) (dp_threads d) /\ result_inv (done := done) excused (dp_exec d) (dp_threads d).

(** ** No step of a thread fails *)

Lemma step_alive t f st ths s s' fs :
  core_inv (fresh := fresh) s ths -> ask_inv s ths -> ths !! t = Some (f :: st) -> waits t f ths s = false -> frame_step f s = (s', fs) ->
  existsb crashes fs = false.
Proof.
  intros Hi Ha Ht Hw Hs. pose proof (Forall_rest _ ths t f st Ht (ci_frames s ths Hi)) as [Hf _].
  pose proof (Forall_rest _ ths t f st Ht (ci_alive s ths Hi)) as [Hal _].
  pose proof (linked_intro t f st ths s (ci_stacks s ths Hi) (ci_link s ths Hi) Ht Hw) as Hl.
  assert (Hcancel : forall l, existsb crashes (map (FJobCancel (H := H)) l) = false) by (intros l; induction l; simpl; auto).
  step_cases f Hs Hf; try reflexivity; try discriminate; rewrite ?Hcancel; try reflexivity.
  all: exfalso.
  - destruct (data_has_ask serializeMsg acceptable t r _ _ _ st ths _ Ha Hf Ht) as (q & c & Hq & Hc). by simplify_eq/=.
  - destruct (knows_req_job _ r (ci_state _ ths Hi) Hf) as [jq Hjq]. congruence.
  - pose proof (own_once _ ths t _ st j (ci_own _ ths Hi) ltac:(assumption) Ht) as Hown.
    pose proof (ci_own _ ths Hi ltac:(assumption) j) as Ho. rewrite bool_decide_false, (total_rest _ ths t _ st Ht) in Ho by assumption.
    simpl in Ho. rewrite Z.eqb_refl in Ho. simpl in Ho. lia.
  - match goal with Hq : ex_jobMap _ !! j = Some ?q, Hssi : jq_inSsi ?q = true |- _ => destruct (Hl j q eq_refl Hq Hssi) end. congruence.
Qed.

Lemma dispatch_thread_inv t f st s s' ths fs :
  core_inv (fresh := fresh) s ths -> ask_inv s ths -> live_inv s ths -> result_inv (done := done) excused s ths ->
  ths !! t = Some (f :: st) -> waits t f ths s = false -> frame_step f s = (s', fs) -> dispatch_inv (mkDispatch s' (<[t := fs ++ st]> ths)).
Proof.
  intros Hi Ha Hli Hr Ht Hw Hs. pose proof (step_alive t f st ths s s' fs Hi Ha Ht Hw Hs) as Hal.
  pose proof (linked_intro t f st ths s (ci_stacks s ths Hi) (ci_link s ths Hi) Ht Hw) as Hl. destruct Hi.
  pose proof (Forall_rest _ ths t f st Ht ci_frames) as [Hf Hrest].
  pose proof (Forall_rest _ ths t f st Ht ci_fresh) as [Hfr _].
  pose proof (frame_step_wf serializeMsg acceptable s f ci_state Hf) as (Hev & Hsw & Hnew). rewrite Hs in Hev, Hsw, Hnew. simpl in *.
  assert (Hst : stepped serializeMsg acceptable t f st ths s s' (<[t := fs ++ st]> ths)) by (split; [exact Ht|by exists fs]).
  pose proof (resets_intro s f Hfr) as Hres.
  split_and!.
  - split; simpl.
    + exact Hsw.
    + eapply (frames_step (frame_wf s)); [done..|]. intros g Hg _. by eapply frame_wf_evolves.
    + by eapply (phase_step serializeMsg acceptable t f st ths s).
    + by eapply (own_step serializeMsg acceptable t f st ths s).
    + by eapply (squash_step serializeMsg acceptable t f st ths s).
    + by eapply (cover_step serializeMsg acceptable t f st ths s).
    + by eapply (link_step serializeMsg acceptable t f st ths s).
    + apply Forall_insert; [exact ci_stacks|]. eapply stack_step; [exact (proj1 (Forall_lookup _ _) ci_stacks t _ Ht)|]. by eapply step_pushes.
    + by eapply (squasher_step serializeMsg acceptable t f st ths s).
    + by eapply (attempt_step serializeMsg acceptable t f st ths s).
    + by eapply (young_step serializeMsg acceptable t f st ths s).
    + by eapply (fresh_step serializeMsg acceptable t f st ths s).
    + eapply (frames_step (fun g => crashes g = false)); [exact ci_alive|exact Ht| |auto].
      apply Forall_forall. intros g Hg. destruct (crashes g) eqn:E; [|reflexivity].
      assert (existsb crashes fs = true); [|congruence]. apply existsb_exists. exists g. by rewrite <- list_elem_of_In.
  - by eapply (ask_step serializeMsg acceptable t f st ths s).
  - by eapply (live_step_inv serializeMsg acceptable t f st ths s).
  - by eapply (result_step serializeMsg acceptable excused t f st ths s).
Qed.

(** ** Events *)

Lemma spawn_inv s s' ths f :
  dispatch_inv (mkDispatch s ths) -> same s s' -> state_wf s' -> outer f = true -> frame_wf s' f -> fresh_frame (fresh := fresh) s' f ->
  asked s f -> (forall x, x ∈ ex_pool s' -> x ∈ ex_pool s) -> (forall on, result_frame (done := done) excused on s' f) ->
  balanced s s' f ->
  dispatch_inv (mkDispatch s' (ths ++ [[f]])).
Proof.
  intros (Hi & Ha & Hl & Hr) Hs Hsw Ho Hf Hfr Hask Hp Hres Hfl.
  split_and!; [by eapply (core_spawn s)|by eapply (ask_spawn s)|by eapply (live_spawn s)|by eapply (result_spawn excused s)].
Qed.

Lemma wPool_delete (l : list (nat * nat * Z)) n x r : l !! n = Some x -> (lsum (wPool r) (delete n l) + wPool r x = lsum (wPool r) l)%nat.
Proof.
  revert n. induction l as [|y l IH]; intros n; [done|]. destruct n as [|n]; [intros [= ->]; simpl; lia|].
  simpl. intros Hn. specialize (IH n Hn). lia.
Qed.

Lemma pool_wf s l : state_wf s -> (forall x, x ∈ l -> x ∈ ex_pool s) -> state_wf (ex_set_asks (ex_asks s) l s).
Proof. intros [] Hl. split; try done. intros c r p Hin. eapply sw_pool. by apply Hl. Qed.

Lemma set_ssi_wf s r a b : state_wf s -> state_wf (upd_req r (fun q => qr_set_ssi (a q) (b q) q) s).
Proof. intros Hs. apply upd_req_wf; [exact Hs|done|]. by left. Qed.

Lemma dispatch_step_inv ev d : valid ev -> dispatch_inv d -> dispatch_inv (dispatch_step ev d).
Proof.
  intros [Hfresh Hends] Hi. destruct d as [s ths]. pose proof (ci_state _ _ (proj1 Hi)) as Hsw. simpl in Hsw.
  destruct ev as [j h i n| |r i|r blen last code data|n|t]; simpl.
  - eapply spawn_inv; try done. intros r q q' Hq Hq'. simplify_eq/=. lia.
  - eapply spawn_inv; try done. intros r q q' Hq Hq'. simplify_eq/=. lia.
  - destruct (ex_requests s !! r) as [q|] eqn:Hq; [|done]. destruct (qr_responded q) eqn:Hresp; [done|].
    eapply spawn_inv; try done.
    + by apply same_upd_req.
    + by apply set_ssi_wf.
    + eapply evolves_has; [by apply evolves_upd_req|by exists q].
    + intros on. destruct i; try exact I. apply Hends. simpl. apply Nat.eqb_refl.
    + intros r' q1 q' H1 H'. simpl in *. lookup_cases; rewrite ?Nat.eqb_refl, ?Hresp; simpl; try lia.
      rewrite (proj2 (Nat.eqb_neq r' r)) by done. simpl. lia.
  - destruct (ex_requests s !! r) as [q|] eqn:Hq; [|done]. destruct (qr_pending q) eqn:Hpend; [|done].
    eapply spawn_inv; try done.
    + by apply same_upd_req.
    + by apply set_ssi_wf.
    + eapply evolves_has; [by apply evolves_upd_req|by exists q].
    + intros on. destruct last; try exact I. apply Hends. simpl. apply Nat.eqb_refl.
    + intros r' q1 q' H1 H'. simpl in *. lookup_cases; rewrite ?Nat.eqb_refl, ?Hpend; simpl; try lia.
      rewrite (proj2 (Nat.eqb_neq r' r)) by done. simpl. lia.
  - destruct (ex_pool s !! n) as [[[c r] p]|] eqn:Hn; [|done].
    assert (Hin : (c, r, p) ∈ ex_pool s) by (by eapply list_elem_of_lookup_2).
    assert (Hsub : forall x, x ∈ delete n (ex_pool s) -> x ∈ ex_pool s) by (intros x Hx; eapply elem_of_sublist; [exact Hx|apply sublist_delete]).
    apply (spawn_inv s (ex_set_asks (ex_asks s) (delete n (ex_pool s)) s) ths (FAskAction c r)); try done.
    + by apply pool_wf.
    + exact (sw_pool s Hsw c r p Hin).
    + destruct Hi as (_ & Ha & _). by apply (ai_pool _ _ Ha c r p).
    + intros r' q1 q' H1 H'. simpl in *. simplify_eq. pose proof (wPool_delete (ex_pool s) n _ r' Hn) as Hd. unfold wPool in Hd at 2. simpl in Hd. lia.
  - destruct (ths !! t) as [[|f st]|] eqn:Ht; [done| |done]. destruct (waits t f ths s) eqn:Hw; [done|].
    destruct (frame_step f s) as [s' fs] eqn:Hs. destruct Hi as (Hi & Ha & Hl & Hr). by eapply (dispatch_thread_inv t f st s).
Qed.

Lemma dispatch_ctor_inv : dispatch_inv Dispatch_ctor.
Proof.
  split_and!; split; simpl; try by constructor.
  all: try done.
  - split; simpl; try done; try set_solver.
  - set_solver.
Qed.

Lemma dispatch_run_inv evs : Forall valid evs -> dispatch_inv (dispatch_run evs).
Proof.
  unfold dispatch_run. generalize dispatch_ctor_inv. generalize (Dispatch_ctor (H := H)) as d. induction evs as [|ev evs IH]; intros d Hd Hv; [exact Hd|].
  apply Forall_cons in Hv as [Hev Hevs]. simpl. apply IH; [|exact Hevs]. by apply dispatch_step_inv.
Qed.
End inv.

(** ** Theorems *)

Context {fresh done : H -> Prop} `{!ResponseHandlerLaws H fresh done}.

(** The handlers of new jobs are new. *)
Definition fresh_jobs (evs : list (DispatchEvent (H := H))) : Prop :=
  Forall (fun ev => match ev with DAdd _ h _ _ => fresh h | _ => True end) evs.

Lemma run_excused evs : fresh_jobs evs -> dispatch_inv (fresh := fresh) (done := done) (fun r => exists ev, ev ∈ evs /\ ends r ev = true) (dispatch_run evs).
Proof.
  intros Hf. apply dispatch_run_inv. apply Forall_forall. intros ev Hev. split.
  - exact (proj1 (Forall_forall _ _) Hf ev Hev).
  - intros r Hr. by exists ev.
Qed.

(** Whether some thread can take a step *)
Definition can_go_on d : bool :=
  existsb (fun x => match x.2 with f :: _ => negb (waits x.1 f (dp_threads d) (dp_exec d)) | [] => false end) (imap pair (dp_threads d)).

Lemma cannot_go_on d : can_go_on d = false ->
  forall t f st, dp_threads d !! t = Some (f :: st) -> waits t f (dp_threads d) (dp_exec d) = true.
Proof.
  intros Hn t f st Ht. destruct (waits t f (dp_threads d) (dp_exec d)) eqn:E; [reflexivity|exfalso].
  enough (can_go_on d = true) by congruence. apply existsb_exists. exists (t, f :: st). split; [|simpl; by rewrite E].
  apply list_elem_of_In, list_elem_of_lookup. exists t. by rewrite list_lookup_imap, Ht.
Qed.

(** C10. No thread ever uses an object that does not exist or finds the bookkeeping
    of jobs wrong: [markCompleted] never throws, [ProcessResponseData] always has
    a command to notify, and [cancel] a request to cancel, for all interleavings of the
    threads and all answers of the network library. *)
Theorem dispatch_no_bug evs :
  fresh_jobs evs -> Forall (Forall (fun f => crashes f = false)) (dp_threads (dispatch_run evs)).
Proof. intros Hf. destruct (run_excused evs Hf) as (Hi & _). apply (ci_alive _ _ Hi). Qed.


(** What is left on the stacks when nothing can go on *)
Definition at_rest f : bool := match f with FAskWait _ _ | FCleanup _ | FSquash => true | _ => false end.

Lemma stuck_rest d excused :
  dispatch_inv (fresh := fresh) (done := done) excused d -> can_go_on d = false ->
  Forall (Forall (fun f => at_rest f = true /\ forall c r, f = FAskWait c r -> started (dp_exec d) c = true)) (dp_threads d).
Proof.
  intros (Hi & _) Hn. pose proof (cannot_go_on d Hn) as Hall. destruct Hi.
  apply Forall_lookup. intros t [|f st] Ht; [constructor|].
  pose proof (no_deadlock _ _ ci_stacks ci_squasher ci_alive Hall t f st Ht) as Hl.
  pose proof (Hall t f st Ht) as Hw. unfold waits in Hw. rewrite Hl in Hw.
  pose proof (Forall_rest _ _ t f st Ht ci_alive) as [Hcr _].
  assert (Hfr : exists c r, f = FAskWait c r /\ started (dp_exec d) c = true) by (destruct f; try discriminate; by exists c, r).
  destruct Hfr as (c & r & -> & Hst). constructor; [split; [reflexivity|]; congruence|].
  pose proof (proj1 (Forall_lookup _ _) ci_stacks t _ Ht) as [Hp Hc]. rewrite forallb_forall in Hp.
  apply Forall_forall. intros g Hg. specialize (Hp g ltac:(by apply list_elem_of_In)).
  assert (Hcg : calming g = false).
  { destruct (calming g) eqn:E; [|reflexivity]. rewrite <- Hc; [reflexivity|]. apply existsb_exists. exists g. by rewrite <- list_elem_of_In. }
  destruct g; try discriminate; by split.
Qed.

(** C8. A job is never forgotten: as long as one is not reported, some thread can go
    on, the pool has a command to start, or the network library owes the response or data of
    a request of that job.  When all is quiet, [join] does not wait any more. *)
Theorem dispatch_progress evs j :
  let d := dispatch_run evs in
  fresh_jobs evs -> j ∈ ex_incompleteJobs (dp_exec d) ->
  can_go_on d = true \/ ex_pool (dp_exec d) <> [] \/
  exists r q, ex_requests (dp_exec d) !! r = Some q /\ qr_job q = j /\ qr_finishStatus q = ACTIVE /\
    (qr_responded q = false \/ qr_pending q = true).
Proof.
  intros d Hf Hj. pose proof (run_excused evs Hf) as Hinv. fold d in Hinv.
  destruct (can_go_on d) eqn:Hgo; [by left|right]. destruct (ex_pool (dp_exec d)) as [|x l] eqn:Hp; [right|by left].
  pose proof (stuck_rest d _ Hinv Hgo) as Hrest. destruct Hinv as (Hi & _ & Hl & _).
  assert (Hz : forall w : Frame H -> nat, (forall f, at_rest f = true -> w f = 0%nat) -> total w (dp_threads d) = 0%nat).
  { intros w Hw. apply total_zero. eapply Forall_impl; [exact Hrest|]. intros st Hst. eapply Forall_impl; [exact Hst|]. intros f [Hr _]. by apply Hw. }
  assert (Hact : (1 <= actives j (dp_exec d))%nat).
  { destruct (ex_cancelled (dp_exec d)) eqn:Hc.
    - pose proof (ci_cover _ _ Hi Hc j Hj) as Hcov. rewrite Hz in Hcov; [lia|]. by intros [].
    - pose proof (ci_own _ _ Hi Hc j) as Hown. rewrite bool_decide_true, Hz in Hown by (done || by intros []). simpl in Hown. lia. }
  apply lsum_pos in Hact as (q & (r & Hq)%list_elem_of_lookup & Hw). unfold act in Hw.
  destruct (activeb q) eqn:Ha, (Z.eqb_spec j (qr_job q)) as [->|]; simpl in Hw; try lia.
  exists r, q. split_and!; try done; [by apply bool_decide_eq_true in Ha|].
  destruct (qr_responded q) eqn:Hr; [right|by left]. pose proof (li_live _ _ Hl r q Hq Ha) as Hlive. rewrite Hr, Hp in Hlive. simpl in Hlive.
  apply total_pos in Hlive as (t & st & g & Ht & Hg & Hwg).
  destruct (proj1 (Forall_forall _ _) (proj1 (Forall_lookup _ _) Hrest t st Ht) g Hg) as [Hat Hst].
  destruct g; try discriminate; simpl in Hwg; try lia. destruct (Nat.eqb_spec r r0) as [<-|]; [|simpl in Hwg; lia].
  pose proof (li_wait _ _ Hl r q Hq Ha) as Hwait. rewrite (Hz (wDat r)), (Hz (wEF r)) in Hwait by (by intros []).
  pose proof (total_ge (wWait (dp_exec d) r) _ t _ st Ht Hg) as Hge. simpl in Hge. rewrite Nat.eqb_refl, (Hst c r eq_refl) in Hge.
  destruct (qr_pending q); [done|]. simpl in *. lia.
Qed.

(** C12. A job is sent six times at most, and while the query goes on there is never
    more than one request for it that is not finished. *)
Theorem dispatch_attempts evs j :
  let s := dp_exec (dispatch_run evs) in
  fresh_jobs evs ->
  (length (filter (fun q => qr_job q = j) (ex_requests s)) <= 6)%nat /\
  (ex_cancelled s = false -> (length (filter (fun q => qr_job q = j /\ qr_finishStatus q = ACTIVE) (ex_requests s)) <= 1)%nat).
Proof.
  intros s Hf. destruct (run_excused evs Hf) as (Hi & _). fold s in Hi.
  assert (Hcount : forall (P : QueryRequest -> Prop) `{!forall q, Decision (P q)} w l, (forall q, w q = b2n (bool_decide (P q))) ->
    length (filter P l) = lsum w l).
  { intros P ? w l Hw. induction l as [|q l IH]; [reflexivity|]. rewrite filter_cons. cbn [lsum]. rewrite Hw, <- IH.
    case_decide; [rewrite bool_decide_true by done|rewrite bool_decide_false by done]; simpl; lia. }
  split.
  - rewrite (Hcount _ _ (of_job j)).
    + change (reqs j s <= 6)%nat. destruct (ex_jobMap s !! j) as [q|] eqn:E.
      * destruct (ci_attempt _ _ Hi j q E) as [Ha1 Ha2]. unfold maxAttempts in Ha1. lia.
      * rewrite (reqs_absent s j (ci_state _ _ Hi) E). lia.
    + intros q. unfold of_job. destruct (Z.eqb_spec j (qr_job q)); case_bool_decide; simpl; congruence.
  - intros Hc. rewrite (Hcount _ _ (act j)).
    + pose proof (ci_own _ _ Hi Hc j) as Ho. unfold actives in Ho. destruct (bool_decide _); simpl in Ho; lia.
    + intros q. unfold act, activeb. destruct (Z.eqb_spec j (qr_job q)) as [->|Hne]; case_bool_decide; case_bool_decide; simpl; intuition congruence.
Qed.

(** C9. A job is reported as done only when all its results were received and
    merged: in a query that is not cancelled and is not about to be, the handler of every job
    that is not incomplete is done, unless the network library ended the stream of one of
    the job's requests (which the code does not tell from a complete result) or answered for a mock worker. *)
Theorem dispatch_results_complete evs j q :
  let d := dispatch_run evs in
  fresh_jobs evs -> ex_cancelled (dp_exec d) = false -> total wCancels (dp_threads d) = 0%nat ->
  ex_jobMap (dp_exec d) !! j = Some q -> j ∉ ex_incompleteJobs (dp_exec d) ->
  done (jq_handler q) \/ exists r ev, ev ∈ evs /\ ends r ev = true /\ req_job r (dp_exec d) = j.
Proof.
  intros d Hf Hc Hz Hq Hj. destruct (run_excused evs Hf) as (_ & _ & _ & Hr). fold d in Hr.
  destruct (ri_done _ _ _ Hr ltac:(by split) j ltac:(by exists q) Hj) as [Hd|(r & (q' & Hq' & Hj') & ev & Hev & He)]; [left; by apply Hd|right].
  exists r, ev. split_and!; [done..|]. by rewrite (req_job_lookup _ r q').
Qed.
End dispatch.

(** ** An execution *)

#[local] Instance demo_handler : ResponseHandler (MergingHandler (Rows := nat)) :=
  MergingHandler_handler (fun _ => Some (mkProtoHeader 1 EmptyString false)) (fun _ => EmptyString) demo_parse (fun _ _ => true).

Abbreviation demo_run := (dispatch_run (H := MergingHandler (Rows := nat)) (fun _ _ => "task"%string) (fun _ => true)).

(** A job is added, sent and answered with a result of one message. *)
Definition demo_sent (n : nat) : list (DispatchEvent (H := MergingHandler (Rows := nat))) :=
  DAdd 3 MergingHandler_ctor false 0 :: replicate n (DStep 0).
Definition demo_answer : list (DispatchEvent (H := MergingHandler (Rows := nat))) :=
  DResponse 0 SsiStream :: replicate 4 (DStep 1) ++
  [DPool 0; DStep 2; DData 0 256 false 0 (wrap [])] ++ replicate 3 (DStep 3) ++ replicate 3 (DStep 2) ++
  [DPool 0; DStep 4; DData 0 1 false 0 ["e"%char]] ++ replicate 3 (DStep 5) ++ replicate 10 (DStep 4).
Definition demo_evs := demo_sent 6 ++ demo_answer.


(** The thread that adds the job sets its state to [REQUEST] after the request was
    sent; when the whole result arrives before, the state of a job that is done stays
    [REQUEST], and [join] reports a failure. *)
Example late_request_status :
  let d := demo_run (demo_sent 5 ++ demo_answer ++ [DStep 0]) in
  dp_threads d = replicate 6 [] /\ ex_incompleteJobs (dp_exec d) = ∅ /\ ex_cancelled (dp_exec d) = false /\
  (exists q, ex_jobMap (dp_exec d) !! 3 = Some q /\ mh_merged (jq_handler q) = [mkResult false false 2%nat] /\ ji_state (jq_status q) = REQUEST) /\
  (ex_join (dp_exec d)).2 = false /\ (ex_join (dp_exec (demo_run demo_evs))).2 = true.
Proof. vm_compute. split_and!; try done. eexists. done. Qed.

#[local] Instance demo_laws :
  ResponseHandlerLaws (MergingHandler (Rows := nat)) (fun h => mh_flushed h = false) (fun h => mh_state h = RESULT_RECV) :=
  MergingHandler_laws _ _ _ _.

(** The query is cancelled while its job is being sent. *)
Definition demo_cancel := demo_sent 4 ++ DSquash :: replicate 4 (DStep 1) ++ replicate 3 (DStep 0) ++ replicate 10 (DStep 1).
(** The thread that fetches the result waits for data. *)
Definition demo_wait := demo_sent 6 ++ DResponse 0 SsiStream :: replicate 4 (DStep 1) ++ [DPool 0; DStep 2].

Lemma dispatch_no_bug_witness :
  dp_threads (demo_run demo_cancel) = [[]; []] /\
  Forall (Forall (fun f => crashes f = false)) (dp_threads (demo_run demo_cancel)).
Proof.
  split; [vm_compute; reflexivity|].
  apply (dispatch_no_bug (fun _ _ => "task"%string) (fun _ => true) (fresh := fun h => mh_flushed h = false) (done := fun h => mh_state h = RESULT_RECV)).
  repeat constructor.
Defined.


Lemma dispatch_progress_witness :
  let d := demo_run demo_wait in
  can_go_on d = true \/ ex_pool (dp_exec d) <> [] \/
  exists r q, ex_requests (dp_exec d) !! r = Some q /\ qr_job q = 3 /\ qr_finishStatus q = ACTIVE /\
    (qr_responded q = false \/ qr_pending q = true).
Proof.
  apply (dispatch_progress (fun _ _ => "task"%string) (fun _ => true) (fresh := fun h => mh_flushed h = false)
    (done := fun h => mh_state h = RESULT_RECV) demo_wait 3 ltac:(repeat constructor)).
  apply (bool_decide_unpack _). vm_compute. exact I.
Defined.

Lemma dispatch_attempts_witness :
  let s := dp_exec (demo_run demo_evs) in
  (length (filter (fun q => qr_job q = 3%Z) (ex_requests s)) <= 6)%nat /\
  (ex_cancelled s = false -> (length (filter (fun q => qr_job q = 3%Z /\ qr_finishStatus q = ACTIVE) (ex_requests s)) <= 1)%nat).
Proof.
  apply (dispatch_attempts (fun _ _ => "task"%string) (fun _ => true) (fresh := fun h => mh_flushed h = false)
    (done := fun h => mh_state h = RESULT_RECV) demo_evs 3). repeat constructor.
Defined.

Lemma dispatch_results_complete_witness :
  exists q, ex_jobMap (dp_exec (demo_run demo_evs)) !! 3 = Some q /\
    (mh_state (jq_handler q) = RESULT_RECV \/
     exists r ev, ev ∈ demo_evs /\ ends r ev = true /\ req_job r (dp_exec (demo_run demo_evs)) = 3).
Proof.
  destruct (ex_jobMap (dp_exec (demo_run demo_evs)) !! 3) as [q|] eqn:E; [|vm_compute in E; discriminate].
  exists q. split; [reflexivity|].
  apply (dispatch_results_complete (fun _ _ => "task"%string) (fun _ => true) (fresh := fun h => mh_flushed h = false)
    (done := fun h => mh_state h = RESULT_RECV) demo_evs 3 q ltac:(repeat constructor)).
  - vm_compute. reflexivity.
  - vm_compute. reflexivity.
  - exact E.
  - apply (bool_decide_unpack _). vm_compute. exact I.
Defined.
