(* ===== verification/CssPath.v ===== *)
(** * Keys of the common state system

    The [std::string] operations that the key-value store applies to its keys
    ([rfind], [substr], [boost::starts_with], zero-padded numbers), and the
    slash-delimited keys of [css/KvInterface.h] as paths of names: [render]
    gives the key of a path, and cutting a key at its last slash, comparing two
    keys and testing one for being a prefix of another are operations on paths. *)

From Stdlib Require Import Ascii String.
From S2P Require Import Prelude.
From S2P Require Import StdString.

Implicit Types (s k n : string) (p q : list string).

Local Open Scope Z_scope.

#[local] Arguments String.append !_ _ /.

(** A closed goal that can be decided. *)
Ltac decide_closed := apply (bool_decide_unpack _); vm_compute; exact I.

(** ** [std::string] *)

(** [s.rfind(c)]; [None] is [std::string::npos]. *)
Fixpoint rfind (c : ascii) s : option nat :=
  match s with
  | EmptyString => None
  | String a s' =>
      match rfind c s' with
      | Some i => Some (S i)
      | None => if Ascii.eqb a c then Some O else None
      end
  end.

(** [s.substr(0, i)] and [s.substr(i)] *)
Definition substr_to (i : nat) s : string := substring 0 i s.
Definition substr_from (i : nat) s : string := substring i (String.length s - i) s.

(** [boost::starts_with(s, pfx)] *)
Definition starts_with s (pfx : string) : bool := String.prefix pfx s.

(** [std::setfill('0') << std::setw(w)] before a number that is not negative. *)
Fixpoint zeros (w : nat) : string := match w with O => ""%string | S w' => String "0" (zeros w') end.
Definition zero_pad (w : nat) (z : Z) : string := zeros (w - String.length (to_string z)) +:+ to_string z.

Definition has_char (c : ascii) s : bool := negb (all_chars (fun a => negb (Ascii.eqb a c)) s).

(** ** Paths *)

Definition SLASH : ascii := "/"%char.

(** The names between the slashes of a key. *)
Definition name_ok n : Prop := n <> ""%string /\ has_char SLASH n = false.

Definition path_ok p : Prop := Forall name_ok p.

(** The key of a path: ["/DBS/db/TABLES"] of [["DBS"; "db"; "TABLES"]], the
    empty string of the root. *)
Fixpoint render p : string :=
  match p with
  | [] => ""%string
  | n :: p' => String SLASH (n +:+ render p')
  end.

(** The sub-key of a path below another key: no leading slash. *)
Definition subkey p : string := substr_from 1 (render p).

#[global] Instance name_ok_dec n : Decision (name_ok n).
Proof. unfold name_ok. apply _. Defined.
#[global] Instance path_ok_dec p : Decision (path_ok p).
Proof. unfold path_ok. apply _. Defined.

(** ** Lemmas on strings *)

Lemma rfind_app c s k : rfind c (s +:+ k) = match rfind c k with Some i => Some (String.length s + i)%nat | None => rfind c s end.
Proof.
  induction s as [|a s IH]; simpl; [change ("" +:+ k) with k; by destruct (rfind c k)|]. rewrite IH. by destruct (rfind c k).
Qed.

Lemma rfind_none c s : has_char c s = false -> rfind c s = None.
Proof.
  unfold has_char. intros H%negb_false_iff. induction s as [|a s IH]; simpl in *; [done|].
  apply andb_true_iff in H as [Ha%negb_true_iff Hs]. by rewrite (IH Hs), Ha.
Qed.

Lemma rfind_lt c s i : rfind c s = Some i -> (i < String.length s)%nat.
Proof.
  revert i. induction s as [|a s IH]; simpl; intros i; [done|]. destruct (rfind c s) as [j|].
  - intros [= <-]. specialize (IH j eq_refl). lia.
  - destruct (Ascii.eqb a c); [|done]. intros [= <-]. lia.
Qed.

Lemma length_append s k : String.length (s +:+ k) = (String.length s + String.length k)%nat.
Proof. induction s as [|a s IH]; [done|]. simpl. by rewrite <- IH. Qed.

Lemma substr_to_app s k : substr_to (String.length s) (s +:+ k) = s.
Proof.
  unfold substr_to. induction s as [|a s IH]; simpl; [by destruct k|]. by rewrite IH.
Qed.

Lemma substring_all k : substring 0 (String.length k) k = k.
Proof. induction k as [|a k IH]; simpl; [done|]. by rewrite IH. Qed.

Lemma substr_from_app s k : substr_from (String.length s) (s +:+ k) = k.
Proof.
  unfold substr_from. rewrite length_append.
  replace (String.length s + String.length k - String.length s)%nat with (String.length k) by lia.
  induction s as [|a s IH]; simpl; [apply substring_all|done].
Qed.

Lemma substr_to_length i s : (i <= String.length s)%nat -> String.length (substr_to i s) = i.
Proof.
  unfold substr_to. revert i. induction s as [|a s IH]; intros [|i]; simpl; try done; [lia|].
  intros. by rewrite IH by lia.
Qed.

Lemma starts_with_spec s k : starts_with s k = true <-> exists r, s = k +:+ r.
Proof.
  unfold starts_with. revert s. induction k as [|a k IH]; intros s; simpl.
  - split; [by exists s|]. by destruct s.
  - destruct s as [|b s]; [split; [done|by intros [r [=]]]|]. cbn [String.prefix]. destruct (ascii_dec a b) as [->|Hne].
    + rewrite IH. split; intros [r Hr]; exists r; [by rewrite Hr|by injection Hr].
    + split; [done|]. intros [r [= ? _]]. by subst.
Qed.

Lemma has_char_app c s k : has_char c (s +:+ k) = has_char c s || has_char c k.
Proof. unfold has_char. by rewrite all_chars_app, negb_andb. Qed.

Lemma has_char_cons c a s : has_char c (String a s) = Ascii.eqb a c || has_char c s.
Proof. unfold has_char. simpl. by rewrite negb_andb, negb_involutive. Qed.

(** ** Lemmas on paths *)

Lemma render_app p q : render (p ++ q) = render p +:+ render q.
Proof.
  induction p as [|n p IH]; [done|]. cbn [render app]. rewrite IH. by rewrite append_cons, append_assoc.
Qed.

Lemma render_snoc p n : render (p ++ [n]) = render p +:+ String SLASH n.
Proof. rewrite render_app. cbn. by rewrite append_nil_r. Qed.

(** A key cut at its last slash is the key of the parent. *)
Lemma rfind_render p n : name_ok n -> rfind SLASH (render (p ++ [n])) = Some (String.length (render p)).
Proof. intros [_ Hn]. rewrite render_snoc, rfind_app. cbn. rewrite (rfind_none _ _ Hn). f_equal. lia. Qed.

Lemma parent_render p n : substr_to (String.length (render p)) (render (p ++ [n])) = render p.
Proof. rewrite render_snoc. apply substr_to_app. Qed.

(** The name before the first slash of a string is unique. *)
Lemma name_split_unique n n' s s' :
  has_char SLASH n = false -> has_char SLASH n' = false ->
  (s = ""%string \/ exists r, s = String SLASH r) -> (s' = ""%string \/ exists r, s' = String SLASH r) ->
  n +:+ s = n' +:+ s' -> n = n' /\ s = s'.
Proof.
  revert n'. induction n as [|a n IH]; intros [|a' n'] Hn Hn' Hs Hs'; simpl.
  - by intros <-.
  - intros ->. destruct Hs as [Hs|[r Hs]]; [done|]. injection Hs as -> _. rewrite has_char_cons in Hn'. by simpl in Hn'.
  - intros <-. destruct Hs' as [Hs'|[r Hs']]; [done|]. injection Hs' as -> _. rewrite has_char_cons in Hn. by simpl in Hn.
  - intros [= -> He]. rewrite has_char_cons in Hn, Hn'. apply orb_false_iff in Hn as [_ Hn], Hn' as [_ Hn'].
    by destruct (IH n' Hn Hn' Hs Hs' He) as [-> ->].
Qed.

Lemma render_head p : render p = ""%string \/ exists r, render p = String SLASH r.
Proof. destruct p; [by left|right]. by eexists. Qed.

Lemma render_inj p q : path_ok p -> path_ok q -> render p = render q -> p = q.
Proof.
  intros Hp. revert q. induction Hp as [|n p [Hn1 Hn2] Hp IH]; intros [|m q] Hq; cbn; [done|done|done|].
  intros [= He]. inversion Hq as [|? ? [Hm1 Hm2] Hq']; subst.
  apply name_split_unique in He as [-> He]; [by rewrite (IH q Hq' He)|done|done|apply render_head..].
Qed.

(** A key starts with another one and a slash exactly when its path extends the other. *)
Lemma render_prefix_aux p s :
  path_ok p -> forall q, path_ok q -> render q = render p +:+ String SLASH s -> exists r, r <> [] /\ q = p ++ r /\ render r = String SLASH s.
Proof.
  induction 1 as [|n p [Hn1 Hn2] Hp IH]; intros q Hq.
  - cbn. intros He. exists q. destruct q; [done|]. done.
  - cbn. destruct q as [|m q]; [done|]. cbn. intros [= He]. rewrite append_assoc in He.
    inversion Hq as [|? ? [Hm1 Hm2] Hq']; subst. apply name_split_unique in He as [-> He]; [|done|done|apply render_head|].
    + destruct (IH q Hq' He) as (r & Hr & -> & Hr'). by exists r.
    + right. destruct p; cbn; by eexists.
Qed.

Lemma starts_with_render p q :
  path_ok p -> path_ok q -> starts_with (render q) (render p +:+ "/") = true <-> exists r, r <> [] /\ q = p ++ r.
Proof.
  intros Hp Hq. rewrite starts_with_spec. split.
  - intros [s Hs]. rewrite append_assoc in Hs. apply render_prefix_aux in Hs as (r & ? & ? & _); eauto.
  - intros ([|n r] & Hr & ->); [done|]. rewrite render_app. cbn. exists (n +:+ render r). by rewrite append_assoc.
Qed.

Lemma render_nonslash p : path_ok p -> render p <> "/"%string.
Proof. intros [|n p' [Hn _] _]; [done|]. cbn. intros [= He]. by destruct n. Qed.

Lemma subkey_cons n p : subkey (n :: p) = n +:+ render p.
Proof. apply (substr_from_app "/"). Qed.

Lemma render_subkey p : p <> [] -> String SLASH (subkey p) = render p.
Proof. destruct p; [done|]. by rewrite subkey_cons. Qed.

Lemma subkey_inj p q : p <> [] -> q <> [] -> path_ok p -> path_ok q -> subkey p = subkey q -> p = q.
Proof. intros Hp Hq Op Oq He. apply render_inj; [done..|]. by rewrite <- !render_subkey, He by done. Qed.

Lemma path_ok_app p q : path_ok (p ++ q) <-> path_ok p /\ path_ok q.
Proof. apply Forall_app. Qed.

Lemma path_ok_snoc p n : path_ok (p ++ [n]) <-> path_ok p /\ name_ok n.
Proof. unfold path_ok. by rewrite Forall_app, Forall_singleton. Qed.

(** ** Order of keys *)

Lemma compare_append s k k' : (String.compare (s +:+ k) (s +:+ k') = String.compare k k')%string.
Proof.
  induction s as [|a s IH]; [done|]. simpl. unfold Ascii.compare. by rewrite N.compare_refl.
Qed.

Lemma le_append s k k' : String.le (s +:+ k) (s +:+ k') <-> String.le k k'.
Proof. unfold String.le, String.leb. by rewrite compare_append. Qed.

(** ** Zero-padded numbers *)

Lemma read_digits_zeros w s : (read_digits 0 (zeros w +:+ s)).1 = (read_digits 0 s).1.
Proof. induction w as [|w IH]; [done|]. simpl. apply IH. Qed.

Lemma zero_pad_digits w z : 0 <= z -> all_chars isdigit (zero_pad w z) = true.
Proof.
  intros Hz. unfold zero_pad. rewrite all_chars_app. rewrite to_string_pos by done. rewrite show_nat_digits by done.
  rewrite andb_true_r. generalize (w - String.length (show_nat z))%nat as m. induction m as [|m IH]; [done|]. simpl. done.
Qed.

Lemma zero_pad_read w z : 0 <= z -> (read_digits 0 (zero_pad w z)).1 = z.
Proof. intros Hz. unfold zero_pad. rewrite read_digits_zeros, to_string_pos by done. by apply show_nat_read. Qed.

Lemma zero_pad_inj w z z' : 0 <= z -> 0 <= z' -> zero_pad w z = zero_pad w z' -> z = z'.
Proof. intros Hz Hz' He. rewrite <- (zero_pad_read w z), <- (zero_pad_read w z') by done. by rewrite He. Qed.

Lemma zero_pad_nonempty w z : zero_pad w z <> ""%string.
Proof. unfold zero_pad. pose proof (to_string_nonempty z). by destruct (zeros _). Qed.

Lemma digits_no_char c s : isdigit c = false -> all_chars isdigit s = true -> has_char c s = false.
Proof.
  intros Hc Hs. unfold has_char. apply negb_false_iff. eapply all_chars_impl; [|done].
  intros a Ha. apply negb_true_iff, Ascii.eqb_neq. intros ->. congruence.
Qed.

Lemma zero_pad_name w z : 0 <= z -> name_ok (zero_pad w z).
Proof. intros Hz. split; [apply zero_pad_nonempty|]. apply digits_no_char; [done|]. by apply zero_pad_digits. Qed.

Lemma zero_pad_stoi w z : 0 <= z <= INT_MAX -> stoi (zero_pad w z) = Ret z.
Proof.
  intros Hz. unfold stoi. pose proof (zero_pad_digits w z ltac:(lia)) as Hd. pose proof (zero_pad_read w z ltac:(lia)) as Hr.
  pose proof (zero_pad_nonempty w z) as Hn. destruct (zero_pad w z) as [|a s]; [done|].
  simpl in Hd. apply andb_true_iff in Hd as [Ha _]. destruct (digit_not_space a Ha) as (H1 & H2 & H3).
  unfold skip_space. rewrite H1. unfold read_sign. rewrite H2, H3. unfold starts_digit. rewrite Ha, Hr. cbv zeta iota.
  unfold INT_MIN, INT_MAX in *.
  by rewrite (proj2 (Z.leb_le _ _)), (proj2 (Z.leb_le _ _)) by lia.
Qed.
