(* ===== verification/KvInterface.v ===== *)
(** * css: the key-value store interface

    [css/CssError.h] (the exceptions) and [css/KvInterface.h]: the operations
    of a store as a class, and what they promise as a second class. The promise
    is stated on an abstract store, a tree of values addressed by paths of
    names: [tree_step] gives, for each operation on well-formed keys, the result
    it may have and the tree it leaves. *)

From Stdlib Require Import Ascii String.
From S2P Require Import Prelude.
From S2P Require Import StdString.
From S2P Require Import CssPath.

(** ** Exceptions *)

Inductive CssError : Type :=
| CssRuntimeError                                    (** [CssError] itself *)
| NoSuchDb (dbName : string)
| NoSuchKey (key : string)
| NoSuchTable (dbName tableName : string)
| TableExists (dbName tableName : string)
| AuthError
| ConnError
| KeyExistsError (key : string)
| KeyValueError (key : string)
| BadAllocError (key : string)
| VersionMissingError (key : string)
| VersionMismatchError (expected actual : string)
| ReadonlyCss
| NoSuchNode (nodeName : string)
| NodeExists (nodeName : string)
| NodeInUse (nodeName : string)
| ConfigError.

#[global] Instance CssError_eq_dec : EqDecision CssError.
Proof. solve_decision. Defined.

(** ** The operations *)

(** A method that modifies the store also returns it; what it throws is the
    left side of its result. [kv_get key d true] is [get(key)], [kv_get key d
    false] is [get(key, d)]. *)
Class KvInterface (St : Type) := {
  kv_create : string -> string -> bool -> St -> St * (CssError + string);
  kv_set : string -> string -> St -> St * (CssError + unit);
  kv_exists : string -> St -> bool;
  kv_get : string -> string -> bool -> St -> CssError + string;
  kv_getMany : list string -> St -> gmap string string;
  kv_getChildren : string -> St -> CssError + list string;
  kv_getChildrenValues : string -> St -> CssError + gmap string string;
  kv_deleteKey : string -> St -> St * (CssError + unit);
}.

(** The keys of a [std::map<std::string, A>] in the order of iteration. *)
Definition sorted_keys {A} (m : gmap string A) : list string := merge_sort String.le (elements (dom m)).

(** ** The abstract store *)

Notation Tree := (gmap (list string) string).

Implicit Types (t : Tree) (p q : list string) (n v : string).

(** The proper prefixes of a path. *)
Definition ancestors p : list (list string) := (fun i => take i p) <$> seq 0 (length p).

(** Give [p] the value [v]; ancestors that do not exist get an empty value. *)
Definition tree_set p v t : Tree := <[p := v]> (t ∪ list_to_map ((fun a => (a, ""%string)) <$> ancestors p)).

(** Remove [p] and all that is below it. *)
Definition tree_delete p t : Tree := filter (fun e => ~ p `prefix_of` e.1) t.

(** The path [q] relative to [p]. *)
Fixpoint relative p q : option (list string) :=
  match p, q with
  | [], _ => Some q
  | a :: p', b :: q' => if decide (a = b) then relative p' q' else None
  | _ :: _, [] => None
  end.

Definition child_of p (e : list string * string) : option (string * string) :=
  match relative p e.1 with Some [n] => Some (n, e.2) | _ => None end.

(** The names directly below [p], with their values. *)
Definition tree_children p t : gmap string string := list_to_map (omap (child_of p) (map_to_list t)).

(** Every path of the tree has well-formed names, and its parent is there. *)
Definition tree_ok t : Prop :=
  (forall p, is_Some (t !! p) -> path_ok p) /\ (forall p n, is_Some (t !! (p ++ [n])) -> is_Some (t !! p)).

Inductive kv_op : Type :=
| OpCreate p v
| OpCreateUnique p n v                      (** key ["p/n"], to be completed by a number *)
| OpSet p v
| OpExists p
| OpGet p v (throwIfKeyNotFound : bool)
| OpGetMany (ps : list (list string))
| OpGetChildren p
| OpGetChildrenValues p
| OpDeleteKey p.

Inductive kv_res : Type :=
| RUnit | RBool (b : bool) | RString (s : string) | RList (l : list string) | RMap (m : gmap string string)
| RError (e : CssError).

Definition op_ok (o : kv_op) : Prop :=
  match o with
  | OpCreate p _ | OpSet p _ | OpExists p | OpGet p _ _ | OpGetChildren p | OpGetChildrenValues p | OpDeleteKey p => path_ok p
  | OpCreateUnique p n _ => path_ok p /\ has_char SLASH n = false
  | OpGetMany ps => Forall path_ok ps
  end.

(** The result and the new tree of an operation, by [KvInterface.h]. *)
Inductive tree_step (readOnly : bool) t : kv_op -> kv_res -> Tree -> Prop :=
| ts_readonly o : match o with OpCreate _ _ | OpCreateUnique _ _ _ | OpSet _ _ | OpDeleteKey _ => True | _ => False end ->
    readOnly = true -> tree_step readOnly t o (RError ReadonlyCss) t
| ts_create p v : readOnly = false -> t !! p = None ->
    tree_step readOnly t (OpCreate p v) (RString (render p)) (tree_set p v t)
| ts_create_exists p v x : readOnly = false -> t !! p = Some x ->
    tree_step readOnly t (OpCreate p v) (RError (KeyExistsError (render p))) t
| ts_create_unique p n v id : readOnly = false -> 0 < id ->
    t !! (p ++ [n +:+ zero_pad 10 id]) = None ->
    (Z.of_nat (size t) < INT_MAX -> id <= INT_MAX) ->
    tree_step readOnly t (OpCreateUnique p n v) (RString (render (p ++ [n +:+ zero_pad 10 id])))
      (tree_set (p ++ [n +:+ zero_pad 10 id]) v t)
| ts_set p v : readOnly = false -> tree_step readOnly t (OpSet p v) RUnit (tree_set p v t)
| ts_exists p : tree_step readOnly t (OpExists p) (RBool (bool_decide (is_Some (t !! p)))) t
| ts_get p v x b : t !! p = Some x -> tree_step readOnly t (OpGet p v b) (RString x) t
| ts_get_default p v : t !! p = None -> tree_step readOnly t (OpGet p v false) (RString v) t
| ts_get_none p v : t !! p = None -> tree_step readOnly t (OpGet p v true) (RError (NoSuchKey (render p))) t
| ts_getMany ps m :
    (forall k v, m !! k = Some v <-> exists p, p ∈ ps /\ k = render p /\ t !! p = Some v) ->
    tree_step readOnly t (OpGetMany ps) (RMap m) t
| ts_children p : is_Some (t !! p) ->
    tree_step readOnly t (OpGetChildren p) (RList (sorted_keys (tree_children p t))) t
| ts_children_none p : t !! p = None -> tree_step readOnly t (OpGetChildren p) (RError (NoSuchKey (render p))) t
| ts_values p : is_Some (t !! p) -> tree_step readOnly t (OpGetChildrenValues p) (RMap (tree_children p t)) t
| ts_values_none p : t !! p = None -> tree_step readOnly t (OpGetChildrenValues p) (RError (NoSuchKey (render p))) t
| ts_delete p : readOnly = false -> is_Some (t !! p) -> tree_step readOnly t (OpDeleteKey p) RUnit (tree_delete p t)
| ts_delete_none p : readOnly = false -> t !! p = None ->
    tree_step readOnly t (OpDeleteKey p) (RError (NoSuchKey (render p))) t.

(** ** The promise *)

Definition res_of {A} (f : A -> kv_res) (r : CssError + A) : kv_res :=
  match r with inl e => RError e | inr a => f a end.

(** An operation on a store. *)
Definition kv_exec {St} `{KvInterface St} (o : kv_op) (s : St) : St * kv_res :=
  match o with
  | OpCreate p v => let '(s', r) := kv_create (render p) v false s in (s', res_of RString r)
  | OpCreateUnique p n v => let '(s', r) := kv_create (render (p ++ [n])) v true s in (s', res_of RString r)
  | OpSet p v => let '(s', r) := kv_set (render p) v s in (s', res_of (fun _ => RUnit) r)
  | OpExists p => (s, RBool (kv_exists (render p) s))
  | OpGet p v b => (s, res_of RString (kv_get (render p) v b s))
  | OpGetMany ps => (s, RMap (kv_getMany (render <$> ps) s))
  | OpGetChildren p => (s, res_of RList (kv_getChildren (render p) s))
  | OpGetChildrenValues p => (s, res_of RMap (kv_getChildrenValues (render p) s))
  | OpDeleteKey p => let '(s', r) := kv_deleteKey (render p) s in (s', res_of (fun _ => RUnit) r)
  end.

(** A store implements the abstract one: [kv_rep s t] is the abstraction
    relation, and every operation on well-formed keys is a step of the tree. *)
Class KvSpec (St : Type) `{KvInterface St} := {
  kv_readOnly : St -> bool;
  kv_rep : St -> Tree -> Prop;
  kv_rep_ok s t : kv_rep s t -> tree_ok t;
  kv_sim s t o : kv_rep s t -> op_ok o ->
    exists t', tree_step (kv_readOnly s) t o (kv_exec o s).2 t' /\ kv_rep (kv_exec o s).1 t' /\
               kv_readOnly (kv_exec o s).1 = kv_readOnly s;
}.

(** ** Lemmas on trees *)

Lemma elem_of_ancestors p a : a ∈ ancestors p <-> a `prefix_of` p /\ a <> p.
Proof.
  unfold ancestors. rewrite list_elem_of_fmap. split.
  - intros (i & -> & Hi%elem_of_seq). split; [apply prefix_take|]. intros He. apply (f_equal length) in He.
    rewrite length_take in He. lia.
  - intros [[k ->] Hne]. exists (length a). split; [by rewrite take_app_length|]. apply elem_of_seq.
    rewrite length_app. destruct k; [by rewrite app_nil_r in Hne|]. simpl. lia.
Qed.

Lemma lookup_ancestors p q :
  (list_to_map ((fun a => (a, ""%string)) <$> ancestors p) : Tree) !! q =
  if decide (q `prefix_of` p /\ q <> p) then Some ""%string else None.
Proof.
  assert (Hl : forall l, (list_to_map ((fun a => (a, ""%string)) <$> l) : Tree) !! q = if decide (q ∈ l) then Some ""%string else None).
  { induction l as [|a l IH]; [done|]. cbn [fmap list_fmap list_to_map foldr]. simpl. rewrite lookup_insert. destruct (decide (a = q)) as [->|Hne].
    - by rewrite decide_True by left.
    - rewrite IH. apply decide_ext. set_solver. }
  rewrite Hl. apply decide_ext. by rewrite elem_of_ancestors.
Qed.

(** The value of a path after [tree_set]. *)
Lemma tree_set_lookup p v t q :
  tree_set p v t !! q =
  if decide (q = p) then Some v
  else match t !! q with Some x => Some x | None => if decide (q `prefix_of` p) then Some ""%string else None end.
Proof.
  unfold tree_set. rewrite lookup_insert. destruct (decide (p = q)) as [->|Hne]; [by rewrite decide_True|].
  rewrite (decide_False (P := q = p)) by congruence. rewrite lookup_union, lookup_ancestors. destruct (t !! q) as [x|].
  - by destruct (decide _).
  - destruct (decide (q `prefix_of` p)) as [Hp|Hp].
    + by rewrite decide_True.
    + by rewrite decide_False by tauto.
Qed.

Lemma tree_set_eq p v t : tree_set p v t !! p = Some v.
Proof. rewrite tree_set_lookup. by rewrite decide_True. Qed.

Lemma tree_set_other p v t q : ~ q `prefix_of` p -> tree_set p v t !! q = t !! q.
Proof.
  intros Hq. rewrite tree_set_lookup, !decide_False; [by destruct (t !! q)|done|]. intros ->. by apply Hq.
Qed.

Lemma tree_set_old p v t q : q <> p -> is_Some (t !! q) -> tree_set p v t !! q = t !! q.
Proof. intros Hq [x Hx]. rewrite tree_set_lookup, decide_False by done. by rewrite Hx. Qed.

Lemma tree_delete_lookup p t q : tree_delete p t !! q = if decide (p `prefix_of` q) then None else t !! q.
Proof.
  unfold tree_delete. rewrite map_lookup_filter. destruct (t !! q) as [x|]; simpl; [|by destruct (decide _)].
  destruct (decide (p `prefix_of` q)) as [Hp|Hp]; [|by rewrite option_guard_True].
  rewrite option_guard_False; [done|]. tauto.
Qed.

Lemma relative_spec p q r : relative p q = Some r <-> q = p ++ r.
Proof.
  revert q. induction p as [|a p IH]; intros [|b q]; simpl; try by (split; congruence).
  destruct (decide (a = b)) as [->|Hne]; [rewrite IH|]; (split; [congruence|]).
  - by intros [= ->].
  - by intros [= -> _].
Qed.

Lemma child_of_spec p e n v : child_of p e = Some (n, v) <-> e = (p ++ [n], v).
Proof.
  unfold child_of. destruct e as [q x]; simpl. split.
  - destruct (relative p q) as [[|m [|]]|] eqn:E; try done. apply relative_spec in E as ->. by intros [= -> ->].
  - intros [= -> ->]. by rewrite (proj2 (relative_spec p (p ++ [n]) [n]) eq_refl).
Qed.

Lemma children_NoDup p t : NoDup (omap (child_of p) (map_to_list t)).*1.
Proof.
  pose proof (NoDup_fst_map_to_list t) as Hn. induction (map_to_list t) as [|e l IH]; simpl; [constructor|].
  inversion Hn as [|? ? He Hl]; subst. specialize (IH Hl). destruct (child_of p e) as [[n v]|] eqn:E; [|done].
  simpl. constructor; [|done]. rewrite list_elem_of_fmap. intros ([m x] & Hm & Hin). simpl in Hm. subst m.
  apply list_elem_of_omap in Hin as (f & Hf & Hc). apply child_of_spec in E as ->. apply child_of_spec in Hc as ->.
  apply He. rewrite list_elem_of_fmap. by exists (p ++ [n], x).
Qed.

(** The children of a path are the paths with one more name. *)
Lemma tree_children_lookup p t n : tree_children p t !! n = t !! (p ++ [n]).
Proof.
  apply option_eq. intros v. unfold tree_children. rewrite <- elem_of_list_to_map by apply children_NoDup.
  rewrite list_elem_of_omap. split.
  - intros (e & He & ->%child_of_spec). by apply elem_of_map_to_list in He.
  - intros Ht. exists (p ++ [n], v). split; [by apply elem_of_map_to_list|by apply child_of_spec].
Qed.

Lemma tree_ok_prefix t p q : tree_ok t -> is_Some (t !! (p ++ q)) -> is_Some (t !! p).
Proof.
  intros [_ Hc]. induction q as [|n q IH] using rev_ind; [by rewrite app_nil_r|]. rewrite app_assoc. eauto.
Qed.

(** Nothing is below a path that is not there. *)
Lemma tree_ok_none t p q : tree_ok t -> t !! p = None -> t !! (p ++ q) = None.
Proof.
  intros Hok Hp. destruct (t !! (p ++ q)) eqn:E; [|done].
  destruct (tree_ok_prefix t p q Hok) as [x Hx]; [by eexists|]. congruence.
Qed.

Lemma tree_ok_set p v t : tree_ok t -> path_ok p -> tree_ok (tree_set p v t).
Proof.
  intros [Hw Hc] Hp. split.
  - intros q. rewrite tree_set_lookup. destruct (decide (q = p)) as [->|_]; [done|].
    destruct (t !! q) eqn:E; [intros _; by apply Hw; eexists|]. destruct (decide _) as [[k Hk]|]; [|by intros [? [=]]].
    intros _. subst p. by apply path_ok_app in Hp as [? _].
  - intros q n Hq. rewrite tree_set_lookup in Hq. rewrite tree_set_lookup.
    destruct (decide (q = p)) as [_|_]; [by eexists|]. destruct (t !! q) eqn:E; [by eexists|].
    rewrite decide_True; [by eexists|]. destruct (decide (q ++ [n] = p)) as [<-|Hne]; [by eexists|].
    destruct (t !! (q ++ [n])) eqn:E'; [destruct (Hc q n) as [? ?]; [by eexists|congruence]|].
    destruct (decide (q ++ [n] `prefix_of` p)) as [[k ->]|]; [|by destruct Hq].
    rewrite <- app_assoc. by eexists.
Qed.

Lemma tree_ok_delete p t : tree_ok t -> tree_ok (tree_delete p t).
Proof.
  intros [Hw Hc]. split.
  - intros q. rewrite tree_delete_lookup. destruct (decide _); [by intros [? [=]]|]. apply Hw.
  - intros q n. rewrite !tree_delete_lookup. destruct (decide (p `prefix_of` q ++ [n])) as [|Hp]; [by intros [? [=]]|].
    rewrite decide_False; [apply Hc|]. intros Hq. apply Hp. by apply prefix_app_r.
Qed.

Lemma tree_step_ok b t o r t' : tree_step b t o r t' -> op_ok o -> tree_ok t -> tree_ok t'.
Proof.
  destruct 1 as [| | |p n v id ? ? Hf ?| | | | | | | | | | | |]; intros Ho Ht; simpl in Ho; try done; try (by apply tree_ok_set).
  - destruct Ho as [Hp Hn]. apply tree_ok_set; [done|]. apply path_ok_snoc. split; [done|].
    pose proof (zero_pad_name 10 id ltac:(lia)) as [Hz1 Hz2]. split; [|by rewrite has_char_app, Hn].
    intros He. destruct n; [by destruct (zero_pad 10 id)|done].
  - by apply tree_ok_delete.
Qed.

(** ** Sorted keys *)

Lemma sorted_keys_elem {A} (m : gmap string A) n : n ∈ sorted_keys m <-> is_Some (m !! n).
Proof. unfold sorted_keys. by rewrite merge_sort_Permutation, elem_of_elements, elem_of_dom. Qed.

Lemma sorted_keys_NoDup {A} (m : gmap string A) : NoDup (sorted_keys m).
Proof. unfold sorted_keys. rewrite merge_sort_Permutation. apply NoDup_elements. Qed.

Lemma sorted_keys_sorted {A} (m : gmap string A) : StronglySorted String.le (sorted_keys m).
Proof. apply (StronglySorted_merge_sort String.le). Qed.

Lemma sorted_keys_unique {A} (m : gmap string A) l :
  StronglySorted String.le l -> NoDup l -> (forall n, n ∈ l <-> is_Some (m !! n)) -> l = sorted_keys m.
Proof.
  intros Hs Hn Hl. apply (StronglySorted_unique String.le); [done|apply sorted_keys_sorted|].
  apply NoDup_Permutation; [done|apply sorted_keys_NoDup|]. intros n. by rewrite Hl, sorted_keys_elem.
Qed.
