(* ===== verification/PropertyTree.v ===== *)
(** * boost::property_tree and its JSON parser

    The library is not part of the repository: [PropertyTree] lists the two
    operations the css module calls, on the trees it gives them (a root with
    leaves), and [PropertyTreeLaws] what it relies on. *)

From Stdlib Require Import Ascii String.
From S2P Require Import Prelude.
From S2P Require Import StdString.

(** A child of the root of a tree that was read: its data and whether it has no
    children of its own. *)
Record pt_node := mkNode { pt_data : string; pt_empty : bool }.

Definition pt_leaf (s : string) : pt_node := mkNode s true.

Class PropertyTree := {
  (** [write_json(output, tree, pretty)] of the tree with these leaves; [None]
      is a [json_parser_error]. *)
  write_json : list (string * string) -> bool -> option string;
  (** [read_json(input, tree)]: the children of the root, in order. *)
  read_json : string -> option (list (string * pt_node));
}.

(** [std::replace(s.begin(), s.end(), '\n', ' ')] *)
Definition NEWLINE : ascii := ascii_of_nat 10.
Fixpoint replace_newlines (s : string) : string :=
  match s with
  | EmptyString => EmptyString
  | String a s' => String (if Ascii.eqb a NEWLINE then " "%char else a) (replace_newlines s')
  end.

(** Printable characters of ASCII. *)
Definition printable (s : string) : bool := all_chars (fun a => (32 <=? code a) && (code a <=? 126)) s.

(** What is written is read back, in the order it was written, and the line
    breaks between the tokens do not matter. *)
Class PropertyTreeLaws `{PropertyTree} := {
  json_roundtrip l pretty :
    Forall (fun e => e.1 <> ""%string /\ printable e.1 = true /\ printable e.2 = true) l ->
    exists s, write_json l pretty = Some s /\ s <> ""%string /\
      read_json s = Some (prod_map id pt_leaf <$> l) /\
      read_json (replace_newlines s) = Some (prod_map id pt_leaf <$> l);
}.

(** ** A concrete JSON writer and reader

    Shows that what [PropertyTree.v] asks of the JSON library can hold: JSON
    objects whose members are strings, with the escapes and the white space
    that [boost::property_tree] writes, and a reader for them. *)

#[local] Arguments String.append !_ _ /.

Module FlatJson.

Definition QUOTE : ascii := ascii_of_nat 34.
Definition BACKSLASH : ascii := ascii_of_nat 92.

Implicit Types (s r w : string) (a : ascii).

Definition space s : bool := all_chars (fun a => Ascii.eqb a " " || Ascii.eqb a NEWLINE) s.

(** ** Writing *)

Definition escaped a : bool := Ascii.eqb a QUOTE || Ascii.eqb a BACKSLASH || Ascii.eqb a "/".

Fixpoint escape s : string :=
  match s with
  | EmptyString => EmptyString
  | String a s' => if escaped a then String BACKSLASH (String a (escape s')) else String a (escape s')
  end.

Definition quoted s r : string := String QUOTE (escape s +:+ String QUOTE r).

(** [w] is written after each separator. *)
Fixpoint members w (l : list (string * string)) r : string :=
  match l with
  | [] => r
  | e :: l' => w +:+ quoted e.1 (String ":" (quoted e.2 (match l' with [] => r | _ :: _ => String "," (members w l' r) end)))
  end.

Definition text w e (l : list (string * string)) : string := String "{" (members w l (w +:+ String "}" e)).

(** ** Reading *)

Fixpoint skip s : string :=
  match s with
  | String a s' => if Ascii.eqb a " " || Ascii.eqb a NEWLINE then skip s' else s
  | EmptyString => EmptyString
  end.

(** A string, after its opening quote. *)
Fixpoint read_string s : option (string * string) :=
  match s with
  | EmptyString => None
  | String a s' =>
      if Ascii.eqb a QUOTE then Some (""%string, s')
      else if Ascii.eqb a BACKSLASH then
        match s' with
        | String b s'' => prod_map (String b) id <$> read_string s''
        | EmptyString => None
        end
      else prod_map (String a) id <$> read_string s'
  end.

Definition read_quoted s : option (string * string) :=
  match skip s with
  | String a s' => if Ascii.eqb a QUOTE then read_string s' else None
  | EmptyString => None
  end.

Definition expect a s : option string :=
  match skip s with
  | String b s' => if Ascii.eqb b a then Some s' else None
  | EmptyString => None
  end.

Fixpoint read_members (fuel : nat) s : option (list (string * pt_node)) :=
  match fuel with
  | O => None
  | S fuel' =>
      '(k, s) ← read_quoted s; s ← expect ":" s; '(v, s) ← read_quoted s;
      match skip s with
      | String a s' =>
          if Ascii.eqb a "," then cons (k, pt_leaf v) <$> read_members fuel' s'
          else if Ascii.eqb a "}" then if decide (skip s' = ""%string) then Some [(k, pt_leaf v)] else None
          else None
      | EmptyString => None
      end
  end.

Definition read_object s : option (list (string * pt_node)) :=
  s ← expect "{" s;
  match skip s with
  | String a s' =>
      if Ascii.eqb a "}" then if decide (skip s' = ""%string) then Some [] else None
      else read_members (S (String.length s)) s
  | EmptyString => None
  end.

#[export] Instance flat_json : PropertyTree := {
  write_json l pretty := Some (text (if pretty then String NEWLINE "    " else ""%string) (String NEWLINE "") l);
  read_json := read_object;
}.

(** ** Round trip *)

Lemma skip_space w s : space w = true -> skip (w +:+ s) = skip s.
Proof. unfold space. induction w as [|a w IH]; simpl; [done|]. by intros [-> ?]%andb_true_iff; auto. Qed.

Lemma read_escape s r : read_string (escape s +:+ String QUOTE r) = Some (s, r).
Proof.
  induction s as [|a s IH]; simpl; [done|]. destruct (escaped a) eqn:E; simpl.
  - by rewrite IH.
  - unfold escaped in E. apply orb_false_iff in E as [[-> ->]%orb_false_iff _]. by rewrite IH.
Qed.

Lemma read_quoted_text w s r : space w = true -> read_quoted (w +:+ quoted s r) = Some (s, r).
Proof. intros Hw. unfold read_quoted. rewrite skip_space by done. simpl. apply read_escape. Qed.

Lemma read_quoted_here s r : read_quoted (quoted s r) = Some (s, r).
Proof. by apply (read_quoted_text ""). Qed.

Lemma expect_here a s : Ascii.eqb a " " || Ascii.eqb a NEWLINE = false -> expect a (String a s) = Some s.
Proof. intros Ha. unfold expect, skip. by rewrite Ha, Ascii.eqb_refl. Qed.

Lemma read_members_text w e l fuel : space w = true -> skip e = ""%string -> l <> [] -> (length l <= fuel)%nat ->
  read_members fuel (members w l (w +:+ String "}" e)) = Some (prod_map id pt_leaf <$> l).
Proof.
  intros Hw He. revert fuel. induction l as [|[k v] l IH]; intros fuel Hne Hf; [done|]. destruct fuel as [|fuel]; [simpl in Hf; lia|].
  cbn [read_members members fst snd]. rewrite read_quoted_text by done. cbn [mbind option_bind].
  rewrite expect_here by done. cbn [mbind option_bind]. rewrite read_quoted_here. cbn [mbind option_bind]. destruct l as [|f l].
  - rewrite skip_space by done. simpl. by rewrite decide_True.
  - change (skip (String "," (members w (f :: l) (w +:+ String "}" e)))) with (String "," (members w (f :: l) (w +:+ String "}" e))).
    cbv iota beta. change (Ascii.eqb "," ",") with true. cbv iota. rewrite IH by (done || simpl in *; lia). done.
Qed.

Lemma length_append' s r : String.length (s +:+ r) = (String.length s + String.length r)%nat.
Proof. induction s as [|c s IH]; [done|]. simpl. by rewrite <- IH. Qed.

Lemma members_length w f l r : (length (f :: l) <= S (String.length (members w (f :: l) r)))%nat.
Proof.
  revert f. induction l as [|f' l IH]; intros f; [simpl; lia|].
  change (S (length (f' :: l)) <= S (String.length (w +:+ quoted f.1 (String ":" (quoted f.2 (String "," (members w (f' :: l) r)))))))%nat.
  specialize (IH f'). revert IH. generalize (members w (f' :: l) r) as x. intros x Hx.
  unfold quoted. rewrite length_append'. simpl. rewrite length_append'. simpl. rewrite length_append'. simpl in *. lia.
Qed.

Lemma read_text w e l : space w = true -> skip e = ""%string -> read_object (text w e l) = Some (prod_map id pt_leaf <$> l).
Proof.
  intros Hw He. unfold read_object, text. rewrite expect_here by done. cbn [mbind option_bind]. destruct l as [|f l].
  - cbn [members]. rewrite skip_space by done. simpl. by rewrite decide_True.
  - assert (Hs : exists r, skip (members w (f :: l) (w +:+ String "}" e)) = String QUOTE r).
    { cbn [members]. rewrite skip_space by done. by eexists. }
    destruct Hs as [r ->]. change (Ascii.eqb QUOTE "}") with false. cbv iota.
    apply read_members_text; [done..|apply members_length].
Qed.

Lemma replace_app s r : replace_newlines (s +:+ r) = replace_newlines s +:+ replace_newlines r.
Proof. induction s as [|a s IH]; simpl; [done|]. by rewrite IH. Qed.

Lemma replace_escape s : printable s = true -> replace_newlines (escape s) = escape s.
Proof.
  unfold printable. induction s as [|a s IH]; simpl; [done|]. intros [Ha Hs]%andb_true_iff.
  assert (Hn : Ascii.eqb a NEWLINE = false).
  { apply Ascii.eqb_neq. intros ->. done. }
  destruct (escaped a); simpl; by rewrite Hn, IH.
Qed.

Lemma replace_quoted s r : printable s = true -> replace_newlines (quoted s r) = quoted s (replace_newlines r).
Proof. intros Hs. unfold quoted. simpl. by rewrite replace_app, replace_escape by done. Qed.

Lemma replace_members w l r : Forall (fun e => printable e.1 = true /\ printable e.2 = true) l ->
  replace_newlines (members w l r) = members (replace_newlines w) l (replace_newlines r).
Proof.
  induction 1 as [|[k v] l [Hk Hv] Hl IH]; [done|]. cbn [members fst snd]. rewrite replace_app, replace_quoted by done.
  cbn [replace_newlines]. rewrite replace_quoted by done. destruct l as [|e l]; [done|].
  cbn [replace_newlines]. by rewrite IH.
Qed.

#[export] Instance flat_json_laws : PropertyTreeLaws.
Proof.
  split. intros l pretty Hl. simpl. set (w := if pretty then _ else _).
  assert (Hw : space w = true /\ space (replace_newlines w) = true) by (by destruct pretty). destruct Hw as [Hw Hw'].
  eexists. split; [done|]. split; [done|]. split; [by apply read_text|].
  unfold text. cbn [replace_newlines]. rewrite replace_members by (eapply Forall_impl; [exact Hl|]; simpl; tauto).
  rewrite replace_app. by apply (read_text (replace_newlines w) " ").
Qed.

End FlatJson.
