(* ===== verification/KvInterfaceImplMem.v ===== *)
(** * css: the key-value store in memory

    [css/KvInterfaceImplMem.{h,cc}]. [mem_spec] shows that it keeps the promise
    of [KvInterface.v]. *)

From Stdlib Require Import Ascii String.
From S2P Require Import Prelude.
From S2P Require Import StdString.
From S2P Require Import CssPath.
From S2P Require Import KvInterface.
From S2P Require Import PropertyTree.

Implicit Types (m : gmap string string) (key value path : string).

(** ** State *)

Record KvMem := mkKvMem { km_kvMap : gmap string string; km_readOnly : bool }.

Implicit Types (s : KvMem).

Definition km_set_map m s : KvMem := mkKvMem m (km_readOnly s).

(** ** Operations *)

(** [norm_key] *)
Definition norm_key key : string := if decide (key = "/"%string) then ""%string else key.

(** [exists] *)
Definition mem_exists key s : bool := bool_decide (is_Some (km_kvMap s !! norm_key key)).

(** The loop that appends a unique suffix; [seq] is the number of rounds so far. *)
Fixpoint unique_loop (fuel : nat) key (seq : Z) m : option string :=
  match fuel with
  | O => None
  | S fuel' =>
      let seq := seq + 1 in
      let path := key +:+ zero_pad 10 seq in
      if decide (is_Some (m !! path)) then unique_loop fuel' key seq m else Some path
  end.
Definition unique_path key m : string := default key (unique_loop (S (size m)) key 0 m).

(** The loop that creates all parents of [parent]. *)
Fixpoint parents_loop (fuel : nat) (parent : string) m : gmap string string :=
  match fuel with
  | O => m
  | S fuel' =>
      match rfind SLASH parent with
      | None => m
      | Some i =>
          let parent := substr_to i parent in
          if decide (is_Some (m !! parent)) then m
          else parents_loop fuel' parent (<[parent := ""%string]> m)
      end
  end.
Definition create_parents path m : gmap string string := parents_loop (S (String.length path)) path m.

(** [create] *)
Definition mem_create key value (unique : bool) s : KvMem * (CssError + string) :=
  if km_readOnly s then (s, inl ReadonlyCss) else
  let path := if unique then unique_path key (km_kvMap s) else norm_key key in
  if mem_exists path s then (s, inl (KeyExistsError path)) else
  (km_set_map (<[path := value]> (create_parents path (km_kvMap s))) s, inr path).

(** [set] *)
Definition mem_set key value s : KvMem * (CssError + unit) :=
  if km_readOnly s then (s, inl ReadonlyCss) else
  let path := norm_key key in
  (km_set_map (<[path := value]> (create_parents path (km_kvMap s))) s, inr tt).

(** [getMany] *)
Definition mem_getMany (keys : list string) s : gmap string string :=
  foldl (fun result key =>
    let path := norm_key key in
    match km_kvMap s !! path with
    | Some v => match result !! path with Some _ => result | None => <[path := v]> result end
    | None => result
    end) ∅ keys.

(** [_get] *)
Definition mem_get key (defaultValue : string) (throwIfKeyNotFound : bool) s : CssError + string :=
  let path := norm_key key in
  if negb (mem_exists path s) then if throwIfKeyNotFound then inl (NoSuchKey path) else inr defaultValue
  else inr (default ""%string (km_kvMap s !! path)).

(** The name that [fullKey] has below [pfx], if it is a child of it. *)
Definition child_name (pfx fullKey : string) : option string :=
  if starts_with fullKey pfx then
    let theChild := substr_from (String.length pfx) fullKey in
    if decide (theChild = ""%string) then None
    else if has_char SLASH theChild then None else Some theChild
  else None.

(** [getChildren] *)
Definition mem_getChildren key s : CssError + list string :=
  let path := norm_key key in
  if negb (mem_exists path s) then inl (NoSuchKey path)
  else inr (omap (child_name (path +:+ "/")) (sorted_keys (km_kvMap s))).

(** [getChildrenValues] *)
Definition mem_getChildrenValues key s : CssError + gmap string string :=
  let path := norm_key key in
  if negb (mem_exists path s) then inl (NoSuchKey path)
  else inr (foldl (fun retV fullKey =>
    match child_name (path +:+ "/") fullKey with
    | Some theChild =>
        match retV !! theChild with
        | Some _ => retV
        | None => <[theChild := default ""%string (km_kvMap s !! fullKey)]> retV
        end
    | None => retV
    end) ∅ (sorted_keys (km_kvMap s))).

(** [deleteKey] *)
Definition below (keyPfx iterKey : string) : bool :=
  (String.length keyPfx <? String.length iterKey)%nat && bool_decide (substr_to (String.length keyPfx) iterKey = keyPfx).
Definition mem_deleteKey key s : KvMem * (CssError + unit) :=
  if km_readOnly s then (s, inl ReadonlyCss) else
  let path := norm_key key in
  match km_kvMap s !! path with
  | None => (s, inl (NoSuchKey path))
  | Some _ => (km_set_map (filter (fun e => below (path +:+ "/") e.1 = false) (delete path (km_kvMap s))) s, inr tt)
  end.

#[global] Instance mem_interface : KvInterface KvMem := {
  kv_create := mem_create;
  kv_set := mem_set;
  kv_exists := mem_exists;
  kv_get := mem_get;
  kv_getMany := mem_getMany;
  kv_getChildren := mem_getChildren;
  kv_getChildrenValues := mem_getChildrenValues;
  kv_deleteKey := mem_deleteKey;
}.

(** [dumpKV]; [None] is an exception of the JSON writer. *)
Definition mem_dump `{PropertyTree} key s : option string :=
  let pfx := norm_key key +:+ "/" in
  write_json ((fun k => (k, default ""%string (km_kvMap s !! k))) <$> filter (fun k => starts_with k pfx = true) (sorted_keys (km_kvMap s))) true.

(** [_init] and the constructors from a stream; [None] is a stream whose
    [fail()] is true, [Some] its contents. *)
Definition mem_init `{PropertyTree} (mapStream : option string) s : CssError + KvMem :=
  match mapStream with
  | None => inl ConnError
  | Some text =>
      match read_json text with
      | None => inl CssRuntimeError
      | Some tree =>
          foldl (fun acc e => match acc with
                              | inl err => inl err
                              | inr s' => let '(s'', r) := mem_set e.1 (pt_data e.2) s' in
                                          match r with inl err => inl err | inr _ => inr s'' end
                              end) (inr s) tree
      end
  end.
Definition mem_from_stream `{PropertyTree} (mapStream : option string) (readOnly : bool) : CssError + KvMem :=
  match mem_init mapStream (mkKvMem ∅ false) with
  | inl err => inl err
  | inr s => inr (mkKvMem (km_kvMap s) readOnly)
  end.

(** [clone] *)
Definition mem_clone s : KvMem := mkKvMem (km_kvMap s) false.

(** ** css: the store in memory implements the abstract store

    The abstraction relation between [KvInterfaceImplMem] and the tree of
    [KvInterface.v], and the simulation of each operation; the dump of a store
    and its reading. *)

Implicit Types (t : Tree) (p q a : list string).

(** ** The abstraction relation *)

Definition map_rep m t : Prop :=
  tree_ok t /\ forall k v, m !! k = Some v <-> exists p, path_ok p /\ k = render p /\ t !! p = Some v.

Definition mem_rep s t : Prop := map_rep (km_kvMap s) t.

Lemma map_rep_lookup m t p : map_rep m t -> path_ok p -> m !! render p = t !! p.
Proof.
  intros [_ Hr] Hp. apply option_eq. intros v. rewrite Hr. split; [|by eauto].
  intros (q & Hq & He & Ht). by apply render_inj in He as <-.
Qed.

Lemma map_rep_key m t k v : map_rep m t -> m !! k = Some v -> exists p, path_ok p /\ k = render p /\ t !! p = Some v.
Proof. intros [_ Hr]. apply Hr. Qed.

Lemma norm_key_render p : path_ok p -> norm_key (render p) = render p.
Proof. intros Hp. unfold norm_key. by rewrite decide_False by by apply render_nonslash. Qed.

Lemma mem_exists_render s t p : mem_rep s t -> path_ok p -> mem_exists (render p) s = bool_decide (is_Some (t !! p)).
Proof. intros Hr Hp. unfold mem_exists. by rewrite norm_key_render, (map_rep_lookup _ t) by done. Qed.

(** ** Creating parents *)

(** Cutting at the last slash makes a string shorter, so the loop ends. *)
Lemma parents_loop_fuel f f' path m :
  (String.length path < f)%nat -> (f <= f')%nat -> parents_loop f' path m = parents_loop f path m.
Proof.
  revert f' path m. induction f as [|f IH]; intros f' path m Hl Hf; [lia|]. destruct f' as [|f']; [lia|]. simpl.
  destruct (rfind SLASH path) as [i|] eqn:E; [|done]. destruct (decide _); [done|]. apply IH; [|lia].
  apply rfind_lt in E. rewrite substr_to_length by lia. lia.
Qed.

Lemma snoc_ne p q n : q `prefix_of` p -> q <> p ++ [n].
Proof. intros Hq ->. apply prefix_length in Hq. rewrite length_app in Hq. simpl in Hq. lia. Qed.

Lemma ancestors_snoc p n a : a ∈ ancestors (p ++ [n]) <-> a = p \/ a ∈ ancestors p.
Proof.
  rewrite !elem_of_ancestors. split.
  - intros [Ha Hne]. destruct (decide (a = p)); [by left|right]. split; [|done].
    destruct Ha as [r Hr]. destruct r as [|x r _] using rev_ind; [by rewrite app_nil_r in Hr|].
    rewrite app_assoc in Hr. apply app_inj_tail in Hr as [-> _]. by eexists.
  - intros [->|[Ha Hne]]; (split; [|by apply snoc_ne]); [by eexists|by apply prefix_app_r].
Qed.

(** Among the ancestors of [p], the map has the parents of what it has. *)
Definition chain p m : Prop :=
  forall a b, a ∈ ancestors p -> b ∈ ancestors a -> is_Some (m !! render a) -> is_Some (m !! render b).

Lemma ancestor_ok p a : path_ok p -> a ∈ ancestors p -> path_ok a.
Proof. intros Hp [[r ->] _]%elem_of_ancestors. by apply path_ok_app in Hp as [? _]. Qed.

Lemma ancestor_irrefl p : p ∉ ancestors p.
Proof. rewrite elem_of_ancestors. tauto. Qed.

Lemma ancestors_trans p a b : a ∈ ancestors p -> b ∈ ancestors a -> b ∈ ancestors p.
Proof.
  rewrite !elem_of_ancestors. intros [Ha Hna] [Hb Hnb]. split; [by etrans|]. intros ->. by apply Hnb, (anti_symm prefix).
Qed.

Lemma chain_insert p n m : path_ok p -> chain (p ++ [n]) m -> chain p (<[render p := ""%string]> m).
Proof.
  intros Hp Hc a b Ha Hb. pose proof (ancestors_trans p a b Ha Hb) as Hbp.
  assert (Hne : forall q, q ∈ ancestors p -> render p <> render q).
  { intros q Hq He. apply render_inj in He as <-; [by apply ancestor_irrefl in Hq|done|by eapply ancestor_ok]. }
  rewrite !lookup_insert_ne by auto. apply Hc; [|done]. apply ancestors_snoc. by right.
Qed.

Lemma parents_loop_spec p : path_ok p -> forall fuel m,
  (String.length (render p) < fuel)%nat -> chain p m ->
  forall k, parents_loop fuel (render p) m !! k =
    match m !! k with
    | Some x => Some x
    | None => if bool_decide (Exists (fun a => k = render a) (ancestors p)) then Some ""%string else None
    end.
Proof.
  induction p as [|n p IH] using rev_ind; intros Hp [|fuel] m Hf Hc k; [lia| |lia|].
  - simpl. by destruct (m !! k).
  - apply path_ok_snoc in Hp as [Hp Hn]. simpl. rewrite rfind_render by done. rewrite parent_render.
    rewrite (bool_decide_ext _ (k = render p \/ Exists (fun a => k = render a) (ancestors p))).
    2:{ rewrite !Exists_exists. setoid_rewrite ancestors_snoc. naive_solver. }
    destruct (decide (is_Some (m !! render p))) as [Hs|Hs].
    + destruct (m !! k) as [x|] eqn:Ek; [done|]. rewrite bool_decide_false; [done|].
      intros [->|(a & Ha & ->)%Exists_exists]; [rewrite Ek in Hs; by destruct Hs|].
      destruct (Hc p a) as [x Hx]; [apply ancestors_snoc; by left|done|done|congruence].
    + rewrite IH; [|done| |by eapply chain_insert].
      2:{ rewrite render_snoc, length_append in Hf. simpl in Hf. lia. }
      destruct (decide (k = render p)) as [->|Hk].
      * rewrite lookup_insert_eq. destruct (m !! render p) eqn:E; [by destruct Hs; eexists|].
        rewrite bool_decide_true; [done|by left].
      * rewrite lookup_insert_ne by done. destruct (m !! k); [done|].
        rewrite (bool_decide_ext _ (k = render p \/ Exists (fun a => k = render a) (ancestors p))); [done|tauto].
Qed.

Lemma map_rep_chain m t p : map_rep m t -> path_ok p -> chain p m.
Proof.
  intros Hr Hp a b Ha Hb. pose proof (ancestor_ok p a Hp Ha). pose proof (ancestor_ok a b ltac:(done) Hb).
  rewrite !(map_rep_lookup m t) by done. apply elem_of_ancestors in Hb as [[r ->] _]. apply tree_ok_prefix, Hr.
Qed.

(** Storing a value after creating the parents is [tree_set]. *)
Lemma create_parents_set m t p v :
  map_rep m t -> path_ok p -> map_rep (<[render p := v]> (create_parents (render p) m)) (tree_set p v t).
Proof.
  intros Hr Hp. split; [apply tree_ok_set; [apply Hr|done]|]. intros k x. unfold create_parents.
  rewrite lookup_insert, parents_loop_spec by (done || lia || by eapply map_rep_chain). split.
  - destruct (decide (render p = k)) as [<-|Hne]; [intros [= <-]; exists p; by rewrite tree_set_eq|].
    destruct (m !! k) as [y|] eqn:E.
    + intros [= <-]. destruct (map_rep_key m t k y Hr E) as (q & Hq & -> & Ht). exists q. split; [done|]. split; [done|].
      rewrite tree_set_old; [done|congruence|by eexists].
    + case_bool_decide as Hb; [|done]. intros [= <-]. apply Exists_exists in Hb as (q & Ha & ->).
      pose proof (ancestor_ok p q Hp Ha) as Hq. exists q. split; [done|]. split; [done|].
      rewrite (map_rep_lookup m t) in E by done. apply elem_of_ancestors in Ha as [Ha Hqp].
      rewrite tree_set_lookup, decide_False by done. by rewrite E, decide_True.
  - intros (q & Hq & -> & Ht). rewrite tree_set_lookup in Ht. rewrite (map_rep_lookup m t) by done.
    destruct (decide (q = p)) as [->|Hne]; [by rewrite decide_True|].
    rewrite decide_False by (intros He; by apply render_inj in He). destruct (t !! q); [done|].
    destruct (decide (q `prefix_of` p)); [|done]. rewrite bool_decide_true; [done|]. apply Exists_exists. exists q.
    by rewrite elem_of_ancestors.
Qed.

(** ** Unique keys *)

Lemma keys_count {K A} `{Countable K} (m : gmap K A) (f : Z -> K) (n : Z) :
  0 <= n -> (forall i j, 0 < i -> 0 < j -> f i = f j -> i = j) -> (forall i, 0 < i <= n -> is_Some (m !! f i)) ->
  n <= Z.of_nat (size m).
Proof.
  intros Hn Hinj Hm.
  assert (Hsub : (list_to_set (f <$> seqZ 1 n) : gset K) ⊆ dom m).
  { intros k. rewrite elem_of_list_to_set, list_elem_of_fmap. intros (i & -> & Hi%elem_of_seqZ).
    apply elem_of_dom, Hm. lia. }
  apply subseteq_size in Hsub. rewrite size_dom, size_list_to_set, length_fmap, length_seqZ in Hsub; [lia|].
  apply NoDup_fmap_2_strong; [|apply NoDup_seqZ]. intros i j Hi%elem_of_seqZ Hj%elem_of_seqZ. apply Hinj; lia.
Qed.

Lemma unique_loop_spec fuel key seq m path :
  unique_loop fuel key seq m = Some path ->
  exists id, seq < id /\ path = key +:+ zero_pad 10 id /\ m !! path = None /\
    forall i, seq < i < id -> is_Some (m !! (key +:+ zero_pad 10 i)).
Proof.
  revert seq. induction fuel as [|fuel IH]; intros seq; [done|]. simpl.
  destruct (decide (is_Some (m !! _))) as [Hs|Hs].
  - intros (id & Hid & -> & Hm & Hall)%IH. exists id. split; [lia|]. split; [done|]. split; [done|].
    intros i Hi. destruct (decide (i = seq + 1)) as [->|]; [done|]. apply Hall. lia.
  - intros [= <-]. exists (seq + 1). split; [lia|]. split; [done|]. split; [by apply eq_None_not_Some|]. lia.
Qed.

Lemma unique_loop_none fuel key seq m :
  unique_loop fuel key seq m = None ->
  forall i, seq < i <= seq + Z.of_nat fuel -> is_Some (m !! (key +:+ zero_pad 10 i)).
Proof.
  revert seq. induction fuel as [|fuel IH]; intros seq; [simpl; lia|]. simpl.
  destruct (decide (is_Some (m !! _))) as [Hs|Hs]; [|done]. intros Hl i Hi.
  destruct (decide (i = seq + 1)) as [->|]; [done|]. apply (IH _ Hl). lia.
Qed.

Lemma pad_key_inj key i j : 0 < i -> 0 < j -> key +:+ zero_pad 10 i = key +:+ zero_pad 10 j -> i = j.
Proof. intros Hi Hj He%append_inv_head. apply zero_pad_inj in He; lia. Qed.

(** The loop ends with the first number that is free, which is at most one more
    than the number of keys. *)
Lemma unique_path_spec key m :
  exists id, 0 < id <= Z.of_nat (size m) + 1 /\ unique_path key m = key +:+ zero_pad 10 id /\ m !! unique_path key m = None /\
    forall i, 0 < i < id -> is_Some (m !! (key +:+ zero_pad 10 i)).
Proof.
  unfold unique_path. destruct (unique_loop _ _ _ _) as [path|] eqn:E.
  - apply unique_loop_spec in E as (id & Hid & Hp & Hm & Hall). exists id. simpl. split; [|done]. split; [done|].
    pose proof (keys_count m (fun i => key +:+ zero_pad 10 i) (id - 1) ltac:(lia) (pad_key_inj key)) as Hc.
    cut (id - 1 <= Z.of_nat (size m)); [lia|]. apply Hc. intros i Hi. apply Hall. lia.
  - exfalso. pose proof (unique_loop_none _ _ _ _ E) as Hall.
    pose proof (keys_count m (fun i => key +:+ zero_pad 10 i) (Z.of_nat (S (size m))) ltac:(lia) (pad_key_inj key)) as Hc.
    cut (Z.of_nat (S (size m)) <= Z.of_nat (size m)); [lia|]. apply Hc. intros i Hi. apply Hall. lia.
Qed.

(** ** Reading *)

Lemma getMany_foldl m keys (r : gmap string string) k v :
  (forall k v, r !! k = Some v -> m !! k = Some v) ->
  foldl (fun result key => let path := norm_key key in
    match m !! path with
    | Some v => match result !! path with Some _ => result | None => <[path := v]> result end
    | None => result
    end) r keys !! k = Some v <-> r !! k = Some v \/ (k ∈ norm_key <$> keys /\ m !! k = Some v).
Proof.
  revert r. induction keys as [|key keys IH]; intros r Hr; simpl; [set_solver|].
  assert (Hstep : let r' := match m !! norm_key key with
      | Some v => match r !! norm_key key with Some _ => r | None => <[norm_key key := v]> r end | None => r end in
    forall k v, r' !! k = Some v <-> r !! k = Some v \/ (k = norm_key key /\ m !! k = Some v)).
  { intros r' k0 v0. subst r'. clear IH k v. rename k0 into k, v0 into v. destruct (m !! norm_key key) as [x|] eqn:E; [|naive_solver congruence].
    destruct (r !! norm_key key) as [y|] eqn:E'.
    - pose proof (Hr _ _ E'). naive_solver congruence.
    - rewrite lookup_insert. destruct (decide (norm_key key = k)) as [<-|Hne]; naive_solver congruence. }
  rewrite IH.
  - rewrite (Hstep k v). set_solver.
  - intros k' v' [H|[_ H]]%Hstep; auto.
Qed.

Lemma mem_getMany_spec s t ps k v :
  mem_rep s t -> Forall path_ok ps ->
  mem_getMany (render <$> ps) s !! k = Some v <-> exists p, p ∈ ps /\ k = render p /\ t !! p = Some v.
Proof.
  intros Hr Hps. unfold mem_getMany. rewrite getMany_foldl by (intros ? ? H; by rewrite lookup_empty in H).
  rewrite lookup_empty. rewrite Forall_forall in Hps. split.
  - intros [?|[Hk Hm]]; [done|]. rewrite <- list_fmap_compose, list_elem_of_fmap in Hk. destruct Hk as (p & -> & Hp).
    simpl in *. rewrite norm_key_render in * by auto. rewrite (map_rep_lookup _ t) in Hm by auto. eauto.
  - intros (p & Hp & -> & Ht). right. rewrite (map_rep_lookup _ t) by auto. split; [|done].
    rewrite <- list_fmap_compose, list_elem_of_fmap. exists p. simpl. by rewrite norm_key_render by auto.
Qed.

Lemma child_name_render p q : path_ok p -> path_ok q -> child_name (render p +:+ "/") (render q) = match relative p q with Some [n] => Some n | _ => None end.
Proof.
  intros Hp Hq. unfold child_name. destruct (starts_with _ _) eqn:E.
  - apply starts_with_render in E as ([|n r] & Hr & ->); [done| |done|done].
    rewrite (proj2 (relative_spec _ _ (n :: r)) eq_refl). apply path_ok_app in Hq as [_ Hq].
    inversion Hq as [|? ? [Hn1 Hn2] Hr']; subst.
    rewrite render_app. cbn [render]. change (String SLASH (n +:+ render r)) with ("/" +:+ (n +:+ render r))%string.
    rewrite <- append_assoc, substr_from_app. destruct (decide _) as [He|_]; [by destruct n|].
    rewrite has_char_app, Hn2. destruct r as [|n' r]; [by rewrite append_nil_r|]. done.
  - destruct (relative p q) as [[|n [|]]|] eqn:E'; try done. apply relative_spec in E' as ->. exfalso.
    apply not_true_iff_false in E. apply E. apply starts_with_render; [done|done|]. by exists [n].
Qed.

(** A key of the map that is a child of [p]. *)
Lemma child_name_key m t p k n : map_rep m t -> path_ok p -> is_Some (m !! k) ->
  child_name (render p +:+ "/") k = Some n <-> k = render (p ++ [n]) /\ is_Some (t !! (p ++ [n])).
Proof.
  intros Hr Hp [v Hv]. destruct (map_rep_key m t k v Hr Hv) as (q & Hq & -> & Ht). rewrite child_name_render by done. split.
  - destruct (relative p q) as [[|n' [|]]|] eqn:E; try done. intros [= <-]. apply relative_spec in E as ->. by rewrite Ht.
  - intros [He [x Hx]]. apply render_inj in He; [|done|by apply (proj1 (proj1 Hr)); eexists]. subst q.
    by rewrite (proj2 (relative_spec p _ [n]) eq_refl).
Qed.

Lemma omap_sorted p l : StronglySorted String.le l -> StronglySorted String.le (omap (child_name (render p +:+ "/")) l).
Proof.
  induction 1 as [|k l Hl IH Hk]; simpl; [constructor|]. destruct (child_name _ k) as [n|] eqn:E; [|done].
  constructor; [done|]. rewrite Forall_forall in *. intros n' (k' & Hk' & E')%list_elem_of_omap. specialize (Hk k' Hk').
  assert (Hc : forall k n, child_name (render p +:+ "/") k = Some n -> k = (render p +:+ "/") +:+ n).
  { clear. intros k n. unfold child_name. destruct (starts_with _ _) eqn:E; [|done]. apply starts_with_spec in E as [r ->].
    rewrite substr_from_app. repeat case_match; congruence. }
  apply Hc in E as ->, E' as ->. by apply le_append in Hk.
Qed.

Lemma mem_getChildren_spec s t p : mem_rep s t -> path_ok p ->
  omap (child_name (render p +:+ "/")) (sorted_keys (km_kvMap s)) = sorted_keys (tree_children p t).
Proof.
  intros Hr Hp. apply sorted_keys_unique; [apply omap_sorted, sorted_keys_sorted| |].
  - pose proof (sorted_keys_NoDup (km_kvMap s)) as Hn. pose proof (fun k => proj1 (sorted_keys_elem (km_kvMap s) k)) as Hk.
    induction Hn as [|k l Hkl Hn IH]; simpl; [constructor|]. specialize (IH (fun k Hin => Hk k (list_elem_of_further _ _ _ Hin))).
    destruct (child_name _ k) as [n|] eqn:E; [|done]. constructor; [|done]. intros (k' & Hk' & E')%list_elem_of_omap.
    apply (child_name_key (km_kvMap s) t) in E as [-> _]; [|done|done|by apply Hk; left].
    apply (child_name_key (km_kvMap s) t) in E' as [-> _]; [done|done|done|by apply Hk; right].
  - intros n. rewrite tree_children_lookup, list_elem_of_omap. split.
    + intros (k & Hk%sorted_keys_elem & E). by apply (child_name_key (km_kvMap s) t) in E as [_ ?].
    + intros [v Hv]. assert (Hok : path_ok (p ++ [n])) by (apply (proj1 (proj1 Hr)); by eexists).
      exists (render (p ++ [n])). rewrite sorted_keys_elem, (map_rep_lookup _ t) by done. split; [by eexists|].
      apply (child_name_key (km_kvMap s) t); [done|done|rewrite (map_rep_lookup _ t) by done; by eexists|]. split; [done|by eexists].
Qed.

Lemma mem_getChildrenValues_spec s t p : mem_rep s t -> path_ok p ->
  foldl (fun retV fullKey =>
    match child_name (render p +:+ "/") fullKey with
    | Some theChild =>
        match retV !! theChild with
        | Some _ => retV
        | None => <[theChild := default ""%string (km_kvMap s !! fullKey)]> retV
        end
    | None => retV
    end) ∅ (sorted_keys (km_kvMap s)) = tree_children p t.
Proof.
  intros Hr Hp.
  set (f := fun (retV : gmap string string) fullKey => _).
  assert (Hf : forall l (r : gmap string string), (forall k, k ∈ l -> is_Some (km_kvMap s !! k)) ->
    (forall n v, r !! n = Some v -> t !! (p ++ [n]) = Some v) ->
    forall n v, foldl f r l !! n = Some v <-> r !! n = Some v \/ (render (p ++ [n]) ∈ l /\ t !! (p ++ [n]) = Some v)).
  { induction l as [|k l IH]; intros r Hk Hrt n v; simpl; [set_solver|].
    assert (Hstep : forall n v, f r k !! n = Some v <-> r !! n = Some v \/ (render (p ++ [n]) = k /\ t !! (p ++ [n]) = Some v)).
    { intros n' v'. unfold f. pose proof (Hk k ltac:(left)) as Hks.
      destruct (child_name _ k) as [c|] eqn:E.
      - apply (child_name_key (km_kvMap s) t) in E as [-> [x Hx]]; [|done..].
        rewrite (map_rep_lookup _ t), Hx by (done || by apply (proj1 (proj1 Hr)); eexists). simpl.
        assert (Hinj : forall c' y, t !! (p ++ [c']) = Some y -> render (p ++ [c']) = render (p ++ [c]) -> c' = c).
        { intros c' y Hy He. apply render_inj in He; [by simplify_list_eq|by apply (proj1 (proj1 Hr)); eexists..]. }
        destruct (r !! c) as [y|] eqn:Ec.
        + split; [by left|]. intros [?|[He Ht]]; [done|]. pose proof (Hinj _ _ Ht He) as ->. pose proof (Hrt _ _ Ec). congruence.
        + rewrite lookup_insert. destruct (decide (c = n')) as [<-|Hne]; split; intros H; [right; split; congruence| | by left |].
          * destruct H as [?|[_ ?]]; congruence.
          * destruct H as [?|[He Ht]]; [done|]. by rewrite (Hinj _ _ Ht He) in Hne.
      - split; [by left|]. intros [?|[<- Ht]]; [done|]. exfalso.
        rewrite (proj2 (child_name_key (km_kvMap s) t p _ n' Hr Hp Hks)) in E; [done|]. split; [done|by eexists]. }
    rewrite IH; [rewrite Hstep; set_solver|set_solver|]. intros n' v' [?|[_ ?]]%Hstep; auto. }
  apply map_eq. intros n. apply option_eq. intros v. rewrite tree_children_lookup, Hf.
  - rewrite lookup_empty. split; [by intros [?|[_ ?]]|]. intros Ht. right. split; [|done].
    assert (path_ok (p ++ [n])) by (apply (proj1 (proj1 Hr)); by eexists).
    rewrite sorted_keys_elem, (map_rep_lookup _ t) by done. by eexists.
  - intros k Hk. by apply sorted_keys_elem.
  - intros n' v'. by rewrite lookup_empty.
Qed.

(** ** Deleting *)

Lemma below_spec k pfx : below pfx k = true <-> exists r, r <> ""%string /\ k = pfx +:+ r.
Proof.
  unfold below. rewrite andb_true_iff, Nat.ltb_lt, bool_decide_eq_true. split.
  - intros [Hl Hs]. assert (Hst : starts_with k pfx = true).
    { rewrite starts_with_spec. clear Hl. rewrite <- Hs. unfold substr_to. generalize (String.length pfx) as i. clear.
      induction k as [|c k IH]; intros [|i]; simpl; [by exists ""%string|by exists ""%string|by eexists|].
      destruct (IH i) as [r Hr]. exists r. by rewrite Hr at 1. }
    apply starts_with_spec in Hst as [r ->]. exists r. split; [|done]. intros ->. rewrite append_nil_r in Hl. lia.
  - intros (r & Hr & ->). rewrite length_append, substr_to_app. split; [|done]. destruct r; [done|simpl; lia].
Qed.

Lemma below_render p q : path_ok p -> path_ok q -> below (render p +:+ "/") (render q) = true <-> exists r, r <> [] /\ q = p ++ r.
Proof.
  intros Hp Hq. rewrite below_spec, <- starts_with_render, starts_with_spec by done. split.
  - intros (r & _ & ->). by eexists.
  - intros [r Hr]. exists r. split; [|done]. intros ->. rewrite append_nil_r in Hr.
    rewrite <- (append_nil_r "/") in Hr. apply render_prefix_aux in Hr as (q' & Hne & -> & He); [|done..].
    apply path_ok_app in Hq as [_ Hq]. by apply (render_nonslash q').
Qed.

Lemma mem_delete_rep m t p : map_rep m t -> path_ok p ->
  map_rep (filter (fun e => below (render p +:+ "/") e.1 = false) (delete (render p) m)) (tree_delete p t).
Proof.
  intros Hr Hp. split; [apply tree_ok_delete, Hr|]. intros k v. rewrite map_lookup_filter_Some, lookup_delete_Some. simpl. split.
  - intros [[Hne Hk] Hb]. destruct (map_rep_key m t k v Hr Hk) as (q & Hq & -> & Ht). exists q. split; [done|]. split; [done|].
    rewrite tree_delete_lookup, decide_False; [done|]. intros [r ->]. apply not_true_iff_false in Hb. apply Hb.
    apply below_render; [done|done|]. exists r. split; [|done]. intros ->. by rewrite app_nil_r in Hne.
  - intros (q & Hq & -> & Ht). rewrite tree_delete_lookup in Ht. destruct (decide _) as [|Hn]; [done|].
    rewrite (map_rep_lookup m t) by done. split; [split; [|done]|].
    + intros He. apply Hn. apply render_inj in He as ->; done.
    + apply not_true_iff_false. intros (r & _ & ->)%below_render; [|done|done]. apply Hn. by eexists.
Qed.

(** ** The instance *)

Lemma unique_name_ok n i : has_char SLASH n = false -> 0 < i -> name_ok (n +:+ zero_pad 10 i).
Proof.
  intros Hn Hi. destruct (zero_pad_name 10 i ltac:(lia)) as [Hz1 Hz2].
  split; [|by rewrite has_char_app, Hn]. intros He. destruct n; [by destruct (zero_pad 10 i)|done].
Qed.

Lemma mem_sim_unique s t p n v : mem_rep s t -> path_ok p -> has_char SLASH n = false ->
  let o := OpCreateUnique p n v in
  exists t', tree_step (km_readOnly s) t o (kv_exec o s).2 t' /\ mem_rep (kv_exec o s).1 t' /\
             km_readOnly (kv_exec o s).1 = km_readOnly s.
Proof.
  intros Hr Hp Hn. simpl. unfold mem_create. destruct (km_readOnly s) eqn:Ero; simpl; [by exists t; split; [apply ts_readonly|]|].
  destruct (unique_path_spec (render (p ++ [n])) (km_kvMap s)) as (id & Hid & Hpath & Hf & Hall).
  assert (Hkey : forall i, render (p ++ [n]) +:+ zero_pad 10 i = render (p ++ [n +:+ zero_pad 10 i])).
  { intros i. by rewrite !render_snoc, append_assoc. }
  assert (Hok : forall i, 0 < i -> path_ok (p ++ [n +:+ zero_pad 10 i])).
  { intros i Hi. apply path_ok_snoc. split; [done|]. by apply unique_name_ok. }
  rewrite Hpath, Hkey in *. pose proof (Hok id ltac:(lia)) as Hoki.
  rewrite (map_rep_lookup _ t) in Hf by done. rewrite (mem_exists_render s t), Hf by done. simpl.
  exists (tree_set (p ++ [n +:+ zero_pad 10 id]) v t). split; [|split; [by apply create_parents_set|done]].
  constructor; [done|lia|done|]. intros Hs.
  cut (id - 1 <= Z.of_nat (size t)); [lia|]. apply (keys_count t (fun i => p ++ [n +:+ zero_pad 10 i])); [lia| |].
  - intros i j Hi Hj [_ He]%app_inj_tail. apply append_inv_head, zero_pad_inj in He; lia.
  - intros i Hi. rewrite <- (map_rep_lookup (km_kvMap s) t), <- Hkey by (done || apply Hok; lia). apply Hall. lia.
Qed.

Lemma mem_sim s t o : mem_rep s t -> op_ok o ->
  exists t', tree_step (km_readOnly s) t o (kv_exec o s).2 t' /\ mem_rep (kv_exec o s).1 t' /\
             km_readOnly (kv_exec o s).1 = km_readOnly s.
Proof.
  intros Hr Ho. destruct o as [p v|p n v|p v|p|p v b|ps|p|p|p]; simpl in *.
  - unfold mem_create. destruct (km_readOnly s) eqn:Ero; simpl; [by exists t; split; [apply ts_readonly|]|].
    rewrite norm_key_render, (mem_exists_render s t) by done. destruct (t !! p) as [x|] eqn:E; simpl.
    + exists t. split; [by econstructor|done].
    + exists (tree_set p v t). split; [by constructor|]. split; [by apply create_parents_set|done].
  - destruct Ho. by apply mem_sim_unique.
  - unfold mem_set. destruct (km_readOnly s) eqn:Ero; simpl; [by exists t; split; [apply ts_readonly|]|].
    rewrite norm_key_render by done. exists (tree_set p v t). split; [by constructor|]. split; [by apply create_parents_set|done].
  - exists t. rewrite (mem_exists_render s t) by done. split; [by constructor|done].
  - exists t. unfold mem_get. rewrite norm_key_render, (mem_exists_render s t), (map_rep_lookup _ t) by done.
    destruct (t !! p) as [x|] eqn:E; simpl; [split; [by constructor|done]|]. destruct b; (split; [by constructor|done]).
  - exists t. split; [constructor|done]. intros k v. by apply mem_getMany_spec.
  - exists t. unfold mem_getChildren. rewrite norm_key_render, (mem_exists_render s t) by done.
    destruct (t !! p) as [x|] eqn:E; simpl; [|split; [by constructor|done]].
    rewrite (mem_getChildren_spec s t) by done. split; [|done]. constructor. by rewrite E.
  - exists t. unfold mem_getChildrenValues. rewrite norm_key_render, (mem_exists_render s t) by done.
    destruct (t !! p) as [x|] eqn:E; simpl; [|split; [by constructor|done]].
    rewrite (mem_getChildrenValues_spec s t) by done. split; [|done]. constructor. by rewrite E.
  - unfold mem_deleteKey. destruct (km_readOnly s) eqn:Ero; simpl; [by exists t; split; [apply ts_readonly|]|].
    rewrite norm_key_render, (map_rep_lookup _ t) by done. destruct (t !! p) as [x|] eqn:E; simpl.
    + exists (tree_delete p t). split; [constructor; [done|by rewrite E]|]. split; [by apply mem_delete_rep|done].
    + exists t. split; [by constructor|done].
Qed.

#[global] Instance mem_spec : KvSpec KvMem := {
  kv_readOnly := km_readOnly;
  kv_rep := mem_rep;
  kv_rep_ok s t := fun H => proj1 H;
  kv_sim := mem_sim;
}.
