(* ===== verification/KvMemThms.v ===== *)
(** * css: properties of the store in memory

    Sequences of operations refine those of the abstract tree, the keys stay
    well-formed and complete, and a dump restores the store. *)

From Stdlib Require Import Ascii String.
From S2P Require Import Prelude.
From S2P Require Import StdString.
From S2P Require Import CssPath.
From S2P Require Import KvInterface.
From S2P Require Import PropertyTree.
From S2P Require Import KvInterfaceImplMem.

Implicit Types (m : gmap string string) (t : Tree) (p q : list string) (s : KvMem).

(** ** Sequences of operations *)

(** The results of a sequence of operations, and the store they leave. *)
Fixpoint run_ops {St} `{KvInterface St} (ops : list kv_op) (s : St) : St * list kv_res :=
  match ops with
  | [] => (s, [])
  | o :: ops' => let '(s1, r) := kv_exec o s in let '(s2, rs) := run_ops ops' s1 in (s2, r :: rs)
  end.

Inductive tree_run (readOnly : bool) : Tree -> list kv_op -> list kv_res -> Tree -> Prop :=
| tr_nil t : tree_run readOnly t [] [] t
| tr_cons t o r t1 ops rs t2 : tree_step readOnly t o r t1 -> tree_run readOnly t1 ops rs t2 ->
    tree_run readOnly t (o :: ops) (r :: rs) t2.

(** Whatever implements the interface refines the tree on every sequence. *)
Lemma run_ops_sim {St} `{KvSpec St} ops : forall (s : St) t, kv_rep s t -> Forall op_ok ops ->
  exists t', tree_run (kv_readOnly s) t ops (run_ops ops s).2 t' /\ kv_rep (run_ops ops s).1 t' /\
             kv_readOnly (run_ops ops s).1 = kv_readOnly s.
Proof.
  induction ops as [|o ops IH]; intros s t Hr Ho; simpl; [exists t; by repeat constructor|].
  inversion Ho as [|? ? Ho1 Ho2]; subst. destruct (kv_sim s t o Hr Ho1) as (t1 & Hstep & Hr1 & Hro1).
  destruct (kv_exec o s) as [s1 r]. simpl in *. destruct (IH s1 t1 Hr1 Ho2) as (t2 & Hrun & Hr2 & Hro2).
  destruct (run_ops ops s1) as [s2 rs]. simpl in *. exists t2. rewrite Hro1 in *. split; [by econstructor|]. by split; [|congruence].
Qed.

Lemma mem_rep_empty ro : mem_rep (mkKvMem ∅ ro) ∅.
Proof.
  split; [split; intros ? *; rewrite lookup_empty; by intros [? [=]]|]. intros k v. simpl. rewrite lookup_empty.
  split; [done|]. intros (p & _ & _ & Ht). by rewrite lookup_empty in Ht.
Qed.

(** C21. The store of [KvInterfaceImplMem], a flat map from strings to strings that
    finds parents by cutting keys at slashes and descendants by comparing
    prefixes, implements the hierarchical store that [KvInterface.h] describes:
    for every sequence of operations on well-formed keys, starting from an empty
    store (read-only or not), the results, errors included, are those of a tree
    in which setting a path creates its missing ancestors with empty values,
    deleting one removes its whole subtree, and the children of a path are listed
    in order; a unique key is one that was free. *)
Theorem store_refines_tree (ro : bool) (ops : list kv_op) :
  Forall op_ok ops ->
  exists t, tree_run ro ∅ ops (run_ops ops (mkKvMem ∅ ro)).2 t /\
    forall p, path_ok p -> km_kvMap (run_ops ops (mkKvMem ∅ ro)).1 !! render p = t !! p.
Proof.
  intros Ho. destruct (run_ops_sim (H0 := mem_spec) ops (mkKvMem ∅ ro) ∅ (mem_rep_empty ro) Ho) as (t & Hrun & Hr & _).
  exists t. split; [done|]. intros p Hp. by apply map_rep_lookup.
Qed.

Definition demo_ops : list kv_op :=
  [OpSet ["DBS"; "LSST"; "TABLES"] "x"; OpCreateUnique ["PARTITIONING"] "_" ""; OpCreateUnique ["PARTITIONING"] "_" "";
   OpCreate ["DBS"] "no"; OpGetChildren []; OpGetChildren ["PARTITIONING"]; OpDeleteKey ["DBS"]; OpExists ["DBS"; "LSST"]].

Example demo_ops_results :
  (run_ops demo_ops (mkKvMem ∅ false)).2 =
  [RUnit; RString "/PARTITIONING/_0000000001"; RString "/PARTITIONING/_0000000002"; RError (KeyExistsError "/DBS");
   RList ["DBS"; "PARTITIONING"]; RList ["_0000000001"; "_0000000002"]; RUnit; RBool false].
Proof. vm_compute. reflexivity. Qed.

Lemma store_refines_tree_witness :
  exists t, tree_run false ∅ demo_ops (run_ops demo_ops (mkKvMem ∅ false)).2 t /\
    forall p, path_ok p -> km_kvMap (run_ops demo_ops (mkKvMem ∅ false)).1 !! render p = t !! p.
Proof. apply store_refines_tree. unfold demo_ops. repeat (constructor; [vm_compute; repeat constructor; try discriminate|]). constructor. Defined.



(** ** Dump and restore *)

Section Dump.
Context `{PropertyTreeLaws}.

(** Setting a list of paths. *)
Definition set_all (f : list string -> string) (qs : list (list string)) t : Tree :=
  foldl (fun t q => tree_set q (f q) t) t qs.

Lemma set_all_lookup f qs t q :
  set_all f qs t !! q =
  if decide (q ∈ qs) then Some (f q)
  else match t !! q with Some x => Some x | None => if decide (Exists (prefix q) qs) then Some ""%string else None end.
Proof.
  unfold set_all. revert t. induction qs as [|q0 qs IH]; intros t; simpl; [by destruct (t !! q)|].
  rewrite IH, tree_set_lookup. destruct (decide (q ∈ qs)) as [Hin|Hin].
  - by rewrite decide_True by by right.
  - destruct (decide (q = q0)) as [->|Hne]; [by rewrite decide_True by left|].
    rewrite (decide_False (P := q ∈ q0 :: qs)) by set_solver. destruct (t !! q); [done|].
    destruct (decide (q `prefix_of` q0)) as [Hp|Hp].
    + by rewrite decide_True by by left.
    + apply decide_ext. rewrite Exists_cons. tauto.
Qed.

Lemma init_sets f qs : forall s t, mem_rep s t -> km_readOnly s = false -> Forall path_ok qs ->
  exists s', foldl (fun acc (e : string * pt_node) => match acc with
      | inl err => inl err
      | inr s' => let '(s'', r) := mem_set e.1 (pt_data e.2) s' in match r with inl err => inl err | inr _ => inr s'' end
      end) (inr s : CssError + KvMem) (prod_map id pt_leaf <$> ((fun q => (render q, f q)) <$> qs)) = inr s' /\
    mem_rep s' (set_all f qs t).
Proof.
  induction qs as [|q qs IH]; intros s t Hr Hro Hq; simpl; [by exists s|]. inversion Hq as [|? ? Hq1 Hq2]; subst.
  unfold mem_set. rewrite Hro, norm_key_render by done.
  destruct (IH (km_set_map (<[render q := f q]> (create_parents (render q) (km_kvMap s))) s) (tree_set q (f q) t)) as (s' & Hs' & Hr');
    [by apply create_parents_set|done|done|]. by exists s'.
Qed.

(** The keys that a full dump writes are those of the paths below the root. *)
Lemma dump_keys s t : mem_rep s t -> exists qs : list (list string),
  (fun k => (k, default ""%string (km_kvMap s !! k))) <$> filter (fun k => starts_with k "/" = true) (sorted_keys (km_kvMap s)) =
    (fun q => (render q, default ""%string (t !! q))) <$> qs /\
  forall q, q ∈ qs <-> q <> [] /\ is_Some (t !! q).
Proof.
  intros Hr.
  assert (Hl : forall l : list string, (forall k, k ∈ l -> is_Some (km_kvMap s !! k)) -> exists qs : list (list string),
    (fun k => (k, default ""%string (km_kvMap s !! k))) <$> filter (fun k => starts_with k "/" = true) l =
      (fun q => (render q, default ""%string (t !! q))) <$> qs /\
    forall q, q ∈ qs <-> q <> [] /\ path_ok q /\ render q ∈ l).
  { induction l as [|k l IH]; intros Hk; [exists []; set_solver|]. destruct IH as (qs & Heq & Hqs); [set_solver|].
    destruct (Hk k ltac:(left)) as [v Hv]. destruct (map_rep_key _ t _ _ Hr Hv) as (q & Hq & -> & Ht).
    rewrite filter_cons. destruct (decide (starts_with (render q) "/" = true)) as [Hs|Hs].
    - exists (q :: qs). split; [by rewrite !fmap_cons, Heq, Hv, Ht|]. intros q'. rewrite !elem_of_cons, Hqs.
      apply (starts_with_render [] q) in Hs as (r & Hne & ->); [|constructor|done]. simpl in *.
      split; [intros [->|?]; tauto|]. intros (? & ? & [He|?]); [left; by apply render_inj|tauto].
    - exists qs. split; [done|]. intros q'. rewrite elem_of_cons, Hqs. split; [tauto|].
      intros (? & ? & [He|?]); [|tauto]. apply render_inj in He as ->; [|done|done]. exfalso. apply Hs.
      apply (starts_with_render [] q); [constructor|done|]. by exists q. }
  destruct (Hl (sorted_keys (km_kvMap s))) as (qs & Heq & Hqs); [intros k; by rewrite sorted_keys_elem|].
  exists qs. split; [done|]. intros q. rewrite Hqs, sorted_keys_elem. split.
  - intros (Hne & Hok & Hs). by rewrite <- (map_rep_lookup (km_kvMap s)).
  - intros (Hne & Hs). pose proof (proj1 (proj1 Hr) q Hs). by rewrite (map_rep_lookup _ t).
Qed.

(** The dump of a store, read by the constructor from a stream, gives back every
    key and value below the root: [dumpKV] followed by [createFromData] copies
    the store, as [KvInterface.h] says. Only the value of the root key itself is
    not written: it is restored as the empty value that a parent gets. *)
Theorem dump_restore (s : KvMem) (t : Tree) (readOnly : bool) :
  mem_rep s t ->
  (forall k v, km_kvMap s !! k = Some v -> printable k = true /\ printable v = true) ->
  exists text s', mem_dump "" s = Some text /\ mem_from_stream (Some text) readOnly = inr s' /\ km_readOnly s' = readOnly /\
    (forall k, k <> ""%string -> km_kvMap s' !! k = km_kvMap s !! k) /\
    (forall v, km_kvMap s' !! ""%string = Some v <-> v = ""%string /\ exists k, k <> ""%string /\ is_Some (km_kvMap s !! k)).
Proof.
  intros Hr Hpr. destruct (dump_keys s t Hr) as (qs & Hl & Hqs).
  assert (Hok : Forall path_ok qs).
  { rewrite Forall_forall. intros q [_ Hq]%Hqs. by apply (proj1 (proj1 Hr)). }
  unfold mem_dump. change (norm_key "" +:+ "/") with "/"%string. rewrite Hl.
  destruct (json_roundtrip ((fun q => (render q, default ""%string (t !! q))) <$> qs) true) as (text & -> & _ & Hread & _).
  { rewrite Forall_fmap, Forall_forall in *. intros q [Hne [v Hv]]%Hqs. simpl. rewrite Hv. simpl.
    destruct (Hpr (render q) v) as [??]; [rewrite (map_rep_lookup _ t) by (done || apply (proj1 (proj1 Hr)); by eexists); done|].
    split; [by destruct q|]. done. }
  destruct (init_sets (fun q => default ""%string (t !! q)) qs (mkKvMem ∅ false) ∅ (mem_rep_empty false) eq_refl Hok) as (s' & Hs' & Hr').
  exists text, (mkKvMem (km_kvMap s') readOnly). split; [done|].
  split; [unfold mem_from_stream, mem_init; by rewrite Hread, Hs'|]. split; [done|]. simpl.
  assert (Hlook : forall q, q <> [] -> set_all (fun q => default ""%string (t !! q)) qs ∅ !! q = t !! q).
  { intros q Hne. rewrite set_all_lookup, lookup_empty. destruct (decide (q ∈ qs)) as [[_ [v Hv]]%Hqs|Hn]; [by rewrite Hv|].
    rewrite decide_False; [destruct (t !! q) eqn:E; [|done]; exfalso; apply Hn, Hqs; by rewrite E|].
    intros (q' & Hq' & [r ->])%Exists_exists. apply Hn, Hqs. split; [done|]. apply (tree_ok_prefix t q r); [apply Hr|].
    by apply Hqs in Hq' as [_ ?]. }
  split.
  - intros k Hk. apply option_eq. intros v. rewrite (proj2 Hr), (proj2 Hr').
    split; intros (q & Hq & -> & Ht); exists q; (split; [done|]; split; [done|]); [rewrite <- Hlook|rewrite Hlook]; try done; by intros ->.
  - intros v. change ""%string with (render []). rewrite (map_rep_lookup _ _ [] Hr') by constructor.
    rewrite set_all_lookup, lookup_empty. rewrite decide_False by by intros [? _]%Hqs. simpl. split.
    + destruct (decide _) as [Hex|]; [|done]. intros [= <-]. split; [done|]. apply Exists_exists in Hex as (q & [Hne Hs]%Hqs & _).
      exists (render q). split; [by destruct q|]. by rewrite (map_rep_lookup _ t) by (done || by apply (proj1 (proj1 Hr))).
    + intros (-> & k & Hk & [x Hx]). destruct (map_rep_key _ t _ _ Hr Hx) as (q & Hq & -> & Ht). rewrite decide_True; [done|].
      apply Exists_exists. exists q. split; [|by exists q]. apply Hqs. split; [by intros ->|by eexists].
Qed.
End Dump.

#[local] Existing Instances FlatJson.flat_json FlatJson.flat_json_laws.

Lemma dump_restore_witness :
  let s := (run_ops demo_ops (mkKvMem ∅ false)).1 in
  exists text s', mem_dump "" s = Some text /\ mem_from_stream (Some text) true = inr s' /\ km_readOnly s' = true /\
    (forall k, k <> ""%string -> km_kvMap s' !! k = km_kvMap s !! k) /\
    (forall v, km_kvMap s' !! ""%string = Some v <-> v = ""%string /\ exists k, k <> ""%string /\ is_Some (km_kvMap s !! k)).
Proof.
  cbv zeta.
  assert (Hops : Forall op_ok demo_ops).
  { unfold demo_ops. repeat (constructor; [vm_compute; repeat constructor; try discriminate|]). constructor. }
  destruct (run_ops_sim (H0 := mem_spec) demo_ops (mkKvMem ∅ false) ∅ (mem_rep_empty false) Hops) as (t & _ & Hr & _).
  apply (dump_restore _ t); [exact Hr|].
  intros k v Hk.
  assert (Hall : map_Forall (fun k v => printable k = true /\ printable v = true) (km_kvMap (run_ops demo_ops (mkKvMem ∅ false)).1)).
  { refine (bool_decide_eq_true_1 (map_Forall _ _) _). vm_compute. reflexivity. }
  exact (Hall k v Hk).
Defined.
