(* ===== verification/StdFloat.v ===== *)
(** * Floating-point numbers as text

    [std::to_string(double)], which prints six decimals as [printf("%f")] does,
    and [std::stod], on the executable doubles of [Double.v]. *)

From Stdlib Require Import Ascii String SpecFloat.
From S2P Require Import Prelude.
From S2P Require Import Double.
From S2P Require Import StdString.
From S2P Require Import CssPath.

Local Open Scope Z_scope.

Implicit Types (s : string) (d : double).

Definition d_sign (neg : bool) s : string := if neg then String "-" s else s.

(** The nearest integer of [a / b], ties to even. *)
Definition div_round (a b : Z) : Z :=
  let q := a / b in
  let r := a mod b in
  if 2 * r <? b then q else if b <? 2 * r then q + 1 else if Z.even q then q else q + 1.

(** The nearest integer of [m * 2 ^ e * 10 ^ 6]. *)
Definition millionths (m : positive) (e : Z) : Z :=
  if 0 <=? e then Zpos m * 2 ^ e * 1000000 else div_round (Zpos m * 1000000) (2 ^ (- e)).

(** [std::to_string(double)] *)
Definition to_string_double d : string :=
  match d with
  | S754_zero neg => d_sign neg "0.000000"
  | S754_infinity neg => d_sign neg "inf"
  | S754_nan => "nan"
  | S754_finite neg m e =>
      let n := millionths m e in d_sign neg (show_nat (n / 1000000) +:+ "." +:+ zero_pad 6 (n mod 1000000))
  end.

(** [a == 0.0] *)
Definition d_is_zero d : bool := match d with S754_zero _ => true | _ => false end.

(** ** [std::stod] *)

Definition lower (a : ascii) : ascii :=
  if (65 <=? code a) && (code a <=? 90) then ascii_of_N (Z.to_N (code a + 32)) else a.
Fixpoint lower_string s : string := match s with EmptyString => EmptyString | String a s' => String (lower a) (lower_string s') end.

Definition hex_value (a : ascii) : option Z :=
  let c := code (lower a) in
  if isdigit a then Some (digit_value a) else if (97 <=? c) && (c <=? 102) then Some (c - 87) else None.
Definition dec_value (a : ascii) : option Z := if isdigit a then Some (digit_value a) else None.

(** The longest prefix of digits: the number read so far with them, how many
    they are, the rest. *)
Fixpoint read_base (val : ascii -> option Z) (base acc : Z) (n : nat) s : Z * nat * string :=
  match s with
  | EmptyString => (acc, n, s)
  | String a s' =>
      match val a with
      | Some v => read_base val base (base * acc + v) (S n) s'
      | None => (acc, n, s)
      end
  end.

(** Digits with an optional point: the digits as one number, the number of
    digits after the point, the rest; [None] without a digit. *)
Definition read_mantissa (val : ascii -> option Z) (base : Z) s : option (Z * nat * string) :=
  let '(a, i, s1) := read_base val base 0 O s in
  let '(b, j, s2) :=
    match s1 with
    | String c s' => if Ascii.eqb c "." then read_base val base a O s' else (a, O, s1)
    | EmptyString => (a, O, s1)
    end in
  if (i + j =? 0)%nat then None else Some (b, j, s2).

(** An optional exponent after the letter [c]. *)
Definition read_exponent (c : ascii) s : Z :=
  match s with
  | String a s' =>
      if Ascii.eqb (lower a) c then
        let '(neg, body) := read_sign s' in
        if starts_digit body then let v := (read_digits 0 body).1 in if neg then - v else v else 0
      else 0
  | EmptyString => 0
  end.

(** The double nearest to [n / q]. *)
Definition d_ratio (n q : positive) : double := SFdiv 53 1024 (S754_finite false n 0) (S754_finite false q 0).

(** The double nearest to [n * base ^ e], and whether it is that number. *)
Definition d_scale (n : positive) (base e : Z) : double :=
  if 0 <=? e then d_of_Z (Zpos n * base ^ e) else d_ratio n (Z.to_pos (base ^ (- e))).
Definition d_exact (n : positive) (base e : Z) d : bool :=
  match d with
  | S754_finite _ m x =>
      Zpos n * base ^ Z.max 0 e * 2 ^ Z.max 0 (- x) =? Zpos m * 2 ^ Z.max 0 x * base ^ Z.max 0 (- e)
  | _ => false
  end.
Definition d_subnormal d : bool :=
  match d with S754_zero _ => true | S754_finite _ m x => (Zpos m <? 2 ^ 52) && (x =? -1074) | _ => false end.

(** The number with its sign; [out_of_range] when it overflows, or underflows
    to a subnormal number that differs from it. *)
Definition d_number (neg : bool) (n base e : Z) : outcome double :=
  match n with
  | Zpos n =>
      let d := d_scale n base e in
      match d with
      | S754_infinity _ => Raise OutOfRange
      | _ => if d_subnormal d && negb (d_exact n base e d) then Raise OutOfRange
             else Ret (if neg then SFopp d else d)
      end
  | _ => Ret (S754_zero neg)
  end.

(** [std::stod]: a decimal or hexadecimal number, [inf] or [nan]; what follows
    is ignored. *)
Definition stod s : outcome double :=
  let '(neg, body) := read_sign (skip_space s) in
  let low := lower_string body in
  if starts_with low "inf" then Ret (S754_infinity neg)
  else if starts_with low "nan" then Ret S754_nan
  else
    match (if starts_with low "0x" then read_mantissa hex_value 16 (substr_from 2 body) else None) with
    | Some (n, k, rest) => d_number neg n 2 (read_exponent "p" rest - 4 * Z.of_nat k)
    | None =>
        match read_mantissa dec_value 10 body with
        | Some (n, k, rest) => d_number neg n 10 (read_exponent "e" rest - Z.of_nat k)
        | None => Raise InvalidArgument
        end
    end.

(** ** Sums of doubles that are not negative

    The value of a double in units of the smallest one, and addition as rounding
    of the exact sum to the nearest double: [d_add] is monotone, and adding a
    number that is not negative does not make a sum smaller. *)

Implicit Types (a b c : double) (m : positive) (e S k : Z).

(** [a <= b] and [a == b]; false when one of them is a NaN *)
Definition d_leb a b : bool := SFleb a b.
Definition d_eqb a b : bool := SFeqb a b.
Definition d_isnan a : bool := match a with S754_nan => true | _ => false end.
Definition d_isinf a : bool := match a with S754_infinity _ => true | _ => false end.
Definition d_infinity : double := S754_infinity false.

(** ** Digits *)

Lemma digits_bounds m : 2 ^ (Zpos (digits2_pos m) - 1) <= Zpos m < 2 ^ Zpos (digits2_pos m).
Proof.
  induction m as [m IH|m IH|]; simpl digits2_pos; [| |done].
  all: rewrite Pos2Z.inj_succ; replace (Z.succ (Zpos (digits2_pos m)) - 1) with (Z.succ (Zpos (digits2_pos m) - 1)) by lia;
    rewrite !Z.pow_succ_r by lia; lia.
Qed.

Definition digits (S : Z) : Z := Zdigits2 S.

Lemma digits_unique S (d : Z) : 0 < S -> 2 ^ (d - 1) <= S < 2 ^ d -> digits S = d.
Proof.
  intros HS [H1 H2]. destruct S as [|m|]; try done. unfold digits, Zdigits2. pose proof (digits_bounds m) as [H3 H4].
  assert (0 <= d). { destruct (Z.lt_ge_cases d 0); [|done]. rewrite (Z.pow_neg_r 2 d) in H2 by done. lia. }
  assert (d - 1 < Zpos (digits2_pos m)) by (apply (Z.pow_lt_mono_r_iff 2); lia).
  assert (Zpos (digits2_pos m) - 1 < d) by (apply (Z.pow_lt_mono_r_iff 2); lia). lia.
Qed.

Lemma digits_spec S : 0 < S -> 2 ^ (digits S - 1) <= S < 2 ^ digits S /\ 0 < digits S.
Proof. destruct S as [|m|]; try done. intros _. split; [apply digits_bounds|done]. Qed.

Lemma digits_shift S k : 0 < S -> 0 <= k -> digits (S * 2 ^ k) = digits S + k.
Proof.
  intros HS Hk. destruct (digits_spec S HS) as [[H1 H2] H3]. apply digits_unique; [nia|].
  replace (digits S + k - 1) with (digits S - 1 + k) by lia. rewrite !Z.pow_add_r by lia. nia.
Qed.

Lemma digits_mono S T : 0 < S <= T -> digits S <= digits T.
Proof.
  intros [HS HT]. destruct (digits_spec S HS) as [[H1 _] ?], (digits_spec T ltac:(lia)) as [[_ H2] ?].
  assert (digits S - 1 < digits T); [|lia]. apply (Z.pow_lt_mono_r_iff 2); lia.
Qed.

(** ** Shifting to the right with rounding information *)

(** [mrs] is [M] without its last [j] digits. *)
Definition shifted (j : Z) (M : Z) (mrs : shr_record) : Prop :=
  0 <= j /\ 0 <= M /\ shr_m mrs = M / 2 ^ j /\
  match Z.eq_dec j 0 with
  | left _ => shr_r mrs = false /\ shr_s mrs = false
  | right _ => shr_r mrs = Z.odd (M / 2 ^ (j - 1)) /\ shr_s mrs = negb (M mod 2 ^ (j - 1) =? 0)
  end.

Lemma shr_1_spec M r (s : bool) : 0 <= M -> shr_1 (Build_shr_record M r s) = Build_shr_record (M / 2) (Z.odd M) (r || s).
Proof. rewrite <-Z.div2_div. by destruct M as [|[p|p|]|p]. Qed.

Lemma mod_double M j : 0 <= M -> 1 <= j -> M mod 2 ^ j = M mod 2 ^ (j - 1) + (if Z.odd (M / 2 ^ (j - 1)) then 2 ^ (j - 1) else 0).
Proof.
  intros HM Hj. assert (E : 2 ^ j = 2 ^ (j - 1) * 2). { replace j with (Z.succ (j - 1)) at 1 by lia. rewrite Z.pow_succ_r by lia. lia. }
  assert (0 < 2 ^ (j - 1)) by (apply Z.pow_pos_nonneg; lia). rewrite E, Z.rem_mul_r by lia. f_equal.
  rewrite Zmod_odd. destruct (Z.odd _); lia.
Qed.

Lemma shr_1_shifted j M mrs : shifted j M mrs -> shifted (j + 1) M (shr_1 mrs).
Proof.
  destruct mrs as [m0 r s]. intros (Hj & HM & Hm & Hrs). simpl in Hm, Hrs.
  assert (0 < 2 ^ j) by (apply Z.pow_pos_nonneg; lia).
  assert (Hm0 : 0 <= m0) by (subst; apply Z.div_pos; lia). rewrite shr_1_spec by done. split; [lia|]. split; [done|].
  simpl. split; [subst m0; rewrite Z.pow_add_r, Z.div_div by lia; done|].
  destruct (Z.eq_dec (j + 1) 0); [lia|]. replace (j + 1 - 1) with j by lia. split; [by subst|].
  destruct (Z.eq_dec j 0) as [->|Hj0]; [destruct Hrs as [-> ->]; simpl; by rewrite Z.mod_1_r|].
  destruct Hrs as [-> ->]. rewrite (mod_double M j) by lia. assert (0 < 2 ^ (j - 1)) by (apply Z.pow_pos_nonneg; lia).
  pose proof (Z.mod_pos_bound M (2 ^ (j - 1)) ltac:(lia)). destruct (Z.odd _); simpl.
  - symmetry. apply negb_true_iff, Z.eqb_neq. lia.
  - by rewrite Z.add_0_r.
Qed.

Lemma iter_pos_shifted p : forall j M mrs, shifted j M mrs -> shifted (j + Zpos p) M (SpecFloat.iter_pos shr_1 p mrs).
Proof.
  induction p as [p IH|p IH|]; intros j M mrs H; simpl; [| |by apply shr_1_shifted].
  - replace (j + Zpos p~1) with (j + 1 + Zpos p + Zpos p) by lia. by apply IH, IH, shr_1_shifted.
  - replace (j + Zpos p~0) with (j + Zpos p + Zpos p) by lia. by apply IH, IH.
Qed.

(** Rounding to a multiple of [2 ^ k] *)
Definition rounded (S k : Z) : Z := div_round S (2 ^ k).

Lemma rounded_shifted j M mrs : shifted j M mrs -> round_nearest_even (shr_m mrs) (loc_of_shr_record mrs) = rounded M j.
Proof.
  destruct mrs as [m0 r s]. intros (Hj & HM & Hm & Hrs). simpl in Hm, Hrs. unfold rounded, div_round.
  destruct (Z.eq_dec j 0) as [->|Hj0].
  { destruct Hrs as [-> ->]. simpl. rewrite Hm. simpl. by rewrite Z.mod_1_r. }
  destruct Hrs as [-> ->]. rewrite (mod_double M j) by lia.
  assert (E : 2 ^ j = 2 * 2 ^ (j - 1)). { replace j with (Z.succ (j - 1)) at 1 by lia. rewrite Z.pow_succ_r by lia. lia. }
  assert (0 < 2 ^ (j - 1)) by (apply Z.pow_pos_nonneg; lia). pose proof (Z.mod_pos_bound M (2 ^ (j - 1)) ltac:(lia)).
  rewrite <-Hm. set (R := M mod 2 ^ (j - 1)) in *. rewrite E. simpl.
  destruct (Z.odd _) eqn:Eo, (Z.eqb_spec R 0) as [ER|ER]; simpl.
  - rewrite (proj2 (Z.ltb_ge _ _)), (proj2 (Z.ltb_ge _ _)) by lia. done.
  - rewrite (proj2 (Z.ltb_ge _ _)), (proj2 (Z.ltb_lt _ _)) by lia. done.
  - rewrite (proj2 (Z.ltb_lt _ _)) by lia. done.
  - rewrite (proj2 (Z.ltb_lt _ _)) by lia. done.
Qed.

(** ** The value of a double *)

(** Not negative: what a sum of separations can be *)
Definition d_nonneg a : Prop :=
  match a with
  | S754_zero _ => True
  | S754_infinity neg => neg = false
  | S754_nan => False
  | S754_finite neg m e => neg = false /\ bounded 53 1024 m e = true
  end.

Definition d_max : Z := 2 ^ 2098.
Definition dval a : Z :=
  match a with
  | S754_finite _ m e => Zpos m * 2 ^ (e + 1074)
  | S754_infinity _ => d_max
  | _ => 0
  end.

(** The nearest number of at most 53 digits *)
Definition excess (S : Z) : Z := Z.max 0 (digits S - 53).
Definition rnd (S : Z) : Z := rounded S (excess S) * 2 ^ excess S.

Lemma div_round_scale x y (z : Z) : 0 < y -> 0 < z -> div_round (x * z) (y * z) = div_round x y.
Proof.
  intros Hy Hz. unfold div_round. rewrite Z.div_mul_cancel_r, Z.mul_mod_distr_r by lia.
  replace (2 * (x mod y * z)) with (2 * (x mod y) * z) by lia. set (r := x mod y).
  assert (E1 : (2 * r * z <? y * z) = (2 * r <? y)) by (apply eq_true_iff_eq; rewrite !Z.ltb_lt; nia).
  assert (E2 : (y * z <? 2 * r * z) = (y <? 2 * r)) by (apply eq_true_iff_eq; rewrite !Z.ltb_lt; nia).
  by rewrite E1, E2.
Qed.

Lemma div_round_mono x x' y : 0 < y -> x <= x' -> div_round x y <= div_round x' y.
Proof.
  intros Hy Hx. unfold div_round. pose proof (Z.div_mod x y ltac:(lia)) as E. pose proof (Z.div_mod x' y ltac:(lia)) as E'.
  pose proof (Z.mod_pos_bound x y Hy). pose proof (Z.mod_pos_bound x' y Hy).
  assert (Hq : x / y <= x' / y) by (apply Z.div_le_mono; lia).
  destruct (Z.eq_dec (x / y) (x' / y)) as [Eq|].
  - rewrite Eq in *. assert (x mod y <= x' mod y) by lia.
    repeat case_match; rewrite ?Z.ltb_lt, ?Z.ltb_ge in *; lia.
  - repeat case_match; lia.
Qed.

Lemma div_round_exact (q : Z) y : 0 < y -> div_round (q * y) y = q.
Proof. intros Hy. unfold div_round. rewrite Z.mod_mul, Z.div_mul by lia. by rewrite (proj2 (Z.ltb_lt _ _)) by lia. Qed.

(** The mantissa that rounding makes *)
Lemma rounded_bounds S : 0 < S ->
  let M := rounded S (excess S) in 0 < M <= 2 ^ 53 /\ (0 < excess S -> 2 ^ 52 <= M) /\ (excess S = 0 -> M = S /\ S < 2 ^ 53).
Proof.
  intros HS M. destruct (digits_spec S HS) as [[H1 H2] H3]. unfold M, rounded, excess.
  destruct (Z.le_gt_cases (digits S) 53) as [Hd|Hd].
  - rewrite Z.max_l by lia. assert (S < 2 ^ 53). { eapply Z.lt_le_trans; [exact H2|]. apply Z.pow_le_mono_r; lia. }
    assert (E : div_round S (2 ^ 0) = S) by (rewrite <-(Z.mul_1_r S) at 1; by apply div_round_exact).
    rewrite E. split; [lia|]. split; [lia|done].
  - rewrite Z.max_r by lia. set (k := digits S - 53) in *. assert (0 < 2 ^ k) by (apply Z.pow_pos_nonneg; lia).
    assert (L : 2 ^ 52 * 2 ^ k <= S <= 2 ^ 53 * 2 ^ k).
    { rewrite <-!Z.pow_add_r by lia. replace (52 + k) with (digits S - 1) by lia. replace (53 + k) with (digits S) by lia. lia. }
    pose proof (div_round_mono (2 ^ 52 * 2 ^ k) S (2 ^ k) ltac:(lia) ltac:(lia)) as L1.
    pose proof (div_round_mono S (2 ^ 53 * 2 ^ k) (2 ^ k) ltac:(lia) ltac:(lia)) as L2.
    rewrite div_round_exact in L1, L2 by lia. lia.
Qed.

Lemma shr_fexp_shifted M e : 0 < M ->
  exists mrs, shr_fexp 53 1024 M e loc_Exact = (mrs, Z.max e (fexp 53 1024 (digits M + e))) /\
              shifted (Z.max 0 (fexp 53 1024 (digits M + e) - e)) M mrs.
Proof.
  intros HM. unfold shr_fexp, digits. set (n := fexp 53 1024 (Zdigits2 M + e) - e).
  assert (H0 : shifted 0 M (shr_record_of_loc M loc_Exact)).
  { split; [lia|]. split; [lia|]. simpl. by rewrite Z.div_1_r. }
  destruct n as [|p|p] eqn:En; simpl.
  - eexists. split; [f_equal; lia|done].
  - eexists. split; [f_equal; lia|]. by apply (iter_pos_shifted p 0).
  - eexists. split; [f_equal; lia|done].
Qed.

Lemma iter_xO (d : positive) m : Zpos (Pos.iter xO m d) = Zpos m * 2 ^ Zpos d.
Proof.
  induction d using Pos.peano_ind; [simpl; lia|]. rewrite Pos.iter_succ, Pos2Z.inj_xO, IHd, Pos2Z.inj_succ, Z.pow_succ_r by lia. lia.
Qed.

Lemma fexp_eq e : fexp 53 1024 e = Z.max (e - 53) (-1074).
Proof. reflexivity. Qed.

(** The last steps of rounding, for a mantissa of the right size *)
Lemma round_finish M k : 0 <= k -> 0 < M <= 2 ^ 53 -> (0 < k -> 2 ^ 52 <= M) -> (k = 0 -> M < 2 ^ 53) ->
  let '(mrs, e) := shr_fexp 53 1024 M (k - 1074) loc_Exact in
  exists m, shr_m mrs = Zpos m /\ Zpos m * 2 ^ (e + 1074) = M * 2 ^ k /\ canonical_mantissa 53 1024 m e = true /\
            (e <=? 1024 - 53) = (M * 2 ^ k <? d_max).
Proof.
  intros Hk HM H52 H53. destruct (shr_fexp_shifted M (k - 1074) ltac:(lia)) as (mrs & -> & (_ & _ & Hm & _)).
  rewrite Hm, fexp_eq. assert (Hpow : 2 ^ 53 = 2 * 2 ^ 52) by done. unfold canonical_mantissa.
  destruct (Z.eq_dec M (2 ^ 53)) as [->|Hne].
  - assert (E : digits (2 ^ 53) = 54) by done. rewrite E. assert (0 < k) by (destruct (Z.eq_dec k 0); [specialize (H53 ltac:(done)); lia|lia]).
    replace (Z.max 0 (Z.max (54 + (k - 1074) - 53) (-1074) - (k - 1074))) with 1 by lia.
    replace (Z.max (k - 1074) (Z.max (54 + (k - 1074) - 53) (-1074))) with (k + 1 - 1074) by lia.
    exists (2 ^ 52)%positive. split; [done|]. split.
    { replace (k + 1 - 1074 + 1074) with (Z.succ k) by lia. rewrite Z.pow_succ_r by lia. change (Zpos (2 ^ 52)) with (2 ^ 52). lia. }
    split; [apply Z.eqb_eq; change (Zpos (digits2_pos (2 ^ 52))) with 53; rewrite fexp_eq; lia|].
    apply eq_true_iff_eq. rewrite Z.leb_le, Z.ltb_lt. unfold d_max. rewrite <-Z.pow_add_r by lia.
    rewrite <-Z.pow_lt_mono_r_iff by lia. lia.
  - assert (Hd : digits M <= 53). { destruct (digits_spec M ltac:(lia)) as [[H1 _] _]. assert (digits M - 1 < 53); [|lia]. apply (Z.pow_lt_mono_r_iff 2); lia. }
    replace (Z.max 0 (Z.max (digits M + (k - 1074) - 53) (-1074) - (k - 1074))) with 0 by lia.
    replace (Z.max (k - 1074) (Z.max (digits M + (k - 1074) - 53) (-1074))) with (k - 1074) by lia.
    rewrite Z.div_1_r. destruct M as [|m|]; try lia. exists m. split; [done|]. replace (k - 1074 + 1074) with k by lia. split; [done|].
    assert (Hc : 0 < k -> digits (Zpos m) = 53). { intros. apply digits_unique; [done|]. split; [apply H52; lia|lia]. }
    split. { apply Z.eqb_eq. rewrite fexp_eq. change (Zpos (digits2_pos m)) with (digits (Zpos m)).
             destruct (Z.eq_dec k 0); [lia|]. rewrite Hc by lia. lia. }
    apply eq_true_iff_eq. rewrite Z.leb_le, Z.ltb_lt. unfold d_max. assert (0 < 2 ^ k) by (apply Z.pow_pos_nonneg; lia). split; intros Hle.
    + apply Z.lt_le_trans with (2 ^ 53 * 2 ^ k); [nia|]. rewrite <-Z.pow_add_r by lia. apply Z.pow_le_mono_r; lia.
    + destruct (Z.eq_dec k 0); [lia|]. assert (52 + k < 2098); [|lia]. apply (Z.pow_lt_mono_r_iff 2); [lia..|].
      rewrite Z.pow_add_r by lia. eapply Z.le_lt_trans; [|exact Hle]. specialize (H52 ltac:(lia)). nia.
Qed.

(** Aligning the mantissa does not change the number. *)
Lemma shl_align_value m e e' : -1074 <= e -> -1074 <= e' ->
  let '(mz, ez) := shl_align m e e' in
  ez = Z.min e e' /\ Zpos mz * 2 ^ (ez + 1074) = Zpos m * 2 ^ (e + 1074).
Proof.
  intros He He'. unfold shl_align. destruct (e' - e) as [|p|p] eqn:E.
  1,2: split; [lia|done].
  split; [lia|]. rewrite iter_xO, <-Z.mul_assoc, <-Z.pow_add_r by lia. f_equal. f_equal. lia.
Qed.

Lemma binary_round_value m e : -1074 <= e ->
  let S := Zpos m * 2 ^ (e + 1074) in
  d_nonneg (binary_round 53 1024 false m e) /\ dval (binary_round 53 1024 false m e) = Z.min (rnd S) d_max.
Proof.
  intros He S. unfold binary_round. set (e1 := fexp 53 1024 (Zpos (digits2_pos m) + e)).
  assert (Hk : e1 + 1074 = excess S).
  { unfold e1, S, excess. rewrite fexp_eq, digits_shift by lia. unfold digits at 1. simpl Zdigits2. lia. }
  assert (He1 : -1074 <= e1) by (unfold excess in Hk; lia).
  pose proof (shl_align_value m e e1 He He1) as Hal. destruct (shl_align m e e1) as [mz ez]. destruct Hal as [Hez HS].
  fold S in HS. assert (Hpow : 0 < 2 ^ (ez + 1074)) by (apply Z.pow_pos_nonneg; lia).
  assert (HD : fexp 53 1024 (digits (Zpos mz) + ez) = e1).
  { rewrite fexp_eq. rewrite <-HS in Hk. unfold excess in Hk. rewrite digits_shift in Hk by lia. lia. }
  unfold binary_round_aux. destruct (shr_fexp_shifted (Zpos mz) ez ltac:(done)) as (mrs & E1 & Hsh). rewrite HD in E1, Hsh.
  rewrite Z.max_r in E1, Hsh by lia. rewrite E1. rewrite (rounded_shifted _ _ _ Hsh).
  assert (HM : rounded (Zpos mz) (e1 - ez) = rounded S (excess S)).
  { unfold rounded. rewrite <-Hk, <-HS. replace (e1 + 1074) with (e1 - ez + (ez + 1074)) by lia.
    rewrite (Z.pow_add_r 2 (e1 - ez)) by lia. symmetry. apply div_round_scale; [apply Z.pow_pos_nonneg; lia|done]. }
  rewrite HM. assert (HS0 : 0 < S) by (unfold S; assert (0 < 2 ^ (e + 1074)) by (apply Z.pow_pos_nonneg; lia); lia).
  destruct (rounded_bounds S HS0) as (HM1 & HM2 & HM3).
  pose proof (round_finish (rounded S (excess S)) (excess S) ltac:(unfold excess; lia) HM1 HM2 ltac:(intros E; destruct (HM3 E); lia)) as Hf.
  replace (excess S - 1074) with e1 in Hf by lia. destruct (shr_fexp _ _ _ e1 _) as [mrs2 e2]. destruct Hf as (m2 & -> & Hv & Hc & Hb).
  change (1024 - 53) with 971 in *. fold (rnd S) in Hv, Hb. rewrite Hb. destruct (Z.ltb_spec (rnd S) d_max) as [Hlt|Hge].
  - split; [split; [done|]|]. { unfold bounded. rewrite Hc. change (1024 - 53) with 971. by rewrite Hb. } cbn [dval]. lia.
  - split; [done|]. cbn [dval]. lia.
Qed.

Lemma nonneg_exp a m e : a = S754_finite false m e -> d_nonneg a -> -1074 <= e.
Proof.
  intros -> [_ Hb]. unfold bounded, canonical_mantissa in Hb. apply andb_true_iff in Hb as [Hb _]. apply Z.eqb_eq in Hb. rewrite fexp_eq in Hb. lia.
Qed.

(** ** Order *)

Lemma finite_canonical m e : bounded 53 1024 m e = true ->
  -1074 <= e <= 971 /\ Zpos m < 2 ^ 53 /\ (-1074 < e -> 2 ^ 52 <= Zpos m).
Proof.
  unfold bounded, canonical_mantissa. intros [Hc%Z.eqb_eq He%Z.leb_le]%andb_true_iff. rewrite fexp_eq in Hc.
  pose proof (digits_bounds m) as [H1 H2]. set (d := Zpos (digits2_pos m)) in *. split; [lia|]. split.
  - eapply Z.lt_le_trans; [exact H2|]. apply Z.pow_le_mono_r; lia.
  - intros. replace 52 with (d - 1) by lia. done.
Qed.

Lemma dval_nonneg a : 0 <= dval a.
Proof. destruct a as [| | |neg m e]; simpl; try done. assert (0 <= 2 ^ (e + 1074)) by (apply Z.pow_nonneg; lia). lia. Qed.

Lemma finite_value m e : bounded 53 1024 m e = true -> 0 < dval (S754_finite false m e) < d_max.
Proof.
  intros Hb%finite_canonical. destruct Hb as (He & Hm & _). simpl. assert (0 < 2 ^ (e + 1074)) by (apply Z.pow_pos_nonneg; lia).
  split; [lia|]. unfold d_max. apply Z.lt_le_trans with (2 ^ 53 * 2 ^ (e + 1074)); [nia|]. rewrite <-Z.pow_add_r by lia. apply Z.pow_le_mono_r; lia.
Qed.

Lemma finite_lt m e m' e' : bounded 53 1024 m e = true -> bounded 53 1024 m' e' = true -> e < e' ->
  Zpos m * 2 ^ (e + 1074) < Zpos m' * 2 ^ (e' + 1074).
Proof.
  intros (He & Hm & _)%finite_canonical (He' & Hm' & Hn)%finite_canonical Hlt. specialize (Hn ltac:(lia)).
  assert (0 < 2 ^ (e + 1074)) by (apply Z.pow_pos_nonneg; lia).
  apply Z.lt_le_trans with (2 ^ 53 * 2 ^ (e + 1074)); [nia|]. rewrite <-Z.pow_add_r by lia.
  apply Z.le_trans with (2 ^ 52 * 2 ^ (e' + 1074)); [rewrite <-Z.pow_add_r by lia; apply Z.pow_le_mono_r; lia|].
  assert (0 < 2 ^ (e' + 1074)) by (apply Z.pow_pos_nonneg; lia). nia.
Qed.

Lemma compare_value a b : d_nonneg a -> d_nonneg b -> SFcompare a b = Some (dval a ?= dval b).
Proof.
  assert (Hlt : forall x y, x < y -> (x ?= y) = Lt) by (intros; by apply Z.compare_lt_iff).
  assert (Hgt : forall x y, y < x -> (x ?= y) = Gt) by (intros; by apply Z.compare_gt_iff).
  intros Ha Hb. destruct a as [sa|sa| |sa m e], b as [sb|sb| |sb m' e']; try done; cbn [d_nonneg] in Ha, Hb; destruct_and?; subst;
    cbn [SFcompare]; try done; f_equal; symmetry; [by apply Hlt, finite_value|by apply Hgt, finite_value|by apply Hgt, finite_value|by apply Hlt, finite_value|].
  cbn [dval]. destruct (Z.compare_spec e e') as [->|He|He]; [|by apply Hlt, finite_lt|by apply Hgt, finite_lt].
  assert (0 < 2 ^ (e' + 1074)). { apply Z.pow_pos_nonneg; [done|]. match goal with Hb : bounded _ _ m' _ = true |- _ => apply finite_canonical in Hb end. lia. }
  change (Pos.compare_cont Eq m m') with (Zpos m ?= Zpos m'). rewrite !(Z.mul_comm _ (2 ^ _)), <-Zmult_compare_compat_l by lia. done.
Qed.

Lemma d_leb_value a b : d_nonneg a -> d_nonneg b -> d_leb a b = (dval a <=? dval b).
Proof. intros. unfold d_leb, SFleb. rewrite compare_value by done. unfold Z.leb. by destruct (_ ?= _). Qed.
Lemma d_ltb_value a b : d_nonneg a -> d_nonneg b -> d_ltb a b = (dval a <? dval b).
Proof. intros. unfold d_ltb, SFltb. rewrite compare_value by done. unfold Z.ltb. by destruct (_ ?= _). Qed.

(** ** Addition *)

Lemma rnd_small S : 0 <= S < 2 ^ 53 -> rnd S = S.
Proof.
  intros [H0 H]. unfold rnd. assert (E : excess S = 0).
  { unfold excess. destruct (Z.eq_dec S 0) as [->|]; [done|]. destruct (digits_spec S ltac:(lia)) as [[H1 _] _].
    assert (digits S - 1 < 53); [|lia]. apply (Z.pow_lt_mono_r_iff 2); lia. }
  rewrite E. unfold rounded. rewrite Z.mul_1_r. rewrite <-(Z.mul_1_r S) at 1. by apply div_round_exact.
Qed.

Lemma rnd_mono S T : 0 <= S <= T -> rnd S <= rnd T.
Proof.
  intros [H0 HT]. destruct (Z.eq_dec S 0) as [->|HS].
  { rewrite (rnd_small 0) by done. destruct (Z.eq_dec T 0) as [->|]; [by rewrite rnd_small|]. unfold rnd.
    destruct (rounded_bounds T ltac:(lia)) as (? & _). assert (0 < 2 ^ excess T) by (apply Z.pow_pos_nonneg; unfold excess; lia). nia. }
  assert (Hd : excess S <= excess T) by (unfold excess; pose proof (digits_mono S T); lia). unfold rnd.
  assert (0 <= excess S) by (unfold excess; lia). assert (0 < 2 ^ excess S) by (apply Z.pow_pos_nonneg; lia).
  destruct (Z.eq_dec (excess S) (excess T)) as [E|E].
  - rewrite <-E. apply Z.mul_le_mono_nonneg_r; [lia|]. apply div_round_mono; lia.
  - destruct (rounded_bounds S ltac:(lia)) as ([_ L1] & _ & _), (rounded_bounds T ltac:(lia)) as (_ & L2 & _). specialize (L2 ltac:(lia)).
    apply Z.le_trans with (2 ^ 53 * 2 ^ excess S); [nia|]. apply Z.le_trans with (2 ^ 52 * 2 ^ excess T).
    + rewrite <-!Z.pow_add_r by lia. apply Z.pow_le_mono_r; lia.
    + assert (0 < 2 ^ excess T) by (apply Z.pow_pos_nonneg; lia). nia.
Qed.

(** A double is rounded to itself. *)
Lemma rnd_scaled (M k : Z) : 0 <= k -> 0 <= M < 2 ^ 53 -> rnd (M * 2 ^ k) = M * 2 ^ k.
Proof.
  intros Hk HM. destruct (Z.eq_dec M 0) as [->|]; [done|]. assert (0 < 2 ^ k) by (apply Z.pow_pos_nonneg; lia).
  unfold rnd, rounded. set (x := excess (M * 2 ^ k)). assert (0 <= x <= k).
  { unfold x, excess. rewrite digits_shift by lia. destruct (digits_spec M ltac:(lia)) as [[H1 _] _].
    assert (digits M - 1 < 53); [|lia]. apply (Z.pow_lt_mono_r_iff 2); lia. }
  replace k with (k - x + x) by lia. rewrite Z.pow_add_r, Z.mul_assoc by lia. rewrite div_round_exact; [done|]. apply Z.pow_pos_nonneg; lia.
Qed.
Lemma rnd_value a : d_nonneg a -> Z.min (rnd (dval a)) d_max = dval a.
Proof.
  destruct a as [| | |neg m e]; intros Ha; try done. destruct Ha as [-> Hb].
  pose proof (finite_value m e Hb). apply finite_canonical in Hb as (He & Hm & _). cbn [dval] in *. rewrite rnd_scaled by lia. lia.
Qed.

Lemma d_max_pos : 0 < d_max.
Proof. done. Qed.

#[local] Opaque d_max rnd Z.pow.

(** The sum is the exact sum, rounded. *)
Lemma d_add_value a b : d_nonneg a -> d_nonneg b ->
  d_nonneg (d_add a b) /\ dval (d_add a b) = Z.min (rnd (dval a + dval b)) d_max.
Proof.
  intros Ha Hb. assert (Hinf : forall S, 0 <= S -> d_max = Z.min (rnd (d_max + S)) d_max).
  { intros S HS. pose proof (rnd_mono d_max (d_max + S) ltac:(pose proof d_max_pos; lia)). pose proof (rnd_value d_infinity eq_refl) as E.
    change (dval d_infinity) with d_max in E. lia. }
  pose proof (dval_nonneg a). pose proof (dval_nonneg b). pose proof (rnd_value a Ha) as Ra. pose proof (rnd_value b Hb) as Rb.
  destruct a as [sa|sa| |sa m e]; [| |destruct Ha|]; (destruct b as [sb|sb| |sb m' e']; [| |destruct Hb|]);
    cbn [d_nonneg dval] in Ha, Hb, Ra, Rb |- *; unfold d_add, SFadd; cbn [dval] in *.
  - rewrite Z.add_0_l, Ra. by destruct sa, sb; (split; [exact I|]).
  - rewrite Z.add_0_l, Rb. by split; [exact Hb|].
  - rewrite Z.add_0_l, Rb. by split; [exact Hb|].
  - subst sa. rewrite <-Hinf by done. by split.
  - subst sa sb. rewrite <-Hinf by apply Z.lt_le_incl, d_max_pos. by split.
  - subst sa. rewrite <-Hinf by done. by split.
  - rewrite Z.add_0_r, Ra. by split; [exact Ha|].
  - subst sb. rewrite Z.add_comm, <-Hinf by done. by split.
  - destruct Ha as [-> Ha], Hb as [-> Hb].
    apply finite_canonical in Ha as ([Hm _] & _), Hb as ([Hm' _] & _).
    pose proof (shl_align_value m e (Z.min e e') Hm ltac:(lia)) as H1. pose proof (shl_align_value m' e' (Z.min e e') Hm' ltac:(lia)) as H2.
    destruct (shl_align m e _) as [n ez], (shl_align m' e' _) as [n' ez']. destruct H1 as [-> H1], H2 as [-> H2].
    cbn [fst cond_Zopp binary_normalize Z.add]. rewrite Z.min_r in H1, H2 by lia.
    pose proof (binary_round_value (n + n') (Z.min e e') ltac:(lia)) as [R1 R2]. split; [exact R1|]. etransitivity; [exact R2|]. f_equal. f_equal. lia.
Qed.

Lemma d_add_nonneg a b : d_nonneg a -> d_nonneg b -> d_nonneg (d_add a b).
Proof. intros. by apply d_add_value. Qed.

(** Addition is monotone, and a sum is not smaller than its summands. *)
Lemma d_add_mono a b c : d_nonneg a -> d_nonneg b -> d_nonneg c -> d_leb a b = true -> d_leb (d_add a c) (d_add b c) = true.
Proof.
  intros Ha Hb Hc. destruct (d_add_value a c Ha Hc) as [N1 E1], (d_add_value b c Hb Hc) as [N2 E2].
  rewrite !d_leb_value by done. rewrite !Z.leb_le, E1, E2. intros Hle. pose proof (dval_nonneg a). pose proof (dval_nonneg c).
  pose proof (rnd_mono (dval a + dval c) (dval b + dval c)). lia.
Qed.

Lemma d_add_grows a c : d_nonneg a -> d_nonneg c -> d_leb a (d_add a c) = true.
Proof.
  intros Ha Hc. destruct (d_add_value a c Ha Hc) as [N1 E1]. rewrite d_leb_value, Z.leb_le, E1 by done.
  pose proof (rnd_value a Ha) as E. pose proof (dval_nonneg a). pose proof (dval_nonneg c). pose proof (rnd_mono (dval a) (dval a + dval c)). lia.
Qed.

(** ** The order is transitive, also on other doubles *)

Definition d_key a : option (Z * Z * Z) :=
  match a with
  | S754_nan => None
  | S754_infinity true => Some (-2, 0, 0)
  | S754_finite true m e => Some (-1, - e, - Zpos m)
  | S754_zero _ => Some (0, 0, 0)
  | S754_finite false m e => Some (1, e, Zpos m)
  | S754_infinity false => Some (2, 0, 0)
  end.
Definition key_le (x y : Z * Z * Z) : Prop :=
  x.1.1 < y.1.1 \/ (x.1.1 = y.1.1 /\ (x.1.2 < y.1.2 \/ (x.1.2 = y.1.2 /\ x.2 <= y.2))).

Lemma d_leb_key a b : d_leb a b = true <-> exists x y, d_key a = Some x /\ d_key b = Some y /\ key_le x y.
Proof.
  unfold d_leb, SFleb. split.
  - intros H. destruct a as [[]|[]| |[] m e], b as [[]|[]| |[] m' e']; try done; eexists _, _; (split; [done|]); (split; [done|]); unfold key_le; simpl in *; try lia.
    all: destruct (Z.compare_spec e e'); try done; try lia.
    all: change (Pos.compare_cont Eq m m') with (Pos.compare m m') in H; destruct (Pos.compare_spec m m'); try done; subst; lia.
  - intros (x & y & Hx & Hy & Hle). destruct a as [[]|[]| |[] m e], b as [[]|[]| |[] m' e']; try done; simpl in Hx, Hy; simplify_eq; unfold key_le in Hle; simpl in *; try lia.
    all: destruct (Z.compare_spec e e'); try done; try lia.
    all: change (Pos.compare_cont Eq m m') with (Pos.compare m m'); destruct (Pos.compare_spec m m'); try done; lia.
Qed.

Lemma d_leb_trans a b c : d_leb a b = true -> d_leb b c = true -> d_leb a c = true.
Proof.
  rewrite !d_leb_key. intros (x & y & Hx & Hy & H1) (y' & z & Hy' & Hz & H2). simplify_eq. exists x, z. split; [done|]. split; [done|].
  unfold key_le in *. lia.
Qed.

Lemma d_ltb_leb a b : d_ltb a b = true -> d_leb a b = true.
Proof. unfold d_ltb, d_leb, SFltb, SFleb. by destruct (SFcompare a b) as [[]|]. Qed.

Lemma dval_max a : d_nonneg a -> dval a <= d_max.
Proof. destruct a as [| | |neg m e]; simpl; try (pose proof d_max_pos; lia). intros [_ Hb]. pose proof (finite_value m e Hb). simpl in *. lia. Qed.

Lemma isinf_value a : d_nonneg a -> d_isinf a = (dval a =? d_max).
Proof.
  destruct a as [s|neg| |neg m e]; cbn [d_isinf dval d_nonneg]; intros H; pose proof d_max_pos.
  - symmetry. apply Z.eqb_neq. lia.
  - by rewrite Z.eqb_refl.
  - done.
  - destruct H as [_ Hb]. pose proof (finite_value m e Hb). symmetry. apply Z.eqb_neq. simpl in *. lia.
Qed.
