(* ===== verification/CssAccess.v ===== *)
(** * css: CssAccess

    [css/CssAccess.{h,cc}] on any key-value store, with the parameter structures
    of [css/*Params.h] and the constants of [css/constants.h]. *)

From Stdlib Require Import Ascii String.
From S2P Require Import Prelude.
From S2P Require Import StdString.
From S2P Require Import CssPath.
From S2P Require Import Double.
From S2P Require Import StdFloat.
From S2P Require Import KvInterface.
From S2P Require Import PropertyTree.

Local Open Scope Z_scope.

(** ** Constants *)

Definition VERSION_KEY : string := "/css_meta/version".
Definition VERSION_STR : string := "1".
Definition KEY_STATUS_IGNORE : string := "DO_NOT_USE".
Definition KEY_STATUS_READY : string := "READY".
Definition NODE_STATE_ACTIVE : string := "ACTIVE".
Definition packedKeyName : string := ".packed.json".

(** ** Parameters of databases, tables and nodes *)

Record StripingParams := mkStriping {
  sp_stripes : Z; sp_subStripes : Z; sp_partitioningId : Z; sp_overlap : double }.
Definition StripingParams_default : StripingParams := mkStriping 0 0 0 d_zero.

Record PartTableParams := mkPart {
  pp_dirDb : string; pp_dirTable : string; pp_dirColName : string; pp_latColName : string; pp_lonColName : string;
  pp_overlap : double; pp_partitioned : bool; pp_subChunks : bool }.
Definition PartTableParams_default : PartTableParams := mkPart "" "" "" "" "" d_zero false false.

(** [isPartitioned], [isChunked], [isSubChunked], [chunkLevel] *)
Definition isPartitioned (p : PartTableParams) : bool := pp_partitioned p.
Definition isChunked (p : PartTableParams) : bool := pp_partitioned p.
Definition isSubChunked (p : PartTableParams) : bool := pp_subChunks p.
Definition chunkLevel (p : PartTableParams) : Z := if isSubChunked p then 2 else if isChunked p then 1 else 0.
(** [partitionCols], [secIndexColNames] *)
Definition partitionCols (p : PartTableParams) : list string := [pp_lonColName p; pp_latColName p; pp_dirColName p].
Definition secIndexColNames (p : PartTableParams) : list string :=
  if decide (pp_dirColName p = ""%string) then [] else [pp_dirColName p].

Record MatchTableParams := mkMatch {
  mp_dirTable1 : string; mp_dirColName1 : string; mp_dirTable2 : string; mp_dirColName2 : string;
  mp_flagColName : string; mp_angSep : double }.
Definition MatchTableParams_default : MatchTableParams := mkMatch "" "" "" "" "" d_zero.
Definition isMatchTable (p : MatchTableParams) : bool := bool_decide (mp_dirTable1 p <> ""%string).

Record ScanTableParams := mkScan { sc_lockInMem : bool; sc_scanRating : Z }.
Definition ScanTableParams_default : ScanTableParams := mkScan false 0.

Record TableParams := mkTableParams {
  tp_match : MatchTableParams; tp_partitioning : PartTableParams; tp_sharedScan : ScanTableParams }.
Definition TableParams_default : TableParams :=
  mkTableParams MatchTableParams_default PartTableParams_default ScanTableParams_default.

Record NodeParams := mkNodeParams { np_type : string; np_host : string; np_port : Z; np_state : string }.
Definition NodeParams_default : NodeParams := mkNodeParams "" "" 0 "".
Definition isActive (n : NodeParams) : bool := bool_decide (np_state n = NODE_STATE_ACTIVE).

(** ** State and effects *)

(** The store, the prefix of all keys, and whether the version is checked. *)
Record CssAccess (St : Type) := mkCssAccess { ca_kvI : St; ca_prefix : string; ca_versionOk : bool }.
Arguments mkCssAccess {St} _ _ _.
Arguments ca_kvI {St} _.
Arguments ca_prefix {St} _.
Arguments ca_versionOk {St} _.

(** A method: it may throw after it has changed the store. *)
Definition css (St A : Type) : Type := CssAccess St -> CssAccess St * (CssError + A).

Definition css_ret {St A} (a : A) : css St A := fun c => (c, inr a).
Definition css_throw {St A} (e : CssError) : css St A := fun c => (c, inl e).
Definition css_bind {St A B} (m : css St A) (k : A -> css St B) : css St B :=
  fun c => let '(c', r) := m c in match r with inl e => (c', inl e) | inr a => k a c' end.
(** [try { m } catch] of the errors for which [h] is defined. *)
Definition css_catch {St A} (m : css St A) (h : CssError -> option (css St A)) : css St A :=
  fun c => let '(c', r) := m c in
           match r with
           | inl e => match h e with Some m' => m' c' | None => (c', inl e) end
           | inr a => (c', inr a)
           end.
Definition css_lift {St A} (r : CssError + A) : css St A := fun c => (c, r).

Declare Scope css_scope.
Delimit Scope css_scope with css.
Notation "'let#' x := m 'in' k" :=
  (css_bind m (fun x => k)) (at level 10, x pattern, m at level 100, k at level 200) : css_scope.
Local Open Scope css_scope.

(** A loop with an accumulator. *)
Fixpoint css_fold {St A B} (f : B -> A -> css St B) (b : B) (l : list A) : css St B :=
  match l with
  | [] => css_ret b
  | a :: l' => let# b' := f b a in css_fold f b' l'
  end.

Definition no_such_key (e : CssError) : bool := match e with NoSuchKey _ => true | _ => false end.
Definition key_exists_error (e : CssError) : bool := match e with KeyExistsError _ => true | _ => false end.

Section Methods.
Context {St : Type} `{KvInterface St} `{PropertyTree}.

Notation M := (css St).

(** The calls on [_kvI]. *)
Definition kvI_create (key value : string) (unique : bool) : M string :=
  fun c => let '(s, r) := kv_create key value unique (ca_kvI c) in (mkCssAccess s (ca_prefix c) (ca_versionOk c), r).
Definition kvI_set (key value : string) : M unit :=
  fun c => let '(s, r) := kv_set key value (ca_kvI c) in (mkCssAccess s (ca_prefix c) (ca_versionOk c), r).
Definition kvI_deleteKey (key : string) : M unit :=
  fun c => let '(s, r) := kv_deleteKey key (ca_kvI c) in (mkCssAccess s (ca_prefix c) (ca_versionOk c), r).
Definition kvI_exists (key : string) : M bool := fun c => (c, inr (kv_exists key (ca_kvI c))).
Definition kvI_get (key defaultValue : string) : M string := fun c => (c, kv_get key defaultValue false (ca_kvI c)).
Definition kvI_getMany (keys : list string) : M (gmap string string) := fun c => (c, inr (kv_getMany keys (ca_kvI c))).
Definition kvI_getChildren (key : string) : M (list string) := fun c => (c, kv_getChildren key (ca_kvI c)).
Definition kvI_getChildrenValues (key : string) : M (gmap string string) := fun c => (c, kv_getChildrenValues key (ca_kvI c)).

Definition prefix_ : M string := fun c => (c, inr (ca_prefix c)).

(** [_checkVersion] *)
Definition checkVersion (mustExist : bool) : M unit :=
  fun c =>
    if ca_versionOk c then (c, inr tt) else
    (let# version := kvI_get VERSION_KEY "" in
     if decide (version = ""%string) then
       if mustExist then css_throw (VersionMissingError VERSION_KEY) else css_ret tt
     else if decide (version = VERSION_STR) then fun c => (mkCssAccess (ca_kvI c) (ca_prefix c) true, inr tt)
     else css_throw (VersionMismatchError VERSION_STR version)) c.

(** The constructor, on the object with [_versionOk] still false. *)
Definition construct : M unit :=
  let# _ := checkVersion false in
  fun c => if ca_versionOk c then (c, inr tt) else
    (let# _ := kvI_create VERSION_KEY VERSION_STR false in
     fun c => (mkCssAccess (ca_kvI c) (ca_prefix c) true, inr tt)) c.

(** [_unpackJson] *)
Definition unpackJson (key data : string) : CssError + gmap string string :=
  match (if decide (data = ""%string) then Some [] else read_json data) with
  | None => inl (KeyValueError key)
  | Some pt => inr (foldl (fun result e =>
      if pt_empty e.2 then match result !! e.1 with Some _ => result | None => <[e.1 := pt_data e.2]> result end
      else result) ∅ pt)
  end.

(** [_storePacked]; the data in the order of the [std::map]. *)
Definition storePacked (key : string) (data : gmap string string) : M unit :=
  match write_json ((fun k => (k, default ""%string (data !! k))) <$> sorted_keys data) false with
  | None => css_throw (KeyValueError key)
  | Some output => kvI_set (key +:+ "/" +:+ packedKeyName) (replace_newlines output)
  end.

(** [_getSubkeys] *)
Definition parentKey (key subKey : string) : string :=
  match rfind SLASH subKey with
  | Some p => key +:+ "/" +:+ substr_to p subKey
  | None => key
  end.
(** The parent keys, and all keys to ask for. *)
Definition wanted_keys (key : string) (subKeys : list string) : gset string * list string :=
  foldl (fun '(parentKeys, allKeys) subKey =>
    let pk := parentKey key subKey in
    let '(parentKeys, allKeys) :=
      if decide (pk ∈ (parentKeys : gset string)) then (parentKeys, allKeys)
      else ({[pk]} ∪ parentKeys, allKeys ++ [pk +:+ "/" +:+ packedKeyName]) in
    (parentKeys, allKeys ++ [key +:+ "/" +:+ subKey])) (∅, []) subKeys.
(** Add the packed values of one parent; keys that are there stay. *)
Definition add_packed (keyMap : gmap string string) (pk : string) : CssError + gmap string string :=
  let packedKey := pk +:+ "/" +:+ packedKeyName in
  match keyMap !! packedKey with
  | None => inr keyMap
  | Some data =>
      match unpackJson packedKey data with
      | inl e => inl e
      | inr packedMap => inr (keyMap ∪ kmap (fun k => pk +:+ "/" +:+ k) packedMap)
      end
  end.
Definition getSubkeys (key : string) (subKeys : list string) : M (gmap string string) :=
  let '(parentKeys, allKeys) := wanted_keys key subKeys in
  let# keyMap := kvI_getMany allKeys in
  let# keyMap := css_fold (fun keyMap pk => css_lift (add_packed keyMap pk)) keyMap
                          (merge_sort String.le (elements parentKeys)) in
  css_ret (foldl (fun result subKey =>
    match keyMap !! (key +:+ "/" +:+ subKey) with
    | Some v => match result !! subKey with Some _ => result | None => <[subKey := v]> result end
    | None => result
    end) ∅ subKeys).

(** ** Databases *)

(** [containsDb] *)
Definition containsDb (dbName : string) : M bool :=
  let# _ := checkVersion true in
  if decide (dbName = ""%string) then css_ret false
  else let# prefix := prefix_ in kvI_exists (prefix +:+ "/DBS/" +:+ dbName).

(** [_assertDbExists] *)
Definition assertDbExists (dbName : string) : M unit :=
  let# found := containsDb dbName in if negb found then css_throw (NoSuchDb dbName) else css_ret tt.

Definition remove_packed (names : list string) : list string := filter (fun n => n <> packedKeyName) names.

(** [getDbNames] *)
Definition getDbNames : M (list string) :=
  let# _ := checkVersion true in
  let# prefix := prefix_ in
  let# names := kvI_getChildren (prefix +:+ "/DBS") in
  css_ret (remove_packed names).

(** [getDbStatus] *)
Definition getDbStatus : M (gmap string string) :=
  let# _ := checkVersion true in
  let# prefix := prefix_ in
  let# kvs := kvI_getChildrenValues (prefix +:+ "/DBS") in
  css_ret (delete packedKeyName kvs).

(** [setDbStatus] *)
Definition setDbStatus (dbName status : string) : M unit :=
  let# _ := checkVersion true in
  let# _ := assertDbExists dbName in
  let# prefix := prefix_ in
  kvI_set (prefix +:+ "/DBS/" +:+ dbName) status.

(** A value read with [std::stoi] or [std::stod], [d] if the key is missing. *)
Definition numeric {A} (f : string -> outcome A) (m : gmap string string) (key : string) (d : A) : outcome A :=
  match m !! key with Some v => f v | None => Ret d end.
(** [try { ... } catch (std::exception const&) { throw KeyValueError(key, ...); }] *)
Definition or_value_error {A} (key : string) (r : outcome A) : CssError + A :=
  match r with Ret a => inr a | Raise _ => inl (KeyValueError key) end.

(** [getDbStriping] *)
Definition getDbStriping (dbName : string) : M StripingParams :=
  let# _ := checkVersion true in
  let# prefix := prefix_ in
  let# dbMap := getSubkeys (prefix +:+ "/DBS/" +:+ dbName) ["partitioningId"%string] in
  let partId := default ""%string (dbMap !! "partitioningId"%string) in
  if decide (partId = ""%string) then
    let# _ := assertDbExists dbName in css_ret StripingParams_default
  else
    let pKey := prefix +:+ "/PARTITIONING/_" +:+ partId in
    let# keyMap := getSubkeys pKey ["nStripes"; "nSubStripes"; "overlap"]%string in
    css_lift (or_value_error pKey (
      let? partitioningId := stoi partId in
      let? stripes := numeric stoi keyMap "nStripes" 0 in
      let? subStripes := numeric stoi keyMap "nSubStripes" 0 in
      let? overlap := numeric stod keyMap "overlap" d_zero in
      Ret (mkStriping stripes subStripes partitioningId overlap))).

(** [createDb] *)
Definition createDb (dbName : string) (striping : StripingParams) (storageClass releaseStatus : string) : M unit :=
  let# _ := checkVersion false in
  let# prefix := prefix_ in
  let# partId :=
    (if 0 <? sp_stripes striping then
       let pfxKey := prefix +:+ "/PARTITIONING/_" in
       let# partKey := kvI_create pfxKey "" true in
       let# _ := storePacked partKey (list_to_map
         [("nStripes", to_string (sp_stripes striping)); ("nSubStripes", to_string (sp_subStripes striping));
          ("overlap", to_string_double (sp_overlap striping))]%string) in
       css_ret (substr_from (String.length pfxKey) partKey)
     else css_ret ""%string) in
  let dbMap : gmap string string := list_to_map [("releaseStatus", releaseStatus); ("storageClass", storageClass)]%string in
  let dbMap := if decide (partId = ""%string) then dbMap else <["partitioningId"%string := partId]> dbMap in
  let dbKey := prefix +:+ "/DBS/" +:+ dbName in
  let# _ := storePacked dbKey dbMap in
  kvI_set dbKey KEY_STATUS_READY.

(** [createDbLike] *)
Definition createDbLike (dbName templateDbName : string) : M unit :=
  let# _ := checkVersion true in
  let# prefix := prefix_ in
  let# dbMap := getSubkeys (prefix +:+ "/DBS/" +:+ templateDbName) ["partitioningId"; "releaseStatus"; "storageClass"]%string in
  let# _ := (if decide (dbMap = ∅) then assertDbExists templateDbName else css_ret tt) in
  let dbKey := prefix +:+ "/DBS/" +:+ dbName in
  let# _ := storePacked dbKey dbMap in
  kvI_set dbKey KEY_STATUS_READY.

(** [try { deleteKey(key) } catch (NoSuchKey) { throw e }] *)
Definition delete_or {A} (key : string) (e : CssError) (k : M A) : M A :=
  let# _ := css_catch (kvI_deleteKey key) (fun err => if no_such_key err then Some (css_throw e) else None) in k.

(** [dropDb] *)
Definition dropDb (dbName : string) : M unit :=
  let# _ := checkVersion true in
  let# prefix := prefix_ in
  delete_or (prefix +:+ "/DBS/" +:+ dbName) (NoSuchDb dbName) (css_ret tt).

(** ** Tables *)

Definition table_key (prefix dbName tableName : string) : string :=
  prefix +:+ "/DBS/" +:+ dbName +:+ "/TABLES/" +:+ tableName.

(** [getTableNames] *)
Definition getTableNames (dbName : string) (readyOnly : bool) : M (list string) :=
  let# _ := checkVersion true in
  let# prefix := prefix_ in
  let key := prefix +:+ "/DBS/" +:+ dbName +:+ "/TABLES" in
  let# names := css_catch (kvI_getChildren key) (fun err =>
    if no_such_key err then Some (let# _ := assertDbExists dbName in css_ret []) else None) in
  let names := remove_packed names in
  if readyOnly && negb (bool_decide (names = [])) then
    let# tableStatuses := getSubkeys key names in
    css_ret (filter (fun n => tableStatuses !! n = Some "READY"%string) (sorted_keys tableStatuses))
  else css_ret names.

(** [getTableStatus] *)
Definition getTableStatus (dbName : string) : M (gmap string string) :=
  let# _ := checkVersion true in
  let# prefix := prefix_ in
  let key := prefix +:+ "/DBS/" +:+ dbName +:+ "/TABLES" in
  let# kvs := css_catch (kvI_getChildrenValues key) (fun err =>
    if no_such_key err then Some (let# _ := assertDbExists dbName in css_ret ∅) else None) in
  css_ret (delete packedKeyName kvs).

(** [if (not _kvI->exists(key)) throw e;] *)
Definition exists_or (key : string) (e : CssError) : M unit :=
  let# found := kvI_exists key in if negb found then css_throw e else css_ret tt.

(** [setTableStatus] *)
Definition setTableStatus (dbName tableName status : string) : M unit :=
  let# _ := checkVersion true in
  let# prefix := prefix_ in
  let tableKey := table_key prefix dbName tableName in
  let# _ := exists_or tableKey (NoSuchTable dbName tableName) in
  kvI_set tableKey status.

(** [containsTable] *)
Definition containsTable (dbName tableName : string) (readyOnly : bool) : M bool :=
  let# _ := checkVersion true in
  let# prefix := prefix_ in
  let# val := kvI_get (table_key prefix dbName tableName) "DOES_NOT_EXIST" in
  if decide (val = "DOES_NOT_EXIST"%string) then
    let# _ := assertDbExists dbName in css_ret false
  else if readyOnly then css_ret (bool_decide (val = "READY"%string)) else css_ret true.

(** [getTableSchema] *)
Definition getTableSchema (dbName tableName : string) : M string :=
  let# _ := checkVersion true in
  let# prefix := prefix_ in
  let tableKey := table_key prefix dbName tableName in
  let# kvMap := getSubkeys tableKey ["schema"%string] in
  let schema := default ""%string (kvMap !! "schema"%string) in
  let# _ := (if decide (schema = ""%string) then exists_or tableKey (NoSuchTable dbName tableName) else css_ret tt) in
  css_ret schema.

Definition param (m : gmap string string) (key : string) : string := default ""%string (m !! key).

(** [_fillMatchTableParams] *)
Definition fillMatchTableParams (paramMap : gmap string string) (tableKey : string) : CssError + MatchTableParams :=
  or_value_error (tableKey +:+ "match/angSep") (
    let? angSep := numeric stod paramMap "match/angSep" d_zero in
    Ret (mkMatch (param paramMap "match/dirTable1") (param paramMap "match/dirColName1") (param paramMap "match/dirTable2")
                 (param paramMap "match/dirColName2") (param paramMap "match/flagColName") angSep)).

(** [_fillPartTableParams], on default parameters *)
Definition fillPartTableParams (paramMap : gmap string string) (tableKey : string) : CssError + PartTableParams :=
  or_value_error (tableKey +:+ "/partitioning") (
    let? subChunks := numeric stoi paramMap "partitioning/subChunks" 0 in
    let? overlap := numeric stod paramMap "partitioning/overlap" d_zero in
    Ret (mkPart (param paramMap "partitioning/dirDb") (param paramMap "partitioning/dirTable")
                (param paramMap "partitioning/dirColName") (param paramMap "partitioning/latColName")
                (param paramMap "partitioning/lonColName") overlap
                (bool_decide (is_Some (paramMap !! "partitioning"%string))) (negb (subChunks =? 0)))).

(** [_fillScanTableParams], on default parameters *)
Definition fillScanTableParams (paramMap : gmap string string) (tableKey : string) : CssError + ScanTableParams :=
  or_value_error (tableKey +:+ "/sharedScan") (
    let? lockInMem := numeric stoi paramMap "sharedScan/lockInMem" 0 in
    let? scanRating := numeric stoi paramMap "sharedScan/scanRating" 0 in
    Ret (mkScan (negb (lockInMem =? 0)) scanRating)).

Definition matchSubKeys : list string :=
  ["match/dirTable1"; "match/dirColName1"; "match/dirTable2"; "match/dirColName2"; "match/flagColName"; "match/angSep"]%string.
Definition partSubKeys : list string :=
  ["partitioning"; "partitioning/subChunks"; "partitioning/dirDb"; "partitioning/dirTable"; "partitioning/dirColName";
   "partitioning/latColName"; "partitioning/lonColName"; "partitioning/overlap"; "partitioning/secIndexColName"]%string.
Definition scanSubKeys : list string := ["sharedScan/lockInMem"; "sharedScan/scanRating"]%string.
Definition tableSubKeys : list string :=
  ["partitioning/subChunks"; "partitioning/dirDb"; "partitioning/dirTable"; "partitioning/dirColName";
   "partitioning/latColName"; "partitioning/lonColName"; "partitioning/overlap"; "partitioning/secIndexColName";
   "sharedScann/lockInMem"; "sharedScan/scanRating"; "match/dirTable1"; "match/dirColName1"; "match/dirTable2";
   "match/dirColName2"; "match/flagColName"; "match/angSep"; "partitioning"]%string.

(** The common part of the readers of table parameters. *)
Definition get_table_params {A} (dbName tableName : string) (subKeys : list string) (dflt : A)
    (fill : gmap string string -> string -> CssError + A) : M A :=
  let# _ := checkVersion true in
  let# prefix := prefix_ in
  let tableKey := table_key prefix dbName tableName in
  let# paramMap := getSubkeys tableKey subKeys in
  if decide (paramMap = ∅) then
    let# _ := exists_or tableKey (NoSuchTable dbName tableName) in css_ret dflt
  else css_lift (fill paramMap tableKey).

(** [getMatchTableParams], [getPartTableParams], [getScanTableParams] *)
Definition getMatchTableParams (dbName tableName : string) : M MatchTableParams :=
  get_table_params dbName tableName matchSubKeys MatchTableParams_default fillMatchTableParams.
Definition getPartTableParams (dbName tableName : string) : M PartTableParams :=
  get_table_params dbName tableName partSubKeys PartTableParams_default fillPartTableParams.
Definition getScanTableParams (dbName tableName : string) : M ScanTableParams :=
  get_table_params dbName tableName scanSubKeys ScanTableParams_default fillScanTableParams.

(** [getTableParams] *)
Definition fillTableParams (paramMap : gmap string string) (tableKey : string) : CssError + TableParams :=
  match fillMatchTableParams paramMap tableKey with
  | inl e => inl e
  | inr m =>
      match fillPartTableParams paramMap tableKey with
      | inl e => inl e
      | inr p =>
          match fillScanTableParams paramMap tableKey with
          | inl e => inl e
          | inr s => inr (mkTableParams m p s)
          end
      end
  end.
Definition getTableParams (dbName tableName : string) : M TableParams :=
  get_table_params dbName tableName tableSubKeys TableParams_default fillTableParams.

(** [try { create(key, value) } catch (KeyExistsError) { throw e }] *)
Definition create_or (key value : string) (e : CssError) : M unit :=
  let# _ := css_catch (kvI_create key value false) (fun err => if key_exists_error err then Some (css_throw e) else None) in
  css_ret tt.

(** The values that [createTable] packs. *)
Definition part_map (p : PartTableParams) : gmap string string :=
  let partMap : gmap string string := list_to_map
    [("dirDb", pp_dirDb p); ("dirTable", pp_dirTable p); ("dirColName", pp_dirColName p); ("latColName", pp_latColName p);
     ("lonColName", pp_lonColName p); ("subChunks", to_string (if pp_subChunks p then 1 else 0))]%string in
  if negb (d_is_zero (pp_overlap p)) then <["overlap"%string := to_string_double (pp_overlap p)]> partMap else partMap.
Definition scan_map (s : ScanTableParams) : gmap string string :=
  let scanMap : gmap string string := if sc_lockInMem s then <["lockInMem"%string := "1"%string]> ∅ else ∅ in
  if negb (sc_scanRating s =? 0) then <["scanRating"%string := to_string (sc_scanRating s)]> scanMap else scanMap.

(** [createTable] *)
Definition createTable (dbName tableName schema : string) (partParams : PartTableParams) (scanParams : ScanTableParams) : M unit :=
  let# _ := checkVersion true in
  let# prefix := prefix_ in
  let tableKey := table_key prefix dbName tableName in
  let# _ := create_or tableKey KEY_STATUS_IGNORE (TableExists dbName tableName) in
  let# _ := kvI_create (tableKey +:+ "/schema") schema false in
  let# _ :=
    (if isPartitioned partParams then
       let# _ := storePacked (tableKey +:+ "/partitioning") (part_map partParams) in
       if sc_lockInMem scanParams || negb (sc_scanRating scanParams =? 0) then
         storePacked (tableKey +:+ "/sharedScan") (scan_map scanParams)
       else css_ret tt
     else css_ret tt) in
  kvI_set tableKey KEY_STATUS_READY.

Definition match_map (m : MatchTableParams) : gmap string string := list_to_map
  [("dirTable1", mp_dirTable1 m); ("dirColName1", mp_dirColName1 m); ("dirTable2", mp_dirTable2 m);
   ("dirColName2", mp_dirColName2 m); ("flagColName", mp_flagColName m); ("angSep", to_string_double (mp_angSep m))]%string.

(** [createMatchTable] *)
Definition createMatchTable (dbName tableName schema : string) (matchParams : MatchTableParams) : M unit :=
  let# _ := checkVersion true in
  let# prefix := prefix_ in
  let tableKey := table_key prefix dbName tableName in
  let# _ := create_or tableKey KEY_STATUS_IGNORE (TableExists dbName tableName) in
  let# _ := kvI_create (tableKey +:+ "/schema") schema false in
  let# _ :=
    (if isMatchTable matchParams then
       let# _ := kvI_create (tableKey +:+ "/match") "1" false in
       let# _ := storePacked (tableKey +:+ "/match") (match_map matchParams) in
       let# _ := kvI_create (tableKey +:+ "/partitioning") "" false in
       css_ret tt
     else css_ret tt) in
  kvI_set tableKey KEY_STATUS_READY.

(** [dropTable] *)
Definition dropTable (dbName tableName : string) : M unit :=
  let# _ := checkVersion true in
  let# prefix := prefix_ in
  delete_or (table_key prefix dbName tableName) (NoSuchTable dbName tableName) (css_ret tt).

(** ** Chunks *)

Definition chunk_key (prefix dbName tableName : string) (chunk : Z) : string :=
  prefix +:+ "/DBS/" +:+ dbName +:+ "/TABLES/" +:+ tableName +:+ "/CHUNKS/" +:+ to_string chunk.

(** [addChunk] *)
Definition addChunk (dbName tableName : string) (chunk : Z) (nodeNames : list string) : M unit :=
  let# _ := checkVersion true in
  let# prefix := prefix_ in
  let key := chunk_key prefix dbName tableName chunk +:+ "/REPLICAS" in
  css_fold (fun _ node =>
    let# path := kvI_create (key +:+ "/") "" true in
    storePacked path (list_to_map [("nodeName", node)]%string)) tt nodeNames.

(** [deleteChunk] *)
Definition deleteChunk (dbName tableName : string) (chunk : Z) : M unit :=
  let# _ := checkVersion true in
  let# prefix := prefix_ in
  kvI_deleteKey (chunk_key prefix dbName tableName chunk).

(** The nodes of the replicas of one chunk. *)
Definition replica_nodes (replicasKey : string) (nodes : list string) (replica : string) : M (list string) :=
  let# nodeMap := getSubkeys (replicasKey +:+ "/" +:+ replica) ["nodeName"%string] in
  css_ret (match nodeMap !! "nodeName"%string with Some node => nodes ++ [node] | None => nodes end).

(** One round of the loop of [getChunks]. *)
Definition chunk_step (chunksKey : string) (result : gmap Z (list string)) (chunk : string) : M (gmap Z (list string)) :=
  match stoi chunk with
  | Raise _ => css_ret result
  | Ret chunkId =>
      let replicasKey := chunksKey +:+ "/" +:+ chunk +:+ "/REPLICAS" in
      let# replicas := css_catch (let# l := kvI_getChildren replicasKey in css_ret (Some (remove_packed l)))
                                 (fun _ => Some (css_ret None)) in
      match replicas with
      | None => css_ret result
      | Some replicas =>
          let# nodes := css_fold (replica_nodes replicasKey) (default [] (result !! chunkId)) replicas in
          css_ret (<[chunkId := nodes]> result)
      end
  end.

(** [getChunks] *)
Definition getChunks (dbName tableName : string) : M (gmap Z (list string)) :=
  let# _ := checkVersion true in
  let# prefix := prefix_ in
  let tableKey := table_key prefix dbName tableName in
  let chunksKey := tableKey +:+ "/CHUNKS" in
  let# chunks := css_catch (let# l := kvI_getChildren chunksKey in css_ret (Some l)) (fun err =>
    if no_such_key err then Some (let# _ := exists_or tableKey (NoSuchTable dbName tableName) in css_ret None) else None) in
  match chunks with
  | None => css_ret ∅
  | Some chunks => css_fold (chunk_step chunksKey) ∅ chunks
  end.

(** ** Nodes *)

(** [getNodeNames] *)
Definition getNodeNames : M (list string) :=
  let# prefix := prefix_ in
  let# nodes := kvI_getChildren (prefix +:+ "/NODES") in
  let# _ := checkVersion true in
  css_ret (remove_packed nodes).

(** [getNodeParams] *)
Definition getNodeParams (nodeName : string) : M NodeParams :=
  let# _ := checkVersion true in
  let# prefix := prefix_ in
  let key := prefix +:+ "/NODES" in
  let# paramMap := getSubkeys key [nodeName; nodeName +:+ "/type"; nodeName +:+ "/host"; nodeName +:+ "/port"] in
  if decide (paramMap = ∅) then
    let# _ := exists_or (key +:+ "/" +:+ nodeName) (NoSuchNode nodeName) in css_ret NodeParams_default
  else
    css_lift (or_value_error (key +:+ "/" +:+ nodeName) (
      let? port := numeric stoi paramMap (nodeName +:+ "/port") 0 in
      Ret (mkNodeParams (param paramMap (nodeName +:+ "/type")) (param paramMap (nodeName +:+ "/host")) port
                        (param paramMap nodeName)))).

(** [getAllNodeParams] *)
Definition getAllNodeParams : M (gmap string NodeParams) :=
  let# _ := checkVersion true in
  let# nodes := getNodeNames in
  css_fold (fun result node =>
    css_catch (let# params := getNodeParams node in
               css_ret (match result !! node with Some _ => result | None => <[node := params]> result end))
              (fun err => match err with NoSuchNode _ => Some (css_ret result) | _ => None end)) ∅ nodes.

(** [addNode] *)
Definition addNode (nodeName : string) (nodeParams : NodeParams) : M unit :=
  let# _ := checkVersion false in
  let# prefix := prefix_ in
  let key := prefix +:+ "/NODES/" +:+ nodeName in
  let# _ := create_or key "CREATING" (NodeExists nodeName) in
  let# _ := storePacked key (list_to_map
    [("type", np_type nodeParams); ("host", np_host nodeParams); ("port", to_string (np_port nodeParams))]%string) in
  kvI_set key (np_state nodeParams).

(** [setNodeState] *)
Definition setNodeState (nodeName newState : string) : M unit :=
  let# _ := checkVersion true in
  let# prefix := prefix_ in
  let key := prefix +:+ "/NODES/" +:+ nodeName in
  let# _ := exists_or key (NoSuchNode nodeName) in
  kvI_set key newState.

(** [deleteNode] *)
Definition deleteNode (nodeName : string) : M unit :=
  let# _ := checkVersion true in
  let# dbNames := getDbNames in
  let# _ := css_fold (fun _ dbName =>
    let# tblNames := getTableNames dbName false in
    css_fold (fun _ tblName =>
      let# chunks := getChunks dbName tblName in
      css_fold (fun _ (chunkPair : Z * list string) =>
        css_fold (fun _ node => if decide (node = nodeName) then css_throw (NodeInUse nodeName) else css_ret tt)
                 tt chunkPair.2) tt (in_order chunks)) tt tblNames) tt dbNames in
  let# prefix := prefix_ in
  delete_or (prefix +:+ "/NODES/" +:+ nodeName) (NoSuchNode nodeName) (css_ret tt).

End Methods.
