(* ===== verification/CssLogic.v ===== *)
(** * css: reasoning about CssAccess

    A program logic for the methods of [CssAccess.v] on any store that keeps
    the promise of [KvInterface.v]: [wp m Q t] says that the method [m], called on
    an object whose store holds the tree [t], ends with a result and a tree for
    which [Q] holds. Rules for the calls on the store, for packed values and for
    reading sub-keys. *)

From Stdlib Require Import Ascii String.
From S2P Require Import Prelude.
From S2P Require Import StdString.
From S2P Require Import CssPath.
From S2P Require Import KvInterface.
From S2P Require Import PropertyTree.
From S2P Require Import CssAccess.

Local Open Scope Z_scope.

Implicit Types (t : Tree) (p q sp : list string) (n v k : string).

Section Logic.
Context {St : Type} `{KvSpec St} `{PropertyTreeLaws} (pp : list string).

(** A constructed object with a store that may be modified. *)
Definition css_rep (c : CssAccess St) t : Prop :=
  kv_rep (ca_kvI c) t /\ kv_readOnly (ca_kvI c) = false /\ ca_versionOk c = true /\ ca_prefix c = render pp /\ path_ok pp.

Definition wp {A} (m : css St A) (Q : CssError + A -> Tree -> Prop) t : Prop :=
  forall c, css_rep c t -> exists t', css_rep (m c).1 t' /\ Q (m c).2 t'.

Lemma css_rep_ok c t : css_rep c t -> tree_ok t.
Proof. intros [Hr _]. by eapply kv_rep_ok. Qed.

(** ** Structural rules *)

Lemma wp_intro {A} (m : css St A) Q t : (tree_ok t -> path_ok pp -> wp m Q t) -> wp m Q t.
Proof. intros Hw c Hc. apply (Hw (css_rep_ok c t Hc)); [apply Hc|done]. Qed.

Lemma wp_mono {A} (m : css St A) (Q Q' : CssError + A -> Tree -> Prop) t :
  wp m Q t -> (forall r t', Q r t' -> Q' r t') -> wp m Q' t.
Proof. intros Hw HQ c Hc. destruct (Hw c Hc) as (t' & ? & ?). eauto. Qed.

Lemma wp_ret {A} (a : A) Q t : Q (inr a) t -> wp (css_ret a) Q t.
Proof. intros HQ c Hc. by exists t. Qed.

Lemma wp_throw {A} (e : CssError) Q t : Q (inl e) t -> wp (css_throw e : css St A) Q t.
Proof. intros HQ c Hc. by exists t. Qed.

Lemma wp_lift {A} (r : CssError + A) Q t : Q r t -> wp (css_lift r) Q t.
Proof. intros HQ c Hc. by exists t. Qed.

Lemma wp_bind {A B} (m : css St A) (k : A -> css St B) Q t :
  wp m (fun r t' => match r with inl e => Q (inl e) t' | inr a => wp (k a) Q t' end) t -> wp (css_bind m k) Q t.
Proof.
  intros Hw c Hc. destruct (Hw c Hc) as (t' & Hc' & HQ). unfold css_bind. destruct (m c) as [c' [e|a]]; simpl in *.
  - by exists t'.
  - by apply HQ.
Qed.

Lemma wp_catch {A} (m : css St A) h Q t :
  wp m (fun r t' => match r with
                    | inl e => match h e with Some m' => wp m' Q t' | None => Q (inl e) t' end
                    | inr a => Q (inr a) t'
                    end) t -> wp (css_catch m h) Q t.
Proof.
  intros Hw c Hc. destruct (Hw c Hc) as (t' & Hc' & HQ). unfold css_catch. destruct (m c) as [c' [e|a]]; simpl in *.
  - destruct (h e) as [m'|]; [by apply HQ|by exists t'].
  - by exists t'.
Qed.

(** A loop: an invariant between the list still to do and the accumulator. *)
Lemma wp_fold {A B} (f : B -> A -> css St B) (I : list A -> B -> Tree -> Prop) Q l b t :
  I l b t ->
  (forall a l b t, I (a :: l) b t -> wp (f b a) (fun r t' => match r with inl e => Q (inl e) t' | inr b' => I l b' t' end) t) ->
  (forall b t, I [] b t -> Q (inr b) t) ->
  wp (css_fold f b l) Q t.
Proof.
  intros HI Hstep Hend. revert b t HI. induction l as [|a l IH]; intros b t HI; simpl; [by apply wp_ret, Hend|].
  apply wp_bind. eapply wp_mono; [by apply Hstep|]. intros [e|b'] t' HQ; [done|]. by apply IH.
Qed.

(** ** Calls on the store *)

Lemma wp_prefix Q t : Q (inr (render pp)) t -> wp prefix_ Q t.
Proof. intros HQ c Hc. exists t. split; [done|]. unfold prefix_. simpl. destruct Hc as (_ & _ & _ & -> & _). done. Qed.

Lemma wp_checkVersion b Q t : Q (inr tt) t -> wp (checkVersion b) Q t.
Proof. intros HQ c Hc. exists t. unfold checkVersion. pose proof Hc as (_ & _ & Hv & _). by rewrite Hv. Qed.

Lemma sim_step c t o : css_rep c t -> op_ok o ->
  exists t', tree_step false t o (kv_exec o (ca_kvI c)).2 t' /\
             css_rep (mkCssAccess (kv_exec o (ca_kvI c)).1 (ca_prefix c) (ca_versionOk c)) t'.
Proof.
  intros (Hr & Hro & Hv & Hp & Hok) Ho. destruct (kv_sim _ _ o Hr Ho) as (t' & Hs & Hr' & Hro'). exists t'.
  rewrite Hro in *. split; [done|]. by repeat split.
Qed.

Lemma wp_set p v Q t : path_ok p -> Q (inr tt) (tree_set p v t) -> wp (kvI_set (render p) v) Q t.
Proof.
  intros Hp HQ c Hc. destruct (sim_step c t (OpSet p v) Hc Hp) as (t' & Hs & Hc'). simpl in Hs, Hc'. unfold kvI_set.
  destruct (kv_set (render p) v (ca_kvI c)) as [s r]. simpl in *. inversion Hs as [| | | | | | | | | | | | | | |]; subst; try done;
    destruct r as [e|[]]; simplify_eq/=; try done. eauto.
Qed.

Lemma wp_create p v Q t : path_ok p ->
  (t !! p = None -> Q (inr (render p)) (tree_set p v t)) ->
  (is_Some (t !! p) -> Q (inl (KeyExistsError (render p))) t) ->
  wp (kvI_create (render p) v false) Q t.
Proof.
  intros Hp HQ HQ' c Hc. destruct (sim_step c t (OpCreate p v) Hc Hp) as (t' & Hs & Hc'). simpl in Hs, Hc'. unfold kvI_create.
  destruct (kv_create (render p) v false (ca_kvI c)) as [s r]. simpl in *. inversion Hs; subst; try done;
    destruct r as [err|res]; simplify_eq/=; eauto.
Qed.

Lemma wp_create_unique p n v Q t : path_ok p -> has_char SLASH n = false ->
  (forall id, 0 < id -> t !! (p ++ [n +:+ zero_pad 10 id]) = None -> (Z.of_nat (size t) < INT_MAX -> id <= INT_MAX) ->
     Q (inr (render (p ++ [n +:+ zero_pad 10 id]))) (tree_set (p ++ [n +:+ zero_pad 10 id]) v t)) ->
  wp (kvI_create (render (p ++ [n])) v true) Q t.
Proof.
  intros Hp Hn HQ c Hc. destruct (sim_step c t (OpCreateUnique p n v) Hc (conj Hp Hn)) as (t' & Hs & Hc'). simpl in Hs, Hc'.
  unfold kvI_create. destruct (kv_create (render (p ++ [n])) v true (ca_kvI c)) as [s r]. simpl in *.
  inversion Hs; subst; try done; destruct r as [err|res]; simplify_eq/=; eauto.
Qed.

Lemma wp_delete p Q t : path_ok p ->
  (is_Some (t !! p) -> Q (inr tt) (tree_delete p t)) -> (t !! p = None -> Q (inl (NoSuchKey (render p))) t) ->
  wp (kvI_deleteKey (render p)) Q t.
Proof.
  intros Hp HQ HQ' c Hc. destruct (sim_step c t (OpDeleteKey p) Hc Hp) as (t' & Hs & Hc'). simpl in Hs, Hc'. unfold kvI_deleteKey.
  destruct (kv_deleteKey (render p) (ca_kvI c)) as [s r]. simpl in *. inversion Hs; subst; try done;
    destruct r as [e|[]]; simplify_eq/=; eauto.
Qed.

(** A call that only reads. *)
Lemma read_step c t o : css_rep c t -> op_ok o ->
  match o with OpCreate _ _ | OpCreateUnique _ _ _ | OpSet _ _ | OpDeleteKey _ => False | _ => True end ->
  tree_step false t o (kv_exec o (ca_kvI c)).2 t.
Proof.
  intros Hc Ho Hro. destruct (sim_step c t o Hc Ho) as (t' & Hs & _). destruct o; try done; inversion Hs; subst; try done; by econstructor.
Qed.

Lemma wp_exists p Q t : path_ok p -> Q (inr (bool_decide (is_Some (t !! p)))) t -> wp (kvI_exists (render p)) Q t.
Proof.
  intros Hp HQ c Hc. pose proof (read_step c t (OpExists p) Hc Hp I) as Hs. simpl in Hs. exists t. split; [done|].
  unfold kvI_exists. simpl. inversion Hs; subst; congruence.
Qed.

Lemma wp_get p v Q t : path_ok p -> Q (inr (default v (t !! p))) t -> wp (kvI_get (render p) v) Q t.
Proof.
  intros Hp HQ c Hc. pose proof (read_step c t (OpGet p v false) Hc Hp I) as Hs. simpl in Hs. exists t. split; [done|].
  unfold kvI_get. simpl. destruct (kv_get (render p) v false (ca_kvI c)) as [e|x]; inversion Hs as [| | | | | |? ? ? ? Ht|? ? Ht| | | | | | | |]; subst; try done;
    by rewrite Ht in HQ.
Qed.

Lemma wp_getChildren p Q t : path_ok p ->
  (is_Some (t !! p) -> Q (inr (sorted_keys (tree_children p t))) t) ->
  (t !! p = None -> Q (inl (NoSuchKey (render p))) t) -> wp (kvI_getChildren (render p)) Q t.
Proof.
  intros Hp HQ HQ' c Hc. pose proof (read_step c t (OpGetChildren p) Hc Hp I) as Hs. simpl in Hs. exists t. split; [done|].
  unfold kvI_getChildren. simpl. destruct (kv_getChildren (render p) (ca_kvI c)) as [e|x]; inversion Hs; subst; try done; eauto.
Qed.

Lemma wp_getChildrenValues p Q t : path_ok p ->
  (is_Some (t !! p) -> Q (inr (tree_children p t)) t) ->
  (t !! p = None -> Q (inl (NoSuchKey (render p))) t) -> wp (kvI_getChildrenValues (render p)) Q t.
Proof.
  intros Hp HQ HQ' c Hc. pose proof (read_step c t (OpGetChildrenValues p) Hc Hp I) as Hs. simpl in Hs. exists t. split; [done|].
  unfold kvI_getChildrenValues. simpl. destruct (kv_getChildrenValues (render p) (ca_kvI c)) as [e|x]; inversion Hs; subst; try done; eauto.
Qed.

Lemma wp_getMany ps Q t : Forall path_ok ps ->
  (forall m, (forall k v, m !! k = Some v <-> exists p, p ∈ ps /\ k = render p /\ t !! p = Some v) -> Q (inr m) t) ->
  wp (kvI_getMany (render <$> ps)) Q t.
Proof.
  intros Hps HQ c Hc. pose proof (read_step c t (OpGetMany ps) Hc Hps I) as Hs. simpl in Hs. exists t. split; [done|].
  unfold kvI_getMany. simpl. inversion Hs; subst; eauto.
Qed.

(** ** Packed values *)

Lemma foldl_first (l : list (string * string)) : NoDup l.*1 -> forall (r : gmap string string), (forall k, k ∈ l.*1 -> r !! k = None) ->
  foldl (fun result (e : string * pt_node) =>
      if pt_empty e.2 then match result !! e.1 with Some _ => result | None => <[e.1 := pt_data e.2]> result end
      else result) r (prod_map id pt_leaf <$> l) = r ∪ list_to_map l.
Proof.
  induction l as [|[k v] l IH]; simpl; intros Hn r Hr; [by rewrite (right_id_L ∅ (∪))|].
  inversion Hn as [|? ? Hk Hn']; subst. rewrite (Hr k) by left. rewrite IH; [|done|].
  - rewrite <- insert_union_l. rewrite <- insert_union_r; [done|]. apply Hr. left.
  - intros k' Hk'. rewrite lookup_insert_ne by (intros ->; done). apply Hr. by right.
Qed.

Definition packable (data : gmap string string) : Prop :=
  map_Forall (fun k v => k <> ""%string /\ printable k = true /\ printable v = true) data.

Lemma entries_map (data : gmap string string) :
  list_to_map ((fun k => (k, default ""%string (data !! k))) <$> sorted_keys data) = data.
Proof.
  apply map_eq. intros k. apply option_eq. intros v.
  rewrite <- elem_of_list_to_map by (rewrite <- list_fmap_compose; simpl; rewrite list_fmap_id; apply sorted_keys_NoDup).
  rewrite list_elem_of_fmap. split.
  - intros (k' & [= -> ->] & [x Hx]%sorted_keys_elem). by rewrite Hx.
  - intros Hk. exists k. rewrite Hk, sorted_keys_elem, Hk. split; [done|by eexists].
Qed.

(** What [storePacked] stores can be unpacked. *)
Lemma wp_storePacked p data Q t : path_ok p -> packable data ->
  (forall text, (forall key, unpackJson key text = inr data) -> Q (inr tt) (tree_set (p ++ [packedKeyName]) text t)) ->
  wp (storePacked (render p) data) Q t.
Proof.
  intros Hp Hd HQ. unfold storePacked.
  destruct (json_roundtrip ((fun k => (k, default ""%string (data !! k))) <$> sorted_keys data) false) as (text & -> & Hne & _ & Hread).
  { rewrite Forall_fmap, Forall_forall. intros k [v Hv]%sorted_keys_elem. simpl. rewrite Hv. simpl. by apply Hd in Hv. }
  change (render p +:+ "/" +:+ packedKeyName) with (render p +:+ String SLASH packedKeyName). rewrite <- render_snoc.
  apply wp_set; [by apply path_ok_snoc|]. apply HQ. intros key. unfold unpackJson.
  rewrite decide_False by (intros He; by destruct text). rewrite Hread. f_equal. rewrite foldl_first.
  - by rewrite (left_id_L ∅ (∪)), entries_map.
  - rewrite <- list_fmap_compose. simpl. rewrite list_fmap_id. apply sorted_keys_NoDup.
  - intros. apply lookup_empty.
Qed.

(** The packed values of a path. *)
Definition packed t q : CssError + gmap string string :=
  match t !! (q ++ [packedKeyName]) with
  | None => inr ∅
  | Some data => unpackJson (render (q ++ [packedKeyName])) data
  end.

(** They can be read, and are named as keys can be. *)
Definition packed_ok t q : Prop := exists m, packed t q = inr m /\ forall k, is_Some (m !! k) -> name_ok k.

(** The value that the code finds for the sub-key [sp] of [p]: a key of its own,
    or else a packed value. *)
Definition tree_sub t p sp : option string :=
  match t !! (p ++ sp) with
  | Some v => Some v
  | None => match packed t (p ++ removelast sp) with inr m => m !! List.last sp ""%string | inl _ => None end
  end.

Definition sub_ok sp : Prop := sp <> [] /\ path_ok sp.

Lemma sub_key p sp : sp <> [] -> render p +:+ "/" +:+ subkey sp = render (p ++ sp).
Proof. intros Hsp. rewrite render_app, <- (render_subkey sp) by done. done. Qed.

Lemma snoc_key p n : render p +:+ "/" +:+ n = render (p ++ [n]).
Proof. by rewrite render_snoc. Qed.

Lemma parentKey_render p sp : sub_ok sp -> parentKey (render p) (subkey sp) = render (p ++ removelast sp).
Proof.
  intros [Hne Hok]. destruct sp as [|n sp _] using rev_ind; [done|]. rewrite removelast_last.
  apply path_ok_snoc in Hok as [_ Hn]. unfold parentKey. destruct sp as [|a sp].
  - rewrite app_nil_r. change ([] ++ [n]) with [n]. rewrite subkey_cons, append_nil_r, rfind_none by apply Hn. done.
  - change ((a :: sp) ++ [n]) with (a :: (sp ++ [n])). rewrite subkey_cons, render_snoc, <- append_assoc, rfind_app.
    simpl rfind. rewrite (rfind_none _ _ (proj2 Hn)). simpl. rewrite Nat.add_0_r, substr_to_app, <- subkey_cons.
    by apply sub_key.
Qed.

Lemma removelast_ok sp : path_ok sp -> path_ok (removelast sp).
Proof. destruct sp as [|n sp _] using rev_ind; [done|]. rewrite removelast_last. by intros [? _]%path_ok_snoc. Qed.

Lemma packedKeyName_ok : name_ok packedKeyName.
Proof. done. Qed.

(** The keys that are asked for. *)
Lemma wanted_spec p sps : path_ok p -> Forall sub_ok sps ->
  exists P ps, wanted_keys (render p) (subkey <$> sps) = (P, render <$> ps) /\
    (forall k, k ∈ P <-> exists sp, sp ∈ sps /\ k = render (p ++ removelast sp)) /\ Forall path_ok ps /\
    (forall q, q ∈ ps <-> exists sp, sp ∈ sps /\ (q = p ++ sp \/ q = (p ++ removelast sp) ++ [packedKeyName])).
Proof.
  intros Hp Hs. induction sps as [|sp sps IH] using rev_ind.
  - exists ∅, []. split; [done|]. set_solver.
  - apply Forall_app in Hs as [Hs Hsp]. rewrite Forall_singleton in Hsp. destruct (IH Hs) as (P & ps & Hw & HP & Hps & Hq).
    assert (Hok : path_ok (p ++ sp) /\ path_ok ((p ++ removelast sp) ++ [packedKeyName])).
    { destruct Hsp as [Hne Hok]. split; [by apply path_ok_app|]. apply path_ok_snoc. split; [|done]. apply path_ok_app. split; [done|].
      by apply removelast_ok. }
    unfold wanted_keys in *. rewrite fmap_app, foldl_app, Hw. simpl. rewrite parentKey_render by done. rewrite snoc_key, sub_key by apply Hsp.
    destruct (decide _) as [Hin|Hin].
    + exists P, (ps ++ [p ++ sp]). rewrite fmap_app. split; [done|]. apply HP in Hin as (sp' & Hsp' & He). split; [|split].
      * intros k. rewrite HP. setoid_rewrite elem_of_app. split; [naive_solver|]. intros (x & [Hx|Hx%list_elem_of_singleton] & ->); [eauto|subst x; eauto].
      * apply Forall_app. split; [done|]. rewrite Forall_singleton. apply Hok.
      * intros q. rewrite elem_of_app, Hq, list_elem_of_singleton. setoid_rewrite elem_of_app. setoid_rewrite list_elem_of_singleton.
        split; [naive_solver|]. intros (x & [Hx| ->] & [->| ->]); [eauto 6|eauto 6|by right|]. left. exists sp'. split; [done|]. right.
        f_equal. rewrite Forall_forall in Hs. destruct (Hs sp' Hsp') as [_ Hok'], Hsp as [_ Hok''].
        apply render_inj; [apply path_ok_app; split; [done|by apply removelast_ok]..|done].
    + exists ({[render (p ++ removelast sp)]} ∪ P), ((ps ++ [(p ++ removelast sp) ++ [packedKeyName]]) ++ [p ++ sp]).
      rewrite !fmap_app. split; [done|]. split; [|split].
      * intros k. rewrite elem_of_union, elem_of_singleton, HP. setoid_rewrite elem_of_app. setoid_rewrite list_elem_of_singleton. naive_solver.
      * rewrite !Forall_app, !Forall_singleton. naive_solver.
      * intros q. rewrite !elem_of_app, Hq, !list_elem_of_singleton. setoid_rewrite elem_of_app. setoid_rewrite list_elem_of_singleton. naive_solver.
Qed.

(** [K] is [K0] with the packed values of the parents in [D] added. *)
Definition unpacked t (K0 : gmap string string) (D : list string) (K : gmap string string) : Prop :=
  forall k v, K !! k = Some v <->
    K0 !! k = Some v \/
    (K0 !! k = None /\ exists q n m, render q ∈ D /\ path_ok q /\ k = render (q ++ [n]) /\ packed t q = inr m /\ m !! n = Some v).

Lemma add_packed_spec t K0 D K q :
  unpacked t K0 D K -> path_ok q -> packed_ok t q ->
  (forall q, render q ∈ D -> path_ok q -> packed_ok t q) ->
  K0 !! render (q ++ [packedKeyName]) = t !! (q ++ [packedKeyName]) ->
  exists K', add_packed K (render q) = inr K' /\ unpacked t K0 (D ++ [render q]) K'.
Proof.
  unfold unpacked. intros HK Hq (m & Hm & Hnames) HD Hreq. unfold add_packed. rewrite snoc_key.
  assert (Hlook : K !! render (q ++ [packedKeyName]) = t !! (q ++ [packedKeyName])).
  { apply option_eq. intros v. rewrite HK, Hreq. split; [|by left]. intros [?|(Hn & q' & n & m' & HqD & Hq' & He & Hm' & Hv)]; [done|].
    exfalso. destruct (HD q' HqD Hq') as (m'' & Hm'' & Hn''). rewrite Hm' in Hm''. injection Hm'' as <-.
    apply render_inj in He; [|by apply path_ok_snoc|apply path_ok_snoc; split; [done|]; apply Hn''; by eexists].
    apply app_inj_tail in He as [<- <-]. unfold packed in Hm'. rewrite Hn in Hm'. by simplify_eq. }
  rewrite Hlook. unfold packed in Hm. destruct (t !! (q ++ [packedKeyName])) as [data|] eqn:Ed.
  - rewrite Hm. eexists. split; [done|]. intros k v. rewrite lookup_union_Some_raw, HK.
    assert (Hinj : Inj eq eq (fun k => render q +:+ "/" +:+ k)).
    { intros a b Hab. by apply append_inv_head, (append_inv_head "/") in Hab. }
    rewrite lookup_kmap_Some by done. setoid_rewrite snoc_key.
    assert (Hpk : packed t q = inr m) by (unfold packed; by rewrite Ed).
    setoid_rewrite elem_of_app. setoid_rewrite list_elem_of_singleton. split.
    + intros [[?|(Hk & q' & n & m' & ? & ?)]|[Hk (n & -> & Hv)]]; [by left|right; split; [done|]; exists q', n, m'; tauto|].
      destruct (K0 !! render (q ++ [n])) as [x|] eqn:E0; [exfalso; apply eq_None_not_Some in Hk; apply Hk; exists x; apply HK; by left|].
      right. split; [done|]. exists q, n, m. tauto.
    + intros [?|(Hk & q' & n & m' & [HqD|He] & Hq' & -> & Hm' & Hv)]; [by left; left|left; right; split; [done|]; by exists q', n, m'|].
      apply render_inj in He as ->; [|done|done]. assert (m' = m) as -> by congruence.
      destruct (K !! render (q ++ [n])) as [x|] eqn:EK; [|right; split; [done|]; by exists n].
      apply HK in EK as [?|(_ & q1 & n1 & m1 & HqD & Hq1 & He & Hm1 & Hv1)]; [congruence|].
      left; right; split; [done|]. exists q, n, m. apply render_inj in He; [|by apply path_ok_snoc; eauto|].
      * apply app_inj_tail in He as [<- <-]. done.
      * apply path_ok_snoc. split; [done|]. destruct (HD q1 HqD Hq1) as (m2 & Hm2 & Hn2). apply Hn2. assert (m2 = m1) as -> by congruence. by eexists.
  - exists K. split; [done|]. intros k v. rewrite HK. setoid_rewrite elem_of_app. setoid_rewrite list_elem_of_singleton. split.
    + intros [?|(Hk & q' & n & m' & ? & ?)]; [by left|right; split; [done|]; exists q', n, m'; tauto].
    + intros [?|(Hk & q' & n & m' & [?|He] & Hq' & ? & Hm' & Hv)]; [by left|right; split; [done|]; by exists q', n, m'|].
      apply render_inj in He as ->; [|done|done]. unfold packed in Hm'. rewrite Ed in Hm'. by simplify_eq.
Qed.

(** The packed values of all parents are added. *)
Lemma wp_add_packed t K0 L Q :
  (forall k, k ∈ L -> exists q, path_ok q /\ k = render q /\ packed_ok t q /\
     K0 !! render (q ++ [packedKeyName]) = t !! (q ++ [packedKeyName])) ->
  (forall K, unpacked t K0 L K -> Q (inr K) t) ->
  wp (css_fold (fun keyMap pk => css_lift (add_packed keyMap pk)) K0 L) Q t.
Proof.
  intros HL HQ. apply (wp_fold _ (fun l K t' => t' = t /\ exists D, D ++ l = L /\ unpacked t K0 D K)).
  - split; [done|]. exists []. split; [done|]. intros k v. set_solver.
  - intros k l K t' (-> & D & HD & HK). apply wp_lift. destruct (HL k) as (q & Hq & -> & Hpk & Hreq); [set_solver|].
    destruct (add_packed_spec t K0 D K q HK Hq Hpk) as (K' & -> & HK'); [|done|].
    + intros q' Hq' Hok. destruct (HL (render q')) as (q1 & Hq1 & He & Hpk' & _); [set_solver|]. by apply render_inj in He as ->.
    + split; [done|]. exists (D ++ [render q]). by rewrite <- app_assoc.
  - intros K t' (-> & D & HD & HK). rewrite app_nil_r in HD. subst D. by apply HQ.
Qed.

Lemma result_foldl (K : gmap string string) (f : string -> string) l (r : gmap string string) k v :
  (forall k v, r !! k = Some v -> K !! f k = Some v) ->
  foldl (fun result subKey =>
    match K !! f subKey with
    | Some v => match result !! subKey with Some _ => result | None => <[subKey := v]> result end
    | None => result
    end) r l !! k = Some v <-> r !! k = Some v \/ (k ∈ l /\ K !! f k = Some v).
Proof.
  revert r. induction l as [|a l IH]; intros r Hr; simpl; [set_solver|].
  set (r' := match K !! f a with Some v => match r !! a with Some _ => r | None => <[a := v]> r end | None => r end).
  assert (Hstep : forall k v, r' !! k = Some v <-> r !! k = Some v \/ (k = a /\ K !! f k = Some v)).
  { intros k0 v0. subst r'. clear IH. destruct (K !! f a) as [x|] eqn:E; [|naive_solver congruence].
    destruct (r !! a) as [y|] eqn:E'.
    - pose proof (Hr _ _ E'). naive_solver congruence.
    - rewrite lookup_insert. destruct (decide (a = k0)) as [<-|Hne]; naive_solver congruence. }
  rewrite IH; [rewrite Hstep; set_solver|]. intros k' v' [?|[_ ?]]%Hstep; auto.
Qed.

(** [getSubkeys] finds exactly the sub-keys that are keys of their own or packed. *)
Lemma wp_getSubkeys p sps Q t :
  path_ok p -> Forall sub_ok sps -> (forall sp, sp ∈ sps -> packed_ok t (p ++ removelast sp)) ->
  (forall M : gmap string string, (forall sp, sp ∈ sps -> M !! subkey sp = tree_sub t p sp) ->
     (forall k, is_Some (M !! k) -> exists sp, sp ∈ sps /\ k = subkey sp) -> Q (inr M) t) ->
  wp (getSubkeys (render p) (subkey <$> sps)) Q t.
Proof.
  intros Hp Hs Hpk HQ. unfold getSubkeys. destruct (wanted_spec p sps Hp Hs) as (P & ps & -> & HP & Hps & Hq).
  assert (Hrm : forall sp, sp ∈ sps -> path_ok (p ++ removelast sp)).
  { intros sp Hsp. rewrite Forall_forall in Hs. apply path_ok_app. split; [done|]. by apply removelast_ok, Hs. }
  apply wp_bind, wp_getMany; [done|]. intros K0 HK0.
  assert (Hask : forall q, q ∈ ps -> K0 !! render q = t !! q).
  { intros q Hqs. apply option_eq. intros v. rewrite HK0. split; [|by eauto]. intros (q' & Hq' & He & Ht).
    rewrite Forall_forall in Hps. by apply render_inj in He as ->; auto. }
  apply wp_bind, wp_add_packed.
  { intros k. rewrite merge_sort_Permutation, elem_of_elements. intros (sp & Hsp & ->)%HP.
    exists (p ++ removelast sp). split; [by apply Hrm|]. split; [done|]. split; [by apply Hpk|]. apply Hask, Hq. eauto. }
  intros K HK. apply wp_ret, HQ.
  - intros sp Hsp. apply option_eq. intros v. rewrite (result_foldl K (fun k => render p +:+ "/" +:+ k)) by (intros ? ? Hr; by rewrite lookup_empty in Hr).
    rewrite lookup_empty. rewrite Forall_forall in Hs. destruct (Hs sp Hsp) as [Hne Hok]. rewrite sub_key, (HK _ v) by done.
    rewrite Hask by (apply Hq; eauto). unfold tree_sub. destruct (Hpk sp Hsp) as (m & Hm & Hnm). rewrite Hm.
    destruct sp as [|n sp _] using rev_ind; [done|]. rewrite removelast_last, last_last in *. rewrite app_assoc.
    assert (Hpn : path_ok ((p ++ sp) ++ [n])) by (rewrite <- app_assoc; by apply path_ok_app).
    split.
    + intros [?|[_ [->|(-> & q & n' & m' & HqD & Hqo & He & Hm' & Hv)]]]; [done|done|].
      rewrite merge_sort_Permutation, elem_of_elements in HqD. apply HP in HqD as (sp' & Hsp' & Hq').
      apply render_inj in Hq' as ->; [|done|by apply Hrm]. destruct (Hpk sp' Hsp') as (m2 & Hm2 & Hn2). assert (m2 = m') as -> by congruence.
      apply render_inj in He; [|done|apply path_ok_snoc; split; [done|]; apply Hn2; by eexists].
      apply app_inj_tail in He as [He <-]. rewrite <- He, Hm in Hm'. congruence.
    + intros Hv. right. split; [apply list_elem_of_fmap; by exists (sp ++ [n])|].
      destruct (t !! ((p ++ sp) ++ [n])) as [x|]; [by left|]. right. split; [done|]. exists (p ++ sp), n, m.
      split; [|split; [by apply path_ok_snoc in Hpn as [? _]|done]]. rewrite merge_sort_Permutation, elem_of_elements. apply HP.
      exists (sp ++ [n]). by rewrite removelast_last.
  - intros k [v Hv]. apply (result_foldl K (fun k => render p +:+ "/" +:+ k)) in Hv; [|intros ? ? Hr; by rewrite lookup_empty in Hr].
    rewrite lookup_empty in Hv. destruct Hv as [?|[Hk _]]; [done|]. apply list_elem_of_fmap in Hk as (sp & -> & Hsp). eauto.
Qed.

End Logic.
