(* ===== verification/CssTables.v ===== *)
(** * css: what is stored for a table

    [layout]: the keys below a table, as [createTable] and [createMatchTable]
    build them step by step and as the readers of table parameters find them. *)

From Stdlib Require Import Ascii String.
From S2P Require Import Prelude.
From S2P Require Import Double.
From S2P Require Import StdString.
From S2P Require Import CssPath.
From S2P Require Import KvInterface.
From S2P Require Import PropertyTree.
From S2P Require Import StdFloat.
From S2P Require Import CssAccess.
From S2P Require Import CssLogic.

Local Open Scope Z_scope.

Implicit Types (t : Tree) (q b y : list string) (n d v : string) (dirs : gmap string (gmap string string)).

(** ** Paths of the store *)

Definition table_path (pp : list string) (db tbl : string) : list string := pp ++ ["DBS"; db; "TABLES"; tbl].

Lemma table_key_render pp db tbl : table_key (render pp) db tbl = render (table_path pp db tbl).
Proof. unfold table_path. rewrite render_app. cbn [render]. by rewrite append_nil_r. Qed.

Lemma table_path_ok pp db tbl : path_ok pp -> name_ok db -> name_ok tbl -> path_ok (table_path pp db tbl).
Proof. intros. apply path_ok_app. split; [done|]. unfold path_ok. by rewrite !Forall_cons. Qed.

(** ** Layout *)

Section Layout.
Context `{PropertyTree}.

(** The value [st] of the table, its schema, nothing packed in it, and the
    groups of packed values below it. *)
Definition layout t b (st : string) (sch : option string) dirs : Prop :=
  t !! b = Some st /\ t !! (b ++ ["schema"%string]) = sch /\ t !! (b ++ [packedKeyName]) = None /\
  (forall d data, dirs !! d = Some data -> forall k, is_Some (data !! k) -> name_ok k) /\
  forall d, d <> "schema"%string -> d <> packedKeyName ->
    match dirs !! d with
    | None => forall y, t !! (b ++ d :: y) = None
    | Some data => is_Some (t !! (b ++ [d])) /\ packed t (b ++ [d]) = inr data /\
                   forall n y, n <> packedKeyName -> t !! (b ++ d :: n :: y) = None
    end.

(** [tree_set] below [b], seen below [b]. *)
Lemma tree_set_local b x v t y :
  tree_set (b ++ x) v t !! (b ++ y) =
  if decide (y = x) then Some v
  else match t !! (b ++ y) with Some z => Some z | None => if decide (y `prefix_of` x) then Some ""%string else None end.
Proof.
  rewrite tree_set_lookup. destruct (decide (y = x)) as [->|Hne]; [by rewrite decide_True|].
  rewrite decide_False by (intros He; by apply app_inv_head in He). destruct (t !! (b ++ y)); [done|].
  apply decide_ext. split; [by apply prefix_app_inv|by apply prefix_app].
Qed.

Lemma tree_set_base b v t y : y <> [] -> tree_set b v t !! (b ++ y) = t !! (b ++ y).
Proof.
  intros Hy. pose proof (tree_set_local b [] v t y) as He. rewrite app_nil_r in He. rewrite He, decide_False by done. destruct (t !! (b ++ y)); [done|].
  rewrite decide_False; [done|]. intros Hp%prefix_nil_inv. done.
Qed.

Lemma tree_set_above b x v t : x <> [] -> tree_set (b ++ x) v t !! b = Some (default ""%string (t !! b)).
Proof.
  intros Hx. pose proof (tree_set_local b x v t []) as He. rewrite app_nil_r in He. rewrite He, decide_False by done.
  destruct (t !! b); [done|]. by rewrite decide_True by apply prefix_nil.
Qed.

Lemma layout_fresh t b st : tree_ok t -> t !! b = None -> layout (tree_set b st t) b st None ∅.
Proof.
  intros Hok Hb. assert (Hn : forall y, y <> [] -> tree_set b st t !! (b ++ y) = None).
  { intros y Hy. rewrite tree_set_base by done. by apply tree_ok_none. }
  split; [apply tree_set_eq|]. split; [by apply Hn|]. split; [by apply Hn|]. split; [intros ? ?; by rewrite lookup_empty|].
  intros d _ _. rewrite lookup_empty. intros y. by apply Hn.
Qed.

Lemma layout_status t b st st' sch dirs : layout t b st sch dirs -> layout (tree_set b st' t) b st' sch dirs.
Proof.
  intros (_ & Hs & Hp & Hn & Hd). split; [apply tree_set_eq|]. rewrite !tree_set_base by done. split; [done|]. split; [done|].
  split; [done|]. intros d H1 H2. specialize (Hd d H1 H2). destruct (dirs !! d) as [data|].
  - destruct Hd as (Hi & Hpk & Hnn). split; [by rewrite tree_set_base|]. split.
    + unfold packed in *. rewrite <- app_assoc in *. by rewrite tree_set_base.
    + intros n y Hny. rewrite tree_set_base by done. by apply Hnn.
  - intros y. by rewrite tree_set_base.
Qed.

(** A key directly below the table. *)
Lemma tree_set_child b d v t y :
  tree_set (b ++ [d]) v t !! (b ++ y) = if decide (y = [d]) then Some v else if decide (y = []) then Some (default ""%string (t !! b)) else t !! (b ++ y).
Proof.
  rewrite tree_set_local. destruct (decide (y = [d])) as [->|Hd]; [done|]. destruct (decide (y = [])) as [->|Hy].
  - rewrite app_nil_r. destruct (t !! b); [done|]. by rewrite decide_True by apply prefix_nil.
  - destruct (t !! (b ++ y)); [done|]. rewrite decide_False; [done|]. intros [z Hz]. destruct y as [|? [|]]; simplify_eq/=.
Qed.

Lemma layout_schema t b st s dirs : layout t b st None dirs -> layout (tree_set (b ++ ["schema"%string]) s t) b st (Some s) dirs.
Proof.
  intros (Hst & Hs & Hp & Hn & Hd). split; [by rewrite tree_set_above, Hst|].
  split; [apply tree_set_eq|]. split; [by rewrite tree_set_child, !decide_False by done|]. split; [done|].
  intros d H1 H2. specialize (Hd d H1 H2). destruct (dirs !! d) as [data|].
  - destruct Hd as (Hi & Hpk & Hnn). split; [rewrite tree_set_child, !decide_False by congruence; done|]. split.
    + unfold packed in *. rewrite <- app_assoc in *. by rewrite tree_set_child, !decide_False by (simpl; congruence).
    + intros n y Hny. rewrite tree_set_child, !decide_False by congruence. by apply Hnn.
  - intros y. rewrite tree_set_child, !decide_False by congruence. apply Hd.
Qed.

(** A plain key for a group, without packed values. *)
Lemma layout_dir t b st sch dirs d v : d <> "schema"%string -> d <> packedKeyName -> dirs !! d = None ->
  layout t b st sch dirs -> layout (tree_set (b ++ [d]) v t) b st sch (<[d := ∅]> dirs).
Proof.
  intros H1 H2 Hnone (Hst & Hs & Hp & Hn & Hd). split; [by rewrite tree_set_above, Hst|].
  split; [by rewrite tree_set_child, !decide_False by congruence|]. split; [by rewrite tree_set_child, !decide_False by congruence|].
  split. { intros d' data [[<- <-]|[_ ?]]%lookup_insert_Some k; [rewrite lookup_empty; by intros [? [=]]|eauto]. }
  intros d' H1' H2'. rewrite lookup_insert. destruct (decide (d = d')) as [<-|Hne].
  - pose proof (Hd d H1 H2) as Hd1. rewrite Hnone in Hd1. split; [rewrite tree_set_eq; by eexists|]. split.
    + unfold packed. rewrite <- app_assoc, tree_set_child, !decide_False by (simpl; congruence). simpl. by rewrite Hd1.
    + intros n y Hny. rewrite tree_set_child, !decide_False by congruence. apply Hd1.
  - specialize (Hd d' H1' H2'). destruct (dirs !! d') as [data|].
    + destruct Hd as (Hi & Hpk & Hnn). split; [rewrite tree_set_child, !decide_False by congruence; done|]. split.
      * unfold packed in *. rewrite <- app_assoc in *. by rewrite tree_set_child, !decide_False by (simpl; congruence).
      * intros n y Hny. rewrite tree_set_child, !decide_False by congruence. by apply Hnn.
    + intros y. rewrite tree_set_child, !decide_False by congruence. apply Hd.
Qed.

(** The packed values of a group. *)
Lemma tree_set_packed b d text t y :
  tree_set (b ++ [d; packedKeyName]) text t !! (b ++ y) =
  if decide (y = [d; packedKeyName]) then Some text
  else match t !! (b ++ y) with Some z => Some z | None => if decide (y = [] \/ y = [d]) then Some ""%string else None end.
Proof.
  rewrite tree_set_local. destruct (decide (y = _)) as [->|Hd]; [done|]. destruct (t !! (b ++ y)); [done|]. apply decide_ext. split.
  - intros [z Hz]. destruct y as [|a [|a' [|]]]; simplify_eq/=; auto.
  - intros [->| ->]; [apply prefix_nil|by exists [packedKeyName]].
Qed.

Lemma layout_packed t b st sch dirs d text data : d <> "schema"%string -> d <> packedKeyName ->
  (forall key, unpackJson key text = inr data) -> (forall k, is_Some (data !! k) -> name_ok k) ->
  layout t b st sch dirs -> layout (tree_set (b ++ [d; packedKeyName]) text t) b st sch (<[d := data]> dirs).
Proof.
  intros H1 H2 Hun Hnames (Hst & Hs & Hp & Hn & Hd).
  assert (Hother : forall y, y <> [] -> y <> [d] -> y <> [d; packedKeyName] -> tree_set (b ++ [d; packedKeyName]) text t !! (b ++ y) = t !! (b ++ y)).
  { intros y ? ? ?. rewrite tree_set_packed, decide_False by done. destruct (t !! (b ++ y)); [done|]. by rewrite decide_False by tauto. }
  split; [by rewrite tree_set_above, Hst|].
  split; [by rewrite Hother by congruence|]. split; [by rewrite Hother by congruence|].
  split. { intros d' data' [[<- <-]|[_ ?]]%lookup_insert_Some k; eauto. }
  intros d' H1' H2'. rewrite lookup_insert. destruct (decide (d = d')) as [<-|Hne].
  - split; [|split].
    + rewrite tree_set_packed, decide_False by done. destruct (t !! (b ++ [d])); [by eexists|]. rewrite decide_True by auto. by eexists.
    + unfold packed. rewrite <- app_assoc. simpl. by rewrite tree_set_eq.
    + intros n y Hny. rewrite Hother by congruence. specialize (Hd d H1 H2). destruct (dirs !! d); [by apply Hd|apply Hd].
  - specialize (Hd d' H1' H2'). destruct (dirs !! d') as [data'|].
    + destruct Hd as (Hi & Hpk & Hnn). split; [by rewrite Hother by congruence|]. split.
      * unfold packed in *. rewrite <- app_assoc in *. simpl in *. by rewrite Hother by congruence.
      * intros n y Hny. rewrite Hother by congruence. by apply Hnn.
    + intros y. rewrite Hother by congruence. apply Hd.
Qed.

(** ** Reading a layout *)

Lemma layout_packed_ok t b st sch dirs : layout t b st sch dirs -> packed_ok t b.
Proof. intros (_ & _ & Hp & _). exists ∅. unfold packed. rewrite Hp. split; [done|]. intros k. rewrite lookup_empty. by intros [? [=]]. Qed.

Lemma layout_packed_dir t b st sch dirs d : d <> "schema"%string -> d <> packedKeyName -> layout t b st sch dirs ->
  packed t (b ++ [d]) = inr (default ∅ (dirs !! d)).
Proof.
  intros H1 H2 (_ & _ & _ & _ & Hd). specialize (Hd d H1 H2). destruct (dirs !! d) as [data|]; [apply Hd|].
  unfold packed. rewrite <- app_assoc. simpl. by rewrite Hd.
Qed.

Lemma layout_dir_ok t b st sch dirs d : d <> "schema"%string -> d <> packedKeyName -> layout t b st sch dirs -> packed_ok t (b ++ [d]).
Proof.
  intros H1 H2 Hl. exists (default ∅ (dirs !! d)). split; [by eapply layout_packed_dir|]. destruct Hl as (_ & _ & _ & Hn & _).
  intros k. destruct (dirs !! d) eqn:E; [by eapply Hn|]. simpl. rewrite lookup_empty. by intros [? [=]].
Qed.

Lemma layout_sub t b st sch dirs d n : d <> "schema"%string -> d <> packedKeyName -> n <> packedKeyName ->
  layout t b st sch dirs -> tree_sub t b [d; n] = dirs !! d ≫= (fun data => data !! n).
Proof.
  intros H1 H2 H3 Hl. unfold tree_sub. simpl. rewrite (layout_packed_dir t b st sch dirs) by done.
  destruct Hl as (_ & _ & _ & _ & Hd). specialize (Hd d H1 H2). destruct (dirs !! d) as [data|]; simpl.
  - destruct Hd as (_ & _ & Hnn). by rewrite Hnn.
  - by rewrite Hd.
Qed.

Lemma layout_sub1 t b st sch dirs n : layout t b st sch dirs -> tree_sub t b [n] = t !! (b ++ [n]).
Proof.
  intros (_ & _ & Hp & _). unfold tree_sub. destruct (t !! (b ++ [n])); [done|]. simpl. rewrite app_nil_r. unfold packed. by rewrite Hp.
Qed.

Lemma layout_has t b st sch dirs d : d <> "schema"%string -> d <> packedKeyName -> layout t b st sch dirs ->
  is_Some (t !! (b ++ [d])) <-> is_Some (dirs !! d).
Proof.
  intros H1 H2 (_ & _ & _ & _ & Hd). specialize (Hd d H1 H2). destruct (dirs !! d) as [data|].
  - split; [by eexists|]. intros _. apply Hd.
  - split; [|by intros [? [=]]]. rewrite (Hd []). by intros [? [=]].
Qed.

Lemma layout_no_dir t b st sch dirs d : d <> "schema"%string -> d <> packedKeyName -> layout t b st sch dirs ->
  dirs !! d = None -> is_Some (t !! (b ++ [d])) -> False.
Proof. intros H1 H2 Hl Hd Hs. apply (layout_has t b st sch dirs) in Hs; [|done..]. rewrite Hd in Hs. by destruct Hs. Qed.

End Layout.

(** ** css: creating tables and reading their parameters

    [createTable] and [createMatchTable] lay a table out ([CssTables.v]), and the
    readers of table parameters find what was laid out. *)

(** ** Printed numbers *)

Lemma printable_app s s' : printable (s +:+ s') = printable s && printable s'.
Proof. apply all_chars_app. Qed.

Lemma printable_digits s : all_chars isdigit s = true -> printable s = true.
Proof.
  apply all_chars_impl. intros a. unfold isdigit. intros [H1%Z.leb_le H2%Z.leb_le]%andb_true_iff.
  apply andb_true_iff. split; apply Z.leb_le; lia.
Qed.

Lemma printable_to_string z : printable (to_string z) = true.
Proof.
  destruct (Z.lt_ge_cases z 0) as [Hz|Hz].
  - rewrite to_string_neg by done. cbn [printable all_chars]. apply (printable_digits (show_nat (- z))), show_nat_digits. lia.
  - rewrite to_string_pos by done. by apply printable_digits, show_nat_digits.
Qed.

Lemma printable_to_string_double (x : double) : printable (to_string_double x) = true.
Proof.
  destruct x as [neg|neg| |neg m e]; [by destruct neg..|done|]. unfold to_string_double. cbv zeta.
  assert (Hm : 0 <= millionths m e).
  { unfold millionths, div_round. destruct (0 <=? e) eqn:E; [|].
    - pose proof (Z.pow_nonneg 2 e). lia.
    - apply Z.leb_gt in E. pose proof (Z.div_pos (Z.pos m * 1000000) (2 ^ (- e)) ltac:(lia) ltac:(apply Z.pow_pos_nonneg; lia)). repeat case_match; lia. }
  assert (Hp : printable (show_nat (millionths m e / 1000000) +:+ "." +:+ zero_pad 6 (millionths m e mod 1000000)) = true).
  { rewrite !printable_app. rewrite printable_digits by (apply show_nat_digits, Z.div_pos; lia).
    rewrite (printable_digits (zero_pad _ _)) by (apply zero_pad_digits, Z.mod_pos_bound; lia). done. }
  by destruct neg.
Qed.

(** ** Table parameters *)

(** What is left of the parameters of a table: [createTable] stores them for
    partitioned tables only, and an overlap with six decimals. *)
Definition stored_part (p : PartTableParams) (overlap : double) : PartTableParams :=
  if pp_partitioned p then
    mkPart (pp_dirDb p) (pp_dirTable p) (pp_dirColName p) (pp_latColName p) (pp_lonColName p)
           (if d_is_zero (pp_overlap p) then d_zero else overlap) true (pp_subChunks p)
  else PartTableParams_default.
Definition stored_scan (p : PartTableParams) (s : ScanTableParams) : ScanTableParams :=
  if pp_partitioned p then s else ScanTableParams_default.

Definition scan_stored (s : ScanTableParams) : bool := sc_lockInMem s || negb (sc_scanRating s =? 0).

(** The groups of packed values of a table. *)
Definition table_dirs (p : PartTableParams) (s : ScanTableParams) : gmap string (gmap string string) :=
  if pp_partitioned p then
    let dirs := <["partitioning"%string := part_map p]> ∅ in
    if scan_stored s then <["sharedScan"%string := scan_map s]> dirs else dirs
  else ∅.

Definition part_printable (p : PartTableParams) : Prop :=
  Forall (fun s => printable s = true) [pp_dirDb p; pp_dirTable p; pp_dirColName p; pp_latColName p; pp_lonColName p].

Ltac packable_entry :=
  repeat first [apply map_Forall_insert_2 | apply map_Forall_empty];
  try (split; [done|split; [done|]]); try done; try apply printable_to_string; try apply printable_to_string_double.

Lemma part_map_packable p : part_printable p -> packable (part_map p).
Proof.
  unfold part_printable. rewrite !Forall_cons. intros (? & ? & ? & ? & ? & _). unfold packable, part_map. cbn [list_to_map foldr uncurry fst snd].
  destruct (negb _); packable_entry.
Qed.

Lemma scan_map_packable s : packable (scan_map s).
Proof. unfold packable, scan_map. destruct (sc_lockInMem s), (negb _); packable_entry. Qed.

(** Keys of the packed values are names. *)
Definition named (data : gmap string string) : Prop := map_Forall (fun k _ => name_ok k) data.

Lemma named_lookup data k : named data -> is_Some (data !! k) -> name_ok k.
Proof. intros Hn [v Hv]. by apply Hn in Hv. Qed.

Lemma part_map_named p : named (part_map p).
Proof.
  unfold named, part_map. cbn [list_to_map foldr uncurry fst snd].
  destruct (negb _); repeat first [apply map_Forall_insert_2; [done|] | apply map_Forall_empty].
Qed.

Lemma scan_map_named s : named (scan_map s).
Proof.
  unfold named, scan_map. destruct (sc_lockInMem s), (negb _); repeat first [apply map_Forall_insert_2; [done|] | apply map_Forall_empty].
Qed.

(** Reading what was packed. *)
Lemma part_map_lookup p :
  part_map p !! "dirDb"%string = Some (pp_dirDb p) /\ part_map p !! "dirTable"%string = Some (pp_dirTable p) /\
  part_map p !! "dirColName"%string = Some (pp_dirColName p) /\ part_map p !! "latColName"%string = Some (pp_latColName p) /\
  part_map p !! "lonColName"%string = Some (pp_lonColName p) /\
  part_map p !! "subChunks"%string = Some (to_string (if pp_subChunks p then 1 else 0)) /\
  part_map p !! "overlap"%string = if d_is_zero (pp_overlap p) then None else Some (to_string_double (pp_overlap p)).
Proof.
  unfold part_map. cbn [list_to_map foldr uncurry fst snd]. destruct (d_is_zero _); cbn [negb]; repeat split; by simplify_map_eq.
Qed.

Lemma scan_map_lookup s :
  scan_map s !! "lockInMem"%string = (if sc_lockInMem s then Some "1"%string else None) /\
  scan_map s !! "scanRating"%string = if sc_scanRating s =? 0 then None else Some (to_string (sc_scanRating s)).
Proof. unfold scan_map. destruct (sc_lockInMem s), (sc_scanRating s =? 0); cbn [negb]; split; by simplify_map_eq. Qed.

(** [M] has the group [d] of the packed values [data]. *)
Definition group (M : gmap string string) d (data : gmap string string) (names : list string) : Prop :=
  forall n, n ∈ names -> M !! subkey [d; n] = data !! n.

Lemma group_field M d data names n x : group M d data names -> n ∈ names -> data !! n = x -> M !! subkey [d; n] = x.
Proof. intros Hg Hn <-. by apply Hg. Qed.

Definition part_names : list string := ["subChunks"; "dirDb"; "dirTable"; "dirColName"; "latColName"; "lonColName"; "overlap"]%string.
Definition match_names : list string := ["dirTable1"; "dirColName1"; "dirTable2"; "dirColName2"; "flagColName"; "angSep"]%string.
Definition scan_names : list string := ["lockInMem"; "scanRating"]%string.

Ltac inlist := unfold part_names, match_names, scan_names; set_solver.

Lemma fill_part M key p overlap :
  group M "partitioning" (part_map p) part_names -> is_Some (M !! "partitioning"%string) -> pp_partitioned p = true ->
  (d_is_zero (pp_overlap p) = false -> stod (to_string_double (pp_overlap p)) = Ret overlap) ->
  fillPartTableParams M key = inr (stored_part p overlap).
Proof.
  intros Hg Hpart Hp Hov. destruct (part_map_lookup p) as (L1 & L2 & L3 & L4 & L5 & L6 & L7).
  pose proof (group_field M "partitioning" _ part_names "dirDb" _ Hg ltac:(inlist) L1 : M !! "partitioning/dirDb"%string = _) as E1.
  pose proof (group_field M "partitioning" _ part_names "dirTable" _ Hg ltac:(inlist) L2 : M !! "partitioning/dirTable"%string = _) as E2.
  pose proof (group_field M "partitioning" _ part_names "dirColName" _ Hg ltac:(inlist) L3 : M !! "partitioning/dirColName"%string = _) as E3.
  pose proof (group_field M "partitioning" _ part_names "latColName" _ Hg ltac:(inlist) L4 : M !! "partitioning/latColName"%string = _) as E4.
  pose proof (group_field M "partitioning" _ part_names "lonColName" _ Hg ltac:(inlist) L5 : M !! "partitioning/lonColName"%string = _) as E5.
  pose proof (group_field M "partitioning" _ part_names "subChunks" _ Hg ltac:(inlist) L6 : M !! "partitioning/subChunks"%string = _) as E6.
  pose proof (group_field M "partitioning" _ part_names "overlap" _ Hg ltac:(inlist) L7 : M !! "partitioning/overlap"%string = _) as E7.
  unfold fillPartTableParams, numeric, param, stored_part. rewrite E1, E2, E3, E4, E5, E6, E7, Hp. rewrite bool_decide_true by done.
  rewrite stoi_to_string by (unfold INT_MIN, INT_MAX; destruct (pp_subChunks p); lia). cbn [bind default].
  destruct (d_is_zero _); [|rewrite Hov by done]; simpl; by destruct (pp_subChunks p).
Qed.

Lemma fill_part_none (M : gmap string string) key :
  (forall n, n ∈ part_names -> M !! subkey ["partitioning"%string; n] = None) ->
  fillPartTableParams M key = inr (mkPart "" "" "" "" "" d_zero (bool_decide (is_Some (M !! "partitioning"%string))) false).
Proof.
  intros Hnone.
  pose proof (Hnone "subChunks"%string ltac:(inlist) : M !! "partitioning/subChunks"%string = _) as E1.
  pose proof (Hnone "dirDb"%string ltac:(inlist) : M !! "partitioning/dirDb"%string = _) as E2.
  pose proof (Hnone "dirTable"%string ltac:(inlist) : M !! "partitioning/dirTable"%string = _) as E3.
  pose proof (Hnone "dirColName"%string ltac:(inlist) : M !! "partitioning/dirColName"%string = _) as E4.
  pose proof (Hnone "latColName"%string ltac:(inlist) : M !! "partitioning/latColName"%string = _) as E5.
  pose proof (Hnone "lonColName"%string ltac:(inlist) : M !! "partitioning/lonColName"%string = _) as E6.
  pose proof (Hnone "overlap"%string ltac:(inlist) : M !! "partitioning/overlap"%string = _) as E7.
  unfold fillPartTableParams, numeric, param. by rewrite E1, E2, E3, E4, E5, E6, E7.
Qed.

Lemma fill_scan M key s (lock : bool) :
  INT_MIN <= sc_scanRating s <= INT_MAX ->
  M !! "sharedScan/lockInMem"%string = (if lock then scan_map s !! "lockInMem"%string else None) ->
  M !! "sharedScan/scanRating"%string = scan_map s !! "scanRating"%string ->
  fillScanTableParams M key = inr (mkScan (lock && sc_lockInMem s) (sc_scanRating s)).
Proof.
  intros Hr E1 E2. destruct (scan_map_lookup s) as [L1 L2]. rewrite L1 in E1. rewrite L2 in E2.
  unfold fillScanTableParams, numeric. rewrite E1, E2.
  destruct lock, (sc_lockInMem s); simpl; (destruct (sc_scanRating s =? 0) eqn:Ez; [apply Z.eqb_eq in Ez as ->|rewrite stoi_to_string by done]; done).
Qed.

Lemma fill_match_none M key :
  (forall n, n ∈ match_names -> M !! subkey ["match"%string; n] = None) -> fillMatchTableParams M key = inr MatchTableParams_default.
Proof.
  intros Hg.
  pose proof (Hg "dirTable1"%string ltac:(inlist) : M !! "match/dirTable1"%string = _) as E1.
  pose proof (Hg "dirColName1"%string ltac:(inlist) : M !! "match/dirColName1"%string = _) as E2.
  pose proof (Hg "dirTable2"%string ltac:(inlist) : M !! "match/dirTable2"%string = _) as E3.
  pose proof (Hg "dirColName2"%string ltac:(inlist) : M !! "match/dirColName2"%string = _) as E4.
  pose proof (Hg "flagColName"%string ltac:(inlist) : M !! "match/flagColName"%string = _) as E5.
  pose proof (Hg "angSep"%string ltac:(inlist) : M !! "match/angSep"%string = _) as E6.
  unfold fillMatchTableParams, numeric, param. by rewrite E1, E2, E3, E4, E5, E6.
Qed.

Section Tables.
Context {St : Type} `{KvSpec St} `{PropertyTreeLaws} (pp : list string).

(** ** Creating a table *)

(** Nothing changes outside [b] but missing ancestors of [b]. *)
Definition frame b t t' : Prop := forall q, ~ b `prefix_of` q -> forall v, t' !! q = tree_set b v t !! q.

Lemma frame_lookup b v v' t q : ~ b `prefix_of` q -> tree_set b v t !! q = tree_set b v' t !! q.
Proof. intros Hq. rewrite !tree_set_lookup, !(decide_False (P := q = b)); [done|intros ->; by apply Hq..]. Qed.

Lemma frame_start b v t : frame b t (tree_set b v t).
Proof. intros q Hq v'. by apply frame_lookup. Qed.

Lemma frame_set b x v t t' : frame b t t' -> frame b t (tree_set (b ++ x) v t').
Proof.
  intros Hf q Hq w. rewrite tree_set_lookup, (decide_False (P := q = b ++ x)) by (intros ->; apply Hq; by eexists).
  rewrite <- (Hf q Hq w). destruct (t' !! q) eqn:E; [done|]. destruct (decide (q `prefix_of` b ++ x)) as [Hp|]; [|done].
  exfalso. assert (Hqb : q `prefix_of` b).
  { destruct (prefix_weak_total q b (b ++ x) Hp) as [?|?]; [by eexists|done|done]. }
  rewrite (Hf q Hq w), tree_set_lookup, (decide_False (P := q = b)) in E by (intros ->; by apply Hq).
  destruct (t !! q); [done|]. by rewrite decide_True in E.
Qed.

Lemma wp_create_or b v e Q t : path_ok b ->
  (t !! b = None -> Q (inr tt) (tree_set b v t)) -> (is_Some (t !! b) -> Q (inl e) t) -> wp pp (create_or (render b) v e) Q t.
Proof.
  intros Hb HQ HQ'. unfold create_or. apply wp_bind, wp_catch, wp_create; [done|intros Hn; by apply wp_ret, HQ|intros Hs].
  simpl. by apply wp_throw, HQ'.
Qed.

Lemma child_key b n : render b +:+ String SLASH n = render (b ++ [n]).
Proof. by rewrite render_snoc. Qed.

(** [createTable] fails if the table is there, and lays it out otherwise. *)
Lemma wp_createTable db tbl schema p s Q t : path_ok pp -> name_ok db -> name_ok tbl -> tree_ok t -> part_printable p ->
  (is_Some (t !! table_path pp db tbl) -> Q (inl (TableExists db tbl)) t) ->
  (t !! table_path pp db tbl = None -> forall t', frame (table_path pp db tbl) t t' ->
     layout t' (table_path pp db tbl) KEY_STATUS_READY (Some schema) (table_dirs p s) -> Q (inr tt) t') ->
  wp pp (createTable db tbl schema p s) Q t.
Proof.
  intros Hpp Hdb Htbl Hok Hpr Hexi HQ. pose proof (table_path_ok pp db tbl Hpp Hdb Htbl) as Hb. unfold createTable.
  apply wp_bind, wp_checkVersion, wp_bind, wp_prefix. rewrite table_key_render. set (b := table_path pp db tbl) in *.
  apply wp_bind, wp_create_or; [done|intros Hnone|by apply Hexi].
  pose proof (layout_fresh t b KEY_STATUS_IGNORE Hok Hnone) as Hl. pose proof (frame_start b KEY_STATUS_IGNORE t) as Hf.
  set (t0 := tree_set b KEY_STATUS_IGNORE t) in *.
  change (render b +:+ "/schema") with (render b +:+ String SLASH "schema"). rewrite child_key.
  apply wp_bind, wp_create; [by apply path_ok_snoc|intros _|intros Hs; destruct Hl as (_ & Hl & _); rewrite Hl in Hs; by destruct Hs].
  apply (layout_schema _ _ _ schema) in Hl. apply (frame_set b ["schema"%string] schema) in Hf.
  set (t1 := tree_set (b ++ ["schema"%string]) schema t0) in *.
  assert (Hend : forall t2 dirs, layout t2 b KEY_STATUS_IGNORE (Some schema) dirs -> frame b t t2 -> dirs = table_dirs p s ->
    wp pp (kvI_set (render b) KEY_STATUS_READY) Q t2).
  { intros t2 dirs Hl2 Hf2 ->. apply wp_set; [done|]. apply HQ; [done| |by eapply layout_status].
    rewrite <- (app_nil_r b) at 2. by apply frame_set. }
  apply wp_bind. unfold isPartitioned. unfold table_dirs in Hend. destruct (pp_partitioned p); [|apply wp_ret; by eapply Hend].
  change (render b +:+ "/partitioning") with (render b +:+ String SLASH "partitioning"). rewrite child_key.
  apply wp_bind, wp_storePacked; [by apply path_ok_snoc|by apply part_map_packable|]. intros text Htext. rewrite <- app_assoc. simpl app.
  apply (layout_packed _ _ _ _ _ "partitioning" text (part_map p)) in Hl; [|done..|intros k; apply named_lookup, part_map_named].
  apply (frame_set b ["partitioning"%string; packedKeyName] text) in Hf.
  fold (scan_stored s). destruct (scan_stored s); [|apply wp_ret; by eapply Hend].
  change (render b +:+ "/sharedScan") with (render b +:+ String SLASH "sharedScan"). rewrite child_key.
  apply wp_storePacked; [by apply path_ok_snoc|by apply scan_map_packable|]. intros text' Htext'. rewrite <- app_assoc. simpl app.
  apply (layout_packed _ _ _ _ _ "sharedScan" text' (scan_map s)) in Hl; [|done..|intros k; apply named_lookup, scan_map_named].
  apply (frame_set b ["sharedScan"%string; packedKeyName] text') in Hf. by eapply Hend.
Qed.

(** ** Reading a table *)

Definition plain_sub (sp : list string) : Prop :=
  match sp with
  | [d] => name_ok d /\ d <> packedKeyName
  | [d; n] => name_ok d /\ name_ok n /\ d <> "schema"%string /\ d <> packedKeyName /\ n <> packedKeyName
  | _ => False
  end.
#[local] Instance plain_sub_dec sp : Decision (plain_sub sp).
Proof. destruct sp as [|d [|n [|]]]; apply _. Defined.

Lemma plain_sub_ok sp : plain_sub sp -> sub_ok sp.
Proof.
  destruct sp as [|d [|n [|]]]; try done; simpl; intros Hs; (split; [done|]); unfold path_ok; rewrite ?Forall_cons; naive_solver.
Qed.

(** The sub-keys of a table that has been laid out. *)
Lemma wp_table_subkeys b st sch dirs sps Q t :
  path_ok b -> layout t b st sch dirs -> Forall plain_sub sps ->
  (forall M : gmap string string,
     (forall d n, [d; n] ∈ sps -> M !! subkey [d; n] = dirs !! d ≫= (fun data => data !! n)) ->
     (forall d, [d] ∈ sps -> M !! subkey [d] = t !! (b ++ [d])) ->
     (forall k, is_Some (M !! k) -> k ∈ subkey <$> sps) -> Q (inr M) t) ->
  wp pp (getSubkeys (render b) (subkey <$> sps)) Q t.
Proof.
  intros Hb Hl Hs HQ. pose proof (proj1 (Forall_forall _ _) Hs) as Hs'. apply wp_getSubkeys; [done| | |].
  - eapply Forall_impl; [exact Hs|]. apply plain_sub_ok.
  - intros sp Hsp. specialize (Hs' sp Hsp). destruct sp as [|d [|n [|]]]; try done; simpl.
    + rewrite app_nil_r. by eapply layout_packed_ok.
    + destruct Hs' as (_ & _ & ? & ? & _). by eapply layout_dir_ok.
  - intros M HM HM'. apply HQ.
    + intros d n Hin. rewrite HM by done. destruct (Hs' _ Hin) as (_ & _ & ? & ? & ?). by eapply layout_sub.
    + intros d Hin. rewrite HM by done. by eapply layout_sub1.
    + intros k (sp & Hsp & ->)%HM'. apply list_elem_of_fmap. eauto.
Qed.

Lemma wp_get_table_params {A} db tbl sps (dflt : A) fill Q t st sch dirs :
  let b := table_path pp db tbl in
  path_ok b -> layout t b st sch dirs -> Forall plain_sub sps -> fill ∅ (render b) = inr dflt ->
  (forall M : gmap string string,
     (forall d n, [d; n] ∈ sps -> M !! subkey [d; n] = dirs !! d ≫= (fun data => data !! n)) ->
     (forall d, [d] ∈ sps -> M !! subkey [d] = t !! (b ++ [d])) ->
     (forall k, is_Some (M !! k) -> k ∈ subkey <$> sps) -> Q (fill M (render b)) t) ->
  wp pp (get_table_params db tbl (subkey <$> sps) dflt fill) Q t.
Proof.
  intros b Hb Hl Hs Hfill HQ. unfold get_table_params. apply wp_bind, wp_checkVersion, wp_bind, wp_prefix.
  rewrite table_key_render. fold b. apply wp_bind. eapply wp_table_subkeys; [done|done|done|]. intros M HM1 HM2 HM3.
  destruct (decide (M = ∅)) as [->|Hne]; [|by apply wp_lift, HQ].
  apply wp_bind, wp_bind, wp_exists; [done|]. rewrite bool_decide_true by (destruct Hl as [-> _]; by eexists). simpl.
  apply wp_ret, wp_ret. rewrite <- Hfill. by apply HQ.
Qed.

Definition matchPaths : list (list string) := (fun n => ["match"%string; n]) <$> match_names.
Definition partPaths : list (list string) :=
  ["partitioning"%string] :: ((fun n => ["partitioning"%string; n]) <$>
    ["subChunks"; "dirDb"; "dirTable"; "dirColName"; "latColName"; "lonColName"; "overlap"; "secIndexColName"]%string).
Definition scanPaths : list (list string) := (fun n => ["sharedScan"%string; n]) <$> scan_names.
Definition tablePaths : list (list string) :=
  ((fun n => ["partitioning"%string; n]) <$>
    ["subChunks"; "dirDb"; "dirTable"; "dirColName"; "latColName"; "lonColName"; "overlap"; "secIndexColName"]%string) ++
  [["sharedScann"; "lockInMem"]; ["sharedScan"; "scanRating"]]%string ++ matchPaths ++ [["partitioning"%string]].

Lemma matchSubKeys_paths : matchSubKeys = subkey <$> matchPaths.
Proof. reflexivity. Qed.
Lemma partSubKeys_paths : partSubKeys = subkey <$> partPaths.
Proof. reflexivity. Qed.
Lemma scanSubKeys_paths : scanSubKeys = subkey <$> scanPaths.
Proof. reflexivity. Qed.
Lemma tableSubKeys_paths : tableSubKeys = subkey <$> tablePaths.
Proof. reflexivity. Qed.

Lemma plain_paths : Forall plain_sub matchPaths /\ Forall plain_sub partPaths /\ Forall plain_sub scanPaths /\ Forall plain_sub tablePaths.
Proof. repeat split; decide_closed. Qed.

(** The paths that the readers ask for. *)
Lemma asked_paths :
  Forall (fun n => ["partitioning"%string; n] ∈ partPaths /\ ["partitioning"%string; n] ∈ tablePaths) part_names /\
  Forall (fun n => ["match"%string; n] ∈ matchPaths /\ ["match"%string; n] ∈ tablePaths) match_names /\
  ["partitioning"%string] ∈ partPaths /\ ["partitioning"%string] ∈ tablePaths /\ ["sharedScan"; "scanRating"]%string ∈ tablePaths /\
  Forall (fun n => ["sharedScan"%string; n] ∈ scanPaths) scan_names /\ "sharedScan/lockInMem"%string ∉ tableSubKeys.
Proof. repeat split; decide_closed. Qed.

(** The group [partitioning] of a table. *)
Lemma table_dirs_part p s : table_dirs p s !! "partitioning"%string = if pp_partitioned p then Some (part_map p) else None.
Proof. unfold table_dirs. destruct (pp_partitioned p); [|done]. by destruct (scan_stored s); simplify_map_eq. Qed.
Lemma table_dirs_scan p s :
  table_dirs p s !! "sharedScan"%string = if pp_partitioned p && scan_stored s then Some (scan_map s) else None.
Proof. unfold table_dirs. destruct (pp_partitioned p); [|done]. by destruct (scan_stored s); simplify_map_eq. Qed.
Lemma table_dirs_other p s d : d <> "partitioning"%string -> d <> "sharedScan"%string -> table_dirs p s !! d = None.
Proof. intros. unfold table_dirs. destruct (pp_partitioned p); [|done]. by destruct (scan_stored s); simplify_map_eq. Qed.

(** The packed scan parameters; what is not stored is what the defaults are. *)
Lemma scan_group p s n : pp_partitioned p = true -> table_dirs p s !! "sharedScan"%string ≫= (fun data => data !! n) = scan_map s !! n.
Proof.
  intros Hp. rewrite table_dirs_scan, Hp. simpl. destruct (scan_stored s) eqn:E; [done|]. simpl. unfold scan_stored in E.
  apply orb_false_iff in E as [E1 E2]. unfold scan_map. by rewrite E1, E2.
Qed.

(** The partitioning parameters that are read, whatever else is asked for. *)
Lemma read_part (M : gmap string string) key p s overlap (sps : list (list string)) :
  (d_is_zero (pp_overlap p) = false -> stod (to_string_double (pp_overlap p)) = Ret overlap) ->
  (forall n, n ∈ part_names -> ["partitioning"%string; n] ∈ sps) ->
  (forall d n, [d; n] ∈ sps -> M !! subkey [d; n] = table_dirs p s !! d ≫= (fun data => data !! n)) ->
  (is_Some (M !! "partitioning"%string) <-> pp_partitioned p = true) ->
  fillPartTableParams M key = inr (stored_part p overlap).
Proof.
  intros Hov Hin HM Hpart. destruct (pp_partitioned p) eqn:Hp.
  - apply fill_part; [|by apply Hpart|done|done]. intros n Hn. rewrite HM by auto. by rewrite table_dirs_part, Hp.
  - rewrite fill_part_none by (intros n Hn; rewrite HM by auto; by rewrite table_dirs_part, Hp).
    rewrite bool_decide_false by (intros Hs; by apply Hpart in Hs). unfold stored_part. by rewrite Hp.
Qed.

(** Reading the parameters of a table that [createTable] has laid out. *)
Section Read.
Context (db tbl : string) (p : PartTableParams) (s : ScanTableParams) (schema : string) (overlap : double) (t : Tree).
Context (Hb : path_ok (table_path pp db tbl))
        (Hl : layout t (table_path pp db tbl) KEY_STATUS_READY (Some schema) (table_dirs p s))
        (Hov : d_is_zero (pp_overlap p) = false -> stod (to_string_double (pp_overlap p)) = Ret overlap)
        (Hr : INT_MIN <= sc_scanRating s <= INT_MAX).

Definition reads {A} (m : css St A) (a : A) : Prop := wp pp m (fun r t' => r = inr a /\ t' = t) t.

Lemma has_part (M : gmap string string) :
  M !! "partitioning"%string = t !! (table_path pp db tbl ++ ["partitioning"%string]) ->
  is_Some (M !! "partitioning"%string) <-> pp_partitioned p = true.
Proof.
  intros ->. rewrite (layout_has t _ _ _ _ "partitioning") by done. rewrite table_dirs_part. destruct (pp_partitioned p); [by split; eauto|].
  split; [by intros [? [=]]|done].
Qed.

Lemma reads_part : reads (getPartTableParams db tbl) (stored_part p overlap).
Proof.
  unfold reads, getPartTableParams. rewrite partSubKeys_paths. eapply wp_get_table_params; [done|done|apply plain_paths|done|].
  intros M HM1 HM2 _. split; [|done]. eapply read_part; [done| |exact HM1|].
  - intros n Hn. destruct asked_paths as [Ha _]. rewrite Forall_forall in Ha. by apply Ha.
  - apply has_part. apply (HM2 "partitioning"%string), asked_paths.
Qed.

Lemma stored_scan_none : pp_partitioned p = false -> forall n, table_dirs p s !! "sharedScan"%string ≫= (fun data => data !! n) = None.
Proof. intros Hp n. by rewrite table_dirs_scan, Hp. Qed.

Lemma reads_scan : reads (getScanTableParams db tbl) (stored_scan p s).
Proof.
  unfold reads, getScanTableParams. rewrite scanSubKeys_paths. eapply wp_get_table_params; [done|done|apply plain_paths|done|].
  intros M HM1 _ _. split; [|done].
  pose proof (HM1 "sharedScan" "lockInMem" ltac:(decide_closed) : M !! "sharedScan/lockInMem"%string = _) as E1.
  pose proof (HM1 "sharedScan" "scanRating" ltac:(decide_closed) : M !! "sharedScan/scanRating"%string = _) as E2.
  unfold stored_scan. destruct (pp_partitioned p) eqn:Hp.
  - rewrite scan_group in E1, E2 by done. rewrite (fill_scan M _ s true Hr E1 E2). by destruct s.
  - rewrite stored_scan_none in E1, E2 by done. unfold fillScanTableParams, numeric. by rewrite E1, E2.
Qed.

Lemma reads_table :
  reads (getTableParams db tbl)
    (mkTableParams MatchTableParams_default (stored_part p overlap) (mkScan false (sc_scanRating (stored_scan p s)))).
Proof.
  unfold reads, getTableParams. rewrite tableSubKeys_paths. eapply wp_get_table_params; [done|done|apply plain_paths|done|].
  intros M HM1 HM2 HM3. split; [|done]. unfold fillTableParams. rewrite fill_match_none.
  2:{ intros n Hn. destruct asked_paths as (_ & Ha & _). rewrite Forall_forall in Ha. rewrite HM1 by by apply Ha. by rewrite table_dirs_other. }
  rewrite (read_part M _ p s overlap tablePaths); [|done| |exact HM1|].
  - pose proof (HM1 "sharedScan" "scanRating" ltac:(apply asked_paths) : M !! "sharedScan/scanRating"%string = _) as E2.
    assert (E1 : M !! "sharedScan/lockInMem"%string = None). 
    { apply eq_None_not_Some. intros Hs%HM3. revert Hs. rewrite <- tableSubKeys_paths. apply asked_paths. }
    unfold stored_scan. destruct (pp_partitioned p) eqn:Hp.
    + rewrite scan_group in E2 by done. by rewrite (fill_scan M _ s false Hr E1 E2).
    + rewrite stored_scan_none in E2 by done. unfold fillScanTableParams, numeric. by rewrite E1, E2.
  - intros n Hn. destruct asked_paths as [Ha _]. rewrite Forall_forall in Ha. by apply Ha.
  - apply has_part. apply (HM2 "partitioning"%string), asked_paths.
Qed.

Lemma reads_schema : reads (getTableSchema db tbl) schema.
Proof.
  unfold reads, getTableSchema. apply wp_bind, wp_checkVersion, wp_bind, wp_prefix. rewrite table_key_render.
  apply wp_bind. change ["schema"%string] with (subkey <$> [["schema"%string]]).
  eapply wp_table_subkeys; [done|done|decide_closed|]. intros M _ HM _.
  pose proof (HM "schema"%string ltac:(left) : M !! "schema"%string = _) as ->. destruct Hl as (Hst & -> & _). simpl.
  apply wp_bind. destruct (decide (schema = ""%string)); [|by apply wp_ret, wp_ret].
  apply wp_bind, wp_exists; [done|]. rewrite bool_decide_true by (rewrite Hst; by eexists). by apply wp_ret, wp_ret.
Qed.

Lemma reads_contains readyOnly : reads (containsTable db tbl readyOnly) true.
Proof.
  unfold reads, containsTable. apply wp_bind, wp_checkVersion, wp_bind, wp_prefix. rewrite table_key_render.
  apply wp_bind, wp_get; [done|]. destruct Hl as [-> _]. simpl. by destruct readyOnly; apply wp_ret.
Qed.
End Read.

(** ** Match tables *)

Definition stored_match (m : MatchTableParams) (angSep : double) : MatchTableParams :=
  if isMatchTable m then
    mkMatch (mp_dirTable1 m) (mp_dirColName1 m) (mp_dirTable2 m) (mp_dirColName2 m) (mp_flagColName m) angSep
  else MatchTableParams_default.

Definition match_dirs (m : MatchTableParams) : gmap string (gmap string string) :=
  if isMatchTable m then <["partitioning"%string := ∅]> (<["match"%string := match_map m]> ∅) else ∅.

Definition match_printable (m : MatchTableParams) : Prop :=
  Forall (fun s => printable s = true) [mp_dirTable1 m; mp_dirColName1 m; mp_dirTable2 m; mp_dirColName2 m; mp_flagColName m].

Lemma match_map_packable m : match_printable m -> packable (match_map m).
Proof.
  unfold match_printable. rewrite !Forall_cons. intros (? & ? & ? & ? & ? & _). unfold packable, match_map.
  cbn [list_to_map foldr uncurry fst snd]. packable_entry.
Qed.

Lemma match_map_named m : named (match_map m).
Proof. unfold named, match_map. cbn [list_to_map foldr uncurry fst snd]. repeat first [apply map_Forall_insert_2; [done|] | apply map_Forall_empty]. Qed.

Lemma wp_createMatchTable db tbl schema m Q t : path_ok pp -> name_ok db -> name_ok tbl -> tree_ok t -> match_printable m ->
  (is_Some (t !! table_path pp db tbl) -> Q (inl (TableExists db tbl)) t) ->
  (t !! table_path pp db tbl = None -> forall t', frame (table_path pp db tbl) t t' ->
     layout t' (table_path pp db tbl) KEY_STATUS_READY (Some schema) (match_dirs m) -> Q (inr tt) t') ->
  wp pp (createMatchTable db tbl schema m) Q t.
Proof.
  intros Hpp Hdb Htbl Hok Hpr Hexi HQ. pose proof (table_path_ok pp db tbl Hpp Hdb Htbl) as Hb. unfold createMatchTable.
  apply wp_bind, wp_checkVersion, wp_bind, wp_prefix. rewrite table_key_render. set (b := table_path pp db tbl) in *.
  apply wp_bind, wp_create_or; [done|intros Hnone|by apply Hexi].
  pose proof (layout_fresh t b KEY_STATUS_IGNORE Hok Hnone) as Hl. pose proof (frame_start b KEY_STATUS_IGNORE t) as Hf.
  change (render b +:+ "/schema") with (render b +:+ String SLASH "schema"). rewrite child_key.
  apply wp_bind, wp_create; [by apply path_ok_snoc|intros _|intros Hs; destruct Hl as (_ & Hl & _); rewrite Hl in Hs; by destruct Hs].
  apply (layout_schema _ _ _ schema) in Hl. apply (frame_set b ["schema"%string] schema) in Hf.
  assert (Hend : forall t2 dirs, layout t2 b KEY_STATUS_IGNORE (Some schema) dirs -> frame b t t2 -> dirs = match_dirs m ->
    wp pp (kvI_set (render b) KEY_STATUS_READY) Q t2).
  { intros t2 dirs Hl2 Hf2 ->. apply wp_set; [done|]. apply HQ; [done| |by eapply layout_status].
    rewrite <- (app_nil_r b) at 2. by apply frame_set. }
  apply wp_bind. unfold match_dirs in Hend. destruct (isMatchTable m); [|apply wp_ret; by eapply Hend].
  change (render b +:+ "/match") with (render b +:+ String SLASH "match"). rewrite child_key.
  apply wp_bind, wp_create; [by apply path_ok_snoc|intros _|intros Hs; exfalso; by refine (layout_no_dir _ _ _ _ _ "match" _ _ Hl _ Hs)].
  apply (layout_dir _ _ _ _ _ "match" "1") in Hl; [|done..]. apply (frame_set b ["match"%string] "1") in Hf.
  apply wp_bind, wp_storePacked; [by apply path_ok_snoc|by apply match_map_packable|]. intros text Htext. rewrite <- app_assoc. simpl app.
  apply (layout_packed _ _ _ _ _ "match" text (match_map m)) in Hl; [|done..|intros k; apply named_lookup, match_map_named].
  apply (frame_set b ["match"%string; packedKeyName] text) in Hf. rewrite insert_insert_eq in Hl.
  change (render b +:+ "/partitioning") with (render b +:+ String SLASH "partitioning"). rewrite child_key.
  apply wp_bind, wp_create; [by apply path_ok_snoc|intros _|intros Hs; exfalso; by refine (layout_no_dir _ _ _ _ _ "partitioning" _ _ Hl _ Hs)].
  apply (layout_dir _ _ _ _ _ "partitioning" "") in Hl; [|done..]. apply (frame_set b ["partitioning"%string] "") in Hf.
  apply wp_ret. by eapply Hend.
Qed.

Lemma match_map_lookup m :
  match_map m !! "dirTable1"%string = Some (mp_dirTable1 m) /\ match_map m !! "dirColName1"%string = Some (mp_dirColName1 m) /\
  match_map m !! "dirTable2"%string = Some (mp_dirTable2 m) /\ match_map m !! "dirColName2"%string = Some (mp_dirColName2 m) /\
  match_map m !! "flagColName"%string = Some (mp_flagColName m) /\ match_map m !! "angSep"%string = Some (to_string_double (mp_angSep m)).
Proof. unfold match_map. cbn [list_to_map foldr uncurry fst snd]. repeat split; by simplify_map_eq. Qed.

Lemma fill_match M key m angSep :
  group M "match" (match_map m) match_names -> stod (to_string_double (mp_angSep m)) = Ret angSep ->
  fillMatchTableParams M key =
    inr (mkMatch (mp_dirTable1 m) (mp_dirColName1 m) (mp_dirTable2 m) (mp_dirColName2 m) (mp_flagColName m) angSep).
Proof.
  intros Hg Hang. destruct (match_map_lookup m) as (L1 & L2 & L3 & L4 & L5 & L6).
  pose proof (group_field M "match" _ match_names "dirTable1" _ Hg ltac:(inlist) L1 : M !! "match/dirTable1"%string = _) as E1.
  pose proof (group_field M "match" _ match_names "dirColName1" _ Hg ltac:(inlist) L2 : M !! "match/dirColName1"%string = _) as E2.
  pose proof (group_field M "match" _ match_names "dirTable2" _ Hg ltac:(inlist) L3 : M !! "match/dirTable2"%string = _) as E3.
  pose proof (group_field M "match" _ match_names "dirColName2" _ Hg ltac:(inlist) L4 : M !! "match/dirColName2"%string = _) as E4.
  pose proof (group_field M "match" _ match_names "flagColName" _ Hg ltac:(inlist) L5 : M !! "match/flagColName"%string = _) as E5.
  pose proof (group_field M "match" _ match_names "angSep" _ Hg ltac:(inlist) L6 : M !! "match/angSep"%string = _) as E6.
  unfold fillMatchTableParams, numeric, param. rewrite E1, E2, E3, E4, E5, E6, Hang. done.
Qed.

Lemma reads_match db tbl m schema angSep t :
  path_ok (table_path pp db tbl) -> layout t (table_path pp db tbl) KEY_STATUS_READY (Some schema) (match_dirs m) ->
  stod (to_string_double (mp_angSep m)) = Ret angSep ->
  reads t (getMatchTableParams db tbl) (stored_match m angSep).
Proof.
  intros Hb Hl Hang. unfold reads, getMatchTableParams. rewrite matchSubKeys_paths.
  eapply wp_get_table_params; [done|done|apply plain_paths|done|]. intros M HM1 _ _. split; [|done].
  destruct asked_paths as (_ & Ha & _). rewrite Forall_forall in Ha. unfold stored_match, match_dirs in *. destruct (isMatchTable m).
  - rewrite (fill_match M _ m angSep); [done| |done]. intros n Hn. rewrite HM1 by by apply Ha. by simplify_map_eq.
  - rewrite fill_match_none; [done|]. intros n Hn. rewrite HM1 by by apply Ha. done.
Qed.

(** A match table is partitioned, without the parameters of a partitioned table. *)
Lemma reads_match_part db tbl m schema t :
  path_ok (table_path pp db tbl) -> layout t (table_path pp db tbl) KEY_STATUS_READY (Some schema) (match_dirs m) ->
  reads t (getPartTableParams db tbl) (mkPart "" "" "" "" "" d_zero (isMatchTable m) false).
Proof.
  intros Hb Hl. unfold reads, getPartTableParams. rewrite partSubKeys_paths.
  eapply wp_get_table_params; [done|done|apply plain_paths|done|]. intros M HM1 HM2 _. split; [|done].
  destruct asked_paths as (Ha & _). rewrite Forall_forall in Ha.
  assert (Hnone : forall n, n ∈ part_names -> M !! subkey ["partitioning"%string; n] = None).
  { intros n Hn. rewrite HM1 by by apply Ha. unfold match_dirs. destruct (isMatchTable m); [|done]. rewrite lookup_insert_eq. done. }
  rewrite fill_part_none by done. do 2 f_equal.
  pose proof (HM2 "partitioning"%string ltac:(apply asked_paths) : M !! "partitioning"%string = _) as ->.
  rewrite (bool_decide_ext _ (isMatchTable m = true)); [by destruct (isMatchTable m)|].
  rewrite (layout_has t _ _ _ _ "partitioning") by done. unfold match_dirs. destruct (isMatchTable m); simplify_map_eq; by split; eauto.
Qed.
End Tables.
