(* ===== verification/CssAccessThms.v ===== *)
(** * css: properties of CssAccess

    The version check, tables, databases: what is created is read back, what is
    dropped is gone, errors are the documented ones and leave the store as it
    was. *)

From Stdlib Require Import Ascii String.
From S2P Require Import Prelude.
From S2P Require Import Double.
From S2P Require Import StdString.
From S2P Require Import CssPath.
From S2P Require Import KvInterface.
From S2P Require Import PropertyTree.
From S2P Require Import KvInterfaceImplMem.
From S2P Require Import KvMemThms.
From S2P Require Import StdFloat.
From S2P Require Import CssAccess.
From S2P Require Import CssLogic.
From S2P Require Import CssTables.

Local Open Scope Z_scope.

(** ** css: concrete stores for the witnesses *)

#[global] Existing Instances FlatJson.flat_json FlatJson.flat_json_laws.

(** A store with the version key only, and one with an (empty) table key. *)
Definition demo_store (extra : list (list string * string)) : KvMem :=
  mkKvMem (foldl (fun m e => <[render e.1 := e.2]> (create_parents (render e.1) m)) ∅
             ((["css_meta"; "version"]%string, "1"%string) :: extra)) false.
Definition demo_tree (extra : list (list string * string)) : Tree :=
  foldl (fun t e => tree_set e.1 e.2 t) ∅ ((["css_meta"; "version"]%string, "1"%string) :: extra).

Definition demo_css (extra : list (list string * string)) : CssAccess KvMem := mkCssAccess (demo_store extra) "" true.

Lemma demo_rep extra : Forall (fun e => path_ok e.1) extra -> css_rep [] (demo_css extra) (demo_tree extra).
Proof.
  intros He. split; [|split; [done|split; [done|split; [done|constructor]]]]. change (map_rep (km_kvMap (demo_store extra)) (demo_tree extra)).
  assert (Hl : forall l m t, map_rep m t -> Forall (fun e => path_ok e.1) l ->
    map_rep (foldl (fun m (e : list string * string) => <[render e.1 := e.2]> (create_parents (render e.1) m)) m l) (foldl (fun t e => tree_set e.1 e.2 t) t l)).
  { induction l as [|e l IH]; intros m t Hr Hl; simpl; [done|]. inversion Hl; subst. apply IH; [by apply create_parents_set|done]. }
  refine (Hl ((_, _) :: extra) ∅ ∅ (mem_rep_empty false) _). constructor; [|done]. cbn [fst]. unfold path_ok. by rewrite !Forall_cons.
Qed.

(** The constructor on an empty store gives the first of these. *)
Example demo_construct : construct (mkCssAccess (mkKvMem ∅ false) "" false) = (demo_css [], inr tt).
Proof. vm_compute. reflexivity. Qed.

Definition demo_table : list (list string * string) := [(["DBS"; "LSST"; "TABLES"; "Object"]%string, "READY"%string)].

Definition demo_double (s : string) : double := match stod s with Ret d => d | Raise _ => d_zero end.

Definition demo_part : PartTableParams :=
  mkPart "LSST" "Object" "objectId" "decl" "ra" (demo_double "0.01667") true true.

Implicit Types (t : Tree) (q b y : list string) (n d v : string).

Section Theorems.
Context {St : Type} `{KvSpec St} `{PropertyTreeLaws} (pp : list string).

Implicit Types (c : CssAccess St).

Lemma wp_run {A} (m : css St A) Q c t : css_rep pp c t -> wp pp m Q t -> exists t', css_rep pp (m c).1 t' /\ Q (m c).2 t'.
Proof. intros Hc Hw. by apply Hw. Qed.

Lemma reads_run {A} (m : css St A) (a : A) c t : css_rep pp c t -> reads pp t m a -> (m c).2 = inr a.
Proof. intros Hc Hw. destruct (Hw c Hc) as (t' & _ & -> & _). done. Qed.

(** ** Version *)

Definition version_path : list string := ["css_meta"; "version"]%string.

Lemma version_key_render : VERSION_KEY = render version_path.
Proof. reflexivity. Qed.

(** The constructor succeeds only on a store whose version key holds the
    supported version, or on one that has no version key yet, which it then
    stores; in both cases the object is marked as checked, so that the later
    [_checkVersion] calls pass. Any other version is a [VersionMismatchError],
    and a version key with an empty value a [KeyExistsError], both without a
    change of the store. *)
Theorem construct_version (c : CssAccess St) (t : Tree) :
  kv_rep (ca_kvI c) t -> kv_readOnly (ca_kvI c) = false -> ca_versionOk c = false -> ca_prefix c = render pp -> path_ok pp ->
  match t !! version_path with
  | None => (construct c).2 = inr tt /\ css_rep pp (construct c).1 (tree_set version_path VERSION_STR t)
  | Some v =>
      if decide (v = VERSION_STR) then (construct c).2 = inr tt /\ css_rep pp (construct c).1 t
      else (construct c).2 = inl (if decide (v = ""%string) then KeyExistsError VERSION_KEY else VersionMismatchError VERSION_STR v) /\
           kv_rep (ca_kvI (construct c).1) t
  end.
Proof.
  intros Hr Hro Hv Hp Hok. unfold construct, css_bind, checkVersion. rewrite Hv. unfold css_bind, kvI_get.
  assert (Hvp : path_ok version_path) by (unfold path_ok, version_path; by rewrite !Forall_cons).
  destruct (kv_sim _ _ (OpGet version_path "" false) Hr Hvp) as (t1 & Hs & _). cbn [kv_exec fst snd] in Hs. rewrite <- version_key_render in Hs.
  destruct (kv_get VERSION_KEY "" false (ca_kvI c)) as [e|v]; inversion Hs as [| | | | | |? ? ? ? Ht|? ? Ht| | | | | | | |]; subst; try done.
  - rewrite Ht. destruct (decide (v = ""%string)) as [->|Hne].
    + simpl. rewrite Hv. unfold kvI_create.
      destruct (kv_sim _ _ (OpCreate version_path VERSION_STR) Hr Hvp) as (t2 & Hs2 & Hr2 & _). cbn [kv_exec] in Hs2, Hr2.
      rewrite <- version_key_render in Hs2, Hr2. destruct (kv_create VERSION_KEY VERSION_STR false (ca_kvI c)) as [s r]. cbn [fst snd ca_kvI] in *.
      rewrite Hro in Hs2. inversion Hs2; subst; try congruence. destruct r; simplify_eq/=. done.
    + destruct (decide (v = VERSION_STR)) as [->|Hne']; simpl; [|done]. split; [done|]. by repeat split.
  - rewrite Ht. simpl. rewrite Hv. unfold kvI_create.
    destruct (kv_sim _ _ (OpCreate version_path VERSION_STR) Hr Hvp) as (t2 & Hs2 & Hr2 & Hro2). cbn [kv_exec] in Hs2, Hr2, Hro2.
    rewrite <- version_key_render in Hs2, Hr2, Hro2. destruct (kv_create VERSION_KEY VERSION_STR false (ca_kvI c)) as [s r]. cbn [fst snd ca_kvI] in *.
    rewrite Hro in Hs2, Hro2. inversion Hs2; subst; try congruence. destruct r; simplify_eq/=. split; [done|]. by repeat split.
Qed.

(** ** Tables *)

(** C22. What [createTable] stores for a new table is what the readers of its
    metadata return: the table is there and ready, its schema is the given one,
    the partitioning parameters are those given (an overlap is stored with six
    decimals), and so are the shared-scan parameters of a partitioned table;
    those of a table that is not partitioned are not stored. [getTableParams]
    returns the same but for [lockInMem], which it never finds: it asks for the
    misspelt sub-key sharedScann/lockInMem. Outside the keys of the table only
    missing ancestors are added. *)
Theorem created_table_params (c : CssAccess St) (t : Tree) (db tbl schema : string) (p : PartTableParams)
    (s : ScanTableParams) (overlap : double) :
  css_rep pp c t -> name_ok db -> name_ok tbl -> part_printable p -> INT_MIN <= sc_scanRating s <= INT_MAX ->
  (d_is_zero (pp_overlap p) = false -> stod (to_string_double (pp_overlap p)) = Ret overlap) ->
  t !! table_path pp db tbl = None ->
  let '(c', r) := createTable db tbl schema p s c in
  r = inr tt /\
  (containsTable db tbl true c').2 = inr true /\
  (getTableSchema db tbl c').2 = inr schema /\
  (getPartTableParams db tbl c').2 = inr (stored_part p overlap) /\
  (getScanTableParams db tbl c').2 = inr (stored_scan p s) /\
  (getTableParams db tbl c').2 =
    inr (mkTableParams MatchTableParams_default (stored_part p overlap) (mkScan false (sc_scanRating (stored_scan p s)))) /\
  exists t', css_rep pp c' t' /\ frame (table_path pp db tbl) t t'.
Proof.
  intros Hc Hdb Htbl Hpr Hr Hov Hnone.
  assert (Hpp : path_ok pp) by apply Hc. pose proof (table_path_ok pp db tbl Hpp Hdb Htbl) as Hb.
  pose proof (css_rep_ok pp c t Hc) as Hok.
  destruct (wp_run (createTable db tbl schema p s) (fun r t' => r = inr tt /\ frame (table_path pp db tbl) t t' /\
    layout t' (table_path pp db tbl) KEY_STATUS_READY (Some schema) (table_dirs p s)) c t Hc) as (t' & Hc' & Hres & Hf & Hl).
  { apply wp_createTable; [done..|rewrite Hnone; by intros [? [=]]|]. intros _ t' Hf Hl. done. }
  destruct (createTable db tbl schema p s c) as [c' r]. cbn [fst snd] in *. split; [done|].
  split; [eapply reads_run; [done|by eapply reads_contains]|]. split; [eapply reads_run; [done|by eapply reads_schema]|].
  split; [eapply reads_run; [done|by eapply reads_part]|]. split; [eapply reads_run; [done|by eapply reads_scan]|].
  split; [eapply reads_run; [done|by eapply reads_table]|]. by exists t'.
Qed.

(** The same for [createMatchTable]: the match parameters are read back (the
    angular separation with six decimals), and the table counts as partitioned
    exactly when its first director table is named. *)
Theorem created_match_params (c : CssAccess St) (t : Tree) (db tbl schema : string) (m : MatchTableParams) (angSep : double) :
  css_rep pp c t -> name_ok db -> name_ok tbl -> match_printable m ->
  stod (to_string_double (mp_angSep m)) = Ret angSep -> t !! table_path pp db tbl = None ->
  let '(c', r) := createMatchTable db tbl schema m c in
  r = inr tt /\
  (getMatchTableParams db tbl c').2 = inr (stored_match m angSep) /\
  (getPartTableParams db tbl c').2 = inr (mkPart "" "" "" "" "" d_zero (isMatchTable m) false) /\
  exists t', css_rep pp c' t' /\ frame (table_path pp db tbl) t t'.
Proof.
  intros Hc Hdb Htbl Hpr Hang Hnone.
  assert (Hpp : path_ok pp) by apply Hc. pose proof (table_path_ok pp db tbl Hpp Hdb Htbl) as Hb.
  pose proof (css_rep_ok pp c t Hc) as Hok.
  destruct (wp_run (createMatchTable db tbl schema m) (fun r t' => r = inr tt /\ frame (table_path pp db tbl) t t' /\
    layout t' (table_path pp db tbl) KEY_STATUS_READY (Some schema) (match_dirs m)) c t Hc) as (t' & Hc' & Hres & Hf & Hl).
  { apply wp_createMatchTable; [done..|rewrite Hnone; by intros [? [=]]|]. intros _ t' Hf Hl. done. }
  destruct (createMatchTable db tbl schema m c) as [c' r]. cbn [fst snd] in *. split; [done|].
  split; [eapply reads_run; [done|by eapply reads_match]|]. split; [eapply reads_run; [done|by eapply reads_match_part]|]. by exists t'.
Qed.

(** [dropTable] removes the key of the table and all keys below it, and nothing
    else; for a table that is not there it throws [NoSuchTable] and changes
    nothing. *)
Theorem dropTable_exact (c : CssAccess St) (t : Tree) (db tbl : string) :
  css_rep pp c t -> name_ok db -> name_ok tbl ->
  exists t', css_rep pp (dropTable db tbl c).1 t' /\
    (dropTable db tbl c).2 = (if decide (is_Some (t !! table_path pp db tbl)) then inr tt else inl (NoSuchTable db tbl)) /\
    forall q, t' !! q = if decide (table_path pp db tbl `prefix_of` q) then None else t !! q.
Proof.
  intros Hc Hdb Htbl. assert (Hpp : path_ok pp) by apply Hc. pose proof (table_path_ok pp db tbl Hpp Hdb Htbl) as Hb.
  pose proof (css_rep_ok pp c t Hc) as Hok. apply (wp_run (dropTable db tbl) (fun r t' => r = _ /\ forall q, t' !! q = _) c t Hc).
  unfold dropTable, delete_or. apply wp_bind, wp_checkVersion, wp_bind, wp_prefix. rewrite table_key_render.
  apply wp_bind, wp_catch, wp_delete; [done|intros Hs|intros Hn; simpl; apply wp_throw].
  - apply wp_ret. rewrite decide_True by done. split; [done|]. intros q. apply tree_delete_lookup.
  - rewrite decide_False by (rewrite Hn; by intros [? [=]]). split; [done|]. intros q.
    destruct (decide _) as [[r ->]|]; [|done]. by apply tree_ok_none.
Qed.

(** The call ends with [r] and leaves the store as it was. *)
Definition yields {A} c t (m : css St A) (r : CssError + A) : Prop := (m c).2 = r /\ css_rep pp (m c).1 t.

Lemma yields_wp {A} c t (m : css St A) r : css_rep pp c t -> wp pp m (fun r' t' => r' = r /\ t' = t) t -> yields c t m r.
Proof. intros Hc Hw. destruct (Hw c Hc) as (t' & Hc' & Hr & ->). by split. Qed.

Lemma packed_missing t b : tree_ok t -> t !! b = None -> packed_ok t b.
Proof.
  intros Hok Hb. exists ∅. unfold packed. rewrite tree_ok_none by done. split; [done|]. intros k. rewrite lookup_empty. by intros [? [=]].
Qed.

(** Reading the parameters of a missing table. *)
Lemma wp_missing_params {A} db tbl sps (dflt : A) fill t : tree_ok t -> path_ok (table_path pp db tbl) ->
  t !! table_path pp db tbl = None -> Forall plain_sub sps ->
  wp pp (get_table_params db tbl (subkey <$> sps) dflt fill) (fun r t' => r = inl (NoSuchTable db tbl) /\ t' = t) t.
Proof.
  intros Hok Hb Hn Hs. unfold get_table_params. apply wp_bind, wp_checkVersion, wp_bind, wp_prefix. rewrite table_key_render.
  apply wp_bind, wp_getSubkeys; [done| | |].
  - eapply Forall_impl; [exact Hs|]. apply plain_sub_ok.
  - intros sp _. apply packed_missing; [done|]. by apply tree_ok_none.
  - intros M HM1 HM2. rewrite decide_True.
    + apply wp_bind, wp_bind, wp_exists; [done|]. rewrite Hn. by apply wp_throw.
    + apply map_empty. intros k. apply eq_None_not_Some. intros Hk. pose proof Hk as (sp & Hsp & ->)%HM2. rewrite HM1 in Hk by done.
      unfold tree_sub in Hk. rewrite tree_ok_none in Hk by done. unfold packed in Hk. rewrite <- app_assoc, tree_ok_none in Hk by done.
      rewrite lookup_empty in Hk. by destruct Hk.
Qed.

Lemma wp_containsDb db Q t : path_ok pp -> name_ok db -> Q (inr (bool_decide (is_Some (t !! (pp ++ ["DBS"%string; db]))))) t -> wp pp (containsDb db) Q t.
Proof.
  intros Hpp Hdb HQ. unfold containsDb. apply wp_bind, wp_checkVersion. rewrite decide_False by apply Hdb.
  apply wp_bind, wp_prefix. replace (render pp +:+ "/DBS/" +:+ db) with (render (pp ++ ["DBS"%string; db])).
  - apply wp_exists; [|done]. apply path_ok_app. split; [done|]. unfold path_ok. by rewrite !Forall_cons.
  - rewrite render_app. cbn [render]. by rewrite append_nil_r.
Qed.

End Theorems.

(** ** Witnesses *)

Lemma construct_version_witness :
  (construct (mkCssAccess (demo_store []) "" false)).2 = inr tt /\
  css_rep [] (construct (mkCssAccess (demo_store []) "" false)).1 (demo_tree []).
Proof.
  pose proof (demo_rep [] ltac:(constructor)) as (Hr & Hro & _).
  exact (construct_version [] (mkCssAccess (demo_store []) "" false) (demo_tree []) Hr Hro eq_refl eq_refl (Forall_nil_2 _)).
Defined.

Lemma created_table_params_witness :
  let '(c', r) := createTable "LSST" "Object" "CREATE TABLE Object" demo_part (mkScan true 2) (demo_css []) in
  r = inr tt /\
  (containsTable "LSST" "Object" true c').2 = inr true /\
  (getTableSchema "LSST" "Object" c').2 = inr "CREATE TABLE Object"%string /\
  (getPartTableParams "LSST" "Object" c').2 = inr (stored_part demo_part (demo_double "0.01667")) /\
  (getScanTableParams "LSST" "Object" c').2 = inr (stored_scan demo_part (mkScan true 2)) /\
  (getTableParams "LSST" "Object" c').2 =
    inr (mkTableParams MatchTableParams_default (stored_part demo_part (demo_double "0.01667")) (mkScan false 2)) /\
  exists t', css_rep [] c' t' /\ frame (table_path [] "LSST" "Object") (demo_tree []) t'.
Proof.
  apply (created_table_params [] (demo_css []) (demo_tree [])).
  - apply demo_rep. constructor.
  - decide_closed.
  - decide_closed.
  - unfold part_printable. decide_closed.
  - unfold INT_MIN, INT_MAX. simpl. lia.
  - intros _. vm_compute. reflexivity.
  - vm_compute. reflexivity.
Defined.

Lemma created_match_params_witness :
  let m := mkMatch "Object" "objectId" "Reference" "refId" "flags" (demo_double "0.000278") in
  let '(c', r) := createMatchTable "LSST" "Matches" "" m (demo_css []) in
  r = inr tt /\
  (getMatchTableParams "LSST" "Matches" c').2 = inr (stored_match m (demo_double "0.000278")) /\
  (getPartTableParams "LSST" "Matches" c').2 = inr (mkPart "" "" "" "" "" d_zero (isMatchTable m) false) /\
  exists t', css_rep [] c' t' /\ frame (table_path [] "LSST" "Matches") (demo_tree []) t'.
Proof.
  cbv zeta. apply (created_match_params [] (demo_css []) (demo_tree [])).
  - apply demo_rep. constructor.
  - decide_closed.
  - decide_closed.
  - unfold match_printable. decide_closed.
  - vm_compute. reflexivity.
  - vm_compute. reflexivity.
Defined.

Lemma dropTable_exact_witness :
  exists t', css_rep [] (dropTable "LSST" "Object" (demo_css demo_table)).1 t' /\
    (dropTable "LSST" "Object" (demo_css demo_table)).2 =
      (if decide (is_Some (demo_tree demo_table !! table_path [] "LSST" "Object")) then inr tt else inl (NoSuchTable "LSST" "Object")) /\
    forall q, t' !! q = if decide (table_path [] "LSST" "Object" `prefix_of` q) then None else demo_tree demo_table !! q.
Proof. apply (dropTable_exact []); [apply demo_rep; decide_closed|decide_closed|decide_closed]. Defined.


(** An overlap below half a millionth of a degree is lost: it is stored as
    ["0.000000"]. *)
Example small_overlap_lost :
  let p := mkPart "LSST" "Object" "objectId" "decl" "ra" (demo_double "0.0000004") true true in
  match (getPartTableParams "LSST" "Object" (createTable "LSST" "Object" "" p (mkScan false 0) (demo_css [])).1).2 with
  | inr p' => d_is_zero (pp_overlap p) = false /\ d_is_zero (pp_overlap p') = true
  | inl _ => False
  end.
Proof. vm_compute. done. Qed.

(** A table is created in a database that does not exist: the key of the database
    appears as a parent, without the properties that [createDb] stores. *)
Example table_without_db :
  let c := (createTable "nodb" "Object" "" demo_part (mkScan false 0) (demo_css [])).1 in
  (containsDb "nodb" (demo_css [])).2 = inr false /\ (containsDb "nodb" c).2 = inr true /\
  (getDbStriping "nodb" c).2 = inr StripingParams_default.
Proof. vm_compute. done. Qed.
