(* ===== verification/CssNodesThms.v ===== *)
(** * css: nodes, databases and chunks

    Nodes that are added are read back, a node in use is not deleted, and the
    striping of a new database is read back. *)

From Stdlib Require Import Ascii String.
From S2P Require Import Prelude.
From S2P Require Import Double.
From S2P Require Import StdString.
From S2P Require Import CssPath.
From S2P Require Import KvInterface.
From S2P Require Import PropertyTree.
From S2P Require Import KvInterfaceImplMem.
From S2P Require Import StdFloat.
From S2P Require Import CssAccess.
From S2P Require Import CssLogic.
From S2P Require Import CssTables.
From S2P Require Import CssAccessThms.

Local Open Scope Z_scope.

Implicit Types (t : Tree) (q b y : list string) (n d v : string).

(** ** Packed values of a key and the value of the key itself *)

Section Packed.
Context `{PropertyTree}.

(** Packed values and then a value for a key with nothing below. *)
Lemma packed_set t b text data v :
  (forall n, t !! (b ++ [n]) = None) -> (forall key, unpackJson key text = inr data) ->
  let t' := tree_set b v (tree_set (b ++ [packedKeyName]) text t) in
  t' !! b = Some v /\ packed t' b = inr data /\ (forall n, n <> packedKeyName -> t' !! (b ++ [n]) = None).
Proof.
  intros Hb Hun t'. split; [apply tree_set_eq|]. split.
  - unfold packed, t'. rewrite tree_set_base by done. by rewrite tree_set_eq.
  - intros n Hn. unfold t'. rewrite tree_set_base, tree_set_child, !decide_False by congruence. apply Hb.
Qed.

(** A key with packed values that was set anew. *)
Lemma packed_fresh t b text data v v' :
  tree_ok t -> t !! b = None -> (forall key, unpackJson key text = inr data) ->
  let t' := tree_set b v' (tree_set (b ++ [packedKeyName]) text (tree_set b v t)) in
  t' !! b = Some v' /\ packed t' b = inr data /\ (forall n, n <> packedKeyName -> t' !! (b ++ [n]) = None) /\ frame b t t'.
Proof.
  intros Hok Hb Hun t'. destruct (packed_set (tree_set b v t) b text data v') as (H1 & H2 & H3); [|done|].
  - intros n. rewrite tree_set_base by done. by apply tree_ok_none.
  - split; [done|]. split; [done|]. split; [done|]. unfold t'. rewrite <- (app_nil_r b) at 2. apply frame_set, frame_set, frame_start.
Qed.

(** The sub-key [n] of a key with packed values. *)
Lemma tree_sub_packed t b n data : t !! (b ++ [n]) = None -> packed t b = inr data -> tree_sub t b [n] = data !! n.
Proof. intros Hn Hp. unfold tree_sub. rewrite Hn. simpl. by rewrite app_nil_r, Hp. Qed.
End Packed.

Section Nodes.
Context {St : Type} `{KvSpec St} `{PropertyTreeLaws} (pp : list string).

Implicit Types (c : CssAccess St).

(** ** Nodes *)

Definition nodes_path : list string := pp ++ ["NODES"%string].

Definition node_map (np : NodeParams) : gmap string string := list_to_map
  [("type", np_type np); ("host", np_host np); ("port", to_string (np_port np))]%string.

Lemma node_map_lookup np :
  node_map np !! "type"%string = Some (np_type np) /\ node_map np !! "host"%string = Some (np_host np) /\
  node_map np !! "port"%string = Some (to_string (np_port np)).
Proof. unfold node_map. cbn [list_to_map foldr uncurry fst snd]. repeat split; by simplify_map_eq. Qed.

Lemma node_map_packable np : printable (np_type np) = true -> printable (np_host np) = true -> packable (node_map np).
Proof. intros ? ?. unfold packable, node_map. cbn [list_to_map foldr uncurry fst snd]. packable_entry. Qed.

Lemma node_map_named np : named (node_map np).
Proof. unfold named, node_map. cbn [list_to_map foldr uncurry fst snd]. repeat first [apply map_Forall_insert_2; [done|] | apply map_Forall_empty]. Qed.

Lemma nodes_key : render pp +:+ "/NODES" = render nodes_path.
Proof. unfold nodes_path. by rewrite render_snoc. Qed.

Lemma node_key n : render pp +:+ "/NODES/" +:+ n = render (nodes_path ++ [n]).
Proof. unfold nodes_path. rewrite <- app_assoc, render_app. cbn [render app]. by rewrite append_nil_r. Qed.

Lemma node_paths n :
  [n; n +:+ "/type"; n +:+ "/host"; n +:+ "/port"] = subkey <$> [[n]; [n; "type"]; [n; "host"]; [n; "port"]]%string.
Proof. cbn [fmap list_fmap]. rewrite !subkey_cons. cbn [render]. by rewrite append_nil_r. Qed.

(** What [addNode] leaves in the store. *)
Definition node_stored n (np : NodeParams) t t' : Prop :=
  t' !! (nodes_path ++ [n]) = Some (np_state np) /\ packed t' (nodes_path ++ [n]) = inr (node_map np) /\
  (forall k, k <> packedKeyName -> t' !! ((nodes_path ++ [n]) ++ [k]) = None) /\ frame (nodes_path ++ [n]) t t'.

Lemma wp_addNode n np t : path_ok pp -> tree_ok t -> name_ok n -> printable (np_type np) = true -> printable (np_host np) = true ->
  t !! (nodes_path ++ [n]) = None ->
  wp pp (addNode n np) (fun r t' => r = inr tt /\ node_stored n np t t') t.
Proof.
  intros Hpp Hok Hn Hty Hho Hnone. assert (Hb : path_ok (nodes_path ++ [n])) by (unfold nodes_path; by rewrite !path_ok_snoc).
  unfold addNode. apply wp_bind, wp_checkVersion, wp_bind, wp_prefix. rewrite node_key.
  apply wp_bind, wp_create_or; [done|intros _|rewrite Hnone; by intros [? [=]]].
  apply wp_bind, wp_storePacked; [done|by apply node_map_packable|]. intros text Hun. apply wp_set; [done|]. split; [done|].
  by apply packed_fresh.
Qed.

Lemma node_sub n k np t t' : k <> packedKeyName -> node_stored n np t t' -> tree_sub t' nodes_path [n; k] = node_map np !! k.
Proof.
  intros Hk (_ & Hpd & Hno & _). unfold tree_sub. specialize (Hno k Hk). rewrite <- app_assoc in Hno. simpl in *. by rewrite Hno, Hpd.
Qed.

(** Nothing is packed in the key of all nodes. *)
Lemma nodes_packed_ok n np t t' : n <> packedKeyName -> t !! (nodes_path ++ [packedKeyName]) = None -> node_stored n np t t' -> packed_ok t' nodes_path.
Proof.
  intros Hn Hpk (_ & _ & _ & Hfr). exists ∅. unfold packed.
  assert (Hne : forall x y : string, x <> y -> ~ nodes_path ++ [x] `prefix_of` nodes_path ++ [y]).
  { intros x y Hxy Hp%prefix_app_inv. by apply prefix_cons_inv_1 in Hp. }
  rewrite (Hfr _ (Hne _ _ Hn) ""%string), tree_set_other by by apply Hne. rewrite Hpk. split; [done|].
  intros k. rewrite lookup_empty. by intros [? [=]].
Qed.

Lemma reads_node n np t t' : path_ok pp -> name_ok n -> n <> packedKeyName -> t !! (nodes_path ++ [packedKeyName]) = None ->
  INT_MIN <= np_port np <= INT_MAX -> node_stored n np t t' -> reads pp t' (getNodeParams n : css St NodeParams) np.
Proof.
  intros Hpp Hn Hnp Hpk Hport Hst. unfold reads, getNodeParams. apply wp_bind, wp_checkVersion, wp_bind, wp_prefix. rewrite nodes_key, node_paths.
  apply wp_bind, wp_getSubkeys; [unfold nodes_path; by rewrite path_ok_snoc| | |].
  - destruct Hn as [Hn1 Hn2]. rewrite !Forall_cons. unfold sub_ok, path_ok. rewrite !Forall_cons. by repeat split.
  - assert (Hpb : packed_ok t' (nodes_path ++ [n])).
    { exists (node_map np). split; [apply Hst|]. intros k. apply named_lookup, node_map_named. }
    pose proof (nodes_packed_ok n np t t' Hnp Hpk Hst) as Hp0.
    intros sp. rewrite !elem_of_cons. intros [->|[->|[->|[->|Hsp]]]]; simpl; [by rewrite app_nil_r|done..|by apply not_elem_of_nil in Hsp].
  - intros M HM _. destruct (node_map_lookup np) as (L1 & L2 & L3).
    assert (E0 : M !! n = Some (np_state np)).
    { pose proof (HM [n] ltac:(set_solver)) as E. rewrite subkey_cons in E. cbn [render] in E. rewrite append_nil_r in E. rewrite E.
      unfold tree_sub. destruct Hst as [-> _]. done. }
    assert (E : forall k x, [n; k] ∈ [[n]; [n; "type"]; [n; "host"]; [n; "port"]]%string -> k <> packedKeyName -> node_map np !! k = Some x ->
      M !! (n +:+ String SLASH k) = Some x).
    { intros k x Hin Hk Hx. pose proof (HM [n; k] Hin) as E. rewrite subkey_cons in E. cbn [render] in E. rewrite append_nil_r in E.
      by rewrite E, (node_sub n k np t). }
    rewrite decide_False by (intros ->; by rewrite lookup_empty in E0). apply wp_lift. split; [|done]. unfold numeric, param.
    pose proof (E "type"%string _ ltac:(set_solver) ltac:(done) L1 : M !! (n +:+ "/type") = _) as E1.
    pose proof (E "host"%string _ ltac:(set_solver) ltac:(done) L2 : M !! (n +:+ "/host") = _) as E2.
    pose proof (E "port"%string _ ltac:(set_solver) ltac:(done) L3 : M !! (n +:+ "/port") = _) as E3.
    rewrite E0, E1, E2, E3, stoi_to_string by done. by destruct np.
Qed.

(** A node that is added with [addNode] is read back by [getNodeParams] as it
    was given; adding a node that exists throws [NodeExists] and changes
    nothing. *)
Theorem added_node_params (c : CssAccess St) (t : Tree) (n : string) (np : NodeParams) :
  css_rep pp c t -> name_ok n -> n <> packedKeyName -> t !! (nodes_path ++ [packedKeyName]) = None ->
  printable (np_type np) = true -> printable (np_host np) = true -> INT_MIN <= np_port np <= INT_MAX ->
  if decide (is_Some (t !! (nodes_path ++ [n]))) then yields pp c t (addNode n np) (inl (NodeExists n))
  else let '(c', r) := addNode n np c in
       r = inr tt /\ (getNodeParams n c').2 = inr np /\ exists t', css_rep pp c' t' /\ frame (nodes_path ++ [n]) t t'.
Proof.
  intros Hc Hn Hnp Hpk Hty Hho Hport. assert (Hpp : path_ok pp) by apply Hc. pose proof (css_rep_ok pp c t Hc) as Hok.
  destruct (decide _) as [Hs|Hs].
  - apply yields_wp; [done|]. unfold addNode. apply wp_bind, wp_checkVersion, wp_bind, wp_prefix. rewrite node_key.
    apply wp_bind, wp_create_or; [unfold nodes_path; by rewrite !path_ok_snoc|intros Hnone; rewrite Hnone in Hs; by destruct Hs|done].
  - apply eq_None_not_Some in Hs.
    destruct (wp_run pp _ _ c t Hc (wp_addNode n np t Hpp Hok Hn Hty Hho Hs)) as (t' & Hc' & Hres & Hst).
    destruct (addNode n np c) as [c' r]. cbn [fst snd] in *. split; [done|]. split; [|exists t'; split; [done|apply Hst]].
    eapply reads_run; [done|]. by eapply reads_node.
Qed.

(** ** Deleting a node *)

(** A method that only reads. *)
Definition read_only {A} (m : css St A) : Prop := forall c, ca_versionOk c = true -> (m c).1 = c.

Lemma read_bind {A B} (m : css St A) (k : A -> css St B) : read_only m -> (forall a, read_only (k a)) -> read_only (css_bind m k).
Proof.
  intros Hm Hk c Hc. specialize (Hm c Hc). unfold css_bind. destruct (m c) as [c' [e|a]]; simpl in *; subst; [done|by apply Hk].
Qed.

Lemma read_catch {A} (m : css St A) h : read_only m -> (forall e m', h e = Some m' -> read_only m') -> read_only (css_catch m h).
Proof.
  intros Hm Hh c Hc. specialize (Hm c Hc). unfold css_catch. destruct (m c) as [c' [e|a]]; simpl in *; subst; [|done].
  destruct (h e) as [m'|] eqn:E; [by eapply Hh|done].
Qed.

Lemma read_fold {A B} (f : B -> A -> css St B) (acc : B) l : (forall acc a, read_only (f acc a)) -> read_only (css_fold f acc l).
Proof. intros Hf. revert acc. induction l as [|a l IH]; intros acc; simpl; [by intros c|]. by apply read_bind. Qed.

Lemma read_checkVersion mustExist : read_only (checkVersion mustExist).
Proof. intros c Hc. unfold checkVersion. by rewrite Hc. Qed.

Ltac read_only :=
  repeat first
    [ progress intros
    | apply read_bind | apply read_catch | apply read_fold | apply read_checkVersion
    | by (intros ? ?)
    | match goal with |- read_only (if ?x then _ else _) => destruct x
                 | |- read_only (match ?x with _ => _ end) => destruct x
                 | H : (if ?x then _ else _) = Some _ |- _ => destruct x; simplify_eq end ].

Lemma read_getSubkeys key subKeys : read_only (getSubkeys key subKeys).
Proof. unfold getSubkeys. destruct (wanted_keys key subKeys). read_only. Qed.

Lemma read_assertDb db : read_only (assertDbExists db).
Proof. unfold assertDbExists, containsDb. read_only. Qed.

Lemma read_getDbNames : read_only getDbNames.
Proof. unfold getDbNames. read_only. Qed.

Lemma read_getTableNames db readyOnly : read_only (getTableNames db readyOnly).
Proof.
  unfold getTableNames. repeat (apply read_bind; [first [apply read_checkVersion|by intros ? ?]|intros ?]).
  apply read_bind; [apply read_catch; [by intros ? ?|]|].
  - intros e m'. destruct (no_such_key e); [|done]. intros [= <-]. apply read_bind; [apply read_assertDb|by intros ? ? ?].
  - intros names. destruct (_ && _); [|by intros ? ?]. apply read_bind; [apply read_getSubkeys|by intros ? ? ?].
Qed.

Lemma read_chunk_step key result chunk : read_only (chunk_step key result chunk).
Proof.
  unfold chunk_step. destruct (stoi chunk); [|by intros ? ?]. apply read_bind.
  - apply read_catch; [apply read_bind; [by intros ? ?|by intros ? ? ?]|]. intros e m' [= <-]. by intros ? ?.
  - intros [replicas|]; [|by intros ? ?]. apply read_bind; [apply read_fold|by intros ? ? ?].
    intros nodes replica. apply read_bind; [apply read_getSubkeys|by intros ? ? ?].
Qed.

Lemma read_getChunks db tbl : read_only (getChunks db tbl).
Proof.
  unfold getChunks. repeat (apply read_bind; [first [apply read_checkVersion|by intros ? ?]|intros ?]). apply read_bind.
  - apply read_catch; [apply read_bind; [by intros ? ?|by intros ? ? ?]|]. intros e m'. destruct (no_such_key e); [|done]. intros [= <-].
    unfold exists_or. read_only.
  - intros [chunks|]; [|by intros ? ?]. apply read_fold. intros. apply read_chunk_step.
Qed.

(** The result of a method that only reads. *)
Lemma read_eval {A} (m : css St A) c : read_only m -> ca_versionOk c = true -> m c = (c, (m c).2).
Proof. intros Hm Hc. pose proof (Hm c Hc) as He. destruct (m c) as [c' r]. cbn [fst snd] in *. by rewrite He. Qed.

Lemma bind_eval {A B} (m : css St A) (k : A -> css St B) c a : read_only m -> ca_versionOk c = true -> (m c).2 = inr a ->
  css_bind m k c = k a c.
Proof. intros Hm Hc Ha. unfold css_bind. rewrite (read_eval m c Hm Hc), Ha. done. Qed.

Lemma bind_eval_err {A B} (m : css St A) (k : A -> css St B) c e : read_only m -> ca_versionOk c = true -> (m c).2 = inl e ->
  css_bind m k c = (c, inl e).
Proof. intros Hm Hc Ha. unfold css_bind. rewrite (read_eval m c Hm Hc), Ha. done. Qed.

(** A search loop: each round passes or throws [e]. *)
Lemma search_eval {A} (f : unit -> A -> css St unit) (hit : A -> Prop) e l c :
  ca_versionOk c = true ->
  (forall a, a ∈ l -> (hit a /\ f tt a c = (c, inl e)) \/ (~ hit a /\ f tt a c = (c, inr tt))) ->
  (Exists hit l /\ css_fold f tt l c = (c, inl e)) \/ (~ Exists hit l /\ css_fold f tt l c = (c, inr tt)).
Proof.
  intros Hc. induction l as [|a l IH]; intros Hl; simpl; [right; split; [intros Hx; inversion Hx|done]|].
  rewrite Exists_cons. unfold css_bind. destruct (Hl a ltac:(left)) as [[Ha ->]|[Ha ->]]; [left; auto|].
  destruct IH as [[? ?]|[? ?]]; [intros; apply Hl; by right|left; auto|right; split; [tauto|done]].
Qed.

(** What [deleteNode] looks at can be read. *)
Definition readable c : Prop :=
  exists dbs, (getDbNames c).2 = inr dbs /\ forall db, db ∈ dbs ->
    exists tbls, (getTableNames db false c).2 = inr tbls /\ forall tbl, tbl ∈ tbls ->
      exists chunks, (getChunks db tbl c).2 = inr chunks.

(** A chunk of a table has a replica on the node. *)
Definition in_use c n : Prop :=
  exists dbs db tbls tbl chunks ch nodes, (getDbNames c).2 = inr dbs /\ db ∈ dbs /\ (getTableNames db false c).2 = inr tbls /\ tbl ∈ tbls /\
    (getChunks db tbl c).2 = inr chunks /\ chunks !! ch = Some nodes /\ n ∈ nodes.

(** The loop over the chunks of one table. *)
Definition table_uses c db n tbl : Prop :=
  exists chunks ch nodes, (getChunks db tbl c).2 = inr chunks /\ chunks !! ch = Some nodes /\ n ∈ nodes.

Lemma table_search c db tbl n chunks : ca_versionOk c = true -> (getChunks db tbl c).2 = inr chunks ->
  let m := css_bind (getChunks db tbl) (fun chunks =>
      css_fold (fun _ (chunkPair : Z * list string) =>
        css_fold (fun _ node => if decide (node = n) then css_throw (NodeInUse n) else css_ret tt) tt chunkPair.2) tt (in_order chunks)) in
  (table_uses c db n tbl /\ m c = (c, inl (NodeInUse n))) \/ (~ table_uses c db n tbl /\ m c = (c, inr tt)).
Proof.
  intros Hc Hch. cbv zeta. rewrite (bind_eval _ _ c chunks (read_getChunks db tbl) Hc Hch).
  assert (Hu : table_uses c db n tbl <-> Exists (fun e : Z * list string => n ∈ e.2) (in_order chunks)).
  { unfold table_uses. rewrite Exists_exists. split.
    - intros (chunks' & ch & nodes & He & Hl & Hn). assert (chunks' = chunks) as -> by congruence. exists (ch, nodes).
      by rewrite elem_of_in_order.
    - intros ([ch nodes] & Hin%elem_of_in_order & Hn). eauto 6. }
  rewrite Hu. apply search_eval; [done|]. intros [ch nodes] _. simpl.
  destruct (search_eval (fun (_ : unit) node => if decide (node = n) then css_throw (NodeInUse n) else css_ret tt)
    (fun node => node = n) (NodeInUse n) nodes c Hc) as [[Hx Hf]|[Hx Hf]].
  - intros node _. destruct (decide (node = n)); [left|right]; done.
  - left. split; [|done]. by apply Exists_exists in Hx as (x & Hx & ->).
  - right. split; [|done]. intros Hn. apply Hx, Exists_exists. eauto.
Qed.

Definition db_uses c n db : Prop :=
  exists tbls, (getTableNames db false c).2 = inr tbls /\ Exists (table_uses c db n) tbls.


(** ** Databases *)

Definition db_path (db : string) : list string := pp ++ ["DBS"%string; db].
Definition part_path (partId : string) : list string := pp ++ ["PARTITIONING"%string; "_" +:+ partId].

Lemma db_key db : render pp +:+ "/DBS/" +:+ db = render (db_path db).
Proof. unfold db_path. rewrite render_app. cbn [render]. by rewrite append_nil_r. Qed.

Lemma part_key partId : render pp +:+ "/PARTITIONING/_" +:+ partId = render (part_path partId).
Proof. unfold part_path. rewrite render_app. cbn [render]. by rewrite append_nil_r. Qed.

Lemma part_prefix_key : render pp +:+ "/PARTITIONING/_" = render ((pp ++ ["PARTITIONING"%string]) ++ ["_"%string]).
Proof. by rewrite !render_snoc, append_assoc. Qed.

Lemma part_suffix partId :
  substr_from (String.length (render ((pp ++ ["PARTITIONING"%string]) ++ ["_"%string]))) (render (part_path partId)) = partId.
Proof. rewrite <- part_prefix_key, <- part_key, <- append_assoc. apply substr_from_app. Qed.

Definition strip_map (sp : StripingParams) : gmap string string := list_to_map
  [("nStripes", to_string (sp_stripes sp)); ("nSubStripes", to_string (sp_subStripes sp)); ("overlap", to_string_double (sp_overlap sp))]%string.
Definition db_map (storageClass releaseStatus partId : string) : gmap string string :=
  <["partitioningId"%string := partId]> (list_to_map [("releaseStatus", releaseStatus); ("storageClass", storageClass)]%string).

Lemma strip_map_lookup sp :
  strip_map sp !! "nStripes"%string = Some (to_string (sp_stripes sp)) /\
  strip_map sp !! "nSubStripes"%string = Some (to_string (sp_subStripes sp)) /\
  strip_map sp !! "overlap"%string = Some (to_string_double (sp_overlap sp)).
Proof. unfold strip_map. cbn [list_to_map foldr uncurry fst snd]. repeat split; by simplify_map_eq. Qed.

Lemma strip_map_packable sp : packable (strip_map sp).
Proof. unfold packable, strip_map. cbn [list_to_map foldr uncurry fst snd]. packable_entry. Qed.

Lemma strip_map_named sp : named (strip_map sp).
Proof. unfold named, strip_map. cbn [list_to_map foldr uncurry fst snd]. repeat first [apply map_Forall_insert_2; [done|] | apply map_Forall_empty]. Qed.

Lemma db_map_packable sc rs partId : printable sc = true -> printable rs = true -> printable partId = true -> packable (db_map sc rs partId).
Proof. intros ? ? ?. unfold packable, db_map. cbn [list_to_map foldr uncurry fst snd]. packable_entry. Qed.

Lemma db_map_named sc rs partId : named (db_map sc rs partId).
Proof. unfold named, db_map. cbn [list_to_map foldr uncurry fst snd]. repeat first [apply map_Forall_insert_2; [done|] | apply map_Forall_empty]. Qed.

(** What [createDb] leaves for a partitioned database. *)
Definition db_stored db (partId : string) (sp : StripingParams) (sc rs : string) t' : Prop :=
  t' !! db_path db = Some KEY_STATUS_READY /\ packed t' (db_path db) = inr (db_map sc rs partId) /\
  (forall n, n <> packedKeyName -> t' !! (db_path db ++ [n]) = None) /\
  packed t' (part_path partId) = inr (strip_map sp) /\ (forall n, n <> packedKeyName -> t' !! (part_path partId ++ [n]) = None).

Lemma db_part_disjoint db partId x y : ~ (part_path partId ++ x) `prefix_of` (db_path db ++ y).
Proof. unfold part_path, db_path. rewrite <- !app_assoc. intros Hp%prefix_app_inv. by apply prefix_cons_inv_1 in Hp. Qed.

Lemma part_db_disjoint db partId x y : ~ (db_path db ++ x) `prefix_of` (part_path partId ++ y).
Proof. unfold part_path, db_path. rewrite <- !app_assoc. intros Hp%prefix_app_inv. by apply prefix_cons_inv_1 in Hp. Qed.

Lemma wp_createDb db sp sc rs t : path_ok pp -> tree_ok t -> name_ok db -> 0 < sp_stripes sp -> printable sc = true -> printable rs = true ->
  t !! db_path db = None -> Z.of_nat (size t) < INT_MAX ->
  wp pp (createDb db sp sc rs) (fun r t' => r = inr tt /\ exists id, 0 < id <= INT_MAX /\
    t !! part_path (zero_pad 10 id) = None /\ db_stored db (zero_pad 10 id) sp sc rs t') t.
Proof.
  intros Hpp Hok Hdb Hst Ha Hb Hnone Hsize. unfold createDb. apply wp_bind, wp_checkVersion, wp_bind, wp_prefix. apply wp_bind.
  rewrite (proj2 (Z.ltb_lt _ _) Hst). rewrite part_prefix_key. apply wp_bind, wp_create_unique; [by apply path_ok_snoc|done|].
  intros id Hid Hfree Hmax. specialize (Hmax Hsize).
  assert (Hpath : (pp ++ ["PARTITIONING"%string]) ++ ["_" +:+ zero_pad 10 id] = part_path (zero_pad 10 id)) by (unfold part_path; by rewrite <- app_assoc).
  rewrite Hpath in *. assert (Hpok : path_ok (part_path (zero_pad 10 id))).
  { destruct (zero_pad_name 10 id ltac:(lia)) as [_ Hz2]. apply path_ok_app. split; [done|]. unfold path_ok. rewrite !Forall_cons.
    split; [done|]. split; [|done]. split; [done|]. by rewrite has_char_app. }
  apply wp_bind, wp_storePacked; [done|apply strip_map_packable|]. intros text1 Hun1. apply wp_ret.
  set (t2 := tree_set (part_path (zero_pad 10 id) ++ [packedKeyName]) text1 _).
  rewrite part_suffix. rewrite decide_False by apply zero_pad_nonempty.
  rewrite db_key. assert (Hdok : path_ok (db_path db)) by (apply path_ok_app; split; [done|]; unfold path_ok; by rewrite !Forall_cons).
  apply wp_bind, wp_storePacked; [done|apply db_map_packable; try done; by apply printable_digits, zero_pad_digits; lia|].
  intros text2 Hun2. apply wp_set; [done|]. split; [done|]. exists id. split; [lia|]. split; [done|].
  assert (Hdt2 : forall n, t2 !! (db_path db ++ [n]) = None).
  { intros n. unfold t2. rewrite tree_set_other by apply part_db_disjoint. rewrite <- (app_nil_r (part_path _)), tree_set_other by apply part_db_disjoint.
    by apply tree_ok_none. }
  destruct (packed_set t2 (db_path db) text2 _ KEY_STATUS_READY Hdt2 Hun2) as (H1' & H2' & H3'). split; [done|]. split; [done|]. split; [done|].
  assert (Hpt : forall y, y <> [] -> tree_set (db_path db) KEY_STATUS_READY (tree_set (db_path db ++ [packedKeyName]) text2 t2) !! (part_path (zero_pad 10 id) ++ y) =
    t2 !! (part_path (zero_pad 10 id) ++ y)).
  { intros y _. rewrite <- (app_nil_r (db_path db)) at 1. by rewrite !tree_set_other by apply db_part_disjoint. }
  split.
  - unfold packed. rewrite Hpt by done. unfold t2. by rewrite tree_set_eq.
  - intros n Hn. rewrite Hpt by done. unfold t2. rewrite tree_set_child, !decide_False by congruence. rewrite tree_set_base by done. by apply tree_ok_none.
Qed.

(** Sub-keys that are packed in a key with nothing else below. *)
Lemma wp_packed_subkeys b data names Q t : path_ok b -> packed t b = inr data -> named data ->
  (forall n, n <> packedKeyName -> t !! (b ++ [n]) = None) -> Forall (fun n => name_ok n /\ n <> packedKeyName) names ->
  (forall M : gmap string string, (forall n, n ∈ names -> M !! n = data !! n) -> Q (inr M) t) ->
  wp pp (getSubkeys (render b) names) Q t.
Proof.
  intros Hb Hp Hnd Hno Hnames HQ.
  assert (Hsub : names = subkey <$> ((fun n => [n]) <$> names)).
  { rewrite <- list_fmap_compose. clear. induction names as [|n l IH]; [done|]. cbn [fmap list_fmap compose]. rewrite <- IH.
    f_equal. unfold compose. rewrite subkey_cons. cbn [render]. by rewrite append_nil_r. }
  rewrite Forall_forall in Hnames. rewrite Hsub. apply wp_getSubkeys; [done| | |].
  - rewrite Forall_fmap, Forall_forall. intros n Hn. split; [done|]. apply Forall_singleton. by apply Hnames.
  - intros sp (n & -> & _)%list_elem_of_fmap. simpl. rewrite app_nil_r. exists data. split; [done|]. intros k. by apply named_lookup.
  - intros M HM _. apply HQ. intros n Hn. pose proof (HM [n] ltac:(apply list_elem_of_fmap; eauto)) as E.
    rewrite subkey_cons in E. cbn [render] in E. rewrite append_nil_r in E. rewrite E. apply tree_sub_packed; [|done]. by apply Hno, Hnames.
Qed.

Lemma reads_striping db id sp sc rs overlap t : path_ok pp -> name_ok db -> 0 < id <= INT_MAX ->
  INT_MIN <= sp_stripes sp <= INT_MAX -> INT_MIN <= sp_subStripes sp <= INT_MAX ->
  stod (to_string_double (sp_overlap sp)) = Ret overlap -> db_stored db (zero_pad 10 id) sp sc rs t ->
  reads pp t (getDbStriping db : css St StripingParams) (mkStriping (sp_stripes sp) (sp_subStripes sp) id overlap).
Proof.
  intros Hpp Hdb Hid Hs1 Hs2 Hov (_ & Hpd & Hno & Hpp' & Hno'). unfold reads, getDbStriping.
  apply wp_bind, wp_checkVersion, wp_bind, wp_prefix. rewrite db_key. apply wp_bind.
  eapply wp_packed_subkeys; [|done|apply db_map_named|done|by rewrite Forall_singleton|].
  { apply path_ok_app. split; [done|]. unfold path_ok. by rewrite !Forall_cons. }
  intros M HM. rewrite (HM "partitioningId"%string) by left.
  replace (db_map sc rs (zero_pad 10 id) !! "partitioningId"%string) with (Some (zero_pad 10 id)) by (unfold db_map; by rewrite lookup_insert_eq).
  change (default ""%string (Some (zero_pad 10 id))) with (zero_pad 10 id).
  rewrite decide_False by apply zero_pad_nonempty. rewrite part_key. apply wp_bind.
  eapply wp_packed_subkeys; [|done|apply strip_map_named|done|by rewrite !Forall_cons|].
  { destruct (zero_pad_name 10 id ltac:(lia)) as [_ Hz2]. apply path_ok_app. split; [done|]. unfold path_ok. rewrite !Forall_cons.
    split; [done|]. split; [|done]. split; [done|]. by rewrite has_char_app. }
  intros K HK. destruct (strip_map_lookup sp) as (L1 & L2 & L3). apply wp_lift. split; [|done]. unfold numeric.
  rewrite (HK "nStripes"%string), (HK "nSubStripes"%string), (HK "overlap"%string), L1, L2, L3 by set_solver.
  rewrite zero_pad_stoi, !stoi_to_string, Hov by (done || lia). done.
Qed.

(** The striping given to [createDb] for a new partitioned database is what
    [getDbStriping] returns, with the identifier of a partitioning entry that was
    free before, and the overlap with six decimals; the database is there
    afterwards. (The bound on the number of keys keeps the identifier in the
    range of [int].) *)
Theorem created_db_striping (c : CssAccess St) (t : Tree) (db sc rs : string) (sp : StripingParams) (overlap : double) :
  css_rep pp c t -> name_ok db -> t !! db_path db = None -> Z.of_nat (size t) < INT_MAX ->
  0 < sp_stripes sp <= INT_MAX -> INT_MIN <= sp_subStripes sp <= INT_MAX ->
  printable sc = true -> printable rs = true -> stod (to_string_double (sp_overlap sp)) = Ret overlap ->
  let '(c', r) := createDb db sp sc rs c in
  r = inr tt /\ (containsDb db c').2 = inr true /\
  exists id, 0 < id /\ t !! part_path (zero_pad 10 id) = None /\
    (getDbStriping db c').2 = inr (mkStriping (sp_stripes sp) (sp_subStripes sp) id overlap).
Proof.
  intros Hc Hdb Hnone Hsize Hs1 Hs2 Hsc Hrs Hov. assert (Hpp : path_ok pp) by apply Hc. pose proof (css_rep_ok pp c t Hc) as Hok.
  destruct (wp_run pp _ _ c t Hc (wp_createDb db sp sc rs t Hpp Hok Hdb (proj1 Hs1) Hsc Hrs Hnone Hsize)) as (t' & Hc' & Hres & id & Hid & Hfree & Hst).
  destruct (createDb db sp sc rs c) as [c' r]. cbn [fst snd] in *. split; [done|]. split.
  - destruct (wp_containsDb pp db (fun r t' => r = inr true) t' Hpp Hdb) with (c := c') as (? & _ & ?); [|done|done].
    destruct Hst as [Hst _]. unfold db_path in Hst. by rewrite Hst.
  - exists id. split; [lia|]. split; [done|]. eapply reads_run; [done|]. eapply reads_striping; try done. unfold INT_MIN. lia.
Qed.
End Nodes.

(** ** Witnesses *)

Lemma added_node_params_witness :
  let np := mkNodeParams "worker" "lsst-db01" 5012 "ACTIVE" in
  let '(c', r) := addNode "worker-1" np (demo_css []) in
  r = inr tt /\ (getNodeParams "worker-1" c').2 = inr np /\ exists t', css_rep [] c' t' /\ frame (nodes_path [] ++ ["worker-1"%string]) (demo_tree []) t'.
Proof.
  cbv zeta.
  pose proof (added_node_params [] (demo_css []) (demo_tree []) "worker-1" (mkNodeParams "worker" "lsst-db01" 5012 "ACTIVE")
    (demo_rep [] ltac:(constructor)) ltac:(decide_closed) ltac:(decide_closed) eq_refl eq_refl eq_refl ltac:(unfold INT_MIN, INT_MAX; simpl; lia)) as Hx.
  exact Hx.
Defined.

(** A catalogue with one table that has a chunk on [worker-1]. *)
Definition demo_catalogue : CssAccess KvMem :=
  let c := (createDb "LSST" (mkStriping 18 10 0 (demo_double "0.01667")) "L2" "UNRELEASED" (demo_css [])).1 in
  let c := (createTable "LSST" "Object" "" demo_part (mkScan true 2) c).1 in
  let c := (addNode "worker-1" (mkNodeParams "worker" "lsst-db01" 5012 "ACTIVE") c).1 in
  let c := (addNode "worker-2" (mkNodeParams "worker" "lsst-db02" 5012 "ACTIVE") c).1 in
  (addChunk "LSST" "Object" 7310 ["worker-1"%string] c).1.


Example delete_unused_node : (deleteNode "worker-2" demo_catalogue).2 = inr tt.
Proof. vm_compute. reflexivity. Qed.

Lemma created_db_striping_witness :
  let sp := mkStriping 18 10 0 (demo_double "0.01667") in
  let '(c', r) := createDb "LSST" sp "L2" "UNRELEASED" (demo_css []) in
  r = inr tt /\ (containsDb "LSST" c').2 = inr true /\
  exists id, 0 < id /\ demo_tree [] !! part_path [] (zero_pad 10 id) = None /\
    (getDbStriping "LSST" c').2 = inr (mkStriping 18 10 id (demo_double "0.01667")).
Proof.
  cbv zeta. apply (created_db_striping [] (demo_css []) (demo_tree []) "LSST" "L2" "UNRELEASED" (mkStriping 18 10 0 (demo_double "0.01667"))).
  - apply demo_rep. constructor.
  - decide_closed.
  - vm_compute. reflexivity.
  - vm_compute. reflexivity.
  - unfold INT_MAX. simpl. lia.
  - unfold INT_MIN, INT_MAX. simpl. lia.
  - reflexivity.
  - reflexivity.
  - vm_compute. reflexivity.
Defined.

(** ** css: chunks of a table

    The replicas that [addChunk] stores are those that [getChunks] lists. *)

Implicit Types (x : string) (rs : list (string * string)).

Section Chunks.
Context {St : Type} `{KvSpec St} `{PropertyTreeLaws} (pp : list string).

Implicit Types (c : CssAccess St).

Definition chunks_path b : list string := b ++ ["CHUNKS"%string].
Definition replicas_path b x : list string := chunks_path b ++ [x; "REPLICAS"%string].

Definition replica_map (node : string) : gmap string string := list_to_map [("nodeName", node)]%string.

(** Below the table, the only chunk is [x], and it has the replicas [rs]: keys
    with their nodes. *)
Definition replicas t b x rs : Prop :=
  is_Some (t !! b) /\ NoDup rs.*1 /\
  (forall y, is_Some (t !! (chunks_path b ++ y)) <-> rs <> [] /\
     (y = [] \/ y = [x] \/ y = [x; "REPLICAS"%string] \/
      exists r, r ∈ rs.*1 /\ (y = [x; "REPLICAS"%string; r] \/ y = [x; "REPLICAS"%string; r; packedKeyName]))) /\
  (forall r node, (r, node) ∈ rs -> r <> packedKeyName /\ packed t (replicas_path b x ++ [r]) = inr (replica_map node)).

Lemma replicas_none t b x : tree_ok t -> is_Some (t !! b) -> t !! chunks_path b = None -> replicas t b x [].
Proof.
  intros Hok Hb Hn. split; [done|]. split; [constructor|]. split; [|intros r node Hin; by apply not_elem_of_nil in Hin].
  intros y. rewrite tree_ok_none by done. split; [by intros [? [=]]|by intros [? _]].
Qed.

(** Adding one replica. *)
Lemma replicas_add t b x rs r node text : r <> packedKeyName -> r ∉ rs.*1 ->
  (forall key, unpackJson key text = inr (replica_map node)) -> replicas t b x rs ->
  replicas (tree_set ((replicas_path b x ++ [r]) ++ [packedKeyName]) text (tree_set (replicas_path b x ++ [r]) "" t)) b x (rs ++ [(r, node)]).
Proof.
  intros Hr Hnew Hun (Hb & Hnd & Hkeys & Hpk).
  assert (Hrp : forall z, replicas_path b x ++ z = chunks_path b ++ x :: "REPLICAS"%string :: z) by (intros; unfold replicas_path; by rewrite <- app_assoc).
  split; [|split; [|split]].
  - destruct Hb as [v Hv]. assert (Hbz : forall z v t, z <> [] -> is_Some (t !! b) -> is_Some (tree_set (b ++ z) v t !! b)).
    { intros z v' t' Hz Hs. rewrite tree_set_above by done. by eexists. }
    unfold replicas_path, chunks_path. rewrite <- !app_assoc. apply Hbz; [done|]. apply Hbz; [done|]. by eexists.
  - rewrite fmap_app. apply NoDup_app. split; [done|]. split; [|apply NoDup_singleton]. simpl. set_solver.
  - intros y. rewrite <- app_assoc, !Hrp, !tree_set_local. simpl.
    assert (Hpre : y `prefix_of` [x; "REPLICAS"%string; r; packedKeyName] <->
      y = [] \/ y = [x] \/ y = [x; "REPLICAS"%string] \/ y = [x; "REPLICAS"%string; r] \/ y = [x; "REPLICAS"%string; r; packedKeyName]).
    { split.
      - intros [z Hz]. destruct y as [|y1 [|y2 [|y3 [|y4 [|]]]]]; simplify_eq/=; auto 7.
      - intros [->|[->|[->|[->| ->]]]]; by eexists. }
    assert (Hpre3 : y `prefix_of` [x; "REPLICAS"%string; r] -> y `prefix_of` [x; "REPLICAS"%string; r; packedKeyName]).
    { intros Hp. by apply (prefix_app_r _ _ [packedKeyName]) in Hp. }
    transitivity (is_Some (t !! (chunks_path b ++ y)) \/ y `prefix_of` [x; "REPLICAS"%string; r; packedKeyName]).
    { repeat case_decide; subst; repeat case_match; simplify_eq; naive_solver. }
    rewrite Hkeys, Hpre, fmap_app. setoid_rewrite elem_of_app. setoid_rewrite list_elem_of_singleton.
    split; [intros [[Hne Hy]|Hy]; (split; [by destruct rs|]); naive_solver|].
    intros [_ Hy]. destruct rs as [|e rs]; [right; set_solver|]. naive_solver.
  - intros r' node' [Hin|Hin]%elem_of_app.
    + destruct (Hpk r' node' Hin) as [Hr' Hp']. split; [done|]. assert (Hne : r' <> r).
      { intros ->. apply Hnew. apply list_elem_of_fmap. by exists (r, node'). }
      unfold packed in *. rewrite <- !app_assoc in *. simpl in *. rewrite !(tree_set_other _ _ _ (replicas_path b x ++ _)); [done|..].
      * intros Hp%prefix_app_inv. by apply prefix_cons_inv_1 in Hp.
      * intros Hp%prefix_app_inv. by apply prefix_cons_inv_1 in Hp.
    + apply list_elem_of_singleton in Hin as [= -> ->]. split; [done|]. unfold packed. by rewrite tree_set_eq.
Qed.

Lemma to_string_name z : name_ok (to_string z).
Proof.
  split; [apply to_string_nonempty|]. unfold has_char. apply negb_false_iff. eapply all_chars_impl; [|apply to_string_chars].
  intros a Ha. apply negb_true_iff, Ascii.eqb_neq. intros ->. done.
Qed.

Lemma to_string_not_packed z : to_string z <> packedKeyName.
Proof. intros He. pose proof (to_string_chars z) as Hc. rewrite He in Hc. done. Qed.

Lemma pad_not_packed id : 0 <= id -> zero_pad 10 id <> packedKeyName.
Proof. intros Hid He. pose proof (zero_pad_digits 10 id Hid) as Hd. rewrite He in Hd. done. Qed.

Lemma replicas_key b x : render b +:+ "/CHUNKS/" +:+ x +:+ "/REPLICAS" = render (replicas_path b x).
Proof. unfold replicas_path, chunks_path. rewrite <- app_assoc, render_app. reflexivity. Qed.

Lemma chunks_replicas_key b x : render (chunks_path b) +:+ "/" +:+ x +:+ "/REPLICAS" = render (replicas_path b x).
Proof. rewrite <- replicas_key. unfold chunks_path. rewrite render_snoc, append_assoc. reflexivity. Qed.

Lemma chunk_replicas_key db tbl chunk :
  chunk_key (render pp) db tbl chunk +:+ "/REPLICAS" = render (replicas_path (table_path pp db tbl) (to_string chunk)).
Proof. rewrite <- replicas_key, <- table_key_render. unfold chunk_key, table_key. by rewrite !append_assoc. Qed.

Lemma replica_map_packable node : printable node = true -> packable (replica_map node).
Proof. intros ?. unfold packable, replica_map. cbn [list_to_map foldr uncurry fst snd]. packable_entry. Qed.

Lemma replica_map_named node : named (replica_map node).
Proof. unfold named, replica_map. cbn [list_to_map foldr uncurry fst snd]. apply map_Forall_insert_2; [done|apply map_Forall_empty]. Qed.

Lemma replicas_path_ok b x : path_ok b -> name_ok x -> path_ok (replicas_path b x).
Proof. intros Hb Hx. unfold replicas_path, chunks_path. rewrite !path_ok_app. unfold path_ok at 2 3. by rewrite !Forall_cons. Qed.

(** [addChunk] stores a replica for each node. *)
Lemma wp_addChunk db tbl chunk nodes t :
  let b := table_path pp db tbl in
  path_ok pp -> name_ok db -> name_ok tbl -> tree_ok t -> is_Some (t !! b) -> t !! chunks_path b = None ->
  Forall (fun n => printable n = true) nodes ->
  wp pp (addChunk db tbl chunk nodes) (fun r t' => r = inr tt /\ exists rs, rs.*2 = nodes /\ replicas t' b (to_string chunk) rs) t.
Proof.
  intros b Hpp Hdb Htbl Hok Hb Hnone Hpr. pose proof (table_path_ok pp db tbl Hpp Hdb Htbl) as Hbok. fold b in Hbok.
  pose proof (replicas_path_ok b (to_string chunk) Hbok (to_string_name chunk)) as Hrok.
  unfold addChunk. apply wp_bind, wp_checkVersion, wp_bind, wp_prefix. rewrite chunk_replicas_key. fold b.
  apply (wp_fold _ _ (fun l _ t' => exists done rs, nodes = done ++ l /\ rs.*2 = done /\ replicas t' b (to_string chunk) rs)).
  - exists [], []. split; [done|]. split; [done|]. by apply replicas_none.
  - intros node l u t1 (dn & rs & Hdn & Hrs & Hrep). apply wp_bind.
    replace (render (replicas_path b (to_string chunk)) +:+ "/") with (render (replicas_path b (to_string chunk) ++ [""%string])) by (by rewrite render_snoc).
    apply wp_create_unique; [done|done|]. intros id Hid Hfree _. change ("" +:+ zero_pad 10 id) with (zero_pad 10 id) in *.
    apply wp_storePacked; [apply path_ok_snoc; split; [done|]; apply zero_pad_name; lia| |].
    { apply replica_map_packable. rewrite Forall_forall in Hpr. apply Hpr. rewrite Hdn. set_solver. }
    intros text Hun. exists (dn ++ [node]), (rs ++ [(zero_pad 10 id, node)]). split; [by rewrite <- app_assoc|]. split; [by rewrite fmap_app, Hrs|].
    apply replicas_add; [apply pad_not_packed; lia| |done|done].
    intros Hin. destruct Hrep as (_ & _ & Hkeys & _). apply eq_None_not_Some in Hfree. apply Hfree. unfold replicas_path. rewrite <- app_assoc.
    apply Hkeys. split; [by destruct rs; [apply not_elem_of_nil in Hin|]|]. right; right; right. exists (zero_pad 10 id). auto.
  - intros [] t1 (dn & rs & Hdn & Hrs & Hrep). rewrite app_nil_r in Hdn. subst. split; [done|]. by exists rs.
Qed.

(** Children of a path with given names. *)
Lemma children_list t q l : NoDup l -> (forall n, n ∈ l <-> is_Some (t !! (q ++ [n]))) -> sorted_keys (tree_children q t) ≡ₚ l.
Proof.
  intros Hn Hl. apply NoDup_Permutation; [apply sorted_keys_NoDup|done|]. intros n. by rewrite sorted_keys_elem, tree_children_lookup, Hl.
Qed.

(** The loop over the replicas of a chunk lists their nodes. *)
Lemma wp_replica_nodes b x rs l acc Q t : path_ok b -> name_ok x -> tree_ok t -> replicas t b x rs -> l ⊆ rs.*1 ->
  (forall nodes, nodes = acc ++ omap (fun r => (list_to_map rs : gmap string string) !! r) l -> Q (inr nodes) t) ->
  wp pp (css_fold (replica_nodes (render (replicas_path b x))) acc l) Q t.
Proof.
  intros Hb Hx Hok Hrep. revert acc. induction l as [|r l IH]; intros acc Hsub HQ; simpl.
  - apply wp_ret, HQ. by rewrite app_nil_r.
  - pose proof (replicas_path_ok b x Hb Hx) as Hrok. destruct Hrep as (Hbs & Hnd & Hkeys & Hpk).
    assert (Hin : r ∈ rs.*1) by set_solver. pose proof Hin as ([r' node] & Hr' & Hrs)%list_elem_of_fmap. simpl in Hr'. subst r'.
    destruct (Hpk r node Hrs) as [Hr Hpd].
    assert (Hno : forall n, n <> packedKeyName -> t !! ((replicas_path b x ++ [r]) ++ [n]) = None).
    { intros n Hn. apply eq_None_not_Some. intros Hs. unfold replicas_path in Hs. rewrite <- !app_assoc in Hs. apply Hkeys in Hs as (_ & Hy). naive_solver. }
    assert (Hrp : path_ok (replicas_path b x ++ [r])).
    { apply (proj1 Hok). unfold replicas_path. rewrite <- !app_assoc. apply Hkeys. split; [by destruct rs; [apply not_elem_of_nil in Hin|]|].
      right; right; right. exists r. auto. }
    apply wp_bind, wp_bind. rewrite (snoc_key (replicas_path b x) r).
    eapply wp_packed_subkeys; [done|done|apply replica_map_named|done|by rewrite Forall_singleton|]. intros M HM. apply wp_ret.
    rewrite (HM "nodeName"%string) by left. replace (replica_map node !! "nodeName"%string) with (Some node) by (unfold replica_map; cbn; by rewrite lookup_insert_eq).
    apply IH; [set_solver|]. intros nodes ->. apply HQ. cbn [omap list_omap]. rewrite (elem_of_list_to_map_1 (M := gmap string) rs r node Hnd Hrs). by rewrite <- app_assoc.
Qed.

Lemma nodes_permutation rs l : NoDup rs.*1 -> l ≡ₚ rs.*1 -> omap (fun r => (list_to_map rs : gmap string string) !! r) l ≡ₚ rs.*2.
Proof.
  intros Hnd ->. induction rs as [|[r node] rs IH]; simpl; [done|]. inversion Hnd as [|? ? Hr Hnd']; subst. rewrite lookup_insert_eq.
  f_equiv. rewrite <- IH by done. apply reflexive_eq. apply list_omap_ext. apply Forall_Forall2_diag, Forall_forall. intros r' Hr'. rewrite lookup_insert_ne; [done|]. by intros ->.
Qed.

(** The keys of the replicas. *)
Lemma replicas_children t b x rs : rs <> [] -> replicas t b x rs ->
  remove_packed (sorted_keys (tree_children (replicas_path b x) t)) ≡ₚ rs.*1.
Proof.
  intros Hne (_ & Hnd & Hkeys & Hpk). unfold remove_packed. rewrite children_list with (l := rs.*1); [|done|].
  - apply reflexive_eq. clear Hkeys Hne Hnd. induction rs as [|[r node] rs IH]; [done|]. cbn [fmap list_fmap fst].
    destruct (Hpk r node ltac:(left)) as [Hr _]. rewrite filter_cons_True by done. f_equal. apply IH. intros. apply Hpk. by right.
  - intros n. unfold replicas_path. rewrite <- app_assoc. simpl. rewrite Hkeys. split; [naive_solver|]. intros [_ Hy]. naive_solver.
Qed.

(** The nodes given to [addChunk] for the first chunk of a table are those that
    [getChunks] lists for it, each as often as it was given, and no other chunk
    is listed; with no nodes nothing is stored and no chunk is listed. *)
Theorem added_chunk_nodes (c : CssAccess St) (t : Tree) (db tbl : string) (chunk : Z) (nodes : list string) :
  css_rep pp c t -> name_ok db -> name_ok tbl -> is_Some (t !! table_path pp db tbl) -> t !! chunks_path (table_path pp db tbl) = None ->
  INT_MIN <= chunk <= INT_MAX -> Forall (fun n => printable n = true) nodes ->
  let '(c', r) := addChunk db tbl chunk nodes c in
  r = inr tt /\ exists m, (getChunks db tbl c').2 = inr m /\
    (nodes = [] -> m = ∅) /\ (nodes <> [] -> exists nodes', m = {[chunk := nodes']} /\ nodes' ≡ₚ nodes).
Proof.
  intros Hc Hdb Htbl Hb Hnone Hch Hpr. assert (Hpp : path_ok pp) by apply Hc. pose proof (css_rep_ok pp c t Hc) as Hok.
  pose proof (table_path_ok pp db tbl Hpp Hdb Htbl) as Hbok.
  destruct (wp_run pp _ _ c t Hc (wp_addChunk db tbl chunk nodes t Hpp Hdb Htbl Hok Hb Hnone Hpr)) as (t' & Hc' & Hres & rs & Hrs & Hrep).
  destruct (addChunk db tbl chunk nodes c) as [c' r]. cbn [fst snd] in *. split; [done|]. set (b := table_path pp db tbl) in *.
  pose proof (css_rep_ok pp c' t' Hc') as Hok'.
  destruct (wp_run pp (getChunks db tbl) (fun r _ => exists m, r = inr m /\ (nodes = [] -> m = ∅) /\
    (nodes <> [] -> exists nodes', m = {[chunk := nodes']} /\ nodes' ≡ₚ nodes)) c' t' Hc') as (t'' & _ & HQ); [|exact HQ].
  unfold getChunks. apply wp_bind, wp_checkVersion, wp_bind, wp_prefix. rewrite table_key_render. fold b.
  change (render b +:+ "/CHUNKS") with (render b +:+ String SLASH "CHUNKS"). rewrite child_key. fold (chunks_path b).
  pose proof Hrep as (Hbs & Hnd & Hkeys & _).
  assert (Hemp : is_Some (t' !! chunks_path b) <-> rs <> []). { rewrite <- (app_nil_r (chunks_path b)), Hkeys. naive_solver. }
  apply wp_bind, wp_catch, wp_bind, wp_getChildren; [by apply path_ok_snoc| |].
  - intros Hs%Hemp. apply wp_ret.
    assert (Hl : sorted_keys (tree_children (chunks_path b) t') = [to_string chunk]).
    { apply Permutation_singleton_r, children_list; [apply NoDup_singleton|]. intros n. rewrite list_elem_of_singleton, Hkeys. naive_solver. }
    rewrite Hl. simpl. apply wp_bind. unfold chunk_step. rewrite stoi_to_string by done.
    rewrite chunks_replicas_key. pose proof (replicas_path_ok b (to_string chunk) Hbok (to_string_name chunk)) as Hrok.
    apply wp_bind, wp_catch, wp_bind, wp_getChildren; [done| |].
    + intros _. apply wp_ret. set (l := remove_packed _).
      assert (Hperm : l ≡ₚ rs.*1) by by apply replicas_children.
      apply wp_bind. eapply wp_replica_nodes; [done|apply to_string_name|done|done|by rewrite Hperm|]. intros nodes' Hn'. simpl in Hn'.
      apply wp_ret, wp_ret. exists ({[chunk := nodes']}). split; [done|]. split; [intros ->; by apply fmap_nil_inv in Hrs|].
      intros _. exists nodes'. split; [done|]. rewrite Hn', <- Hrs. by apply nodes_permutation.
    + intros Hn. exfalso. apply eq_None_not_Some in Hn. apply Hn. unfold replicas_path. apply Hkeys. naive_solver.
  - intros Hn. simpl. apply wp_bind, wp_bind, wp_exists; [done|]. rewrite bool_decide_true by done. apply wp_ret, wp_ret, wp_ret.
    exists ∅. split; [done|]. assert (rs = []) as ->. { destruct rs; [done|]. rewrite Hn in Hemp. by destruct (proj2 Hemp) as [? [=]]. }
    simpl in Hrs. by subst.
Qed.
End Chunks.

Lemma added_chunk_nodes_witness :
  let nodes := ["worker-2"; "worker-1"; "worker-2"]%string in
  let '(c', r) := addChunk "LSST" "Object" 7310 nodes (demo_css demo_table) in
  r = inr tt /\ exists m, (getChunks "LSST" "Object" c').2 = inr m /\
    (nodes = [] -> m = ∅) /\ (nodes <> [] -> exists nodes', m = {[7310 := nodes']} /\ nodes' ≡ₚ nodes).
Proof.
  cbv zeta. apply (added_chunk_nodes [] (demo_css demo_table) (demo_tree demo_table)).
  - apply demo_rep. decide_closed.
  - decide_closed.
  - decide_closed.
  - exists "READY"%string. vm_compute. reflexivity.
  - vm_compute. reflexivity.
  - unfold INT_MIN, INT_MAX. lia.
  - decide_closed.
Defined.
