(* ===== verification/SendChannel.v ===== *)
(** * The channel for the result of a task

    [xrdsvc/StreamBuffer], [xrdsvc/ChannelStream], [SsiRequest::reply*] of
    [xrdsvc/SsiRequest.cc] and [wbase/SendChannel]: a query runner hands its
    result to the network library (XrdSsi) in buffers and waits for each until
    it has been sent.

    XrdSsi is outside of the repository.  What is used of it: [SetResponse] posts
    a response or refuses it ([sr_accepts]); of a stream that was posted the
    library takes buffers with [GetBuff] as long as there are any, and calls
    [Recycle] for each when it is sent; it does neither for a stream that was
    not posted.  Since whoever sends a buffer waits for it before the next one,
    the library's thread runs in that wait.  A wait that the library does not
    end is [Raise Blocked].  The count of all bytes held is left out. *)

From Stdlib Require Import Ascii String.
From S2P Require Import Prelude.
From S2P Require Import StdString.
From S2P Require Import MergingHandler.

Local Open Scope Z_scope.

(** ** [class StreamBuffer]: its address and its data *)
Record StreamBuffer := mkStreamBuffer { sb_ptr : nat; sb_dataStr : bytes }.

(** ** [class ChannelStream] *)
Record ChannelStream := mkChannelStream { cs_msgs : list StreamBuffer; cs_closed : bool }.

Definition ChannelStream_ctor : ChannelStream := mkChannelStream [] false.

(** [void append(StreamBuffer::Ptr const& streamBuffer, bool last)] *)
Definition cs_append (b : StreamBuffer) (last : bool) (s : ChannelStream) : outcome ChannelStream :=
  if cs_closed s then Raise BugException else Ret (mkChannelStream (cs_msgs s ++ [b]) last).

(** [Buffer* GetBuff(eInfo, dlen, last)]: the buffer and [last]; [None] stands for
    the error that the stream is not active. *)
Definition GetBuff (s : ChannelStream) : outcome (ChannelStream * option (StreamBuffer * bool)) :=
  match cs_msgs s, cs_closed s with
  | [], false => Raise Blocked
  | [], true => Ret (s, None)
  | b :: msgs, closed => Ret (mkChannelStream msgs closed, Some (b, closed && bool_decide (msgs = [])))
  end.

(** ** [class SsiRequest], as far as it replies *)

Inductive Response := RData (buf : bytes) | RError (msg : string) (code : Z) | RStream.

#[global] Instance Response_eq_dec : EqDecision Response.
Proof. solve_decision. Defined.

(** [sr_stream] is [_stream]; [sr_done] has the buffers whose [_doneWithThis] is
    set, [sr_received] what the library got from [GetBuff], [sr_posted] the
    responses that it took, [sr_new] the next free address. *)
Record SsiRequest := mkSsiRequest {
  sr_accepts : bool;
  sr_stream : option ChannelStream;
  sr_posted : list Response;
  sr_received : list (bytes * bool);
  sr_done : gset nat;
  sr_new : nat;
}.

Implicit Types (r : SsiRequest).

Definition SsiRequest_ctor (accepts : bool) : SsiRequest := mkSsiRequest accepts None [] [] ∅ 0.

Definition SetResponse (x : Response) r : SsiRequest * bool :=
  if sr_accepts r
  then (mkSsiRequest (sr_accepts r) (sr_stream r) (sr_posted r ++ [x]) (sr_received r) (sr_done r) (sr_new r), true)
  else (r, false).

Definition sr_set_stream (s : ChannelStream) r : SsiRequest :=
  mkSsiRequest (sr_accepts r) (Some s) (sr_posted r) (sr_received r) (sr_done r) (sr_new r).

(** [void StreamBuffer::Recycle()] *)
Definition Recycle (b : StreamBuffer) r : SsiRequest :=
  mkSsiRequest (sr_accepts r) (sr_stream r) (sr_posted r) (sr_received r) ({[sb_ptr b]} ∪ sr_done r) (sr_new r).

(** [StreamBuffer::Ptr StreamBuffer::createWithMove(std::string &input)] *)
Definition createWithMove (input : bytes) r : SsiRequest * StreamBuffer :=
  (mkSsiRequest (sr_accepts r) (sr_stream r) (sr_posted r) (sr_received r) (sr_done r) (S (sr_new r)),
   mkStreamBuffer (sr_new r) input).

(** [bool reply(char const* buf, int bufLen)], [bool replyError(msg, code)] *)
Definition reply (buf : bytes) r : SsiRequest * bool := SetResponse (RData buf) r.
Definition replyError (msg : string) (code : Z) r : SsiRequest * bool := SetResponse (RError msg code) r.

(** [bool replyStream(StreamBuffer::Ptr const& sBuf, bool last)] *)
Definition replyStream (b : StreamBuffer) (last : bool) r : SsiRequest * outcome bool :=
  let append s r := match cs_append b last s with Ret s' => (sr_set_stream s' r, Ret true) | Raise e => (r, Raise e) end in
  match sr_stream r with
  | None =>
      let '(r1, posted) := SetResponse RStream (sr_set_stream ChannelStream_ctor r) in
      if posted then append ChannelStream_ctor r1 else (Recycle b r1, Ret false)
  | Some s => if cs_closed s then (r, Ret false) else append s r
  end.

(** The library's thread: [GetBuff] and [Recycle] for each buffer of the stream. *)
Fixpoint xrdssi_take (n : nat) r : SsiRequest :=
  match n, sr_stream r with
  | S n', Some s =>
      match GetBuff s with
      | Ret (s', Some (b, last)) =>
          xrdssi_take n' (Recycle b (mkSsiRequest (sr_accepts r) (Some s') (sr_posted r)
                                       (sr_received r ++ [(sb_dataStr b, last)]) (sr_done r) (sr_new r)))
      | _ => r
      end
  | _, _ => r
  end.
Definition xrdssi_run r : SsiRequest :=
  if decide (RStream ∈ sr_posted r)
  then xrdssi_take (match sr_stream r with Some s => length (cs_msgs s) | None => 0%nat end) r
  else r.

(** [void waitForDoneWithThis()] *)
Definition waitForDoneWithThis (b : StreamBuffer) r : SsiRequest * outcome unit :=
  let r' := xrdssi_run r in
  (r', if decide (sb_ptr b ∈ sr_done r') then Ret tt else Raise Blocked).

(** ** [class SendChannel] *)

(** A channel with its request, and the two that are derived from the class. *)
Inductive SendChannel := SsiChannel (r : SsiRequest) | NopChannel | StringChannel (dest : bytes).

Definition to_bytes (s : string) : bytes := list_ascii_of_string s.

(** [bool send(char const* buf, int bufLen)] and [bool sendError(msg, code)] *)
Definition ch_send (buf : bytes) (c : SendChannel) : SendChannel * bool :=
  match c with
  | SsiChannel r => let '(r', ok) := reply buf r in (SsiChannel r', ok)
  | NopChannel => (NopChannel, true)
  | StringChannel dest => (StringChannel (dest ++ buf), true)
  end.
Definition ch_sendError (msg : string) (code : Z) (c : SendChannel) : SendChannel * bool :=
  match c with
  | SsiChannel r => let '(r', ok) := replyError msg code r in (SsiChannel r', ok)
  | NopChannel => (NopChannel, true)
  | StringChannel dest => (StringChannel (dest ++ to_bytes ("(" +:+ to_string code +:+ "," +:+ msg +:+ ")")), true)
  end.

(** [bool sendStream(StreamBuffer::Ptr const& sBuf, bool last)] with the creation
    of the buffer before and the wait for it after.  The methods [sendStream] of
    the derived classes have other parameters, so the one of the base class is
    called, which has no request there. *)
Definition ch_sendStream (input : bytes) (last : bool) (c : SendChannel) : SendChannel * outcome bool :=
  match c with
  | SsiChannel r =>
      let '(r1, b) := createWithMove input r in
      let '(r2, sent) := replyStream b last r1 in
      match sent with
      | Raise e => (SsiChannel r2, Raise e)
      | Ret sent => let '(r3, w) := waitForDoneWithThis b r2 in
                    (SsiChannel r3, match w with Ret _ => Ret sent | Raise e => Raise e end)
      end
  | c => (c, Raise UndefinedBehaviour)
  end.

(** ** Lemmas *)

(** A request that takes the stream and has sent all that it was given. *)
Definition open_stream (got : list (bytes * bool)) (c : SendChannel) : Prop :=
  exists r, c = SsiChannel r /\ sr_accepts r = true /\ sr_received r = got /\
    (sr_stream r = None \/ (sr_stream r = Some ChannelStream_ctor /\ RStream ∈ sr_posted r)).

(** What was received of a channel. *)
Definition received (c : SendChannel) : list (bytes * bool) :=
  match c with SsiChannel r => sr_received r | _ => [] end.

Lemma open_received got c : open_stream got c -> received c = got.
Proof. by intros (r & -> & _ & <- & _). Qed.

Lemma sendStream_open input last got c :
  open_stream got c -> exists c', ch_sendStream input last c = (c', Ret true) /\ received c' = got ++ [(input, last)] /\
    (last = false -> open_stream (got ++ [(input, last)]) c').
Proof.
  intros (r & -> & Ha & Hg & Hs).
  assert (Hrun : forall r', RStream ∈ sr_posted r' -> sr_accepts r' = true -> sr_received r' = got ->
      sr_stream r' = Some (mkChannelStream [mkStreamBuffer (sr_new r) input] last) ->
      exists r2, xrdssi_run r' = r2 /\ sr_new r ∈ sr_done r2 /\ sr_received r2 = got ++ [(input, last)] /\
        sr_accepts r2 = true /\ sr_stream r2 = Some (mkChannelStream [] last) /\ RStream ∈ sr_posted r2).
  { intros r' Hp Ha' Hg' Hst. unfold xrdssi_run. rewrite decide_True by done. rewrite Hst. simpl. rewrite Hst. simpl.
    eexists. split; [reflexivity|]. simpl. rewrite Hg'.
    rewrite ?andb_true_r. split; [set_solver|done]. }
  unfold ch_sendStream. simpl. unfold replyStream. simpl.
  assert (Hfin : forall r', RStream ∈ sr_posted r' -> sr_accepts r' = true -> sr_received r' = got ->
      sr_stream r' = Some (mkChannelStream [mkStreamBuffer (sr_new r) input] last) ->
      exists c', (let '(r3, w) := waitForDoneWithThis (mkStreamBuffer (sr_new r) input) r' in
          (SsiChannel r3, match w with Ret _ => Ret true | Raise e => Raise e end)) = (c', Ret true) /\
        received c' = got ++ [(input, last)] /\ (last = false -> open_stream (got ++ [(input, last)]) c')).
  { intros r' Hp Ha' Hg' Hst. destruct (Hrun r' Hp Ha' Hg' Hst) as (r2 & Hr2 & Hd & Hg2 & Ha2 & Hs2 & Hp2).
    unfold waitForDoneWithThis. rewrite Hr2. simpl. rewrite decide_True by done. eexists. split; [done|]. split; [done|].
    intros ->. exists r2. split; [done|]. split; [done|]. split; [done|]. right. by split. }
  destruct Hs as [Hs|[Hs Hp]]; rewrite Hs; simpl.
  - unfold SetResponse. simpl. rewrite Ha. simpl. apply Hfin; simpl; try done. set_solver.
  - apply Hfin; done.
Qed.

(** ** Where the code departs from what it means to do *)

(** The library refuses the stream of the first buffer, the header of a message:
    the buffer is given back, but [_stream] stays set, so that the next buffer is
    appended to a stream that nobody reads, and the runner waits forever. *)
Example refused_stream_blocks :
  let '(c, sent) := ch_sendStream [] false (SsiChannel (SsiRequest_ctor false)) in
  sent = Ret false /\ (ch_sendStream [] true c).2 = Raise Blocked.
Proof. vm_compute. done. Qed.

(** A runner cannot send to the channels for tests. *)
Example string_channel_stream : (ch_sendStream [] true (StringChannel [])).2 = Raise UndefinedBehaviour.
Proof. reflexivity. Qed.
