(* ===== verification/QueryRunner.v ===== *)
(** * Running the queries of a task

    [wdb/QueryRunner.h] and [.cc], [mysql/MySqlConnection.cc], [util/MultiError.cc]
    and the function that [wcontrol/Foreman::processTask] gives to a task: the
    queries of all fragments run one after the other, and their rows are sent to
    the czar in messages of limited size.

    A method may throw after it has changed its object, so it returns the state
    with an outcome ([run]).  Cancelling is up to other threads: [Task::cancel]
    sets the flag of the task and calls [cancel] of the runner.  It may come
    between any two accesses to what it changes; [rn_sched] says, for each read of
    a flag and for each query, what has come since the one before.

    The database server, protocol buffers and MD5 are parameters.  [rn_res] is the
    manager of sub-chunk tables with the tables of the server; its use by other
    tasks at the same time is not modelled.  [rn_ran] is a ghost variable: the
    queries so far with the state of the server and the answer.  The contents
    of a thrown [SqlErrorObject], which [ChunkResource.v] leaves out, and the text
    of a configuration are parameters.  Left out: timing, logging, the name of the
    host in a header, and the buffers that are counted. *)

From Stdlib Require Import Ascii String.
From S2P Require Import Prelude.
From S2P Require Import ScanInfo.
From S2P Require Import MemMan.
From S2P Require Import Task.
From S2P Require Import StdString.
From S2P Require Import LocalInfile.
From S2P Require Import ChunkResource.
From S2P Require Import MergingHandler.
From S2P Require Import SendChannel.

Local Open Scope Z_scope.

(** ** The schema of a result

    [mysql/SchemaFactory.cc]: the columns of a MySQL result as types in SQL text,
    from which the czar creates the table for the merged result. *)

(** [enum enum_field_types] of the client library; [MYSQL_TYPE_OTHER] stands for the
    types that the code does not name. *)
Inductive FieldType :=
| MYSQL_TYPE_DECIMAL | MYSQL_TYPE_TINY | MYSQL_TYPE_SHORT | MYSQL_TYPE_LONG | MYSQL_TYPE_FLOAT | MYSQL_TYPE_DOUBLE
| MYSQL_TYPE_NULL | MYSQL_TYPE_TIMESTAMP | MYSQL_TYPE_LONGLONG | MYSQL_TYPE_INT24 | MYSQL_TYPE_DATE | MYSQL_TYPE_TIME
| MYSQL_TYPE_DATETIME | MYSQL_TYPE_YEAR | MYSQL_TYPE_NEWDATE | MYSQL_TYPE_VARCHAR | MYSQL_TYPE_BIT
| MYSQL_TYPE_NEWDECIMAL | MYSQL_TYPE_ENUM | MYSQL_TYPE_SET | MYSQL_TYPE_TINY_BLOB | MYSQL_TYPE_MEDIUM_BLOB
| MYSQL_TYPE_LONG_BLOB | MYSQL_TYPE_BLOB | MYSQL_TYPE_VAR_STRING | MYSQL_TYPE_STRING | MYSQL_TYPE_GEOMETRY
| MYSQL_TYPE_OTHER (n : Z).

(** The values of the enumeration. *)
Definition field_type_code (t : FieldType) : Z :=
  match t with
  | MYSQL_TYPE_DECIMAL => 0 | MYSQL_TYPE_TINY => 1 | MYSQL_TYPE_SHORT => 2 | MYSQL_TYPE_LONG => 3
  | MYSQL_TYPE_FLOAT => 4 | MYSQL_TYPE_DOUBLE => 5 | MYSQL_TYPE_NULL => 6 | MYSQL_TYPE_TIMESTAMP => 7
  | MYSQL_TYPE_LONGLONG => 8 | MYSQL_TYPE_INT24 => 9 | MYSQL_TYPE_DATE => 10 | MYSQL_TYPE_TIME => 11
  | MYSQL_TYPE_DATETIME => 12 | MYSQL_TYPE_YEAR => 13 | MYSQL_TYPE_NEWDATE => 14 | MYSQL_TYPE_VARCHAR => 15
  | MYSQL_TYPE_BIT => 16 | MYSQL_TYPE_NEWDECIMAL => 246 | MYSQL_TYPE_ENUM => 247 | MYSQL_TYPE_SET => 248
  | MYSQL_TYPE_TINY_BLOB => 249 | MYSQL_TYPE_MEDIUM_BLOB => 250 | MYSQL_TYPE_LONG_BLOB => 251 | MYSQL_TYPE_BLOB => 252
  | MYSQL_TYPE_VAR_STRING => 253 | MYSQL_TYPE_STRING => 254 | MYSQL_TYPE_GEOMETRY => 255
  | MYSQL_TYPE_OTHER n => n
  end.

(** [MYSQL_FIELD]: [length] is an [unsigned long], [decimals] an [unsigned int]. *)
Record MYSQL_FIELD := mkField {
  f_name : string; f_type : FieldType; f_length : Z; f_decimals : Z; f_charsetnr : Z; f_unsigned : bool }.

Implicit Types (f : MYSQL_FIELD).

Record ColSchema := mkColSchema { co_name : string; co_sqlType : string; co_mysqlType : Z }.

Definition hasCharset f : bool := negb (f_charsetnr f =? 63).
Definition hasFlagUnsigned f : bool := f_unsigned f.

(** The conversion of [unsigned long] to [int]. *)
Definition to_int32 (z : Z) : Z := (z + 2 ^ 31) mod 2 ^ 32 - 2 ^ 31.

Definition setBlobOrText (variant : string) f : string := variant +:+ (if hasCharset f then "TEXT" else "BLOB").
Definition setGeneric (baseType : string) (length : Z) : string := baseType +:+ "(" +:+ to_string (to_int32 length) +:+ ")".
(** [unsigned int tmp] *)
Definition setDecimal f : string :=
  let tmp := f_length f mod 2 ^ 32 in
  let tmp := if hasFlagUnsigned f then (tmp - 1) mod 2 ^ 32 else tmp in
  let tmp := if 0 <? f_decimals f then (tmp - 1) mod 2 ^ 32 else tmp in
  "DECIMAL(" +:+ to_string tmp +:+ "," +:+ to_string (f_decimals f) +:+ ")".
Definition setString f : string :=
  (if hasCharset f then "CHAR(" else "BINARY(") +:+ to_string (f_length f) +:+ ")".
Definition setVarString f : string :=
  (if hasCharset f then "VARCHAR(" else "VARBINARY(") +:+ to_string (f_length f) +:+ ")".

(** [void ColTypeFactory::buildTo(MYSQL_FIELD const& f)]: the text of the type *)
Definition buildTo f : string :=
  match f_type f with
  | MYSQL_TYPE_DECIMAL => setDecimal f
  | MYSQL_TYPE_TINY => setGeneric "TINYINT" (f_length f)
  | MYSQL_TYPE_SHORT => setGeneric "SMALLINT" (f_length f)
  | MYSQL_TYPE_LONG => setGeneric "INT" (f_length f)
  | MYSQL_TYPE_FLOAT => "FLOAT"
  | MYSQL_TYPE_DOUBLE => "DOUBLE"
  | MYSQL_TYPE_NULL => "NULL"
  | MYSQL_TYPE_TIMESTAMP => "TIMESTAMP"
  | MYSQL_TYPE_LONGLONG => setGeneric "BIGINT" (f_length f)
  | MYSQL_TYPE_INT24 => "INT24??"
  | MYSQL_TYPE_DATE => "DATE"
  | MYSQL_TYPE_TIME => "TIME"
  | MYSQL_TYPE_DATETIME => "DATETIME"
  | MYSQL_TYPE_YEAR => "YEAR"
  | MYSQL_TYPE_NEWDATE => "DATE"
  | MYSQL_TYPE_VARCHAR => "VARCHAR"
  | MYSQL_TYPE_BIT => setGeneric "BIT" (f_length f)
  | MYSQL_TYPE_NEWDECIMAL => setDecimal f
  | MYSQL_TYPE_ENUM => "ENUM??"
  | MYSQL_TYPE_SET => "SET??"
  | MYSQL_TYPE_TINY_BLOB => setBlobOrText "TINY" f
  | MYSQL_TYPE_MEDIUM_BLOB => setBlobOrText "MEDIUM" f
  | MYSQL_TYPE_LONG_BLOB => setBlobOrText "LONG" f
  | MYSQL_TYPE_BLOB => setBlobOrText "" f
  | MYSQL_TYPE_VAR_STRING => setVarString f
  | MYSQL_TYPE_STRING => setString f
  | MYSQL_TYPE_GEOMETRY => "GEOM??"
  | MYSQL_TYPE_OTHER _ => ""
  end.

(** [sql::ColSchema SchemaFactory::newColSchema(MYSQL_FIELD const& f)] *)
Definition newColSchema f : ColSchema := mkColSchema (f_name f) (buildTo f) (field_type_code (f_type f)).

(** [sql::Schema SchemaFactory::newFromResult(MYSQL_RES* result)] of a result with
    the given fields *)
Definition newFromResult (fields : list MYSQL_FIELD) : list ColSchema := map newColSchema fields.

(** Integers lose the attribute [UNSIGNED]: the table of the czar has a signed
    column for both fields. *)
Example unsigned_lost :
  let f b := mkField "objectId" MYSQL_TYPE_LONGLONG 20 0 63 b in
  newColSchema (f true) = newColSchema (f false) /\ co_sqlType (newColSchema (f true)) = "BIGINT(20)"%string.
Proof. vm_compute. done. Qed.

(** MySQL counts in the length of a decimal its point and, unless it is
    [UNSIGNED], a sign; [setDecimal] subtracts the sign the other way round.
    [DECIMAL(5,2)] has the length 7, and 6 when it is unsigned: the precision gets
    one too large, or one too small for the values of the column. *)
Example decimal_precision_off :
  map buildTo [mkField "" MYSQL_TYPE_NEWDECIMAL 7 2 63 false; mkField "" MYSQL_TYPE_NEWDECIMAL 6 2 63 true] =
  ["DECIMAL(6,2)"; "DECIMAL(4,2)"]%string.
Proof. vm_compute. done. Qed.

(** ** Messages *)

(** [TaskMsg::Subchunk], [TaskMsg::Fragment] and the fields of [TaskMsg] that are
    read here in addition to those of [Task.v] *)
Record Subchunk := mkSubchunk { su_database : option string; su_dbtbl : list DbTable; su_id : list Z }.
Record Fragment := mkFragment { fr_query : list string; fr_subchunks : option Subchunk }.
Record QueryMsg := mkQueryMsg {
  qm_session : option Z; qm_db : option string; qm_protocol : option Z; qm_fragment : list Fragment }.

(** [proto::Result] without [continues] and [largeresult], which are in the record
    [Result] *)
Record ResultBody := mkResultBody {
  rb_rowschema : list ColSchema;
  rb_session : option Z;
  rb_row : list RowBundle;
  rb_queryid : Z;
  rb_jobid : Z;
  rb_rowcount : Z;
  rb_transmitsize : Z;
  rb_attemptcount : Z;
  rb_errormsg : option string;
}.
Abbreviation ResultMsg := (Result (Rows := ResultBody)).

Definition PROTOBUFFER_DESIRED_LIMIT : Z := 2000000.
Definition PROTOBUFFER_HARD_LIMIT : Z := 64000000.

(** ** [class MultiError] *)

Record Error := mkError { er_code : Z; er_msg : string }.

(** [operator<<] of an error, and [toOneLineString()] *)
Definition error_str (e : Error) : string := "[" +:+ to_string (er_code e) +:+ "] " +:+ er_msg e.
Fixpoint toOneLineString (es : list Error) : string :=
  match es with
  | [] => ""
  | [e] => error_str e
  | e :: es' => error_str e +:+ ", " +:+ toOneLineString es'
  end.

(** ** [class MySqlConnection] *)

(** The answer to a query: an error, no result set ([mysql_use_result] is null), or
    a result set, with the error that ends its rows early, if there is one. *)
Inductive MySqlReply :=
| QError (e : Error)
| QNoResult (e : Error)
| QResult (fields : list MYSQL_FIELD) (rows : list (list (option bytes))) (broken : option Error).

(** [mc_errno] is what [mysql_errno] and [mysql_error] return. *)
Record MySqlConnection := mkMySqlConnection {
  mc_res : option (list MYSQL_FIELD * list (list (option bytes)));
  mc_isExecuting : bool;
  mc_interrupted : bool;
  mc_errno : Error;
}.

Definition MySqlConnection_ctor : MySqlConnection := mkMySqlConnection None false false (mkError 0 "").

(** [queryUnbuffered] up to [mysql_real_query], and from the answer on *)
Definition mc_begin (c : MySqlConnection) : MySqlConnection :=
  mkMySqlConnection (mc_res c) true false (mc_errno c).
Definition mc_end (a : MySqlReply) (c : MySqlConnection) : MySqlConnection * bool :=
  match a with
  | QError e => (mkMySqlConnection (mc_res c) (mc_isExecuting c) (mc_interrupted c) e, false)
  | QNoResult e => (mkMySqlConnection None false (mc_interrupted c) e, false)
  | QResult fields rows _ => (mkMySqlConnection (Some (fields, rows)) false (mc_interrupted c) (mkError 0 ""), true)
  end.
(** [void freeResult()] *)
Definition freeResult (c : MySqlConnection) : MySqlConnection :=
  mkMySqlConnection None (mc_isExecuting c) (mc_interrupted c) (mc_errno c).

(** [int cancel()]: whether it can connect to the server, and whether the server
    takes the query [KILL QUERY] *)
Definition mc_cancel (connects kills : bool) (c : MySqlConnection) : MySqlConnection * Z :=
  let set i := mkMySqlConnection (mc_res c) (mc_isExecuting c) i (mc_errno c) in
  if negb (mc_isExecuting c) || mc_interrupted c then (c, -1)
  else if negb connects then (set false, 1)
  else (set true, if kills then 0 else 2).

(** ** [class QueryRunner] *)

(** [qr_protoHeader] says that [_protoHeader] is not null. *)
Record QueryRunner := mkQueryRunner {
  qr_dbName : string;
  qr_cancelled : bool;
  qr_mysqlConn : option MySqlConnection;
  qr_multiError : list Error;
  qr_protoHeader : bool;
  qr_result : option ResultBody;
  qr_largeResult : bool;
}.

(** What other threads do: [_cancelled.exchange] of the task, or [cancel] of the
    runner, with what it meets at the server. *)
Inductive CancelEvent := CancelTask | CancelRunner (connects kills : bool).

(** The parts of the worker that a runner works with.  [rn_poolThread] is
    [_poolEventThread] of the task, [rn_left] the threads that were told to leave
    the pool. *)
Record Run (M K : Type) := mkRun {
  rn_qr : QueryRunner;
  rn_world : World M;
  rn_channel : SendChannel;
  rn_res : Resources K;
  rn_poolThread : option nat;
  rn_left : list nat;
  rn_sched : list (list CancelEvent);
  rn_ran : list (K * string * MySqlReply);
}.
Arguments mkRun {M K}.
Arguments rn_qr {M K}.
Arguments rn_world {M K}.
Arguments rn_channel {M K}.
Arguments rn_res {M K}.
Arguments rn_poolThread {M K}.
Arguments rn_left {M K}.
Arguments rn_sched {M K}.
Arguments rn_ran {M K}.

(** ** Methods that change the state and may throw *)

Definition run (S A : Type) : Type := S -> S * outcome A.
Definition run_ret {S A} (a : A) : run S A := fun s => (s, Ret a).
Definition run_raise {S A} (e : exn) : run S A := fun s => (s, Raise e).
Definition run_bind {S A B} (m : run S A) (k : A -> run S B) : run S B :=
  fun s => let '(s', r) := m s in match r with Ret a => k a s' | Raise e => (s', Raise e) end.
Definition run_get {S A} (f : S -> A) : run S A := fun s => (s, Ret (f s)).
Definition run_mod {S} (f : S -> S) : run S unit := fun s => (f s, Ret tt).

Declare Scope run_scope.
Delimit Scope run_scope with run.
Notation "'let!' x := m 'in' k" :=
  (run_bind m (fun x => k)) (at level 10, x pattern, m at level 100, k at level 200) : run_scope.
Local Open Scope run_scope.

(** A loop with an accumulator. *)
Fixpoint run_fold {S A B} (f : B -> A -> run S B) (b : B) (l : list A) : run S B :=
  match l with
  | [] => run_ret b
  | a :: l' => let! b' := f b a in run_fold f b' l'
  end.
(** [try { m } catch(sql::SqlErrorObject const&) { h }] *)
Definition catch_sql {S} (m h : run S unit) : run S unit :=
  fun s => let '(s', r) := m s in match r with Raise SqlError => h s' | _ => (s', r) end.
(** Exceptions that are thrown; the others end the program or the thread. *)
Definition thrown (e : exn) : bool :=
  match e with AssertFailed | UndefinedBehaviour | ProgramExit | Blocked => false | _ => true end.
(** [m] with a local object whose destructor does [d], also when [m] throws; an
    exception out of a destructor ends the program. *)
Definition with_cleanup {S A} (m : run S A) (d : run S unit) : run S A :=
  fun s => let '(s1, r) := m s in
           if (match r with Ret _ => true | Raise e => thrown e end) then
             let '(s2, r2) := d s1 in (s2, match r2 with Ret _ => r | Raise _ => Raise ProgramExit end)
           else (s1, r).
Definition run_lift {S A} (o : outcome A) : run S A := fun s => (s, o).

(** ** What the runner uses *)

(** The database server: whether a user can connect, the text of the configuration
    for a user, the answer to a query in a state of the server (possibly killed),
    and the contents of a thrown [SqlErrorObject]. *)
Class DbServer (K : Type) := {
  db_connects : string -> bool;
  db_config : string -> string;
  db_query : K -> string -> bool -> MySqlReply;
  db_sqlError : Error;
}.

(** Protocol buffers ([RowBundle::ByteSize()] and [SerializeToString]) and MD5 *)
Class Wire := {
  wr_rowBytes : RowBundle -> Z;
  wr_md5 : bytes -> string;
  wr_header : ProtoHeader -> bytes;
  wr_result : ResultMsg -> bytes;
}.

(** [const char SUBCHUNK_TAG[]] of [global/constants.h] *)
Definition SUBCHUNK_TAG : string := "%S" +:+ String "007" "S%".

(** [boost::algorithm::replace_all(s, tag, by)]; [skip] characters of a match are
    still to be passed over. *)
Fixpoint replace_from (skip : nat) (tag by_ s : string) : string :=
  match s with
  | "" => ""
  | String a s' =>
      match skip with
      | S k => replace_from k tag by_ s'
      | O => if String.prefix tag s then by_ +:+ replace_from (String.length tag - 1) tag by_ s'
             else String a (replace_from 0 tag by_ s')
      end
  end%string.
Definition replace_all (s tag by_ : string) : string := replace_from 0 tag by_ s.

(** [DbTable::operator<] and [DbTableSet::emplace] *)
Definition DbTable_lt (x y : DbTable) : bool :=
  str_lt x.1 y.1 || (String.eqb x.1 y.1 && str_lt x.2 y.2).
Fixpoint DbTableSet_emplace (l : list DbTable) (x : DbTable) : list DbTable :=
  match l with
  | [] => [x]
  | y :: l' => if DbTable_lt x y then x :: l else if DbTable_lt y x then y :: DbTableSet_emplace l' x else l
  end.
Definition DbTableSet_of (l : list DbTable) : list DbTable := foldl DbTableSet_emplace [] l.

(** The queries of a fragment, one per sub-chunk if it has any *)
Definition fragment_queries (f : Fragment) : list string :=
  queryStr ← fr_query f;
  match fr_subchunks f with
  | Some (mkSubchunk _ _ ((_ :: _) as ids)) => map (fun subchunkId => replace_all queryStr SUBCHUNK_TAG (to_string subchunkId)) ids
  | _ => [queryStr]
  end.

(** The local variables of [_dispatchChannel] *)
Record Locals := mkLocals {
  lo_firstResult : bool; lo_erred : bool; lo_numFields : nat; lo_rowCount : Z; lo_tSize : Z }.

Section runner.
Context {M : Type} `{HM : MemMan M} {K : Type} `{HK : Backend K} `{HD : !DbServer K} `{HW : Wire}.
Context (this : nat) (task : Task) (msg : QueryMsg).

(** The state with the local variables *)
Abbreviation state := (Run M K * Locals)%type.
Abbreviation R := (run state).

Definition put_qr (f : QueryRunner -> QueryRunner) : R unit :=
  run_mod (fun '(s, l) => (mkRun (f (rn_qr s)) (rn_world s) (rn_channel s) (rn_res s) (rn_poolThread s) (rn_left s)
                             (rn_sched s) (rn_ran s), l)).
Definition put_local (f : Locals -> Locals) : R unit := run_mod (fun '(s, l) => (s, f l)).
Definition get_qr {A} (f : QueryRunner -> A) : R A := run_get (fun s => f (rn_qr s.1)).
Definition get_local {A} (f : Locals -> A) : R A := run_get (fun s => f s.2).

Definition set_result (r : option ResultBody) (q : QueryRunner) : QueryRunner :=
  mkQueryRunner (qr_dbName q) (qr_cancelled q) (qr_mysqlConn q) (qr_multiError q) (qr_protoHeader q) r (qr_largeResult q).
Definition set_conn (c : option MySqlConnection) (q : QueryRunner) : QueryRunner :=
  mkQueryRunner (qr_dbName q) (qr_cancelled q) c (qr_multiError q) (qr_protoHeader q) (qr_result q) (qr_largeResult q).
Definition push_error (e : Error) (q : QueryRunner) : QueryRunner :=
  mkQueryRunner (qr_dbName q) (qr_cancelled q) (qr_mysqlConn q) (qr_multiError q ++ [e]) (qr_protoHeader q) (qr_result q)
    (qr_largeResult q).

(** [void cancel()]: the code that [MySqlConnection::cancel] returns is only logged. *)
Definition qr_cancel (connects kills : bool) (q : QueryRunner) : QueryRunner :=
  mkQueryRunner (qr_dbName q) true (option_map (fun c => (mc_cancel connects kills c).1) (qr_mysqlConn q))
    (qr_multiError q) (qr_protoHeader q) (qr_result q) (qr_largeResult q).

(** What other threads have done since the last such point *)
Definition apply_event (s : Run M K) (ev : CancelEvent) : Run M K :=
  match ev with
  | CancelTask =>
      mkRun (rn_qr s) (cancel task (rn_world s)).1 (rn_channel s) (rn_res s) (rn_poolThread s) (rn_left s) (rn_sched s) (rn_ran s)
  | CancelRunner connects kills =>
      mkRun (qr_cancel connects kills (rn_qr s)) (rn_world s) (rn_channel s) (rn_res s) (rn_poolThread s) (rn_left s)
        (rn_sched s) (rn_ran s)
  end.
Definition others : R unit :=
  run_mod (fun '(s, l) =>
    match rn_sched s with
    | [] => (s, l)
    | evs :: sched =>
        (foldl apply_event (mkRun (rn_qr s) (rn_world s) (rn_channel s) (rn_res s) (rn_poolThread s) (rn_left s) sched (rn_ran s)) evs, l)
    end).

(** Reading [_cancelled], and [getCancelled()] of the task *)
Definition readCancelled : R bool := let! _ := others in get_qr qr_cancelled.
Definition taskCancelled : R bool :=
  let! _ := others in run_get (fun s => v_cancelled (vars (rn_world s.1) task)).

(** [bool _initConnection()] *)
Definition initConnection : R bool :=
  let! _ := put_qr (set_conn (Some MySqlConnection_ctor)) in
  if db_connects (t_user task) then run_ret true
  else let! _ := put_qr (push_error (mkError (-1) ("Unable to connect to MySQL; " +:+ db_config (t_user task)))) in run_ret false.

(** [void _setDb()] *)
Definition setDb : R unit :=
  match qm_db msg with
  | Some db => put_qr (fun q => mkQueryRunner db (qr_cancelled q) (qr_mysqlConn q) (qr_multiError q) (qr_protoHeader q)
                                  (qr_result q) (qr_largeResult q))
  | None => run_ret tt
  end.

Definition log_query (q : string) (a : MySqlReply) : R unit :=
  run_mod (fun '(s, l) => (mkRun (rn_qr s) (rn_world s) (rn_channel s) (rn_res s) (rn_poolThread s) (rn_left s) (rn_sched s)
                             (rn_ran s ++ [(cm_backend (rs_mgr (rn_res s)), q, a)]), l)).

(** [MYSQL_RES* _primeResult(std::string const& query)] with [queryUnbuffered] *)
Definition primeResult (query : string) : R (option (list MYSQL_FIELD * list (list (option bytes)))) :=
  let! conn := get_qr qr_mysqlConn in
  match conn with
  | None => run_raise UndefinedBehaviour
  | Some c =>
      let! _ := put_qr (set_conn (Some (mc_begin c))) in
      let! _ := others in
      let! conn := get_qr qr_mysqlConn in
      let c := default MySqlConnection_ctor conn in
      let! k := run_get (fun s => cm_backend (rs_mgr (rn_res s.1))) in
      let a := db_query k query (mc_interrupted c) in
      let! _ := log_query query a in
      let '(c', queryOk) := mc_end a c in
      let! _ := put_qr (set_conn (Some c')) in
      if queryOk then run_ret (mc_res c')
      else let! _ := put_qr (push_error (mc_errno c')) in run_ret None
  end.

(** [void _initMsg()] and [void _initMsgs()] *)
Definition initMsg : R unit := put_qr (set_result (Some (mkResultBody [] (qm_session msg) [] 0 0 0 0 0 None))).
Definition initMsgs : R unit :=
  let! _ := put_qr (fun q => mkQueryRunner (qr_dbName q) (qr_cancelled q) (qr_mysqlConn q) (qr_multiError q) true (qr_result q)
                               (qr_largeResult q)) in
  initMsg.

(** Changing [*_result] *)
Definition with_result (f : ResultBody -> ResultBody) : R unit :=
  let! r := get_qr qr_result in
  match r with None => run_raise UndefinedBehaviour | Some b => put_qr (set_result (Some (f b))) end.

(** [void _fillSchema(MYSQL_RES* result)] *)
Definition fillSchema (fields : list MYSQL_FIELD) : R unit :=
  with_result (fun b => mkResultBody (rb_rowschema b ++ newFromResult fields) (rb_session b) (rb_row b) (rb_queryid b)
                          (rb_jobid b) (rb_rowcount b) (rb_transmitsize b) (rb_attemptcount b) (rb_errormsg b)).
Definition addRow (row : RowBundle) : R unit :=
  with_result (fun b => mkResultBody (rb_rowschema b) (rb_session b) (rb_row b ++ [row]) (rb_queryid b)
                          (rb_jobid b) (rb_rowcount b) (rb_transmitsize b) (rb_attemptcount b) (rb_errormsg b)).

(** [sendStream] with the wait for the buffer; a failure is only logged. *)
Definition sendStream (buf : bytes) (last : bool) : R unit :=
  fun '(s, l) =>
    let '(c, r) := ch_sendStream buf last (rn_channel s) in
    ((mkRun (rn_qr s) (rn_world s) c (rn_res s) (rn_poolThread s) (rn_left s) (rn_sched s) (rn_ran s), l),
     match r with Ret _ => Ret tt | Raise e => Raise e end).

(** [void _transmitHeader(std::string& msg)] *)
Definition transmitHeader (str : bytes) : R unit :=
  let! ph := get_qr qr_protoHeader in
  if negb ph then run_raise UndefinedBehaviour
  else
    let! large := get_qr qr_largeResult in
    let protoHeaderString := wr_header (mkProtoHeader (to_int32 (Z.of_nat (length str))) (wr_md5 str) large) in
    if negb (length protoHeaderString <? 255)%nat then run_raise AssertFailed
    else
      let! cancelled := readCancelled in
      if cancelled then run_ret tt else sendStream (wrap protoHeaderString) false.

(** The message that [_transmit] makes of [*_result] *)
Definition make_result (last : bool) (rowCount tSize : Z) (errs : list Error) (large : bool) (b : ResultBody) : ResultMsg :=
  mkResult (negb last) large
    (mkResultBody (rb_rowschema b) (rb_session b) (rb_row b) (t_qId task) (t_jId task) rowCount tSize (t_attemptCount task)
       (match errs with
        | [] => rb_errormsg b
        | _ => Some ("Error(s) in result for chunk #" +:+ to_string (default 0 (tm_chunkid (t_msg task))) +:+ ": " +:+
                     toOneLineString errs)
        end)).

(** [void _transmit(bool last, uint rowCount, size_t tSize)] *)
Definition transmit (last : bool) (rowCount tSize : Z) : R unit :=
  let! r := get_qr qr_result in
  match r with
  | None => run_raise UndefinedBehaviour
  | Some b =>
      let! errs := get_qr qr_multiError in
      let! large := get_qr qr_largeResult in
      let resultString := wr_result (make_result last rowCount tSize errs large b) in
      let! _ := put_qr (set_result None) in
      let! _ := transmitHeader resultString in
      let! cancelled := readCancelled in
      let! _ := if cancelled then run_ret tt else sendStream resultString last in
      put_qr (fun q => mkQueryRunner (qr_dbName q) (qr_cancelled q) (qr_mysqlConn q) (qr_multiError q) (qr_protoHeader q)
                         (qr_result q) true)
  end.

(** [getAndNullPoolEventThread()] of the task, and [leavePool()] of the thread *)
Definition leavePool : R unit :=
  run_mod (fun '(s, l) => (mkRun (rn_qr s) (rn_world s) (rn_channel s) (rn_res s) None
                             (rn_left s ++ option_list (rn_poolThread s)) (rn_sched s) (rn_ran s), l)).

(** The columns [0] to [numFields - 1] of a row; it is an array. *)
Fixpoint fillRow (numFields : nat) (row : list (option bytes)) : outcome RowBundle :=
  match numFields with
  | O => Ret []
  | S n => match row with
           | [] => Raise UndefinedBehaviour
           | c :: row' => let? cs := fillRow n row' in Ret (c :: cs)
           end
  end.

(** [bool _fillRows(MYSQL_RES* result, int numFields, uint& rowCount, size_t& tSize)];
    [mysql_fetch_row] returns null at the end of the rows. *)
Fixpoint fillRows (rows : list (list (option bytes))) : R bool :=
  match rows with
  | [] => run_ret true
  | row :: rows' =>
      let! numFields := get_local lo_numFields in
      let! rawRow := run_lift (fillRow numFields row) in
      let! _ := addRow rawRow in
      let! _ := put_local (fun l => mkLocals (lo_firstResult l) (lo_erred l) (lo_numFields l) (wrap32 (lo_rowCount l + 1))
                                      (wrap64 (lo_tSize l + wr_rowBytes rawRow))) in
      let! rowCount := get_local lo_rowCount in
      let! tSize := get_local lo_tSize in
      let szLimit := Z.min PROTOBUFFER_DESIRED_LIMIT PROTOBUFFER_HARD_LIMIT in
      if szLimit <? tSize then
        if PROTOBUFFER_HARD_LIMIT <? tSize then run_ret false
        else
          let! _ := transmit false rowCount tSize in
          let! _ := put_local (fun l => mkLocals (lo_firstResult l) (lo_erred l) (lo_numFields l) 0 0) in
          let! _ := initMsg in
          let! _ := leavePool in
          fillRows rows'
      else fillRows rows'
  end.

(** [ChunkResource getResourceFragment(int i)] *)
Definition acquire (db : string) (ts : list DbTable) (sc : list Z) : R unit :=
  fun '(s, l) =>
    let '(w, r) := resource_acquire db (default 0 (tm_chunkid (t_msg task))) ts sc (rn_res s) in
    ((mkRun (rn_qr s) (rn_world s) (rn_channel s) w (rn_poolThread s) (rn_left s) (rn_sched s) (rn_ran s), l), r).
Definition getResourceFragment (f : Fragment) : R unit :=
  match fr_subchunks f with
  | None =>
      match qm_db msg with
      | None => run_raise AssertFailed
      | Some db => acquire db (DbTableSet_of (map (fun x => (sti_db x, sti_table x)) (tm_scantable (t_msg task)))) []
      end
  | Some sc =>
      acquire (match su_database sc with Some db => db | None => default ""%string (qm_db msg) end)
        (DbTableSet_of (su_dbtbl sc)) (su_id sc)
  end.
(** The end of the life of the resource, the last one that was acquired *)
Definition releaseFragment : R unit :=
  fun '(s, l) =>
    let '(w, r) := resource_destroy (length (rs_live (rn_res s)) - 1) (rn_res s) in
    ((mkRun (rn_qr s) (rn_world s) (rn_channel s) w (rn_poolThread s) (rn_left s) (rn_sched s) (rn_ran s), l), r).

Definition set_erred (b : bool) (l : Locals) : Locals :=
  mkLocals (lo_firstResult l) b (lo_numFields l) (lo_rowCount l) (lo_tSize l).

(** [if (firstResult)]: the first result has the columns of all. *)
Definition takeSchema (fields : list MYSQL_FIELD) : R unit :=
  let! first := get_local lo_firstResult in
  if first then
    let! _ := fillSchema fields in
    put_local (fun l => mkLocals false (lo_erred l) (length fields) (lo_rowCount l) (lo_tSize l))
  else run_ret tt.

(** The body of the loop over the queries of a fragment *)
Definition runOne (query : string) : R unit :=
  let! res := primeResult query in
  match res with
  | None => put_local (set_erred true)
  | Some (fields, rows) =>
      let! _ := takeSchema fields in
      let! ok := fillRows rows in
      let! _ := (if ok then run_ret tt else put_local (set_erred true)) in
      put_qr (fun q => set_conn (option_map freeResult (qr_mysqlConn q)) q)
  end.

(** The loop over the fragments *)
Fixpoint runFragments (fragments : list Fragment) : R unit :=
  match fragments with
  | [] => run_ret tt
  | f :: fragments' =>
      let! cancelled := readCancelled in
      if cancelled then run_ret tt
      else
        let! _ := getResourceFragment f in
        let! _ := with_cleanup (run_fold (fun _ => runOne) tt (fragment_queries f)) releaseFragment in
        runFragments fragments'
  end.

(** [bool _dispatchChannel()] *)
Definition dispatchChannel : R bool :=
  let! _ := initMsgs in
  let! _ := put_local (fun _ => mkLocals true false 0 0 0) in
  if bool_decide (qm_fragment msg = []) then run_raise BugException
  else
    let! _ := catch_sql (runFragments (qm_fragment msg)) (put_qr (push_error db_sqlError)) in
    let! cancelled := readCancelled in
    let! _ := (if cancelled then
                 let! _ := put_local (set_erred true) in
                 put_qr (push_error (mkError (-1) "Poisoned."))
               else
                 let! rowCount := get_local lo_rowCount in
                 let! tSize := get_local lo_tSize in
                 transmit true rowCount tSize) in
    let! erred := get_local lo_erred in
    run_ret (negb erred).

Definition waitMem : R unit :=
  fun '(s, l) =>
    match waitForMemMan task (rn_world s) with
    | Ret w => ((mkRun (rn_qr s) w (rn_channel s) (rn_res s) (rn_poolThread s) (rn_left s) (rn_sched s) (rn_ran s), l), Ret tt)
    | Raise e => ((s, l), Raise e)
    end.
Definition freeRunner : R unit :=
  run_mod (fun '(s, l) => (mkRun (rn_qr s) (freeTaskQueryRunner task this (rn_world s)) (rn_channel s) (rn_res s) (rn_poolThread s)
                             (rn_left s) (rn_sched s) (rn_ran s), l)).

(** [bool runQuery()] without the object [release] *)
Definition runQuery_body : R bool :=
  let! cancelled := taskCancelled in
  if cancelled then run_ret false
  else
    let! _ := waitMem in
    let! cancelled := taskCancelled in
    if cancelled then run_ret false
    else
      let! _ := setDb in
      let! connOk := initConnection in
      if negb connOk then
        let! _ := initMsgs in
        let! _ := transmit true 0 0 in
        run_ret false
      else if bool_decide (qm_protocol msg = Some 2) then dispatchChannel
      else run_raise RuntimeError.
Definition runQuery : R bool := with_cleanup runQuery_body freeRunner.

(** [newQueryRunner(task, chunkResourceMgr, mySqlConfig)] *)
Definition newQueryRunner : R unit :=
  fun '(s, l) =>
    let '(w, cancelled) := setTaskQueryRunner task this (rn_world s) in
    ((mkRun (mkQueryRunner "" cancelled None [] false None false) w (rn_channel s) (rn_res s) (rn_poolThread s) (rn_left s)
        (rn_sched s) (rn_ran s), l), Ret tt).

(** The function that [processTask] sets; the task is told that it cannot be run
    unless it was cancelled. *)
Definition unsupported : R unit :=
  let! cancelled := taskCancelled in
  if cancelled then run_ret tt
  else run_mod (fun '(s, l) => (mkRun (rn_qr s) (rn_world s) (ch_sendError "Unsupported wire protocol" 1 (rn_channel s)).1
                                  (rn_res s) (rn_poolThread s) (rn_left s) (rn_sched s) (rn_ran s), l)).
Definition task_func : R unit :=
  match qm_protocol msg with
  | Some p => if p <? 2 then unsupported else let! _ := newQueryRunner in let! _ := runQuery in run_ret tt
  | None => unsupported
  end.
End runner.
