(* ===== verification/QueryRunnerInv.v ===== *)
(** * Running the queries of a task: what has been sent

    The methods of [QueryRunner.v] when nobody cancels: an invariant that relates
    the messages sent so far and the one being filled to the answers of the
    server, and that each method keeps it. *)

From Stdlib Require Import Ascii String Sorted.
From S2P Require Import Prelude.
From S2P Require Import ScanInfo.
From S2P Require Import MemMan.
From S2P Require Import Task.
From S2P Require Import StdString.
From S2P Require Import LocalInfile.
From S2P Require Import ChunkResource.
From S2P Require Import ChunkResourceThms.
From S2P Require Import MergingHandler.
From S2P Require Import SendChannel.
From S2P Require Import QueryRunner.

Local Open Scope Z_scope.

(** ** Answers of the server *)

Abbreviation Row := (list (option bytes)).

Definition rows_of_reply (a : MySqlReply) : list RowBundle :=
  match a with QResult _ rows _ => rows | _ => [] end.
Definition errors_of_reply (a : MySqlReply) : list Error :=
  match a with QError e | QNoResult e => [e] | QResult _ _ _ => [] end.

Section answers.
Context {K : Type}.
Implicit Types (ran : list (K * string * MySqlReply)).

(** All rows, all errors, and the columns of the first result set *)
Definition rows_of ran : list RowBundle := ran ≫= (fun x => rows_of_reply x.2).
Definition errors_of ran : list Error := ran ≫= (fun x => errors_of_reply x.2).
Fixpoint first_fields ran : option (list MYSQL_FIELD) :=
  match ran with
  | [] => None
  | (_, QResult fields _ _) :: _ => Some fields
  | _ :: ran' => first_fields ran'
  end.
Definition schema_of ran : list ColSchema := default [] (newFromResult <$> first_fields ran).
Definition queries_of ran : list string := map (fun x => x.1.2) ran.

Lemma rows_of_snoc ran x : rows_of (ran ++ [x]) = rows_of ran ++ rows_of_reply x.2.
Proof. unfold rows_of. by rewrite bind_app, bind_singleton. Qed.
Lemma errors_of_snoc ran x : errors_of (ran ++ [x]) = errors_of ran ++ errors_of_reply x.2.
Proof. unfold errors_of. by rewrite bind_app, bind_singleton. Qed.
Lemma first_fields_snoc ran x :
  first_fields (ran ++ [x]) =
  match first_fields ran with
  | Some fields => Some fields
  | None => match x.2 with QResult fields _ _ => Some fields | _ => None end
  end.
Proof. induction ran as [|[y [e|e|fields rows b]] ran IH]; simpl; try done. by destruct x as [? []]. Qed.
Lemma errors_of_nil ran : errors_of ran = [] -> Forall (fun x => exists fields rows b, x.2 = QResult fields rows b) ran.
Proof.
  unfold errors_of. induction ran as [|[y a] ran IH]; simpl; [constructor|].
  intros [Ha Hr]%app_eq_nil. constructor; [|by apply IH]. destruct a; simpl in *; [done|done|eauto].
Qed.
Lemma first_fields_none ran : first_fields ran = None -> rows_of ran = [].
Proof. induction ran as [|[y []] ran IH]; simpl; try done; apply IH. Qed.
End answers.

(** The server answers queries of a task with the same number of columns, and no
    row takes more than the difference of the two limits. *)
Definition uniform {K} `{DbServer K} `{Wire} (width : nat) : Prop :=
  forall (k : K) q b fields rows e, db_query k q b = QResult fields rows e ->
    length fields = width /\
    Forall (fun row => length row = width /\ 0 <= wr_rowBytes row <= PROTOBUFFER_HARD_LIMIT - PROTOBUFFER_DESIRED_LIMIT) rows.

Section runner.
Context {M : Type} `{HM : MemMan M} {K : Type} `{HK : Backend K} `{HD : !DbServer K} `{HW : Wire}.
Context (this : nat) (task : Task) (msg : QueryMsg).
Implicit Types (s : Run M K) (l : Locals) (m : ResultMsg) (ms : list ResultMsg) (rows : list RowBundle) (schema : list ColSchema).

(** ** Messages *)

(** What is sent for a message: its header, and the message itself *)
Definition header_sent m : ProtoHeader :=
  mkProtoHeader (to_int32 (Z.of_nat (length (wr_result m)))) (wr_md5 (wr_result m)) (rm_largeresult m).
Definition wire m : list (bytes * bool) :=
  [(MergingHandler.wrap (wr_header (header_sent m)), false); (wr_result m, negb (rm_continues m))].

Definition msg_rows m : list RowBundle := rb_row (rm_rows m).
Definition bytes_of rows : Z := foldr (fun r n => wr_rowBytes r + n) 0 rows.

(** The counts in a message are those of its rows, and its rows keep to the limit. *)
Definition msg_exact m : Prop :=
  rb_rowcount (rm_rows m) = wrap32 (Z.of_nat (length (msg_rows m))) /\
  rb_transmitsize (rm_rows m) = bytes_of (msg_rows m) /\ bytes_of (msg_rows m) <= PROTOBUFFER_HARD_LIMIT /\
  rb_queryid (rm_rows m) = t_qId task /\ rb_jobid (rm_rows m) = t_jId task /\
  rb_attemptcount (rm_rows m) = t_attemptCount task /\ rb_session (rm_rows m) = qm_session msg.

(** Only the first message has the columns, and all others are marked as parts of a
    large result. *)
Definition first_differs schema ms : Prop :=
  match ms with
  | [] => True
  | m :: ms' => rm_largeresult m = false /\ rb_rowschema (rm_rows m) = schema /\
      Forall (fun m => rm_largeresult m = true /\ rb_rowschema (rm_rows m) = []) ms'
  end.

Lemma first_differs_snoc schema ms m :
  first_differs schema ms -> rm_largeresult m = bool_decide (ms <> []) ->
  rb_rowschema (rm_rows m) = (if bool_decide (ms <> []) then [] else schema) -> first_differs schema (ms ++ [m]).
Proof.
  destruct ms as [|m' ms]; simpl; [intros _ -> ->; split; [done|split; [done|constructor]]|].
  intros (Hl & Hs & Hall) Hm1 Hm2. split; [done|]. split; [done|].
  apply Forall_app. by split; [|repeat constructor].
Qed.

Lemma bytes_of_snoc rows r : bytes_of (rows ++ [r]) = bytes_of rows + wr_rowBytes r.
Proof. induction rows; simpl; lia. Qed.

Lemma fillRow_full (row : Row) : fillRow (length row) row = Ret row.
Proof. induction row as [|c row IH]; simpl; [done|]. by rewrite IH. Qed.

(** ** The invariant *)

(** The message being filled *)
Definition filling schema rows : ResultBody := mkResultBody schema (qm_session msg) rows 0 0 0 0 0 None.

Record inv rows schema ms pending s l : Prop := {
  iv_sched : rn_sched s = [];
  iv_go : qr_cancelled (rn_qr s) = false;
  iv_header : qr_protoHeader (rn_qr s) = true;
  iv_large : qr_largeResult (rn_qr s) = bool_decide (ms <> []);
  iv_channel : open_stream (concat (map wire ms)) (rn_channel s);
  iv_result : qr_result (rn_qr s) = Some (filling (if bool_decide (ms <> []) then [] else schema) pending);
  iv_rows : concat (map msg_rows ms) ++ pending = rows;
  iv_count : lo_rowCount l = wrap32 (Z.of_nat (length pending));
  iv_size : lo_tSize l = bytes_of pending;
  iv_small : 0 <= bytes_of pending <= PROTOBUFFER_DESIRED_LIMIT;
  iv_continue : Forall (fun m => rm_continues m = true) ms;
  iv_exact : Forall msg_exact ms;
  iv_big : Forall (fun m => PROTOBUFFER_DESIRED_LIMIT < rb_transmitsize (rm_rows m)) ms;
  iv_first : first_differs schema ms;
}.

(** What sending and filling leave alone *)
Definition frame s l s' l' : Prop :=
  rn_ran s' = rn_ran s /\ rn_res s' = rn_res s /\ qr_multiError (rn_qr s') = qr_multiError (rn_qr s) /\
  qr_mysqlConn (rn_qr s') = qr_mysqlConn (rn_qr s) /\ lo_firstResult l' = lo_firstResult l /\
  lo_numFields l' = lo_numFields l /\ lo_erred l' = lo_erred l.

Lemma others_idle s l : rn_sched s = [] -> others task (s, l) = ((s, l), Ret tt).
Proof. intros Hs. unfold others, run_mod. by rewrite Hs. Qed.

Lemma readCancelled_idle s l : rn_sched s = [] -> readCancelled task (s, l) = ((s, l), Ret (qr_cancelled (rn_qr s))).
Proof. intros Hs. unfold readCancelled, run_bind. by rewrite others_idle. Qed.

Hypothesis header_small : forall hd, (length (wr_header hd) < 255)%nat.

Lemma sendStream_step buf last got s l :
  open_stream got (rn_channel s) ->
  exists c, sendStream buf last (s, l) =
      ((mkRun (rn_qr s) (rn_world s) c (rn_res s) (rn_poolThread s) (rn_left s) (rn_sched s) (rn_ran s), l), Ret tt) /\
    received c = got ++ [(buf, last)] /\ (last = false -> open_stream (got ++ [(buf, last)]) c).
Proof.
  intros Hc. unfold sendStream. destruct (sendStream_open buf last got _ Hc) as (c & -> & Hr). by exists c.
Qed.

(** A message is sent with its header. *)
Lemma transmit_step last rowCount tSize got b s l :
  rn_sched s = [] -> qr_cancelled (rn_qr s) = false -> qr_protoHeader (rn_qr s) = true -> qr_result (rn_qr s) = Some b ->
  open_stream got (rn_channel s) ->
  let m := make_result task last rowCount tSize (qr_multiError (rn_qr s)) (qr_largeResult (rn_qr s)) b in
  let q := rn_qr s in
  exists c, transmit task last rowCount tSize (s, l) =
      ((mkRun (mkQueryRunner (qr_dbName q) (qr_cancelled q) (qr_mysqlConn q) (qr_multiError q) (qr_protoHeader q) None true)
          (rn_world s) c (rn_res s) (rn_poolThread s) (rn_left s) (rn_sched s) (rn_ran s), l), Ret tt) /\
    received c = got ++ wire m /\ (last = false -> open_stream (got ++ wire m) c).
Proof.
  intros Hs Hg Hh Hr Hc m q. unfold transmit, get_qr, run_bind, run_get. cbn [fst]. rewrite Hr. cbn [put_qr run_mod].
  unfold transmitHeader, get_qr, run_bind, run_get. cbn [fst]. cbn [put_qr run_mod rn_qr set_result qr_protoHeader qr_largeResult].
  rewrite Hh. cbn [negb]. pose proof (header_small (header_sent m)) as Hlen. apply Nat.ltb_lt in Hlen.
  change (mkProtoHeader _ _ _) with (header_sent m). rewrite Hlen. cbn [negb].
  rewrite readCancelled_idle by done. cbn [rn_qr set_result qr_cancelled]. rewrite Hg.
  match goal with |- context [sendStream ?b false (?x, l)] => destruct (sendStream_step b false got x l Hc) as (c1 & -> & Hr1 & Hc1) end.
  rewrite readCancelled_idle by done. cbn [rn_qr set_result qr_cancelled]. rewrite Hg.
  match goal with |- context [sendStream ?b last (?x, l)] =>
    destruct (sendStream_step b last _ x l (Hc1 eq_refl)) as (c2 & -> & Hr2 & Hc2) end.
  exists c2. split; [done|]. rewrite <- app_assoc in Hr2, Hc2. unfold wire. subst m. simpl. rewrite negb_involutive. done.
Qed.

Lemma frame_refl s l : frame s l s l.
Proof. by repeat split. Qed.
Lemma frame_trans s l s' l' s2 l2 : frame s l s' l' -> frame s' l' s2 l2 -> frame s l s2 l2.
Proof. unfold frame. intros. destruct_and?. repeat split; congruence. Qed.

(** A row is added to the message being filled. *)
Definition with_row (row : RowBundle) s : Run M K :=
  mkRun (set_result (option_map (fun b => mkResultBody (rb_rowschema b) (rb_session b) (rb_row b ++ [row]) (rb_queryid b)
                          (rb_jobid b) (rb_rowcount b) (rb_transmitsize b) (rb_attemptcount b) (rb_errormsg b)) (qr_result (rn_qr s))) (rn_qr s))
    (rn_world s) (rn_channel s) (rn_res s) (rn_poolThread s) (rn_left s) (rn_sched s) (rn_ran s).
Definition count_row (row : RowBundle) l : Locals :=
  mkLocals (lo_firstResult l) (lo_erred l) (lo_numFields l) (wrap32 (lo_rowCount l + 1)) (wrap64 (lo_tSize l + wr_rowBytes row)).

(** The message is full: it is sent, and the next one begins. *)
Definition next_message : run (Run M K * Locals) unit :=
  run_bind (get_local lo_rowCount) (fun rowCount =>
  run_bind (get_local lo_tSize) (fun tSize =>
  run_bind (transmit task false rowCount tSize) (fun _ =>
  run_bind (put_local (fun l => mkLocals (lo_firstResult l) (lo_erred l) (lo_numFields l) 0 0)) (fun _ =>
  run_bind (initMsg msg) (fun _ => leavePool))))).

Lemma fillRows_cons row (rows' : list Row) s l b :
  qr_result (rn_qr s) = Some b -> length row = lo_numFields l ->
  fillRows task msg (row :: rows') (s, l) =
  let l1 := count_row row l in
  if PROTOBUFFER_DESIRED_LIMIT <? lo_tSize l1 then
    if PROTOBUFFER_HARD_LIMIT <? lo_tSize l1 then ((with_row row s, l1), Ret false)
    else run_bind next_message (fun _ => fillRows task msg rows') (with_row row s, l1)
  else fillRows task msg rows' (with_row row s, l1).
Proof.
  intros Hr Hw. cbn [fillRows]. unfold get_local, run_bind, run_get, run_lift. cbn [snd]. rewrite <- Hw, fillRow_full.
  unfold addRow, with_result, get_qr, run_bind, run_get. cbn [fst]. rewrite Hr. cbn [put_qr put_local run_mod].
  unfold with_row, count_row. rewrite Hr. cbn [option_map lo_tSize lo_rowCount].
  change (Z.min PROTOBUFFER_DESIRED_LIMIT PROTOBUFFER_HARD_LIMIT) with PROTOBUFFER_DESIRED_LIMIT.
  rewrite ?Hw. destruct (PROTOBUFFER_DESIRED_LIMIT <? _); [|done]. destruct (PROTOBUFFER_HARD_LIMIT <? _); [done|].
  unfold next_message, get_local, run_bind, run_get. cbn [snd lo_tSize lo_rowCount].
  destruct (transmit _ _ _ _ _) as [[s1 l1] [[]|e]]; done.
Qed.

Lemma wrap32_succ n : wrap32 (wrap32 (Z.of_nat n) + 1) = wrap32 (Z.of_nat (n + 1)).
Proof. unfold wrap32. rewrite Zplus_mod_idemp_l. f_equal. lia. Qed.

(** The invariant with a row more, apart from the bound of the size *)
Lemma inv_row rows schema ms pending s l row :
  inv rows schema ms pending s l -> 0 <= wr_rowBytes row <= PROTOBUFFER_HARD_LIMIT - PROTOBUFFER_DESIRED_LIMIT ->
  lo_tSize (count_row row l) = bytes_of (pending ++ [row]) /\ 0 <= bytes_of (pending ++ [row]) <= PROTOBUFFER_HARD_LIMIT /\
  lo_rowCount (count_row row l) = wrap32 (Z.of_nat (length (pending ++ [row]))) /\
  qr_result (rn_qr (with_row row s)) = Some (filling (if bool_decide (ms <> []) then [] else schema) (pending ++ [row])) /\
  concat (map msg_rows ms) ++ pending ++ [row] = rows ++ [row].
Proof.
  intros Hi Hb. destruct Hi. unfold PROTOBUFFER_HARD_LIMIT, PROTOBUFFER_DESIRED_LIMIT in *. simpl.
  rewrite iv_count0, iv_size0, iv_result0, bytes_of_snoc, wrap32_succ, length_app, wrap64_small; simpl; [|unfold two64; lia].
  split; [done|]. split; [lia|]. split; [done|]. split; [done|]. by rewrite app_assoc, iv_rows0.
Qed.

Lemma inv_next rows schema ms pending s l row :
  inv rows schema ms pending s l -> 0 <= wr_rowBytes row <= PROTOBUFFER_HARD_LIMIT - PROTOBUFFER_DESIRED_LIMIT ->
  PROTOBUFFER_DESIRED_LIMIT < lo_tSize (count_row row l) ->
  exists s' l' ms', next_message (with_row row s, count_row row l) = ((s', l'), Ret tt) /\
    inv (rows ++ [row]) schema ms' [] s' l' /\ frame s l s' l'.
Proof.
  intros Hi Hb Hbig. destruct (inv_row _ _ _ _ _ _ _ Hi Hb) as (Hsz & Hle & Hct & Hres & Hrows). destruct Hi.
  unfold next_message, get_local, run_bind, run_get. cbn [snd].
  destruct (transmit_step false (lo_rowCount (count_row row l)) (lo_tSize (count_row row l)) _ _ (with_row row s) (count_row row l)
    iv_sched0 iv_go0 iv_header0 Hres iv_channel0) as (c & -> & Hr & Hc).
  set (m := make_result _ _ _ _ _ _ _) in *. cbn [put_local run_mod initMsg put_qr leavePool].
  eexists _, _, (ms ++ [m]). split; [reflexivity|]. split; [|by repeat split].
  assert (Hm : msg_rows m = pending ++ [row]) by done.
  split; simpl; try done.
  - by rewrite bool_decide_true by (by destruct ms).
  - rewrite map_app, concat_app. simpl. rewrite ?app_nil_r. by apply Hc.
  - by rewrite bool_decide_true by (by destruct ms).
  - rewrite map_app, concat_app. simpl. by rewrite Hm, !app_nil_r.
  - apply Forall_app. by split; [|repeat constructor].
  - apply Forall_app. split; [done|]. repeat constructor; try (by rewrite Hm); try done. rewrite Hm. lia.
  - apply Forall_app. split; [done|]. by repeat constructor.
  - by apply first_differs_snoc.
Qed.

Lemma fillRows_step (rs : list Row) rows schema ms pending s l :
  inv rows schema ms pending s l ->
  Forall (fun row => length row = lo_numFields l /\
                     0 <= wr_rowBytes row <= PROTOBUFFER_HARD_LIMIT - PROTOBUFFER_DESIRED_LIMIT) rs ->
  exists s' l' ms' pending', fillRows task msg rs (s, l) = ((s', l'), Ret true) /\
    inv (rows ++ rs) schema ms' pending' s' l' /\ frame s l s' l'.
Proof.
  revert rows ms pending s l. induction rs as [|row rs IH]; intros rows ms pending s l Hi Hall.
  { rewrite app_nil_r. exists s, l, ms, pending. split; [done|]. split; [done|apply frame_refl]. }
  apply Forall_cons in Hall as [[Hw Hb] Hall]. rewrite (fillRows_cons _ _ _ _ _ (iv_result _ _ _ _ _ _ Hi) Hw). cbv zeta.
  pose proof (inv_row _ _ _ _ _ _ _ Hi Hb) as (Hsz & Hle & Hct & Hres & Hrows).
  destruct (Z.ltb_spec PROTOBUFFER_DESIRED_LIMIT (lo_tSize (count_row row l))) as [Hbig|Hsmall].
  - destruct (Z.ltb_spec PROTOBUFFER_HARD_LIMIT (lo_tSize (count_row row l))) as [Hhard|_]; [lia|].
    destruct (inv_next _ _ _ _ _ _ _ Hi Hb Hbig) as (s1 & l1 & ms1 & Hn & Hi1 & Hf1). unfold run_bind. rewrite Hn.
    destruct (IH _ _ _ s1 l1 Hi1) as (s2 & l2 & ms2 & p2 & Hr2 & Hi2 & Hf2).
    { destruct Hf1 as (_ & _ & _ & _ & _ & -> & _). done. }
    exists s2, l2, ms2, p2. rewrite <- app_assoc in Hi2. split; [done|]. split; [done|]. by eapply frame_trans.
  - assert (Hi1 : inv (rows ++ [row]) schema ms (pending ++ [row]) (with_row row s) (count_row row l)).
    { destruct Hi. split; try done. split; [apply Hle|]. rewrite Hsz in Hsmall. exact Hsmall. }
    destruct (IH _ _ _ _ _ Hi1 Hall) as (s2 & l2 & ms2 & p2 & Hr2 & Hi2 & Hf2).
    exists s2, l2, ms2, p2. rewrite <- app_assoc in Hi2. done.
Qed.
End runner.

(** ** Running the queries of a task: the sub-chunk tables

    The set of tables of a fragment, and that the resource of a fragment is
    acquired before its queries and given up after them. *)

(** ** [DbTableSet] *)

Lemma DbTable_lt_spec x y : DbTable_lt x y = true <-> str_lt x.1 y.1 = true \/ (x.1 = y.1 /\ str_lt x.2 y.2 = true).
Proof. unfold DbTable_lt. by rewrite orb_true_iff, andb_true_iff, String.eqb_eq. Qed.

Lemma DbTable_lt_trans x y z : DbTable_lt x y = true -> DbTable_lt y z = true -> DbTable_lt x z = true.
Proof.
  rewrite !DbTable_lt_spec. intros [Hx|[Hx Hx2]] [Hy|[Hy Hy2]]; rewrite ?Hx, ?Hy; rewrite ?Hx, ?Hy in *; eauto using str_lt_trans.
Qed.

Lemma DbTable_lt_irrefl x : DbTable_lt x x = false.
Proof. unfold DbTable_lt. rewrite !str_lt_irrefl. by rewrite andb_false_r. Qed.

Lemma DbTable_lt_total x y : DbTable_lt x y = false -> DbTable_lt y x = false -> x = y.
Proof.
  unfold DbTable_lt. rewrite !orb_false_iff, !andb_false_iff. intros [H1 H2] [H3 H4].
  pose proof (str_lt_total _ _ H1 H3) as He. rewrite He, String.eqb_refl in *.
  destruct H2 as [|H2], H4 as [|H4]; try done. destruct x, y. simpl in *. f_equal; [done|]. by apply str_lt_total.
Qed.

Definition table_order (x y : DbTable) : Prop := DbTable_lt x y = true.

Lemma emplace_elem l x y : y ∈ DbTableSet_emplace l x <-> y = x \/ y ∈ l.
Proof.
  induction l as [|z l IH]; simpl; [rewrite list_elem_of_singleton; set_solver|].
  destruct (DbTable_lt x z) eqn:E1; [set_solver|]. destruct (DbTable_lt z x) eqn:E2; [set_solver|].
  rewrite (DbTable_lt_total _ _ E1 E2). set_solver.
Qed.

Lemma emplace_sorted l x : StronglySorted table_order l -> StronglySorted table_order (DbTableSet_emplace l x).
Proof.
  induction 1 as [|z l Hs IH Hz]; simpl; [repeat constructor|].
  destruct (DbTable_lt x z) eqn:E1; [|destruct (DbTable_lt z x) eqn:E2].
  - constructor; [by constructor|]. constructor; [done|]. eapply Forall_impl; [exact Hz|]. intros y. by apply DbTable_lt_trans.
  - constructor; [done|]. rewrite Forall_forall in Hz |- *. intros y [->|Hy]%emplace_elem; [done|by apply Hz].
  - by constructor.
Qed.

Lemma DbTableSet_elem l y : y ∈ DbTableSet_of l <-> y ∈ l.
Proof.
  unfold DbTableSet_of. cut (forall acc, y ∈ foldl DbTableSet_emplace acc l <-> y ∈ acc \/ y ∈ l); [intros ->; set_solver|].
  induction l as [|x l IH]; intros acc; simpl; [set_solver|]. rewrite IH, emplace_elem. set_solver.
Qed.

Lemma DbTableSet_nodup l : NoDup (DbTableSet_of l).
Proof.
  assert (Hs : StronglySorted table_order (DbTableSet_of l)).
  { unfold DbTableSet_of. assert (H : StronglySorted table_order []) by constructor. revert H. generalize (@nil DbTable).
    induction l as [|x l IH]; intros acc Hacc; simpl; [done|]. by apply IH, emplace_sorted. }
  induction Hs as [|x l' _ IH Hx]; constructor; [|done]. intros Hin. rewrite Forall_forall in Hx. specialize (Hx _ Hin).
  unfold table_order in Hx. by rewrite DbTable_lt_irrefl in Hx.
Qed.

(** ** Resources of fragments *)

(** A backend that keeps its lock and can drop tables; creating them may fail. *)
Class WorkingBackend (K : Type) `{Backend K} : Prop := {
  wb_lock k : be_memLockRequireOwnership k = Ret tt;
  wb_discard v k : (be_discard v k).2 = Ret tt;
  wb_load v k : exists b, (be_load v k).2 = Ret b;
}.

Section resources.
Context {M : Type} `{HM : MemMan M} {K : Type} `{HK : Backend K} `{!WorkingBackend K}.
Context (tables : K -> gset ScTable) `{!BackendLaws K tables} (task : Task) (msg : QueryMsg).
Implicit Types (s : Run M K) (l : Locals) (f : Fragment).

Definition task_chunk : Z := default 0 (tm_chunkid (t_msg task)).

(** The resource that [getResourceFragment] asks for *)
Definition fragment_info f : Info :=
  match fr_subchunks f with
  | None => mkInfo (default ""%string (qm_db msg)) task_chunk
              (DbTableSet_of (map (fun x => (sti_db x, sti_table x)) (tm_scantable (t_msg task)))) []
  | Some sc => mkInfo (match su_database sc with Some db => db | None => default ""%string (qm_db msg) end) task_chunk
                 (DbTableSet_of (su_dbtbl sc)) (su_id sc)
  end.

(** The tables of a fragment belong to its database. *)
Definition fragment_ok f : Prop :=
  Forall (fun t => t.1 = in_db (fragment_info f)) (in_tables (fragment_info f)) /\
  (fr_subchunks f = None -> is_Some (qm_db msg)).

Lemma fragment_info_ok f : fragment_ok f -> info_ok (fragment_info f).
Proof. intros [Hf _]. split; [|done]. unfold fragment_info. destruct (fr_subchunks f); apply DbTableSet_nodup. Qed.

Definition res_ok (w : Resources K) : Prop := mgr_inv tables (rs_mgr w) (rs_live w).

Definition with_res (w : Resources K) s : Run M K :=
  mkRun (rn_qr s) (rn_world s) (rn_channel s) w (rn_poolThread s) (rn_left s) (rn_sched s) (rn_ran s).

Lemma acquireUnit_working i (m : ChunkResourceMgr K) :
  (acquireUnit i m).2 = Ret tt \/ (acquireUnit i m).2 = Raise SqlError.
Proof.
  unfold acquireUnit, ce_acquire. rewrite wb_lock. destruct (acquire_tables _ _ _ _) as [tm [|x needed]]; [by left|].
  destruct (wb_load (x :: needed) (cm_backend m)) as [b Hb]. destruct (be_load _ _) as [k' r]. simpl in Hb. subst r.
  destruct b; [by left|by right].
Qed.

(** The resource is there, or the fragment is given up with an error. *)
Lemma getResource_step f s l :
  fragment_ok f -> res_ok (rn_res s) ->
  (exists w, getResourceFragment task msg f (s, l) = ((with_res w s, l), Ret tt) /\
     res_ok w /\ rs_live w = rs_live (rn_res s) ++ [fragment_info f]) \/
  (exists w, getResourceFragment task msg f (s, l) = ((with_res w s, l), Raise SqlError)).
Proof.
  intros Hf Hw.
  assert (He : getResourceFragment task msg f (s, l) =
    let i := fragment_info f in acquire task (in_db i) (in_tables i) (in_subChunkIds i) (s, l)).
  { unfold getResourceFragment, fragment_info. destruct (fr_subchunks f) eqn:E; [done|].
    destruct (proj2 Hf E) as [db ->]. done. }
  rewrite He. cbv zeta. unfold acquire, resource_acquire.
  pose proof (acquire_inv tables _ _ _ Hw (fragment_info_ok f Hf)) as Ha.
  pose proof (acquireUnit_working (fragment_info f) (rs_mgr (rn_res s))) as Hr.
  replace (mkInfo _ _ _ _) with (fragment_info f) by (unfold fragment_info, task_chunk; by destruct (fr_subchunks f)).
  destruct (acquireUnit _ _) as [m r]. simpl in Hr. destruct Hr as [-> | ->].
  - left. eexists. split; [reflexivity|]. done.
  - right. eexists. reflexivity.
Qed.

Lemma delete_last {A} (live : list A) x : delete (length live) (live ++ [x]) = live.
Proof. induction live; simpl; [done|]. f_equal. done. Qed.

(** The resource that was acquired last is given up. *)
Lemma releaseFragment_step s l live i :
  res_ok (rn_res s) -> rs_live (rn_res s) = live ++ [i] ->
  exists w, releaseFragment (s, l) = ((with_res w s, l), Ret tt) /\ res_ok w /\ rs_live w = live.
Proof.
  intros Hw Hl. assert (Hn : rs_live (rn_res s) !! length live = Some i) by (rewrite Hl; by apply list_lookup_middle).
  assert (Hlen : (length (rs_live (rn_res s)) - 1 = length live)%nat) by (rewrite Hl, length_app; simpl; lia).
  unfold releaseFragment, resource_destroy. rewrite Hlen, Hn.
  pose proof (release_inv tables _ _ _ _ Hw Hn) as Hr. destruct (cm_release i (rs_mgr (rn_res s))) as [m [[]|e]].
  - eexists. split; [reflexivity|]. rewrite Hl, delete_last in *. done.
  - rewrite wb_lock in Hr. destruct Hr as [|[v Hv]]; [done|]. by rewrite wb_discard in Hv.
Qed.

(** While the resource is there, so are the tables of its sub-chunks. *)
Lemma resource_tables w live f sc t i :
  res_ok w -> rs_live w = live ++ [fragment_info f] -> fr_subchunks f = Some sc ->
  t ∈ su_dbtbl sc -> i ∈ su_id sc -> (task_chunk, t, i) ∈ tables (cm_backend (rs_mgr w)).
Proof.
  intros Hw Hl Hsc Ht Hi. apply (mi_tables _ _ _ Hw). apply uses_pos; [apply Hw|].
  exists (fragment_info f). rewrite Hl. split; [set_solver|]. unfold fragment_info. rewrite Hsc. simpl.
  by rewrite DbTableSet_elem.
Qed.
End resources.
