(* ===== verification/QueryRunnerThms.v ===== *)
(** * Running the queries of a task: theorems

    What a worker sends for a task is complete: every row of every query, once and
    in order, in messages of limited size; the czar merges exactly these rows;
    the sub-chunk tables are there when a query runs; and a task that is cancelled
    sends the beginning of what it would have sent. *)

From Stdlib Require Import Ascii String.
From S2P Require Import Prelude.
From S2P Require Import StdString.
From S2P Require Import ScanInfo.
From S2P Require Import MemMan.
From S2P Require Import Task.
From S2P Require Import LocalInfile.
From S2P Require Import ChunkResource.
From S2P Require Import ChunkResourceThms.
From S2P Require Import MergingHandler.
From S2P Require Import SendChannel.
From S2P Require Import QueryRunner.
From S2P Require Import QueryRunnerInv.

Local Open Scope Z_scope.

Section runner.
Context {M : Type} `{HM : MemMan M} {K : Type} `{HK : Backend K} `{HD : !DbServer K} `{HW : Wire}.
Context (this : nat) (task : Task) (msg : QueryMsg).
Implicit Types (s : Run M K) (l : Locals) (m : ResultMsg) (ms : list ResultMsg) (q : string) (f : Fragment).

Context (header_small : forall hd, (length (wr_header hd) < 255)%nat) (width : nat) (Hwidth : uniform (K := K) width).

(** ** Queries *)

(** The invariant between two queries *)
Record run_inv s l : Prop := {
  ri_inv : exists ms pending, inv task msg (rows_of (rn_ran s)) (schema_of (rn_ran s)) ms pending s l;
  ri_first : match first_fields (rn_ran s) with
             | None => lo_firstResult l = true
             | Some _ => lo_firstResult l = false /\ lo_numFields l = width
             end;
  ri_errors : qr_multiError (rn_qr s) = errors_of (rn_ran s);
  ri_conn : is_Some (qr_mysqlConn (rn_qr s));
}.

(** Nothing is sent before there is a row. *)
Lemma inv_no_rows schema ms pending s l : inv task msg [] schema ms pending s l -> ms = [] /\ pending = [].
Proof.
  intros [? ? ? ? ? ? Hrows ? ? ? ? Hex Hbig ?]. apply app_eq_nil in Hrows as [Hc Hp]. split; [|done].
  destruct ms as [|m ms]; [done|]. apply app_eq_nil in Hc as [Hm _]. apply Forall_cons in Hex as [(_ & Hsz & _) _].
  apply Forall_cons in Hbig as [Hbig _]. rewrite Hsz, Hm in Hbig. done.
Qed.

Lemma inv_other rows schema ms pending s l s' l' :
  inv task msg rows schema ms pending s l ->
  rn_sched s' = rn_sched s -> qr_cancelled (rn_qr s') = qr_cancelled (rn_qr s) -> qr_protoHeader (rn_qr s') = qr_protoHeader (rn_qr s) ->
  qr_largeResult (rn_qr s') = qr_largeResult (rn_qr s) -> rn_channel s' = rn_channel s -> qr_result (rn_qr s') = qr_result (rn_qr s) ->
  lo_rowCount l' = lo_rowCount l -> lo_tSize l' = lo_tSize l -> inv task msg rows schema ms pending s' l'.
Proof. intros [] ? ? ? ? ? ? ? ?. split; congruence. Qed.

Definition log_at s q : K * string * MySqlReply :=
  (cm_backend (rs_mgr (rn_res s)), q, db_query (cm_backend (rs_mgr (rn_res s))) q false).

(** The state after the answer to a query *)
Definition answered q s : Run M K :=
  let a := (log_at s q).2 in
  let c := default MySqlConnection_ctor (qr_mysqlConn (rn_qr s)) in
  mkRun (set_conn (Some (mc_end a (mc_begin c)).1) (rn_qr s)) (rn_world s) (rn_channel s) (rn_res s) (rn_poolThread s) (rn_left s)
    (rn_sched s) (rn_ran s ++ [log_at s q]).

Lemma primeResult_step q s l :
  rn_sched s = [] -> is_Some (qr_mysqlConn (rn_qr s)) ->
  primeResult task q (s, l) =
  match (log_at s q).2 with
  | QResult fields rows _ => ((answered q s, l), Ret (Some (fields, rows)))
  | QError e | QNoResult e =>
      let s' := answered q s in
      ((mkRun (push_error e (rn_qr s')) (rn_world s) (rn_channel s) (rn_res s) (rn_poolThread s) (rn_left s) (rn_sched s) (rn_ran s'), l), Ret None)
  end.
Proof.
  intros Hs [c Hc]. unfold primeResult, get_qr, run_bind, run_get. cbn [fst]. rewrite Hc. cbn [put_qr run_mod].
  rewrite others_idle by done. unfold answered, log_at. rewrite Hc.
  cbn [fst snd rn_qr rn_res set_conn qr_mysqlConn from_option id mc_begin mc_interrupted log_query run_mod].
  destruct (db_query _ q false); done.
Qed.

(** The first result sets the columns. *)
Lemma fillSchema_step (fields : list MYSQL_FIELD) s l :
  inv task msg [] [] [] [] s l ->
  exists s', fillSchema fields (s, l) = ((s', l), Ret tt) /\ inv task msg [] (newFromResult fields) [] [] s' l /\ frame s l s' l.
Proof.
  intros []. unfold fillSchema, with_result, get_qr, run_bind, run_get. cbn [fst]. rewrite iv_result. cbn [put_qr run_mod].
  eexists. split; [reflexivity|]. split; [by split|by repeat split].
Qed.

Lemma schema_of_snoc (ran : list (K * string * MySqlReply)) x :
  schema_of (ran ++ [x]) =
  match first_fields ran, x.2 with
  | None, QResult fields _ _ => newFromResult fields
  | _, _ => schema_of ran
  end.
Proof. unfold schema_of. rewrite first_fields_snoc. destruct (first_fields ran); simpl; [done|]. by destruct x.2. Qed.

(** A query that fails is reported and changes nothing else. *)
Lemma runOne_failed q s l e :
  run_inv s l -> errors_of_reply (log_at s q).2 = [e] ->
  exists s' l', runOne task msg q (s, l) = ((s', l'), Ret tt) /\ run_inv s' l' /\ rn_ran s' = rn_ran s ++ [log_at s q] /\
    rn_res s' = rn_res s.
Proof.
  intros [(ms & pending & Hi) Hfirst Herr Hconn] He. unfold runOne, run_bind.
  rewrite (primeResult_step q s l (iv_sched _ _ _ _ _ _ _ _ Hi) Hconn).
  assert (Hr : rows_of_reply (log_at s q).2 = [] /\ schema_of (rn_ran s ++ [log_at s q]) = schema_of (rn_ran s) /\
               first_fields (rn_ran s ++ [log_at s q]) = first_fields (rn_ran s)).
  { rewrite schema_of_snoc, first_fields_snoc. destruct (log_at s q).2; try done; by destruct (first_fields (rn_ran s)). }
  destruct Hr as (Hr1 & Hr2 & Hr3).
  assert (Hgoal : forall s' l', rn_ran s' = rn_ran s ++ [log_at s q] -> rn_res s' = rn_res s ->
      inv task msg (rows_of (rn_ran s)) (schema_of (rn_ran s)) ms pending s' l' -> lo_firstResult l' = lo_firstResult l ->
      lo_numFields l' = lo_numFields l -> qr_multiError (rn_qr s') = qr_multiError (rn_qr s) ++ [e] ->
      is_Some (qr_mysqlConn (rn_qr s')) -> run_inv s' l').
  { intros s' l' Hran _ Hi' Hf Hn Hm Hc. split; rewrite ?Hran.
    - exists ms, pending. by rewrite rows_of_snoc, Hr1, app_nil_r, Hr2.
    - by rewrite Hr3, Hf, Hn.
    - by rewrite errors_of_snoc, Hm, Herr, He.
    - done. }
  destruct (log_at s q).2 as [e'|e'|]; try done; injection He as ->; cbn [put_local run_mod]; eexists _, _;
    (split; [reflexivity|]); (split; [|done]); apply Hgoal; try done; by apply (inv_other _ _ _ _ _ _ _ _ Hi).
Qed.

(** The rows of a result go into messages. *)
Lemma runOne_result q s l fields (rows : list Row) b :
  run_inv s l -> (log_at s q).2 = QResult fields rows b ->
  exists s' l', runOne task msg q (s, l) = ((s', l'), Ret tt) /\ run_inv s' l' /\ rn_ran s' = rn_ran s ++ [log_at s q] /\
    rn_res s' = rn_res s.
Proof.
  intros [(ms & pending & Hi) Hfirst Herr Hconn] Ha. unfold runOne, run_bind.
  rewrite (primeResult_step q s l (iv_sched _ _ _ _ _ _ _ _ Hi) Hconn), Ha.
  destruct (Hwidth _ _ _ _ _ _ Ha) as [Hwf Hrows].
  assert (Hi0 : inv task msg (rows_of (rn_ran s)) (schema_of (rn_ran s)) ms pending (answered q s) l) by (by apply (inv_other _ _ _ _ _ _ _ _ Hi)).
  set (s0 := answered q s) in *.
  assert (Hset : exists s1 l1 ms1 pending1,
      takeSchema fields (s0, l) = ((s1, l1), Ret tt) /\
      inv task msg (rows_of (rn_ran s)) (schema_of (rn_ran s ++ [log_at s q])) ms1 pending1 s1 l1 /\
      lo_firstResult l1 = false /\ lo_numFields l1 = width /\ rn_ran s1 = rn_ran s0 /\ rn_res s1 = rn_res s0 /\
      qr_multiError (rn_qr s1) = qr_multiError (rn_qr s0) /\ qr_mysqlConn (rn_qr s1) = qr_mysqlConn (rn_qr s0)).
  { rewrite schema_of_snoc, Ha. unfold takeSchema, get_local, run_bind, run_get. cbn [snd]. destruct (first_fields (rn_ran s)) as [fs|] eqn:Ef.
    - destruct Hfirst as [Hf Hn]. rewrite Hf. exists s0, l, ms, pending. done.
    - rewrite Hfirst. rewrite (first_fields_none _ Ef) in *. destruct (inv_no_rows _ _ _ _ _ Hi0) as [-> ->].
      assert (Hs : schema_of (rn_ran s) = []) by (unfold schema_of; by rewrite Ef). rewrite Hs in Hi0.
      destruct (fillSchema_step fields s0 l Hi0) as (s1 & Hf1 & Hi1 & Hfr). rewrite Hf1. cbn [put_local run_mod].
      destruct Hfr as (? & ? & ? & ? & _). eexists s1, _, [], []. split; [reflexivity|]. split; [|done].
      by apply (inv_other _ _ _ _ _ _ _ _ Hi1). }
  destruct Hset as (s1 & l1 & ms1 & p1 & Hset & Hi1 & Hf1 & Hn1 & Hran1 & Hres1 & Hm1 & Hc1).
  destruct (fillRows_step task msg header_small rows _ _ _ _ _ _ Hi1) as (s2 & l2 & ms2 & p2 & Hfill & Hi2 & Hfr2).
  { by rewrite Hn1. }
  rewrite Hset, Hfill.
  destruct Hfr2 as (Hran2 & Hres2 & Hm2 & Hc2 & Hfi2 & Hn2 & _). cbn [put_qr run_mod run_ret].
  assert (Hran : rn_ran s2 = rn_ran s ++ [log_at s q]) by (by rewrite Hran2, Hran1).
  eexists _, l2. split; [reflexivity|]. split; [|by rewrite <- Hran; split; [done|]; cbn; rewrite Hres2, Hres1].
  split; cbn [rn_ran rn_qr set_conn qr_multiError qr_mysqlConn]; rewrite ?Hran.
  - exists ms2, p2. rewrite rows_of_snoc, Ha. by apply (inv_other _ _ _ _ _ _ _ _ Hi2).
  - rewrite first_fields_snoc, Ha, Hfi2, Hn2. by destruct (first_fields (rn_ran s)).
  - rewrite errors_of_snoc, Ha, app_nil_r, Hm2, Hm1. done.
  - rewrite Hc2, Hc1. by eexists.
Qed.

Lemma runOne_step q s l :
  run_inv s l ->
  exists s' l', runOne task msg q (s, l) = ((s', l'), Ret tt) /\ run_inv s' l' /\ rn_ran s' = rn_ran s ++ [log_at s q] /\
    rn_res s' = rn_res s.
Proof.
  intros Hi. destruct (log_at s q).2 as [e|e|fields rows b] eqn:Ha.
  - apply (runOne_failed q s l e Hi). by rewrite Ha.
  - apply (runOne_failed q s l e Hi). by rewrite Ha.
  - exact (runOne_result q s l fields rows b Hi Ha).
Qed.

(** The queries of a fragment run on the same tables. *)
Lemma queries_step (qs : list string) s l :
  run_inv s l ->
  exists s' l' extra, run_fold (fun _ => runOne task msg) tt qs (s, l) = ((s', l'), Ret tt) /\ run_inv s' l' /\
    rn_res s' = rn_res s /\ rn_ran s' = rn_ran s ++ extra /\ queries_of extra = qs /\
    Forall (fun x => x.1.1 = cm_backend (rs_mgr (rn_res s))) extra.
Proof.
  revert s l. induction qs as [|q qs IH]; intros s l Hi; simpl.
  { exists s, l, []. by rewrite app_nil_r. }
  destruct (runOne_step q s l Hi) as (s1 & l1 & Hr & Hi1 & Hran & Hres). unfold run_bind. rewrite Hr.
  destruct (IH s1 l1 Hi1) as (s2 & l2 & extra & -> & Hi2 & Hres2 & Hran2 & Hq & Hall).
  exists s2, l2, (log_at s q :: extra). rewrite Hres2, Hran2, Hran, Hres, <- app_assoc, <- Hq in *.
  split; [done|]. repeat (split; [done|]). by constructor.
Qed.

(** ** Fragments *)
Context `{!WorkingBackend K} (tables : K -> gset ScTable) `{!BackendLaws K tables}.

(** A query ran for one of the fragments, with the tables of its sub-chunks. *)
Definition served (fs : list Fragment) (x : K * string * MySqlReply) : Prop :=
  exists f, f ∈ fs /\ x.1.2 ∈ fragment_queries f /\
    forall sc t i, fr_subchunks f = Some sc -> t ∈ su_dbtbl sc -> i ∈ su_id sc -> (task_chunk task, t, i) ∈ tables x.1.1.

Lemma run_inv_res w s l : run_inv s l -> run_inv (with_res w s) l.
Proof. intros [(ms & pending & Hi) ? ? ?]. split; try done. exists ms, pending. by apply (inv_other _ _ _ _ _ _ _ _ Hi). Qed.

Lemma fragments_step (fs : list Fragment) s l :
  run_inv s l -> res_ok tables (rn_res s) -> Forall (fragment_ok task msg) fs ->
  exists s' l' r extra, runFragments task msg fs (s, l) = ((s', l'), r) /\ run_inv s' l' /\ rn_ran s' = rn_ran s ++ extra /\
    Forall (served fs) extra /\
    (r = Ret tt /\ queries_of extra = fs ≫= fragment_queries /\ rs_live (rn_res s') = rs_live (rn_res s) \/ r = Raise SqlError).
Proof.
  revert s l. induction fs as [|f fs IH]; intros s l Hi Hw Hfs; simpl.
  { exists s, l, (Ret tt), []. rewrite app_nil_r. repeat (split; [done|]). by left. }
  apply Forall_cons in Hfs as [Hf Hfs]. pose proof (ri_inv _ _ Hi) as (ms & pending & Hin). unfold run_bind at 1.
  rewrite readCancelled_idle, (iv_go _ _ _ _ _ _ _ _ Hin) by apply Hin. unfold run_bind at 1.
  destruct (getResource_step tables task msg f s l Hf Hw) as [(w & -> & Hw1 & Hl1)|(w & ->)]; cycle 1.
  { exists (with_res w s), l, (Raise SqlError), []. rewrite app_nil_r. split; [done|].
    split; [by apply run_inv_res|]. split; [done|]. split; [done|]. by right. }
  unfold run_bind at 1, with_cleanup.
  destruct (queries_step (fragment_queries f) _ l (run_inv_res w _ _ Hi)) as (s1 & l1 & x1 & -> & Hi1 & Hres1 & Hran1 & Hq1 & Hk1).
  cbn [with_res rn_res] in Hres1. cbv iota beta.
  destruct (releaseFragment_step tables s1 l1 (rs_live (rn_res s)) (fragment_info task msg f)) as (w2 & -> & Hw2 & Hl2); [by rewrite Hres1|by rewrite Hres1|].
  destruct (IH (with_res w2 s1) l1 (run_inv_res _ _ _ Hi1) Hw2 Hfs) as (s3 & l3 & r & x3 & Hr & Hi3 & Hran3 & Hs3 & Hcase).
  exists s3, l3, r, (x1 ++ x3). split; [done|]. split; [done|]. cbn [with_res rn_ran rn_res] in Hran3, Hran1, Hk1.
  split; [by rewrite Hran3, Hran1, app_assoc|]. split.
  - apply Forall_app. split; cycle 1.
    { eapply Forall_impl; [exact Hs3|]. intros x (f' & Hf' & Hq' & Ht'). exists f'. split; [by right|done]. }
    rewrite Forall_forall in Hk1 |- *. intros x Hx. exists f. split; [by left|]. split.
    + rewrite <- Hq1. apply list_elem_of_fmap. by exists x.
    + intros sc t i Hsc Ht Hid. rewrite (Hk1 x Hx). by apply (resource_tables tables task msg w (rs_live (rn_res s)) f sc).
  - destruct Hcase as [(-> & Hq3 & Hl3)|Hcase]; [left|by right]. split; [done|]. split; [|by rewrite Hl3].
    unfold queries_of in *. by rewrite map_app, Hq1, Hq3.
Qed.

(** ** The whole task *)

(** A task that can be run: nobody cancels it, its request takes the result, the
    server can be reached, and the memory manager answers. *)
Record task_ready s : Prop := {
  tr_sched : rn_sched s = [];
  tr_channel : open_stream [] (rn_channel s);
  tr_ran : rn_ran s = [];
  tr_res : res_ok tables (rn_res s);
  tr_cancelled : v_cancelled (vars (rn_world s) task) = false;
  tr_memory : exists w, waitForMemMan task (setTaskQueryRunner task this (rn_world s)).1 = Ret w;
  tr_connects : db_connects (t_user task) = true;
  tr_protocol : qm_protocol msg = Some 2;
  tr_fragments : qm_fragment msg <> [];
  tr_tables : Forall (fragment_ok task msg) (qm_fragment msg);
}.

(** The messages [ms] and the last one, [m], for the answers [ran] *)
Record result_stream (ran : list (K * string * MySqlReply)) ms m : Prop := {
  rs_continues : Forall (fun m => rm_continues m = true) ms /\ rm_continues m = false;
  rs_rows : concat (map msg_rows (ms ++ [m])) = rows_of ran;
  rs_exact : Forall (msg_exact task msg) (ms ++ [m]);
  rs_split : Forall (fun m => PROTOBUFFER_DESIRED_LIMIT < rb_transmitsize (rm_rows m)) ms /\
             rb_transmitsize (rm_rows m) <= PROTOBUFFER_DESIRED_LIMIT;
  rs_first : first_differs (schema_of ran) (ms ++ [m]);
}.

Lemma waitForMemMan_cancelled (w w' : World M) :
  waitForMemMan task w = Ret w' -> v_cancelled (vars w' task) = v_cancelled (vars w task).
Proof.
  unfold waitForMemMan. intros (w1 & Hw1 & [= <-])%bind_ret_inv. rewrite vars_set_eq. simpl.
  destruct (v_memMan (vars w task)); [|by injection Hw1 as <-]. apply bind_ret_inv in Hw1 as ([m rc] & _ & [= <-]).
  by rewrite vars_set_mm.
Qed.

(** The state in which the loop over the fragments begins *)
Lemma start_inv s l w c :
  rn_sched s = [] -> open_stream [] (rn_channel s) -> rn_ran s = [] ->
  run_inv (mkRun (mkQueryRunner c false (Some MySqlConnection_ctor) [] true (Some (filling msg [] [])) false) w (rn_channel s)
             (rn_res s) (rn_poolThread s) (rn_left s) (rn_sched s) (rn_ran s)) (mkLocals true false 0 0 0).
Proof.
  intros Hs Hc Hr. split; cbn [rn_ran rn_qr qr_multiError qr_mysqlConn]; rewrite ?Hr; try done.
  exists [], []. split; simpl; try done.
Qed.

(** The last message; [e] is the error of a resource. *)
Definition with_error (e : option Error) (r : QueryRunner) : QueryRunner :=
  match e with Some e => push_error e r | None => r end.

Lemma last_message s l e :
  run_inv s l ->
  exists s' ms m, transmit task true (lo_rowCount l) (lo_tSize l) (mkRun (with_error e (rn_qr s)) (rn_world s) (rn_channel s) (rn_res s)
        (rn_poolThread s) (rn_left s) (rn_sched s) (rn_ran s), l) = ((s', l), Ret tt) /\
    received (rn_channel s') = concat (map wire (ms ++ [m])) /\ result_stream (rn_ran s') ms m /\ rn_ran s' = rn_ran s /\
    rn_res s' = rn_res s /\ (rb_errormsg (rm_rows m) = None -> e = None /\ errors_of (rn_ran s) = []).
Proof.
  intros [(ms & pending & Hi) _ Herr _]. destruct Hi.
  assert (Hq : qr_cancelled (with_error e (rn_qr s)) = qr_cancelled (rn_qr s) /\
    qr_protoHeader (with_error e (rn_qr s)) = qr_protoHeader (rn_qr s) /\ qr_result (with_error e (rn_qr s)) = qr_result (rn_qr s) /\
    qr_largeResult (with_error e (rn_qr s)) = qr_largeResult (rn_qr s)) by (by destruct e).
  assert (He : qr_multiError (with_error e (rn_qr s)) = [] -> e = None /\ qr_multiError (rn_qr s) = []).
  { destruct e as [x|]; [|done]. simpl. by intros [_ ?]%app_eq_nil. }
  destruct Hq as (Hq1 & Hq2 & Hq3 & Hq4).
  set (q := with_error e (rn_qr s)) in *.
  set (s0 := mkRun q (rn_world s) (rn_channel s) (rn_res s) (rn_poolThread s) (rn_left s) (rn_sched s) (rn_ran s)).
  destruct (transmit_step task header_small true (lo_rowCount l) (lo_tSize l) (concat (map wire ms))
    (filling msg (if bool_decide (ms <> []) then [] else schema_of (rn_ran s)) pending) s0 l) as (c & -> & Hr & _); try done.
  { by rewrite <- iv_go, <- Hq1. }
  { by rewrite <- iv_header, <- Hq2. }
  { by rewrite <- iv_result, <- Hq3. }
  cbn [rn_qr s0] in Hr. cbn [rn_qr] in Hr. set (m := make_result _ _ _ _ _ _ _) in *.
  assert (Hm : msg_rows m = pending) by done.
  assert (Hl : rm_largeresult m = bool_decide (ms <> [])) by (by rewrite <- iv_large, <- Hq4).
  eexists _, ms, m. split; [reflexivity|]. split; [|split; [|split; [done|split; [done|]]]].
  - rewrite map_app, concat_app. simpl. rewrite ?app_nil_r. exact Hr.
  - split; [by split| | |split; [done|]|].
    + rewrite map_app, concat_app. simpl. by rewrite Hm, app_nil_r.
    + apply Forall_app. split; [done|]. repeat constructor; try done. rewrite Hm. unfold PROTOBUFFER_HARD_LIMIT, PROTOBUFFER_DESIRED_LIMIT in *. lia.
    + subst m. simpl. rewrite iv_size. apply iv_small.
    + by apply first_differs_snoc.
  - rewrite <- Herr. intros Hn. apply He. subst m. simpl in Hn. by destruct (qr_multiError q).
Qed.

(** What a task has sent when it has run to its end *)
Definition task_outcome s' ms m : Prop :=
  received (rn_channel s') = concat (map wire (ms ++ [m])) /\
  result_stream (rn_ran s') ms m /\
  Forall (served (qm_fragment msg)) (rn_ran s') /\
  (rb_errormsg (rm_rows m) = None ->
     queries_of (rn_ran s') = qm_fragment msg ≫= fragment_queries /\ errors_of (rn_ran s') = []).

Lemma run_eta s :
  mkRun (rn_qr s) (rn_world s) (rn_channel s) (rn_res s) (rn_poolThread s) (rn_left s) (rn_sched s) (rn_ran s) = s.
Proof. by destruct s. Qed.

Lemma dispatch_step s l db ph res :
  rn_qr s = mkQueryRunner db false (Some MySqlConnection_ctor) [] ph res false ->
  rn_sched s = [] -> open_stream [] (rn_channel s) -> rn_ran s = [] -> res_ok tables (rn_res s) ->
  qm_fragment msg <> [] -> Forall (fragment_ok task msg) (qm_fragment msg) ->
  exists s' l' b ms m, dispatchChannel task msg (s, l) = ((s', l'), Ret b) /\ task_outcome s' ms m.
Proof.
  intros Hq Hs Hc Hr Hw Hne Hfs. unfold dispatchChannel. unfold run_bind at 1. unfold initMsgs, run_bind at 1. cbn [put_qr run_mod initMsg].
  unfold run_bind at 1. cbn [put_local run_mod]. rewrite bool_decide_false by done. rewrite Hq. cbn [rn_qr set_result qr_dbName qr_cancelled
    qr_mysqlConn qr_multiError qr_protoHeader qr_result qr_largeResult].
  pose proof (start_inv s l (rn_world s) db Hs Hc Hr) as Hi.
  destruct (fragments_step (qm_fragment msg) _ _ Hi Hw Hfs) as (s1 & l1 & r & extra & Hrun & Hi1 & Hran & Hserved & Hcase).
  cbn [rn_ran] in Hran. rewrite Hr, app_nil_l in Hran. subst extra. unfold run_bind at 1, catch_sql.
  change (mkResultBody [] (qm_session msg) [] 0 0 0 0 0 None) with (filling msg [] []). cbn [rn_world rn_channel rn_res rn_poolThread rn_left rn_sched rn_ran]. unfold set_result. cbn [qr_dbName qr_cancelled qr_mysqlConn qr_multiError qr_protoHeader qr_largeResult].
  rewrite Hrun. pose proof (ri_inv _ _ Hi1) as (ms0 & p0 & Hin).
  assert (Hend : forall e, exists s' ms m,
      (let s2 := mkRun (with_error e (rn_qr s1)) (rn_world s1) (rn_channel s1) (rn_res s1) (rn_poolThread s1) (rn_left s1) (rn_sched s1) (rn_ran s1) in
       readCancelled task (s2, l1) = ((s2, l1), Ret false) /\
       transmit task true (lo_rowCount l1) (lo_tSize l1) (s2, l1) = ((s', l1), Ret tt)) /\
      received (rn_channel s') = concat (map wire (ms ++ [m])) /\ result_stream (rn_ran s') ms m /\ rn_ran s' = rn_ran s1 /\
      (rb_errormsg (rm_rows m) = None -> e = None /\ errors_of (rn_ran s1) = [])).
  { intros e. destruct (last_message s1 l1 e Hi1) as (s' & ms & m & Ht & Hrec & Hrs & Hr' & _ & He). exists s', ms, m.
    split; [split; [|done]|done]. rewrite readCancelled_idle by apply Hin. do 2 f_equal. cbn. destruct e; apply Hin. }
  destruct Hcase as [(-> & Hqs & _)| ->].
  - destruct (Hend None) as (s' & ms & m & [Hrc Ht] & Hrec & Hrs & Hr' & He). cbv zeta in Hrc, Ht. cbn [with_error] in Hrc, Ht.
    cbv iota beta. unfold run_bind at 1. rewrite run_eta in Hrc, Ht. rewrite Hrc. unfold run_bind, get_local, run_get. cbn [snd].
    rewrite Ht. eexists _, _, _, ms, m. split; [reflexivity|]. unfold task_outcome. rewrite Hr'. split; [done|]. split; [by rewrite <- Hr'|].
    split; [done|]. intros Hn. split; [done|]. by apply He.
  - destruct (Hend (Some db_sqlError)) as (s' & ms & m & [Hrc Ht] & Hrec & Hrs & Hr' & He). cbv zeta in Hrc, Ht. cbn [with_error] in Hrc, Ht.
    cbn [put_qr run_mod]. unfold run_bind at 1. rewrite Hrc. unfold run_bind, get_local, run_get. cbn [snd].
    rewrite Ht. eexists _, _, _, ms, m. split; [reflexivity|]. unfold task_outcome. rewrite Hr'. split; [done|]. split; [by rewrite <- Hr'|].
    split; [done|]. intros Hn. by destruct (He Hn).
Qed.

(** The helper of the theorems below *)
Lemma task_runs s l :
  task_ready s -> exists s' l' ms m, task_func this task msg (s, l) = ((s', l'), Ret tt) /\ task_outcome s' ms m.
Proof.
  intros []. unfold task_func. rewrite tr_protocol0. change (2 <? 2) with false. cbv iota. unfold run_bind at 1. unfold newQueryRunner.
  destruct (setTaskQueryRunner task this (rn_world s)) as [w1 b1] eqn:E1. unfold setTaskQueryRunner in E1. injection E1 as Ew1 Eb1.
  assert (Hc1 : v_cancelled (vars w1 task) = false) by (rewrite <- Ew1, vars_set_eq; done).
  rewrite <- Eb1, tr_cancelled0. destruct tr_memory0 as [w2 Hw2]. simpl in Hw2.
  unfold run_bind at 1, runQuery, with_cleanup, runQuery_body.
  assert (Ht : forall s1, rn_sched s1 = [] -> taskCancelled task (s1, l) = ((s1, l), Ret (v_cancelled (vars (rn_world s1) task)))).
  { intros s1 Hs1. unfold taskCancelled, run_bind. by rewrite others_idle. }
  unfold run_bind at 1. rewrite Ht by done. cbn [rn_world]. rewrite Hc1. unfold run_bind at 1, waitMem. cbn [rn_world].
  rewrite Hw2. unfold run_bind at 1. rewrite Ht by done. cbn [rn_world]. rewrite (waitForMemMan_cancelled _ _ Hw2), Hc1.
  unfold run_bind at 1.
  assert (Hdb : exists db, forall s1, setDb msg (s1, l) = ((mkRun (mkQueryRunner (default (qr_dbName (rn_qr s1)) db) (qr_cancelled (rn_qr s1)) (qr_mysqlConn (rn_qr s1))
      (qr_multiError (rn_qr s1)) (qr_protoHeader (rn_qr s1)) (qr_result (rn_qr s1)) (qr_largeResult (rn_qr s1))) (rn_world s1) (rn_channel s1) (rn_res s1)
      (rn_poolThread s1) (rn_left s1) (rn_sched s1) (rn_ran s1), l), Ret tt) :> (Run M K * Locals) * outcome unit).
  { exists (qm_db msg). intros s1. unfold setDb. destruct (qm_db msg); [done|]. by destruct s1 as [[] ? ? ? ? ? ? ?]. }
  destruct Hdb as [db ->]. unfold run_bind at 1, initConnection, run_bind at 1. cbn [put_qr run_mod]. rewrite tr_connects0. cbn [run_ret negb].
  rewrite bool_decide_true by done.
  match goal with |- context [dispatchChannel task msg (?x, l)] =>
    destruct (dispatch_step x l _ _ _ eq_refl tr_sched0 tr_channel0 tr_ran0 tr_res0 tr_fragments0 tr_tables0) as (s3 & l3 & b & ms & m & -> & Ho) end.
  eexists _, _, ms, m. split; [reflexivity|]. exact Ho.
Qed.

(** ** The czar *)

(** The protocol can carry the message. *)
Definition carried parseHeader parseResult m : Prop :=
  transmits parseHeader wr_md5 parseResult wr_header wr_result m /\ Z.of_nat (length (wr_result m)) < 2 ^ 31.

Lemma wire_pieces parseHeader parseResult ms :
  Forall (carried parseHeader parseResult) ms ->
  map fst (concat (map wire ms)) = concat (map (pieces wr_md5 wr_header wr_result) ms).
Proof.
  induction 1 as [|m ms [_ Hlen] _ IH]; [done|]. cbn [map concat]. rewrite map_app, IH. f_equal. unfold wire, pieces. simpl. do 3 f_equal.
  unfold header_sent, header_of. f_equal. unfold to_int32. rewrite Z.mod_small; lia.
Qed.

End runner.

(** ** A concrete task *)

(** A server that creates and drops tables as it is told *)
Record KeepServer := mkKeepServer { keep_tables : gset ScTable }.
#[export] Instance KeepServer_server : SqlServer KeepServer := {
  sv_create x v := (mkKeepServer (keep_tables v ∪ {[x]}), true);
  sv_drop x v := (mkKeepServer (keep_tables v ∖ {[x]}), true);
  sv_memLockStatus _ := LOCKED_OURS;
}.
#[export] Instance KeepServer_laws : SqlServerLaws KeepServer keep_tables.
Proof. split; intros x v v'; simpl; intros [= <-]; done. Qed.
#[export] Instance KeepServer_working : WorkingBackend (SQLBackend KeepServer).
Proof.
  split.
  - done.
  - intros v k. simpl. unfold sb_discard. simpl. revert k. induction v as [|x v IH]; intros k; simpl; [done|]. apply IH.
  - intros v k. simpl. unfold sb_load. simpl. generalize (@nil ScTable) as done'. revert k.
    induction v as [|x v IH]; intros k done'; simpl; [by eexists|]. apply IH.
Qed.

Module Demo.
Local Open Scope string_scope.

Definition cell (a : ascii) : list (option bytes) := [Some [a]].
Definition object_id : list MYSQL_FIELD := [mkField "objectId" MYSQL_TYPE_LONGLONG 20 0 63 false].

(** Every query has three rows. *)
#[global] Instance server : DbServer (SQLBackend KeepServer) := {
  db_connects _ := true;
  db_config _ := "";
  db_query _ _ _ := QResult object_id [cell "1"; cell "2"; cell "3"] None;
  db_sqlError := mkError 0 "";
}.

(** Rows of a size that two of them exceed the desired limit; a message is sent as
    one character, and a header is empty. *)
#[global] Instance wire : Wire := {
  wr_rowBytes _ := 1500000;
  wr_md5 _ := "";
  wr_header _ := [];
  wr_result m := if rm_continues m then ["c"%char] else ["e"%char];
}.

Lemma header_small hd : (length (wr_header hd) < 255)%nat.
Proof. simpl. lia. Qed.

Lemma same_width : uniform (K := SQLBackend KeepServer) 1.
Proof. intros k q b fields rows e [= <- <- <-]. split; [done|]. repeat constructor; done. Qed.

Definition task : Task := Task_ctor 1 (mkTaskMsg 7 8 0 None (Some 5) [] 0 false).
(** Two sub-chunks of one table *)
Definition msg : QueryMsg :=
  mkQueryMsg None (Some "LSST") (Some 2)
    [mkFragment ["SELECT o.objectId FROM Subchunks_LSST_5.Object_5_" +:+ SUBCHUNK_TAG +:+ " o"]
       (Some (mkSubchunk (Some "LSST") [("LSST", "Object")] [11; 12]))].

Definition start (accepts : bool) : Run MemManNone (SQLBackend KeepServer) :=
  mkRun (mkQueryRunner "" false None [] false None false) (mkWorld (mkMemManNone true) ∅) (SsiChannel (SsiRequest_ctor accepts))
    (mkResources (newMgr (mkSQLBackend (mkKeepServer ∅))) []) (Some 3%nat) [] [] [].
Definition locals : Locals := mkLocals true false 0 0 0.

Abbreviation tables := (fun k : SQLBackend KeepServer => keep_tables (sb_server k)).

Lemma ready : task_ready 2 task msg tables (start true).
Proof.
  split; try done.
  - exists (SsiRequest_ctor true). repeat (split; [done|]). by left.
  - by eexists.
  - repeat constructor. done.
Qed.

Definition end_state : Run MemManNone (SQLBackend KeepServer) := (task_func 2 task msg (start true, locals)).1.1.

(** The queries, the sizes of the messages, and what becomes of the thread and the
    tables *)
Example queries_run :
  queries_of (rn_ran end_state) = ["SELECT o.objectId FROM Subchunks_LSST_5.Object_5_11 o"; "SELECT o.objectId FROM Subchunks_LSST_5.Object_5_12 o"] /\
  map (fun x => elements (keep_tables (sb_server x.1.1))) (rn_ran end_state) =
    [[(5, ("LSST", "Object"), 11); (5, ("LSST", "Object"), 12)]; [(5, ("LSST", "Object"), 11); (5, ("LSST", "Object"), 12)]] /\
  map (fun x => (length x.1, x.2)) (received (rn_channel end_state)) =
    [(256%nat, false); (1%nat, false); (256%nat, false); (1%nat, false); (256%nat, false); (1%nat, false); (256%nat, false); (1%nat, true)] /\
  rn_left end_state = [3%nat] /\ rs_live (rn_res end_state) = [].
Proof. vm_compute. done. Qed.
End Demo.



(** ** Where the code departs from what it means to do *)

(** Messages as the number of their rows and whether they report an error *)
Definition counting_wire (rowBytes : Z) : Wire := {|
  wr_rowBytes := fun _ => rowBytes;
  wr_md5 := fun _ => ""%string;
  wr_header := fun _ => [];
  wr_result := fun m => [ascii_of_nat (length (msg_rows m)); match rb_errormsg (rm_rows m) with None => "."%char | Some _ => "!"%char end];
|}.
Definition last_received (s : Run MemManNone (SQLBackend KeepServer)) : option (bytes * bool) := last (received (rn_channel s)).

(** A row that is larger than the hard limit ends the rows of its query; the rest
    is lost, the message is sent although it is too large, and the czar is not
    told.  Two of the six rows arrive. *)
Example oversized_row_unreported :
  let s := (task_func (HW := counting_wire 70000000) 2 Demo.task Demo.msg (Demo.start true, Demo.locals)).1.1 in
  length (rows_of (rn_ran s)) = 6%nat /\ last_received s = Some (["002"; "."]%char, true).
Proof. vm_compute. done. Qed.

(** The connection breaks after the first row: [mysql_fetch_row] returns null as at
    the end, and the result is sent as if it were complete. *)
Definition broken_server : DbServer (SQLBackend KeepServer) := {|
  db_connects := fun _ => true;
  db_config := fun _ => ""%string;
  db_query := fun _ _ _ => QResult Demo.object_id [Demo.cell "1"] (Some (mkError 2013 "Lost connection to MySQL server during query"));
  db_sqlError := mkError 0 "";
|}.
Example broken_result_unreported :
  let s := (task_func (HD := broken_server) (HW := counting_wire 10) 2 Demo.task Demo.msg (Demo.start true, Demo.locals)).1.1 in
  last_received s = Some (["002"; "."]%char, true).
Proof. vm_compute. done. Qed.

(** The network library refuses the response to a task that is not cancelled: the
    thread waits forever. *)
Example refused_task_blocks : (task_func 2 Demo.task Demo.msg (Demo.start false, Demo.locals)).2 = Raise Blocked.
Proof. vm_compute. done. Qed.
