(* ===== verification/QueryRunnerCancel.v ===== *)
(** * Running the queries of a task: cancelling

    The run of a task that other threads cancel at any time, compared with its run
    without them: until the runner is told, both do the same; afterwards it sends
    nothing. *)

From Stdlib Require Import Ascii String.
From S2P Require Import Prelude.
From S2P Require Import MemMan.
From S2P Require Import Task.
From S2P Require Import ChunkResource.
From S2P Require Import MergingHandler.
From S2P Require Import SendChannel.
From S2P Require Import QueryRunner.

(** What a channel has received only grows. *)
Lemma xrdssi_take_grows n r : sr_received r `prefix_of` sr_received (xrdssi_take n r).
Proof.
  revert r. induction n as [|n IH]; intros r; simpl; [done|]. destruct (sr_stream r) as [s|]; [|done].
  destruct (GetBuff s) as [[s' [[b last]|]]|e]; try done. etransitivity; [|apply IH]. simpl. by eexists.
Qed.

Lemma replyStream_received b last r : sr_received (replyStream b last r).1 = sr_received r.
Proof.
  unfold replyStream. destruct (sr_stream r) as [s|].
  - destruct (cs_closed s) eqn:E; [done|]. unfold cs_append. by rewrite E.
  - unfold SetResponse. by destruct (sr_accepts (sr_set_stream ChannelStream_ctor r)).
Qed.

Lemma sendStream_grows input last c : received c `prefix_of` received (ch_sendStream input last c).1.
Proof.
  destruct c as [r| |]; simpl; try done. pose proof (replyStream_received (mkStreamBuffer (sr_new r) input) last (createWithMove input r).1) as Hr.
  cbn [createWithMove fst] in Hr. destruct (replyStream _ _ _) as [r2 [sent|e]]; simpl in *; rewrite <- Hr; [|done].
  unfold xrdssi_run. destruct (decide _); [apply xrdssi_take_grows|done].
Qed.

Section runner.
Context {M : Type} `{HM : MemMan M} {K : Type} `{HK : Backend K} `{HD : !DbServer K} `{HW : Wire}.
Context (this : nat) (task : Task) (msg : QueryMsg).
Implicit Types (s : Run M K) (l : Locals) (w : World M).
Abbreviation R := (run (Run M K * Locals)).

Definition got (x : Run M K * Locals) : list (bytes * bool) := received (rn_channel x.1).
Definition cancelled (x : Run M K * Locals) : bool := qr_cancelled (rn_qr x.1).

(** ** The relation between the two runs *)

(** The flag of the task may be set in the first. *)
Definition same_world w w0 : Prop :=
  w_mm w = w_mm w0 /\ getMemHandle w task = getMemHandle w0 task /\ v_memMan (vars w task) = v_memMan (vars w0 task) /\
  (v_cancelled (vars w0 task) = true -> v_cancelled (vars w task) = true).

Record alike (x x0 : Run M K * Locals) : Prop := {
  al_qr : rn_qr x.1 = rn_qr x0.1;
  al_world : same_world (rn_world x.1) (rn_world x0.1);
  al_channel : rn_channel x.1 = rn_channel x0.1;
  al_res : rn_res x.1 = rn_res x0.1;
  al_ran : rn_ran x.1 = rn_ran x0.1;
  al_pool : rn_poolThread x.1 = rn_poolThread x0.1;
  al_left : rn_left x.1 = rn_left x0.1;
  al_sched : rn_sched x0.1 = [];
  al_go : cancelled x0 = false;
  al_local : x.2 = x0.2;
}.

(** The runs stay alike, or the first is cancelled and has sent no more. *)
Definition sim {A} (m : R A) : Prop := forall x x0, alike x x0 ->
  (alike (m x).1 (m x0).1 /\ (m x).2 = (m x0).2) \/ (cancelled (m x).1 = true /\ got (m x).1 `prefix_of` got (m x0).1).
(** A runner that is cancelled sends nothing. *)
Definition quiet {A} (m : R A) : Prop := forall x, cancelled x = true -> cancelled (m x).1 = true /\ got (m x).1 = got x.
Definition grows {A} (m : R A) : Prop := forall x, got x `prefix_of` got (m x).1.

Record tame {A} (m : R A) : Prop := { ta_sim : sim m; ta_quiet : quiet m; ta_grows : grows m }.

Lemma tame_ext {A} (m m' : R A) : (forall x, m x = m' x) -> tame m -> tame m'.
Proof.
  intros He [Hs Hq Hg]. split; intros x; rewrite <- ?He; [|apply Hq|apply Hg]. intros x0. rewrite <- !He. apply Hs.
Qed.

Lemma alike_got x x0 : alike x x0 -> got x = got x0.
Proof. intros []. unfold got. by rewrite al_channel0. Qed.

Lemma tame_bind {A B} (m : R A) (k : A -> R B) : tame m -> (forall a, tame (k a)) -> tame (run_bind m k).
Proof.
  intros Hm Hk. split.
  - intros x x0 Hx. unfold run_bind. pose proof (ta_sim _ Hm x x0 Hx) as Hs.
    destruct (m x) as [x1 r1], (m x0) as [x2 r2]. simpl in Hs. destruct Hs as [[Ha ->]|[Hc Hp]].
    + destruct r2 as [a|e]; [by apply (ta_sim _ (Hk a))|by left].
    + right. assert (Hp2 : got x2 `prefix_of` got (match r2 with Ret a => k a x2 | Raise e => (x2, Raise e) end).1).
      { destruct r2 as [a|e]; [apply (ta_grows _ (Hk a))|done]. }
      destruct r1 as [a|e]; [|split; [done|by etransitivity]].
      destruct (ta_quiet _ (Hk a) x1 Hc) as [Hc1 Hg1]. split; [done|]. rewrite Hg1. by etransitivity.
  - intros x Hc. unfold run_bind. pose proof (ta_quiet _ Hm x Hc) as [Hc1 Hg1]. destruct (m x) as [x1 [a|e]]; [|done].
    simpl in *. rewrite <- Hg1. by apply (ta_quiet _ (Hk a)).
  - intros x. unfold run_bind. pose proof (ta_grows _ Hm x) as Hg. destruct (m x) as [x1 [a|e]]; [|done].
    etransitivity; [exact Hg|]. apply (ta_grows _ (Hk a)).
Qed.

(** An operation that sends nothing and does the same in both runs *)
Lemma tame_local {A} (m : R A) :
  (forall x, got (m x).1 = got x) -> (forall x, cancelled x = true -> cancelled (m x).1 = true) ->
  (forall x x0, alike x x0 -> alike (m x).1 (m x0).1 /\ (m x).2 = (m x0).2) -> tame m.
Proof.
  intros Hg Hc Hs. split; [intros x x0 Hx; left; by apply Hs|intros x Hx; split; [by apply Hc|apply Hg]|intros x; by rewrite Hg].
Qed.

Lemma tame_ret {A} (a : A) : tame (run_ret a).
Proof. by apply tame_local. Qed.
Lemma tame_raise {A} e : tame (run_raise (A := A) e).
Proof. by apply tame_local. Qed.
Lemma tame_lift {A} (o : outcome A) : tame (run_lift o).
Proof. by apply tame_local. Qed.

Lemma tame_get_qr {A} (f : QueryRunner -> A) : tame (get_qr f).
Proof. apply tame_local; try done. intros x x0 Hx. split; [done|]. simpl. by rewrite (al_qr _ _ Hx). Qed.
Lemma tame_get_local {A} (f : Locals -> A) : tame (get_local f).
Proof. apply tame_local; try done. intros x x0 Hx. split; [done|]. simpl. by rewrite (al_local _ _ Hx). Qed.
Lemma tame_get_res {A} (f : Resources K -> A) : tame (run_get (fun x : Run M K * Locals => f (rn_res x.1))).
Proof. apply tame_local; try done. intros x x0 Hx. split; [done|]. simpl. by rewrite (al_res _ _ Hx). Qed.

Lemma tame_put_qr (f : QueryRunner -> QueryRunner) : (forall q, qr_cancelled (f q) = qr_cancelled q) -> tame (put_qr f).
Proof.
  intros Hf. apply tame_local.
  - by intros [s l].
  - intros [s l]. unfold cancelled. simpl. by rewrite Hf.
  - intros [s l] [s0 l0] []. split; [|done]. split; try done; simpl in *; [by rewrite al_qr0|]. unfold cancelled. simpl. by rewrite Hf.
Qed.
Lemma tame_put_local f : tame (put_local f).
Proof.
  apply tame_local; [by intros []|by intros []|]. intros [s l] [s0 l0] []. split; [|done]. split; try done. simpl in *. by rewrite al_local0.
Qed.
Lemma tame_leavePool : tame leavePool.
Proof.
  apply tame_local; [by intros []|by intros []|]. intros [s l] [s0 l0] []. split; [|done]. split; try done. simpl in *. by rewrite al_left0, al_pool0.
Qed.
Lemma tame_log q a : tame (log_query q a).
Proof.
  apply tame_local; [by intros []|by intros []|]. intros [s l] [s0 l0] []. split; [|done]. split; try done. simpl in *. by rewrite al_ran0, al_res0.
Qed.

(** An operation on the resources *)
Lemma tame_res (f : Resources K -> Resources K * outcome unit) :
  tame (fun '(s, l) => let '(w, r) := f (rn_res s) in
    ((mkRun (rn_qr s) (rn_world s) (rn_channel s) w (rn_poolThread s) (rn_left s) (rn_sched s) (rn_ran s), l), r)).
Proof.
  apply tame_local.
  - intros [s l]. by destruct (f (rn_res s)).
  - intros [s l]. by destruct (f (rn_res s)).
  - intros [s l] [s0 l0] []. simpl in *. rewrite al_res0. destruct (f (rn_res s0)). by split.
Qed.

(** ** Other threads *)

Lemma apply_event_keeps s ev :
  rn_channel (apply_event task s ev) = rn_channel s /\
  (qr_cancelled (rn_qr s) = true -> qr_cancelled (rn_qr (apply_event task s ev)) = true).
Proof. by destruct ev. Qed.

Lemma cancel_same_world w w0 : same_world w w0 -> same_world (cancel task w).1 w0.
Proof.
  unfold same_world, cancel, getMemHandle. intros (H1 & H2 & H3 & H4). destruct (v_cancelled (vars w task)) eqn:E; simpl; [by rewrite E|].
  by rewrite !vars_set_eq.
Qed.

Lemma events_alike evs s s0 l :
  alike (s, l) (s0, l) ->
  alike (foldl (apply_event task) s evs, l) (s0, l) \/
  (qr_cancelled (rn_qr (foldl (apply_event task) s evs)) = true /\ rn_channel (foldl (apply_event task) s evs) = rn_channel s).
Proof.
  assert (Hkeep : forall evs s, rn_channel (foldl (apply_event task) s evs) = rn_channel s /\
      (qr_cancelled (rn_qr s) = true -> qr_cancelled (rn_qr (foldl (apply_event task) s evs)) = true)).
  { intros evs'. induction evs' as [|ev evs' IH]; intros s'; simpl; [done|]. destruct (IH (apply_event task s' ev)) as [H1 H2].
    destruct (apply_event_keeps s' ev) as [H3 H4]. split; [congruence|auto]. }
  revert s. induction evs as [|ev evs IH]; intros s Ha; simpl; [by left|]. destruct ev as [|connects kills].
  - destruct (IH (apply_event task s CancelTask)) as [Hl|Hr]; [|by left|by right].
    destruct Ha. split; try done. simpl in *. by apply cancel_same_world.
  - right. destruct (Hkeep evs (apply_event task s (CancelRunner connects kills))) as [H1 H2]. split; [by apply H2|]. by rewrite H1.
Qed.

Lemma others_shape x : exists s evs sched, rn_channel s = rn_channel x.1 /\ rn_qr s = rn_qr x.1 /\
  s = mkRun (rn_qr x.1) (rn_world x.1) (rn_channel x.1) (rn_res x.1) (rn_poolThread x.1) (rn_left x.1) sched (rn_ran x.1) /\
  others task x = ((foldl (apply_event task) s evs, x.2), Ret tt).
Proof.
  destruct x as [s l]. unfold others, run_mod. simpl. destruct (rn_sched s) as [|evs sched] eqn:E.
  - exists s, [], []. split; [done|]. split; [done|]. split; [|done]. rewrite <- E. by destruct s.
  - exists (mkRun (rn_qr s) (rn_world s) (rn_channel s) (rn_res s) (rn_poolThread s) (rn_left s) sched (rn_ran s)), evs, sched. done.
Qed.

Lemma tame_others : tame (others task).
Proof.
  assert (Hkeep : forall x, got (others task x).1 = got x /\ (cancelled x = true -> cancelled (others task x).1 = true)).
  { intros x. destruct (others_shape x) as (s & evs & sched & Hc & Hq & _ & ->). unfold got, cancelled. simpl. rewrite <- Hc, <- Hq.
    clear. revert s. induction evs as [|ev evs IH]; intros s; simpl; [done|]. destruct (apply_event_keeps s ev) as [H1 H2].
    destruct (IH (apply_event task s ev)) as [H3 H4]. rewrite H3, H1. auto. }
  split; [|intros x Hx; destruct (Hkeep x); auto|intros x; by rewrite (proj1 (Hkeep x))].
  intros x x0 Hx. destruct (others_shape x) as (s & evs & sched & Hc & Hq & Hs & ->).
  assert (H0 : others task x0 = (x0, Ret tt)) by (destruct x0 as [s0 l0]; unfold others, run_mod; pose proof (al_sched _ _ Hx) as Hn; simpl in Hn; by rewrite Hn).
  rewrite H0. simpl. destruct x0 as [s0 l0], x as [s1 l1]. destruct Hx. simpl in *. subst l1.
  destruct (events_alike evs s s0 l0) as [Ha|[Hd Hch]]; [by subst s|left; by split|right]. split; [done|].
  unfold got. simpl. by rewrite Hch, Hc, al_channel0.
Qed.

Lemma tame_readCancelled : tame (readCancelled task).
Proof. apply tame_bind; [apply tame_others|intros; apply tame_get_qr]. Qed.

(** ** Sending *)

(** A buffer is sent unless the runner is cancelled. *)
Definition guarded_send (buf : bytes) (last : bool) : R unit :=
  run_bind (readCancelled task) (fun c => if c then run_ret tt else sendStream buf last).

Lemma sendStream_alike buf last (x x0 : Run M K * Locals) :
  alike x x0 -> alike (sendStream buf last x).1 (sendStream buf last x0).1 /\ (sendStream buf last x).2 = (sendStream buf last x0).2.
Proof.
  destruct x as [s l], x0 as [s0 l0]. intros []. unfold sendStream. simpl in *. rewrite al_channel0.
  destruct (ch_sendStream buf last (rn_channel s0)) as [c [b|e]]; by split.
Qed.

Lemma readCancelled_value x : (readCancelled task x).2 = Ret (cancelled (readCancelled task x).1).
Proof. unfold readCancelled, run_bind. destruct (others_shape x) as (s & evs & sched & _ & _ & _ & ->). done. Qed.

Lemma tame_guarded buf last : tame (guarded_send buf last).
Proof.
  assert (Hg : forall x : Run M K * Locals, got x `prefix_of` got (sendStream buf last x).1).
  { intros [s l]. unfold sendStream, got. simpl. pose proof (sendStream_grows buf last (rn_channel s)) as H.
    by destruct (ch_sendStream buf last (rn_channel s)). }
  split; unfold guarded_send, run_bind.
  - intros x x0 Hx. pose proof (readCancelled_value x) as Hv. pose proof (readCancelled_value x0) as Hv0.
    pose proof (ta_sim _ tame_readCancelled x x0 Hx) as Hs.
    destruct (readCancelled task x) as [x1 r1], (readCancelled task x0) as [x2 r2]. simpl in *. subst r1 r2.
    destruct Hs as [[Ha He]|[Hc Hp]].
    + injection He as Hc. rewrite Hc, (al_go _ _ Ha). left. by apply sendStream_alike.
    + rewrite Hc. simpl. right. split; [done|]. destruct (cancelled x2); [done|]. etransitivity; [exact Hp|apply Hg].
  - intros x Hx. pose proof (readCancelled_value x) as Hv. pose proof (ta_quiet _ tame_readCancelled x Hx) as [Hc Hgo].
    destruct (readCancelled task x) as [x1 r1]. simpl in *. subst r1. by rewrite Hc.
  - intros x. pose proof (readCancelled_value x) as Hv. pose proof (ta_grows _ tame_readCancelled x) as Hgo.
    destruct (readCancelled task x) as [x1 r1]. simpl in *. subst r1. destruct (cancelled x1); [done|]. etransitivity; [exact Hgo|apply Hg].
Qed.


Lemma tame_guarded_then {A} buf last (k : unit -> R A) :
  (forall u, tame (k u)) -> tame (run_bind (readCancelled task) (fun c => run_bind (if c then run_ret tt else sendStream buf last) k)).
Proof.
  intros Hk. apply (tame_ext (run_bind (guarded_send buf last) k)); [|by apply tame_bind; [apply tame_guarded|]].
  intros x. unfold guarded_send, run_bind. by destruct (readCancelled task x) as [x1 [c|e]].
Qed.

Create HintDb tame.
#[local] Hint Resolve tame_ret tame_raise tame_lift tame_get_qr tame_get_local tame_get_res tame_put_local tame_leavePool tame_log
  tame_others tame_readCancelled : tame.

Ltac tame_step :=
  lazymatch goal with
  | |- tame (run_bind (readCancelled _) (fun c => if c then run_ret tt else sendStream ?b ?last)) => apply (tame_guarded b last)
  | |- tame (run_bind (readCancelled _) (fun c => run_bind (if c then run_ret tt else sendStream ?b ?last) ?k)) =>
      apply tame_guarded_then; intros ?
  | |- tame (run_bind _ _) => apply tame_bind; [|intros ?]
  | |- tame (put_qr _) => apply tame_put_qr; by intros []
  | |- tame (run_get _) => apply (tame_get_res (fun y => cm_backend (rs_mgr y)))
  | |- tame (match ?x with _ => _ end) => destruct x
  | |- tame _ => solve [auto with tame]
  end.

Lemma tame_transmitHeader str : tame (transmitHeader task str).
Proof. unfold transmitHeader. repeat tame_step. Qed.
#[local] Hint Resolve tame_transmitHeader : tame.

Lemma tame_transmit last rowCount tSize : tame (transmit task last rowCount tSize).
Proof. unfold transmit. repeat tame_step. Qed.
#[local] Hint Resolve tame_transmit : tame.

Lemma tame_primeResult q : tame (primeResult task q).
Proof. unfold primeResult. repeat tame_step. Qed.

Lemma tame_with_result f : tame (with_result f).
Proof. unfold with_result. repeat tame_step. Qed.
Lemma tame_addRow row : tame (addRow row).
Proof. apply tame_with_result. Qed.
Lemma tame_fillSchema fields : tame (fillSchema fields).
Proof. apply tame_with_result. Qed.
#[local] Hint Resolve tame_primeResult tame_addRow tame_fillSchema : tame.

Lemma tame_initMsg : tame (initMsg msg).
Proof. unfold initMsg. repeat tame_step. Qed.
#[local] Hint Resolve tame_initMsg : tame.

Lemma tame_fillRows rows : tame (fillRows task msg rows).
Proof. induction rows as [|row rows IH]; simpl; repeat tame_step. Qed.
#[local] Hint Resolve tame_fillRows : tame.

Lemma tame_runOne q : tame (runOne task msg q).
Proof. unfold runOne, takeSchema. repeat tame_step. Qed.

Lemma tame_queries qs : tame (run_fold (fun _ => runOne task msg) tt qs).
Proof. induction qs as [|q qs IH]; simpl; [apply tame_ret|]. apply tame_bind; [apply tame_runOne|]. intros []. done. Qed.

(** A destructor, and a handler *)
Lemma tame_cleanup {A} (m : R A) (d : R unit) : tame m -> tame d -> tame (with_cleanup m d).
Proof.
  intros Hm Hd. unfold with_cleanup.
  set (unwinds := fun r : outcome A => match r with Ret _ => true | Raise e => thrown e end).
  assert (Hq : forall x r, cancelled x = true -> let y := (if unwinds r then let '(s2, r2) := d x in
      (s2, match r2 with Ret _ => r | Raise _ => Raise ProgramExit end) else (x, r)) in cancelled y.1 = true /\ got y.1 = got x).
  { intros x r Hx. pose proof (ta_quiet _ Hd x Hx) as H. destruct (unwinds r); [|done]. by destruct (d x). }
  assert (Hg : forall x r, got x `prefix_of` got ((if unwinds r then let '(s2, r2) := d x in
      (s2, match r2 with Ret _ => r | Raise _ => Raise ProgramExit end) else (x, r))).1).
  { intros x r. pose proof (ta_grows _ Hd x) as H. destruct (unwinds r); [|done]. by destruct (d x). }
  split.
  - intros x x0 Hx. pose proof (ta_sim _ Hm x x0 Hx) as Hs. destruct (m x) as [x1 r1], (m x0) as [x2 r2]. simpl in Hs.
    destruct Hs as [[Ha ->]|[Hc Hp]].
    + fold (unwinds r2). destruct (unwinds r2); [|by left]. pose proof (ta_sim _ Hd x1 x2 Ha) as Hs2.
      destruct (d x1) as [x3 r3], (d x2) as [x4 r4]. simpl in *. destruct Hs2 as [[? ->]|?]; [by left|by right].
    + right. destruct (Hq x1 r1 Hc) as [Hc1 Hg1]. split; [exact Hc1|]. specialize (Hg x2 r2). unfold unwinds in Hg1, Hg. rewrite Hg1.
      by etransitivity.
  - intros x Hx. destruct (ta_quiet _ Hm x Hx) as [Hc Hgo]. destruct (m x) as [x1 r1]. simpl in *. rewrite <- Hgo. apply (Hq x1 r1 Hc).
  - intros x. pose proof (ta_grows _ Hm x) as Hgo. destruct (m x) as [x1 r1]. etransitivity; [exact Hgo|apply (Hg x1 r1)].
Qed.

Definition is_sql (r : outcome unit) : bool := match r with Raise SqlError => true | _ => false end.

Lemma tame_catch (m h : R unit) : tame m -> tame h -> tame (catch_sql m h).
Proof.
  intros Hm Hh. apply (tame_ext (fun x => let '(x', r) := m x in if is_sql r then h x' else (x', r))).
  { intros x. unfold catch_sql. destruct (m x) as [x' [[]|[]]]; done. }
  split.
  - intros x x0 Hx. pose proof (ta_sim _ Hm x x0 Hx) as Hs. destruct (m x) as [x1 r1], (m x0) as [x2 r2]. simpl in Hs.
    destruct Hs as [[Ha ->]|[Hc Hp]].
    + destruct (is_sql r2); [by apply (ta_sim _ Hh)|by left].
    + right. assert (Hp2 : got x2 `prefix_of` got (if is_sql r2 then h x2 else (x2, r2)).1).
      { destruct (is_sql r2); [apply (ta_grows _ Hh)|done]. }
      destruct (is_sql r1); [|split; [done|by etransitivity]].
      destruct (ta_quiet _ Hh x1 Hc) as [? ->]. split; [done|by etransitivity].
  - intros x Hx. destruct (ta_quiet _ Hm x Hx) as [Hc Hgo]. destruct (m x) as [x1 r1]. simpl in *. rewrite <- Hgo.
    destruct (is_sql r1); [by apply (ta_quiet _ Hh)|done].
  - intros x. pose proof (ta_grows _ Hm x) as Hgo. destruct (m x) as [x1 r1]. etransitivity; [exact Hgo|].
    destruct (is_sql r1); [apply (ta_grows _ Hh)|done].
Qed.

Lemma tame_getResource f : tame (getResourceFragment task msg f).
Proof.
  unfold getResourceFragment. destruct (fr_subchunks f); [apply tame_res|]. destruct (qm_db msg); [apply tame_res|apply tame_raise].
Qed.

Lemma tame_fragments fs : tame (runFragments task msg fs).
Proof.
  induction fs as [|f fs IH]; simpl; [apply tame_ret|]. apply tame_bind; [apply tame_readCancelled|]. intros [|]; [apply tame_ret|].
  apply tame_bind; [apply tame_getResource|]. intros []. apply tame_bind; [|done]. apply tame_cleanup; [apply tame_queries|].
  unfold releaseFragment. apply (tame_res (fun y => resource_destroy (length (rs_live y) - 1) y)).
Qed.

Lemma tame_dispatch : tame (dispatchChannel task msg).
Proof.
  unfold dispatchChannel, initMsgs. repeat (tame_step || (apply tame_catch; [apply tame_fragments|])).
Qed.

(** ** The whole task *)

(** The first run has sent a part of what the second has. *)
Record mild {A} (m : R A) : Prop := {
  md_prefix : forall x x0, alike x x0 -> got (m x).1 `prefix_of` got (m x0).1;
  md_quiet : quiet m;
  md_grows : grows m;
}.

Lemma tame_mild {A} (m : R A) : tame m -> mild m.
Proof.
  intros []. split; [|done|done]. intros x x0 Hx. destruct (ta_sim0 x x0 Hx) as [[Ha _]|[_ Hp]]; [|done]. by rewrite (alike_got _ _ Ha).
Qed.

Lemma mild_bind {A B} (m : R A) (k : A -> R B) : tame m -> (forall a, mild (k a)) -> mild (run_bind m k).
Proof.
  intros Hm Hk.
  assert (Hg : forall x r, got x `prefix_of` got (match r with Ret a => k a x | Raise e => (x, Raise e) end).1).
  { intros x [a|e]; [apply (md_grows _ (Hk a))|done]. }
  assert (Hq : forall x r, cancelled x = true -> let y := (match r with Ret a => k a x | Raise e => (x, Raise e) end).1 in
      cancelled y = true /\ got y = got x).
  { intros x [a|e] Hx; [by apply (md_quiet _ (Hk a))|done]. }
  unfold run_bind. split.
  - intros x x0 Hx. pose proof (ta_sim _ Hm x x0 Hx) as Hs. destruct (m x) as [x1 r1], (m x0) as [x2 r2]. simpl in Hs.
    destruct Hs as [[Ha ->]|[Hc Hp]]; [destruct r2 as [a|e]; [by apply (md_prefix _ (Hk a))|simpl; by rewrite (alike_got _ _ Ha)]|].
    destruct (Hq x1 r1 Hc) as [_ ->]. etransitivity; [exact Hp|apply Hg].
  - intros x Hx. destruct (ta_quiet _ Hm x Hx) as [Hc Hgo]. destruct (m x) as [x1 r1]. simpl in *. rewrite <- Hgo. by apply Hq.
  - intros x. pose proof (ta_grows _ Hm x) as Hgo. destruct (m x) as [x1 r1]. etransitivity; [exact Hgo|apply Hg].
Qed.

(** Leaving when the task is found to be cancelled *)
Definition unless_cancelled (rest : R bool) : R bool :=
  run_bind (taskCancelled task) (fun c => if c then run_ret false else rest).

Definition flag (x : Run M K * Locals) : bool := v_cancelled (vars (rn_world x.1) task).

Lemma unless_cancelled_eq rest x :
  unless_cancelled rest x = let x1 := (others task x).1 in if flag x1 then (x1, Ret false) else rest x1.
Proof.
  unfold unless_cancelled, taskCancelled, run_bind. destruct (others_shape x) as (s & evs & sched & _ & _ & _ & ->). cbv zeta iota beta.
  cbn [run_get fst]. unfold flag. cbn [fst]. by destruct (v_cancelled _).
Qed.

Lemma mild_unless rest : mild rest -> mild (unless_cancelled rest).
Proof.
  intros [Hp Hq Hg]. pose proof tame_others as Ho. split.
  - intros x x0 Hx. rewrite !unless_cancelled_eq. cbv zeta. pose proof (ta_sim _ Ho x x0 Hx) as Hs.
    destruct (others task x) as [x1 r1], (others task x0) as [x2 r2]. simpl in *.
    assert (Hg2 : got x2 `prefix_of` got (if flag x2 then (x2, Ret false) else rest x2).1) by (destruct (flag x2); [done|apply Hg]).
    destruct Hs as [[Ha _]|[Hc Hpre]].
    + destruct (flag x1) eqn:E1; [simpl; by rewrite (alike_got _ _ Ha)|].
      assert (E2 : flag x2 = false). { destruct (flag x2) eqn:E2; [|done]. destruct Ha as [_ (_ & _ & _ & H)]. unfold flag in *. by rewrite (H E2) in E1. }
      rewrite E2. by apply Hp.
    + destruct (flag x1); [simpl; by etransitivity|]. destruct (Hq x1 Hc) as [_ ->]. by etransitivity.
  - intros x Hx. rewrite unless_cancelled_eq. cbv zeta. destruct (ta_quiet _ Ho x Hx) as [Hc Hgo].
    destruct (flag _); [done|]. rewrite <- Hgo. by apply Hq.
  - intros x. rewrite unless_cancelled_eq. cbv zeta. pose proof (ta_grows _ Ho x) as Hgo. destruct (flag _); [done|].
    etransitivity; [exact Hgo|apply Hg].
Qed.

Lemma tame_waitMem : tame (waitMem task).
Proof.
  apply tame_local.
  - intros [s l]. unfold waitMem. by destruct (waitForMemMan task (rn_world s)).
  - intros [s l]. unfold waitMem. by destruct (waitForMemMan task (rn_world s)).
  - intros [s l] [s0 l0] []. simpl in *. subst l0. unfold waitMem.
    assert (Hw : (exists w w0, waitForMemMan task (rn_world s) = Ret w /\ waitForMemMan task (rn_world s0) = Ret w0 /\ same_world w w0) \/
                 (exists e, waitForMemMan task (rn_world s) = Raise e /\ waitForMemMan task (rn_world s0) = Raise e)).
    { destruct al_world0 as (H1 & H2 & H3 & H4). unfold waitForMemMan. rewrite H1, H2, H3. destruct (v_memMan (vars (rn_world s0) task)) eqn:E.
      - destruct (mm_lock _ _ _) as [[m rc]|e]; simpl; [left|right; by eexists]. eexists _, _. split; [done|]. split; [done|].
        unfold same_world, getMemHandle in *. rewrite !vars_set_eq, !vars_set_mm. simpl. by rewrite E.
      - simpl. left. eexists _, _. split; [done|]. split; [done|]. unfold same_world, getMemHandle in *. rewrite !vars_set_eq. simpl. by rewrite E. }
    destruct Hw as [(w & w0 & -> & -> & Hw)|(e & -> & ->)]; by split.
Qed.

Lemma mild_body : mild (runQuery_body task msg).
Proof.
  unfold runQuery_body. apply (mild_unless (run_bind (waitMem task) (fun _ => unless_cancelled _))).
  apply mild_bind; [apply tame_waitMem|]. intros _. apply mild_unless, tame_mild. unfold setDb, initConnection, initMsgs.
  repeat (tame_step || apply tame_dispatch).
Qed.

Lemma runQuery_got x : got (runQuery this task msg x).1 = got (runQuery_body task msg x).1.
Proof. unfold runQuery, with_cleanup. destruct (runQuery_body task msg x) as [[s l] [b|e]]; [done|]. by destruct (thrown e). Qed.

Lemma others_got x : got (others task x).1 = got x.
Proof.
  destruct (others_shape x) as (s & evs & sched & Hc & _ & _ & ->). unfold got. simpl. rewrite <- Hc. clear. revert s.
  induction evs as [|ev evs IH]; intros s; simpl; [done|]. rewrite IH. by rewrite (proj1 (apply_event_keeps s ev)).
Qed.

Lemma others_flag x : flag x = true -> flag (others task x).1 = true.
Proof.
  destruct (others_shape x) as (s & evs & sched & _ & _ & Hs & ->). intros Hf. assert (Hw : flag (s, x.2) = true) by (by rewrite Hs).
  clear Hs Hf. revert s Hw. induction evs as [|ev evs IH]; intros s Hw; simpl; [done|]. apply IH. destruct ev; [|done].
  unfold flag in *. cbn [fst apply_event rn_world] in *. unfold cancel. by destruct (v_cancelled (vars (rn_world s) task)) eqn:E.
Qed.

(** A task that is cancelled before it begins *)
Lemma body_flag x : flag x = true -> got (runQuery_body task msg x).1 = got x.
Proof.
  intros Hf. change (runQuery_body task msg x) with (unless_cancelled (run_bind (waitMem task) (fun _ => run_bind (taskCancelled task)
    (fun c => if c then run_ret false else run_bind (setDb msg) (fun _ => run_bind (initConnection task) (fun connOk =>
      if negb connOk then run_bind (initMsgs msg) (fun _ => run_bind (transmit task true 0 0) (fun _ => run_ret false))
      else if bool_decide (qm_protocol msg = Some 2) then dispatchChannel task msg else run_raise RuntimeError))))) x).
  rewrite unless_cancelled_eq. cbv zeta. rewrite others_flag by done. apply others_got.
Qed.

Lemma unsupported_got x : got (unsupported task x).1 = got x.
Proof.
  unfold unsupported, taskCancelled, run_bind. pose proof (others_got x) as Hgo. destruct (others task x) as [[s l] [u|e]]; [|done].
  simpl in *. destruct (v_cancelled _); [done|]. rewrite <- Hgo. unfold got. simpl. destruct (rn_channel s) as [r| |]; simpl; try done.
  unfold replyError, SetResponse. by destruct (sr_accepts r).
Qed.

(** C19. Whatever other threads do to cancel a task, and whenever: what it sends is
    a beginning of what it sends when it is left alone. *)
Theorem cancelled_task_prefix s l sched :
  let with_sched sched :=
    mkRun (rn_qr s) (rn_world s) (rn_channel s) (rn_res s) (rn_poolThread s) (rn_left s) sched (rn_ran s) in
  let sent sched := received (rn_channel (task_func this task msg (with_sched sched, l)).1.1) in
  sent sched `prefix_of` sent [].
Proof.
  intros with_sched sent. unfold sent, task_func. destruct (qm_protocol msg) as [p|]; cycle 1.
  { change (got (unsupported task (with_sched sched, l)).1 `prefix_of` got (unsupported task (with_sched [], l)).1). by rewrite !unsupported_got. }
  destruct (p <? 2); [change (got (unsupported task (with_sched sched, l)).1 `prefix_of` got (unsupported task (with_sched [], l)).1); by rewrite !unsupported_got|].
  assert (Hrun : forall x : Run M K * Locals, received (rn_channel (run_bind (newQueryRunner this task) (fun _ => run_bind (runQuery this task msg) (fun _ => run_ret tt)) x).1.1) =
    got (runQuery_body task msg (newQueryRunner this task x).1).1).
  { intros [s' l']. rewrite <- runQuery_got. unfold run_bind. simpl. by destruct (runQuery this task msg _) as [x1 [b|e]]. }
  rewrite !Hrun. destruct (v_cancelled (vars (rn_world s) task)) eqn:E.
  - rewrite body_flag; [exact (md_grows _ mild_body (newQueryRunner this task (with_sched [], l)).1)|]. unfold flag, newQueryRunner, setTaskQueryRunner. simpl. by rewrite vars_set_eq.
  - apply (md_prefix _ mild_body). unfold newQueryRunner, setTaskQueryRunner. simpl. split; try done.
Qed.
End runner.
