(* ===== verification/ChunkInventory.v ===== *)
(** * The chunks of a worker

    [wpublish/ResourceMonitor] and [wpublish/ChunkInventory]: how many requests use
    a resource, and which chunks a worker has.  A worker keeps the list of its
    chunks in memory and in tables of its database.

    The database is a parameter, [ChunkDb]: one operation per statement, without
    the text of the statement; a connection that cannot be made is a statement
    that fails.  Maps and sets of the standard library are ordered; [exist_list] is
    the order in which the loops visit the chunks.  Each method holds its mutex
    and is one function. *)

From Stdlib Require Import Ascii String.
From S2P Require Import Prelude.
From S2P Require Import StdString.
From S2P Require Import ResourceUnit.

Local Open Scope Z_scope.

(** ** [class ResourceMonitor] *)

Abbreviation ResourceCounter := (gmap string Z).
Implicit Types (rc : ResourceCounter).

(** [void increment(resource)] and [void decrement(resource)]; counts are
    [unsigned int]. *)
Definition rm_increment (resource : string) rc : ResourceCounter :=
  <[resource := wrap32 (default 0 (rc !! resource) + 1)]> rc.
Definition rm_decrement (resource : string) rc : ResourceCounter :=
  match rc !! resource with
  | None => rc
  | Some n => let n' := wrap32 (n - 1) in if n' =? 0 then delete resource rc else <[resource := n']> rc
  end.

(** [unsigned int count(resource)], [count(chunk, db)], [count(chunk, dbs)] *)
Definition rm_count (resource : string) rc : Z := default 0 (rc !! resource).
Definition rm_count_chunk (chunk : Z) (db : string) rc : Z := rm_count (makePath chunk db) rc.
Definition rm_count_dbs (chunk : Z) (dbs : list string) rc : Z :=
  foldl (fun result db => wrap32 (result + rm_count_chunk chunk db rc)) 0 dbs.

(** ** [class ChunkInventory] *)

Abbreviation ExistMap := (gmap string (gset Z)).
Implicit Types (em : ExistMap).

Record ChunkInventory := mkChunkInventory { ci_existMap : ExistMap; ci_name : string; ci_id : string }.
Implicit Types (ci : ChunkInventory).

Definition set_existMap em ci : ChunkInventory := mkChunkInventory em (ci_name ci) (ci_id ci).

(** The chunks of a map in its order *)
Definition exist_list em : list (string * Z) :=
  db ← std_sort String.ltb (elements (dom em)); (fun c => (db, c)) <$> std_sort Z.ltb (elements (default ∅ (em !! db))).

(** [void add(db, chunk)], [void remove(db, chunk)], [bool has(db, chunk)],
    [void resetId(id)] *)
Definition em_insert (db : string) (chunk : Z) em : ExistMap := <[db := {[chunk]} ∪ default ∅ (em !! db)]> em.
Definition ci_add (db : string) (chunk : Z) ci : ChunkInventory := set_existMap (em_insert db chunk (ci_existMap ci)) ci.
Definition ci_remove (db : string) (chunk : Z) ci : ChunkInventory :=
  match ci_existMap ci !! db with
  | None => ci
  | Some chunks =>
      if decide (chunk ∈ chunks) then set_existMap (<[db := chunks ∖ {[chunk]}]> (ci_existMap ci)) ci else ci
  end.
Definition em_has (db : string) (chunk : Z) em : bool :=
  match em !! db with None => false | Some chunks => bool_decide (chunk ∈ chunks) end.
Definition ci_has (db : string) (chunk : Z) ci : bool := em_has db chunk (ci_existMap ci).
Definition resetId (id : string) ci : ChunkInventory := mkChunkInventory (ci_existMap ci) (ci_name ci) id.

(** [ExistMap operator-(lhs, rhs)] *)
Definition em_minus (lhs rhs : ExistMap) : ExistMap :=
  foldl (fun result db =>
    let chunks := default ∅ (lhs !! db) in
    match rhs !! db with
    | Some there => foldl (fun result chunk => if decide (chunk ∈ there) then result else em_insert db chunk result) result
                      (std_sort Z.ltb (elements chunks))
    | None => <[db := chunks]> result
    end) ∅ (std_sort String.ltb (elements (dom lhs))).

(** [class Validator] *)
Definition validator ci (ru : ResourceUnit) : bool :=
  match ru_unitType ru with
  | DBCHUNK => ci_has (ru_db ru) (ru_chunk ru) ci
  | WORKER => String.eqb (ci_id ci) (ru_hashName ru)
  | _ => false
  end.

(** ** The tables of the worker *)

(** The statements of [fetchDbs], [fetchChunks] (the column of chunk numbers) and
    [fetchId] (the first row), with [None] for an error, and those that change the
    table of chunks, with whether they succeed. *)
Class ChunkDb (D : Type) := {
  cd_fetchDbs : string -> D -> option (list string);
  cd_fetchChunks : string -> string -> D -> option (list string);
  cd_fetchId : string -> D -> option (option string);
  cd_deleteChunk : string -> string -> Z -> D -> D * bool;
  cd_insertChunk : string -> string -> Z -> D -> D * bool;
  cd_deleteAll : string -> D -> D * bool;
  cd_insertFound : string -> D -> D * bool;
}.

(** [class InvalidParamError], [class QueryError], and other exceptions *)
Inductive InvError := InvalidParamError | QueryError | OtherError (e : exn).

Section database.
Context {D : Type} `{ChunkDb D}.
Implicit Types (d : D).

(** [fetchDbs], [fetchChunks] and [fetchId]: an error is only logged. *)
Definition fetchDbs (name : string) d : list string := default [] (cd_fetchDbs name d).
Definition fetchChunks (name db : string) (chunks : gset Z) d : outcome (gset Z) :=
  foldM (fun chunks x => let? chunk := stoi x in Ret ({[chunk]} ∪ chunks)) chunks (default [] (cd_fetchChunks name db d)).
Definition fetchId (name id : string) d : string := match cd_fetchId name d with Some (Some id') => id' | _ => id end.

(** [void _init(sc)] *)
Definition ci_init_ d ci : outcome ChunkInventory :=
  let? em := foldM (fun em db => let? chunks := fetchChunks (ci_name ci) db (default ∅ (em !! db)) d in Ret (<[db := chunks]> em))
               ∅ (fetchDbs (ci_name ci) d) in
  Ret (mkChunkInventory em (ci_name ci) (fetchId (ci_name ci) (ci_id ci) d)).
(** [void init(name, mySqlConfig)], and the constructors *)
Definition ci_init (name : string) d ci : outcome ChunkInventory :=
  ci_init_ d (mkChunkInventory (ci_existMap ci) name (ci_id ci)).
Definition ChunkInventory_default : ChunkInventory := mkChunkInventory ∅ "" "".
Definition ChunkInventory_ctor (name : string) d : outcome ChunkInventory := ci_init_ d (mkChunkInventory ∅ name "").

(** Statements one after the other *)
Fixpoint run_queries (qs : list (D -> D * bool)) d : D * bool :=
  match qs with
  | [] => (d, true)
  | q :: qs' => let '(d', ok) := q d in if ok : bool then run_queries qs' d' else (d', false)
  end.

(** [void _rebuild(sc)] and [void rebuild(name, mySqlConfig)] *)
Definition ci_rebuild (name : string) d ci : D * (InvError + ChunkInventory) :=
  let '(d', ok) := run_queries [cd_deleteAll name; cd_insertFound name] d in
  if ok then (d', match ci_init name d' ci with Ret ci' => inr ci' | Raise e => inl (OtherError e) end)
  else (d', inl QueryError).

(** [void add(db, chunk, mySqlConfig)] *)
Definition ci_add_db (db : string) (chunk : Z) ci d : ChunkInventory * D * (InvError + unit) :=
  if decide (db ∈ fetchDbs (ci_name ci) d) then
    let '(d', ok) := run_queries [cd_deleteChunk (ci_name ci) db chunk; cd_insertChunk (ci_name ci) db chunk] d in
    if ok then (ci_add db chunk ci, d', inr tt) else (ci, d', inl QueryError)
  else (ci, d, inl InvalidParamError).

(** [void remove(db, chunk, mySqlConfig)] *)
Definition ci_remove_db (db : string) (chunk : Z) ci d : ChunkInventory * D * (InvError + unit) :=
  let '(d', ok) := run_queries [cd_deleteChunk (ci_name ci) db chunk] d in
  if ok then (ci_remove db chunk ci, d', inr tt) else (ci, d', inl QueryError).
End database.

(** ** Lemmas *)

Lemma em_has_true db c em : em_has db c em = true <-> c ∈ default ∅ (em !! db).
Proof. unfold em_has. destruct (em !! db); simpl; [by rewrite bool_decide_eq_true|set_solver]. Qed.

Lemma em_has_insert db c em db' c' : em_has db' c' (em_insert db c em) = bool_decide (db = db' /\ c = c') || em_has db' c' em.
Proof.
  apply eq_true_iff_eq. rewrite orb_true_iff, bool_decide_eq_true, !em_has_true. unfold em_insert.
  destruct (decide (db = db')) as [<-|Hne]; [rewrite lookup_insert_eq; simpl; set_solver|rewrite lookup_insert_ne by done; naive_solver].
Qed.

Lemma has_add db c ci db' c' : ci_has db' c' (ci_add db c ci) = bool_decide (db = db' /\ c = c') || ci_has db' c' ci.
Proof. apply em_has_insert. Qed.

Lemma has_remove db c ci db' c' : ci_has db' c' (ci_remove db c ci) = negb (bool_decide (db = db' /\ c = c')) && ci_has db' c' ci.
Proof.
  apply eq_true_iff_eq. unfold ci_has. rewrite andb_true_iff, negb_true_iff, bool_decide_eq_false, !em_has_true. unfold ci_remove.
  destruct (ci_existMap ci !! db) as [chunks|] eqn:E; [destruct (decide (c ∈ chunks)) as [Hc|Hc]|]; simpl.
  - destruct (decide (db = db')) as [<-|Hne]; [rewrite lookup_insert_eq, E; simpl; set_solver|rewrite lookup_insert_ne by done; naive_solver].
  - destruct (decide (db = db')) as [<-|Hne]; [rewrite E; simpl; set_solver|naive_solver].
  - destruct (decide (db = db')) as [<-|Hne]; [rewrite E; simpl; set_solver|naive_solver].
Qed.

Lemma elem_of_exist_list em db c : (db, c) ∈ exist_list em <-> em_has db c em = true.
Proof.
  rewrite em_has_true. unfold exist_list. rewrite list_elem_of_bind. setoid_rewrite list_elem_of_fmap. split.
  - intros (db' & (c' & [= -> ->] & Hc) & _). by rewrite std_sort_Permutation, elem_of_elements in Hc.
  - intros Hc. exists db. split; [exists c; by rewrite std_sort_Permutation, elem_of_elements|].
    rewrite std_sort_Permutation, elem_of_elements, elem_of_dom. destruct (em !! db); [by eexists|set_solver].
Qed.

Lemma foldl_minus db (there : gset Z) (chunks : list Z) result db' c' :
  em_has db' c' (foldl (fun result chunk => if decide (chunk ∈ there) then result else em_insert db chunk result) result chunks) =
  bool_decide (db = db' /\ c' ∈ chunks /\ c' ∉ there) || em_has db' c' result.
Proof.
  revert result. induction chunks as [|c chunks IH]; intros result; simpl.
  { rewrite bool_decide_false; [done|]. by intros (_ & ?%elem_of_nil & _). }
  rewrite IH. apply eq_true_iff_eq. destruct (decide (c ∈ there)) as [Hin|Hin]; rewrite ?em_has_insert, !orb_true_iff, !bool_decide_eq_true; set_solver.
Qed.

(** [operator-] is the difference. *)
Lemma minus_has lhs rhs db c : em_has db c (em_minus lhs rhs) = em_has db c lhs && negb (em_has db c rhs).
Proof.
  unfold em_minus. set (step := fun result db => _).
  assert (Hstep : forall x result y z, (forall z, em_has x z result = false) ->
      em_has y z (step result x) = (bool_decide (x = y) && em_has y z lhs && negb (em_has y z rhs)) || em_has y z result).
  { intros x result y z Hx. apply eq_true_iff_eq. rewrite orb_true_iff, !andb_true_iff, negb_true_iff, <- not_true_iff_false, bool_decide_eq_true, !em_has_true.
    unfold step. destruct (rhs !! x) as [there|] eqn:E.
    - rewrite <- em_has_true, foldl_minus, orb_true_iff, bool_decide_eq_true, em_has_true, std_sort_Permutation, elem_of_elements.
      destruct (decide (x = y)) as [<-|Hne]; [rewrite E; simpl; tauto|tauto].
    - destruct (decide (x = y)) as [<-|Hne]; [rewrite lookup_insert_eq, E; simpl|rewrite lookup_insert_ne by done; tauto].
      specialize (Hx z). rewrite <- not_true_iff_false, em_has_true in Hx. set_solver. }
  assert (Hgen : forall dbs result, NoDup dbs -> (forall x z, x ∈ dbs -> em_has x z result = false) ->
      em_has db c (foldl step result dbs) = (bool_decide (db ∈ dbs) && em_has db c lhs && negb (em_has db c rhs)) || em_has db c result).
  { intros dbs. induction dbs as [|x dbs IH]; intros result Hnd Hnone; cbn [foldl]; [by rewrite bool_decide_false by set_solver|].
    apply NoDup_cons in Hnd as [Hx Hnd]. rewrite IH, Hstep; [|intros z; apply Hnone; by left|done|].
    - repeat case_bool_decide; simpl; try done; try set_solver; destruct (em_has db c lhs), (em_has db c rhs), (em_has db c result); done.
    - intros y z Hy. rewrite Hstep by (intros z'; apply Hnone; by left). rewrite (bool_decide_false (x = y)) by naive_solver. simpl.
      apply Hnone. by right. }
  rewrite Hgen.
  - rewrite orb_false_r. case_bool_decide as Hin; [done|]. simpl. rewrite std_sort_Permutation, elem_of_elements, not_elem_of_dom in Hin.
    unfold em_has. by rewrite Hin.
  - rewrite std_sort_Permutation. apply NoDup_elements.
  - done.
Qed.
