(* ===== verification/WorkerCommands.v ===== *)
(** * Commands that manage the chunks of a worker

    [wpublish/AddChunkGroupCommand], [RemoveChunkGroupCommand],
    [SetChunkListCommand], [ChunkListCommand], [GetChunkListCommand] and
    [TestEchoCommand], with [xrdsvc/SsiProvider]: each chunk is announced to the
    cluster (XRootD) and recorded in the list of the provider, in the list of the
    service and in the tables of the worker.

    A command is one function: commands that run at the same time are not
    interleaved.  The cluster manager is the set of the resources it was told of.
    The texts of errors and the framing of replies are left out. *)

From Stdlib Require Import Ascii String.
From S2P Require Import Prelude.
From S2P Require Import StdString.
From S2P Require Import ResourceUnit.
From S2P Require Import ChunkInventory.

Local Open Scope Z_scope.

(** ** Messages *)

(** The values of [Status] of the replies *)
Module Status.
Inductive t := SUCCESS | INVALID | IN_USE | ERROR.
End Status.

(** A chunk in a reply: database, number, use count *)
Abbreviation CommandChunk := (string * Z * Z)%type.

Inductive Reply :=
| ChunkGroupR (status : Status.t)
| SetChunkListR (status : Status.t) (chunks : list CommandChunk)
| UpdateChunkListR (status : Status.t) (added removed : list (string * Z))
| GetChunkListR (chunks : list CommandChunk)
| TestEchoR (value : string).

Inductive Command :=
| AddChunkGroup (chunk : Z) (dbs : list string)
| RemoveChunkGroup (chunk : Z) (dbs : list string) (force : bool)
| SetChunkList (chunks : list (string * Z)) (force : bool)
| UpdateChunkList (rebuild reload : bool)
| GetChunkList
| TestEcho (value : string).

(** ** State *)

(** The list of the service, the list of the provider, whether the cluster manager
    has a data context, the resources that it was told of, the tables, and the
    counts of the requests. *)
Record Publisher (D : Type) := mkPublisher {
  pb_inventory : ChunkInventory;
  pb_provider : ChunkInventory;
  pb_dataContext : bool;
  pb_announced : gset string;
  pb_db : D;
  pb_monitor : ResourceCounter;
}.
Arguments mkPublisher {D}.
Arguments pb_inventory {D}.
Arguments pb_provider {D}.
Arguments pb_dataContext {D}.
Arguments pb_announced {D}.
Arguments pb_db {D}.
Arguments pb_monitor {D}.

Definition chunk_resource (db : string) (chunk : Z) : string := "/chk/" +:+ db +:+ "/" +:+ to_string chunk.

Section commands.
Context {D : Type} `{ChunkDb D} (xrdName : string).
Implicit Types (p : Publisher D).

Definition set_inventory (ci : ChunkInventory) (d : D) p : Publisher D :=
  mkPublisher ci (pb_provider p) (pb_dataContext p) (pb_announced p) d (pb_monitor p).

(** [clusterManager->Added(resource)], [Removed(resource)] and the update of the list
    of the provider *)
Definition announce (db : string) (chunk : Z) p : Publisher D :=
  mkPublisher (pb_inventory p) (if pb_dataContext p then ci_add db chunk (pb_provider p) else pb_provider p) (pb_dataContext p)
    ({[chunk_resource db chunk]} ∪ pb_announced p) (pb_db p) (pb_monitor p).
Definition withdraw (db : string) (chunk : Z) p : Publisher D :=
  mkPublisher (pb_inventory p) (if pb_dataContext p then ci_remove db chunk (pb_provider p) else pb_provider p) (pb_dataContext p)
    (pb_announced p ∖ {[chunk_resource db chunk]}) (pb_db p) (pb_monitor p).

(** The [try] blocks of the commands, with and without the tables *)
Definition add_chunk (x : string * Z) p : Publisher D * (InvError + unit) :=
  let p := announce x.1 x.2 p in
  let '(ci, d, r) := ci_add_db x.1 x.2 (pb_inventory p) (pb_db p) in (set_inventory ci d p, r).
Definition remove_chunk (x : string * Z) p : Publisher D * (InvError + unit) :=
  let p := withdraw x.1 x.2 p in
  let '(ci, d, r) := ci_remove_db x.1 x.2 (pb_inventory p) (pb_db p) in (set_inventory ci d p, r).
Definition add_listed (x : string * Z) p : Publisher D * (InvError + unit) :=
  let p := announce x.1 x.2 p in (set_inventory (ci_add x.1 x.2 (pb_inventory p)) (pb_db p) p, inr tt).
Definition remove_listed (x : string * Z) p : Publisher D * (InvError + unit) :=
  let p := withdraw x.1 x.2 p in (set_inventory (ci_remove x.1 x.2 (pb_inventory p)) (pb_db p) p, inr tt).

(** A loop that ends at the first exception *)
Fixpoint each (f : string * Z -> Publisher D -> Publisher D * (InvError + unit)) (l : list (string * Z)) p : Publisher D * (InvError + unit) :=
  match l with
  | [] => (p, inr tt)
  | x :: l' => let '(p', r) := f x p in match r with inr _ => each f l' p' | inl e => (p', inl e) end
  end.

(** The status that an exception is reported with *)
Definition error_status (e : InvError) : Status.t :=
  match e with InvalidParamError => Status.INVALID | QueryError | OtherError _ => Status.ERROR end.

(** ** [AddChunkGroupCommand::run] *)
Definition run_addChunkGroup (chunk : Z) (databases : list string) p : Publisher D * Reply :=
  if bool_decide (databases = []) then (p, ChunkGroupR Status.INVALID)
  else let '(p', r) := each add_chunk (map (fun db => (db, chunk)) databases) p in
       (p', ChunkGroupR (match r with inr _ => Status.SUCCESS | inl e => error_status e end)).

(** ** [RemoveChunkGroupCommand::run] *)
Definition run_removeChunkGroup (chunk : Z) (dbs : list string) (force : bool) p : Publisher D * Reply :=
  if bool_decide (dbs = []) then (p, ChunkGroupR Status.INVALID)
  else if negb force && negb (rm_count_dbs chunk dbs (pb_monitor p) =? 0) then (p, ChunkGroupR Status.IN_USE)
  else
    let '(p', r) := each remove_chunk (map (fun db => (db, chunk)) dbs) p in
    (p', ChunkGroupR (match r with
                      | inl e => error_status e
                      | inr _ => if rm_count_dbs chunk dbs (pb_monitor p') =? 0 then Status.SUCCESS else Status.IN_USE
                      end)).

(** ** [SetChunkListCommand] *)

(** [void setChunks(reply, prevExistMap)], and the loop of [GetChunkListCommand] *)
Definition setChunks (em : ExistMap) (rc : ResourceCounter) : list CommandChunk :=
  map (fun x => (x, rm_count_chunk x.2 x.1 rc)) (exist_list em).

(** [void run()] *)
Definition newExistMap (chunks : list (string * Z)) : ExistMap := foldl (fun em x => em_insert x.1 x.2 em) ∅ chunks.
Definition run_setChunkList (chunks : list (string * Z)) (force : bool) p : Publisher D * Reply :=
  let prevExistMap := ci_existMap (pb_inventory p) in
  let toBeRemovedExistMap := em_minus prevExistMap (newExistMap chunks) in
  let toBeAddedExistMap := em_minus (newExistMap chunks) prevExistMap in
  if negb force && existsb (fun x => negb (rm_count_chunk x.2 x.1 (pb_monitor p) =? 0)) (exist_list toBeRemovedExistMap)
  then (p, SetChunkListR Status.IN_USE (setChunks prevExistMap (pb_monitor p)))
  else
    let '(p1, r1) := each remove_chunk (exist_list toBeRemovedExistMap) p in
    match r1 with
    | inl e => (p1, SetChunkListR (error_status e) (setChunks prevExistMap (pb_monitor p1)))
    | inr _ =>
        let '(p2, r2) := each add_chunk (exist_list toBeAddedExistMap) p1 in
        (p2, SetChunkListR (match r2 with inr _ => Status.SUCCESS | inl e => error_status e end)
               (setChunks prevExistMap (pb_monitor p2)))
    end.

(** ** [ChunkListCommand::run] *)

Definition reload_chunks p : Publisher D * Reply :=
  match ci_init xrdName (pb_db p) ChunkInventory_default with
  | Raise _ => (p, UpdateChunkListR Status.ERROR [] [])
  | Ret newChunkInventory =>
      let removedChunks := exist_list (em_minus (ci_existMap (pb_inventory p)) (ci_existMap newChunkInventory)) in
      let addedChunks := exist_list (em_minus (ci_existMap newChunkInventory) (ci_existMap (pb_inventory p))) in
      let '(p1, _) := each remove_listed removedChunks p in
      let '(p2, _) := each add_listed addedChunks p1 in
      (p2, UpdateChunkListR Status.SUCCESS addedChunks removedChunks)
  end.
Definition run_chunkList (rebuild reload : bool) p : Publisher D * Reply :=
  let '(p1, ok) :=
    if rebuild then
      let '(d, r) := ci_rebuild xrdName (pb_db p) ChunkInventory_default in
      (set_inventory (pb_inventory p) d p, match r with inr _ => true | inl _ => false end)
    else (p, true) in
  if negb ok then (p1, UpdateChunkListR Status.ERROR [] [])
  else if reload then reload_chunks p1 else (p1, UpdateChunkListR Status.SUCCESS [] []).

(** ** [GetChunkListCommand::run] and [TestEchoCommand::run] *)
Definition run_getChunkList p : Publisher D * Reply :=
  (p, GetChunkListR (setChunks (ci_existMap (pb_inventory p)) (pb_monitor p))).

(** [run()] of the command that [parseWorkerCommand] makes; a rebuild without [reload]
    and a mere reload are the classes [RebuildChunkListCommand] and
    [ReloadChunkListCommand]. *)
Definition run_command (c : Command) p : Publisher D * Reply :=
  match c with
  | AddChunkGroup chunk dbs => run_addChunkGroup chunk dbs p
  | RemoveChunkGroup chunk dbs force => run_removeChunkGroup chunk dbs force p
  | SetChunkList chunks force => run_setChunkList chunks force p
  | UpdateChunkList true reload => run_chunkList true reload p
  | UpdateChunkList false _ => run_chunkList false true p
  | GetChunkList => run_getChunkList p
  | TestEcho value => (p, TestEchoR value)
  end.

(** ** [class SsiProviderServer] *)

Inductive rStat := isPresent | notPresent.

(** [rStat QueryResource(rName, contact)] *)
Definition QueryResource (rName : string) p : outcome rStat :=
  let? ru := ResourceUnit_ctor rName in
  Ret (match ru_unitType ru with
       | DBCHUNK => if ci_has (ru_db ru) (ru_chunk ru) (pb_provider p) then isPresent else notPresent
       | WORKER =>
           if negb (String.eqb (ci_id (pb_provider p)) "") && String.eqb (ci_id (pb_provider p)) (ru_hashName ru)
           then isPresent else notPresent
       | _ => notPresent
       end).

Definition set_provider (ci : ChunkInventory) p : Publisher D :=
  mkPublisher (pb_inventory p) ci (pb_dataContext p) (pb_announced p) (pb_db p) (pb_monitor p).

(** [void ResourceAdded(rName)] and [void ResourceRemoved(rName)] *)
Definition ResourceAdded (rName : string) p : outcome (Publisher D) :=
  let? ru := ResourceUnit_ctor rName in
  Ret (match ru_unitType ru with
       | DBCHUNK => set_provider (ci_add (ru_db ru) (ru_chunk ru) (pb_provider p)) p
       | WORKER => set_provider (resetId (ru_hashName ru) (pb_provider p)) p
       | _ => p
       end).
Definition ResourceRemoved (rName : string) p : outcome (Publisher D) :=
  let? ru := ResourceUnit_ctor rName in
  Ret (match ru_unitType ru with
       | DBCHUNK => set_provider (ci_remove (ru_db ru) (ru_chunk ru) (pb_provider p)) p
       | WORKER => set_provider (resetId "" (pb_provider p)) p
       | _ => p
       end).
End commands.

(** ** Commands that manage the chunks of a worker: theorems

    The four records of the chunks agree, a new list of chunks is installed
    exactly, and a chunk in use is only removed on demand. *)

(** ** Names of resources *)

Lemma no_slash_app (a n : string) : no_char "/" (a +:+ String "/" n) = false.
Proof. unfold no_char. rewrite all_chars_app. simpl. apply andb_false_r. Qed.

Lemma split_slash (a b n m : string) :
  no_char "/" n = true -> no_char "/" m = true -> a +:+ String "/" n = b +:+ String "/" m -> a = b /\ n = m.
Proof.
  revert b. induction a as [|x a IH]; intros [|y b] Hn Hm; rewrite ?append_cons.
  - intros He. by injection He.
  - intros [= _ Hx]. by rewrite Hx, no_slash_app in Hn.
  - intros [= _ Hx]. by rewrite <- Hx, no_slash_app in Hm.
  - intros [= -> Hx]. by destruct (IH b Hn Hm Hx) as [-> ->].
Qed.

Lemma chunk_resource_inj db c db' c' : chunk_resource db c = chunk_resource db' c' -> db = db' /\ c = c'.
Proof.
  unfold chunk_resource. intros He. apply append_inv_head in He.
  destruct (split_slash db db' (to_string c) (to_string c')) as [-> Hc]; [by apply to_string_no_char|by apply to_string_no_char|done|].
  split; [done|by apply to_string_inj].
Qed.

Lemma chunk_resource_path db c : chunk_resource db c = makePath c db.
Proof. done. Qed.

(** ** A database that works *)

Definition int_range (c : Z) : Prop := INT_MIN <= c <= INT_MAX.

(** [published] are the databases and [stored] the chunks in its tables. *)
Class ReliableDb (D : Type) `{ChunkDb D} (name : string) (published : D -> gset string) (stored : D -> gset (string * Z)) : Prop := {
  rd_dbs d : exists l, cd_fetchDbs name d = Some l /\ forall db, db ∈ l <-> db ∈ published d;
  rd_chunks db d : exists l, cd_fetchChunks name db d = Some (map to_string l) /\ (forall c, c ∈ l <-> (db, c) ∈ stored d) /\ Forall int_range l;
  rd_delete db c d : exists d', cd_deleteChunk name db c d = (d', true) /\ stored d' = stored d ∖ {[(db, c)]} /\ published d' = published d;
  rd_insert db c d : int_range c ->
    exists d', cd_insertChunk name db c d = (d', true) /\ stored d' = stored d ∪ {[(db, c)]} /\ published d' = published d;
  rd_deleteAll d : exists d', cd_deleteAll name d = (d', true) /\ published d' = published d;
  rd_insertFound d : exists d', cd_insertFound name d = (d', true) /\ published d' = published d /\
    forall db c, (db, c) ∈ stored d' -> db ∈ published d';
}.

Section commands.
Context {D : Type} `{HD : ChunkDb D} (xrdName : string) (published : D -> gset string) (stored : D -> gset (string * Z))
  `{!ReliableDb D xrdName published stored}.
Implicit Types (p : Publisher D).

(** The four records of the chunks agree. *)
Record synced p : Prop := {
  sy_name : ci_name (pb_inventory p) = xrdName;
  sy_stored db c : (db, c) ∈ stored (pb_db p) <-> ci_has db c (pb_inventory p) = true;
  sy_announced db c : chunk_resource db c ∈ pb_announced p <-> ci_has db c (pb_inventory p) = true;
  sy_provider : pb_dataContext p = true -> forall db c, ci_has db c (pb_provider p) = ci_has db c (pb_inventory p);
  sy_published db c : (db, c) ∈ stored (pb_db p) -> db ∈ published (pb_db p);
}.

(** ** One chunk *)

Lemma name_add db c ci : ci_name (ci_add db c ci) = ci_name ci.
Proof. done. Qed.
Lemma name_remove db c ci : ci_name (ci_remove db c ci) = ci_name ci.
Proof. unfold ci_remove. destruct (ci_existMap ci !! db); [|done]. by destruct (decide _). Qed.

Lemma announced_add db c db' c' (A : gset string) :
  chunk_resource db' c' ∈ ({[chunk_resource db c]} : gset string) ∪ A <-> (db = db' /\ c = c') \/ chunk_resource db' c' ∈ A.
Proof.
  rewrite elem_of_union, elem_of_singleton. split; (intros [Hl|Hr]; [left|by right]).
  - by apply chunk_resource_inj in Hl as [-> ->].
  - by destruct Hl as [-> ->].
Qed.
Lemma announced_remove db c db' c' (A : gset string) :
  chunk_resource db' c' ∈ A ∖ ({[chunk_resource db c]} : gset string) <-> ~ (db = db' /\ c = c') /\ chunk_resource db' c' ∈ A.
Proof.
  rewrite elem_of_difference, elem_of_singleton. split.
  - intros [Ha Hn]. split; [|done]. intros [-> ->]. by apply Hn.
  - intros [Hn Ha]. split; [done|]. intros He. by apply chunk_resource_inj in He as [-> ->]; apply Hn.
Qed.

Lemma add_listed_has x p db c :
  ci_has db c (pb_inventory (add_listed x p).1) = bool_decide (x = (db, c)) || ci_has db c (pb_inventory p).
Proof. simpl. rewrite has_add. f_equal. apply bool_decide_ext. destruct x. simpl. naive_solver. Qed.
Lemma remove_listed_has x p db c :
  ci_has db c (pb_inventory (remove_listed x p).1) = negb (bool_decide (x = (db, c))) && ci_has db c (pb_inventory p).
Proof. simpl. rewrite has_remove. do 2 f_equal. apply bool_decide_ext. destruct x. simpl. naive_solver. Qed.

(** With a database that works, the tables follow. *)
Lemma add_chunk_step x p :
  synced p -> x.1 ∈ published (pb_db p) -> int_range x.2 ->
  exists p', add_chunk x p = (p', inr tt) /\ synced p' /\ pb_monitor p' = pb_monitor p /\ published (pb_db p') = published (pb_db p) /\
    (forall db c, ci_has db c (pb_inventory p') = bool_decide (x = (db, c)) || ci_has db c (pb_inventory p)).
Proof.
  intros [] Hx Hr. destruct x as [db c]. simpl in *. unfold add_chunk, ci_add_db. simpl.
  rewrite decide_True; cycle 1.
  { unfold fetchDbs. rewrite sy_name0. destruct (rd_dbs (pb_db p)) as (l & -> & Hl). simpl. by apply Hl. }
  rewrite sy_name0. destruct (rd_delete db c (pb_db p)) as (d1 & -> & Hs1 & Hp1). destruct (rd_insert db c d1 Hr) as (d2 & Hi & Hs2 & Hp2).
  rewrite Hi. eexists. split; [reflexivity|]. cbn [set_inventory pb_monitor pb_db pb_inventory].
  split; [|split; [done|split; [congruence|]]].
  - split; cbn [set_inventory announce pb_inventory pb_provider pb_dataContext pb_announced pb_db].
    + done.
    + intros db' c'. rewrite has_add, orb_true_iff, bool_decide_eq_true, <- sy_stored0, Hs2, Hs1. rewrite elem_of_union, elem_of_difference, elem_of_singleton.
      destruct (decide ((db', c') = (db, c))) as [[= -> ->]|Hne]; [tauto|]. split; [intros [[? _]|?]; [by right|done]|]. intros [[-> ->]|?]; [done|]. left. done.
    + intros db' c'. rewrite announced_add, has_add, orb_true_iff, bool_decide_eq_true, sy_announced0. done.
    + intros Hdc db' c'. rewrite Hdc, !has_add. by rewrite sy_provider0.
    + intros db' c'. rewrite Hs2, Hs1, Hp2, Hp1. intros [[? _]%elem_of_difference|[= -> ->]%elem_of_singleton]%elem_of_union; [by eapply sy_published0|done].
  - intros db' c'. rewrite has_add. f_equal. apply bool_decide_ext. naive_solver.
Qed.

Lemma remove_chunk_step x p :
  synced p ->
  exists p', remove_chunk x p = (p', inr tt) /\ synced p' /\ pb_monitor p' = pb_monitor p /\ published (pb_db p') = published (pb_db p) /\
    (forall db c, ci_has db c (pb_inventory p') = negb (bool_decide (x = (db, c))) && ci_has db c (pb_inventory p)).
Proof.
  intros []. destruct x as [db c]. unfold remove_chunk, ci_remove_db. simpl.
  rewrite sy_name0. destruct (rd_delete db c (pb_db p)) as (d1 & -> & Hs1 & Hp1).
  eexists. split; [reflexivity|]. cbn [set_inventory pb_monitor pb_db pb_inventory].
  split; [|split; [done|split; [congruence|]]].
  - split; cbn [set_inventory withdraw pb_inventory pb_provider pb_dataContext pb_announced pb_db].
    + by rewrite name_remove.
    + intros db' c'. rewrite has_remove, andb_true_iff, negb_true_iff, bool_decide_eq_false, <- sy_stored0, Hs1. rewrite elem_of_difference, elem_of_singleton.
      split; [intros [? Hn]; split; [|done]; intros [-> ->]; by apply Hn|intros [Hn ?]; split; [done|]; intros [= -> ->]; by apply Hn].
    + intros db' c'. rewrite announced_remove, has_remove, andb_true_iff, negb_true_iff, bool_decide_eq_false, sy_announced0. done.
    + intros Hdc db' c'. rewrite Hdc, !has_remove. by rewrite sy_provider0.
    + intros db' c'. rewrite Hs1, Hp1. intros [? _]%elem_of_difference. by eapply sy_published0.
  - intros db' c'. rewrite has_remove. do 2 f_equal. apply bool_decide_ext. naive_solver.
Qed.

(** ** Lists of chunks *)

Lemma each_add l p :
  synced p -> Forall (fun x => x.1 ∈ published (pb_db p) /\ int_range x.2) l ->
  exists p', each add_chunk l p = (p', inr tt) /\ synced p' /\ pb_monitor p' = pb_monitor p /\ published (pb_db p') = published (pb_db p) /\
    (forall db c, ci_has db c (pb_inventory p') = bool_decide ((db, c) ∈ l) || ci_has db c (pb_inventory p)).
Proof.
  revert p. induction l as [|x l IH]; intros p Hp Hl; cbn [each].
  { exists p. split; [done|]. split; [done|]. split; [done|]. split; [done|]. intros db c. by rewrite bool_decide_false by set_solver. }
  apply Forall_cons in Hl as [[Hx Hr] Hl]. destruct (add_chunk_step x p Hp Hx Hr) as (p1 & -> & Hp1 & Hm1 & Hpub1 & Hh1).
  destruct (IH p1 Hp1) as (p2 & -> & Hp2 & Hm2 & Hpub2 & Hh2); [by rewrite Hpub1|].
  exists p2. split; [done|]. split; [done|]. split; [congruence|]. split; [congruence|]. intros db c. rewrite Hh2, Hh1, orb_assoc. f_equal.
  apply eq_true_iff_eq. rewrite orb_true_iff, !bool_decide_eq_true. set_solver.
Qed.

Lemma each_remove l p :
  synced p ->
  exists p', each remove_chunk l p = (p', inr tt) /\ synced p' /\ pb_monitor p' = pb_monitor p /\ published (pb_db p') = published (pb_db p) /\
    (forall db c, ci_has db c (pb_inventory p') = negb (bool_decide ((db, c) ∈ l)) && ci_has db c (pb_inventory p)).
Proof.
  revert p. induction l as [|x l IH]; intros p Hp; cbn [each].
  { exists p. split; [done|]. split; [done|]. split; [done|]. split; [done|]. intros db c. by rewrite bool_decide_false by set_solver. }
  destruct (remove_chunk_step x p Hp) as (p1 & -> & Hp1 & Hm1 & Hpub1 & Hh1).
  destruct (IH p1 Hp1) as (p2 & -> & Hp2 & Hm2 & Hpub2 & Hh2).
  exists p2. split; [done|]. split; [done|]. split; [congruence|]. split; [congruence|]. intros db c. rewrite Hh2, Hh1, andb_assoc. f_equal.
  rewrite <- negb_orb. f_equal. apply eq_true_iff_eq. rewrite orb_true_iff, !bool_decide_eq_true. set_solver.
Qed.

Lemma newExistMap_has chunks db c : em_has db c (newExistMap chunks) = bool_decide ((db, c) ∈ chunks).
Proof.
  unfold newExistMap. cut (forall em, em_has db c (foldl (fun em x => em_insert x.1 x.2 em) em chunks) = bool_decide ((db, c) ∈ chunks) || em_has db c em).
  { intros ->. by rewrite orb_false_r. }
  induction chunks as [|x chunks IH]; intros em; cbn [foldl]; [by rewrite bool_decide_false by set_solver|].
  rewrite IH, em_has_insert, orb_assoc. f_equal. apply eq_true_iff_eq. rewrite orb_true_iff, !bool_decide_eq_true. destruct x. set_solver.
Qed.

(** ** Reloading *)

(** The records outside of the database agree. *)
Record mem_synced p : Prop := {
  ms_name : ci_name (pb_inventory p) = xrdName;
  ms_announced db c : chunk_resource db c ∈ pb_announced p <-> ci_has db c (pb_inventory p) = true;
  ms_provider : pb_dataContext p = true -> forall db c, ci_has db c (pb_provider p) = ci_has db c (pb_inventory p);
}.

Lemma add_listed_step x p : mem_synced p -> mem_synced (add_listed x p).1.
Proof.
  intros []. destruct x as [db c]. split; simpl; [done| |].
  - intros db' c'. rewrite announced_add, has_add, orb_true_iff, bool_decide_eq_true, ms_announced0. done.
  - intros Hdc db' c'. rewrite Hdc, !has_add. by rewrite ms_provider0.
Qed.
Lemma remove_listed_step x p : mem_synced p -> mem_synced (remove_listed x p).1.
Proof.
  intros []. destruct x as [db c]. split; simpl; [by rewrite name_remove| |].
  - intros db' c'. rewrite announced_remove, has_remove, andb_true_iff, negb_true_iff, bool_decide_eq_false, ms_announced0. done.
  - intros Hdc db' c'. rewrite Hdc, !has_remove. by rewrite ms_provider0.
Qed.

Lemma each_listed (f : string * Z -> Publisher D -> Publisher D * (InvError + unit)) l p :
  (forall x p, (f x p).2 = inr tt /\ pb_db (f x p).1 = pb_db p /\ (mem_synced p -> mem_synced (f x p).1)) ->
  mem_synced p -> exists p', each f l p = (p', inr tt) /\ mem_synced p' /\ pb_db p' = pb_db p.
Proof.
  intros Hf. revert p. induction l as [|x l IH]; intros p Hp; cbn [each]; [by exists p|].
  destruct (Hf x p) as (Hr & Hd & Hs). destruct (f x p) as [p1 r]. simpl in *. subst r.
  destruct (IH p1 (Hs Hp)) as (p2 & -> & Hp2 & Hd2). exists p2. split; [done|]. split; [done|congruence].
Qed.

Lemma each_listed_has (l : list (string * Z)) p db c :
  ci_has db c (pb_inventory (each add_listed l p).1) = bool_decide ((db, c) ∈ l) || ci_has db c (pb_inventory p) /\
  ci_has db c (pb_inventory (each remove_listed l p).1) = negb (bool_decide ((db, c) ∈ l)) && ci_has db c (pb_inventory p).
Proof.
  split; revert p; induction l as [|x l IH]; intros p; cbn [each]; try (by rewrite bool_decide_false by set_solver).
  - pose proof (add_listed_has x p db c) as Hx. destruct (add_listed x p) as [p1 [e|u]] eqn:E; [done|]. simpl in Hx. rewrite IH, Hx, orb_assoc. f_equal.
    apply eq_true_iff_eq. rewrite orb_true_iff, !bool_decide_eq_true. set_solver.
  - pose proof (remove_listed_has x p db c) as Hx. destruct (remove_listed x p) as [p1 [e|u]] eqn:E; [done|]. simpl in Hx. rewrite IH, Hx, andb_assoc. f_equal.
    rewrite <- negb_orb. f_equal. apply eq_true_iff_eq. rewrite orb_true_iff, !bool_decide_eq_true. set_solver.
Qed.

Lemma fetchChunks_all db (chunks : gset Z) d :
  exists chunks', fetchChunks xrdName db chunks d = Ret chunks' /\ forall c, c ∈ chunks' <-> c ∈ chunks \/ (db, c) ∈ stored d.
Proof.
  destruct (rd_chunks db d) as (l & Hl & Hin & Hr). unfold fetchChunks. rewrite Hl. simpl. setoid_rewrite <- Hin. clear Hl Hin.
  revert chunks. induction Hr as [|x l Hx _ IH]; intros chunks; simpl.
  { exists chunks. split; [done|]. set_solver. }
  rewrite stoi_to_string by done. simpl. destruct (IH ({[x]} ∪ chunks)) as (chunks' & -> & Hc). exists chunks'. split; [done|]. set_solver.
Qed.

Lemma init_all d ci :
  exists ci', ci_init xrdName d ci = Ret ci' /\ ci_name ci' = xrdName /\
    forall db c, ci_has db c ci' = true <-> db ∈ published d /\ (db, c) ∈ stored d.
Proof.
  unfold ci_init, ci_init_. cbn [ci_name]. destruct (rd_dbs d) as (l & Hl & Hpub). unfold fetchDbs. rewrite Hl. cbn [default from_option id].
  setoid_rewrite <- Hpub. clear Hl Hpub.
  assert (Hgen : forall (em : ExistMap), exists em',
      foldM (fun em db => let? chunks := fetchChunks xrdName db (default ∅ (em !! db)) d in Ret (<[db := chunks]> em)) em l = Ret em' /\
      forall db c, em_has db c em' = true <-> em_has db c em = true \/ (db ∈ l /\ (db, c) ∈ stored d)).
  { induction l as [|x l IH]; intros em; simpl; [exists em; split; [done|set_solver]|].
    destruct (fetchChunks_all x (default ∅ (em !! x)) d) as (chunks & Hf & Hc). rewrite Hf. cbn [Outcome.bind].
    destruct (IH (<[x := chunks]> em)) as (em' & -> & Hem). exists em'. split; [done|]. intros db c. rewrite Hem, !em_has_true.
    destruct (decide (x = db)) as [<-|Hne]; [rewrite lookup_insert_eq; simpl; rewrite Hc; set_solver|rewrite lookup_insert_ne by done; set_solver]. }
  destruct (Hgen ∅) as (em & Hem & Hh). rewrite Hem. eexists. split; [reflexivity|]. split; [done|]. intros db c. unfold ci_has. simpl. rewrite Hh.
  split; [by intros [?|?]|by right].
Qed.

Lemma reload_step p :
  mem_synced p -> (forall db c, (db, c) ∈ stored (pb_db p) -> db ∈ published (pb_db p)) -> synced (reload_chunks xrdName p).1.
Proof.
  intros Hp Hpub. unfold reload_chunks. destruct (init_all (pb_db p) ChunkInventory_default) as (ci & -> & _ & Hci).
  set (rem := exist_list _). set (ad := exist_list _).
  destruct (each_listed remove_listed rem p) as (p1 & H1 & Hp1 & Hd1); [intros x q; split; [done|split; [done|apply remove_listed_step]]|done|].
  destruct (each_listed add_listed ad p1) as (p2 & H2 & Hp2 & Hd2); [intros x q; split; [done|split; [done|apply add_listed_step]]|done|].
  rewrite H1, H2. simpl.
  assert (Hh : forall db c, ci_has db c (pb_inventory p2) = true <-> (db, c) ∈ stored (pb_db p)).
  { intros db c. pose proof (proj1 (each_listed_has ad p1 db c)) as Ha. pose proof (proj2 (each_listed_has rem p db c)) as Hr.
    rewrite H2 in Ha. rewrite H1 in Hr. simpl in Ha, Hr. rewrite Ha, Hr, orb_true_iff, andb_true_iff, negb_true_iff, bool_decide_eq_true, bool_decide_eq_false.
    unfold ad, rem. rewrite !elem_of_exist_list, !minus_has, !andb_true_iff, !negb_true_iff.
    specialize (Hci db c). unfold ci_has in *. destruct (em_has db c (ci_existMap ci)), (em_has db c (ci_existMap (pb_inventory p))); naive_solver. }
  destruct Hp2. split; try done; rewrite ?Hd2, ?Hd1; [intros db c; by rewrite Hh|done].
Qed.

(** ** Theorems *)

(** The databases of chunks that are added are published; a rebuild is followed by a
    reload. *)
Definition command_ok p (c : Command) : Prop :=
  match c with
  | AddChunkGroup chunk dbs => Forall (fun db => db ∈ published (pb_db p)) dbs /\ int_range chunk
  | SetChunkList chunks _ => Forall (fun x => x.1 ∈ published (pb_db p) /\ int_range x.2) chunks
  | UpdateChunkList true reload => reload = true
  | _ => True
  end.

Lemma synced_mem p : synced p -> mem_synced p.
Proof. by intros []. Qed.

Lemma setChunkList_step chunks force p :
  synced p -> command_ok p (SetChunkList chunks force) ->
  exists p', (let prev := ci_existMap (pb_inventory p) in
      let '(p1, r1) := each remove_chunk (exist_list (em_minus prev (newExistMap chunks))) p in
      match r1 with
      | inl e => (p1, SetChunkListR (error_status e) (setChunks prev (pb_monitor p1)))
      | inr _ => let '(p2, r2) := each add_chunk (exist_list (em_minus (newExistMap chunks) prev)) p1 in
                 (p2, SetChunkListR (match r2 with inr _ => Status.SUCCESS | inl e => error_status e end) (setChunks prev (pb_monitor p2)))
      end) = (p', SetChunkListR Status.SUCCESS (setChunks (ci_existMap (pb_inventory p)) (pb_monitor p))) /\
    synced p' /\ (forall db c, ci_has db c (pb_inventory p') = true <-> (db, c) ∈ chunks).
Proof.
  intros Hp Hc. cbv zeta. set (prev := ci_existMap (pb_inventory p)).
  destruct (each_remove (exist_list (em_minus prev (newExistMap chunks))) p Hp) as (p1 & -> & Hp1 & Hm1 & Hpub1 & Hh1).
  destruct (each_add (exist_list (em_minus (newExistMap chunks) prev)) p1 Hp1) as (p2 & -> & Hp2 & Hm2 & _ & Hh2).
  { rewrite Hpub1. simpl in Hc. rewrite Forall_forall in Hc |- *. intros [db c] Hin. apply Hc.
    rewrite elem_of_exist_list, minus_has, andb_true_iff, newExistMap_has, bool_decide_eq_true in Hin. apply Hin. }
  exists p2. split; [by rewrite Hm2, Hm1|]. split; [done|]. intros db c.
  rewrite Hh2, Hh1, orb_true_iff, andb_true_iff, negb_true_iff, bool_decide_eq_true, bool_decide_eq_false, !elem_of_exist_list, !minus_has,
    !newExistMap_has, !andb_true_iff, !negb_true_iff, !bool_decide_eq_true, !bool_decide_eq_false.
  unfold ci_has. fold prev. destruct (em_has db c prev); destruct (decide ((db, c) ∈ chunks)); naive_solver.
Qed.


(** Setting the list of chunks succeeds unless a chunk to be removed is in use: the
    worker then has exactly these chunks, in all four records, and the reply has the
    previous list with the use counts. *)
Theorem set_chunk_list_exact chunks force p :
  synced p -> command_ok p (SetChunkList chunks force) ->
  (force = false -> forall db c, ci_has db c (pb_inventory p) = true -> (db, c) ∉ chunks -> rm_count_chunk c db (pb_monitor p) = 0) ->
  exists p', run_command xrdName (SetChunkList chunks force) p =
      (p', SetChunkListR Status.SUCCESS (setChunks (ci_existMap (pb_inventory p)) (pb_monitor p))) /\
    synced p' /\ (forall db c, ci_has db c (pb_inventory p') = true <-> (db, c) ∈ chunks).
Proof.
  intros Hp Hc Huse. destruct (setChunkList_step chunks force p Hp Hc) as (p' & He & Hrest). exists p'. split; [|done].
  cbn [run_command]. unfold run_setChunkList.
  assert (Hex : negb force && existsb (fun x => negb (rm_count_chunk x.2 x.1 (pb_monitor p) =? 0))
      (exist_list (em_minus (ci_existMap (pb_inventory p)) (newExistMap chunks))) = false).
  { destruct force; [done|]. simpl. apply not_true_iff_false. intros ([db c] & Hin & Hn)%existsb_exists.
    apply list_elem_of_In, elem_of_exist_list in Hin. rewrite minus_has, newExistMap_has, andb_true_iff, negb_true_iff, bool_decide_eq_false in Hin.
    destruct Hin as [Hin Hnot]. cbn [fst snd] in Hn. by rewrite (Huse eq_refl db c Hin Hnot) in Hn. }
  rewrite Hex. exact He.
Qed.
End commands.

(** ** Chunks in use *)

Section in_use.
Context {D : Type} `{HD : ChunkDb D} (xrdName : string).
Implicit Types (p : Publisher D).

(** Whatever the database does, only the chunks of the list are removed. *)
Lemma remove_chunk_keeps x p db c :
  x <> (db, c) -> ci_has db c (pb_inventory p) = true -> ci_has db c (pb_inventory (remove_chunk x p).1) = true.
Proof.
  intros Hx Hh. unfold remove_chunk, ci_remove_db. simpl. destruct (cd_deleteChunk _ _ _ _) as [d' []]; simpl; [|done].
  rewrite has_remove, Hh, andb_true_r, negb_true_iff, bool_decide_eq_false. destruct x. simpl. intros [-> ->]. done.
Qed.
Lemma add_chunk_keeps x p db c :
  ci_has db c (pb_inventory p) = true -> ci_has db c (pb_inventory (add_chunk x p).1) = true.
Proof.
  intros Hh. unfold add_chunk, ci_add_db. simpl. destruct (decide _); [|done]. destruct (cd_deleteChunk _ _ _ _) as [d1 []]; [|done].
  destruct (cd_insertChunk _ _ _ _) as [d2 []]; simpl; [|done]. by rewrite has_add, Hh, orb_true_r.
Qed.

Lemma each_keeps (f : string * Z -> Publisher D -> Publisher D * (InvError + unit)) l p db c :
  (forall x p, x ∈ l -> ci_has db c (pb_inventory p) = true -> ci_has db c (pb_inventory (f x p).1) = true) ->
  ci_has db c (pb_inventory p) = true -> ci_has db c (pb_inventory (each f l p).1) = true.
Proof.
  revert p. induction l as [|x l IH]; intros p Hf Hh; cbn [each]; [done|]. pose proof (Hf x p (list_elem_of_here _ _) Hh) as Hx.
  destruct (f x p) as [p1 [e|u]]; [done|]. apply IH; [|done]. intros y q Hy. apply Hf. by right.
Qed.

(** The sum of the counts of the databases does not overflow. *)
Definition total (chunk : Z) (dbs : list string) (rc : ResourceCounter) : Z :=
  foldr (fun db n => rm_count_chunk chunk db rc + n) 0 dbs.

Definition counts_ok (rc : ResourceCounter) : Prop := map_Forall (fun _ n => 0 <= n) rc.

Lemma count_nonneg chunk db rc : counts_ok rc -> 0 <= rm_count_chunk chunk db rc.
Proof. intros Hrc. unfold rm_count_chunk, rm_count. destruct (rc !! _) eqn:E; simpl; [exact (Hrc _ _ E)|lia]. Qed.

Lemma count_dbs_total chunk dbs rc : counts_ok rc -> total chunk dbs rc < two32 -> rm_count_dbs chunk dbs rc = total chunk dbs rc.
Proof.
  intros Hrc Ht. unfold rm_count_dbs.
  assert (Hnn : forall l, 0 <= total chunk l rc).
  { intros l. induction l as [|db l IH]; simpl; [lia|]. pose proof (count_nonneg chunk db rc Hrc). lia. }
  cut (forall l acc, 0 <= acc -> acc + total chunk l rc < two32 ->
        foldl (fun result db => wrap32 (result + rm_count_chunk chunk db rc)) acc l = acc + total chunk l rc).
  { intros Hcut. rewrite Hcut; lia. }
  intros l. induction l as [|db l IH]; intros acc Ha Hlt; simpl in *; [lia|]. pose proof (count_nonneg chunk db rc Hrc). pose proof (Hnn l).
  assert (Hw : wrap32 (acc + rm_count_chunk chunk db rc) = acc + rm_count_chunk chunk db rc) by (unfold wrap32; apply Z.mod_small; lia).
  rewrite Hw, IH; lia.
Qed.

Lemma in_use_zero chunk dbs rc db : counts_ok rc -> total chunk dbs rc = 0 -> db ∈ dbs -> rm_count_chunk chunk db rc = 0.
Proof.
  intros Hrc. assert (Hnn : forall l, 0 <= total chunk l rc).
  { intros l. induction l as [|y l IH]; simpl; [lia|]. pose proof (count_nonneg chunk y rc Hrc). lia. }
  induction dbs as [|y dbs IH]; intros Ht Hin; [by apply elem_of_nil in Hin|]. simpl in Ht. pose proof (count_nonneg chunk y rc Hrc). pose proof (Hnn dbs).
  apply elem_of_cons in Hin as [->|Hin]; [lia|]. apply IH; [lia|done].
Qed.

(** Commands that do not ask for removal by force, and do not reload the list *)
Definition careful p (c : Command) : Prop :=
  match c with
  | RemoveChunkGroup chunk dbs force => force = false /\ total chunk dbs (pb_monitor p) < two32
  | SetChunkList _ force => force = false
  | UpdateChunkList _ _ => False
  | _ => True
  end.

Lemma chunk_in_use c p db chunk :
  careful p c -> counts_ok (pb_monitor p) -> ci_has db chunk (pb_inventory p) = true -> 0 < rm_count_chunk chunk db (pb_monitor p) ->
  ci_has db chunk (pb_inventory (run_command xrdName c p).1) = true.
Proof.
  intros Hcare Hrc Hh Hn. destruct c as [chunk' dbs|chunk' dbs force|chunks force|rebuild reload| |value]; simpl in Hcare |- *; try done.
  - unfold run_addChunkGroup. destruct (bool_decide _); [done|]. pose proof (each_keeps add_chunk (map (fun db => (db, chunk')) dbs) p db chunk) as He.
    destruct (each _ _ _) as [p' r]. apply He; [|done]. intros x q _. apply add_chunk_keeps.
  - destruct Hcare as [-> Ht]. unfold run_removeChunkGroup. destruct (bool_decide _); [done|]. cbn [negb andb].
    rewrite (count_dbs_total _ _ _ Hrc Ht). destruct (Z.eqb_spec (total chunk' dbs (pb_monitor p)) 0) as [Hz|Hz]; [|done]. cbn [negb].
    pose proof (each_keeps remove_chunk (map (fun db => (db, chunk')) dbs) p db chunk) as He. destruct (each _ _ _) as [p' r].
    apply He; [|done]. intros x q Hx. apply remove_chunk_keeps. intros ->. apply list_elem_of_fmap in Hx as (y & [= -> ->] & Hy).
    rewrite (in_use_zero _ _ _ _ Hrc Hz Hy) in Hn. lia.
  - subst force. unfold run_setChunkList. cbn [negb andb]. set (rem := exist_list _). destruct (existsb _ rem) eqn:Ex; [done|].
    pose proof (each_keeps remove_chunk rem p db chunk) as He. destruct (each remove_chunk rem p) as [p1 r1].
    assert (H1 : ci_has db chunk (pb_inventory p1) = true).
    { apply He; [|done]. intros x q Hx. apply remove_chunk_keeps. intros ->. apply not_true_iff_false in Ex. apply Ex, existsb_exists.
      exists (db, chunk). split; [by apply list_elem_of_In|]. simpl. apply negb_true_iff, Z.eqb_neq. lia. }
    destruct r1 as [e|u]; [done|]. set (ad := exist_list _). pose proof (each_keeps add_chunk ad p1 db chunk) as Ha. destruct (each add_chunk ad p1) as [p2 r2].
    apply Ha; [|done]. intros x q _. apply add_chunk_keeps.
Qed.

End in_use.

(** ** Concrete tables *)

(** Published databases, listed chunks, and tables found by a rebuild *)
Record TableDb := mkTableDb { td_dbs : gset string; td_chunks : gset (string * Z); td_tables : gset (string * Z) }.

#[global] Instance int_range_dec c : Decision (int_range c).
Proof. unfold int_range. apply _. Defined.

Definition td_stored (d : TableDb) : gset (string * Z) := filter (fun x => int_range x.2) (td_chunks d).
Definition td_set (f : gset (string * Z) -> gset (string * Z)) (d : TableDb) : TableDb := mkTableDb (td_dbs d) (f (td_chunks d)) (td_tables d).

#[export] Instance TableDb_db : ChunkDb TableDb := {
  cd_fetchDbs _ d := Some (elements (td_dbs d));
  cd_fetchChunks _ db d := Some (map to_string (map snd (filter (fun x => x.1 = db) (elements (td_stored d)))));
  cd_fetchId _ _ := Some (Some "worker1"%string);
  cd_deleteChunk _ db c d := (td_set (fun s => s ∖ {[(db, c)]}) d, true);
  cd_insertChunk _ db c d := (td_set (fun s => s ∪ {[(db, c)]}) d, true);
  cd_deleteAll _ d := (td_set (fun _ => ∅) d, true);
  cd_insertFound _ d := (td_set (fun s => filter (fun x => x.1 ∈ td_dbs d) (s ∪ td_tables d)) d, true);
}.

#[export] Instance TableDb_reliable name : ReliableDb TableDb name td_dbs td_stored.
Proof.
  split.
  - intros d. eexists. split; [reflexivity|]. intros db. apply elem_of_elements.
  - intros db d. eexists. split; [reflexivity|]. split.
    + intros c. rewrite list_elem_of_fmap. split; [intros ([db' c'] & -> & H%list_elem_of_filter)|intros H; exists (db, c); split; [done|]].
      * destruct H as [<- H]. by apply elem_of_elements in H.
      * apply list_elem_of_filter. split; [done|]. by apply elem_of_elements.
    + apply Forall_forall. intros c (x & -> & [_ H]%list_elem_of_filter)%list_elem_of_fmap.
      apply elem_of_elements in H. unfold td_stored in H. by apply elem_of_filter in H as [H _].
  - intros db c d. eexists. split; [reflexivity|]. split; [|done]. unfold td_stored. simpl. apply set_eq. intros x. rewrite elem_of_difference, !elem_of_filter. set_solver.
  - intros db c d Hc. eexists. split; [reflexivity|]. split; [|done]. unfold td_stored. simpl. apply set_eq. intros x.
    rewrite elem_of_filter, !elem_of_union, elem_of_filter, !elem_of_singleton. split; [intros [? [?|?]]; [by left|by right]|].
    intros [[? ?]| ->]; (split; [done|]); [by left|by right].
  - intros d. by eexists.
  - intros d. eexists. split; [reflexivity|]. split; [done|]. intros db c. unfold td_stored. simpl. rewrite !elem_of_filter. by intros (_ & ? & _).
Qed.

Module PublishDemo.
Local Open Scope string_scope.

Definition inventory : ChunkInventory := mkChunkInventory {["LSST" := {[1; 2]}]} "worker" "worker1".
(** Chunk 2 is in use by two requests. *)
Definition start : Publisher TableDb :=
  mkPublisher inventory inventory true {["/chk/LSST/1"; "/chk/LSST/2"]}
    (mkTableDb {["LSST"]} {[("LSST", 1); ("LSST", 2)]} ∅) {["/chk/LSST/2" := 2]}.

Lemma start_has db c : ci_has db c inventory = true <-> (db, c) ∈ ({[("LSST", 1); ("LSST", 2)]} : gset (string * Z)).
Proof.
  unfold ci_has. rewrite em_has_true. simpl. destruct (decide (db = "LSST")) as [->|Hne].
  - rewrite lookup_singleton_eq. simpl. set_solver.
  - rewrite lookup_singleton_ne by done. simpl. set_solver.
Qed.

Lemma start_synced : synced "worker" td_dbs td_stored start.
Proof.
  split; simpl.
  - done.
  - intros db c. rewrite start_has. unfold td_stored. simpl. rewrite elem_of_filter. split; [by intros [_ ?]|]. intros H. split; [|done].
    simpl. assert (c = 1 \/ c = 2) as [-> | ->] by set_solver; done.
  - intros db c. rewrite start_has. rewrite !elem_of_union, !elem_of_singleton. split.
    + intros [H|H]; [left|right]; [destruct (chunk_resource_inj db c "LSST" 1 H)|destruct (chunk_resource_inj db c "LSST" 2 H)]; by subst.
    + intros [[= -> ->]|[= -> ->]]; [by left|by right].
  - done.
  - intros db c. unfold td_stored. simpl. rewrite elem_of_filter. set_solver.
Qed.

(** Chunk 1 is replaced by chunk 3. *)
Definition new_list : Command := SetChunkList [("LSST", 2); ("LSST", 3)] false.

Lemma new_list_ok : command_ok td_dbs start new_list.
Proof. repeat constructor; simpl; try set_solver; done. Qed.
End PublishDemo.


Lemma set_chunk_list_exact_witness :
  exists p', run_command "worker" PublishDemo.new_list PublishDemo.start =
      (p', SetChunkListR Status.SUCCESS [("LSST"%string, 1, 0); ("LSST"%string, 2, 2)]) /\
    synced "worker" td_dbs td_stored p' /\
    (forall db c, ci_has db c (pb_inventory p') = true <-> (db, c) ∈ [("LSST"%string, 2); ("LSST"%string, 3)]).
Proof.
  apply (set_chunk_list_exact "worker" td_dbs td_stored [("LSST"%string, 2); ("LSST"%string, 3)] false PublishDemo.start
    PublishDemo.start_synced PublishDemo.new_list_ok).
  intros _ db c Hh Hn. apply PublishDemo.start_has in Hh. assert (c = 1 /\ db = "LSST"%string) as [-> ->] by set_solver. reflexivity.
Defined.


(** ** Where the code departs from what it means to do *)

(** A chunk of a database that is not published is refused, but has been announced to
    the cluster, which will send requests for it. *)
Example invalid_database_announced :
  let '(p, r) := run_command "worker" (AddChunkGroup 7 ["Other"%string]) PublishDemo.start in
  r = ChunkGroupR Status.INVALID /\ "/chk/Other/7"%string ∈ pb_announced p /\ ci_has "Other" 7 (pb_inventory p) = false /\
  ci_has "Other" 7 (pb_provider p) = true.
Proof. vm_compute. done. Qed.

(** A failure of the query for the databases is not reported: a reload removes all
    chunks of the worker. *)
Definition failing_fetch : ChunkDb TableDb := {|
  cd_fetchDbs := fun _ _ => None;
  cd_fetchChunks := cd_fetchChunks;
  cd_fetchId := cd_fetchId;
  cd_deleteChunk := cd_deleteChunk;
  cd_insertChunk := cd_insertChunk;
  cd_deleteAll := cd_deleteAll;
  cd_insertFound := cd_insertFound;
|}.
Example failed_fetch_unpublishes :
  let '(p, r) := run_command (H := failing_fetch) "worker" (UpdateChunkList false true) PublishDemo.start in
  r = UpdateChunkListR Status.SUCCESS [] [("LSST"%string, 1); ("LSST"%string, 2)] /\ pb_announced p = ∅ /\ td_stored (pb_db p) = td_stored (pb_db PublishDemo.start).
Proof. vm_compute. done. Qed.

(** Adding a chunk deletes its row before it inserts it again: if that fails, the chunk
    is in the list but no more in the tables. *)
Definition failing_insert : ChunkDb TableDb := {|
  cd_fetchDbs := cd_fetchDbs;
  cd_fetchChunks := cd_fetchChunks;
  cd_fetchId := cd_fetchId;
  cd_deleteChunk := cd_deleteChunk;
  cd_insertChunk := fun _ _ _ d => (d, false);
  cd_deleteAll := cd_deleteAll;
  cd_insertFound := cd_insertFound;
|}.
Example failed_insert_forgets :
  let '(p, r) := run_command (H := failing_insert) "worker" (AddChunkGroup 1 ["LSST"%string]) PublishDemo.start in
  r = ChunkGroupR Status.ERROR /\ ci_has "LSST" 1 (pb_inventory p) = true /\ td_stored (pb_db p) = {[("LSST"%string, 2)]}.
Proof. vm_compute. done. Qed.
