(* ===== verification/SsiRequest.v ===== *)
(** * Requests to a worker

    [execute] and [Finished] of [xrdsvc/SsiRequest.cc]: a request names a resource,
    a chunk or the worker itself.  It is refused unless the inventory has the
    resource; a request for a chunk is counted in the [ResourceMonitor] until it
    is finished, and becomes a task; a request to the worker becomes a command.

    Decoding of messages is a parameter.  [execute] holds [_finMutex], for which
    [Finished] waits, so both are one step.  [ss_requests] has the requests that are
    bound and not finished, with their names and whether [increment] was called.
    How replies are sent is in [SendChannel.v]; what becomes of a task in
    [QueryRunner.v]. *)

From Stdlib Require Import Ascii String.
From S2P Require Import Prelude.
From S2P Require Import StdString.
From S2P Require Import ResourceUnit.
From S2P Require Import ChunkInventory.
From S2P Require Import WorkerCommands.

Local Open Scope Z_scope.

Record Service (D : Type) := mkService {
  ss_publisher : Publisher D;
  ss_requests : gmap nat (string * bool);
  ss_tasks : list nat;
  ss_commands : list (nat * Command);
  ss_errors : list nat;
}.
Arguments mkService {D}.
Arguments ss_publisher {D}.
Arguments ss_requests {D}.
Arguments ss_tasks {D}.
Arguments ss_commands {D}.
Arguments ss_errors {D}.

Section requests.
Context {D : Type} `{HD : ChunkDb D} (xrdName : string).
Implicit Types (s : Service D) (name : string) (id : nat).

(** The fields [db] and [chunkid] of a [TaskMsg] that can be decoded and is complete;
    a command that can be decoded *)
Context (parseTask : string -> option (option string * option Z)) (parseCommand : string -> option Command).

Definition set_monitor (rc : ResourceCounter) (p : Publisher D) : Publisher D :=
  mkPublisher (pb_inventory p) (pb_provider p) (pb_dataContext p) (pb_announced p) (pb_db p) rc.

(** [BindRequest(req)] *)
Definition bind_request id name s : Service D :=
  mkService (ss_publisher s) (<[id := (name, false)]> (ss_requests s)) (ss_tasks s) (ss_commands s) (ss_errors s).
(** [_resourceMonitor->increment(_resourceName)] *)
Definition count_request id name s : Service D :=
  mkService (set_monitor (rm_increment name (pb_monitor (ss_publisher s))) (ss_publisher s)) (<[id := (name, true)]> (ss_requests s))
    (ss_tasks s) (ss_commands s) (ss_errors s).
(** [void reportError(errStr)] *)
Definition report_error id s : Service D :=
  mkService (ss_publisher s) (ss_requests s) (ss_tasks s) (ss_commands s) (ss_errors s ++ [id]).

(** [void execute(XrdSsiRequest& req)] *)
Definition execute id name (reqData : string) s : outcome (Service D) :=
  let s := bind_request id name s in
  let? ru := ResourceUnit_ctor name in
  if negb (validator (pb_inventory (ss_publisher s)) ru) then Ret (report_error id s)
  else
    match ru_unitType ru with
    | DBCHUNK =>
        let s := count_request id name s in
        match parseTask reqData with
        | Some (Some db, Some chunkid) =>
            if String.eqb (ru_db ru) db && (ru_chunk ru =? chunkid)
            then Ret (mkService (ss_publisher s) (ss_requests s) (ss_tasks s ++ [id]) (ss_commands s) (ss_errors s))
            else Ret (report_error id s)
        | _ => Ret (report_error id s)
        end
    | WORKER =>
        match parseCommand reqData with
        | None => Ret (report_error id s)
        | Some c => Ret (mkService (ss_publisher s) (ss_requests s) (ss_tasks s) (ss_commands s ++ [(id, c)]) (ss_errors s))
        end
    | _ => Ret (report_error id s)
    end.

(** [void Finished(req, rinfo, cancel)] *)
Definition Finished id s : outcome (Service D) :=
  match ss_requests s !! id with
  | None => Raise UndefinedBehaviour
  | Some (name, _) =>
      let? ru := ResourceUnit_ctor name in
      let p := ss_publisher s in
      let p := match ru_unitType ru with DBCHUNK => set_monitor (rm_decrement name (pb_monitor p)) p | _ => p end in
      Ret (mkService p (delete id (ss_requests s)) (ss_tasks s) (ss_commands s) (ss_errors s))
  end.

(** A thread runs the next command. *)
Definition next_command s : Service D :=
  match ss_commands s with
  | [] => s
  | (_, c) :: cs => mkService (run_command xrdName c (ss_publisher s)).1 (ss_requests s) (ss_tasks s) cs (ss_errors s)
  end.

(** ** Counting *)

Definition is_chunk name : Prop := exists ru, ResourceUnit_ctor name = Ret ru /\ ru_unitType ru = DBCHUNK.

(** A request for a chunk that was refused *)
Definition refused (r : string * bool) : Prop := is_chunk r.1 /\ r.2 = false.

(** The states of a service in which no refused request for a chunk has finished *)
Inductive svc_reach : Service D -> Prop :=
| sr_init p : pb_monitor p = ∅ -> svc_reach (mkService p ∅ [] [] [])
| sr_execute id name data s s' : svc_reach s -> ss_requests s !! id = None -> Z.of_nat (size (ss_requests s)) + 1 < two32 ->
    execute id name data s = Ret s' -> svc_reach s'
| sr_finish id s s' : svc_reach s -> (forall r, ss_requests s !! id = Some r -> ~ refused r) -> Finished id s = Ret s' -> svc_reach s'
| sr_command s : svc_reach s -> svc_reach (next_command s).

(** The requests in flight that were counted for a resource *)
Definition in_flight name s : gmap nat (string * bool) := filter (fun x => x.2 = (name, true)) (ss_requests s).

Record svc_inv s : Prop := {
  si_count name : pb_monitor (ss_publisher s) !! name =
    (if decide (in_flight name s = ∅) then None else Some (Z.of_nat (size (in_flight name s))));
  si_size : Z.of_nat (size (ss_requests s)) < two32;
  si_chunk id name : ss_requests s !! id = Some (name, true) -> is_chunk name;
}.

Lemma in_flight_size name s : (size (in_flight name s) <= size (ss_requests s))%nat.
Proof. apply map_subseteq_size, map_filter_subseteq. Qed.

Lemma each_monitor (f : string * Z -> Publisher D -> Publisher D * (InvError + unit)) l p :
  (forall x p, pb_monitor (f x p).1 = pb_monitor p) -> pb_monitor (each f l p).1 = pb_monitor p.
Proof.
  intros Hf. revert p. induction l as [|x l IH]; intros p; cbn [each]; [done|]. specialize (Hf x p). destruct (f x p) as [p1 [e|u]]; [done|].
  rewrite IH. done.
Qed.

Lemma add_chunk_monitor x (p : Publisher D) : pb_monitor (add_chunk x p).1 = pb_monitor p.
Proof. unfold add_chunk. by destruct (ci_add_db _ _ _ _) as [[? ?] ?]. Qed.
Lemma remove_chunk_monitor x (p : Publisher D) : pb_monitor (remove_chunk x p).1 = pb_monitor p.
Proof. unfold remove_chunk. by destruct (ci_remove_db _ _ _ _) as [[? ?] ?]. Qed.

Lemma reload_monitor (p : Publisher D) : pb_monitor (reload_chunks xrdName p).1 = pb_monitor p.
Proof.
  unfold reload_chunks. destruct (ci_init _ _ _) as [ci|e]; [|done]. set (rem := exist_list _). set (ad := exist_list _).
  pose proof (each_monitor remove_listed rem p (fun _ _ => eq_refl)) as H1. destruct (each remove_listed rem p) as [p1 r1].
  pose proof (each_monitor add_listed ad p1 (fun _ _ => eq_refl)) as H2. destruct (each add_listed ad p1) as [p2 r2]. simpl in *. congruence.
Qed.

(** Commands do not change the counts. *)
Lemma command_monitor c (p : Publisher D) : pb_monitor (run_command xrdName c p).1 = pb_monitor p.
Proof.
  destruct c as [chunk dbs|chunk dbs force|chunks force|rebuild reload| |value]; simpl; try done.
  - unfold run_addChunkGroup. destruct (bool_decide _); [done|]. set (l := map _ dbs).
    pose proof (each_monitor add_chunk l p add_chunk_monitor). by destruct (each add_chunk l p).
  - unfold run_removeChunkGroup. destruct (bool_decide _); [done|]. destruct (_ && _); [done|]. set (l := map _ dbs).
    pose proof (each_monitor remove_chunk l p remove_chunk_monitor). by destruct (each remove_chunk l p).
  - unfold run_setChunkList. destruct (_ && _); [done|]. set (rem := exist_list _). set (ad := exist_list _).
    pose proof (each_monitor remove_chunk rem p remove_chunk_monitor) as H1. destruct (each remove_chunk rem p) as [p1 [e|u]]; [done|].
    pose proof (each_monitor add_chunk ad p1 add_chunk_monitor) as H2. destruct (each add_chunk ad p1) as [p2 r2]. simpl in *. congruence.
  - unfold run_chunkList. destruct rebuild.
    + destruct (ci_rebuild _ _ _) as [d [e|ci]]; cbn [negb]; [done|]. destruct reload; [|done]. by rewrite reload_monitor.
    + cbn [negb]. apply reload_monitor.
Qed.

Lemma in_flight_insert name id n c (m : gmap nat (string * bool)) :
  m !! id = None ->
  filter (fun x => x.2 = (n, true)) (<[id := (name, c)]> m) =
  (if decide (n = name /\ c = true) then <[id := (name, c)]> (filter (fun x => x.2 = (n, true)) m) else filter (fun x => x.2 = (n, true)) m).
Proof.
  intros Hid. destruct (decide (n = name /\ c = true)) as [[-> ->]|Hne].
  - by apply map_filter_insert_True.
  - rewrite map_filter_insert_False by (simpl; naive_solver). by rewrite delete_id.
Qed.

Lemma inv_bind id name s : svc_inv s -> ss_requests s !! id = None -> Z.of_nat (size (ss_requests s)) + 1 < two32 -> svc_inv (bind_request id name s).
Proof.
  intros [] Hid Hsz. split; unfold in_flight; simpl.
  - intros n. rewrite in_flight_insert by done. rewrite (decide_False (P := n = name /\ false = true)) by (by intros [_ ?]). apply si_count0.
  - rewrite map_size_insert_None by done. lia.
  - intros i n. destruct (decide (id = i)) as [<-|Hne]; [by rewrite lookup_insert_eq|]. rewrite lookup_insert_ne by done. apply si_chunk0.
Qed.

Lemma inv_count id name s :
  svc_inv s -> ss_requests s !! id = None -> Z.of_nat (size (ss_requests s)) + 1 < two32 -> is_chunk name ->
  svc_inv (count_request id name (bind_request id name s)).
Proof.
  intros [] Hid Hsz Hch. split; unfold in_flight; simpl; rewrite ?insert_insert_eq.
  - intros n. rewrite in_flight_insert by done. unfold rm_increment. specialize (si_count0 n). unfold in_flight in si_count0.
    destruct (decide (name = n)) as [<-|Hne].
    + rewrite lookup_insert_eq. rewrite (decide_True (P := name = name /\ true = true)) by done. rewrite (decide_False (P := <[_ := _]> _ = ∅)) by apply insert_non_empty.
      rewrite map_size_insert_None by (by rewrite map_lookup_filter, Hid). f_equal. rewrite si_count0.
      pose proof (in_flight_size name s) as Hle. unfold in_flight in Hle. destruct (decide _) as [He|He]; simpl.
      * rewrite He. done.
      * unfold wrap32. rewrite Z.mod_small; [lia|]. unfold two32 in *. lia.
    + rewrite lookup_insert_ne by done. rewrite (decide_False (P := n = name /\ _)) by naive_solver. done.
  - rewrite map_size_insert_None by done. lia.
  - intros i n. destruct (decide (id = i)) as [<-|Hne]; [rewrite lookup_insert_eq; by intros [= <-]|]. rewrite lookup_insert_ne by done. apply si_chunk0.
Qed.

(** Other members do not matter. *)
Lemma inv_members s s' : ss_publisher s' = ss_publisher s -> ss_requests s' = ss_requests s -> svc_inv s -> svc_inv s'.
Proof. intros Hp Hr []. split; unfold in_flight in *; rewrite ?Hp, ?Hr; done. Qed.

Lemma inv_execute id name data s s' :
  svc_inv s -> ss_requests s !! id = None -> Z.of_nat (size (ss_requests s)) + 1 < two32 -> execute id name data s = Ret s' -> svc_inv s'.
Proof.
  intros Hi Hid Hsz He. unfold execute in He. apply bind_ret_inv in He as (ru & Hru & He).
  pose proof (inv_bind id name s Hi Hid Hsz) as Hb. destruct (negb _); [injection He as <-; by eapply inv_members; [| |exact Hb]|].
  destruct (ru_unitType ru) eqn:Eu; try (injection He as <-; by eapply inv_members; [| |exact Hb]).
  - assert (Hc : svc_inv (count_request id name (bind_request id name s))) by (apply inv_count; try done; by exists ru).
    destruct (parseTask data) as [[[db|] [chunkid|]]|]; try (injection He as <-; by eapply inv_members; [| |exact Hc]).
    destruct (_ && _); injection He as <-; by eapply inv_members; [| |exact Hc].
  - destruct (parseCommand data); injection He as <-; by eapply inv_members; [| |exact Hb].
Qed.

Lemma in_flight_delete id n (m : gmap nat (string * bool)) :
  filter (fun x => x.2 = (n, true)) (delete id m) = delete id (filter (fun x => x.2 = (n, true)) m).
Proof. apply map_filter_delete. Qed.

Lemma inv_finish id s s' :
  svc_inv s -> (forall r, ss_requests s !! id = Some r -> ~ refused r) -> Finished id s = Ret s' -> svc_inv s'.
Proof.
  intros Hi Href He. unfold Finished in He. destruct (ss_requests s !! id) as [[name c]|] eqn:Er; [|done].
  apply bind_ret_inv in He as (ru & Hru & [= <-]). destruct Hi. specialize (Href _ eq_refl).
  assert (Hc : c = true \/ ru_unitType ru <> DBCHUNK).
  { destruct c; [by left|right]. intros Hu. apply Href. split; [by exists ru|done]. }
  assert (Hch : c = true -> ru_unitType ru = DBCHUNK).
  { intros ->. destruct (si_chunk0 _ _ Er) as (ru' & Hru' & Hu). congruence. }
  split; cbn [ss_publisher ss_requests]; [|rewrite map_size_delete_Some by done; lia|].
  - intros n. unfold in_flight. cbn [ss_requests]. rewrite in_flight_delete. specialize (si_count0 n). unfold in_flight in si_count0.
    destruct (decide (n = name /\ c = true)) as [[-> ->]|Hne].
    + rewrite (Hch eq_refl). cbn [set_monitor pb_monitor]. unfold rm_decrement. rewrite si_count0.
      assert (Hin : filter (fun x => x.2 = (name, true)) (ss_requests s) !! id = Some (name, true)) by (by apply map_lookup_filter_Some).
      assert (Hne : filter (fun x => x.2 = (name, true)) (ss_requests s) <> ∅) by (intros Hz; by rewrite Hz in Hin).
      rewrite decide_False by done. assert (Hsz := map_size_delete_Some _ _ (mk_is_Some _ _ Hin)). pose proof (in_flight_size name s) as Hle. unfold in_flight in Hle.
      assert (Hpos : size (filter (fun x => x.2 = (name, true)) (ss_requests s)) <> 0%nat) by (by rewrite map_size_empty_iff).
      set (F := filter _ _) in *. unfold wrap32. rewrite Z.mod_small by lia. destruct (Z.eqb_spec (Z.of_nat (size F) - 1) 0) as [Hz|Hz].
      * rewrite lookup_delete_eq, decide_True; [done|]. apply map_size_empty_iff. lia.
      * rewrite lookup_insert_eq, decide_False; [f_equal; lia|]. rewrite <- map_size_empty_iff. lia.
    + assert (Hno : filter (fun x => x.2 = (n, true)) (ss_requests s) !! id = None).
      { apply map_lookup_filter_None. right. intros x Hx. simpl. rewrite Er in Hx. injection Hx as <-. naive_solver. }
      rewrite delete_id by done. rewrite <- si_count0. destruct (ru_unitType ru) eqn:Eu; try done. destruct Hc as [->|Hc]; [|done].
      cbn [set_monitor pb_monitor]. assert (n <> name) by naive_solver. unfold rm_decrement. destruct (pb_monitor _ !! name); [|done].
      destruct (_ =? 0); [by rewrite lookup_delete_ne|by rewrite lookup_insert_ne].
  - intros i n. destruct (decide (id = i)) as [<-|Hne]; [by rewrite lookup_delete_eq|]. rewrite lookup_delete_ne by done. apply si_chunk0.
Qed.

Lemma svc_reach_inv s : svc_reach s -> svc_inv s.
Proof.
  induction 1 as [p Hp|id name data s s' _ IH Hid Hsz He|id s s' _ IH Href He|s _ IH].
  - split; simpl; [|done|done]. intros name. unfold in_flight. simpl. rewrite map_filter_empty, decide_True by done. by rewrite Hp.
  - by eapply inv_execute.
  - by eapply inv_finish.
  - unfold next_command. destruct (ss_commands s) as [|[i c] cs]; [done|]. destruct IH. split; try done. simpl. intros name.
    rewrite command_monitor. apply si_count0.
Qed.

End requests.

(** ** A concrete service *)

Module RequestDemo.
Local Open Scope string_scope.

Definition parseTask (_ : string) : option (option string * option Z) := Some (Some "LSST", Some 2).
(** Removal of chunk 2 by force *)
Definition parseCommand (_ : string) : option Command := Some (RemoveChunkGroup 2 ["LSST"] true).

Definition init : Service TableDb := mkService (set_monitor ∅ PublishDemo.start) ∅ [] [] [].
Definition or_init (o : outcome (Service TableDb)) : Service TableDb := match o with Ret s => s | Raise _ => init end.

(** A request for chunk 2, and a command *)
Definition one : Service TableDb := or_init (execute parseTask parseCommand 1 "/chk/LSST/2" "" init).
Definition two : Service TableDb := or_init (execute parseTask parseCommand 2 "/worker/worker1" "" one).

Lemma one_request_reach : svc_reach "worker" parseTask parseCommand one.
Proof. apply (sr_execute _ _ _ 1 "/chk/LSST/2" "" init); [by apply sr_init|reflexivity|vm_compute; reflexivity|reflexivity]. Qed.

(** The command is run, another request for the chunk is refused, and finishes. *)
Definition removed : Service TableDb := next_command "worker" two.
Definition again : Service TableDb := or_init (execute parseTask parseCommand 3 "/chk/LSST/2" "" removed).
Definition finished : Service TableDb := or_init (Finished 3 again).
End RequestDemo.


(** [Finished] decrements the count of every request for a chunk, also of one that was
    refused before it was counted: the chunk has a request in flight and a count of
    0, and the next removal reports success. *)
Example refused_request_uncounts :
  ss_errors RequestDemo.again = [3%nat] /\ rm_count "/chk/LSST/2" (pb_monitor (ss_publisher RequestDemo.again)) = 1 /\
  size (in_flight "/chk/LSST/2" RequestDemo.finished) = 1%nat /\ rm_count "/chk/LSST/2" (pb_monitor (ss_publisher RequestDemo.finished)) = 0 /\
  (run_command "worker" (RemoveChunkGroup 2 ["LSST"%string] false) (ss_publisher RequestDemo.finished)).2 = ChunkGroupR Status.SUCCESS.
Proof. vm_compute. done. Qed.
