(* ===== verification/QueryIr.v ===== *)
(** * The representation of queries

    The classes of [query/] as inductive types: column references, value
    expressions, predicates, boolean terms ([BoolTerm], [AndTerm], [OrTerm],
    [BoolFactor], [LogicalTerm]), table references with their joins, and the
    operations on them that analysis uses: [getColumnRef], [findColumnRefs],
    [findValueExprs], [getReduced], [merge], the root terms of [WhereClause].
    Pointers inside a tree are never null, except in a [BoolTermFactor] and where
    a [WHERE] clause has no root; [clone] is the identity on values.

    At the end, the truth of boolean terms in the three-valued logic of SQL, and
    that [getReduced] preserves it. *)

From Stdlib Require Import Ascii String.
From S2P Require Import Prelude.

Local Open Scope Z_scope.

(** ** [ColumnRef] *)

Record ColumnRef := mkColumnRef { cr_db : string; cr_table : string; cr_column : string }.

#[export] Instance ColumnRef_eq_dec : EqDecision ColumnRef.
Proof. solve_decision. Defined.

Definition isSubsetOf (c rhs : ColumnRef) : bool :=
  if bool_decide (cr_column c = ""%string) || bool_decide (cr_column rhs = ""%string) then false
  else if bool_decide (cr_table c = ""%string) && bool_decide (cr_db c <> ""%string) then false
  else if bool_decide (cr_table rhs = ""%string) && bool_decide (cr_db rhs <> ""%string) then false
  else if bool_decide (cr_db c <> ""%string) && bool_decide (cr_db c <> cr_db rhs) then false
  else if bool_decide (cr_table c <> ""%string) && bool_decide (cr_table c <> cr_table rhs) then false
  else bool_decide (cr_column c = cr_column rhs).

(** ** [ValueExpr], [ValueFactor] and [FuncExpr] *)

Inductive Op :=
| NONE | UNKNOWN | PLUS | MINUS | MULTIPLY | DIVIDE | DIV | MOD | MODULO
| BIT_SHIFT_LEFT | BIT_SHIFT_RIGHT | BIT_AND | BIT_OR | BIT_XOR.

#[export] Instance Op_eq_dec : EqDecision Op.
Proof. solve_decision. Defined.

Inductive ValueFactor :=
| COLUMNREF (c : ColumnRef)
| FUNCTION (name : string) (params : list ValueExpr)
| AGGFUNC (name : string) (params : list ValueExpr)
| STAR (table : string)
| CONST (val : string)
| EXPR (e : ValueExpr)
with ValueExpr :=
| mkValueExpr (alias : string) (factorOps : list (ValueFactor * Op)).

Definition getFactorOps (e : ValueExpr) : list (ValueFactor * Op) := let 'mkValueExpr _ fs := e in fs.
Definition ve_alias (e : ValueExpr) : string := let 'mkValueExpr a _ := e in a.

(** [newSimple] *)
Definition newSimple (f : ValueFactor) : ValueExpr := mkValueExpr "" [(f, NONE)].

(** [ValueFactor::getColumnRef], [ValueExpr::getColumnRef] and [copyAsColumnRef] *)
Definition vf_getColumnRef (f : ValueFactor) : option ColumnRef :=
  match f with COLUMNREF c => Some c | _ => None end.
Definition getColumnRef (e : ValueExpr) : option ColumnRef :=
  match getFactorOps e with [(f, _)] => vf_getColumnRef f | _ => None end.

(** [copyAsLiteral] *)
Definition copyAsLiteral (e : ValueExpr) : string :=
  match getFactorOps e with [(CONST v, _)] => v | _ => "" end.

(** [hasAggregation], with [CheckAggregation] *)
Definition hasAggregation (e : ValueExpr) : bool :=
  existsb (fun fo => match fo.1 with AGGFUNC _ _ => true | _ => false end) (getFactorOps e).

Definition isFactor (e : ValueExpr) : bool := match getFactorOps e with [_] => true | _ => false end.
Definition isStar (e : ValueExpr) : bool := match getFactorOps e with [(STAR _, _)] => true | _ => false end.
Definition isColumnRef (e : ValueExpr) : bool := match getFactorOps e with [(COLUMNREF _, _)] => true | _ => false end.
Definition isFunction (e : ValueExpr) : bool := match getFactorOps e with [(FUNCTION _ _, _)] => true | _ => false end.

(** [addOp]: false when there is no factor yet *)
Fixpoint set_last_op (op : Op) (fs : list (ValueFactor * Op)) : list (ValueFactor * Op) :=
  match fs with [] => [] | [(f, _)] => [(f, op)] | fo :: fs' => fo :: set_last_op op fs' end.
Definition addOp (op : Op) (e : ValueExpr) : ValueExpr * bool :=
  match getFactorOps e with [] => (e, false) | fs => (mkValueExpr (ve_alias e) (set_last_op op fs), true) end.
Definition addValueFactor (f : ValueFactor) (e : ValueExpr) : ValueExpr :=
  mkValueExpr (ve_alias e) (getFactorOps e ++ [(f, NONE)]).

(** [findColumnRefs] *)
Fixpoint ve_findColumnRefs (e : ValueExpr) : list ColumnRef :=
  let 'mkValueExpr _ fs := e in
  flat_map (fun fo =>
    match fo.1 with
    | COLUMNREF c => [c]
    | FUNCTION _ ps | AGGFUNC _ ps => flat_map ve_findColumnRefs ps
    | STAR _ | CONST _ => []
    | EXPR e' => ve_findColumnRefs e'
    end) fs.

(** ** Predicates and boolean terms *)

Inductive OpType :=
| EQUALS_OP | NULL_SAFE_EQUALS_OP | NOT_EQUALS_OP | LESS_THAN_OP | GREATER_THAN_OP
| LESS_THAN_OR_EQUALS_OP | GREATER_THAN_OR_EQUALS_OP | NOT_EQUALS_OP_ALT.

#[export] Instance OpType_eq_dec : EqDecision OpType.
Proof. solve_decision. Defined.

(** [opTypeToStr] and [lookupOp]; [lookupOp] looks at the first two characters. *)
Definition opTypeToStr (op : OpType) : string :=
  match op with
  | EQUALS_OP => "=" | NULL_SAFE_EQUALS_OP => "<=>" | NOT_EQUALS_OP => "<>" | LESS_THAN_OP => "<"
  | GREATER_THAN_OP => ">" | LESS_THAN_OR_EQUALS_OP => "<=" | GREATER_THAN_OR_EQUALS_OP => ">="
  | NOT_EQUALS_OP_ALT => "!="
  end.
Definition lookupOp (op : string) : outcome OpType :=
  match op with
  | String "<" EmptyString => Ret LESS_THAN_OP
  | String "<" (String ">" _) => Ret NOT_EQUALS_OP
  | String "<" (String "=" _) => Ret LESS_THAN_OR_EQUALS_OP
  | String ">" EmptyString => Ret GREATER_THAN_OP
  | String ">" (String "=" _) => Ret GREATER_THAN_OR_EQUALS_OP
  | String "=" _ => Ret EQUALS_OP
  | _ => Raise InvalidArgument
  end.

Inductive BoolTerm :=
| AndTerm (terms : list BoolTerm)
| OrTerm (terms : list BoolTerm)
| BoolFactor (terms : list BoolFactorTerm) (hasNot : bool)
| UnknownTerm
with BoolFactorTerm :=
| PassTerm (text : string)
| PassListTerm (terms : list string)
| BoolTermFactor (term : option BoolTerm)
| CompPredicate (left : ValueExpr) (op : OpType) (right : ValueExpr)
| InPredicate (value : ValueExpr) (cands : list ValueExpr) (hasNot : bool)
| BetweenPredicate (value minValue maxValue : ValueExpr) (hasNot : bool)
| LikePredicate (value charValue : ValueExpr) (hasNot : bool)
| NullPredicate (value : ValueExpr) (hasNot : bool).

(** [findValueExprs] and [findColumnRefs] of terms and factor terms *)
Fixpoint findValueExprs (t : BoolTerm) : list ValueExpr :=
  match t with
  | AndTerm ts | OrTerm ts => flat_map findValueExprs ts
  | BoolFactor fs _ =>
      flat_map (fun f =>
        match f with
        | PassTerm _ | PassListTerm _ | BoolTermFactor None => []
        | BoolTermFactor (Some t') => findValueExprs t'
        | CompPredicate l _ r => [l; r]
        | InPredicate v cs _ => v :: cs
        | BetweenPredicate v lo hi _ => [v; lo; hi]
        | LikePredicate v c _ => [v; c]
        | NullPredicate v _ => [v]
        end) fs
  | UnknownTerm => []
  end.
Definition findColumnRefs (t : BoolTerm) : list ColumnRef := flat_map ve_findColumnRefs (findValueExprs t).

(** [merge] of [AndTerm] and [OrTerm]; [true] when the terms were taken over *)
Inductive MergeBehavior := APPEND | PREPEND.
Definition and_merge (ts : list BoolTerm) (other : BoolTerm) (b : MergeBehavior) : list BoolTerm * bool :=
  match other with
  | AndTerm us => (match b with PREPEND => us ++ ts | APPEND => ts ++ us end, true)
  | _ => (ts, false)
  end.
Definition or_merge (ts : list BoolTerm) (other : BoolTerm) : list BoolTerm * bool :=
  match other with OrTerm us => (ts ++ us, true) | _ => (ts, false) end.

(** ** [getReduced]: [None] is a null pointer, no reduction *)

(** [_checkParen] *)
Definition checkParen (fs : list BoolFactorTerm) : bool :=
  match fs with
  | [PassTerm o; f; PassTerm c] =>
      bool_decide (o = "("%string) && bool_decide (c = ")"%string) &&
      match f with
      | BoolTermFactor (Some (AndTerm _)) | BoolTermFactor (Some (OrTerm _)) => false
      | _ => true
      end
  | _ => false
  end.

(** [_reduceTerms]: the new terms and whether something was reduced *)
Definition reduceTerm (getReduced : BoolTerm -> option BoolTerm) (f : BoolFactorTerm) : list BoolFactorTerm * bool :=
  match f with
  | BoolTermFactor (Some t) =>
      match getReduced t with
      | Some (BoolFactor fs _) => (fs, true)
      | Some r => ([BoolTermFactor (Some r)], true)
      | None => ([f], false)
      end
  | BoolTermFactor None => ([], true)
  | _ => ([f], false)
  end.
Definition strip_paren (fs : list BoolFactorTerm) : list BoolFactorTerm * bool :=
  if checkParen fs then (match fs with [_; f; _] => [f] | _ => fs end, true) else (fs, false).

Fixpoint getReduced (t : BoolTerm) : option BoolTerm :=
  match t with
  | AndTerm [u] | OrTerm [u] => match getReduced u with Some r => Some r | None => Some u end
  | AndTerm _ | OrTerm _ | UnknownTerm => None
  | BoolFactor fs hasNot =>
      let reduced := map (reduceTerm getReduced) fs in
      let '(fs', paren) := strip_paren (concat reduced.*1) in
      if existsb id reduced.*2 || paren then Some (BoolFactor fs' hasNot) else None
  end.

(** ** [WhereClause] *)

(** [setRootTerm]: the root is an [OrTerm] *)
Definition setRootTerm (t : BoolTerm) : BoolTerm := match t with OrTerm _ => t | _ => OrTerm [t] end.

(** [getRootAndTerm] *)
Definition getRootAndTerm (root : option BoolTerm) : option (list BoolTerm) :=
  match root with Some (OrTerm [AndTerm ts]) => Some ts | _ => None end.

(** [prependAndTerm] *)
Definition prependAndTerm (t : BoolTerm) (root : option BoolTerm) : outcome BoolTerm :=
  let? ts := match root with
             | None | Some (OrTerm []) => Ret []
             | Some (OrTerm [AndTerm ts]) => Ret ts
             | _ => Raise LogicError
             end in
  let '(ts', merged) := and_merge ts t PREPEND in
  Ret (OrTerm [AndTerm (if merged then ts' else t :: ts)]).

(** ** [TableRef], [JoinRef], [JoinSpec] and [SelectStmt] *)

Inductive JoinType := DEFAULT_JOIN | INNER | LEFT | RIGHT | FULL | CROSS | UNION.

#[export] Instance JoinType_eq_dec : EqDecision JoinType.
Proof. solve_decision. Defined.

Record JoinSpec := mkJoinSpec { js_using : option ColumnRef; js_on : option BoolTerm }.

(** [tr_addr] is the address of the object: relation graphs refer to table
    references and change them. *)
Inductive TableRef := mkTableRef {
  tr_addr : nat; tr_db : string; tr_table : string; tr_alias : string; tr_joins : list JoinRef }
with JoinRef := mkJoinRef {
  jr_right : TableRef; jr_type : JoinType; jr_natural : bool; jr_spec : option JoinSpec }.

Record SelectStmt := mkSelectStmt {
  ss_selectList : list ValueExpr;
  ss_fromList : list TableRef;
  ss_where : option BoolTerm;
  ss_groupBy : list ValueExpr;
  ss_having : list ValueExpr;
  ss_orderBy : list ValueExpr;
}.

(** [verifyPopulated] *)
Fixpoint verifyPopulated (defaultDb : string) (tr : TableRef) : outcome TableRef :=
  let 'mkTableRef a db table alias joins := tr in
  if bool_decide (table = ""%string) then Raise LogicError
  else
    let? db' := if bool_decide (db = ""%string)
                then if bool_decide (defaultDb = ""%string) then Raise LogicError else Ret defaultDb
                else Ret db in
    let? joins' :=
      (fix each (js : list JoinRef) : outcome (list JoinRef) :=
         match js with
         | [] => Ret []
         | mkJoinRef r ty nat spec :: js' =>
             let? r' := verifyPopulated defaultDb r in
             let? js'' := each js' in
             Ret (mkJoinRef r' ty nat spec :: js'')
         end) joins in
    Ret (mkTableRef a db' table alias joins').

(** The table references of a tree, in the order in which [apply] visits them *)
Fixpoint all_refs (tr : TableRef) : list TableRef :=
  tr :: flat_map (fun j => all_refs (jr_right j)) (tr_joins tr).

(** [computeResolverTables] *)
Definition computeResolverTables (refs : list TableRef) : list (string * string) :=
  map (fun tr => (tr_db tr, tr_table tr)) (flat_map all_refs refs).

(** [isSimple], [FromList::isJoin] *)
Definition isSimple (tr : TableRef) : bool := match tr_joins tr with [] => true | _ => false end.
Definition isJoin (refs : list TableRef) : bool := (1 <? length (filter (fun tr => isSimple tr = true) refs))%nat.

(** ** Induction on boolean terms *)

(** The terms directly inside a factor term *)
Definition inner_terms (f : BoolFactorTerm) : list BoolTerm := match f with BoolTermFactor (Some t) => [t] | _ => [] end.

Section ind.
Context (P : BoolTerm -> Prop).
Context (Hand : forall ts, Forall P ts -> P (AndTerm ts)) (Hor : forall ts, Forall P ts -> P (OrTerm ts)).
Context (Hfactor : forall fs n, Forall (fun f => Forall P (inner_terms f)) fs -> P (BoolFactor fs n)) (Hunknown : P UnknownTerm).

Fixpoint BoolTerm_rect' (t : BoolTerm) : P t :=
  let each := fix each ts : Forall P ts := match ts with [] => Forall_nil_2 _ | t :: ts' => Forall_cons_2 _ _ _ (BoolTerm_rect' t) (each ts') end in
  match t with
  | AndTerm ts => Hand ts (each ts)
  | OrTerm ts => Hor ts (each ts)
  | BoolFactor fs n =>
      Hfactor fs n ((fix go fs : Forall (fun f => Forall P (inner_terms f)) fs :=
        match fs with
        | [] => Forall_nil_2 _
        | f :: fs' =>
            Forall_cons_2 (fun f => Forall P (inner_terms f)) f fs'
              (match f with
               | BoolTermFactor (Some t) => Forall_cons_2 P t [] (BoolTerm_rect' t) (Forall_nil_2 P)
               | _ => Forall_nil_2 P
               end) (go fs')
        end) fs)
  | UnknownTerm => Hunknown
  end.
End ind.

(** ** Truth *)

(** Three-valued logic; [None] is unknown. *)
Definition k_not (a : option bool) : option bool := negb <$> a.
Definition k_and (a b : option bool) : option bool :=
  match a, b with
  | Some false, _ | _, Some false => Some false
  | Some true, Some true => Some true
  | _, _ => None
  end.
Definition k_or (a b : option bool) : option bool := k_not (k_and (k_not a) (k_not b)).

(** The factor term between matching parentheses *)
Fixpoint closes (k : nat) (fs : list BoolFactorTerm) : bool :=
  match k, fs with
  | O, [] => true
  | S k', PassTerm c :: fs' => bool_decide (c = ")"%string) && closes k' fs'
  | _, _ => false
  end.
Fixpoint core_of (k : nat) (fs : list BoolFactorTerm) : option BoolFactorTerm :=
  match fs with
  | [] => None
  | PassTerm o :: fs' => if bool_decide (o = "("%string) then core_of (S k) fs' else None
  | f :: fs' => if closes k fs' then Some f else None
  end.

Section truth.
(** The truth of the predicates for a joined row; unknown for what is not a
    predicate. *)
Context (pred_truth : BoolFactorTerm -> option bool).

Fixpoint truth (t : BoolTerm) : option bool :=
  match t with
  | AndTerm ts => foldr (fun u a => k_and (truth u) a) (Some true) ts
  | OrTerm ts => foldr (fun u a => k_or (truth u) a) (Some false) ts
  | BoolFactor fs hasNot =>
      let v := (fix go k fs :=
        match fs with
        | [] => None
        | PassTerm o :: fs' => if bool_decide (o = "("%string) then go (S k) fs' else None
        | BoolTermFactor (Some u) :: fs' => if closes k fs' then truth u else None
        | f :: fs' => if closes k fs' then pred_truth f else None
        end) O fs in
      if hasNot : bool then k_not v else v
  | UnknownTerm => None
  end.

Definition ftruth (f : BoolFactorTerm) : option bool :=
  match f with BoolTermFactor (Some u) => truth u | _ => pred_truth f end.

Lemma truth_factor fs n :
  truth (BoolFactor fs n) = let v := core_of 0 fs ≫= ftruth in if n then k_not v else v.
Proof.
  simpl. f_equal.
  assert (H : forall k, (fix go k fs :=
        match fs with
        | [] => None
        | PassTerm o :: fs' => if bool_decide (o = "("%string) then go (S k) fs' else None
        | BoolTermFactor (Some u) :: fs' => if closes k fs' then truth u else None
        | f :: fs' => if closes k fs' then pred_truth f else None
        end) k fs = core_of k fs ≫= ftruth).
  { induction fs as [|f fs IH]; intros k; [done|].
    destruct f as [o| |[u|]| | | | |]; cbn [core_of]; by case_match. }
  by rewrite H.
Qed.

(** ** Reduction preserves truth *)

(** Every factor is a term in parentheses, and no factor that is taken apart is
    negated. *)
Definition negated_factor (t : option BoolTerm) : bool := match t with Some (BoolFactor _ true) => true | _ => false end.
Fixpoint reducible (t : BoolTerm) : bool :=
  match t with
  | AndTerm ts | OrTerm ts => forallb reducible ts
  | BoolFactor fs _ =>
      bool_decide (is_Some (core_of 0 fs)) &&
      forallb (fun f =>
        match f with
        | BoolTermFactor (Some u) => reducible u && negb (negated_factor (getReduced u))
        | BoolTermFactor None => false
        | _ => true
        end) fs
  | UnknownTerm => true
  end.

Lemma k_and_true a : k_and a (Some true) = a.
Proof. by destruct a as [[]|]. Qed.
Lemma k_or_false a : k_or a (Some false) = a.
Proof. by destruct a as [[]|]. Qed.

Definition parens (k : nat) (f : BoolFactorTerm) : list BoolFactorTerm :=
  repeat (PassTerm "(") k ++ f :: repeat (PassTerm ")") k.
Definition atomic (f : BoolFactorTerm) : Prop := match f with PassTerm _ => False | _ => True end.

Lemma closes_spec k fs : closes k fs = true <-> fs = repeat (PassTerm ")") k.
Proof.
  revert fs. induction k as [|k IH]; intros [|[c| | | | | | |] fs]; simpl; try done.
  rewrite andb_true_iff, bool_decide_eq_true, IH. naive_solver.
Qed.

Lemma core_of_spec k fs f : core_of k fs = Some f <-> atomic f /\ exists j, fs = repeat (PassTerm "(") j ++ f :: repeat (PassTerm ")") (k + j).
Proof.
  revert k. induction fs as [|g fs IH]; intros k.
  { simpl. split; [done|]. intros (_ & [|j] & [=]). }
  destruct g as [o| | | | | | |] eqn:Eg; cbn [core_of].
  1: { case_bool_decide as Ho.
       - subst o. rewrite IH. split; intros (Ha & j & Hj).
         + split; [done|]. exists (S j). simpl. rewrite Hj. by rewrite Nat.add_succ_r.
         + split; [done|]. destruct j as [|j]; simpl in Hj; [by injection Hj as <- ->|].
           injection Hj as Hj. exists j. rewrite Hj. by rewrite Nat.add_succ_r.
       - split; [done|]. intros (Ha & [|j] & Hj); simpl in Hj; injection Hj; [intros _ <-; done|congruence]. }
  all: destruct (closes k fs) eqn:Ec;
    [rewrite closes_spec in Ec; subst fs; split; [intros [= <-]; split; [done|]; exists O; by rewrite Nat.add_0_r|
       intros (Ha & [|j] & Hj); simpl in Hj; by simplify_eq]
    |split; [done|]; intros (Ha & [|j] & Hj); simpl in Hj; simplify_eq; rewrite Nat.add_0_r in Ec;
     assert (closes k (repeat (PassTerm ")") k) = true) by (by apply closes_spec); congruence].
Qed.

Lemma core_parens fs f : core_of 0 fs = Some f <-> atomic f /\ exists k, fs = parens k f.
Proof. apply core_of_spec. Qed.

Lemma checkParen_length fs : checkParen fs = true -> length fs = 3%nat.
Proof. by destruct fs as [|[| | | | | | |] [|? [|[| | | | | | |] [|]]]]. Qed.

Lemma strip_paren_core fs f : core_of 0 fs = Some f -> core_of 0 (strip_paren fs).1 = Some f.
Proof.
  rewrite core_parens. intros (Ha & k & ->). unfold strip_paren. destruct (checkParen _) eqn:Ec; [|apply core_parens; eauto].
  destruct k as [|[|k]]; [by destruct f|apply core_parens; split; [done|]; by exists O|].
  apply checkParen_length in Ec. unfold parens in Ec. simpl in Ec. rewrite length_app in Ec. simpl in Ec. lia.
Qed.

Lemma reduced_parens (k : nat) f :
  concat (map (reduceTerm getReduced) (parens k f)).*1 = repeat (PassTerm "(") k ++ (reduceTerm getReduced f).1 ++ repeat (PassTerm ")") k.
Proof.
  assert (H : forall s l, concat (map (reduceTerm getReduced) (repeat (PassTerm s) k ++ l)).*1 =
                          repeat (PassTerm s) k ++ concat (map (reduceTerm getReduced) l).*1).
  { intros s l. induction k; simpl; [done|by f_equal]. }
  unfold parens. rewrite H. simpl. rewrite <-(app_nil_r (repeat (PassTerm ")") k)) at 1. rewrite H. simpl. by rewrite app_nil_r.
Qed.

Lemma core_wrap (k : nat) fs f : core_of 0 fs = Some f -> core_of 0 (repeat (PassTerm "(") k ++ fs ++ repeat (PassTerm ")") k) = Some f.
Proof.
  rewrite !core_parens. intros (Ha & j & ->). split; [done|]. exists (k + j)%nat. unfold parens.
  rewrite (Nat.add_comm k j) at 2. by rewrite !repeat_app, <-!app_assoc.
Qed.

(** The term that [getReduced] makes is as true as the original, in every row. *)
Lemma getReduced_truth t r :
  reducible t = true -> getReduced t = Some r ->
  truth r = truth t /\ match r with BoolFactor fs _ => is_Some (core_of 0 fs) | _ => True end.
Proof.
  revert r. induction t as [ts IH|ts IH|fs n IH|] using BoolTerm_rect'; intros r Hok Hr; [| | |done].
  1,2: destruct ts as [|u [|]]; try done; apply Forall_cons in IH as [IH _]; simpl in Hok; rewrite andb_true_r in Hok;
    simpl; rewrite ?k_and_true, ?k_or_false; simpl in Hr; destruct (getReduced u) as [r'|] eqn:Eu;
    [injection Hr as <-; by apply IH|]; injection Hr as <-; split; [done|]; destruct u as [| |fs n|]; try done;
    cbn in Hok; apply andb_true_iff in Hok as [Hok _]; by apply bool_decide_eq_true in Hok.
  cbn in Hok. apply andb_true_iff in Hok as [Hcore Hfs]. apply bool_decide_eq_true in Hcore as [f Hf].
  pose proof Hf as Hf'. apply core_parens in Hf' as (Ha & k & ->).
  assert (Hnew : exists g, core_of 0 (concat (map (reduceTerm getReduced) (parens k f)).*1) = Some g /\ ftruth g = ftruth f).
  { rewrite reduced_parens. assert (Hin : f ∈ parens k f) by (unfold parens; set_solver).
    rewrite Forall_forall in IH. rewrite forallb_forall in Hfs.
    specialize (IH f Hin). specialize (Hfs f ltac:(by apply list_elem_of_In)).
    assert (Hsame : core_of 0 (repeat (PassTerm "(") k ++ [f] ++ repeat (PassTerm ")") k) = Some f) by (apply core_parens; eauto).
    destruct f as [| |[u|]| | | | |]; try done; cbn [reduceTerm]; eauto.
    apply andb_true_iff in Hfs as [Hu Hneg]. apply Forall_cons in IH as [IH _].
    destruct (getReduced u) as [r'|] eqn:Eu; [|eauto]. destruct (IH r' Hu eq_refl) as [Ht Hc].
    destruct r' as [ts|ts|gs [|]|]; try done.
    1,2,4: eexists (BoolTermFactor (Some _)); split; [apply core_parens; split; [done|by exists k]|exact Ht].
    destruct Hc as [g Hg]. exists g. split; [by apply core_wrap|]. cbn [ftruth]. rewrite <-Ht, truth_factor, Hg. done. }
  destruct Hnew as (g & Hg & Htr). cbn [getReduced] in Hr. destruct (strip_paren _) as [fs' b] eqn:Es.
  assert (Hfs' : core_of 0 fs' = Some g). { apply strip_paren_core in Hg. by rewrite Es in Hg. }
  case_match; [|done]. injection Hr as <-. split; [|eauto]. rewrite !truth_factor, Hfs', Hf. simpl. by rewrite Htr.
Qed.
End truth.

(** ** Examples *)

Definition some_predicate : BoolFactorTerm := NullPredicate (newSimple (CONST "1")) false.

(** [_reduceTerms] takes the terms of a negated factor without its [NOT]:
    [((NOT (p)))] becomes [p]. *)
Lemma reduction_loses_not :
  let t := BoolFactor [BoolTermFactor (Some (BoolFactor [PassTerm "("; some_predicate; PassTerm ")"] true))] false in
  getReduced t = Some (BoolFactor [some_predicate] false) /\
  forall v, truth (fun _ => Some v) t = Some (negb v) /\ truth (fun _ => Some v) (BoolFactor [some_predicate] false) = Some v.
Proof. split; [done|]. by intros []. Qed.

(** A reference with joins is not a simple one: a [FROM] list with one is no join. *)
Lemma join_not_seen a b t t' : isJoin [mkTableRef a "db" t "" [mkJoinRef (mkTableRef b "db" t' "" []) INNER false None]] = false.
Proof. done. Qed.

(** Operators that cannot be read back *)
Lemma lookupOp_gaps : lookupOp (opTypeToStr NOT_EQUALS_OP_ALT) = Raise InvalidArgument /\
  lookupOp (opTypeToStr NULL_SAFE_EQUALS_OP) = Ret LESS_THAN_OR_EQUALS_OP.
Proof. done. Qed.
