(* ===== verification/TableInfo.v ===== *)
(** * Metadata of partitioned tables

    [qana/TableInfo]: what query analysis knows of a director, child or match
    table, which equality predicates between two tables say something about
    their partitions ([isEqPredAdmissible], with its double dispatch), the
    references to join columns ([makeColumnRefs]) and the names of chunk tables.
    [qana/TableInfoPool]: the cache of this metadata over the common state
    system ([CssAccess.v]).  The metadata objects never change, so pointers to
    them are values. *)

From Stdlib Require Import Ascii String.
From S2P Require Import Prelude.
From S2P Require Import StdString.
From S2P Require Import Double.
From S2P Require Import StdFloat.
From S2P Require Import KvInterface.
From S2P Require Import PropertyTree.
From S2P Require Import CssAccess.
From S2P Require Import QueryIr.

Local Open Scope Z_scope.

(** ** [TableInfo] and its subclasses *)

Record DirTableInfo := mkDirTableInfo {
  di_database : string; di_table : string;
  di_pk : string; di_lon : string; di_lat : string;
  di_partitioningId : Z; di_overlap : double }.

Inductive TableInfo :=
| DIRECTOR (d : DirTableInfo)
| CHILD (database table : string) (director : DirTableInfo) (fk : string)
| MATCH (database table : string) (director1 director2 : DirTableInfo) (fk1 fk2 : string) (angSep : double).

Definition ti_database (t : TableInfo) : string :=
  match t with DIRECTOR d => di_database d | CHILD db _ _ _ => db | MATCH db _ _ _ _ _ _ => db end.
Definition ti_table (t : TableInfo) : string :=
  match t with DIRECTOR d => di_table d | CHILD _ tb _ _ => tb | MATCH _ tb _ _ _ _ _ => tb end.

(** [operator==] and [operator<] *)
Definition ti_key (t : TableInfo) : string * string := (ti_table t, ti_database t).
Definition dir_eq (d e : DirTableInfo) : bool :=
  bool_decide (di_database d = di_database e) && bool_decide (di_table d = di_table e).
Definition key_lt (x y : string * string) : bool := str_lt x.1 y.1 || (bool_decide (x.1 = y.1) && str_lt x.2 y.2).

(** [getSubChunkDb], [getChunkTemplate], [getSubChunkTemplate], [getOverlapTemplate] *)
Definition BELL : ascii := ascii_of_nat 7.
Definition CHUNK_TAG : string := "%C" +:+ String BELL "C%".
Definition SUBCHUNK_TAG : string := "%S" +:+ String BELL "S%".
Definition SUBCHUNKDB_PREFIX : string := "Subchunks_".
Definition getSubChunkDb (t : TableInfo) : string := SUBCHUNKDB_PREFIX +:+ ti_database t +:+ "_" +:+ CHUNK_TAG.
Definition getChunkTemplate (t : TableInfo) : string := ti_table t +:+ "_" +:+ CHUNK_TAG.
Definition getSubChunkTemplate (t : TableInfo) : string := ti_table t +:+ "_" +:+ CHUNK_TAG +:+ "_" +:+ SUBCHUNK_TAG.
Definition getOverlapTemplate (t : TableInfo) : string :=
  ti_table t +:+ "FullOverlap_" +:+ CHUNK_TAG +:+ "_" +:+ SUBCHUNK_TAG.

(** [appendColumnRefs] *)
Definition appendColumnRefs (column database table tableAlias : string) : list ColumnRef :=
  if bool_decide (column = ""%string) then []
  else
    mkColumnRef "" "" column ::
    (if bool_decide (tableAlias <> ""%string) then [mkColumnRef "" tableAlias column]
     else if bool_decide (table <> ""%string) then
       mkColumnRef "" table column ::
       (if bool_decide (database <> ""%string) then [mkColumnRef database table column] else [])
     else []).

(** The join columns of a table, and [makeColumnRefs] *)
Definition join_columns (t : TableInfo) : list string :=
  match t with
  | DIRECTOR d => [di_pk d; di_lon d; di_lat d]
  | CHILD _ _ _ fk => [fk]
  | MATCH _ _ _ _ fk1 fk2 _ => [fk1; fk2]
  end.
Definition makeColumnRefs (t : TableInfo) (tableAlias : string) : list ColumnRef :=
  flat_map (fun c => appendColumnRefs c (ti_database t) (ti_table t) tableAlias) (join_columns t).

(** ** [isEqPredAdmissible] *)

(** The overloads that decide; [a] is a column of the first table. *)
Definition admissible_dir_dir (s t : DirTableInfo) (a b : string) : bool :=
  dir_eq s t && bool_decide (a = di_pk s) && bool_decide (b = di_pk t).
Definition admissible_dir_child (s : DirTableInfo) (director : DirTableInfo) (fk a b : string) : bool :=
  dir_eq s director && bool_decide (a = di_pk s) && bool_decide (b = fk).
Definition admissible_dir_match (s d1 d2 : DirTableInfo) (fk1 fk2 a b : string) (outer : bool) : bool :=
  if outer then false
  else if bool_decide (a <> di_pk s) then false
  else (dir_eq s d1 && bool_decide (b = fk1)) || (dir_eq s d2 && bool_decide (b = fk2)).
Definition admissible_child_child (d : DirTableInfo) (fk : string) (d' : DirTableInfo) (fk' a b : string) : bool :=
  dir_eq d d' && bool_decide (a = fk) && bool_decide (b = fk').
Definition admissible_child_match (d : DirTableInfo) (fk : string) (d1 d2 : DirTableInfo) (fk1 fk2 a b : string) (outer : bool) : bool :=
  if outer then false
  else if bool_decide (a <> fk) then false
  else (dir_eq d d1 && bool_decide (b = fk1)) || (dir_eq d d2 && bool_decide (b = fk2)).

(** [ta.isEqPredAdmissible(tb, a, b, outer)]: the first call dispatches on [ta] and
    calls the overload of [tb] with the columns exchanged; where the classes
    differ that may call an overload of [ta] again. *)
Definition isEqPredAdmissible (ta tb : TableInfo) (a b : string) (outer : bool) : bool :=
  match ta, tb with
  | DIRECTOR s, DIRECTOR t => admissible_dir_dir t s b a
  | DIRECTOR s, CHILD _ _ d fk => admissible_dir_child s d fk a b
  | DIRECTOR s, MATCH _ _ d1 d2 fk1 fk2 _ => admissible_dir_match s d1 d2 fk1 fk2 a b outer
  | CHILD _ _ d fk, DIRECTOR t => admissible_dir_child t d fk b a
  | CHILD _ _ d fk, CHILD _ _ d' fk' => admissible_child_child d' fk' d fk b a
  | CHILD _ _ d fk, MATCH _ _ d1 d2 fk1 fk2 _ => admissible_child_match d fk d1 d2 fk1 fk2 a b outer
  | MATCH _ _ d1 d2 fk1 fk2 _, DIRECTOR t => admissible_dir_match t d1 d2 fk1 fk2 b a outer
  | MATCH _ _ d1 d2 fk1 fk2 _, CHILD _ _ d fk => admissible_child_match d fk d1 d2 fk1 fk2 b a outer
  | MATCH _ _ _ _ _ _ _, MATCH _ _ _ _ _ _ _ => false
  end.

(** ** [TableInfoPool] *)

Section Pool.
Context {St : Type} `{KvInterface St} `{PropertyTree} (defaultDb : string).

(** The sorted pool and the connection to the common state system; a [CssError]
    is a [std::runtime_error]. *)
Record TableInfoPool := mkPool { pl_pool : list TableInfo; pl_css : CssAccess St }.
Definition P (A : Type) : Type := TableInfoPool -> TableInfoPool * outcome A.
Definition p_ret {A} (a : A) : P A := fun p => (p, Ret a).
Definition p_throw {A} (e : exn) : P A := fun p => (p, Raise e).
Definition p_bind {A B} (m : P A) (k : A -> P B) : P B :=
  fun p => let '(p', r) := m p in match r with Ret a => k a p' | Raise e => (p', Raise e) end.
Definition p_css {A} (m : css St A) : P A :=
  fun p => let '(c, r) := m (pl_css p) in
           (mkPool (pl_pool p) c, match r with inr a => Ret a | inl _ => Raise RuntimeError end).
Notation "'let^' x := m 'in' k" := (p_bind m (fun x => k)) (at level 10, x pattern, m at level 100, k at level 200).

(** [std::equal_range] on the sorted pool, and [_insert] behind [std::upper_bound] *)
Definition pool_find (db table : string) (pool : list TableInfo) : option TableInfo :=
  find (fun t => bool_decide (ti_key t = (table, db))) pool.
Definition pool_insert (t : TableInfo) : P (option TableInfo) :=
  fun p => (mkPool (sort_insert (fun x y => key_lt (ti_key x) (ti_key y)) t (pl_pool p)) (pl_css p), Ret (Some t)).

(** [dynamic_cast<DirTableInfo const*>] *)
Definition as_director (t : option TableInfo) : option DirTableInfo := match t with Some (DIRECTOR d) => Some d | _ => None end.

(** [get(db, table)]; it calls itself for the directors of a table. *)
Fixpoint pool_get (fuel : nat) (db table : string) : P (option TableInfo) :=
  match fuel with
  | O => p_throw OutOfFuel
  | S fuel =>
      let db_ := if bool_decide (db = ""%string) then defaultDb else db in
      let^ cached := (fun p => (p, Ret (pool_find db table (pl_pool p)))) in
      match cached with
      | Some t => p_ret (Some t)
      | None =>
          let^ tParam := p_css (getTableParams db_ table) in
          let partParam := tp_partitioning tParam in
          let m := tp_match tParam in
          if chunkLevel partParam =? 0 then p_ret None
          else if isMatchTable m then
            let^ first := pool_get fuel db_ (mp_dirTable1 m) in
            let^ second := pool_get fuel db_ (mp_dirTable2 m) in
            match as_director first, as_director second with
            | Some d1, Some d2 =>
                if bool_decide (mp_dirColName1 m = mp_dirColName2 m) || bool_decide (mp_dirColName1 m = ""%string) ||
                   bool_decide (mp_dirColName2 m = ""%string) then p_throw RuntimeError
                else if negb (di_partitioningId d1 =? di_partitioningId d2) then p_throw RuntimeError
                else pool_insert (MATCH db_ table d1 d2 (mp_dirColName1 m) (mp_dirColName2 m) (mp_angSep m))
            | _, _ => p_throw RuntimeError
            end
          else if bool_decide (pp_dirTable partParam = ""%string) || bool_decide (pp_dirTable partParam = table) then
            if negb (chunkLevel partParam =? 2) then p_throw RuntimeError
            else
              let^ dbStriping := p_css (getDbStriping db_) in
              let overlap := if negb (d_is_zero (pp_overlap partParam)) then pp_overlap partParam else sp_overlap dbStriping in
              let^ v := p_css (getPartTableParams db table) in
              match partitionCols v with
              | [lon; lat; pk] =>
                  if bool_decide (lon = ""%string) || bool_decide (lat = ""%string) || bool_decide (pk = ""%string) ||
                     bool_decide (lon = lat) || bool_decide (lat = pk) || bool_decide (lon = pk)
                  then p_throw RuntimeError
                  else pool_insert (DIRECTOR (mkDirTableInfo db_ table pk lon lat (sp_partitioningId dbStriping) overlap))
              | _ => p_throw RuntimeError
              end
          else if negb (chunkLevel partParam =? 1) then p_throw RuntimeError
          else
            let^ dir := pool_get fuel db_ (pp_dirTable partParam) in
            match as_director dir with
            | None => p_throw RuntimeError
            | Some d =>
                if bool_decide (pp_dirColName partParam = ""%string) then p_throw RuntimeError
                else pool_insert (CHILD db_ table d (pp_dirColName partParam))
            end
      end
  end.
End Pool.
