(* ===== verification/RelationGraph.v ===== *)
(** * Which queries can be evaluated in parallel

    [qana/ColumnVertexMap] and [qana/RelationGraph]: the graph of the references
    to partitioned tables of a query, with an edge for every join predicate that
    says something about partitions, the search for a traversal that proves that
    each worker can evaluate its share alone ([_validate]), and rewriting of the
    query into templates for chunks ([rewrite]).

    Vertices are objects in a heap, as edges, maps and the queue of a traversal
    point to them.  The order of edges is the order of the addresses of vertices,
    which is a parameter ([addr]).  The pool of table metadata is a parameter
    too; [TableInfo.v] has the one of the code.  [QueryNotEvaluableError] is a
    [RuntimeError]. *)

From Stdlib Require Import Ascii String SpecFloat.
From S2P Require Import Prelude.
From S2P Require Import StdString.
From S2P Require Import CssPath.
From S2P Require Import Double.
From S2P Require Import StdFloat.
From S2P Require Import QueryIr.
From S2P Require Import TableInfo.

Local Open Scope Z_scope.

(** ** Doubles *)

(** [std::strtod]; [None] when there is no number.  Unlike [std::stod] it does not
    report numbers that are too large or too small. *)
Definition d_signed (neg : bool) (d : double) : double := if neg then SFopp d else d.
Definition d_nearest (neg : bool) (n base e : Z) : double :=
  match n with Zpos n => d_signed neg (d_scale n base e) | _ => S754_zero neg end.
Definition strtod (s : string) : option double :=
  let '(neg, body) := read_sign (skip_space s) in
  let low := lower_string body in
  if starts_with low "inf" then Some (S754_infinity neg)
  else if starts_with low "nan" then Some S754_nan
  else
    match (if starts_with low "0x" then read_mantissa hex_value 16 (substr_from 2 body) else None) with
    | Some (n, k, rest) => Some (d_nearest neg n 2 (read_exponent "p" rest - 4 * Z.of_nat k))
    | None =>
        match read_mantissa dec_value 10 body with
        | Some (n, k, rest) => Some (d_nearest neg n 10 (read_exponent "e" rest - Z.of_nat k))
        | None => None
        end
    end.

(** ** [Edge] and [Vertex] *)

Record Edge := mkEdge { e_vertex : nat; e_angSep : double }.
#[export] Instance spec_float_eq_dec : EqDecision spec_float.
Proof. solve_decision. Defined.
#[export] Instance Edge_eq_dec : EqDecision Edge.
Proof. unfold EqDecision. intros [v a] [v' a']. destruct (decide (v = v')), (decide (@eq spec_float a a')); first [left; congruence | right; congruence]. Defined.
Definition isSpatial (e : Edge) : bool := negb (d_isnan (e_angSep e)).

Record Vertex := mkVertex {
  v_tr : nat;                 (** the address of the [TableRef] *)
  v_info : TableInfo;
  v_next : option nat;
  v_overlap : double;
  v_edges : list Edge;
}.
Abbreviation Heap := (gmap nat Vertex).

Definition v_set_edges (es : list Edge) (v : Vertex) : Vertex := mkVertex (v_tr v) (v_info v) (v_next v) (v_overlap v) es.
Definition v_set_next (n : option nat) (v : Vertex) : Vertex := mkVertex (v_tr v) (v_info v) n (v_overlap v) (v_edges v).
Definition v_set_overlap (o : double) (v : Vertex) : Vertex := mkVertex (v_tr v) (v_info v) (v_next v) o (v_edges v).

Definition deref (v : nat) (h : Heap) : outcome Vertex :=
  match h !! v with Some x => Ret x | None => Raise UndefinedBehaviour end.

(** ** [ColumnVertexMap] *)

Record Entry := mkEntry { en_cr : ColumnRef; en_vertices : list nat }.
Definition isAmbiguous (e : Entry) : bool := match en_vertices e with [] => true | _ => false end.

(** [ColumnRefLt] *)
Definition ColumnRefLt (a b : ColumnRef) : bool :=
  str_lt (cr_column a) (cr_column b) ||
  (bool_decide (cr_column a = cr_column b) &&
   (str_lt (cr_table a) (cr_table b) ||
    (bool_decide (cr_table a = cr_table b) && str_lt (cr_db a) (cr_db b)))).
Definition entry_lt (a b : Entry) : bool := ColumnRefLt (en_cr a) (en_cr b).

(** [_init] *)
Definition map_init (v : nat) (refs : list ColumnRef) : list Entry := std_sort entry_lt (map (fun c => mkEntry c [v]) refs).

(** [find]; the entries are sorted and their references differ. *)
Definition map_find (m : list Entry) (c : ColumnRef) : outcome (list nat) :=
  match find (fun e => bool_decide (en_cr e = c)) m with
  | None => Ret []
  | Some e => if isAmbiguous e then Raise RuntimeError else Ret (en_vertices e)
  end.

(** [std::inplace_merge] of two sorted runs, which is stable *)
Fixpoint merge_runs (l : list Entry) : list Entry -> list Entry :=
  match l with
  | [] => fun r => r
  | x :: l' =>
      fix go (r : list Entry) : list Entry :=
        match r with
        | [] => x :: l'
        | y :: r' => if entry_lt y x then y :: go r' else x :: merge_runs l' r
        end
  end.

(** The loop of [fuse] that merges duplicates *)
Fixpoint dedupe (natural : bool) (cols : list string) (cur : Entry) (rest : list Entry) : outcome (list Entry) :=
  match rest with
  | [] => Ret [cur]
  | i :: rest' =>
      if bool_decide (en_cr cur = en_cr i) then
        if bool_decide (cr_table (en_cr cur) <> ""%string) || (negb natural && negb (bool_decide (cr_column (en_cr cur) ∈ cols)))
        then dedupe natural cols (mkEntry (en_cr cur) []) rest'
        else if isAmbiguous cur || isAmbiguous i then Raise RuntimeError
        else dedupe natural cols (mkEntry (en_cr cur) (en_vertices cur ++ en_vertices i)) rest'
      else
        let? l := dedupe natural cols i rest' in Ret (cur :: l)
  end.
Definition map_fuse (m n : list Entry) (natural : bool) (cols : list string) : outcome (list Entry) :=
  match merge_runs m n with [] => Ret [] | e :: es => dedupe natural cols e es end.

(** [computeCommonColumns] *)
Fixpoint computeCommonColumns (m : list Entry) : list Entry -> outcome (list string) :=
  match m with
  | [] => fun _ => Ret []
  | i :: m' =>
      fix go (n : list Entry) : outcome (list string) :=
        match n with
        | [] => Ret []
        | j :: n' =>
            if entry_lt i j then computeCommonColumns m' n
            else if entry_lt j i then go n'
            else if bool_decide (cr_table (en_cr i) = ""%string) then
              if isAmbiguous i || isAmbiguous j then Raise RuntimeError
              else let? cols := computeCommonColumns m' n' in Ret (cr_column (en_cr i) :: cols)
            else computeCommonColumns m' n'
        end
  end.

(** ** [RelationGraph] *)

Record RelationGraph := mkGraph { g_vertices : list nat; g_map : list Entry }.
Definition empty_graph : RelationGraph := mkGraph [] [].
Definition g_empty (g : RelationGraph) : bool := match g_vertices g with [] => true | _ => false end.

Definition isOuterJoin (jt : JoinType) : bool := match jt with LEFT | RIGHT | FULL => true | _ => false end.

Definition verifyColumnRef (c : ColumnRef) : outcome unit :=
  if bool_decide (cr_column c = ""%string) then Raise LogicError
  else if bool_decide (cr_db c <> ""%string) then Raise LogicError
  else Ret tt.

Definition verifyJoin (jt : JoinType) (natural : bool) (spec : option JoinSpec) : outcome unit :=
  match jt with
  | UNION | FULL => Raise RuntimeError
  | CROSS => if natural || bool_decide (is_Some spec) then Raise LogicError else Ret tt
  | DEFAULT_JOIN | INNER | LEFT | RIGHT => if natural && bool_decide (is_Some spec) then Raise LogicError else Ret tt
  end.

Definition getNumericConst (ve : ValueExpr) : double :=
  match getFactorOps ve with
  | [(CONST val, _)] => default S754_nan (strtod val)
  | _ => S754_nan
  end.

(** The parameters of the [scisql_angSep] call *)
Definition getAngSepFunc (ve : ValueExpr) : option (list ValueExpr) :=
  match getFactorOps ve with
  | [(FUNCTION name params, _)] =>
      if bool_decide (name = "scisql_angSep"%string) && (length params =? 4)%nat then Some params else None
  | _ => None
  end.

Definition getEqColumnRefs (bt : BoolTerm) : outcome (option (ColumnRef * ColumnRef)) :=
  match bt with
  | BoolFactor [CompPredicate l EQUALS_OP r] _ =>
      match getColumnRef l, getColumnRef r with
      | Some l, Some r =>
          let? _ := verifyColumnRef l in
          let? _ := verifyColumnRef r in
          Ret (Some (l, r))
      | _, _ => Ret None
      end
  | _ => Ret None
  end.

Section graph.
(** The addresses of the vertices *)
Context (addr : nat -> Z).

(** [Vertex::insert] *)
Fixpoint edges_insert (e : Edge) (edges : list Edge) : list Edge :=
  match edges with
  | [] => [e]
  | i :: es =>
      if addr (e_vertex i) <? addr (e_vertex e) then i :: edges_insert e es
      else if negb (addr (e_vertex i) =? addr (e_vertex e)) then e :: i :: es
      else
        mkEdge (e_vertex i)
          (if isSpatial i && isSpatial e then (if d_ltb (e_angSep i) (e_angSep e) then e_angSep i else e_angSep e)
           else S754_nan) :: es
  end.
Definition Vertex_insert (v : nat) (e : Edge) (h : Heap) : outcome Heap :=
  let? x := deref v h in Ret (<[v := v_set_edges (edges_insert e (v_edges x)) x]> h).

(** Both [Edge] objects of a predicate *)
Definition link (a b : nat) (angSep : double) (h : Heap) : outcome Heap :=
  let? h := Vertex_insert a (mkEdge b angSep) h in Vertex_insert b (mkEdge a angSep) h.

(** Results of the functions that add edges: the heap and the number of edges *)
Definition addEqEdge (ca cb : string) (outer : bool) (a b : nat) (h : Heap) : outcome (Heap * nat) :=
  if (a =? b)%nat then Ret (h, 0%nat)
  else
    let? ta := deref a h in
    let? tb := deref b h in
    if isEqPredAdmissible (v_info ta) (v_info tb) ca cb outer then
      let? h := link a b S754_nan h in Ret (h, 1%nat)
    else Ret (h, 0%nat).

(** A loop of such functions; the second has two nested loops over vertices. *)
Section each.
Context {A : Type} (f : A -> Heap -> outcome (Heap * nat)).
Fixpoint each (l : list A) (h : Heap) : outcome (Heap * nat) :=
  match l with
  | [] => Ret (h, 0%nat)
  | x :: l' =>
      let? (h, n) := f x h in
      let? (h, m) := each l' h in
      Ret (h, (n + m)%nat)
  end.
End each.
Definition addEqEdges (ca cb : string) (outer : bool) (v1 v2 : list nat) (h : Heap) : outcome (Heap * nat) :=
  each (fun i1 => each (fun i2 => addEqEdge ca cb outer i1 i2) v2) v1 h.

(** [findFirstNonTrivialChild], and the recursion to the children of an [AndTerm];
    [leaf] is what is done with another term. *)
Fixpoint each_conjunct (leaf : BoolTerm -> Heap -> outcome (Heap * nat)) (t : BoolTerm) (h : Heap) : outcome (Heap * nat) :=
  match t with
  | AndTerm [u] | OrTerm [u] => each_conjunct leaf u h
  | AndTerm ts => each (each_conjunct leaf) ts h
  | _ => leaf t h
  end.

(** [_addOnEqEdges] *)
Definition nonempty (l : list nat) : bool := match l with [] => false | _ => true end.
Definition onEqLeaf (outer : bool) (m gm : list Entry) (on : BoolTerm) (h : Heap) : outcome (Heap * nat) :=
  let? c := getEqColumnRefs on in
  match c with
  | None => Ret (h, 0%nat)
  | Some (c1, c2) =>
      let? a1 := map_find m c1 in
      let? b1 := map_find gm c1 in
      let? a2 := map_find m c2 in
      let? b2 := map_find gm c2 in
      if (nonempty a1 && nonempty b1) || (nonempty a2 && nonempty b2) then Raise RuntimeError
      else if (negb (nonempty a1) && negb (nonempty b1)) || (negb (nonempty a2) && negb (nonempty b2)) then Ret (h, 0%nat)
      else if ((nonempty a1 && nonempty a2) || (nonempty b1 && nonempty b2)) && outer then Ret (h, 0%nat)
      else addEqEdges (cr_column c1) (cr_column c2) outer (if nonempty a1 then a1 else b1) (if nonempty a2 then a2 else b2) h
  end.
Definition addOnEqEdges (on : BoolTerm) (outer : bool) (m gm : list Entry) : Heap -> outcome (Heap * nat) :=
  each_conjunct (onEqLeaf outer m gm) on.

(** [_addNaturalEqEdges] *)
Definition addNaturalEqEdges (outer : bool) (m gm : list Entry) (h : Heap) : outcome (Heap * nat) :=
  let? cols := computeCommonColumns m gm in
  each (fun c h =>
    let? v1 := map_find m (mkColumnRef "" "" c) in
    let? v2 := map_find gm (mkColumnRef "" "" c) in
    addEqEdges c c outer v1 v2 h) cols h.

(** [_addUsingEqEdges] *)
Definition addUsingEqEdges (c : ColumnRef) (outer : bool) (m gm : list Entry) (h : Heap) : outcome (Heap * nat) :=
  if bool_decide (cr_db c <> ""%string) || bool_decide (cr_table c <> ""%string) then Raise RuntimeError
  else
    let? v1 := map_find m c in
    let? v2 := map_find gm c in
    addEqEdges (cr_column c) (cr_column c) outer v1 v2 h.

(** [_addWhereEqEdges] *)
Definition whereEqLeaf (m : list Entry) (where_ : BoolTerm) (h : Heap) : outcome (Heap * nat) :=
  let? c := getEqColumnRefs where_ in
  match c with
  | None => Ret (h, 0%nat)
  | Some (c1, c2) =>
      let? v1 := map_find m c1 in
      let? v2 := map_find m c2 in
      addEqEdges (cr_column c1) (cr_column c2) false v1 v2 h
  end.
Definition addWhereEqEdges (where_ : BoolTerm) (m : list Entry) : Heap -> outcome (Heap * nat) :=
  each_conjunct (whereEqLeaf m) where_.

(** [_addSpEdges]: the call and the constant of a comparison, *)
Definition spOperands (l : ValueExpr) (op : OpType) (r : ValueExpr) : option (list ValueExpr) * double :=
  match op with
  | LESS_THAN_OP | LESS_THAN_OR_EQUALS_OP => (getAngSepFunc l, getNumericConst r)
  | GREATER_THAN_OP | GREATER_THAN_OR_EQUALS_OP => (getAngSepFunc r, getNumericConst l)
  | EQUALS_OP | NULL_SAFE_EQUALS_OP | NOT_EQUALS_OP | NOT_EQUALS_OP_ALT =>
      match getAngSepFunc l with
      | Some fe => (Some fe, getNumericConst r)
      | None => (getAngSepFunc r, getNumericConst l)
      end
  end.
(** the column references and vertices of its parameters ([None]: not such references), *)
Fixpoint spArgs (m : list Entry) (params : list ValueExpr) : outcome (option (list (ColumnRef * nat))) :=
  match params with
  | [] => Ret (Some [])
  | p :: ps =>
      match getColumnRef p with
      | None => Ret None
      | Some cr =>
          let? vv := map_find m cr in
          match vv with
          | [v] => let? args := spArgs m ps in Ret ((cons (cr, v)) <$> args)
          | _ => Ret None
          end
      end
  end.
(** and the edge. *)
Definition addSpEdge (args : list (ColumnRef * nat)) (angSep : double) (h : Heap) : outcome (Heap * nat) :=
  match args with
  | [(c0, v0); (c1, v1); (c2, v2); (c3, v3)] =>
      if negb (v0 =? v1)%nat || negb (v2 =? v3)%nat || (v0 =? v2)%nat then Ret (h, 0%nat)
      else
        let? x0 := deref v0 h in
        let? x2 := deref v2 h in
        match v_info x0, v_info x2 with
        | DIRECTOR d1, DIRECTOR d2 =>
            if bool_decide (cr_column c0 <> di_lon d1) || bool_decide (cr_column c1 <> di_lat d1) ||
               bool_decide (cr_column c2 <> di_lon d2) || bool_decide (cr_column c3 <> di_lat d2) then Ret (h, 0%nat)
            else if negb (di_partitioningId d1 =? di_partitioningId d2) then Ret (h, 0%nat)
            else let? h := link v0 v2 angSep h in Ret (h, 1%nat)
        | _, _ => Ret (h, 0%nat)
        end
  | _ => Ret (h, 0%nat)
  end.
Definition spLeaf (m : list Entry) (bt : BoolTerm) (h : Heap) : outcome (Heap * nat) :=
  match bt with
  | BoolFactor [CompPredicate l op r] _ =>
      match spOperands l op r with
      | (Some params, angSep) =>
          if d_isnan angSep then Ret (h, 0%nat)
          else
            let? args := spArgs m params in
            match args with Some args => addSpEdge args angSep h | None => Ret (h, 0%nat) end
      | _ => Ret (h, 0%nat)
      end
  | _ => Ret (h, 0%nat)
  end.
Definition addSpEdges (bt : BoolTerm) (m : list Entry) : Heap -> outcome (Heap * nat) := each_conjunct (spLeaf m) bt.

(** [_fuse] *)
Definition joinEdges (natural : bool) (spec : option JoinSpec) (outer : bool) (m gm : list Entry) (h : Heap) :
    outcome (Heap * nat * list string) :=
  if natural then let? r := addNaturalEqEdges outer m gm h in Ret (r, [])
  else
    match spec with
    | Some (mkJoinSpec (Some c) _) => let? r := addUsingEqEdges c outer m gm h in Ret (r, [cr_column c])
    | Some (mkJoinSpec None (Some on)) => let? r := addOnEqEdges on outer m gm h in Ret (r, [])
    | _ => Ret (h, 0%nat, [])
    end.
Definition fuse (jt : JoinType) (natural : bool) (spec : option JoinSpec) (this g : RelationGraph) (h : Heap) :
    outcome (Heap * RelationGraph) :=
  let? _ := verifyJoin jt natural spec in
  if g_empty this then
    if g_empty g then Ret (h, this)
    else if bool_decide (jt = LEFT) then Raise RuntimeError
    else Ret (h, g)
  else if g_empty g then
    if bool_decide (jt = RIGHT) then Raise RuntimeError else Ret (h, this)
  else
    let outer := isOuterJoin jt in
    let? (h, numEdges, usingCols) := joinEdges natural spec outer (g_map this) (g_map g) h in
    if outer && (numEdges =? 0)%nat then Raise RuntimeError
    else
      let? m := map_fuse (g_map this) (g_map g) natural usingCols in
      let? h :=
        match spec with
        | Some (mkJoinSpec _ (Some on)) => if outer then Ret h else let? (h, _) := addSpEdges on m h in Ret h
        | _ => Ret h
        end in
      Ret (h, mkGraph (g_vertices this ++ g_vertices g) m).

(** ** Constructors *)

(** Vertices are never deleted; the number of vertices is the next address. *)
Definition new_vertex (tr : TableRef) (info : TableInfo) (h : Heap) : Heap * nat :=
  let v := size h in
  (<[v := mkVertex (tr_addr tr) info None d_infinity []]> h, v).

(** The loop that finds [middle] *)
Fixpoint split_while {A} (f : A -> bool) (l : list A) : list A * list A :=
  match l with
  | [] => ([], [])
  | x :: l' => if f x then let '(a, b) := split_while f l' in (x :: a, b) else ([], l)
  end.

(** For a single table reference *)
Definition graph_of_table (tr : TableRef) (info : option TableInfo) (h : Heap) : outcome (Heap * RelationGraph) :=
  match info with
  | None => Ret (h, empty_graph)
  | Some info =>
      match info with
      | MATCH _ _ _ _ _ _ matchAngSep =>
          let '(h, front) := new_vertex tr info h in
          let '(h, back) := new_vertex tr info h in
          let? h := link front back matchAngSep h in
          let refs := std_sort ColumnRefLt (makeColumnRefs info (tr_alias tr)) in
          let first := match refs with c :: _ => cr_column c | [] => ""%string end in
          let '(refs1, refs2) := split_while (fun c => bool_decide (cr_column c = first)) refs in
          let? m := map_fuse (map_init front refs1) (map_init back refs2) false [] in
          Ret (h, mkGraph [front; back] m)
      | _ =>
          let '(h, v) := new_vertex tr info h in
          Ret (h, mkGraph [v] (map_init v (makeColumnRefs info (tr_alias tr))))
      end
  end.

(** For a table reference with its joins, and for a query *)
Section pool.
Context {Pool : Type} (get : string -> string -> Pool -> Pool * outcome (option TableInfo)).
Record Builder := mkBuilder { b_pool : Pool; b_heap : Heap }.

Definition get_info (tr : TableRef) (b : Builder) : outcome (Builder * option TableInfo) :=
  let '(p, r) := get (tr_db tr) (tr_table tr) (b_pool b) in
  let? info := r in Ret (mkBuilder p (b_heap b), info).

Fixpoint graph_of_ref (tr : TableRef) (b : Builder) : outcome (Builder * RelationGraph) :=
  let? (b, info) := get_info tr b in
  let? (h, g) := graph_of_table tr info (b_heap b) in
  (fix go (js : list JoinRef) (b : Builder) (g : RelationGraph) : outcome (Builder * RelationGraph) :=
     match js with
     | [] => Ret (b, g)
     | j :: js' =>
         let? (b, tmp) := graph_of_ref (jr_right j) b in
         let? (h, g) := fuse (jr_type j) (jr_natural j) (jr_spec j) g tmp (b_heap b) in
         go js' (mkBuilder (b_pool b) h) g
     end) (tr_joins tr) (mkBuilder (b_pool b) h) g.

Definition graph_of_refs (refs : list TableRef) (b : Builder) : outcome (Builder * RelationGraph) :=
  match refs with
  | [] => Raise RuntimeError
  | tr :: refs' =>
      let? bg := graph_of_ref tr b in
      foldM (fun '(b, g) tr =>
        let? (b, tmp) := graph_of_ref tr b in
        let? (h, g) := fuse CROSS false None g tmp (b_heap b) in
        Ret (mkBuilder (b_pool b) h, g)) bg refs'
  end.

(** The graph of a query before it is validated *)
Definition graph_of_stmt (stmt : SelectStmt) (b : Builder) : outcome (Builder * RelationGraph) :=
  if bool_decide (length (ss_selectList stmt) = 0%nat) then Raise RuntimeError
  else
    let? (b, g) := graph_of_refs (ss_fromList stmt) b in
    match ss_where stmt with
    | None => Ret (b, g)
    | Some w =>
        let? (h, _) := addWhereEqEdges w (g_map g) (b_heap b) in
        let? (h, _) := addSpEdges w (g_map g) h in
        Ret (mkBuilder (b_pool b) h, g)
    end.
End pool.

(** ** [VertexQueue]: a list linked through the vertices *)

Record VertexQueue := mkQueue { q_head : option nat; q_tail : option nat }.

Definition dequeue (q : VertexQueue) (h : Heap) : outcome (VertexQueue * Heap * option nat) :=
  match q_head q with
  | None => Ret (q, h, None)
  | Some v =>
      let? x := deref v h in
      let q' := mkQueue (v_next x) (match v_next x with Some _ => q_tail q | None => None end) in
      Ret (q', <[v := v_set_next None x]> h, Some v)
  end.

Definition enqueue (v : nat) (q : VertexQueue) (h : Heap) : outcome (VertexQueue * Heap) :=
  let? x := deref v h in
  if bool_decide (is_Some (v_next x)) || bool_decide (q_tail q = Some v) then Ret (q, h)
  else
    match q_head q, q_tail q with
    | None, _ => Ret (mkQueue (Some v) (Some v), h)
    | Some _, Some t => let? y := deref t h in Ret (mkQueue (q_head q) (Some v), <[t := v_set_next (Some v) y]> h)
    | Some _, None => Raise UndefinedBehaviour
    end.

(** ** [computeMinimumOverlap] *)

Definition availableOverlap (u v : TableInfo) : double :=
  match u, v with
  | DIRECTOR d, _ => di_overlap d
  | MATCH _ _ _ _ _ _ angSep, MATCH _ _ _ _ _ _ _ => angSep
  | _, _ => d_zero
  end.
Definition requiredOverlap (o : double) (e : Edge) : double := if isSpatial e then d_add o (e_angSep e) else o.

(** An edge of the vertex [v] *)
Definition visit (v : nat) (qh : VertexQueue * Heap) (e : Edge) : outcome (VertexQueue * Heap) :=
  let '(q, h) := qh in
  let? x := deref v h in
  let? y := deref (e_vertex e) h in
  let req := requiredOverlap (v_overlap x) e in
  if d_leb req (availableOverlap (v_info y) (v_info x)) && d_ltb req (v_overlap y)
  then enqueue (e_vertex e) q (<[e_vertex e := v_set_overlap req y]> h)
  else Ret (q, h).

(** The loop over the queue *)
Fixpoint traverse (fuel : nat) (v : option nat) (q : VertexQueue) (h : Heap) : outcome Heap :=
  match v with
  | None => Ret h
  | Some v =>
      match fuel with
      | O => Raise OutOfFuel
      | S fuel =>
          let? x := deref v h in
          let? (q, h) := foldM (visit v) (q, h) (v_edges x) in
          let? (q, h, next) := dequeue q h in
          traverse fuel next q h
      end
  end.
Definition computeMinimumOverlap (fuel : nat) (vtx : nat) (h : Heap) : outcome Heap :=
  let? x := deref vtx h in
  traverse fuel (Some vtx) (mkQueue None None) (<[vtx := v_set_overlap d_zero x]> h).

(** [isEvaluable], [resetVertices] *)
Definition overlap_of (h : Heap) (v : nat) : double := default d_infinity (v_overlap <$> h !! v).
Definition isEvaluable (vs : list nat) (h : Heap) : bool := forallb (fun v => negb (d_isinf (overlap_of h v))) vs.
Definition resetVertices (vs : list nat) (h : Heap) : Heap := foldl (fun h v => alter (v_set_overlap d_infinity) v h) h vs.

(** [_validate]: the loop over the start vertices; [numStarts] counts them. *)
Definition is_match (t : TableInfo) : bool := match t with MATCH _ _ _ _ _ _ _ => true | _ => false end.
Fixpoint try_starts (fuel : nat) (all starts : list nat) (numStarts : nat) (h : Heap) : outcome (Heap * bool) :=
  match starts with
  | [] => Ret (h, if (numStarts =? 0)%nat then (length all =? 0)%nat || (length all =? 2)%nat else false)
  | v :: starts' =>
      let? x := deref v h in
      if is_match (v_info x) then try_starts fuel all starts' numStarts h
      else
        let? h := computeMinimumOverlap fuel v (resetVertices all h) in
        if isEvaluable all h then Ret (h, true) else try_starts fuel all starts' (S numStarts) h
  end.
Definition validate (fuel : nat) (g : RelationGraph) (h : Heap) : outcome (Heap * bool) :=
  try_starts fuel (g_vertices g) (g_vertices g) 0 h.

(** [RelationGraph(stmt, pool)] *)
Definition RelationGraph_ctor {Pool} get (fuel : nat) (stmt : SelectStmt) (b : Builder (Pool := Pool)) :
    outcome (Builder (Pool := Pool) * RelationGraph) :=
  let? (b, g) := graph_of_stmt get stmt b in
  let? (h, ok) := validate fuel g (b_heap b) in
  if ok : bool then Ret (mkBuilder (b_pool b) h, g) else Raise RuntimeError.
End graph.

(** ** [rewrite] *)

(** [QueryMapping]: the patterns to replace and the tables of sub-chunks *)
Inductive MapParameter := CHUNK | SUBCHUNK.
Record QueryMapping := mkMapping { qm_subs : gmap string MapParameter; qm_subChunkTables : gset (string * string) }.
Definition insertChunkEntry (tag : string) (m : QueryMapping) : QueryMapping := mkMapping (<[tag := CHUNK]> (qm_subs m)) (qm_subChunkTables m).
Definition insertSubChunkTable (t : string * string) (m : QueryMapping) : QueryMapping :=
  mkMapping (qm_subs m) ({[t]} ∪ qm_subChunkTables m).
Definition hasChunks (m : QueryMapping) : bool := existsb (fun e => match e.2 with CHUNK => true | _ => false end) (map_to_list (qm_subs m)).
Definition hasSubChunks (m : QueryMapping) : bool := negb (bool_decide (qm_subChunkTables m = ∅)).

(** [setDb] and [setTable] of the table reference at an address *)
Fixpoint set_names (a : nat) (names : string * string) (tr : TableRef) : TableRef :=
  let 'mkTableRef b db table alias joins := tr in
  let joins' := map (fun j => mkJoinRef (set_names a names (jr_right j)) (jr_type j) (jr_natural j) (jr_spec j)) joins in
  if (a =? b)%nat then mkTableRef b names.1 names.2 alias joins' else mkTableRef b db table alias joins'.
Definition stmt_set_names (a : nat) (names : string * string) (s : SelectStmt) : SelectStmt :=
  mkSelectStmt (ss_selectList s) (map (set_names a names) (ss_fromList s)) (ss_where s) (ss_groupBy s) (ss_having s) (ss_orderBy s).

Definition chunkNames (t : TableInfo) : string * string := (ti_database t, getChunkTemplate t).
Definition subChunkNames (t : TableInfo) : string * string := (getSubChunkDb t, getSubChunkTemplate t).
Definition overlapNames (t : TableInfo) : string * string := (getSubChunkDb t, getOverlapTemplate t).
Definition rewriteAs (names : TableInfo -> string * string) (x : Vertex) (s : SelectStmt) : SelectStmt :=
  stmt_set_names (v_tr x) (names (v_info x)) s.

Definition is_director (t : TableInfo) : bool := match t with DIRECTOR _ => true | _ => false end.
Definition needs_overlap (x : Vertex) : bool := is_director (v_info x) && d_ltb d_zero (v_overlap x).
Definition MAX_TABLE_REFS_WITH_OVERLAP : nat := 8.

(** The permutation [p] of templates *)
Fixpoint permutation (i : nat) (p : N) (refs : list Vertex) (s : SelectStmt) : SelectStmt :=
  match refs with
  | [] => s
  | x :: refs' =>
      permutation (S i) p refs' (rewriteAs (if N.testbit p (N.of_nat i) then overlapNames else subChunkNames) x s)
  end.

(** The templates in order; the table references of the query keep the last one. *)
Fixpoint permutations (ps : list N) (refs : list Vertex) (s : SelectStmt) : list SelectStmt :=
  match ps with
  | [] => []
  | p :: ps' => let s' := permutation 0 p refs s in s' :: permutations ps' refs s'
  end.

Definition rewrite (g : RelationGraph) (h : Heap) (stmt : SelectStmt) (mapping : QueryMapping) : outcome (list SelectStmt * QueryMapping) :=
  if g_empty g then Ret ([stmt], mapping)
  else
    let mapping := insertChunkEntry CHUNK_TAG mapping in
    let vs := omap (fun v => h !! v) (g_vertices g) in
    let stmt := foldl (fun s x => rewriteAs chunkNames x s) stmt vs in
    let overlapRefs := filter (fun x => needs_overlap x = true) vs in
    match overlapRefs with
    | [] => Ret ([stmt], mapping)
    | _ =>
        if (MAX_TABLE_REFS_WITH_OVERLAP <? length overlapRefs)%nat then Raise RuntimeError
        else
          let directors := filter (fun x => is_director (v_info x) = true) vs in
          let stmt := foldl (fun s x => if d_eqb (v_overlap x) d_zero then rewriteAs subChunkNames x s else s) stmt directors in
          let mapping := foldl (fun m x => insertSubChunkTable (ti_database (v_info x), ti_table (v_info x)) m) mapping directors in
          Ret (permutations (map N.of_nat (seq 0 (2 ^ length overlapRefs))) overlapRefs stmt, mapping)
    end.
