(* ===== verification/RelationGraphVal.v ===== *)
(** * Validation of relation graphs

    [computeMinimumOverlap]: the queue that is linked through the vertices is a
    list without duplicates; what is computed for a vertex is the sum of
    separations along an admissible path; when separations are not negative the
    loop ends, and no admissible path has a smaller sum. *)

From Stdlib Require Import SpecFloat.
From S2P Require Import Prelude.
From S2P Require Import Double.
From S2P Require Import StdFloat.
From S2P Require Import QueryIr.
From S2P Require Import TableInfo.
From S2P Require Import RelationGraph.

Local Open Scope Z_scope.

Implicit Types (h : Heap) (u v s : nat) (l : list nat) (q : VertexQueue) (e : Edge) (x y : Vertex) (o : double).

(** ** The queue *)

Definition queue_rep q h l : Prop :=
  q_head q = head l /\ q_tail q = last l /\ NoDup l /\
  (forall i v, l !! i = Some v -> exists x, h !! v = Some x /\ v_next x = l !! S i) /\
  (forall v x, h !! v = Some x -> v ∉ l -> v_next x = None).

(** The heap without the links of the queue *)
Definition unlinked h : Heap := v_set_next None <$> h.

Lemma queue_rep_empty h : (forall v x, h !! v = Some x -> v_next x = None) -> queue_rep (mkQueue None None) h [].
Proof. intros H. repeat split; [constructor|done|]. intros v x Hv _. eauto. Qed.

Lemma queue_empty_unlinked q h : queue_rep q h [] -> unlinked h = h.
Proof.
  intros (_ & _ & _ & _ & H). apply map_eq. intros v. unfold unlinked. rewrite lookup_fmap. destruct (h !! v) as [x|] eqn:E; [|done].
  simpl. f_equal. specialize (H v x E ltac:(set_solver)). destruct x as [tr info next o es]. unfold v_set_next. simpl in *. by subst next.
Qed.

Lemma no_link h v x : unlinked h = h -> h !! v = Some x -> v_next x = None.
Proof. intros H Hv. rewrite <-H in Hv. unfold unlinked in Hv. rewrite lookup_fmap in Hv. destruct (h !! v); by simplify_eq/=. Qed.

Lemma unlinked_empty h : unlinked h = h -> queue_rep (mkQueue None None) h [].
Proof. intros H. apply queue_rep_empty. intros v x. by apply no_link. Qed.

Lemma unlinked_insert v x h : unlinked (<[v := x]> h) = <[v := v_set_next None x]> (unlinked h).
Proof. apply fmap_insert. Qed.

Lemma unlinked_set_next v n x h : h !! v = Some x -> unlinked (<[v := v_set_next n x]> h) = unlinked h.
Proof. intros H. rewrite unlinked_insert. apply insert_id. unfold unlinked. by rewrite lookup_fmap, H. Qed.

Lemma enqueue_spec v q h l : queue_rep q h l -> is_Some (h !! v) ->
  exists q' h', enqueue v q h = Ret (q', h') /\ unlinked h' = unlinked h /\ queue_rep q' h' (if decide (v ∈ l) then l else l ++ [v]).
Proof.
  intros (Hhd & Htl & Hnd & Hl & Hout) [x Hx]. unfold enqueue, deref. rewrite Hx. cbn [bind].
  destruct (decide (v ∈ l)) as [Hin|Hin].
  - rewrite bool_decide_decide. assert (Hc : is_Some (v_next x) \/ q_tail q = Some v).
    { apply list_elem_of_lookup in Hin as [i Hi]. destruct (Hl i v Hi) as (x' & Hx' & Hn). simplify_eq.
      destruct (l !! S i) as [w|] eqn:E; [left; rewrite Hn; eauto|right]. rewrite Htl, last_lookup.
      apply lookup_ge_None in E. pose proof (lookup_lt_Some _ _ _ Hi). by replace (pred (length l)) with i by lia. }
    exists q, h. split; [|done]. destruct (decide (is_Some (v_next x))); [done|]. destruct Hc as [?|Hc]; [done|]. by rewrite bool_decide_eq_true_2.
  - assert (Hn : v_next x = None) by eauto. rewrite Hn. rewrite bool_decide_eq_false_2 by (by intros []).
    assert (Ht : q_tail q <> Some v). { rewrite Htl. intros E. apply Hin. by apply last_Some_elem_of. }
    rewrite (bool_decide_eq_false_2 (q_tail q = Some v)) by done. cbn [orb].
    destruct l as [|w l'] eqn:El.
    { rewrite Hhd. cbn [head]. eexists _, _. split; [done|]. split; [done|]. repeat split; [apply NoDup_singleton| |].
      - intros [|i] v' Hi; simpl in Hi; simplify_eq. eauto.
      - intros v' x' Hv' Hni. apply (Hout v' x' Hv'). set_solver. }
    rewrite <-El in *. destruct (last l) as [t|] eqn:Elast; [|by apply last_None in Elast; subst].
    rewrite Hhd, Htl. assert (Hh : head l = Some w) by (by subst). rewrite Hh.
    destruct (last_Some l t) as [Hlt _]. destruct (Hlt Elast) as [l0 E0].
    assert (Hti : l !! length l0 = Some t) by (by rewrite E0, list_lookup_middle).
    assert (Hlen : length l = S (length l0)) by (rewrite E0, length_app; simpl; lia).
    destruct (Hl _ _ Hti) as (y & Hy & Hyn). unfold deref. rewrite Hy. cbn [bind]. eexists _, _. split; [done|].
    assert (Htv : t <> v). { intros ->. apply Hin. rewrite E0. set_solver. }
    split; [by apply unlinked_set_next|].
    split; [rewrite <-Hh; by rewrite (head_app_nonempty l [v]) || (destruct l; [done|done])|].
    split; [by rewrite last_snoc|]. split; [apply NoDup_app; split; [done|]; split; [set_solver|apply NoDup_singleton]|]. split.
    + intros i u Hi. destruct (decide (i < length l)%nat) as [Hlt'|Hge].
      * rewrite lookup_app_l in Hi by done. destruct (Hl i u Hi) as (z & Hz & Hzn). destruct (decide (u = t)) as [->|Hne].
        -- simplify_eq. exists (v_set_next (Some v) y). split; [apply lookup_insert_eq|]. cbn [v_next v_set_next].
           assert (i = length l0) as -> by (eapply NoDup_lookup; eauto). rewrite <-Hlen. by rewrite list_lookup_middle.
        -- exists z. rewrite lookup_insert_ne by done. split; [done|]. rewrite Hzn. symmetry. apply lookup_app_l.
           destruct (decide (S i < length l)%nat); [done|]. exfalso. apply Hne.
           assert (i = length l0) as -> by lia. by simplify_eq.
      * assert (i = length l) as ->. { apply lookup_lt_Some in Hi. rewrite length_app in Hi. simpl in Hi. lia. }
        rewrite list_lookup_middle in Hi by done. simplify_eq. exists x. rewrite lookup_insert_ne by done. split; [done|].
        rewrite Hn. symmetry. apply lookup_ge_None. rewrite length_app. simpl. lia.
    + intros u z Hz Hu. destruct (decide (u = t)) as [->|]; [exfalso; apply Hu; rewrite E0; set_solver|].
      rewrite lookup_insert_ne in Hz by done. apply (Hout u z Hz). set_solver.
Qed.

Lemma dequeue_nil q h : queue_rep q h [] -> dequeue q h = Ret (q, h, None).
Proof. intros (Hhd & _). unfold dequeue. by rewrite Hhd. Qed.

Lemma dequeue_cons q h v l : queue_rep q h (v :: l) ->
  exists q' h', dequeue q h = Ret (q', h', Some v) /\ unlinked h' = unlinked h /\ queue_rep q' h' l.
Proof.
  intros (Hhd & Htl & Hnd & Hl & Hout). unfold dequeue, deref. rewrite Hhd. simpl.
  destruct (Hl 0%nat v eq_refl) as (x & Hx & Hn). rewrite Hx. simpl. simpl in Hn. rewrite <-head_lookup in Hn.
  apply NoDup_cons in Hnd as [Hv Hnd]. eexists _, _. split; [done|]. split; [by apply unlinked_set_next|].
  split; [by simpl; rewrite Hn|]. split. { simpl. rewrite Hn. destruct l; [done|]. by rewrite Htl. }
  split; [done|]. split.
  - intros i u Hi. destruct (Hl (S i) u Hi) as (y & Hy & Hyn). exists y. rewrite lookup_insert_ne; [done|].
    intros ->. apply Hv. by eapply list_elem_of_lookup_2.
  - intros u y Hy Hu. destruct (decide (u = v)) as [->|]; [rewrite lookup_insert_eq in Hy; by simplify_eq|].
    rewrite lookup_insert_ne in Hy by done. apply (Hout u y Hy). set_solver.
Qed.

(** ** The traversal with a list as queue *)

Definition improves (o : double) (x : Vertex) e (y : Vertex) : bool :=
  let req := requiredOverlap o e in d_leb req (availableOverlap (v_info y) (v_info x)) && d_ltb req (v_overlap y).

Definition visit_list v (st : Heap * list nat) e : Heap * list nat :=
  let '(h, l) := st in
  match h !! v, h !! e_vertex e with
  | Some x, Some y =>
      if improves (v_overlap x) x e y then
        (<[e_vertex e := v_set_overlap (requiredOverlap (v_overlap x) e) y]> h,
         if decide (e_vertex e ∈ l) then l else l ++ [e_vertex e])
      else (h, l)
  | _, _ => (h, l)
  end.

Fixpoint traverse_list (fuel : nat) (cur : option nat) l h : option Heap :=
  match cur with
  | None => Some h
  | Some v =>
      match fuel with
      | O => None
      | S fuel =>
          let '(h, l) := foldl (visit_list v) (h, l) (default [] (v_edges <$> h !! v)) in
          traverse_list fuel (head l) (tail l) h
      end
  end.

(** Every edge leads to a vertex. *)
Definition closed h : Prop := forall v x e, h !! v = Some x -> e ∈ v_edges x -> is_Some (h !! e_vertex e).

Lemma closed_unlinked h : closed (unlinked h) -> closed h.
Proof.
  intros Hc v x e Hv He. destruct (Hc v (v_set_next None x) e) as [y Hy].
  - unfold unlinked. by rewrite lookup_fmap, Hv.
  - done.
  - unfold unlinked in Hy. rewrite lookup_fmap in Hy. destruct (h !! e_vertex e); eauto.
Qed.

Lemma visit_refines v q h l e : queue_rep q h l -> is_Some (h !! v) -> is_Some (h !! e_vertex e) ->
  exists q' h' l', visit v (q, h) e = Ret (q', h') /\ queue_rep q' h' l' /\ visit_list v (unlinked h, l) e = (unlinked h', l').
Proof.
  intros Hq [x Hx] [y Hy]. unfold visit, deref. rewrite Hx, Hy. cbn [bind]. unfold visit_list, unlinked.
  rewrite !lookup_fmap, Hx, Hy. cbn [fmap option_fmap option_map]. unfold improves.
  change (v_overlap (v_set_next None x)) with (v_overlap x). change (v_overlap (v_set_next None y)) with (v_overlap y).
  change (v_info (v_set_next None x)) with (v_info x). change (v_info (v_set_next None y)) with (v_info y).
  destruct (_ && _); [|by exists q, h, l]. set (y' := v_set_overlap _ y).
  assert (Hq' : queue_rep q (<[e_vertex e := y']> h) l).
  { destruct Hq as (H1 & H2 & H3 & H4 & H5). repeat split; [done..| |].
    - intros i u Hi. destruct (H4 i u Hi) as (z & Hz & Hn). destruct (decide (u = e_vertex e)) as [->|].
      + simplify_eq. exists y'. by rewrite lookup_insert_eq.
      + exists z. by rewrite lookup_insert_ne.
    - intros u z Hz Hu. destruct (decide (u = e_vertex e)) as [->|].
      + rewrite lookup_insert_eq in Hz. simplify_eq. by apply (H5 (e_vertex e) y).
      + rewrite lookup_insert_ne in Hz by done. eauto. }
  destruct (enqueue_spec (e_vertex e) q _ l Hq') as (q' & h' & -> & Hu & Hrep); [rewrite lookup_insert_eq; eauto|].
  eexists _, _, _. split; [done|]. split; [exact Hrep|]. f_equal. fold (unlinked h'). rewrite Hu, unlinked_insert. done.
Qed.

#[local] Arguments visit_list : simpl never.
#[local] Arguments visit : simpl never.

(** ** What a traversal leaves as it is *)

Definition shape x : nat * TableInfo * list Edge := (v_tr x, v_info x, v_edges x).
Definition same_shape h h' : Prop := forall v, shape <$> h !! v = shape <$> h' !! v.

Lemma same_shape_refl h : same_shape h h.
Proof. done. Qed.
Lemma same_shape_trans h h' h'' : same_shape h h' -> same_shape h' h'' -> same_shape h h''.
Proof. intros H1 H2 v. by rewrite H1. Qed.

Lemma same_shape_lookup h h' v x : same_shape h h' -> h' !! v = Some x -> exists x', h !! v = Some x' /\ shape x' = shape x.
Proof. intros H Hx. specialize (H v). rewrite Hx in H. destruct (h !! v) as [x'|]; [exists x'; split; [done|]; by apply (inj Some) in H|done]. Qed.
Lemma same_shape_lookup_r h h' v x : same_shape h h' -> h !! v = Some x -> exists x', h' !! v = Some x' /\ shape x' = shape x.
Proof. intros H Hx. specialize (H v). rewrite Hx in H. destruct (h' !! v) as [x'|]; [exists x'; split; [done|]; by apply (inj Some) in H|done]. Qed.
Lemma same_shape_some h h' v : same_shape h h' -> is_Some (h !! v) -> is_Some (h' !! v).
Proof. intros H [x Hx]. destruct (same_shape_lookup_r _ _ _ _ H Hx) as (? & ? & _). eauto. Qed.

Lemma closed_shape h h' : same_shape h h' -> closed h -> closed h'.
Proof.
  intros Hs Hc v x e Hv He. destruct (same_shape_lookup _ _ _ _ Hs Hv) as (x' & Hx' & [= _ _ E]).
  eapply same_shape_some; [done|]. eapply Hc; [done|]. by rewrite E.
Qed.

Lemma unlinked_shape h : same_shape h (unlinked h).
Proof. intros v. unfold unlinked. rewrite lookup_fmap. by destruct (h !! v). Qed.

Lemma visit_list_shape v h l e : same_shape h (visit_list v (h, l) e).1.
Proof.
  unfold visit_list. destruct (h !! v) as [x|]; [|done]. destruct (h !! e_vertex e) as [y|] eqn:Ey; [|done].
  destruct (improves _ _ _ _); [|done]. intros u. simpl. destruct (decide (u = e_vertex e)) as [->|].
  - by rewrite lookup_insert_eq, Ey.
  - by rewrite lookup_insert_ne.
Qed.

Lemma visits_shape v es : forall h l, same_shape h (foldl (visit_list v) (h, l) es).1.
Proof.
  induction es as [|e es IH]; intros h l; simpl; [done|]. destruct (visit_list v (h, l) e) as [h' l'] eqn:E.
  eapply same_shape_trans; [|apply IH]. pose proof (visit_list_shape v h l e) as H. by rewrite E in H.
Qed.

Lemma visits_refine v es : forall q h l, queue_rep q h l -> is_Some (h !! v) -> Forall (fun e => is_Some (h !! e_vertex e)) es ->
  exists q' h' l', foldM (visit v) (q, h) es = Ret (q', h') /\ queue_rep q' h' l' /\
                   foldl (visit_list v) (unlinked h, l) es = (unlinked h', l').
Proof.
  induction es as [|e es IH]; intros q h l Hq Hv Hes; simpl; [by exists q, h, l|]. apply Forall_cons in Hes as [He Hes].
  destruct (visit_refines v q h l e Hq Hv He) as (q1 & h1 & l1 & -> & Hq1 & Hl1). simpl.
  pose proof (visit_list_shape v (unlinked h) l e) as Hs. rewrite Hl1 in *. simpl in Hs.
  assert (Hsome : forall u, is_Some (h !! u) -> is_Some (h1 !! u)).
  { intros u Hu. eapply same_shape_some, Hu. eapply same_shape_trans; [apply unlinked_shape|].
    eapply same_shape_trans; [exact Hs|]. intros w. symmetry. apply unlinked_shape. }
  apply IH; [done|eauto|]. eapply Forall_impl; [exact Hes|]. eauto.
Qed.

(** The loop over the linked queue does what the loop over the list does, and
    leaves no links. *)
Lemma traverse_refines fuel : forall cur q h l, queue_rep q h l -> closed h -> (forall v, cur = Some v -> is_Some (h !! v)) ->
  (cur = None -> l = []) ->
  match traverse_list fuel cur l (unlinked h) with
  | Some h' => traverse fuel cur q h = Ret h' /\ unlinked h' = h'
  | None => traverse fuel cur q h = Raise OutOfFuel
  end.
Proof.
  induction fuel as [|fuel IH]; intros [v|] q h l Hq Hc Hcur Hnone; simpl; [done| | |].
  1,3: specialize (Hnone eq_refl); subst l; rewrite (queue_empty_unlinked _ _ Hq); split; [done|]; by eapply queue_empty_unlinked.
  destruct (Hcur v eq_refl) as [x Hx]. unfold deref. rewrite Hx. simpl. unfold unlinked at 2. rewrite lookup_fmap, Hx. simpl.
  destruct (visits_refine v (v_edges x) q h l Hq ltac:(eauto)) as (q1 & h1 & l1 & -> & Hq1 & Hl1).
  { apply Forall_forall. intros e He. by eapply Hc. }
  simpl. pose proof (visits_shape v (v_edges x) (unlinked h) l) as Hs. rewrite Hl1 in Hs |- *. simpl in Hs.
  assert (Hc1 : closed h1). { apply closed_unlinked. eapply closed_shape; [exact Hs|]. eapply closed_shape; [apply unlinked_shape|done]. }
  destruct l1 as [|u l2]; simpl.
  - rewrite (dequeue_nil _ _ Hq1). simpl. apply (IH None q1 h1 []); done.
  - pose proof Hq1 as (_ & _ & _ & Hl & _). destruct (Hl 0%nat u eq_refl) as (y & Hy & _).
    destruct (dequeue_cons _ _ _ _ Hq1) as (q2 & h2 & -> & Hu & Hq2). simpl. rewrite <-Hu.
    assert (Hs2 : same_shape h1 h2).
    { eapply same_shape_trans; [apply unlinked_shape|]. rewrite <-Hu. intros w. symmetry. apply unlinked_shape. }
    apply IH; [done|by eapply closed_shape| |done]. intros w [= <-]. eapply same_shape_some; eauto.
Qed.

(** ** Paths *)

(** [o] is the sum of separations along a path from [s] to [u] on which every
    vertex has enough overlap. *)
Inductive path h s : nat -> double -> Prop :=
| path_start : path h s s d_zero
| path_step v o x e y :
    path h s v o -> h !! v = Some x -> e ∈ v_edges x -> h !! e_vertex e = Some y ->
    d_leb (requiredOverlap o e) (availableOverlap (v_info y) (v_info x)) = true ->
    path h s (e_vertex e) (requiredOverlap o e).

Lemma path_shape h h' s u o : same_shape h h' -> path h s u o -> path h' s u o.
Proof.
  intros Hs Hp. induction Hp as [|v o x e y _ IH Hx He Hy Ho]; [constructor|].
  destruct (same_shape_lookup_r _ _ _ _ Hs Hx) as (x' & Hx' & [= _ E1 E2]). destruct (same_shape_lookup_r _ _ _ _ Hs Hy) as (y' & Hy' & [= _ E3 _]).
  eapply path_step; [exact IH|exact Hx'|by rewrite E2|exact Hy'|by rewrite E1, E3].
Qed.

Section sums.
Context (h0 : Heap) (s : nat).

(** What is stored is the sum of a path. *)
Definition summed h v : Prop := exists x, h !! v = Some x /\ path h0 s v (v_overlap x).
Definition sums_ok h l : Prop :=
  same_shape h0 h /\ (forall u x, h !! u = Some x -> v_overlap x = d_infinity \/ path h0 s u (v_overlap x)) /\ Forall (summed h) l.

Lemma visit_sums v h l e x : h0 !! v = Some x -> e ∈ v_edges x ->
  sums_ok h l -> summed h v -> let '(h', l') := visit_list v (h, l) e in sums_ok h' l' /\ summed h' v.
Proof.
  intros Hx0 He (Hs & Hall & Hl) (xv & Hxv & Hp). unfold visit_list. rewrite Hxv. destruct (h !! e_vertex e) as [y|] eqn:Ey; [|by split; [|exists xv]].
  destruct (improves _ _ _ _) eqn:Ei; [|by split; [|exists xv]].
  unfold improves in Ei. apply andb_true_iff in Ei as [Hle _].
  destruct (same_shape_lookup _ _ _ _ Hs Hxv) as (x' & Hx' & [= _ E1 E2]). destruct (same_shape_lookup _ _ _ _ Hs Ey) as (y' & Hy' & [= _ E3 _]).
  assert (Hnew : path h0 s (e_vertex e) (requiredOverlap (v_overlap xv) e)).
  { eapply path_step; [exact Hp|exact Hx'|by simplify_eq|exact Hy'|by rewrite E1, E3]. }
  set (h' := <[_ := _]> h). assert (Hkeep : forall u, summed h u -> summed h' u).
  { intros u (z & Hz & Hpz). destruct (decide (u = e_vertex e)) as [->|].
    - eexists. unfold h'. rewrite lookup_insert_eq. split; [done|exact Hnew].
    - exists z. unfold h'. by rewrite lookup_insert_ne. }
  split; [split; [|split]|apply Hkeep; by exists xv].
  - eapply same_shape_trans; [exact Hs|]. pose proof (visit_list_shape v h l e) as Hv. unfold visit_list in Hv. rewrite Hxv, Ey in Hv.
    unfold improves in Hv. rewrite Hle in Hv. intros u. unfold h'. destruct (decide (u = e_vertex e)) as [->|].
    + by rewrite lookup_insert_eq, Ey.
    + by rewrite lookup_insert_ne.
  - intros u z. unfold h'. destruct (decide (u = e_vertex e)) as [->|].
    + rewrite lookup_insert_eq. intros [= <-]. right. exact Hnew.
    + rewrite lookup_insert_ne by done. apply Hall.
  - assert (Hl' : Forall (summed h') l) by (eapply Forall_impl; [exact Hl|exact Hkeep]). case_decide; [done|].
    apply Forall_app. split; [done|]. constructor; [|done]. eexists. unfold h'. rewrite lookup_insert_eq. split; [done|exact Hnew].
Qed.

Lemma visits_sums v es x : forall h l, h0 !! v = Some x -> (forall e, e ∈ es -> e ∈ v_edges x) -> sums_ok h l -> summed h v ->
  let '(h', l') := foldl (visit_list v) (h, l) es in sums_ok h' l'.
Proof.
  induction es as [|e es IH]; intros h l Hx Hes Hok Hv; simpl; [done|].
  pose proof (visit_sums v h l e x Hx ltac:(apply Hes; set_solver) Hok Hv) as H. destruct (visit_list v (h, l) e) as [h1 l1].
  destruct H as [H1 H2]. apply IH; [done|intros; apply Hes; set_solver|done|done].
Qed.

Lemma traverse_sums fuel : forall cur l h h', sums_ok h l -> (forall v, cur = Some v -> summed h v) ->
  traverse_list fuel cur l h = Some h' -> sums_ok h' [].
Proof.
  induction fuel as [|fuel IH]; intros [v|] l h h' Hok Hcur Ht; simpl in Ht; try done.
  1,3: injection Ht as <-; destruct Hok as (H1 & H2 & _); by split.
  destruct (Hcur v eq_refl) as (x & Hx & Hp). rewrite Hx in Ht. simpl in Ht. pose proof Hok as (Hs & _).
  destruct (same_shape_lookup _ _ _ _ Hs Hx) as (x0 & Hx0 & [= _ _ E]).
  pose proof (visits_sums v (v_edges x) x0 h l Hx0 ltac:(by rewrite E) Hok ltac:(by exists x)) as Hv.
  destruct (foldl _ _ _) as [h1 l1]. eapply IH; [| |exact Ht].
  - destruct Hv as (H1 & H2 & H3). split; [done|]. split; [done|]. destruct l1; [done|]. by apply Forall_cons in H3 as [_ H3].
  - intros u Hu. destruct Hv as (_ & _ & H3). destruct l1; [done|]. simpl in Hu. simplify_eq. by apply Forall_cons in H3 as [H3 _].
Qed.
End sums.

(** ** Termination and minimality *)

Definition nonneg_edges h : Prop := forall v x e, h !! v = Some x -> e ∈ v_edges x -> isSpatial e = true -> d_nonneg (e_angSep e).
Definition overlaps_ok h : Prop := forall u x, h !! u = Some x -> d_nonneg (v_overlap x).

Lemma nonneg_edges_shape h h' : same_shape h h' -> nonneg_edges h -> nonneg_edges h'.
Proof. intros Hs Hn v x e Hx He. destruct (same_shape_lookup _ _ _ _ Hs Hx) as (x' & Hx' & [= _ _ E]). apply (Hn v x' e); [done|by rewrite E]. Qed.

Lemma required_nonneg h v x e o : nonneg_edges h -> h !! v = Some x -> e ∈ v_edges x -> d_nonneg o -> d_nonneg (requiredOverlap o e).
Proof. intros Hn Hx He Ho. unfold requiredOverlap. destruct (isSpatial e) eqn:Es; [|done]. apply d_add_nonneg; [done|by eapply Hn]. Qed.

Lemma required_ok h v x e : overlaps_ok h -> nonneg_edges h -> h !! v = Some x -> e ∈ v_edges x -> d_nonneg (requiredOverlap (v_overlap x) e).
Proof. intros Hok Hn Hx He. eapply required_nonneg; [done..|]. by eapply Hok. Qed.

Lemma path_nonneg h s u o : nonneg_edges h -> path h s u o -> d_nonneg o.
Proof. intros Hn Hp. induction Hp as [|v o x e y _ IH Hx He _ _]; [exact I|]. by eapply required_nonneg. Qed.

Lemma required_mono h v x e o o' : nonneg_edges h -> h !! v = Some x -> e ∈ v_edges x -> d_nonneg o -> d_nonneg o' ->
  d_leb o o' = true -> d_leb (requiredOverlap o e) (requiredOverlap o' e) = true.
Proof. intros Hn Hx He Ho Ho' Hle. unfold requiredOverlap. destruct (isSpatial e) eqn:Es; [|done]. apply d_add_mono; [done..|by eapply Hn|done]. Qed.

Definition total h : Z := msum (fun _ x => dval (v_overlap x)) h.
Definition measure h l : Z := 2 * total h + Z.of_nat (length l).

Section minimal.
Context (h0 : Heap) (Hnn : nonneg_edges h0).

Definition relaxed_edge h u e : Prop :=
  forall x y, h !! u = Some x -> h !! e_vertex e = Some y -> improves (v_overlap x) x e y = false.
Definition relaxed h u : Prop := forall x e, h !! u = Some x -> e ∈ v_edges x -> relaxed_edge h u e.

(** While the edges of [v] are visited, of which [es] are left. *)
Definition visiting h l v (rest : list Edge) : Prop :=
  same_shape h0 h /\ overlaps_ok h /\ (forall u, u ∉ l -> u <> v -> relaxed h u) /\
  (v ∉ l -> forall x e, h !! v = Some x -> e ∈ v_edges x -> e ∉ rest -> relaxed_edge h v e).

Lemma improve_keeps h u v e x y :
  overlaps_ok h -> nonneg_edges h -> h !! v = Some x -> e ∈ v_edges x -> h !! e_vertex e = Some y -> improves (v_overlap x) x e y = true ->
  u <> e_vertex e -> forall e', (exists z, h !! u = Some z /\ e' ∈ v_edges z) -> relaxed_edge h u e' ->
  relaxed_edge (<[e_vertex e := v_set_overlap (requiredOverlap (v_overlap x) e) y]> h) u e'.
Proof.
  intros Hok Hn Hx He Hy Hi Hu e' (z & Hz & He') Hr xu yu. rewrite lookup_insert_ne by done. intros Hxu.
  destruct (decide (e_vertex e' = e_vertex e)) as [E|E]; [|rewrite lookup_insert_ne by done; by apply Hr].
  rewrite E, lookup_insert_eq. intros [= <-]. specialize (Hr xu y Hxu ltac:(by rewrite E)). unfold improves in *. cbn [v_overlap v_info v_set_overlap].
  apply andb_true_iff in Hi as [_ Hlt]. apply andb_false_iff in Hr as [Hr|Hr]; [by rewrite Hr|]. apply andb_false_iff. right.
  simplify_eq. pose proof (required_ok h v x e Hok Hn Hx He) as R1. pose proof (required_ok h u z e' Hok Hn Hz He') as R2. pose proof (Hok _ _ Hy) as R3.
  rewrite d_ltb_value in * by done. rewrite Z.ltb_lt in Hlt. rewrite Z.ltb_ge in *. lia.
Qed.

Lemma visit_visiting h l v e rest x0 : h0 !! v = Some x0 -> e ∈ v_edges x0 -> visiting h l v (e :: rest) ->
  let '(h', l') := visit_list v (h, l) e in visiting h' l' v rest /\ measure h' l' <= measure h l.
Proof.
  intros Hx0 He0 (Hs & Hok & Hset & Hdone). assert (Hn : nonneg_edges h) by (by eapply nonneg_edges_shape).
  destruct (same_shape_lookup_r _ _ _ _ Hs Hx0) as (x & Hx & [= _ _ Ee]). assert (He : e ∈ v_edges x) by (by rewrite Ee).
  pose proof (visit_list_shape v h l e) as Hsh. unfold visit_list in Hsh |- *. rewrite Hx in Hsh |- *.
  destruct (h !! e_vertex e) as [y|] eqn:Ey; simpl in Hsh.
  2: { split; [|done]. split; [done|]. split; [done|]. split; [done|]. intros Hv x' e' Hx' He' Hni.
       destruct (decide (e' = e)) as [->|]; [|apply (Hdone Hv x' e' Hx' He'); set_solver]. intros ? ? ? ?. by simplify_eq. }
  destruct (improves _ _ _ _) eqn:Hi; simpl in Hsh.
  2: { split; [|done]. split; [done|]. split; [done|]. split; [done|]. intros Hv x' e' Hx' He' Hni.
       destruct (decide (e' = e)) as [->|]; [|apply (Hdone Hv x' e' Hx' He'); set_solver]. intros ? ? ? ?. by simplify_eq. }
  set (req := requiredOverlap (v_overlap x) e) in *. assert (Hreq : d_nonneg req) by (by eapply required_ok).
  set (h' := <[e_vertex e := v_set_overlap req y]> h) in *. set (l' := if decide _ then _ else _).
  assert (Hl' : forall u, u ∉ l' -> u ∉ l /\ u <> e_vertex e) by (intros u; unfold l'; case_decide; set_solver).
  pose proof Hi as Hi'. unfold improves in Hi'. apply andb_true_iff in Hi' as [_ Hlt]. fold req in Hlt. rewrite d_ltb_value, Z.ltb_lt in Hlt by (done || by eapply Hok).
  split; [split; [by eapply same_shape_trans|split; [|split]]|].
  - intros u z. unfold h'. destruct (decide (u = e_vertex e)) as [->|]; [rewrite lookup_insert_eq; by intros [= <-]|].
    rewrite lookup_insert_ne by done. apply Hok.
  - intros u Hu Huv z e' Hz He'. destruct (Hl' u Hu) as [Hul Hue]. unfold h' in Hz |- *. rewrite lookup_insert_ne in Hz by done.
    eapply improve_keeps; eauto. by apply (Hset u Hul Huv z).
  - intros Hv x' e' Hx' He' Hni. destruct (Hl' v Hv) as [Hvl Hve]. unfold h' in Hx'. rewrite lookup_insert_ne in Hx' by done. simplify_eq.
    destruct (decide (e' = e)) as [->|Hne].
    + intros x' y'. unfold h'. rewrite lookup_insert_ne, lookup_insert_eq by done. rewrite Hx. intros [= <-] [= <-]. unfold improves. cbn [v_overlap v_set_overlap].
      fold req. rewrite (d_ltb_value req req), Z.ltb_irrefl by done. apply andb_false_r.
    + eapply improve_keeps; eauto. apply (Hdone Hvl _ e' Hx He'). set_solver.
  - unfold measure, total. unfold h'. rewrite (msum_update _ h _ y) by done. cbn [v_overlap v_set_overlap].
    assert (length l' <= S (length l))%nat by (unfold l'; case_decide; [lia|rewrite length_app; simpl; lia]). lia.
Qed.

Lemma visits_visiting v es x0 : forall h l, h0 !! v = Some x0 -> (forall e, e ∈ es -> e ∈ v_edges x0) -> visiting h l v es ->
  let '(h', l') := foldl (visit_list v) (h, l) es in visiting h' l' v [] /\ measure h' l' <= measure h l.
Proof.
  induction es as [|e es IH]; intros h l Hx Hes Hv; simpl; [done|].
  pose proof (visit_visiting h l v e es x0 Hx ltac:(apply Hes; set_solver) Hv) as H. destruct (visit_list v (h, l) e) as [h1 l1].
  destruct H as [H1 H2]. specialize (IH h1 l1 Hx ltac:(intros; apply Hes; set_solver) H1). destruct (foldl _ _ _). destruct IH. split; [done|lia].
Qed.

(** Between two vertices of the queue *)
Definition settled h (cur : option nat) l : Prop :=
  same_shape h0 h /\ overlaps_ok h /\ forall u, u ∉ l -> cur <> Some u -> relaxed h u.

Lemma total_nonneg h : 0 <= total h.
Proof. apply msum_nonneg. intros. apply dval_nonneg. Qed.

(** Enough fuel: every iteration makes the measure smaller. *)
Lemma traverse_settled fuel : forall cur l h,
  settled h cur l -> NoDup l -> (forall v, cur = Some v -> is_Some (h !! v)) -> Forall (fun v => is_Some (h !! v)) l ->
  (forall v, cur = Some v -> measure h l < Z.of_nat fuel) -> (cur = None -> l = []) ->
  exists h', traverse_list fuel cur l h = Some h' /\ settled h' None [].
Proof.
  induction fuel as [|fuel IH]; intros [v|] l h Hs Hnd Hcur Hl Hf Hnone; simpl.
  1: specialize (Hf v eq_refl); pose proof (total_nonneg h); unfold measure in Hf; lia.
  1,3: rewrite (Hnone eq_refl) in Hs; by exists h.
  destruct Hs as (Hs & Hok & Hset). destruct (Hcur v eq_refl) as [x Hx]. rewrite Hx. simpl.
  destruct (same_shape_lookup _ _ _ _ Hs Hx) as (x0 & Hx0 & [= _ _ E]).
  assert (Hv : visiting h l v (v_edges x)).
  { split; [done|]. split; [done|]. split; [intros u Hu Huv; apply Hset; congruence|]. intros _ x' e Hx' He Hn. by simplify_eq. }
  pose proof (visits_visiting v (v_edges x) x0 h l Hx0 ltac:(by rewrite E) Hv) as H.
  pose proof (visits_shape v (v_edges x) h l) as Hsh.
  assert (Hl1 : NoDup (foldl (visit_list v) (h, l) (v_edges x)).2 /\ Forall (fun v => is_Some (h !! v)) (foldl (visit_list v) (h, l) (v_edges x)).2).
  { assert (Hgen : forall es h1 l1, same_shape h h1 -> NoDup l1 -> Forall (fun v => is_Some (h !! v)) l1 ->
      NoDup (foldl (visit_list v) (h1, l1) es).2 /\ Forall (fun v => is_Some (h !! v)) (foldl (visit_list v) (h1, l1) es).2).
    { induction es as [|e es IHes]; intros h1 l1 Hs1 Hnd1 Hf1; simpl; [done|].
      pose proof (visit_list_shape v h1 l1 e) as Hs2. destruct (visit_list v (h1, l1) e) as [h2 l2] eqn:E2.
      apply IHes; [by eapply same_shape_trans| |]; unfold visit_list in E2; repeat case_match; simplify_eq; try done.
      - apply NoDup_app. split; [done|]. split; [set_solver|apply NoDup_singleton].
      - apply Forall_app. split; [done|]. constructor; [|done]. eapply same_shape_some; [|eauto]. intros w. by rewrite Hs1. }
    by apply Hgen. }
  destruct (foldl (visit_list v) (h, l) (v_edges x)) as [h1 l1]. simpl in Hl1, Hsh. destruct Hl1 as [Hnd1 Hf1], H as [(Hs1 & Hok1 & Hset1 & Hdone) Hm].
  apply IH.
  - split; [done|]. split; [done|]. intros u Hu Hc. destruct (decide (u ∈ l1)) as [Hin|Hin].
    + exfalso. destruct l1 as [|w l2]; simpl in *; set_solver.
    + destruct (decide (u = v)) as [->|]; [|by apply Hset1]. intros x' e Hx' He. eapply Hdone; set_solver.
  - destruct l1; [done|]. by apply NoDup_cons in Hnd1 as [_ ?].
  - intros w Hw. destruct l1 as [|w' l2]; [done|]. simpl in Hw. simplify_eq. apply Forall_cons in Hf1 as [Hw _]. by eapply same_shape_some.
  - destruct l1 as [|w' l2]; [constructor|]. apply Forall_cons in Hf1 as [_ Hf1]. eapply Forall_impl; [exact Hf1|]. intros w Hw. by eapply same_shape_some.
  - intros w Hw. specialize (Hf v eq_refl). destruct l1 as [|w' l2]; [done|]. unfold measure in *. simpl in *. lia.
  - by destruct l1.
Qed.

(** Sums along paths are not smaller than what is stored. *)
Lemma settled_minimal s h : settled h None [] -> (exists x, h !! s = Some x /\ d_leb (v_overlap x) d_zero = true) ->
  forall u o, path h0 s u o -> exists x, h !! u = Some x /\ d_leb (v_overlap x) o = true.
Proof.
  intros (Hs & Hok & Hrel) Hstart u o Hp. induction Hp as [|v o x0 e y0 Hpath IH Hx0 He Hy0 Ho]; [done|].
  destruct IH as (x & Hx & Hle). destruct (same_shape_lookup_r _ _ _ _ Hs Hy0) as (y & Hy & [= _ E3 _]). exists y. split; [done|].
  destruct (same_shape_lookup_r _ _ _ _ Hs Hx0) as (x' & Hx' & [= _ E1 E2]). simplify_eq.
  assert (Hmono : d_leb (requiredOverlap (v_overlap x) e) (requiredOverlap o e) = true).
  { apply (required_mono h0 v x0 e); [exact Hnn|done|done|by eapply Hok|by eapply path_nonneg|done]. }
  assert (He' : e ∈ v_edges x) by (by rewrite E2).
  pose proof (Hrel v ltac:(set_solver) ltac:(done) x e Hx He' x y Hx Hy) as Hi. unfold improves in Hi. rewrite E1, E3 in Hi.
  rewrite (d_leb_trans _ _ _ Hmono Ho) in Hi. simpl in Hi.
  pose proof (required_ok h v x e Hok (nonneg_edges_shape _ _ Hs Hnn) Hx He'). pose proof (Hok _ _ Hy).
  eapply d_leb_trans; [|exact Hmono]. rewrite d_ltb_value, Z.ltb_ge in Hi by done. rewrite d_leb_value, Z.leb_le by done. done.
Qed.
End minimal.

(** ** What is computed *)

(** As the constructors leave the vertices *)
Definition fresh h : Prop := unlinked h = h /\ forall v x, h !! v = Some x -> v_overlap x = d_infinity.

(** [h'] has the smallest sums of [h] for paths from [s]. *)
Definition minimal h s h' : Prop :=
  same_shape h h' /\ unlinked h' = h' /\
  forall u x, h' !! u = Some x ->
    (v_overlap x = d_infinity \/ path h s u (v_overlap x)) /\ (forall o, path h s u o -> d_leb (v_overlap x) o = true).

Lemma started_shape h s x : h !! s = Some x -> same_shape h (<[s := v_set_overlap d_zero x]> h).
Proof. intros Hx u. destruct (decide (u = s)) as [->|]; [by rewrite lookup_insert_eq, Hx|by rewrite lookup_insert_ne]. Qed.

Lemma started_unlinked h s x : fresh h -> h !! s = Some x -> unlinked (<[s := v_set_overlap d_zero x]> h) = <[s := v_set_overlap d_zero x]> h.
Proof.
  intros [Hf _] Hx. rewrite unlinked_insert, Hf. f_equal. rewrite <-Hf in Hx. unfold unlinked in Hx. rewrite lookup_fmap in Hx.
  destruct (h !! s); simplify_eq/=. done.
Qed.

Lemma started_overlap h s x u y : fresh h -> h !! s = Some x -> <[s := v_set_overlap d_zero x]> h !! u = Some y ->
  (u = s /\ v_overlap y = d_zero) \/ (u <> s /\ v_overlap y = d_infinity).
Proof.
  intros [_ Hf] Hx. destruct (decide (u = s)) as [->|]; [rewrite lookup_insert_eq; intros [= <-]; by left|].
  rewrite lookup_insert_ne by done. intros Hy. right. eauto.
Qed.

Definition enough h : nat := S (Z.to_nat (2 * total h)).

Lemma started_total h s x : h !! s = Some x -> total (<[s := v_set_overlap d_zero x]> h) <= total h.
Proof. intros Hx. unfold total. rewrite (msum_update _ h s x) by done. pose proof (dval_nonneg (v_overlap x)). simpl. lia. Qed.

Lemma minimum_run fuel s h x : closed h -> fresh h -> h !! s = Some x ->
  match traverse_list fuel (Some s) [] (<[s := v_set_overlap d_zero x]> h) with
  | Some h' => computeMinimumOverlap fuel s h = Ret h' /\ unlinked h' = h'
  | None => computeMinimumOverlap fuel s h = Raise OutOfFuel
  end.
Proof.
  intros Hc Hf Hx. unfold computeMinimumOverlap, deref. rewrite Hx. cbn [bind].
  pose proof (started_unlinked h s x Hf Hx) as Hu.
  pose proof (traverse_refines fuel (Some s) (mkQueue None None) (<[s := v_set_overlap d_zero x]> h) []) as Ht. rewrite Hu in Ht.
  apply Ht; [by apply unlinked_empty| | |done].
  - eapply closed_shape; [by apply started_shape|done].
  - intros ? [= <-]. rewrite lookup_insert_eq. eauto.
Qed.

(** Without an assumption on signs: if the loop ends, what it leaves are sums of paths. *)
Lemma overlap_sums fuel s h h' : closed h -> fresh h -> is_Some (h !! s) -> computeMinimumOverlap fuel s h = Ret h' ->
  same_shape h h' /\ unlinked h' = h' /\ forall u x, h' !! u = Some x -> v_overlap x = d_infinity \/ path h s u (v_overlap x).
Proof.
  intros Hc Hf [x Hx] Hrun. pose proof (minimum_run fuel s h x Hc Hf Hx) as Ht.
  destruct (traverse_list fuel (Some s) [] _) as [h2|] eqn:E; [|by rewrite Ht in Hrun].
  destruct Ht as [Ht Hu]. rewrite Ht in Hrun. injection Hrun as <-.
  apply (traverse_sums h s fuel) in E as (H1 & H2 & _); [done| |].
  - split; [by apply started_shape|]. split; [|constructor].
    intros u y Hy. destruct (started_overlap h s x u y Hf Hx Hy) as [[-> ->]|[_ ->]]; [right; constructor|by left].
  - intros v [= <-]. exists (v_set_overlap d_zero x). rewrite lookup_insert_eq. split; [done|constructor].
Qed.

(** Stored sums only become smaller. *)
Definition low s h : Prop := exists x, h !! s = Some x /\ d_leb (v_overlap x) d_zero = true.

Lemma visit_low s v h l e : low s h -> low s (visit_list v (h, l) e).1.
Proof.
  intros (x & Hx & Hle). unfold visit_list. destruct (h !! v) as [z|]; [|by exists x]. destruct (h !! e_vertex e) as [y|] eqn:Ey; [|by exists x].
  destruct (improves _ _ _ _) eqn:Ei; [|by exists x]. unfold low. simpl. destruct (decide (s = e_vertex e)) as [->|].
  - rewrite lookup_insert_eq. eexists. split; [done|]. simplify_eq. unfold improves in Ei. apply andb_true_iff in Ei as [_ Hlt].
    eapply d_leb_trans; [by apply d_ltb_leb|done].
  - rewrite lookup_insert_ne by done. by exists x.
Qed.

Lemma visits_low s v es : forall h l, low s h -> low s (foldl (visit_list v) (h, l) es).1.
Proof.
  induction es as [|e es IH]; intros h l Hl; simpl; [done|]. pose proof (visit_low s v h l e Hl) as H.
  destruct (visit_list v (h, l) e). by apply IH.
Qed.

Lemma traverse_low s fuel : forall cur l h h', traverse_list fuel cur l h = Some h' -> low s h -> low s h'.
Proof.
  induction fuel as [|fuel IH]; intros [v|] l h h' Ht Hl; simpl in Ht; try done; try by injection Ht as <-.
  pose proof (visits_low s v (default [] (v_edges <$> h !! v)) h l Hl). destruct (foldl _ _ _). by eapply IH.
Qed.

Lemma infinity_improves_nothing h v x e y : overlaps_ok h -> nonneg_edges h -> h !! v = Some x -> e ∈ v_edges x -> h !! e_vertex e = Some y ->
  v_overlap x = d_infinity -> improves (v_overlap x) x e y = false.
Proof.
  intros Hok Hn Hx He Hy E. unfold improves. apply andb_false_iff. right. pose proof (required_ok _ _ _ _ Hok Hn Hx He) as Hr. pose proof (Hok _ _ Hy) as Hy'.
  rewrite d_ltb_value, Z.ltb_ge by done. pose proof (dval_max _ Hy') as Hmax. unfold requiredOverlap in *. rewrite E in *.
  destruct (isSpatial e) eqn:Es; [|done]. assert (Hnn : d_nonneg (e_angSep e)) by (by eapply (Hn v x e)). pose proof (d_add_grows d_infinity (e_angSep e) eq_refl Hnn) as Hg.
  rewrite d_leb_value, Z.leb_le in Hg by done. change (dval d_infinity) with d_max in Hg. lia.
Qed.

Lemma overlap_minimal fuel s h : closed h -> fresh h -> nonneg_edges h -> is_Some (h !! s) -> (enough h <= fuel)%nat ->
  exists h', computeMinimumOverlap fuel s h = Ret h' /\ minimal h s h'.
Proof.
  intros Hc Hf Hn [x Hx] Hfuel. pose proof (started_shape h s x Hx) as Hs1.
  assert (Hok : overlaps_ok (<[s := v_set_overlap d_zero x]> h)).
  { intros u y Hy. destruct (started_overlap h s x u y Hf Hx Hy) as [[_ ->]|[_ ->]]; done. }
  destruct (traverse_settled h Hn fuel (Some s) [] (<[s := v_set_overlap d_zero x]> h)) as (h2 & Et & Hset).
  - split; [done|]. split; [done|]. intros u _ Hu y e Hy He y' z Hy' Hz. simplify_eq.
    destruct (started_overlap h s x u y Hf Hx Hy) as [[-> _]|[_ E]]; [done|].
    eapply infinity_improves_nothing; eauto. by eapply nonneg_edges_shape.
  - constructor.
  - intros ? [= <-]. rewrite lookup_insert_eq. eauto.
  - constructor.
  - intros ? _. unfold measure, enough in *. pose proof (started_total h s x Hx) as H. pose proof (total_nonneg h). simpl. lia.
  - done.
  - pose proof (minimum_run fuel s h x Hc Hf Hx) as Ht. rewrite Et in Ht. destruct Ht as [Ht _].
    exists h2. split; [done|]. destruct (overlap_sums fuel s h h2 Hc Hf ltac:(eauto) Ht) as (H1 & H2 & H3).
    split; [done|]. split; [done|]. intros u y Hy. split; [by apply H3|]. intros o Hp.
    destruct (settled_minimal h Hn s h2 Hset) with (u := u) (o := o) as (y' & Hy' & Hle); [|done|by simplify_eq].
    apply (traverse_low s _ _ _ _ _ Et). eexists. by rewrite lookup_insert_eq.
Qed.

(** ** [_validate] *)

Lemma reset_lookup vs : forall h u, resetVertices vs h !! u = (if decide (u ∈ vs) then v_set_overlap d_infinity <$> h !! u else h !! u).
Proof.
  unfold resetVertices. induction vs as [|v vs IH]; intros h u; simpl; [done|]. rewrite IH.
  destruct (decide (u = v)) as [->|Hne].
  - rewrite lookup_alter_eq, (decide_True (P := v ∈ v :: vs)) by set_solver. case_decide; [|done]. by destruct (h !! v).
  - rewrite lookup_alter_ne by done. destruct (decide (u ∈ vs)), (decide (u ∈ v :: vs)); set_solver.
Qed.

(** The vertices of a graph are all the vertices there are. *)
Definition covers (vs : list nat) h : Prop := forall v, v ∈ vs <-> is_Some (h !! v).

(** A new search starts as the first one. *)
Lemma reset_fresh vs h h' : covers vs h -> fresh h -> same_shape h h' -> unlinked h' = h' -> resetVertices vs h' = h.
Proof.
  intros Hv [Hu Hf] Hs Hu'. apply map_eq. intros v. rewrite reset_lookup. destruct (h' !! v) as [x'|] eqn:E'.
  - destruct (same_shape_lookup _ _ _ _ Hs E') as (x & E & [= E1 E2 E3]). rewrite decide_True by (apply Hv; eauto).
    rewrite E. simpl. f_equal. pose proof (Hf _ _ E) as Eo. apply (no_link _ _ _ Hu) in E. apply (no_link _ _ _ Hu') in E'.
    destruct x, x'. unfold v_set_overlap. simpl in *. congruence.
  - destruct (h !! v) as [x|] eqn:E; [|by case_decide]. specialize (Hs v). by rewrite E, E' in Hs.
Qed.

(** From [s] every vertex can be reached with a finite sum of separations. *)
Definition reaches h (vs : list nat) s : Prop := forall u, u ∈ vs -> exists o, path h s u o /\ d_isinf o = false.
Definition start_of h (vs : list nat) s : Prop := s ∈ vs /\ exists x, h !! s = Some x /\ is_match (v_info x) = false.

Lemma evaluable_reaches h vs s h' : covers vs h -> nonneg_edges h -> minimal h s h' -> isEvaluable vs h' = true <-> reaches h vs s.
Proof.
  intros Hv Hn (Hs & _ & Hm). unfold isEvaluable. rewrite forallb_forall. split.
  - intros H u Hu. specialize (H u ltac:(by apply list_elem_of_In)). destruct (proj1 (Hv u) Hu) as [x Hx].
    destruct (same_shape_lookup_r _ _ _ _ Hs Hx) as (x' & Hx' & _). unfold overlap_of in H. rewrite Hx' in H. simpl in H. apply negb_true_iff in H.
    destruct (Hm u x' Hx') as [[E|Hp] _]; [by rewrite E in H|]. eauto.
  - intros H u Hu. apply list_elem_of_In in Hu. destruct (H u Hu) as (o & Hp & Ho). destruct (proj1 (Hv u) Hu) as [x Hx].
    destruct (same_shape_lookup_r _ _ _ _ Hs Hx) as (x' & Hx' & _). unfold overlap_of. rewrite Hx'. simpl. apply negb_true_iff.
    destruct (Hm u x' Hx') as [Hc Hle]. specialize (Hle o Hp). pose proof (path_nonneg _ _ _ _ Hn Hp) as Hno.
    assert (Hnx : d_nonneg (v_overlap x')). { destruct Hc as [->|Hc]; [done|]. by eapply path_nonneg. }
    rewrite isinf_value, Z.eqb_neq in * by done. rewrite d_leb_value, Z.leb_le in Hle by done. pose proof (dval_max _ Hno). lia.
Qed.

Definition only_matches h (vs : list nat) : Prop := forall s x, s ∈ vs -> h !! s = Some x -> is_match (v_info x) = true.

Lemma try_starts_spec fuel h all : closed h -> fresh h -> nonneg_edges h -> covers all h -> (enough h <= fuel)%nat ->
  forall starts n h1, (forall s, s ∈ starts -> s ∈ all) -> same_shape h h1 -> unlinked h1 = h1 ->
  exists h' b, try_starts fuel all starts n h1 = Ret (h', b) /\ same_shape h h' /\ unlinked h' = h' /\
    if b : bool
    then (exists s, start_of h starts s /\ reaches h all s /\ minimal h s h') \/
         (n = 0%nat /\ only_matches h starts /\ (length all = 0%nat \/ length all = 2%nat))
    else (forall s, start_of h starts s -> ~ reaches h all s) /\
         ~ (n = 0%nat /\ only_matches h starts /\ (length all = 0%nat \/ length all = 2%nat)).
Proof.
  intros Hc Hf Hn Hv Hfuel. induction starts as [|s starts IH]; intros n h1 Hsub Hs Hu; simpl.
  - eexists h1, _. split; [done|]. split; [done|]. split; [done|]. destruct (Nat.eqb_spec n 0) as [->|Hn0].
    + destruct ((length all =? 0)%nat || (length all =? 2)%nat) eqn:E.
      * right. split; [done|]. split; [by intros ? ? ?%elem_of_nil|]. apply orb_true_iff in E. rewrite !Nat.eqb_eq in E. done.
      * apply orb_false_iff in E as [E1%Nat.eqb_neq E2%Nat.eqb_neq]. split; [by intros ? [?%elem_of_nil _]|]. intros (_ & _ & [?|?]); done.
    + split; [by intros ? [?%elem_of_nil _]|]. by intros [? _].
  - destruct (proj1 (Hv s) (Hsub s ltac:(set_solver))) as [x Hx]. destruct (same_shape_lookup_r _ _ _ _ Hs Hx) as (x1 & Hx1 & [= _ E _]).
    unfold deref. rewrite Hx1. simpl. rewrite E. destruct (is_match (v_info x)) eqn:Em.
    + destruct (IH n h1 ltac:(set_solver) Hs Hu) as (h' & b & -> & Hs' & Hu' & Hb). exists h', b. split; [done|]. split; [done|]. split; [done|].
      assert (Hst : forall r, start_of h (s :: starts) r <-> start_of h starts r).
      { intros r. unfold start_of. split; intros [Hr (y & Hy & Hm)]; (split; [|eauto]); [|set_solver].
        apply elem_of_cons in Hr as [->|]; [congruence|done]. }
      assert (Hom : only_matches h (s :: starts) <-> only_matches h starts).
      { unfold only_matches. split; intros H r y Hr Hy; [apply (H r y); [set_solver|done]|]. apply elem_of_cons in Hr as [->|]; [congruence|by eapply H]. }
      destruct b; [destruct Hb as [(r & Hr & Hb)|(? & ? & ?)]; [left; exists r; by rewrite Hst|right; by rewrite Hom]|].
      destruct Hb as [H1 H2]. split; [intros r Hr; apply H1; by apply Hst|by rewrite Hom].
    + rewrite (reset_fresh all h h1 Hv Hf Hs Hu). destruct (overlap_minimal fuel s h Hc Hf Hn ltac:(eauto) Hfuel) as (h2 & -> & Hmin). simpl.
      pose proof (evaluable_reaches h all s h2 Hv Hn Hmin) as Hev. pose proof Hmin as (Hs2 & Hu2 & _).
      assert (Hst : start_of h (s :: starts) s) by (split; [set_solver|eauto]).
      destruct (isEvaluable all h2).
      * exists h2, true. split; [done|]. split; [done|]. split; [done|]. left. exists s. split; [done|]. split; [by apply Hev|done].
      * destruct (IH (S n) h2 ltac:(set_solver) Hs2 Hu2) as (h' & b & -> & Hs' & Hu' & Hb). exists h', b. split; [done|]. split; [done|]. split; [done|].
        destruct b; [destruct Hb as [(r & [Hr Hr'] & Hb)|(? & _)]; [left; exists r; split; [split; [set_solver|done]|done]|done]|].
        destruct Hb as [H1 _]. split.
        -- intros r [Hr Hr']. apply elem_of_cons in Hr as [->|Hr]; [|by apply H1]. intros Hreach. by apply Hev in Hreach.
        -- intros (_ & Hom & _). specialize (Hom s x ltac:(set_solver) Hx). congruence.
Qed.

(** What [_validate] decides *)
Definition evaluable h (vs : list nat) : Prop :=
  (exists s, start_of h vs s /\ reaches h vs s) \/ (only_matches h vs /\ (length vs = 0%nat \/ length vs = 2%nat)).


(** Without an assumption on signs or fuel: when a query is accepted, every vertex
    has the sum of a path from a start vertex. *)
Lemma try_starts_accepts fuel h all : closed h -> fresh h -> covers all h -> forall starts n h1 h',
  (forall s, s ∈ starts -> s ∈ all) -> same_shape h h1 -> unlinked h1 = h1 -> try_starts fuel all starts n h1 = Ret (h', true) ->
  same_shape h h' /\
  ((exists s, start_of h starts s /\ forall u x, h' !! u = Some x -> path h s u (v_overlap x) /\ d_isinf (v_overlap x) = false) \/ (n = 0%nat /\ only_matches h starts)).
Proof.
  intros Hc Hf Hv. induction starts as [|s starts IH]; intros n h1 h' Hsub Hs Hu Hr; simpl in Hr.
  { destruct (Nat.eqb_spec n 0); [|done]. injection Hr as <- _. split; [done|]. right. split; [done|]. by intros ? ? ?%elem_of_nil. }
  destruct (proj1 (Hv s) (Hsub s ltac:(set_solver))) as [x Hx]. destruct (same_shape_lookup_r _ _ _ _ Hs Hx) as (x1 & Hx1 & [= _ E _]).
  unfold deref in Hr. rewrite Hx1 in Hr. simpl in Hr. rewrite E in Hr. destruct (is_match (v_info x)) eqn:Em.
  - destruct (IH _ _ _ ltac:(set_solver) Hs Hu Hr) as [Hs' [(r & [Hr1 Hr2] & Hp)|[Hn Hm]]]; (split; [done|]).
    + left. exists r. split; [split; [set_solver|done]|done].
    + right. split; [done|]. intros r y Hy1 Hy2. apply elem_of_cons in Hy1 as [->|Hy1]; [congruence|by eapply Hm].
  - rewrite (reset_fresh all h h1 Hv Hf Hs Hu) in Hr. apply bind_ret_inv in Hr as (h2 & Hr2 & Hr).
    destruct (overlap_sums fuel s h h2 Hc Hf ltac:(eauto) Hr2) as (Hs2 & Hu2 & Hsum).
    destruct (isEvaluable all h2) eqn:Ev.
    + injection Hr as <-. split; [done|]. left. exists s. split; [split; [set_solver|eauto]|]. intros u y Hy.
      unfold isEvaluable in Ev. rewrite forallb_forall in Ev. destruct (same_shape_lookup _ _ _ _ Hs2 Hy) as (y0 & Hy0 & _).
      specialize (Ev u ltac:(apply list_elem_of_In, Hv; eauto)). unfold overlap_of in Ev. rewrite Hy in Ev. simpl in Ev. apply negb_true_iff in Ev.
      destruct (Hsum u y Hy) as [Ei|Hp]; [by rewrite Ei in Ev|done].
    + destruct (IH _ _ _ ltac:(set_solver) Hs2 Hu2 Hr) as [Hs' [(r & [Hr1' Hr2'] & Hp)|[Hn Hm]]]; (split; [done|]).
      * left. exists r. split; [split; [set_solver|done]|done].
      * done.
Qed.
