(* ===== verification/RelationGraphSem.v ===== *)
(** * What it means to evaluate a query in parallel

    The meaning of a query without outer joins, and of its templates on the
    chunks, for the theorems about [RelationGraph.v]:
    - [Sky]: positions, separations and the cells (chunk, sub-chunk) of a
      partitioning;
    - [Catalog]: the rows of the tables and what the workers have of them.  Rows
      of a director table are in the chunk and sub-chunk of their position, and
      in the overlap tables of the sub-chunks that are near; rows of a child table
      are in the chunk of the object they refer to, rows of a match table in
      the chunks of both of their objects;
    - [stmt_true]: what holds of a joined row that a query selects, which is all
      that is assumed of SQL, with the meaning of equality and of comparisons
      of [scisql_angSep] ([sql_ok]).
    Data are placed by the partitioner and the loader and conditions are evaluated
    by MySQL, so these are parameters with laws. *)

From Stdlib Require Import String SpecFloat.
From S2P Require Import Prelude.
From S2P Require Import StdString.
From S2P Require Import Double.
From S2P Require Import StdFloat.
From S2P Require Import QueryIr.
From S2P Require Import TableInfo.
From S2P Require Import RelationGraph.

Local Open Scope Z_scope.

(** ** Positions *)

Class Sky := {
  Pos : Type;
  near : double -> Pos -> Pos -> Prop;                  (** not farther apart than *)
  cell : Z -> Pos -> Z * Z;                             (** chunk and sub-chunk of a position *)
  in_overlap : Z -> double -> Z * Z -> Pos -> bool;     (** close to a sub-chunk *)
}.

(** Sums are sums of doubles: that rounding loses nothing is part of [near_trans]. *)
Class SkyLaws (S : Sky) : Prop := {
  near_refl p : near d_zero p p;
  near_sym a p q : near a p q -> near a q p;
  near_zero a p q : near a p q -> d_leb a d_zero = true -> p = q;
  near_trans a b p q r : d_nonneg a -> d_nonneg b -> near a p q -> near b q r -> near (d_add a b) p r;
  near_overlap n a o p q : d_nonneg o -> near a p q -> d_leb a o = true -> cell n q <> cell n p -> in_overlap n o (cell n p) q = true;
}.

(** ** Tables *)

Class Catalog `{Sky} := {
  Value : Type;
  value0 : Value;
  meta : string -> string -> option TableInfo;
  is_table : string -> string -> bool;
  rows : string -> string -> list (string -> Value);
  point : Value -> Value -> Pos;                        (** longitude and latitude *)
  located : string -> string -> Value -> Pos;           (** of the object of a director table with a key *)
  stored : Z * Z -> string * string -> list (string -> Value);
  cells : list (Z * Z);
}.
Abbreviation Row := (string -> Value).
Abbreviation Env := (nat -> string -> Value).

Section catalog.
Context `{Catalog}.

Definition meta_of (tr : TableRef) : option TableInfo := meta (tr_db tr) (tr_table tr).

(** The director tables of a table *)
Definition directors (t : TableInfo) : list DirTableInfo :=
  match t with DIRECTOR d => [d] | CHILD _ _ d _ => [d] | MATCH _ _ d1 d2 _ _ _ => [d1; d2] end.
Definition partitioning (t : TableInfo) : Z :=
  match t with DIRECTOR d => di_partitioningId d | CHILD _ _ d _ => di_partitioningId d | MATCH _ _ d1 _ _ _ _ => di_partitioningId d1 end.
Definition located_in (d : DirTableInfo) : Value -> Pos := located (di_database d) (di_table d).

(** Where a row is; a row of a match table is where its column [c] says. *)
Definition position (t : TableInfo) (c : string) (r : Row) : Pos :=
  match t with
  | DIRECTOR d => point (r (di_lon d)) (r (di_lat d))
  | CHILD _ _ d fk => located_in d (r fk)
  | MATCH _ _ d1 d2 fk1 fk2 _ => if bool_decide (c = fk1) then located_in d1 (r fk1) else located_in d2 (r fk2)
  end.
Definition cell_of (t : TableInfo) (c : string) (r : Row) : Z * Z := cell (partitioning t) (position t c r).

Definition in_chunk (t : TableInfo) (k : Z * Z) (r : Row) : bool :=
  match t with
  | MATCH _ _ _ _ fk1 fk2 _ => bool_decide ((cell_of t fk1 r).1 = k.1) || bool_decide ((cell_of t fk2 r).1 = k.1)
  | _ => bool_decide ((cell_of t "" r).1 = k.1)
  end.
Definition in_subchunk (t : TableInfo) (k : Z * Z) (r : Row) : bool := bool_decide (cell_of t "" r = k).
Definition in_overlap_table (d : DirTableInfo) (k : Z * Z) (r : Row) : bool :=
  negb (in_subchunk (DIRECTOR d) k r) && in_overlap (di_partitioningId d) (di_overlap d) k (position (DIRECTOR d) "" r).

Class CatalogLaws : Prop := {
  meta_names db t i : meta db t = Some i -> ti_database i = db /\ ti_table i = t;
  meta_directors db t i d : meta db t = Some i -> d ∈ directors i -> meta (di_database d) (di_table d) = Some (DIRECTOR d);
  meta_overlap db t d : meta db t = Some (DIRECTOR d) -> d_nonneg (di_overlap d);
  meta_match db t db' t' d1 d2 fk1 fk2 a : meta db t = Some (MATCH db' t' d1 d2 fk1 fk2 a) ->
    fk1 <> fk2 /\ fk1 <> ""%string /\ fk2 <> ""%string /\ di_partitioningId d1 = di_partitioningId d2 /\ d_nonneg a;
  row_director db t d r : meta db t = Some (DIRECTOR d) -> r ∈ rows db t -> located_in d (r (di_pk d)) = position (DIRECTOR d) "" r;
  row_match db t db' t' d1 d2 fk1 fk2 a r : meta db t = Some (MATCH db' t' d1 d2 fk1 fk2 a) -> r ∈ rows db t ->
    near a (located_in d1 (r fk1)) (located_in d2 (r fk2));
  stored_plain db t k : is_table db t = true -> meta db t = None -> stored k (db, t) = rows db t;
  stored_chunk db t i k : meta db t = Some i -> stored k (chunkNames i) = filter (fun r => in_chunk i k r = true) (rows db t);
  stored_subchunk db t d k : meta db t = Some (DIRECTOR d) ->
    stored k (subChunkNames (DIRECTOR d)) = filter (fun r => in_subchunk (DIRECTOR d) k r = true) (rows db t);
  stored_overlap db t d k : meta db t = Some (DIRECTOR d) ->
    stored k (overlapNames (DIRECTOR d)) = filter (fun r => in_overlap_table d k r = true) (rows db t);
  cells_distinct : NoDup cells;
  cells_all n p : cell n p ∈ cells;
}.

(** ** Joined rows *)

(** The references of a query; a joined row has one row for each. *)
Definition refs_of (s : SelectStmt) : list TableRef := flat_map all_refs (ss_fromList s).
Fixpoint env_of (refs : list TableRef) (w : list Row) : Env :=
  match refs, w with
  | tr :: refs', r :: w' => fun a => if (tr_addr tr =? a)%nat then r else env_of refs' w' a
  | _, _ => fun _ _ => value0
  end.

(** [c] is a reference to a join column of [tr]. *)
Definition named (tr : TableRef) (i : TableInfo) (c : ColumnRef) : Prop :=
  c ∈ appendColumnRefs (cr_column c) (ti_database i) (ti_table i) (tr_alias tr).
Definition refers (tr : TableRef) (c : ColumnRef) : Prop :=
  exists i, meta_of tr = Some i /\ cr_column c ∈ join_columns i /\ named tr i c.

(** All tables exist. *)
Definition known (s : SelectStmt) : bool := forallb (fun tr => is_table (tr_db tr) (tr_table tr)) (refs_of s).

(** [USING] and [NATURAL]: the tables on both sides agree on a column. *)
Definition has_column (tr : TableRef) (c : string) : Prop := exists i, meta_of tr = Some i /\ c ∈ join_columns i.
Definition equated (rho : Env) (left right : list TableRef) (c : string) : Prop :=
  forall a b, a ∈ left -> b ∈ right -> has_column a c -> has_column b c -> rho (tr_addr a) c = rho (tr_addr b) c.

Section true.
Context (pt : BoolFactorTerm -> option bool) (rho : Env).

Definition join_true (left right : list TableRef) (j : JoinRef) : Prop :=
  (jr_natural j = true -> forall c, equated rho left right c) /\
  match jr_spec j with
  | Some sp =>
      (forall c, js_using sp = Some c -> equated rho left right (cr_column c)) /\
      (forall t, js_on sp = Some t -> truth pt t = Some true)
  | None => True
  end.

Section joins.
Context (ref_true : TableRef -> Prop).
Fixpoint joins_true (left : list TableRef) (js : list JoinRef) : Prop :=
  match js with
  | [] => True
  | j :: js' => ref_true (jr_right j) /\ join_true left (all_refs (jr_right j)) j /\ joins_true (left ++ all_refs (jr_right j)) js'
  end.
End joins.
Fixpoint ref_true (tr : TableRef) : Prop := joins_true ref_true [tr] (tr_joins tr).

Definition stmt_true (s : SelectStmt) : Prop :=
  Forall ref_true (ss_fromList s) /\ forall w, ss_where s = Some w -> truth pt w = Some true.
End true.

(** A comparison that bounds the separation of two positions *)
Definition is_literal (e : ValueExpr) (a : double) : Prop := exists o v, getFactorOps e = [(CONST v, o)] /\ strtod v = Some a.
Definition is_separation (e : ValueExpr) (c0 c1 c2 c3 : ColumnRef) : Prop :=
  exists o p0 p1 p2 p3, getFactorOps e = [(FUNCTION "scisql_angSep" [p0; p1; p2; p3], o)] /\
    getColumnRef p0 = Some c0 /\ getColumnRef p1 = Some c1 /\ getColumnRef p2 = Some c2 /\ getColumnRef p3 = Some c3.
Inductive bounds_separation (a : double) (c0 c1 c2 c3 : ColumnRef) : BoolFactorTerm -> Prop :=
| sep_left l op r : op ∈ [LESS_THAN_OP; LESS_THAN_OR_EQUALS_OP; EQUALS_OP; NULL_SAFE_EQUALS_OP] ->
    is_separation l c0 c1 c2 c3 -> is_literal r a -> bounds_separation a c0 c1 c2 c3 (CompPredicate l op r)
| sep_right l op r : op ∈ [GREATER_THAN_OP; GREATER_THAN_OR_EQUALS_OP; EQUALS_OP; NULL_SAFE_EQUALS_OP] ->
    is_separation r c0 c1 c2 c3 -> is_literal l a -> bounds_separation a c0 c1 c2 c3 (CompPredicate l op r).

(** Other names for the tables of a query *)
Definition names_in (f : nat -> option (string * string)) (tr : TableRef) : string * string := default (tr_db tr, tr_table tr) (f (tr_addr tr)).
Fixpoint rename (f : nat -> option (string * string)) (tr : TableRef) : TableRef :=
  mkTableRef (tr_addr tr) (names_in f tr).1 (names_in f tr).2 (tr_alias tr)
    (map (fun j => mkJoinRef (rename f (jr_right j)) (jr_type j) (jr_natural j) (jr_spec j)) (tr_joins tr)).
Definition stmt_rename (f : nat -> option (string * string)) (s : SelectStmt) : SelectStmt :=
  mkSelectStmt (ss_selectList s) (map (rename f) (ss_fromList s)) (ss_where s) (ss_groupBy s) (ss_having s) (ss_orderBy s).

(** SQL: [holds s rho], the joined row [rho] is selected by [s], and [pt rho], the
    truth of predicates.  Conditions use aliases, so they do not change
    when tables are renamed. *)
Record sql_ok (stmt : SelectStmt) (pt : Env -> BoolFactorTerm -> option bool) (holds : SelectStmt -> Env -> bool) : Prop := {
  sql_names f s rho : holds (stmt_rename f s) rho = holds s rho;
  sql_conditions rho : holds stmt rho = true -> stmt_true (pt rho) rho stmt;
  sql_equal rho l r c1 c2 t1 t2 :
    holds stmt rho = true -> pt rho (CompPredicate l EQUALS_OP r) = Some true -> getColumnRef l = Some c1 -> getColumnRef r = Some c2 ->
    t1 ∈ refs_of stmt -> t2 ∈ refs_of stmt -> refers t1 c1 -> refers t2 c2 ->
    rho (tr_addr t1) (cr_column c1) = rho (tr_addr t2) (cr_column c2);
  sql_separation rho p a c0 c1 c2 c3 t1 t2 :
    holds stmt rho = true -> pt rho p = Some true -> bounds_separation a c0 c1 c2 c3 p ->
    t1 ∈ refs_of stmt -> t2 ∈ refs_of stmt -> refers t1 c0 -> refers t1 c1 -> refers t2 c2 -> refers t2 c3 ->
    near a (point (rho (tr_addr t1) (cr_column c0)) (rho (tr_addr t1) (cr_column c1)))
           (point (rho (tr_addr t2) (cr_column c2)) (rho (tr_addr t2) (cr_column c3)));
}.

(** ** Evaluation *)

Fixpoint product {A} (ls : list (list A)) : list (list A) :=
  match ls with
  | [] => [[]]
  | l :: ls' => flat_map (fun r => map (cons r) (product ls')) l
  end.
Definition table_of (f : string * string -> list Row) (tr : TableRef) : list Row := f (tr_db tr, tr_table tr).

(** The joined rows that [s] selects from tables [f] *)
Definition select (holds : SelectStmt -> Env -> bool) (f : string * string -> list Row) (s : SelectStmt) : list (list Row) :=
  filter (fun w => holds s (env_of (refs_of s) w) = true) (product (map (table_of f) (refs_of s))).

(** The query on whole tables, and the templates for every sub-chunk, or every chunk *)
Definition direct holds (s : SelectStmt) : list (list Row) := select holds (fun n => rows n.1 n.2) s.
Definition jobs (m : QueryMapping) : list (Z * Z) :=
  if hasSubChunks m then cells
  else if hasChunks m then map (fun c => (c, 0)) (remove_dups (map fst cells))
  else [(0, 0)].
Definition in_parallel holds (out : list SelectStmt) (m : QueryMapping) : list (list Row) :=
  flat_map (fun k => flat_map (select holds (stored k)) out) (jobs m).
End catalog.

(** ** The queries that are covered *)

Definition inner_type (j : JoinType) : bool := match j with LEFT | RIGHT => false | _ => true end.
Fixpoint inner_ref (tr : TableRef) : bool := forallb (fun j => inner_type (jr_type j) && inner_ref (jr_right j)) (tr_joins tr).

(** A comparison that is taken for a join condition is not negated, is not an
    inequality, and does not bound separations by a negative number. *)
Definition d_nonnegb (a : double) : bool :=
  match a with
  | S754_zero _ => true
  | S754_infinity neg => negb neg
  | S754_nan => false
  | S754_finite neg m e => negb neg && bounded 53 1024 m e
  end.
Definition is_some {A} (o : option A) : bool := match o with Some _ => true | None => false end.
Definition plain_comparison (l : ValueExpr) (op : OpType) (r : ValueExpr) (hasNot : bool) : bool :=
  match spOperands l op r with
  | (Some _, a) =>
      d_isnan a || (negb hasNot && d_nonnegb a && negb (bool_decide (op ∈ [NOT_EQUALS_OP; NOT_EQUALS_OP_ALT])))
  | (None, _) => negb (hasNot && bool_decide (op = EQUALS_OP) && is_some (getColumnRef l) && is_some (getColumnRef r))
  end.
Fixpoint plain (t : BoolTerm) : bool :=
  match t with
  | AndTerm [u] | OrTerm [u] => plain u
  | AndTerm ts => forallb plain ts
  | BoolFactor [CompPredicate l op r] hasNot => plain_comparison l op r hasNot
  | _ => true
  end.
Definition plain_spec (s : option JoinSpec) : bool := match s with Some (mkJoinSpec _ (Some t)) => plain t | _ => true end.
Fixpoint plain_ref (tr : TableRef) : bool := forallb (fun j => plain_spec (jr_spec j) && plain_ref (jr_right j)) (tr_joins tr).

Definition covered (s : SelectStmt) : bool :=
  forallb (fun tr => inner_ref tr && plain_ref tr) (ss_fromList s) &&
  match ss_where s with Some w => plain w | None => true end &&
  bool_decide (NoDup (map tr_addr (flat_map all_refs (ss_fromList s)))).
