(* ===== verification/RelationGraphInv.v ===== *)
(** * The edges of a relation graph are true

    Construction of a graph ([graph_of_stmt]): its vertices are the references to
    partitioned tables (two for a match table), and every edge states something
    that holds of every joined row that the query selects: both rows have the same
    position, or positions that are not farther apart than the separation of the
    edge. *)

From Stdlib Require Import String SpecFloat.
From S2P Require Import Prelude.
From S2P Require Import StdString.
From S2P Require Import Double.
From S2P Require Import StdFloat.
From S2P Require Import QueryIr.
From S2P Require Import TableInfo.
From S2P Require Import RelationGraph.
From S2P Require Import RelationGraphVal.
From S2P Require Import RelationGraphSem.

Local Open Scope Z_scope.

(** ** Generalities *)

(** What the edges satisfy is kept when two edges to a vertex become one. *)
Definition merged (a b : double) : double :=
  if negb (d_isnan a) && negb (d_isnan b) then (if d_ltb a b then a else b) else S754_nan.

Lemma edges_insert_all (addr : nat -> Z) (Q : nat -> double -> Prop) e es : Inj eq eq addr ->
  (forall w a b, Q w a -> Q w b -> Q w (merged a b)) ->
  Q (e_vertex e) (e_angSep e) -> Forall (fun e => Q (e_vertex e) (e_angSep e)) es ->
  Forall (fun e => Q (e_vertex e) (e_angSep e)) (edges_insert addr e es).
Proof.
  intros Hinj Hm He. induction 1 as [|i es Hi Hes IH]; simpl; [by constructor|].
  destruct (_ <? _); [by constructor|]. destruct (Z.eqb_spec (addr (e_vertex i)) (addr (e_vertex e))) as [E|E]; simpl; [|by repeat constructor].
  apply (inj addr) in E. constructor; [|done]. cbn [e_vertex e_angSep]. change (if isSpatial i && isSpatial e then _ else _) with (merged (e_angSep i) (e_angSep e)).
  apply Hm; [done|by rewrite E].
Qed.

Lemma k_and_true_inv a b : k_and a b = Some true -> a = Some true /\ b = Some true.
Proof. destruct a as [[]|], b as [[]|]; done. Qed.

(** Lexicographic orders *)
Lemma str_lt_asym x y : str_lt x y = true -> str_lt y x = false.
Proof. intros E. destruct (str_lt y x) eqn:E'; [|done]. pose proof (str_lt_trans _ _ _ E E') as C. by rewrite str_lt_irrefl in C. Qed.

Lemma str_lt_ntrans x y z : str_lt x y = false -> str_lt y z = false -> str_lt x z = false.
Proof.
  intros E1 E2. destruct (str_lt x z) eqn:E; [|done]. destruct (str_lt z y) eqn:E3.
  - by rewrite (str_lt_trans _ _ _ E E3) in E1.
  - pose proof (str_lt_total _ _ E2 E3) as ->. congruence.
Qed.

#[export] Instance str_lt_weak {A} (f : A -> string) : StrictWeak (fun a b => str_lt (f a) (f b)).
Proof. split; [intros x y; apply str_lt_asym|intros x y z; apply str_lt_ntrans]. Qed.

#[export] Instance lex_weak {A} (f : A -> string) (lt : A -> A -> bool) : StrictWeak lt ->
  StrictWeak (fun a b => str_lt (f a) (f b) || (bool_decide (f a = f b) && lt a b)).
Proof.
  intros Hlt. split.
  - intros x y [E|[E1%bool_decide_eq_true E2]%andb_true_iff]%orb_true_iff.
    + rewrite (str_lt_asym _ _ E). simpl. rewrite bool_decide_eq_false_2; [done|]. intros E'. rewrite E', str_lt_irrefl in E. done.
    + rewrite E1, str_lt_irrefl, bool_decide_eq_true_2 by done. simpl. by apply sw_asym.
  - intros x y z [E1 E1']%orb_false_iff [E2 E2']%orb_false_iff. rewrite (str_lt_ntrans _ _ _ E1 E2). simpl. apply andb_false_iff.
    destruct (decide (f x = f z)) as [E|E]; [right|left; by rewrite bool_decide_eq_false_2].
    assert (Exy : f x = f y). { apply str_lt_total; [done|]. by rewrite E. }
    rewrite bool_decide_eq_true_2 in E1' by done. rewrite bool_decide_eq_true_2 in E2' by congruence. by eapply sw_ntrans.
Qed.

#[export] Instance ColumnRefLt_weak : StrictWeak ColumnRefLt.
Proof. apply (lex_weak cr_column), (lex_weak cr_table), (str_lt_weak cr_db). Qed.

Lemma refs_split c0 refs : let refs' := std_sort ColumnRefLt refs in head refs' = Some c0 ->
  (forall c, c ∈ (split_while (fun c => bool_decide (cr_column c = cr_column c0)) refs').1 -> cr_column c = cr_column c0) /\
  (forall c, c ∈ (split_while (fun c => bool_decide (cr_column c = cr_column c0)) refs').2 -> cr_column c <> cr_column c0).
Proof.
  pose proof (std_sort_ordered ColumnRefLt refs) as Ho. unfold ordered in Ho. simpl. generalize dependent (std_sort ColumnRefLt refs).
  intros l Ho Hh. assert (Hmin : forall c, c ∈ l -> str_lt (cr_column c) (cr_column c0) = false).
  { destruct l as [|c l]; [done|]. injection Hh as ->. apply StronglySorted_inv in Ho as [_ Ho]. rewrite Forall_forall in Ho.
    intros c Hc. apply elem_of_cons in Hc as [->|Hc]; [apply str_lt_irrefl|]. specialize (Ho c Hc). unfold ColumnRefLt in Ho.
    by apply orb_false_iff in Ho as [Ho _]. }
  clear Hh. induction Ho as [|c l Hs IH Hc]; simpl; [split; by intros ? ?%elem_of_nil|].
  destruct (bool_decide_reflect (cr_column c = cr_column c0)) as [E|E].
  - destruct (IH ltac:(intros; apply Hmin; set_solver)) as [H1 H2]. destruct (split_while _ l). simpl in *. split; [|done].
    intros c' Hc'. apply elem_of_cons in Hc' as [->|]; auto.
  - split; [by intros ? ?%elem_of_nil|]. simpl. intros c' Hc' E'. apply elem_of_cons in Hc' as [->|Hc']; [done|].
    rewrite Forall_forall in Hc. specialize (Hc c' Hc'). unfold ColumnRefLt in Hc. apply orb_false_iff in Hc as [Hc _]. rewrite E' in Hc.
    apply E. apply str_lt_total; [apply Hmin; set_solver|done].
Qed.

(** Merging of column maps invents nothing. *)
Lemma merge_runs_in e : forall m n, e ∈ merge_runs m n -> e ∈ m \/ e ∈ n.
Proof.
  induction m as [|x m IHm]; intros n; [by right|]. induction n as [|y n IHn]; [by left|].
  simpl. destruct (entry_lt y x); intros H; apply elem_of_cons in H as [->|H].
  - right. set_solver.
  - apply IHn in H as [?|?]; [by left|right; set_solver].
  - left. set_solver.
  - apply IHm in H as [?|?]; [left; set_solver|by right].
Qed.

Definition from (l : list Entry) (e : Entry) (v : nat) : Prop := exists e0, e0 ∈ l /\ en_cr e0 = en_cr e /\ v ∈ en_vertices e0.

Lemma dedupe_from nat cols : forall rest cur out, dedupe nat cols cur rest = Ret out ->
  forall e v, e ∈ out -> v ∈ en_vertices e -> from (cur :: rest) e v.
Proof.
  induction rest as [|i rest IH]; intros cur out Hr e v He Hv; simpl in Hr.
  { injection Hr as <-. apply list_elem_of_singleton in He as ->. exists cur. set_solver. }
  case_bool_decide as Ei.
  - destruct (_ || _); [|destruct (isAmbiguous cur || isAmbiguous i); [done|]].
    + destruct (IH _ _ Hr e v He Hv) as (e0 & H0 & H1 & H2). apply elem_of_cons in H0 as [->|H0]; [by apply elem_of_nil in H2|]. exists e0. set_solver.
    + destruct (IH _ _ Hr e v He Hv) as (e0 & H0 & H1 & H2). apply elem_of_cons in H0 as [->|H0]; [|exists e0; set_solver].
      simpl in H1, H2. apply elem_of_app in H2 as [H2|H2]; [exists cur; set_solver|]. exists i. rewrite <-H1, Ei. set_solver.
  - apply bind_ret_inv in Hr as (l & Hr & Hl). injection Hl as <-. apply elem_of_cons in He as [->|He]; [exists cur; set_solver|].
    destruct (IH _ _ Hr e v He Hv) as (e0 & H0 & H1 & H2). exists e0. set_solver.
Qed.

Lemma map_fuse_from nat cols m n out e v : map_fuse m n nat cols = Ret out -> e ∈ out -> v ∈ en_vertices e -> from m e v \/ from n e v.
Proof.
  unfold map_fuse. intros Hr He Hv. destruct (merge_runs m n) as [|x l] eqn:E; [injection Hr as <-; by apply elem_of_nil in He|].
  destruct (dedupe_from _ _ _ _ _ Hr e v He Hv) as (e0 & H0 & H1). rewrite <-E in H0. apply merge_runs_in in H0 as [H0|H0]; [left|right]; exists e0; auto.
Qed.

(** ** Predicates *)

Lemma getColumnRef_ops e c : getColumnRef e = Some c -> exists o, getFactorOps e = [(COLUMNREF c, o)].
Proof. unfold getColumnRef. destruct (getFactorOps e) as [|[f o] [|]]; try done. destruct f; try done. intros [= ->]. eauto. Qed.

Lemma getAngSepFunc_ops e ps : getAngSepFunc e = Some ps -> exists o, getFactorOps e = [(FUNCTION "scisql_angSep" ps, o)] /\ length ps = 4%nat.
Proof.
  unfold getAngSepFunc. destruct (getFactorOps e) as [|[f o] [|]]; try done; destruct f as [|nm qs| | | |]; try done. 
  destruct (_ && _) eqn:E; [|done]. apply andb_true_iff in E as [->%bool_decide_eq_true E%Nat.eqb_eq]. intros [= ->]. eauto.
Qed.

Lemma getNumericConst_literal e : d_isnan (getNumericConst e) = false -> is_literal e (getNumericConst e).
Proof.
  unfold getNumericConst, is_literal. destruct (getFactorOps e) as [|[f o] [|]]; try done; destruct f as [| | | |val|]; try done.
  destruct (strtod val) as [a|] eqn:E; [|done]. simpl. eauto.
Qed.

(** What an equality between columns is *)
Lemma getEqColumnRefs_spec t c1 c2 : getEqColumnRefs t = Ret (Some (c1, c2)) -> plain t = true ->
  exists l r, t = BoolFactor [CompPredicate l EQUALS_OP r] false /\ getColumnRef l = Some c1 /\ getColumnRef r = Some c2.
Proof.
  destruct t as [| |fs b|]; try done. destruct fs as [|[| | |l op r| | | |] [|]]; try done; try (by destruct op). destruct op; try done.
  simpl. destruct (getColumnRef l) as [c|] eqn:El, (getColumnRef r) as [c'|] eqn:Er; try done. intros Hr Hp.
  apply bind_ret_inv in Hr as (_ & _ & Hr). apply bind_ret_inv in Hr as (_ & _ & Hr). injection Hr as -> ->. exists l, r.
  unfold plain_comparison, spOperands, getAngSepFunc in Hp. destruct (getColumnRef_ops _ _ El) as [o Eo], (getColumnRef_ops _ _ Er) as [o' Eo'].
  rewrite Eo, Eo', El, Er in Hp. by destruct b.
Qed.

(** What a comparison of a separation is *)
Lemma spOperands_bounds l op r ps a b c0 c1 c2 c3 : spOperands l op r = (Some ps, a) -> d_isnan a = false -> plain_comparison l op r b = true ->
  Forall2 (fun p c => getColumnRef p = Some c) ps [c0; c1; c2; c3] ->
  b = false /\ d_nonneg a /\ bounds_separation a c0 c1 c2 c3 (CompPredicate l op r).
Proof.
  intros Hs Ha Hp Hps. unfold plain_comparison in Hp. rewrite Hs, Ha in Hp. simpl in Hp.
  apply andb_true_iff in Hp as [[->%negb_true_iff Hnn]%andb_true_iff Hop%negb_true_iff%bool_decide_eq_false]. split; [done|].
  split; [destruct a as [| [|] | |[|] ? ?]; simpl in *; done|].
  assert (Hsep : forall e, getAngSepFunc e = Some ps -> is_separation e c0 c1 c2 c3).
  { intros e He. apply getAngSepFunc_ops in He as (o & He & _). do 4 (apply Forall2_cons_inv_r in Hps as (? & ? & ? & Hps & ->)).
    apply Forall2_nil_inv_r in Hps as ->. by repeat eexists. }
  assert (Hleft : getAngSepFunc l = Some ps -> a = getNumericConst r ->
    op ∈ [LESS_THAN_OP; LESS_THAN_OR_EQUALS_OP; EQUALS_OP; NULL_SAFE_EQUALS_OP] -> bounds_separation a c0 c1 c2 c3 (CompPredicate l op r)).
  { intros H1 -> H3. apply sep_left; [done|by apply Hsep|by apply getNumericConst_literal]. }
  assert (Hright : getAngSepFunc r = Some ps -> a = getNumericConst l ->
    op ∈ [GREATER_THAN_OP; GREATER_THAN_OR_EQUALS_OP; EQUALS_OP; NULL_SAFE_EQUALS_OP] -> bounds_separation a c0 c1 c2 c3 (CompPredicate l op r)).
  { intros H1 -> H3. apply sep_right; [done|by apply Hsep|by apply getNumericConst_literal]. }
  clear Hsep. unfold spOperands in Hs.
  destruct op; try (exfalso; apply Hop; rewrite !elem_of_cons; by auto); try (destruct (getAngSepFunc l) eqn:El in Hs);
    injection Hs as H1 H2; first [apply Hleft; [congruence|done|rewrite !elem_of_cons; by auto 6] | apply Hright; [congruence|done|rewrite !elem_of_cons; by auto 6]].
Qed.

(** ** The invariant *)

Lemma TableRef_rect' (Q : TableRef -> Prop) :
  (forall a db t al js, Forall (fun j => Q (jr_right j)) js -> Q (mkTableRef a db t al js)) -> forall tr, Q tr.
Proof.
  intros Hq. fix IH 1. intros [a db t al js]. apply Hq. induction js as [|[r ty n sp] js IHjs]; constructor; [apply IH|exact IHjs].
Qed.

Section construction.
Context {S : Sky} {HS : SkyLaws S} {C : Catalog} {HC : CatalogLaws}.
Context (addr : nat -> Z) (Haddr : Inj eq eq addr).
Context (refs : list TableRef) (sat : Env -> Prop) (pt : Env -> BoolFactorTerm -> option bool).
Context (refs_distinct : forall t t', t ∈ refs -> t' ∈ refs -> tr_addr t = tr_addr t' -> t = t').
Context (sat_rows : forall rho tr, sat rho -> tr ∈ refs -> rho (tr_addr tr) ∈ rows (tr_db tr) (tr_table tr)).
Context (sat_equal : forall rho l r c1 c2 t1 t2,
  sat rho -> pt rho (CompPredicate l EQUALS_OP r) = Some true -> getColumnRef l = Some c1 -> getColumnRef r = Some c2 ->
  t1 ∈ refs -> t2 ∈ refs -> refers t1 c1 -> refers t2 c2 -> rho (tr_addr t1) (cr_column c1) = rho (tr_addr t2) (cr_column c2)).
Context (sat_separation : forall rho p a c0 c1 c2 c3 t1 t2,
  sat rho -> pt rho p = Some true -> bounds_separation a c0 c1 c2 c3 p ->
  t1 ∈ refs -> t2 ∈ refs -> refers t1 c0 -> refers t1 c1 -> refers t2 c2 -> refers t2 c3 ->
  near a (point (rho (tr_addr t1) (cr_column c0)) (rho (tr_addr t1) (cr_column c1)))
         (point (rho (tr_addr t2) (cr_column c2)) (rho (tr_addr t2) (cr_column c3)))).

(** The reference and the table of a vertex *)
Definition node : Type := nat * TableInfo.
Definition nodes (h : Heap) : gmap nat node := (fun x => (v_tr x, v_info x)) <$> h.

Implicit Types (pos : Env -> nat -> Pos) (N : gmap nat node) (n : node) (v w : nat) (a : double) (D : list nat) (L R : list TableRef).

Definition is_ref tr n : Prop := tr ∈ refs /\ tr_addr tr = n.1 /\ meta_of tr = Some n.2.

(** A vertex is where its row is; for a match table, where one of its objects is. *)
Definition placed pos v n : Prop :=
  match n.2 with
  | MATCH _ _ _ _ fk1 fk2 _ => (forall rho, pos rho v = position n.2 fk1 (rho n.1)) \/ (forall rho, pos rho v = position n.2 fk2 (rho n.1))
  | _ => forall rho, pos rho v = position n.2 "" (rho n.1)
  end.

Record nodes_ok pos D N : Prop := {
  n_dom v : is_Some (N !! v) <-> (v < size N)%nat;
  n_ref v n : N !! v = Some n -> n.1 ∈ D /\ (exists tr, is_ref tr n) /\ placed pos v n;
  n_distinct v w n n' : N !! v = Some n -> N !! w = Some n' -> n.1 = n'.1 -> v <> w -> is_match n.2 = true;
}.

Definition edge_ok pos v n a w n' : Prop :=
  partitioning n.2 = partitioning n'.2 /\
  (is_match n.2 = true -> is_match n'.2 = true -> n.1 = n'.1) /\
  (d_isnan a = false -> d_nonneg a) /\
  forall rho, sat rho -> if d_isnan a then pos rho v = pos rho w else near a (pos rho v) (pos rho w).

Definition edges_ok pos (h : Heap) : Prop :=
  forall v x e, h !! v = Some x -> e ∈ v_edges x -> exists n', nodes h !! e_vertex e = Some n' /\ edge_ok pos v (v_tr x, v_info x) (e_angSep e) (e_vertex e) n'.

Record inv pos D (h : Heap) : Prop := { i_fresh : fresh h; i_nodes : nodes_ok pos D (nodes h); i_edges : edges_ok pos h }.

(** A step that only adds edges *)
Definition keeps pos D N (f : Heap -> outcome (Heap * nat)) : Prop :=
  forall h h' k, inv pos D h -> nodes h = N -> f h = Ret (h', k) -> inv pos D h' /\ nodes h' = N.

(** ** Edges *)

Lemma edge_ok_sym pos v n a w n' : edge_ok pos v n a w n' -> edge_ok pos w n' a v n.
Proof.
  intros (H1 & H2 & H3 & H4). split; [done|]. split; [intros; symmetry; auto|]. split; [done|].
  intros rho Hr. specialize (H4 rho Hr). destruct (d_isnan a); [done|by apply near_sym].
Qed.

Lemma edge_ok_merged pos v n w n' a b : edge_ok pos v n a w n' -> edge_ok pos v n b w n' -> edge_ok pos v n (merged a b) w n'.
Proof.
  intros (H1 & H2 & H3 & H4) (_ & _ & H5 & H6). split; [done|]. split; [done|]. unfold merged.
  destruct (d_isnan a) eqn:Ea, (d_isnan b) eqn:Eb; simpl; (split; [try done|]); try (intros rho Hr; by (apply (H4 rho Hr) || apply (H6 rho Hr))).
  - intros _. destruct (d_ltb a b); auto.
  - intros rho Hr. destruct (d_ltb a b); rewrite ?Ea, ?Eb; [by apply H4|by apply H6].
Qed.

Lemma nodes_insert_edges h v x es : h !! v = Some x -> nodes (<[v := v_set_edges es x]> h) = nodes h.
Proof. intros Hx. unfold nodes. rewrite fmap_insert. apply insert_id. by rewrite lookup_fmap, Hx. Qed.

Lemma fresh_insert_edges h v x es : h !! v = Some x -> fresh h -> fresh (<[v := v_set_edges es x]> h).
Proof.
  intros Hx [Hu Hf]. split.
  - rewrite unlinked_insert, Hu. f_equal. pose proof (no_link _ _ _ Hu Hx) as E. destruct x. unfold v_set_next. simpl in *. by rewrite E.
  - intros u y. destruct (decide (u = v)) as [->|]; [rewrite lookup_insert_eq; intros [= <-]; apply (Hf v x Hx)|rewrite lookup_insert_ne by done; apply Hf].
Qed.

Lemma nodes_lookup h v x : h !! v = Some x -> nodes h !! v = Some (v_tr x, v_info x).
Proof. intros Hx. unfold nodes. by rewrite lookup_fmap, Hx. Qed.

Lemma nodes_lookup_inv h v n : nodes h !! v = Some n -> exists x, h !! v = Some x /\ n = (v_tr x, v_info x).
Proof. unfold nodes. rewrite lookup_fmap. destruct (h !! v); [|done]. intros [= <-]. eauto. Qed.

Lemma Vertex_insert_inv pos D h h' v w a n n' : inv pos D h -> nodes h !! v = Some n -> nodes h !! w = Some n' -> edge_ok pos v n a w n' ->
  Vertex_insert addr v (mkEdge w a) h = Ret h' -> inv pos D h' /\ nodes h' = nodes h.
Proof.
  intros [Hf Hn He] Hv Hw Hok Hr. unfold Vertex_insert, deref in Hr. apply nodes_lookup_inv in Hv as (x & Hx & ->). rewrite Hx in Hr. simpl in Hr.
  injection Hr as <-. pose proof (nodes_insert_edges h v x (edges_insert addr (mkEdge w a) (v_edges x)) Hx) as En. split; [|done].
  split; [by apply fresh_insert_edges|by rewrite En|]. intros u y e Hy Hin. rewrite En. destruct (decide (u = v)) as [->|].
  - rewrite lookup_insert_eq in Hy. injection Hy as <-. cbn [v_edges v_set_edges v_tr v_info] in *.
    pose proof (edges_insert_all addr (fun w a => exists n', nodes h !! w = Some n' /\ edge_ok pos v (v_tr x, v_info x) a w n') (mkEdge w a) (v_edges x) Haddr) as Hall.
    eapply (proj1 (Forall_forall _ _)) in Hall; [exact Hall| | |apply Forall_forall; intros e'; by apply He|exact Hin].
    + intros u b c (m & Hm & Hb) (m' & Hm' & Hc). simplify_eq. exists m. split; [done|by apply edge_ok_merged].
    + simpl. eauto.
  - rewrite lookup_insert_ne in Hy by done. by apply He.
Qed.

Lemma link_inv pos D h h' v w a n n' : inv pos D h -> nodes h !! v = Some n -> nodes h !! w = Some n' -> edge_ok pos v n a w n' ->
  link addr v w a h = Ret h' -> inv pos D h' /\ nodes h' = nodes h.
Proof.
  intros Hi Hv Hw Hok Hr. unfold link in Hr. apply bind_ret_inv in Hr as (h1 & Hr1 & Hr).
  destruct (Vertex_insert_inv _ _ _ _ _ _ _ _ _ Hi Hv Hw Hok Hr1) as [Hi1 E1].
  rewrite <-E1 in Hv, Hw. destruct (Vertex_insert_inv _ _ _ _ _ _ _ _ _ Hi1 Hw Hv (edge_ok_sym _ _ _ _ _ _ Hok) Hr) as [Hi2 E2].
  by rewrite E2.
Qed.

(** ** Columns *)

(** [v] is the vertex of a reference of [L] to which [c] refers. *)
Definition column_at pos N L v (c : ColumnRef) : Prop :=
  exists n tr, N !! v = Some n /\ tr ∈ L /\ is_ref tr n /\ cr_column c ∈ join_columns n.2 /\ named tr n.2 c /\
    forall rho, pos rho v = position n.2 (cr_column c) (rho n.1).
Definition entries_ok pos N L (m : list Entry) : Prop :=
  forall e v, e ∈ m -> v ∈ en_vertices e -> column_at pos N L v (en_cr e).

(** The director table whose keys are in column [c] *)
Definition keyed (i : TableInfo) (c : string) (d : DirTableInfo) : Prop :=
  match i with
  | DIRECTOR d' => d = d' /\ c = di_pk d'
  | CHILD _ _ d' fk => d = d' /\ c = fk
  | MATCH _ _ d1 d2 fk1 fk2 _ => (d = d1 /\ c = fk1) \/ (d = d2 /\ c = fk2)
  end.

Lemma dir_eq_same d d' t t' i i' : meta t t' = Some i -> d ∈ directors i -> forall u u' , meta u u' = Some i' -> d' ∈ directors i' ->
  dir_eq d d' = true -> d = d'.
Proof.
  intros Hi Hd u u' Hi' Hd' [E1%bool_decide_eq_true E2%bool_decide_eq_true]%andb_true_iff.
  pose proof (meta_directors _ _ _ _ Hi Hd) as H1. pose proof (meta_directors _ _ _ _ Hi' Hd') as H2. rewrite E1, E2 in H1. congruence.
Qed.

Lemma admissible_spec i i' c c' : isEqPredAdmissible i i' c c' false = true ->
  exists d d', d ∈ directors i /\ d' ∈ directors i' /\ (dir_eq d d' = true \/ dir_eq d' d = true) /\
    keyed i c d /\ keyed i' c' d' /\ (is_match i = false \/ is_match i' = false).
Proof.
  destruct i as [d|? ? d fk|? ? d1 d2 fk1 fk2 ?], i' as [e|? ? e gk|? ? e1 e2 gk1 gk2 ?]; simpl;
    unfold admissible_dir_dir, admissible_dir_child, admissible_dir_match, admissible_child_child, admissible_child_match;
    try done; repeat case_bool_decide; rewrite ?andb_true_r, ?andb_false_r, ?orb_false_r; try done; intros Ha;
    try (apply orb_true_iff in Ha as [Ha|Ha]); try done;
    first [ solve [do 2 eexists; split_and!; [| |left; exact Ha|..]; simpl; rewrite ?elem_of_cons; auto 8]
          | solve [do 2 eexists; split_and!; [| |right; exact Ha|..]; simpl; rewrite ?elem_of_cons; auto 8] ].
Qed.

Lemma admissible_keyed tr tr' n n' c c' : is_ref tr n -> is_ref tr' n' -> isEqPredAdmissible n.2 n'.2 c c' false = true ->
  exists d, keyed n.2 c d /\ keyed n'.2 c' d /\ (is_match n.2 = false \/ is_match n'.2 = false).
Proof.
  intros (_ & _ & Hm) (_ & _ & Hm') Ha. apply admissible_spec in Ha as (d & d' & Hd & Hd' & He & Hk & Hk' & Hn).
  exists d. split; [done|]. split; [|done]. replace d with d'; [done|].
  destruct He as [He|He]; [symmetry; exact (dir_eq_same d d' _ _ _ _ Hm Hd _ _ Hm' Hd' He)|exact (dir_eq_same d' d _ _ _ _ Hm' Hd' _ _ Hm Hd He)].
Qed.

Lemma keyed_partitioning tr n c d : is_ref tr n -> keyed n.2 c d -> partitioning n.2 = di_partitioningId d.
Proof.
  intros (_ & _ & Hm) Hk. destruct n as [? [d'|? ? d' fk|? ? d1 d2 fk1 fk2 ?]]; simpl in *; [by destruct Hk as [-> _]..|].
  apply meta_match in Hm as (_ & _ & _ & E & _). by destruct Hk as [[-> _]|[-> _]].
Qed.

Lemma keyed_position tr n c d rho : is_ref tr n -> keyed n.2 c d -> sat rho -> position n.2 c (rho n.1) = located_in d (rho n.1 c).
Proof.
  intros (Hin & Ha & Hm) Hk Hr. destruct n as [t [d'|? ? d' fk|? ? d1 d2 fk1 fk2 ?]]; simpl in *.
  - destruct Hk as [-> ->]. symmetry. apply (row_director _ _ _ _ Hm). rewrite <-Ha. by apply sat_rows.
  - by destruct Hk as [-> ->].
  - apply meta_match in Hm as (Hne & _). destruct Hk as [[-> ->]|[-> ->]]; [by rewrite bool_decide_eq_true_2|by rewrite bool_decide_eq_false_2].
Qed.

Lemma eq_edge pos N L R v w c1 c2 n n' :
  column_at pos N L v c1 -> column_at pos N R w c2 -> N !! v = Some n -> N !! w = Some n' ->
  (forall rho t1 t2, sat rho -> t1 ∈ L -> t2 ∈ R -> t1 ∈ refs -> t2 ∈ refs -> refers t1 c1 -> refers t2 c2 ->
    rho (tr_addr t1) (cr_column c1) = rho (tr_addr t2) (cr_column c2)) ->
  isEqPredAdmissible n.2 n'.2 (cr_column c1) (cr_column c2) false = true -> edge_ok pos v n S754_nan w n'.
Proof.
  intros (m & tr & Hm & HL & Hr & Hc & Hn & Hp) (m' & tr' & Hm' & HR & Hr' & Hc' & Hn' & Hp') Hv Hw Heq Ha. simplify_eq.
  destruct (admissible_keyed _ _ _ _ _ _ Hr Hr' Ha) as (d & Hk & Hk' & Hno).
  split; [by rewrite (keyed_partitioning _ _ _ _ Hr Hk), (keyed_partitioning _ _ _ _ Hr' Hk')|].
  split; [intros; destruct Hno; congruence|]. split; [done|]. intros rho Hs. simpl. rewrite Hp, Hp'.
  rewrite (keyed_position _ _ _ _ _ Hr Hk Hs), (keyed_position _ _ _ _ _ Hr' Hk' Hs). f_equal.
  destruct Hr as (Hin & Ea & Hmeta), Hr' as (Hin' & Ea' & Hmeta'). rewrite <-Ea, <-Ea'. apply Heq; try done; eexists; eauto.
Qed.

(** ** Functions that add edges *)

Lemma every_keeps {A} pos D N (f : A -> Heap -> outcome (Heap * nat)) l : (forall x, x ∈ l -> keeps pos D N (f x)) -> keeps pos D N (each f l).
Proof.
  induction l as [|x l IH]; intros Hf h h' k Hi Hn Hr; simpl in Hr; [by injection Hr as <- _|].
  apply bind_ret_inv in Hr as ([h1 k1] & Hr1 & Hr). apply bind_ret_inv in Hr as ([h2 k2] & Hr2 & Hr). injection Hr as <- _.
  destruct (Hf x ltac:(set_solver) _ _ _ Hi Hn Hr1) as [Hi1 Hn1]. eapply IH; eauto. intros y Hy. apply Hf. set_solver.
Qed.

Lemma addEqEdges_keeps pos D N L R c1 c2 l1 l2 :
  (forall v, v ∈ l1 -> column_at pos N L v c1) -> (forall w, w ∈ l2 -> column_at pos N R w c2) ->
  (forall rho t1 t2, sat rho -> t1 ∈ L -> t2 ∈ R -> t1 ∈ refs -> t2 ∈ refs -> refers t1 c1 -> refers t2 c2 ->
    rho (tr_addr t1) (cr_column c1) = rho (tr_addr t2) (cr_column c2)) ->
  keeps pos D N (addEqEdges addr (cr_column c1) (cr_column c2) false l1 l2).
Proof.
  intros H1 H2 Heq. apply every_keeps. intros v Hv. apply every_keeps. intros w Hw h h' k Hi Hn Hr. unfold addEqEdge in Hr.
  destruct (Nat.eqb_spec v w) as [_|_]; [by injection Hr as <- _|].
  destruct (H1 v Hv) as (n & _ & Hnv & _). destruct (H2 w Hw) as (n' & _ & Hnw & _). pose proof Hnv as Hxv. pose proof Hnw as Hxw. rewrite <-Hn in Hxv, Hxw.
  apply nodes_lookup_inv in Hxv as (x & Hx & ->). apply nodes_lookup_inv in Hxw as (y & Hy & ->).
  unfold deref in Hr. rewrite Hx, Hy in Hr. simpl in Hr. destruct (isEqPredAdmissible _ _ _ _ _) eqn:Ea; [|by injection Hr as <- _].
  apply bind_ret_inv in Hr as (h1 & Hr1 & Hr). injection Hr as <- _.
  pose proof (eq_edge pos N L R v w c1 c2 _ _ (H1 v Hv) (H2 w Hw) Hnv Hnw Heq Ea) as Hok. rewrite <-Hn in Hnv, Hnw.
  destruct (link_inv pos D h h1 v w _ _ _ Hi Hnv Hnw Hok Hr1) as [? ->]. done.
Qed.

Lemma find_ok pos N L m c vs : entries_ok pos N L m -> map_find m c = Ret vs -> forall v, v ∈ vs -> column_at pos N L v c.
Proof.
  intros Hm. unfold map_find. destruct (find _ m) as [e|] eqn:E; [|intros [= <-] ? ?%elem_of_nil; done].
  apply find_some in E as [Hin Hc%bool_decide_eq_true]. destruct (isAmbiguous e); [done|]. intros [= <-] v Hv. rewrite <-Hc.
  apply Hm; [by apply list_elem_of_In|done].
Qed.

(** Conjuncts are true where the whole is true. *)
Definition true_term (t : BoolTerm) : Prop := forall rho, sat rho -> truth (pt rho) t = Some true.

Lemma conjunct_keeps pos D N leaf t :
  (forall u, true_term u -> plain u = true -> keeps pos D N (leaf u)) -> true_term t -> plain t = true -> keeps pos D N (each_conjunct leaf t).
Proof.
  intros Hleaf. induction t as [ts IH|ts IH|fs b IH|] using BoolTerm_rect'; intros Ht Hp.
  - destruct ts as [|u [|u' ts]].
    + intros h h' k Hi Hn Hr. simpl in Hr. by injection Hr as <- _.
    + apply Forall_cons in IH as [IH _]. apply IH; [|done]. intros rho Hs. specialize (Ht rho Hs). simpl in Ht. by rewrite k_and_true in Ht.
    + change (plain (AndTerm (u :: u' :: ts))) with (forallb plain (u :: u' :: ts)) in Hp.
      assert (Hall : Forall true_term (u :: u' :: ts)).
      { clear -Ht. assert (H : forall rho, sat rho -> Forall (fun t => truth (pt rho) t = Some true) (u :: u' :: ts)).
        { intros rho Hs. specialize (Ht rho Hs). revert Ht. generalize (u :: u' :: ts) as l. clear. induction l as [|t l IHl]; [constructor|].
          simpl. intros [H1 H2]%k_and_true_inv. constructor; auto. }
        apply Forall_forall. intros t Hin rho Hs. by apply (proj1 (Forall_forall _ _) (H rho Hs)). }
      change (each_conjunct leaf (AndTerm (u :: u' :: ts))) with (each (each_conjunct leaf) (u :: u' :: ts)).
      apply every_keeps. intros t Hin. rewrite Forall_forall in IH, Hall. apply IH; [done|by apply Hall|].
      rewrite forallb_forall in Hp. apply Hp. by apply list_elem_of_In.
  - destruct ts as [|u [|u' ts]].
    + by apply Hleaf.
    + apply Forall_cons in IH as [IH _]. apply IH; [|done]. intros rho Hs. specialize (Ht rho Hs). simpl in Ht. by rewrite k_or_false in Ht.
    + by apply Hleaf.
  - by apply Hleaf.
  - by apply Hleaf.
Qed.

Lemma column_at_refs pos N L v c : column_at pos N L v c -> column_at pos N refs v c.
Proof. intros (n & tr & Hn & _ & Hr & H). pose proof Hr as (Hin & _). exists n, tr. done. Qed.

Lemma eq_term_keeps pos D N t c1 c2 l1 l2 : true_term t -> plain t = true -> getEqColumnRefs t = Ret (Some (c1, c2)) ->
  (forall v, v ∈ l1 -> column_at pos N refs v c1) -> (forall w, w ∈ l2 -> column_at pos N refs w c2) ->
  keeps pos D N (addEqEdges addr (cr_column c1) (cr_column c2) false l1 l2).
Proof.
  intros Ht Hp He H1 H2. apply (addEqEdges_keeps pos D N refs refs); [done|done|]. intros rho t1 t2 Hs _ _ Hin1 Hin2 Hr1 Hr2.
  destruct (getEqColumnRefs_spec t c1 c2 He Hp) as (l & r & -> & Hl & Hr). by apply (sat_equal rho l r c1 c2 t1 t2 Hs (Ht rho Hs)).
Qed.

Lemma whereEq_keeps pos D N L m t : entries_ok pos N L m -> true_term t -> plain t = true -> keeps pos D N (whereEqLeaf addr m t).
Proof.
  intros Hm Ht Hp h h' k Hi Hn Hr. unfold whereEqLeaf in Hr. apply bind_ret_inv in Hr as (c & Hc & Hr).
  destruct c as [[c1 c2]|]; [|by injection Hr as <- _].
  apply bind_ret_inv in Hr as (l1 & H1 & Hr). apply bind_ret_inv in Hr as (l2 & H2 & Hr).
  refine (eq_term_keeps pos D N t c1 c2 l1 l2 Ht Hp Hc _ _ h h' k Hi Hn Hr); intros v Hv; eapply column_at_refs, find_ok; eauto.
Qed.

Lemma onEq_keeps pos D N L R m gm t : entries_ok pos N L m -> entries_ok pos N R gm -> true_term t -> plain t = true ->
  keeps pos D N (onEqLeaf addr false m gm t).
Proof.
  intros Hm Hg Ht Hp h h' k Hi Hn Hr. unfold onEqLeaf in Hr. apply bind_ret_inv in Hr as (c & Hc & Hr).
  destruct c as [[c1 c2]|]; [|by injection Hr as <- _].
  apply bind_ret_inv in Hr as (a1 & A1 & Hr). apply bind_ret_inv in Hr as (b1 & B1 & Hr).
  apply bind_ret_inv in Hr as (a2 & A2 & Hr). apply bind_ret_inv in Hr as (b2 & B2 & Hr).
  destruct (_ || _); [done|]. destruct (_ || _); [by injection Hr as <- _|]. rewrite andb_false_r in Hr.
  destruct (nonempty a1), (nonempty a2); refine (eq_term_keeps pos D N t c1 c2 _ _ Ht Hp Hc _ _ h h' k Hi Hn Hr); intros v Hv; eapply column_at_refs;
    first [exact (find_ok _ _ _ _ _ _ Hm A1 v Hv)|exact (find_ok _ _ _ _ _ _ Hg B1 v Hv)|exact (find_ok _ _ _ _ _ _ Hm A2 v Hv)|exact (find_ok _ _ _ _ _ _ Hg B2 v Hv)].
Qed.

Lemma equated_keeps pos D N L R m gm c l1 l2 : entries_ok pos N L m -> entries_ok pos N R gm ->
  map_find m c = Ret l1 -> map_find gm c = Ret l2 -> (forall rho, sat rho -> equated rho L R (cr_column c)) ->
  keeps pos D N (addEqEdges addr (cr_column c) (cr_column c) false l1 l2).
Proof.
  intros Hm Hg H1 H2 Heq. apply (addEqEdges_keeps pos D N L R); [by eapply find_ok|by eapply find_ok|].
  intros rho t1 t2 Hs HL HR _ _ (i & Hi & Hc & _) (i' & Hi' & Hc' & _). apply (Heq rho Hs t1 t2 HL HR); eexists; eauto.
Qed.

Lemma natural_keeps pos D N L R m gm : entries_ok pos N L m -> entries_ok pos N R gm -> (forall rho, sat rho -> forall c, equated rho L R c) ->
  keeps pos D N (addNaturalEqEdges addr false m gm).
Proof.
  intros Hm Hg Heq h h' k Hi Hn Hr. unfold addNaturalEqEdges in Hr. apply bind_ret_inv in Hr as (cols & _ & Hr).
  refine (every_keeps pos D N _ cols _ h h' k Hi Hn Hr). intros c _ h1 h2 k1 Hi1 Hn1 Hr1.
  apply bind_ret_inv in Hr1 as (l1 & H1 & Hr1). apply bind_ret_inv in Hr1 as (l2 & H2 & Hr1).
  refine (equated_keeps pos D N L R m gm (mkColumnRef "" "" c) l1 l2 Hm Hg H1 H2 _ h1 h2 k1 Hi1 Hn1 Hr1). intros rho Hs. by apply Heq.
Qed.

Lemma using_keeps pos D N L R m gm c : entries_ok pos N L m -> entries_ok pos N R gm -> (forall rho, sat rho -> equated rho L R (cr_column c)) ->
  keeps pos D N (addUsingEqEdges addr c false m gm).
Proof.
  intros Hm Hg Heq h h' k Hi Hn Hr. unfold addUsingEqEdges in Hr. destruct (_ || _); [done|].
  apply bind_ret_inv in Hr as (l1 & H1 & Hr). apply bind_ret_inv in Hr as (l2 & H2 & Hr).
  exact (equated_keeps pos D N L R m gm c l1 l2 Hm Hg H1 H2 Heq h h' k Hi Hn Hr).
Qed.

(** ** Separations *)

Lemma spArgs_ok pos N L m : entries_ok pos N L m -> forall ps args, spArgs m ps = Ret (Some args) ->
  Forall2 (fun p c => getColumnRef p = Some c) ps args.*1 /\ Forall (fun cv => column_at pos N L cv.2 cv.1) args.
Proof.
  intros Hm. induction ps as [|p ps IH]; intros args Hr; simpl in Hr; [injection Hr as <-; split; constructor|].
  destruct (getColumnRef p) as [c|] eqn:Ec; [|done]. apply bind_ret_inv in Hr as (vv & Hv & Hr). destruct vv as [|v [|]]; try done.
  apply bind_ret_inv in Hr as (args' & Hr' & Hr). destruct args' as [args'|]; [|done]. injection Hr as <-.
  destruct (IH args' Hr') as [H1 H2]. split; constructor; try done. simpl. eapply find_ok; eauto. set_solver.
Qed.

Lemma sp_keeps pos D N L m t : entries_ok pos N L m -> true_term t -> plain t = true -> keeps pos D N (spLeaf addr m t).
Proof.
  intros Hm Ht Hp h h' k Hi Hn Hr. unfold spLeaf in Hr.
  destruct t as [| |fs b|]; try (by injection Hr as <- _). destruct fs as [|[| | |l op r| | | |] [|]]; try (by injection Hr as <- _).
  destruct (spOperands l op r) as [[ps|] a] eqn:Es; [|by injection Hr as <- _]. destruct (d_isnan a) eqn:Ea; [by injection Hr as <- _|].
  apply bind_ret_inv in Hr as (args & Hargs & Hr). destruct args as [args|]; [|by injection Hr as <- _].
  destruct (spArgs_ok pos N L m Hm ps args Hargs) as [Hcs Hvs]. unfold addSpEdge in Hr.
  destruct args as [|[c0 v0] [|[c1 v1] [|[c2 v2] [|[c3 v3] [|]]]]]; try (by injection Hr as <- _).
  destruct (_ || _) eqn:Ev in Hr; [by injection Hr as <- _|].
  apply orb_false_iff in Ev as [[<-%negb_false_iff%Nat.eqb_eq <-%negb_false_iff%Nat.eqb_eq]%orb_false_iff _].
  simpl in Hcs. destruct (spOperands_bounds l op r ps a b c0 c1 c2 c3 Es Ea Hp Hcs) as (-> & Hnn & Hb).
  apply Forall_cons in Hvs as [H0 Hvs]. apply Forall_cons in Hvs as [H1 Hvs]. apply Forall_cons in Hvs as [H2 Hvs]. apply Forall_cons in Hvs as [H3 _].
  destruct H0 as (n & tr & Hv0 & _ & Hr0 & Hc0 & Hn0 & Hp0), H1 as (n1 & tr1 & Hv1 & _ & Hr1 & Hc1 & Hn1 & _),
    H2 as (n' & tr' & Hv2 & _ & Hr2 & Hc2 & Hn2 & Hp2), H3 as (n3 & tr3 & Hv3 & _ & Hr3 & Hc3 & Hn3 & _). simpl in *. simplify_eq.
  assert (tr1 = tr) as -> by (destruct Hr0 as (? & ? & _), Hr1 as (? & ? & _); apply refs_distinct; congruence).
  assert (tr3 = tr') as -> by (destruct Hr2 as (? & ? & _), Hr3 as (? & ? & _); apply refs_distinct; congruence).
  pose proof Hv0 as Hx. pose proof Hv2 as Hy. apply nodes_lookup_inv in Hx as (x & Hx & ->). apply nodes_lookup_inv in Hy as (y & Hy & ->).
  unfold deref in Hr. rewrite Hx, Hy in Hr. simpl in *. destruct (v_info x) as [d1| |] eqn:Ex; try (by injection Hr as <- _).
  destruct (v_info y) as [d2| |] eqn:Ey; try (by injection Hr as <- _).
  destruct (_ || _) eqn:Ec in Hr; [by injection Hr as <- _|]. destruct (negb _) eqn:Epid in Hr; [by injection Hr as <- _|].
  apply negb_false_iff, Z.eqb_eq in Epid. rewrite !orb_false_iff, !bool_decide_eq_false in Ec. destruct Ec as [[[Ec0 Ec1] Ec2] Ec3].
  apply dec_stable in Ec0, Ec1, Ec2, Ec3. apply bind_ret_inv in Hr as (h1 & Hl & Hr). injection Hr as <- _.
  refine (link_inv pos D h h1 v0 v2 a _ _ Hi Hv0 Hv2 _ Hl). split; [done|]. split; [done|]. split; [done|].
  intros rho Hs. rewrite Ea, Hp0, Hp2. simpl. destruct Hr0 as (Hin & Et & Hmeta), Hr2 as (Hin' & Et' & Hmeta'). simpl in *. rewrite <-Et, <-Et', <-Ec0, <-Ec1, <-Ec2, <-Ec3.
  specialize (Ht rho Hs). simpl in Ht.
  apply (sat_separation rho (CompPredicate l op r) a c0 c1 c2 c3 tr tr' Hs Ht Hb Hin Hin'); eexists; eauto.
Qed.

(** ** [_fuse] *)

Lemma entries_fuse pos N L R m gm natural cols m' : entries_ok pos N L m -> entries_ok pos N R gm -> map_fuse m gm natural cols = Ret m' ->
  entries_ok pos N (L ++ R) m'.
Proof.
  intros Hm Hg Hr e v He Hv. destruct (map_fuse_from _ _ _ _ _ _ _ Hr He Hv) as [(e0 & H0 & <- & H2)|(e0 & H0 & <- & H2)].
  - destruct (Hm e0 v H0 H2) as (n & tr & H3 & H4 & H5). exists n, tr. split; [done|]. split; [set_solver|done].
  - destruct (Hg e0 v H0 H2) as (n & tr & H3 & H4 & H5). exists n, tr. split; [done|]. split; [set_solver|done].
Qed.

Lemma entries_mono pos N L L' m : entries_ok pos N L m -> (forall tr, tr ∈ L -> tr ∈ L') -> entries_ok pos N L' m.
Proof. intros Hm HL e v He Hv. destruct (Hm e v He Hv) as (n & tr & H3 & H4 & H5). exists n, tr. split; [done|]. split; [auto|done]. Qed.

Lemma joinEdges_inv pos D N L R j m gm h h' k cols : entries_ok pos N L m -> entries_ok pos N R gm ->
  (forall rho, sat rho -> join_true (pt rho) rho L R j) -> plain_spec (jr_spec j) = true ->
  inv pos D h -> nodes h = N -> joinEdges addr (jr_natural j) (jr_spec j) false m gm h = Ret (h', k, cols) -> inv pos D h' /\ nodes h' = N.
Proof.
  intros Hm Hg Hj Hp Hi Hn Hr. unfold joinEdges in Hr. destruct (jr_natural j) eqn:Enat.
  { apply bind_ret_inv in Hr as ([h1 k1] & Hr1 & Hr). injection Hr as <- <- _. refine (natural_keeps pos D N L R m gm Hm Hg _ h h1 k1 Hi Hn Hr1).
    intros rho Hs. by apply (Hj rho Hs). }
  destruct (jr_spec j) as [[[c|] [on|]]|] eqn:Espec; try (by injection Hr as <- _ _).
  1,2: apply bind_ret_inv in Hr as ([h1 k1] & Hr1 & Hr); injection Hr as <- <- _; refine (using_keeps pos D N L R m gm c Hm Hg _ h h1 k1 Hi Hn Hr1);
    intros rho Hs; destruct (Hj rho Hs) as [_ Hsp]; rewrite Espec in Hsp; by apply (proj1 Hsp).
  apply bind_ret_inv in Hr as ([h1 k1] & Hr1 & Hr). injection Hr as <- <- _.
  refine (conjunct_keeps pos D N (onEqLeaf addr false m gm) on _ _ Hp h h1 k1 Hi Hn Hr1).
  - intros u Hu Hpu. by apply (onEq_keeps pos D N L R).
  - intros rho Hs. destruct (Hj rho Hs) as [_ Hsp]. rewrite Espec in Hsp. by apply (proj2 Hsp).
Qed.

Lemma fuse_inv pos D N L R j this g h h' g' : entries_ok pos N L (g_map this) -> entries_ok pos N R (g_map g) ->
  (forall rho, sat rho -> join_true (pt rho) rho L R j) -> plain_spec (jr_spec j) = true -> inner_type (jr_type j) = true ->
  inv pos D h -> nodes h = N -> fuse addr (jr_type j) (jr_natural j) (jr_spec j) this g h = Ret (h', g') ->
  inv pos D h' /\ nodes h' = N /\ entries_ok pos N (L ++ R) (g_map g') /\ g_vertices g' = g_vertices this ++ g_vertices g.
Proof.
  intros Hm Hg Hj Hp Hty Hi Hn Hr. unfold fuse in Hr. apply bind_ret_inv in Hr as ([] & Hver & Hr).
  assert (Hout : isOuterJoin (jr_type j) = false) by (destruct (jr_type j); done).
  unfold g_empty in Hr. destruct (g_vertices this) as [|u us] eqn:Eu; [|destruct (g_vertices g) as [|w ws] eqn:Ew].
  - assert (E : h' = h /\ g_vertices g' = g_vertices g /\ (g' = this \/ g' = g)).
    { destruct (g_vertices g) eqn:Ew; [injection Hr as <- <-; auto|]. destruct (bool_decide _); [done|]. injection Hr as <- <-. auto. }
    destruct E as (-> & -> & Eg). split; [done|]. split; [done|]. split; [|done].
    destruct Eg as [->| ->]; [eapply entries_mono; [exact Hm|set_solver]|eapply entries_mono; [exact Hg|set_solver]].
  - destruct (bool_decide _); [done|]. injection Hr as <- <-. split; [done|]. split; [done|]. rewrite Eu, app_nil_r. split; [|done].
    eapply entries_mono; [exact Hm|set_solver].
  - rewrite Hout in Hr. apply bind_ret_inv in Hr as ([[h1 k1] cols] & Hr1 & Hr). cbn [andb] in Hr.
    apply bind_ret_inv in Hr as (m' & Hm' & Hr). apply bind_ret_inv in Hr as (h2 & Hr2 & Hr). injection Hr as <- <-.
    destruct (joinEdges_inv pos D N L R j _ _ _ _ _ _ Hm Hg Hj Hp Hi Hn Hr1) as [Hi1 Hn1].
    pose proof (entries_fuse _ _ _ _ _ _ _ _ _ Hm Hg Hm') as He. cbn [g_map g_vertices].
    assert (H2 : inv pos D h2 /\ nodes h2 = N); [|destruct H2; by rewrite ?Eu, ?Ew].
    destruct (jr_spec j) as [[us' [on|]]|] eqn:Espec; try (by injection Hr2 as <-).
    apply bind_ret_inv in Hr2 as ([h3 k3] & Hr3 & Hr2). injection Hr2 as <-.
    refine (conjunct_keeps pos D N (spLeaf addr m') on _ _ Hp h1 h3 k3 Hi1 Hn1 Hr3).
    + intros t Ht Hpt. by apply (sp_keeps pos D N (L ++ R)).
    + intros rho Hs. destruct (Hj rho Hs) as [_ Hsp]. rewrite Espec in Hsp. by apply (proj2 Hsp).
Qed.

(** ** New vertices *)

Lemma nodes_size h : size (nodes h) = size h.
Proof. apply map_size_fmap. Qed.

Definition agree pos pos' (k : nat) : Prop := forall rho v, (v < k)%nat -> pos' rho v = pos rho v.

Lemma agree_lookup pos pos' D N v : nodes_ok pos D N -> agree pos pos' (size N) -> is_Some (N !! v) -> forall rho, pos' rho v = pos rho v.
Proof. intros Hn Ha Hv rho. apply Ha. by apply (n_dom _ _ _ Hn). Qed.

Lemma placed_agree pos pos' v n : (forall rho, pos' rho v = pos rho v) -> placed pos v n -> placed pos' v n.
Proof.
  intros Ha. unfold placed. destruct n.2; [intros Hp rho; by rewrite Ha|intros Hp rho; by rewrite Ha|].
  intros [Hp|Hp]; [left|right]; intros rho; by rewrite Ha.
Qed.

Lemma edge_ok_agree pos pos' v n a w n' : (forall rho, pos' rho v = pos rho v) -> (forall rho, pos' rho w = pos rho w) ->
  edge_ok pos v n a w n' -> edge_ok pos' v n a w n'.
Proof. intros Hv Hw (H1 & H2 & H3 & H4). do 3 (split; [done|]). intros rho. rewrite Hv, Hw. exact (H4 rho). Qed.

Lemma column_agree pos pos' D N N' L v c : nodes_ok pos D N -> agree pos pos' (size N) -> N ⊆ N' -> column_at pos N L v c -> column_at pos' N' L v c.
Proof.
  intros Hn Ha Hs (n & tr & H1 & H2 & H3 & H4 & H5 & H6). exists n, tr. split; [by eapply lookup_weaken|]. do 4 (split; [done|]).
  intros rho. by rewrite (agree_lookup _ _ _ _ _ Hn Ha ltac:(eauto)).
Qed.

Lemma entries_agree pos pos' D N N' L m : nodes_ok pos D N -> agree pos pos' (size N) -> N ⊆ N' -> entries_ok pos N L m -> entries_ok pos' N' L m.
Proof. intros Hn Ha Hs Hm e v He Hv. eapply column_agree; eauto. Qed.

(** The positions with one for the vertex [v] *)
Definition put pos v (tr : TableRef) (i : TableInfo) (c : string) : Env -> nat -> Pos :=
  fun rho u => if (u =? v)%nat then position i c (rho (tr_addr tr)) else pos rho u.

Lemma put_agree pos v tr i c : agree pos (put pos v tr i c) v.
Proof. intros rho u Hu. unfold put. destruct (Nat.eqb_spec u v); [lia|done]. Qed.

Lemma new_nodes tr i h h' v : new_vertex tr i h = (h', v) -> v = size h /\ nodes h' = <[v := (tr_addr tr, i)]> (nodes h) /\
  h' = <[v := mkVertex (tr_addr tr) i None d_infinity []]> h.
Proof. unfold new_vertex. intros [= <- <-]. split; [done|]. split; [|done]. unfold nodes. by rewrite fmap_insert. Qed.

Definition column_of (i : TableInfo) (c : string) : Prop :=
  match i with MATCH _ _ _ _ fk1 fk2 _ => c = fk1 \/ c = fk2 | _ => True end.

Lemma new_vertex_inv pos D tr i c h h' v : inv pos D h -> tr ∈ refs -> meta_of tr = Some i -> column_of i c ->
  (forall w n, nodes h !! w = Some n -> n.1 = tr_addr tr -> is_match n.2 = true /\ is_match i = true) ->
  new_vertex tr i h = (h', v) ->
  inv (put pos v tr i c) (tr_addr tr :: D) h' /\ nodes h ⊆ nodes h' /\ v = size h /\ size h' = Datatypes.S (size h).
Proof.
  intros [Hf Hn He] Hin Hm Hc Hd Hr. destruct (new_nodes _ _ _ _ _ Hr) as (Ev & En & Eh).
  assert (Hnone : nodes h !! v = None).
  { destruct (nodes h !! v) eqn:E; [|done]. assert (Hs : is_Some (nodes h !! v)) by eauto. apply (n_dom _ _ _ Hn) in Hs. rewrite nodes_size in Hs. lia. }
  assert (Hnone' : h !! v = None). { unfold nodes in Hnone. rewrite lookup_fmap in Hnone. by destruct (h !! v). }
  assert (Hpos : agree pos (put pos v tr i c) (size (nodes h))) by (rewrite nodes_size, <-Ev; apply put_agree).
  split; [|split; [rewrite En; by apply insert_subseteq|split; [done|rewrite Eh; by apply map_size_insert_None]]].
  split.
  - destruct Hf as [Hu Hf]. rewrite Eh. split; [by rewrite unlinked_insert, Hu|]. intros u x. destruct (decide (u = v)) as [->|].
    + rewrite lookup_insert_eq. by intros [= <-].
    + rewrite lookup_insert_ne by done. apply Hf.
  - rewrite En. split.
    + intros u. rewrite map_size_insert_None by done. rewrite nodes_size, <-Ev. destruct (decide (u = v)) as [->|].
      * rewrite lookup_insert_eq. split; [lia|eauto].
      * rewrite lookup_insert_ne by done. rewrite (n_dom _ _ _ Hn), nodes_size, <-Ev. lia.
    + intros u n. destruct (decide (u = v)) as [->|].
      * rewrite lookup_insert_eq. intros [= <-]. simpl. split; [set_solver|]. split; [by exists tr|]. unfold placed, put. simpl. rewrite Nat.eqb_refl.
        destruct i; [done|done|]. destruct Hc as [->| ->]; auto.
      * rewrite lookup_insert_ne by done. intros Hu. destruct (n_ref _ _ _ Hn u n Hu) as (H1 & H2 & H3). split; [set_solver|]. split; [done|].
        eapply placed_agree; [|exact H3]. eapply agree_lookup; eauto.
    + intros u w n n'. destruct (decide (u = v)) as [->|], (decide (w = v)) as [->|]; rewrite ?lookup_insert_eq, ?lookup_insert_ne by done.
      * done.
      * intros [= <-] Hw E _. by apply (Hd w n' Hw).
      * intros Hu [= <-] E _. by apply (Hd u n Hu).
      * by apply (n_distinct _ _ _ Hn).
  - intros u x e. rewrite Eh at 1. destruct (decide (u = v)) as [->|].
    + rewrite lookup_insert_eq. intros [= <-] Hin'. by apply elem_of_nil in Hin'.
    + rewrite lookup_insert_ne by done. intros Hx Hin'. destruct (He u x e Hx Hin') as (n' & Hn' & Hok). exists n'. rewrite En.
      split; [rewrite lookup_insert_ne; [done|congruence]|].
      eapply edge_ok_agree; [| |exact Hok]; eapply agree_lookup; eauto. exists (v_tr x, v_info x). by apply nodes_lookup.
Qed.

(** ** A table *)

(** From [h] to [h'] the graph [g] of the references [L] was made. *)
Record made pos D (h : Heap) L pos' (h' : Heap) (g : RelationGraph) : Prop := {
  m_agree : agree pos pos' (size h);
  m_inv : inv pos' (map tr_addr L ++ D) h';
  m_nodes : nodes h ⊆ nodes h';
  m_entries : entries_ok pos' (nodes h') L (g_map g);
  m_vertices v : v ∈ g_vertices g <-> (size h <= v < size h')%nat;
  m_nodup : NoDup (g_vertices g);
  m_all tr i : tr ∈ L -> meta_of tr = Some i -> exists v, nodes h' !! v = Some (tr_addr tr, i);
}.

Lemma makeColumnRefs_spec i al c : c ∈ makeColumnRefs i al ->
  cr_column c ∈ join_columns i /\ c ∈ appendColumnRefs (cr_column c) (ti_database i) (ti_table i) al.
Proof.
  unfold makeColumnRefs. rewrite list_elem_of_In, in_flat_map. setoid_rewrite <-list_elem_of_In. intros (col & Hcol & Hc).
  assert (cr_column c = col) as <-; [|done].
  unfold appendColumnRefs in Hc. repeat case_bool_decide; rewrite ?elem_of_cons, ?elem_of_nil in Hc; naive_solver.
Qed.

Lemma map_init_ok pos N v tr i rs : N !! v = Some (tr_addr tr, i) -> is_ref tr (tr_addr tr, i) ->
  (forall c, c ∈ rs -> c ∈ makeColumnRefs i (tr_alias tr) /\ forall rho, pos rho v = position i (cr_column c) (rho (tr_addr tr))) ->
  entries_ok pos N [tr] (map_init v rs).
Proof.
  intros Hv Hr Hrs e w He Hw. unfold map_init in He. rewrite std_sort_Permutation, list_elem_of_fmap in He. destruct He as (c & -> & Hc).
  simpl in *. apply list_elem_of_singleton in Hw as ->. destruct (Hrs c Hc) as [Hmk Hpos]. destruct (makeColumnRefs_spec _ _ _ Hmk) as [H1 H2].
  exists (tr_addr tr, i), tr. split; [done|]. split; [set_solver|]. by split_and!.
Qed.

Lemma split_while_in {A} (f : A -> bool) l x : x ∈ (split_while f l).1 \/ x ∈ (split_while f l).2 -> x ∈ l.
Proof.
  induction l as [|y l IH]; simpl; [set_solver|]. destruct (f y); [|set_solver]. destruct (split_while f l). simpl in *. set_solver.
Qed.

(** The columns of the two vertices of a match table *)
Definition front_column (i : TableInfo) (rs : list ColumnRef) : string := match rs with c :: _ => cr_column c | [] => hd ""%string (join_columns i) end.
Definition back_column (i : TableInfo) (c : string) : string := match i with MATCH _ _ _ _ fk1 fk2 _ => if bool_decide (c = fk1) then fk2 else fk1 | _ => c end.

Lemma match_edge pos D h tr db t d1 d2 fk1 fk2 a v w c : inv pos D h -> tr ∈ refs -> let i := MATCH db t d1 d2 fk1 fk2 a in meta_of tr = Some i ->
  (c = fk1 \/ c = fk2) -> (forall rho, pos rho v = position i c (rho (tr_addr tr))) -> (forall rho, pos rho w = position i (back_column i c) (rho (tr_addr tr))) ->
  edge_ok pos v (tr_addr tr, i) a w (tr_addr tr, i).
Proof.
  intros Hi Hin i Hm Hc Hv Hw. pose proof (meta_match _ _ _ _ _ _ _ _ _ Hm) as (Hne & _ & _ & _ & Ha). split; [done|]. split; [done|]. split; [done|].
  intros rho Hs. assert (d_isnan a = false) as -> by (by destruct a). rewrite Hv, Hw.
  pose proof (row_match _ _ _ _ _ _ _ _ _ _ Hm (sat_rows rho tr Hs Hin)) as Hnear. simpl.
  destruct Hc as [->| ->]; repeat (case_bool_decide; try done). by apply near_sym.
Qed.

Lemma graph_of_match pos D tr db t d1 d2 fk1 fk2 a h h' g : inv pos D h -> tr ∈ refs -> meta_of tr = Some (MATCH db t d1 d2 fk1 fk2 a) -> tr_addr tr ∉ D ->
  graph_of_table addr tr (Some (MATCH db t d1 d2 fk1 fk2 a)) h = Ret (h', g) -> exists pos', made pos D h [tr] pos' h' g.
Proof.
  intros Hi Hin Hm HD Hr. unfold graph_of_table in Hr. set (i := MATCH db t d1 d2 fk1 fk2 a) in *.
  destruct (new_vertex tr i h) as [h1 front] eqn:E1. destruct (new_vertex tr i h1) as [h2 back] eqn:E2.
  apply bind_ret_inv in Hr as (h3 & Hl & Hr). set (rs := std_sort ColumnRefLt (makeColumnRefs i (tr_alias tr))) in *.
  set (cf := front_column i rs). set (cb := back_column i cf).
  assert (Hcols : forall c, c ∈ rs -> cr_column c = fk1 \/ cr_column c = fk2).
  { intros c Hc. unfold rs in Hc. rewrite std_sort_Permutation in Hc. apply makeColumnRefs_spec in Hc as [Hc _]. simpl in Hc. set_solver. }
  assert (Hcf : cf = fk1 \/ cf = fk2). { unfold cf, front_column. destruct rs as [|c rs'] eqn:Ers; [by left|]. apply Hcols. set_solver. }
  assert (Hcb : cb = fk1 \/ cb = fk2) by (unfold cb, back_column; simpl; case_bool_decide; auto).
  destruct (new_vertex_inv pos D tr i cf h h1 front Hi Hin Hm Hcf) as (Hi1 & Hs1 & Ef & Z1); [|done|].
  { intros w n Hw E. exfalso. apply HD. rewrite <-E. by apply (n_ref _ _ _ (i_nodes _ _ _ Hi) w n Hw). }
  destruct (new_nodes _ _ _ _ _ E1) as (_ & En1 & _). destruct (new_nodes _ _ _ _ _ E2) as (_ & En2 & _).
  set (pos1 := put pos front tr i cf) in *.
  destruct (new_vertex_inv pos1 (tr_addr tr :: D) tr i cb h1 h2 back Hi1 Hin Hm Hcb) as (Hi2 & Hs2 & Eb & Z2); [|done|].
  { intros w n Hw E. rewrite En1 in Hw. destruct (decide (w = front)) as [->|]; [rewrite lookup_insert_eq in Hw; by injection Hw as <-|].
    rewrite lookup_insert_ne in Hw by done. exfalso. apply HD. rewrite <-E. by apply (n_ref _ _ _ (i_nodes _ _ _ Hi) w n Hw). }
  set (pos2 := put pos1 back tr i cb) in *.
  assert (Hne : front <> back) by lia.
  assert (Nb : nodes h2 !! back = Some (tr_addr tr, i)) by (by rewrite En2, lookup_insert_eq).
  assert (Nf : nodes h2 !! front = Some (tr_addr tr, i)) by (by rewrite En2, lookup_insert_ne, En1, lookup_insert_eq).
  assert (Pf : forall rho, pos2 rho front = position i cf (rho (tr_addr tr))).
  { intros rho. unfold pos2, pos1, put. rewrite (proj2 (Nat.eqb_neq front back)), Nat.eqb_refl by lia. done. }
  assert (Pb : forall rho, pos2 rho back = position i cb (rho (tr_addr tr))) by (intros rho; unfold pos2, put; by rewrite Nat.eqb_refl).
  destruct (link_inv pos2 _ h2 h3 front back a _ _ Hi2 Nf Nb) as [Hi3 E3].
  { by apply (match_edge pos2 _ h2 tr db t d1 d2 fk1 fk2 a front back cf Hi2). }
  { exact Hl. }
  assert (Z3 : size h3 = size h2) by (by rewrite <-!nodes_size, E3).
  destruct (split_while _ rs) as [rs1 rs2] eqn:Esp. apply bind_ret_inv in Hr as (m & Hm' & Hr). injection Hr as <- <-.
  assert (Hsub : forall c, c ∈ rs1 \/ c ∈ rs2 -> c ∈ makeColumnRefs i (tr_alias tr)).
  { intros c Hc. rewrite <-(std_sort_Permutation ColumnRefLt). fold rs. eapply (split_while_in _ rs c). rewrite Esp. exact Hc. }
  assert (Hsplit : (forall c, c ∈ rs1 -> cr_column c = cf) /\ (forall c, c ∈ rs2 -> cr_column c = cb)).
  { destruct rs as [|c0 rs'] eqn:Ers. { simpl in Esp. injection Esp as <- <-. set_solver. }
    destruct (refs_split c0 (makeColumnRefs i (tr_alias tr))) as [S1 S2]; [by fold rs; rewrite Ers|]. fold rs in S1, S2. rewrite Ers, Esp in S1, S2.
    split; [exact S1|]. intros c Hc. specialize (S2 c Hc). assert (Hcc : cr_column c = fk1 \/ cr_column c = fk2).
    { apply Hcols. rewrite <-Ers. unfold rs. rewrite std_sort_Permutation. apply Hsub. by right. }
    change (cr_column c0) with cf in S2. unfold cb, back_column. simpl. case_bool_decide; destruct Hcc, Hcf; congruence. }
  exists pos2. split.
  - intros rho v Hv. unfold pos2, pos1, put. rewrite (proj2 (Nat.eqb_neq v back)), (proj2 (Nat.eqb_neq v front)) by lia. done.
  - simpl. destruct Hi3 as [Hf3 Hn3 He3]. split; [done| |done]. destruct Hn3 as [Q1 Q2 Q3]. split; [done| |done].
    intros v n Hv. destruct (Q2 v n Hv) as (H1 & H2). split; [set_solver|done].
  - rewrite E3. by transitivity (nodes h1).
  - rewrite E3. change [tr] with ([tr] ++ []). 
    assert (He : entries_ok pos2 (nodes h2) ([tr] ++ [tr]) m).
    { eapply entries_fuse; [| |exact Hm'].
      - apply (map_init_ok pos2 _ front tr i); [done|by split_and!|]. intros c Hc. split; [apply Hsub; by left|]. intros rho. by rewrite Pf, (proj1 Hsplit c Hc).
      - apply (map_init_ok pos2 _ back tr i); [done|by split_and!|]. intros c Hc. split; [apply Hsub; by right|]. intros rho. by rewrite Pb, (proj2 Hsplit c Hc). }
    eapply entries_mono; [exact He|set_solver].
  - intros v. simpl. rewrite !elem_of_cons, elem_of_nil. lia.
  - simpl. apply NoDup_cons. split; [set_solver|apply NoDup_singleton].
  - intros tr' i' Htr' Hm2. apply list_elem_of_singleton in Htr' as ->. exists front. rewrite E3, Nf. congruence.
Qed.

Lemma inv_incl pos D D' h : inv pos D h -> (forall x, x ∈ D -> x ∈ D') -> inv pos D' h.
Proof. intros [Hf [Q1 Q2 Q3] He] HD. split; [done| |done]. split; [done| |done]. intros v n Hv. destruct (Q2 v n Hv). auto. Qed.

Lemma graph_of_table_made pos D tr h h' g : inv pos D h -> tr ∈ refs -> tr_addr tr ∉ D ->
  graph_of_table addr tr (meta_of tr) h = Ret (h', g) -> exists pos', made pos D h [tr] pos' h' g.
Proof.
  intros Hi Hin HD Hr. destruct (meta_of tr) as [i|] eqn:Hm.
  2: { injection Hr as <- <-. exists pos. split; simpl; [done|eapply inv_incl; [done|set_solver]|done|intros ? ? ?%elem_of_nil; done| | |].
       - intros v. rewrite elem_of_nil. lia.
       - constructor.
       - intros tr' i' Htr' Hm'. apply list_elem_of_singleton in Htr' as ->. congruence. }
  destruct (is_match i) eqn:Ei; [destruct i; try done; by eapply graph_of_match|].
  assert (Hsimple : exists h1 v, new_vertex tr i h = (h1, v) /\ h' = h1 /\ g = mkGraph [v] (map_init v (makeColumnRefs i (tr_alias tr)))).
  { destruct i; try done; unfold graph_of_table in Hr; destruct (new_vertex tr _ h) as [h1 v] eqn:E1; injection Hr as <- <-; eauto. }
  destruct Hsimple as (h1 & v & E1 & -> & ->).
  destruct (new_vertex_inv pos D tr i "" h h1 v Hi Hin Hm) as (Hi1 & Hs1 & Ev & Z1); [by destruct i| |done|].
  { intros w n Hw E. exfalso. apply HD. rewrite <-E. by apply (n_ref _ _ _ (i_nodes _ _ _ Hi) w n Hw). }
  destruct (new_nodes _ _ _ _ _ E1) as (_ & En1 & _). exists (put pos v tr i ""). split; simpl; [subst v; apply put_agree|done|done| | | |].
  - apply (map_init_ok _ _ v tr i); [by rewrite En1, lookup_insert_eq|done|]. intros c Hc. split; [done|]. intros rho. unfold put. rewrite Nat.eqb_refl. by destruct i.
  - intros w. rewrite elem_of_cons, elem_of_nil. lia.
  - apply NoDup_singleton.
  - intros tr' i' Htr' Hm'. apply list_elem_of_singleton in Htr' as ->. exists v. rewrite En1, lookup_insert_eq. congruence.
Qed.

(** ** Table references with joins *)

Lemma fuse_made pos D h L pos1 h1 this R pos2 h2 g j h3 g3 :
  made pos D h L pos1 h1 this -> made pos1 (map tr_addr L ++ D) h1 R pos2 h2 g ->
  (forall rho, sat rho -> join_true (pt rho) rho L R j) -> plain_spec (jr_spec j) = true -> inner_type (jr_type j) = true ->
  fuse addr (jr_type j) (jr_natural j) (jr_spec j) this g h2 = Ret (h3, g3) -> made pos D h (L ++ R) pos2 h3 g3.
Proof.
  intros [A1 I1 N1 E1 V1 U1 F1] [A2 I2 N2 E2 V2 U2 F2] Hj Hp Hty Hr.
  assert (Hle1 : (size h <= size h1)%nat) by (rewrite <-(nodes_size h), <-(nodes_size h1); by apply map_subseteq_size).
  assert (Hle2 : (size h1 <= size h2)%nat) by (rewrite <-(nodes_size h1), <-(nodes_size h2); by apply map_subseteq_size).
  assert (E1' : entries_ok pos2 (nodes h2) L (g_map this)).
  { eapply entries_agree; [exact (i_nodes _ _ _ I1)| |exact N2|exact E1]. by rewrite nodes_size. }
  destruct (fuse_inv pos2 _ (nodes h2) L R j this g h2 h3 g3 E1' E2 Hj Hp Hty I2 eq_refl Hr) as (I3 & N3 & E3 & V3).
  assert (Z3 : size h3 = size h2) by (by rewrite <-!nodes_size, N3).
  split.
  - intros rho v Hv. rewrite A2 by lia. by apply A1.
  - eapply inv_incl; [exact I3|]. rewrite map_app. set_solver.
  - rewrite N3. by transitivity (nodes h1).
  - by rewrite N3.
  - intros v. rewrite V3, elem_of_app, V1, V2. lia.
  - rewrite V3. apply NoDup_app. split; [done|]. split; [|done]. intros v. rewrite V1, V2. lia.
  - intros tr i Htr Hm. rewrite N3. apply elem_of_app in Htr as [Htr|Htr]; [|by apply (F2 tr i Htr Hm)].
    destruct (F1 tr i Htr Hm) as [v Hv]. exists v. by eapply lookup_weaken.
Qed.

Context {Pool : Type} (get : string -> string -> Pool -> Pool * outcome (option TableInfo)).
Context (get_meta : forall db t p p' i, get db t p = (p', Ret i) -> i = meta db t).

Definition ref_made (tr : TableRef) : Prop :=
  forall b b' g pos D, inv pos D (b_heap b) -> (forall x, x ∈ all_refs tr -> x ∈ refs /\ tr_addr x ∉ D) -> NoDup (map tr_addr (all_refs tr)) ->
    inner_ref tr = true -> plain_ref tr = true -> (forall rho, sat rho -> ref_true (pt rho) rho tr) ->
    graph_of_ref addr get tr b = Ret (b', g) -> exists pos', made pos D (b_heap b) (all_refs tr) pos' (b_heap b') g.

(** The loop over the joins of a reference *)
Definition join_refs (js : list JoinRef) : list TableRef := flat_map (fun j => all_refs (jr_right j)) js.
Definition go_joins : list JoinRef -> Builder (Pool := Pool) -> RelationGraph -> outcome (Builder (Pool := Pool) * RelationGraph) :=
  fix go js b g :=
    match js with
    | [] => Ret (b, g)
    | j :: js' =>
        let? (b, tmp) := graph_of_ref addr get (jr_right j) b in
        let? (h, g) := fuse addr (jr_type j) (jr_natural j) (jr_spec j) g tmp (b_heap b) in
        go js' (mkBuilder (b_pool b) h) g
    end.

Lemma joins_made js : Forall (fun j => ref_made (jr_right j)) js -> forall pos D h L pos1 b g b' g',
  made pos D h L pos1 (b_heap b) g -> (forall x, x ∈ join_refs js -> x ∈ refs /\ tr_addr x ∉ map tr_addr L ++ D) -> NoDup (map tr_addr (join_refs js)) ->
  forallb (fun j => inner_type (jr_type j) && inner_ref (jr_right j)) js = true ->
  forallb (fun j => plain_spec (jr_spec j) && plain_ref (jr_right j)) js = true ->
  (forall rho, sat rho -> joins_true (pt rho) rho (ref_true (pt rho) rho) L js) ->
  go_joins js b g = Ret (b', g') -> exists pos', made pos D h (L ++ join_refs js) pos' (b_heap b') g'.
Proof.
  induction 1 as [|j js Hj _ IH]; intros pos D h L pos1 b g b' g' Hmade Href Hnd Hin Hp Htrue Hr.
  { injection Hr as <- <-. exists pos1. by rewrite app_nil_r. }
  cbn [join_refs flat_map] in *. fold (join_refs js) in *. simpl in Hin, Hp. apply andb_true_iff in Hin as [[Hty Hin1]%andb_true_iff Hin], Hp as [[Hsp Hp1]%andb_true_iff Hp].
  rewrite map_app in Hnd. apply NoDup_app in Hnd as (Hnd1 & Hdis & Hnd2).
  simpl in Hr. apply bind_ret_inv in Hr as ([b1 tmp] & Hr1 & Hr). apply bind_ret_inv in Hr as ([h2 g2] & Hr2 & Hr).
  destruct (Hj b b1 tmp pos1 (map tr_addr L ++ D) (m_inv _ _ _ _ _ _ _ Hmade)) as [pos2 Hmade2]; [|done|done|done| |done|].
  { intros x Hx. apply Href. set_solver. }
  { intros rho Hs. by apply (Htrue rho Hs). }
  assert (Hmade3 : made pos D h (L ++ all_refs (jr_right j)) pos2 (b_heap (mkBuilder (b_pool b1) h2)) g2).
  { eapply fuse_made; [exact Hmade|exact Hmade2| |done|done|exact Hr2]. intros rho Hs. by apply (Htrue rho Hs). }
  rewrite app_assoc. eapply (IH _ _ _ _ _ _ _ _ _ Hmade3); [|done|done|done| |exact Hr].
  - intros x Hx. destruct (Href x ltac:(set_solver)) as [H1 H2]. split; [done|]. rewrite map_app, !elem_of_app. rewrite !elem_of_app in H2.
    assert (tr_addr x ∉ map tr_addr (all_refs (jr_right j))). { intros Hc. apply (Hdis _ Hc). by apply list_elem_of_fmap_2. } tauto.
  - intros rho Hs. by apply (Htrue rho Hs).
Qed.

Lemma graph_of_ref_made tr : ref_made tr.
Proof.
  induction tr as [a db t al js IH] using TableRef_rect'. intros b b' g pos D Hi Href Hnd Hin Hp Htrue Hr.
  set (tr := mkTableRef a db t al js) in *.
  change (graph_of_ref addr get tr b) with (let? (b, info) := get_info get tr b in let? (h, g) := graph_of_table addr tr info (b_heap b) in go_joins js (mkBuilder (b_pool b) h) g) in Hr.
  apply bind_ret_inv in Hr as ([b1 info] & Hr1 & Hr). apply bind_ret_inv in Hr as ([h1 g1] & Hr2 & Hr).
  unfold get_info in Hr1. destruct (get _ _ _) as [p r] eqn:Eg. apply bind_ret_inv in Hr1 as (info' & -> & Hr1). injection Hr1 as <- <-. simpl in *.
  apply get_meta in Eg. subst info'. change (all_refs tr) with (tr :: join_refs js) in *.
  destruct (Href tr ltac:(set_solver)) as [Htr HD]. simpl in Hnd. apply NoDup_cons in Hnd as [Hx Hnd].
  destruct (graph_of_table_made pos D tr (b_heap b) h1 g1 Hi Htr HD Hr2) as [pos1 Hmade].
  change (tr :: join_refs js) with ([tr] ++ join_refs js).
  refine (joins_made js IH pos D (b_heap b) [tr] pos1 (mkBuilder p h1) g1 b' g Hmade _ Hnd Hin Hp Htrue Hr).
  intros x Hxin. destruct (Href x ltac:(set_solver)) as [H1 H2]. split; [done|]. simpl. apply not_elem_of_cons. split; [|done].
  intros E. apply Hx. rewrite <-E. by apply list_elem_of_fmap_2.
Qed.

(** ** Queries *)

Lemma graph_of_refs_made trs b b' g : refs = flat_map all_refs trs -> NoDup (map tr_addr refs) -> b_heap b = ∅ ->
  forallb (fun tr => inner_ref tr && plain_ref tr) trs = true -> (forall rho, sat rho -> Forall (ref_true (pt rho) rho) trs) ->
  graph_of_refs addr get trs b = Ret (b', g) -> exists pos, made (fun _ _ => point value0 value0) [] ∅ refs pos (b_heap b') g.
Proof.
  intros Hrefs Hnd Hb Hok Htrue Hr. set (pos0 := fun (_ : Env) (_ : nat) => point value0 value0).
  assert (Hinv : inv pos0 [] ∅). { split; [split; [apply fmap_empty|done]|split; [|done|done]|done]. intros v. by split; [intros [? ?]|intros ?%Nat.nlt_0_r]. }
  assert (Hgen : forall trs1 L pos1 b1 g1 b2 g2, made pos0 [] ∅ L pos1 (b_heap b1) g1 -> refs = L ++ flat_map all_refs trs1 ->
    forallb (fun tr => inner_ref tr && plain_ref tr) trs1 = true -> (forall rho, sat rho -> Forall (ref_true (pt rho) rho) trs1) ->
    foldM (fun '(b, g) tr => let? (b, tmp) := graph_of_ref addr get tr b in
                             let? (h, g) := fuse addr CROSS false None g tmp (b_heap b) in Ret (mkBuilder (b_pool b) h, g)) (b1, g1) trs1 = Ret (b2, g2) ->
    exists pos, made pos0 [] ∅ refs pos (b_heap b2) g2).
  { induction trs1 as [|tr trs1 IH]; intros L pos1 b1 g1 b2 g2 Hmade Erefs Hok1 Ht1 Hr1; simpl in Hr1.
    { injection Hr1 as <- <-. exists pos1. by rewrite Erefs, app_nil_r. }
    apply bind_ret_inv in Hr1 as ([b3 g3] & Hr3 & Hr1). apply bind_ret_inv in Hr3 as ([b4 tmp] & Hr4 & Hr3). apply bind_ret_inv in Hr3 as ([h5 g5] & Hr5 & Hr3).
    injection Hr3 as <- <-. simpl in Hok1, Erefs. apply andb_true_iff in Hok1 as [[Hin Hp]%andb_true_iff Hok1].
    rewrite Erefs, !map_app in Hnd. apply NoDup_app in Hnd as (_ & Hdis & Hnd1). apply NoDup_app in Hnd1 as (Hnd1 & _ & _).
    destruct (graph_of_ref_made tr b1 b4 tmp pos1 (map tr_addr L ++ []) (m_inv _ _ _ _ _ _ _ Hmade)) as [pos2 Hmade2]; [|done|done|done| |done|].
    - intros x Hx. split; [rewrite Erefs; set_solver|]. rewrite app_nil_r. intros Hc. apply (Hdis _ Hc). apply elem_of_app. left. by apply list_elem_of_fmap_2.
    - intros rho Hs. specialize (Ht1 rho Hs). by apply Forall_cons in Ht1 as [? _].
    - eapply (IH (L ++ all_refs tr) pos2 (mkBuilder (b_pool b4) h5)); [|by rewrite <-app_assoc|done| |exact Hr1].
      + apply (fuse_made pos0 [] ∅ L pos1 (b_heap b1) g1 _ pos2 (b_heap b4) tmp (mkJoinRef tr CROSS false None) h5 g5 Hmade Hmade2); try done.
      + intros rho Hs. specialize (Ht1 rho Hs). by apply Forall_cons in Ht1 as [_ ?]. }
  destruct trs as [|tr trs]; [done|]. unfold graph_of_refs in Hr. apply bind_ret_inv in Hr as ([b1 g1] & Hr1 & Hr).
  simpl in Hok, Hrefs. apply andb_true_iff in Hok as [[Hin Hp]%andb_true_iff Hok]. rewrite Hrefs, map_app in Hnd. pose proof Hnd as Hnd'. apply NoDup_app in Hnd' as (Hnd1 & _ & _).
  destruct (graph_of_ref_made tr b b1 g1 pos0 []) as [pos1 Hmade]; [by rewrite Hb| |done|done|done| |done|].
  - intros x Hx. split; [rewrite Hrefs; set_solver|apply not_elem_of_nil].
  - intros rho Hs. specialize (Htrue rho Hs). by apply Forall_cons in Htrue as [? _].
  - rewrite Hb in Hmade. eapply (Hgen trs (all_refs tr) pos1 b1 g1); [done|done|done| |exact Hr].
    intros rho Hs. specialize (Htrue rho Hs). by apply Forall_cons in Htrue as [_ ?].
Qed.

(** What is known of the graph of a query *)
Record graph_ok pos (h : Heap) (g : RelationGraph) : Prop := {
  gr_inv : inv pos (map tr_addr refs) h;
  gr_vertices v : v ∈ g_vertices g <-> is_Some (h !! v);
  gr_nodup : NoDup (g_vertices g);
  gr_all tr i : tr ∈ refs -> meta_of tr = Some i -> exists v, nodes h !! v = Some (tr_addr tr, i);
}.

Lemma graph_of_stmt_ok stmt b b' g : refs = refs_of stmt -> covered stmt = true -> b_heap b = ∅ -> (forall rho, sat rho -> stmt_true (pt rho) rho stmt) ->
  graph_of_stmt addr get stmt b = Ret (b', g) -> exists pos, graph_ok pos (b_heap b') g.
Proof.
  intros Hrefs Hcov Hb Htrue Hr. unfold covered in Hcov. apply andb_true_iff in Hcov as [[Hok Hw]%andb_true_iff Hnd%bool_decide_eq_true].
  unfold graph_of_stmt in Hr. destruct (bool_decide _); [done|]. apply bind_ret_inv in Hr as ([b1 g1] & Hr1 & Hr).
  destruct (graph_of_refs_made _ b b1 g1 Hrefs ltac:(by rewrite Hrefs) Hb Hok ltac:(intros rho Hs; by apply (Htrue rho Hs)) Hr1) as [pos [_ I1 _ E1 V1 U1 F1]].
  rewrite app_nil_r in I1. exists pos.
  assert (Hdone : forall h, inv pos (map tr_addr refs) h -> nodes h = nodes (b_heap b1) -> graph_ok pos h g1).
  { intros h I N. split; [done| |done|by rewrite N]. intros v. rewrite V1. pose proof (n_dom _ _ _ (i_nodes _ _ _ I) v) as Hd. rewrite N, nodes_size in Hd.
    assert (Hs : is_Some (h !! v) <-> is_Some (nodes h !! v)) by (unfold nodes; by rewrite lookup_fmap, fmap_is_Some).
    rewrite Hs, N, Hd. split; [intros [_ ?]; done|]. rewrite map_size_empty. split; [lia|done]. }
  destruct (ss_where stmt) as [w|] eqn:Ew; [|injection Hr as <- <-; by apply Hdone].
  apply bind_ret_inv in Hr as ([h2 k2] & Hr2 & Hr). apply bind_ret_inv in Hr as ([h3 k3] & Hr3 & Hr). injection Hr as <- <-. simpl.
  assert (Ht : true_term w) by (intros rho Hs; by apply (Htrue rho Hs)).
  destruct (conjunct_keeps pos (map tr_addr refs) (nodes (b_heap b1)) (whereEqLeaf addr (g_map g1)) w ltac:(intros u Hu Hpu; by eapply whereEq_keeps) Ht Hw _ _ _ I1 eq_refl Hr2) as [I2 N2].
  destruct (conjunct_keeps pos (map tr_addr refs) (nodes (b_heap b1)) (spLeaf addr (g_map g1)) w ltac:(intros u Hu Hpu; by eapply sp_keeps) Ht Hw _ _ _ I2 N2 Hr3) as [I3 N3].
  by apply Hdone.
Qed.
End construction.
