(* ===== verification/RelationGraphThms.v ===== *)
(** * Parallel evaluation is evaluation

    The templates that [rewrite] makes of a query that [_validate] accepts,
    evaluated on every chunk or sub-chunk, select the joined rows of the query:
    all of them, and each one once when some director table has overlap zero.
    At the end, examples of what the analysis does not see. *)

From Stdlib Require Import String SpecFloat.
From S2P Require Import Prelude.
From S2P Require Import StdString.
From S2P Require Import Double.
From S2P Require Import StdFloat.
From S2P Require Import QueryIr.
From S2P Require Import TableInfo.
From S2P Require Import RelationGraph.
From S2P Require Import RelationGraphVal.
From S2P Require Import RelationGraphSem.
From S2P Require Import RelationGraphInv.

Local Open Scope Z_scope.

(** ** Renaming *)

Definition over (f g : nat -> option (string * string)) : nat -> option (string * string) := fun a => match f a with Some n => Some n | None => g a end.
Definition only (a : nat) (n : string * string) : nat -> option (string * string) := fun b => if (a =? b)%nat then Some n else None.

Lemma rename_ext f g tr : (forall a, f a = g a) -> rename f tr = rename g tr.
Proof.
  intros H. induction tr as [a db t al js IH] using TableRef_rect'. simpl. unfold names_in. simpl. rewrite H. f_equal.
  induction IH as [|j js Hj _ IHjs]; simpl; [done|]. by rewrite Hj, IHjs.
Qed.

Lemma rename_over f g tr : rename f (rename g tr) = rename (over f g) tr.
Proof.
  induction tr as [a db t al js IH] using TableRef_rect'. simpl. unfold names_in, over. simpl. f_equal; [by destruct (f a), (g a)..|].
  rewrite map_map. induction IH as [|j js Hj _ IHjs]; simpl; [done|]. f_equal; [f_equal; exact Hj|done].
Qed.

Lemma rename_none tr : rename (fun _ => None) tr = tr.
Proof.
  induction tr as [a db t al js IH] using TableRef_rect'. simpl. unfold names_in. simpl. f_equal.
  induction IH as [|[r ty n sp] js Hj _ IHjs]; simpl in *; [done|]. by rewrite Hj, IHjs.
Qed.

Lemma set_names_rename a n tr : set_names a n tr = rename (only a n) tr.
Proof.
  induction tr as [b db t al js IH] using TableRef_rect'. simpl. unfold names_in, only. simpl.
  assert (E : map (fun j => mkJoinRef (set_names a n (jr_right j)) (jr_type j) (jr_natural j) (jr_spec j)) js =
              map (fun j => mkJoinRef (rename (only a n) (jr_right j)) (jr_type j) (jr_natural j) (jr_spec j)) js).
  { induction IH as [|j js Hj _ IHjs]; simpl; [done|]. by rewrite Hj, IHjs. }
  rewrite E. by destruct (a =? b)%nat.
Qed.

Lemma stmt_rename_ext f g s : (forall a, f a = g a) -> stmt_rename f s = stmt_rename g s.
Proof. intros H. unfold stmt_rename. f_equal. apply map_ext. intros tr. by apply rename_ext. Qed.
Lemma stmt_rename_over f g s : stmt_rename f (stmt_rename g s) = stmt_rename (over f g) s.
Proof. unfold stmt_rename. simpl. f_equal. rewrite map_map. apply map_ext. intros tr. apply rename_over. Qed.
Lemma stmt_rename_none s : stmt_rename (fun _ => None) s = s.
Proof. destruct s. unfold stmt_rename. simpl. f_equal. rewrite <-(map_id ss_fromList) at 2. apply map_ext, rename_none. Qed.
Lemma stmt_set_names_rename a n s : stmt_set_names a n s = stmt_rename (only a n) s.
Proof. unfold stmt_set_names, stmt_rename. f_equal. apply map_ext. intros tr. apply set_names_rename. Qed.

Lemma all_refs_rename f tr : map (fun r => (tr_addr r, (tr_db r, tr_table r))) (all_refs (rename f tr)) = map (fun r => (tr_addr r, names_in f r)) (all_refs tr).
Proof.
  induction tr as [a db t al js IH] using TableRef_rect'. cbn [rename all_refs tr_joins map tr_addr tr_db tr_table]. f_equal; [by destruct (names_in _ _)|].
  induction IH as [|j js Hj _ IHjs]; simpl; [done|]. rewrite !map_app. f_equal; [exact Hj|exact IHjs].
Qed.

Lemma refs_of_rename f s : map (fun r => (tr_addr r, (tr_db r, tr_table r))) (refs_of (stmt_rename f s)) = map (fun r => (tr_addr r, names_in f r)) (refs_of s).
Proof.
  unfold refs_of, stmt_rename. simpl. induction (ss_fromList s) as [|tr l IH]; simpl; [done|]. rewrite !map_app. f_equal; [apply all_refs_rename|exact IH].
Qed.

(** The last assignment to an address *)
Fixpoint assign (l : list (nat * (string * string))) : nat -> option (string * string) :=
  match l with [] => fun _ => None | x :: l' => over (assign l') (only x.1 x.2) end.

Lemma over_assoc f g k a : over f (over g k) a = over (over f g) k a.
Proof. unfold over. by destruct (f a). Qed.

Lemma assigns l s : forall f, foldl (fun s x => stmt_set_names x.1 x.2 s) (stmt_rename f s) l = stmt_rename (over (assign l) f) s.
Proof.
  induction l as [|x l IH]; intros f; simpl; [by apply stmt_rename_ext|].
  rewrite stmt_set_names_rename, stmt_rename_over, IH. apply stmt_rename_ext. intros a. apply over_assoc.
Qed.

Lemma assign_none l a : a ∉ l.*1 -> assign l a = None.
Proof.
  induction l as [|x l IH]; simpl; [done|]. intros Ha. unfold over, only. rewrite IH by set_solver.
  destruct (Nat.eqb_spec x.1 a) as [<-|]; [exfalso; apply Ha; set_solver|done].
Qed.

Lemma assign_some l a n : (a, n) ∈ l -> (forall n', (a, n') ∈ l -> n' = n) -> assign l a = Some n.
Proof.
  induction l as [|[b m] l IH]; intros Hin Hun; [by apply elem_of_nil in Hin|]. simpl. unfold over, only.
  destruct (decide (a ∈ l.*1)) as [Hl|Hl].
  - apply list_elem_of_fmap in Hl as ([a' n'] & -> & Hl). simpl in *. rewrite IH; [done| |intros; apply Hun; set_solver].
    by rewrite <-(Hun n' ltac:(set_solver)).
  - rewrite assign_none by done. apply elem_of_cons in Hin as [[= -> ->]|Hin]; [by rewrite Nat.eqb_refl|].
    exfalso. apply Hl. apply list_elem_of_fmap. by exists (a, n).
Qed.

Lemma assign_app l k a : assign (l ++ k) a = over (assign k) (assign l) a.
Proof. induction l as [|x l IH]; simpl; [unfold over; by destruct (assign k a)|]. rewrite over_assoc. unfold over at 1 2. by rewrite IH. Qed.

(** ** [rewrite] *)

Definition vertices_of (g : RelationGraph) (h : Heap) : list Vertex := omap (fun v => h !! v) (g_vertices g).
Definition named_as (names : TableInfo -> string * string) (x : Vertex) : nat * (string * string) := (v_tr x, names (v_info x)).
Definition overlap_refs (vs : list Vertex) : list Vertex := filter (fun x => needs_overlap x = true) vs.
Definition zero_refs (vs : list Vertex) : list Vertex := filter (fun x => d_eqb (v_overlap x) d_zero = true) (filter (fun x => is_director (v_info x) = true) vs).
Fixpoint perm (i : nat) (p : N) (xs : list Vertex) : list (nat * (string * string)) :=
  match xs with
  | [] => []
  | x :: xs' => named_as (if N.testbit p (N.of_nat i) then overlapNames else subChunkNames) x :: perm (S i) p xs'
  end.
Definition chunk_names (vs : list Vertex) := map (named_as chunkNames) vs.
Definition subchunk_names (p : N) (vs : list Vertex) := chunk_names vs ++ map (named_as subChunkNames) (zero_refs vs) ++ perm 0 p (overlap_refs vs).
Definition perms (vs : list Vertex) : list N := map N.of_nat (seq 0 (2 ^ length (overlap_refs vs))).

Lemma rewrites_assign names xs s : forall f, foldl (fun s x => rewriteAs names x s) (stmt_rename f s) xs = stmt_rename (over (assign (map (named_as names) xs)) f) s.
Proof. intros f. rewrite <-assigns. generalize (stmt_rename f s). induction xs as [|x xs IH]; intros s0; simpl; [done|apply IH]. Qed.

Lemma foldl_if {A B} (c : B -> bool) (f : A -> B -> A) l : forall a, foldl (fun a x => if c x then f a x else a) a l = foldl f a (filter (fun x => c x = true) l).
Proof. induction l as [|x l IH]; intros a; simpl; [done|]. rewrite filter_cons. destruct (c x); simpl; apply IH. Qed.

Lemma permutation_assign p s : forall xs i f, permutation i p xs (stmt_rename f s) = stmt_rename (over (assign (perm i p xs)) f) s.
Proof.
  induction xs as [|x xs IH]; intros i f; simpl; [by apply stmt_rename_ext|]. unfold rewriteAs. rewrite stmt_set_names_rename, stmt_rename_over, IH.
  apply stmt_rename_ext. intros a. apply over_assoc.
Qed.

Lemma perm_fst i p xs : (perm i p xs).*1 = map v_tr xs.
Proof. revert i. induction xs as [|x xs IH]; intros i; simpl; [done|]. by rewrite IH. Qed.

Lemma perm_in p xs a n : forall i, (a, n) ∈ perm i p xs <->
  exists j x, xs !! j = Some x /\ (a, n) = named_as (if N.testbit p (N.of_nat (i + j)) then overlapNames else subChunkNames) x.
Proof.
  induction xs as [|x xs IH]; intros i; simpl; [rewrite elem_of_nil; split; [done|]; by intros (j & x & Hx & _)|].
  rewrite elem_of_cons, IH. split.
  - intros [E|(j & y & Hy & E)]; [exists 0%nat, x; by rewrite Nat.add_0_r|]. exists (S j), y. by rewrite Nat.add_succ_r.
  - intros ([|j] & y & Hy & E); simpl in Hy; [left; simplify_eq; by rewrite Nat.add_0_r in E|]. right. exists j, y. by rewrite Nat.add_succ_r in E.
Qed.

Lemma assign_perm_dom i p p' xs a : is_Some (assign (perm i p xs) a) <-> is_Some (assign (perm i p' xs) a).
Proof.
  revert i. induction xs as [|x xs IH]; intros i; simpl; [done|]. unfold over, only. simpl. specialize (IH (S i)).
  destruct (assign (perm (S i) p xs) a), (assign (perm (S i) p' xs) a); simpl in *;
    [by split; eauto|by destruct IH as [IH _]; destruct IH; eauto|by destruct IH as [_ IH]; destruct IH; eauto|by destruct (v_tr x =? a)%nat; split; eauto].
Qed.

Lemma permutations_assign s xs ps : forall f, permutations ps xs (stmt_rename f s) = map (fun p => stmt_rename (over (assign (perm 0 p xs)) f) s) ps.
Proof.
  induction ps as [|p ps IH]; intros f; simpl; [done|]. rewrite permutation_assign. f_equal. rewrite IH. apply map_ext. intros p'.
  apply stmt_rename_ext. intros a. unfold over. destruct (assign (perm 0 p' xs) a) eqn:E; [done|].
  destruct (assign (perm 0 p xs) a) eqn:E'; [|done]. exfalso. destruct (proj1 (assign_perm_dom 0 p p' xs a)); [eauto|congruence].
Qed.

Lemma insert_tables_sub (l : list Vertex) : forall m, l <> [] ->
  hasSubChunks (foldl (fun m x => insertSubChunkTable (ti_database (v_info x), ti_table (v_info x)) m) m l) = true.
Proof.
  intros m Hl. unfold hasSubChunks. apply negb_true_iff, bool_decide_eq_false. revert m Hl. induction l as [|x l IH]; intros m Hl; [done|]. simpl.
  destruct l as [|y l]; [simpl; set_solver|]. by apply IH.
Qed.

Lemma overlap_director vs : overlap_refs vs <> [] -> filter (fun x => is_director (v_info x) = true) vs <> [].
Proof.
  intros Hne E. apply Hne. destruct (overlap_refs vs) as [|x xs] eqn:Eo; [done|]. exfalso.
  assert (Hx : x ∈ overlap_refs vs) by (rewrite Eo; set_solver). apply list_elem_of_filter in Hx as [Hx Hin].
  unfold needs_overlap in Hx. apply andb_true_iff in Hx as [Hd _].
  assert (Hx : x ∈ filter (fun x => is_director (v_info x) = true) vs) by (by apply list_elem_of_filter). rewrite E in Hx. by apply elem_of_nil in Hx.
Qed.

Lemma rewrite_spec g h stmt out m : g_empty g = false -> rewrite g h stmt (mkMapping ∅ ∅) = Ret (out, m) ->
  (overlap_refs (vertices_of g h) = [] /\ out = [stmt_rename (assign (chunk_names (vertices_of g h))) stmt] /\ hasSubChunks m = false /\ hasChunks m = true) \/
  (overlap_refs (vertices_of g h) <> [] /\ hasSubChunks m = true /\
   out = map (fun p => stmt_rename (assign (subchunk_names p (vertices_of g h))) stmt) (perms (vertices_of g h))).
Proof.
  intros Hg Hr. unfold rewrite in Hr. rewrite Hg in Hr. fold (vertices_of g h) in Hr. set (vs := vertices_of g h) in *. fold (overlap_refs vs) in Hr.
  assert (Echunk : foldl (fun s x => rewriteAs chunkNames x s) stmt vs = stmt_rename (assign (chunk_names vs)) stmt).
  { rewrite <-(stmt_rename_none stmt) at 1. rewrite rewrites_assign. apply stmt_rename_ext. intros a. unfold over. by destruct (assign _ a). }
  rewrite Echunk in Hr. destruct (overlap_refs vs) as [|x xs] eqn:Eo.
  - left. injection Hr as <- <-. by split_and!.
  - right. destruct (_ <? _)%nat; [done|]. rewrite <-Eo in Hr. unfold perms. set (k := (2 ^ length (overlap_refs vs))%nat) in *. injection Hr as <- <-. rewrite <-Eo. split; [by rewrite Eo|]. split.
    + apply insert_tables_sub, overlap_director. by rewrite Eo.
    + rewrite foldl_if. fold (zero_refs vs). rewrite rewrites_assign, permutations_assign. apply map_ext. intros p. apply stmt_rename_ext. intros a.
      unfold subchunk_names. unfold over at 1. rewrite !assign_app. unfold over. rewrite assign_app. unfold over. by destruct (assign (perm 0 p (overlap_refs vs)) a).
Qed.

(** ** Selecting from parts of tables *)

Lemma filter_flat_map {A B} (P : B -> Prop) `{!forall x, Decision (P x)} (f : A -> list B) l : filter P (flat_map f l) = flat_map (fun x => filter P (f x)) l.
Proof. induction l as [|x l IH]; simpl; [done|]. by rewrite filter_app, IH. Qed.

Lemma product_filter {T A} (P : T -> A -> bool) (f : T -> list A) ts :
  product (map (fun t => filter (fun r => P t r = true) (f t)) ts) =
  filter (fun w => forallb (fun tr => P tr.1 tr.2) (zip ts w) = true) (product (map f ts)).
Proof.
  induction ts as [|t ts IH]; [done|]. cbn [map product]. rewrite filter_flat_map, IH.
  assert (E : forall r, filter (fun w => forallb (fun tr => P tr.1 tr.2) (zip (t :: ts) w) = true) (map (cons r) (product (map f ts))) =
    if P t r then map (cons r) (filter (fun w => forallb (fun tr => P tr.1 tr.2) (zip ts w) = true) (product (map f ts))) else []).
  { clear. intros r. induction (product (map f ts)) as [|w ws IHw]; simpl; [by destruct (P t r)|]. rewrite !filter_cons. simpl. destruct (P t r); simpl in *; [|exact IHw].
    destruct (forallb _ _); simpl; by rewrite IHw. }
  induction (f t) as [|r l IHl]; [done|]. cbn [flat_map]. rewrite E, filter_cons. destruct (P t r); simpl; by rewrite IHl.
Qed.

Lemma product_in {A} (ls : list (list A)) w : w ∈ product ls <-> Forall2 (fun l r => r ∈ l) ls w.
Proof.
  revert w. induction ls as [|l ls IH]; intros w; simpl.
  { rewrite list_elem_of_singleton. split; [intros ->; constructor|by inversion 1]. }
  rewrite list_elem_of_In, in_flat_map. split.
  - intros (r & Hr & Hw). apply list_elem_of_In in Hr, Hw. apply list_elem_of_fmap in Hw as (w' & -> & Hw). constructor; [done|by apply IH].
  - inversion 1 as [|? r ? w' Hr Hw]; subst. exists r. split; [by apply list_elem_of_In|]. apply list_elem_of_In, list_elem_of_fmap. exists w'. split; [done|by apply IH].
Qed.

(** Every element is selected once by some [j], or at least once. *)
Lemma flat_map_filter_cons {J A} (Q : J -> A -> bool) js x l :
  flat_map (fun j => filter (fun y => Q j y = true) (x :: l)) js ≡ₚ
  map (fun _ => x) (filter (fun j => Q j x = true) js) ++ flat_map (fun j => filter (fun y => Q j y = true) l) js.
Proof.
  induction js as [|j js IH]; [done|]. cbn [flat_map]. rewrite IH, !filter_cons. destruct (Q j x); simpl; [constructor|]; solve_Permutation.
Qed.

Lemma flat_map_filter_once {J A} (Q : J -> A -> bool) js l :
  (forall x, x ∈ l -> exists j, filter (fun j => Q j x = true) js = [j]) -> flat_map (fun j => filter (fun x => Q j x = true) l) js ≡ₚ l.
Proof.
  intros H. induction l as [|x l IH]; [by clear; induction js|]. rewrite flat_map_filter_cons, IH by (intros; apply H; set_solver).
  destruct (H x ltac:(set_solver)) as [j ->]. done.
Qed.

Lemma flat_map_filter_some {J A} (Q : J -> A -> bool) js l :
  (forall x, x ∈ l -> exists j, j ∈ js /\ Q j x = true) -> l ⊆+ flat_map (fun j => filter (fun x => Q j x = true) l) js.
Proof.
  intros H. induction l as [|x l IH]; [apply submseteq_nil_l|]. rewrite flat_map_filter_cons. destruct (H x ltac:(set_solver)) as (j & Hj & Hq).
  assert (Hin : j ∈ filter (fun j => Q j x = true) js) by (by apply list_elem_of_filter).
  destruct (filter _ js) as [|j' js']; [by apply elem_of_nil in Hin|]. simpl. apply submseteq_skip. etrans; [apply IH; intros; apply H; set_solver|].
  apply submseteq_inserts_l. done.
Qed.

Lemma filter_unique {J} (Q : J -> bool) js j : NoDup js -> j ∈ js -> Q j = true -> (forall j', j' ∈ js -> Q j' = true -> j' = j) -> filter (fun j => Q j = true) js = [j].
Proof.
  intros Hnd Hin Hq Hun. induction Hnd as [|x js Hx Hnd IH]; [by apply elem_of_nil in Hin|]. rewrite filter_cons. destruct (decide (Q x = true)) as [Hqx|Hqx].
  - assert (x = j) as -> by (apply Hun; [set_solver|done]). f_equal. apply elem_of_nil_inv. intros y [Hy1 Hy2]%list_elem_of_filter.
    rewrite (Hun y) in Hy2; [done|set_solver|done].
  - apply elem_of_cons in Hin as [->|Hin]; [done|]. apply IH; [done|]. intros. apply Hun; [set_solver|done].
Qed.

Lemma flat_map_pairs {K P A} (f : K -> P -> list A) ks ps : flat_map (fun k => flat_map (f k) ps) ks = flat_map (fun kp => f kp.1 kp.2) (list_prod ks ps).
Proof.
  induction ks as [|k ks IH]; simpl; [done|]. rewrite flat_map_app, IH. f_equal. clear. induction ps as [|p ps IHp]; simpl; [done|]. by rewrite IHp.
Qed.

Lemma elem_of_pairs {K P} (ks : list K) (ps : list P) k p : (k, p) ∈ list_prod ks ps <-> k ∈ ks /\ p ∈ ps.
Proof. by rewrite !list_elem_of_In, in_prod_iff. Qed.

Lemma NoDup_pairs {K P} (ks : list K) (ps : list P) : NoDup ks -> NoDup ps -> NoDup (list_prod ks ps).
Proof.
  intros Hk Hp. induction Hk as [|k ks Hk _ IH]; simpl; [constructor|]. apply NoDup_app. split; [apply NoDup_fmap_2; [intros ? ? [= ?]; done|done]|].
  split; [|done]. intros x (p & -> & _)%list_elem_of_fmap. by intros [? _]%elem_of_pairs.
Qed.

(** ** Numbers as lists of bits *)

Fixpoint bits (l : list bool) : N := match l with [] => 0 | b :: l' => 2 * bits l' + N.b2n b end%N.

Lemma bits_test l : forall i b, l !! i = Some b -> N.testbit (bits l) (N.of_nat i) = b.
Proof.
  induction l as [|c l IH]; intros i b Hi; [done|]. cbn [bits]. destruct i as [|i]; simpl in Hi.
  - injection Hi as ->. apply N.testbit_0_r.
  - rewrite Nat2N.inj_succ, N.testbit_succ_r. by apply IH.
Qed.

Lemma bits_bound l : (bits l < 2 ^ N.of_nat (length l))%N.
Proof.
  induction l as [|b l IH]; [done|]. cbn [bits length]. rewrite Nat2N.inj_succ, N.pow_succ_r'. destruct b; simpl; lia.
Qed.

Lemma bits_unique l p : (p < 2 ^ N.of_nat (length l))%N -> (forall i b, l !! i = Some b -> N.testbit p (N.of_nat i) = b) -> p = bits l.
Proof.
  intros Hp H. apply N.bits_inj. intros m. destruct (N.lt_ge_cases m (N.of_nat (length l))) as [Hm|Hm].
  - rewrite <-(N2Nat.id m). destruct (lookup_lt_is_Some_2 l (N.to_nat m)) as [b Hb]; [lia|]. by rewrite (H _ _ Hb), (bits_test _ _ _ Hb).
  - rewrite <-(N.mod_small _ _ Hp), <-(N.mod_small _ _ (bits_bound l)). by rewrite !N.mod_pow2_bits_high.
Qed.

(** ** Where the rows of a joined row are *)

Section parallel.
Context {S : Sky} {HS : SkyLaws S} {C : Catalog} {HC : CatalogLaws}.
Context (stmt : SelectStmt) (sat : Env -> Prop).
Context (pos : Env -> nat -> Pos) (h0 : Heap) (g : RelationGraph) (Hg : graph_ok (refs_of stmt) sat pos h0 g).
Context (Hcov : covered stmt = true) (Hknown : known stmt = true).

Lemma h_closed : closed h0.
Proof. intros v x e Hx He. destruct (i_edges _ _ _ _ _ (gr_inv _ _ _ _ _ Hg) v x e Hx He) as (n & Hn & _). apply nodes_lookup_inv in Hn as (y & Hy & _). eauto. Qed.

Lemma h_fresh : fresh h0.
Proof. apply (i_fresh _ _ _ _ _ (gr_inv _ _ _ _ _ Hg)). Qed.

Lemma h_covers : covers (g_vertices g) h0.
Proof. intros v. apply (gr_vertices _ _ _ _ _ Hg). Qed.

Lemma h_nonneg : nonneg_edges h0.
Proof.
  intros v x e Hx He Hs. destruct (i_edges _ _ _ _ _ (gr_inv _ _ _ _ _ Hg) v x e Hx He) as (n & _ & (_ & _ & Hn & _)). apply Hn.
  unfold isSpatial in Hs. by apply negb_true_iff in Hs.
Qed.

Lemma h_nodes : nodes_ok (refs_of stmt) pos (map tr_addr (refs_of stmt)) (nodes h0).
Proof. apply (i_nodes _ _ _ _ _ (gr_inv _ _ _ _ _ Hg)). Qed.

(** The sum of the separations on a path bounds the separation of its ends. *)
Lemma path_near s u o : path h0 s u o -> is_Some (h0 !! s) ->
  (forall rho, sat rho -> near o (pos rho s) (pos rho u)) /\
  forall x y, h0 !! s = Some x -> h0 !! u = Some y -> partitioning (v_info x) = partitioning (v_info y).
Proof.
  intros Hp Hs. induction Hp as [|v o x e y Hp IH Hx He Hy Ho].
  { split; [intros rho _; apply near_refl|]. intros x y Hx Hy. congruence. }
  destruct IH as [IHn IHp]. destruct (i_edges _ _ _ _ _ (gr_inv _ _ _ _ _ Hg) v x e Hx He) as (n' & Hn' & (E1 & _ & E3 & E4)).
  apply nodes_lookup_inv in Hn' as (y' & Hy' & ->). simplify_eq. split.
  - intros rho Hr. specialize (IHn rho Hr). specialize (E4 rho Hr). unfold requiredOverlap, isSpatial in *. destruct (d_isnan (e_angSep e)); simpl.
    + by rewrite <-E4.
    + eapply near_trans; [exact (path_nonneg _ _ _ _ h_nonneg Hp)|by apply E3|exact IHn|exact E4].
  - intros x0 y0 Hx0 Hy0. simplify_eq. rewrite (IHp x0 x Hx0 Hx). exact E1.
Qed.

Context (s : nat) (h : Heap) (Hshape : same_shape h0 h) (Hstart : start_of h0 (g_vertices g) s).
Context (Hsum : forall u x, h !! u = Some x -> path h0 s u (v_overlap x) /\ d_isinf (v_overlap x) = false).

Lemma s_some : is_Some (h0 !! s).
Proof. apply h_covers, Hstart. Qed.

Lemma overlap_nonneg u x : h !! u = Some x -> d_nonneg (v_overlap x).
Proof. intros Hx. eapply path_nonneg; [apply h_nonneg|]. by apply Hsum. Qed.

Lemma zero_same u o rho : path h0 s u o -> d_leb o d_zero = true -> sat rho -> pos rho u = pos rho s.
Proof. intros Hp Ho Hr. symmetry. eapply near_zero; [|exact Ho]. by apply (path_near s u o Hp s_some). Qed.

Lemma child_here u x rho : h !! u = Some x -> is_match (v_info x) = false -> is_director (v_info x) = false -> sat rho -> pos rho u = pos rho s.
Proof.
  intros Hx Hm Hd Hr. destruct (Hsum u x Hx) as [Hp _]. eapply (zero_same u); [exact Hp| |exact Hr]. inversion Hp as [|v o z e y Hp' Hz He Hy Ho]; subst; [done|].
  destruct (same_shape_lookup _ _ _ _ Hshape Hx) as (y' & Hy' & [= _ E _]). simplify_eq. rewrite E in *. by destruct (v_info x).
Qed.

Lemma director_here u x d rho : h !! u = Some x -> v_info x = DIRECTOR d -> sat rho ->
  pos rho u = pos rho s \/ (near (v_overlap x) (pos rho s) (pos rho u) /\ d_leb (v_overlap x) (di_overlap d) = true).
Proof.
  intros Hx Hd Hr. destruct (Hsum u x Hx) as [Hp _]. pose proof (proj1 (path_near s u _ Hp s_some) rho Hr) as Hn.
  inversion Hp as [Eu Eo|v o z e y Hp' Hz He Hy Ho Eu Eo]; [by left|].
  right. rewrite Eo, Eu. split; [exact Hn|]. rewrite <-Eo. destruct (same_shape_lookup _ _ _ _ Hshape Hx) as (y' & Hy' & [= _ E _]). subst u. simplify_eq. rewrite E, Hd in Ho. exact Ho.
Qed.

(** One of the vertices of a match table is where the start is. *)
Lemma match_here_path u o y : path h0 s u o -> h0 !! u = Some y -> is_match (v_info y) = true ->
  exists u' y' o', path h0 s u' o' /\ h0 !! u' = Some y' /\ v_tr y' = v_tr y /\ d_leb o' d_zero = true.
Proof.
  intros Hp. revert y. induction Hp as [|v o x e z Hp IH Hx He Hz Ho]; intros y Hy Hm.
  { exfalso. destruct Hstart as [_ (x & Hx & Hno)]. congruence. }
  assert (z = y) as -> by congruence. destruct (is_match (v_info x)) eqn:Ex.
  - destruct (IH x Hx Ex) as (u' & y' & o' & H1 & H2 & H3 & H4). exists u', y', o'. split; [done|]. split; [done|]. split; [|done]. rewrite H3.
    destruct (i_edges _ _ _ _ _ (gr_inv _ _ _ _ _ Hg) v x e Hx He) as (n' & Hn' & (_ & E2 & _)).
    apply nodes_lookup_inv in Hn' as (w & Hw & ->). assert (w = y) as -> by congruence. by apply E2.
  - exists (e_vertex e), y, (requiredOverlap o e). split; [by eapply path_step|]. split; [done|]. split; [done|].
    destruct (v_info y); try done. simpl in Ho. by destruct (v_info x).
Qed.

Lemma match_here u x rho : h !! u = Some x -> is_match (v_info x) = true -> sat rho ->
  exists u' y', h0 !! u' = Some y' /\ v_tr y' = v_tr x /\ pos rho u' = pos rho s.
Proof.
  intros Hx Hm Hr. destruct (same_shape_lookup _ _ _ _ Hshape Hx) as (y & Hy & [= E1 E2 E3]). destruct (Hsum u x Hx) as [Hp _].
  destruct (match_here_path u _ y Hp Hy ltac:(by rewrite E2)) as (u' & y' & o' & H1 & H2 & H3 & H4). exists u', y'. split; [done|]. split; [congruence|].
  by eapply zero_same.
Qed.

(** ** Which part of a table a template selects from *)

Lemma refs_nodup : NoDup (map tr_addr (refs_of stmt)).
Proof. unfold covered in Hcov. apply andb_true_iff in Hcov as [_ Hnd]. by apply bool_decide_eq_true in Hnd. Qed.

Lemma refs_inj t t' : t ∈ refs_of stmt -> t' ∈ refs_of stmt -> tr_addr t = tr_addr t' -> t = t'.
Proof.
  intros [i Hi]%list_elem_of_lookup [j Hj]%list_elem_of_lookup E. assert (i = j) as ->; [|congruence].
  eapply (NoDup_lookup (map tr_addr (refs_of stmt)) i j (tr_addr t)); [apply refs_nodup| |]; rewrite list_lookup_fmap, ?Hi, ?Hj; simpl; congruence.
Qed.

Lemma nodes_same : nodes h = nodes h0.
Proof.
  apply map_eq. intros v. unfold nodes. rewrite !lookup_fmap. specialize (Hshape v). destruct (h0 !! v), (h !! v); simpl in *; try done. unfold shape in Hshape. congruence.
Qed.

Abbreviation vs := (vertices_of g h).

Lemma vertices_in x : x ∈ vs <-> exists v, h !! v = Some x.
Proof.
  unfold vertices_of. rewrite list_elem_of_omap. split; [intros (v & _ & Hv); eauto|]. intros [v Hv]. exists v. split; [|done].
  apply h_covers. destruct (same_shape_lookup _ _ _ _ Hshape Hv) as (y & Hy & _). eauto.
Qed.

Lemma vertex_ref v x : h !! v = Some x -> exists tr, tr ∈ refs_of stmt /\ tr_addr tr = v_tr x /\ meta_of tr = Some (v_info x).
Proof.
  intros Hx. pose proof (nodes_lookup h v x Hx) as Hn. rewrite nodes_same in Hn. by destruct (n_ref _ _ _ _ h_nodes v _ Hn) as (_ & Hr & _).
Qed.

Lemma ref_vertex tr i : tr ∈ refs_of stmt -> meta_of tr = Some i -> exists v x, h !! v = Some x /\ v_tr x = tr_addr tr /\ v_info x = i.
Proof.
  intros Hin Hm. destruct (gr_all _ _ _ _ _ Hg tr i Hin Hm) as [v Hv]. rewrite <-nodes_same in Hv. apply nodes_lookup_inv in Hv as (x & Hx & [= E1 E2]). eauto.
Qed.

Lemma vertex_info tr v x : tr ∈ refs_of stmt -> h !! v = Some x -> v_tr x = tr_addr tr -> meta_of tr = Some (v_info x).
Proof. intros Hin Hx E. destruct (vertex_ref v x Hx) as (tr' & Hin' & E' & Hm). by rewrite <-(refs_inj tr' tr Hin' Hin ltac:(congruence)). Qed.

Lemma director_unique v w x y : h !! v = Some x -> h !! w = Some y -> v_tr x = v_tr y -> is_match (v_info x) = false -> v = w /\ x = y.
Proof.
  intros Hx Hy E Hm. pose proof (nodes_lookup h v x Hx) as Hn. pose proof (nodes_lookup h w y Hy) as Hn'. rewrite nodes_same in Hn, Hn'.
  destruct (decide (v = w)) as [->|Hne]; [split; [done|congruence]|]. pose proof (n_distinct _ _ _ _ h_nodes v w _ _ Hn Hn' E Hne) as Hc. simpl in Hc. congruence.
Qed.

Inductive mode := Whole | InChunk | InSub | InOverlap.
Definition mode_names (m : mode) (tr : TableRef) : string * string :=
  match m, meta_of tr with
  | Whole, _ | _, None => (tr_db tr, tr_table tr)
  | InChunk, Some i => chunkNames i
  | InSub, Some i => subChunkNames i
  | InOverlap, Some i => overlapNames i
  end.
Definition overlap_index (tr : TableRef) : option nat := fst <$> list_find (fun x => v_tr x = tr_addr tr) (overlap_refs vs).
Definition mode_of (sub : bool) (p : N) (tr : TableRef) : mode :=
  match meta_of tr with
  | None => Whole
  | Some (DIRECTOR _) =>
      if sub then match overlap_index tr with Some i => if N.testbit p (N.of_nat i) then InOverlap else InSub | None => InSub end
      else InChunk
  | Some _ => InChunk
  end.
Definition names_for (sub : bool) (p : N) : nat -> option (string * string) := assign (if sub then subchunk_names p vs else chunk_names vs).

Lemma overlap_in x : x ∈ overlap_refs vs <-> (exists v, h !! v = Some x) /\ needs_overlap x = true.
Proof. unfold overlap_refs. rewrite list_elem_of_filter, vertices_in. tauto. Qed.
Lemma zero_in x : x ∈ zero_refs vs <-> (exists v, h !! v = Some x) /\ is_director (v_info x) = true /\ d_eqb (v_overlap x) d_zero = true.
Proof. unfold zero_refs. rewrite !list_elem_of_filter, vertices_in. tauto. Qed.

Lemma needs_director x : needs_overlap x = true -> is_director (v_info x) = true.
Proof. by intros [? _]%andb_true_iff. Qed.

(** Names of other references do not matter. *)
Lemma chunk_assign tr i : tr ∈ refs_of stmt -> meta_of tr = Some i -> assign (chunk_names vs) (tr_addr tr) = Some (chunkNames i).
Proof.
  intros Hin Hm. destruct (ref_vertex tr i Hin Hm) as (v & x & Hx & E1 & E2). unfold chunk_names. apply assign_some.
  - apply list_elem_of_fmap. exists x. unfold named_as. rewrite E1, E2. split; [done|]. apply vertices_in. eauto.
  - intros n (y & [= E3 ->] & [w Hw]%vertices_in)%list_elem_of_fmap. pose proof (vertex_info tr w y Hin Hw ltac:(congruence)). congruence.
Qed.
Lemma whole_assign sub p tr : tr ∈ refs_of stmt -> meta_of tr = None -> names_for sub p (tr_addr tr) = None.
Proof.
  intros Hin Hm. assert (Hno : forall x, (exists v, h !! v = Some x) -> v_tr x <> tr_addr tr).
  { intros x [v Hx] E. pose proof (vertex_info tr v x Hin Hx E). congruence. }
  unfold names_for. apply assign_none. intros Hc. destruct sub.
  - unfold subchunk_names in Hc. rewrite !fmap_app, perm_fst, !elem_of_app in Hc. destruct Hc as [Hc|[Hc|Hc]].
    + unfold chunk_names in Hc. rewrite <-list_fmap_compose in Hc. apply list_elem_of_fmap in Hc as (x & E & Hx%vertices_in). by apply (Hno x).
    + rewrite <-list_fmap_compose in Hc. apply list_elem_of_fmap in Hc as (x & E & [Hx _]%zero_in). by apply (Hno x).
    + apply list_elem_of_fmap in Hc as (x & E & [Hx _]%overlap_in). by apply (Hno x).
  - unfold chunk_names in Hc. rewrite <-list_fmap_compose in Hc. apply list_elem_of_fmap in Hc as (x & E & Hx%vertices_in). by apply (Hno x).
Qed.

Lemma overlap_nodup : NoDup (map v_tr (overlap_refs vs)).
Proof.
  unfold overlap_refs, vertices_of. pose proof (gr_nodup _ _ _ _ _ Hg) as Hnd. generalize dependent (g_vertices g). intros l _ Hnd.
  induction Hnd as [|v l Hv Hnd IH]; [constructor|]. simpl. destruct (h !! v) as [x|] eqn:Hx; [|exact IH]. rewrite filter_cons. destruct (decide (needs_overlap x = true)) as [Hn|]; [|exact IH].
  simpl. apply NoDup_cons. split; [|exact IH]. intros (y & E & Hy)%list_elem_of_fmap. apply list_elem_of_filter in Hy as [_ (w & Hw & Hy)%list_elem_of_omap].
  destruct (director_unique v w x y Hx Hy E) as [-> _]; [|done]. apply needs_director in Hn. by destruct (v_info x).
Qed.

Lemma overlap_index_spec tr d v x : tr ∈ refs_of stmt -> meta_of tr = Some (DIRECTOR d) -> h !! v = Some x -> v_tr x = tr_addr tr ->
  match overlap_index tr with
  | Some i => overlap_refs vs !! i = Some x /\ forall j y, overlap_refs vs !! j = Some y -> v_tr y = tr_addr tr -> j = i
  | None => needs_overlap x = false
  end.
Proof.
  intros Hin Hm Hx E. pose proof (vertex_info tr v x Hin Hx E) as Hm'. assert (Hi : v_info x = DIRECTOR d) by congruence.
  assert (Hun : forall j y, overlap_refs vs !! j = Some y -> v_tr y = tr_addr tr -> y = x).
  { intros j y Hy Ey. apply list_elem_of_lookup_2, overlap_in in Hy as [[w Hw] _]. destruct (director_unique v w x y Hx Hw ltac:(congruence)) as [_ ->]; [by rewrite Hi|done]. }
  unfold overlap_index. destruct (list_find _ _) as [[i y]|] eqn:Ef; simpl.
  - apply list_find_Some in Ef as (Hy & Ey & _). pose proof (Hun i y Hy Ey) as ->. split; [done|].
    intros j z Hz Ez. eapply (NoDup_lookup (map v_tr (overlap_refs vs)) j i (tr_addr tr)); [apply overlap_nodup| |];
      rewrite list_lookup_fmap, ?Hz, ?Hy; simpl; congruence.
  - apply list_find_None in Ef. rewrite Forall_forall in Ef. destruct (needs_overlap x) eqn:En; [|done]. exfalso. apply (Ef x); [|done]. apply overlap_in. eauto.
Qed.

Lemma not_needed x v : h !! v = Some x -> is_director (v_info x) = true -> needs_overlap x = false -> d_leb (v_overlap x) d_zero = true /\ d_eqb (v_overlap x) d_zero = true.
Proof.
  intros Hx Hd Hn. unfold needs_overlap in Hn. rewrite Hd in Hn. simpl in Hn. pose proof (overlap_nonneg v x Hx) as Ho.
  destruct (v_overlap x) as [sg|[]| |[] m e]; simpl in *; try done; by destruct Ho.
Qed.

Lemma perm_none p tr d : tr ∈ refs_of stmt -> meta_of tr = Some (DIRECTOR d) -> overlap_index tr = None -> assign (perm 0 p (overlap_refs vs)) (tr_addr tr) = None.
Proof.
  intros Hin Hm Ho. apply assign_none. rewrite perm_fst. intros (x & E & Hx)%list_elem_of_fmap. unfold overlap_index in Ho.
  destruct (list_find _ _) eqn:Ef; [done|]. apply list_find_None in Ef. rewrite Forall_forall in Ef. by apply (Ef x).
Qed.

Lemma names_mode sub p tr : tr ∈ refs_of stmt -> names_in (names_for sub p) tr = mode_names (mode_of sub p tr) tr.
Proof.
  intros Hin. unfold names_in, mode_names, mode_of. destruct (meta_of tr) as [i|] eqn:Hm; [|by rewrite whole_assign].
  destruct sub; simpl; [|unfold names_for; rewrite (chunk_assign tr i Hin Hm); by destruct i].
  unfold names_for, subchunk_names. rewrite assign_app. unfold over at 1. rewrite assign_app. unfold over. rewrite (chunk_assign tr i Hin Hm).
  destruct (ref_vertex tr i Hin Hm) as (v & x & Hx & E1 & E2).
  destruct (is_director i) eqn:Ei.
  - destruct i as [d| |]; try done. pose proof (overlap_index_spec tr d v x Hin Hm Hx E1) as Hs. destruct (overlap_index tr) as [k|] eqn:Eo.
    + destruct Hs as [Hkx Hs]. rewrite (assign_some _ (tr_addr tr) (if N.testbit p (N.of_nat k) then overlapNames (DIRECTOR d) else subChunkNames (DIRECTOR d))); [by destruct (N.testbit _ _)| |].
      * apply perm_in. exists k, x. split; [done|]. unfold named_as. rewrite E1, E2. by destruct (N.testbit _ _).
      * intros n (j & z & Hz & [= Ez ->])%perm_in. rewrite (Hs j z Hz ltac:(done)) in Hz |- *. rewrite Hkx in Hz. injection Hz as <-. simpl. rewrite E2. by destruct (N.testbit _ _).
    + rewrite (perm_none p tr d Hin Hm Eo). destruct (not_needed x v Hx ltac:(by rewrite E2) Hs) as [_ Hz].
      rewrite (assign_some _ (tr_addr tr) (subChunkNames (DIRECTOR d))); [done| |].
      * apply list_elem_of_fmap. exists x. unfold named_as. rewrite E1, E2. split; [done|]. apply zero_in. rewrite E2. eauto.
      * intros n (y & [= Ey ->] & [[w Hw] _]%zero_in)%list_elem_of_fmap. pose proof (vertex_info tr w y Hin Hw ltac:(congruence)). congruence.
  - assert (Hno : forall y, (exists w, h !! w = Some y) -> is_director (v_info y) = true -> v_tr y <> tr_addr tr).
    { intros y [w Hw] Hd Ey. pose proof (vertex_info tr w y Hin Hw Ey). congruence. }
    rewrite (assign_none (perm 0 p (overlap_refs vs))), (assign_none (map _ (zero_refs vs))); [by destruct i| |].
    + rewrite <-list_fmap_compose. intros (y & E & [Hy [Hd _]]%zero_in)%list_elem_of_fmap. by apply (Hno y).
    + rewrite perm_fst. intros (y & E & [Hy Hn%needs_director]%overlap_in)%list_elem_of_fmap. by apply (Hno y).
Qed.

Definition present (m : mode) (k : Z * Z) (tr : TableRef) (r : Row) : bool :=
  match m, meta_of tr with
  | Whole, _ | _, None => true
  | InChunk, Some i => in_chunk i k r
  | InSub, Some i => in_subchunk i k r
  | InOverlap, Some (DIRECTOR d) => in_overlap_table d k r
  | InOverlap, Some _ => false
  end.
Definition rows_of (tr : TableRef) : list Row := rows (tr_db tr) (tr_table tr).

Lemma mode_director sub p tr : (mode_of sub p tr = InSub \/ mode_of sub p tr = InOverlap) -> exists d, meta_of tr = Some (DIRECTOR d).
Proof. unfold mode_of. destruct (meta_of tr) as [[d| |]|]; naive_solver. Qed.

Lemma stored_mode sub p k tr : tr ∈ refs_of stmt ->
  stored k (names_in (names_for sub p) tr) = filter (fun r => present (mode_of sub p tr) k tr r = true) (rows_of tr).
Proof.
  intros Hin. rewrite names_mode by done. unfold mode_names, present, rows_of. destruct (meta_of tr) as [i|] eqn:Hm.
  - destruct (mode_of sub p tr) eqn:Em.
    + exfalso. unfold mode_of in Em. rewrite Hm in Em. destruct i; repeat case_match; done.
    + by apply stored_chunk.
    + destruct (mode_director sub p tr) as [d Hd]; [by left|]. rewrite Hm in Hd. injection Hd as ->. by apply stored_subchunk.
    + destruct (mode_director sub p tr) as [d Hd]; [by right|]. rewrite Hm in Hd. injection Hd as ->. by apply stored_overlap.
  - assert (mode_of sub p tr = Whole) as -> by (unfold mode_of; by rewrite Hm). rewrite (stored_plain _ _ k); [|unfold known in Hknown; rewrite forallb_forall in Hknown; by apply Hknown, list_elem_of_In|done].
    induction (rows _ _) as [|r l IH]; [done|]. rewrite filter_cons, decide_True by done. by f_equal.
Qed.

(** ** The home of a joined row *)

Definition p_start : Z := match h0 !! s with Some x => partitioning (v_info x) | None => 0 end.
Definition home (rho : Env) : Z * Z := cell p_start (pos rho s).

Lemma vertex_partitioning v x : h !! v = Some x -> partitioning (v_info x) = p_start.
Proof.
  intros Hx. destruct (same_shape_lookup _ _ _ _ Hshape Hx) as (y & Hy & [= _ E _]). rewrite <-E. destruct (Hsum v x Hx) as [Hp _].
  destruct s_some as [z Hz]. unfold p_start. rewrite Hz. symmetry. by apply (proj2 (path_near s v _ Hp s_some)).
Qed.

Lemma vertex_placed v x : h !! v = Some x -> placed pos v (v_tr x, v_info x).
Proof. intros Hx. pose proof (nodes_lookup h v x Hx) as Hn. rewrite nodes_same in Hn. by destruct (n_ref _ _ _ _ h_nodes v _ Hn) as (_ & _ & Hp). Qed.

Lemma cell_home v x rho : h !! v = Some x -> is_match (v_info x) = false -> cell_of (v_info x) "" (rho (v_tr x)) = cell p_start (pos rho v).
Proof.
  intros Hx Hm. unfold cell_of. rewrite (vertex_partitioning v x Hx). f_equal. symmetry. pose proof (vertex_placed v x Hx) as Hp. unfold placed in Hp. simpl in Hp.
  destruct (v_info x); [apply Hp|apply Hp|done].
Qed.

Lemma chunk_present v x rho k : h !! v = Some x -> needs_overlap x = false -> k.1 = (home rho).1 -> sat rho -> in_chunk (v_info x) k (rho (v_tr x)) = true.
Proof.
  intros Hx Hn Hk Hr. destruct (is_match (v_info x)) eqn:Em.
  - destruct (match_here v x rho Hx Em Hr) as (u & y0 & Hy0 & E & Hp). destruct (same_shape_lookup_r _ _ _ _ Hshape Hy0) as (y & Hy & [= E1 E2 _]).
    destruct (vertex_ref v x Hx) as (tr & Hin & Etr & Hm). pose proof (vertex_info tr u y Hin Hy ltac:(congruence)) as Hm'.
    assert (Ei : v_info y = v_info x) by congruence. pose proof (vertex_placed u y Hy) as Hpl. pose proof (vertex_partitioning u y Hy) as Hpt. unfold placed in Hpl. simpl in Hpl.
    assert (Et : v_tr y = v_tr x) by congruence. rewrite Ei, Et in Hpl. rewrite Ei in Hpt. unfold home in Hk. rewrite <-Hp in Hk.
    destruct (v_info x) as [| |db t d1 d2 fk1 fk2 a] eqn:Ex; try done. unfold in_chunk. apply orb_true_iff. rewrite !bool_decide_eq_true. unfold cell_of. rewrite Hpt.
    destruct Hpl as [Hpl|Hpl]; [left|right]; rewrite <-Hpl; by symmetry.
  - assert (Hp : pos rho v = pos rho s).
    { destruct (is_director (v_info x)) eqn:Ed; [|by eapply child_here]. eapply (zero_same v); [by apply Hsum| |done]. by apply (not_needed x v). }
    pose proof (cell_home v x rho Hx Em) as Hc. rewrite Hp in Hc. unfold in_chunk. destruct (v_info x); try done; apply bool_decide_eq_true; rewrite Hc; by symmetry.
Qed.

Lemma sub_present v x rho : h !! v = Some x -> is_director (v_info x) = true -> needs_overlap x = false -> sat rho -> in_subchunk (v_info x) (home rho) (rho (v_tr x)) = true.
Proof.
  intros Hx Hd Hn Hr. unfold in_subchunk. apply bool_decide_eq_true. rewrite (cell_home v x rho Hx) by (by destruct (v_info x)). unfold home. f_equal.
  eapply (zero_same v); [by apply Hsum| |done]. by apply (not_needed x v).
Qed.

Lemma overlap_present v x d rho : h !! v = Some x -> v_info x = DIRECTOR d -> in_subchunk (v_info x) (home rho) (rho (v_tr x)) = false -> sat rho ->
  in_overlap_table d (home rho) (rho (v_tr x)) = true.
Proof.
  intros Hx Hd Hs Hr. unfold in_overlap_table. rewrite <-Hd, Hs. simpl. pose proof (cell_home v x rho Hx ltac:(by rewrite Hd)) as Hc.
  unfold in_subchunk in Hs. apply bool_decide_eq_false in Hs. rewrite Hc in Hs. pose proof (vertex_placed v x Hx) as Hpl. unfold placed in Hpl. simpl in Hpl. rewrite Hd in Hpl.
  pose proof (vertex_partitioning v x Hx) as Hpt. rewrite Hd in Hpt |- *. simpl in Hpt. rewrite <-(Hpl rho), Hpt.
  destruct (director_here v x d rho Hx Hd Hr) as [E|[Hn Ho]]; [exfalso; apply Hs; by rewrite E|]. apply (near_overlap p_start (v_overlap x)); [|done..].
  destruct (vertex_ref v x Hx) as (tr & _ & _ & Hm). rewrite Hd in Hm. by apply meta_overlap in Hm.
Qed.

Definition subs : bool := negb (bool_decide (overlap_refs vs = [])).
Definition home_job (rho : Env) : Z * Z := if subs then home rho else ((home rho).1, 0).
Definition home_bits (rho : Env) : N :=
  if subs then bits (map (fun x => negb (in_subchunk (v_info x) (home rho) (rho (v_tr x)))) (overlap_refs vs)) else 0%N.
Definition present_at (p : N) (k : Z * Z) (tr : TableRef) (rho : Env) : bool := present (mode_of subs p tr) k tr (rho (tr_addr tr)).

Lemma not_subs : subs = false -> forall v x, h !! v = Some x -> needs_overlap x = false.
Proof.
  unfold subs. rewrite negb_false_iff, bool_decide_eq_true. intros E v x Hx. destruct (needs_overlap x) eqn:En; [|done].
  assert (Hin : x ∈ overlap_refs vs) by (apply overlap_in; eauto). rewrite E in Hin. by apply elem_of_nil in Hin.
Qed.

Lemma home_present rho tr : sat rho -> tr ∈ refs_of stmt -> present_at (home_bits rho) (home_job rho) tr rho = true.
Proof.
  intros Hr Hin. unfold present_at, present, mode_of, home_job, home_bits. destruct (meta_of tr) as [i|] eqn:Hm; [|done].
  destruct (ref_vertex tr i Hin Hm) as (v & x & Hx & E1 & E2). destruct (is_director i) eqn:Ed.
  2: { assert (Hn : needs_overlap x = false) by (unfold needs_overlap; by rewrite E2, Ed).
       pose proof (chunk_present v x rho (if subs then home rho else ((home rho).1, 0)) Hx Hn ltac:(by destruct subs) Hr) as Hc.
       rewrite E1, E2 in Hc. by destruct i. }
  destruct i as [d| |] eqn:Ei; try done. destruct subs eqn:Es.
  - pose proof (overlap_index_spec tr d v x Hin Hm Hx E1) as Hidx. destruct (overlap_index tr) as [j|].
    + destruct Hidx as [Hj _]. erewrite bits_test by (rewrite list_lookup_fmap, Hj; done). rewrite E1, E2.
      destruct (in_subchunk (DIRECTOR d) (home rho) (rho (tr_addr tr))) eqn:Esub; simpl; [done|].
      rewrite <-E1. apply (overlap_present v x); [done|done|by rewrite E1, E2|done].
    + pose proof (sub_present v x rho Hx ltac:(by rewrite E2) Hidx Hr) as Hs. by rewrite E1, E2 in Hs.
  - pose proof (chunk_present v x rho ((home rho).1, 0) Hx (not_subs Es v x Hx) eq_refl Hr) as Hc. by rewrite E1, E2 in Hc.
Qed.

(** The sub-chunk decides the template, *)
Lemma bits_only rho p : sat rho -> subs = true -> p ∈ perms vs -> (forall tr, tr ∈ refs_of stmt -> present_at p (home rho) tr rho = true) -> p = home_bits rho.
Proof.
  intros Hr Es Hp Hall. unfold home_bits. rewrite Es. apply bits_unique.
  - rewrite length_map. unfold perms in Hp. apply list_elem_of_fmap in Hp as (n & -> & Hn). apply elem_of_seq in Hn. rewrite Nat.add_0_l in Hn.
    assert (E : N.of_nat (2 ^ length (overlap_refs vs)) = (2 ^ N.of_nat (length (overlap_refs vs)))%N) by (by rewrite Nat2N.inj_pow). lia.
  - intros j b Hj. rewrite list_lookup_fmap in Hj. destruct (overlap_refs vs !! j) as [x|] eqn:Hx; [|done]. injection Hj as <-.
    pose proof (list_elem_of_lookup_2 _ _ _ Hx) as Hin. apply overlap_in in Hin as [[v Hv] Hn]. destruct (vertex_ref v x Hv) as (tr & Hin & E1 & Hm).
    specialize (Hall tr Hin). unfold present_at, present, mode_of in Hall. apply needs_director in Hn. rewrite Hm, Es in Hall.
    destruct (v_info x) as [d| |] eqn:Ei; try done. pose proof (overlap_index_spec tr d v x Hin Hm Hv (eq_sym E1)) as Hidx.
    destruct (overlap_index tr) as [i|] eqn:Ex.
    + destruct Hidx as [_ Hun]. pose proof (Hun j x Hx (eq_sym E1)) as <-. rewrite <-E1.
      destruct (N.testbit p (N.of_nat j)); simpl in Hall; [|by rewrite Hall]. unfold in_overlap_table in Hall. by apply andb_true_iff in Hall as [-> _].
    + exfalso. unfold overlap_index in Ex. destruct (list_find _ _) eqn:Ef; [done|]. apply list_find_None in Ef. rewrite Forall_forall in Ef.
      apply (Ef x); [by eapply list_elem_of_lookup_2|done].
Qed.

(** a director table with overlap zero decides the sub-chunk, *)
Lemma sub_only rho p k v x : sat rho -> subs = true -> h !! v = Some x -> is_director (v_info x) = true -> needs_overlap x = false ->
  (forall tr, tr ∈ refs_of stmt -> present_at p k tr rho = true) -> k = home rho.
Proof.
  intros Hr Es Hv Hd Hn Hall. destruct (vertex_ref v x Hv) as (tr & Hin & E1 & Hm). specialize (Hall tr Hin). unfold present_at, present, mode_of in Hall.
  rewrite Hm, Es in Hall. pose proof (sub_present v x rho Hv Hd Hn Hr) as Hsub. destruct (v_info x) as [d| |] eqn:Ei; try done.
  pose proof (overlap_index_spec tr d v x Hin Hm Hv (eq_sym E1)) as Hidx. destruct (overlap_index tr) as [i|].
  - exfalso. destruct Hidx as [Hi _]. apply list_elem_of_lookup_2, overlap_in in Hi as [_ Hi]. congruence.
  - unfold in_subchunk in Hall, Hsub. rewrite E1 in Hall. apply bool_decide_eq_true in Hall, Hsub. congruence.
Qed.

(** and the start decides the chunk. *)
Lemma chunk_only rho p k : sat rho -> subs = false -> (forall tr, tr ∈ refs_of stmt -> present_at p k tr rho = true) -> k.1 = (home rho).1.
Proof.
  intros Hr Es Hall. destruct Hstart as [_ (x0 & Hx0 & Hno)]. destruct (same_shape_lookup_r _ _ _ _ Hshape Hx0) as (x & Hx & [= _ Ei _]). rewrite <-Ei in Hno.
  destruct (vertex_ref s x Hx) as (tr & Hin & E1 & Hm). specialize (Hall tr Hin). unfold present_at, present, mode_of in Hall. rewrite Hm, Es in Hall.
  pose proof (cell_home s x rho Hx Hno) as Hc. fold (home rho) in Hc. rewrite E1 in Hall. unfold in_chunk in Hall.
  destruct (v_info x); try done; apply bool_decide_eq_true in Hall; rewrite Hc in Hall; by symmetry.
Qed.
End parallel.

(** ** Evaluation of templates *)

Section evaluation.
Context {S : Sky} {HS : SkyLaws S} {C : Catalog} {HC : CatalogLaws}.
Context (stmt : SelectStmt) (pt : Env -> BoolFactorTerm -> option bool) (holds : SelectStmt -> Env -> bool) (Hsql : sql_ok stmt pt holds).

(** The joined rows that are selected *)
Definition selected (rho : Env) : Prop := holds stmt rho = true /\ forall tr, tr ∈ refs_of stmt -> rho (tr_addr tr) ∈ rows (tr_db tr) (tr_table tr).

Lemma env_of_ext refs refs' w : map tr_addr refs = map tr_addr refs' -> env_of refs w = env_of refs' w.
Proof.
  revert refs' w. induction refs as [|t refs IH]; intros [|t' refs'] w E; try done. simpl in E. injection E as E1 E2. destruct w; [done|]. simpl.
  by rewrite E1, (IH refs').
Qed.

Lemma env_of_zip refs w tr r : NoDup (map tr_addr refs) -> (tr, r) ∈ zip refs w -> env_of refs w (tr_addr tr) = r.
Proof.
  revert w. induction refs as [|t refs IH]; intros [|r' w] Hnd Hin; simpl in *; try by apply elem_of_nil in Hin. apply NoDup_cons in Hnd as [Ht Hnd].
  apply elem_of_cons in Hin as [[= -> ->]|Hin]; [by rewrite Nat.eqb_refl|]. destruct (Nat.eqb_spec (tr_addr t) (tr_addr tr)) as [E|]; [|by apply IH].
  exfalso. apply Ht. rewrite E. apply list_elem_of_fmap_2. by apply elem_of_zip_l in Hin.
Qed.

Lemma zip_all {A B} (l : list A) (k : list B) (P : A -> B -> Prop) x : Forall2 P l k -> x ∈ l -> exists y, (x, y) ∈ zip l k /\ P x y.
Proof. induction 1 as [|a b l k Hab _ IH]; intros Hx; [by apply elem_of_nil in Hx|]. apply elem_of_cons in Hx as [->|Hx]; simpl; [exists b; set_solver|]. destruct (IH Hx) as (y & Hy & Hp). exists y. set_solver. Qed.

(** A template selects the rows of the query that are in its parts of the tables. *)
Lemma select_template f (P : TableRef -> Row -> bool) (t : string * string -> list Row) :
  (forall tr, tr ∈ refs_of stmt -> t (names_in f tr) = filter (fun r => P tr r = true) (rows (tr_db tr) (tr_table tr))) ->
  select holds t (stmt_rename f stmt) = filter (fun w => forallb (fun x => P x.1 x.2) (zip (refs_of stmt) w) = true) (direct holds stmt).
Proof.
  intros Ht. unfold direct, select. pose proof (refs_of_rename f stmt) as Er.
  assert (E1 : map tr_addr (refs_of (stmt_rename f stmt)) = map tr_addr (refs_of stmt)).
  { apply (f_equal (map fst)) in Er. by rewrite !map_map in Er. }
  assert (E2 : map (table_of t) (refs_of (stmt_rename f stmt)) = map (fun tr => filter (fun r => P tr r = true) (rows (tr_db tr) (tr_table tr))) (refs_of stmt)).
  { apply (f_equal (map (fun x => t x.2))) in Er. rewrite !map_map in Er. simpl in Er. unfold table_of. rewrite Er.
    apply map_ext_in. intros tr Hin. apply Ht. by apply list_elem_of_In. }
  rewrite E2, product_filter, !list_filter_filter.
  change (map (fun tr => rows (tr_db tr) (tr_table tr)) (refs_of stmt)) with (map (table_of (fun n => rows n.1 n.2)) (refs_of stmt)).
  apply list_filter_iff. intros w. rewrite (env_of_ext _ _ w E1), (sql_names _ _ _ Hsql). tauto.
Qed.

Lemma direct_selected w : NoDup (map tr_addr (refs_of stmt)) -> w ∈ direct holds stmt ->
  selected (env_of (refs_of stmt) w) /\
  forall Q : TableRef -> Row -> bool, forallb (fun x => Q x.1 x.2) (zip (refs_of stmt) w) = true <->
    forall tr, tr ∈ refs_of stmt -> Q tr (env_of (refs_of stmt) w (tr_addr tr)) = true.
Proof.
  intros Hnd [Hh Hw]%list_elem_of_filter. apply product_in in Hw.
  assert (Hw' : Forall2 (fun tr r => r ∈ rows (tr_db tr) (tr_table tr)) (refs_of stmt) w) by (by apply Forall2_fmap_l in Hw).
  split.
  - split; [done|]. intros tr Hin. destruct (zip_all _ _ _ tr Hw' Hin) as (r & Hz & Hr). by rewrite (env_of_zip _ _ _ _ Hnd Hz).
  - intros Q. rewrite forallb_forall. split.
    + intros H tr Hin. destruct (zip_all _ _ _ tr Hw' Hin) as (r & Hz & _). rewrite (env_of_zip _ _ _ _ Hnd Hz). apply (H (tr, r)). by apply list_elem_of_In.
    + intros H [tr r] Hz%list_elem_of_In. simpl. rewrite <-(env_of_zip _ _ _ _ Hnd Hz). apply H. by apply elem_of_zip_l in Hz.
Qed.
End evaluation.

(** ** The theorems *)

Section main.
Context {S : Sky} {HS : SkyLaws S} {C : Catalog} {HC : CatalogLaws}.
Context (addr : nat -> Z) (Haddr : Inj eq eq addr).
Context {Pool : Type} (get : string -> string -> Pool -> Pool * outcome (option TableInfo)).
Context (get_meta : forall db t p p' i, get db t p = (p', Ret i) -> i = meta db t).
Context (stmt : SelectStmt) (pt : Env -> BoolFactorTerm -> option bool) (holds : SelectStmt -> Env -> bool) (Hsql : sql_ok stmt pt holds).
Context (Hcov : covered stmt = true) (Hknown : known stmt = true).

Definition partitioned : Prop := exists tr i, tr ∈ refs_of stmt /\ meta_of tr = Some i /\ is_match i = false.
Definition unpartitioned : Prop := forall tr, tr ∈ refs_of stmt -> meta_of tr = None.

(** What a graph is, *)
Lemma built b b' g : b_heap b = ∅ -> graph_of_stmt addr get stmt b = Ret (b', g) ->
  exists pos, graph_ok (refs_of stmt) (selected stmt holds) pos (b_heap b') g.
Proof.
  intros Hb Hr. eapply (graph_of_stmt_ok addr Haddr (refs_of stmt) (selected stmt holds) pt) with (get := get) (stmt := stmt) (b := b); try done.
  - by apply refs_inj.
  - intros rho tr [_ Hs]. apply Hs.
  - intros rho l r c1 c2 t1 t2 [Hs _]. by apply (sql_equal _ _ _ Hsql).
  - intros rho p a c0 c1 c2 c3 t1 t2 [Hs _]. by apply (sql_separation _ _ _ Hsql).
  - intros rho [Hs _]. by apply (sql_conditions _ _ _ Hsql).
Qed.

(** and one that is accepted *)
Lemma accepted fuel b b' g : b_heap b = ∅ -> RelationGraph_ctor addr get fuel stmt b = Ret (b', g) ->
  exists pos h0, graph_ok (refs_of stmt) (selected stmt holds) pos h0 g /\ same_shape h0 (b_heap b') /\
    (partitioned -> exists s, start_of h0 (g_vertices g) s /\
       forall u x, b_heap b' !! u = Some x -> path h0 s u (v_overlap x) /\ d_isinf (v_overlap x) = false).
Proof.
  intros Hb Hr. unfold RelationGraph_ctor in Hr. apply bind_ret_inv in Hr as ([b1 g1] & Hr1 & Hr). apply bind_ret_inv in Hr as ([h ok] & Hr2 & Hr).
  destruct ok; [|done]. injection Hr as <- <-. simpl. destruct (built b b1 g1 Hb Hr1) as [pos Hg].
  pose proof (h_closed _ _ _ _ _ Hg) as Hc. pose proof (h_fresh _ _ _ _ _ Hg) as Hf. pose proof (h_covers _ _ _ _ _ Hg) as Hv. pose proof Hf as [Hu _].
  exists pos, (b_heap b1). split; [done|].
  destruct (try_starts_accepts fuel (b_heap b1) (g_vertices g1) Hc Hf Hv (g_vertices g1) 0 (b_heap b1) h ltac:(done) ltac:(done) Hu Hr2) as [Hs Hacc].
  split; [done|]. intros (tr & i & Hin & Hm & Hno). destruct Hacc as [Hacc|[_ Hom]]; [done|]. exfalso.
  destruct (gr_all _ _ _ _ _ Hg tr i Hin Hm) as [v Hn]. apply nodes_lookup_inv in Hn as (x & Hx & [= _ ->]).
  specialize (Hom v x ltac:(apply Hv; eauto) Hx). congruence.
Qed.

(** The templates and the part of the query that each one is *)
Lemma parallel_form fuel b b' g out m pos h0 : RelationGraph_ctor addr get fuel stmt b = Ret (b', g) -> rewrite g (b_heap b') stmt (mkMapping ∅ ∅) = Ret (out, m) ->
  graph_ok (refs_of stmt) (selected stmt holds) pos h0 g -> same_shape h0 (b_heap b') -> partitioned ->
  (forall s, start_of h0 (g_vertices g) s -> (forall u x, b_heap b' !! u = Some x -> path h0 s u (v_overlap x) /\ d_isinf (v_overlap x) = false) ->
  exists ps, hasSubChunks m = subs g (b_heap b') /\
    in_parallel holds out m = flat_map (fun kp => filter (fun w =>
        forallb (fun x => present (mode_of g (b_heap b') (subs g (b_heap b')) kp.2 x.1) kp.1 x.1 x.2) (zip (refs_of stmt) w) = true) (direct holds stmt)) (list_prod (jobs m) ps) /\
    ps = (if subs g (b_heap b') then perms (vertices_of g (b_heap b')) else [0%N]) /\
    NoDup (list_prod (jobs m) ps) /\ jobs m = (if subs g (b_heap b') then cells else map (fun c => (c, 0)) (remove_dups (map fst cells)))).
Proof.
  intros Hr Hrw Hg Hs (tr & i & Hin & Hm & _) s Hst Hsum. set (h := b_heap b') in *. set (sub := subs g h).
  assert (He : g_empty g = false).
  { destruct (gr_all _ _ _ _ _ Hg tr i Hin Hm) as [v Hn]. apply nodes_lookup_inv in Hn as (x & Hx & _). unfold g_empty. destruct (g_vertices g) eqn:Ev; [|done].
    assert (Hv : v ∈ g_vertices g) by (apply (gr_vertices _ _ _ _ _ Hg); eauto). rewrite Ev in Hv. by apply elem_of_nil in Hv. }
  set (ps := if sub then perms (vertices_of g h) else [0%N]). exists ps.
  assert (Hform : hasSubChunks m = sub /\ (sub = false -> hasChunks m = true) /\ out = map (fun p => stmt_rename (names_for g h sub p) stmt) ps).
  { unfold ps, sub, subs, names_for. destruct (rewrite_spec g h stmt out m He Hrw) as [(Eo & -> & Hsub & Hch)|(Eo & Hsub & ->)].
    - rewrite bool_decide_eq_true_2 by done. simpl. auto.
    - rewrite bool_decide_eq_false_2 by done. simpl. by split_and!. }
  destruct Hform as (Hsub & Hch & Hout). split; [done|].
  assert (Hj : jobs m = if sub then cells else map (fun c => (c, 0)) (remove_dups (map fst cells))).
  { unfold jobs. rewrite Hsub. destruct sub; [done|]. by rewrite Hch. }
  assert (Hnd : NoDup (jobs m)).
  { rewrite Hj. destruct sub; [apply cells_distinct|]. apply NoDup_fmap_2; [intros ? ? [= ?]; done|apply NoDup_remove_dups]. }
  assert (Hnp : NoDup ps).
  { unfold ps. destruct sub; [|apply NoDup_singleton]. unfold perms. apply NoDup_fmap_2; [intros ? ? ?; lia|apply NoDup_seq]. }
  split; [|split; [done|split; [|done]]].
  - unfold in_parallel. rewrite Hout.
    etrans; [|exact (flat_map_pairs (fun k p => filter (fun w => forallb (fun x => present (mode_of g h sub p x.1) k x.1 x.2) (zip (refs_of stmt) w) = true) (direct holds stmt)) (jobs m) ps)].
    apply flat_map_ext. intros k. rewrite !flat_map_concat_map, map_map. f_equal. apply map_ext. intros p.
    apply (select_template stmt pt holds Hsql (names_for g h sub p) (fun tr r => present (mode_of g h sub p tr) k tr r)).
    intros tr' Hin'. by eapply (stored_mode stmt (selected stmt holds) pos h0 g Hg Hcov Hknown s h Hs Hst Hsum).
  - by apply NoDup_pairs.
Qed.

(** The job and the template of a joined row *)
Lemma home_in m pos h0 g h s : jobs m = (if subs g h then cells else map (fun c => (c, 0)) (remove_dups (map fst cells))) -> forall rho,
  (home_job pos h0 g s h rho, home_bits pos h0 g s h rho) ∈ list_prod (jobs m) (if subs g h then perms (vertices_of g h) else [0%N]).
Proof.
  intros -> rho. apply elem_of_pairs. unfold home_job, home_bits. destruct (subs g h).
  - split; [apply cells_all|]. set (l := map _ (overlap_refs (vertices_of g h))). pose proof (bits_bound l) as Hb. apply list_elem_of_fmap. exists (N.to_nat (bits l)).
    split; [by rewrite N2Nat.id|]. apply elem_of_seq. assert (El : length l = length (overlap_refs (vertices_of g h))) by apply length_map. rewrite <-El.
    assert (E : N.of_nat (2 ^ length l) = (2 ^ N.of_nat (length l))%N) by (by rewrite Nat2N.inj_pow). lia.
  - split; [|set_solver]. apply list_elem_of_fmap. exists (home pos h0 s rho).1. split; [done|]. apply elem_of_remove_dups, list_elem_of_fmap.
    exists (home pos h0 s rho). split; [done|apply cells_all].
Qed.

(** Tables that are not partitioned *)
Lemma whole_query fuel b b' g out m : b_heap b = ∅ -> unpartitioned -> RelationGraph_ctor addr get fuel stmt b = Ret (b', g) ->
  rewrite g (b_heap b') stmt (mkMapping ∅ ∅) = Ret (out, m) -> in_parallel holds out m = direct holds stmt.
Proof.
  intros Hb Hun Hr Hrw. destruct (accepted fuel b b' g Hb Hr) as (pos & h0 & Hg & _ & _).
  assert (He : g_empty g = true).
  { unfold g_empty. destruct (g_vertices g) as [|v vs] eqn:Ev; [done|]. exfalso. assert (Hv : v ∈ g_vertices g) by (rewrite Ev; set_solver).
    apply (gr_vertices _ _ _ _ _ Hg) in Hv as [x Hx]. apply nodes_lookup in Hx.
    destruct (n_ref _ _ _ _ (h_nodes _ _ _ _ _ Hg) v _ Hx) as (_ & (tr & Hin & _ & Hm) & _). by rewrite (Hun tr Hin) in Hm. }
  unfold rewrite in Hrw. rewrite He in Hrw. injection Hrw as <- <-. unfold in_parallel.
  assert (jobs (mkMapping ∅ ∅) = [(0, 0)]) as -> by done. cbn [flat_map]. rewrite !app_nil_r.
  unfold direct, select. f_equal. f_equal. apply map_ext_in. intros tr Hin%list_elem_of_In. unfold table_of. apply stored_plain; [|by apply Hun].
  unfold known in Hknown. rewrite forallb_forall in Hknown. by apply Hknown, list_elem_of_In.
Qed.


End main.
