(* ===== verification/RelationGraphDemo.v ===== *)
(** * A small sky

    Positions on a line, four chunks of four sub-chunks, two director tables, a
    child and a match table: an instance of the interfaces of
    [RelationGraphSem.v], on which the theorems of [RelationGraphThms.v] and
    [RelationGraphVal.v] are applied, and on which queries are evaluated that
    the analysis gets wrong. *)

From Stdlib Require Import Ascii String SpecFloat.
From S2P Require Import Prelude.
From S2P Require Import StdString.
From S2P Require Import Double.
From S2P Require Import StdFloat.
From S2P Require Import QueryIr.
From S2P Require Import TableInfo.
From S2P Require Import RelationGraph.
From S2P Require Import RelationGraphVal.
From S2P Require Import RelationGraphSem.
From S2P Require Import RelationGraphInv.
From S2P Require Import RelationGraphThms.

Local Open Scope Z_scope.

(** ** Positions

    The unit is [2 ^ -10] degrees; distances are cut off where doubles are no
    longer exact. *)

Definition far : Z := 2 ^ 52.
Definition dist (p q : Z) : Z := Z.min (Z.abs (p - q)) far.
Definition unit_value : Z := 2 ^ 1064.

(** Sixteen intervals of 256 units; the first and the last have no end. *)
Definition interval (p : Z) : Z := Z.max 0 (Z.min 15 (p / 256)).
Definition gap (c q : Z) : Z :=
  Z.max 0 (Z.max (if c =? 0 then 0 else 256 * c - q) (if c =? 15 then 0 else q - (256 * c + 255))).

#[export] Instance line : Sky := {|
  Pos := Z;
  near a p q := d_nonneg a /\ dist p q * unit_value <= dval a;
  cell n p := (interval p / 4, interval p mod 4);
  in_overlap n o k q := Z.min (gap (4 * k.1 + k.2) q) far * unit_value <=? dval o;
|}.

Lemma unit_pos : 0 < unit_value.
Proof. by vm_compute. Qed.

Lemma dist_nonneg p q : 0 <= dist p q <= far.
Proof. unfold dist. assert (0 < far) by done. lia. Qed.

Lemma near_line_trans a b p q r : d_nonneg a -> d_nonneg b -> near a p q -> near b q r -> near (d_add a b) p r.
Proof.
  intros Ha Hb [_ H1] [_ H2]. destruct (d_add_value a b Ha Hb) as [Hn E]. split; [done|]. rewrite E. apply Z.min_glb.
  - transitivity (rnd (dist p r * unit_value)).
    + unfold unit_value. rewrite rnd_scaled; [lia|lia|]. pose proof (dist_nonneg p r). assert (far < 2 ^ 53) by done. lia.
    + apply rnd_mono. pose proof unit_pos. pose proof (dist_nonneg p r). split; [nia|].
      assert (dist p r <= dist p q + dist q r) by (unfold dist; lia). nia.
  - transitivity (far * unit_value); [pose proof (dist_nonneg p r); pose proof unit_pos; nia|]. apply Z.leb_le. by vm_compute.
Qed.

Lemma gap_interval p q : gap (interval p) q <= Z.abs (p - q).
Proof.
  unfold gap, interval. pose proof (Z.div_mod p 256 ltac:(done)) as E. pose proof (Z.mod_pos_bound p 256 ltac:(done)) as B.
  destruct (Z.eqb_spec (Z.max 0 (Z.min 15 (p / 256))) 0), (Z.eqb_spec (Z.max 0 (Z.min 15 (p / 256))) 15); lia.
Qed.

#[export] Instance line_laws : SkyLaws line.
Proof.
  split.
  - intros p. split; [done|]. unfold dist. rewrite Z.sub_diag. done.
  - intros a p q [Ha H]. split; [done|]. unfold dist in *. replace (q - p) with (- (p - q)) by lia. by rewrite Z.abs_opp.
  - intros a p q [Ha H] Hz. rewrite d_leb_value, Z.leb_le in Hz by done. change (dval d_zero) with 0 in Hz. pose proof unit_pos. pose proof (dist_nonneg p q).
    assert (dist p q = 0) by nia. unfold dist in *. assert (0 < far) by done. simpl in *. lia.
  - intros a b p q r. apply near_line_trans.
  - intros n a o p q Hno [Ha H] Ho Hne. unfold in_overlap, line. apply Z.leb_le. simpl.
    rewrite <-Z.div_mod by done. transitivity (dist p q * unit_value).
    + pose proof unit_pos. pose proof (gap_interval p q). unfold dist. nia.
    + transitivity (dval a); [done|]. by rewrite d_leb_value, Z.leb_le in Ho.
Qed.

(** ** Tables *)

Definition num (s : string) : double := default d_zero (strtod s).
Definition Obj : DirTableInfo := mkDirTableInfo "LSST" "Object" "objectId" "ra" "decl" 1 (num "0.25").
Definition Ref : DirTableInfo := mkDirTableInfo "LSST" "Ref" "refId" "ra" "decl" 1 (num "0.25").
Definition Source : TableInfo := CHILD "LSST" "Source" Obj "objectId".
Definition Match : TableInfo := MATCH "LSST" "Match" Obj Ref "objId" "refObjId" (num "0.25").
Definition tables : list TableInfo := [DIRECTOR Obj; DIRECTOR Ref; Source; Match].
Definition table_key (i : TableInfo) : string * string := (ti_database i, ti_table i).
Definition find_table (key : TableInfo -> string * string) (n : string * string) : option TableInfo := find (fun i => bool_decide (key i = n)) tables.

(** A row with two columns; the others are 0. *)
Definition row (c : string) (x : Z) (c' : string) (y : Z) : string -> Z :=
  fun d => if bool_decide (d = c) then x else if bool_decide (d = c') then y else 0.
Definition objects : list (Z * Z) := [(1, 100); (2, 250); (3, 260); (4, 2000); (5, 1020); (6, 1030)].
Definition references : list (Z * Z) := [(1, 105); (2, 1010); (3, 1030)].
Definition object_of (l : list (Z * Z)) (k : Z) : Z := default 0 (snd <$> find (fun o => o.1 =? k) l).

Definition demo_rows (db t : string) : list (string -> Z) :=
  match find_table table_key (db, t) with
  | Some (DIRECTOR d) => map (fun o => row (di_pk d) o.1 (di_lon d) o.2) (if bool_decide (di_table d = "Object"%string) then objects else references)
  | Some (CHILD _ _ _ fk) => map (fun o => row fk o.1 "flux" o.2) [(1, 7); (1, 8); (2, 9); (5, 10); (6, 11)]
  | Some (MATCH _ _ _ _ fk1 fk2 _) => map (fun o => row fk1 o.1 fk2 o.2) [(1, 1); (5, 3); (6, 2)]
  | None => [row "filterId" 1 "x" 0; row "filterId" 2 "x" 0]
  end.

(** The tables without their parts *)
Definition base : Catalog := {|
  Value := Z; value0 := 0;
  meta db t := find_table table_key (db, t);
  is_table db t := true;
  rows := demo_rows;
  point lon lat := lon;
  located db t k := object_of (if bool_decide (t = "Object"%string) then objects else references) k;
  stored k n := [];
  cells := [];
|}.

Definition demo_stored (k : Z * Z) (n : string * string) : list (string -> Z) :=
  match find_table chunkNames n with
  | Some i => filter (fun r => @in_chunk line base i k r = true) (demo_rows (ti_database i) (ti_table i))
  | None =>
      match find_table subChunkNames n with
      | Some i => filter (fun r => @in_subchunk line base i k r = true) (demo_rows (ti_database i) (ti_table i))
      | None =>
          match find_table overlapNames n with
          | Some (DIRECTOR d) => filter (fun r => @in_overlap_table line base d k r = true) (demo_rows (di_database d) (di_table d))
          | _ => demo_rows n.1 n.2
          end
      end
  end.

#[export] Instance catalog : Catalog := {|
  Value := Z; value0 := 0;
  meta db t := find_table table_key (db, t);
  is_table db t := bool_decide (t ∈ ["Object"; "Ref"; "Source"; "Match"; "Filter"]%string);
  rows := demo_rows;
  point lon lat := lon;
  located db t k := object_of (if bool_decide (t = "Object"%string) then objects else references) k;
  stored := demo_stored;
  cells := list_prod [0; 1; 2; 3] [0; 1; 2; 3];
|}.

Lemma find_table_in key n i : find_table key n = Some i -> i ∈ tables /\ key i = n.
Proof. unfold find_table. intros [H1 H2%bool_decide_eq_true]%find_some. split; [by apply list_elem_of_In|done]. Qed.

Lemma tables_cases (Q : TableInfo -> Prop) : Q (DIRECTOR Obj) -> Q (DIRECTOR Ref) -> Q Source -> Q Match -> forall i, i ∈ tables -> Q i.
Proof. intros H1 H2 H3 H4 i. unfold tables. rewrite !elem_of_cons, elem_of_nil. intros [->|[->|[->|[->|[]]]]]; done. Qed.

Lemma find_chunk i : i ∈ tables -> find_table chunkNames (chunkNames i) = Some i.
Proof. revert i. apply tables_cases; by vm_compute. Qed.
Lemma find_subchunk i : i ∈ tables -> find_table chunkNames (subChunkNames i) = None /\ find_table subChunkNames (subChunkNames i) = Some i.
Proof. revert i. apply tables_cases; by vm_compute. Qed.
Lemma find_overlap i : i ∈ tables ->
  find_table chunkNames (overlapNames i) = None /\ find_table subChunkNames (overlapNames i) = None /\ find_table overlapNames (overlapNames i) = Some i.
Proof. revert i. apply tables_cases; by vm_compute. Qed.

Lemma interval_cells p : (interval p / 4, interval p mod 4) ∈ list_prod [0; 1; 2; 3] [0; 1; 2; 3].
Proof.
  assert (H : interval p ∈ map Z.of_nat (seq 0 16)).
  { apply list_elem_of_fmap. exists (Z.to_nat (interval p)). rewrite elem_of_seq. unfold interval. lia. }
  apply elem_of_pairs. revert H. generalize (interval p). intros z Hz. simpl in Hz. rewrite !elem_of_cons, elem_of_nil in Hz.
  repeat destruct Hz as [->|Hz]; try done; split; apply (bool_decide_eq_true_1 _); by vm_compute.
Qed.

Lemma find_plain key db t : (forall i, i ∈ tables -> (key i).2 <> t) -> find_table key (db, t) = None.
Proof.
  intros H. destruct (find_table key (db, t)) as [i|] eqn:E; [|done]. apply find_table_in in E as [Hi E]. exfalso. apply (H i Hi). by rewrite E.
Qed.

Lemma plain_names t i : t ∈ ["Object"; "Ref"; "Source"; "Match"; "Filter"]%string -> i ∈ tables ->
  (chunkNames i).2 <> t /\ (subChunkNames i).2 <> t /\ (overlapNames i).2 <> t.
Proof.
  intros Ht. revert i. apply tables_cases; rewrite !elem_of_cons, elem_of_nil in Ht; destruct Ht as [->|[->|[->|[->|[->|[]]]]]]; by vm_compute.
Qed.

#[export] Instance catalog_laws : CatalogLaws.
Proof.
  split.
  - intros db t i [_ [= ? ?]]%find_table_in. done.
  - intros db t i d [Hi _]%find_table_in Hd. revert i Hi d Hd. apply (tables_cases (fun i => forall d, d ∈ directors i -> _));
      intros d; simpl; rewrite ?elem_of_cons, ?elem_of_nil; intros Hd; repeat destruct Hd as [->|Hd]; try done; by vm_compute.
  - intros db t d [Hi _]%find_table_in. unfold tables in Hi. rewrite !elem_of_cons, elem_of_nil in Hi.
    destruct Hi as [[= ->]|[[= ->]|[[=]|[[=]|[]]]]]; by vm_compute.
  - intros db t db' t' d1 d2 fk1 fk2 a [Hi _]%find_table_in. unfold tables in Hi. rewrite !elem_of_cons, elem_of_nil in Hi.
    destruct Hi as [[=]|[[=]|[[=]|[[= -> -> -> -> -> -> ->]|[]]]]]. split_and!; try done; by vm_compute.
  - intros db t d r Hm Hr. simpl in Hm. unfold rows in Hr. simpl in Hr. unfold demo_rows in Hr. rewrite Hm in Hr. apply find_table_in in Hm as [Hi _].
    unfold tables in Hi. rewrite !elem_of_cons, elem_of_nil in Hi.
    destruct Hi as [[= ->]|[[= ->]|[[=]|[[=]|[]]]]]; simpl in Hr; rewrite ?elem_of_cons, elem_of_nil in Hr; repeat destruct Hr as [->|Hr]; try done; by vm_compute.
  - intros db t db' t' d1 d2 fk1 fk2 a r Hm Hr. simpl in Hm. unfold rows in Hr. simpl in Hr. unfold demo_rows in Hr. rewrite Hm in Hr. apply find_table_in in Hm as [Hi _].
    unfold tables in Hi. rewrite !elem_of_cons, elem_of_nil in Hi.
    destruct Hi as [[=]|[[=]|[[=]|[[= -> -> -> -> -> -> ->]|[]]]]]; simpl in Hr; rewrite ?elem_of_cons, elem_of_nil in Hr; repeat destruct Hr as [->|Hr]; try done;
      (split; [by vm_compute|apply Z.leb_le; by vm_compute]).
  - intros db t k Ht%bool_decide_eq_true _. simpl. unfold demo_stored. by rewrite !find_plain by (intros i Hi; by apply (plain_names t i)).
  - intros db t i k [Hi [= <- <-]]%find_table_in. simpl. unfold demo_stored. by rewrite find_chunk.
  - intros db t d k [Hi [= <- <-]]%find_table_in. simpl. unfold demo_stored. destruct (find_subchunk _ Hi) as [-> ->]. done.
  - intros db t d k [Hi [= <- <-]]%find_table_in. simpl. unfold demo_stored. destruct (find_overlap _ Hi) as (-> & -> & ->). done.
  - apply (bool_decide_eq_true_1 _). by vm_compute.
  - intros n p. apply interval_cells.
Qed.

(** ** SQL for queries without joins, all of whose references have aliases *)

Section sql.
Context (refs : list TableRef).

Definition value_of (rho : Env) (c : ColumnRef) : option Z :=
  if bool_decide (cr_table c = ""%string) then None
  else match find (fun tr => bool_decide (tr_alias tr = cr_table c)) refs with Some tr => Some (rho (tr_addr tr) (cr_column c)) | None => None end.
Definition arg_value (rho : Env) (e : ValueExpr) : option Z := getColumnRef e ≫= value_of rho.
Definition literal (e : ValueExpr) : option double := match getFactorOps e with [(CONST v, _)] => strtod v | _ => None end.
Definition compare_separation (rho : Env) (l r : ValueExpr) (f : Z -> double -> bool) : option bool :=
  match getAngSepFunc l with
  | Some [e0; e1; e2; e3] => p0 ← arg_value rho e0; p2 ← arg_value rho e2; a ← literal r; Some (f (dist p0 p2 * unit_value) a)
  | _ => None
  end.
Definition demo_pt (rho : Env) (p : BoolFactorTerm) : option bool :=
  match p with
  | CompPredicate l EQUALS_OP r => a ← arg_value rho l; b ← arg_value rho r; Some (a =? b)
  | CompPredicate l LESS_THAN_OP r => compare_separation rho l r (fun d a => d_nonnegb a && (d <? dval a))
  | CompPredicate l NOT_EQUALS_OP r => compare_separation rho l r (fun d a => negb (d_nonnegb a && (d =? dval a)))
  | _ => None
  end.
Definition demo_holds (s : SelectStmt) (rho : Env) : bool :=
  match ss_where s with Some w => bool_decide (truth (demo_pt rho) w = Some true) | None => true end.
End sql.

Definition simple (s : SelectStmt) : bool :=
  forallb (fun tr => isSimple tr && bool_decide (tr_alias tr <> ""%string)) (ss_fromList s) && bool_decide (NoDup (map tr_alias (ss_fromList s))).

Lemma simple_refs s : simple s = true -> refs_of s = ss_fromList s.
Proof.
  unfold simple, refs_of. intros [H _]%andb_true_iff. induction (ss_fromList s) as [|[a db t al [|]] l IH]; simpl in *; try done. apply andb_true_iff in H as [_ H]. by rewrite IH.
Qed.

Lemma find_alias (l : list TableRef) t : NoDup (map tr_alias l) -> t ∈ l -> find (fun tr => bool_decide (tr_alias tr = tr_alias t)) l = Some t.
Proof.
  induction l as [|x l IH]; intros Hnd Hin; [by apply elem_of_nil in Hin|]. simpl in *. apply NoDup_cons in Hnd as [Hx Hnd].
  case_bool_decide as E.
  - apply elem_of_cons in Hin as [->|Hin]; [done|]. exfalso. apply Hx. rewrite E. by apply list_elem_of_fmap_2.
  - apply elem_of_cons in Hin as [->|Hin]; [done|]. by apply IH.
Qed.

Lemma value_refers s rho t c v : simple s = true -> t ∈ refs_of s -> refers t c -> value_of (refs_of s) rho c = Some v -> v = rho (tr_addr t) (cr_column c).
Proof.
  intros Hs Hin (i & _ & _ & Hn). rewrite (simple_refs s Hs) in *. unfold simple in Hs. apply andb_true_iff in Hs as [Ha Hnd%bool_decide_eq_true].
  rewrite forallb_forall in Ha. specialize (Ha t ltac:(by apply list_elem_of_In)). apply andb_true_iff in Ha as [_ Ha].
  unfold named, appendColumnRefs in Hn. rewrite Ha in Hn. unfold value_of. case_bool_decide; [by apply elem_of_nil in Hn|].
  rewrite !elem_of_cons, elem_of_nil in Hn. destruct Hn as [E|[E|[]]]; rewrite E; cbn [cr_table cr_column]; [done|].
  apply bool_decide_eq_true in Ha. rewrite bool_decide_eq_false_2 by done. rewrite (find_alias _ t Hnd Hin). by intros [= <-].
Qed.

Lemma demo_sql_ok s : simple s = true -> sql_ok s (demo_pt (refs_of s)) (demo_holds (refs_of s)).
Proof.
  intros Hs. split.
  - intros f s' rho. done.
  - intros rho Hh. split.
    + unfold simple in Hs. apply andb_true_iff in Hs as [Ha _]. rewrite forallb_forall in Ha. apply Forall_forall. intros tr Hin.
      specialize (Ha tr ltac:(by apply list_elem_of_In)). apply andb_true_iff in Ha as [Ha _]. by destruct tr as [? ? ? ? []].
    + intros w Hw. unfold demo_holds in Hh. rewrite Hw in Hh. by apply bool_decide_eq_true in Hh.
  - intros rho l r c1 c2 t1 t2 _ Hp Hl Hr H1 H2 R1 R2. simpl in Hp. unfold arg_value in Hp. rewrite Hl, Hr in Hp. simpl in Hp.
    destruct (value_of _ rho c1) as [a|] eqn:E1; [|done]. destruct (value_of _ rho c2) as [b|] eqn:E2; [|done]. simpl in Hp. injection Hp as Hp%Z.eqb_eq.
    by rewrite <-(value_refers s rho t1 c1 a Hs H1 R1 E1), <-(value_refers s rho t2 c2 b Hs H2 R2 E2).
  - intros rho p a c0 c1 c2 c3 t1 t2 _ Hp Hb H1 H2 R0 R1 R2 R3.
    assert (Hcols : forall e, is_separation e c0 c1 c2 c3 -> arg_value (refs_of s) rho e = None).
    { intros e (o & p0 & p1 & p2 & p3 & E & _). unfold arg_value, getColumnRef. by rewrite E. }
    destruct Hb as [l op r Hop Hsep Hlit|l op r Hop Hsep Hlit].
    + destruct op; try done; simpl in Hp;
        try (exfalso; rewrite !elem_of_cons, elem_of_nil in Hop; by repeat destruct Hop as [Hop|Hop]); [by rewrite (Hcols l Hsep) in Hp|].
      unfold compare_separation in Hp. destruct Hsep as (o & p0 & p1 & p2 & p3 & E & G0 & G1 & G2 & G3).
      unfold getAngSepFunc in Hp. rewrite E in Hp. simpl in Hp. unfold arg_value in Hp. rewrite G0, G2 in Hp. simpl in Hp.
      destruct (value_of _ rho c0) as [x|] eqn:E0; [|done]. destruct (value_of _ rho c2) as [y|] eqn:E2; [|done]. simpl in Hp.
      destruct Hlit as (o' & v & El & Ev). unfold literal in Hp. rewrite El, Ev in Hp. simpl in Hp. injection Hp as [Hnn Hlt]%andb_true_iff.
      rewrite (value_refers s rho t1 c0 x Hs H1 R0 E0) in Hlt. rewrite (value_refers s rho t2 c2 y Hs H2 R2 E2) in Hlt. apply Z.ltb_lt in Hlt. split; [|simpl; lia].
      destruct a as [|[]| |[] ? ?]; simpl in *; try done.
    + destruct op; try done; simpl in Hp; try (exfalso; rewrite !elem_of_cons, elem_of_nil in Hop; by repeat destruct Hop as [Hop|Hop]).
      rewrite (Hcols r Hsep) in Hp. by destruct (arg_value _ _ l).
Qed.

(** ** Queries *)

Definition col (t c : string) : ValueExpr := newSimple (COLUMNREF (mkColumnRef "" t c)).
Definition compare (l : ValueExpr) (op : OpType) (r : ValueExpr) : BoolTerm := BoolFactor [CompPredicate l op r] false.
Definition equal_columns (t c t' c' : string) : BoolTerm := compare (col t c) EQUALS_OP (col t' c').
Definition separation (t t' : string) : ValueExpr :=
  newSimple (FUNCTION "scisql_angSep" [col t "ra"; col t "decl"; col t' "ra"; col t' "decl"]).
Definition separated (t : string) (op : OpType) (t' n : string) : BoolTerm := compare (separation t t') op (newSimple (CONST n)).
Definition negated (t : BoolTerm) : BoolTerm := match t with BoolFactor fs _ => BoolFactor fs true | _ => t end.
Definition table (n : nat) (t alias : string) : TableRef := mkTableRef n "LSST" t alias [].
Definition query (from : list TableRef) (conds : list BoolTerm) : SelectStmt :=
  mkSelectStmt [newSimple (STAR "")] from (Some (OrTerm [AndTerm conds])) [] [] [].

Definition demo_get (db t : string) (p : unit) : unit * outcome (option TableInfo) := (p, Ret (meta db t)).
Definition start : Builder (Pool := unit) := mkBuilder tt ∅.
Definition analyse (fuel : nat) (s : SelectStmt) := RelationGraph_ctor Z.of_nat demo_get fuel s start.

(** How many rows the query has, and how many its templates have *)
Definition rows_found (fuel : nat) (s : SelectStmt) : outcome (nat * nat) :=
  let? (b, g) := analyse fuel s in
  let? (out, m) := rewrite g (b_heap b) s (mkMapping ∅ ∅) in
  Ret (length (direct (demo_holds (refs_of s)) s), length (in_parallel (demo_holds (refs_of s)) out m)).

(** Neighbours of objects, with the sources of one of them *)
Definition neighbours : SelectStmt :=
  query [table 0 "Object" "o1"; table 1 "Object" "o2"; table 2 "Filter" "f"; table 3 "Source" "s"]
    [separated "o1" LESS_THAN_OP "o2" "0.1"; equal_columns "o1" "objectId" "s" "objectId"].

Definition get_of {A} (d : A) (o : outcome A) : A := match o with Ret a => a | Raise _ => d end.
Definition no_graph : Builder (Pool := unit) * RelationGraph := (start, empty_graph).
Definition no_templates : list SelectStmt * QueryMapping := ([], mkMapping ∅ ∅).
Definition graph_of (s : SelectStmt) : Builder * RelationGraph := get_of no_graph (analyse 20 s).
Definition templates_of (s : SelectStmt) : list SelectStmt * QueryMapping :=
  get_of no_templates (rewrite (graph_of s).2 (b_heap (graph_of s).1) s (mkMapping ∅ ∅)).

Lemma of_nat_inj : Inj eq eq Z.of_nat.
Proof. intros x y. lia. Qed.

Lemma get_demo db t (p p' : unit) i : demo_get db t p = (p', Ret i) -> i = meta db t.
Proof. unfold demo_get. by intros [= _ <-]. Qed.

Definition in_query (s : SelectStmt) (p : list SelectStmt * QueryMapping) : list (list (string -> Z)) := in_parallel (demo_holds (refs_of s)) p.1 p.2.



Definition built_graph : Builder * RelationGraph := get_of no_graph (graph_of_stmt Z.of_nat demo_get neighbours start).

Lemma built_ok : exists pos, graph_ok (refs_of neighbours) (selected neighbours (demo_holds (refs_of neighbours))) pos (b_heap built_graph.1) built_graph.2.
Proof.
  eapply (built Z.of_nat of_nat_inj demo_get get_demo neighbours (demo_pt (refs_of neighbours)) _ (demo_sql_ok neighbours ltac:(by vm_compute)) ltac:(by vm_compute) start); [done|by vm_compute].
Qed.


(** ** Queries that the analysis gets wrong *)

(** A reference to a child table, joined to a director table through a match table:
    both templates are evaluated for every sub-chunk, the child and the match table
    are read by chunk, and no director table without overlap picks one sub-chunk,
    so rows are found more than once. *)
Lemma child_match_duplicates :
  rows_found 20 (query [table 0 "Source" "s"; table 1 "Match" "m"; table 2 "Ref" "r"]
    [equal_columns "s" "objectId" "m" "objId"; equal_columns "m" "refObjId" "r" "refId"]) = Ret (4, 6)%nat.
Proof. by vm_compute. Qed.

(** Positions that are not at a given separation are taken for close ones. *)
Lemma unequal_separation_loses_rows :
  rows_found 20 (query [table 0 "Object" "o1"; table 1 "Object" "o2"] [separated "o1" NOT_EQUALS_OP "o2" "0.1"]) = Ret (36, 14)%nat.
Proof. by vm_compute. Qed.

(** [NOT] in front of a join condition is not seen. *)
Lemma negated_condition_loses_rows :
  rows_found 20 (query [table 0 "Object" "o"; table 1 "Source" "s"] [negated (equal_columns "o" "objectId" "s" "objectId")]) = Ret (25, 13)%nat.
Proof. by vm_compute. Qed.

(** A negative bound on a separation: every round of the loop makes the required
    overlaps of both vertices smaller. *)
Lemma negative_separation_loops : analyse 1000 (query [table 0 "Object" "o1"; table 1 "Object" "o2"] [separated "o1" LESS_THAN_OP "o2" "-1"]) = Raise OutOfFuel.
Proof. by vm_compute. Qed.
