(* ===== verification/QueryPlugins.v ===== *)
(** * Plugins of query analysis

    [qana/WherePlugin]: the conjuncts of a [WHERE] clause are reduced, and mean
    what they meant.  [qana/MatchTablePlugin]: the condition that is added to a
    query on a match table, and that with it every match is selected in exactly
    one chunk.  [qana/AggregatePlugin] with [query/AggOp]: the select lists of the
    parallel and of the merge statement, and that aggregation in two phases is
    aggregation.

    The values of SQL are exact rational numbers here, [None] is [NULL]; sums of
    floating-point columns are rounded in another order than without chunks. *)

From Stdlib Require Import Ascii String QArith Qcanon.
From S2P Require Import Prelude.
From S2P Require Import StdString.
From S2P Require Import KvInterface.
From S2P Require Import PropertyTree.
From S2P Require Import CssAccess.
From S2P Require Import QueryIr.
From S2P Require Import RelationGraphThms.

Local Open Scope Z_scope.

Definition set_where (w : option BoolTerm) (s : SelectStmt) : SelectStmt :=
  mkSelectStmt (ss_selectList s) (ss_fromList s) w (ss_groupBy s) (ss_having s) (ss_orderBy s).

(** ** [WherePlugin] *)

Definition reduce_or_keep (t : BoolTerm) : BoolTerm := default t (getReduced t).
Definition where_applyLogical (s : SelectStmt) : SelectStmt :=
  match getRootAndTerm (ss_where s) with
  | Some ts => set_where (Some (OrTerm [AndTerm (map reduce_or_keep ts)])) s
  | None => s
  end.

(** The truth of a [WHERE] clause *)
Definition where_truth (pt : BoolFactorTerm -> option bool) (s : SelectStmt) : option bool :=
  match ss_where s with Some w => truth pt w | None => Some true end.

Lemma reduce_truth pt t : reducible t = true -> truth pt (reduce_or_keep t) = truth pt t.
Proof.
  intros Hr. unfold reduce_or_keep. destruct (getReduced t) as [r|] eqn:E; [|done]. by destruct (getReduced_truth pt t r Hr E).
Qed.

(** C38. Reduction of the conjuncts of a [WHERE] clause does not change what the
    clause selects, when every factor is one term in parentheses and no factor
    that is taken apart is negated. *)
Theorem where_plugin_truth pt s : (forall ts t, getRootAndTerm (ss_where s) = Some ts -> t ∈ ts -> reducible t = true) ->
  where_truth pt (where_applyLogical s) = where_truth pt s.
Proof.
  intros H. unfold where_applyLogical, where_truth. destruct (getRootAndTerm (ss_where s)) as [ts|] eqn:Er; [|done].
  unfold getRootAndTerm in Er. destruct (ss_where s) as [[|[|[us| | |] [|]]| |]|] eqn:Ew; try done. injection Er as ->. cbn [set_where ss_where truth foldr].
  f_equal. assert (Hall : Forall (fun t => reducible t = true) ts) by (apply Forall_forall; intros t; by apply H). clear -Hall.
  induction Hall as [|t ts Ht _ IH]; [done|]. cbn [map foldr]. by rewrite (reduce_truth pt t Ht), IH.
Qed.

(** A clause with parentheses around a predicate *)
Definition paren_where : SelectStmt :=
  mkSelectStmt [] [] (Some (OrTerm [AndTerm [BoolFactor [PassTerm "("; some_predicate; PassTerm ")"] true; OrTerm [BoolFactor [some_predicate] false]]])) [] [] [].

Lemma where_plugin_truth_witness : (forall v, where_truth (fun _ => v) (where_applyLogical paren_where) = where_truth (fun _ => v) paren_where) /\
  ss_where (where_applyLogical paren_where) = Some (OrTerm [AndTerm [BoolFactor [some_predicate] true; BoolFactor [some_predicate] false]]).
Proof.
  split; [|done]. intros v. apply where_plugin_truth. intros ts t [= <-]. rewrite !elem_of_cons, elem_of_nil. by intros [->|[->|[]]].
Defined.

(** ** [MatchTablePlugin] *)

Definition column (c : string) : ValueExpr := newSimple (COLUMNREF (mkColumnRef "" "" c)).
Definition first_is_null (mt : MatchTableParams) : BoolFactorTerm := NullPredicate (column (mp_dirColName1 mt)) false.
Definition flag_is_not_2 (mt : MatchTableParams) : BoolFactorTerm := CompPredicate (column (mp_flagColName mt)) NOT_EQUALS_OP (newSimple (CONST "2")).
Definition match_filter (mt : MatchTableParams) : BoolTerm :=
  BoolFactor [PassTerm "("; BoolTermFactor (Some (OrTerm [BoolFactor [first_is_null mt] false; BoolFactor [flag_is_not_2 mt] false])); PassTerm ")"] false.
Definition add_match_filter (mt : MatchTableParams) (s : SelectStmt) : outcome SelectStmt :=
  if isMatchTable mt then let? w := prependAndTerm (match_filter mt) (ss_where s) in Ret (set_where (Some w) s) else Ret s.

Definition match_applyLogical {St : Type} `{KvInterface St} `{PropertyTree} (s : SelectStmt) (c : CssAccess St) : CssAccess St * outcome SelectStmt :=
  if isJoin (ss_fromList s) then (c, Ret s)
  else
    match ss_fromList s with
    | [] => (c, Raise UndefinedBehaviour)
    | t :: _ =>
        let '(c', r) := getMatchTableParams (tr_db t) (tr_table t) c in
        (c', match r with inl _ => Raise RuntimeError | inr mt => add_match_filter mt s end)
    end.

(** The chunks of the two objects of a match, where it has them; the flags that
    the partitioner gives to the row in a chunk *)
Record MatchRow := mkMatchRow { mr_first : option Z; mr_second : option Z }.
Definition mr_in (c : Z) (r : MatchRow) : bool := bool_decide (mr_first r = Some c) || bool_decide (mr_second r = Some c).
Definition mr_flags (c : Z) (r : MatchRow) : Z :=
  (if bool_decide (mr_first r = Some c) then 1 else 0) + (if bool_decide (mr_second r = Some c) then 2 else 0).
Definition mr_chunks (r : MatchRow) : list Z := option_list (mr_first r) ++ option_list (mr_second r).

Lemma prepend_truth pt t root w : (forall ts, t <> AndTerm ts) -> root <> Some (OrTerm []) -> prependAndTerm t root = Ret w ->
  truth pt w = k_and (truth pt t) (match root with Some r => truth pt r | None => Some true end).
Proof.
  intros Ht Hroot Hr. unfold prependAndTerm in Hr. apply bind_ret_inv in Hr as (ts & Hts & Hr).
  assert (E : w = OrTerm [AndTerm (t :: ts)]) by (destruct t; simpl in Hr; try congruence; by destruct (Ht terms)). rewrite E. cbn [truth foldr].
  rewrite k_or_false. f_equal. destruct root as [[|[|[us| | |] [|]]| |]|]; try done; injection Hts as <-; [|done]. cbn [truth foldr]. by rewrite k_or_false.
Qed.

Section matches.
Context (mt : MatchTableParams) (pt : MatchRow -> Z -> BoolFactorTerm -> option bool).
(** What SQL says about the columns of the row: [IS NULL] on the first reference,
    comparison of the flags with a number *)
Context (pt_null : forall r c hasNot,
  pt r c (NullPredicate (newSimple (COLUMNREF (mkColumnRef "" "" (mp_dirColName1 mt)))) hasNot) = Some (xorb hasNot (bool_decide (mr_first r = None)))).
Context (pt_flag : forall r c n,
  pt r c (CompPredicate (newSimple (COLUMNREF (mkColumnRef "" "" (mp_flagColName mt)))) NOT_EQUALS_OP (newSimple (CONST (to_string n)))) =
  Some (negb (mr_flags c r =? n))).

Definition kept (c : Z) (r : MatchRow) : bool := bool_decide (mr_first r = None) || negb (mr_flags c r =? 2).

Lemma match_filter_truth r c : truth (pt r c) (match_filter mt) = Some (kept c r).
Proof. cbn. unfold first_is_null, flag_is_not_2, column. change "2"%string with (to_string 2). rewrite pt_null, pt_flag. unfold kept.
  rewrite !(bool_decide_eq_true_2 (_ = _ :> string)) by done. by destruct (bool_decide _), (_ =? _). Qed.

(** The chunk in which a match is kept *)
Lemma kept_once chunks r : NoDup chunks -> mr_chunks r <> [] -> (forall c, c ∈ mr_chunks r -> c ∈ chunks) ->
  exists c, filter (fun c => mr_in c r && kept c r = true) chunks = [c].
Proof.
  intros Hnd Hne Hin. destruct r as [[a|] [b|]]; unfold mr_chunks in *; simpl in *; try done.
  - exists a. apply (filter_unique (fun c => mr_in c (mkMatchRow (Some a) (Some b)) && kept c (mkMatchRow (Some a) (Some b)))); [done|apply Hin; set_solver| |].
    + unfold mr_in, kept, mr_flags. simpl. rewrite (bool_decide_eq_true_2 (Some a = Some a)) by done. by destruct (bool_decide (Some b = Some a)).
    + intros c _. unfold mr_in, kept, mr_flags. simpl. repeat case_bool_decide; simpl; try done; congruence.
  - exists a. apply (filter_unique (fun c => mr_in c (mkMatchRow (Some a) None) && kept c (mkMatchRow (Some a) None))); [done|apply Hin; set_solver| |].
    + unfold mr_in, kept, mr_flags. simpl. by rewrite (bool_decide_eq_true_2 (Some a = Some a)).
    + intros c _. unfold mr_in, kept, mr_flags. simpl. repeat case_bool_decide; simpl; try done; congruence.
  - exists b. apply (filter_unique (fun c => mr_in c (mkMatchRow None (Some b)) && kept c (mkMatchRow None (Some b)))); [done|apply Hin; set_solver| |].
    + unfold mr_in, kept, mr_flags. simpl. by rewrite (bool_decide_eq_true_2 (Some b = Some b)).
    + intros c _. unfold mr_in, kept, mr_flags. simpl. repeat case_bool_decide; simpl; try done; congruence.
Qed.

(** C15. A query on a match table returns every match once: the copies of a row
    that the partitioner made in the chunks of both objects are filtered, so the
    rows that the new condition selects in all chunks are those that the old
    condition selects. *)
Theorem match_query_once s s' rows chunks : isMatchTable mt = true -> ss_where s <> Some (OrTerm []) -> add_match_filter mt s = Ret s' ->
  NoDup chunks -> (forall r, r ∈ rows -> mr_chunks r <> [] /\ forall c, c ∈ mr_chunks r -> c ∈ chunks) ->
  (forall r c c', where_truth (pt r c) s = where_truth (pt r c') s) ->
  flat_map (fun c => filter (fun r => mr_in c r && bool_decide (where_truth (pt r c) s' = Some true) = true) rows) chunks
  ≡ₚ filter (fun r => where_truth (pt r 0) s = Some true) rows.
Proof.
  intros Hm Hw Hr Hnd Hrows Hind. unfold add_match_filter in Hr. rewrite Hm in Hr. apply bind_ret_inv in Hr as (w & Hw' & Hr). injection Hr as <-.
  rewrite <-(flat_map_filter_once (fun c r => mr_in c r && kept c r) chunks (filter _ rows)).
  - match goal with |- ?a ≡ₚ ?b => assert (E : a = b); [|by rewrite E] end. apply flat_map_ext. intros c. rewrite list_filter_filter. apply list_filter_iff. intros r.
    assert (Hk : where_truth (pt r c) (set_where (Some w) s) = k_and (Some (kept c r)) (where_truth (pt r c) s)).
    { rewrite <-match_filter_truth. unfold where_truth. cbn [set_where ss_where]. by apply prepend_truth. }
    rewrite Hk, (Hind r 0 c). case_bool_decide as E; destruct (mr_in c r), (kept c r), (where_truth (pt r c) s) as [[]|]; simpl in *; naive_solver.
  - intros r [_ Hr]%list_elem_of_filter. destruct (Hrows r Hr) as [H1 H2]. by apply kept_once.
Qed.
End matches.

Definition demo_params : MatchTableParams := mkMatch "Object" "objId" "Ref" "refObjId" "flag" Double.d_zero.
Definition match_stmt : SelectStmt := mkSelectStmt [] [mkTableRef 0 "LSST" "Match" "" []] None [] [] [].
Definition match_pt (r : MatchRow) (c : Z) (p : BoolFactorTerm) : option bool :=
  match p with
  | NullPredicate _ hasNot => Some (xorb hasNot (bool_decide (mr_first r = None)))
  | CompPredicate _ NOT_EQUALS_OP e => Some (negb (bool_decide (to_string (mr_flags c r) = copyAsLiteral e)))
  | _ => None
  end.
Definition match_rows : list MatchRow := [mkMatchRow (Some 1) (Some 2); mkMatchRow None (Some 2); mkMatchRow (Some 2) (Some 2); mkMatchRow (Some 3) None].
Definition filtered_stmt : SelectStmt := match add_match_filter demo_params match_stmt with Ret s => s | Raise _ => match_stmt end.

Lemma match_query_once_witness :
  flat_map (fun c => filter (fun r => mr_in c r && bool_decide (where_truth (match_pt r c) filtered_stmt = Some true) = true) match_rows) [1; 2; 3]
  ≡ₚ filter (fun r => where_truth (match_pt r 0) match_stmt = Some true) match_rows.
Proof.
  apply (match_query_once demo_params match_pt); [done| |done|done|done| | |done].
  - intros r c n. unfold match_pt. cbn [copyAsLiteral getFactorOps newSimple]. case_bool_decide as E.
    + apply to_string_inj in E as ->. by rewrite Z.eqb_refl.
    + rewrite (proj2 (Z.eqb_neq (mr_flags c r) n)); [done|]. by intros <-.
  - apply (bool_decide_eq_true_1 _). by vm_compute.
  - intros r Hr. unfold match_rows in Hr. rewrite !elem_of_cons, elem_of_nil in Hr.
    destruct Hr as [->|[->|[->|[->|[]]]]]; (split; [done|]); intros c; unfold mr_chunks; simpl; set_solver.
Defined.

(** ** [AggOp] *)

Record Mgr := mkMgr { mgr_seq : Z; mgr_hasAggregate : bool }.
Inductive AggKind := COUNT | AVG | MAX | MIN | SUM.

Definition toupper (a : ascii) : ascii := if (97 <=? code a) && (code a <=? 122) then ascii_of_N (Z.to_N (code a - 32)) else a.
Fixpoint upper_string (s : string) : string := match s with EmptyString => EmptyString | String a s' => String (toupper a) (upper_string s') end.

(** [getOp], with the map that the constructor of [Mgr] fills *)
Definition getOp (name : string) : option AggKind :=
  match name with
  | "COUNT" => Some COUNT | "AVG" => Some AVG | "MAX" => Some MAX | "MIN" => Some MIN | "SUM" => Some SUM
  | _ => None
  end%string.
Definition kind_name (k : AggKind) : string :=
  match k with COUNT => "COUNT" | AVG => "AVG" | MAX => "MAX" | MIN => "MIN" | SUM => "SUM" end.

(** [getAggName] *)
Definition agg_name (n : Z) (name : string) : string := "QS" +:+ to_string n +:+ "_" +:+ name.
Definition getAggName (name : string) (m : Mgr) : string * Mgr :=
  let n := mgr_seq m + 1 in (agg_name n name, mkMgr n (mgr_hasAggregate m)).

Definition with_alias (a : string) (e : ValueExpr) : ValueExpr := mkValueExpr a (getFactorOps e).
Definition newArg1 (name arg : string) : ValueFactor := FUNCTION name [column arg].

(** [CountAggOp], [AccumulateOp], [AvgAggOp] on the call [name(params)]: the
    expressions for the workers and the factor for merging *)
Definition apply_kind (k : AggKind) (name : string) (params : list ValueExpr) (m : Mgr) : list ValueExpr * ValueFactor * Mgr :=
  match k with
  | AVG =>
      let '(cAlias, m) := getAggName "COUNT" m in
      let '(sAlias, m) := getAggName "SUM" m in
      ([with_alias cAlias (newSimple (FUNCTION "COUNT" params)); with_alias sAlias (newSimple (FUNCTION "SUM" params))],
       EXPR (mkValueExpr "" [(newArg1 "SUM" sAlias, DIVIDE); (newArg1 "SUM" cAlias, NONE)]), m)
  | _ =>
      let '(interName, m) := getAggName (kind_name k) m in
      ([with_alias interName (newSimple (AGGFUNC name params))],
       newArg1 (match k with COUNT => "SUM" | _ => kind_name k end) interName, m)
  end.
Definition applyOp (name : string) (params : list ValueExpr) (m : Mgr) : outcome (list ValueExpr * ValueFactor * Mgr) :=
  match getOp (upper_string name) with
  | None => Raise InvalidArgument
  | Some k => Ret (apply_kind k name params (mkMgr (mgr_seq m) true))
  end.

(** ** [AggregatePlugin] *)

Record Lists := mkLists { l_parallel : list ValueExpr; l_merge : list ValueExpr; l_mgr : Mgr }.
Definition push_parallel (es : list ValueExpr) (m : Mgr) (l : Lists) : Lists := mkLists (l_parallel l ++ es) (l_merge l) m.
Definition push_merge (e : ValueExpr) (l : Lists) : Lists := mkLists (l_parallel l) (l_merge l ++ [e]) (l_mgr l).

(** One factor of an expression with aggregation; [acc] are the factors of the merge expression. *)
Definition convert_factor (st : Lists * list (ValueFactor * Op)) (fo : ValueFactor * Op) : outcome (Lists * list (ValueFactor * Op)) :=
  let '(l, acc) := st in
  match fo.1 with
  | AGGFUNC name params =>
      let? (par, mer, m) := applyOp name params (l_mgr l) in
      Ret (push_parallel par m l, acc ++ [(mer, fo.2)])
  | f => Ret (push_parallel [newSimple f] (l_mgr l) l, acc)
  end.

(** [_makeRecord] *)
Definition makeRecord (l : Lists) (e : ValueExpr) : outcome Lists :=
  let origAlias := ve_alias e in
  if negb (hasAggregation e) then
    let '(interName, m) :=
      if bool_decide (origAlias = ""%string) && negb (isStar e) && negb (isColumnRef e) then getAggName "PASS" (l_mgr l) else (origAlias, l_mgr l) in
    let l := push_parallel [with_alias interName e] m l in
    if bool_decide (interName <> ""%string) then Ret (push_merge (with_alias origAlias (column interName)) l)
    else Ret (push_merge e l)
  else
    let? (l, factors) := foldM convert_factor (l, []) (getFactorOps e) in
    Ret (push_merge (mkValueExpr origAlias factors) l).

(** [applyPhysical] *)
Record Plan := mkPlan {
  pl_original : SelectStmt; pl_distinct : bool; pl_hasLimit : bool;
  pl_parallel : list SelectStmt; pl_merge : SelectStmt; pl_needsMerge : bool }.

Definition set_selectList (es : list ValueExpr) (s : SelectStmt) : SelectStmt :=
  mkSelectStmt es (ss_fromList s) (ss_where s) (ss_groupBy s) (ss_having s) (ss_orderBy s).
Definition clear_orderBy (s : SelectStmt) : SelectStmt :=
  mkSelectStmt (ss_selectList s) (ss_fromList s) (ss_where s) (ss_groupBy s) (ss_having s) [].

Definition aggregate_applyPhysical (p : Plan) : outcome Plan :=
  match pl_parallel p with
  | [] => Raise UndefinedBehaviour
  | _ =>
      let? l := foldM makeRecord (mkLists [] [] (mkMgr 0 false)) (ss_selectList (pl_original p)) in
      let needsMerge := pl_needsMerge p || pl_distinct p || mgr_hasAggregate (l_mgr l) in
      let strip := if needsMerge && negb (pl_hasLimit p) then clear_orderBy else id in
      Ret (mkPlan (pl_original p) (pl_distinct p) (pl_hasLimit p) (map (fun s => set_selectList (l_parallel l) (strip s)) (pl_parallel p))
             (set_selectList (l_merge l) (pl_merge p)) needsMerge)
  end.

(** ** Aggregation in SQL *)

Abbreviation Values := (string -> option Qc).

(** A function of all values that are not [NULL]; [NULL] when there are none *)
Definition fold1 (f : Qc -> Qc -> Qc) (l : list Qc) : option Qc :=
  foldr (fun x a => Some (match a with Some y => f x y | None => x end)) None l.
Definition q_of_nat (n : nat) : Qc := Q2Qc (inject_Z (Z.of_nat n)).
Definition q_div (a b : option Qc) : option Qc :=
  match a, b with Some x, Some y => if decide (y = 0%Qc) then None else Some (x / y)%Qc | _, _ => None end.
Definition q_min (x y : Qc) : Qc := if decide (x <= y)%Qc then x else y.
Definition q_max (x y : Qc) : Qc := if decide (x <= y)%Qc then y else x.

Section sql.
(** The values of expressions in a row, and of operands with operators between them *)
Context (ev : Values -> ValueExpr -> option Qc) (combine : list (option Qc * Op) -> option Qc).

Definition values_of (rows : list Values) (e : ValueExpr) : list Qc := omap (fun r => ev r e) rows.
Definition count_of (rows : list Values) (e : ValueExpr) : nat := if isStar e then length rows else length (values_of rows e).
Definition agg (k : AggKind) (params : list ValueExpr) (rows : list Values) : option Qc :=
  match params with
  | [e] =>
      match k with
      | COUNT => Some (q_of_nat (count_of rows e))
      | SUM => fold1 Qcplus (values_of rows e)
      | MIN => fold1 q_min (values_of rows e)
      | MAX => fold1 q_max (values_of rows e)
      | AVG => q_div (fold1 Qcplus (values_of rows e)) (Some (q_of_nat (length (values_of rows e))))
      end
  | _ => None
  end.

(** The value of a factor, and of an expression, for all rows of a group *)
Fixpoint factor_value (rows : list Values) (f : ValueFactor) : option Qc :=
  match f with
  | AGGFUNC name ps | FUNCTION name ps => match getOp (upper_string name) with Some k => agg k ps rows | None => None end
  | EXPR (mkValueExpr _ fs) => combine (map (fun fo => (factor_value rows (fst fo), snd fo)) fs)
  | _ => None
  end.
Definition expr_value (rows : list Values) (e : ValueExpr) : option Qc := combine (map (fun fo => (factor_value rows fo.1, fo.2)) (getFactorOps e)).

(** The row that a worker returns *)
Definition result_row (es : list ValueExpr) (rows : list Values) : Values :=
  fun c => match find (fun e => bool_decide (ve_alias e = c)) es with Some e => expr_value rows e | None => None end.
End sql.

(** ** Folds of folds *)

Lemma fold1_app f l k : (forall x y z, f x (f y z) = f (f x y) z) ->
  fold1 f (l ++ k) = match fold1 f l, fold1 f k with Some x, Some y => Some (f x y) | Some x, None => Some x | None, a => a end.
Proof.
  intros Hf. induction l as [|x l IH]; simpl; [done|]. fold (fold1 f (l ++ k)) (fold1 f l). rewrite IH. destruct (fold1 f l), (fold1 f k); simpl; by rewrite ?Hf.
Qed.

Lemma fold1_concat f (ls : list (list Qc)) : (forall x y z, f x (f y z) = f (f x y) z) -> fold1 f (omap (fold1 f) ls) = fold1 f (concat ls).
Proof.
  intros Hf. induction ls as [|l ls IH]; [done|]. cbn [concat]. rewrite fold1_app by done. rewrite <-IH. simpl. destruct (fold1 f l) as [x|]; simpl; [|done].
  change (list_omap (list Qc) Qc (fold1 f) ls) with (omap (fold1 f) ls). by destruct (fold1 f (omap (fold1 f) ls)).
Qed.

Lemma fold1_perm f l k : (forall x y z, f x (f y z) = f (f x y) z) -> (forall x y, f x y = f y x) -> l ≡ₚ k -> fold1 f l = fold1 f k.
Proof.
  intros Ha Hc Hp. induction Hp as [|x l k _ IH|x y l|l k m _ IH1 _ IH2]; simpl; [done| | |congruence].
  - fold (fold1 f l) (fold1 f k). by rewrite IH.
  - fold (fold1 f l). f_equal. destruct (fold1 f l) as [z|]; [by rewrite Ha, (Hc y x), <-Ha|apply Hc].
Qed.

Lemma fold1_count (f : list Values -> nat) parts : parts <> [] -> fold1 Qcplus (map (fun p => q_of_nat (f p)) parts) = Some (q_of_nat (sum_list_with f parts)).
Proof.
  intros Hne. induction parts as [|p parts IH]; [done|]. simpl. destruct parts as [|p' parts]; [simpl; by rewrite Nat.add_0_r|].
  fold (fold1 Qcplus (map (fun p => q_of_nat (f p)) (p' :: parts))). rewrite IH by done. f_equal. unfold q_of_nat.
  rewrite Nat2Z.inj_add, inject_Z_plus. apply Qc_is_canon. simpl. by rewrite !Qred_correct.
Qed.

Lemma q_total x y : (~ x <= y -> y <= x)%Qc.
Proof. intros H. apply Qclt_le_weak. by apply Qcnot_le_lt. Qed.

(** Cases by the order of the numbers *)
Ltac q_cases :=
  repeat case_decide; repeat match goal with H : ~ (_ <= _)%Qc |- _ => apply q_total in H end;
  try done; try (apply Qcle_antisym; [eauto using Qcle_trans|eauto using Qcle_trans]).

Lemma q_min_assoc x y z : q_min x (q_min y z) = q_min (q_min x y) z.
Proof. unfold q_min. q_cases. Qed.
Lemma q_min_comm x y : q_min x y = q_min y x.
Proof. unfold q_min. q_cases. Qed.
Lemma q_max_assoc x y z : q_max x (q_max y z) = q_max (q_max x y) z.
Proof. unfold q_max. q_cases. Qed.
Lemma q_max_comm x y : q_max x y = q_max y x.
Proof. unfold q_max. q_cases. Qed.

(** ** Names of intermediate columns *)

Lemma agg_name_inj k k' n n' : 0 <= k -> 0 <= k' -> agg_name k n = agg_name k' n' -> k = k'.
Proof.
  intros Hk Hk' E. unfold agg_name in E. apply append_inv_head in E. rewrite !to_string_pos in E by done.
  pose proof (f_equal (fun s => (read_digits 0 s).1) E) as E'. cbv beta in E'.
  rewrite (read_digits_app 0 (show_nat k)), (read_digits_app 0 (show_nat k')), !show_nat_read in E' by (done || by apply show_nat_digits). exact E'.
Qed.

(** An alias that is not one of them *)
Definition unlike (a : string) : Prop := forall k n, a <> agg_name k n.
Definition old (l : Lists) : Prop := 0 <= mgr_seq (l_mgr l) /\ forall e k n, e ∈ l_parallel l -> mgr_seq (l_mgr l) < k -> ve_alias e <> agg_name k n.

Lemma find_app {A} (f : A -> bool) l k : find f (l ++ k) = match find f l with Some x => Some x | None => find f k end.
Proof. induction l as [|x l IH]; simpl; [done|]. by destruct (f x). Qed.

Lemma find_old l k n later : old l -> mgr_seq (l_mgr l) < k ->
  find (fun e => bool_decide (ve_alias e = agg_name k n)) (l_parallel l ++ later) = find (fun e => bool_decide (ve_alias e = agg_name k n)) later.
Proof.
  intros [_ Ho] Hk. rewrite find_app. destruct (find _ (l_parallel l)) as [e|] eqn:E; [|done]. apply find_some in E as [Hin Ha%bool_decide_eq_true].
  exfalso. apply (Ho e k n); [by apply list_elem_of_In|done|done].
Qed.

Lemma old_push l es m : old l -> mgr_seq (l_mgr l) <= mgr_seq m ->
  (forall e k n, e ∈ es -> mgr_seq m < k -> ve_alias e <> agg_name k n) -> old (push_parallel es m l).
Proof.
  intros [H0 Ho] Hm He. split; simpl; [lia|]. intros e k n [Hin|Hin]%elem_of_app Hk; [|by apply He]. apply Ho; [done|lia].
Qed.

Lemma agg_name_new m k n n' : 0 <= mgr_seq m -> forall j, j <= mgr_seq m -> 0 <= j -> mgr_seq m < k -> agg_name j n <> agg_name k n'.
Proof. intros H0 j Hj Hj0 Hk E. apply agg_name_inj in E; lia. Qed.

Lemma apply_old l k name ps par mer m' : old l -> apply_kind k name ps (mkMgr (mgr_seq (l_mgr l)) true) = (par, mer, m') ->
  old (push_parallel par m' l) /\
  forall p later, p ∈ par -> find (fun x => bool_decide (ve_alias x = ve_alias p)) ((l_parallel l ++ par) ++ later) = Some p.
Proof.
  intros Ho Happ. pose proof Ho as [H0 _]. set (n := mgr_seq (l_mgr l)) in *.
  assert (Hone : forall e nm, old (push_parallel [with_alias (agg_name (n + 1) nm) e] (mkMgr (n + 1) true) l) /\
    forall p later, p ∈ [with_alias (agg_name (n + 1) nm) e] ->
      find (fun x => bool_decide (ve_alias x = ve_alias p)) ((l_parallel l ++ [with_alias (agg_name (n + 1) nm) e]) ++ later) = Some p).
  { intros e nm. split.
    - apply old_push; [done|simpl; lia|]. intros x k' n' ->%list_elem_of_singleton Hk. simpl in *. intros E. apply agg_name_inj in E; lia.
    - intros p later ->%list_elem_of_singleton. rewrite <-app_assoc. cbn [ve_alias with_alias]. rewrite find_old by (done || fold n; lia). simpl. by rewrite bool_decide_eq_true_2. }
  destruct k; unfold apply_kind, getAggName in Happ; cbn [mgr_seq mgr_hasAggregate] in Happ; injection Happ as <- _ <-; try apply Hone. clear Hone. split.
  - apply old_push; [done|simpl; fold n; lia|]. intros x k' n'. rewrite !elem_of_cons, elem_of_nil. simpl. intros [->|[->|[]]] Hk E; simpl in E; apply agg_name_inj in E; lia.
  - intros p later. rewrite !elem_of_cons, elem_of_nil, <-app_assoc. intros [->|[->|[]]]; cbn [ve_alias with_alias]; rewrite find_old by (done || fold n; lia); simpl.
    + by rewrite bool_decide_eq_true_2.
    + rewrite bool_decide_eq_false_2 by (intros E; apply agg_name_inj in E; lia). by rewrite bool_decide_eq_true_2.
Qed.

Lemma unlike_empty : unlike "".
Proof. by intros k n. Qed.

(** Conversion only adds expressions. *)
Lemma convert_grows fs : forall l acc l' acc', old l -> foldM convert_factor (l, acc) fs = Ret (l', acc') ->
  old l' /\ l_merge l' = l_merge l /\ exists more, l_parallel l' = l_parallel l ++ more.
Proof.
  induction fs as [|fo fs IH]; intros l acc l' acc' Ho Hr; simpl in Hr.
  { injection Hr as <- _. split; [done|]. split; [done|]. exists []. by rewrite app_nil_r. }
  apply bind_ret_inv in Hr as ([l1 acc1] & Hr1 & Hr).
  assert (H1 : old l1 /\ l_merge l1 = l_merge l /\ exists more, l_parallel l1 = l_parallel l ++ more).
  { unfold convert_factor in Hr1. destruct fo.1 as [c|name ps|name ps|t|v|e].
    1,2,4,5,6: injection Hr1 as <- _; (split; [apply old_push; [done|done|]; intros x k n ->%list_elem_of_singleton _; apply unlike_empty|split; [done|by eexists]]).
    unfold applyOp in Hr1. destruct (getOp _) as [k|]; [|done]. simpl in Hr1. destruct (apply_kind _ _ _ _) as [[par mer] m'] eqn:E. injection Hr1 as <- _.
    split; [by eapply apply_old|]. split; [done|by eexists]. }
  destruct H1 as (Ho1 & Hm1 & more1 & Hp1). destruct (IH l1 acc1 l' acc' Ho1 Hr) as (Ho' & Hm' & more & Hp).
  split; [done|]. split; [congruence|]. exists (more1 ++ more). by rewrite Hp, Hp1, app_assoc.
Qed.

Lemma makeRecord_grows l e l' : old l -> unlike (ve_alias e) -> makeRecord l e = Ret l' ->
  old l' /\ exists more me, l_parallel l' = l_parallel l ++ more /\ l_merge l' = l_merge l ++ [me].
Proof.
  intros Ho Hun Hr. unfold makeRecord in Hr. destruct (negb (hasAggregation e)).
  - match type of Hr with (let '(_, _) := ?t in _) = _ => destruct t as [nm m] eqn:E end. assert (Hnew : old (push_parallel [with_alias nm e] m l)).
    { destruct (bool_decide _ && _ && _) eqn:Ec in E; [unfold getAggName in E|]; injection E as <- <-; apply old_push; simpl; try done; try lia; intros x k n ->%list_elem_of_singleton Hk; simpl.
      - pose proof Ho as [H0 _]. intros Ea. apply agg_name_inj in Ea; lia.
      - apply Hun. }
    destruct (bool_decide (nm <> ""%string)); injection Hr as <-; (split; [exact Hnew|]); by do 2 eexists.
  - apply bind_ret_inv in Hr as ([l1 fs] & Hr1 & Hr). injection Hr as <-. destruct (convert_grows _ _ _ _ _ Ho Hr1) as (H1 & H2 & more & H3).
    split; [exact H1|]. exists more. eexists. simpl. by rewrite H2.
Qed.

(** ** Two phases *)

Section two_phase.
Context (ev : Values -> ValueExpr -> option Qc) (combine : list (option Qc * Op) -> option Qc).
Context (ev_column : forall r c, ev r (column c) = r c).
Context (combine_single : forall a, combine [(a, NONE)] = a).
Context (combine_divide : forall a b, combine [(a, DIVIDE); (b, NONE)] = q_div a b).
Abbreviation factor := (factor_value ev combine).
Abbreviation expr := (expr_value ev combine).
Definition results (ps : list ValueExpr) (parts : list (list Values)) : list Values := map (result_row ev combine ps) parts.

Lemma values_results ps parts c e : find (fun e => bool_decide (ve_alias e = c)) ps = Some e ->
  values_of ev (results ps parts) (column c) = omap (fun p => expr p e) parts.
Proof.
  intros Hf. unfold values_of, results. induction parts as [|p parts IH]; [done|]. cbn [map omap list_omap]. rewrite ev_column. unfold result_row at 1. rewrite Hf.
  change (list_omap Values Qc) with (@omap list _ Values Qc). rewrite IH. done.
Qed.

Lemma values_concat parts e : values_of ev (concat parts) e = concat (map (fun p => values_of ev p e) parts).
Proof. unfold values_of. induction parts as [|p parts IH]; simpl; [done|]. by rewrite omap_app, IH. Qed.

Lemma count_concat parts e : count_of ev (concat parts) e = sum_list_with (fun p => count_of ev p e) parts.
Proof.
  unfold count_of. destruct (isStar e).
  - induction parts as [|p parts IH]; simpl; [done|]. by rewrite length_app, IH.
  - induction parts as [|p parts IH]; simpl; [done|]. unfold values_of in *. by rewrite omap_app, length_app, IH.
Qed.

Lemma expr_simple rows a f : expr rows (with_alias a (newSimple f)) = factor rows f.
Proof. unfold expr_value. simpl. apply combine_single. Qed.

(** A function that is the same in both phases *)
Lemma fold_results f ps parts c e p : (forall x y z, f x (f y z) = f (f x y) z) -> find (fun e => bool_decide (ve_alias e = c)) ps = Some p ->
  (forall rows, expr rows p = fold1 f (values_of ev rows e)) ->
  fold1 f (values_of ev (results ps parts) (column c)) = fold1 f (values_of ev (concat parts) e).
Proof.
  intros Hf Hp He. rewrite (values_results ps parts c p Hp), values_concat, <-fold1_concat by done. f_equal.
  clear Hp. induction parts as [|q parts IH]; [done|]. cbn [map omap list_omap]. rewrite He. destruct (fold1 f (values_of ev q e)); [f_equal|]; exact IH.
Qed.

Lemma count_results ps parts c e p : parts <> [] -> find (fun e => bool_decide (ve_alias e = c)) ps = Some p ->
  (forall rows, expr rows p = Some (q_of_nat (count_of ev rows e))) ->
  fold1 Qcplus (values_of ev (results ps parts) (column c)) = Some (q_of_nat (count_of ev (concat parts) e)).
Proof.
  intros Hne Hp He. rewrite (values_results ps parts c p Hp), count_concat, <-fold1_count by done. f_equal.
  clear Hp Hne. induction parts as [|q parts IH]; [done|]. cbn [map omap list_omap]. rewrite He. f_equal. exact IH.
Qed.

(** The calls that can be split: one argument, and no average of [*] *)
Definition splittable (k : AggKind) (e : ValueExpr) : bool := match k with AVG => negb (isStar e) | _ => true end.

Lemma kind_two_phase k name e m par mer m' ps parts : parts <> [] -> getOp (upper_string name) = Some k -> splittable k e = true ->
  apply_kind k name [e] m = (par, mer, m') -> (forall p, p ∈ par -> find (fun x => bool_decide (ve_alias x = ve_alias p)) ps = Some p) ->
  factor (results ps parts) mer = factor (concat parts) (AGGFUNC name [e]).
Proof.
  intros Hne Hop Hsp Happ Hfind. cbn [factor_value]. rewrite Hop.
  destruct k; unfold apply_kind, getAggName in Happ; injection Happ as <- <- _; pose proof (Hfind _ (list_elem_of_here _ _)) as H1; cbn [ve_alias with_alias] in H1.
  - cbn [factor_value newArg1 agg]. change (getOp (upper_string "SUM")) with (Some SUM). cbn [agg].
    eapply count_results; [done|exact H1|]. intros rows. rewrite expr_simple. cbn [factor_value]. by rewrite Hop.
  - cbn [factor_value newArg1 agg map fst snd]. change (getOp (upper_string "SUM")) with (Some SUM). cbn [agg]. rewrite combine_divide. f_equal.
    + pose proof (Hfind _ (list_elem_of_further _ _ _ (list_elem_of_here _ _))) as H2. cbn [ve_alias with_alias] in H2.
      eapply fold_results; [intros; apply Qcplus_assoc|exact H2|]. intros rows. rewrite expr_simple. done.
    + erewrite count_results; [|done|exact H1|].
      * unfold count_of. simpl in Hsp. apply negb_true_iff in Hsp. by rewrite Hsp.
      * intros rows. rewrite expr_simple. done.
  - cbn [factor_value newArg1 agg kind_name]. change (getOp (upper_string "MAX")) with (Some MAX). cbn [agg].
    eapply fold_results; [apply q_max_assoc|exact H1|]. intros rows. rewrite expr_simple. cbn [factor_value]. by rewrite Hop.
  - cbn [factor_value newArg1 agg kind_name]. change (getOp (upper_string "MIN")) with (Some MIN). cbn [agg].
    eapply fold_results; [apply q_min_assoc|exact H1|]. intros rows. rewrite expr_simple. cbn [factor_value]. by rewrite Hop.
  - cbn [factor_value newArg1 agg kind_name]. change (getOp (upper_string "SUM")) with (Some SUM). cbn [agg].
    eapply fold_results; [intros; apply Qcplus_assoc|exact H1|]. intros rows. rewrite expr_simple. cbn [factor_value]. by rewrite Hop.
Qed.

(** What the rows of all parts give does not depend on their order. *)
Lemma agg_perm k ps rows rows' : rows ≡ₚ rows' -> agg ev k ps rows = agg ev k ps rows'.
Proof.
  intros Hp. unfold agg. destruct ps as [|e [|]]; try done.
  assert (Hv : values_of ev rows e ≡ₚ values_of ev rows' e).
  { unfold values_of. induction Hp as [|x l l' _ IH|x y l|l l' l'' _ IH1 _ IH2]; simpl; [done| | |by etrans].
    - destruct (ev x e); [by constructor|done].
    - destruct (ev x e), (ev y e); try done. constructor. }
  destruct k.
  - f_equal. f_equal. unfold count_of. destruct (isStar e); by apply Permutation_length.
  - rewrite (fold1_perm _ _ _ Qcplus_assoc Qcplus_comm Hv). by rewrite (Permutation_length Hv).
  - apply fold1_perm; [apply q_max_assoc|apply q_max_comm|done].
  - apply fold1_perm; [apply q_min_assoc|apply q_min_comm|done].
  - apply fold1_perm; [apply Qcplus_assoc|apply Qcplus_comm|done].
Qed.

Lemma expr_perm rows rows' e : (forall fo, fo ∈ getFactorOps e -> exists name ps, fo.1 = AGGFUNC name ps) -> rows ≡ₚ rows' -> expr rows e = expr rows' e.
Proof.
  intros Hf Hp. unfold expr_value. f_equal. apply map_ext_in. intros fo Hin. destruct (Hf fo ltac:(by apply list_elem_of_In)) as (name & ps & ->).
  cbn [factor_value]. destruct (getOp _); [|done]. by rewrite (agg_perm _ _ _ _ Hp).
Qed.

Definition pure_factor (fo : ValueFactor * Op) : bool :=
  match fo.1 with
  | AGGFUNC name [e] => match getOp (upper_string name) with Some k => splittable k e | None => false end
  | _ => false
  end.
(** An expression of calls that can be split *)
Definition pure_aggregate (e : ValueExpr) : bool := hasAggregation e && forallb pure_factor (getFactorOps e).

Lemma convert_values parts fs : parts <> [] -> forall l acc l' acc', old l -> forallb pure_factor fs = true -> foldM convert_factor (l, acc) fs = Ret (l', acc') ->
  exists new, acc' = acc ++ new /\ forall later,
    map (fun fo => (factor (results (l_parallel l' ++ later) parts) fo.1, fo.2)) new = map (fun fo => (factor (concat parts) fo.1, fo.2)) fs.
Proof.
  intros Hne. induction fs as [|[f o] fs IH]; intros l acc l' acc' Ho Hpure Hr; simpl in Hr.
  { injection Hr as <- <-. exists []. by rewrite app_nil_r. }
  apply bind_ret_inv in Hr as ([l1 acc1] & Hr1 & Hr). simpl in Hpure. apply andb_true_iff in Hpure as [Hpf Hpure].
  unfold pure_factor in Hpf. simpl in Hpf. destruct f as [|?|name ps| | |]; try done. destruct ps as [|e [|]]; try done.
  destruct (getOp (upper_string name)) as [k|] eqn:Hop; [|done].
  unfold convert_factor, applyOp in Hr1. cbn [fst snd] in Hr1. rewrite Hop in Hr1. cbn [bind] in Hr1.
  destruct (apply_kind _ _ _ _) as [[par mer] m'] eqn:Ek. injection Hr1 as <- <-.
  destruct (apply_old l k name [e] par mer m' Ho Ek) as [Ho1 Hfind].
  destruct (IH _ _ _ _ Ho1 Hpure Hr) as (new & -> & Hnew). destruct (convert_grows _ _ _ _ _ Ho1 Hr) as (_ & _ & more & Hp). simpl in Hp.
  exists ((mer, o) :: new). split; [by rewrite <-app_assoc|]. intros later. cbn [map fst snd]. rewrite Hnew. f_equal. f_equal.
  rewrite Hp, <-!app_assoc. rewrite app_assoc. refine (kind_two_phase k name e _ par mer m' _ parts Hne Hop Hpf Ek _). intros p Hpar. by apply Hfind.
Qed.

Lemma records_values parts : parts <> [] -> forall es l l', old l -> (forall e, e ∈ es -> unlike (ve_alias e)) -> foldM makeRecord l es = Ret l' ->
  (exists more, l_parallel l' = l_parallel l ++ more) /\
  exists mes, l_merge l' = l_merge l ++ mes /\ Forall2 (fun e me => pure_aggregate e = true -> ve_alias me = ve_alias e /\
    forall later, expr (results (l_parallel l' ++ later) parts) me = expr (concat parts) e) es mes.
Proof.
  intros Hne. induction es as [|e es IH]; intros l l' Ho Hun Hr; simpl in Hr.
  { injection Hr as <-. split; [exists []; by rewrite app_nil_r|]. exists []. rewrite app_nil_r. by split. }
  apply bind_ret_inv in Hr as (l1 & Hr1 & Hr). destruct (makeRecord_grows l e l1 Ho ltac:(apply Hun; set_solver) Hr1) as (Ho1 & more1 & me & Hp1 & Hm1).
  destruct (IH l1 l' Ho1 ltac:(intros; apply Hun; set_solver) Hr) as ((more & Hp) & mes & Hm & Hall).
  split; [exists (more1 ++ more); by rewrite Hp, Hp1, app_assoc|]. exists (me :: mes). split; [by rewrite Hm, Hm1, <-app_assoc|].
  constructor; [|done]. intros [Hagg Hpure]%andb_true_iff. unfold makeRecord in Hr1. rewrite Hagg in Hr1. simpl in Hr1.
  apply bind_ret_inv in Hr1 as ([l2 fs] & Hr2 & Hr1). injection Hr1 as <-. simpl in Hm1, Hp1, Hp.
  destruct (convert_grows _ _ _ _ _ Ho Hr2) as (_ & Hm2 & _). rewrite Hm2 in Hm1. apply (inj (app _)) in Hm1. injection Hm1 as <-.
  split; [done|]. intros later. destruct (convert_values parts _ Hne l [] l2 fs Ho Hpure Hr2) as (new & -> & Hnew). unfold expr_value. f_equal.
  rewrite Hp, <-app_assoc. apply Hnew.
Qed.
End two_phase.

(** C14. Aggregation in two phases is aggregation: for every select expression of
    calls of [COUNT], [SUM], [MIN], [MAX] and [AVG], the merge statement has an
    expression with the same alias in the same place, which computes from the rows
    that the workers return for their parts what the original expression computes
    from all rows. *)
Theorem aggregate_two_phase ev combine p p' rows parts i e :
  (forall r c, ev r (column c) = r c) -> (forall a, combine [(a, NONE)] = a) -> (forall a b, combine [(a, DIVIDE); (b, NONE)] = q_div a b) ->
  aggregate_applyPhysical p = Ret p' -> parts <> [] -> rows ≡ₚ concat parts ->
  (forall e, e ∈ ss_selectList (pl_original p) -> unlike (ve_alias e)) ->
  ss_selectList (pl_original p) !! i = Some e -> pure_aggregate e = true ->
  exists me, ss_selectList (pl_merge p') !! i = Some me /\ ve_alias me = ve_alias e /\
    forall s, s ∈ pl_parallel p' -> expr_value ev combine (map (result_row ev combine (ss_selectList s)) parts) me = expr_value ev combine rows e.
Proof.
  intros Hcol Hsingle Hdiv Hr Hne Hrows Hun He Hpure. unfold aggregate_applyPhysical in Hr. destruct (pl_parallel p) as [|s0 ss] eqn:Ep; [done|].
  apply bind_ret_inv in Hr as (l & Hl & Hr). injection Hr as <-.
  assert (Ho : old (mkLists [] [] (mkMgr 0 false))) by (split; [done|]; by intros ? ? ? ?%elem_of_nil).
  destruct (records_values ev combine Hcol Hsingle Hdiv parts Hne _ _ _ Ho Hun Hl) as (_ & mes & Hm & Hall).
  destruct (Forall2_lookup_l _ _ _ _ _ Hall He) as (me & Hme & Hv). destruct (Hv Hpure) as [Ha Hv'].
  exists me. cbn [pl_merge set_selectList ss_selectList]. rewrite Hm. split; [done|]. split; [done|]. intros s Hs. cbn [pl_parallel] in Hs.
  assert (Es : ss_selectList s = l_parallel l). { change (?a :: map ?f ?b) with (map f (s0 :: b)) in Hs. apply list_elem_of_fmap in Hs as (s1 & -> & _). done. }
  rewrite Es. specialize (Hv' []). rewrite app_nil_r in Hv'. unfold results in Hv'. rewrite Hv'. symmetry. eapply expr_perm; [|done].
  intros fo Hfo. apply andb_true_iff in Hpure as [_ Hpf]. rewrite forallb_forall in Hpf. specialize (Hpf fo ltac:(by apply list_elem_of_In)).
  unfold pure_factor in Hpf. destruct fo.1; try done. eauto.
Qed.

Definition agg_call (name : string) (e : ValueExpr) : ValueFactor := AGGFUNC name [e].
Definition agg_plan (es : list ValueExpr) : Plan :=
  let s := mkSelectStmt es [] None [] [] [] in mkPlan s false false [s; s] s false.
Definition statistics : list ValueExpr :=
  [mkValueExpr "n" [(agg_call "count" (newSimple (STAR "")), NONE)]; mkValueExpr "" [(agg_call "AVG" (column "x"), NONE)];
   mkValueExpr "r" [(agg_call "MIN" (column "x"), DIVIDE); (agg_call "max" (column "x"), NONE)]].
Definition column_value (r : Values) (e : ValueExpr) : option Qc := c ← getColumnRef e; r (cr_column c).
Definition combine_two (l : list (option Qc * Op)) : option Qc :=
  match l with [(a, NONE)] => a | [(a, DIVIDE); (b, NONE)] => q_div a b | _ => None end.
Definition x_is (x : Z) : Values := fun c => if bool_decide (c = "x"%string) then Some (Q2Qc (inject_Z x)) else None.
Definition x_null : Values := fun _ => None.
Definition demo_parts : list (list Values) := [[x_is 1; x_is 5]; []; [x_null; x_is 3]].
Definition plan_after (p : Plan) : Plan := match aggregate_applyPhysical p with Ret p' => p' | Raise _ => p end.

Lemma aggregate_two_phase_witness :
  (exists me, ss_selectList (pl_merge (plan_after (agg_plan statistics))) !! 1%nat = Some me /\ ve_alias me = ""%string /\
     forall s, s ∈ pl_parallel (plan_after (agg_plan statistics)) ->
       expr_value column_value combine_two (map (result_row column_value combine_two (ss_selectList s)) demo_parts) me =
       expr_value column_value combine_two (concat demo_parts) (mkValueExpr "" [(agg_call "AVG" (column "x"), NONE)])) /\
  this <$> expr_value column_value combine_two (concat demo_parts) (mkValueExpr "" [(agg_call "AVG" (column "x"), NONE)]) = Some (inject_Z 3).
Proof.
  split; [|by vm_compute].
  apply (aggregate_two_phase column_value combine_two (agg_plan statistics) (plan_after (agg_plan statistics)) (concat demo_parts)
    demo_parts 1 (mkValueExpr "" [(agg_call "AVG" (column "x"), NONE)])); try done.
  intros e [->|[->|[->|[]%elem_of_nil]%elem_of_cons]%elem_of_cons]%elem_of_cons k n; done.
Defined.

(** A factor that is not an aggregation has no counterpart in the merge expression:
    [COUNT( * ) * 2] is merged as [SUM(QS1_COUNT) *]. *)
Lemma plain_factor_dropped :
  let e := mkValueExpr "" [(agg_call "COUNT" (newSimple (STAR "")), MULTIPLY); (CONST "2", NONE)] in
  ss_selectList (pl_merge (plan_after (agg_plan [e]))) = [mkValueExpr "" [(newArg1 "SUM" "QS1_COUNT", MULTIPLY)]].
Proof. by vm_compute. Qed.
