(* ===== verification/QueryTemplate.v ===== *)
(** * The text of chunk queries

    [query/QueryTemplate] and the [renderTo] and [putTemplate] methods of the
    classes of [query/]: a statement is rendered into a list of entries, from which
    [QueryMapping::apply] makes the text of a chunk query by putting in the number
    of the chunk; the worker puts in the number of the sub-chunk
    ([fragment_queries] of [QueryRunner.v]).  The scripts of [wbase/Base.cc] with
    which a worker creates the tables of a sub-chunk.

    The clauses after [WHERE] ([GROUP BY], [HAVING], [ORDER BY], [LIMIT]) are a
    list of entries here; restrictors, which analysis has removed, are left out.

    The theorem: what a worker runs for a template of [RelationGraph::rewrite] is
    the statement with the names of the tables that the partitioner and the worker
    make, whatever else its text contains. *)

From Stdlib Require Import Ascii String.
From S2P Require Import Prelude.
From S2P Require Import ScanInfo.
From S2P Require Import StdString.
From S2P Require Import ChunkSpec.
From S2P Require Import CssPath.
From S2P Require Import ChunkResource.
From S2P Require Import QueryRunner.
From S2P Require Import StdFloat.
From S2P Require Import QueryIr.
From S2P Require Import TableInfo.
From S2P Require Import RelationGraph.
From S2P Require Import RelationGraphSem.
From S2P Require Import RelationGraphInv.
From S2P Require Import RelationGraphThms.
From S2P Require Import RelationGraphDemo.

Local Open Scope Z_scope.

(** ** Entries *)

Inductive Entry :=
| StringEntry (s : string)
| TableEntry (db table : string)
| ColumnEntry (c : ColumnRef).

Definition dotted (s : string) : string := if bool_decide (s = ""%string) then "" else s +:+ ".".
Definition getValue (e : Entry) : string :=
  match e with
  | StringEntry s => s
  | TableEntry db table => dotted db +:+ table
  | ColumnEntry c => dotted (cr_db c) +:+ dotted (cr_table c) +:+ cr_column c
  end.

(** [sqlShouldSeparate(s, last, next)] of [global/sqltoken.cc] *)
Definition isSeparatingWord (s : string) : bool :=
  bool_decide (lower_string s ∈ ["select"; "from"; "where"; "by"; "limit"; "and"; "or"]%string).
Definition sqlShouldSeparate (s : string) (last next : ascii) : bool :=
  isSeparatingWord s ||
  (isalnum last && isalnum next) ||
  (bool_decide (last ∈ ["'"; "*"; ")"; "#"; "%"; "_"]%char) && isalnum next) ||
  (bool_decide (next ∈ ["'"; "*"; "%"; "_"]%char) && isalnum last).

(** [sqlFragment]: nothing at all if an entry is empty *)
Fixpoint last_char (s : string) : option ascii :=
  match s with "" => None | String a "" => Some a | String _ s' => last_char s' end%string.
Definition separator (lastEntry : string) (next : ascii) : string :=
  match last_char lastEntry with
  | None => ""
  | Some last => if sqlShouldSeparate lastEntry last next then " " else ""
  end.
Fixpoint fragment_loop (lastEntry : string) (os : string) (entries : list string) : string :=
  match entries with
  | [] => os
  | "" :: _ => ""
  | (String a _ as entryStr) :: entries' => fragment_loop entryStr (os +:+ separator lastEntry a +:+ entryStr) entries'
  end%string.
Definition sqlFragment (entries : list Entry) : string := fragment_loop "" "" (map getValue entries).

(** ** [QueryMapping::apply] *)

(** [s.find(pat)] *)
Fixpoint str_find (pat s : string) : option nat :=
  if String.prefix pat s then Some O
  else match s with "" => None | String _ s' => S <$> str_find pat s' end%string.
Definition str_take (n : nat) (s : string) : string := String.substring 0 n s.
Fixpoint str_drop (n : nat) (s : string) : string :=
  match n, s with S n', String _ s' => str_drop n' s' | _, _ => s end.

(** [replace(s, pat, value)]; [rest] is [s] from the index [i] on. *)
Fixpoint replace_loop (fuel : nat) (pat value rest : string) : outcome string :=
  match fuel with
  | O => Raise OutOfFuel
  | S fuel =>
      match str_find pat rest with
      | None => Ret rest
      | Some j =>
          let? result := replace_loop fuel pat value (str_drop (j + String.length pat) rest) in
          Ret (str_take j rest +:+ value +:+ result)
      end
  end.
Definition replace (s pat value : string) : outcome string := replace_loop (S (String.length s)) pat value s.

(** [Mapping]: the items to replace, in the order of the map; a chunk without
    sub-chunks has an empty string for them. *)
Definition lookup_parameter (spec : ChunkSpec) (p : MapParameter) : string :=
  match p with
  | CHUNK => to_string (cs_chunkId spec)
  | SUBCHUNK => match cs_subChunks spec with sc :: _ => to_string sc | [] => "" end
  end.
Definition replaceItems (m : QueryMapping) (spec : ChunkSpec) : list (string * string) :=
  map (fun e => (e.1, lookup_parameter spec e.2)) (std_sort (fun x y => str_lt x.1 y.1) (map_to_list (qm_subs m))).
Definition mapEntry (items : list (string * string)) (e : Entry) : outcome Entry :=
  let? s := foldM (fun s i => replace s i.1 i.2) (getValue e) items in Ret (StringEntry s).

(** [generate] and [apply] *)
Definition generate (items : list (string * string)) (entries : list Entry) : outcome string :=
  let? newQt := foldM (fun qt e => let? e' := mapEntry items e in Ret (qt ++ [e'])) [] entries in
  Ret (sqlFragment newQt).
Definition mapping_apply (m : QueryMapping) (spec : ChunkSpec) (entries : list Entry) : outcome string :=
  generate (replaceItems m spec) entries.

(** ** Rendering of expressions and conditions *)

Definition str (s : string) : list Entry := [StringEntry s].

(** Values with commas between them, as [ValueExpr::render] counts them *)
Fixpoint commas (l : list (list Entry)) : list Entry :=
  match l with [] => [] | [x] => x | x :: l' => x ++ str "," ++ commas l' end.

Definition op_entries (op : Op) : list Entry :=
  match op with
  | NONE => []
  | UNKNOWN => str "<UNKNOWN_OP>" | PLUS => str "+" | MINUS => str "-" | MULTIPLY => str "*" | DIVIDE => str "/"
  | DIV => str "DIV" | MODULO => str "%" | MOD => str "MOD" | BIT_SHIFT_LEFT => str "<<" | BIT_SHIFT_RIGHT => str ">>"
  | BIT_AND => str "&" | BIT_OR => str "|" | BIT_XOR => str "^"
  end.
Definition as_alias (alias : string) : list Entry := if bool_decide (alias = ""%string) then [] else str "AS" ++ str alias.

(** [ValueExpr::render::applyToQT], [ValueFactor::render::applyToQT] and
    [FuncExpr::renderTo]; [isProtected]: no parentheses are needed *)
Fixpoint ve_render (isProtected : bool) (e : ValueExpr) : list Entry :=
  let 'mkValueExpr alias fs := e in
  let needsClose := negb isProtected && (1 <? length fs)%nat in
  (if needsClose then str "(" else []) ++
  flat_map (fun fo =>
    (match fo.1 with
     | COLUMNREF c => [ColumnEntry c]
     | FUNCTION name ps | AGGFUNC name ps => str name ++ str "(" ++ commas (map (ve_render true) ps) ++ str ")"
     | STAR t => if bool_decide (t = ""%string) then str "*" else [ColumnEntry (mkColumnRef "" t "*")]
     | CONST v => str v
     | EXPR e' => ve_render false e'
     end) ++ op_entries fo.2) fs ++
  (if needsClose then str ")" else []) ++ as_alias alias.

Definition not_entry (hasNot : bool) : list Entry := if hasNot then str "NOT" else [].

(** [getOpPrecedence] *)
Definition getOpPrecedence (t : BoolTerm) : Z :=
  match t with BoolFactor _ _ => 3 | AndTerm _ => 2 | OrTerm _ => 1 | UnknownTerm => 0 end.

(** [renderTo] of the terms; [renderList] of [BoolTerm] puts parentheses around a
    term of lower precedence. *)
Definition in_parens (p q : Z) (es : list Entry) : list Entry := if q <? p then str "(" ++ es ++ str ")" else es.
Fixpoint separated_by (sep : string) (l : list (list Entry)) : list Entry :=
  match l with [] => [] | [x] => x | x :: l' => x ++ str sep ++ separated_by sep l' end.
Fixpoint renderTo (t : BoolTerm) : list Entry :=
  match t with
  | AndTerm ts => separated_by "AND" (map (fun u => in_parens 2 (getOpPrecedence u) (renderTo u)) ts)
  | OrTerm ts => separated_by "OR" (map (fun u => in_parens 1 (getOpPrecedence u) (renderTo u)) ts)
  | BoolFactor fs hasNot =>
      not_entry hasNot ++
      flat_map (fun f =>
        match f with
        | PassTerm text => str text
        | PassListTerm ts => str "(" ++ commas (map str ts) ++ str ")"
        | BoolTermFactor None => []
        | BoolTermFactor (Some t') => renderTo t'
        | CompPredicate l op r => ve_render false l ++ str (opTypeToStr op) ++ ve_render false r
        | InPredicate v cs hn => ve_render false v ++ not_entry hn ++ str "IN" ++ str "(" ++ commas (map (ve_render false) cs) ++ str ")"
        | BetweenPredicate v lo hi hn => ve_render false v ++ not_entry hn ++ str "BETWEEN" ++ ve_render false lo ++ str "AND" ++ ve_render false hi
        | LikePredicate v c hn => ve_render false v ++ not_entry hn ++ str "LIKE" ++ ve_render false c
        | NullPredicate v hn => ve_render false v ++ str "IS" ++ not_entry hn ++ str "NULL"
        end) fs
  | UnknownTerm => str "unknown"
  end.

(** ** Rendering of table references and statements *)

(** [JoinSpec::putTemplate] *)
Definition spec_putTemplate (s : JoinSpec) : outcome (list Entry) :=
  match js_on s, js_using s with
  | Some _, Some _ => Raise LogicError
  | Some on, None => Ret (str "ON" ++ renderTo on)
  | None, Some c => Ret (str "USING" ++ str "(" ++ [ColumnEntry c] ++ str ")")
  | None, None => Raise LogicError
  end.

(** [JoinRef::_putJoinTemplate] *)
Definition putJoinTemplate (jt : JoinType) (natural : bool) : list Entry :=
  (if natural then str "NATURAL" else []) ++
  (match jt with
   | DEFAULT_JOIN => [] | INNER => str "INNER" | LEFT => str "LEFT" ++ str "OUTER" | RIGHT => str "RIGHT" ++ str "OUTER"
   | FULL => str "FULL" ++ str "OUTER" | CROSS => str "CROSS" | UNION => str "UNION"
   end) ++ str "JOIN".

(** [TableRef::putTemplate] and [JoinRef::putTemplate] *)
Definition name_entries (db table alias : string) : list Entry :=
  (if bool_decide (db = ""%string) then [] else str db ++ str ".") ++ str table ++ as_alias alias.
Section joins.
Context (put : TableRef -> outcome (list Entry)).
Definition join_putTemplate (j : JoinRef) : outcome (list Entry) :=
  let? ref := put (jr_right j) in
  let? spec := match jr_spec j with Some s => spec_putTemplate s | None => Ret [] end in
  Ret (putJoinTemplate (jr_type j) (jr_natural j) ++ ref ++ spec).
Fixpoint joins_putTemplate (js : list JoinRef) : outcome (list Entry) :=
  match js with
  | [] => Ret []
  | j :: js' => let? x := join_putTemplate j in let? y := joins_putTemplate js' in Ret (x ++ y)
  end.
End joins.
Fixpoint putTemplate (tr : TableRef) : outcome (list Entry) :=
  let 'mkTableRef _ db table alias joins := tr in
  let? js := joins_putTemplate putTemplate joins in
  Ret (name_entries db table alias ++ js).

(** [FromList::renderTo], with [TableRef::render] *)
Fixpoint from_renderTo (refs : list TableRef) : outcome (list Entry) :=
  match refs with
  | [] => Ret []
  | [tr] => putTemplate tr
  | tr :: refs' => let? x := putTemplate tr in let? y := from_renderTo refs' in Ret (x ++ str "," ++ y)
  end.

(** [SelectStmt::getQueryTemplate]; [tail] has the entries of the other clauses. *)
Definition getQueryTemplate (distinct : bool) (s : SelectStmt) (tail : list Entry) : outcome (list Entry) :=
  let? from := from_renderTo (ss_fromList s) in
  Ret (str (if distinct then "SELECT DISTINCT" else "SELECT") ++ commas (map (ve_render false) (ss_selectList s)) ++
       str "FROM" ++ from ++ (match ss_where s with Some w => str "WHERE" ++ renderTo w | None => [] end) ++ tail).

(** ** The tables of a sub-chunk *)

(** The names of the tables that [CREATE_SUBCHUNK_SCRIPT] creates and what they are
    filled from; [dummy]: [CREATE_DUMMY_SUBCHUNK_SCRIPT] *)
Definition created_tables (dummy : bool) (x : ScTable) : list (string * string) :=
  let '(chunkId, (db, table), subChunkId) := x in
  let c := to_string chunkId in let s := to_string subChunkId in
  let scDb := SUBCHUNKDB_PREFIX +:+ db +:+ "_" +:+ c in
  [(scDb +:+ "." +:+ table +:+ "_" +:+ c +:+ "_" +:+ s, db +:+ "." +:+ table +:+ "_" +:+ c);
   (scDb +:+ "." +:+ table +:+ "FullOverlap_" +:+ c +:+ "_" +:+ s,
    db +:+ "." +:+ table +:+ (if dummy then "_" else "FullOverlap_") +:+ c)].

(** The script as [boost::format] fills it in; [col] is the name of the column with
    the number of the sub-chunk *)
Definition create_script (dummy : bool) (col : string) (x : ScTable) : string :=
  let '(chunkId, (db, _), subChunkId) := x in
  "CREATE DATABASE IF NOT EXISTS " +:+ SUBCHUNKDB_PREFIX +:+ db +:+ "_" +:+ to_string chunkId +:+ ";" +:+
  foldr (fun n text => "CREATE TABLE IF NOT EXISTS " +:+ n.1 +:+ " ENGINE = MEMORY AS SELECT * FROM " +:+ n.2 +:+
                       " WHERE " +:+ col +:+ " = " +:+ to_string subChunkId +:+ ";" +:+ text) "" (created_tables dummy x).

(** The names that [RelationGraph::rewrite] gives to a table reference, and those of
    the tables they stand for *)
Inductive Mode := AsChunk | AsSubChunk | AsOverlap.
Definition template_names (x : Mode * TableInfo) : string * string :=
  match x.1 with AsChunk => chunkNames x.2 | AsSubChunk => subChunkNames x.2 | AsOverlap => overlapNames x.2 end.
Definition physical_names (chunkId subChunkId : Z) (x : Mode * TableInfo) : string * string :=
  let db := ti_database x.2 in let table := ti_table x.2 in
  let c := to_string chunkId in let s := to_string subChunkId in
  match x.1 with
  | AsChunk => (db, table +:+ "_" +:+ c)
  | AsSubChunk => (SUBCHUNKDB_PREFIX +:+ db +:+ "_" +:+ c, table +:+ "_" +:+ c +:+ "_" +:+ s)
  | AsOverlap => (SUBCHUNKDB_PREFIX +:+ db +:+ "_" +:+ c, table +:+ "FullOverlap_" +:+ c +:+ "_" +:+ s)
  end.

(** They are the tables that the worker makes for the sub-chunk. *)
Lemma physical_created dummy c s m i : m <> AsChunk ->
  let n := physical_names c s (m, i) in
  n.1 +:+ "." +:+ n.2 ∈ (created_tables dummy (c, (ti_database i, ti_table i), s)).*1.
Proof.
  intros Hm. unfold physical_names. destruct m; [done| |]; cbn -[append]; rewrite !append_assoc; set_solver.
Qed.

(** ** Replacing tags *)

(** [replace] terminates and is [replace_all]. *)
Lemma replace_skip k pat v s : replace_from k pat v s = replace_from 0 pat v (str_drop k s).
Proof. revert k. induction s as [|a s IH]; intros [|k]; try done. simpl. by rewrite IH. Qed.

Lemma find_none pat v s : pat <> ""%string -> str_find pat s = None -> replace_from 0 pat v s = s.
Proof.
  intros Hp. induction s as [|a s IH]; [done|]. cbn [str_find replace_from]. destruct (String.prefix pat (String a s)); [done|].
  intros H%fmap_None. by rewrite IH.
Qed.

Lemma prefix_drop pat s : String.prefix pat s = true -> (String.length pat <= String.length s)%nat.
Proof.
  revert s. induction pat as [|a pat IH]; intros [|b s] H; simpl in *; try done; try lia. destruct (ascii_dec a b); [|done].
  specialize (IH s H). lia.
Qed.

Lemma find_some pat v s j : pat <> ""%string -> str_find pat s = Some j ->
  replace_from 0 pat v s = str_take j s +:+ v +:+ replace_from 0 pat v (str_drop (j + String.length pat) s) /\
  (String.length (str_drop (j + String.length pat) s) < String.length s)%nat.
Proof.
  intros Hp. revert j. induction s as [|a s IH]; intros j.
  - cbn [str_find]. destruct (String.prefix pat "") eqn:E; [|done]. apply prefix_drop in E. destruct pat; simpl in *; [done|lia].
  - cbn [str_find replace_from]. destruct (String.prefix pat (String a s)) eqn:E.
    + intros [= <-]. destruct pat as [|b pat]; [done|]. simpl. rewrite Nat.sub_0_r, replace_skip. split; [done|].
      assert (forall n x, String.length (str_drop n x) <= String.length x)%nat as Hd by (intros n; induction n; intros [|? x]; simpl; [done|done|done|specialize (IHn x); lia]).
      specialize (Hd (String.length pat) s). lia.
    + intros Hj. apply fmap_Some in Hj as (j1 & Hj & ->). destruct (IH j1 Hj) as [-> Hl]. split; [done|]. simpl. lia.
Qed.

Lemma replace_exact s pat v : pat <> ""%string -> replace s pat v = Ret (replace_all s pat v).
Proof.
  intros Hp. unfold replace, replace_all. assert (H : (String.length s < S (String.length s))%nat) by lia. revert H.
  generalize (S (String.length s)). intros fuel. revert s. induction fuel as [|fuel IH]; intros s Hf; [lia|]. cbn [replace_loop].
  destruct (str_find pat s) as [j|] eqn:E; [|by rewrite find_none].
  destruct (find_some pat v s j Hp E) as [-> Hl]. rewrite IH by lia. done.
Qed.

(** Texts in pieces: plain text without the character [\007], and tags *)
Definition bell_free (s : string) : bool := all_chars (fun a => negb (Ascii.eqb a BELL)) s.

Inductive Piece := Lit (s : string) | Chunk | SubChunk.
Definition piece_text (p : Piece) : string := match p with Lit s => s | Chunk => CHUNK_TAG | SubChunk => SUBCHUNK_TAG end.
Definition text (ps : list Piece) : string := foldr (fun p s => piece_text p +:+ s) ""%string ps.
Definition piece_ok (p : Piece) : Prop := match p with Lit s => bell_free s = true | _ => True end.
Definition fill_chunk (v : string) (p : Piece) : Piece := match p with Chunk => Lit v | _ => p end.
Definition fill_sub (v : string) (p : Piece) : Piece := match p with SubChunk => Lit v | _ => p end.

Lemma text_cons p ps : text (p :: ps) = piece_text p +:+ text ps.
Proof. done. Qed.

Lemma text_app ps qs : text (ps ++ qs) = text ps +:+ text qs.
Proof. induction ps as [|p ps IH]; [done|]. cbn [app]. by rewrite !text_cons, IH, append_assoc. Qed.

(** [\007] is not among the first two characters. *)
Definition early (s : string) : Prop := String.get 0 s <> Some BELL /\ String.get 1 s <> Some BELL.

Lemma early_lit l s : bell_free l = true -> early s -> early (l +:+ s).
Proof.
  intros Hl [H0 H1]. destruct l as [|a [|b l]]; [done| |]; unfold bell_free in Hl; simpl in Hl.
  - rewrite andb_true_r, negb_true_iff, Ascii.eqb_neq in Hl. split; simpl; [congruence|done].
  - apply andb_true_iff in Hl as [Ha [Hb _]%andb_true_iff]. rewrite negb_true_iff, Ascii.eqb_neq in Ha, Hb. split; simpl; congruence.
Qed.

Lemma early_text ps : Forall piece_ok ps -> early (text ps).
Proof. induction 1 as [|p ps Hp _ IH]; [done|]. rewrite text_cons. destruct p; [by apply early_lit|done|done]. Qed.

(** A tag does not begin shortly before a tag. *)
Definition tag (k : ascii) : string := String "%" (String k (String BELL (String k "%"))).

Lemma not_prefix k a s : early s -> String.prefix (tag k) (String a s) = false.
Proof.
  intros [H0 H1]. unfold tag. destruct s as [|b [|c s]]; cbn [String.prefix String.get] in *; repeat (destruct (ascii_dec _ _); [|done]); try done.
  exfalso. congruence.
Qed.

Lemma replace_lit k v l s : bell_free l = true -> early s -> replace_all (l +:+ s) (tag k) v = l +:+ replace_all s (tag k) v.
Proof.
  intros Hl Hs. induction l as [|a l IH]; [done|]. unfold bell_free in Hl. simpl in Hl. apply andb_true_iff in Hl as [_ Hl].
  unfold replace_all in *. rewrite !append_cons. cbn [replace_from]. rewrite not_prefix by by apply early_lit. f_equal. by apply IH.
Qed.

Lemma replace_same k v s : replace_all (tag k +:+ s) (tag k) v = v +:+ replace_all s (tag k) v.
Proof.
  unfold replace_all. change (tag k +:+ s) with (String "%" (String k (String BELL (String k (String "%" s))))). cbn [replace_from].
  assert (String.prefix (tag k) (String "%" (String k (String BELL (String k (String "%" s))))) = true) as ->.
  { unfold tag. cbn [String.prefix]. repeat (destruct (ascii_dec _ _); [|done]). by destruct s. }
  f_equal.
Qed.

Lemma replace_other k k' v s : k <> k' -> k' <> "%"%char -> early s -> replace_all (tag k' +:+ s) (tag k) v = tag k' +:+ replace_all s (tag k) v.
Proof.
  intros Hk Hp He. unfold replace_all. change (tag k' +:+ s) with (String "%" (String k' (String BELL (String k' (String "%" s))))).
  change (tag k' +:+ replace_from 0 (tag k) v s) with (String "%" (String k' (String BELL (String k' (String "%" (replace_from 0 (tag k) v s)))))).
  assert (Ha : forall a x, a <> "%"%char -> String.prefix (tag k) (String a x) = false).
  { intros a x Ha. unfold tag. cbn [String.prefix]. destruct (ascii_dec _ _); [by subst|done]. }
  assert (HB : BELL <> "%"%char) by (vm_compute; discriminate).
  assert (Hf : String.prefix (tag k) (String "%" (String k' (String BELL (String k' (String "%" s))))) = false).
  { unfold tag. cbn [String.prefix]. destruct (ascii_dec _ _); [|done]. by destruct (ascii_dec k k'). }
  cbn [replace_from]. by rewrite Hf, (not_prefix k "%" s He), !Ha by done.
Qed.

Lemma replace_chunks v ps : Forall piece_ok ps -> replace_all (text ps) CHUNK_TAG v = text (map (fill_chunk v) ps).
Proof.
  change CHUNK_TAG with (tag "C"). induction 1 as [|p ps Hp Hps IH]; [done|]. pose proof (early_text ps Hps) as He. cbn [map]. rewrite !text_cons, <-IH.
  destruct p; [by apply replace_lit|apply replace_same|by apply replace_other].
Qed.

Lemma replace_subs v ps : Forall piece_ok ps -> replace_all (text ps) SUBCHUNK_TAG v = text (map (fill_sub v) ps).
Proof.
  change SUBCHUNK_TAG with (tag "S"). induction 1 as [|p ps Hp Hps IH]; [done|]. pose proof (early_text ps Hps) as He. cbn [map]. rewrite !text_cons, <-IH.
  destruct p; [by apply replace_lit|by apply replace_other|apply replace_same].
Qed.

(** ** The text of a fragment *)

(** The entries with the separators before them *)
Fixpoint separators (lastEntry : string) (entries : list string) : list string :=
  match entries with
  | [] => []
  | e :: entries' => match e with "" => "" | String a _ => separator lastEntry a end%string :: separators e entries'
  end.
Fixpoint interleave (seps entries : list string) : string :=
  match seps, entries with
  | sep :: seps', e :: entries' => sep +:+ e +:+ interleave seps' entries'
  | _, _ => ""
  end.

Lemma fragment_spec l os es : Forall (fun e => e <> ""%string) es -> fragment_loop l os es = os +:+ interleave (separators l es) es.
Proof.
  intros H. revert l os. induction H as [|e es He Hes IH]; intros l os; cbn [fragment_loop separators interleave]; [by rewrite append_nil_r|].
  destruct e as [|a e]; [done|]. by rewrite IH, !append_assoc.
Qed.

Lemma separator_blank l a : separator l a = ""%string \/ separator l a = " "%string.
Proof. unfold separator. destruct (last_char l); [|by left]. destruct (sqlShouldSeparate _ _ _); [by right|by left]. Qed.

Lemma separators_blank l es : Forall (fun s => s = "" \/ s = " ")%string (separators l es).
Proof. revert l. induction es as [|[|a e] es IH]; intros l; constructor; auto using separator_blank. Qed.

Lemma separators_length l es : length (separators l es) = length es.
Proof. revert l. induction es as [|e es IH]; intros l; simpl; [done|by rewrite IH]. Qed.

(** Pieces of entries and separators *)
Fixpoint weave (seps : list string) (pss : list (list Piece)) : list Piece :=
  match seps, pss with
  | sep :: seps', ps :: pss' => Lit sep :: ps ++ weave seps' pss'
  | _, _ => []
  end.

Lemma weave_text seps pss : text (weave seps pss) = interleave seps (map text pss).
Proof. revert pss. induction seps as [|x seps IH]; intros [|ps pss]; try done. cbn [weave map interleave]. by rewrite text_cons, text_app, IH. Qed.

Lemma weave_ok seps pss : Forall (fun s => s = "" \/ s = " ")%string seps -> Forall (Forall piece_ok) pss -> Forall piece_ok (weave seps pss).
Proof.
  intros Hs. revert pss. induction Hs as [|x seps Hx _ IH]; intros pss Hp; [by destruct pss|]. destruct Hp as [|ps pss H1 H2]; [done|].
  constructor; [by destruct Hx as [->| ->]|]. apply Forall_app. auto.
Qed.

Lemma weave_fill v seps pss : map (fill_sub v) (weave seps pss) = weave seps (map (map (fill_sub v)) pss).
Proof. revert pss. induction seps as [|x seps IH]; intros [|ps pss]; try done. cbn [weave map fill_sub]. by rewrite map_app, IH. Qed.

(** ** What the worker runs *)

(** No entry is empty or contains [\007]. *)
Definition clean (e : Entry) : bool := negb (String.eqb (getValue e) "") && bell_free (getValue e).

Lemma bell_free_app s t : bell_free (s +:+ t) = bell_free s && bell_free t.
Proof. apply all_chars_app. Qed.

Lemma bell_free_number z : bell_free (to_string z) = true.
Proof.
  eapply all_chars_impl; [|apply to_string_chars]. intros a Ha. apply negb_true_iff, Ascii.eqb_neq. intros ->. by vm_compute in Ha.
Qed.

Section worker.
Context (c : string).

(** An entry of a template and what it becomes; [sub]: there may be tags for
    sub-chunks *)
Definition becomes (sub : bool) (s : string) (e e' : Entry) : Prop :=
  exists ps, Forall piece_ok ps /\ getValue e = text ps /\ getValue e' = text (map (fill_sub s) (map (fill_chunk c) ps)) /\
    text (map (fill_chunk c) ps) <> ""%string /\ (sub = false -> SubChunk ∉ ps).

Lemma clean_becomes sub s e : clean e = true -> becomes sub s e e.
Proof.
  intros [He Hb]%andb_true_iff. apply negb_true_iff, String.eqb_neq in He. exists [Lit (getValue e)]. cbn [map fill_sub fill_chunk]. rewrite text_cons. cbn [text foldr piece_text].
  rewrite append_nil_r. repeat split; try done; [by repeat constructor|]. intros _. set_solver.
Qed.

Lemma clean_all sub s es : Forall (fun e => clean e = true) es -> Forall2 (becomes sub s) es es.
Proof. induction 1; constructor; auto using clean_becomes. Qed.

(** The text that the czar makes *)
Definition after_czar (e : Entry) : string := replace_all (getValue e) CHUNK_TAG c.

Lemma becomes_after sub s e e' : becomes sub s e e' -> after_czar e <> ""%string /\ replace (getValue e) CHUNK_TAG c = Ret (after_czar e).
Proof. intros (ps & Hok & He & _ & Hne & _). split; [|by apply replace_exact]. unfold after_czar. by rewrite He, replace_chunks. Qed.

Lemma generate_spec sub s es es' : Forall2 (becomes sub s) es es' ->
  generate [(CHUNK_TAG, c)] es = Ret (interleave (separators "" (map after_czar es)) (map after_czar es)).
Proof.
  intros H. unfold generate.
  assert (Hf : forall acc, foldM (fun qt e => let? e' := mapEntry [(CHUNK_TAG, c)] e in Ret (qt ++ [e'])) acc es = Ret (acc ++ map (fun e => StringEntry (after_czar e)) es)).
  { induction H as [|e e' es es' He _ IH]; intros acc; cbn [foldM map]; [by rewrite app_nil_r|]. destruct (becomes_after _ _ _ _ He) as [_ Hr].
    unfold mapEntry. cbn [foldM fst snd]. rewrite Hr. cbn [Outcome.bind]. rewrite IH, <-app_assoc. done. }
  rewrite (Hf []). cbn [Outcome.bind app]. unfold sqlFragment. rewrite map_map. cbn [getValue]. rewrite fragment_spec; [done|].
  clear Hf. induction H as [|e e' es es' He _ IH]; constructor; [by eapply becomes_after|done].
Qed.

(** The text that the worker makes of it *)
Context (bell_c : bell_free c = true).

Lemma becomes_pieces sub s es es' : Forall2 (becomes sub s) es es' -> exists pss,
  Forall (Forall piece_ok) pss /\ map after_czar es = map text pss /\ map getValue es' = map text (map (map (fill_sub s)) pss) /\
  (sub = false -> map (map (fill_sub s)) pss = pss).
Proof.
  induction 1 as [|e e' es es' (ps & Hok & He & He' & _ & Hsub) _ (pss & H1 & H2 & H3 & H4)]; [by exists []|].
  exists (map (fill_chunk c) ps :: pss). repeat split.
  - constructor; [|done]. apply Forall_map. eapply Forall_impl; [done|]. by intros [].
  - cbn [map]. rewrite H2. f_equal. unfold after_czar. by rewrite He, replace_chunks.
  - cbn [map]. by rewrite H3, He'.
  - intros Hs. cbn [map]. rewrite H4 by done. f_equal. rewrite <-(map_id (map (fill_chunk c) ps)) at 2. apply map_ext_in.
    intros p Hp%list_elem_of_In. apply list_elem_of_fmap in Hp as (p' & -> & Hp'). destruct p'; try done. by destruct (Hsub Hs).
Qed.

Lemma worker_text sub s seps es es' : Forall2 (becomes sub s) es es' -> Forall (fun x => x = "" \/ x = " ")%string seps ->
  replace_all (interleave seps (map after_czar es)) SUBCHUNK_TAG s = interleave seps (map getValue es') /\
  (sub = false -> interleave seps (map after_czar es) = interleave seps (map getValue es')).
Proof.
  intros H Hs. destruct (becomes_pieces sub s es es' H) as (pss & Hok & -> & -> & Hno). split; [|by intros ->%Hno].
  rewrite <-!weave_text, replace_subs by by apply weave_ok. by rewrite weave_fill.
Qed.

End worker.

Section rendering.
Context (chunkId : Z) (f : nat -> option (Mode * TableInfo)) (sub : bool) (sc : Z).
Context (names_free : forall a x, f a = Some x -> bell_free (ti_database x.2) = true /\ bell_free (ti_table x.2) = true).
Context (no_sub : sub = false -> forall a x, f a = Some x -> x.1 = AsChunk).

Abbreviation as_template := (fun a => template_names <$> f a).
Abbreviation as_physical := (fun a => physical_names chunkId sc <$> f a).
Abbreviation turns := (Forall2 (becomes (to_string chunkId) sub (to_string sc))).

(** A name in pieces *)
Lemma pieces_become ps n n' : Forall piece_ok ps -> n = text ps ->
  n' = text (map (fill_sub (to_string sc)) (map (fill_chunk (to_string chunkId)) ps)) -> Chunk ∈ ps -> (sub = false -> SubChunk ∉ ps) ->
  turns (str n) (str n').
Proof.
  intros Hok -> -> Hc Hs. constructor; [|done]. exists ps. repeat split; [done| |done]. intros E.
  apply list_elem_of_split in Hc as (l1 & l2 & ->). rewrite map_app, text_app in E. cbn [map fill_chunk] in E. rewrite text_cons in E. cbn [piece_text] in E.
  apply (to_string_nonempty chunkId). destruct (text (map _ l1)); [|done]. by destruct (to_string chunkId).
Qed.

Lemma clean_str s : s <> ""%string -> bell_free s = true -> turns (str s) (str s).
Proof. intros Hs Hb. apply clean_all. apply Forall_singleton. apply andb_true_iff. split; [|done]. by apply negb_true_iff, String.eqb_neq. Qed.

Lemma chunk_name l : bell_free l = true -> turns (str (l +:+ CHUNK_TAG)) (str (l +:+ to_string chunkId)).
Proof.
  intros Hl. apply (pieces_become [Lit l; Chunk]); [by repeat constructor|..|set_solver|set_solver]; cbn; [done|by rewrite append_nil_r].
Qed.

Lemma sub_name l : bell_free l = true -> sub = true ->
  turns (str (l +:+ CHUNK_TAG +:+ "_" +:+ SUBCHUNK_TAG)) (str (l +:+ to_string chunkId +:+ "_" +:+ to_string sc)).
Proof.
  intros Hl Hs. apply (pieces_become [Lit l; Chunk; Lit "_"; SubChunk]); [by repeat constructor|..|set_solver|by rewrite Hs]; cbn; [done|by rewrite append_nil_r].
Qed.

Lemma names_become a x alias : f a = Some x -> Forall (fun e => clean e = true) (as_alias alias) ->
  turns (name_entries (template_names x).1 (template_names x).2 alias)
        (name_entries (physical_names chunkId sc x).1 (physical_names chunkId sc x).2 alias).
Proof.
  intros Hx Ha. destruct (names_free a x Hx) as [Hd Ht]. apply (clean_all (to_string chunkId) sub (to_string sc)) in Ha.
  assert (Hs : x.1 <> AsChunk -> sub = true) by (intros Hm; destruct sub; [done|by specialize (no_sub eq_refl a x Hx)]).
  pose proof (chunk_name (SUBCHUNKDB_PREFIX +:+ ti_database x.2 +:+ "_") ltac:(by rewrite !bell_free_app, Hd)) as Hdb.
  unfold name_entries, template_names, physical_names. destruct x as [[] i]; cbn [fst snd chunkNames subChunkNames overlapNames] in *.
  - apply Forall2_app; [|apply Forall2_app; [|done]].
    + case_bool_decide; [done|]. apply Forall2_app; by apply clean_str.
    + unfold getChunkTemplate. rewrite <-!append_assoc. apply chunk_name. by rewrite bell_free_app, Ht.
  - apply Forall2_app; [apply Forall2_app; [|by apply clean_str]|apply Forall2_app; [|done]].
    + unfold getSubChunkDb. by rewrite !append_assoc in Hdb.
    + unfold getSubChunkTemplate. rewrite <-!(append_assoc (ti_table i) "_"). apply sub_name; [by rewrite bell_free_app, Ht|by apply Hs].
  - apply Forall2_app; [apply Forall2_app; [|by apply clean_str]|apply Forall2_app; [|done]].
    + unfold getSubChunkDb. by rewrite !append_assoc in Hdb.
    + unfold getOverlapTemplate. rewrite <-!(append_assoc (ti_table i) "FullOverlap_"). apply sub_name; [by rewrite bell_free_app, Ht|by apply Hs].
Qed.
(** Table references: the entries of the user's query, the template and the query
    with the names of the tables *)
Abbreviation all_clean := (Forall (fun e => clean e = true)).

Definition ref_becomes (tr : TableRef) : Prop := forall es0, putTemplate tr = Ret es0 -> all_clean es0 ->
  exists es es', putTemplate (rename as_template tr) = Ret es /\ putTemplate (rename as_physical tr) = Ret es' /\ turns es es'.

Lemma joins_become js es0 : Forall (fun j => ref_becomes (jr_right j)) js -> joins_putTemplate putTemplate js = Ret es0 -> all_clean es0 ->
  let renamed g := map (fun j => mkJoinRef (rename g (jr_right j)) (jr_type j) (jr_natural j) (jr_spec j)) js in
  exists es es', joins_putTemplate putTemplate (renamed as_template) = Ret es /\ joins_putTemplate putTemplate (renamed as_physical) = Ret es' /\ turns es es'.
Proof.
  intros H. revert es0. induction H as [|j js Hj _ IH]; intros es0 Hr Hc; cbn [map joins_putTemplate] in *; [by exists [], []|].
  apply bind_ret_inv in Hr as (x & Hx & Hr). apply bind_ret_inv in Hr as (y & Hy & Hr). injection Hr as <-. apply Forall_app in Hc as [Hcx Hcy].
  unfold join_putTemplate in Hx. apply bind_ret_inv in Hx as (r & Hr & Hx). apply bind_ret_inv in Hx as (sp & Hsp & Hx). injection Hx as <-.
  apply Forall_app in Hcx as [Hc1 [Hc2 Hc3]%Forall_app]. destruct (Hj r Hr Hc2) as (es & es' & H1 & H2 & H3). destruct (IH y Hy Hcy) as (fs & fs' & H4 & H5 & H6).
  unfold join_putTemplate. cbn [jr_right jr_type jr_natural jr_spec]. rewrite H1, H2. cbn [Outcome.bind]. rewrite Hsp. cbn [Outcome.bind]. rewrite H4, H5. cbn [Outcome.bind].
  do 2 eexists. split; [done|]. split; [done|]. apply Forall2_app; [|done]. apply Forall2_app; [by apply clean_all|]. apply Forall2_app; [done|by apply clean_all].
Qed.

Lemma refs_become tr : ref_becomes tr.
Proof.
  induction tr as [a db t al js IH] using TableRef_rect'. intros es0 Hr Hc. cbn [putTemplate] in Hr. apply bind_ret_inv in Hr as (y & Hy & Hr). injection Hr as <-.
  apply Forall_app in Hc as [Hn Hc]. destruct (joins_become js y IH Hy Hc) as (es & es' & H1 & H2 & H3).
  cbn [rename putTemplate tr_addr tr_alias tr_joins]. rewrite H1, H2. cbn [Outcome.bind]. do 2 eexists. split; [done|]. split; [done|].
  apply Forall2_app; [|done]. unfold names_in. cbn [tr_addr tr_db tr_table]. destruct (f a) as [x|] eqn:Hx; [|by apply clean_all].
  cbn [fmap option_fmap option_map default]. apply (names_become a); [done|]. unfold name_entries in Hn. apply Forall_app in Hn as [_ [_ Hn]%Forall_app]. done.
Qed.

Lemma from_becomes refs es0 : from_renderTo refs = Ret es0 -> all_clean es0 ->
  exists es es', from_renderTo (map (rename as_template) refs) = Ret es /\ from_renderTo (map (rename as_physical) refs) = Ret es' /\ turns es es'.
Proof.
  revert es0. induction refs as [|tr [|tr' refs] IH]; intros es0 Hr Hc; [by exists [], []|by eapply refs_become|].
  change (from_renderTo (tr :: tr' :: refs)) with (let? x := putTemplate tr in let? y := from_renderTo (tr' :: refs) in Ret (x ++ str "," ++ y)) in Hr.
  apply bind_ret_inv in Hr as (x & Hx & Hr). apply bind_ret_inv in Hr as (y & Hy & Hr). injection Hr as <-. apply Forall_app in Hc as [Hcx Hc]. inversion_clear Hc as [|? ? Hcm Hcy].
  destruct (refs_become tr x Hx Hcx) as (es & es' & H1 & H2 & H3). destruct (IH y Hy Hcy) as (fs & fs' & H4 & H5 & H6).
  exists (es ++ str "," ++ fs), (es' ++ str "," ++ fs'). cbn [map] in *. cbn [from_renderTo] in *.
  rewrite H1, H2. cbn [Outcome.bind]. rewrite H4, H5. split; [done|]. split; [done|]. apply Forall2_app; [done|]. constructor; [by apply clean_becomes|done].
Qed.

Lemma stmt_becomes distinct s tail es0 : getQueryTemplate distinct s tail = Ret es0 -> all_clean es0 ->
  exists es es', getQueryTemplate distinct (stmt_rename as_template s) tail = Ret es /\
    getQueryTemplate distinct (stmt_rename as_physical s) tail = Ret es' /\ turns es es'.
Proof.
  intros Hr Hc. unfold getQueryTemplate in *. apply bind_ret_inv in Hr as (x & Hx & Hr). injection Hr as <-. inversion_clear Hc as [|? ? Hc0 Hc'].
  apply Forall_app in Hc' as [Hc1 Hc']. inversion_clear Hc' as [|? ? Hc2 Hc3]. apply Forall_app in Hc3 as [Hc3 Hc4].
  destruct (from_becomes _ x Hx Hc3) as (es & es' & H1 & H2 & H3).
  cbn [stmt_rename ss_fromList ss_selectList ss_where]. rewrite H1, H2. cbn [Outcome.bind]. do 2 eexists. split; [done|]. split; [done|].
  constructor; [by apply clean_becomes|]. apply Forall2_app; [by apply clean_all|]. constructor; [by apply clean_becomes|]. apply Forall2_app; [done|by apply clean_all].
Qed.
End rendering.

Lemma items_chunk m spec : qm_subs m = <[CHUNK_TAG := CHUNK]> ∅ -> replaceItems m spec = [(CHUNK_TAG, to_string (cs_chunkId spec))].
Proof. intros E. unfold replaceItems. by rewrite E, insert_empty, map_to_list_singleton. Qed.

Lemma template_text distinct s tail es0 f m spec :
  getQueryTemplate distinct s tail = Ret es0 -> Forall (fun e => clean e = true) es0 ->
  (forall a x, f a = Some x -> bell_free (ti_database x.2) = true /\ bell_free (ti_table x.2) = true) ->
  qm_subs m = <[CHUNK_TAG := CHUNK]> ∅ ->
  let physical sc := getQueryTemplate distinct (stmt_rename (fun a => physical_names (cs_chunkId spec) sc <$> f a) s) tail in
  exists es q seps,
    getQueryTemplate distinct (stmt_rename (fun a => template_names <$> f a) s) tail = Ret es /\
    mapping_apply m spec es = Ret q /\ Forall (fun x => x = "" \/ x = " ")%string seps /\ length seps = length es /\
    (forall db ts ids, ids <> [] ->
       Forall2 (fun sc w => exists es', physical sc = Ret es' /\ length es' = length es /\ w = interleave seps (map getValue es')) ids
         (fragment_queries (mkFragment [q] (Some (mkSubchunk db ts ids))))) /\
    ((forall a x, f a = Some x -> x.1 = AsChunk) ->
       exists es', physical 0 = Ret es' /\ length es' = length es /\ fragment_queries (mkFragment [q] None) = [interleave seps (map getValue es')]).
Proof.
  intros Hr Hc Hf Hm physical. pose proof (bell_free_number (cs_chunkId spec)) as Hb.
  destruct (stmt_becomes (cs_chunkId spec) f true 0 Hf ltac:(done) distinct s tail es0 Hr Hc) as (es & es1 & Hes & _ & Hturn).
  set (ws := map (after_czar (to_string (cs_chunkId spec))) es). exists es, (interleave (separators "" ws) ws), (separators "" ws).
  pose proof (separators_blank "" ws) as Hblank. split; [done|]. split; [|split; [done|split; [|split]]].
  - unfold mapping_apply. rewrite (items_chunk m spec Hm). by eapply generate_spec.
  - rewrite separators_length. unfold ws. by rewrite length_map.
  - intros db ts ids Hids. assert (E : forall q, fragment_queries (mkFragment [q] (Some (mkSubchunk db ts ids))) = map (fun sc => replace_all q SUBCHUNK_TAG (to_string sc)) ids).
    { intros q. unfold fragment_queries. destruct ids; [done|]. cbn [fr_query fr_subchunks mbind list_bind]. by rewrite app_nil_r. }
    rewrite E. clear E Hids. induction ids as [|sc ids IH]; constructor; [|done].
    destruct (stmt_becomes (cs_chunkId spec) f true sc Hf ltac:(done) distinct s tail es0 Hr Hc) as (es2 & es' & Hes2 & Hes' & Ht).
    assert (es2 = es) as -> by congruence. exists es'. split; [done|]. split; [by apply Forall2_length in Ht|]. by eapply worker_text.
  - intros Hno. destruct (stmt_becomes (cs_chunkId spec) f false 0 Hf ltac:(done) distinct s tail es0 Hr Hc) as (es2 & es' & Hes2 & Hes' & Ht).
    assert (es2 = es) as -> by congruence. exists es'. split; [done|]. split; [by apply Forall2_length in Ht|]. cbn [fragment_queries fr_query fr_subchunks mbind list_bind app].
    f_equal. by eapply worker_text.
Qed.

(** The names that [rewrite] assigns are names for the metadata of the vertices. *)
Lemma assign_names (Q : nat -> Mode * TableInfo -> Prop) l : (forall a n, (a, n) ∈ l -> exists x, n = template_names x /\ Q a x) ->
  exists f, (forall a, assign l a = template_names <$> f a) /\ forall a x, f a = Some x -> Q a x.
Proof.
  induction l as [|[b n] l IH]; intros Hl; [by exists (fun _ => None)|]. destruct IH as (f & Hf & HQ); [intros; apply Hl; set_solver|].
  destruct (Hl b n ltac:(set_solver)) as (x & -> & Hx). exists (fun a => match f a with Some y => Some y | None => if (b =? a)%nat then Some x else None end). split.
  - intros a. cbn [assign]. unfold over, only. rewrite Hf. cbn [fst snd]. destruct (f a); [done|]. by destruct (b =? a)%nat.
  - intros a y. destruct (f a) eqn:E; [intros [= <-]; by apply HQ|]. destruct (Nat.eqb_spec b a) as [<-|]; [by intros [= <-]|done].
Qed.

Lemma rewrite_subs g h s out m : g_empty g = false -> rewrite g h s (mkMapping ∅ ∅) = Ret (out, m) -> qm_subs m = <[CHUNK_TAG := CHUNK]> ∅.
Proof.
  unfold rewrite. intros -> Hr. destruct (filter _ _); [by injection Hr as _ <-|]. destruct (_ <? _)%nat; [done|]. injection Hr as _ <-.
  generalize (filter (fun x => is_director (v_info x) = true) (omap (fun v => h !! v) (g_vertices g))).
  assert (E : qm_subs (insertChunkEntry CHUNK_TAG (mkMapping ∅ ∅)) = <[CHUNK_TAG := CHUNK]> ∅) by done. revert E.
  generalize (insertChunkEntry CHUNK_TAG (mkMapping ∅ ∅)). intros m0 E xs. revert m0 E. induction xs as [|x xs IH]; intros m1 E; [done|by apply IH].
Qed.

Lemma rewrite_modes g h s out m t : g_empty g = false -> rewrite g h s (mkMapping ∅ ∅) = Ret (out, m) -> t ∈ out ->
  exists f, t = stmt_rename (fun a => template_names <$> f a) s /\
    (forall a x, f a = Some x -> exists v y, h !! v = Some y /\ v_tr y = a /\ v_info y = x.2) /\
    (hasSubChunks m = false -> forall a x, f a = Some x -> x.1 = AsChunk).
Proof.
  intros Hg Hr Ht.
  assert (Hv : forall y, y ∈ vertices_of g h -> exists v, h !! v = Some y).
  { intros y Hy. apply list_elem_of_omap in Hy as (v & _ & Hy). eauto. }
  set (Q a (x : Mode * TableInfo) := (exists v y, h !! v = Some y /\ v_tr y = a /\ v_info y = x.2) /\ (hasSubChunks m = false -> x.1 = AsChunk)).
  assert (HQ : forall md y, y ∈ vertices_of g h -> (hasSubChunks m = false -> md = AsChunk) -> Q (v_tr y) (md, v_info y)).
  { intros md y Hy Hm. destruct (Hv y Hy) as [v Hy']. split; [by exists v, y|done]. }
  assert (Hl : exists l, t = stmt_rename (assign l) s /\ forall a n, (a, n) ∈ l -> exists x, n = template_names x /\ Q a x).
  { destruct (rewrite_spec g h s out m Hg Hr) as [(_ & -> & Hs & _)|(_ & Hs & ->)].
    - apply list_elem_of_singleton in Ht as ->. eexists. split; [done|]. intros a n Hin. apply list_elem_of_fmap in Hin as (y & [= -> ->] & Hy). exists (AsChunk, v_info y). auto.
    - apply list_elem_of_fmap in Ht as (p & -> & _). eexists. split; [done|]. intros a n Hin. unfold subchunk_names in Hin. rewrite !elem_of_app in Hin. destruct Hin as [Hin|[Hin|Hin]].
      + apply list_elem_of_fmap in Hin as (y & [= -> ->] & Hy). exists (AsChunk, v_info y). auto.
      + apply list_elem_of_fmap in Hin as (y & [= -> ->] & Hy). apply list_elem_of_filter in Hy as [_ [_ Hy]%list_elem_of_filter]. exists (AsSubChunk, v_info y). split; [done|]. apply HQ; congruence.
      + apply perm_in in Hin as (j & y & Hj & [= -> ->]). apply list_elem_of_lookup_2, list_elem_of_filter in Hj as [_ Hy].
        exists (if N.testbit p (N.of_nat (0 + j)) then AsOverlap else AsSubChunk, v_info y). split; [by destruct (N.testbit _ _)|]. apply HQ; congruence. }
  destruct Hl as (l & -> & Hl). destruct (assign_names Q l Hl) as (f & Hf & HQf). exists f. split; [by apply stmt_rename_ext|]. split; intros; by eapply HQf.
Qed.


(** ** An example *)

Definition near_graph : RelationGraph := (graph_of neighbours).2.
Definition near_heap : Heap := b_heap (graph_of neighbours).1.
Definition chunk_5 : ChunkSpec := mkChunkSpec 5 [11; 12].
Definition entries_of (s : SelectStmt) : list Entry := match getQueryTemplate false s [] with Ret es => es | Raise _ => [] end.
Definition mapping_of (s : SelectStmt) : QueryMapping := (templates_of s).2.
Definition text_of (s : SelectStmt) : string := match mapping_apply (mapping_of neighbours) chunk_5 (entries_of s) with Ret q => q | Raise _ => "" end.
Definition last_template : SelectStmt := default neighbours (last (templates_of neighbours).1).


(** One empty entry, and nothing is left of the statement. *)
Lemma empty_entry_erases :
  sqlFragment (entries_of (mkSelectStmt [newSimple (CONST ""); newSimple (STAR "")] [table 0 "Object" "o"] None [] [] [])) = ""%string.
Proof. by vm_compute. Qed.
